(* ===== verification/_CoqProject ===== *)
-Q . S2P
Prelude.v
BlockPool.v
FreeList.v
PoolSpec.v
PoolRefine.v
KVCache.v
KVFacts.v
CacheProps.v
Detok.v
Request.v
Sampling.v
Scheduler.v
Batch.v
Sampler.v
Draft.v
Attention.v
Engine.v
EngineFacts.v
EngineText.v
EngineProps.v
AttnFacts.v
SchedOps.v
SchedAlloc.v
SchedRun.v
SchedStep.v
BatchFacts.v
Consistency.v
SchedProps.v
AttnProps.v
EngineSafety.v
Text.v
Utf8.v
GrammarParse.v
GrammarParseFacts.v
GrammarParseProps.v
GrammarMatch.v
GrammarSem.v
GrammarText.v
GrammarCheck.v
GrammarAdvance.v
GrammarMeans.v
GrammarReads.v
GrammarTextProps.v
GrammarProps.v
GrammarAgree.v
GrammarApply.v
JsonSchema.v
SchemaRange.v
SchemaProps.v
SchemaVisit.v
JinjaLexer.v
JinjaLexerProps.v
JinjaParser.v
JinjaParserFacts.v
JinjaSyntax.v
JinjaComplete.v
JinjaExprs.v
JinjaParserProps.v
ToolCalls.v
Generation.v
GenerationProps.v
Unicode.v
UnicodeSplit.v
UnicodeFacts.v
SplitRegex.v
SplitMatch.v
UnicodeProps.v
Merge.v
MergeInv.v
Vocab.v
Bpe.v
Pieces.v
BpeRoundTrip.v
Spm.v
Rwkv.v
Ugm.v
UgmProps.v
Wpm.v
Partition.v
Tokenize.v
