(* ===== verification/Prelude.v ===== *)
(** * Verification of iian, an LLM inference engine

    iian serves language models: clients submit requests (a prompt and sampling parameters) and read
    a stream of output chunks; one engine thread batches the requests of all clients into steps of
    a model that keeps its attention keys and values in a cache of fixed-size blocks shared between
    requests.  This library models the parts of src/iian that decide what is computed, cached,
    masked and sent, and proves that they do what the code means them to do.

    ** The program and its models

    - Block pool and paged KV cache (kv_cache.h, kv_cache.cpp).  BlockPool.v has the pool: blocks
      linked into a free list by indices, reference counts, the hash table of cached blocks, and one
      definition per method (touch, get_new_blocks, free_blocks, cache_block, ...).  PoolSpec.v has the
      abstract pool (a free queue, counts and a cache as finite maps) and the class of pool operations;
      FreeList.v and PoolRefine.v prove that the linked pool implements it.  KVCache.v has PagedKVCache
      (update_hashes, get_computed_blocks, allocate_slots, cache_blocks, free, cell_of), written against
      the class, KVFacts.v its specifications, CacheProps.v the theorems.
    - Requests, queues, sampling parameters (request.h, sampling.h, sampler.cpp): Request.v and
      Sampling.v (floats as SpecFloat, [validate] in full).
    - Sampler (sampler.cpp, vec_math.h): Sampler.v has sampling in full, masks, biases, penalties,
      truncations, the draw and log-probabilities, with binary32 and binary64 floats of SpecFloat; expf,
      logf and the random generator are parameters.
    - Detokenizer (tokenizer/detokenizer.cpp): Detok.v, definitions and theorems.
    - Scheduler (scheduler.h, scheduler.cpp): Scheduler.v (add_request, finish_request, preempt,
      schedule with its two phases, update_after_step).  Requests live in a heap of pointers so
      that their destruction is visible.
    - Micro-batch builder and attention inputs (engine.cpp, graph.cpp, paged_attn.cpp): Batch.v builds
      the batch of a step; Attention.v has the masks, the groups of the gathered path and the cells the
      paged kernel scores.  The float kernels are not modelled: a path is the set of cells it reads.
    - Draft model and n-gram drafts (draft.cpp, engine.cpp): Draft.v and [ngram_draft] of Engine.v.
    - Engine (engine.h, engine.cpp): Engine.v has submit, abort, the step (ingest, schedule, batch,
      sampling, verification of drafts, stop strings, delivery, embeddings) and the run loop.  The
      model, the sampler, the tokenizer and the grammar are the operations of the record ModelOps.
    - Grammar (grammar/grammar.h, grammar.cpp): Text.v and Utf8.v (byte strings, the two UTF-8
      decoders), GrammarParse.v (the parser of grammar texts), GrammarMatch.v (the stacks, accepting a
      character or token, rejecting candidates, the mask over the logits, triggers, left-recursion
      check, construction).
    - JSON schemas and regular expressions to grammars (grammar/json_schema.h, json_schema.cpp):
      JsonSchema.v has the converter class with every method (visit, _build_object_rule, _add_rule,
      _pattern_to_rule, resolve_refs, ...), json_schema_to_grammar, regex_to_grammar and
      resolves_to_string.  Printing a JSON value is a parameter.
    - Template lexer (chat/jinja/lexer.h, lexer.cpp): JinjaLexer.v.
    - Template parser (chat/jinja/parser.cpp, the nodes of runtime.h): JinjaParser.v.
    - Tool calls and streams (server/tool_calls.cpp, generation.cpp): ToolCalls.v finds the calls in a
      message and the part of a partial message that can be streamed, and writes the grammar that
      forces calls; Generation.v accumulates the chunks of a choice from its output queue and renders
      the frames of the stream.
    - Unicode and pre-tokenizers (tokenizer/unicode.h, unicode.cpp): Unicode.v (UTF-8, flags of code
      points, the byte alphabet, normalization), UnicodeSplit.v (every hand-written splitter, the
      collapsed categories and the choice between them).  The tables of unicode-data.cpp and std::regex
      are parameters.
    - Vocabularies (tokenizer/vocab.h, vocab.cpp): Vocab.v (the tables of tokens and merges and their
      lookups), Merge.v (symbol lists and the work queue, with the class of priority queues), Bpe.v and
      Spm.v (the merging sessions), Rwkv.v with the trie, Ugm.v and Wpm.v (the other sessions), Partition.v
      (special tokens cut out of a text), Pieces.v (the text of a token, detokenizing and the clean-up
      of spaces), Tokenize.v (text to tokens).  Floats are operations of a class with their laws.

    ** How code is rendered

    Integers are [Z] with wrap-around written out where the type has it ([u32], [u64], [i32]);
    vectors are lists with a [Z] index whose out-of-range access is [UB]; reference counts of blocks and
    sizes limited by memory are unbounded (memory exhaustion is not represented); std::map and
    unordered_map are [gmap]; a method is a function from the state to [res], which is a value, an
    exception ([Throw]), undefined behaviour ([UB], also a failed assertion) or exhausted [Fuel].
    Loops that are not structural carry fuel.  Fuel is computed from the input where a bound is
    known (parser, lexer, scheduler, decoder) and the theorems say it is never exhausted; the
    expansion of grammar stacks and the visit of a schema have no bound in general, and their theorems
    say that from some amount of fuel on the result is the stated one ([evals]).  Comments of definitions name the code they
    translate when the name differs.

    ** What is shown

    - Pool and cache: the pool refines its abstract specification on every legal sequence of
      operations; allocate_slots is exact in its success condition and effects; lookups return the
      longest cached prefix; incremental hashing equals hashing from scratch; free returns all
      references (CacheProps.v).
    - Scheduling: as long as no two different prefixes in use have the same chained hash, a step
      (schedule, batch, forward pass, update) never fails and keeps the invariant
      that every cached row is the row of the sequence run alone; the limits, priorities, preemption
      and progress of schedule (SchedOps.v, SchedAlloc.v, SchedRun.v, SchedStep.v, BatchFacts.v,
      Consistency.v, SchedProps.v).
    - Attention: the three attention paths read the same cells (AttnFacts.v, AttnProps.v).
    - Sampler (Sampler.v): for binary32 logits without NaN, the bucket sort and the one-pass top_k are
      sorts, which rests on a proof that the rounding of SpecFloat's subtraction and product is
      monotone; sampling stays in range and yields a token of the vocabulary.  The exceptions are part
      of the statements: a spread of the candidates that does not fit the buckets' scale makes the
      conversion to int undefined, and std::sort is undefined when its comparison is no strict weak order
      (nan_sort_undefined).  A forbidden token is sampled only by a draw of exactly 0 or one that rounding
      leaves unused (zero_draw_takes_masked).  Of expf only that minus infinity gives zero is assumed.
    - Engine: verifying drafts equals decoding one by one; what a client reads is the text
      (EngineFacts.v, EngineText.v, EngineProps.v).
    - Grammar: parsing terminates and yields well-formed rules (GrammarParseFacts.v,
      GrammarParseProps.v); with the language of a grammar defined independently in GrammarSem.v,
      expansion is exact (GrammarAdvance.v), the engine recognises the language and accepting is the
      derivative (GrammarProps.v); rejecting candidates in batches is exact, agrees with acceptance
      and is what the mask over the vocabulary does (GrammarAgree.v, GrammarApply.v).
    - Grammar texts: with the meaning of a grammar text defined on its expressions in GrammarText.v, the
      parser accepts every such text and each rule it builds generates what its expression denotes
      (GrammarMeans.v, GrammarReads.v, GrammarTextProps.v); GrammarCheck.v decides by evaluation that a
      text is written as an expression says.
    - Schemas: for schemas made of constants, enums, integer ranges with both bounds, simple types, unions, closed
      objects, arrays and tuples ([valid] of SchemaVisit.v) the text that is written is such a grammar
      text, and its root generates exactly the JSON texts the schema describes (SchemaRange.v: integer
      ranges, SchemaProps.v: tables of rules, names and built-in rules, SchemaVisit.v: the kinds of
      schemas and the theorems); on every schema a conversion keeps the rules and errors it has.
    - Text: UTF-8 decoding is a round trip across arbitrary cuts (Utf8.v); the detokenizer loses no
      byte and emits whole characters (Detok.v); the lexer stays in its source and places its tokens
      in order (JinjaLexerProps.v).
    - Template parser: every nested call and loop turn consumes a token, so parsing ends
      (JinjaParserFacts.v); with the language defined as a grammar with levels in JinjaSyntax.v, the
      parser builds the tree of every sentence (JinjaComplete.v: texts in the token list and where an
      expression ends, JinjaExprs.v: the rules of expressions, JinjaParserProps.v: statements and the
      theorems).
    - Streams: what a client reads is the message of the answer without streaming, up to blanks and the
      random ids of calls (GenerationProps.v).
    - Pre-tokenizers: splitting loses nothing, and the hand-written splitters of gpt2, llama3, qwen2 and
      qwen35 divide a text the way the expressions they stand for do (UnicodeFacts.v, SplitRegex.v, SplitMatch.v, UnicodeProps.v).
    - Tokenizing: BPE and SPM with their queues are greedy merging by rank and score (MergeInv.v, Bpe.v,
      Spm.v), UGM finds a best tokenization (UgmProps.v), WPM and RWKV take the longest match (Wpm.v,
      Rwkv.v); special tokens are cut out, without loss unless they strip blanks (Partition.v); for byte-level BPE detokenizing
      with the cache of pieces that load builds inverts tokenizing (BpeRoundTrip.v, Tokenize.v); the clean-up in place is a plain rewriting
      (Pieces.v); the tables of a vocabulary are inverse to each other (Vocab.v).
    - Deviations proved in general: hit_under_another_prefix (CacheProps.v), for every cached block behind
      the first of a request, and embedding_step_use_after_free (EngineSafety.v), for every batch of
      embedding requests of which one is complete.
    - Deviations, each proved on a concrete input: min_tokens_streams_stop_string and stop_token_text_kept (EngineProps.v),
      preempted_request_starves (EngineSafety.v), validate_accepts_nan
      (Sampling.v), token_element_mid_token, undefined_start_rule, negated_partial_too_strict and
      left_recursion_missed (GrammarApply.v), zero_draw_takes_masked and nan_sort_undefined (Sampler.v), open_range_inexact (SchemaVisit.v),
      tool_parameter_named_root (ToolCalls.v), first_character_lost (JinjaLexerProps.v),
      unary_minus_refused and comparison_chains_left (JinjaParserProps.v),
      leading_blank_loses_content (GenerationProps.v), too_large_code_point_throws, empty_match_empty_word and
      kimi_k2_ignores_case (UnicodeProps.v), rwkv_never_ends (Rwkv.v),
      user_defined_prefix_breaks_characters (UgmProps.v).

    ** Not modelled

    Tensor graphs, float kernels and the architectures (arch, graph building, vec_math): float
    arithmetic on ggml tensors, a library that is not part of the sources.  In the
    engine model the sampler is an operation; of vec_math.h only the scalar paths are modelled.  Model
    files (gguf.cpp, model_loader.cpp), logging,
    the HTTP server and request parsing, the command line and the model registry: input and output.
    The template runtime and its values (runtime.cpp, value.cpp) with the chat templates on top of
    them: a dynamically typed interpreter of the trees the parser builds, with its formatting of
    floats and some hundred built-in functions; the trees are where the model of templates ends.  Of
    vocab.cpp the PLaMo-2 session, the two sessions that split a text before BPE, and the part of load
    that recognises models by the names in their files, which is a long list of constants.  The data
    of unicode-data.cpp.

    This file holds what the components share: results, machine integers, vectors, tactics. *)

From stdpp Require Export base gmap sets list strings numbers fin_maps.
From Stdlib Require Export ZArith Lia.

(** ** The effect of a C++ function body

    A function returns a value, throws an exception ([Throw]), or runs into undefined behaviour
    ([UB]: an out-of-range [operator[]], a read of a destroyed object).  Loops that are not
    structural carry fuel, and [Fuel] is what they return when it runs out; every theorem about
    such a loop shows that the fuel chosen is never exhausted. *)
Inductive exn : Type :=
| Throw (msg : string)
| UB (msg : string)
| Fuel.

Inductive res (A : Type) : Type :=
| Ok (a : A)
| Err (e : exn).
Arguments Ok {A} a.
Arguments Err {A} e.

#[global] Instance exn_eq_dec : EqDecision exn.
Proof. solve_decision. Defined.
#[global] Instance res_eq_dec {A} `{EqDecision A} : EqDecision (res A).
Proof. solve_decision. Defined.

Definition rbind {A B} (m : res A) (f : A -> res B) : res B :=
  match m with Ok a => f a | Err e => Err e end.

Declare Scope iian_scope.
Delimit Scope iian_scope with iian.
Notation "'let!' x := e 'in' k" := (rbind e (fun x => k))
  (at level 10, x pattern, e at level 100, k at level 200) : iian_scope.
Notation "'throw!' s" := (Err (Throw s)) (at level 10, s at level 9) : iian_scope.
Open Scope iian_scope.
Open Scope Z_scope.

Lemma bind_Ok {A B} (m : res A) (f : A -> res B) b :
  (let! x := m in f x) = Ok b <-> exists a, m = Ok a /\ f a = Ok b.
Proof. destruct m as [a | e]; simpl; naive_solver. Qed.

Lemma bind_Ok_l {A B} (a : A) (f : A -> res B) : (let! x := Ok a in f x) = f a.
Proof. reflexivity. Qed.

(** ** Runs that return a value with a property or throw, and nothing else *)
Definition safe {A} (P : A -> Prop) (r : res A) : Prop :=
  match r with Ok a => P a | Err (Throw _) => True | Err _ => False end.
Lemma safe_bind {A B} (P : A -> Prop) (Q : B -> Prop) m (f : A -> res B) :
  safe P m -> (forall a, P a -> safe Q (f a)) -> safe Q (let! x := m in f x).
Proof. destruct m as [a | [] ]; simpl; auto. Qed.
Lemma safe_weaken {A} (P Q : A -> Prop) r : safe P r -> (forall a, P a -> Q a) -> safe Q r.
Proof. destruct r as [a | [] ]; simpl; auto. Qed.

(** ** Machine integers: [Z] with the wrap-around written out *)
Definition u32 (z : Z) : Z := z mod 2 ^ 32.
Definition u64 (z : Z) : Z := z mod 2 ^ 64.
(** conversion of a 32-bit pattern to [int32_t] (two's complement) *)
Definition i32 (z : Z) : Z := (z + 2 ^ 31) mod 2 ^ 32 - 2 ^ 31.

Lemma u32_small z : 0 <= z < 2 ^ 32 -> u32 z = z.
Proof. apply Z.mod_small. Qed.
Lemma u32_range z : 0 <= u32 z < 2 ^ 32.
Proof. apply Z.mod_pos_bound. lia. Qed.
Lemma u64_small z : 0 <= z < 2 ^ 64 -> u64 z = z.
Proof. apply Z.mod_small. Qed.
Lemma u64_range z : 0 <= u64 z < 2 ^ 64.
Proof. apply Z.mod_pos_bound. lia. Qed.
Lemma i32_small z : - 2 ^ 31 <= z < 2 ^ 31 -> i32 z = z.
Proof. unfold i32. intros. rewrite Z.mod_small; lia. Qed.

(** ** Vectors: lists with a [Z] index *)
Definition Zlen {A} (l : list A) : Z := Z.of_nat (length l).

Definition vlookup {A} (l : list A) (i : Z) : option A :=
  if 0 <=? i then l !! Z.to_nat i else None.
Definition vinsert {A} (i : Z) (x : A) (l : list A) : list A :=
  if 0 <=? i then <[Z.to_nat i := x]> l else l.

(** [v[i]] *)
Definition vget {A} (l : list A) (i : Z) : res A :=
  match vlookup l i with Some x => Ok x | None => Err (UB "vector index out of range") end.
(** [v[i] = x] *)
Definition vset {A} (l : list A) (i : Z) (x : A) : res (list A) :=
  match vlookup l i with Some _ => Ok (vinsert i x l) | None => Err (UB "vector index out of range") end.

(** the [n] elements from index [i] on (a pointer range [data() + i, data() + i + n)) *)
Definition vslice {A} (l : list A) (i n : Z) : list A := take (Z.to_nat n) (drop (Z.to_nat i) l).

Lemma Zlen_nil {A} : Zlen (@nil A) = 0.
Proof. reflexivity. Qed.
Lemma Zlen_cons {A} (x : A) l : Zlen (x :: l) = 1 + Zlen l.
Proof. unfold Zlen. simpl length. lia. Qed.
Lemma Zlen_app {A} (l k : list A) : Zlen (l ++ k) = Zlen l + Zlen k.
Proof. unfold Zlen. rewrite length_app. lia. Qed.
Lemma Zlen_nonneg {A} (l : list A) : 0 <= Zlen l.
Proof. unfold Zlen. lia. Qed.
Lemma Zlen_rev {A} (l : list A) : Zlen (rev l) = Zlen l.
Proof. unfold Zlen. by rewrite length_rev. Qed.
Lemma Zlen_0 {A} (l : list A) : Zlen l = 0 -> l = [].
Proof. destruct l; [done |]. rewrite Zlen_cons. pose proof (Zlen_nonneg l). lia. Qed.
Lemma Zlen_vinsert {A} (l : list A) i x : Zlen (vinsert i x l) = Zlen l.
Proof. unfold Zlen, vinsert. case_match; [by rewrite length_insert | done]. Qed.

Lemma vlookup_Some_range {A} (l : list A) i x : vlookup l i = Some x -> 0 <= i < Zlen l.
Proof.
  unfold vlookup, Zlen. case_match eqn:E; [| done]. intros H%lookup_lt_Some. lia.
Qed.
Lemma vlookup_lt_is_Some {A} (l : list A) i : 0 <= i < Zlen l -> is_Some (vlookup l i).
Proof.
  unfold vlookup, Zlen. intros H. case_match eqn:E; [| lia].
  apply lookup_lt_is_Some. lia.
Qed.
Lemma vlookup_ge_None {A} (l : list A) i : Zlen l <= i \/ i < 0 -> vlookup l i = None.
Proof.
  unfold vlookup, Zlen. intros H. case_match eqn:E; [| done].
  apply lookup_ge_None. lia.
Qed.
Lemma vlookup_vinsert_eq {A} (l : list A) i x :
  0 <= i < Zlen l -> vlookup (vinsert i x l) i = Some x.
Proof.
  unfold vlookup, vinsert, Zlen. intros H. case_match; [| lia].
  apply list_lookup_insert_eq. lia.
Qed.
Lemma vlookup_vinsert_ne {A} (l : list A) i j x :
  i <> j -> vlookup (vinsert i x l) j = vlookup l j.
Proof.
  unfold vlookup, vinsert. intros H. destruct (0 <=? j) eqn:Ej; [| done].
  destruct (0 <=? i) eqn:Ei; [| done]. apply list_lookup_insert_ne. lia.
Qed.
Lemma vlookup_app_l {A} (l k : list A) i : i < Zlen l -> vlookup (l ++ k) i = vlookup l i.
Proof.
  unfold vlookup, Zlen. intros H. case_match eqn:E; [| done]. apply lookup_app_l. lia.
Qed.
Lemma vlookup_app_r {A} (l k : list A) i :
  Zlen l <= i -> vlookup (l ++ k) i = vlookup k (i - Zlen l).
Proof.
  unfold vlookup, Zlen. intros H.
  destruct (0 <=? i) eqn:E; [| lia]. destruct (0 <=? i - _) eqn:E'; [| lia].
  rewrite lookup_app_r by lia. f_equal. lia.
Qed.
Lemma vlookup_elem_of {A} (l : list A) i x : vlookup l i = Some x -> x ∈ l.
Proof. unfold vlookup. case_match; [| done]. apply list_elem_of_lookup_2. Qed.

Lemma vlookup_fmap {A B} (f : A -> B) (l : list A) i x :
  vlookup l i = Some x -> vlookup (f <$> l) i = Some (f x).
Proof. unfold vlookup. case_match; [| done]. intros H0. by rewrite list_lookup_fmap, H0. Qed.

Lemma vget_Ok {A} (l : list A) i x : vget l i = Ok x <-> vlookup l i = Some x.
Proof. unfold vget. destruct (vlookup l i); naive_solver. Qed.
Lemma vset_Ok {A} (l : list A) i x :
  0 <= i < Zlen l -> vset l i x = Ok (vinsert i x l).
Proof.
  unfold vset. intros H. by destruct (vlookup_lt_is_Some l i H) as [y ->].
Qed.

Lemma vslice_length {A} (l : list A) i n :
  0 <= i -> 0 <= n -> i + n <= Zlen l -> Zlen (vslice l i n) = n.
Proof.
  unfold vslice, Zlen. intros. rewrite length_take, length_drop. lia.
Qed.

(** ** Tactics and hints *)
Create HintDb iian.
Create Rewrite HintDb zlen.
#[export] Hint Resolve Zlen_nonneg u32_range u64_range : iian.
#[export] Hint Rewrite @Zlen_nil @Zlen_cons @Zlen_app @Zlen_rev @Zlen_vinsert : zlen.

(** arithmetic on lengths *)
Ltac zlen := autorewrite with zlen in *; rewrite ?Zlen_nonneg in *; try lia.
(** take a successful monadic run apart *)
Ltac run_inv H :=
  repeat match type of H with
  | rbind _ _ = Ok _ => apply bind_Ok in H; destruct H as (? & ? & H)
  end.
(** split the first [match] or [if] of the goal *)
Ltac casem := case_match; simplify_eq/=.
