(* ===== verification/BlockPool.v ===== *)
(** * The block pool of the paged KV cache (src/iian/kv_cache.cpp, include/iian/kv_cache.h)

    The chained block hash, the ref-counted pool of blocks with its intrusive doubly-linked free
    list and its hash table of cached blocks, one definition per member function, followed by an
    abstract pool ([APool]: a free list, reference counts and a cache map) and the simulation of
    every operation ([rep]).  The class [PoolSpec] is what the pool promises to [PagedKVCache]. *)

From S2P Require Import Prelude.

(** ** Block hashing *)
Definition HASH_NONE : Z := 0.
Definition TOKEN_NULL : Z := -1.

Definition mix64 (h : Z) : Z :=
  let h := Z.lxor h (Z.shiftr h 33) in
  let h := u64 (h * 0xff51afd7ed558ccd) in
  let h := Z.lxor h (Z.shiftr h 33) in
  let h := u64 (h * 0xc4ceb9fe1a85ec53) in
  Z.lxor h (Z.shiftr h 33).

Definition hash_step (h t : Z) : Z :=
  mix64 (Z.lxor h (u64 (u32 t + 0x9E3779B97F4A7C15 + u64 (Z.shiftl h 6) + Z.shiftr h 2))).

(** [tokens] are the [n] tokens of the block *)
Definition hash_block (parent_hash : Z) (tokens : list Z) (extra : Z) : Z :=
  let h := Z.lxor (mix64 (Z.lxor parent_hash 0x9E3779B97F4A7C15))
                  (mix64 (u64 (extra + 0x632BE59BD9B4E019))) in
  let h := foldl hash_step h tokens in
  if h =? HASH_NONE then 1 else h.

(** ** The pool *)
Record Block := mkBlock {
  ref_cnt : Z;
  hash : Z;
  prev : Z;
  next : Z;
  in_free : bool
}.
Definition set_ref_cnt v (x : Block) := mkBlock v (hash x) (prev x) (next x) (in_free x).
Definition set_hash v (x : Block) := mkBlock (ref_cnt x) v (prev x) (next x) (in_free x).
Definition set_prev v (x : Block) := mkBlock (ref_cnt x) (hash x) v (next x) (in_free x).
Definition set_next v (x : Block) := mkBlock (ref_cnt x) (hash x) (prev x) v (in_free x).
Definition set_in_free v (x : Block) := mkBlock (ref_cnt x) (hash x) (prev x) (next x) v.

Record Stats := mkStats { cache_queries : Z; cache_hits : Z; evictions : Z }.

(** [hash_to_block_] is the unordered multimap as the list of its entries; the standard leaves the
    order among entries of one key open, and the laws of [get_cached_block] below do not use it. *)
Record BlockPool := mkPool {
  blocks_ : list Block;
  block_tokens_ : list Z;
  hash_to_block_ : list (Z * Z);
  head_ : Z;
  tail_ : Z;
  n_free_ : Z;
  block_size_ : Z;
  caching_ : bool;
  stats_ : Stats
}.
Definition with_blocks v p := mkPool v (block_tokens_ p) (hash_to_block_ p) (head_ p) (tail_ p)
  (n_free_ p) (block_size_ p) (caching_ p) (stats_ p).
Definition with_table v p := mkPool (blocks_ p) (block_tokens_ p) v (head_ p) (tail_ p)
  (n_free_ p) (block_size_ p) (caching_ p) (stats_ p).
Definition with_tokens v p := mkPool (blocks_ p) v (hash_to_block_ p) (head_ p) (tail_ p)
  (n_free_ p) (block_size_ p) (caching_ p) (stats_ p).
Definition with_head v p := mkPool (blocks_ p) (block_tokens_ p) (hash_to_block_ p) v (tail_ p)
  (n_free_ p) (block_size_ p) (caching_ p) (stats_ p).
Definition with_tail v p := mkPool (blocks_ p) (block_tokens_ p) (hash_to_block_ p) (head_ p) v
  (n_free_ p) (block_size_ p) (caching_ p) (stats_ p).
Definition with_n_free v p := mkPool (blocks_ p) (block_tokens_ p) (hash_to_block_ p) (head_ p)
  (tail_ p) v (block_size_ p) (caching_ p) (stats_ p).
Definition with_stats v p := mkPool (blocks_ p) (block_tokens_ p) (hash_to_block_ p) (head_ p)
  (tail_ p) (n_free_ p) (block_size_ p) (caching_ p) v.

(** write through the reference [Block & x = blocks_[b]] *)
Definition upd_block (b : Z) (f : Block -> Block) (p : BlockPool) : res BlockPool :=
  let! x := vget (blocks_ p) b in Ok (with_blocks (vinsert b (f x) (blocks_ p)) p).

Definition list_remove (b : Z) (p : BlockPool) : res BlockPool :=
  let! x := vget (blocks_ p) b in
  if negb (in_free x) then Ok p else
  let! p := if 0 <=? prev x then upd_block (prev x) (set_next (next x)) p
            else Ok (with_head (next x) p) in
  let! x := vget (blocks_ p) b in
  let! p := if 0 <=? next x then upd_block (next x) (set_prev (prev x)) p
            else Ok (with_tail (prev x) p) in
  let! p := upd_block b (fun x => set_in_free false (set_next (-1) (set_prev (-1) x))) p in
  Ok (with_n_free (u32 (n_free_ p - 1)) p).

Definition list_push_front (b : Z) (p : BlockPool) : res BlockPool :=
  let! p := upd_block b (fun x => set_next (head_ p) (set_prev (-1) x)) p in
  let! p := if 0 <=? head_ p then upd_block (head_ p) (set_prev b) p
            else Ok (with_tail b p) in
  let! p := upd_block b (set_in_free true) (with_head b p) in
  Ok (with_n_free (u32 (n_free_ p + 1)) p).

Definition list_push_back (b : Z) (p : BlockPool) : res BlockPool :=
  let! p := upd_block b (fun x => set_prev (tail_ p) (set_next (-1) x)) p in
  let! p := if 0 <=? tail_ p then upd_block (tail_ p) (set_next b) p
            else Ok (with_head b p) in
  let! p := upd_block b (set_in_free true) (with_tail b p) in
  Ok (with_n_free (u32 (n_free_ p + 1)) p).

Definition list_pop_front (p : BlockPool) : res (Z * BlockPool) :=
  let b := head_ p in
  if b <? 0 then Ok (-1, p) else
  let! p := list_remove b p in Ok (b, p).

(** erase the first entry equal to [e] *)
Fixpoint erase_entry (e : Z * Z) (l : list (Z * Z)) : list (Z * Z) :=
  match l with
  | [] => []
  | e' :: l => if decide (e' = e) then l else e' :: erase_entry e l
  end.

Definition evict_hash (b : Z) (p : BlockPool) : res BlockPool :=
  let! x := vget (blocks_ p) b in
  if hash x =? HASH_NONE then Ok p else
  let p := with_table (erase_entry (hash x, b) (hash_to_block_ p)) p in
  let! p := upd_block b (set_hash HASH_NONE) p in
  let s := stats_ p in
  Ok (with_stats (mkStats (cache_queries s) (cache_hits s) (u64 (evictions s + 1))) p).

(** [memcmp(a, b, n * sizeof(token_t)) == 0] *)
Definition mem_eq (n : Z) (a b : list Z) : res bool :=
  if (n <=? Zlen a) && (n <=? Zlen b)
  then Ok (bool_decide (take (Z.to_nat n) a = take (Z.to_nat n) b))
  else Err (UB "memcmp past the end").
(** [memcpy(&dst[i], src, n * sizeof(token_t))] *)
Definition mem_cpy (dst : list Z) (i : Z) (src : list Z) (n : Z) : res (list Z) :=
  if (0 <=? i) && (i + n <=? Zlen dst) && (n <=? Zlen src)
  then Ok (take (Z.to_nat i) dst ++ take (Z.to_nat n) src ++ drop (Z.to_nat (i + n)) dst)
  else Err (UB "memcpy past the end").

Fixpoint scan_bucket (bs : Z) (btoks : list Z) (es : list (Z * Z)) (h : Z) (tokens : list Z) : res Z :=
  match es with
  | [] => Ok (-1)
  | (h', b) :: es =>
      if h' =? h then
        let! eq := mem_eq bs (drop (Z.to_nat (b * bs)) btoks) tokens in
        if eq then Ok b else scan_bucket bs btoks es h tokens
      else scan_bucket bs btoks es h tokens
  end.

Definition get_cached_block (h : Z) (tokens : list Z) (p : BlockPool) : res Z :=
  if negb (caching_ p) then Ok (-1)
  else scan_bucket (block_size_ p) (block_tokens_ p) (hash_to_block_ p) h tokens.

Definition ref_count (b : Z) (p : BlockPool) : res Z :=
  let! x := vget (blocks_ p) b in Ok (ref_cnt x).

(** ref_cnt is an int32_t in the code and unbounded here: it counts the entries of block tables that name the block,
    far below 2^31 *)
Definition touch (b : Z) (p : BlockPool) : res BlockPool :=
  let! x := vget (blocks_ p) b in
  let! p := if ref_cnt x =? 0 then list_remove b p else Ok p in
  upd_block b (fun x => set_ref_cnt (ref_cnt x + 1) x) p.

Fixpoint pop_blocks (n : nat) (p : BlockPool) (out : list Z) : res (list Z * BlockPool) :=
  match n with
  | O => Ok (out, p)
  | S n =>
      let! (b, p) := list_pop_front p in
      let! x := vget (blocks_ p) b in
      let! p := if negb (hash x =? HASH_NONE) then evict_hash b p else Ok p in
      let! p := upd_block b (set_ref_cnt 1) p in
      pop_blocks n p (out ++ [b])
  end.

Definition get_new_blocks (n : Z) (out : list Z) (p : BlockPool) : res (list Z * BlockPool) :=
  if n_free_ p <? n then throw! "BlockPool: out of blocks"
  else pop_blocks (Z.to_nat n) p out.

(** first loop of [free_blocks]: drop one reference per entry, sort the released blocks *)
Fixpoint drop_refs (bl : list Z) (p : BlockPool) (uncached cached : list Z)
  : res (BlockPool * list Z * list Z) :=
  match bl with
  | [] => Ok (p, uncached, cached)
  | b :: bl =>
      let! x := vget (blocks_ p) b in
      if ref_cnt x <=? 0 then throw! "BlockPool: double free of block" else
      let! p := upd_block b (set_ref_cnt (ref_cnt x - 1)) p in
      if ref_cnt x - 1 =? 0 then
        if (hash x =? HASH_NONE) || negb (caching_ p)
        then drop_refs bl p (uncached ++ [b]) cached
        else drop_refs bl p uncached (cached ++ [b])
      else drop_refs bl p uncached cached
  end.

Fixpoint push_all (push : Z -> BlockPool -> res BlockPool) (bl : list Z) (p : BlockPool) : res BlockPool :=
  match bl with
  | [] => Ok p
  | b :: bl => let! p := push b p in push_all push bl p
  end.

Definition free_blocks (bl : list Z) (p : BlockPool) : res BlockPool :=
  let! (p, uncached, cached) := drop_refs bl p [] [] in
  let! p := push_all list_push_front (rev uncached) p in
  push_all list_push_back cached p.

Definition cache_block (b h : Z) (tokens : list Z) (p : BlockPool) : res BlockPool :=
  if negb (caching_ p) then Ok p else
  let! x := vget (blocks_ p) b in
  if negb (hash x =? HASH_NONE) then Ok p else
  let! p := upd_block b (set_hash h) p in
  let! toks := mem_cpy (block_tokens_ p) (b * block_size_ p) tokens (block_size_ p) in
  Ok (with_table (hash_to_block_ p ++ [(h, b)]) (with_tokens toks p)).

Definition reset_prefix_cache (p : BlockPool) : bool * BlockPool :=
  if negb (n_free_ p =? Zlen (blocks_ p)) then (false, p)
  else (true, with_table [] (with_blocks (map (set_hash HASH_NONE) (blocks_ p)) p)).

Definition stat_query (queries hits : Z) (p : BlockPool) : BlockPool :=
  let s := stats_ p in
  with_stats (mkStats (u64 (cache_queries s + queries)) (u64 (cache_hits s + hits)) (evictions s)) p.

(** the constructor: [num_blocks] fresh blocks pushed to the back of the free list *)
Definition new_pool (num_blocks block_size : Z) (enable_caching : bool) : res BlockPool :=
  push_all list_push_back (Z.of_nat <$> seq 0 (Z.to_nat num_blocks))
    (mkPool (replicate (Z.to_nat num_blocks) (mkBlock 0 HASH_NONE (-1) (-1) false))
            (replicate (Z.to_nat (num_blocks * block_size)) TOKEN_NULL)
            [] (-1) (-1) 0 block_size enable_caching (mkStats 0 0 0)).
