(* ===== verification/FreeList.v ===== *)
(** * The intrusive free list of the block pool

    [seg] describes a stretch of the doubly-linked list threaded through [Block::prev] and
    [Block::next]; [free_list p l] says that the pool's free list holds exactly the blocks [l], in
    order.  The four list operations are shown to act on [l] as removal, push to either end and pop
    of the front, and to leave everything but the links alone ([links_only]). *)

From S2P Require Import Prelude BlockPool.

(** first element, or [d] *)
Definition hdZ (d : Z) (l : list Z) : Z := match l with [] => d | x :: _ => x end.
(** last element, or [d] *)
Definition lastZ (d : Z) (l : list Z) : Z := List.last l d.
Arguments lastZ : simpl never.

Fixpoint seg (bs : list Block) (pv : Z) (l : list Z) (nx : Z) : Prop :=
  match l with
  | [] => True
  | b :: l' =>
      (exists x, vlookup bs b = Some x /\ in_free x = true /\ prev x = pv /\ next x = hdZ nx l')
      /\ seg bs b l' nx
  end.

(** The pool's free list is [l]: the links spell [l] from [head_] to [tail_], every block marked
    [in_free] is on it, and [n_free_] counts it. *)
Record free_list (p : BlockPool) (l : list Z) : Prop := {
  fl_nodup : NoDup l;
  fl_seg : seg (blocks_ p) (-1) l (-1);
  fl_head : head_ p = hdZ (-1) l;
  fl_tail : tail_ p = lastZ (-1) l;
  fl_count : n_free_ p = Zlen l;
  fl_mark : forall b x, vlookup (blocks_ p) b = Some x -> in_free x = true -> b ∈ l;
  fl_size : Zlen (blocks_ p) < 2 ^ 31
}.

(** what the list operations leave alone *)
Definition payload (x : Block) : Z * Z := (ref_cnt x, hash x).
Record links_only (p p' : BlockPool) : Prop := {
  lo_payload : forall b, payload <$> vlookup (blocks_ p') b = payload <$> vlookup (blocks_ p) b;
  lo_tokens : block_tokens_ p' = block_tokens_ p;
  lo_table : hash_to_block_ p' = hash_to_block_ p;
  lo_bs : block_size_ p' = block_size_ p;
  lo_caching : caching_ p' = caching_ p;
  lo_stats : stats_ p' = stats_ p;
  lo_len : Zlen (blocks_ p') = Zlen (blocks_ p)
}.

#[export] Instance links_only_refl : Reflexive links_only.
Proof. by split. Qed.
#[export] Instance links_only_trans : Transitive links_only.
Proof. intros p q r [] []. split; try congruence. Qed.

(** ** Segments *)
Lemma lastZ_snoc d l a : lastZ d (l ++ [a]) = a.
Proof. unfold lastZ. apply last_last. Qed.
Lemma lastZ_cons d a l : lastZ d (a :: l) = lastZ a l.
Proof. unfold lastZ. revert a d. induction l as [| b l IH]; intros; [done |].
  change (List.last (b :: l) d = List.last (b :: l) a). by rewrite (IH b d), (IH b a).
Qed.
Lemma hdZ_app d l k : hdZ d (l ++ k) = hdZ (hdZ d k) l.
Proof. by destruct l. Qed.
Lemma lastZ_elem l : 0 <= lastZ (-1) l -> lastZ (-1) l ∈ l.
Proof.
  destruct l as [| a l _] using rev_ind; [unfold lastZ; simpl; lia |]. rewrite lastZ_snoc. set_solver.
Qed.

Lemma seg_app bs pv l1 l2 nx :
  seg bs pv (l1 ++ l2) nx <-> seg bs pv l1 (hdZ nx l2) /\ seg bs (lastZ pv l1) l2 nx.
Proof.
  revert pv. induction l1 as [| b l1 IH]; intros pv; simpl; [naive_solver |].
  rewrite IH, hdZ_app, lastZ_cons. naive_solver.
Qed.

Lemma seg_frame bs bs' pv l nx :
  (forall b, b ∈ l -> vlookup bs' b = vlookup bs b) -> seg bs pv l nx -> seg bs' pv l nx.
Proof.
  revert pv. induction l as [| b l IH]; intros pv Hf; simpl; [done |].
  intros [Hx Hs]. split; [| apply IH; set_solver]. rewrite Hf by set_solver. done.
Qed.

Lemma seg_vinsert bs pv l nx a y : a ∉ l -> seg bs pv l nx -> seg (vinsert a y bs) pv l nx.
Proof.
  intros Hni. apply seg_frame. intros b Hb. apply vlookup_vinsert_ne. set_solver.
Qed.

Lemma seg_lookup bs pv l nx b :
  seg bs pv l nx -> b ∈ l -> exists x, vlookup bs b = Some x /\ in_free x = true.
Proof.
  revert pv. induction l as [| a l IH]; intros pv; simpl; [set_solver |].
  intros [(x & ? & ? & ?) Hs] [-> | Hb]%elem_of_cons; [eauto | by eapply IH].
Qed.

Lemma seg_set_next bs pv l a nx nx' x :
  NoDup (l ++ [a]) -> vlookup bs a = Some x -> seg bs pv (l ++ [a]) nx ->
  seg (vinsert a (set_next nx' x) bs) pv (l ++ [a]) nx'.
Proof.
  intros Hnd Hx [H1 H2]%seg_app. apply NoDup_app in Hnd as (_ & Hd & _).
  assert (0 <= a < Zlen bs) by (by eapply vlookup_Some_range).
  apply seg_app. split.
  - apply seg_vinsert; [| done]. intros Ha. apply (Hd a Ha). set_solver.
  - simpl in *. destruct H2 as [(y & Hy & Hf & Hp & _) _]. simplify_eq. split; [| done].
    exists (set_next nx' x). rewrite vlookup_vinsert_eq by done. done.
Qed.

Lemma seg_set_prev bs pv pv' c l nx x :
  NoDup (c :: l) -> vlookup bs c = Some x -> seg bs pv (c :: l) nx ->
  seg (vinsert c (set_prev pv' x) bs) pv' (c :: l) nx.
Proof.
  intros [Hni Hnd]%NoDup_cons Hx [(y & Hy & Hf & Hp & Hn) Hs]. simplify_eq.
  assert (0 <= c < Zlen bs) by (by eapply vlookup_Some_range). split.
  - exists (set_prev pv' x). rewrite vlookup_vinsert_eq by done. done.
  - by apply seg_vinsert.
Qed.

(** ** Writing one block *)
Lemma upd_block_Ok b f p x :
  vlookup (blocks_ p) b = Some x ->
  upd_block b f p = Ok (with_blocks (vinsert b (f x) (blocks_ p)) p).
Proof. intros H. unfold upd_block. rewrite (proj2 (vget_Ok _ _ _) H). done. Qed.

Lemma payload_vinsert bs b x y :
  vlookup bs b = Some x -> payload y = payload x ->
  forall c, payload <$> vlookup (vinsert b y bs) c = payload <$> vlookup bs c.
Proof.
  intros Hx Hy c. destruct (decide (b = c)) as [<- |].
  - rewrite vlookup_vinsert_eq by (by eapply vlookup_Some_range). rewrite Hx. simpl. by rewrite Hy.
  - by rewrite vlookup_vinsert_ne.
Qed.

Lemma vlookup_vinsert_inv {A} (bs : list A) b c y x :
  vlookup (vinsert b y bs) c = Some x -> (c = b /\ x = y) \/ (c <> b /\ vlookup bs c = Some x).
Proof.
  destruct (decide (c = b)) as [-> |]; intros H.
  - left. split; [done |]. pose proof (vlookup_Some_range _ _ _ H) as Hr.
    rewrite Zlen_vinsert in Hr. rewrite vlookup_vinsert_eq in H by done. congruence.
  - right. by rewrite vlookup_vinsert_ne in H.
Qed.

(** ** The list operations *)
Section list_ops.
Variables (p : BlockPool) (l : list Z).
Hypothesis HF : free_list p l.

(** a block not on the list is left where it is *)
Lemma list_remove_out b x :
  vlookup (blocks_ p) b = Some x -> b ∉ l -> list_remove b p = Ok p.
Proof using HF.
  intros Hx Hni. unfold list_remove. rewrite (proj2 (vget_Ok _ _ _) Hx). simpl.
  destruct (in_free x) eqn:E; [| done]. destruct Hni. by eapply fl_mark.
Qed.

Lemma free_list_range b : b ∈ l -> 0 <= b < Zlen (blocks_ p).
Proof using HF.
  intros Hb. destruct (seg_lookup _ _ _ _ _ (fl_seg _ _ HF) Hb) as (x & Hx & _).
  by eapply vlookup_Some_range.
Qed.

Lemma free_list_len : Zlen l <= Zlen (blocks_ p).
Proof using HF.
  unfold Zlen. assert (l ⊆ Z.of_nat <$> seq 0 (length (blocks_ p))) as Hs.
  { intros b Hb. pose proof (free_list_range b Hb) as Hr. unfold Zlen in Hr.
    apply list_elem_of_fmap. exists (Z.to_nat b). rewrite elem_of_seq. lia. }
  pose proof (submseteq_length _ _ (NoDup_submseteq _ _ (fl_nodup _ _ HF) Hs)) as Hl.
  rewrite length_fmap, length_seq in Hl. lia.
Qed.

(** step 1 of the unlinking: the predecessor of the removed block (or [head_]) *)
Lemma unlink_prev b l1 l2 nx :
  l = l1 ++ b :: l2 ->
  exists bs' hd', (if 0 <=? lastZ (-1) l1 then upd_block (lastZ (-1) l1) (set_next nx) p
                   else Ok (with_head nx p)) = Ok (with_blocks bs' (with_head hd' p))
    /\ hd' = (if 0 <=? lastZ (-1) l1 then head_ p else nx)
    /\ seg bs' (-1) l1 nx
    /\ (forall c, c ∉ l1 -> vlookup bs' c = vlookup (blocks_ p) c)
    /\ (forall c, payload <$> vlookup bs' c = payload <$> vlookup (blocks_ p) c)
    /\ Zlen bs' = Zlen (blocks_ p)
    /\ (forall c x, vlookup bs' c = Some x -> in_free x = true -> c ∈ l).
Proof using HF.
  intros Hl. pose proof (fl_seg _ _ HF) as Hs. pose proof (fl_nodup _ _ HF) as Hnd.
  rewrite Hl in Hs, Hnd. apply seg_app in Hs as [Hs1 _]. simpl in Hs1.
  destruct l1 as [| a l1 _] using rev_ind.
  { exists (blocks_ p), nx. unfold lastZ. simpl. repeat split; eauto using fl_mark. }
  rewrite lastZ_snoc. apply NoDup_app in Hnd as (Hnd & _ & _).
  assert (Ha : a ∈ l) by (subst l; set_solver).
  pose proof (free_list_range a Ha) as Hr.
  destruct (vlookup_lt_is_Some _ _ Hr) as [x Hx].
  rewrite (upd_block_Ok _ _ _ _ Hx). destruct (0 <=? a) eqn:E; [| lia].
  exists (vinsert a (set_next nx x) (blocks_ p)), (head_ p). repeat split.
  - by eapply seg_set_next.
  - intros c Hc. apply vlookup_vinsert_ne. set_solver.
  - by eapply payload_vinsert.
  - apply Zlen_vinsert.
  - intros c y Hy Hin. apply vlookup_vinsert_inv in Hy as [[-> ->] | [_ Hy]]; [done |].
    by eapply fl_mark.
Qed.

(** step 2: the successor (or [tail_]) *)
Lemma unlink_next b l1 l2 bs1 hd1 pv :
  l = l1 ++ b :: l2 -> NoDup l2 -> seg bs1 b l2 (-1) ->
  (forall c, payload <$> vlookup bs1 c = payload <$> vlookup (blocks_ p) c) ->
  Zlen bs1 = Zlen (blocks_ p) ->
  (forall c x, vlookup bs1 c = Some x -> in_free x = true -> c ∈ l) ->
  exists bs2, (if 0 <=? hdZ (-1) l2
               then upd_block (hdZ (-1) l2) (set_prev pv) (with_blocks bs1 (with_head hd1 p))
               else Ok (with_tail pv (with_blocks bs1 (with_head hd1 p))))
              = Ok (with_blocks bs2 (with_head hd1
                  (with_tail (if 0 <=? hdZ (-1) l2 then tail_ p else pv) p)))
    /\ seg bs2 pv l2 (-1)
    /\ (forall c, c ∉ l2 -> vlookup bs2 c = vlookup bs1 c)
    /\ (forall c, payload <$> vlookup bs2 c = payload <$> vlookup (blocks_ p) c)
    /\ Zlen bs2 = Zlen (blocks_ p)
    /\ (forall c x, vlookup bs2 c = Some x -> in_free x = true -> c ∈ l).
Proof using HF.
  intros Hl Hnd2 Hseg2 Hpl1 Hlen1 Hmk1. destruct l2 as [| c l2]; simpl.
  { exists bs1. repeat split; eauto. }
  assert (Hc : c ∈ l) by (rewrite Hl; set_solver).
  pose proof (free_list_range c Hc) as Hr. rewrite <- Hlen1 in Hr.
  destruct (vlookup_lt_is_Some _ _ Hr) as [y Hy].
  destruct (0 <=? c) eqn:E; [| lia].
  rewrite (upd_block_Ok c _ (with_blocks bs1 (with_head hd1 p)) y Hy).
  exists (vinsert c (set_prev pv y) bs1). split; [done |].
  refine (conj _ (conj _ (conj _ (conj _ _)))).
  - by eapply (seg_set_prev bs1 b).
  - intros d Hd'. apply vlookup_vinsert_ne. set_solver.
  - intros d. rewrite <- (Hpl1 d). by eapply payload_vinsert.
  - by rewrite Zlen_vinsert.
  - intros d z Hz Hzin. apply vlookup_vinsert_inv in Hz as [[-> ->] | [_ Hz]]; eauto.
Qed.

Lemma lastZ_nonneg l1 k : l = l1 ++ k -> l1 <> [] -> 0 <= lastZ (-1) l1.
Proof using HF.
  intros Hl Hne. destruct (exists_last Hne) as (l1' & a & ->). rewrite lastZ_snoc.
  apply free_list_range. rewrite Hl, !elem_of_app. set_solver.
Qed.

(** the list that remains, from the links that were rewritten *)
Lemma free_list_unlinked b x l1 l2 bs2 hd tl :
  l = l1 ++ b :: l2 -> NoDup (l1 ++ l2) -> b ∉ l1 ++ l2 ->
  hd = (if 0 <=? lastZ (-1) l1 then head_ p else hdZ (-1) l2) ->
  tl = (if 0 <=? hdZ (-1) l2 then tail_ p else lastZ (-1) l1) ->
  seg bs2 (-1) (l1 ++ l2) (-1) -> Zlen bs2 = Zlen (blocks_ p) ->
  (forall c x, vlookup bs2 c = Some x -> in_free x = true -> c ∈ l) ->
  in_free x = false ->
  free_list (with_n_free (u32 (n_free_ p - 1))
    (with_blocks (vinsert b x bs2) (with_head hd (with_tail tl p)))) (l1 ++ l2).
Proof using HF.
  intros Hl Hnd Hni -> -> Hseg Hlen Hmk Hx. pose proof free_list_len as Hll.
  pose proof (fl_size _ _ HF) as Hsz. split; simpl.
  - done.
  - by apply seg_vinsert.
  - rewrite (fl_head _ _ HF), Hl. destruct l1 as [| a l1]; [done |].
    pose proof (lastZ_nonneg _ _ Hl ltac:(done)). by destruct (0 <=? _) eqn:E; [| lia].
  - rewrite (fl_tail _ _ HF). destruct l2 as [| c l2]; [by rewrite app_nil_r |].
    simpl. pose proof (free_list_range c ltac:(rewrite Hl; set_solver)).
    destruct (0 <=? c) eqn:E; [| lia]. rewrite Hl. unfold lastZ. clear.
    induction l1 as [| a l1 IH]; [done |]. simpl. by destruct l1.
  - rewrite (fl_count _ _ HF). rewrite Hl in Hll |- *. zlen.
    pose proof (Zlen_nonneg l1). pose proof (Zlen_nonneg l2). rewrite u32_small; lia.
  - intros c y Hy Hyin. apply vlookup_vinsert_inv in Hy as [[-> ->] | [Hne Hy]]; [congruence |].
    specialize (Hmk c y Hy Hyin). rewrite Hl, elem_of_app, elem_of_cons in Hmk.
    rewrite elem_of_app. naive_solver.
  - rewrite Zlen_vinsert. lia.
Qed.

Lemma list_remove_spec b l1 l2 :
  l = l1 ++ b :: l2 ->
  exists p', list_remove b p = Ok p' /\ free_list p' (l1 ++ l2) /\ links_only p p'.
Proof using HF.
  intros Hl. pose proof (fl_seg _ _ HF) as Hs. pose proof (fl_nodup _ _ HF) as Hnd.
  rewrite Hl in Hs, Hnd. apply seg_app in Hs as [Hs1 [(x & Hx & Hin & Hp & Hn) Hs2]].
  rewrite <- Permutation_middle in Hnd. apply NoDup_cons in Hnd as [Hni Hnd].
  pose proof Hni as Hni'. rewrite elem_of_app in Hni'.
  pose proof Hnd as (Hnd1 & Hd & Hnd2)%NoDup_app. simpl in Hs1.
  unfold list_remove. rewrite (proj2 (vget_Ok _ _ _) Hx). simpl. rewrite Hin, Hp. simpl.
  destruct (unlink_prev b l1 l2 (next x) Hl)
    as (bs1 & hd1 & -> & Hhd & Hseg1 & Hfr1 & Hpl1 & Hlen1 & Hmk1).
  simpl. rewrite (proj2 (vget_Ok bs1 b x)) by (rewrite Hfr1 by tauto; done). simpl. rewrite Hn, Hp in *.
  assert (Hseg2 : seg bs1 b l2 (-1)) 
    by (eapply seg_frame; [| done]; intros c Hc; apply Hfr1; intros Hc1; by apply (Hd c)).
  destruct (unlink_next b l1 l2 bs1 hd1 (lastZ (-1) l1) Hl Hnd2 Hseg2 Hpl1 Hlen1 Hmk1)
    as (bs2 & -> & Hseg3 & Hfr2 & Hpl2 & Hlen2 & Hmk2).
  assert (Hx2 : vlookup bs2 b = Some x) by (rewrite Hfr2, Hfr1 by tauto; done).
  cbn [rbind]. erewrite upd_block_Ok by exact Hx2. simpl.
  eexists. split; [reflexivity |]. split.
  - eapply free_list_unlinked; eauto. apply seg_app. split; [| done].
    eapply seg_frame; [| done]. intros c Hc. apply Hfr2. by apply Hd.
  - split; simpl; try done; [| by rewrite Zlen_vinsert].
    intros c. rewrite <- (Hpl2 c). by eapply payload_vinsert.
Qed.

Lemma pop_front_spec b l' :
  l = b :: l' ->
  exists p', list_pop_front p = Ok (b, p') /\ free_list p' l' /\ links_only p p'.
Proof using HF.
  intros Hl. destruct (list_remove_spec b [] l' Hl) as (p' & Hr & HF' & Hlo).
  exists p'. split; [| done]. unfold list_pop_front. rewrite (fl_head _ _ HF), Hl. simpl.
  pose proof (free_list_range b ltac:(rewrite Hl; set_solver)).
  destruct (b <? 0) eqn:E; [lia |]. by rewrite Hr.
Qed.
End list_ops.

(** ** Pushing a block that is off the list *)

(** the neighbours' links after a push: [old] is the former head (or tail), [g] the link written *)
Lemma relink_front p l b bs1 :
  free_list p l -> b ∉ l -> seg bs1 (-1) l (-1) -> Zlen bs1 = Zlen (blocks_ p) ->
  exists bs2, (if 0 <=? head_ p then upd_block (head_ p) (set_prev b) (with_blocks bs1 p)
               else Ok (with_tail b (with_blocks bs1 p)))
              = Ok (with_blocks bs2 (with_tail (lastZ (-1) (b :: l)) p))
    /\ seg bs2 b l (-1) /\ Zlen bs2 = Zlen (blocks_ p)
    /\ (forall c, c ∉ l -> vlookup bs2 c = vlookup bs1 c)
    /\ (forall c, payload <$> vlookup bs2 c = payload <$> vlookup bs1 c).
Proof.
  intros HF Hni Hs1 Hlen1. rewrite lastZ_cons. rewrite (fl_head _ _ HF).
  pose proof (free_list_range _ _ HF) as Hrange. pose proof (fl_nodup _ _ HF) as Hnd.
  pose proof (fl_tail _ _ HF) as Ht. destruct l as [| c l]; simpl.
  { exists bs1. repeat split; auto. }
  specialize (Hrange c ltac:(set_solver)). destruct (0 <=? c) eqn:E; [| lia].
  destruct (vlookup_lt_is_Some bs1 c) as [y Hy]; [lia |].
  erewrite upd_block_Ok by exact Hy. exists (vinsert c (set_prev b y) bs1).
  refine (conj _ (conj _ (conj _ (conj _ _)))).
  - rewrite lastZ_cons, <- (lastZ_cons (-1)), <- Ht. by destruct p.
  - by eapply seg_set_prev.
  - by rewrite Zlen_vinsert.
  - intros d Hd. apply vlookup_vinsert_ne. set_solver.
  - by eapply payload_vinsert.
Qed.

Lemma relink_back p l b bs1 :
  free_list p l -> b ∉ l -> seg bs1 (-1) l (-1) -> Zlen bs1 = Zlen (blocks_ p) ->
  exists bs2, (if 0 <=? tail_ p then upd_block (tail_ p) (set_next b) (with_blocks bs1 p)
               else Ok (with_head b (with_blocks bs1 p)))
              = Ok (with_blocks bs2 (with_head (hdZ (-1) (l ++ [b])) p))
    /\ seg bs2 (-1) l b /\ Zlen bs2 = Zlen (blocks_ p)
    /\ (forall c, c ∉ l -> vlookup bs2 c = vlookup bs1 c)
    /\ (forall c, payload <$> vlookup bs2 c = payload <$> vlookup bs1 c).
Proof.
  intros HF Hni Hs1 Hlen1. rewrite (fl_tail _ _ HF), hdZ_app.
  pose proof (free_list_range _ _ HF) as Hrange. pose proof (fl_nodup _ _ HF) as Hnd.
  pose proof (fl_head _ _ HF) as Hh. destruct l as [| c l _] using rev_ind; simpl.
  { exists bs1. unfold lastZ. simpl. repeat split; auto. }
  rewrite lastZ_snoc. specialize (Hrange c ltac:(set_solver)). destruct (0 <=? c) eqn:E; [| lia].
  destruct (vlookup_lt_is_Some bs1 c) as [y Hy]; [lia |].
  erewrite upd_block_Ok by exact Hy. exists (vinsert c (set_next b y) bs1).
  refine (conj _ (conj _ (conj _ (conj _ _)))).
  - assert (hdZ b (l ++ [c]) = head_ p) as -> by (rewrite Hh; by destruct l). by destruct p.
  - by eapply seg_set_next.
  - by rewrite Zlen_vinsert.
  - intros d Hd. apply vlookup_vinsert_ne. set_solver.
  - by eapply payload_vinsert.
Qed.

(** what both pushes establish once the neighbours are relinked *)
Lemma free_list_pushed p l l' b x bs2 :
  free_list p l -> l' ≡ₚ b :: l -> b ∉ l -> vlookup bs2 b = Some x -> in_free x = true ->
  seg bs2 (-1) l' (-1) -> Zlen bs2 = Zlen (blocks_ p) ->
  (forall c y, c <> b -> vlookup bs2 c = Some y -> in_free y = true -> c ∈ l) ->
  free_list (with_n_free (u32 (n_free_ p + 1))
    (with_blocks bs2 (with_head (hdZ (-1) l') (with_tail (lastZ (-1) l') p)))) l'.
Proof.
  intros HF Hperm Hni Hx Hin Hs Hlen Hmk. pose proof (free_list_len _ _ HF) as Hl.
  pose proof (fl_size _ _ HF) as Hsz. split; simpl; try done.
  - rewrite Hperm. apply NoDup_cons. split; [done | apply HF].
  - rewrite (fl_count _ _ HF). unfold Zlen in *. rewrite Hperm. simpl. rewrite u32_small; lia.
  - intros c y Hy Hyin. rewrite Hperm, elem_of_cons. destruct (decide (c = b)); eauto.
  - lia.
Qed.

Section pushes.
Variables (p : BlockPool) (l : list Z) (b : Z) (x : Block).
Hypothesis HF : free_list p l.
Hypothesis Hx : vlookup (blocks_ p) b = Some x.
Hypothesis Hni : b ∉ l.

(** the block's own links are written first; nothing on the list changes *)
Lemma push_own (y : Block) :
  payload y = payload x ->
  let bs1 := vinsert b y (blocks_ p) in
  seg bs1 (-1) l (-1) /\ Zlen bs1 = Zlen (blocks_ p) /\ vlookup bs1 b = Some y
  /\ (forall c, payload <$> vlookup bs1 c = payload <$> vlookup (blocks_ p) c)
  /\ (forall c z, c <> b -> vlookup bs1 c = Some z -> in_free z = true -> c ∈ l).
Proof using HF Hx Hni.
  intros Hy bs1. pose proof (vlookup_Some_range _ _ _ Hx) as Hb. repeat split.
  - apply seg_vinsert; [done | apply HF].
  - apply Zlen_vinsert.
  - by apply vlookup_vinsert_eq.
  - by eapply payload_vinsert.
  - intros c z Hne Hz. unfold bs1 in Hz. rewrite vlookup_vinsert_ne in Hz by done.
    by apply (fl_mark _ _ HF).
Qed.

Lemma push_front_spec :
  exists p', list_push_front b p = Ok p' /\ free_list p' (b :: l) /\ links_only p p'.
Proof using HF Hx Hni.
  pose proof (vlookup_Some_range _ _ _ Hx) as Hb.
  destruct (push_own (set_next (head_ p) (set_prev (-1) x)) eq_refl)
    as (Hs1 & Hl1 & Hx1 & Hp1 & Hm1).
  unfold list_push_front. rewrite (upd_block_Ok _ _ _ _ Hx). simpl.
  destruct (relink_front p l b _ HF Hni Hs1 Hl1) as (bs2 & -> & Hs2 & Hl2 & Hf2 & Hp2).
  rewrite <- (Hf2 b Hni) in Hx1. cbn [rbind]. erewrite upd_block_Ok by exact Hx1. simpl.
  eexists. split; [reflexivity |]. split.
  - eapply (free_list_pushed p l (b :: l)); try done.
    + apply vlookup_vinsert_eq. lia.
    + done.
    + split; [| by apply seg_vinsert]. eexists. rewrite vlookup_vinsert_eq by lia.
      split; [done |]. simpl. by rewrite (fl_head _ _ HF).
    + by rewrite Zlen_vinsert.
    + intros c y Hne Hy Hyin. rewrite vlookup_vinsert_ne in Hy by done.
      destruct (decide (c ∈ l)) as [| Hc]; [done |]. rewrite Hf2 in Hy by done. by eapply Hm1.
  - split; simpl; try done; [| by rewrite Zlen_vinsert].
    intros c. rewrite <- Hp1, <- Hp2. by eapply payload_vinsert.
Qed.

Lemma push_back_spec :
  exists p', list_push_back b p = Ok p' /\ free_list p' (l ++ [b]) /\ links_only p p'.
Proof using HF Hx Hni.
  pose proof (vlookup_Some_range _ _ _ Hx) as Hb.
  destruct (push_own (set_prev (tail_ p) (set_next (-1) x)) eq_refl)
    as (Hs1 & Hl1 & Hx1 & Hp1 & Hm1).
  unfold list_push_back. rewrite (upd_block_Ok _ _ _ _ Hx). simpl.
  destruct (relink_back p l b _ HF Hni Hs1 Hl1) as (bs2 & -> & Hs2 & Hl2 & Hf2 & Hp2).
  rewrite <- (Hf2 b Hni) in Hx1. cbn [rbind]. erewrite upd_block_Ok by exact Hx1. simpl.
  eexists. split; [reflexivity |]. split.
  - replace (with_tail b) with (with_tail (lastZ (-1) (l ++ [b]))) by (by rewrite lastZ_snoc).
    eapply (free_list_pushed p l (l ++ [b])); try done.
    + by rewrite <- Permutation_cons_append.
    + apply vlookup_vinsert_eq. lia.
    + done.
    + apply seg_app. split; [by apply seg_vinsert |]. simpl. split; [| done].
      eexists. rewrite vlookup_vinsert_eq by lia. split; [done |]. simpl.
      by rewrite (fl_tail _ _ HF).
    + by rewrite Zlen_vinsert.
    + intros c y Hne Hy Hyin. rewrite vlookup_vinsert_ne in Hy by done.
      destruct (decide (c ∈ l)) as [| Hc]; [done |]. rewrite Hf2 in Hy by done. by eapply Hm1.
  - split; simpl; try done; [| by rewrite Zlen_vinsert].
    intros c. rewrite <- Hp1, <- Hp2. by eapply payload_vinsert.
Qed.
End pushes.
