(* ===== verification/PoolSpec.v ===== *)
(** * What the block pool promises: an abstract pool and the simulation

    [APool] is the pool without its links, flat token array and hash table: the free list, the
    reference counts, and for every cached block its hash and tokens.  [PoolOps] are the operations
    the KV cache calls and [PoolSpec] their laws, each relating a concrete run to the abstract
    operation; [BlockPool] is an instance. *)

From S2P Require Import Prelude BlockPool FreeList.

Record APool := mkAPool {
  a_free : list Z;
  a_ref : gmap Z Z;
  a_cache : gmap Z (Z * list Z);
  a_bs : Z;
  a_caching : bool
}.

Definition a_touch (b : Z) (a : APool) : APool :=
  match a_ref a !! b with
  | Some r =>
      mkAPool (if r =? 0 then filter (fun c => c <> b) (a_free a) else a_free a)
              (<[b := r + 1]> (a_ref a)) (a_cache a) (a_bs a) (a_caching a)
  | None => a
  end.

(** the front block leaves the free list, with one reference and no cache entry *)
Definition a_pop (a : APool) : APool :=
  match a_free a with
  | b :: l => mkAPool l (<[b := 1]> (a_ref a)) (delete b (a_cache a)) (a_bs a) (a_caching a)
  | [] => a
  end.
Fixpoint a_get_new (n : nat) (a : APool) : APool :=
  match n with O => a | S n => a_get_new n (a_pop a) end.

(** drop one reference per entry; the blocks that reach zero, uncached and cached, in that order *)
Fixpoint a_drop (bl : list Z) (ref : gmap Z Z) (cache : gmap Z (Z * list Z)) (unc cac : list Z)
  : gmap Z Z * list Z * list Z :=
  match bl with
  | [] => (ref, unc, cac)
  | b :: bl =>
      match ref !! b with
      | Some r =>
          let ref := <[b := r - 1]> ref in
          if r - 1 =? 0 then
            match cache !! b with
            | None => a_drop bl ref cache (unc ++ [b]) cac
            | Some _ => a_drop bl ref cache unc (cac ++ [b])
            end
          else a_drop bl ref cache unc cac
      | None => a_drop bl ref cache unc cac
      end
  end.
Definition a_free_blocks (bl : list Z) (a : APool) : APool :=
  let '(ref, unc, cac) := a_drop bl (a_ref a) (a_cache a) [] [] in
  mkAPool (unc ++ a_free a ++ cac) ref (a_cache a) (a_bs a) (a_caching a).

Definition a_cache_block (b h : Z) (toks : list Z) (a : APool) : APool :=
  if a_caching a then
    match a_cache a !! b with
    | Some _ => a
    | None => mkAPool (a_free a) (a_ref a) (<[b := (h, toks)]> (a_cache a)) (a_bs a) (a_caching a)
    end
  else a.

(** well-formed abstract pools: a block is free exactly when nobody holds a reference *)
Record wf_apool (a : APool) : Prop := {
  wa_nodup : NoDup (a_free a);
  wa_free : forall b, b ∈ a_free a <-> a_ref a !! b = Some 0;
  wa_ref : forall b r, a_ref a !! b = Some r -> 0 <= r /\ 0 <= b;
  wa_cache : forall b h toks, a_cache a !! b = Some (h, toks) ->
    is_Some (a_ref a !! b) /\ h <> HASH_NONE /\ Zlen toks = a_bs a;
  wa_off : a_caching a = false -> a_cache a = ∅;
  wa_bs : 0 < a_bs a;
  wa_small : Zlen (a_free a) < 2 ^ 31
}.

(** ** The interface *)
Class PoolOps (P : Type) := {
  op_num_free : P -> Z;
  op_ref_count : Z -> P -> res Z;
  op_get_cached : Z -> list Z -> P -> res Z;
  op_touch : Z -> P -> res P;
  op_get_new : Z -> list Z -> P -> res (list Z * P);
  op_free : list Z -> P -> res P;
  op_cache : Z -> Z -> list Z -> P -> res P;
  op_stat : Z -> Z -> P -> P
}.

Class PoolSpec (P : Type) `{PoolOps P} := {
  pool_rep : P -> APool -> Prop;
  law_wf p a : pool_rep p a -> wf_apool a;
  law_num_free p a : pool_rep p a -> op_num_free p = Zlen (a_free a);
  law_ref_count p a b r : pool_rep p a -> a_ref a !! b = Some r -> op_ref_count b p = Ok r;
  law_get_cached p a h toks : pool_rep p a -> a_bs a <= Zlen toks ->
    exists b, op_get_cached h toks p = Ok b
      /\ ((b = -1 /\ forall c, a_cache a !! c <> Some (h, take (Z.to_nat (a_bs a)) toks))
          \/ a_cache a !! b = Some (h, take (Z.to_nat (a_bs a)) toks));
  law_touch p a b : pool_rep p a -> is_Some (a_ref a !! b) ->
    exists p', op_touch b p = Ok p' /\ pool_rep p' (a_touch b a);
  law_get_new p a n out : pool_rep p a -> 0 <= n <= Zlen (a_free a) ->
    exists p', op_get_new n out p = Ok (out ++ take (Z.to_nat n) (a_free a), p')
      /\ pool_rep p' (a_get_new (Z.to_nat n) a);
  law_get_new_throw p a n out : pool_rep p a -> Zlen (a_free a) < n ->
    op_get_new n out p = throw! "BlockPool: out of blocks";
  law_free p a bl : pool_rep p a ->
    (forall b, b ∈ bl -> exists r, a_ref a !! b = Some r /\ Z.of_nat (count_occ Z.eq_dec bl b) <= r) ->
    exists p', op_free bl p = Ok p' /\ pool_rep p' (a_free_blocks bl a);
  law_cache p a b h toks : pool_rep p a -> is_Some (a_ref a !! b) -> h <> HASH_NONE ->
    a_bs a <= Zlen toks ->
    exists p', op_cache b h toks p = Ok p'
      /\ pool_rep p' (a_cache_block b h (take (Z.to_nat (a_bs a)) toks) a);
  law_stat p a q h : pool_rep p a -> pool_rep (op_stat q h p) a
}.

(** ** The representation of an abstract pool by [BlockPool]

    [pend] are the blocks without references that are off the free list in the middle of an
    operation. *)
Definition cache_entry (bs : Z) (btoks : list Z) (b : Z) (x : Block) : option (Z * list Z) :=
  if hash x =? HASH_NONE then None else Some (hash x, vslice btoks (b * bs) bs).

Record repP (pend : list Z) (p : BlockPool) (a : APool) : Prop := {
  rp_list : free_list p (a_free a);
  rp_ref : forall b, a_ref a !! b = ref_cnt <$> vlookup (blocks_ p) b;
  rp_zero : forall b x, vlookup (blocks_ p) b = Some x ->
    0 <= ref_cnt x /\ (ref_cnt x = 0 <-> b ∈ a_free a ++ pend);
  rp_pend : NoDup (a_free a ++ pend);
  rp_valid : forall b, b ∈ a_free a ++ pend -> 0 <= b < Zlen (blocks_ p);
  rp_cache : forall b, a_cache a !! b
    = vlookup (blocks_ p) b ≫= cache_entry (block_size_ p) (block_tokens_ p) b;
  rp_table_nodup : NoDup (hash_to_block_ p);
  rp_table : forall h b, (h, b) ∈ hash_to_block_ p <-> exists toks, a_cache a !! b = Some (h, toks);
  rp_tokens : Zlen (block_tokens_ p) = Zlen (blocks_ p) * block_size_ p;
  rp_bs : a_bs a = block_size_ p;
  rp_bs_pos : 0 < block_size_ p;
  rp_caching : a_caching a = caching_ p;
  rp_off : caching_ p = false -> a_cache a = ∅
}.
Definition rep : BlockPool -> APool -> Prop := repP [].

#[export] Instance BlockPool_ops : PoolOps BlockPool := {
  op_num_free := n_free_;
  op_ref_count := ref_count;
  op_get_cached := get_cached_block;
  op_touch := touch;
  op_get_new := get_new_blocks;
  op_free := free_blocks;
  op_cache := cache_block;
  op_stat := stat_query
}.
