(* ===== verification/PoolRefine.v ===== *)
(** * The block pool implements its abstract specification

    Every operation of [BlockPool] on a represented pool succeeds when the abstract precondition
    holds and ends in a representation of the abstract result. *)

From S2P Require Import Prelude BlockPool FreeList PoolSpec.

Definition a_with_free l (a : APool) := mkAPool l (a_ref a) (a_cache a) (a_bs a) (a_caching a).
Definition a_with_ref m (a : APool) := mkAPool (a_free a) m (a_cache a) (a_bs a) (a_caching a).
Definition a_with_cache m (a : APool) := mkAPool (a_free a) (a_ref a) m (a_bs a) (a_caching a).

(** the links of a block, which an update of its reference count or hash keeps *)
Definition links (x : Block) : Z * Z * bool := (prev x, next x, in_free x).

Lemma seg_links bs pv l nx b x y :
  vlookup bs b = Some x -> links y = links x -> seg bs pv l nx -> seg (vinsert b y bs) pv l nx.
Proof.
  intros Hx [= Hp Hn Hi]. revert pv. induction l as [| c l IH]; intros pv; simpl; [done |].
  intros [(z & Hz & ? & ? & ?) Hs]. split; [| by apply IH]. destruct (decide (b = c)) as [-> |].
  - exists y. rewrite vlookup_vinsert_eq by (by eapply vlookup_Some_range). naive_solver congruence.
  - exists z. by rewrite vlookup_vinsert_ne.
Qed.

Lemma free_list_upd p l b x y :
  free_list p l -> vlookup (blocks_ p) b = Some x -> links y = links x ->
  free_list (with_blocks (vinsert b y (blocks_ p)) p) l.
Proof.
  intros HF Hx Hy. split; simpl; try apply HF.
  - eapply seg_links; eauto. apply HF.
  - intros c z Hz Hin. apply vlookup_vinsert_inv in Hz as [[-> ->] | [_ Hz]]; [| by eapply fl_mark].
    eapply fl_mark; [done | done |]. injection Hy. congruence.
  - rewrite Zlen_vinsert. apply HF.
Qed.

Lemma links_only_lookup p p' b x' :
  links_only p p' -> vlookup (blocks_ p') b = Some x' ->
  exists x, vlookup (blocks_ p) b = Some x /\ ref_cnt x' = ref_cnt x /\ hash x' = hash x.
Proof.
  intros Hlo Hx'. pose proof (lo_payload _ _ Hlo b) as Hp. rewrite Hx' in Hp. simpl in Hp.
  destruct (vlookup (blocks_ p) b) as [x |]; [| done]. injection Hp. eauto.
Qed.

(** ** Moving blocks between the free list and [pend] *)
Lemma repP_relink pend pend' p p' a l' :
  repP pend p a -> links_only p p' -> free_list p' l' -> l' ++ pend' ≡ₚ a_free a ++ pend ->
  repP pend' p' (a_with_free l' a).
Proof.
  intros HR Hlo HF Hperm. pose proof Hlo as []. destruct HR.
  assert (forall b, ref_cnt <$> vlookup (blocks_ p') b = ref_cnt <$> vlookup (blocks_ p) b) as Href.
  { intros b. specialize (lo_payload b). destruct (vlookup (blocks_ p') b), (vlookup (blocks_ p) b);
      simpl in *; try done. by injection lo_payload as -> _. }
  split; simpl; try congruence.
  - intros b x Hx. destruct (links_only_lookup _ _ _ _ Hlo Hx) as (x' & Hx' & -> & _).
    rewrite Hperm. by apply rp_zero.
  - by rewrite Hperm.
  - intros b. rewrite Hperm, lo_len. apply rp_valid.
  - intros b. rewrite rp_cache, lo_tokens, lo_bs. specialize (lo_payload b).
    destruct (vlookup (blocks_ p') b), (vlookup (blocks_ p) b); simpl in *; try done.
    unfold cache_entry. by injection lo_payload as _ ->.
  - by rewrite lo_table.
  - intros Hc. apply rp_off. congruence.
Qed.

(** ** Changing one reference count *)
Lemma repP_set_ref pend pend' p a b x r :
  repP pend p a -> vlookup (blocks_ p) b = Some x -> 0 <= r ->
  NoDup (a_free a ++ pend') -> (r = 0 <-> b ∈ a_free a ++ pend') ->
  (forall c, c <> b -> c ∈ a_free a ++ pend' <-> c ∈ a_free a ++ pend) ->
  repP pend' (with_blocks (vinsert b (set_ref_cnt r x) (blocks_ p)) p)
    (a_with_ref (<[b := r]> (a_ref a)) a).
Proof.
  intros HR Hx Hr Hnd Hb Hc. pose proof (vlookup_Some_range _ _ _ Hx) as Hrange. destruct HR.
  split; simpl; try done.
  - by eapply free_list_upd.
  - intros c. destruct (decide (b = c)) as [<- |].
    + by rewrite vlookup_vinsert_eq, lookup_insert_eq.
    + by rewrite vlookup_vinsert_ne, lookup_insert_ne.
  - intros c y Hy. apply vlookup_vinsert_inv in Hy as [[-> ->] | [Hne Hy]]; [done |].
    rewrite Hc by done. by apply rp_zero.
  - intros c. rewrite Zlen_vinsert. destruct (decide (c = b)) as [-> |]; [done |].
    rewrite Hc by done. apply rp_valid.
  - intros c. rewrite rp_cache. destruct (decide (b = c)) as [<- |].
    + by rewrite vlookup_vinsert_eq, Hx.
    + by rewrite vlookup_vinsert_ne.
  - by rewrite Zlen_vinsert.
Qed.

Lemma filter_ne_id b (l : list Z) : b ∉ l -> filter (fun c => c <> b) l = l.
Proof.
  induction l as [| c l IH]; intros H; [done |]. apply not_elem_of_cons in H as [? ?].
  rewrite filter_cons_True by congruence. by rewrite IH.
Qed.

Lemma filter_ne_split b (l1 l2 : list Z) :
  b ∉ l1 -> b ∉ l2 -> filter (fun c => c <> b) (l1 ++ b :: l2) = l1 ++ l2.
Proof.
  intros H1 H2. rewrite filter_app, filter_cons_False by congruence.
  by rewrite !filter_ne_id.
Qed.

Lemma repP_remove pend p a b :
  repP pend p a -> b ∈ a_free a ->
  exists p', list_remove b p = Ok p'
    /\ repP (b :: pend) p' (a_with_free (filter (fun c => c <> b) (a_free a)) a)
    /\ links_only p p'.
Proof.
  intros HR Hb. apply list_elem_of_split in Hb as (l1 & l2 & Hl).
  pose proof (rp_list _ _ _ HR) as HF. pose proof (fl_nodup _ _ HF) as Hnd. rewrite Hl in Hnd.
  rewrite <- Permutation_middle, NoDup_cons, elem_of_app in Hnd.
  destruct (list_remove_spec _ _ HF b l1 l2 Hl) as (p' & -> & HF' & Hlo).
  exists p'. split; [done |]. split; [| done]. rewrite Hl, filter_ne_split by tauto.
  eapply repP_relink; [done | done | done |]. rewrite Hl.
  rewrite <- !app_assoc. simpl. by rewrite <- !Permutation_middle, app_assoc.
Qed.

(** ** touch *)
Lemma touch_spec p a b :
  rep p a -> is_Some (a_ref a !! b) -> exists p', touch b p = Ok p' /\ rep p' (a_touch b a).
Proof.
  intros HR [r Hr]. pose proof (rp_ref _ _ _ HR b) as Hrb. rewrite Hr in Hrb.
  destruct (vlookup (blocks_ p) b) as [x |] eqn:Hx; [| done]. injection Hrb as ->.
  destruct (rp_zero _ _ _ HR b x Hx) as [Hge H0]. rewrite app_nil_r in H0.
  unfold touch, a_touch. rewrite (proj2 (vget_Ok _ _ _) Hx), Hr. simpl.
  destruct (ref_cnt x =? 0) eqn:E.
  - apply Z.eqb_eq in E.
    destruct (repP_remove _ _ _ b HR) as (p' & -> & HR' & Hlo); [by apply H0 |]. cbn [rbind].
    pose proof (lo_payload _ _ Hlo b) as Hp. rewrite Hx in Hp.
    destruct (vlookup (blocks_ p') b) as [x' |] eqn:Hx'; [| done]. injection Hp as Hp _.
    rewrite (upd_block_Ok _ _ _ _ Hx'). eexists. split; [done |].
    rewrite <- Hp. pose proof (rp_pend _ _ _ HR') as Hnd. simpl in Hnd.
    eapply (repP_set_ref [b] [] _ _ b x' _ HR'); simpl; try done.
    + lia.
    + rewrite app_nil_r. apply NoDup_app in Hnd. tauto.
    + rewrite app_nil_r, list_elem_of_filter. split; [lia | tauto].
    + intros c Hc. rewrite !elem_of_app, list_elem_of_singleton. set_solver.
  - apply Z.eqb_neq in E. cbn [rbind]. rewrite (upd_block_Ok _ _ _ _ Hx). eexists. split; [done |].
    eapply (repP_set_ref [] [] _ _ b x _ HR); try done; [lia | apply HR |].
    rewrite app_nil_r, <- H0. lia.
Qed.

(** ** Popping fresh blocks *)
Lemma erase_entry_elem e e' l : NoDup l -> e' ∈ erase_entry e l <-> e' ∈ l /\ e' <> e.
Proof.
  induction l as [| e0 l IH]; simpl; intros Hnd; [set_solver |].
  apply NoDup_cons in Hnd as [Hni Hnd]. case_decide as E; [subst; set_solver |].
  rewrite elem_of_cons, IH by done. set_solver.
Qed.
Lemma erase_entry_nodup e l : NoDup l -> NoDup (erase_entry e l).
Proof.
  induction l as [| e0 l IH]; simpl; intros Hnd; [done |].
  pose proof Hnd as [Hni Hnd']%NoDup_cons. case_decide; [done |].
  apply NoDup_cons. split; [rewrite erase_entry_elem by done; tauto | auto].
Qed.

Lemma evict_spec pend p a b x :
  repP pend p a -> vlookup (blocks_ p) b = Some x ->
  exists p' x', (if negb (hash x =? HASH_NONE) then evict_hash b p else Ok p) = Ok p'
    /\ vlookup (blocks_ p') b = Some x' /\ repP pend p' (a_with_cache (delete b (a_cache a)) a).
Proof.
  intros HR Hx. pose proof (vlookup_Some_range _ _ _ Hx) as Hr.
  pose proof (rp_cache _ _ _ HR b) as Hc. rewrite Hx in Hc. simpl in Hc. unfold cache_entry in Hc.
  destruct (hash x =? HASH_NONE) eqn:E; simpl.
  { exists p, x. split; [done |]. split; [done |]. rewrite delete_id by done.
    unfold a_with_cache. by destruct a. }
  unfold evict_hash. rewrite (proj2 (vget_Ok _ _ _) Hx). simpl. rewrite E.
  erewrite upd_block_Ok by exact Hx. simpl. eexists _, _. split; [done |]. simpl.
  split; [by apply vlookup_vinsert_eq |]. destruct HR. split; simpl; try done.
  - destruct (free_list_upd p _ b x (set_hash HASH_NONE x) rp_list Hx eq_refl). by split.
  - intros c. destruct (decide (b = c)) as [<- |].
    + by rewrite vlookup_vinsert_eq, rp_ref, Hx.
    + by rewrite vlookup_vinsert_ne.
  - intros c y Hy. apply vlookup_vinsert_inv in Hy as [[-> ->] | [Hne Hy]];
      [exact (rp_zero _ _ Hx) | by apply rp_zero].
  - intros c. rewrite Zlen_vinsert. apply rp_valid.
  - intros c. destruct (decide (b = c)) as [<- |].
    + by rewrite vlookup_vinsert_eq, lookup_delete_eq.
    + by rewrite vlookup_vinsert_ne, lookup_delete_ne.
  - by apply erase_entry_nodup.
  - intros h c. rewrite erase_entry_elem, rp_table by done. destruct (decide (c = b)) as [-> |].
    + rewrite lookup_delete_eq, Hc. split; [intros [[toks [= <- _]] ?]; congruence | naive_solver].
    + rewrite lookup_delete_ne by done. naive_solver congruence.
  - by rewrite Zlen_vinsert.
  - intros Ho. rewrite rp_off by done. apply delete_empty.
Qed.

Lemma pop_spec p a b l :
  rep p a -> a_free a = b :: l ->
  exists p1 x p2 x2 p3, list_pop_front p = Ok (b, p1) /\ vget (blocks_ p1) b = Ok x
    /\ (if negb (hash x =? HASH_NONE) then evict_hash b p1 else Ok p1) = Ok p2
    /\ vlookup (blocks_ p2) b = Some x2
    /\ upd_block b (set_ref_cnt 1) p2 = Ok p3 /\ rep p3 (a_pop a).
Proof.
  intros HR Hl. pose proof (rp_list _ _ _ HR) as HF.
  destruct (pop_front_spec _ _ HF b l Hl) as (p1 & Hp1 & HF1 & Hlo).
  pose proof (free_list_range _ _ HF b ltac:(rewrite Hl; set_solver)) as Hb.
  rewrite <- (lo_len _ _ Hlo) in Hb. destruct (vlookup_lt_is_Some _ _ Hb) as [x Hx].
  assert (HR1 : repP [b] p1 (a_with_free l a)).
  { eapply repP_relink; [done | done | done |]. rewrite Hl, app_nil_r. apply Permutation_app_comm. }
  destruct (evict_spec _ _ _ b x HR1 Hx) as (p2 & x2 & Hp2 & Hx2 & HR2).
  exists p1, x, p2, x2. eexists. split; [done |]. split; [by apply vget_Ok |]. split; [done |].
  split; [done |]. erewrite upd_block_Ok by exact Hx2. split; [done |].
  unfold rep, a_pop. rewrite Hl. pose proof (rp_pend _ _ _ HR2) as Hnd. simpl in Hnd.
  rewrite Permutation_app_comm in Hnd. apply NoDup_cons in Hnd as [Hni Hnd].
  eapply (repP_set_ref [b] [] p2 _ b x2 1 HR2); simpl; rewrite ?app_nil_r; try done.
  intros c Hc. rewrite elem_of_app, list_elem_of_singleton. naive_solver.
Qed.

Lemma pop_blocks_spec n p a out :
  rep p a -> (n <= length (a_free a))%nat ->
  exists p', pop_blocks n p out = Ok (out ++ take n (a_free a), p') /\ rep p' (a_get_new n a).
Proof.
  revert p a out. induction n as [| n IH]; intros p a out HR Hn; simpl.
  { exists p. by rewrite take_0, app_nil_r. }
  destruct (a_free a) as [| b l] eqn:Hl; simpl in *; [lia |].
  destruct (pop_spec p a b l HR Hl) as (p1 & x & p2 & x2 & p3 & -> & H2 & H3 & H4 & H5 & HR3).
  cbn [rbind]. rewrite H2. cbn [rbind]. rewrite H3. cbn [rbind]. rewrite H5. cbn [rbind].
  assert (a_free (a_pop a) = l) as Hl' by (unfold a_pop; by rewrite Hl).
  destruct (IH p3 (a_pop a) (out ++ [b]) HR3) as (p' & Hp' & HR'); [rewrite Hl'; lia |].
  exists p'. by rewrite Hp', Hl', <- app_assoc.
Qed.

Lemma get_new_spec p a n out :
  rep p a -> 0 <= n <= Zlen (a_free a) ->
  exists p', get_new_blocks n out p = Ok (out ++ take (Z.to_nat n) (a_free a), p')
    /\ rep p' (a_get_new (Z.to_nat n) a).
Proof.
  intros HR Hn. unfold get_new_blocks. rewrite (fl_count _ _ (rp_list _ _ _ HR)).
  destruct (_ <? n) eqn:E; [lia |]. apply pop_blocks_spec; [done |]. unfold Zlen in Hn. lia.
Qed.

(** ** Releasing references *)
Lemma repP_perm pend pend' p a : pend ≡ₚ pend' -> repP pend p a -> repP pend' p a.
Proof.
  intros Hp HR. destruct HR. split; try done.
  - intros b x Hx. rewrite <- Hp. by apply rp_zero.
  - by rewrite <- Hp.
  - intros b. rewrite <- Hp. apply rp_valid.
Qed.

(** a pending block is a block of the pool and off the free list *)
Lemma repP_pending pend p a b :
  repP (b :: pend) p a -> (exists x, vlookup (blocks_ p) b = Some x) /\ b ∉ a_free a ++ pend.
Proof.
  intros HR. pose proof (rp_pend _ _ _ HR) as Hnd. rewrite <- Permutation_middle in Hnd.
  apply NoDup_cons in Hnd as [Hni _]. split; [| done].
  apply vlookup_lt_is_Some, (rp_valid _ _ _ HR). set_solver.
Qed.

Lemma push_all_front l pend p a :
  repP (l ++ pend) p a ->
  exists p', push_all list_push_front l p = Ok p' /\ repP pend p' (a_with_free (rev l ++ a_free a) a).
Proof.
  revert p a. induction l as [| b l IH]; intros p a HR; simpl.
  { exists p. split; [done |]. by destruct a. }
  destruct (repP_pending _ _ _ _ HR) as [[x Hx] Hni].
  destruct (push_front_spec p (a_free a) b x) as (p1 & -> & HF & Hlo);
    [apply HR | done | rewrite elem_of_app in Hni; tauto |].
  assert (HR1 : repP (l ++ pend) p1 (a_with_free (b :: a_free a) a)).
  { eapply repP_relink; [done | done | done |]. simpl. by rewrite <- Permutation_middle. }
  destruct (IH _ _ HR1) as (p' & Hp' & HR'). exists p'. split; [done |].
  by rewrite <- app_assoc.
Qed.

Lemma push_all_back l pend p a :
  repP (l ++ pend) p a ->
  exists p', push_all list_push_back l p = Ok p' /\ repP pend p' (a_with_free (a_free a ++ l) a).
Proof.
  revert p a. induction l as [| b l IH]; intros p a HR; simpl.
  { exists p. split; [done |]. rewrite app_nil_r. by destruct a. }
  destruct (repP_pending _ _ _ _ HR) as [[x Hx] Hni].
  destruct (push_back_spec p (a_free a) b x) as (p1 & -> & HF & Hlo);
    [apply HR | done | rewrite elem_of_app in Hni; tauto |].
  assert (HR1 : repP (l ++ pend) p1 (a_with_free (a_free a ++ [b]) a)).
  { eapply repP_relink; [done | done | done |]. by rewrite <- app_assoc. }
  destruct (IH _ _ HR1) as (p' & Hp' & HR'). exists p'. split; [done |].
  simpl in HR'. by rewrite <- app_assoc in HR'.
Qed.

(** the cached test of [free_blocks] agrees with the abstract cache *)
Lemma cached_test pend p a b x :
  repP pend p a -> vlookup (blocks_ p) b = Some x ->
  (hash x =? HASH_NONE) || negb (caching_ p)
  = match a_cache a !! b with None => true | Some _ => false end.
Proof.
  intros HR Hx. pose proof (rp_cache _ _ _ HR b) as Hc. rewrite Hx in Hc. simpl in Hc.
  unfold cache_entry in Hc. destruct (hash x =? HASH_NONE) eqn:E; rewrite Hc; [done |].
  destruct (caching_ p) eqn:Eo; [done |]. by rewrite (rp_off _ _ _ HR Eo) in Hc.
Qed.

Lemma drop_refs_spec bl p a unc cac :
  repP (unc ++ cac) p a ->
  (forall b, b ∈ bl -> exists r, a_ref a !! b = Some r /\ Z.of_nat (count_occ Z.eq_dec bl b) <= r) ->
  exists p' ref' unc' cac',
    drop_refs bl p unc cac = Ok (p', unc', cac')
    /\ a_drop bl (a_ref a) (a_cache a) unc cac = (ref', unc', cac')
    /\ repP (unc' ++ cac') p' (a_with_ref ref' a).
Proof.
  revert p a unc cac. induction bl as [| b bl IH]; intros p a unc cac HR Hcnt; simpl.
  { eexists p, (a_ref a), _, _. split; [done |]. split; [done |]. by destruct a. }
  destruct (Hcnt b) as (r & Hr & Hle); [set_solver |]. simpl in Hle.
  destruct (Z.eq_dec b b) as [_ |]; [| done].
  pose proof (rp_ref _ _ _ HR b) as Hrb. rewrite Hr in Hrb.
  destruct (vlookup (blocks_ p) b) as [x |] eqn:Hx; [| done]. injection Hrb as ->.
  destruct (rp_zero _ _ _ HR b x Hx) as [_ H0].
  rewrite (proj2 (vget_Ok _ _ _) Hx), Hr. cbn [rbind]. destruct (ref_cnt x <=? 0) eqn:E; [lia |].
  erewrite upd_block_Ok by exact Hx. cbn [rbind caching_ with_blocks].
  rewrite (cached_test _ _ _ _ _ HR Hx).
  set (a' := a_with_ref (<[b := ref_cnt x - 1]> (a_ref a)) a).
  assert (Hni : b ∉ a_free a ++ unc ++ cac) by (rewrite <- H0; lia).
  assert (Hcnt' : forall c, c ∈ bl -> exists r, a_ref a' !! c = Some r
                    /\ Z.of_nat (count_occ Z.eq_dec bl c) <= r).
  { intros c Hc. destruct (Hcnt c) as (r & Hrc & Hlec); [set_solver |]. simpl in Hlec.
    destruct (Z.eq_dec b c) as [<- | Hne]; simpl.
    - exists (ref_cnt x - 1). rewrite lookup_insert_eq. rewrite Hrc in Hr. simplify_eq. split; [done | lia].
    - exists r. by rewrite lookup_insert_ne. }
  assert (Hins : forall pend, pend ≡ₚ b :: unc ++ cac -> ref_cnt x - 1 = 0 ->
            repP pend (with_blocks (vinsert b (set_ref_cnt (ref_cnt x - 1) x) (blocks_ p)) p) a').
  { intros pend Hp Hz. eapply (repP_set_ref (unc ++ cac)); try done; [lia | | |].
    - rewrite Hp, <- Permutation_middle. apply NoDup_cons. split; [done | apply HR].
    - rewrite Hp, !elem_of_app, elem_of_cons. split; [tauto | lia].
    - intros c Hc. rewrite Hp, !elem_of_app, elem_of_cons, elem_of_app. naive_solver. }
  destruct (ref_cnt x - 1 =? 0) eqn:Ez.
  - apply Z.eqb_eq in Ez. destruct (a_cache a !! b) eqn:Ec.
    + apply (IH _ a' unc (cac ++ [b])); [| done]. apply Hins; [| done].
      by rewrite app_assoc, <- Permutation_cons_append.
    + apply (IH _ a' (unc ++ [b]) cac); [| done]. apply Hins; [| done].
      rewrite <- app_assoc. simpl. by rewrite <- Permutation_middle.
  - apply Z.eqb_neq in Ez. apply (IH _ a' unc cac); [| done].
    apply (repP_set_ref (unc ++ cac) _ _ _ _ _ _ HR Hx);
      [lia | apply HR | split; [lia | tauto] | done].
Qed.

Lemma free_blocks_spec p a bl :
  rep p a ->
  (forall b, b ∈ bl -> exists r, a_ref a !! b = Some r /\ Z.of_nat (count_occ Z.eq_dec bl b) <= r) ->
  exists p', free_blocks bl p = Ok p' /\ rep p' (a_free_blocks bl a).
Proof.
  intros HR Hcnt. destruct (drop_refs_spec bl p a [] [] HR Hcnt)
    as (p1 & ref & unc & cac & Hd & Ha & HR1).
  unfold free_blocks, a_free_blocks. rewrite Hd, Ha. cbn [rbind].
  destruct (push_all_front (rev unc) cac p1 (a_with_ref ref a)) as (p2 & -> & HR2).
  { eapply repP_perm; [| done]. by rewrite <- Permutation_rev. }
  rewrite rev_involutive in HR2. cbn [rbind].
  destruct (push_all_back cac [] p2 _ ltac:(rewrite app_nil_r; exact HR2)) as (p3 & -> & HR3).
  exists p3. split; [done |]. simpl in HR3. by rewrite <- app_assoc in HR3.
Qed.

(** ** Registering a block and looking one up *)
Section tokens.
Variables (dst src dst' : list Z) (b n : Z).
Hypothesis Hcpy : mem_cpy dst (b * n) src n = Ok dst'.
Hypothesis Hn : 0 < n.
Hypothesis Hb : 0 <= b.

Lemma mem_cpy_inv :
  b * n + n <= Zlen dst /\ n <= Zlen src
  /\ dst' = take (Z.to_nat (b * n)) dst ++ take (Z.to_nat n) src ++ drop (Z.to_nat (b * n + n)) dst.
Proof using Hcpy.
  unfold mem_cpy in Hcpy. case_match eqn:E; [| done]. injection Hcpy as <-.
  rewrite !andb_true_iff, !Z.leb_le in E. tauto.
Qed.

Lemma mem_cpy_len : Zlen dst' = Zlen dst.
Proof using Hcpy Hn Hb.
  destruct mem_cpy_inv as (H1 & H2 & ->). unfold Zlen in *.
  rewrite !length_app, !length_take, length_drop. nia.
Qed.

Lemma mem_cpy_same : vslice dst' (b * n) n = take (Z.to_nat n) src.
Proof using Hcpy Hn Hb.
  destruct mem_cpy_inv as (H1 & H2 & ->). unfold vslice, Zlen in *.
  rewrite drop_app_length' by (rewrite length_take; nia).
  rewrite take_app_le by (rewrite length_take; lia). by rewrite take_take, Nat.min_id.
Qed.

Lemma mem_cpy_other c : 0 <= c -> c <> b -> vslice dst' (c * n) n = vslice dst (c * n) n.
Proof using Hcpy Hn Hb.
  intros Hc Hne. destruct mem_cpy_inv as (H1 & H2 & ->). unfold vslice, Zlen in *.
  apply list_eq. intros i. destruct (decide (i < Z.to_nat n)%nat) as [Hi |].
  2: { rewrite !lookup_take_ge by lia. done. }
  rewrite !lookup_take_lt, !lookup_drop by lia. destruct (decide (c < b)).
  - rewrite lookup_app_l, lookup_take_lt by (rewrite ?length_take; nia). done.
  - rewrite lookup_app_r by (rewrite length_take; nia).
    rewrite lookup_app_r by (rewrite !length_take; nia).
    rewrite lookup_drop, !length_take. f_equal. nia.
Qed.
End tokens.

Lemma cache_spec p a b h toks :
  rep p a -> is_Some (a_ref a !! b) -> h <> HASH_NONE -> a_bs a <= Zlen toks ->
  exists p', cache_block b h toks p = Ok p'
    /\ rep p' (a_cache_block b h (take (Z.to_nat (a_bs a)) toks) a).
Proof.
  intros HR [r Hr] Hh Hlen. unfold cache_block, a_cache_block. rewrite (rp_caching _ _ _ HR).
  destruct (caching_ p) eqn:Eo; simpl; [| by exists p].
  pose proof (rp_ref _ _ _ HR b) as Hrb. rewrite Hr in Hrb.
  destruct (vlookup (blocks_ p) b) as [x |] eqn:Hx; [| done]. clear r Hr Hrb.
  rewrite (proj2 (vget_Ok _ _ _) Hx). cbn [rbind]. pose proof (rp_cache _ _ _ HR b) as Hc.
  rewrite Hx in Hc. simpl in Hc. unfold cache_entry in Hc.
  destruct (hash x =? HASH_NONE) eqn:E; simpl; rewrite Hc; [| by exists p].
  rewrite (upd_block_Ok _ _ _ _ Hx). cbn [rbind block_tokens_ block_size_ with_blocks].
  pose proof (vlookup_Some_range _ _ _ Hx) as Hb. rewrite (rp_bs _ _ _ HR) in *.
  pose proof (rp_bs_pos _ _ _ HR) as Hpos. pose proof (rp_tokens _ _ _ HR) as Htok.
  destruct (mem_cpy (block_tokens_ p) (b * block_size_ p) toks (block_size_ p)) as [toks' | e] eqn:Hm.
  2: { exfalso. revert Hm. unfold mem_cpy. case_match eqn:Ec; [done |].
       rewrite !andb_false_iff, !Z.leb_gt in Ec. nia. }
  cbn [rbind]. eexists. split; [done |]. destruct HR. split; simpl; try done.
  - destruct (free_list_upd p _ b x (set_hash h x) rp_list Hx eq_refl). by split.
  - intros c. destruct (decide (b = c)) as [<- |].
    + by rewrite vlookup_vinsert_eq, rp_ref, Hx.
    + by rewrite vlookup_vinsert_ne.
  - intros c y Hy. apply vlookup_vinsert_inv in Hy as [[-> ->] | [Hne Hy]];
      [exact (rp_zero _ _ Hx) | by apply rp_zero].
  - intros c. rewrite Zlen_vinsert. apply rp_valid.
  - intros c. destruct (decide (b = c)) as [<- | Hne].
    + rewrite vlookup_vinsert_eq, lookup_insert_eq by done. simpl. unfold cache_entry. simpl.
      apply Z.eqb_neq in Hh. rewrite Hh. by rewrite (mem_cpy_same _ _ _ _ _ Hm) by lia.
    + rewrite vlookup_vinsert_ne, lookup_insert_ne, rp_cache by done.
      destruct (vlookup (blocks_ p) c) as [y |] eqn:Hy; [| done]. simpl. unfold cache_entry.
      apply vlookup_Some_range in Hy. by rewrite (mem_cpy_other _ _ _ _ _ Hm) by lia.
  - apply NoDup_app. split; [done |]. split; [| apply NoDup_singleton].
    intros [h' c] Hin Heq. apply list_elem_of_singleton in Heq. simplify_eq.
    apply rp_table in Hin as [toks0 Ht]. congruence.
  - intros h' c. rewrite elem_of_app, list_elem_of_singleton, rp_table.
    destruct (decide (b = c)) as [<- | Hne].
    + rewrite lookup_insert_eq, Hc. naive_solver.
    + rewrite lookup_insert_ne by done. naive_solver congruence.
  - rewrite Zlen_vinsert. by rewrite (mem_cpy_len _ _ _ _ _ Hm) by lia.
  - congruence.
Qed.

Lemma scan_bucket_spec bs btoks es h toks :
  bs <= Zlen toks -> (forall h' c, (h', c) ∈ es -> 0 <= c * bs /\ c * bs + bs <= Zlen btoks) ->
  exists b, scan_bucket bs btoks es h toks = Ok b
    /\ ((b = -1 /\ forall c, (h, c) ∈ es -> vslice btoks (c * bs) bs <> take (Z.to_nat bs) toks)
        \/ ((h, b) ∈ es /\ vslice btoks (b * bs) bs = take (Z.to_nat bs) toks)).
Proof.
  intros Hlen. induction es as [| [h' c] es IH]; intros Hes; simpl.
  { exists (-1). split; [done |]. left. split; [done |]. set_solver. }
  destruct IH as (b & Hb & Hcase); [intros h0 c0 H0; apply (Hes h0); set_solver |].
  destruct (h' =? h) eqn:E.
  - apply Z.eqb_eq in E as ->. destruct (Hes h c) as [Hc1 Hc2]; [set_solver |].
    unfold mem_eq. assert (bs <= Zlen (drop (Z.to_nat (c * bs)) btoks)) as Hd.
    { unfold Zlen in *. rewrite length_drop. lia. }
    apply Z.leb_le in Hd, Hlen. rewrite Hd, Hlen. cbn [rbind andb].
    case_bool_decide as Heq; [exists c; split; [done |]; right; set_solver |].
    exists b. split; [done |]. destruct Hcase as [[-> Hn] | [Hin Heq']]; [left | right; set_solver].
    split; [done |]. intros d [[= ->] | Hd']%elem_of_cons; auto.
  - apply Z.eqb_neq in E. exists b. split; [done |].
    destruct Hcase as [[-> Hn] | [Hin Heq']]; [left | right; set_solver].
    split; [done |]. intros d [[= ->] | Hd']%elem_of_cons; [congruence | auto].
Qed.

Lemma rep_wf p a : rep p a -> wf_apool a.
Proof.
  intros HR. pose proof (free_list_len _ _ (rp_list _ _ _ HR)) as Hl.
  pose proof (fl_size _ _ (rp_list _ _ _ HR)) as Hsz.
  pose proof (free_list_range _ _ (rp_list _ _ _ HR)) as Hrange. destruct HR.
  pose proof (fl_nodup _ _ rp_list) as Hnd. split; try (done || congruence || lia).
  - intros b. rewrite rp_ref. split.
    + intros Hb. destruct (vlookup_lt_is_Some _ _ (Hrange b Hb)) as [x Hx]. rewrite Hx. simpl.
      f_equal. apply (rp_zero _ _ Hx). set_solver.
    + destruct (vlookup (blocks_ p) b) as [x |] eqn:Hx; [| done]. intros [= H0].
      apply (rp_zero _ _ Hx) in H0. by rewrite app_nil_r in H0.
  - intros b r. rewrite rp_ref. destruct (vlookup (blocks_ p) b) as [x |] eqn:Hx; [| done].
    intros [= <-]. apply vlookup_Some_range in Hx as Hr. split; [by apply (rp_zero _ _ Hx) | lia].
  - intros b h toks. rewrite rp_cache, rp_ref.
    destruct (vlookup (blocks_ p) b) as [x |] eqn:Hx; [| done]. simpl. unfold cache_entry.
    destruct (hash x =? HASH_NONE) eqn:E; [done |]. intros [= <- <-].
    apply Z.eqb_neq in E. split; [by eexists |]. split; [done |].
    apply vlookup_Some_range in Hx. rewrite vslice_length; [done | nia | lia | nia].
  - intros Hc. apply rp_off. congruence.
Qed.

Lemma get_cached_spec p a h toks :
  rep p a -> a_bs a <= Zlen toks ->
  exists b, get_cached_block h toks p = Ok b
    /\ ((b = -1 /\ forall c, a_cache a !! c <> Some (h, take (Z.to_nat (a_bs a)) toks))
        \/ a_cache a !! b = Some (h, take (Z.to_nat (a_bs a)) toks)).
Proof.
  intros HR Hlen. unfold get_cached_block. pose proof (rp_off _ _ _ HR) as Hoff.
  destruct (caching_ p) eqn:Eo; simpl.
  2: { exists (-1). split; [done |]. left. split; [done |]. intros c. by rewrite Hoff. }
  rewrite (rp_bs _ _ _ HR) in *.
  assert (Hsl : forall c h' toks', a_cache a !! c = Some (h', toks') ->
            (0 <= c < Zlen (blocks_ p)) /\ toks' = vslice (block_tokens_ p) (c * block_size_ p) (block_size_ p)).
  { intros c h' toks' Hc. rewrite (rp_cache _ _ _ HR) in Hc.
    destruct (vlookup (blocks_ p) c) as [x |] eqn:Hx; [| done]. simpl in Hc. unfold cache_entry in Hc.
    destruct (hash x =? HASH_NONE); [done |]. injection Hc as _ <-.
    split; [by eapply vlookup_Some_range | done]. }
  destruct (scan_bucket_spec (block_size_ p) (block_tokens_ p) (hash_to_block_ p) h toks Hlen)
    as (b & Hb & Hcase).
  { intros h' c Hin. apply (rp_table _ _ _ HR) in Hin as [toks' Hc].
    destruct (Hsl _ _ _ Hc) as [Hr _]. pose proof (rp_bs_pos _ _ _ HR).
    rewrite (rp_tokens _ _ _ HR). nia. }
  exists b. split; [done |]. destruct Hcase as [[-> Hn] | [Hin Heq]]; [left | right].
  - split; [done |]. intros c Hc. destruct (Hsl _ _ _ Hc) as [_ Ht].
    apply (Hn c); [| done]. apply (rp_table _ _ _ HR). eauto.
  - apply (rp_table _ _ _ HR) in Hin as [toks' Hc]. destruct (Hsl _ _ _ Hc) as [_ ->].
    by rewrite Hc, Heq.
Qed.

#[export] Instance BlockPool_spec : PoolSpec BlockPool.
Proof.
  refine {| pool_rep := rep |}.
  - exact rep_wf.
  - intros p a HR. apply (fl_count _ _ (rp_list _ _ _ HR)).
  - intros p a b r HR Hr. simpl. unfold ref_count. rewrite (rp_ref _ _ _ HR) in Hr.
    destruct (vlookup (blocks_ p) b) as [x |] eqn:Hx; [| done].
    rewrite (proj2 (vget_Ok _ _ _) Hx). simpl in *. congruence.
  - exact get_cached_spec.
  - exact touch_spec.
  - exact get_new_spec.
  - intros p a n out HR Hn. simpl. unfold get_new_blocks.
    rewrite (fl_count _ _ (rp_list _ _ _ HR)). destruct (_ <? n) eqn:E; [done | lia].
  - exact free_blocks_spec.
  - exact cache_spec.
  - intros p a q h HR. destruct HR. split; try done. destruct rp_list. by split.
Defined.

(** ** The initial pool *)
Definition a_new (num_blocks block_size : Z) (caching : bool) : APool :=
  mkAPool (Z.of_nat <$> seq 0 (Z.to_nat num_blocks))
    (list_to_map ((fun i => (Z.of_nat i, 0)) <$> seq 0 (Z.to_nat num_blocks))) ∅ block_size caching.

Lemma vlookup_replicate {A} n (x : A) b :
  vlookup (replicate n x) b = if decide (0 <= b < Z.of_nat n) then Some x else None.
Proof.
  unfold vlookup. destruct (0 <=? b) eqn:E; [| by rewrite decide_False by lia].
  case_decide; [apply lookup_replicate_2; lia |]. apply lookup_ge_None. rewrite length_replicate. lia.
Qed.

Lemma zero_refs_lookup n b :
  (list_to_map ((fun i => (Z.of_nat i, 0)) <$> seq 0 n) : gmap Z Z) !! b
  = if decide (0 <= b < Z.of_nat n) then Some 0 else None.
Proof.
  case_decide as Hb.
  - apply elem_of_list_to_map.
    + rewrite <- list_fmap_compose. apply NoDup_fmap; [intros i j; simpl; lia | apply NoDup_seq].
    + apply list_elem_of_fmap. exists (Z.to_nat b). rewrite elem_of_seq. split; [f_equal; lia | lia].
  - apply not_elem_of_list_to_map. rewrite <- list_fmap_compose. intros Hin.
    apply list_elem_of_fmap in Hin as (i & -> & Hi%elem_of_seq). simpl in Hb. lia.
Qed.

Lemma new_pool_spec n bs caching :
  0 <= n < 2 ^ 31 -> 0 < bs -> exists p, new_pool n bs caching = Ok p /\ rep p (a_new n bs caching).
Proof.
  intros Hn Hbs. unfold new_pool. set (l := Z.of_nat <$> seq 0 (Z.to_nat n)).
  set (p0 := mkPool _ _ _ _ _ _ _ _ _).
  assert (HR : repP (l ++ []) p0 (a_with_free [] (a_new n bs caching))).
  { rewrite app_nil_r. split; simpl.
    - split; simpl; try done; [constructor | |].
      + intros b x. rewrite vlookup_replicate. case_decide; naive_solver.
      + unfold Zlen. rewrite length_replicate. lia.
    - intros b. rewrite zero_refs_lookup, vlookup_replicate. by case_decide.
    - intros b x. rewrite vlookup_replicate. case_decide as Hb; [| done]. intros [= <-]. simpl.
      split; [lia |]. split; [| done]. intros _. apply list_elem_of_fmap. exists (Z.to_nat b).
      rewrite elem_of_seq. lia.
    - apply NoDup_fmap; [intros i j; lia | apply NoDup_seq].
    - intros b (i & -> & Hi%elem_of_seq)%list_elem_of_fmap. unfold Zlen. rewrite length_replicate. lia.
    - intros b. rewrite lookup_empty, vlookup_replicate. by case_decide.
    - constructor.
    - intros h b. rewrite lookup_empty. split; [set_solver | naive_solver].
    - unfold Zlen. rewrite !length_replicate. nia.
    - done.
    - done.
    - done.
    - done. }
  destruct (push_all_back l [] p0 _ HR) as (p & Hp & HR'). by exists p.
Qed.
