(* ===== verification/KVCache.v ===== *)
(** * The paged KV cache (class PagedKVCache, src/iian/kv_cache.cpp)

    The scheduler-facing operations, over any pool with the operations of [PoolOps].  The ggml
    tensors that hold the K/V rows are not part of the model: what a cell holds is tracked by the
    ghost memory of [Consistency]. *)

From S2P Require Import Prelude BlockPool FreeList PoolSpec.

(** include/iian/kv_cache.h: KVRequestState *)
Record KVRequestState := mkKVS {
  block_ids : list Z;
  num_cached_blocks : Z
}.
Definition empty_kvs : KVRequestState := mkKVS [] 0.

(** include/iian/kv_cache.h: KVCacheConfig, without the tensor types and placement *)
Record KVCacheConfig := mkKVCfg {
  kc_block_size : Z;
  kc_num_blocks : Z;
  kc_max_cells : Z;
  kc_enable_prefix_caching : bool
}.

Record PagedKVCache (P : Type) := mkKV {
  kv_block_size : Z;
  num_cells_ : Z;
  prefix_caching : bool;
  pool_ : P
}.
Arguments mkKV {P}.
Arguments kv_block_size {P}.
Arguments num_cells_ {P}.
Arguments prefix_caching {P}.
Arguments pool_ {P}.
Definition with_pool {P} (pl : P) (kv : PagedKVCache P) : PagedKVCache P :=
  mkKV (kv_block_size kv) (num_cells_ kv) (prefix_caching kv) pl.

(** the constructor up to the tensor allocation; [/ cfg.block_size] is a division by zero for 0 *)
Definition new_kv (cfg : KVCacheConfig) : res (PagedKVCache BlockPool) :=
  if kc_block_size cfg =? 0 then Err (UB "division by zero") else
  let cells := if kc_num_blocks cfg =? 0
    then u32 (u32 (kc_max_cells cfg + kc_block_size cfg - 1) / kc_block_size cfg * kc_block_size cfg)
    else u32 (kc_num_blocks cfg * kc_block_size cfg) in
  let! p := new_pool (cells / kc_block_size cfg) (kc_block_size cfg) (kc_enable_prefix_caching cfg) in
  if cells =? 0 then throw! "KV cache size is zero" else
  Ok (mkKV (kc_block_size cfg) cells (kc_enable_prefix_caching cfg) p).

(** the loop of update_hashes: append the hash of block [Zlen hashes] until [n_full] are known *)
Fixpoint hash_loop (fuel : nat) (bs n_full : Z) (hashes tokens : list Z) (extra : Z) : res (list Z) :=
  match fuel with
  | O => Err Fuel
  | S fuel =>
      if Zlen hashes <? n_full then
        let i := u32 (Zlen hashes) in
        let! parent := if i =? 0 then Ok HASH_NONE else vget hashes (i - 1) in
        hash_loop fuel bs n_full (hashes ++ [hash_block parent (vslice tokens (i * bs) bs) extra]) tokens extra
      else Ok hashes
  end.

(** [int64_t cell_of(st, token_idx)] *)
Definition cell_of (bs : Z) (st : KVRequestState) (token_idx : Z) : res Z :=
  let! b := vget (block_ids st) (token_idx / bs) in Ok (b * bs + token_idx mod bs).

Section ops.
Context {P : Type} `{PO : PoolOps P}.
Implicit Types kv : PagedKVCache P.

Definition update_hashes kv (hashes tokens : list Z) (extra : Z) : res (list Z) :=
  let n_full := u32 (Zlen tokens) / kv_block_size kv in
  hash_loop (S (Z.to_nat n_full)) (kv_block_size kv) n_full hashes tokens extra.

(** the lookup loop: [i] counts the blocks found so far, [todo] those still to try *)
Fixpoint find_cached (todo : nat) (i : Z) kv (tokens hashes : list Z) (blocks : list Z) : res (list Z) :=
  match todo with
  | O => Ok blocks
  | S todo =>
      if i <? Zlen hashes then
        let! h := vget hashes i in
        let! b := op_get_cached h (drop (Z.to_nat (i * kv_block_size kv)) tokens) (pool_ kv) in
        if b <? 0 then Ok blocks
        else find_cached todo (i + 1) kv tokens hashes (blocks ++ [b])
      else Ok blocks
  end.

Definition get_computed_blocks kv (tokens hashes : list Z) : res (Z * list Z) :=
  if negb (prefix_caching kv) || (Zlen tokens <? 2) then Ok (0, []) else
  let max_hit := u32 (Zlen tokens) - 1 in
  let n_blocks_max := max_hit / kv_block_size kv in
  let! blocks := find_cached (Z.to_nat n_blocks_max) 0 kv tokens hashes [] in
  Ok (u32 (Zlen blocks * kv_block_size kv), blocks).

Fixpoint count_zero_refs (l : list Z) (p : P) : res Z :=
  match l with
  | [] => Ok 0
  | b :: l => let! r := op_ref_count b p in
              let! n := count_zero_refs l p in Ok (if r =? 0 then n + 1 else n)
  end.

Fixpoint touch_all (l : list Z) (p : P) : res P :=
  match l with
  | [] => Ok p
  | b :: l => let! p := op_touch b p in touch_all l p
  end.

Definition allocate_slots (st : KVRequestState) (n_total_tokens : Z) (computed_blocks : list Z) kv
  : res (bool * KVRequestState * PagedKVCache P) :=
  let bs := kv_block_size kv in
  let empty := bool_decide (block_ids st = []) in
  let n_blocks_needed := u32 (n_total_tokens + bs - 1) / bs in
  let n_have := Zlen (block_ids st) + (if empty then Zlen computed_blocks else 0) in
  let n_new := if n_have <? n_blocks_needed then n_blocks_needed - n_have else 0 in
  let! n_touch_free := if empty then count_zero_refs computed_blocks (pool_ kv) else Ok 0 in
  if op_num_free (pool_ kv) <? u32 (n_new + n_touch_free) then Ok (false, st, kv) else
  let! (st, p) :=
    if empty && negb (bool_decide (computed_blocks = [])) then
      let! p := touch_all computed_blocks (pool_ kv) in
      Ok (mkKVS (block_ids st ++ computed_blocks) (Zlen computed_blocks), p)
    else Ok (st, pool_ kv) in
  if n_new =? 0 then Ok (true, st, with_pool p kv) else
  let! (ids, p) := op_get_new n_new (block_ids st) p in
  Ok (true, mkKVS ids (num_cached_blocks st), with_pool p kv).

(** register blocks [i], [i+1], ... below [n_full] and below the table's end *)
Fixpoint cache_loop (fuel : nat) (i n_full : Z) (ids tokens hashes : list Z) (bs : Z) (p : P) : res P :=
  match fuel with
  | O => Err Fuel
  | S fuel =>
      if (i <? n_full) && (i <? Zlen ids) then
        let! b := vget ids i in
        let! h := vget hashes i in
        let! p := op_cache b h (drop (Z.to_nat (i * bs)) tokens) p in
        cache_loop fuel (i + 1) n_full ids tokens hashes bs p
      else Ok p
  end.

Definition cache_blocks (st : KVRequestState) (tokens : list Z) (n_tokens_to_cache : Z) (hashes : list Z) kv
  : res (KVRequestState * PagedKVCache P) :=
  if negb (prefix_caching kv) then Ok (st, kv) else
  let n_full := Z.min (n_tokens_to_cache / kv_block_size kv) (Zlen hashes) in
  let! p := cache_loop (S (length (block_ids st))) (num_cached_blocks st) n_full (block_ids st) tokens
              hashes (kv_block_size kv) (pool_ kv) in
  Ok (mkKVS (block_ids st) (Z.max (num_cached_blocks st) (Z.min n_full (Zlen (block_ids st)))), with_pool p kv).

Definition free_kv (st : KVRequestState) kv : res (KVRequestState * PagedKVCache P) :=
  if bool_decide (block_ids st = []) then Ok (st, kv) else
  let! p := op_free (rev (block_ids st)) (pool_ kv) in
  Ok (mkKVS [] 0, with_pool p kv).
End ops.

(** ** The chain of block hashes of a token sequence (specification of update_hashes) *)
Fixpoint chain_from (n : nat) (parent : Z) (bs : Z) (tokens : list Z) (extra : Z) : list Z :=
  match n with
  | O => []
  | S n => let h := hash_block parent (take (Z.to_nat bs) tokens) extra in
           h :: chain_from n h bs (drop (Z.to_nat bs) tokens) extra
  end.
Definition chain (bs : Z) (tokens : list Z) (extra : Z) : list Z :=
  chain_from (Z.to_nat (Zlen tokens / bs)) HASH_NONE bs tokens extra.
