(* ===== verification/KVFacts.v ===== *)
(** * Facts about the paged KV cache

    The chain of block hashes is computed incrementally and depends on the prefix alone; each
    operation of the cache is described by its effect on the abstract pool. *)

From S2P Require Import Prelude BlockPool FreeList PoolSpec KVCache.

(** ** The block hash *)
Lemma hash_block_nonzero parent toks extra : hash_block parent toks extra <> HASH_NONE.
Proof. unfold hash_block. case_match eqn:E; [done | by apply Z.eqb_neq in E]. Qed.

(** ** The chain *)
Lemma chain_from_length n parent bs toks extra : length (chain_from n parent bs toks extra) = n.
Proof. revert parent toks. induction n; intros; simpl; auto. Qed.

Definition parent_of (parent : Z) (hashes : list Z) (i : nat) : Z :=
  match i with O => parent | S j => default HASH_NONE (hashes !! j) end.

Lemma chain_from_lookup n parent bs toks extra i :
  (i < n)%nat ->
  chain_from n parent bs toks extra !! i
  = Some (hash_block (parent_of parent (chain_from n parent bs toks extra) i)
            (take (Z.to_nat bs) (drop (i * Z.to_nat bs) toks)) extra).
Proof.
  revert parent toks i. induction n as [| n IH]; intros parent toks i Hi; [lia |].
  destruct i as [| i]; [done |]. cbn [chain_from lookup list_lookup parent_of].
  rewrite IH by lia. rewrite drop_drop. simpl. destruct i; reflexivity.
Qed.

(** the chain of the first [n] blocks only reads their tokens *)
Lemma chain_from_take n m parent bs toks extra :
  (n * Z.to_nat bs <= m)%nat ->
  chain_from n parent bs (take m toks) extra = chain_from n parent bs toks extra.
Proof.
  revert m parent toks. induction n as [| n IH]; intros m parent toks Hm; [done |]. simpl.
  rewrite take_take, Nat.min_l by lia. f_equal.
  rewrite <- (IH (m - Z.to_nat bs)%nat _ (drop _ toks)) by lia.
  f_equal. rewrite take_drop_commute. do 2 f_equal. lia.
Qed.

Lemma chain_from_prefix n m parent bs toks extra :
  (n <= m)%nat -> chain_from n parent bs toks extra = take n (chain_from m parent bs toks extra).
Proof.
  revert m parent toks. induction n as [| n IH]; intros m parent toks Hm; [done |].
  destruct m as [| m]; [lia |]. simpl. f_equal. apply IH. lia.
Qed.

Section chain.
Variables (bs extra : Z).
Hypothesis Hbs : 0 < bs.

Lemma chain_length toks : length (chain bs toks extra) = Z.to_nat (Zlen toks / bs).
Proof using. apply chain_from_length. Qed.

Lemma Zlen_chain toks : Zlen (chain bs toks extra) = Zlen toks / bs.
Proof using Hbs.
  unfold Zlen at 1. rewrite chain_length. pose proof (Zlen_nonneg toks).
  rewrite Z2Nat.id; [done |]. apply Z.div_pos; lia.
Qed.

(** appending tokens keeps the hashes that are known *)
Lemma chain_app toks more : chain bs toks extra `prefix_of` chain bs (toks ++ more) extra.
Proof using Hbs.
  unfold chain. pose proof (Zlen_nonneg toks) as H1. pose proof (Zlen_nonneg more) as H2.
  set (n := Z.to_nat (Zlen toks / bs)). set (m := Z.to_nat (Zlen (toks ++ more) / bs)).
  assert (n <= m)%nat.
  { apply Z2Nat.inj_le; [apply Z.div_pos; lia | apply Z.div_pos; zlen |].
    apply Z.div_le_mono; zlen. }
  assert (Hn : (n * Z.to_nat bs <= length toks)%nat).
  { pose proof (Z.mul_div_le (Zlen toks) bs Hbs). pose proof (Z.div_pos (Zlen toks) bs H1 Hbs).
    unfold n, Zlen in *. nia. }
  assert (chain_from n HASH_NONE bs toks extra = take n (chain_from m HASH_NONE bs (toks ++ more) extra))
    as ->; [| apply prefix_take].
  rewrite <- (chain_from_prefix n m) by done.
  rewrite <- (chain_from_take n (length toks) HASH_NONE bs (toks ++ more)) by done.
  by rewrite take_app_length.
Qed.

(** the hash of block [i] is a function of the tokens up to its end *)
Lemma chain_lookup toks i h :
  chain bs toks extra !! i = Some h ->
  h = hash_block (parent_of HASH_NONE (chain bs toks extra) i)
        (take (Z.to_nat bs) (drop (i * Z.to_nat bs) toks)) extra.
Proof using.
  intros H. pose proof (lookup_lt_Some _ _ _ H) as Hi. rewrite chain_length in Hi.
  unfold chain in *. rewrite chain_from_lookup in H by done. congruence.
Qed.

Lemma parent_lookup (hashes k : list Z) :
  (if Zlen hashes =? 0 then Ok HASH_NONE else vget hashes (Zlen hashes - 1))
  = Ok (parent_of HASH_NONE (hashes ++ k) (length hashes)).
Proof using.
  destruct hashes as [| h hs _] using rev_ind; [done |].
  rewrite length_app, Nat.add_1_r. cbn [parent_of]. rewrite <- app_assoc. cbn [app].
  rewrite list_lookup_middle by done. zlen.
  pose proof (Zlen_nonneg hs). destruct (_ =? 0) eqn:E; [lia |]. apply vget_Ok.
  rewrite vlookup_app_r by lia. by replace (_ - _ - _) with 0 by lia.
Qed.

(** ** update_hashes *)
Lemma hash_loop_spec fuel toks hashes :
  hashes `prefix_of` chain bs toks extra -> Zlen toks < 2 ^ 32 ->
  (length (chain bs toks extra) < fuel + length hashes)%nat ->
  hash_loop fuel bs (Zlen toks / bs) hashes toks extra = Ok (chain bs toks extra).
Proof using Hbs.
  revert hashes. induction fuel as [| fuel IH]; intros hashes [k Hk] Hlen Hf; simpl.
  { rewrite Hk, length_app in Hf. lia. }
  rewrite <- Zlen_chain. destruct k as [| h k].
  { rewrite app_nil_r in Hk. rewrite Hk. destruct (_ <? _) eqn:E; [lia | done]. }
  assert (Hin : chain bs toks extra !! length hashes = Some h) by (rewrite Hk; by apply list_lookup_middle).
  assert (Zlen hashes < Zlen (chain bs toks extra)).
  { rewrite Hk. zlen. pose proof (Zlen_nonneg k). lia. }
  destruct (_ <? _) eqn:E; [| lia].
  assert (u32 (Zlen hashes) = Zlen hashes) as ->.
  { rewrite Zlen_chain in *. apply u32_small. pose proof (Zlen_nonneg hashes).
    assert (Zlen toks / bs <= Zlen toks); [| lia].
    apply Z.div_le_upper_bound; [done |]. pose proof (Zlen_nonneg toks). nia. }
  assert ((if Zlen hashes =? 0 then Ok HASH_NONE else vget hashes (Zlen hashes - 1))
          = Ok (parent_of HASH_NONE (chain bs toks extra) (length hashes))) as ->.
  { rewrite Hk. apply parent_lookup. }
  cbn [rbind]. apply chain_lookup in Hin as ->. rewrite Zlen_chain.
  unfold vslice. replace (Z.to_nat (Zlen hashes * bs)) with (length hashes * Z.to_nat bs)%nat
    by (unfold Zlen; lia).
  set (h := hash_block _ _ _) in *.
  apply IH; [exists k; by rewrite Hk, <- app_assoc | done |]. rewrite length_app. simpl. lia.
Qed.
End chain.

(** ** Reference counts and the tables that hold them

    [refs_ok a L]: the reference count of every block is the number of its occurrences in [L], the
    block tables of all requests put together. *)
Definition occ (L : list Z) (b : Z) : Z := Z.of_nat (count_occ Z.eq_dec L b).
Definition refs_ok (a : APool) (L : list Z) : Prop :=
  forall b, match a_ref a !! b with Some r => r = occ L b | None => b ∉ L end.

Lemma occ_app L K b : occ (L ++ K) b = occ L b + occ K b.
Proof. unfold occ. rewrite count_occ_app. lia. Qed.
Lemma occ_cons c L b : occ (c :: L) b = (if decide (c = b) then 1 else 0) + occ L b.
Proof. unfold occ. simpl. destruct (Z.eq_dec c b); case_decide; try congruence; lia. Qed.
Lemma occ_nonneg L b : 0 <= occ L b.
Proof. unfold occ. lia. Qed.
Lemma occ_0 L b : occ L b = 0 <-> b ∉ L.
Proof. unfold occ. rewrite list_elem_of_In, (count_occ_not_In Z.eq_dec). lia. Qed.
Lemma occ_pos L b : b ∈ L -> 0 < occ L b.
Proof.
  intros Hb. pose proof (occ_nonneg L b). destruct (decide (occ L b = 0)) as [E |]; [| lia].
  by apply occ_0 in E.
Qed.
(** a block that occurs once has one position *)
Lemma occ_lookup_eq L i j b : occ L b <= 1 -> L !! i = Some b -> L !! j = Some b -> i = j.
Proof.
  revert i j. induction L as [| c L IH]; intros i j Ho Hi Hj; [done |]. rewrite occ_cons in Ho.
  destruct i as [| i], j as [| j]; simpl in *; simplify_eq; try done.
  - apply list_elem_of_lookup_2, occ_pos in Hj. rewrite decide_True in Ho by done. lia.
  - apply list_elem_of_lookup_2, occ_pos in Hi. rewrite decide_True in Ho by done. lia.
  - f_equal. apply IH; [case_decide; lia | done | done].
Qed.
#[export] Instance occ_perm : Proper ((≡ₚ) ==> eq ==> eq) occ.
Proof.
  intros L K H b ? <-. unfold occ. f_equal. by apply Permutation_count_occ.
Qed.
#[export] Instance refs_ok_perm a : Proper ((≡ₚ) ==> iff) (refs_ok a).
Proof.
  intros L K H. unfold refs_ok. split; intros Hr b; specialize (Hr b);
    destruct (a_ref a !! b); by rewrite ?H in *; rewrite <- ?H in *.
Qed.
Lemma occ_rev L b : occ (rev L) b = occ L b.
Proof. by rewrite <- Permutation_rev. Qed.

Lemma refs_ok_in a L b : refs_ok a L -> b ∈ L -> exists r, a_ref a !! b = Some r /\ r = occ L b.
Proof. intros H Hb. specialize (H b). destruct (a_ref a !! b); [eauto | done]. Qed.

(** a free block is in no table *)
Lemma refs_ok_free a L b : wf_apool a -> refs_ok a L -> b ∈ a_free a -> b ∉ L.
Proof.
  intros Hw Hr Hb. apply (wa_free _ Hw) in Hb. specialize (Hr b). rewrite Hb in Hr.
  by apply occ_0.
Qed.

Lemma refs_touch a L b : is_Some (a_ref a !! b) -> refs_ok a L -> refs_ok (a_touch b a) (b :: L).
Proof.
  intros [r Hr] HL c. unfold a_touch. rewrite Hr. simpl. pose proof (HL b) as Hb. rewrite Hr in Hb.
  rewrite lookup_insert, occ_cons. case_decide as E.
  - subst. lia.
  - specialize (HL c). destruct (a_ref a !! c); [lia | set_solver].
Qed.

Lemma wf_pop a : wf_apool a -> wf_apool (a_pop a).
Proof.
  intros Hw. unfold a_pop. destruct (a_free a) as [| b l] eqn:Hl; [done |].
  destruct Hw. rewrite Hl in *. apply NoDup_cons in wa_nodup as [Hni Hnd].
  split; simpl; try done.
  - intros c. rewrite lookup_insert. specialize (wa_free c). rewrite elem_of_cons in wa_free.
    case_decide; naive_solver.
  - intros c r. rewrite lookup_insert. case_decide as E; [| apply wa_ref].
    intros [= <-]. subst. split; [lia |]. eapply wa_ref, wa_free. set_solver.
  - intros c h toks Hc. apply lookup_delete_Some in Hc as [Hne Hc].
    rewrite lookup_insert_ne by done. by eapply wa_cache.
  - intros Hc. rewrite wa_off by done. apply delete_empty.
  - revert wa_small. zlen.
Qed.

Lemma refs_get_new n a L :
  wf_apool a -> (n <= length (a_free a))%nat -> refs_ok a L ->
  refs_ok (a_get_new n a) (take n (a_free a) ++ L).
Proof.
  revert a L. induction n as [| n IH]; intros a L Hw Hn HL; [by rewrite take_0 |].
  destruct (a_free a) as [| b l] eqn:Hl; simpl in Hn; [lia |].
  cbn [a_get_new take]. rewrite <- app_comm_cons, Permutation_middle.
  assert (a_free (a_pop a) = l) as Hl' by (unfold a_pop; by rewrite Hl). rewrite <- Hl'.
  apply IH; [by apply wf_pop | rewrite Hl'; lia |].
  intros c. unfold a_pop. rewrite Hl. simpl. rewrite lookup_insert, occ_cons.
  pose proof (wa_free _ Hw b) as Hb. pose proof (HL c) as Hc. case_decide as E.
  - subst c. rewrite (proj1 Hb) in Hc by (rewrite Hl; set_solver). lia.
  - destruct (a_ref a !! c); [lia | set_solver].
Qed.

Lemma a_drop_ref bl ref cache unc cac b :
  (a_drop bl ref cache unc cac).1.1 !! b = (fun r => r - occ bl b) <$> ref !! b.
Proof.
  revert ref unc cac. induction bl as [| c bl IH]; intros ref unc cac; simpl.
  { destruct (ref !! b); simpl; [| done]. f_equal. unfold occ. simpl. lia. }
  rewrite occ_cons. destruct (ref !! c) as [r |] eqn:Hc.
  - assert (forall u k, (a_drop bl (<[c := r - 1]> ref) cache u k).1.1 !! b
              = (fun r0 => r0 - ((if decide (c = b) then 1 else 0) + occ bl b)) <$> ref !! b) as Hg.
    { intros u k. rewrite IH, lookup_insert. case_decide as E.
      - subst. rewrite Hc. simpl. f_equal. lia.
      - destruct (ref !! b); simpl; [| done]. f_equal. }
    repeat case_match; apply Hg.
  - rewrite IH. case_decide as E; [by subst; rewrite Hc |]. destruct (ref !! b); simpl; f_equal.
Qed.

Lemma refs_free bl a L : refs_ok a (bl ++ L) -> refs_ok (a_free_blocks bl a) L.
Proof.
  intros HL b. unfold a_free_blocks. pose proof (a_drop_ref bl (a_ref a) (a_cache a) [] [] b) as Hd.
  destruct (a_drop _ _ _ _ _) as [[ref unc] cac]. simpl in *. rewrite Hd.
  specialize (HL b). destruct (a_ref a !! b) as [r |]; simpl; [rewrite occ_app in HL; lia | set_solver].
Qed.

Lemma a_free_blocks_cache bl a : a_cache (a_free_blocks bl a) = a_cache a.
Proof. unfold a_free_blocks. by destruct (a_drop _ _ _ _ _) as [[? ?] ?]. Qed.

Lemma a_touch_bs b a : a_bs (a_touch b a) = a_bs a /\ a_caching (a_touch b a) = a_caching a
  /\ a_cache (a_touch b a) = a_cache a.
Proof. unfold a_touch. by case_match. Qed.
Lemma a_get_new_bs n a : a_bs (a_get_new n a) = a_bs a /\ a_caching (a_get_new n a) = a_caching a.
Proof.
  revert a. induction n as [| n IH]; intros a; [done |]. simpl. destruct (IH (a_pop a)) as [-> ->].
  unfold a_pop. by case_match.
Qed.
Lemma a_free_blocks_bs bl a :
  a_bs (a_free_blocks bl a) = a_bs a /\ a_caching (a_free_blocks bl a) = a_caching a.
Proof. unfold a_free_blocks. by destruct (a_drop _ _ _ _ _) as [[? ?] ?]. Qed.

(** the cache after popping: the popped blocks lose their entries *)
Lemma a_get_new_cache n a b e :
  a_cache (a_get_new n a) !! b = Some e <->
  a_cache a !! b = Some e /\ b ∉ take n (a_free a).
Proof.
  revert a. induction n as [| n IH]; intros a; simpl; [rewrite take_0; set_solver |].
  rewrite IH. unfold a_pop. destruct (a_free a) as [| c l] eqn:Hl; simpl.
  - rewrite Hl, take_nil. done.
  - rewrite lookup_delete_Some, not_elem_of_cons. naive_solver.
Qed.

Section kv_facts.
Context {P : Type} `{PO : PoolOps P} `{PS : !PoolSpec P}.
Implicit Types kv : PagedKVCache P.

Record kv_rep kv (a : APool) : Prop := {
  kr_pool : pool_rep (pool_ kv) a;
  kr_bs : a_bs a = kv_block_size kv;
  kr_caching : a_caching a = prefix_caching kv;
  kr_cells : forall b, is_Some (a_ref a !! b) -> (b + 1) * kv_block_size kv <= num_cells_ kv;
  kr_small : num_cells_ kv < 2 ^ 31
}.

(** an operation of the pool that keeps its block size, its mode and its blocks *)
Lemma kv_rep_pool kv a p' a' :
  kv_rep kv a -> pool_rep p' a' -> a_bs a' = a_bs a -> a_caching a' = a_caching a ->
  (forall b, is_Some (a_ref a' !! b) -> is_Some (a_ref a !! b)) -> kv_rep (with_pool p' kv) a'.
Proof using.
  intros [H1 H2 H3 H4 H5] Hp Hbs Hc Hd. split; simpl; [done | congruence | congruence | | done]. auto.
Qed.

Lemma kr_wf kv a : kv_rep kv a -> wf_apool a.
Proof using. intros HR. eapply law_wf, HR. Qed.
Lemma kr_bs_pos kv a : kv_rep kv a -> 0 < kv_block_size kv.
Proof using. intros HR. rewrite <- (kr_bs _ _ HR). apply wa_bs. by eapply kr_wf. Qed.

Lemma update_hashes_spec kv a hashes toks extra :
  kv_rep kv a -> Zlen toks < 2 ^ 32 ->
  hashes `prefix_of` chain (kv_block_size kv) toks extra ->
  update_hashes kv hashes toks extra = Ok (chain (kv_block_size kv) toks extra).
Proof using.
  intros HR Hlen Hp. unfold update_hashes. pose proof (Zlen_nonneg toks).
  rewrite u32_small by lia. apply hash_loop_spec; [by eapply kr_bs_pos | done | done |].
  rewrite chain_length. lia.
Qed.

(** ** get_computed_blocks *)
Definition hit a (bs : Z) (toks hashes : list Z) (i : nat) (b : Z) : Prop :=
  exists h, hashes !! i = Some h
    /\ a_cache a !! b = Some (h, take (Z.to_nat bs) (drop (i * Z.to_nat bs) toks)).

Lemma find_cached_spec todo kv a toks hashes blocks :
  kv_rep kv a ->
  (Zlen blocks + Z.of_nat todo) * kv_block_size kv <= Zlen toks ->
  (forall i b, blocks !! i = Some b -> hit a (kv_block_size kv) toks hashes i b) ->
  exists more, find_cached todo (Zlen blocks) kv toks hashes blocks = Ok (blocks ++ more)
    /\ Zlen more <= Z.of_nat todo
    /\ (forall i b, (blocks ++ more) !! i = Some b -> hit a (kv_block_size kv) toks hashes i b)
    /\ (Zlen more < Z.of_nat todo -> forall b, ~ hit a (kv_block_size kv) toks hashes (length (blocks ++ more)) b).
Proof using.
  intros HR. pose proof (kr_bs_pos _ _ HR) as Hbs. pose proof (kr_bs _ _ HR) as Ebs.
  revert blocks. induction todo as [| todo IH]; intros blocks Hlen Hb; cbn [find_cached].
  { exists []. rewrite app_nil_r, Zlen_nil. repeat split; auto; lia. }
  destruct (_ <? _) eqn:E.
  2: { exists []. rewrite app_nil_r. repeat split; auto; [unfold Zlen; simpl; lia |].
       intros _ b (h & Hh & _). apply lookup_lt_Some in Hh. unfold Zlen in E. lia. }
  destruct (vlookup_lt_is_Some hashes (Zlen blocks)) as [h Hh]; [pose proof (Zlen_nonneg blocks); lia |].
  rewrite (proj2 (vget_Ok _ _ _) Hh). cbn [rbind].
  assert (Hh' : hashes !! length blocks = Some h).
  { unfold vlookup, Zlen in Hh. destruct (0 <=? _); [by rewrite Nat2Z.id in Hh | done]. }
  replace (Z.to_nat (Zlen blocks * kv_block_size kv)) with (length blocks * Z.to_nat (kv_block_size kv))%nat
    by (unfold Zlen; lia).
  destruct (law_get_cached (pool_ kv) a h (drop (length blocks * Z.to_nat (kv_block_size kv)) toks))
    as (b & -> & Hcase); [apply HR | |].
  { rewrite Ebs. unfold Zlen in *. rewrite length_drop. nia. }
  rewrite Ebs in Hcase. cbn [rbind]. destruct Hcase as [[-> Hmiss] | Hhit].
  { simpl. exists []. rewrite app_nil_r. repeat split; auto; [unfold Zlen; simpl; lia |].
    intros _ b (h0 & Hh0 & Hc). simplify_eq. by apply (Hmiss b). }
  pose proof (kr_wf _ _ HR) as Hw. destruct (wa_cache _ Hw _ _ _ Hhit) as ([r Hr] & _ & _).
  destruct (wa_ref _ Hw _ _ Hr) as [_ Hb0]. destruct (b <? 0) eqn:E0; [lia |].
  replace (Zlen blocks + 1) with (Zlen (blocks ++ [b])) by zlen.
  destruct (IH (blocks ++ [b])) as (more & Hm & Hm1 & Hm2 & Hm3).
  - zlen.
  - intros i c Hi. destruct (decide (i < length blocks)%nat).
    + rewrite lookup_app_l in Hi by lia. by apply Hb.
    + assert (i = length blocks) as ->; [apply lookup_lt_Some in Hi; rewrite length_app in Hi; simpl in Hi; lia |].
      rewrite list_lookup_middle in Hi by done. simplify_eq. by exists h.
  - exists (b :: more). rewrite Hm, <- app_assoc. split; [done |]. split; [zlen |].
    rewrite <- app_assoc in Hm2, Hm3. split; [done |]. intros Hlt. apply Hm3. zlen.
Qed.

Lemma get_computed_spec kv a toks hashes :
  kv_rep kv a -> Zlen toks < 2 ^ 32 ->
  exists bl, get_computed_blocks kv toks hashes = Ok (Zlen bl * kv_block_size kv, bl)
    /\ Zlen bl * kv_block_size kv <= Z.max 0 (Zlen toks - 1)
    /\ (forall i b, bl !! i = Some b -> hit a (kv_block_size kv) toks hashes i b)
    /\ (prefix_caching kv = true -> Zlen bl < (Zlen toks - 1) / kv_block_size kv ->
        forall b, ~ hit a (kv_block_size kv) toks hashes (length bl) b).
Proof using.
  intros HR Hlen. pose proof (kr_bs_pos _ _ HR) as Hbs. unfold get_computed_blocks.
  pose proof (Zlen_nonneg toks). destruct (negb _ || _) eqn:E.
  { exists []. change (Zlen (@nil Z)) with 0. rewrite Z.mul_0_l. refine (conj eq_refl (conj _ (conj _ _))); [lia | done |].
    intros Hc Hlt. exfalso. rewrite Hc in E. simpl in E.
    assert ((Zlen toks - 1) / kv_block_size kv <= 0); [| lia].
    apply Z.ltb_lt in E. destruct (decide (Zlen toks = 0)) as [-> |].
    - apply Z.div_le_upper_bound; lia.
    - replace (Zlen toks) with 1 by lia. rewrite Z.div_small; lia. }
  apply orb_false_iff in E as [Ec El]. apply Z.ltb_ge in El.
  rewrite (u32_small (Zlen toks)) by lia. set (n := (Zlen toks - 1) / kv_block_size kv).
  assert (0 <= n) by (apply Z.div_pos; lia).
  assert (n * kv_block_size kv <= Zlen toks - 1) by (rewrite Z.mul_comm; by apply Z.mul_div_le).
  destruct (find_cached_spec (Z.to_nat n) kv a toks hashes [] HR) as (bl & Hf & Hf1 & Hf2 & Hf3);
    [rewrite Zlen_nil; nia | done |].
  rewrite Zlen_nil in Hf. simpl in *. rewrite Hf. cbn [rbind]. pose proof (Zlen_nonneg bl).
  exists bl. rewrite u32_small by nia. repeat split; [nia | done |].
  intros _ Hlt. apply Hf3. lia.
Qed.

(** ** allocate_slots *)
Definition a_touch_all (l : list Z) (a : APool) : APool := foldl (fun a b => a_touch b a) a l.

Lemma touch_all_spec l p a :
  pool_rep p a -> (forall b, b ∈ l -> is_Some (a_ref a !! b)) ->
  exists p', touch_all l p = Ok p' /\ pool_rep p' (a_touch_all l a).
Proof using.
  revert p a. induction l as [| b l IH]; intros p a HR Hl; simpl; [eauto |].
  destruct (law_touch p a b HR) as (p1 & -> & HR1); [apply Hl; set_solver |]. cbn [rbind].
  apply IH; [done |]. intros c Hc. unfold a_touch. case_match; simpl; [| apply Hl; set_solver].
  rewrite lookup_insert. case_decide; [done | apply Hl; set_solver].
Qed.

Definition zero_refs (l : list Z) (a : APool) : Z :=
  Zlen (filter (fun b => a_ref a !! b = Some 0) l).

Lemma count_zero_refs_spec l p a :
  pool_rep p a -> (forall b, b ∈ l -> is_Some (a_ref a !! b)) ->
  count_zero_refs l p = Ok (zero_refs l a).
Proof using.
  intros HR. induction l as [| b l IH]; intros Hl; [done |]. cbn [count_zero_refs].
  destruct (Hl b) as [r Hr]; [set_solver |]. rewrite (law_ref_count _ _ _ _ HR Hr). cbn [rbind].
  rewrite IH by set_solver. cbn [rbind]. f_equal. unfold zero_refs.
  destruct (r =? 0) eqn:E.
  - apply Z.eqb_eq in E as ->. rewrite filter_cons_True by done. zlen.
  - apply Z.eqb_neq in E. rewrite filter_cons_False by congruence. done.
Qed.

(** touching takes at most the unreferenced blocks off the free list *)
Lemma a_touch_all_free l a :
  wf_apool a -> Zlen (a_free a) - zero_refs l a <= Zlen (a_free (a_touch_all l a)).
Proof using.
  intros Hw.
  assert (forall a', (forall b, b ∈ a_free a -> b ∈ a_free a' \/ b ∈ filter (fun b => a_ref a !! b = Some 0) l) ->
    Zlen (a_free a) - zero_refs l a <= Zlen (a_free a')) as Hcount.
  { intros a' Hsub. unfold zero_refs. set (z := filter _ l) in *.
    assert (length (a_free a) <= length (a_free a' ++ z))%nat as Hlen.
    { apply submseteq_length, NoDup_submseteq; [apply Hw |].
      intros b Hb. rewrite elem_of_app. by apply Hsub. }
    unfold Zlen. rewrite length_app in Hlen. lia. }
  apply Hcount. intros b Hb. destruct (decide (b ∈ l)) as [Hbl | Hbl].
  { right. apply list_elem_of_filter. split; [by apply (wa_free _ Hw) | done]. }
  left. clear Hcount. unfold a_touch_all. revert Hb Hbl. clear Hw. revert a.
  induction l as [| c l IH]; intros a Hb Hbl; [done |]. simpl. apply not_elem_of_cons in Hbl as [? ?].
  apply IH; [| done]. unfold a_touch. repeat case_match; simpl; try done.
  apply list_elem_of_filter. done.
Qed.

Lemma a_touch_all_sub l a b : b ∈ a_free (a_touch_all l a) -> b ∈ a_free a.
Proof using.
  unfold a_touch_all. revert a. induction l as [| c l IH]; intros a; [done |]. simpl.
  intros Hb%IH. unfold a_touch in Hb. destruct (a_ref a !! c); [| done].
  simpl in Hb. destruct (_ =? 0); [| done]. by apply list_elem_of_filter in Hb as [_ Hb].
Qed.

Lemma a_touch_all_refs l a L :
  (forall b, b ∈ l -> is_Some (a_ref a !! b)) -> refs_ok a L -> refs_ok (a_touch_all l a) (l ++ L).
Proof using.
  unfold a_touch_all. revert a L. induction l as [| b l IH]; intros a L Hl HL; [done |].
  simpl. rewrite Permutation_middle. apply IH; [| apply refs_touch; [apply Hl; set_solver | done]].
  intros c Hc. unfold a_touch. case_match; simpl; [| apply Hl; set_solver].
  rewrite lookup_insert. case_decide; [done | apply Hl; set_solver].
Qed.

Lemma a_touch_all_same l a :
  a_cache (a_touch_all l a) = a_cache a /\ a_bs (a_touch_all l a) = a_bs a
  /\ a_caching (a_touch_all l a) = a_caching a.
Proof using.
  unfold a_touch_all. revert a. induction l as [| b l IH]; intros a; [done |]. simpl.
  destruct (IH (a_touch b a)) as (-> & -> & ->). destruct (a_touch_bs b a) as (-> & -> & ->). done.
Qed.

(** the table a request starts from: its own, or the cached prefix if it has none *)
Definition base_ids (st : KVRequestState) (computed : list Z) : list Z :=
  match block_ids st with [] => computed | _ => block_ids st end.
Definition base_touched (st : KVRequestState) (computed : list Z) : list Z :=
  match block_ids st with [] => computed | _ => [] end.
Definition n_new_blocks (bs : Z) (st : KVRequestState) (n_total : Z) (computed : list Z) : Z :=
  Z.max 0 ((n_total + bs - 1) / bs - Zlen (base_ids st computed)).

Record alloc_post kv (a : APool) (st : KVRequestState) (n_total : Z) (computed : list Z)
    (st' : KVRequestState) kv' (a' : APool) : Prop := {
  ap_rep : kv_rep kv' a';
  ap_bs : kv_block_size kv' = kv_block_size kv;
  ap_pc : prefix_caching kv' = prefix_caching kv;
  ap_ids : exists fresh, block_ids st' = base_ids st computed ++ fresh
    /\ (forall b, b ∈ fresh -> b ∈ a_free a) /\ NoDup fresh
    /\ (forall b e, a_cache a' !! b = Some e <-> a_cache a !! b = Some e /\ b ∉ fresh)
    /\ forall L, refs_ok a L -> refs_ok a' (base_touched st computed ++ fresh ++ L)
         /\ forall b, b ∈ fresh -> b ∉ base_touched st computed ++ L;
  ap_enough : n_total <= Zlen (block_ids st') * kv_block_size kv;
  ap_ncb : num_cached_blocks st' =
    (if bool_decide (block_ids st = [] /\ computed <> []) then Zlen computed else num_cached_blocks st)
}.

Lemma zero_refs_len l a : 0 <= zero_refs l a <= Zlen l.
Proof using.
  unfold zero_refs. split; [apply Zlen_nonneg |]. unfold Zlen.
  pose proof (length_filter (fun b => a_ref a !! b = Some 0) l). lia.
Qed.

(** no operation invents a block *)
Lemma a_touch_all_dom l a b : is_Some (a_ref (a_touch_all l a) !! b) -> is_Some (a_ref a !! b).
Proof using.
  unfold a_touch_all. revert a. induction l as [| c l IH]; intros a; [done |]. simpl. intros Hb%IH.
  unfold a_touch in Hb. destruct (a_ref a !! c) eqn:E; [| done]. simpl in Hb. rewrite lookup_insert in Hb.
  case_decide; [by subst | done].
Qed.
Lemma a_get_new_dom n a b : wf_apool a -> is_Some (a_ref (a_get_new n a) !! b) -> is_Some (a_ref a !! b).
Proof using.
  revert a. induction n as [| n IH]; intros a Hw; [done |]. simpl. intros Hb%IH; [| by apply wf_pop].
  unfold a_pop in Hb. destruct (a_free a) as [| c l] eqn:Hl; [done |]. simpl in Hb. rewrite lookup_insert in Hb.
  case_decide as E; [| done]. subst. exists 0. apply (wa_free _ Hw). rewrite Hl. set_solver.
Qed.
Lemma a_free_blocks_dom bl a b : is_Some (a_ref (a_free_blocks bl a) !! b) -> is_Some (a_ref a !! b).
Proof using.
  unfold a_free_blocks. pose proof (a_drop_ref bl (a_ref a) (a_cache a) [] [] b) as Hd.
  destruct (a_drop _ _ _ _ _) as [[ref unc] cac]. simpl in *. rewrite Hd. apply fmap_is_Some.
Qed.

(** touch the cached prefix (if the request has no blocks), then pop what is missing *)
Lemma allocate_run kv a st computed n_new :
  kv_rep kv a -> (forall b, b ∈ computed -> is_Some (a_ref a !! b)) -> 0 <= n_new ->
  n_new + zero_refs (base_touched st computed) a <= Zlen (a_free a) ->
  let a1 := a_touch_all (base_touched st computed) a in
  let fresh := take (Z.to_nat n_new) (a_free a1) in
  exists p', 
    (let! (st, p) :=
      if bool_decide (block_ids st = []) && negb (bool_decide (computed = [])) then
        let! p := touch_all computed (pool_ kv) in
        Ok (mkKVS (block_ids st ++ computed) (Zlen computed), p)
      else Ok (st, pool_ kv) in
    if n_new =? 0 then Ok (true, st, with_pool p kv) else
    let! (ids, p) := op_get_new n_new (block_ids st) p in
    Ok (true, mkKVS ids (num_cached_blocks st), with_pool p kv))
    = Ok (true, mkKVS (base_ids st computed ++ fresh)
              (if bool_decide (block_ids st = [] /\ computed <> []) then Zlen computed else num_cached_blocks st),
          with_pool p' kv)
    /\ pool_rep p' (a_get_new (Z.to_nat n_new) a1) /\ Zlen fresh = n_new.
Proof using.
  intros HR Hc Hn Hle a1 fresh. pose proof (kr_wf _ _ HR) as Hw.
  pose proof (a_touch_all_free (base_touched st computed) a Hw) as Hfree.
  assert (Hlen : Zlen fresh = n_new).
  { unfold fresh, Zlen in *. rewrite length_take. fold a1 in Hfree. lia. }
  assert (exists p1, (if bool_decide (block_ids st = []) && negb (bool_decide (computed = [])) then
        let! p := touch_all computed (pool_ kv) in
        Ok (mkKVS (block_ids st ++ computed) (Zlen computed), p)
      else Ok (st, pool_ kv))
      = Ok (mkKVS (base_ids st computed)
             (if bool_decide (block_ids st = [] /\ computed <> []) then Zlen computed else num_cached_blocks st), p1)
      /\ pool_rep p1 a1) as (p1 & -> & HR1).
  { unfold a1, base_ids, base_touched. destruct st as [[| b ids] nc]; simpl.
    - destruct computed as [| c cs]; simpl; [eexists; split; [done | apply HR] |].
      destruct (touch_all_spec (c :: cs) (pool_ kv) a (kr_pool _ _ HR) Hc) as (p1 & Hp & HR1).
      simpl in Hp. rewrite Hp. cbn [rbind]. by exists p1.
    - eexists. split; [done | apply HR]. }
  cbn [rbind]. destruct (n_new =? 0) eqn:E.
  - apply Z.eqb_eq in E. exists p1. subst fresh. rewrite E. simpl. rewrite app_nil_r.
    repeat split; auto.
  - destruct (law_get_new p1 a1 n_new (base_ids st computed) HR1) as (p2 & Hp2 & HR2).
    { fold a1 in Hfree. lia. }
    cbn [block_ids num_cached_blocks]. rewrite Hp2. cbn [rbind]. exists p2. done.
Qed.

Lemma alloc_post_intro kv a st n_total computed p' nc n_new :
  let a1 := a_touch_all (base_touched st computed) a in
  let fresh := take (Z.to_nat n_new) (a_free a1) in
  kv_rep kv a -> (forall b, b ∈ computed -> is_Some (a_ref a !! b)) ->
  pool_rep p' (a_get_new (Z.to_nat n_new) a1) -> Zlen fresh = n_new ->
  nc = (if bool_decide (block_ids st = [] /\ computed <> []) then Zlen computed else num_cached_blocks st) ->
  n_total <= Zlen (base_ids st computed ++ fresh) * kv_block_size kv ->
  alloc_post kv a st n_total computed (mkKVS (base_ids st computed ++ fresh) nc) (with_pool p' kv)
    (a_get_new (Z.to_nat n_new) a1).
Proof using.
  intros a1 fresh HR Hc HR' Hlen -> Henough. pose proof (kr_wf _ _ HR) as Hw.
  assert (Ht : forall b, b ∈ base_touched st computed -> is_Some (a_ref a !! b)).
  { unfold base_touched. intros b. case_match; [apply Hc | set_solver]. }
  destruct (touch_all_spec (base_touched st computed) (pool_ kv) a (kr_pool _ _ HR) Ht) as (p1 & _ & HR1).
  pose proof (law_wf _ _ HR1) as Hw1. fold a1 in Hw1.
  destruct (a_touch_all_same (base_touched st computed) a) as (Ecache & Ebs & Ecc). fold a1 in Ecache, Ebs, Ecc.
  destruct (a_get_new_bs (Z.to_nat n_new) a1) as [Eb2 Ec2].
  split; simpl; try done.
  - apply (kv_rep_pool kv a); [done | done | congruence | congruence |]. intros b Hb.
    apply (a_touch_all_dom (base_touched st computed)). revert Hb. by apply a_get_new_dom.
  - exists fresh. split; [done |]. split; [| split; [| split]].
    + intros b Hb. apply elem_of_take in Hb as (i & Hb & _).
      apply list_elem_of_lookup_2 in Hb. revert Hb. apply a_touch_all_sub.
    + pose proof (wa_nodup _ Hw1) as Hnd. rewrite <- (take_drop (Z.to_nat n_new)) in Hnd.
      by apply NoDup_app in Hnd as (? & _).
    + intros b e. rewrite a_get_new_cache, Ecache. done.
    + intros L HL. pose proof (a_touch_all_refs _ _ _ Ht HL) as HL1. split.
      * rewrite Permutation_app_swap_app. apply refs_get_new; [done | | done].
        unfold fresh, Zlen in Hlen. rewrite length_take in Hlen. lia.
      * intros b Hb. apply elem_of_take in Hb as (i & Hb & _). apply list_elem_of_lookup_2 in Hb.
        by apply (refs_ok_free a1).
Qed.

Theorem allocate_spec kv a st n_total computed :
  kv_rep kv a -> (forall b, b ∈ computed -> is_Some (a_ref a !! b)) ->
  0 <= n_total -> n_total + kv_block_size kv < 2 ^ 31 -> Zlen computed < 2 ^ 31 ->
  let need := n_new_blocks (kv_block_size kv) st n_total computed
              + zero_refs (base_touched st computed) a in
  (need <= Zlen (a_free a) ->
     exists st' kv' a', allocate_slots st n_total computed kv = Ok (true, st', kv')
       /\ alloc_post kv a st n_total computed st' kv' a')
  /\ (Zlen (a_free a) < need -> allocate_slots st n_total computed kv = Ok (false, st, kv)).
Proof using.
  intros HR Hc Hn Hsmall Hcs need. pose proof (kr_bs_pos _ _ HR) as Hbs.
  pose proof (kr_wf _ _ HR) as Hw. set (bs := kv_block_size kv) in *.
  assert (Hq : 0 <= (n_total + bs - 1) / bs <= n_total).
  { split; [apply Z.div_pos; lia |]. destruct (decide (n_total = 0)) as [-> |].
    - rewrite Z.div_small; lia.
    - apply Z.div_le_upper_bound; [done |]. nia. }
  pose proof (zero_refs_len (base_touched st computed) a) as Hz.
  assert (Hzc : Zlen (base_touched st computed) <= Zlen computed).
  { unfold base_touched. case_match; [lia |]. rewrite Zlen_nil. apply Zlen_nonneg. }
  assert (Ez : (if bool_decide (block_ids st = []) then count_zero_refs computed (pool_ kv) else Ok 0)
               = Ok (zero_refs (base_touched st computed) a)).
  { unfold base_touched. destruct (block_ids st) eqn:E; simpl; [| done].
    apply count_zero_refs_spec; [apply HR | done]. }
  assert (En : (let n_have := Zlen (block_ids st) + (if bool_decide (block_ids st = []) then Zlen computed else 0) in
                let nb := u32 (n_total + bs - 1) / bs in
                if n_have <? nb then nb - n_have else 0) = n_new_blocks bs st n_total computed).
  { unfold n_new_blocks, base_ids. cbv zeta. rewrite u32_small by lia.
    generalize ((n_total + bs - 1) / bs). intros q.
    destruct (block_ids st) as [| b ids] eqn:E;
      [rewrite bool_decide_eq_true_2 by done | rewrite bool_decide_eq_false_2 by done];
      rewrite ?Zlen_nil; destruct (_ <? q) eqn:El; lia. }
  unfold allocate_slots. fold bs. cbv zeta in *. rewrite En, Ez. cbn [rbind]. rewrite (law_num_free _ _ (kr_pool _ _ HR)).
  fold need. assert (0 <= need < 2 ^ 32) as Hneed.
  { unfold need, n_new_blocks. pose proof (Zlen_nonneg (base_ids st computed)). lia. }
  rewrite (u32_small need) by done. split; intros Hle; destruct (Zlen (a_free a) <? need) eqn:E; try lia; [| done].
  destruct (allocate_run kv a st computed (n_new_blocks bs st n_total computed) HR Hc) as (p' & -> & HR' & Hlen);
    [unfold n_new_blocks; lia | done |].
  eexists _, _, _. split; [done |]. eapply alloc_post_intro; eauto.
  pose proof (Z.div_mod (n_total + bs - 1) bs ltac:(lia)).
  pose proof (Z.mod_pos_bound (n_total + bs - 1) bs Hbs).
  rewrite Zlen_app, Hlen. unfold n_new_blocks. fold bs. nia.
Qed.

(** ** free *)
Theorem free_spec kv a st L :
  kv_rep kv a -> refs_ok a (block_ids st ++ L) ->
  exists st' kv' a', free_kv st kv = Ok (st', kv') /\ kv_rep kv' a'
    /\ kv_block_size kv' = kv_block_size kv /\ prefix_caching kv' = prefix_caching kv
    /\ block_ids st' = [] /\ num_cached_blocks st' = (if bool_decide (block_ids st = []) then num_cached_blocks st else 0)
    /\ refs_ok a' L /\ a_cache a' = a_cache a /\ (forall b, is_Some (a_ref a !! b) -> is_Some (a_ref a' !! b)).
Proof using.
  intros HR HL. unfold free_kv. case_bool_decide as E.
  { exists st, kv, a. rewrite E in HL. naive_solver. }
  destruct (law_free (pool_ kv) a (rev (block_ids st)) (kr_pool _ _ HR)) as (p' & -> & HR').
  { intros b Hb. rewrite <- Permutation_rev in Hb.
    destruct (refs_ok_in a _ b HL) as (r & Hr & ->); [set_solver |].
    exists (occ (block_ids st ++ L) b). split; [done |]. rewrite occ_app, <- (occ_rev (block_ids st)).
    unfold occ at 1. pose proof (occ_nonneg L b). lia. }
  destruct (a_free_blocks_bs (rev (block_ids st)) a) as [Eb Ec].
  cbn [rbind]. eexists _, _, _. split; [done |].
  split; [apply (kv_rep_pool kv a); try done; intros b; apply a_free_blocks_dom |].
  do 4 (split; [done |]). split.
  - apply refs_free. by rewrite <- Permutation_rev.
  - split; [apply a_free_blocks_cache |]. intros b Hb. unfold a_free_blocks.
    pose proof (a_drop_ref (rev (block_ids st)) (a_ref a) (a_cache a) [] [] b) as Hd.
    destruct (a_drop _ _ _ _ _) as [[ref unc] cac]. simpl in *. rewrite Hd. by apply fmap_is_Some.
Qed.

(** ** cache_blocks *)

(** what registering blocks [i .. n) of a table changes: the cache, by entries of those blocks *)
Record cache_post (bs : Z) (ids toks hashes : list Z) (i n : Z) (a a' : APool) : Prop := {
  cp_ref : a_ref a' = a_ref a;
  cp_free : a_free a' = a_free a;
  cp_bs : a_bs a' = a_bs a;
  cp_caching : a_caching a' = a_caching a;
  cp_old : forall b e, a_cache a !! b = Some e -> a_cache a' !! b = Some e;
  cp_new : forall b e, a_cache a' !! b = Some e -> a_cache a !! b = Some e
    \/ exists j h, i <= j < n /\ vlookup ids j = Some b /\ vlookup hashes j = Some h
         /\ e = (h, take (Z.to_nat bs) (drop (Z.to_nat (j * bs)) toks));
  cp_all : a_caching a = true -> forall j b, i <= j < n -> vlookup ids j = Some b ->
    is_Some (a_cache a' !! b)
}.

Lemma cache_post_nil bs ids toks hashes i n a : n <= i \/ Zlen ids <= i -> cache_post bs ids toks hashes i n a a.
Proof using.
  intros Hi. split; auto. intros _ j b Hj Hb. apply vlookup_Some_range in Hb. lia.
Qed.

Lemma cache_post_cons bs ids toks hashes i n a a' b h :
  a_bs a = bs -> i < n -> vlookup ids i = Some b -> vlookup hashes i = Some h ->
  cache_post bs ids toks hashes (i + 1) n
    (a_cache_block b h (take (Z.to_nat bs) (drop (Z.to_nat (i * bs)) toks)) a) a' ->
  cache_post bs ids toks hashes i n a a'.
Proof using.
  intros Ebs Hi Hb Hh [Hr Hf Hbs Hcc Hold Hnew Hall]. unfold a_cache_block in *.
  assert (forall c e, a_cache a !! c = Some e -> a_cache (a_cache_block b h (take (Z.to_nat bs) (drop (Z.to_nat (i * bs)) toks)) a) !! c = Some e) as Hmono.
  { intros c e Hc. unfold a_cache_block. repeat case_match; simpl; try done.
    rewrite lookup_insert_ne; [done | congruence]. }
  unfold a_cache_block in Hmono. split.
  1-4: first [rewrite Hr | rewrite Hf | rewrite Hbs | rewrite Hcc]; by repeat case_match.
  - auto.
  - intros c e Hc. destruct (Hnew c e Hc) as [Hc' | (j & h' & Hj & ?)]; [| right; exists j, h'; split; [lia | done]].
    repeat case_match; simpl in *; auto. apply lookup_insert_Some in Hc' as [[<- <-] | [_ ?]]; [right | auto].
    exists i, h. split; [lia | done].
  - intros Hca j c Hj Hc. destruct (decide (j = i)) as [-> | Hne].
    + simplify_eq. rewrite Hca in *. destruct (a_cache a !! b) as [e |] eqn:E.
      * exists e. by apply Hold.
      * eexists. apply Hold. simpl. by rewrite lookup_insert_eq.
    + apply (Hall ltac:(repeat case_match; simplify_eq; done) j c); [lia | done].
Qed.

Lemma cache_loop_spec fuel i n bs ids toks hashes p a :
  pool_rep p a -> a_bs a = bs -> (forall b, b ∈ ids -> is_Some (a_ref a !! b)) ->
  (forall h, h ∈ hashes -> h <> HASH_NONE) -> n <= Zlen hashes -> n * bs <= Zlen toks -> 0 <= i ->
  Zlen ids - i < Z.of_nat fuel -> (0 < fuel)%nat ->
  exists p' a', cache_loop fuel i n ids toks hashes bs p = Ok p' /\ pool_rep p' a'
    /\ cache_post bs ids toks hashes i n a a'.
Proof using.
  revert i p a. induction fuel as [| fuel IH]; intros i p a HR Ebs Hids Hh Hn Ht Hi Hf H0; [lia |].
  cbn [cache_loop]. destruct ((i <? n) && (i <? Zlen ids)) eqn:E.
  2: { exists p, a. split; [done |]. split; [done |]. apply cache_post_nil. lia. }
  apply andb_true_iff in E as [E1 E2]. apply Z.ltb_lt in E1, E2.
  destruct (vlookup_lt_is_Some ids i) as [b Hb]; [lia |].
  destruct (vlookup_lt_is_Some hashes i) as [h Hhi]; [lia |].
  rewrite (proj2 (vget_Ok _ _ _) Hb), (proj2 (vget_Ok _ _ _) Hhi). cbn [rbind].
  pose proof (wa_bs _ (law_wf _ _ HR)) as Hbs.
  destruct (law_cache p a b h (drop (Z.to_nat (i * bs)) toks) HR) as (p1 & -> & HR1).
  - apply Hids. by eapply vlookup_elem_of.
  - apply Hh. by eapply vlookup_elem_of.
  - rewrite Ebs in *. unfold Zlen in *. rewrite length_drop. nia.
  - cbn [rbind]. rewrite Ebs in HR1.
    destruct (IH (i + 1) p1 _ HR1) as (p' & a' & Hp' & HR' & Hpost); try done; try lia.
    + unfold a_cache_block. by repeat case_match.
    + intros c Hc. unfold a_cache_block. repeat case_match; by apply Hids.
    + exists p', a'. split; [done |]. split; [done |]. by eapply cache_post_cons.
Qed.

Theorem cache_blocks_spec kv a st toks n_cache hashes :
  kv_rep kv a -> (forall b, b ∈ block_ids st -> is_Some (a_ref a !! b)) ->
  (forall h, h ∈ hashes -> h <> HASH_NONE) -> 0 <= n_cache <= Zlen toks -> 0 <= num_cached_blocks st ->
  let n_full := Z.min (n_cache / kv_block_size kv) (Zlen hashes) in
  exists st' kv' a', cache_blocks st toks n_cache hashes kv = Ok (st', kv') /\ kv_rep kv' a'
    /\ kv_block_size kv' = kv_block_size kv /\ prefix_caching kv' = prefix_caching kv
    /\ block_ids st' = block_ids st
    /\ num_cached_blocks st <= num_cached_blocks st' <= Z.max (num_cached_blocks st) (Zlen (block_ids st))
    /\ (prefix_caching kv = true -> num_cached_blocks st' = Z.max (num_cached_blocks st) (Z.min n_full (Zlen (block_ids st))))
    /\ cache_post (kv_block_size kv) (block_ids st) toks hashes (num_cached_blocks st) n_full a a'.
Proof using.
  intros HR Hids Hh Hn Hc n_full. pose proof (kr_bs_pos _ _ HR) as Hbs. unfold cache_blocks.
  destruct (prefix_caching kv) eqn:Epc; cbn [negb].
  2: { exists st, kv, a. repeat (split; [done || lia |]). split; auto. intros Hca.
       rewrite (kr_caching _ _ HR), Epc in Hca. done. }
  fold n_full.
  destruct (cache_loop_spec (S (length (block_ids st))) (num_cached_blocks st) n_full
    (kv_block_size kv) (block_ids st) toks hashes (pool_ kv) a) as (p' & a' & -> & HR' & Hpost);
    try done; try apply HR; try lia.
  { assert (n_full * kv_block_size kv <= n_cache); [| lia].
    pose proof (Z.mul_div_le n_cache (kv_block_size kv) Hbs). nia. }
  { unfold Zlen. lia. }
  cbn [rbind]. eexists _, _, a'. split; [done |]. destruct Hpost as [Er ? Eb Ec]. simpl.
  split; [apply (kv_rep_pool kv a); try done; intros b; by rewrite Er |].
  repeat (split; [done || lia |]). done.
Qed.
End kv_facts.
