(* ===== verification/CacheProps.v ===== *)
(** * Properties of the block pool and the paged KV cache

    The concrete pool refines the abstract one over any sequence of operations; the cache is built
    or refused as its configuration says; allocation, lookup and release on every branch; and what
    the hash check on a hit does not establish. *)

From S2P Require Import Prelude BlockPool FreeList PoolSpec PoolRefine KVCache KVFacts.

(** ** Sequences of pool operations *)
Inductive pool_op :=
| OpTouch (b : Z)
| OpGetNew (n : Z)
| OpFree (bl : list Z)
| OpCache (b h : Z) (toks : list Z)
| OpReset.

Definition run_op (op : pool_op) (p : BlockPool) : res BlockPool :=
  match op with
  | OpTouch b => touch b p
  | OpGetNew n => let! (_, p) := get_new_blocks n [] p in Ok p
  | OpFree bl => free_blocks bl p
  | OpCache b h toks => cache_block b h toks p
  | OpReset => Ok (reset_prefix_cache p).2
  end.
Fixpoint run_ops (ops : list pool_op) (p : BlockPool) : res BlockPool :=
  match ops with [] => Ok p | op :: ops => let! p := run_op op p in run_ops ops p end.

(** dropping every cache entry, allowed when no block is in use *)
Definition a_reset (a : APool) : APool :=
  if decide (Zlen (a_free a) = Z.of_nat (size (a_ref a)))
  then mkAPool (a_free a) (a_ref a) ∅ (a_bs a) (a_caching a) else a.

Definition a_run_op (op : pool_op) (a : APool) : APool :=
  match op with
  | OpTouch b => a_touch b a
  | OpGetNew n => a_get_new (Z.to_nat n) a
  | OpFree bl => a_free_blocks bl a
  | OpCache b h toks => a_cache_block b h (take (Z.to_nat (a_bs a)) toks) a
  | OpReset => a_reset a
  end.
(** what a caller must respect: touch and cache known blocks, free no more than was taken *)
Definition op_legal (op : pool_op) (a : APool) : Prop :=
  match op with
  | OpTouch b => is_Some (a_ref a !! b)
  | OpGetNew n => 0 <= n <= Zlen (a_free a)
  | OpFree bl => forall b, b ∈ bl -> exists r, a_ref a !! b = Some r /\ Z.of_nat (count_occ Z.eq_dec bl b) <= r
  | OpCache b h toks => is_Some (a_ref a !! b) /\ h <> HASH_NONE /\ a_bs a <= Zlen toks
  | OpReset => True
  end.
Fixpoint ops_legal (ops : list pool_op) (a : APool) : Prop :=
  match ops with [] => True | op :: ops => op_legal op a /\ ops_legal ops (a_run_op op a) end.

(** reset_prefix_cache tests the free count against the number of blocks *)
Lemma rep_size p a : rep p a -> Z.of_nat (size (a_ref a)) = Zlen (blocks_ p).
Proof.
  intros HR. assert (Hd : dom (a_ref a) = list_to_set (Z.of_nat <$> seq 0 (length (blocks_ p)))).
  { apply set_eq. intros b. rewrite elem_of_dom, elem_of_list_to_set, list_elem_of_fmap, (rp_ref _ _ _ HR), fmap_is_Some.
    split.
    - intros [x Hx]. apply vlookup_Some_range in Hx. exists (Z.to_nat b). rewrite elem_of_seq. unfold Zlen in *. lia.
    - intros (i & -> & Hi%elem_of_seq). apply vlookup_lt_is_Some. unfold Zlen. lia. }
  rewrite <- size_dom, Hd, size_list_to_set by (apply NoDup_fmap_2; [intros ???; lia | apply NoDup_seq]).
  by rewrite length_fmap, length_seq.
Qed.

Lemma vlookup_map {A B} (f : A -> B) (l : list A) i : vlookup (map f l) i = f <$> vlookup l i.
Proof. unfold vlookup. case_match; [| done]. by rewrite list_lookup_fmap. Qed.

Lemma reset_spec p a : rep p a -> rep (reset_prefix_cache p).2 (a_reset a).
Proof.
  intros HR. pose proof (rep_size p a HR) as Hsz. pose proof (fl_count _ _ (rp_list _ _ _ HR)) as Hc.
  unfold reset_prefix_cache, a_reset. rewrite Hsz, <- Hc. case_decide as E.
  2: { by rewrite (proj2 (Z.eqb_neq _ _) E). }
  rewrite E, Z.eqb_refl. simpl. destruct HR as [[L1 L2 L3 L4 L5 L6 L7] R2 R3 R4 R5 R6 R7 R8 R9 R10 R11 R12 R13].
  assert (Hm : forall b, vlookup (map (set_hash HASH_NONE) (blocks_ p)) b = set_hash HASH_NONE <$> vlookup (blocks_ p) b)
    by (intros b; apply vlookup_map).
  assert (Hl : Zlen (map (set_hash HASH_NONE) (blocks_ p)) = Zlen (blocks_ p)) by (unfold Zlen; by rewrite length_map).
  split; simpl; try done.
  - split; simpl; rewrite ?Hl; try done.
    + assert (forall l pv nx, seg (blocks_ p) pv l nx -> seg (map (set_hash HASH_NONE) (blocks_ p)) pv l nx) as Hseg; [| by apply Hseg].
      induction l as [| b l IH]; intros pv nx Hs; [done |]. destruct Hs as [(x & Hx & H1 & H2 & H3) Hs].
      split; [| by apply IH]. exists (set_hash HASH_NONE x). by rewrite Hm, Hx.
    + intros b x. rewrite Hm. destruct (vlookup (blocks_ p) b) as [y |] eqn:Ey; [| done]. intros [= <-]. exact (L6 b y Ey).
  - intros b. rewrite Hm, R2. by destruct (vlookup (blocks_ p) b).
  - intros b x. rewrite Hm. destruct (vlookup (blocks_ p) b) as [y |] eqn:Ey; [| done]. intros [= <-]. exact (R3 b y Ey).
  - by rewrite Hl.
  - intros b. rewrite Hm, lookup_empty. by destruct (vlookup (blocks_ p) b).
  - constructor.
  - intros h b. split; [intros H; by apply not_elem_of_nil in H | intros (? & H)]. done.
  - by rewrite Hl.
Qed.

Lemma run_op_sim op p a : rep p a -> op_legal op a -> exists p', run_op op p = Ok p' /\ rep p' (a_run_op op a).
Proof.
  intros HR Hl. destruct op; simpl in *.
  - by apply touch_spec.
  - destruct (get_new_spec p a n [] HR Hl) as (p' & Hp & HR'). rewrite Hp. eauto.
  - by apply free_blocks_spec.
  - destruct Hl as (? & ? & ?). by apply cache_spec.
  - eexists. split; [done |]. by apply reset_spec.
Qed.

Lemma run_ops_sim ops p a :
  rep p a -> ops_legal ops a -> exists p', run_ops ops p = Ok p' /\ rep p' (foldl (fun a op => a_run_op op a) a ops).
Proof.
  revert p a. induction ops as [| op ops IH]; intros p a HR Hl; [eauto |]. destruct Hl as [Ho Hl].
  destruct (run_op_sim op p a HR Ho) as (p1 & Hp & HR1). simpl. rewrite Hp. cbn [rbind]. by apply IH.
Qed.

(** C1: From construction on, any legal sequence of pool operations runs without exception or
    out-of-range access, and the linked free list, reference counts, token array and hash table
    represent the abstract pool after the same operations. *)
Theorem pool_refines_abstract n bs caching ops :
  0 <= n < 2 ^ 31 -> 0 < bs -> ops_legal ops (a_new n bs caching) ->
  exists p p', new_pool n bs caching = Ok p /\ run_ops ops p = Ok p'
    /\ rep p' (foldl (fun a op => a_run_op op a) (a_new n bs caching) ops).
Proof.
  intros Hn Hbs Hl. destruct (new_pool_spec n bs caching Hn Hbs) as (p & Hp & HR).
  destruct (run_ops_sim ops p _ HR Hl) as (p' & Hp' & HR'). by exists p, p'.
Qed.
Definition demo_ops : list pool_op :=
  [OpGetNew 2; OpCache 0 77 [5; 6; 7]; OpTouch 0; OpFree [0; 1]; OpFree [0]; OpReset].
Lemma pool_refines_abstract_witness :
  exists p p', new_pool 3 2 true = Ok p /\ run_ops demo_ops p = Ok p'
    /\ rep p' (foldl (fun a op => a_run_op op a) (a_new 3 2 true) demo_ops).
Proof.
  apply (pool_refines_abstract 3 2 true demo_ops); [lia | lia |].
  vm_compute. split_and!; try done; try (by eexists).
  - intros b Hb. repeat (apply elem_of_cons in Hb as [-> | Hb]); [by eexists.. | by apply not_elem_of_nil in Hb].
  - intros b Hb. repeat (apply elem_of_cons in Hb as [-> | Hb]); [by eexists.. | by apply not_elem_of_nil in Hb].
Defined.

(** ** The cache *)

(** number of cells the configuration asks for *)
Definition wanted_cells (cfg : KVCacheConfig) : Z :=
  if kc_num_blocks cfg =? 0 then (kc_max_cells cfg + kc_block_size cfg - 1) / kc_block_size cfg * kc_block_size cfg
  else kc_num_blocks cfg * kc_block_size cfg.

Lemma wanted_cells_mult cfg : 0 < kc_block_size cfg ->
  wanted_cells cfg / kc_block_size cfg * kc_block_size cfg = wanted_cells cfg.
Proof. intros H. unfold wanted_cells. case_match; rewrite Z.div_mul; lia. Qed.

Lemma a_new_cells n bs caching b :
  is_Some (a_ref (a_new n bs caching) !! b) -> 0 <= n -> 0 <= b < n.
Proof. intros [r Hr] Hn. simpl in Hr. rewrite zero_refs_lookup in Hr. case_decide; [lia | done]. Qed.

Lemma new_kv_spec cfg :
  0 < kc_block_size cfg -> 0 <= kc_max_cells cfg -> 0 <= kc_num_blocks cfg ->
  kc_max_cells cfg + kc_block_size cfg < 2 ^ 31 -> kc_num_blocks cfg * kc_block_size cfg < 2 ^ 31 ->
  (wanted_cells cfg = 0 /\ new_kv cfg = throw! "KV cache size is zero")
  \/ (0 < wanted_cells cfg /\ exists kv, new_kv cfg = Ok kv /\ num_cells_ kv = wanted_cells cfg
        /\ kv_block_size kv = kc_block_size cfg
        /\ kv_rep kv (a_new (wanted_cells cfg / kc_block_size cfg) (kc_block_size cfg) (kc_enable_prefix_caching cfg))).
Proof.
  intros Hbs Hm Hn Hs1 Hs2. pose proof (wanted_cells_mult cfg Hbs) as Hmul. unfold new_kv.
  rewrite (proj2 (Z.eqb_neq (kc_block_size cfg) 0)) by lia.
  assert (Hq : 0 <= (kc_max_cells cfg + kc_block_size cfg - 1) / kc_block_size cfg) by (apply Z.div_pos; lia).
  assert (Hw : 0 <= wanted_cells cfg < 2 ^ 31).
  { unfold wanted_cells. case_match; [| nia]. pose proof (Z.mul_div_le (kc_max_cells cfg + kc_block_size cfg - 1) _ Hbs). nia. }
  assert (Ec : (if kc_num_blocks cfg =? 0
    then u32 (u32 (kc_max_cells cfg + kc_block_size cfg - 1) / kc_block_size cfg * kc_block_size cfg)
    else u32 (kc_num_blocks cfg * kc_block_size cfg)) = wanted_cells cfg).
  { unfold wanted_cells in *. destruct (_ =? 0); rewrite ?(u32_small (kc_max_cells cfg + _ - 1)) by lia; apply u32_small; lia. }
  rewrite Ec. set (n := wanted_cells cfg / kc_block_size cfg) in *.
  assert (Hn' : 0 <= n < 2 ^ 31) by (split; [apply Z.div_pos; lia | nia]).
  destruct (new_pool_spec n (kc_block_size cfg) (kc_enable_prefix_caching cfg) Hn' Hbs) as (p & -> & HR). cbn [rbind].
  destruct (wanted_cells cfg =? 0) eqn:E; [left; split; [lia | done] | right]. split; [lia |].
  eexists. split; [done |]. split; [done |]. split; [done |]. split; simpl; [exact HR | done | done | | lia].
  intros b Hb. apply (a_new_cells n (kc_block_size cfg) true) in Hb; [nia | lia].
Qed.

(** The constructor either refuses a configuration with no cells or returns a cache whose
    cells are the configured number rounded up to whole blocks, all of them free. *)
Theorem kv_constructor cfg :
  0 < kc_block_size cfg -> 0 <= kc_max_cells cfg -> 0 <= kc_num_blocks cfg ->
  kc_max_cells cfg + kc_block_size cfg < 2 ^ 31 -> kc_num_blocks cfg * kc_block_size cfg < 2 ^ 31 ->
  (wanted_cells cfg = 0 /\ new_kv cfg = throw! "KV cache size is zero")
  \/ (0 < wanted_cells cfg /\ exists kv, new_kv cfg = Ok kv /\ num_cells_ kv = wanted_cells cfg
        /\ n_free_ (pool_ kv) * kv_block_size kv = num_cells_ kv
        /\ kv_rep kv (a_new (wanted_cells cfg / kc_block_size cfg) (kc_block_size cfg) (kc_enable_prefix_caching cfg))).
Proof.
  intros Hbs Hm Hn Hs1 Hs2. destruct (new_kv_spec cfg Hbs Hm Hn Hs1 Hs2) as [? | (Hw & kv & ? & Hc & Hb & HR)]; [by left | right].
  split; [done |]. exists kv. split_and!; try done. pose proof (law_num_free _ _ (kr_pool _ _ HR)) as Hf. simpl in Hf.
  rewrite Hf, Hc, Hb. unfold Zlen. rewrite length_fmap, length_seq.
  rewrite Z2Nat.id; [by apply wanted_cells_mult | apply Z.div_pos; lia].
Qed.
Lemma kv_constructor_witness :
  let cfg := mkKVCfg 16 0 100 true in
  (wanted_cells cfg = 0 /\ new_kv cfg = throw! "KV cache size is zero")
  \/ (0 < wanted_cells cfg /\ exists kv, new_kv cfg = Ok kv /\ num_cells_ kv = wanted_cells cfg
        /\ n_free_ (pool_ kv) * kv_block_size kv = num_cells_ kv
        /\ kv_rep kv (a_new (wanted_cells cfg / kc_block_size cfg) (kc_block_size cfg) (kc_enable_prefix_caching cfg))).
Proof. apply (kv_constructor (mkKVCfg 16 0 100 true)); vm_compute; done. Defined.

(** a small cache: three blocks of two cells *)
Definition demo_cfg : KVCacheConfig := mkKVCfg 2 3 0 true.
Lemma demo_kv : exists kv, new_kv demo_cfg = Ok kv /\ kv_rep kv (a_new 3 2 true) /\ kv_block_size kv = 2.
Proof.
  destruct (new_kv_spec demo_cfg) as [[H _] | (_ & kv & ? & _ & ? & ?)];
    [by vm_compute.. | by vm_compute in H | by exists kv].
Qed.

Section claims.
Context {P : Type} `{PO : PoolOps P} `{PS : !PoolSpec P}.

(** C2: allocate_slots takes blocks exactly when the free list covers the missing blocks plus the
    unreferenced cached blocks it has to revive.  On success the table is the old one (or the
    cached prefix) followed by distinct fresh blocks, with room for every token; blocks in use are
    referenced once per table entry; otherwise nothing changes. *)
Theorem allocate_slots_exact (kv : PagedKVCache P) a st n_total computed L :
  kv_rep kv a -> refs_ok a (block_ids st ++ L) -> (forall b, b ∈ computed -> is_Some (a_ref a !! b)) ->
  0 <= n_total -> n_total + kv_block_size kv < 2 ^ 31 -> Zlen computed < 2 ^ 31 ->
  let need := n_new_blocks (kv_block_size kv) st n_total computed + zero_refs (base_touched st computed) a in
  if decide (need <= Zlen (a_free a)) then
    exists st' kv' a' fresh, allocate_slots st n_total computed kv = Ok (true, st', kv') /\ kv_rep kv' a'
      /\ block_ids st' = base_ids st computed ++ fresh /\ NoDup fresh /\ (forall b, b ∈ fresh -> b ∈ a_free a)
      /\ n_total <= Zlen (block_ids st') * kv_block_size kv /\ refs_ok a' (block_ids st' ++ L)
  else allocate_slots st n_total computed kv = Ok (false, st, kv).
Proof.
  intros HR HL Hc Hn Hs Hs2 need. destruct (allocate_spec kv a st n_total computed HR Hc Hn Hs Hs2) as [Hyes Hno].
  case_decide as E; [| apply Hno; lia]. destruct (Hyes E) as (st' & kv' & a' & Hrun & [Hk _ _ (fresh & Hids & Hfree & Hnd & _ & Href) Hen _]).
  exists st', kv', a', fresh. split_and!; try done. destruct (Href _ HL) as [HL' _]. rewrite Hids.
  eapply refs_ok_perm; [| exact HL']. unfold base_ids, base_touched. destruct (block_ids st) as [| c ids]; simpl.
  - by rewrite <- app_assoc.
  - rewrite <- Permutation_middle. constructor. rewrite !app_assoc. apply Permutation_app_tail, Permutation_app_comm.
Qed.

(** C3: get_computed_blocks returns the longest run of leading full blocks that the cache holds
    under the chained hash with the same tokens, and always leaves at least one token to compute. *)
Theorem get_computed_longest (kv : PagedKVCache P) a toks hashes :
  kv_rep kv a -> Zlen toks < 2 ^ 32 ->
  exists bl, get_computed_blocks kv toks hashes = Ok (Zlen bl * kv_block_size kv, bl)
    /\ Zlen bl * kv_block_size kv <= Z.max 0 (Zlen toks - 1)
    /\ (forall i b, bl !! i = Some b -> hit a (kv_block_size kv) toks hashes i b)
    /\ (prefix_caching kv = true -> Zlen bl < (Zlen toks - 1) / kv_block_size kv ->
        forall b, ~ hit a (kv_block_size kv) toks hashes (length bl) b).
Proof. apply get_computed_spec. Qed.

(** update_hashes continues a list of hashes that already covers a prefix of the blocks and
    returns the whole chain; the chain of a longer sequence extends the chain of its prefix. *)
Theorem update_hashes_incremental (kv : PagedKVCache P) a toks more extra hashes :
  kv_rep kv a -> Zlen (toks ++ more) < 2 ^ 32 -> hashes `prefix_of` chain (kv_block_size kv) toks extra ->
  update_hashes kv hashes (toks ++ more) extra = update_hashes kv [] (toks ++ more) extra
  /\ chain (kv_block_size kv) toks extra `prefix_of` chain (kv_block_size kv) (toks ++ more) extra.
Proof.
  intros HR Hl Hp. pose proof (kr_bs_pos _ _ HR) as Hbs. pose proof (chain_app _ extra Hbs toks more) as Hc.
  split; [| done]. rewrite !(update_hashes_spec kv a); try done; [apply prefix_nil | by etransitivity].
Qed.

(** free releases every block of the table: each loses the references the table held, the
    table is empty afterwards and cached blocks keep their entries. *)
Theorem free_releases (kv : PagedKVCache P) a st L :
  kv_rep kv a -> refs_ok a (block_ids st ++ L) ->
  exists st' kv' a', free_kv st kv = Ok (st', kv') /\ kv_rep kv' a' /\ block_ids st' = []
    /\ refs_ok a' L /\ a_cache a' = a_cache a /\ (forall b, b ∈ block_ids st -> b ∉ L -> b ∈ a_free a').
Proof.
  intros HR HL. destruct (free_spec kv a st L HR HL) as (st' & kv' & a' & ? & Hk & _ & _ & ? & _ & HL' & ? & Hd).
  exists st', kv', a'. split_and!; try done. intros b Hb Hn. apply (wa_free _ (kr_wf _ _ Hk)).
  destruct (refs_ok_in a _ b HL) as (r & Hr & _); [set_solver |]. destruct (Hd b) as [r' Hr']; [by eexists |].
  specialize (HL' b). rewrite Hr' in *. by rewrite HL', (proj2 (occ_0 L b) Hn).
Qed.
End claims.

(** ** The statements above hold of concrete caches *)
Lemma a_new_refs n bs caching : refs_ok (a_new n bs caching) [].
Proof. intros b. simpl. rewrite zero_refs_lookup. case_decide; [done | set_solver]. Qed.

Lemma allocate_slots_exact_witness :
  exists kv st' kv' a' fresh, new_kv demo_cfg = Ok kv /\ allocate_slots empty_kvs 3 [] kv = Ok (true, st', kv')
    /\ kv_rep kv' a' /\ block_ids st' = [] ++ fresh /\ NoDup fresh
    /\ (forall b, b ∈ fresh -> b ∈ a_free (a_new 3 2 true))
    /\ 3 <= Zlen (block_ids st') * kv_block_size kv /\ refs_ok a' (block_ids st' ++ []).
Proof.
  destruct demo_kv as (kv & Hk & HR & Hbs).
  pose proof (allocate_slots_exact kv _ empty_kvs 3 [] [] HR) as H. rewrite decide_True in H by (rewrite Hbs; by vm_compute).
  destruct H as (st' & kv' & a' & fresh & ?); [apply a_new_refs | set_solver | lia | rewrite Hbs; lia | by vm_compute |].
  by exists kv, st', kv', a', fresh.
Defined.

Lemma get_computed_longest_witness :
  exists kv, new_kv demo_cfg = Ok kv /\ exists bl,
    get_computed_blocks kv [1; 2; 3] (chain 2 [1; 2; 3] 0) = Ok (Zlen bl * kv_block_size kv, bl)
    /\ Zlen bl * kv_block_size kv <= Z.max 0 (Zlen [1; 2; 3] - 1)
    /\ (forall i b, bl !! i = Some b -> hit (a_new 3 2 true) (kv_block_size kv) [1; 2; 3] (chain 2 [1; 2; 3] 0) i b)
    /\ (prefix_caching kv = true -> Zlen bl < (Zlen [1; 2; 3] - 1) / kv_block_size kv ->
        forall b, ~ hit (a_new 3 2 true) (kv_block_size kv) [1; 2; 3] (chain 2 [1; 2; 3] 0) (length bl) b).
Proof.
  destruct demo_kv as (kv & Hk & HR & Hbs). exists kv. split; [done |].
  apply (get_computed_longest kv (a_new 3 2 true)); [done | by vm_compute].
Defined.

Lemma update_hashes_incremental_witness :
  exists kv, new_kv demo_cfg = Ok kv
    /\ update_hashes kv (chain 2 [1; 2; 3] 7) ([1; 2; 3] ++ [4; 5]) 7 = update_hashes kv [] ([1; 2; 3] ++ [4; 5]) 7
    /\ chain (kv_block_size kv) [1; 2; 3] 7 `prefix_of` chain (kv_block_size kv) ([1; 2; 3] ++ [4; 5]) 7.
Proof.
  destruct demo_kv as (kv & Hk & HR & Hbs). exists kv. split; [done |].
  apply (update_hashes_incremental kv (a_new 3 2 true)); [done | by vm_compute | by rewrite Hbs].
Defined.

(** the same cache with a two-block table taken *)
Lemma demo_taken : exists kv st a, kv_rep kv a /\ kv_block_size kv = 2 /\ refs_ok a (block_ids st ++ [])
  /\ 3 <= Zlen (block_ids st) * 2.
Proof.
  destruct demo_kv as (kv & Hk & HR & Hbs).
  destruct (allocate_spec kv _ empty_kvs 3 [] HR) as [Hyes _]; [set_solver | lia | rewrite Hbs; lia | by vm_compute |].
  destruct Hyes as (st & kv' & a' & _ & [H1 H2 _ (fresh & Hids & _ & _ & _ & Href) H4 _]); [rewrite Hbs; by vm_compute |].
  exists kv', st, a'. rewrite Hids, H2, Hbs in *. split_and!; try done. by destruct (Href [] (a_new_refs 3 2 true)).
Qed.
Lemma free_releases_witness :
  exists kv st a st' kv' a', 3 <= Zlen (block_ids st) * kv_block_size kv /\ free_kv st kv = Ok (st', kv') /\ kv_rep kv' a'
    /\ block_ids st' = [] /\ refs_ok a' [] /\ a_cache a' = a_cache a
    /\ (forall b, b ∈ block_ids st -> b ∉ [] -> b ∈ a_free a').
Proof.
  destruct demo_taken as (kv & st & a & HR & Hbs & HL & Hle).
  destruct (free_releases kv a st [] HR HL) as (st' & kv' & a' & ?).
  exists kv, st, a, st', kv', a'. by rewrite Hbs.
Defined.

(** ** What the token check on a hit does not establish *)

(** mix64 is a bijection of the 64-bit words: its shift is its own inverse, its factors are odd *)
Definition xor_shift (h : Z) : Z := Z.lxor h (Z.shiftr h 33).
Definition mix64_inv (h : Z) : Z := xor_shift (u64 (xor_shift (u64 (xor_shift h * 0x9cb4b2f8129337db)) * 0x4f74430c22a54005)).
Lemma word_bits h : 0 <= h < 2 ^ 64 <-> 0 <= h /\ forall n, 64 <= n -> Z.testbit h n = false.
Proof.
  split.
  - intros H. split; [lia |]. intros n Hn. rewrite <- (Z.mod_small h (2 ^ 64)) by done. by apply Z.mod_pow2_bits_high.
  - intros [H0 H]. split; [done |]. destruct (Z.lt_ge_cases h (2 ^ 64)) as [| Hge]; [done |]. pose proof (Z.log2_le_mono _ _ Hge) as Hl. rewrite Z.log2_pow2 in Hl by lia. pose proof (Z.bit_log2 h ltac:(lia)) as Hb. by rewrite H in Hb.
Qed.
Lemma lxor_word a b : 0 <= a < 2 ^ 64 -> 0 <= b < 2 ^ 64 -> 0 <= Z.lxor a b < 2 ^ 64.
Proof. rewrite !word_bits. intros [Ha1 Ha2] [Hb1 Hb2]. split; [by apply Z.lxor_nonneg |]. intros n Hn. rewrite Z.lxor_spec. by rewrite Ha2, Hb2. Qed.
Lemma xor_shift_word h : 0 <= h < 2 ^ 64 -> 0 <= xor_shift h < 2 ^ 64.
Proof.
  intros H. apply lxor_word; [done |]. rewrite Z.shiftr_div_pow2 by lia. split; [apply Z.div_pos; lia |]. pose proof (Z.div_le_upper_bound h (2 ^ 33) h ltac:(lia)). nia.
Qed.
Lemma xor_shift_twice h : 0 <= h < 2 ^ 64 -> xor_shift (xor_shift h) = h.
Proof.
  intros H. apply word_bits in H as [_ H]. unfold xor_shift. apply Z.bits_inj'. intros n Hn. rewrite !Z.lxor_spec, !Z.shiftr_spec, Z.lxor_spec, Z.shiftr_spec by lia. rewrite (H (n + 33 + 33)) by lia. by destruct (Z.testbit h n), (Z.testbit h (n + 33)).
Qed.
Lemma unmultiply h c d : 0 <= h < 2 ^ 64 -> c * d mod 2 ^ 64 = 1 -> u64 (u64 (h * c) * d) = h.
Proof. intros H E. unfold u64. rewrite Z.mul_mod_idemp_l, <- Z.mul_assoc, <- Z.mul_mod_idemp_r, E, Z.mul_1_r, Z.mod_small by lia. done. Qed.
Lemma mix64_word h : 0 <= h < 2 ^ 64 -> 0 <= mix64 h < 2 ^ 64.
Proof. intros H. unfold mix64. apply (xor_shift_word (u64 _)), u64_range. Qed.
Lemma mix64_inverse h : 0 <= h < 2 ^ 64 -> 0 <= mix64_inv h < 2 ^ 64 /\ mix64 (mix64_inv h) = h.
Proof.
  intros H. pose proof (u64_range (xor_shift h * 0x9cb4b2f8129337db)) as H1. set (a := u64 (xor_shift h * 0x9cb4b2f8129337db)) in *. pose proof (u64_range (xor_shift a * 0x4f74430c22a54005)) as H2. set (b := u64 (xor_shift a * 0x4f74430c22a54005)) in *.
  unfold mix64_inv. fold a. fold b. split; [by apply xor_shift_word |]. unfold mix64. fold (xor_shift (xor_shift b)). rewrite xor_shift_twice by done. fold (xor_shift (u64 (b * 0xff51afd7ed558ccd))). unfold b. rewrite unmultiply; [| by apply xor_shift_word | by vm_compute]. rewrite xor_shift_twice by done.
  fold (xor_shift (u64 (a * 0xc4ceb9fe1a85ec53))). unfold a. rewrite unmultiply; [| by apply xor_shift_word | by vm_compute]. by apply xor_shift_twice.
Qed.
Lemma hash_block_word parent toks extra : 0 <= parent < 2 ^ 64 -> 0 <= hash_block parent toks extra < 2 ^ 64.
Proof.
  intros Hp. unfold hash_block. cbv zeta. set (h := foldl _ _ _). assert (Hh : 0 <= h < 2 ^ 64); [| by destruct (h =? HASH_NONE)]. subst h.
  assert (G : forall l g, 0 <= g < 2 ^ 64 -> 0 <= foldl hash_step g l < 2 ^ 64); [induction l as [| t l IH]; intros g Hg; [done |]; cbn [foldl]; apply IH; unfold hash_step; apply mix64_word, lxor_word; [done | apply u64_range] |].
  apply G, lxor_word; apply mix64_word; [by apply lxor_word | apply u64_range].
Qed.
(** the salt under which a first block gets the hash it has behind [parent] *)
Definition other_salt (parent extra : Z) : Z :=
  u64 (mix64_inv (Z.lxor (mix64 0x9E3779B97F4A7C15) (Z.lxor (mix64 (Z.lxor parent 0x9E3779B97F4A7C15)) (mix64 (u64 (extra + 0x632BE59BD9B4E019))))) - 0x632BE59BD9B4E019).
Lemma other_salt_collides parent toks extra : 0 <= parent < 2 ^ 64 -> hash_block HASH_NONE toks (other_salt parent extra) = hash_block parent toks extra.
Proof.
  intros Hp. unfold hash_block, other_salt. change (Z.lxor HASH_NONE 0x9E3779B97F4A7C15) with 0x9E3779B97F4A7C15. set (x := mix64 0x9E3779B97F4A7C15). set (y := Z.lxor (mix64 (Z.lxor parent _)) (mix64 (u64 (extra + _)))).
  assert (Hx : 0 <= x < 2 ^ 64) by (by apply mix64_word). assert (Hy : 0 <= y < 2 ^ 64) by (apply lxor_word; apply mix64_word; [by apply lxor_word | apply u64_range]). destruct (mix64_inverse (Z.lxor x y)) as [H1 H2]; [by apply lxor_word |].
  assert (E : u64 (u64 (mix64_inv (Z.lxor x y) - 0x632BE59BD9B4E019) + 0x632BE59BD9B4E019) = mix64_inv (Z.lxor x y)) by (unfold u64; rewrite Z.add_mod_idemp_l by lia; replace (mix64_inv (Z.lxor x y) - 0x632BE59BD9B4E019 + 0x632BE59BD9B4E019) with (mix64_inv (Z.lxor x y)) by lia; by apply Z.mod_small).
  rewrite E, H2. rewrite <- Z.lxor_assoc, Z.lxor_nilpotent, Z.lxor_0_l. done.
Qed.
Lemma chain_word bs toks extra i h : chain bs toks extra !! i = Some h -> 0 <= h < 2 ^ 64.
Proof.
  unfold chain. assert (G : forall n parent toks i h, 0 <= parent < 2 ^ 64 -> chain_from n parent bs toks extra !! i = Some h -> 0 <= h < 2 ^ 64); [| apply G; unfold HASH_NONE; lia].
  induction n as [| n IH]; intros parent t k g Hp E; [done |]. cbn [chain_from] in E. pose proof (hash_block_word parent (take (Z.to_nat bs) t) extra Hp) as Hw. destruct k as [| k]; [by injection E as <- | by eapply IH].
Qed.

Section collision.
Context {P : Type} `{PO : PoolOps P} `{PS : !PoolSpec P}.
(** C38: A hit is verified against the tokens of its own block only.  For every request and every block behind
    its first that the cache holds, there is a salt under which every other prompt that starts with the tokens of this block, and goes on,
    is answered with a cached prefix that begins with a block of the first request's chain at that position: its rows were computed behind another prefix, at other
    positions. *)
Theorem hit_under_another_prefix (kv : PagedKVCache P) a toks salt i b :
  kv_rep kv a -> prefix_caching kv = true -> hit a (kv_block_size kv) toks (chain (kv_block_size kv) toks salt) (S i) b ->
  exists salt', 0 <= salt' < 2 ^ 64 /\ forall rest,
    let bs := kv_block_size kv in
    let prompt := take (Z.to_nat bs) (drop (S i * Z.to_nat bs) toks) ++ rest in
    rest <> [] -> Zlen prompt < 2 ^ 32 ->
    exists b' bl, get_computed_blocks kv prompt (chain bs prompt salt') = Ok (Zlen (b' :: bl) * bs, b' :: bl)
      /\ hit a bs toks (chain bs toks salt) (S i) b'.
Proof.
  intros HR Hon (h & Eh & Hc). pose proof (kr_bs_pos _ _ HR) as Hbs. set (bs := kv_block_size kv) in *. pose proof (lookup_lt_Some _ _ _ Eh) as Hi. rewrite (chain_length bs salt) in Hi. pose proof (Z.mul_div_le (Zlen toks) bs Hbs) as Hd.
  assert (Hblock : length (take (Z.to_nat bs) (drop (S i * Z.to_nat bs) toks)) = Z.to_nat bs) by (rewrite length_take, length_drop; unfold Zlen in *; nia).
  assert (Ep : exists parent, chain bs toks salt !! i = Some parent) by (apply lookup_lt_is_Some; rewrite (chain_length bs salt); lia). destruct Ep as [parent Ep]. pose proof (chain_word _ _ _ _ _ Ep) as Hw.
  assert (Eh' : h = hash_block parent (take (Z.to_nat bs) (drop (S i * Z.to_nat bs) toks)) salt). { unfold chain in Eh, Ep. rewrite chain_from_lookup in Eh by lia. cbn [parent_of] in Eh. rewrite Ep in Eh. by injection Eh. }
  exists (other_salt parent salt). split; [apply u64_range |]. intros rest bs0 prompt Hrest Hlen. fold bs in bs0. subst bs0. set (block := take _ _) in *. assert (Hpl : Zlen prompt = bs + Zlen rest) by (unfold prompt; rewrite Zlen_app; unfold Zlen at 1; lia). assert (Hr : 1 <= Zlen rest) by (destruct rest; [done |]; rewrite Zlen_cons; pose proof (Zlen_nonneg rest); lia).
  assert (Hb0 : take (Z.to_nat bs) (drop (0 * Z.to_nat bs) prompt) = block) by (unfold prompt; change (0 * Z.to_nat bs)%nat with 0%nat; rewrite drop_0, take_app_le by lia; apply take_ge; lia).
  assert (Hchain : chain bs prompt (other_salt parent salt) !! 0%nat = Some h). { unfold chain. rewrite chain_from_lookup by (apply Z2Nat.inj_lt with (n := 0); [lia | apply Z.div_pos; lia |]; apply Z.div_str_pos; lia). cbn [parent_of]. rewrite Hb0, Eh'. f_equal. by apply other_salt_collides. }
  destruct (get_computed_spec kv a prompt (chain bs prompt (other_salt parent salt)) HR Hlen) as (bl & E & _ & Hall & Hnone). fold bs in E, Hall, Hnone. destruct bl as [| b' bl].
  - exfalso. apply (Hnone Hon) with (b := b); [rewrite Zlen_nil; apply Z.div_str_pos; lia |]. exists h. split; [exact Hchain |]. cbn [length]. by rewrite Hb0.
  - exists b', bl. split; [done |]. destruct (Hall 0%nat b' eq_refl) as (h' & E1 & E2). rewrite Hchain in E1. injection E1 as <-. rewrite Hb0 in E2. by exists h.
Qed.
End collision.

(** a prompt of five tokens, its first two blocks cached, and another prompt that starts with its second *)
Definition victim_prompt : list Z := [1; 2; 3; 4; 5].
Definition other_prompt : list Z := [3; 4; 9].
Definition victim_run : res (PagedKVCache BlockPool) :=
  let! kv := new_kv demo_cfg in
  let! (_, st, kv) := allocate_slots empty_kvs 5 [] kv in
  let! hs := update_hashes kv [] victim_prompt 0 in
  let! (st, kv) := cache_blocks st victim_prompt 5 hs kv in Ok kv.
Lemma victim_kv : exists kv, new_kv demo_cfg = Ok kv /\ kv_rep kv (a_new 3 2 true) /\ kv_block_size kv = 2 /\ prefix_caching kv = true.
Proof. destruct demo_kv as (kv & Hn & HR & Hb). exists kv. split; [exact Hn |]. split; [exact HR |]. split; [exact Hb |]. vm_compute in Hn. injection Hn as <-. reflexivity. Qed.
Lemma victim_steps kv : new_kv demo_cfg = Ok kv ->
  victim_run = let! (_, st, kv) := allocate_slots empty_kvs 5 [] kv in let! hs := update_hashes kv [] victim_prompt 0 in let! (st, kv) := cache_blocks st victim_prompt 5 hs kv in Ok kv.
Proof. intros Hn. unfold victim_run. rewrite Hn. reflexivity. Qed.
Lemma victim_cached : exists kv a, victim_run = Ok kv /\ kv_rep kv a /\ kv_block_size kv = 2 /\ prefix_caching kv = true /\ hit a 2 victim_prompt (chain 2 victim_prompt 0) 1 1.
Proof.
  destruct victim_kv as (kv & Hn & HR & Hb & Hp0). pose proof (victim_steps kv Hn) as Hrun. clear Hn.
  destruct (allocate_spec kv _ empty_kvs 5 [] HR) as [Hyes _]; [intros b Hx; destruct (proj1 (elem_of_nil b) Hx) | lia | rewrite Hb; lia | vm_compute; reflexivity |].
  destruct Hyes as (st & kv1 & a1 & Ha & [HR1 Hb1 Hp1 (fresh & Hids & _ & _ & _ & Href) _ Hncb]); [rewrite Hb; vm_compute; discriminate |]. destruct (Href [] (a_new_refs _ _ _)) as [Hrefs _].
  assert (Hc1 : num_cached_blocks st = 0) by (rewrite Hncb; vm_compute; reflexivity). assert (Hp : prefix_caching kv1 = true) by (by rewrite Hp1). rewrite Hb in Hb1.
  destruct (cache_blocks_spec kv1 a1 st victim_prompt 5 (chain 2 victim_prompt 0) HR1) as (st2 & kv2 & a2 & Hc & HR2 & Hb2 & Hp2 & _).
  - intros b Hin. rewrite Hids in Hin. destruct (refs_ok_in a1 _ b Hrefs) as (r & Hr & _); [rewrite app_nil_r; exact Hin | exists r; exact Hr].
  - intros h Hh. apply list_elem_of_lookup in Hh as [i Hi]. pose proof (lookup_lt_Some _ _ _ Hi) as Hl. rewrite chain_length in Hl. unfold chain in Hi. rewrite chain_from_lookup in Hi by lia. injection Hi as <-. apply hash_block_nonzero.
  - vm_compute. split; discriminate.
  - lia.
  - exists kv2, a2. assert (Ev : victim_run = Ok kv2).
    { rewrite Hrun, Ha. cbn [rbind]. rewrite (update_hashes_spec kv1 a1 [] victim_prompt 0 HR1) by first [apply prefix_nil | vm_compute; reflexivity]. cbn [rbind]. rewrite Hb1, Hc. reflexivity. }
    split; [exact Ev |]. split; [exact HR2 |]. rewrite Hb2, Hb1, Hp2, Hp. split; [reflexivity |]. split; [reflexivity |].
    destruct (get_computed_spec kv2 a2 victim_prompt (chain 2 victim_prompt 0) HR2) as (bl & E & _ & Hhit & _); [vm_compute; reflexivity |]. rewrite Hb2, Hb1 in Hhit. apply (Hhit 1%nat 1).
    assert (Eb : (let! kv := victim_run in get_computed_blocks kv victim_prompt (chain 2 victim_prompt 0)) = Ok (4, [0; 1])) by (vm_compute; reflexivity). rewrite Ev in Eb. cbn [rbind] in Eb. rewrite E in Eb. injection Eb as _ ->. reflexivity.
Qed.
Lemma hit_under_another_prefix_witness : exists kv a salt' b' bl, victim_run = Ok kv /\ take 4 victim_prompt <> take 2 other_prompt
  /\ get_computed_blocks kv other_prompt (chain 2 other_prompt salt') = Ok (Zlen (b' :: bl) * 2, b' :: bl) /\ hit a 2 victim_prompt (chain 2 victim_prompt 0) 1 b'.
Proof.
  destruct victim_cached as (kv & a & Ev & HR & Hb & Hp & Hh). destruct (hit_under_another_prefix kv a victim_prompt 0 0 1 HR Hp) as (salt' & _ & H); [rewrite Hb; exact Hh |].
  rewrite Hb in H. destruct (H [9]) as (b' & bl & E & Hh'); [discriminate | vm_compute; reflexivity |]. exists kv, a, salt', b', bl.
  split; [exact Ev |]. split; [discriminate |]. split; [exact E | exact Hh'].
Defined.
