(* ===== verification/Detok.v ===== *)
(** * The incremental detokenizer (src/iian/tokenizer/detokenizer.cpp)

    [push] appends the bytes of a token to what is pending and emits the longest prefix that ends
    on a UTF-8 boundary; [finish] emits the rest.  Bytes are [Z] in [0, 256). *)

From S2P Require Import Prelude.

Definition utf8_seq_len (c : Z) : Z :=
  if c <? 0x80 then 1
  else if Z.land c 0xE0 =? 0xC0 then (if 0xC2 <=? c then 2 else 0)
  else if Z.land c 0xF0 =? 0xE0 then 3
  else if Z.land c 0xF8 =? 0xF0 then (if c <=? 0xF4 then 4 else 0)
  else 0.

Definition is_cont (c : Z) : bool := Z.land c 0xC0 =? 0x80.

(** [for (j = from; j < to; j++) if (!is_cont(s[j])) ...]: are all of them continuations? *)
Fixpoint all_cont (todo : nat) (s : list Z) (j : Z) : res bool :=
  match todo with
  | O => Ok true
  | S todo =>
      let! c := vget s j in
      if is_cont c then all_cont todo s (j + 1) else Ok false
  end.

Fixpoint complete_loop (fuel : nat) (s : list Z) (n i : Z) : res Z :=
  match fuel with
  | O => Err Fuel
  | S fuel =>
      if i <? n then
        let! c := vget s i in
        let len := utf8_seq_len c in
        if len =? 0 then complete_loop fuel s n (i + 1)
        else if n <? i + len then
          let! plausible := all_cont (Z.to_nat (n - (i + 1))) s (i + 1) in
          if (plausible : bool) then Ok i else complete_loop fuel s n (i + 1)
        else
          let! valid := all_cont (Z.to_nat (len - 1)) s (i + 1) in
          complete_loop fuel s n (i + (if (valid : bool) then len else 1))
      else Ok n
  end.
Definition utf8_complete_prefix (s : list Z) : res Z :=
  complete_loop (S (length s)) s (Zlen s) 0.

(** the detokenizer's state is [pending_]; [piece] is token_to_piece(tok, !skip_special_) *)
Definition detok_push (piece pending : list Z) : res (list Z * list Z) :=
  let pending := pending ++ piece in
  let! n := utf8_complete_prefix pending in
  if n =? 0 then Ok ([], pending)
  else Ok (take (Z.to_nat n) pending, drop (Z.to_nat n) pending).
Definition detok_finish (pending : list Z) : list Z * list Z := (pending, []).

(** a run over a list of pieces: the chunks emitted and what is pending *)
Fixpoint detok_run (pieces : list (list Z)) (pending : list Z) : res (list (list Z) * list Z) :=
  match pieces with
  | [] => Ok ([], pending)
  | p :: pieces =>
      let! (out, pending) := detok_push p pending in
      let! (outs, pending) := detok_run pieces pending in
      Ok (out :: outs, pending)
  end.

(** ** Specification *)

(** a sequence of a lead byte and the continuation bytes it announces *)
Definition utf8_char (l : list Z) : Prop :=
  match l with
  | c :: k => Zlen (c :: k) = utf8_seq_len c /\ (forall x, x ∈ k -> is_cont x = true)
  | [] => False
  end.
(** the beginning of such a sequence *)
Definition utf8_partial (l : list Z) : Prop :=
  l = [] \/ exists rest, rest <> [] /\ utf8_char (l ++ rest).

Lemma seq_len_range c : 0 <= utf8_seq_len c <= 4.
Proof. unfold utf8_seq_len. repeat case_match; lia. Qed.

Lemma all_cont_spec todo s j :
  0 <= j -> j + Z.of_nat todo <= Zlen s ->
  all_cont todo s j = Ok (forallb is_cont (vslice s j (Z.of_nat todo))).
Proof.
  revert j. induction todo as [| todo IH]; intros j Hj Hn; [done |]. cbn [all_cont].
  destruct (vlookup_lt_is_Some s j ltac:(lia)) as [c Hc]. rewrite (proj2 (vget_Ok _ _ _) Hc). cbn [rbind].
  assert (Hs : vslice s j (Z.of_nat (S todo)) = c :: vslice s (j + 1) (Z.of_nat todo)).
  { unfold vslice. rewrite !Nat2Z.id. unfold vlookup in Hc. rewrite (proj2 (Z.leb_le 0 j)) in Hc by lia.
    rewrite (drop_S s c (Z.to_nat j)) by done. simpl. do 2 f_equal. f_equal. lia. }
  rewrite Hs. simpl. destruct (is_cont c); simpl; [apply IH; lia | done].
Qed.

(** the scan stays in range, terminates, and holds back at most three bytes *)
Lemma complete_loop_ok fuel s i :
  0 <= i <= Zlen s -> (Z.to_nat (Zlen s - i) < fuel)%nat ->
  exists n, complete_loop fuel s (Zlen s) i = Ok n /\ i <= n <= Zlen s /\ Zlen s - n <= 3.
Proof.
  revert i. induction fuel as [| fuel IH]; intros i Hi Hf; [lia |]. cbn [complete_loop].
  destruct (i <? Zlen s) eqn:E; [| exists (Zlen s); split; [done | lia]].
  destruct (vlookup_lt_is_Some s i ltac:(lia)) as [c Hc]. rewrite (proj2 (vget_Ok _ _ _) Hc). cbn [rbind].
  assert (Hnext : forall d, 0 < d -> i + d <= Zlen s -> exists n, complete_loop fuel s (Zlen s) (i + d) = Ok n /\ i <= n <= Zlen s /\ Zlen s - n <= 3).
  { intros d Hd Hle. destruct (IH (i + d)) as (n & -> & Hn); [lia | lia |]. exists n. split; [done | lia]. }
  pose proof (seq_len_range c) as Hl. destruct (utf8_seq_len c =? 0) eqn:E0; [apply Hnext; lia |].
  destruct (Zlen s <? i + utf8_seq_len c) eqn:E1.
  - rewrite all_cont_spec by lia. cbn [rbind]. destruct (forallb _ _); [exists i; split; [done | lia] | apply Hnext; lia].
  - rewrite all_cont_spec by lia. cbn [rbind]. destruct (forallb _ _); apply Hnext; lia.
Qed.

Lemma complete_prefix_ok s :
  exists n, utf8_complete_prefix s = Ok n /\ 0 <= n <= Zlen s /\ Zlen s - n <= 3.
Proof. apply complete_loop_ok; unfold Zlen; lia. Qed.

Lemma detok_push_ok piece pending :
  exists out rest, detok_push piece pending = Ok (out, rest) /\ out ++ rest = pending ++ piece /\ Zlen rest <= 3
    /\ utf8_complete_prefix (pending ++ piece) = Ok (Zlen out).
Proof.
  unfold detok_push. destruct (complete_prefix_ok (pending ++ piece)) as (n & Hn & Hr & H3). rewrite Hn. cbn [rbind].
  destruct (n =? 0) eqn:E.
  - exists [], (pending ++ piece). split; [done |]. split; [done |]. split; [lia |]. assert (n = 0) as -> by lia. done.
  - eexists _, _. split; [done |]. split; [apply take_drop |]. unfold Zlen in *. rewrite length_drop, length_take. split; [lia |]. f_equal. lia.
Qed.

(** ** Well-formed input *)
Lemma complete_loop_chars fuel pre chars tail :
  Forall utf8_char chars -> utf8_partial tail -> (length (concat chars ++ tail) < fuel)%nat ->
  complete_loop fuel (pre ++ concat chars ++ tail) (Zlen (pre ++ concat chars ++ tail)) (Zlen pre)
  = Ok (Zlen (pre ++ concat chars)).
Proof.
  revert fuel pre. induction chars as [| ch chars IH]; intros fuel pre Hch Htail Hf; destruct fuel as [| fuel]; try lia; cbn [complete_loop]; pose proof (Zlen_nonneg pre).
  - simpl in *. rewrite app_nil_r. destruct tail as [| c tl].
    { rewrite app_nil_r, (proj2 (Z.ltb_ge _ _)) by lia. done. }
    destruct Htail as [? | (rest & Hne & Hc)]; [done |]. simpl in Hc. destruct Hc as [Hlen Hcont].
    pose proof (Zlen_nonneg tl). rewrite (proj2 (Z.ltb_lt _ _)) by zlen. unfold vget. rewrite vlookup_app_r, Z.sub_diag by lia. simpl.
    assert (0 < Zlen rest) by (destruct rest as [| z rest]; [done | pose proof (Zlen_nonneg rest); zlen]).
    rewrite (proj2 (Z.eqb_neq _ _)) by zlen. rewrite (proj2 (Z.ltb_lt _ _)) by zlen.
    rewrite all_cont_spec by zlen. cbn [rbind].
    assert (forallb is_cont (vslice (pre ++ c :: tl) (Zlen pre + 1) (Z.of_nat (Z.to_nat (Zlen (pre ++ c :: tl) - (Zlen pre + 1))))) = true) as ->; [| done].
    apply forallb_forall. intros x Hx%list_elem_of_In. apply Hcont, elem_of_app. left.
    unfold vslice in Hx. apply elem_of_take in Hx as (i & Hx & _). rewrite lookup_drop, lookup_app_r in Hx by (unfold Zlen; lia).
    replace (Z.to_nat (Zlen pre + 1) + i - length pre)%nat with (S i) in Hx by (unfold Zlen; lia). simpl in Hx. by eapply list_elem_of_lookup_2.
  - apply Forall_cons in Hch as [Hc Hch]. destruct ch as [| c k]; [done |]. destruct Hc as [Hlen Hcont]. simpl concat in *.
    pose proof (Zlen_nonneg k). pose proof (Zlen_nonneg (concat chars)). pose proof (Zlen_nonneg tail). rewrite (proj2 (Z.ltb_lt _ _)) by zlen. unfold vget. rewrite vlookup_app_r, Z.sub_diag by lia. simpl.
    rewrite (proj2 (Z.eqb_neq _ _)) by zlen. rewrite (proj2 (Z.ltb_ge _ _)) by zlen. rewrite all_cont_spec by zlen. cbn [rbind].
    assert (vslice (pre ++ c :: (k ++ concat chars) ++ tail) (Zlen pre + 1) (Z.of_nat (Z.to_nat (utf8_seq_len c - 1))) = k) as Hk.
    { unfold vslice. rewrite <- Hlen, Nat2Z.id. rewrite Zlen_cons. replace (Z.to_nat (1 + Zlen k - 1)) with (length k) by (unfold Zlen; lia).
      replace (Z.to_nat (Zlen pre + 1)) with (length pre + 1)%nat by (unfold Zlen; lia). rewrite drop_app_add'. 2: done. simpl. rewrite drop_0, <- app_assoc. by rewrite take_app_length. }
    rewrite Hk. assert (forallb is_cont k = true) as -> by (apply forallb_forall; intros x Hx%list_elem_of_In; by apply Hcont).
    rewrite <- Hlen. specialize (IH fuel (pre ++ c :: k) Hch Htail).
    rewrite <- Zlen_app. rewrite <- !app_assoc in IH. simpl in IH. rewrite <- !app_assoc. simpl. apply IH.
    rewrite !length_app in *. simpl in Hf. rewrite length_app in Hf. lia.
Qed.

Lemma complete_prefix_chars chars tail :
  Forall utf8_char chars -> utf8_partial tail -> utf8_complete_prefix (concat chars ++ tail) = Ok (Zlen (concat chars)).
Proof. intros Hc Ht. exact (complete_loop_chars (S (length (concat chars ++ tail))) [] chars tail Hc Ht ltac:(lia)). Qed.

Lemma partial_prefix l k : utf8_partial (l ++ k) -> utf8_partial l.
Proof.
  intros [H | (rest & Hne & Hc)]; [left; by apply app_eq_nil in H as [? _] |]. right. exists (k ++ rest).
  split; [by destruct k |]. by rewrite app_assoc.
Qed.
(** a prefix of a well-formed text is a run of whole characters and the beginning of one *)
Lemma prefix_chars l more chars tail :
  Forall utf8_char chars -> utf8_partial tail -> l ++ more = concat chars ++ tail ->
  exists chars1 chars2 part, chars = chars1 ++ chars2 /\ l = concat chars1 ++ part /\ utf8_partial part
    /\ part ++ more = concat chars2 ++ tail.
Proof.
  revert l. induction chars as [| ch chars IH]; intros l Hch Ht E.
  { exists [], [], l. split_and!; try done. simpl in E. apply (partial_prefix l more). by rewrite E. }
  apply Forall_cons in Hch as [Hc Hch]. simpl in E. rewrite <- app_assoc in E.
  apply app_eq_inv in E as [(k & -> & E) | (k & -> & E)].
  - destruct (IH k Hch Ht ltac:(done)) as (c1 & c2 & part & -> & -> & Hp & Hm).
    exists (ch :: c1), c2, part. split_and!; try done. simpl. by rewrite app_assoc.
  - destruct k as [| x k].
    + rewrite app_nil_r in *. exists [l], chars, []. simpl. rewrite !app_nil_r. split_and!; try done. by left.
    + exists [], ((l ++ x :: k) :: chars), l. split_and!; try done.
      * right. by exists (x :: k).
      * simpl. by rewrite E, <- !app_assoc.
Qed.

(** C10: The detokenizer loses nothing: over any tokens it never fails, holds back at most three
    bytes, and what it emitted followed by what [finish] emits is the concatenation of the pieces. *)
Theorem detok_lossless (pieces : list (list Z)) (pending : list Z) :
  Zlen pending <= 3 ->
  exists outs rest, detok_run pieces pending = Ok (outs, rest) /\ Zlen rest <= 3
    /\ concat outs ++ (detok_finish rest).1 = pending ++ concat pieces.
Proof.
  revert pending. induction pieces as [| p pieces IH]; intros pending Hp.
  { exists [], pending. split_and!; try done. simpl. by rewrite app_nil_r. }
  destruct (detok_push_ok p pending) as (out & rest & E & Heq & Hr & _). cbn [detok_run]. rewrite E. cbn [rbind].
  destruct (IH rest Hr) as (outs & rest' & -> & Hr' & Hcat). cbn [rbind]. exists (out :: outs), rest'. split_and!; try done.
  simpl in *. by rewrite <- app_assoc, Hcat, app_assoc, Heq, <- app_assoc.
Qed.
Lemma detok_lossless_witness :
  Zlen [0xE2] <= 3 /\ exists outs rest, detok_run [[0x82; 0xAC; 0x41]; [0xFF; 0xC3]] [0xE2] = Ok (outs, rest) /\ Zlen rest <= 3
    /\ concat outs ++ (detok_finish rest).1 = [0xE2] ++ concat [[0x82; 0xAC; 0x41]; [0xFF; 0xC3]].
Proof. split; [by vm_compute |]. apply (detok_lossless [[0x82; 0xAC; 0x41]; [0xFF; 0xC3]] [0xE2]). by vm_compute. Defined.

(** C11: Every chunk of a well-formed text is made of whole characters: however the tokens cut the
    bytes, each emitted chunk is a run of complete UTF-8 sequences, in order, and only the
    beginning of the last unfinished one stays pending. *)
Theorem detok_emits_whole_chars (pieces : list (list Z)) (pending : list Z) (chars : list (list Z)) (tail : list Z) :
  Forall utf8_char chars -> utf8_partial tail -> utf8_partial pending -> pending ++ concat pieces = concat chars ++ tail ->
  exists groups, detok_run pieces pending = Ok (concat (A:=Z) <$> groups, tail) /\ concat groups = chars
    /\ length groups = length pieces.
Proof.
  revert pending chars. induction pieces as [| p pieces IH]; intros pending chars Hch Ht Hp E.
  { simpl in E. rewrite app_nil_r in E. exists []. simpl.
    pose proof (complete_prefix_chars chars tail Hch Ht) as H1. pose proof (complete_prefix_chars [] pending ltac:(done) Hp) as H2.
    simpl in H2. rewrite E in H2. rewrite H1 in H2. injection H2 as H2. apply Zlen_0 in H2.
    destruct chars as [| ch chars]; [simpl in E; by rewrite E |]. apply Forall_cons in Hch as [Hc _]. by destruct ch. }
  simpl in E. rewrite app_assoc in E.
  destruct (prefix_chars _ _ _ _ Hch Ht E) as (c1 & c2 & part & -> & Hl & Hpart & Hm).
  apply Forall_app in Hch as [Hc1 Hc2]. destruct (detok_push_ok p pending) as (out & rest & Ep & Heq & _ & Hn).
  rewrite Hl, complete_prefix_chars in Hn by done. injection Hn as Hn. rewrite Hl in Heq.
  apply app_inj_1 in Heq as [-> ->]; [| unfold Zlen in Hn; lia].
  cbn [detok_run]. rewrite Ep. cbn [rbind]. destruct (IH part c2 Hc2 Ht Hpart Hm) as (groups & -> & Hg & Hlen). cbn [rbind].
  exists (c1 :: groups). split; [done |]. simpl. by rewrite Hg, Hlen.
Qed.
Lemma detok_emits_whole_chars_witness :
  exists groups, detok_run [[0xE2; 0x82]; [0xAC; 0x41; 0xC3]] [] = Ok (concat (A:=Z) <$> groups, [0xC3])
    /\ concat groups = [[0xE2; 0x82; 0xAC]; [0x41]] /\ length groups = 2%nat.
Proof.
  apply (detok_emits_whole_chars [[0xE2; 0x82]; [0xAC; 0x41; 0xC3]] [] [[0xE2; 0x82; 0xAC]; [0x41]] [0xC3]); try done; [| | by left].
  - repeat constructor; try done; intros x Hx; repeat (apply elem_of_cons in Hx as [-> | Hx]; [done |]); by apply not_elem_of_nil in Hx.
  - right. exists [0xA9]. split; [done |]. split; [done |]. intros x Hx. repeat (apply elem_of_cons in Hx as [-> | Hx]; [done |]). by apply not_elem_of_nil in Hx.
Defined.
