(* ===== verification/Request.v ===== *)
(** * Requests and their output queues (include/iian/request.h, include/iian/sampling.h)

    The engine-internal request, the chunks it streams and the queue they go through.  Text is a
    list of bytes.  Time stamps, the sampler's random state and the grammar state are kept outside
    the record (the last two in the engine's side tables); [has_grammar] says whether the request
    is constrained.  [out] is the handle of the request's queue: the queue is shared with the
    submitter and outlives the request, so queues live in a store of the engine. *)

From S2P Require Import Prelude BlockPool FreeList PoolSpec KVCache.
From Stdlib Require Export SpecFloat.

Abbreviation bytes := (list Z) (only parsing).

Inductive RequestStatus :=
| WAITING | RUNNING | PREEMPTED | FINISHED_STOPPED | FINISHED_LENGTH | FINISHED_ABORTED | FINISHED_ERROR.
Inductive FinishReason := NONE | STOP | LENGTH | ABORT | ERROR | TOOL_CALLS.

#[global] Instance RequestStatus_eq_dec : EqDecision RequestStatus.
Proof. solve_decision. Defined.
#[global] Instance FinishReason_eq_dec : EqDecision FinishReason.
Proof. solve_decision. Defined.

(** the enumerators' values; [is_finished] compares them *)
Definition status_val (s : RequestStatus) : Z :=
  match s with
  | WAITING => 0 | RUNNING => 1 | PREEMPTED => 2 | FINISHED_STOPPED => 3 | FINISHED_LENGTH => 4
  | FINISHED_ABORTED => 5 | FINISHED_ERROR => 6
  end.

Definition finish_reason_str (r : FinishReason) : string :=
  match r with
  | STOP => "stop" | LENGTH => "length" | ABORT => "abort" | ERROR => "error"
  | TOOL_CALLS => "tool_calls" | NONE => EmptyString
  end.

(** SamplingParams without the fields that only the sampler reads (seed, repetition window,
    allowed_token_ids, bad_words, prompt_logprobs, echo).  The floats are IEEE values, NaN
    included. *)
Record SamplingParams := mkParams {
  p_n : Z;
  temperature : spec_float;
  top_p : spec_float;
  top_k : Z;
  min_p : spec_float;
  presence_penalty : spec_float;
  frequency_penalty : spec_float;
  repetition_penalty : spec_float;
  repetition_last_n : Z;
  seed : option Z;
  max_tokens : Z;
  min_tokens : Z;
  ignore_eos : bool;
  stop : list bytes;
  stop_token_ids : list Z;
  include_stop_str_in_output : bool;
  skip_special_tokens : bool;
  logprobs : Z;
  prompt_logprobs : bool;
  logit_bias : list (Z * spec_float);
  allowed_token_ids : list Z;
  bad_words : list (list Z);
  echo : bool;
  grammar : bytes;
  grammar_root : bytes;
  json_schema : bytes
}.

(** One streaming delta.  The log-probabilities are represented by the tokens they belong to. *)
Record OutputChunk := mkChunk {
  c_tokens : list Z;
  c_text : bytes;
  c_logprobs : list Z;
  c_finished : bool;
  c_finish_reason : FinishReason;
  c_stop_reason : bytes;
  c_error : string;
  c_n_prompt_tokens : Z;
  c_n_output_tokens : Z;
  c_n_cached_tokens : Z
}.

Record OutputQueue := mkQueue { q_ : list OutputChunk; q_finished : bool }.
Definition empty_queue : OutputQueue := mkQueue [] false.

Definition push (c : OutputChunk) (q : OutputQueue) : OutputQueue :=
  mkQueue (q_ q ++ [c]) (q_finished q || c_finished c).
(** [pop] with the timeout already resolved: it takes the front chunk if there is one *)
Definition try_pop (q : OutputQueue) : option (OutputChunk * OutputQueue) :=
  match q_ q with [] => None | c :: l => Some (c, mkQueue l (q_finished q)) end.

Record Request := mkRequest {
  id : Z;
  priority : Z;
  arrival : Z;
  cache_salt : Z;
  params : SamplingParams;
  tokens : list Z;
  n_prompt : Z;
  status : RequestStatus;
  finish_reason : FinishReason;
  stop_reason : bytes;
  num_computed_tokens : Z;
  num_cached_tokens : Z;
  num_preemptions : Z;
  kv : KVRequestState;
  block_hashes : list Z;
  has_grammar : bool;
  is_embedding : bool;
  embd_count : Z;
  spec_tokens : list Z;
  draft_kv : KVRequestState;
  draft_computed : Z;
  draft_epoch : Z;
  detok_pending : bytes;
  text : bytes;
  text_sent : Z;
  stop_check_offset : Z;
  pending_tokens : list Z;
  pending_logprobs : list Z;
  out : Z
}.

Definition set_tokens (v : list Z) (r : Request) : Request :=
  mkRequest (id r) (priority r) (arrival r) (cache_salt r) (params r) v (n_prompt r) (status r) (finish_reason
    r) (stop_reason r) (num_computed_tokens r) (num_cached_tokens r) (num_preemptions r) (kv r)
    (block_hashes r) (has_grammar r) (is_embedding r) (embd_count r) (spec_tokens r) (draft_kv r)
    (draft_computed r) (draft_epoch r) (detok_pending r) (text r) (text_sent r) (stop_check_offset r)
    (pending_tokens r) (pending_logprobs r) (out r).
Definition set_status (v : RequestStatus) (r : Request) : Request :=
  mkRequest (id r) (priority r) (arrival r) (cache_salt r) (params r) (tokens r) (n_prompt r) v (finish_reason
    r) (stop_reason r) (num_computed_tokens r) (num_cached_tokens r) (num_preemptions r) (kv r)
    (block_hashes r) (has_grammar r) (is_embedding r) (embd_count r) (spec_tokens r) (draft_kv r)
    (draft_computed r) (draft_epoch r) (detok_pending r) (text r) (text_sent r) (stop_check_offset r)
    (pending_tokens r) (pending_logprobs r) (out r).
Definition set_finish_reason (v : FinishReason) (r : Request) : Request :=
  mkRequest (id r) (priority r) (arrival r) (cache_salt r) (params r) (tokens r) (n_prompt r) (status r) v
    (stop_reason r) (num_computed_tokens r) (num_cached_tokens r) (num_preemptions r) (kv r) (block_hashes
    r) (has_grammar r) (is_embedding r) (embd_count r) (spec_tokens r) (draft_kv r) (draft_computed r)
    (draft_epoch r) (detok_pending r) (text r) (text_sent r) (stop_check_offset r) (pending_tokens r)
    (pending_logprobs r) (out r).
Definition set_stop_reason (v : bytes) (r : Request) : Request :=
  mkRequest (id r) (priority r) (arrival r) (cache_salt r) (params r) (tokens r) (n_prompt r) (status r)
    (finish_reason r) v (num_computed_tokens r) (num_cached_tokens r) (num_preemptions r) (kv r)
    (block_hashes r) (has_grammar r) (is_embedding r) (embd_count r) (spec_tokens r) (draft_kv r)
    (draft_computed r) (draft_epoch r) (detok_pending r) (text r) (text_sent r) (stop_check_offset r)
    (pending_tokens r) (pending_logprobs r) (out r).
Definition set_num_computed_tokens (v : Z) (r : Request) : Request :=
  mkRequest (id r) (priority r) (arrival r) (cache_salt r) (params r) (tokens r) (n_prompt r) (status r)
    (finish_reason r) (stop_reason r) v (num_cached_tokens r) (num_preemptions r) (kv r) (block_hashes r)
    (has_grammar r) (is_embedding r) (embd_count r) (spec_tokens r) (draft_kv r) (draft_computed r)
    (draft_epoch r) (detok_pending r) (text r) (text_sent r) (stop_check_offset r) (pending_tokens r)
    (pending_logprobs r) (out r).
Definition set_num_cached_tokens (v : Z) (r : Request) : Request :=
  mkRequest (id r) (priority r) (arrival r) (cache_salt r) (params r) (tokens r) (n_prompt r) (status r)
    (finish_reason r) (stop_reason r) (num_computed_tokens r) v (num_preemptions r) (kv r) (block_hashes r)
    (has_grammar r) (is_embedding r) (embd_count r) (spec_tokens r) (draft_kv r) (draft_computed r)
    (draft_epoch r) (detok_pending r) (text r) (text_sent r) (stop_check_offset r) (pending_tokens r)
    (pending_logprobs r) (out r).
Definition set_num_preemptions (v : Z) (r : Request) : Request :=
  mkRequest (id r) (priority r) (arrival r) (cache_salt r) (params r) (tokens r) (n_prompt r) (status r)
    (finish_reason r) (stop_reason r) (num_computed_tokens r) (num_cached_tokens r) v (kv r) (block_hashes
    r) (has_grammar r) (is_embedding r) (embd_count r) (spec_tokens r) (draft_kv r) (draft_computed r)
    (draft_epoch r) (detok_pending r) (text r) (text_sent r) (stop_check_offset r) (pending_tokens r)
    (pending_logprobs r) (out r).
Definition set_kv (v : KVRequestState) (r : Request) : Request :=
  mkRequest (id r) (priority r) (arrival r) (cache_salt r) (params r) (tokens r) (n_prompt r) (status r)
    (finish_reason r) (stop_reason r) (num_computed_tokens r) (num_cached_tokens r) (num_preemptions r) v
    (block_hashes r) (has_grammar r) (is_embedding r) (embd_count r) (spec_tokens r) (draft_kv r)
    (draft_computed r) (draft_epoch r) (detok_pending r) (text r) (text_sent r) (stop_check_offset r)
    (pending_tokens r) (pending_logprobs r) (out r).
Definition set_block_hashes (v : list Z) (r : Request) : Request :=
  mkRequest (id r) (priority r) (arrival r) (cache_salt r) (params r) (tokens r) (n_prompt r) (status r)
    (finish_reason r) (stop_reason r) (num_computed_tokens r) (num_cached_tokens r) (num_preemptions r) (kv
    r) v (has_grammar r) (is_embedding r) (embd_count r) (spec_tokens r) (draft_kv r) (draft_computed r)
    (draft_epoch r) (detok_pending r) (text r) (text_sent r) (stop_check_offset r) (pending_tokens r)
    (pending_logprobs r) (out r).
Definition set_embd_count (v : Z) (r : Request) : Request :=
  mkRequest (id r) (priority r) (arrival r) (cache_salt r) (params r) (tokens r) (n_prompt r) (status r)
    (finish_reason r) (stop_reason r) (num_computed_tokens r) (num_cached_tokens r) (num_preemptions r) (kv
    r) (block_hashes r) (has_grammar r) (is_embedding r) v (spec_tokens r) (draft_kv r) (draft_computed r)
    (draft_epoch r) (detok_pending r) (text r) (text_sent r) (stop_check_offset r) (pending_tokens r)
    (pending_logprobs r) (out r).
Definition set_spec_tokens (v : list Z) (r : Request) : Request :=
  mkRequest (id r) (priority r) (arrival r) (cache_salt r) (params r) (tokens r) (n_prompt r) (status r)
    (finish_reason r) (stop_reason r) (num_computed_tokens r) (num_cached_tokens r) (num_preemptions r) (kv
    r) (block_hashes r) (has_grammar r) (is_embedding r) (embd_count r) v (draft_kv r) (draft_computed r)
    (draft_epoch r) (detok_pending r) (text r) (text_sent r) (stop_check_offset r) (pending_tokens r)
    (pending_logprobs r) (out r).
Definition set_draft_kv (v : KVRequestState) (r : Request) : Request :=
  mkRequest (id r) (priority r) (arrival r) (cache_salt r) (params r) (tokens r) (n_prompt r) (status r)
    (finish_reason r) (stop_reason r) (num_computed_tokens r) (num_cached_tokens r) (num_preemptions r) (kv
    r) (block_hashes r) (has_grammar r) (is_embedding r) (embd_count r) (spec_tokens r) v (draft_computed r)
    (draft_epoch r) (detok_pending r) (text r) (text_sent r) (stop_check_offset r) (pending_tokens r)
    (pending_logprobs r) (out r).
Definition set_draft_computed (v : Z) (r : Request) : Request :=
  mkRequest (id r) (priority r) (arrival r) (cache_salt r) (params r) (tokens r) (n_prompt r) (status r)
    (finish_reason r) (stop_reason r) (num_computed_tokens r) (num_cached_tokens r) (num_preemptions r) (kv
    r) (block_hashes r) (has_grammar r) (is_embedding r) (embd_count r) (spec_tokens r) (draft_kv r) v
    (draft_epoch r) (detok_pending r) (text r) (text_sent r) (stop_check_offset r) (pending_tokens r)
    (pending_logprobs r) (out r).
Definition set_draft_epoch (v : Z) (r : Request) : Request :=
  mkRequest (id r) (priority r) (arrival r) (cache_salt r) (params r) (tokens r) (n_prompt r) (status r)
    (finish_reason r) (stop_reason r) (num_computed_tokens r) (num_cached_tokens r) (num_preemptions r) (kv
    r) (block_hashes r) (has_grammar r) (is_embedding r) (embd_count r) (spec_tokens r) (draft_kv r)
    (draft_computed r) v (detok_pending r) (text r) (text_sent r) (stop_check_offset r) (pending_tokens r)
    (pending_logprobs r) (out r).
Definition set_detok_pending (v : bytes) (r : Request) : Request :=
  mkRequest (id r) (priority r) (arrival r) (cache_salt r) (params r) (tokens r) (n_prompt r) (status r)
    (finish_reason r) (stop_reason r) (num_computed_tokens r) (num_cached_tokens r) (num_preemptions r) (kv
    r) (block_hashes r) (has_grammar r) (is_embedding r) (embd_count r) (spec_tokens r) (draft_kv r)
    (draft_computed r) (draft_epoch r) v (text r) (text_sent r) (stop_check_offset r) (pending_tokens r)
    (pending_logprobs r) (out r).
Definition set_text (v : bytes) (r : Request) : Request :=
  mkRequest (id r) (priority r) (arrival r) (cache_salt r) (params r) (tokens r) (n_prompt r) (status r)
    (finish_reason r) (stop_reason r) (num_computed_tokens r) (num_cached_tokens r) (num_preemptions r) (kv
    r) (block_hashes r) (has_grammar r) (is_embedding r) (embd_count r) (spec_tokens r) (draft_kv r)
    (draft_computed r) (draft_epoch r) (detok_pending r) v (text_sent r) (stop_check_offset r)
    (pending_tokens r) (pending_logprobs r) (out r).
Definition set_text_sent (v : Z) (r : Request) : Request :=
  mkRequest (id r) (priority r) (arrival r) (cache_salt r) (params r) (tokens r) (n_prompt r) (status r)
    (finish_reason r) (stop_reason r) (num_computed_tokens r) (num_cached_tokens r) (num_preemptions r) (kv
    r) (block_hashes r) (has_grammar r) (is_embedding r) (embd_count r) (spec_tokens r) (draft_kv r)
    (draft_computed r) (draft_epoch r) (detok_pending r) (text r) v (stop_check_offset r) (pending_tokens r)
    (pending_logprobs r) (out r).
Definition set_stop_check_offset (v : Z) (r : Request) : Request :=
  mkRequest (id r) (priority r) (arrival r) (cache_salt r) (params r) (tokens r) (n_prompt r) (status r)
    (finish_reason r) (stop_reason r) (num_computed_tokens r) (num_cached_tokens r) (num_preemptions r) (kv
    r) (block_hashes r) (has_grammar r) (is_embedding r) (embd_count r) (spec_tokens r) (draft_kv r)
    (draft_computed r) (draft_epoch r) (detok_pending r) (text r) (text_sent r) v (pending_tokens r)
    (pending_logprobs r) (out r).
Definition set_pending_tokens (v : list Z) (r : Request) : Request :=
  mkRequest (id r) (priority r) (arrival r) (cache_salt r) (params r) (tokens r) (n_prompt r) (status r)
    (finish_reason r) (stop_reason r) (num_computed_tokens r) (num_cached_tokens r) (num_preemptions r) (kv
    r) (block_hashes r) (has_grammar r) (is_embedding r) (embd_count r) (spec_tokens r) (draft_kv r)
    (draft_computed r) (draft_epoch r) (detok_pending r) (text r) (text_sent r) (stop_check_offset r) v
    (pending_logprobs r) (out r).
Definition set_pending_logprobs (v : list Z) (r : Request) : Request :=
  mkRequest (id r) (priority r) (arrival r) (cache_salt r) (params r) (tokens r) (n_prompt r) (status r)
    (finish_reason r) (stop_reason r) (num_computed_tokens r) (num_cached_tokens r) (num_preemptions r) (kv
    r) (block_hashes r) (has_grammar r) (is_embedding r) (embd_count r) (spec_tokens r) (draft_kv r)
    (draft_computed r) (draft_epoch r) (detok_pending r) (text r) (text_sent r) (stop_check_offset r)
    (pending_tokens r) v (out r).
Definition n_tokens (r : Request) : Z := u32 (Zlen (tokens r)).
Definition n_output (r : Request) : Z := u32 (Zlen (tokens r) - n_prompt r).
Definition is_finished (r : Request) : bool := status_val PREEMPTED <? status_val (status r).
Definition is_prefill (r : Request) : bool := num_computed_tokens r <? n_tokens r.
