(* ===== verification/Sampling.v ===== *)
(** * Validation of sampling parameters (SamplingParams::validate of src/iian/sampler.cpp) *)

From S2P Require Import Prelude BlockPool FreeList PoolSpec KVCache Request.

(** binary32 literals *)
Definition f0 : spec_float := S754_zero false.
Definition f1 : spec_float := S754_finite false 8388608 (-23).
Definition f2 : spec_float := S754_finite false 8388608 (-22).
Definition fm2 : spec_float := S754_finite true 8388608 (-22).

(** [a > b], [a <= b] of IEEE comparison *)
Definition fgt (a b : spec_float) : bool := SFltb b a.
Definition flt (a b : spec_float) : bool := SFltb a b.
Definition fle (a b : spec_float) : bool := SFleb a b.

Definition out_of_vocab (n_vocab t : Z) : bool := (t <? 0) || (n_vocab <=? t).

Definition validate (n_vocab : Z) (p : SamplingParams) : res unit :=
  if (p_n p <? 1) || (128 <? p_n p) then throw! "n must be in [1, 128]" else
  if flt (temperature p) f0 then throw! "temperature must be >= 0" else
  if fle (top_p p) f0 || fgt (top_p p) f1 then throw! "top_p must be in (0, 1]" else
  if top_k p <? -1 then throw! "top_k must be -1, 0 or positive" else
  if flt (min_p p) f0 || fgt (min_p p) f1 then throw! "min_p must be in [0, 1]" else
  if flt (presence_penalty p) fm2 || fgt (presence_penalty p) f2 then throw! "presence_penalty must be in [-2, 2]" else
  if flt (frequency_penalty p) fm2 || fgt (frequency_penalty p) f2 then throw! "frequency_penalty must be in [-2, 2]" else
  if fle (repetition_penalty p) f0 then throw! "repetition_penalty must be > 0" else
  if (max_tokens p <? -1) || (max_tokens p =? 0) then throw! "max_tokens must be >= 1" else
  if min_tokens p <? 0 then throw! "min_tokens must be >= 0" else
  if (0 <? max_tokens p) && (max_tokens p <? min_tokens p) then throw! "min_tokens must be <= max_tokens" else
  if 20 <? logprobs p then throw! "logprobs must be <= 20" else
  if existsb (fun kv => out_of_vocab n_vocab kv.1) (logit_bias p) then throw! "logit_bias token id out of range" else
  if existsb (out_of_vocab n_vocab) (stop_token_ids p) then throw! "stop_token_ids out of range" else
  Ok tt.

Lemma existsb_out n_vocab l : existsb (out_of_vocab n_vocab) l = false <-> forall t, t ∈ l -> 0 <= t < n_vocab.
Proof.
  induction l as [| x l IH]; simpl; [split; [intros _ t Ht; by apply not_elem_of_nil in Ht | done] |].
  rewrite orb_false_iff, IH. unfold out_of_vocab. rewrite orb_false_iff. split.
  - intros [[? ?] Hl] t [-> | Ht]%elem_of_cons; [lia | by apply Hl].
  - intros Hl. pose proof (Hl x ltac:(set_solver)). split; [lia |]. intros t Ht. apply Hl. set_solver.
Qed.

(** the integer constraints *)
Definition ints_valid (n_vocab : Z) (p : SamplingParams) : Prop :=
  1 <= p_n p <= 128 /\ -1 <= top_k p /\ (max_tokens p = -1 \/ 1 <= max_tokens p) /\ 0 <= min_tokens p
  /\ (0 < max_tokens p -> min_tokens p <= max_tokens p) /\ logprobs p <= 20
  /\ (forall kv, kv ∈ logit_bias p -> 0 <= kv.1 < n_vocab) /\ (forall t, t ∈ stop_token_ids p -> 0 <= t < n_vocab).
(** the ranges the messages promise; a NaN is in none of them *)
Definition floats_in_range (p : SamplingParams) : bool :=
  fle f0 (temperature p) && (flt f0 (top_p p) && fle (top_p p) f1) && (fle f0 (min_p p) && fle (min_p p) f1)
  && (fle fm2 (presence_penalty p) && fle (presence_penalty p) f2)
  && (fle fm2 (frequency_penalty p) && fle (frequency_penalty p) f2) && flt f0 (repetition_penalty p).
Definition not_nan (p : SamplingParams) : Prop :=
  temperature p <> S754_nan /\ top_p p <> S754_nan /\ min_p p <> S754_nan /\ presence_penalty p <> S754_nan
  /\ frequency_penalty p <> S754_nan /\ repetition_penalty p <> S754_nan.

Lemma existsb_fst {A B} (f : A -> bool) (l : list (A * B)) : existsb (fun kv => f kv.1) l = existsb f l.*1.
Proof. induction l as [| x l IH]; simpl; by rewrite ?IH. Qed.

Lemma validate_ints n_vocab p : validate n_vocab p = Ok tt -> ints_valid n_vocab p.
Proof.
  unfold validate. intros H. repeat match type of H with (if ?b then _ else _) = _ => destruct b eqn:?; [done |] end.
  rewrite existsb_fst in *. rewrite !existsb_out in *.
  unfold ints_valid. split_and!; try lia; [| done]. intros kv Hkv. match goal with E : forall t, t ∈ _.*1 -> _ |- _ => apply E end.
  by apply list_elem_of_fmap_2.
Qed.

(** comparisons with a number are decided unless the value is NaN *)
Lemma fcompare_swap a b : SFcompare b a = option_map CompOpp (SFcompare a b).
Proof.
  destruct a as [[] | [] | | [] m e], b as [[] | [] | | [] m' e']; simpl; try done; f_equal;
    rewrite (Z.compare_antisym e e'); destruct (e ?= e'); simpl; try done;
    change (PosDef.Pos.compare_cont Eq m' m) with (Pos.compare m' m); change (PosDef.Pos.compare_cont Eq m m') with (Pos.compare m m');
    rewrite (Pos.compare_antisym m m'); by destruct (Pos.compare m m').
Qed.
Lemma fcompare_some a b : a <> S754_nan -> b <> S754_nan -> exists c, SFcompare a b = Some c.
Proof. destruct a as [| | | ], b as [| | |]; simpl; try done; eauto. Qed.
Lemma not_flt a b : a <> S754_nan -> b <> S754_nan -> flt a b = negb (fle b a).
Proof.
  intros Ha Hb. unfold flt, fle, SFltb, SFleb. rewrite (fcompare_swap a b). destruct (fcompare_some a b Ha Hb) as [c ->]. by destruct c.
Qed.

(** C12: validate accepts exactly the parameters it documents, as long as none of the floats is NaN:
    it returns if and only if the integers are in their ranges (with min_tokens within max_tokens
    and all token ids within the vocabulary) and every float is in the range its message names. *)
Theorem validate_exact (n_vocab : Z) (p : SamplingParams) :
  not_nan p -> (validate n_vocab p = Ok tt <-> ints_valid n_vocab p /\ floats_in_range p = true).
Proof.
  intros (N1 & N2 & N3 & N4 & N5 & N6). split.
  - intros H. split; [by apply validate_ints |]. unfold validate in H.
    repeat match type of H with (if ?b then _ else _) = _ => destruct b eqn:?; [done |] end. unfold floats_in_range, fgt in *.
    change SFltb with flt in *.
    repeat match goal with E : _ || _ = false |- _ => apply orb_false_iff in E as [? ?] end.
    rewrite !not_flt in * by done. repeat match goal with E : negb _ = false |- _ => apply negb_false_iff in E; rewrite E end.
    by repeat match goal with E : fle _ _ = false |- _ => rewrite E end.
  - intros [(I1 & I2 & I3 & I4 & I5 & I6 & I7 & I8) Hf]. unfold floats_in_range in Hf.
    repeat match goal with E : _ && _ = true |- _ => apply andb_true_iff in E as [? ?] end.
    rewrite !not_flt in * by done. repeat match goal with E : negb _ = true |- _ => apply negb_true_iff in E end.
    unfold validate, fgt. change SFltb with flt. rewrite !not_flt by done.
    repeat match goal with E : fle _ _ = _ |- _ => rewrite E; clear E end. simpl.
    rewrite existsb_fst. rewrite (proj2 (existsb_out n_vocab (stop_token_ids p)) I8).
    rewrite (proj2 (existsb_out n_vocab (logit_bias p).*1)).
    2: { intros t (kv & -> & Hkv)%list_elem_of_fmap. by apply I7. }
    repeat match goal with |- context [if ?b then _ else _] => destruct b eqn:?; [lia |] end. done.
Qed.
Definition sample_params (top : spec_float) : SamplingParams :=
  mkParams 1 f1 top 40 f0 f0 f0 f1 (-1) None 16 0 false [] [7] false true (-1) false [(3, f1)] [] [] false [] [] [].
Lemma validate_exact_witness :
  not_nan (sample_params f1) /\ (validate 10 (sample_params f1) = Ok tt <-> ints_valid 10 (sample_params f1) /\ floats_in_range (sample_params f1) = true).
Proof. split; [done | apply (validate_exact 10 (sample_params f1)); done]. Defined.

(** A NaN passes every check of validate: parameters whose top_p is NaN are accepted although
    the message of that check demands a value in (0, 1]. *)
Theorem validate_accepts_nan : validate 10 (sample_params S754_nan) = Ok tt /\ floats_in_range (sample_params S754_nan) = false.
Proof. done. Qed.
