(* ===== verification/Scheduler.v ===== *)
(** * The scheduler (src/iian/scheduler.cpp, include/iian/scheduler.h)

    Requests live in a heap and the scheduler's two queues own them by id, as the two containers of
    [shared_ptr] do in the code: a request that [finish_request] erases from its queue is destroyed,
    and a later access through its id is undefined behaviour. *)

From S2P Require Import Prelude BlockPool FreeList PoolSpec KVCache Request.

Inductive SchedulingPolicy := FCFS | PRIORITY.
#[global] Instance SchedulingPolicy_eq_dec : EqDecision SchedulingPolicy.
Proof. solve_decision. Defined.

Record SchedulerConfig := mkSchedCfg {
  max_num_seqs : Z;
  max_num_batched_tokens : Z;
  max_model_len : Z;
  long_prefill_token_threshold : Z;
  enable_chunked_prefill : bool;
  policy : SchedulingPolicy
}.

Record ScheduledRequest := mkScheduled {
  s_req : Z;
  n_new_tokens : Z;
  n_spec : Z;
  resumed : bool
}.

Record SchedulerOutput := mkSOut {
  scheduled : list ScheduledRequest;
  preempted : list Z;
  total_tokens : Z
}.

Record Sched (P : Type) := mkSched {
  heap : gmap Z Request;
  kvc : PagedKVCache P;
  waiting_ : list Z;
  running_ : list Z;
  n_preemptions_ : Z
}.
Arguments mkSched {P}.
Arguments heap {P}.
Arguments kvc {P}.
Arguments waiting_ {P}.
Arguments running_ {P}.
Arguments n_preemptions_ {P}.

Section scheduler.
Context {P : Type} `{PO : PoolOps P}.
Implicit Types s : Sched P.

Definition with_heap h s : Sched P := mkSched h (kvc s) (waiting_ s) (running_ s) (n_preemptions_ s).
Definition with_kvc (k : PagedKVCache P) s : Sched P := mkSched (heap s) k (waiting_ s) (running_ s) (n_preemptions_ s).
Definition with_waiting w s : Sched P := mkSched (heap s) (kvc s) w (running_ s) (n_preemptions_ s).
Definition with_running r s : Sched P := mkSched (heap s) (kvc s) (waiting_ s) r (n_preemptions_ s).

(** access through a [Request *] *)
Definition get_req (r : Z) s : res Request :=
  match heap s !! r with Some x => Ok x | None => Err (UB "access to a destroyed request") end.
Definition put_req (r : Z) (x : Request) s : Sched P := with_heap (<[r := x]> (heap s)) s.
Definition upd_req (r : Z) (f : Request -> Request) s : res (Sched P) :=
  let! x := get_req r s in Ok (put_req r (f x) s).

(** ** add_request *)

(** std::make_pair(priority, arrival) < std::make_pair(priority, arrival) *)
Definition before (a b : Request) : bool :=
  (priority a <? priority b) || ((priority a =? priority b) && (arrival a <? arrival b)).

(** std::upper_bound: the halving search over [first, first + count) *)
Fixpoint upper_bound (fuel : nat) (s : Sched P) (w : list Z) (x : Request) (first count : Z) : res Z :=
  match fuel with
  | O => Err Fuel
  | S fuel =>
      if 0 <? count then
        let step := count / 2 in
        let! rid := vget w (first + step) in
        let! y := get_req rid s in
        if before x y then upper_bound fuel s w x first step
        else upper_bound fuel s w x (first + step + 1) (count - (step + 1))
      else Ok first
  end.

Definition add_request (cfg : SchedulerConfig) (rid : Z) s : res (Sched P) :=
  let! s := upd_req rid (set_status WAITING) s in
  if decide (policy cfg = PRIORITY) then
    let! x := get_req rid s in
    let! pos := upper_bound (S (length (waiting_ s))) s (waiting_ s) x 0 (Zlen (waiting_ s)) in
    Ok (with_waiting (take (Z.to_nat pos) (waiting_ s) ++ rid :: drop (Z.to_nat pos) (waiting_ s)) s)
  else Ok (with_waiting (waiting_ s ++ [rid]) s).

Definition all_requests s : list Z := running_ s ++ waiting_ s.

(** erase the first occurrence *)
Fixpoint erase (r : Z) (l : list Z) : list Z :=
  match l with [] => [] | x :: l => if x =? r then l else x :: erase r l end.

(** [kv_.free(req->kv)] *)
Definition free_req (rid : Z) s : res (Sched P) :=
  let! x := get_req rid s in
  let! (st, k) := free_kv (kv x) (kvc s) in
  Ok (with_kvc k (put_req rid (set_kv st x) s)).

Definition finish_request (rid : Z) (st : RequestStatus) s : res (Sched P) :=
  let! s := upd_req rid (set_status st) s in
  let! s := free_req rid s in
  if bool_decide (rid ∈ running_ s) then
    Ok (with_heap (delete rid (heap s)) (with_running (erase rid (running_ s)) s))
  else if bool_decide (rid ∈ waiting_ s) then
    Ok (with_heap (delete rid (heap s)) (with_waiting (erase rid (waiting_ s)) s))
  else Ok s.

Definition preempt (cfg : SchedulerConfig) (rid : Z) s : res (Sched P) :=
  let! s := free_req rid s in
  let! s := upd_req rid (fun x => set_num_preemptions (u32 (num_preemptions x + 1))
              (set_num_computed_tokens 0 (set_status PREEMPTED x))) s in
  let s := mkSched (heap s) (kvc s) (waiting_ s) (running_ s) (u64 (n_preemptions_ s + 1)) in
  if bool_decide (rid ∈ running_ s) then
    let s := with_running (erase rid (running_ s)) s in
    if decide (policy cfg = PRIORITY) then
      let! s := add_request cfg rid s in upd_req rid (set_status PREEMPTED) s
    else Ok (with_waiting (rid :: waiting_ s) s)
  else Err (UB "dereference of end()").

(** ** schedule, phase 1: running requests *)

(** tokens of a running request for this step: the remaining ones, capped by the prefill
    threshold and the budget *)
Definition new_tokens (cfg : SchedulerConfig) (remaining budget : Z) : Z :=
  let n := if 0 <? long_prefill_token_threshold cfg
           then Z.min remaining (long_prefill_token_threshold cfg) else remaining in
  Z.min n budget.

(** draft tokens that ride along *)
Definition spec_count (cfg : SchedulerConfig) (x : Request) (n_new budget : Z) : Z :=
  if negb (bool_decide (spec_tokens x = [])) && (n_new =? u32 (n_tokens x - num_computed_tokens x)) then
    let n := u32 (Zlen (spec_tokens x)) in
    let n := if budget <? u32 (n_new + n) then budget - n_new else n in
    if max_model_len cfg <? u32 (num_computed_tokens x + n_new + n + 1)
    then Z.min n (if u32 (num_computed_tokens x + n_new + 1) <? max_model_len cfg
                  then max_model_len cfg - num_computed_tokens x - n_new - 1 else 0)
    else n
  else 0.

Definition out_remove (rid : Z) (o : SchedulerOutput) : list ScheduledRequest :=
  (fix go l := match l with
               | [] => []
               | x :: l => if s_req x =? rid then l else x :: go l
               end) (scheduled o).
Definition out_find (rid : Z) (o : SchedulerOutput) : option ScheduledRequest :=
  List.find (fun x => s_req x =? rid) (scheduled o).

(** the allocation loop: preempt the last running request until the slots fit *)
Fixpoint alloc_loop (fuel : nat) (cfg : SchedulerConfig) (rid n_new : Z) s (o : SchedulerOutput) (budget : Z)
  : res (bool * Sched P * SchedulerOutput * Z) :=
  match fuel with
  | O => Err Fuel
  | S fuel =>
      let! x := get_req rid s in
      let! (ok, st, k) := allocate_slots (kv x) (u32 (num_computed_tokens x + n_new)) [] (kvc s) in
      let s := with_kvc k (put_req rid (set_kv st x) s) in
      if (ok : bool) then Ok (true, s, o, budget) else
      let! victim := vget (running_ s) (Zlen (running_ s) - 1) in
      if victim =? rid then
        let! s := preempt cfg rid s in
        Ok (false, s, mkSOut (scheduled o) (preempted o ++ [rid]) (total_tokens o), budget)
      else
        let '(o, budget) :=
          match out_find victim o with
          | Some e => (mkSOut (out_remove victim o) (preempted o) (u32 (total_tokens o - n_new_tokens e)),
                       u32 (budget + n_new_tokens e))
          | None => (o, budget)
          end in
        let! s := preempt cfg victim s in
        alloc_loop fuel cfg rid n_new s (mkSOut (scheduled o) (preempted o ++ [victim]) (total_tokens o)) budget
  end.

Fixpoint phase1 (fuel : nat) (cfg : SchedulerConfig) (idx : Z) s (o : SchedulerOutput) (budget : Z)
  : res (Sched P * SchedulerOutput * Z) :=
  match fuel with
  | O => Err Fuel
  | S fuel =>
      if (idx <? Zlen (running_ s)) && (0 <? budget) then
        let! rid := vget (running_ s) idx in
        let! x := get_req rid s in
        let n_real := new_tokens cfg (u32 (n_tokens x - num_computed_tokens x)) budget in
        if n_real =? 0 then phase1 fuel cfg (idx + 1) s o budget else
        let nsp := spec_count cfg x n_real budget in
        let n_new := u32 (n_real + nsp) in
        let! (ok, s, o, budget) := alloc_loop (S (length (running_ s))) cfg rid n_new s o budget in
        if (ok : bool) then
          phase1 fuel cfg (idx + 1) s
            (mkSOut (scheduled o ++ [mkScheduled rid n_new nsp false]) (preempted o)
                    (u32 (total_tokens o + n_new)))
            (u32 (budget - n_new))
        else Ok (s, o, budget)
      else Ok (s, o, budget)
  end.

(** ** phase 2: waiting requests *)
Fixpoint phase2 (fuel : nat) (cfg : SchedulerConfig) s (o : SchedulerOutput) (budget : Z)
  : res (Sched P * SchedulerOutput * Z) :=
  match fuel with
  | O => Err Fuel
  | S fuel =>
      match waiting_ s with
      | rid :: rest =>
          if (0 <? budget) && (Zlen (running_ s) <? max_num_seqs cfg) then
            let! x := get_req rid s in
            let! (n_computed, computed_blocks, s) :=
              if num_computed_tokens x =? 0 then
                let! hs := update_hashes (kvc s) (block_hashes x) (tokens x) (cache_salt x) in
                let s := put_req rid (set_block_hashes hs x) s in
                let! (n, bl) := get_computed_blocks (kvc s) (tokens x) hs in
                let k := kvc s in
                Ok (n, bl, with_kvc (with_pool (op_stat (u32 (Zlen (tokens x) / kv_block_size k))
                                                        (n / kv_block_size k) (pool_ k)) k) s)
              else Ok (num_computed_tokens x, [], s) in
            let! x := get_req rid s in
            let n_new := u32 (n_tokens x - n_computed) in
            let n_new := if 0 <? long_prefill_token_threshold cfg
                         then Z.min n_new (long_prefill_token_threshold cfg) else n_new in
            if negb (enable_chunked_prefill cfg) && (budget <? n_new) then Ok (s, o, budget) else
            let n_new := Z.min n_new budget in
            if n_new =? 0 then Ok (s, o, budget) else
            let! (ok, st, k) := allocate_slots (kv x) (u32 (n_computed + n_new)) computed_blocks (kvc s) in
            let s := with_kvc k (put_req rid (set_kv st x) s) in
            if negb ok then Ok (s, o, budget) else
            let rsm := bool_decide (status x = PREEMPTED) in
            let! s := upd_req rid (fun x =>
                let x := set_num_computed_tokens n_computed (set_status RUNNING x) in
                if rsm then x else set_num_cached_tokens n_computed x) (with_waiting rest s) in
            phase2 fuel cfg (with_running (running_ s ++ [rid]) s)
              (mkSOut (scheduled o ++ [mkScheduled rid n_new 0 rsm]) (preempted o)
                      (u32 (total_tokens o + n_new)))
              (u32 (budget - n_new))
          else Ok (s, o, budget)
      | [] => Ok (s, o, budget)
      end
  end.

Definition schedule (cfg : SchedulerConfig) s : res (SchedulerOutput * Sched P) :=
  let! (s, o, budget) := phase1 (S (length (running_ s))) cfg 0 s (mkSOut [] [] 0)
                           (max_num_batched_tokens cfg) in
  let! (s, o, budget) :=
    if bool_decide (preempted o = []) then phase2 (S (length (waiting_ s))) cfg s o budget
    else Ok (s, o, budget) in
  Ok (o, s).

(** ** update_after_step *)
Definition update_one (e : ScheduledRequest) s : res (Sched P) :=
  let! r := get_req (s_req e) s in
  if is_finished r then Ok s else
  let r := set_num_computed_tokens (u32 (num_computed_tokens r + n_new_tokens e)) r in
  let! hs := update_hashes (kvc s) (block_hashes r) (tokens r) (cache_salt r) in
  let r := set_block_hashes hs r in
  let! (st, k) := cache_blocks (kv r) (tokens r) (Z.min (num_computed_tokens r) (n_tokens r)) hs (kvc s) in
  Ok (with_kvc k (put_req (s_req e) (set_kv st r) s)).

Fixpoint update_all (l : list ScheduledRequest) s : res (Sched P) :=
  match l with
  | [] => Ok s
  | e :: l => let! s := update_one e s in update_all l s
  end.

Definition update_after_step (o : SchedulerOutput) s : res (Sched P) := update_all (scheduled o) s.

Definition has_requests s : bool :=
  negb (bool_decide (waiting_ s = [])) || negb (bool_decide (running_ s = [])).
End scheduler.
