(* ===== verification/Batch.v ===== *)
(** * The micro-batch of a step (struct UBatch of include/iian/graph.h, built in Engine::step)

    [build_batch] is the loop of Engine::step that lays the scheduled tokens out: their ids,
    positions, K/V slots, the cells each sequence may attend to and the rows whose logits are
    needed.  [items] is what it lays out: one entry per batch token, in order. *)

From S2P Require Import Prelude BlockPool FreeList PoolSpec KVCache Request Scheduler.

(** ** Loops *)
Definition zrange (a b : Z) : list Z := (fun k => a + Z.of_nat k) <$> seq 0 (Z.to_nat (b - a)).
Fixpoint rmap {A B} (f : A -> res B) (l : list A) : res (list B) :=
  match l with
  | [] => Ok []
  | x :: l => let! y := f x in let! ys := rmap f l in Ok (y :: ys)
  end.

Lemma zrange_lookup a b k : (k < Z.to_nat (b - a))%nat -> zrange a b !! k = Some (a + Z.of_nat k).
Proof. intros H. unfold zrange. rewrite list_lookup_fmap, lookup_seq_lt by done. done. Qed.
Lemma zrange_cons a b : a < b -> zrange a b = a :: zrange (a + 1) b.
Proof.
  intros H. unfold zrange. replace (Z.to_nat (b - a)) with (S (Z.to_nat (b - (a + 1)))) by lia.
  simpl. f_equal; [lia |]. rewrite <- (fmap_add_seq 1 0), <- list_fmap_compose. apply list_fmap_ext. intros k ? _. simpl. lia.
Qed.
Lemma elem_of_zrange a b i : i ∈ zrange a b <-> a <= i < b.
Proof.
  unfold zrange. rewrite list_elem_of_fmap. split.
  - intros (k & -> & Hk). apply elem_of_seq in Hk. lia.
  - intros Hi. exists (Z.to_nat (i - a)). split; [lia |]. apply elem_of_seq. lia.
Qed.
Lemma length_zrange a b : length (zrange a b) = Z.to_nat (b - a).
Proof. unfold zrange. by rewrite length_fmap, length_seq. Qed.
Lemma Zlen_zrange a b : a <= b -> Zlen (zrange a b) = b - a.
Proof. intros. unfold Zlen. rewrite length_zrange. lia. Qed.
Lemma zrange_NoDup a b : NoDup (zrange a b).
Proof. unfold zrange. apply NoDup_fmap_2; [intros x y; lia | apply NoDup_seq]. Qed.

Lemma rmap_Ok {A B} (f : A -> res B) (g : A -> B) l :
  (forall x, x ∈ l -> f x = Ok (g x)) -> rmap f l = Ok (g <$> l).
Proof.
  induction l as [| x l IH]; intros H; [done |]. simpl. rewrite (H x) by set_solver. cbn [rbind].
  rewrite IH by set_solver. done.
Qed.

(** ** The batch *)
Record SeqInfo := mkSeq { cells : list Z; cell_pos : list Z }.
Record UBatch := mkUB {
  ub_n_tokens : Z;
  ub_n_outputs : Z;
  ub_n_kv : Z;
  ub_kv_start : Z;
  ub_tokens : list Z;
  ub_pos : list Z;
  ub_seq_idx : list Z;
  ub_slots : list Z;
  ub_out_ids : list Z;
  ub_seqs : list SeqInfo
}.

(** the local variables of the batch loop *)
Record Build := mkBuild {
  bd_tokens : list Z;
  bd_pos : list Z;
  bd_seq_idx : list Z;
  bd_slots : list Z;
  bd_out_ids : list Z;
  bd_seqs : list SeqInfo;
  logit_rows : list Z;
  embd_rows : list (Z * Z);
  cell_min : Z;
  cell_max : Z
}.
Definition empty_build : Build := mkBuild [] [] [] [] [] [] [] [] (2 ^ 63 - 1) (-1).

Definition batch_token (x : Request) (i : Z) : res Z :=
  if i <? n_tokens x then vget (tokens x) i else vget (spec_tokens x) (i - n_tokens x).

(** one iteration: scheduled entry [si] *)
Definition build_seq (bs si : Z) (e : ScheduledRequest) (x : Request) (b : Build) : res Build :=
  let n_ctx := u32 (num_computed_tokens x + n_new_tokens e) in
  let! cs := rmap (cell_of bs (kv x)) (zrange 0 n_ctx) in
  let new := zrange (num_computed_tokens x) n_ctx in
  let! toks := rmap (batch_token x) new in
  let! slots := rmap (cell_of bs (kv x)) new in
  let all := bd_tokens b ++ toks in
  let '(outs, lrow, erow) :=
    if is_embedding x then
      ((fun i => i32 (Zlen all - n_new_tokens e + i)) <$> zrange 0 (n_new_tokens e),
       -1, (i32 (Zlen (bd_out_ids b)), i32 (n_new_tokens e)))
    else if n_tokens x <=? n_ctx then
      ((fun k => i32 (i32 (Zlen all) - 1 - i32 (n_spec e)) + k) <$> zrange 0 (n_spec e + 1),
       i32 (Zlen (bd_out_ids b)), (-1, 0))
    else ([], -1, (-1, 0)) in
  Ok (mkBuild all (bd_pos b ++ new) (bd_seq_idx b ++ map (fun _ => si) new) (bd_slots b ++ slots)
        (bd_out_ids b ++ outs) (bd_seqs b ++ [mkSeq cs (zrange 0 n_ctx)])
        (logit_rows b ++ [lrow]) (embd_rows b ++ [erow])
        (foldl Z.min (cell_min b) cs) (foldl Z.max (cell_max b) cs)).

Fixpoint build_loop {P} (bs si : Z) (l : list ScheduledRequest) (s : Sched P) (b : Build) : res Build :=
  match l with
  | [] => Ok b
  | e :: l =>
      let! x := get_req (s_req e) s in
      let! b := build_seq bs si e x b in
      build_loop bs (si + 1) l s b
  end.

(** std::stable_sort by descending token count *)
Fixpoint sort_insert (e : ScheduledRequest) (l : list ScheduledRequest) : list ScheduledRequest :=
  match l with
  | [] => [e]
  | e' :: l' => if n_new_tokens e <? n_new_tokens e' then e' :: sort_insert e l' else e :: l
  end.
Definition stable_sort (l : list ScheduledRequest) : list ScheduledRequest := foldr sort_insert [] l.

Definition build_batch {P} (gather : bool) (o : SchedulerOutput) (s : Sched P)
  : res (SchedulerOutput * UBatch * Build) :=
  let o := if gather then mkSOut (stable_sort (scheduled o)) (preempted o) (total_tokens o) else o in
  let! b := build_loop (kv_block_size (kvc s)) 0 (scheduled o) s empty_build in
  let out_ids := bd_out_ids b in
  let out_ids := if u32 (Zlen out_ids) =? 0 then out_ids ++ [0] else out_ids in
  let kv_start := u32 (Z.quot (cell_min b) 256 * 256) in
  let n_kv := Z.min (u32 (num_cells_ (kvc s) - kv_start))
                    (u32 (Z.quot (cell_max b + 1 - kv_start + 255) 256 * 256)) in
  Ok (o, mkUB (total_tokens o) (u32 (Zlen out_ids)) n_kv kv_start (bd_tokens b) (bd_pos b) (bd_seq_idx b)
           (bd_slots b) out_ids (bd_seqs b), b).

(** ** Specification: the batch as a list of items *)
Record item := mkItem { it_seq : Z; it_entry : ScheduledRequest; it_req : Request; it_pos : Z }.

Definition n_ctx_of (e : ScheduledRequest) (x : Request) : Z := num_computed_tokens x + n_new_tokens e.
Definition cellz (bs : Z) (x : Request) (i : Z) : Z := default 0 (vlookup (block_ids (kv x)) (i / bs)) * bs + i mod bs.
Definition tokz (x : Request) (i : Z) : Z := default 0 (vlookup (tokens x ++ spec_tokens x) i).
Definition seq_of (bs : Z) (p : ScheduledRequest * Request) : SeqInfo :=
  mkSeq (cellz bs p.2 <$> zrange 0 (n_ctx_of p.1 p.2)) (zrange 0 (n_ctx_of p.1 p.2)).
Definition items_of (si : Z) (p : ScheduledRequest * Request) : list item :=
  mkItem si p.1 p.2 <$> zrange (num_computed_tokens p.2) (n_ctx_of p.1 p.2).
Fixpoint items (si : Z) (l : list (ScheduledRequest * Request)) : list item :=
  match l with [] => [] | p :: l => items_of si p ++ items (si + 1) l end.

Record built (bs : Z) (l : list (ScheduledRequest * Request)) (si : Z) (b b' : Build) : Prop := {
  bt_tokens : bd_tokens b' = bd_tokens b ++ ((fun it => tokz (it_req it) (it_pos it)) <$> items si l);
  bt_pos : bd_pos b' = bd_pos b ++ (it_pos <$> items si l);
  bt_seq : bd_seq_idx b' = bd_seq_idx b ++ (it_seq <$> items si l);
  bt_slots : bd_slots b' = bd_slots b ++ ((fun it => cellz bs (it_req it) (it_pos it)) <$> items si l);
  bt_seqs : bd_seqs b' = bd_seqs b ++ (seq_of bs <$> l);
  bt_min : cell_min b' = foldl Z.min (cell_min b) (l ≫= fun p => cells (seq_of bs p));
  bt_max : cell_max b' = foldl Z.max (cell_max b) (l ≫= fun p => cells (seq_of bs p));
  bt_logit : length (logit_rows b') = (length (logit_rows b) + length l)%nat;
  bt_embd : length (embd_rows b') = (length (embd_rows b) + length l)%nat
}.
