(* ===== verification/Sampler.v ===== *)
(** * The sampler (SamplerState::sample of src/iian/sampler.cpp, src/iian/vec_math.h)

    From the logits of a step to a token: masks, biases, penalties, temperature, the truncations
    min_p, top_k and top_p, the draw, and the log-probabilities.  Floats are binary32 and binary64 of
    SpecFloat, rounded to nearest even.  The functions expf and logf and the random generator are
    parameters; the vectorised paths of vec_math.h are not modelled, the scalar ones are.  std::sort
    and std::partial_sort are undefined when the comparison is no strict weak order of the elements
    (a NaN among the logits makes it none); otherwise they are a sort by insertion and its first part. *)

From stdpp Require Import sorting.
From S2P Require Import Prelude Request Sampling Batch.

(** ** Floats *)
Definition fadd : spec_float -> spec_float -> spec_float := SFadd 24 128.
Definition fsub : spec_float -> spec_float -> spec_float := SFsub 24 128.
Definition fmul : spec_float -> spec_float -> spec_float := SFmul 24 128.
Definition fdiv : spec_float -> spec_float -> spec_float := SFdiv 24 128.
Definition dadd : spec_float -> spec_float -> spec_float := SFadd 53 1024.
Definition dsub : spec_float -> spec_float -> spec_float := SFsub 53 1024.
Definition ddiv : spec_float -> spec_float -> spec_float := SFdiv 53 1024.
Definition feq : spec_float -> spec_float -> bool := SFeqb.
Definition NINF : spec_float := S754_infinity true.
Definition PINF : spec_float := S754_infinity false.
Definition d0 : spec_float := S754_zero false.
Definition d1 : spec_float := binary_normalize 53 1024 1 0 false.
(** float to double and back, int to float, float to int (undefined when it does not fit) *)
Definition to_double (x : spec_float) : spec_float := match x with S754_finite s m e => binary_round 53 1024 s m e | _ => x end.
Definition to_float (x : spec_float) : spec_float := match x with S754_finite s m e => binary_round 24 128 s m e | _ => x end.
Definition of_int (z : Z) : spec_float := binary_normalize 24 128 z 0 false.
Definition to_int (x : spec_float) : res Z :=
  match x with
  | S754_zero _ => Ok 0
  | S754_finite s m e => let z := Z.shiftl (Zpos m) e in if z <? 2 ^ 31 then Ok (if s then - z else z) else Err (UB "float to int")
  | _ => Err (UB "float to int")
  end.
Definition f1em5 : spec_float := fdiv f1 (of_int 100000).
Definition is_greedy (p : SamplingParams) : bool := flt (temperature p) f1em5.

(** ** vec_math.h *)
Definition max_value (v : list spec_float) : spec_float := foldl (fun mx x => if fgt x mx then x else mx) NINF v.
Fixpoint find_value (x : spec_float) (v : list spec_float) (i : Z) : Z := match v with [] => 0 | y :: v => if feq y x then i else find_value x v (i + 1) end.
Definition vec_argmax (v : list spec_float) : Z := find_value (max_value v) v 0.
Definition indexed (v : list spec_float) : list (Z * spec_float) := zip (zrange 0 (Zlen v)) v.
(** the buffer of top_k with its last entry first; an entry goes before those that are smaller *)
Fixpoint insert_rev (rev_out : list (Z * spec_float)) (e : Z * spec_float) : list (Z * spec_float) :=
  match rev_out with [] => [e] | d :: rest => if fgt e.2 d.2 then d :: insert_rev rest e else e :: d :: rest end.
Definition topk_step (k : Z) (rev_out : list (Z * spec_float)) (e : Z * spec_float) : list (Z * spec_float) :=
  if (Zlen rev_out =? k) && match rev_out with d :: _ => negb (fgt e.2 d.2) | [] => false end then rev_out
  else let out := insert_rev rev_out e in if k <? Zlen out then tail out else out.
Definition vec_top_k (v : list spec_float) (k : Z) : list (Z * spec_float) := if k <=? 0 then [] else rev (foldl (topk_step k) [] (indexed v)).

(** ** Sorting candidates *)
Definition val (v : list spec_float) (i : Z) : spec_float := default S754_nan (vlookup v i).
Definition desc (v : list spec_float) (a b : Z) : bool := fgt (val v a) (val v b) || (feq (val v a) (val v b) && (a <? b)).
Section Sort.
Context {A : Type} (lt : A -> A -> bool).
Fixpoint std_insert (x : A) (l : list A) : list A := match l with [] => [x] | y :: l => if lt y x then y :: std_insert x l else x :: y :: l end.
Definition sorted_by (l : list A) : list A := foldr std_insert [] l.
(** what std::sort requires of a comparison: irreflexive, transitive, and incomparability is transitive *)
Definition unordered (x y : A) : bool := negb (lt x y) && negb (lt y x).
Definition strict_weak (l : list A) : bool :=
  forallb (fun x => negb (lt x x) && forallb (fun y => forallb (fun z => implb (lt x y && lt y z) (lt x z) && implb (unordered x y && unordered y z) (unordered x z)) l) l) l.
Definition std_sort (l : list A) : res (list A) := if strict_weak l then Ok (sorted_by l) else Err (UB "sort without a strict weak order").
End Sort.
Definition NB : Z := 256.
Definition bucket_of (lo scale x : spec_float) : res Z :=
  let! b := if fgt x NINF then to_int (fmul (fsub x lo) scale) else Ok 0 in Ok (NB - 1 - Z.min (Z.max b 0) (NB - 1)).
Fixpoint count_loop (buckets counts : list Z) : res (list Z) :=
  match buckets with [] => Ok counts | b :: buckets => let! c := vget counts (b + 1) in let! counts := vset counts (b + 1) (c + 1) in count_loop buckets counts end.
Fixpoint prefix_loop (bs : list Z) (counts : list Z) : res (list Z) :=
  match bs with [] => Ok counts | b :: bs => let! c := vget counts (b + 1) in let! d := vget counts b in let! counts := vset counts (b + 1) (c + d) in prefix_loop bs counts end.
Fixpoint place_loop (items : list (Z * Z)) (pos sorted : list Z) : res (list Z) :=
  match items with
  | [] => Ok sorted
  | (b, id) :: items => let! p := vget pos b in let! sorted := vset sorted p id in let! pos := vset pos b (p + 1) in place_loop items pos sorted
  end.
Definition sort_range (lt : Z -> Z -> bool) (lo hi : Z) (l : list Z) : res (list Z) :=
  let! s := std_sort lt (vslice l lo (hi - lo)) in Ok (take (Z.to_nat lo) l ++ s ++ drop (Z.to_nat hi) l).
Fixpoint sort_buckets (lt : Z -> Z -> bool) (bs counts sorted : list Z) : res (list Z) :=
  match bs with
  | [] => Ok sorted
  | b :: bs => let! lo := vget counts b in let! hi := vget counts (b + 1) in
               let! sorted := (if 1 <? hi - lo then sort_range lt lo hi sorted else Ok sorted) in sort_buckets lt bs counts sorted
  end.
Definition bounds (v : list spec_float) (ids : list Z) : spec_float * spec_float :=
  foldl (fun '(lo, hi) i => let x := val v i in if fgt x NINF then (if flt x lo then x else lo, if flt hi x then x else hi) else (lo, hi)) (PINF, NINF) ids.
Definition sort_desc (ids : list Z) (v : list spec_float) : res (list Z) :=
  if Zlen ids <? 4096 then std_sort (desc v) ids else
  let '(lo, hi) := bounds v ids in
  if negb (fgt hi lo) then std_sort (desc v) ids else
  let scale := fdiv (of_int (NB - 1)) (fsub hi lo) in
  let! bucket := rmap (fun i => bucket_of lo scale (val v i)) ids in
  let! counts := count_loop bucket (replicate (Z.to_nat (NB + 1)) 0) in
  let! counts := prefix_loop (zrange 0 NB) counts in
  let! sorted := place_loop (zip bucket ids) (removelast counts) (replicate (length ids) 0) in
  sort_buckets (desc v) (zrange 0 NB) counts sorted.

(** ** The processors of the logits *)
Fixpoint keep_loop (allowed : list Z) (logits keep : list spec_float) : res (list spec_float) :=
  match allowed with
  | [] => Ok keep
  | t :: allowed => if (0 <=? t) && (t <? Zlen logits) then let! x := vget logits t in let! keep := vset keep t x in keep_loop allowed logits keep else keep_loop allowed logits keep
  end.
Definition apply_allowed (p : SamplingParams) (logits : list spec_float) : res (list spec_float) :=
  match allowed_token_ids p with [] => Ok logits | allowed => keep_loop allowed logits (replicate (length logits) NINF) end.
Fixpoint bias_loop (bias : list (Z * spec_float)) (logits : list spec_float) : res (list spec_float) :=
  match bias with [] => Ok logits | (t, b) :: bias => let! x := vget logits t in let! logits := vset logits t (fadd x b) in bias_loop bias logits end.
(** the words whose last token would complete them *)
Definition completes (output bw : list Z) : bool := let pre := removelast bw in (length pre <=? length output)%nat && bool_decide (drop (length output - length pre) output = pre).
Fixpoint bad_loop (words : list (list Z)) (output : list Z) (logits : list spec_float) : res (list spec_float) :=
  match words with
  | [] => Ok logits
  | bw :: words =>
      match last bw with
      | None => bad_loop words output logits
      | Some t => if completes output bw && (0 <=? t) && (t <? Zlen logits) then let! logits := vset logits t NINF in bad_loop words output logits else bad_loop words output logits
      end
  end.
Definition count_output (l : list Z) (m : gmap Z Z) : gmap Z Z := foldl (fun m t => <[t := default 0 (m !! t) + 1]> m) m l.
Definition add_prompt (l : list Z) (m : gmap Z Z) : gmap Z Z := foldl (fun m t => match m !! t with Some _ => m | None => <[t := 0]> m end) m l.
Definition penalized_logit (p : SamplingParams) (count : Z) (l : spec_float) : spec_float :=
  let l := if negb (feq (repetition_penalty p) f1) then if fgt l f0 then fdiv l (repetition_penalty p) else fmul l (repetition_penalty p) else l in
  if 0 <? count then fsub l (fadd (fmul (frequency_penalty p) (of_int count)) (presence_penalty p)) else l.
Fixpoint penalty_loop (p : SamplingParams) (counts : list (Z * Z)) (logits : list spec_float) : res (list spec_float) :=
  match counts with
  | [] => Ok logits
  | (t, n) :: counts =>
      if (t <? 0) || (Zlen logits <=? t) then penalty_loop p counts logits
      else let! l := vget logits t in let! logits := vset logits t (penalized_logit p n l) in penalty_loop p counts logits
  end.
Definition penalty_start (p : SamplingParams) (n_out : Z) : Z :=
  if repetition_last_n p <? 0 then 0 else if repetition_last_n p <? n_out then n_out - repetition_last_n p else 0.
Definition apply_penalties (p : SamplingParams) (prompt output : list Z) (logits : list spec_float) : res (list spec_float) :=
  if negb (feq (repetition_penalty p) f1) || negb (feq (presence_penalty p) f0) || negb (feq (frequency_penalty p) f0) then
    let counts := count_output (drop (Z.to_nat (penalty_start p (Zlen output))) output) ∅ in
    let counts := if negb (feq (repetition_penalty p) f1) then add_prompt prompt counts else counts in
    penalty_loop p (map_to_list counts) logits
  else Ok logits.
Definition process (p : SamplingParams) (prompt output : list Z) (logits : list spec_float) : res (list spec_float) :=
  let! logits := apply_allowed p logits in
  let! logits := bias_loop (logit_bias p) logits in
  let! logits := bad_loop (bad_words p) output logits in
  apply_penalties p prompt output logits.

(** ** Sampling *)
Record SampledToken := mkSampled { st_token : Z; st_logprob : spec_float; st_top : list (Z * spec_float) }.
Section Sample.
Context (expf logf : spec_float -> spec_float) {R : Type} (uniform : R -> spec_float -> spec_float * R).
Definition log_sum_exp (v : list spec_float) : spec_float :=
  let mx := max_value v in if negb (fgt mx NINF) then mx else fadd mx (logf (foldl (fun sum x => fadd sum (expf (fsub x mx))) f0 v)).
Definition min_p_ids (p : SamplingParams) (mx : spec_float) (logits : list spec_float) : list Z :=
  let all := zrange 0 (Zlen logits) in
  if fgt (min_p p) f0 then
    let thr := fadd mx (logf (min_p p)) in
    match List.filter (fun i => fle thr (val logits i)) all with [] => [vec_argmax logits] | ids => ids end
  else all.
Definition candidates (p : SamplingParams) (mx : spec_float) (logits : list spec_float) : res (list Z) :=
  let ids := min_p_ids p mx logits in
  if (0 <? top_k p) && (top_k p <? Zlen ids) then let! ids := std_sort (desc logits) ids in Ok (take (Z.to_nat (top_k p)) ids)
  else if flt (top_p p) f1 && (1 <? Zlen ids) then sort_desc ids logits else Ok ids.
Definition sum_double (probs : list spec_float) : spec_float := foldl (fun s x => dadd s (to_double x)) d0 probs.
Definition softmax (mx : spec_float) (logits : list spec_float) (ids : list Z) : res (list spec_float) :=
  let! probs := rmap (fun i => let! x := vget logits i in Ok (expf (fsub x mx))) ids in
  let inv_sum := to_float (ddiv d1 (sum_double probs)) in
  Ok (map (fun x => fmul x inv_sum) probs).
(** how many candidates reach the mass top_p *)
Fixpoint keep_mass (top : spec_float) (probs : list spec_float) (cum : spec_float) (keep : nat) : nat :=
  match probs with [] => keep | x :: probs => let cum := fadd cum x in if fle top cum then S keep else keep_mass top probs cum (S keep) end.
Definition top_p_keep (p : SamplingParams) (probs : list spec_float) : list spec_float :=
  if flt (top_p p) f1 && (1 <? Zlen probs) then take (keep_mass (top_p p) probs f0 0) probs else probs.
(** the first candidate at which the draw is used up, the last one when it never is *)
Fixpoint pick_loop (probs : list spec_float) (c last : nat) (r : spec_float) : nat :=
  match probs with [] => last | x :: probs => let r := dsub r (to_double x) in if fle r d0 then c else pick_loop probs (S c) last r end.
Definition draw (p : SamplingParams) (logits : list spec_float) (g : R) : res (Z * R) :=
  let inv_t := fdiv f1 (temperature p) in
  let logits := map (fun x => fmul x inv_t) logits in
  let mx := max_value logits in
  let! ids := candidates p mx logits in
  let! probs := softmax mx logits ids in
  let probs := top_p_keep p probs in
  let '(r, g) := uniform g (sum_double probs) in
  let! t := vget ids (Z.of_nat (pick_loop probs 0 (length probs - 1) r)) in
  Ok (t, g).
Definition sample (p : SamplingParams) (logits : list spec_float) (prompt output : list Z) (g : R) : res (SampledToken * R) :=
  let raw := logits in
  let raw_lse := log_sum_exp raw in
  let! logits := process p prompt output logits in
  let! (t, g) := if is_greedy p then Ok (vec_argmax logits, g) else draw p logits g in
  if 0 <=? logprobs p then
    let! l := vget raw t in
    let top := if 0 <? logprobs p then map (fun e => (e.1, fsub e.2 raw_lse)) (vec_top_k raw (Z.min (logprobs p) (Zlen raw))) else [] in
    Ok (mkSampled t (fsub l raw_lse) top, g)
  else Ok (mkSampled t f0 [], g).
End Sample.

(** ** The order of floats *)
(** sign, exponent and mantissa, in the order of the numbers *)
Definition rank (x : spec_float) : Z * Z * Z :=
  match x with
  | S754_infinity true => (-2, 0, 0) | S754_finite true m e => (-1, - e, Zneg m) | S754_zero _ => (0, 0, 0)
  | S754_finite false m e => (1, e, Zpos m) | S754_infinity false => (2, 0, 0) | S754_nan => (3, 0, 0)
  end.
Definition below (a b : Z * Z * Z) : Prop := a.1.1 < b.1.1 \/ a.1.1 = b.1.1 /\ (a.1.2 < b.1.2 \/ a.1.2 = b.1.2 /\ a.2 < b.2).
Definition number (x : spec_float) : Prop := x <> S754_nan.
Lemma compare_rank a b : number a -> number b ->
  match SFcompare a b with Some Lt => below (rank a) (rank b) | Some Eq => rank a = rank b | Some Gt => below (rank b) (rank a) | None => False end.
Proof.
  unfold number, below. destruct a as [ [] | [] | | [] m e], b as [ [] | [] | | [] m' e']; simpl; try done; intros _ _; try lia.
  all: destruct (Z.compare_spec e e'); simpl; try lia; change (PosDef.Pos.compare_cont Eq m m') with (Pos.compare m m'); destruct (Pos.compare_spec m m'); simpl; first [lia | by subst].
Qed.
Lemma flt_spec a b : number a -> number b -> flt a b = true <-> below (rank a) (rank b).
Proof. intros Ha Hb. pose proof (compare_rank a b Ha Hb) as H. unfold flt, SFltb, below in *. destruct (SFcompare a b) as [ [] |]; [rewrite H | | |]; split; intros; try done; lia. Qed.
Lemma feq_spec a b : number a -> number b -> feq a b = true <-> rank a = rank b.
Proof. intros Ha Hb. pose proof (compare_rank a b Ha Hb) as H. unfold feq, SFeqb, below in *. destruct (SFcompare a b) as [ [] |]; split; intros E; try done; rewrite E in *; lia. Qed.
Lemma fgt_spec a b : number a -> number b -> fgt a b = true <-> below (rank b) (rank a).
Proof. intros Ha Hb. by apply (flt_spec b a). Qed.
Lemma flt_false a b : number a -> number b -> flt a b = false <-> below (rank b) (rank a) \/ rank a = rank b.
Proof. intros Ha Hb. rewrite <- not_true_iff_false, flt_spec by done. unfold below. destruct (rank a) as [ [] ], (rank b) as [ [] ]; simpl. split; [intros H; destruct (decide (z = z2 /\ z0 = z3 /\ z1 = z4)) as [ (-> & -> & ->) | Hn]; [by right | left; lia] | intros [H | [= -> -> ->] ]; lia]. Qed.

(** ** Sorting *)
Section Sorting.
Context {A : Type} (lt : A -> A -> bool) (D : A -> Prop).
Context (lt_asym : forall x y, D x -> D y -> lt x y = true -> lt y x = false) (lt_neg : forall x y z, D x -> D y -> D z -> lt x y = false -> lt y z = false -> lt x z = false).
Notation sorted := (StronglySorted (fun x y => lt y x = false)).
Lemma std_insert_perm x l : std_insert lt x l ≡ₚ x :: l.
Proof. induction l as [| y l IH]; simpl; [done |]. destruct (lt y x); [| done]. rewrite IH. constructor. Qed.
Lemma sorted_by_perm l : sorted_by lt l ≡ₚ l.
Proof. induction l as [| x l IH]; simpl; [done |]. by rewrite std_insert_perm, IH. Qed.
Lemma std_insert_sorted x l : D x -> Forall D l -> sorted l -> sorted (std_insert lt x l).
Proof.
  intros Hx Hl. induction 1 as [| y l Hs IH Hy]; simpl; [repeat constructor |]. apply Forall_cons in Hl as [Dy Dl]. destruct (lt y x) eqn:E.
  - constructor; [by apply IH |]. rewrite (std_insert_perm x l). constructor; [by apply lt_asym | done].
  - constructor; [by constructor |]. constructor; [done |]. rewrite Forall_forall in Hy, Dl |- *. intros z Hz. apply (lt_neg z y x); auto.
Qed.
Lemma sorted_by_sorted l : Forall D l -> sorted (sorted_by lt l).
Proof. induction 1 as [| x l Hx Hl IH]; simpl; [constructor |]. apply std_insert_sorted; [done | by rewrite sorted_by_perm | done]. Qed.
Lemma std_sort_ok l : Forall D l -> std_sort lt l = Ok (sorted_by lt l).
Proof.
  intros Hl. unfold std_sort. assert (E : strict_weak lt l = true); [| by rewrite E]. rewrite Forall_forall in Hl. apply forallb_forall. intros x Hx%list_elem_of_In%Hl. apply andb_true_iff. split.
  - destruct (lt x x) eqn:E; [| done]. pose proof (lt_asym x x Hx Hx E). congruence.
  - apply forallb_forall. intros y Hy%list_elem_of_In%Hl. apply forallb_forall. intros z Hz%list_elem_of_In%Hl. unfold unordered.
    pose proof (lt_asym y z Hy Hz). pose proof (lt_neg x z y Hx Hz Hy). pose proof (lt_neg x y z Hx Hy Hz). pose proof (lt_neg z y x Hz Hy Hx).
    destruct (lt x y), (lt y x), (lt y z), (lt z y), (lt x z), (lt z x); cbn; naive_solver.
Qed.
Lemma sorted_unique l k : Forall D l -> (forall x y, x ∈ l -> y ∈ l -> lt x y = false -> lt y x = false -> x = y) -> sorted l -> sorted k -> l ≡ₚ k -> l = k.
Proof. intros Hl Ha Hs Hk Hp. apply (StronglySorted_unique_strong (fun x y => lt y x = false)); [| done | done | done]. intros x y Hx Hy H1 H2. rewrite <- Hp in Hy. by apply Ha. Qed.
End Sorting.
(** *** The candidates by value, ties by index *)
Definition in_vocab (v : list spec_float) (i : Z) : Prop := 0 <= i < Zlen v.
Lemma val_number v i : Forall number v -> in_vocab v i -> number (val v i).
Proof. intros Hv Hi. destruct (vlookup_lt_is_Some v i Hi) as [x Hx]. unfold val. rewrite Hx. simpl. unfold vlookup in Hx. destruct (0 <=? i); [| done]. apply list_elem_of_lookup_2 in Hx. rewrite Forall_forall in Hv. by apply Hv. Qed.
Definition precedes (a : (Z * Z * Z) * Z) (b : (Z * Z * Z) * Z) : Prop := below b.1 a.1 \/ a.1 = b.1 /\ a.2 < b.2.
Definition desc_entry (e d : Z * spec_float) : bool := fgt e.2 d.2 || (feq e.2 d.2 && (e.1 <? d.1)).
Lemma desc_entry_spec e d : number e.2 -> number d.2 -> desc_entry e d = true <-> precedes (rank e.2, e.1) (rank d.2, d.1).
Proof. intros He Hd. unfold desc_entry, precedes. rewrite orb_true_iff, andb_true_iff, fgt_spec, feq_spec, Z.ltb_lt by done. done. Qed.
Lemma desc_entry_asym e d : number e.2 -> number d.2 -> desc_entry e d = true -> desc_entry d e = false.
Proof. intros He Hd H. apply not_true_iff_false. rewrite desc_entry_spec in H |- * by done. unfold precedes, below in *. destruct (rank e.2) as [ [] ], (rank d.2) as [ [] ]. simpl in *. rewrite !pair_eq in *. lia. Qed.
Lemma desc_entry_neg e d f : number e.2 -> number d.2 -> number f.2 -> desc_entry e d = false -> desc_entry d f = false -> desc_entry e f = false.
Proof.
  intros He Hd Hf H1 H2. apply not_true_iff_false. apply not_true_iff_false in H1, H2. rewrite desc_entry_spec in H1, H2 |- * by done. unfold precedes, below in *. destruct (rank e.2) as [ [] ], (rank d.2) as [ [] ], (rank f.2) as [ [] ]. simpl in *. rewrite !pair_eq in *. lia.
Qed.
Lemma desc_entry_total e d : number e.2 -> number d.2 -> desc_entry e d = false -> desc_entry d e = false -> e.1 = d.1 /\ rank e.2 = rank d.2.
Proof.
  intros He Hd H1 H2. apply not_true_iff_false in H1, H2. rewrite desc_entry_spec in H1, H2 by done. unfold precedes, below in *. destruct (rank e.2) as [ [] ], (rank d.2) as [ [] ]. simpl in *. rewrite !pair_eq in *. lia.
Qed.
Lemma desc_is v a b : desc v a b = desc_entry (a, val v a) (b, val v b).
Proof. done. Qed.

(** ** The greedy choice *)
Lemma max_value_spec v : Forall number v -> number (max_value v) /\ (max_value v = NINF \/ max_value v ∈ v) /\ Forall (fun y => ~ below (rank (max_value v)) (rank y)) v.
Proof.
  intros Hv. unfold max_value. assert (G : forall m, number m -> let r := foldl (fun mx x => if fgt x mx then x else mx) m v in number r /\ (r = m \/ r ∈ v) /\ ~ below (rank r) (rank m) /\ Forall (fun y => ~ below (rank r) (rank y)) v).
  { induction Hv as [| x v Hx _ IH]; intros m Hm; simpl; [split_and!; [done | by left | unfold below; lia | done] |]. destruct (fgt x m) eqn:E.
    - apply fgt_spec in E; [| done | done]. destruct (IH x Hx) as (I1 & I2 & I3 & I4). split_and!; [done | right; destruct I2 as [-> | I2]; set_solver | unfold below in *; lia | by constructor].
    - destruct (IH m Hm) as (I1 & I2 & I3 & I4). apply (flt_false m x) in E; [| done | done]. split_and!; [done | destruct I2; [by left | right; set_solver] | done | constructor; [| done] ]. destruct E as [E | E]; [unfold below in *; lia | by rewrite <- E]. }
  destruct (G NINF) as (G1 & G2 & _ & G3); [done |]. by split_and!.
Qed.
Lemma find_value_spec x v i : Forall number v -> number x -> Exists (fun y => rank y = rank x) v ->
  exists k y, find_value x v i = i + Z.of_nat k /\ v !! k = Some y /\ rank y = rank x /\ forall j z, (j < k)%nat -> v !! j = Some z -> rank z <> rank x.
Proof.
  intros Hv Hx. revert i. induction Hv as [| y v Hy _ IH]; intros i He; [by apply Exists_nil in He |]. cbn [find_value]. destruct (feq y x) eqn:E.
  - apply feq_spec in E; [| done | done]. exists 0%nat, y. split_and!; [lia | done | done | intros j z Hj; lia].
  - apply Exists_cons in He as [He | He]; [apply feq_spec in He; [congruence | done | done] |]. destruct (IH (i + 1) He) as (k & z & H1 & H2 & H3 & H4). exists (S k), z. split_and!; [lia | done | done |]. intros [| j] u Hj Hu; [injection Hu as ->; intros H; apply feq_spec in H; [congruence | done | done] | apply (H4 j u); [lia | done] ].
Qed.
Lemma val_nat v (k : nat) : val v (Z.of_nat k) = default S754_nan (v !! k).
Proof. unfold val, vlookup. destruct (Z.leb_spec 0 (Z.of_nat k)); [by rewrite Nat2Z.id | lia]. Qed.
Lemma argmax_spec v : Forall number v -> v <> [] ->
  in_vocab v (vec_argmax v) /\ forall j, in_vocab v j -> ~ below (rank (val v (vec_argmax v))) (rank (val v j)) /\ (j < vec_argmax v -> below (rank (val v j)) (rank (val v (vec_argmax v)))).
Proof.
  intros Hv Hne. destruct (max_value_spec v Hv) as (Hm & Hin & Hall). assert (He : Exists (fun y => rank y = rank (max_value v)) v).
  { destruct Hin as [Hin | Hin]; [| apply Exists_exists; by eexists]. destruct v as [| y v]; [done |]. apply Exists_cons. left. rewrite Hin in *. apply Forall_cons in Hall as [Hy _]. clear -Hy. unfold below in Hy. destruct y as [ [] | [] | | [] m e]; simpl in *; try lia; done. }
  destruct (find_value_spec _ v 0 Hv Hm He) as (k & y & H1 & H2 & H3 & H4). unfold vec_argmax. rewrite H1, Z.add_0_l. pose proof (lookup_lt_Some _ _ _ H2). split; [unfold in_vocab, Zlen; lia |]. intros j [Hj1 Hj2]. unfold Zlen in Hj2. destruct (lookup_lt_is_Some_2 v (Z.to_nat j)) as [z Hz]; [lia |].
  rewrite <- (Z2Nat.id j) by lia. rewrite !val_nat, H2, Hz. simpl. rewrite H3. rewrite Forall_forall in Hall. assert (Hz' : ~ below (rank (max_value v)) (rank z)) by (apply Hall; by eapply list_elem_of_lookup_2). split; [done |]. intros Hlt. specialize (H4 (Z.to_nat j) z ltac:(lia) Hz). destruct (rank z) as [ [] ], (rank (max_value v)) as [ [] ]. unfold below in *. simpl in *. rewrite !pair_eq in H4. lia.
Qed.

(** ** The buffer of top_k *)
Notation by_entry := (StronglySorted (fun x y => desc_entry y x = false)).
Definition entry_ok (e : Z * spec_float) : Prop := number e.2.
Lemma take_insert k x l : take k (std_insert desc_entry x (take k l)) = take k (std_insert desc_entry x l).
Proof. revert k. induction l as [| y l IH]; intros [| k]; simpl; [done | done | done |]. destruct (desc_entry y x); simpl; [by rewrite IH |]. f_equal. destruct k as [| k]; [done |]. simpl. f_equal. by rewrite take_take, Nat.min_l by lia. Qed.
Lemma insert_last x l : Forall (fun y => desc_entry y x = true) l -> std_insert desc_entry x l = l ++ [x].
Proof. induction 1 as [| y l Hy _ IH]; simpl; [done |]. by rewrite Hy, IH. Qed.
Lemma insert_before x d l : desc_entry d x = false -> std_insert desc_entry x (l ++ [d]) = std_insert desc_entry x l ++ [d].
Proof. intros H. induction l as [| y l IH]; simpl; [by rewrite H |]. destruct (desc_entry y x); [by rewrite IH | done]. Qed.
(** a new entry has the highest index *)
Lemma desc_new e d : number e.2 -> number d.2 -> d.1 < e.1 -> desc_entry d e = negb (fgt e.2 d.2).
Proof.
  intros He Hd Hi. destruct (fgt e.2 d.2) eqn:E; simpl.
  - apply not_true_iff_false. rewrite desc_entry_spec by done. apply fgt_spec in E; [| done | done]. unfold precedes, below in *. destruct (rank e.2) as [ [] ], (rank d.2) as [ [] ]. simpl in *. rewrite !pair_eq. lia.
  - rewrite desc_entry_spec by done. apply (flt_false d.2 e.2) in E; [| done | done]. unfold precedes. simpl. naive_solver.
Qed.
Lemma all_before e d l : number e.2 -> number d.2 -> Forall entry_ok l -> Forall (fun y => y.1 < e.1) l -> Forall (fun y => desc_entry d y = false) l -> fgt e.2 d.2 = false -> Forall (fun y => desc_entry y e = true) l.
Proof.
  intros He Hd Hl Hi Hs Hf. apply Forall_forall. intros y Hy. rewrite Forall_forall in Hl, Hi, Hs. pose proof (Hs y Hy) as H1. pose proof (Hl y Hy) as H2. specialize (Hi y Hy). apply not_true_iff_false in H1. rewrite desc_entry_spec in H1 |- * by done. apply (flt_false d.2 e.2) in Hf; [| done | done]. unfold precedes, below in *. destruct (rank e.2) as [ [] ], (rank d.2) as [ [] ], (rank y.2) as [ [] ]. simpl in *. rewrite !pair_eq in *. lia.
Qed.
Lemma sorted_app_l {A} (Q : A -> A -> Prop) l k : StronglySorted Q (l ++ k) -> StronglySorted Q l.
Proof. induction l as [| x l IH]; simpl; intros Hs; [constructor |]. inversion Hs as [| ? ? H1 H2]; subst. constructor; [by apply IH | by apply Forall_app in H2 as [? _] ]. Qed.
Lemma insert_rev_spec e l : number e.2 -> Forall entry_ok l -> Forall (fun y => y.1 < e.1) l -> by_entry l -> insert_rev (rev l) e = rev (std_insert desc_entry e l).
Proof.
  intros He. induction l as [| d l IH] using rev_ind; intros Hl Hi Hs; [done |]. apply Forall_app in Hl as [Hl [Hd _]%Forall_cons], Hi as [Hi [Hid _]%Forall_cons]. rewrite rev_app_distr. cbn [rev app insert_rev]. pose proof (desc_new e d He Hd Hid) as Hn. destruct (fgt e.2 d.2) eqn:E; simpl in Hn.
  - rewrite insert_before, rev_app_distr by done. simpl. f_equal. apply IH; [done | done |]. by apply sorted_app_l in Hs.
  - rewrite insert_last; [by rewrite !rev_app_distr |]. apply Forall_app. split; [| by constructor]. apply (all_before e d); [done | done | done | done | | done]. clear -Hs. induction l as [| y l IH]; [constructor |]. inversion Hs as [| ? ? H1 H2]; subst. constructor; [| by apply IH]. by apply Forall_app in H2 as [_ [? _]%Forall_cons].
Qed.
Lemma topk_step_spec k e T : 1 <= k -> number e.2 -> Forall entry_ok T -> Forall (fun y => y.1 < e.1) T -> by_entry T ->
  topk_step k (rev (take (Z.to_nat k) T)) e = rev (take (Z.to_nat k) (std_insert desc_entry e T)).
Proof.
  intros Hk He Hok Hi Hs. rewrite <- (take_insert (Z.to_nat k) e T). set (b := take (Z.to_nat k) T). assert (Hlen : Zlen b <= k) by (unfold Zlen, b; rewrite length_take; lia).
  assert (Hb : Forall entry_ok b /\ Forall (fun y => y.1 < e.1) b /\ by_entry b) by (rewrite <- (take_drop (Z.to_nat k) T) in Hok, Hi, Hs; fold b in Hok, Hi, Hs; apply Forall_app in Hok as [? _], Hi as [? _]; apply sorted_app_l in Hs; done). destruct Hb as (Hb1 & Hb2 & Hb3). unfold topk_step. rewrite Zlen_rev.
  assert (Hil : length (std_insert desc_entry e b) = S (length b)) by (rewrite (std_insert_perm desc_entry e b); done).
  destruct ((Zlen b =? k) && match rev b with d :: _ => negb (fgt e.2 d.2) | [] => false end) eqn:E.
  - apply andb_true_iff in E as [E1 E2]. destruct (rev b) as [| d rest] eqn:Er; [done |]. assert (Eb : b = rev rest ++ [d]) by (by rewrite <- (rev_involutive b), Er). rewrite <- Er. f_equal. rewrite Eb in Hb1, Hb2, Hb3. apply Forall_app in Hb1 as [B1 [Bd _]%Forall_cons], Hb2 as [B2 [Bi _]%Forall_cons]. apply negb_true_iff in E2.
    rewrite insert_last; [rewrite take_app_le by (unfold Zlen in *; lia); symmetry; apply take_ge; unfold Zlen in *; lia |]. rewrite Eb. apply Forall_app. split; [| constructor; [by rewrite desc_new, E2 | constructor] ]. apply (all_before e d); [done | done | done | done | | done]. clear -Hb3. induction (rev rest) as [| y l IH]; [constructor |]. inversion Hb3 as [| ? ? H1 H2]; subst. constructor; [| by apply IH]. by apply Forall_app in H2 as [_ [? _]%Forall_cons].
  - rewrite (insert_rev_spec e b), Zlen_rev by done. set (x := std_insert desc_entry e b) in *. destruct (Z.ltb_spec k (Zlen x)) as [Hlt | Hge].
    + destruct x as [| y x _] using rev_ind; [done |]. rewrite rev_app_distr. simpl. f_equal. rewrite length_app in Hil. simpl in Hil. rewrite Zlen_app, Zlen_cons, Zlen_nil in Hlt. unfold Zlen in *. rewrite take_app_le by lia. symmetry. apply take_ge. lia.
    + f_equal. symmetry. apply take_ge. unfold Zlen in Hge. lia.
Qed.
Lemma indexed_sorted (l : list (Z * spec_float)) e : Forall entry_ok (l ++ [e]) -> NoDup (l ++ [e]).*1 -> sorted_by desc_entry (l ++ [e]) = std_insert desc_entry e (sorted_by desc_entry l).
Proof.
  intros Hok Hnd. pose proof Hok as Hok'. apply Forall_app in Hok' as [Hl [He _]%Forall_cons]. apply (sorted_unique desc_entry entry_ok).
  - by rewrite sorted_by_perm.
  - intros x y Hx Hy H1 H2. rewrite sorted_by_perm in Hx, Hy. rewrite Forall_forall in Hok. destruct (desc_entry_total x y) as [Hi _]; [by apply Hok | by apply Hok | done | done |]. apply list_elem_of_lookup in Hx as [i Hx], Hy as [j Hy]. assert (i = j) as -> by (eapply NoDup_lookup; [exact Hnd | rewrite list_lookup_fmap, Hx; done | rewrite list_lookup_fmap, Hy; simpl; by rewrite Hi]). congruence.
  - apply (sorted_by_sorted desc_entry entry_ok); [apply desc_entry_asym | apply desc_entry_neg | done].
  - apply (std_insert_sorted desc_entry entry_ok); [apply desc_entry_asym | apply desc_entry_neg | done | by rewrite sorted_by_perm |]. apply (sorted_by_sorted desc_entry entry_ok); [apply desc_entry_asym | apply desc_entry_neg | done].
  - rewrite std_insert_perm, !sorted_by_perm. by rewrite (Permutation_app_comm l [e]).
Qed.
(** the indices of the entries rise *)
Notation rising := (StronglySorted (fun x y : Z * spec_float => x.1 < y.1)).
Lemma rising_last l e : rising (l ++ [e]) -> rising l /\ Forall (fun y => y.1 < e.1) l /\ NoDup (l ++ [e]).*1.
Proof.
  intros H. split_and!; [by apply sorted_app_l in H | |].
  - clear -H. induction l as [| y l IH]; [constructor |]. inversion H as [| ? ? H1 H2]; subst. constructor; [by apply Forall_app in H2 as [_ [? _]%Forall_cons] | by apply IH].
  - induction H as [| x k _ IH Hx]; [constructor |]. simpl. constructor; [| done]. intros Hin. apply list_elem_of_fmap in Hin as (y & Ey & Hy). rewrite Forall_forall in Hx. specialize (Hx y Hy). lia.
Qed.
Lemma topk_loop k l : 1 <= k -> Forall entry_ok l -> rising l -> foldl (topk_step k) [] l = rev (take (Z.to_nat k) (sorted_by desc_entry l)).
Proof.
  intros Hk. induction l as [| e l IH] using rev_ind; intros Hok Hr; [by destruct (Z.to_nat k) |]. destruct (rising_last l e Hr) as (R1 & R2 & R3). pose proof Hok as Hok'. apply Forall_app in Hok' as [Hl [He _]%Forall_cons]. rewrite foldl_snoc, IH, indexed_sorted by done.
  apply topk_step_spec; [done | done | by rewrite sorted_by_perm | by rewrite sorted_by_perm |]. apply (sorted_by_sorted desc_entry entry_ok); [apply desc_entry_asym | apply desc_entry_neg | done].
Qed.
Lemma zip_rising v : forall a, rising (zip (zrange a (a + Zlen v)) v) /\ Forall (fun e => a <= e.1) (zip (zrange a (a + Zlen v)) v).
Proof.
  induction v as [| x v IH]; intros a; [rewrite Zlen_nil, Z.add_0_r; unfold zrange; rewrite Z.sub_diag; split; constructor |]. rewrite Zlen_cons, zrange_cons by (pose proof (Zlen_nonneg v); lia). replace (a + (1 + Zlen v)) with (a + 1 + Zlen v) by lia. destruct (IH (a + 1)) as [H1 H2]. cbn [zip zip_with].
  split; constructor; [done | | simpl; lia |]; (eapply Forall_impl; [exact H2 |]); intros e He; simpl in *; lia.
Qed.
Lemma indexed_numbers v : Forall number v -> Forall entry_ok (indexed v).
Proof. intros Hv. unfold indexed. generalize (zrange 0 (Zlen v)). induction Hv as [| x v Hx _ IH]; intros [| i l]; simpl; try constructor; [done | apply IH]. Qed.
(** The one-pass selection of the best log-probabilities is a sort: for values without NaN the insertion
    buffer of top_k ends as the first k entries of all indices sorted by value, best first, with the lower index first among
    equal values. *)
Theorem top_k_exact (v : list spec_float) (k : Z) : Forall number v -> vec_top_k v k = take (Z.to_nat k) (sorted_by desc_entry (indexed v)).
Proof.
  intros Hv. unfold vec_top_k. destruct (Z.leb_spec k 0) as [Hk | Hk]; [by replace (Z.to_nat k) with 0%nat by lia |]. destruct (zip_rising v 0) as [Hr _]. rewrite Z.add_0_l in Hr. rewrite topk_loop, rev_involutive by (lia || by apply indexed_numbers || done). done.
Qed.

(** the buffer never holds more than [k] entries, whatever the values *)
Lemma insert_rev_length l e : length (insert_rev l e) = S (length l).
Proof. induction l as [| d l IH]; simpl; [done |]. destruct (fgt _ _); simpl; lia. Qed.
Lemma vec_top_k_length v k : Zlen (vec_top_k v k) <= Z.max 0 k.
Proof.
  unfold vec_top_k. destruct (Z.leb_spec k 0) as [H | H]; [unfold Zlen; simpl; lia |]. rewrite Zlen_rev. assert (G : forall l b, Zlen b <= k -> Zlen (foldl (topk_step k) b l) <= k); [| specialize (G (indexed v) [] ltac:(unfold Zlen; simpl; lia)); lia]. induction l as [| e l IH]; intros b Hb; [done |]. cbn [foldl]. apply IH. unfold topk_step. destruct (_ && _); [done |].
  pose proof (insert_rev_length b e) as Hl. destruct (Z.ltb_spec k (Zlen (insert_rev b e))) as [H1 | H1]; [| done]. destruct (insert_rev b e) as [| x t]; [done |]. unfold Zlen in *. simpl in *. lia.
Qed.

(** ** Rounding is monotone

    Numbers are counted in units of 2^-149 (the smallest binary32) or, as products, of 2^-298. *)
Definition units (x : spec_float) : Z := match x with S754_finite s m e => cond_Zopp s (Zpos m * 2 ^ (e + 149)) | _ => 0 end.
Definition nearest (n q : Z) : Z :=
  let k := n / 2 ^ q in let r := 2 * (n mod 2 ^ q) in
  if r <? 2 ^ q then k else if 2 ^ q <? r then k + 1 else if Z.even k then k else k + 1.
(** the exponent at which a product is cut, and the product rounded *)
Definition cut_below (n : Z) : Z := Z.max (Z.log2 n + 1 - 24) 149.
Definition rounded (n : Z) : Z := nearest n (cut_below n) * 2 ^ cut_below n.

Lemma nearest_mono n m q : 0 <= q -> n <= m -> nearest n q <= nearest m q.
Proof.
  intros Hq Hn. unfold nearest. pose proof (Z.pow_pos_nonneg 2 q ltac:(lia) Hq) as Hh. set (h := 2 ^ q) in *.
  pose proof (Z.div_mod n h ltac:(lia)). pose proof (Z.div_mod m h ltac:(lia)). pose proof (Z.mod_pos_bound n h Hh). pose proof (Z.mod_pos_bound m h Hh).
  set (a := n / h) in *. set (b := m / h) in *. assert (a <= b) by (unfold a, b; by apply Z.div_le_mono). destruct (decide (a = b)) as [E | E].
  - rewrite E in *. assert (n mod h <= m mod h) by lia. repeat case_match; lia.
  - assert (a + 1 <= b) by lia. repeat case_match; lia.
Qed.
Lemma nearest_between n q a b : 0 <= q -> a * 2 ^ q <= n <= b * 2 ^ q -> a <= nearest n q <= b.
Proof.
  intros Hq [H1 H2]. pose proof (Z.pow_pos_nonneg 2 q ltac:(lia) Hq) as Hh. assert (Hx : forall k, nearest (k * 2 ^ q) q = k).
  { intros k. unfold nearest. rewrite Z.mod_mul, Z.div_mul by lia. rewrite Z.mul_0_r, (proj2 (Z.ltb_lt _ _)) by lia. done. }
  split; [rewrite <- (Hx a) | rewrite <- (Hx b)]; by apply nearest_mono.
Qed.
Lemma nearest_exact k q : 0 <= q -> nearest (k * 2 ^ q) q = k.
Proof. intros Hq. pose proof (nearest_between (k * 2 ^ q) q k k Hq). lia. Qed.
Lemma log2_bounds n : 0 < n -> 2 ^ Z.log2 n <= n < 2 ^ (Z.log2 n + 1).
Proof. intros H. pose proof (Z.log2_spec n H). rewrite Z.add_1_r. lia. Qed.
Lemma rounded_mono n m : 0 <= n <= m -> rounded n <= rounded m.
Proof.
  intros [H0 H]. assert (Hq : 149 <= cut_below n <= cut_below m) by (pose proof (Z.log2_le_mono n m H); unfold cut_below; lia). unfold rounded. destruct (decide (cut_below n = cut_below m)) as [E | E].
  - rewrite E. apply Z.mul_le_mono_nonneg_r; [lia |]. apply nearest_mono; lia.
  - assert (Hc : cut_below m = Z.log2 m + 1 - 24) by (unfold cut_below in *; lia). assert (Hm : 0 < m). { destruct (decide (m = 0)) as [-> | ?]; [| lia]. assert (n = 0) as -> by lia. done. }
    pose proof (log2_bounds m Hm) as Hb. set (p := 2 ^ (Z.log2 m)) in *. assert (Hlo : p <= nearest m (cut_below m) * 2 ^ cut_below m).
    { destruct (nearest_between m (cut_below m) (2 ^ 23) (2 ^ 24)) as [Hl _]; [lia | |]; rewrite Hc in *. { rewrite <- !Z.pow_add_r by lia. replace (23 + (Z.log2 m + 1 - 24)) with (Z.log2 m) by lia. replace (24 + (Z.log2 m + 1 - 24)) with (Z.log2 m + 1) by lia. fold p. lia. }
      etransitivity; [| apply Z.mul_le_mono_nonneg_r; [lia | exact Hl] ]. unfold p. rewrite <- Z.pow_add_r by lia. apply Z.pow_le_mono_r; lia. }
    etransitivity; [| exact Hlo]. destruct (decide (n = 0)) as [-> | Hn]; [unfold nearest; rewrite Z.mod_0_l, Z.div_0_l by lia; rewrite (proj2 (Z.ltb_lt _ _)) by lia; lia |].
    pose proof (log2_bounds n ltac:(lia)) as Hbn. assert (Hx : Z.log2 n + 1 <= Z.log2 m) by (unfold cut_below in *; lia).
    destruct (nearest_between n (cut_below n) 0 (2 ^ (Z.log2 m - cut_below n))) as [_ Hu]; [lia | split; [lia |]; rewrite <- Z.pow_add_r by lia; replace (Z.log2 m - cut_below n + cut_below n) with (Z.log2 m) by lia; pose proof (Z.pow_le_mono_r 2 _ _ ltac:(lia) Hx); lia |].
    etransitivity; [apply Z.mul_le_mono_nonneg_r; [lia | exact Hu] |]. rewrite <- Z.pow_add_r by lia. unfold p. apply Z.pow_le_mono_r; lia.
Qed.
(** [m] with its round and sticky bits stands for [n] shifted to the right *)
Definition shifted (n h : Z) (x : shr_record) : Prop :=
  shr_m x = n / h /\ (shr_r x = true <-> h <= 2 * (n mod h)) /\ (shr_s x = true <-> n mod h <> 0 /\ 2 * (n mod h) <> h).
Lemma shr_1_shifted n h x : 0 <= n -> 0 < h -> shifted n h x -> shifted n (h * 2) (shr_1 x).
Proof.
  intros Hn Hh (H1 & H2 & H3). destruct x as [m r s]. cbn [shr_m shr_r shr_s] in *. pose proof (Z.div_mod n h ltac:(lia)) as D1. pose proof (Z.div_mod n (h * 2) ltac:(lia)) as D2. pose proof (Z.mod_pos_bound n h Hh) as B1. pose proof (Z.mod_pos_bound n (h * 2) ltac:(lia)) as B2. pose proof (Z.div_pos n h Hn Hh) as P1.
  rewrite <- H1 in *. set (a := n mod h) in *. set (b := n mod (h * 2)) in *. rewrite <- Z.div_div, <- H1 in D2 by lia. pose proof (Z.div_mod m 2 ltac:(lia)) as D3. pose proof (Z.mod_pos_bound m 2 ltac:(lia)) as B3.
  assert (Hb : b = h * (m mod 2) + a) by nia. unfold shifted. fold b. rewrite <- Z.div_div, <- H1 by lia.
  assert (Hs : forall r', (r' = true <-> m mod 2 = 1) -> (r' = true <-> h * 2 <= 2 * b) /\ (r || s = true <-> b <> 0 /\ 2 * b <> h * 2)).
  { intros r' Hr. rewrite Hr, orb_true_iff, H2, H3, Hb. assert (m mod 2 = 0 \/ m mod 2 = 1) as [-> | ->] by lia; lia. }
  destruct m as [| [p | p |] | p]; [| | | | lia]; cbn [shr_1 shr_m shr_r shr_s].
  - split; [done |]. apply Hs. by split.
  - split; [rewrite Pos2Z.inj_xI, Z.mul_comm, Z.div_add_l by lia; change (1 / 2) with 0; lia |]. apply Hs. rewrite Pos2Z.inj_xI, Z.add_comm, Z.mul_comm, Z.mod_add by lia. by split.
  - split; [rewrite Pos2Z.inj_xO, Z.mul_comm, Z.div_mul by lia; lia |]. apply Hs. rewrite Pos2Z.inj_xO, Z.mul_comm, Z.mod_mul by lia. by split.
  - split; [done |]. apply Hs. by split.
Qed.
Lemma iter_pos_nat {A} (f : A -> A) p : forall x, iter_pos f p x = Nat.iter (Pos.to_nat p) f x.
Proof.
  induction p as [p IH | p IH |]; intros x; cbn [iter_pos]; [| | done].
  - rewrite !IH, Pos2Nat.inj_xI, <- Nat.iter_add. replace (S (2 * Pos.to_nat p))%nat with (Pos.to_nat p + Pos.to_nat p + 1)%nat by lia. by rewrite (Nat.iter_add (Pos.to_nat p + Pos.to_nat p) 1).
  - rewrite !IH, Pos2Nat.inj_xO, <- Nat.iter_add. f_equal. lia.
Qed.
Lemma shr_shifted n p : 0 <= n -> shifted n (2 ^ Zpos p) (iter_pos shr_1 p (Build_shr_record n false false)).
Proof.
  intros Hn. rewrite iter_pos_nat, <- (positive_nat_Z p). induction (Pos.to_nat p) as [| k IH].
  - split; [by rewrite Z.div_1_r |]. cbn [shr_r shr_s]. change (2 ^ Z.of_nat 0) with 1. rewrite Z.mod_1_r. split; split; intros; try done; lia.
  - cbn [Nat.iter nat_rect]. rewrite Nat2Z.inj_succ, Z.pow_succ_r, Z.mul_comm by lia. apply shr_1_shifted; [done | lia | exact IH].
Qed.
Lemma shifted_nearest n q x : shifted n (2 ^ q) x -> round_nearest_even (shr_m x) (loc_of_shr_record x) = nearest n q.
Proof.
  intros (H1 & H2 & H3). destruct x as [m r s]. cbn [shr_m shr_r shr_s] in *. unfold nearest. rewrite <- H1.
  destruct r, s; cbn [loc_of_shr_record round_nearest_even]; destruct (Z.ltb_spec (2 * (n mod 2 ^ q)) (2 ^ q)), (Z.ltb_spec (2 ^ q) (2 * (n mod 2 ^ q))); try done; exfalso.
  all: destruct H2 as [H2 H2'], H3 as [H3 H3']; try specialize (H2 eq_refl); try specialize (H3 eq_refl); try lia.
  all: try (assert (true = false -> False) by done); destruct (decide (n mod 2 ^ q = 0)) as [E | E]; try (assert (false = true) by (apply H2'; lia); done); try (assert (false = true) by (apply H3'; lia); done); lia.
Qed.
Lemma digits_log2 p : Zpos (digits2_pos p) = Z.log2 (Zpos p) + 1.
Proof.
  induction p as [p IH | p IH |]; [| | done]; cbn [digits2_pos]; rewrite Pos2Z.inj_succ, IH.
  - rewrite Pos2Z.inj_xI. rewrite Z.log2_succ_double by lia. lia.
  - rewrite Pos2Z.inj_xO, Z.log2_double by lia. lia.
Qed.
Lemma nearest_scale n p j : 0 <= p -> 0 <= j -> nearest (n * 2 ^ j) (p + j) = nearest n p.
Proof.
  intros Hp Hj. unfold nearest. pose proof (Z.pow_pos_nonneg 2 p ltac:(lia) Hp). pose proof (Z.pow_pos_nonneg 2 j ltac:(lia) Hj). rewrite Z.pow_add_r by lia. rewrite Z.mul_mod_distr_r, Z.div_mul_cancel_r by lia.
  rewrite Z.mul_assoc. assert (E : forall a b, (a * 2 ^ j <? b * 2 ^ j) = (a <? b)) by (intros a b; destruct (Z.ltb_spec a b), (Z.ltb_spec (a * 2 ^ j) (b * 2 ^ j)); nia). by rewrite !E.
Qed.
Lemma cut_scaled m e : -298 <= e -> cut_below (Zpos m * 2 ^ (e + 298)) = fexp 24 128 (Zpos (digits2_pos m) + e) + 298.
Proof. intros He. unfold cut_below, fexp. rewrite Z.log2_mul_pow2 by lia. rewrite digits_log2. change (emin 24 128) with (-149). lia. Qed.
(** the first shift, to the exponent of the result *)
Lemma first_shift m e : -298 <= e -> exists k e1, 
  (let '(x, e') := shr_fexp 24 128 (Zpos m) e loc_Exact in (round_nearest_even (shr_m x) (loc_of_shr_record x), e')) = (k, e1) /\
  -149 <= e1 /\ 0 <= k <= 2 ^ 24 /\ k * 2 ^ (e1 + 298) = rounded (Zpos m * 2 ^ (e + 298)) /\ (e <= fexp 24 128 (Zpos (digits2_pos m) + e) -> -149 < e1 -> 2 ^ 23 <= k).
Proof.
  intros He. unfold shr_fexp. cbn [shr_record_of_loc Zdigits2]. unfold rounded. rewrite cut_scaled by done. set (f := fexp 24 128 (Zpos (digits2_pos m) + e)) in *.
  assert (Hf : f = Z.max (Z.log2 (Zpos m) + 1 + e - 24) (-149)) by (unfold f, fexp; rewrite digits_log2; change (emin 24 128) with (-149); lia). pose proof (log2_bounds (Zpos m) ltac:(lia)) as Hm. pose proof (Z.log2_nonneg (Zpos m)) as Hl. unfold shr. destruct (f - e) as [| p | p] eqn:Ef.
  - exists (Zpos m), e. assert (f = e) by lia. split; [done |]. split; [lia |]. assert (Hu : Zpos m <= 2 ^ 24) by (pose proof (Z.pow_le_mono_r 2 (Z.log2 (Zpos m) + 1) 24 ltac:(lia) ltac:(lia)); lia). split; [lia |]. split; [replace f with e by lia; by rewrite nearest_exact by lia |].
    intros _ He'. assert (Z.log2 (Zpos m) = 23) as El by lia. rewrite El in Hm. lia.
  - exists (nearest (Zpos m) (Zpos p)), (e + Zpos p). split; [f_equal; apply shifted_nearest, shr_shifted; lia |]. split; [lia |].
    assert (Hu : 0 <= nearest (Zpos m) (Zpos p) <= 2 ^ 24). { apply nearest_between; [lia |]. split; [lia |]. rewrite <- Z.pow_add_r by lia. pose proof (Z.pow_le_mono_r 2 (Z.log2 (Zpos m) + 1) (24 + Zpos p) ltac:(lia) ltac:(lia)). lia. }
    split; [done |]. split; [replace (f + 298) with (Zpos p + (e + 298)) by lia; rewrite nearest_scale by lia; f_equal; f_equal; lia |].
    intros _ He'. apply (nearest_between (Zpos m) (Zpos p) (2 ^ 23) (2 ^ 24)); [lia |]. rewrite <- !Z.pow_add_r by lia. replace (23 + Zpos p) with (Z.log2 (Zpos m)) by lia. replace (24 + Zpos p) with (Z.log2 (Zpos m) + 1) by lia. lia.
  - exists (Zpos m), e. split; [done |]. split; [lia |]. assert (Hu : Zpos m <= 2 ^ 24) by (pose proof (Z.pow_le_mono_r 2 (Z.log2 (Zpos m) + 1) 24 ltac:(lia) ltac:(lia)); lia). split; [lia |].
    split; [| lia]. assert (Ee : e + 298 = Zpos p + (f + 298)) by lia. rewrite Ee, Z.pow_add_r, Z.mul_assoc by lia. by rewrite nearest_exact by lia.
Qed.
Definition of_parts (s : bool) (m e : Z) : spec_float :=
  match m with Z0 => S754_zero s | Zpos m => if e <=? 104 then S754_finite s m e else S754_infinity s | Zneg _ => S754_nan end.
Lemma round_aux_spec s m e : -298 <= e -> exists m' e', binary_round_aux 24 128 s (Zpos m) e loc_Exact = of_parts s m' e' /\
  -149 <= e' /\ 0 <= m' /\ m' * 2 ^ (e' + 298) = rounded (Zpos m * 2 ^ (e + 298)) /\ (e <= fexp 24 128 (Zpos (digits2_pos m) + e) -> (e' <= 104 <-> rounded (Zpos m * 2 ^ (e + 298)) < 2 ^ 426)).
Proof.
  intros He. destruct (first_shift m e He) as (k & e1 & E & He1 & Hk & Hv & Hn). unfold binary_round_aux. destruct (shr_fexp 24 128 (Zpos m) e loc_Exact) as [x e']. injection E as -> ->. rewrite <- Hv in *. clear Hv. change (128 - 24) with 104.
  destruct (decide (k = 2 ^ 24)) as [-> | Hk'].
  - exists (2 ^ 23), (e1 + 1). assert (E2 : shr_fexp 24 128 (2 ^ 24) e1 loc_Exact = (Build_shr_record (2 ^ 23) false false, e1 + 1)).
    { unfold shr_fexp. change (Zdigits2 (2 ^ 24)) with 25. unfold fexp. change (emin 24 128) with (-149). replace (Z.max (25 + e1 - 24) (-149) - e1) with 1 by lia. reflexivity. }
    rewrite E2. split; [reflexivity |]. split; [lia |]. split; [lia |]. split; [rewrite <- !Z.pow_add_r by lia; f_equal; lia |]. intros _. rewrite <- Z.pow_add_r by lia. rewrite <- Z.pow_lt_mono_r_iff by lia. lia.
  - exists k, e1. assert (E2 : shr_fexp 24 128 k e1 loc_Exact = (Build_shr_record k false false, e1)).
    { unfold shr_fexp, shr, fexp. change (emin 24 128) with (-149). assert (Hd : Zdigits2 k <= 24). { destruct k as [| q | q]; [done | | lia]. cbn [Zdigits2]. rewrite digits_log2. assert (Z.log2 (Zpos q) < 24) by (apply Z.log2_lt_pow2; lia). lia. } destruct (Z.max (Zdigits2 k + e1 - 24) (-149) - e1) eqn:Es; [done | lia | done]. }
    rewrite E2. split; [reflexivity |]. split; [lia |]. split; [lia |]. split; [done |]. intros Hc. specialize (Hn Hc). split.
    + intros H. assert (k * 2 ^ (e1 + 298) < 2 ^ 24 * 2 ^ (e1 + 298)) by (apply Z.mul_lt_mono_pos_r; lia). rewrite <- Z.pow_add_r in * by lia. pose proof (Z.pow_le_mono_r 2 (24 + (e1 + 298)) 426 ltac:(lia) ltac:(lia)). lia.
    + intros H. destruct (Z.le_gt_cases e1 104) as [| Hg]; [done | exfalso]. specialize (Hn ltac:(lia)). assert (2 ^ 23 * 2 ^ (e1 + 298) <= k * 2 ^ (e1 + 298)) by (apply Z.mul_le_mono_nonneg_r; lia). rewrite <- Z.pow_add_r in * by lia. pose proof (Z.pow_le_mono_r 2 426 (23 + (e1 + 298)) ltac:(lia) ltac:(lia)). lia.
Qed.
Lemma shl_align_spec m e e' : e' <= e -> Zpos (fst (shl_align m e e')) = Zpos m * 2 ^ (e - e').
Proof.
  intros H. unfold shl_align. destruct (e' - e) as [| p | p] eqn:E; [replace (e - e') with 0 by lia; cbn [fst]; lia | lia |]. cbn [fst]. replace (e - e') with (Zpos p) by lia. clear E. change (Zpos (Pos.iter xO m p) = Zpos m * 2 ^ Zpos p). induction p as [| p IH] using Pos.peano_ind; [simpl; lia |].
  rewrite Pos.iter_succ, Pos2Z.inj_xO, IH, Pos2Z.inj_succ, Z.pow_succ_r by lia. ring.
Qed.
Lemma round_spec s m e : -298 <= e -> exists m' e', binary_round 24 128 s m e = of_parts s m' e' /\
  -149 <= e' /\ 0 <= m' /\ m' * 2 ^ (e' + 298) = rounded (Zpos m * 2 ^ (e + 298)) /\ (e' <= 104 <-> rounded (Zpos m * 2 ^ (e + 298)) < 2 ^ 426).
Proof.
  intros He. unfold binary_round. set (f := fexp 24 128 (Zpos (digits2_pos m) + e)). assert (Hf : -149 <= f) by (unfold f, fexp; change (emin 24 128) with (-149); lia).
  assert (G : exists mz ez, shl_align m e f = (mz, ez) /\ -298 <= ez /\ Zpos mz * 2 ^ (ez + 298) = Zpos m * 2 ^ (e + 298) /\ ez <= fexp 24 128 (Zpos (digits2_pos mz) + ez)).
  { destruct (Z.le_gt_cases e f) as [Hle | Hgt].
    - exists m, e. split; [unfold shl_align; destruct (f - e) eqn:E; [done | done | lia] |]. split; [done |]. split; [done | exact Hle].
    - exists (fst (shl_align m e f)), f. split; [unfold shl_align; destruct (f - e) eqn:E; [lia | lia | done] |]. split; [lia |]. rewrite shl_align_spec by lia.
      split; [rewrite <- Z.mul_assoc, <- Z.pow_add_r by lia; f_equal; f_equal; lia |]. rewrite digits_log2, shl_align_spec by lia. rewrite Z.log2_mul_pow2 by lia. unfold f at 1. unfold fexp. rewrite digits_log2. lia. }
  destruct G as (mz & ez & -> & Hz & Hv & Hc). destruct (round_aux_spec s mz ez Hz) as (m' & e' & H1 & H2 & H3 & H4 & H5). rewrite Hv in *. exists m', e'. split_and!; [done | done | done | done | by apply H5].
Qed.

(** [x] is a number of [u] units, not negative *)
Definition measures (x : spec_float) (u : Z) : Prop := (exists s, x = S754_zero s) /\ u = 0 \/ exists m e, x = S754_finite false m e /\ -149 <= e /\ u = Zpos m * 2 ^ (e + 149).
Lemma of_parts_measures m e n : -149 <= e -> 0 <= m -> m * 2 ^ (e + 298) = n -> e <= 104 -> exists u, measures (of_parts false m e) u /\ u * 2 ^ 149 = n.
Proof.
  intros He Hm <- Hl. exists (m * 2 ^ (e + 149)). split; [| rewrite <- Z.mul_assoc, <- Z.pow_add_r by lia; f_equal; f_equal; lia]. unfold of_parts. rewrite (proj2 (Z.leb_le e 104)) by done. destruct m as [| m | m]; [left; by eauto | right; by eauto | lia].
Qed.
Definition binary32 (x : spec_float) : Prop := valid_binary 24 128 x = true.
Definition finite (x : spec_float) : Prop := match x with S754_zero _ | S754_finite _ _ _ => True | _ => False end.
Lemma binary32_parts s m e : binary32 (S754_finite s m e) -> fexp 24 128 (Zpos (digits2_pos m) + e) = e /\ -149 <= e <= 104 /\ Zpos m < 2 ^ 24 /\ (-149 < e -> 2 ^ 23 <= Zpos m).
Proof.
  unfold binary32, valid_binary, bounded, canonical_mantissa. rewrite andb_true_iff, Z.eqb_eq, Z.leb_le. intros [H1 H2]. change (128 - 24) with 104 in H2. split; [done |]. unfold fexp in H1. change (emin 24 128) with (-149) in H1. rewrite digits_log2 in H1. pose proof (log2_bounds (Zpos m) ltac:(lia)) as Hb. split; [lia |]. split.
  - pose proof (Z.pow_le_mono_r 2 (Z.log2 (Zpos m) + 1) 24 ltac:(lia) ltac:(lia)). lia.
  - intros He. replace 23 with (Z.log2 (Zpos m)) by lia. lia.
Qed.
Lemma rounded_binary32 s m e : binary32 (S754_finite s m e) -> rounded (Zpos m * 2 ^ (e + 298)) = Zpos m * 2 ^ (e + 298) /\ rounded (Zpos m * 2 ^ (e + 298)) < 2 ^ 426.
Proof.
  intros H. apply binary32_parts in H as (Hf & He & Hm & _). assert (E : rounded (Zpos m * 2 ^ (e + 298)) = Zpos m * 2 ^ (e + 298)) by (unfold rounded; rewrite cut_scaled, Hf, nearest_exact by lia; done). split; [done |]. rewrite E. assert (Zpos m * 2 ^ (e + 298) < 2 ^ 24 * 2 ^ (e + 298)) by (apply Z.mul_lt_mono_pos_r; lia). rewrite <- Z.pow_add_r in * by lia. pose proof (Z.pow_le_mono_r 2 (24 + (e + 298)) 426 ltac:(lia) ltac:(lia)). lia.
Qed.
Lemma rounded_0 : rounded 0 = 0.
Proof. vm_compute. reflexivity. Qed.
Lemma fsub_spec x y : binary32 x -> binary32 y -> finite x -> finite y -> units y <= units x ->
  let n := rounded ((units x - units y) * 2 ^ 149) in if n <? 2 ^ 426 then exists u, measures (fsub x y) u /\ u * 2 ^ 149 = n else fsub x y = S754_infinity false.
Proof.
  intros Vx Vy Fx Fy Hle. cbv zeta. assert (Hs : forall s m e, binary32 (S754_finite s m e) -> forall n, n = Zpos m * 2 ^ (e + 149) * 2 ^ 149 -> if rounded n <? 2 ^ 426 then exists u, measures (S754_finite false m e) u /\ u * 2 ^ 149 = rounded n else S754_finite false m e = S754_infinity false).
  { intros s m e V n ->. pose proof (rounded_binary32 s m e V) as [R1 R2]. apply binary32_parts in V as (_ & He & _). rewrite <- Z.mul_assoc, <- Z.pow_add_r by lia. replace (e + 149 + 149) with (e + 298) by lia. rewrite (proj2 (Z.ltb_lt _ _) R2), R1. exists (Zpos m * 2 ^ (e + 149)). split; [right; exists m, e; split_and!; [done | lia | done] |]. rewrite <- Z.mul_assoc, <- Z.pow_add_r by lia. f_equal. f_equal. lia. }
  destruct x as [sx | | | sx mx ex], y as [sy | | | sy my ey]; try done; unfold units in *; cbn [cond_Zopp] in *.
  - change ((0 - 0) * 2 ^ 149) with 0. rewrite rounded_0. change (0 <? 2 ^ 426) with true. exists 0. split; [left; split; [| done]; destruct sx, sy; by eexists | done].
  - destruct sy; [| pose proof (Z.pow_nonneg 2 (ey + 149)); apply binary32_parts in Vy as (_ & ? & _); cbn [cond_Zopp] in Hle; lia]. cbn [cond_Zopp fsub SFsub negb]. eapply Hs; [exact Vy |]. lia.
  - destruct sx; [pose proof (Z.pow_pos_nonneg 2 (ex + 149)); apply binary32_parts in Vx as (_ & ? & _); cbn [cond_Zopp] in Hle; lia |]. cbn [cond_Zopp fsub SFsub]. eapply Hs; [exact Vx |]. lia.
  - apply binary32_parts in Vx as (_ & Hx & _), Vy as (_ & Hy & _). unfold fsub, SFsub. cbv zeta. set (ez := Z.min ex ey). set (d := cond_Zopp sx (Zpos (fst (shl_align mx ex ez))) - cond_Zopp sy (Zpos (fst (shl_align my ey ez)))).
    assert (Hd : d * 2 ^ (ez + 149) = cond_Zopp sx (Zpos mx * 2 ^ (ex + 149)) - cond_Zopp sy (Zpos my * 2 ^ (ey + 149))).
    { unfold d. rewrite !shl_align_spec by lia. assert (Ex : 2 ^ (ex + 149) = 2 ^ (ex - ez) * 2 ^ (ez + 149)) by (rewrite <- Z.pow_add_r by lia; f_equal; lia). assert (Ey : 2 ^ (ey + 149) = 2 ^ (ey - ez) * 2 ^ (ez + 149)) by (rewrite <- Z.pow_add_r by lia; f_equal; lia). rewrite Ex, Ey. destruct sx, sy; cbn [cond_Zopp]; ring. }
    rewrite <- Hd. assert (Hd0 : 0 <= d) by (assert (0 < 2 ^ (ez + 149)) by (apply Z.pow_pos_nonneg; lia); nia). rewrite <- Z.mul_assoc, <- Z.pow_add_r by lia. replace (ez + 149 + 149) with (ez + 298) by lia. destruct d as [| p | p]; [| | lia]; cbn [binary_normalize].
    + rewrite Z.mul_0_l, rounded_0. change (0 <? 2 ^ 426) with true. exists 0. split; [left; split; [by eexists | done] | done].
    + destruct (round_spec false p ez ltac:(lia)) as (m' & e' & -> & H1 & H2 & H3 & H4). destruct (Z.ltb_spec (rounded (Zpos p * 2 ^ (ez + 298))) (2 ^ 426)) as [Hl | Hl]; [apply of_parts_measures; [done | done | done | by apply H4] |].
      assert (Hg : 104 < e') by (destruct (Z.le_gt_cases e' 104) as [Hc | Hc]; [apply H4 in Hc; lia | done]). unfold of_parts. rewrite (proj2 (Z.leb_gt e' 104)) by done. destruct m' as [| m' | m']; [| done | lia]. rewrite Z.mul_0_l in H3. rewrite <- H3 in Hl. lia.
Qed.
Lemma fmul_spec a b u w : measures a u -> measures b w -> 
  (exists k, measures (fmul a b) k /\ k * 2 ^ 149 = rounded (u * w)) \/ fmul a b = S754_infinity false /\ 2 ^ 403 <= rounded (u * w).
Proof.
  intros [ [ [s ->] ->] | (m & e & -> & He & ->)] [ [ [t ->] ->] | (m' & e' & -> & He' & ->)].
  1-3: left; exists 0; rewrite ?Z.mul_0_l, ?Z.mul_0_r, rounded_0; split; [left; split; [by eexists | done] | done].
  unfold fmul, SFmul. cbn [xorb]. replace (Zpos m * 2 ^ (e + 149) * (Zpos m' * 2 ^ (e' + 149))) with (Zpos (m * m') * 2 ^ (e + e' + 298)) by (replace (e + e' + 298) with ((e + 149) + (e' + 149)) by lia; rewrite Z.pow_add_r, Pos2Z.inj_mul by lia; ring).
  destruct (round_aux_spec false (m * m') (e + e') ltac:(lia)) as (k & f & -> & H1 & H2 & H3 & _). destruct (Z.le_gt_cases f 104) as [Hl | Hl]; [left; by apply of_parts_measures |]. unfold of_parts. destruct k as [| k | k]; [| | lia].
  - left. exists 0. rewrite Z.mul_0_l in H3. rewrite <- H3. split; [left; split; [by eexists | done] | done].
  - right. rewrite (proj2 (Z.leb_gt f 104)) by done. split; [done |]. rewrite <- H3. pose proof (Z.pow_le_mono_r 2 403 (f + 298) ltac:(lia) ltac:(lia)). nia.
Qed.
Lemma to_int_measures x u : measures x u -> to_int x = if u / 2 ^ 149 <? 2 ^ 31 then Ok (u / 2 ^ 149) else Err (UB "float to int").
Proof.
  intros [ [ [s ->] ->] | (m & e & -> & He & ->)]; [done |]. unfold to_int. replace (Zpos m * 2 ^ (e + 149) / 2 ^ 149) with (Z.shiftl (Zpos m) e); [done |]. destruct (Z.le_gt_cases 0 e) as [H | H].
  - rewrite Z.shiftl_mul_pow2, Z.pow_add_r, Z.mul_assoc, Z.div_mul by lia. done.
  - rewrite Z.shiftl_div_pow2 by lia. assert (E : 2 ^ 149 = 2 ^ (- e) * 2 ^ (e + 149)) by (rewrite <- Z.pow_add_r by lia; f_equal; lia). rewrite E. symmetry. apply Z.div_mul_cancel_r; apply Z.pow_nonzero; lia.
Qed.
Lemma round_aux_sign s m e l : match binary_round_aux 24 128 s m e l with S754_finite s' _ e' => s' = s /\ -149 <= e' | S754_zero s' | S754_infinity s' => s' = s | S754_nan => True end.
Proof.
  unfold binary_round_aux, shr_fexp. assert (G : forall x k e0, snd (shr x e0 (fexp 24 128 k - e0)) >= -149 ) .
  { intros x k e0. unfold shr, fexp. change (emin 24 128) with (-149). destruct (Z.max (k - 24) (-149) - e0) eqn:E; cbn [snd]; lia. }
  destruct (shr (shr_record_of_loc m l) e _) as [x e1] eqn:E1. set (k := round_nearest_even _ _). pose proof (G (shr_record_of_loc k loc_Exact) (Zdigits2 k + e1) e1) as H2. destruct (shr (shr_record_of_loc k loc_Exact) e1 _) as [y e2]. cbn [snd] in H2. destruct (shr_m y); [done | | done]. destruct (e2 <=? 128 - 24); [split; [done | lia] | done].
Qed.
(** a quotient of numbers that are not negative is one, or infinite *)
Lemma div_measures m e d u : measures d u -> (exists w, measures (fdiv (S754_finite false m e) d) w) \/ fdiv (S754_finite false m e) d = S754_infinity false \/ (exists s, d = S754_zero s /\ fdiv (S754_finite false m e) d = S754_infinity s) \/ fdiv (S754_finite false m e) d = S754_nan.
Proof.
  intros [ [ [s ->] _] | (m' & e' & -> & _)]; [right; right; left; exists s; split; [done | by destruct s] |]. unfold fdiv, SFdiv. destruct (SFdiv_core_binary _ _ _ _ _ _) as [ [mz ez] lz]. cbn [xorb]. pose proof (round_aux_sign false mz ez lz) as H. destruct (binary_round_aux _ _ _ _ _ _) as [s | s | | s k f]; [left; exists 0; left; split; [by eexists | done] | right; left; by rewrite H | right; right; by right |].
  destruct H as [-> H]. left. eexists. right. eexists _, _. split_and!; [done | done | done].
Qed.
(** scaling what is above [lo] keeps the order and fits when the highest value fits *)
Lemma scaled_mono lo x y scale b : binary32 lo -> binary32 x -> binary32 y -> finite lo -> finite x -> finite y -> units lo <= units x <= units y -> (exists w, measures scale w) ->
  to_int (fmul (fsub y lo) scale) = Ok b -> exists a, to_int (fmul (fsub x lo) scale) = Ok a /\ 0 <= a <= b.
Proof.
  intros Vl Vx Vy Fl Fx Fy [Hx Hy] [w Hw] E. pose proof (fsub_spec x lo Vx Vl Fx Fl Hx) as Sx. pose proof (fsub_spec y lo Vy Vl Fy Fl ltac:(lia)) as Sy. cbv zeta in Sx, Sy. assert (Hm : rounded ((units x - units lo) * 2 ^ 149) <= rounded ((units y - units lo) * 2 ^ 149)) by (apply rounded_mono; lia).
  destruct (Z.ltb_spec (rounded ((units y - units lo) * 2 ^ 149)) (2 ^ 426)) as [Hl | Hl]; [| rewrite Sy in E; destruct Hw as [ [ [s ->] _] | (m & e & -> & _)]; done]. rewrite (proj2 (Z.ltb_lt _ _)) in Sx by lia. destruct Sx as (u & Mu & Eu), Sy as (v & Mv & Ev). assert (Huv : u <= v) by nia.
  assert (Hpos : forall a k, measures a k -> 0 <= k) by (intros a k [ [_ ->] | (m & e & _ & He & ->)]; [lia | pose proof (Z.pow_nonneg 2 (e + 149)); nia]). pose proof (Hpos _ _ Mu) as Pu. pose proof (Hpos _ _ Hw) as Pw. assert (Hr : rounded (u * w) <= rounded (v * w)) by (apply rounded_mono; nia).
  destruct (fmul_spec _ _ _ _ Mv Hw) as [ (k & Mk & Ek) | [Ek _] ]; [| by rewrite Ek in E]. rewrite (to_int_measures _ _ Mk) in E. destruct (Z.ltb_spec (k / 2 ^ 149) (2 ^ 31)) as [Hk | Hk]; [| done]. injection E as <-.
  destruct (fmul_spec _ _ _ _ Mu Hw) as [ (j & Mj & Ej) | [_ Ej] ].
  - assert (Hjk : j <= k) by nia. pose proof (Hpos _ _ Mj) as Pj. pose proof (Z.div_le_mono j k (2 ^ 149) ltac:(lia) Hjk) as Hd. pose proof (Z.div_pos j (2 ^ 149) Pj ltac:(lia)). exists (j / 2 ^ 149). rewrite (to_int_measures _ _ Mj), (proj2 (Z.ltb_lt _ _)) by lia. split; [done | lia].
  - exfalso. assert (Hk2 : k < 2 ^ 31 * 2 ^ 149) by (apply Z.div_lt_upper_bound in Hk || (pose proof (Z.mul_div_le k (2 ^ 149) ltac:(lia)); pose proof (Z.mod_pos_bound k (2 ^ 149) ltac:(lia)); pose proof (Z.div_mod k (2 ^ 149) ltac:(lia)); nia); lia). lia.
Qed.

(** ** The sort by buckets *)
(** a vector read as a function *)
Definition reads (l : list Z) (f : Z -> Z) (n : Z) : Prop := Zlen l = n /\ forall j, 0 <= j < n -> vlookup l j = Some (f j).
Lemma reads_get l f n j : reads l f n -> 0 <= j < n -> vget l j = Ok (f j).
Proof. intros [_ H] Hj. unfold vget. by rewrite H. Qed.
Lemma reads_set l f n j x : reads l f n -> 0 <= j < n -> exists l', vset l j x = Ok l' /\ reads l' (fun i => if i =? j then x else f i) n.
Proof.
  intros [Hl H] Hj. exists (vinsert j x l). split; [apply vset_Ok; lia |]. split; [by rewrite Zlen_vinsert |]. intros i Hi. specialize (H i Hi). unfold vlookup, vinsert in *. destruct (Z.leb_spec 0 i); [| lia]. destruct (Z.leb_spec 0 j); [| lia]. destruct (Z.eqb_spec i j) as [-> | Hn].
  - rewrite list_lookup_insert_eq; [done |]. unfold Zlen in Hl. lia.
  - rewrite list_lookup_insert_ne by lia. done.
Qed.
Lemma reads_ext l f g n : (forall j, 0 <= j < n -> f j = g j) -> reads l f n -> reads l g n.
Proof. intros E [H1 H2]. split; [done |]. intros j Hj. rewrite H2, E by done. done. Qed.
Definition cnt (P : Z -> bool) (l : list Z) : Z := Zlen (List.filter P l).
Lemma cnt_cons P x l : cnt P (x :: l) = (if P x then 1 else 0) + cnt P l.
Proof. unfold cnt. cbn [List.filter]. destruct (P x); [by rewrite Zlen_cons | lia]. Qed.
Lemma count_loop_spec bs : Forall (fun b => 0 <= b < NB) bs -> forall c f, reads c f (NB + 1) -> exists c', count_loop bs c = Ok c' /\ reads c' (fun j => f j + cnt (fun b => b + 1 =? j) bs) (NB + 1).
Proof.
  induction 1 as [| b bs Hb _ IH]; intros c f Hc; cbn [count_loop]; [exists c; split; [done |]; eapply reads_ext; [| exact Hc]; intros; unfold cnt; simpl; unfold Zlen; simpl; lia |].
  rewrite (reads_get c f (NB + 1)) by (done || lia). cbn [rbind]. destruct (reads_set c f (NB + 1) (b + 1) (f (b + 1) + 1) Hc) as (c1 & -> & H1); [lia |]. cbn [rbind]. destruct (IH c1 _ H1) as (c2 & E & H2). exists c2. split; [done |]. eapply reads_ext; [| exact H2]. intros j Hj. cbv beta. rewrite cnt_cons. destruct (Z.eqb_spec j (b + 1)), (Z.eqb_spec (b + 1) j); subst; lia.
Qed.
Lemma prefix_loop_spec g n : forall a c f, (Z.to_nat (NB - a) <= n)%nat -> 0 <= a <= NB -> (forall j, 0 <= j < NB -> g (j + 1) = g j + f (j + 1)) -> reads c (fun j => if j <=? a then g j else f j) (NB + 1) -> exists c', prefix_loop (zrange a NB) c = Ok c' /\ reads c' g (NB + 1).
Proof.
  induction n as [| n IH]; intros a c f Hn Ha Hg Hc.
  - assert (a = NB) as -> by lia. unfold zrange. rewrite Z.sub_diag. exists c. split; [done |]. eapply reads_ext; [| exact Hc]. intros j Hj. cbv beta. by rewrite (proj2 (Z.leb_le j NB)) by lia.
  - destruct (decide (a = NB)) as [-> | Hne]; [apply (IH NB c f); [lia | lia | done | done] |]. rewrite zrange_cons by lia. cbn [prefix_loop]. rewrite !(reads_get c _ (NB + 1) _ Hc) by lia. cbn [rbind]. rewrite (proj2 (Z.leb_gt (a + 1) a)), (proj2 (Z.leb_le a a)) by lia. destruct (reads_set c _ (NB + 1) (a + 1) (f (a + 1) + g a) Hc) as (c1 & -> & H1); [lia |]. cbn [rbind].
    apply (IH (a + 1) c1 f); [lia | lia | done |]. eapply reads_ext; [| exact H1]. intros j Hj. cbv beta. destruct (Z.eqb_spec j (a + 1)) as [-> | Hj']; [rewrite (proj2 (Z.leb_le (a + 1) (a + 1))) by lia; rewrite Hg by lia; lia |]. destruct (Z.leb_spec j a), (Z.leb_spec j (a + 1)); lia || done.
Qed.
Lemma start_next bs j : cnt (fun b => b <? j + 1) bs = cnt (fun b => b <? j) bs + cnt (fun b => b =? j) bs.
Proof. induction bs as [| b bs IH]; [done |]. rewrite !cnt_cons, IH. destruct (Z.ltb_spec b (j + 1)), (Z.ltb_spec b j), (Z.eqb_spec b j); lia. Qed.
Lemma cnt_nonneg P l : 0 <= cnt P l.
Proof. apply Zlen_nonneg. Qed.
(** the starts of the buckets *)
Lemma starts_spec bs : Forall (fun b => 0 <= b < NB) bs -> exists c, (let! c := count_loop bs (replicate (Z.to_nat (NB + 1)) 0) in prefix_loop (zrange 0 NB) c) = Ok c /\ reads c (fun j => cnt (fun b => b <? j) bs) (NB + 1).
Proof.
  intros Hbs. destruct (count_loop_spec bs Hbs (replicate (Z.to_nat (NB + 1)) 0) (fun _ => 0)) as (c1 & E1 & H1).
  { split; [done |]. intros j Hj. unfold vlookup. rewrite (proj2 (Z.leb_le 0 j)) by lia. apply lookup_replicate. split; [done | lia]. }
  rewrite E1. cbn [rbind]. apply (prefix_loop_spec _ (Z.to_nat NB) 0 c1 (fun j => cnt (fun b => b + 1 =? j) bs)); [lia | unfold NB; lia | |].
  - intros j Hj. rewrite start_next. f_equal. unfold cnt. f_equal. apply List.filter_ext. intros b. destruct (Z.eqb_spec b j), (Z.eqb_spec (b + 1) (j + 1)); lia.
  - eapply reads_ext; [| exact H1]. intros j Hj. cbv beta. destruct (Z.leb_spec j 0) as [H0 | H0]; [| lia]. assert (j = 0) as -> by lia. clear -Hbs. induction Hbs as [| b bs Hb _ IH]; [done |]. rewrite !cnt_cons, <- IH. destruct (Z.eqb_spec (b + 1) 0), (Z.ltb_spec b 0); lia.
Qed.
(** *** The items of a bucket *)
Definition cls (b : Z) (items : list (Z * Z)) : list Z := map snd (List.filter (fun x => x.1 =? b) items).
Lemma cls_app b l k : cls b (l ++ k) = cls b l ++ cls b k.
Proof. unfold cls. by rewrite List.filter_app, map_app. Qed.
Lemma cls_cnt b items : Zlen (cls b items) = cnt (fun k => k =? b) (map fst items).
Proof. induction items as [| x items IH]; [done |]. cbn [map]. rewrite cnt_cons, <- IH. unfold cls. cbn [List.filter]. destruct (x.1 =? b); cbn [map]; [by rewrite Zlen_cons | lia]. Qed.
Lemma start_mono bs a b : a <= b -> cnt (fun k => k <? a) bs <= cnt (fun k => k <? b) bs.
Proof. intros H. induction bs as [| k bs IH]; [done |]. rewrite !cnt_cons. destruct (Z.ltb_spec k a), (Z.ltb_spec k b); lia. Qed.
Lemma cnt_le P l : cnt P l <= Zlen l.
Proof. induction l as [| x l IH]; [done |]. rewrite cnt_cons, Zlen_cons. destruct (P x); lia. Qed.
Section Place.
Context (all : list (Z * Z)).
Definition start (b : Z) : Z := cnt (fun k => k <? b) (map fst all).
Lemma start_step b : start (b + 1) = start b + Zlen (cls b all).
Proof. unfold start. by rewrite start_next, cls_cnt. Qed.
Lemma start_all b : start b <= Zlen all.
Proof. unfold start. etransitivity; [apply cnt_le |]. unfold Zlen. by rewrite length_map. Qed.
Definition placed (l : list (Z * Z)) (sorted : list Z) : Prop := Zlen sorted = Zlen all /\ forall b i, 0 <= b < NB -> 0 <= i < Zlen (cls b l) -> vlookup sorted (start b + i) = vlookup (cls b l) i.
Lemma place_step l b0 id items sorted p : all = l ++ (b0, id) :: items -> 0 <= b0 < NB -> placed l sorted -> p = start b0 + Zlen (cls b0 l) -> exists sorted', vset sorted p id = Ok sorted' /\ placed (l ++ [(b0, id)]) sorted'.
Proof.
  intros Eall Hb0 [Hlen Hs] ->. assert (Hc0 : Zlen (cls b0 l) < Zlen (cls b0 all)) by (rewrite Eall, cls_app; unfold cls at 3; cbn [List.filter fst]; rewrite Z.eqb_refl; cbn [map]; rewrite Zlen_app, Zlen_cons; match goal with |- context [Zlen (map snd ?x)] => pose proof (Zlen_nonneg (map snd x)) end; lia).
  pose proof (start_step b0) as Hst. pose proof (start_all (b0 + 1)) as Hsa. pose proof (Zlen_nonneg (cls b0 l)) as Hn. assert (H0 : 0 <= start b0) by apply cnt_nonneg. eexists. split; [apply vset_Ok; lia |]. split; [by rewrite Zlen_vinsert |]. intros b i Hb.
  rewrite cls_app. unfold cls at 2 5. cbn [List.filter fst]. assert (Hne : forall q, 0 <= q -> q <> start b0 + Zlen (cls b0 l) -> vlookup (vinsert (start b0 + Zlen (cls b0 l)) id sorted) q = vlookup sorted q) by (intros q Hq Hqn; unfold vlookup, vinsert; destruct (Z.leb_spec 0 q); [| lia]; destruct (Z.leb_spec 0 (start b0 + Zlen (cls b0 l))); [| lia]; apply list_lookup_insert_ne; lia).
  destruct (Z.eqb_spec b0 b) as [<- | Hbb]; cbn [map snd]; intros Hi.
  - replace (Zlen (cls b0 l ++ [id])) with (Zlen (cls b0 l) + 1) in Hi by (unfold Zlen; rewrite length_app; simpl; lia). destruct (decide (i = Zlen (cls b0 l))) as [-> | Hil].
    + unfold vlookup, vinsert. destruct (Z.leb_spec 0 (start b0 + Zlen (cls b0 l))); [| lia]. destruct (Z.leb_spec 0 (Zlen (cls b0 l))); [| lia]. rewrite list_lookup_insert_eq by (unfold Zlen in *; lia). unfold Zlen. by rewrite Nat2Z.id, lookup_app_r, Nat.sub_diag by lia.
    + rewrite Hne by lia. rewrite Hs by lia. unfold vlookup. destruct (Z.leb_spec 0 i); [| done]. rewrite lookup_app_l; [done |]. unfold Zlen in *. lia.
  - rewrite app_nil_r in *. assert (Hi' : i < Zlen (cls b all)) by (rewrite Eall, cls_app, Zlen_app; match goal with |- context [_ + Zlen ?x] => pose proof (Zlen_nonneg x) end; lia). pose proof (start_step b). pose proof (cnt_nonneg (fun k => k <? b) (map fst all)). fold (start b) in *.
    assert (start b + i <> start b0 + Zlen (cls b0 l)) by (destruct (Z.lt_ge_cases b b0); [pose proof (start_mono (map fst all) (b + 1) b0 ltac:(lia)) | pose proof (start_mono (map fst all) (b0 + 1) b ltac:(lia))]; unfold start in *; lia). rewrite Hne by lia. by apply Hs.
Qed.
Lemma place_loop_spec items : forall l pos sorted, all = l ++ items -> Forall (fun x => 0 <= x.1 < NB) items -> reads pos (fun b => start b + Zlen (cls b l)) NB -> placed l sorted -> exists sorted', place_loop items pos sorted = Ok sorted' /\ placed all sorted'.
Proof.
  induction items as [| [b id] items IH]; intros l pos sorted Eall Hb Hp Hs; cbn [place_loop]; [rewrite app_nil_r in Eall; subst l; by exists sorted |]. apply Forall_cons in Hb as [Hb Hbs]. cbn [fst] in Hb. rewrite (reads_get pos _ NB b Hp Hb). cbn [rbind]. destruct (place_step l b id items sorted _ Eall Hb Hs eq_refl) as (s1 & -> & Hs1). cbn [rbind].
  destruct (reads_set pos _ NB b (start b + Zlen (cls b l) + 1) Hp Hb) as (pos1 & -> & Hp1). cbn [rbind]. apply (IH (l ++ [(b, id)])); [by rewrite <- app_assoc | done | | done]. eapply reads_ext; [| exact Hp1]. intros j Hj. cbv beta. rewrite cls_app, Zlen_app. unfold cls at 4. cbn [List.filter fst]. destruct (Z.eqb_spec j b) as [-> | Hn]; [rewrite Z.eqb_refl; cbn [map]; rewrite Zlen_cons, Zlen_nil; lia |]. rewrite (proj2 (Z.eqb_neq b j)) by done. cbn [map]. rewrite Zlen_nil. lia.
Qed.
(** *** Sorting the buckets one after the other *)
Context (lt : Z -> Z -> bool) (sort_ok : forall b, std_sort lt (cls b all) = Ok (sorted_by lt (cls b all))).
Lemma slice_of sorted b : placed all sorted -> 0 <= b < NB -> vslice sorted (start b) (Zlen (cls b all)) = cls b all.
Proof.
  intros [Hlen Hs] Hb. pose proof (start_step b). pose proof (start_all (b + 1)). pose proof (cnt_nonneg (fun k => k <? b) (map fst all)). fold (start b) in *. apply list_eq. intros i. unfold vslice. destruct (decide (i < length (cls b all))%nat) as [Hi | Hi].
  - rewrite lookup_take_lt by (unfold Zlen; lia). rewrite lookup_drop. specialize (Hs b (Z.of_nat i) Hb ltac:(unfold Zlen; lia)). unfold vlookup in Hs. destruct (Z.leb_spec 0 (start b + Z.of_nat i)); [| lia]. destruct (Z.leb_spec 0 (Z.of_nat i)); [| lia]. rewrite Nat2Z.id in Hs. rewrite <- Hs. f_equal. lia.
  - rewrite (lookup_ge_None_2 (cls b all)) by lia. apply lookup_ge_None_2. rewrite length_take. unfold Zlen. lia.
Qed.
Lemma slice_split (sorted : list Z) lo n : 0 <= lo -> 0 <= n -> take (Z.to_nat (lo + n)) sorted = take (Z.to_nat lo) sorted ++ vslice sorted lo n.
Proof. intros H1 H2. unfold vslice. rewrite Z2Nat.inj_add by done. by rewrite take_take_drop. Qed.
Lemma sort_small l : (length l <= 1)%nat -> sorted_by lt l = l.
Proof. destruct l as [| x [| y l] ]; simpl; [done | done | lia]. Qed.
Lemma sort_buckets_spec n : forall a counts sorted, (Z.to_nat (NB - a) <= n)%nat -> 0 <= a <= NB -> start NB = Zlen all -> reads counts start (NB + 1) -> Zlen sorted = Zlen all ->
  (forall b, a <= b < NB -> vslice sorted (start b) (Zlen (cls b all)) = cls b all) ->
  sort_buckets lt (zrange a NB) counts sorted = Ok (take (Z.to_nat (start a)) sorted ++ concat (map (fun b => sorted_by lt (cls b all)) (zrange a NB))).
Proof.
  induction n as [| n IH]; intros a counts sorted Hn Ha Hall Hc Hlen Hs.
  - assert (a = NB) as -> by lia. unfold zrange. rewrite Z.sub_diag. cbn [sort_buckets seq fmap list_fmap map concat Z.to_nat]. rewrite app_nil_r, take_ge; [done |]. rewrite Hall. unfold Zlen in *. lia.
  - destruct (decide (a = NB)) as [-> | Hne]; [apply IH; [lia | lia | done | done | done | done] |]. rewrite zrange_cons by lia. cbn [sort_buckets map concat]. rewrite !(reads_get counts start (NB + 1) _ Hc) by lia. cbn [rbind]. rewrite start_step. replace (start a + Zlen (cls a all) - start a) with (Zlen (cls a all)) by lia.
    pose proof (Hs a ltac:(lia)) as Hsa. pose proof (cnt_nonneg (fun k => k <? a) (map fst all)) as H0. fold (start a) in H0. pose proof (Zlen_nonneg (cls a all)) as H1. pose proof (start_all (a + 1)) as H2. rewrite start_step in H2.
    set (srt := take (Z.to_nat (start a)) sorted ++ sorted_by lt (cls a all) ++ drop (Z.to_nat (start a + Zlen (cls a all))) sorted).
    assert (Es : (if 1 <? Zlen (cls a all) then sort_range lt (start a) (start a + Zlen (cls a all)) sorted else Ok sorted) = Ok srt).
    { destruct (Z.ltb_spec 1 (Zlen (cls a all))) as [Hl | Hl]; [unfold sort_range; by rewrite (Z.add_simpl_l (start a)), Hsa, sort_ok |]. unfold srt. rewrite sort_small by (unfold Zlen in Hl; lia). rewrite <- Hsa at 1. rewrite app_assoc, <- slice_split by lia. by rewrite take_drop. }
    rewrite Es. cbn [rbind]. clear Es. pose proof (eq_refl srt : srt = take (Z.to_nat (start a)) sorted ++ sorted_by lt (cls a all) ++ drop (Z.to_nat (start a + Zlen (cls a all))) sorted) as Es.
    assert (Hl1 : length (take (Z.to_nat (start a)) sorted) = Z.to_nat (start a)) by (rewrite length_take; unfold Zlen in *; lia). assert (Hl2 : Zlen (sorted_by lt (cls a all)) = Zlen (cls a all)) by (unfold Zlen; by rewrite (sorted_by_perm lt (cls a all))).
    assert (Hd : forall m, start a + Zlen (cls a all) <= m -> drop (Z.to_nat m) srt = drop (Z.to_nat m) sorted).
    { intros m Hm. rewrite Es, app_assoc. rewrite drop_app_ge by (rewrite length_app, Hl1; unfold Zlen in *; lia). rewrite drop_drop, length_app, Hl1. f_equal. unfold Zlen in *. lia. }
    rewrite (IH (a + 1) counts srt); [| lia | lia | done | done | | ].
    + f_equal. rewrite start_step, Es, app_assoc. rewrite take_app_le by (rewrite length_app, Hl1; unfold Zlen in *; lia). rewrite take_ge by (rewrite length_app, Hl1; unfold Zlen in *; lia). by rewrite <- app_assoc.
    + rewrite Es, !Zlen_app, Hl2. unfold Zlen in *. rewrite length_drop. lia.
    + intros b Hb. unfold vslice. rewrite Hd; [apply Hs; lia |]. rewrite <- start_step. apply start_mono. lia.
Qed.
End Place.
Lemma concat_cls_cons x items bs : NoDup bs -> x.1 ∈ bs -> concat (map (fun b => cls b (x :: items)) bs) ≡ₚ x.2 :: concat (map (fun b => cls b items) bs).
Proof.
  assert (Hno : forall bs, x.1 ∉ bs -> map (fun b => cls b (x :: items)) bs = map (fun b => cls b items) bs).
  { intros ks Hk. apply map_ext_in. intros b Hb. apply list_elem_of_In in Hb. unfold cls. cbn [List.filter]. rewrite (proj2 (Z.eqb_neq x.1 b)); [done |]. by intros <-. }
  induction 1 as [| b bs Hb _ IH]; intros Hin; [by apply elem_of_nil in Hin |]. cbn [map concat]. destruct (decide (x.1 = b)) as [<- | Hne].
  - rewrite Hno by done. unfold cls at 1. cbn [List.filter]. by rewrite Z.eqb_refl.
  - apply elem_of_cons in Hin as [? | Hin]; [done |]. rewrite IH by done. unfold cls at 1 3. cbn [List.filter]. rewrite (proj2 (Z.eqb_neq x.1 b)) by done. by rewrite Permutation_middle.
Qed.
Lemma zrange_nodup a b : NoDup (zrange a b).
Proof. unfold zrange. apply NoDup_fmap_2; [intros x y H; lia | apply NoDup_seq]. Qed.
Lemma concat_cls items : Forall (fun x => 0 <= x.1 < NB) items -> concat (map (fun b => cls b items) (zrange 0 NB)) ≡ₚ map snd items.
Proof.
  induction 1 as [| x items Hx _ IH]; [induction (zrange 0 NB); [done |]; simpl; done |]. rewrite concat_cls_cons; [by rewrite IH | apply zrange_nodup | by apply elem_of_zrange].
Qed.
Lemma sorted_concat {A} (Q : A -> A -> Prop) (ls : list (list A)) : Forall (StronglySorted Q) ls -> (forall i j l k x y, (i < j)%nat -> ls !! i = Some l -> ls !! j = Some k -> x ∈ l -> y ∈ k -> Q x y) -> StronglySorted Q (concat ls).
Proof.
  induction 1 as [| l ls Hl _ IH]; intros Hx; [constructor |]. simpl. assert (Hrest : StronglySorted Q (concat ls)) by (apply IH; intros i j m k x y Hij Hm Hk; apply (Hx (S i) (S j) m k x y); [lia | done | done]).
  assert (Hc : forall x, x ∈ l -> Forall (Q x) (concat ls)). { intros x Hin. apply Forall_concat, Forall_forall. intros k Hk. apply Forall_forall. intros y Hy. apply list_elem_of_lookup in Hk as [j Hj]. apply (Hx 0%nat (S j) l k x y); [lia | done | done | done | done]. }
  clear Hx IH. induction Hl as [| x l _ IHl Hxl]; [done |]. simpl. constructor; [apply IHl; intros y Hy; apply Hc; by constructor |]. apply Forall_app. split; [done |]. apply Hc. by constructor.
Qed.
Lemma ninf_least x : number x -> fgt x NINF = true \/ rank x = rank NINF.
Proof. intros Hx. destruct (fgt x NINF) eqn:E; [by left | right]. apply (flt_false NINF x) in E; [| done | done]. destruct E as [E | E]; [| done]. unfold below in E. destruct x as [ [] | [] | | [] m e]; simpl in *; try lia; done. Qed.
Lemma fle_spec a b : number a -> number b -> fle a b = true <-> ~ below (rank b) (rank a).
Proof. intros Ha Hb. rewrite <- (negb_involutive (fle a b)), <- (not_flt b a) by done. rewrite <- (flt_spec b a) by done. by destruct (flt b a); naive_solver. Qed.
Lemma val_elem v i : in_vocab v i -> val v i ∈ v.
Proof. intros Hi. destruct (vlookup_lt_is_Some v i Hi) as [x Hx]. unfold val. rewrite Hx. simpl. unfold vlookup in Hx. destruct (0 <=? i); [| done]. by eapply list_elem_of_lookup_2. Qed.
(** the order of finite binary32 numbers is that of their units *)
Lemma units_le x y : binary32 x -> binary32 y -> finite x -> finite y -> ~ below (rank y) (rank x) -> units x <= units y.
Proof.
  assert (G : forall s t m e m' e', binary32 (S754_finite s m e) -> binary32 (S754_finite t m' e') -> e < e' \/ e = e' /\ Zpos m <= Zpos m' -> Zpos m * 2 ^ (e + 149) <= Zpos m' * 2 ^ (e' + 149)).
  { intros s t m e m' e' V V' [H | [<- H] ]; [| apply Z.mul_le_mono_nonneg_r; [apply Z.pow_nonneg; lia | done] ]. apply binary32_parts in V as (_ & He & Hm & _), V' as (_ & He' & _ & Hm'). specialize (Hm' ltac:(lia)).
    assert (E : 2 ^ (e' + 149) = 2 ^ (e + 149) * 2 * 2 ^ (e' - e - 1)) by (rewrite <- (Z.pow_1_r 2) at 3; rewrite <- !Z.pow_add_r by lia; f_equal; lia). rewrite E. assert (0 < 2 ^ (e + 149)) by (apply Z.pow_pos_nonneg; lia). assert (0 < 2 ^ (e' - e - 1)) by (apply Z.pow_pos_nonneg; lia). nia. }
  intros Vx Vy Fx Fy H. unfold below in H. assert (P : forall k e, 0 <= Zpos k * 2 ^ e) by (intros k e; pose proof (Z.pow_nonneg 2 e); nia).
  destruct x as [sx | | | sx m e], y as [sy | | | sy m' e']; try done; destruct_or?; cbn [rank fst snd] in H; unfold units; try (destruct sx); try (destruct sy); cbn [rank fst snd cond_Zopp] in *.
  all: try (specialize (P m (e + 149)) as P1); try (specialize (P m' (e' + 149)) as P2); try lia.
  - specialize (G true true m' e' m e Vy Vx). lia.
  - specialize (G false false m e m' e' Vx Vy). lia.
Qed.
(** what the pass over the candidates knows: the extremes are logits of candidates and bound all others *)
Lemma bounds_spec v ids lo hi : Forall number v -> Forall (in_vocab v) ids -> bounds v ids = (lo, hi) -> fgt hi lo = true ->
  (exists i, i ∈ ids /\ val v i = lo) /\ (exists i, i ∈ ids /\ val v i = hi) /\ fgt lo NINF = true /\ forall i, i ∈ ids -> fgt (val v i) NINF = true -> ~ below (rank (val v i)) (rank lo) /\ ~ below (rank hi) (rank (val v i)).
Proof.
  intros Hv Hids. unfold bounds. assert (G : forall a b, number a -> number b -> (a = PINF \/ fgt a NINF = true) -> foldl (fun '(lo, hi) i => let x := val v i in if fgt x NINF then (if flt x lo then x else lo, if flt hi x then x else hi) else (lo, hi)) (a, b) ids = (lo, hi) ->
    number lo /\ number hi /\ (lo = a \/ exists i, i ∈ ids /\ val v i = lo /\ fgt lo NINF = true) /\ (hi = b \/ exists i, i ∈ ids /\ val v i = hi) /\ ~ below (rank a) (rank lo) /\ ~ below (rank hi) (rank b) /\
    forall i, i ∈ ids -> fgt (val v i) NINF = true -> ~ below (rank (val v i)) (rank lo) /\ ~ below (rank hi) (rank (val v i))).
  { induction Hids as [| i ids Hi _ IH]; intros a b Ha Hb Hl E; cbn [foldl] in E.
    { injection E as -> ->. split_and!; [done | done | by left | by left | unfold below; lia | unfold below; lia |]. intros i Hi. by apply elem_of_nil in Hi. }
    pose proof (val_number v i Hv Hi) as Hx. cbv zeta in E. destruct (fgt (val v i) NINF) eqn:Eg.
    - set (a' := if flt (val v i) a then val v i else a) in *. set (b' := if flt b (val v i) then val v i else b) in *.
      assert (A : number a' /\ (a' = a \/ a' = val v i) /\ ~ below (rank a) (rank a') /\ ~ below (rank (val v i)) (rank a')).
      { unfold a'. destruct (flt (val v i) a) eqn:Ea; [apply flt_spec in Ea; [| done | done]; split_and!; [done | by right | unfold below in *; lia | unfold below in *; lia] |]. apply flt_false in Ea; [| done | done]. split_and!; [done | by left | unfold below; lia | destruct Ea as [Ea | Ea]; [unfold below in *; lia | rewrite Ea; unfold below; lia] ]. }
      assert (B : number b' /\ (b' = b \/ b' = val v i) /\ ~ below (rank b') (rank b) /\ ~ below (rank b') (rank (val v i))).
      { unfold b'. destruct (flt b (val v i)) eqn:Ea; [apply flt_spec in Ea; [| done | done]; split_and!; [done | by right | unfold below in *; lia | unfold below in *; lia] |]. apply flt_false in Ea; [| done | done]. split_and!; [done | by left | unfold below; lia | destruct Ea as [Ea | Ea]; [unfold below in *; lia | rewrite Ea; unfold below; lia] ]. }
      destruct A as (A1 & A2 & A3 & A4), B as (B1 & B2 & B3 & B4). destruct (IH a' b' A1 B1) as (I1 & I2 & I3 & I4 & I5 & I6 & I7); [destruct A2 as [-> | ->]; [done | by right] | done |].
      split_and!; [done | done | | | clear -A3 I5; unfold below in *; lia | clear -B3 I6; unfold below in *; lia |].
      + destruct I3 as [-> | (k & K1 & K2 & K3)]; [destruct A2 as [-> | E2]; [by left | right; exists i; split_and!; [left | done | by rewrite E2] ] | right; exists k; split_and!; [by right | done | done] ].
      + destruct I4 as [-> | (k & K1 & K2)]; [destruct B2 as [-> | E2]; [by left | right; exists i; split; [left | done] ] | right; exists k; split; [by right | done] ].
      + intros k Hk. apply elem_of_cons in Hk as [-> | Hk]; [| by apply I7]. intros _. clear -A4 B4 I5 I6. unfold below in *. lia.
    - destruct (IH a b Ha Hb Hl E) as (I1 & I2 & I3 & I4 & I5 & I6 & I7). split_and!; [done | done | | | done | done |].
      + destruct I3 as [-> | (k & K1 & K2 & K3)]; [by left | right; exists k; split_and!; [by right | done | done] ].
      + destruct I4 as [-> | (k & K1 & K2)]; [by left | right; exists k; split; [by right | done] ].
      + intros k Hk. apply elem_of_cons in Hk as [-> | Hk]; [congruence | by apply I7]. }
  intros E Hgt. destruct (G PINF NINF) as (N1 & N2 & I3 & I4 & _ & _ & I7); [done | done | by left | done |]. apply fgt_spec in Hgt; [| done | done].
  assert (Hlo : lo <> PINF) by (intros ->; destruct hi as [ [] | [] | | [] m e]; unfold below in Hgt; simpl in Hgt; try lia; done). assert (Hhi : hi <> NINF) by (intros ->; destruct lo as [ [] | [] | | [] m e]; unfold below in Hgt; simpl in Hgt; try lia; done).
  destruct I3 as [? | (i & Hi & Ei & Li)]; [done |]. destruct I4 as [? | (j & Hj & Ej)]; [done |]. split_and!; [by exists i | by exists j | done | done].
Qed.
(** the highest logit, scaled, fits into an int *)
Definition spread_fits (v : list spec_float) (ids : list Z) : bool :=
  let '(lo, hi) := bounds v ids in match to_int (fmul (fsub hi lo) (fdiv (of_int (NB - 1)) (fsub hi lo))) with Ok _ => true | Err _ => false end.
Lemma scale_measures lo hi b : binary32 lo -> binary32 hi -> finite lo -> finite hi -> units lo <= units hi -> to_int (fmul (fsub hi lo) (fdiv (of_int (NB - 1)) (fsub hi lo))) = Ok b -> exists w, measures (fdiv (of_int (NB - 1)) (fsub hi lo)) w.
Proof.
  intros Vl Vh Fl Fh Hle E. pose proof (fsub_spec hi lo Vh Vl Fh Fl Hle) as Hd. cbv zeta in Hd. destruct (_ <? _); [| rewrite Hd in E; done]. destruct Hd as (u & Hu & _). assert (E255 : exists m e, of_int (NB - 1) = S754_finite false m e) by (eexists _, _; vm_compute; reflexivity). destruct E255 as (m & e & E255). rewrite E255 in *.
  destruct (div_measures m e _ u Hu) as [H | [H | [ (s & H1 & H) | H] ] ]; [done | | |]; rewrite H in E; [destruct Hu as [ [ [s Es] _] | (m' & e' & Es & _)]; by rewrite Es in E | by rewrite H1 in E | by destruct (fsub hi lo)].
Qed.
(** the candidates above minus infinity are scaled in their order *)
Lemma scaled_order v ids lo hi : Forall number v -> Forall binary32 v -> Forall (in_vocab v) ids -> bounds v ids = (lo, hi) -> fgt hi lo = true -> spread_fits v ids = true ->
  let scaled x := to_int (fmul (fsub x lo) (fdiv (of_int (NB - 1)) (fsub hi lo))) in
  forall i j, i ∈ ids -> j ∈ ids -> fgt (val v i) NINF = true -> fle (val v i) (val v j) = true -> exists a b, scaled (val v i) = Ok a /\ scaled (val v j) = Ok b /\ a <= b.
Proof.
  intros Hv Hb Hids Eb Hgt Hfit scaled. destruct (bounds_spec v ids lo hi Hv Hids Eb Hgt) as ((il & Hil & El) & (ih & Hih & Eh) & Hlo & Hall). unfold spread_fits in Hfit. rewrite Eb in Hfit. change (to_int _) with (scaled hi) in Hfit. destruct (scaled hi) as [h |] eqn:Es; [| done]. clear Hfit.
  pose proof (proj1 (Forall_forall _ _) Hids) as Hids'. pose proof (proj1 (Forall_forall _ _) Hb) as Hb'. assert (Hvals : forall i, i ∈ ids -> number (val v i) /\ binary32 (val v i)) by (intros i Hi; split; [apply val_number; [done | by apply Hids'] | apply Hb', val_elem; by apply Hids']).
  assert (Nl : number lo /\ binary32 lo) by (rewrite <- El; by apply Hvals). assert (Nh : number hi /\ binary32 hi) by (rewrite <- Eh; by apply Hvals). destruct Nl as [Nl Vl], Nh as [Nh Vh].
  assert (Fh : finite hi). { unfold scaled in Es. apply fgt_spec in Hgt; [| done | done]. destruct hi as [ | [] | | ]; try done; [unfold below in Hgt; destruct lo as [ [] | [] | | [] m e]; simpl in Hgt; lia |]. exfalso. destruct lo as [ [] | [] | | [] m e]; try done; unfold below in Hgt; simpl in Hgt; lia. }
  assert (Hfin : forall x, number x -> fgt x NINF = true -> ~ below (rank hi) (rank x) -> finite x). { intros x Nx Hx Hn. destruct x as [ | [] | | ]; try done. exfalso. apply Hn. unfold below. destruct hi as [ [] | | | [] m e]; try done; simpl; lia. }
  assert (Fl : finite lo) by (apply Hfin; [done | done |]; apply fgt_spec in Hgt; [| done | done]; clear -Hgt; unfold below in *; lia).
  assert (Hok : forall i, i ∈ ids -> fgt (val v i) NINF = true -> finite (val v i) /\ units lo <= units (val v i) <= units hi).
  { intros i Hi Hx. destruct (Hvals i Hi) as [Nx Vx]. destruct (Hall i Hi Hx) as [H1 H2]. assert (Fx : finite (val v i)) by (by apply Hfin). split_and!; [done | by apply units_le | by apply units_le]. }
  assert (Hlh : units lo <= units hi) by (apply units_le; try done; apply fgt_spec in Hgt; [| done | done]; clear -Hgt; unfold below in *; lia).
  assert (Hw := scale_measures lo hi h Vl Vh Fl Fh Hlh Es). intros i j Hi Hj Hx Hle. destruct (Hvals i Hi) as [Ni Vi], (Hvals j Hj) as [Nj Vj]. apply fle_spec in Hle; [| done | done].
  assert (Hxj : fgt (val v j) NINF = true). { destruct (ninf_least (val v j) Nj) as [? | E]; [done |]. exfalso. apply Hle. rewrite E. by apply fgt_spec in Hx. }
  destruct (Hok i Hi Hx) as [Fi [Ui1 Ui2] ], (Hok j Hj Hxj) as [Fj [Uj1 Uj2] ]. destruct (scaled_mono lo (val v j) hi _ h Vl Vj Vh Fl Fj Fh (conj Uj1 Uj2) Hw Es) as (b & Hb1 & _).
  assert (Uij : units lo <= units (val v i) <= units (val v j)) by (split; [done | by apply units_le]). destruct (scaled_mono lo (val v i) (val v j) _ b Vl Vi Vj Fl Fi Fj Uij Hw Hb1) as (a & Ha & Hab). exists a, b. split_and!; [done | done | lia].
Qed.
Lemma buckets_monotone v ids lo hi : Forall number v -> Forall binary32 v -> Forall (in_vocab v) ids -> bounds v ids = (lo, hi) -> fgt hi lo = true -> spread_fits v ids = true ->
  exists bs, rmap (fun i => bucket_of lo (fdiv (of_int (NB - 1)) (fsub hi lo)) (val v i)) ids = Ok bs /\ length bs = length ids /\ Forall (fun b => 0 <= b < NB) bs /\
    forall i j a b, (a, i) ∈ zip bs ids -> (b, j) ∈ zip bs ids -> a < b -> desc v j i = false.
Proof.
  intros Hv Hf Hids Eb Hgt Hfit. pose proof (scaled_order v ids lo hi Hv Hf Hids Eb Hgt Hfit) as Hm. cbv zeta in Hm. set (scale := fdiv _ _) in *. assert (Hnum : forall i, i ∈ ids -> number (val v i)) by (intros i Hi; rewrite Forall_forall in Hids; by apply val_number, Hids).
  assert (Hone : forall i, i ∈ ids -> exists b, bucket_of lo scale (val v i) = Ok b /\ 0 <= b < NB).
  { intros i Hi. unfold bucket_of, NB. destruct (fgt (val v i) NINF) eqn:E; [| eexists; split; [reflexivity | lia] ]. destruct (Hm i i Hi Hi E) as (a & b & Ea & _); [apply fle_spec; [by apply Hnum | by apply Hnum | unfold below; lia] |]. rewrite Ea. eexists. split; [reflexivity | lia]. }
  assert (Hmono : forall i j a b, i ∈ ids -> j ∈ ids -> bucket_of lo scale (val v i) = Ok a -> bucket_of lo scale (val v j) = Ok b -> a < b -> desc v j i = false).
  { intros i j a b Hi Hj Ha Hb Hab. apply not_true_iff_false. intros Hd. rewrite desc_is, desc_entry_spec in Hd by (by apply Hnum). unfold precedes in Hd. cbn [fst snd] in Hd. assert (Hle : fle (val v i) (val v j) = true) by (apply fle_spec; [by apply Hnum | by apply Hnum |]; unfold below in *; destruct (rank (val v i)) as [ [] ], (rank (val v j)) as [ [] ]; simpl in *; rewrite ?pair_eq in Hd; lia).
    unfold bucket_of in Ha, Hb. destruct (fgt (val v i) NINF) eqn:Ei.
    - destruct (Hm i j Hi Hj Ei Hle) as (x & y & Ex & Ey & Hxy). rewrite Ex in Ha. cbn [rbind] in Ha. injection Ha as <-. destruct (fgt (val v j) NINF) eqn:Ej; [rewrite Ey in Hb; cbn [rbind] in Hb; injection Hb as <-; unfold NB in *; lia |]. destruct (ninf_least (val v j)) as [? | Hj']; [by apply Hnum | congruence |]. apply fle_spec in Hle; [| by apply Hnum | by apply Hnum]. apply fgt_spec in Ei; [| by apply Hnum | done]. rewrite <- Hj' in Ei. by apply Hle.
    - cbn [rbind] in Ha. injection Ha as <-. destruct (fgt (val v j) NINF); [destruct (to_int _) as [y |]; [cbn [rbind] in Hb; injection Hb as <-; unfold NB in *; lia | done] | cbn [rbind] in Hb; injection Hb as <-; unfold NB in *; lia]. }
  assert (G : exists bs, rmap (fun i => bucket_of lo scale (val v i)) ids = Ok bs /\ Forall2 (fun b i => bucket_of lo scale (val v i) = Ok b /\ 0 <= b < NB) bs ids).
  { clear -Hone. induction ids as [| i ids IH]; [exists []; by split; [| constructor] |]. destruct (Hone i) as (b & Eb & Hb); [by constructor |]. destruct IH as (bs & E & H); [intros j Hj; apply Hone; by constructor |]. exists (b :: bs). cbn [rmap]. rewrite Eb. cbn [rbind]. rewrite E. split; [done | by constructor]. }
  destruct G as (bs & E & H). exists bs. split_and!; [done | by eapply Forall2_length | |].
  - clear -H. induction H as [| b i bs ids [_ Hb] _ IH]; by constructor.
  - assert (Hz : forall i a, (a, i) ∈ zip bs ids -> i ∈ ids /\ bucket_of lo scale (val v i) = Ok a). { intros i a Hin. apply elem_of_lookup_zip_with in Hin as (n & x & y & [= <- <-] & H1 & H2). split; [by eapply list_elem_of_lookup_2 |]. by destruct (Forall2_lookup_lr _ _ _ _ _ _ H H1 H2). }
    intros i j a b Hi Hj Hab. destruct (Hz i a Hi), (Hz j b Hj). by apply (Hmono i j a b).
Qed.
(** the whole bucket pass leaves the sorted buckets one behind the other *)
Lemma bucket_pass lt bs ids : (forall b, std_sort lt (cls b (zip bs ids)) = Ok (sorted_by lt (cls b (zip bs ids)))) -> length bs = length ids -> Forall (fun b => 0 <= b < NB) bs ->
  (let! counts := count_loop bs (replicate (Z.to_nat (NB + 1)) 0) in let! counts := prefix_loop (zrange 0 NB) counts in
   let! sorted := place_loop (zip bs ids) (removelast counts) (replicate (length ids) 0) in sort_buckets lt (zrange 0 NB) counts sorted) =
  Ok (concat (map (fun b => sorted_by lt (cls b (zip bs ids))) (zrange 0 NB))).
Proof.
  intros Hsort Hlen Hbs. set (all := zip bs ids) in *. assert (Hf : map fst all = bs) by (apply fst_zip; lia).
  assert (Hall : Forall (fun x => 0 <= x.1 < NB) all) by (apply Forall_forall; intros x Hx; pose proof Hbs as Hbs'; rewrite <- Hf, Forall_forall in Hbs'; by apply Hbs', list_elem_of_In, in_map, list_elem_of_In).
  destruct (starts_spec bs Hbs) as (c & Ec & Hc). destruct (count_loop bs _) as [c0 |] eqn:E0; [| done]. cbn [rbind] in Ec |- *. rewrite Ec. cbn [rbind]. rewrite <- Hf in Hc. change (fun j => cnt (fun b => b <? j) (map fst all)) with (start all) in Hc.
  destruct (place_loop_spec all all [] (removelast c) (replicate (length ids) 0)) as (sorted & -> & Hp); [done | done | | | cbn [rbind] ].
  { destruct Hc as [Hc1 Hc2]. destruct c as [| x c _] using rev_ind; [done |]. rewrite removelast_last. rewrite Zlen_app, Zlen_cons, Zlen_nil in Hc1. split; [lia |]. intros j Hj. specialize (Hc2 j ltac:(lia)). unfold vlookup in *. destruct (Z.leb_spec 0 j); [| lia]. rewrite lookup_app_l in Hc2 by (unfold Zlen in *; lia). rewrite Hc2. f_equal. unfold cls. simpl. rewrite Zlen_nil. lia. }
  { split; [unfold Zlen, all; rewrite length_replicate, length_zip; lia |]. intros b i _ Hi. unfold cls, Zlen in Hi. simpl in Hi. lia. }
  rewrite (sort_buckets_spec all lt Hsort (Z.to_nat NB) 0 c sorted); [| lia | unfold NB; lia | | done | apply Hp | intros b Hb; by apply slice_of].
  - assert (E00 : start all 0 = 0); [| by rewrite E00]. unfold start. rewrite Hf. clear -Hbs. induction Hbs as [| b bs Hb _ IH]; [done |]. rewrite cnt_cons, IH. destruct (Z.ltb_spec b 0); lia.
  - unfold start. rewrite Hf. transitivity (Zlen bs); [| unfold Zlen, all; rewrite length_zip; lia]. clear -Hbs. induction Hbs as [| b bs Hb _ IH]; [done |]. rewrite cnt_cons, Zlen_cons, IH. destruct (Z.ltb_spec b NB); lia.
Qed.
Lemma buckets_perm lt bs ids : length bs = length ids -> Forall (fun b => 0 <= b < NB) bs -> concat (map (fun b => sorted_by lt (cls b (zip bs ids))) (zrange 0 NB)) ≡ₚ ids.
Proof.
  intros Hlen Hbs. transitivity (map snd (zip bs ids)); [| by rewrite <- (snd_zip bs ids) at 2 by lia]. rewrite <- (concat_cls (zip bs ids)).
  - induction (zrange 0 NB) as [| b l IH]; [done |]. simpl. by rewrite sorted_by_perm, IH.
  - apply Forall_forall. intros x Hx. rewrite <- (fst_zip bs ids), Forall_forall in Hbs by lia. by apply Hbs, list_elem_of_fmap_2.
Qed.
Lemma cls_elem b i all : i ∈ cls b all -> (b, i) ∈ all.
Proof. intros Hi. unfold cls in Hi. apply list_elem_of_In, in_map_iff in Hi as ([k j] & <- & Hk). apply List.filter_In in Hk as [Hk Hb]. apply Z.eqb_eq in Hb. cbn [fst snd] in *. subst k. by apply list_elem_of_In. Qed.
Lemma bucket_number n m : zrange 0 NB !! n = Some m -> m = Z.of_nat n.
Proof. unfold zrange. rewrite list_lookup_fmap. destruct (seq _ _ !! n) eqn:Es; [| done]. apply lookup_seq in Es as [-> _]. intros [= <-]. lia. Qed.
Lemma bucket_of_result lo scale x : (exists b, bucket_of lo scale x = Ok b /\ 0 <= b < NB) \/ bucket_of lo scale x = Err (UB "float to int").
Proof.
  unfold bucket_of, NB. destruct (fgt x NINF); [| left; eexists; split; [reflexivity | lia] ]. destruct (to_int _) as [b | e] eqn:E; [left; eexists; split; [reflexivity | lia] | right]. unfold to_int in E. by repeat case_match; simplify_eq.
Qed.
Lemma buckets_result lo scale v ids : (exists bs, rmap (fun i => bucket_of lo scale (val v i)) ids = Ok bs /\ length bs = length ids /\ Forall (fun b => 0 <= b < NB) bs) \/ rmap (fun i => bucket_of lo scale (val v i)) ids = Err (UB "float to int").
Proof.
  induction ids as [| i ids IH]; cbn [rmap]; [left; by exists [] |]. destruct (bucket_of_result lo scale (val v i)) as [ (b & -> & Hb) | ->]; [cbn [rbind] | by right]. destruct IH as [ (bs & -> & Hl & Hbs) | ->]; [left | by right]. exists (b :: bs). split_and!; [done | simpl; lia | by constructor].
Qed.
(** a candidate whose scaled value does not fit makes the pass undefined *)
Lemma bucket_fails lo scale v ids i : i ∈ ids -> bucket_of lo scale (val v i) = Err (UB "float to int") -> rmap (fun i => bucket_of lo scale (val v i)) ids = Err (UB "float to int").
Proof.
  intros Hi E. destruct (buckets_result lo scale v ids) as [ (bs & Eb & _) | H]; [exfalso | done]. revert bs Eb. induction ids as [| k ids IH]; intros bs Eb; [by apply elem_of_nil in Hi |]. cbn [rmap] in Eb. apply elem_of_cons in Hi as [<- | Hi]; [by rewrite E in Eb |].
  destruct (bucket_of lo scale (val v k)); [cbn [rbind] in Eb | done]. destruct (rmap _ ids) as [bs' |]; [by apply (IH Hi bs') | done].
Qed.
Lemma desc_sorts v l : Forall (fun i => number (val v i)) l -> std_sort (desc v) l = Ok (sorted_by (desc v) l).
Proof.
  apply (std_sort_ok (desc v) (fun i => number (val v i))); [intros x y Hx Hy | intros x y z Hx Hy Hz]; rewrite !desc_is; [by apply desc_entry_asym | by apply desc_entry_neg].
Qed.
(** the candidates are divided into buckets, and the scale of the buckets is unusable *)
Definition spread_overflows (v : list spec_float) (ids : list Z) : bool :=
  (4096 <=? Zlen ids) && (let '(lo, hi) := bounds v ids in fgt hi lo) && negb (spread_fits v ids).
Lemma buckets_sorted v ids lo hi : Forall number v -> Forall binary32 v -> Forall (in_vocab v) ids -> NoDup ids -> bounds v ids = (lo, hi) -> fgt hi lo = true -> spread_fits v ids = true ->
  exists bs, rmap (fun i => bucket_of lo (fdiv (of_int (NB - 1)) (fsub hi lo)) (val v i)) ids = Ok bs /\ length bs = length ids /\ Forall (fun b => 0 <= b < NB) bs /\
    concat (map (fun b => sorted_by (desc v) (cls b (zip bs ids))) (zrange 0 NB)) = sorted_by (desc v) ids.
Proof.
  intros Hv Hf Hids Hnd Eb Hgt Hfit. destruct (buckets_monotone v ids lo hi Hv Hf Hids Eb Hgt Hfit) as (bs & Ers & Hlen & Hbs & Hord). exists bs. split; [done |]. split; [done |]. split; [done |].
  pose proof (buckets_perm (desc v) bs ids Hlen Hbs) as Hperm. set (D := fun i => number (val v i)). assert (HD : Forall D ids) by (eapply Forall_impl; [exact Hids |]; intros i Hi; by apply val_number).
  assert (HA : forall x y, D x -> D y -> desc v x y = true -> desc v y x = false) by (intros x y Hx Hy; rewrite !desc_is; by apply desc_entry_asym).
  assert (HN : forall x y z, D x -> D y -> D z -> desc v x y = false -> desc v y z = false -> desc v x z = false) by (intros x y z Hx Hy Hz; rewrite !desc_is; by apply desc_entry_neg).
  apply (sorted_unique (desc v) D); [by rewrite Hperm | | | by apply (sorted_by_sorted (desc v) D) | by rewrite Hperm, sorted_by_perm].
  - intros x y Hx Hy H1 H2. rewrite Hperm in Hx, Hy. rewrite Forall_forall in HD. rewrite desc_is in H1, H2. by destruct (desc_entry_total (x, val v x) (y, val v y) (HD x Hx) (HD y Hy) H1 H2).
  - apply sorted_concat.
    + apply Forall_forall. intros l Hl. apply list_elem_of_In, in_map_iff in Hl as (b & <- & _). apply (sorted_by_sorted (desc v) D); [done | done |]. apply Forall_forall. intros i Hi. apply cls_elem in Hi. rewrite Forall_forall in HD. apply HD. by apply elem_of_zip_r in Hi.
    + intros i j l k x y Hij Hl Hk Hx Hy. fold (fmap (M := list) (fun b => sorted_by (desc v) (cls b (zip bs ids)))) in Hl, Hk. rewrite list_lookup_fmap in Hl, Hk. destruct (zrange 0 NB !! i) as [bi |] eqn:Ei; [| done]. destruct (zrange 0 NB !! j) as [bj |] eqn:Ej; [| done]. injection Hl as <-. injection Hk as <-.
      rewrite sorted_by_perm in Hx, Hy. apply bucket_number in Ei as ->, Ej as ->. apply (Hord x y (Z.of_nat i) (Z.of_nat j)); [by apply cls_elem | by apply cls_elem | lia].
Qed.
Lemma sort_exact (v : list spec_float) (ids : list Z) : Forall number v -> Forall binary32 v -> Forall (in_vocab v) ids -> NoDup ids ->
  sort_desc ids v = if spread_overflows v ids then Err (UB "float to int") else Ok (sorted_by (desc v) ids).
Proof.
  intros Hv Hf Hids Hnd. unfold sort_desc, spread_overflows. assert (HD : Forall (fun i => number (val v i)) ids) by (eapply Forall_impl; [exact Hids |]; intros i Hi; by apply val_number).
  destruct (Z.ltb_spec (Zlen ids) 4096) as [H | H]; [rewrite (proj2 (Z.leb_gt _ _)) by done; by apply desc_sorts |]. rewrite (proj2 (Z.leb_le _ _)) by done. destruct (bounds v ids) as [lo hi] eqn:Eb. destruct (fgt hi lo) eqn:Hgt; cbn [negb andb]; [| by apply desc_sorts]. destruct (spread_fits v ids) eqn:Hfit; cbn [negb].
  - destruct (buckets_sorted v ids lo hi Hv Hf Hids Hnd Eb Hgt Hfit) as (bs & -> & Hlen & Hbs & <-). cbn [rbind]. apply bucket_pass; [| done | done]. intros b. apply desc_sorts, Forall_forall. intros i Hi. apply cls_elem in Hi. rewrite Forall_forall in HD. apply HD. by apply elem_of_zip_r in Hi.
  - destruct (bounds_spec v ids lo hi Hv Hids Eb Hgt) as (_ & (ih & Hih & Eh) & Hlo & Hall). rewrite (bucket_fails lo _ v ids ih); [done | done |]. unfold spread_fits in Hfit. rewrite Eb in Hfit. unfold bucket_of. rewrite Eh. assert (Nh : number hi) by (rewrite <- Eh; rewrite Forall_forall in HD; by apply HD).
    assert (Eg : fgt hi NINF = true). { destruct (ninf_least hi Nh) as [? | E]; [done |]. exfalso. destruct hi as [ [] | [] | | [] m e]; try done. by destruct lo as [ [] | [] | | [] m e]. }
    rewrite Eg. destruct (to_int _) as [b | e] eqn:Et; [done |]. unfold to_int in Et. by repeat case_match; simplify_eq.
Qed.
(** C14: The bucket sort of the candidates is a sort.  For binary32 logits without NaN and any candidates,
    sort_desc leaves them by falling logit and rising index, as std::sort alone would: the counting of the
    buckets, their starts, the placing and the sorts inside the buckets included.  Rounding is part of
    the proof.  The one exception is exact: when there are 4096 candidates or more, not all equal, and the highest logit scaled by
    255 / (hi - lo) does not fit into an int (the spread overflows or is next to 0), the conversion is undefined. *)
Theorem sort_desc_exact (v : list spec_float) (ids : list Z) : Forall number v -> Forall binary32 v -> Forall (in_vocab v) ids -> NoDup ids ->
  sort_desc ids v = if spread_overflows v ids then Err (UB "float to int") else Ok (sorted_by (desc v) ids).
Proof. apply sort_exact. Qed.
(** 4097 logits with three values *)
Definition many_logits : list spec_float := NINF :: concat (replicate 2048 [f1; f2]).
Lemma many_values x : x ∈ many_logits -> x = NINF \/ x = f1 \/ x = f2.
Proof. unfold many_logits. rewrite elem_of_cons. intros [-> | H]; [by left | right]. apply list_elem_of_In, in_concat in H as (l & Hl & Hx). apply list_elem_of_In, elem_of_replicate in Hl as [-> _]. apply list_elem_of_In in Hx. set_solver. Qed.
Lemma sort_desc_exact_witness : Zlen (zrange 0 4097) = 4097 /\ spread_overflows many_logits (zrange 0 4097) = false /\ sort_desc (zrange 0 4097) many_logits = Ok (sorted_by (desc many_logits) (zrange 0 4097)).
Proof.
  split; [vm_compute; reflexivity |]. assert (Eo : spread_overflows many_logits (zrange 0 4097) = false) by (vm_compute; reflexivity). split; [exact Eo |]. assert (Hin : forall i, i ∈ zrange 0 4097 -> in_vocab many_logits i) by (intros i Hi; apply elem_of_zrange in Hi; unfold in_vocab; replace (Zlen many_logits) with 4097 by (vm_compute; reflexivity); lia).
  pose proof (sort_desc_exact many_logits (zrange 0 4097)) as H. rewrite Eo in H. apply H.
  - apply Forall_forall. intros x Hx. apply many_values in Hx. by destruct_or! Hx; subst.
  - apply Forall_forall. intros x Hx. apply many_values in Hx. by destruct_or! Hx; subst.
  - apply Forall_forall. exact Hin.
  - apply zrange_nodup.
Defined.
(** A NaN among three candidates is equivalent to both others, which are not: std::sort is undefined. *)
Theorem nan_sort_undefined (x y : spec_float) : number x -> number y -> sort_desc [0; 1; 2] [x; S754_nan; y] = Err (UB "sort without a strict weak order").
Proof.
  intros Hx Hy. assert (E : strict_weak (desc [x; S754_nan; y]) [0; 1; 2] = false); [| unfold sort_desc, std_sort; by rewrite E].
  assert (C : unordered (desc [x; S754_nan; y]) 0 2 = false).
  { unfold unordered. destruct (desc [x; S754_nan; y] 0 2) eqn:E1; [done |]. destruct (desc [x; S754_nan; y] 2 0) eqn:E2; [done |]. rewrite desc_is in E1, E2. by destruct (desc_entry_total (0, val [x; S754_nan; y] 0) (2, val [x; S754_nan; y] 2) Hx Hy E1 E2). }
  assert (U1 : unordered (desc [x; S754_nan; y]) 0 1 = true) by (unfold unordered, desc, val; simpl; by destruct x as [ [] | [] | | [] m e]). assert (U2 : unordered (desc [x; S754_nan; y]) 1 2 = true) by (unfold unordered, desc, val; simpl; by destruct y as [ [] | [] | | [] m e]).
  unfold strict_weak. cbn [forallb]. rewrite C, U1, U2. cbn [andb implb]. by rewrite !andb_false_r.
Qed.
Lemma top_k_exact_witness : vec_top_k [f1; f2; NINF; f2; f0] 3 = take 3 (sorted_by desc_entry (indexed [f1; f2; NINF; f2; f0])).
Proof. apply (top_k_exact [f1; f2; NINF; f2; f0] 3). repeat constructor; done. Defined.

(** ** The processors keep masks *)
Lemma val_set v t x v' i : vset v t x = Ok v' -> Zlen v' = Zlen v /\ in_vocab v t /\ val v' i = if i =? t then x else val v i.
Proof.
  unfold vset. destruct (vlookup v t) as [y |] eqn:E; [| done]. intros [= <-]. pose proof (vlookup_Some_range v t y E) as Ht. split_and!; [apply Zlen_vinsert | done |]. unfold val, vlookup, vinsert. destruct (Z.leb_spec 0 t); [| lia]. destruct (Z.eqb_spec i t) as [-> | Hn].
  - rewrite (proj2 (Z.leb_le 0 t)) by lia. rewrite list_lookup_insert_eq by (unfold Zlen in Ht; lia). done.
  - destruct (Z.leb_spec 0 i); [| done]. by rewrite list_lookup_insert_ne by lia.
Qed.
Lemma vset_in v t x : in_vocab v t -> exists v', vset v t x = Ok v'.
Proof. intros H. eexists. by apply vset_Ok. Qed.
Lemma vget_val v t : in_vocab v t -> vget v t = Ok (val v t).
Proof. intros H. unfold vget, val. by destruct (vlookup_lt_is_Some v t H) as [x ->]. Qed.
Lemma keep_loop_spec allowed logits : forall keep, Zlen keep = Zlen logits -> exists keep', keep_loop allowed logits keep = Ok keep' /\ Zlen keep' = Zlen logits /\ forall t, t ∉ allowed -> val keep' t = val keep t.
Proof.
  induction allowed as [| a allowed IH]; intros keep Hk; cbn [keep_loop]; [by exists keep |]. destruct ((0 <=? a) && (a <? Zlen logits)) eqn:E.
  - assert (Ha : in_vocab logits a) by (unfold in_vocab; lia). rewrite vget_val by done. cbn [rbind]. destruct (vset_in keep a (val logits a)) as [k1 E1]; [unfold in_vocab in *; lia |]. rewrite E1. cbn [rbind]. destruct (val_set _ _ _ _ a E1) as (L1 & _). destruct (IH k1 ltac:(lia)) as (k2 & -> & L2 & H2). exists k2. split_and!; [done | done |]. intros t Ht. apply not_elem_of_cons in Ht as [Hta Ht]. rewrite H2 by done. destruct (val_set _ _ _ _ t E1) as (_ & _ & ->). by rewrite (proj2 (Z.eqb_neq t a)).
  - destruct (IH keep Hk) as (k2 & -> & L2 & H2). exists k2. split_and!; [done | done |]. intros t Ht. apply not_elem_of_cons in Ht as [_ Ht]. by apply H2.
Qed.
Lemma add_silent b : number b -> b <> PINF -> fadd NINF b = NINF.
Proof. intros H1 H2. unfold number in H1. by destruct b as [ [] | [] | | [] m e]. Qed.
Lemma sub_silent b : number b -> b <> NINF -> fsub NINF b = NINF.
Proof. intros H1 H2. unfold number in H1. by destruct b as [ [] | [] | | [] m e]. Qed.
Lemma mul_silent b : flt f0 b = true -> fmul NINF b = NINF.
Proof. by destruct b as [ [] | [] | | [] m e]. Qed.
Lemma bias_loop_spec bias : forall logits, Forall (fun kv => in_vocab logits kv.1) bias -> exists l', bias_loop bias logits = Ok l' /\ Zlen l' = Zlen logits /\
  (Forall (fun kv => number kv.2 /\ kv.2 <> PINF) bias -> forall t, val logits t = NINF -> val l' t = NINF).
Proof.
  induction bias as [| [t b] bias IH]; intros logits Hin; cbn [bias_loop]; [by exists logits |]. apply Forall_cons in Hin as [Ht Hin]. cbn [fst] in Ht. rewrite vget_val by done. cbn [rbind]. destruct (vset_in logits t (fadd (val logits t) b) Ht) as [l1 E1]. rewrite E1. cbn [rbind]. destruct (val_set _ _ _ _ t E1) as (L1 & _).
  destruct (IH l1) as (l2 & -> & L2 & H2); [eapply Forall_impl; [exact Hin |]; intros kv; unfold in_vocab; by rewrite L1 |]. exists l2. split_and!; [done | lia |]. intros Hf i Hi. apply Forall_cons in Hf as [ [F1 F2] Hf]. apply H2; [done |]. destruct (val_set _ _ _ _ i E1) as (_ & _ & ->). destruct (Z.eqb_spec i t) as [-> | _]; [| done]. rewrite Hi. by apply add_silent.
Qed.
Lemma bad_loop_spec words output : forall logits, exists l', bad_loop words output logits = Ok l' /\ Zlen l' = Zlen logits /\ (forall t, val logits t = NINF -> val l' t = NINF) /\
  (forall bw t, bw ∈ words -> last bw = Some t -> completes output bw = true -> in_vocab logits t -> val l' t = NINF).
Proof.
  induction words as [| w words IH]; intros logits; cbn [bad_loop]; [exists logits; split_and!; [done | done | done |]; intros bw t Hin; by apply elem_of_nil in Hin |]. destruct (last w) as [t0 |] eqn:El.
  2: { destruct (IH logits) as (l2 & -> & L2 & H2 & H3). exists l2. split_and!; [done | done | done |]. intros bw t Hin Hl. apply elem_of_cons in Hin as [-> | Hin]; [congruence | by eapply H3]. }
  destruct (completes output w && (0 <=? t0) && (t0 <? Zlen logits)) eqn:E.
  - destruct (vset_in logits t0 NINF) as [l1 E1]; [unfold in_vocab; lia |]. rewrite E1. cbn [rbind]. destruct (val_set _ _ _ _ t0 E1) as (L1 & _). destruct (IH l1) as (l2 & -> & L2 & H2 & H3). assert (Hv : forall i, val l1 i = if i =? t0 then NINF else val logits i) by (intros i; by destruct (val_set _ _ _ _ i E1) as (_ & _ & ->)). exists l2. split_and!; [done | lia | |].
    + intros i Hi. apply H2. rewrite Hv. by destruct (i =? t0).
    + intros bw t Hin Hl Hc Hr. apply elem_of_cons in Hin as [-> | Hin]; [| apply (H3 bw t); [done | done | done | unfold in_vocab in *; lia] ]. apply H2. rewrite Hv. replace t0 with t by congruence. by rewrite Z.eqb_refl.
  - destruct (IH logits) as (l2 & -> & L2 & H2 & H3). exists l2. split_and!; [done | done | done |]. intros bw t Hin Hl Hc Hr. apply elem_of_cons in Hin as [-> | Hin]; [| by eapply H3]. exfalso. rewrite Hc in E. replace t0 with t in E by congruence. unfold in_vocab in Hr. lia.
Qed.
(** the copy of the allowed logits: a mask stays, and what is not allowed is masked *)
Lemma keep_loop_masks allowed logits t : val logits t = NINF -> forall keep keep', keep_loop allowed logits keep = Ok keep' -> val keep t = NINF -> val keep' t = NINF.
Proof.
  intros Ht. induction allowed as [| a allowed IH]; intros keep keep' E Hk; cbn [keep_loop] in E; [by injection E as <- |]. destruct ((0 <=? a) && (a <? Zlen logits)) eqn:Ea; [| by eapply IH]. rewrite vget_val in E by (unfold in_vocab; lia). cbn [rbind] in E. destruct (vset keep a (val logits a)) as [k1 |] eqn:E1; [| done]. cbn [rbind] in E. apply (IH k1 keep' E). destruct (val_set _ _ _ _ t E1) as (_ & _ & ->). by destruct (Z.eqb_spec t a) as [<- |].
Qed.
Lemma keep_loop_full allowed logits : exists k, keep_loop allowed logits (replicate (length logits) NINF) = Ok k /\ Zlen k = Zlen logits /\ forall t, in_vocab logits t -> val logits t = NINF \/ (allowed <> [] /\ t ∉ allowed) -> val k t = NINF.
Proof.
  assert (Hr : forall t, in_vocab logits t -> val (replicate (length logits) NINF) t = NINF). { intros t [H1 H2]. unfold val, vlookup. rewrite (proj2 (Z.leb_le 0 t)) by lia. rewrite lookup_replicate_2 by (unfold Zlen in H2; lia). done. }
  destruct (keep_loop_spec allowed logits (replicate (length logits) NINF)) as (k & E & L & H); [unfold Zlen; by rewrite length_replicate |]. exists k. split_and!; [done | done |]. intros t Hin [Ht | [_ Ht] ]; [eapply keep_loop_masks; [exact Ht | exact E | by apply Hr] | rewrite H by done; by apply Hr].
Qed.
(** biases and penalties that do not cancel a mask *)
Definition tame (p : SamplingParams) (output : list Z) : Prop :=
  Forall (fun kv => number kv.2 /\ kv.2 <> PINF) (logit_bias p) /\ flt f0 (repetition_penalty p) = true /\
  forall n, 0 < n <= Zlen output -> let y := fadd (fmul (frequency_penalty p) (of_int n)) (presence_penalty p) in number y /\ y <> NINF.
Lemma penalized_silent p output n : tame p output -> n <= Zlen output -> penalized_logit p n NINF = NINF.
Proof.
  intros (_ & Hr & Hn) Hle. unfold penalized_logit. change (fgt NINF f0) with false. cbv iota. rewrite (mul_silent _ Hr). assert (E : (if negb (feq (repetition_penalty p) f1) then NINF else NINF) = NINF) by (by destruct (negb _)). rewrite E. destruct (Z.ltb_spec 0 n) as [H0 | H0]; [| done]. destruct (Hn n) as [H1 H2]; [lia |]. by apply sub_silent.
Qed.
Lemma penalty_loop_spec p counts : forall logits, exists l', penalty_loop p counts logits = Ok l' /\ Zlen l' = Zlen logits /\ forall output, tame p output -> Forall (fun e => e.2 <= Zlen output) counts -> forall t, val logits t = NINF -> val l' t = NINF.
Proof.
  induction counts as [| [t n] counts IH]; intros logits; cbn [penalty_loop]; [by exists logits |]. destruct ((t <? 0) || (Zlen logits <=? t)) eqn:E.
  - destruct (IH logits) as (l2 & -> & L2 & H2). exists l2. split_and!; [done | done |]. intros output Ht Hc i Hi. apply Forall_cons in Hc as [_ Hc]. by eapply H2.
  - assert (Hin : in_vocab logits t) by (unfold in_vocab; lia). rewrite vget_val by done. cbn [rbind]. destruct (vset_in logits t (penalized_logit p n (val logits t)) Hin) as [l1 E1]. rewrite E1. cbn [rbind]. destruct (val_set _ _ _ _ t E1) as (L1 & _). destruct (IH l1) as (l2 & -> & L2 & H2). exists l2. split_and!; [done | lia |].
    intros output Ht Hc i Hi. apply Forall_cons in Hc as [Hn Hc]. apply (H2 output Ht Hc). destruct (val_set _ _ _ _ i E1) as (_ & _ & ->). destruct (Z.eqb_spec i t) as [-> | _]; [| done]. rewrite Hi. by eapply penalized_silent.
Qed.
Lemma count_output_le l : forall m k, 0 <= k -> map_Forall (fun _ n => n <= k) m -> map_Forall (fun _ n => n <= k + Zlen l) (count_output l m).
Proof.
  unfold count_output. induction l as [| t l IH]; intros m k Hk Hm; [cbn [foldl]; rewrite Zlen_nil, Z.add_0_r; done |]. cbn [foldl]. rewrite Zlen_cons. replace (k + (1 + Zlen l)) with (k + 1 + Zlen l) by lia. apply IH; [lia |]. apply map_Forall_insert_2; [| eapply map_Forall_impl; [exact Hm |]; intros ? ? ?; simpl in *; lia]. destruct (m !! t) as [n |] eqn:E; simpl; [specialize (Hm t n E); simpl in Hm; lia | lia].
Qed.
Lemma add_prompt_le l : forall m k, 0 <= k -> map_Forall (fun _ n => n <= k) m -> map_Forall (fun _ n => n <= k) (add_prompt l m).
Proof. unfold add_prompt. induction l as [| t l IH]; intros m k Hk Hm; [done |]. cbn [foldl]. apply IH; [done |]. destruct (m !! t); [done |]. by apply map_Forall_insert_2. Qed.
Lemma penalties_spec p prompt output logits : exists l', apply_penalties p prompt output logits = Ok l' /\ Zlen l' = Zlen logits /\ (tame p output -> forall t, val logits t = NINF -> val l' t = NINF).
Proof.
  unfold apply_penalties. destruct (_ || _ || _); [| by exists logits]. set (counts := if negb _ then _ else _). destruct (penalty_loop_spec p (map_to_list counts) logits) as (l' & -> & L & H). exists l'. split_and!; [done | done |]. intros Ht t Hv. apply (H output Ht); [| done].
  assert (Hc : map_Forall (fun _ n => n <= Zlen output) counts).
  { assert (H0 : map_Forall (fun _ n => n <= Zlen output) (count_output (drop (Z.to_nat (penalty_start p (Zlen output))) output) ∅)). { eapply map_Forall_impl; [apply (count_output_le _ ∅ 0); [lia | apply map_Forall_empty] |]. intros i n Hn. cbv beta in Hn. unfold Zlen in *. rewrite length_drop in Hn. lia. } subst counts. destruct (negb _); [| done]. apply add_prompt_le; [apply Zlen_nonneg | done]. }
  apply Forall_forall. intros [k n] Hin. apply elem_of_map_to_list in Hin. by apply (Hc k n).
Qed.
(** a token that may not be produced *)
Definition forbidden (p : SamplingParams) (logits : list spec_float) (output : list Z) (t : Z) : Prop :=
  val logits t = NINF \/ (allowed_token_ids p <> [] /\ t ∉ allowed_token_ids p) \/ exists bw, bw ∈ bad_words p /\ last bw = Some t /\ completes output bw = true.
Lemma process_spec p prompt output logits : Forall (fun kv => in_vocab logits kv.1) (logit_bias p) ->
  exists l', process p prompt output logits = Ok l' /\ Zlen l' = Zlen logits /\ (tame p output -> forall t, in_vocab logits t -> forbidden p logits output t -> val l' t = NINF).
Proof.
  intros Hb. unfold process. assert (HA : exists l1, apply_allowed p logits = Ok l1 /\ Zlen l1 = Zlen logits /\ forall t, in_vocab logits t -> val logits t = NINF \/ (allowed_token_ids p <> [] /\ t ∉ allowed_token_ids p) -> (val l1 t = NINF)).
  { unfold apply_allowed. destruct (allowed_token_ids p) as [| a l] eqn:Ea; [exists logits; split_and!; [done | done |]; naive_solver |]. destruct (keep_loop_full (a :: l) logits) as (k & -> & L & H). exists k. by split_and!. }
  destruct HA as (l1 & -> & L1 & H1). cbn [rbind]. destruct (bias_loop_spec (logit_bias p) l1) as (l2 & -> & L2 & H2); [eapply Forall_impl; [exact Hb |]; intros kv; unfold in_vocab; by rewrite L1 |]. cbn [rbind]. destruct (bad_loop_spec (bad_words p) output l2) as (l3 & -> & L3 & H3 & H4). cbn [rbind]. destruct (penalties_spec p prompt output l3) as (l4 & -> & L4 & H5).
  exists l4. split_and!; [done | lia |]. intros Ht t Hin Hf. apply (H5 Ht). destruct Hf as [Hf | [Hf | (bw & B1 & B2 & B3)] ]; [apply H3, (H2 (proj1 Ht)), H1; [done | by left] | apply H3, (H2 (proj1 Ht)), H1; [done | by right] |]. apply (H4 bw t); [done | done | done | unfold in_vocab in *; lia].
Qed.

(** ** A token is always drawn *)
Section Drawing.
Context (expf logf : spec_float -> spec_float) {R : Type} (uniform : R -> spec_float -> spec_float * R).
Lemma find_value_range x v : forall i, v <> [] -> 0 <= i -> find_value x v i = 0 \/ i <= find_value x v i < i + Zlen v.
Proof. induction v as [| y v IH]; intros i Hne Hi; [done |]. cbn [find_value]. rewrite Zlen_cons. pose proof (Zlen_nonneg v). destruct (feq y x); [right; lia |]. destruct v as [| z v]; [by left |]. destruct (IH (i + 1)) as [-> | H1]; [done | lia | by left | right; lia]. Qed.
Lemma argmax_range v : v <> [] -> in_vocab v (vec_argmax v).
Proof. intros Hne. unfold in_vocab, vec_argmax. assert (0 < Zlen v) by (destruct v; [done |]; rewrite Zlen_cons; pose proof (Zlen_nonneg v); lia). destruct (find_value_range (max_value v) v 0 Hne ltac:(lia)); lia. Qed.
Lemma min_p_ids_spec p mx v : v <> [] -> min_p_ids logf p mx v <> [] /\ Forall (in_vocab v) (min_p_ids logf p mx v) /\ NoDup (min_p_ids logf p mx v) /\ Zlen (min_p_ids logf p mx v) <= Zlen v.
Proof.
  intros Hne. assert (Hlv : 1 <= Zlen v) by (destruct v; [done |]; rewrite Zlen_cons; pose proof (Zlen_nonneg v); lia). assert (Hz : Forall (in_vocab v) (zrange 0 (Zlen v))) by (apply Forall_forall; intros i Hi; by apply elem_of_zrange in Hi). assert (Hzl : Zlen (zrange 0 (Zlen v)) = Zlen v) by (unfold zrange; unfold Zlen; rewrite length_fmap, length_seq; lia). unfold min_p_ids. destruct (fgt (min_p p) f0).
  - set (ids := List.filter _ _). assert (Hf : Forall (in_vocab v) ids) by (apply Forall_forall; intros i Hi; apply list_elem_of_In, List.filter_In in Hi as [Hi _]; apply list_elem_of_In in Hi; rewrite Forall_forall in Hz; by apply Hz). assert (Hl : Zlen ids <= Zlen v) by (rewrite <- Hzl; unfold Zlen; pose proof (List.filter_length_le (fun i => fle (fadd mx (logf (min_p p))) (val v i)) (zrange 0 (Z.of_nat (length v)))); unfold ids, Zlen; lia).
    assert (Hnd : NoDup ids) by (apply NoDup_ListNoDup, List.NoDup_filter, NoDup_ListNoDup, zrange_nodup). destruct ids as [| i ids]; [| by split_and!]. split_and!; [done | constructor; [by apply argmax_range | constructor] | apply NoDup_singleton | done].
  - split_and!; [| done | apply zrange_nodup | lia]. rewrite zrange_cons by lia. done.
Qed.
(** top_p sorts many candidates whose scale is unusable *)
Definition truncation_overflows (p : SamplingParams) (mx : spec_float) (v : list spec_float) : bool :=
  let ids := min_p_ids logf p mx v in
  negb ((0 <? top_k p) && (top_k p <? Zlen ids)) && (flt (top_p p) f1 && (1 <? Zlen ids)) && spread_overflows v ids.
Lemma candidates_result p mx v : v <> [] -> Forall number v -> Forall binary32 v ->
  if truncation_overflows p mx v then candidates logf p mx v = Err (UB "float to int") else exists ids, candidates logf p mx v = Ok ids /\ ids <> [] /\ Forall (in_vocab v) ids.
Proof.
  intros Hne Hn Hb. destruct (min_p_ids_spec p mx v Hne) as (H1 & H2 & H3 & H4). unfold truncation_overflows, candidates. set (ids := min_p_ids logf p mx v) in *. assert (HD : Forall (fun i => number (val v i)) ids) by (eapply Forall_impl; [exact H2 |]; intros i Hi; by apply val_number).
  destruct ((0 <? top_k p) && (top_k p <? Zlen ids)) eqn:Ek; cbn [negb andb].
  { rewrite desc_sorts by done. cbn [rbind]. eexists. split_and!; [reflexivity | | apply Forall_take; by rewrite sorted_by_perm]. intros E. apply (f_equal length) in E. rewrite length_take, (sorted_by_perm (desc v) ids) in E. apply andb_true_iff in Ek as [Ek _]. destruct ids; [done |]. simpl in E. lia. }
  destruct (flt (top_p p) f1 && (1 <? Zlen ids)); cbn [andb]; [| by exists ids]. rewrite (sort_exact v ids Hn Hb H2 H3). destruct (spread_overflows v ids); [done |]. exists (sorted_by (desc v) ids). split_and!; [done | | by rewrite sorted_by_perm]. intros E. apply H1, Permutation_nil. rewrite <- E. apply sorted_by_perm.
Qed.
Lemma pick_range probs : forall c last r, pick_loop probs c last r = last \/ (c <= pick_loop probs c last r < c + length probs)%nat.
Proof. induction probs as [| x probs IH]; intros c last r; cbn [pick_loop]; [by left |]. destruct (fle _ d0); [right; simpl; lia |]. destruct (IH (S c) last (dsub r (to_double x))) as [-> | H]; [by left | right; simpl; lia]. Qed.
Lemma keep_mass_pos top probs : forall cum keep, (keep <= keep_mass top probs cum keep)%nat /\ (probs <> [] -> (keep < keep_mass top probs cum keep)%nat).
Proof. induction probs as [| x probs IH]; intros cum keep; cbn [keep_mass]; [by split |]. destruct (fle top _); [split; intros; lia |]. destruct (IH (fadd cum x) (S keep)) as [H _]. split; intros; lia. Qed.
Lemma top_p_keep_length p probs : probs <> [] -> top_p_keep p probs <> [] /\ (length (top_p_keep p probs) <= length probs)%nat /\ top_p_keep p probs = take (length (top_p_keep p probs)) probs.
Proof.
  intros Hne. unfold top_p_keep. destruct (flt (top_p p) f1 && (1 <? Zlen probs)); [| split_and!; [done | lia | by rewrite take_ge] ]. destruct (keep_mass_pos (top_p p) probs f0 0) as [_ H]. specialize (H Hne). split_and!; [| rewrite length_take; lia |].
  - intros E. apply (f_equal length) in E. rewrite length_take in E. destruct probs; [done |]. cbn [length] in E. lia.
  - rewrite length_take. destruct (decide (keep_mass (top_p p) probs f0 0 <= length probs)%nat); [by rewrite Nat.min_l by lia | rewrite Nat.min_r by lia; rewrite !take_ge by lia; done].
Qed.
Lemma softmax_result mx v ids : Forall (in_vocab v) ids -> exists probs inv_sum, softmax expf mx v ids = Ok probs /\ probs = map (fun i => fmul (expf (fsub (val v i) mx)) inv_sum) ids.
Proof.
  intros Hids. unfold softmax. assert (E : rmap (fun i => let! x := vget v i in Ok (expf (fsub x mx))) ids = Ok (map (fun i => expf (fsub (val v i) mx)) ids)). { induction Hids as [| i ids Hi _ IH]; [done |]. cbn [rmap map]. rewrite vget_val by done. cbn [rbind]. by rewrite IH. }
  rewrite E. cbn [rbind]. eexists _, _. split; [reflexivity |]. by rewrite map_map.
Qed.
Definition scaled_logits (p : SamplingParams) (v : list spec_float) : list spec_float := map (fun x => fmul x (fdiv f1 (temperature p))) v.
Definition draw_overflows (p : SamplingParams) (v : list spec_float) : bool := truncation_overflows p (max_value (scaled_logits p v)) (scaled_logits p v).
Lemma draw_result p v g : v <> [] -> Forall number (scaled_logits p v) -> Forall binary32 (scaled_logits p v) ->
  if draw_overflows p v then draw expf logf uniform p v g = Err (UB "float to int") else exists t g', draw expf logf uniform p v g = Ok (t, g') /\ in_vocab v t.
Proof.
  intros Hne Hn Hb. unfold draw, draw_overflows. change (map _ v) with (scaled_logits p v). set (s := scaled_logits p v) in *. assert (Hs : s <> []) by (subst s; by destruct v). assert (Hsl : Zlen s = Zlen v) by (unfold Zlen, s, scaled_logits; by rewrite length_map). pose proof (candidates_result p (max_value s) s Hs Hn Hb) as Hc. destruct (truncation_overflows p (max_value s) s); [by rewrite Hc |]. destruct Hc as (ids & -> & Hin & Hids). cbn [rbind]. destruct (softmax_result (max_value s) s ids Hids) as (probs & inv & -> & Ep). cbn [rbind].
  assert (Hpl : length probs = length ids) by (rewrite Ep; apply length_map). assert (Hpn : probs <> []) by (intros ->; by destruct ids). destruct (top_p_keep_length p probs Hpn) as (K1 & K2 & _). destruct (uniform g _) as [r g']. set (k := pick_loop _ _ _ _). assert (Hk : (k < length ids)%nat). { destruct (pick_range (top_p_keep p probs) 0 (length (top_p_keep p probs) - 1) r) as [E | E]; fold k in E; [| lia]. rewrite E. destruct (top_p_keep p probs); [done |]. simpl in *. lia. }
  destruct (lookup_lt_is_Some_2 ids k Hk) as [t Ht]. exists t, g'. unfold vget, vlookup. rewrite (proj2 (Z.leb_le 0 (Z.of_nat k))) by lia. rewrite Nat2Z.id, Ht. split; [done |]. rewrite Forall_forall in Hids. pose proof (Hids t (list_elem_of_lookup_2 _ _ _ Ht)) as Hv. unfold in_vocab in *. lia.
Qed.
(** C15: Sampling yields a token of the vocabulary.  For logits that after masks, biases, penalties and temperature are
    binary32 numbers without NaN (infinities allowed; the greedy choice needs no condition), any history, any draw and parameters whose
    biases name tokens of the vocabulary, sampling reads nothing out of range and ends with a token of the vocabulary, and with
    log-probabilities for no more tokens than were asked for.  The one exception is exact: when top_p
    sorts 4096 candidates or more and their spread does not fit the scale of the buckets, the conversion of a float to
    an int is undefined. *)
Theorem sample_in_range (p : SamplingParams) (logits : list spec_float) (prompt output : list Z) (g : R) :
  logits <> [] -> Forall (fun kv => in_vocab logits kv.1) (logit_bias p) ->
  exists l, process p prompt output logits = Ok l /\
    (is_greedy p = true \/ (Forall number (scaled_logits p l) /\ Forall binary32 (scaled_logits p l)) ->
     if negb (is_greedy p) && draw_overflows p l then sample expf logf uniform p logits prompt output g = Err (UB "float to int")
     else exists st g', sample expf logf uniform p logits prompt output g = Ok (st, g') /\ in_vocab logits (st_token st) /\ Zlen (st_top st) <= Z.max 0 (logprobs p)).
Proof.
  intros Hne Hb. unfold sample. destruct (process_spec p prompt output logits Hb) as (l & -> & Hl & _). exists l. split; [done |]. cbn [rbind]. intros Hcase. assert (Hln : l <> []) by (intros ->; destruct logits; [done |]; rewrite Zlen_nil, Zlen_cons in Hl; pose proof (Zlen_nonneg logits); lia).
  assert (HT : if negb (is_greedy p) && draw_overflows p l then (if is_greedy p then Ok (vec_argmax l, g) else draw expf logf uniform p l g) = Err (UB "float to int") else exists t g', (if is_greedy p then Ok (vec_argmax l, g) else draw expf logf uniform p l g) = Ok (t, g') /\ in_vocab logits t).
  { destruct (is_greedy p) eqn:Eg; cbn [negb andb]; [eexists _, _; split; [reflexivity |]; unfold in_vocab; rewrite <- Hl; by apply argmax_range |]. destruct Hcase as [? | [Hn Hb32] ]; [done |]. pose proof (draw_result p l g Hln Hn Hb32) as Hd. destruct (draw_overflows p l); [done |]. destruct Hd as (t & g' & E & Ht). exists t, g'. split; [done |]. unfold in_vocab in *. lia. }
  destruct (negb (is_greedy p) && draw_overflows p l); [by rewrite HT |]. destruct HT as (t & g' & -> & Ht). cbn [rbind]. destruct (Z.leb_spec 0 (logprobs p)) as [H0 | H0]; [| eexists _, _; split_and!; [reflexivity | done | cbn [st_top]; unfold Zlen; cbn [length]; lia] ]. rewrite vget_val by done. cbn [rbind]. eexists _, _. split_and!; [reflexivity | done |]. cbn [st_top]. destruct (Z.ltb_spec 0 (logprobs p)) as [H1 | H1]; [| cbn [st_top]; unfold Zlen; cbn [length]; lia].
  unfold Zlen. rewrite length_map. pose proof (vec_top_k_length logits (Z.min (logprobs p) (Zlen logits))) as Hk. unfold Zlen in *. lia.
Qed.
End Drawing.

(** ** Masked tokens are not drawn *)
Definition zero (x : spec_float) : Prop := exists s, x = S754_zero s.
Lemma mul_zero x y : zero x -> number (fmul x y) -> zero (fmul x y).
Proof. intros [s ->] H. destruct y as [s' | s' | | s' m e]; try done; by eexists. Qed.
Lemma draw_skips r x : fle r d0 = false -> zero x -> fle (dsub r (to_double x)) d0 = false.
Proof. intros H [s ->]. by destruct r as [ [] | [] | | [] m e], s. Qed.
Definition use_up (probs : list spec_float) (r : spec_float) : spec_float := foldl (fun r x => dsub r (to_double x)) r probs.
Lemma pick_positive probs : forall c last r, fle r d0 = false -> fle (use_up probs r) d0 = true -> exists k x, pick_loop probs c last r = (c + k)%nat /\ probs !! k = Some x /\ ~ zero x.
Proof.
  induction probs as [| x probs IH]; intros c last r Hr Hu; cbn [pick_loop use_up foldl] in *; [congruence |]. destruct (fle (dsub r (to_double x)) d0) eqn:E.
  - exists 0%nat, x. split_and!; [lia | done |]. intros Hz. by rewrite draw_skips in E.
  - destruct (IH (S c) last _ E Hu) as (k & y & H1 & H2 & H3). exists (S k), y. split_and!; [lia | done | done].
Qed.
Lemma val_map f v t : in_vocab v t -> val (map f v) t = f (val v t).
Proof. intros [H1 H2]. unfold val, vlookup. rewrite (proj2 (Z.leb_le 0 t)) by lia. unfold Zlen in H2. destruct (lookup_lt_is_Some_2 v (Z.to_nat t)) as [x Hx]; [lia |]. fold (fmap (M := list) f). rewrite list_lookup_fmap, Hx. done. Qed.
Section Masks.
Context (expf logf : spec_float -> spec_float) {R : Type} (uniform : R -> spec_float -> spec_float * R).
(** the weights of the draw are numbers: the temperature is positive, and some scaled logit is above minus infinity *)
Definition weights_defined (p : SamplingParams) (v : list spec_float) : Prop :=
  let s := scaled_logits p v in
  flt f0 (fdiv f1 (temperature p)) = true /\ Forall number s /\ Forall binary32 s /\ fgt (max_value s) NINF = true /\
  forall ids probs, candidates logf p (max_value s) s = Ok ids -> softmax expf (max_value s) s ids = Ok probs -> Forall number probs.
(** the random number is 0, or rounding leaves some of it when all weights are subtracted *)
Definition draw_missed (p : SamplingParams) (v : list spec_float) (g : R) : Prop :=
  let s := scaled_logits p v in
  exists ids probs, candidates logf p (max_value s) s = Ok ids /\ softmax expf (max_value s) s ids = Ok probs /\
    let kept := top_p_keep p probs in let r := (uniform g (sum_double kept)).1 in fle r d0 = true \/ fle (use_up kept r) d0 = false.
Lemma draw_unmasked p v g t g' : zero (expf NINF) -> v <> [] -> weights_defined p v -> draw expf logf uniform p v g = Ok (t, g') -> in_vocab v t /\ (val v t = NINF -> draw_missed p v g).
Proof.
  intros Hexp Hne (Hi & Hsn & Hsb & Hmx & Hreg) E. unfold draw in E. change (map _ v) with (scaled_logits p v) in E. set (s := scaled_logits p v) in *. assert (Hs : s <> []) by (subst s; by destruct v). assert (Hsl : Zlen s = Zlen v) by (unfold Zlen, s, scaled_logits; by rewrite length_map).
  pose proof (candidates_result logf p (max_value s) s Hs Hsn Hsb) as Hc. destruct (truncation_overflows logf p (max_value s) s); [by rewrite Hc in E |]. destruct Hc as (ids & Ec & Hin & Hids). rewrite Ec in E. cbn [rbind] in E. destruct (softmax_result expf (max_value s) s ids Hids) as (probs & inv & Ep & Eprobs). rewrite Ep in E. cbn [rbind] in E. pose proof (Hreg ids probs Ec Ep) as Hn.
  assert (Hpn : probs <> []) by (intros ->; by destruct ids). destruct (top_p_keep_length p probs Hpn) as (K1 & K2 & K3). set (kept := top_p_keep p probs) in *. destruct (uniform g (sum_double kept)) as [r g1] eqn:Eu. set (k := pick_loop kept 0 (length kept - 1) r) in *.
  destruct (vget ids (Z.of_nat k)) as [t' | e] eqn:Et; [| done]. cbn [rbind] in E. injection E as -> <-. unfold vget, vlookup in Et. rewrite (proj2 (Z.leb_le 0 (Z.of_nat k))), Nat2Z.id in Et by lia. destruct (ids !! k) as [t' |] eqn:Ek; [| done]. injection Et as ->. rewrite Forall_forall in Hids. pose proof (Hids t (list_elem_of_lookup_2 _ _ _ Ek)) as Ht.
  assert (Htv : in_vocab v t) by (unfold in_vocab in *; lia). split; [done |]. intros Hv. exists ids, probs. split; [done |]. split; [done |]. cbv zeta. fold kept. rewrite Eu. cbn [fst]. destruct (fle r d0) eqn:Hr; [by left | right]. apply not_true_iff_false. intros Hu.
  destruct (pick_positive kept 0 (length kept - 1) r Hr Hu) as (k' & x & Hk & Hx & Hz). fold k in Hk. rewrite Nat.add_0_l in Hk. subst k'. apply Hz. assert (Hpx : probs !! k = Some x) by (rewrite K3 in Hx; by apply lookup_take_Some in Hx as [? _]). rewrite Forall_forall in Hn. pose proof (Hn x (list_elem_of_lookup_2 _ _ _ Hpx)) as Hxn.
  rewrite Eprobs in Hpx. fold (fmap (M := list) (fun i => fmul (expf (fsub (val s i) (max_value s))) inv)) in Hpx. rewrite list_lookup_fmap, Ek in Hpx. injection Hpx as <-. apply mul_zero; [| done]. unfold s at 1, scaled_logits. rewrite (val_map _ v t Htv), Hv, mul_silent by done. rewrite sub_silent; [done | by intros E0; rewrite E0 in Hmx | by intros E0; rewrite E0 in Hmx].
Qed.
End Masks.

(** ** Runs *)
Definition step_exp (x : spec_float) : spec_float := match x with S754_infinity true => f0 | _ => f1 end.
Definition given_draw (r s : spec_float) : spec_float * spec_float := (r, r).
Definition one_half : spec_float := ddiv d1 (dadd d1 d1).
Definition run_params (allowed : list Z) (bad : list (list Z)) : SamplingParams :=
  mkParams 1 f1 f1 0 f0 f0 f0 f1 (-1) None 16 0 false [] [] false true 2 false [(0, f1)] allowed bad false [] [] [].
Definition run_logits : list spec_float := [f1; f2; f2; NINF].
Definition run (draw : spec_float) : res (SampledToken * spec_float) := sample step_exp (fun x => x) given_draw (run_params [0; 1; 3] [ [5; 1] ]) run_logits [2] [5] draw.
Lemma run_bias : Forall (fun kv => in_vocab run_logits kv.1) (logit_bias (run_params [0; 1; 3] [ [5; 1] ])).
Proof. constructor; [by vm_compute | constructor]. Qed.
(** the logits of the run after the processors, scaled by the temperature 1 *)
Lemma run_scaled : Forall number (scaled_logits (run_params [0; 1; 3] [ [5; 1] ]) [f2; NINF; NINF; NINF]) /\ Forall binary32 (scaled_logits (run_params [0; 1; 3] [ [5; 1] ]) [f2; NINF; NINF; NINF]).
Proof. split; vm_compute; repeat (apply Forall_cons; split; [first [discriminate | reflexivity] |]); apply Forall_nil; exact I. Qed.
Lemma sample_in_range_witness : exists st g', run one_half = Ok (st, g') /\ in_vocab run_logits (st_token st) /\ Zlen (st_top st) <= Z.max 0 2.
Proof.
  destruct (sample_in_range step_exp (fun x => x) given_draw (run_params [0; 1; 3] [ [5; 1] ]) run_logits [2] [5] one_half) as (l & El & H); [done | apply run_bias |].
  assert (El' : process (run_params [0; 1; 3] [ [5; 1] ]) [2] [5] run_logits = Ok [f2; NINF; NINF; NINF]) by (vm_compute; reflexivity). rewrite El' in El. injection El as <-. specialize (H (or_intror run_scaled)).
  assert (Eo : negb (is_greedy (run_params [0; 1; 3] [ [5; 1] ])) && draw_overflows (fun x => x) (run_params [0; 1; 3] [ [5; 1] ]) [f2; NINF; NINF; NINF] = false) by (vm_compute; reflexivity). rewrite Eo in H. exact H.
Defined.
(** The draw may be 0, as the distribution includes its lower bound: then the first candidate is taken,
    whatever its weight, and a token that a grammar masked is sampled. *)
Theorem zero_draw_takes_masked : exists st g', sample step_exp (fun x => x) given_draw (run_params [] []) [NINF; f1] [] [] d0 = Ok (st, g') /\ st_token st = 0 /\ forbidden (run_params [] []) [NINF; f1] [] (st_token st).
Proof. eexists _, _. split; [vm_compute; reflexivity |]. split; [reflexivity | by left]. Qed.
