(* ===== verification/Draft.v ===== *)
(** * The draft model of speculative decoding (src/iian/draft.cpp, draft.h)

    [release], [ensure_cells] and [draft] with their two phases: catching the draft cache up with
    the real tokens in chunks, then greedy rounds.  The forward pass of the draft model ([run]) is
    the parameter [run]: it maps a batch and the draft's memory to the logit rows, or [None] when
    it throws. *)

From S2P Require Import Prelude BlockPool FreeList PoolSpec KVCache Request Scheduler Batch.

Section draft.
Context {P : Type} `{PO : PoolOps P}.
(** logit values with the comparison argmax uses, the draft's memory and forward pass *)
Context {V M : Type} (gt : V -> V -> bool) (run : UBatch -> M -> option (list (list V)) * M).
Context (is_eog : Z -> bool).
(** cfg_.n_draft *)
Context (n_draft : Z).
Implicit Types s : Sched P.

Record Draft := mkDraft { d_kv : PagedKVCache P; d_mem : M }.

Definition release (rid : Z) (s : Sched P) (d : Draft) : res (Sched P * Draft) :=
  let! x := get_req rid s in
  let! (st, k) := free_kv (draft_kv x) (d_kv d) in
  Ok (put_req rid (set_draft_computed 0 (set_draft_kv st x)) s, mkDraft k (d_mem d)).

Definition ensure_cells (rid n_total : Z) (s : Sched P) (d : Draft) : res (bool * Sched P * Draft) :=
  let! x := get_req rid s in
  let! (ok, st, k) := allocate_slots (draft_kv x) n_total [] (d_kv d) in
  Ok (ok, put_req rid (set_draft_kv st x) s, mkDraft k (d_mem d)).

(** requests that can be drafted for *)
Fixpoint draft_select (l reqs : list Z) (s : Sched P) (d : Draft) : res (list Z * Sched P * Draft) :=
  match l with
  | [] => Ok (reqs, s, d)
  | rid :: l =>
      let! x := get_req rid s in
      if is_finished x || is_embedding x || has_grammar x then draft_select l reqs s d else
      if negb (num_computed_tokens x =? u32 (n_tokens x - 1)) then draft_select l reqs s d else
      let! (s, d) := if negb (draft_epoch x =? num_preemptions x) then
                       let! (s, d) := release rid s d in
                       let! s := upd_req rid (fun x => set_draft_epoch (num_preemptions x) x) s in Ok (s, d)
                     else Ok (s, d) in
      let! x := get_req rid s in
      let! (s, d) := if n_tokens x <? draft_computed x then release rid s d else Ok (s, d) in
      let! (ok, s, d) := ensure_cells rid (u32 (n_tokens x + n_draft)) s d in
      if (ok : bool) then draft_select l (reqs ++ [rid]) s d
      else let! s := upd_req rid (set_spec_tokens []) s in draft_select l reqs s d
  end.

(** ** Batches *)

(** the local variables of a batch under construction; [in_batch] holds indices into [reqs] *)
Record DBatch := mkDBatch { db : Build; in_batch : list Z }.
Definition empty_dbatch : DBatch := mkDBatch empty_build [].

(** append the cells 0..n_ctx-1 and the tokens [new] at [from], [from]+1, ... of request [x] *)
Definition dbatch_add (bs : Z) (i : Z) (x : Request) (from n_ctx : Z) (new : list Z) (out : bool) (b : DBatch) : res DBatch :=
  let! cs := rmap (cell_of bs (draft_kv x)) (zrange 0 n_ctx) in
  let! slots := rmap (cell_of bs (draft_kv x)) (zrange from n_ctx) in
  let bd := db b in
  let all := bd_tokens bd ++ new in
  Ok (mkDBatch
        (mkBuild all (bd_pos bd ++ zrange from n_ctx)
           (bd_seq_idx bd ++ map (fun _ => i32 (Zlen (bd_seqs bd))) (zrange from n_ctx)) (bd_slots bd ++ slots)
           (if out then bd_out_ids bd ++ [i32 (Zlen all) - 1] else bd_out_ids bd)
           (bd_seqs bd ++ [mkSeq cs (zrange 0 n_ctx)]) (logit_rows bd) (embd_rows bd)
           (foldl Z.min (cell_min bd) cs) (foldl Z.max (cell_max bd) cs))
        (in_batch b ++ [i])).

Definition dbatch_ub (d : Draft) (b : DBatch) : UBatch :=
  let bd := db b in
  let n_outputs := u32 (Zlen (bd_out_ids bd)) in
  let kv_start := u32 (Z.quot (cell_min bd) 256 * 256) in
  let n_kv := Z.min (u32 (num_cells_ (d_kv d) - kv_start)) (u32 (Z.quot (cell_max bd + 1 - kv_start + 255) 256 * 256)) in
  mkUB (u32 (Zlen (bd_tokens bd))) n_outputs n_kv kv_start (bd_tokens bd) (bd_pos bd) (bd_seq_idx bd) (bd_slots bd)
    (bd_out_ids bd) (bd_seqs bd).
(** [if (ub.n_outputs == 0) { ub.out_ids.push_back(0); ub.n_outputs = 1; }] *)
Definition pad_outputs (ub : UBatch) : UBatch :=
  if ub_n_outputs ub =? 0 then
    mkUB (ub_n_tokens ub) 1 (ub_n_kv ub) (ub_kv_start ub) (ub_tokens ub) (ub_pos ub) (ub_seq_idx ub) (ub_slots ub)
      (ub_out_ids ub ++ [0]) (ub_seqs ub)
  else ub.

(** ** Phase 1 *)

(** the tokens [lo, hi) *)
Definition token_range (x : Request) (lo hi : Z) : res (list Z) := rmap (vget (tokens x)) (zrange lo hi).

(** one batch: requests [i], [i+1], ... while fewer than [budget] tokens are used *)
Fixpoint catch_up_fill (l : list Z) (i used : Z) (last_row : list Z) (s : Sched P) (b : DBatch) (bs : Z)
  : res (list Z * Sched P * DBatch) :=
  match l with
  | [] => Ok (last_row, s, b)
  | rid :: l =>
      if used <? 512 then
        let! x := get_req rid s in
        if n_tokens x <=? draft_computed x then catch_up_fill l (i + 1) used last_row s b bs else
        let n_new := Z.min (n_tokens x - draft_computed x) (512 - used) in
        let n_ctx := draft_computed x + n_new in
        let! toks := token_range x (draft_computed x) n_ctx in
        let out := n_ctx =? n_tokens x in
        let! last_row := if out then vset last_row i (i32 (Zlen (bd_out_ids (db b)))) else Ok last_row in
        let! b := dbatch_add bs i x (draft_computed x) n_ctx toks out b in
        catch_up_fill l (i + 1) (used + n_new) last_row (put_req rid (set_draft_computed n_ctx x) s) b bs
      else Ok (last_row, s, b)
  end.

(** keep the rows of the requests whose last token was in the batch *)
Fixpoint keep_logits (l : list Z) (last_row : list Z) (rows : list (list V)) (last_logits : list (list V))
  : res (list (list V)) :=
  match l with
  | [] => Ok last_logits
  | i :: l =>
      let! r := vget last_row i in
      let! old := vget last_logits i in
      if (0 <=? r) && bool_decide (length old = 0%nat) then
        let! row := vget rows r in
        let! last_logits := vset last_logits i row in
        keep_logits l last_row rows last_logits
      else keep_logits l last_row rows last_logits
  end.

Fixpoint catch_up (fuel : nat) (reqs last_row : list Z) (last_logits : list (list V)) (s : Sched P) (d : Draft)
  : res (option (list (list V)) * Sched P * Draft) :=
  match fuel with
  | O => Err Fuel
  | S fuel =>
      let! (last_row, s, b) := catch_up_fill reqs 0 0 last_row s empty_dbatch (kv_block_size (d_kv d)) in
      if bool_decide (in_batch b = []) then Ok (Some last_logits, s, d) else
      let '(rows, m) := run (pad_outputs (dbatch_ub d b)) (d_mem d) in
      let d := mkDraft (d_kv d) m in
      match rows with
      | None => Ok (None, s, d)
      | Some rows =>
          let! last_logits := keep_logits (in_batch b) last_row rows last_logits in
          catch_up fuel reqs last_row last_logits s d
      end
  end.

(** ** Phase 2 *)
Fixpoint argmax_from (row : list V) (t b : Z) (best : V) : Z :=
  match row with
  | [] => b
  | v :: row => if gt v best then argmax_from row (t + 1) t v else argmax_from row (t + 1) b best
  end.
(** [l[0]] is read unconditionally *)
Definition argmax (row : list V) : res Z :=
  match row with [] => Err (UB "empty logits row") | v :: row => Ok (argmax_from row 1 0 v) end.

(** first proposals, and who stays active *)
Fixpoint first_drafts (reqs : list Z) (last_logits : list (list V)) (s : Sched P) : res (list bool * Sched P) :=
  match reqs with
  | [] => Ok ([], s)
  | rid :: reqs =>
      match last_logits with
      | [] => Err (UB "vector index out of range")
      | row :: last_logits =>
          let! s := upd_req rid (set_spec_tokens []) s in
          let! (a, s) :=
            match row with
            | [] => Ok (false, s)
            | _ => let! t := argmax row in
                   let! s := upd_req rid (fun x => set_spec_tokens (spec_tokens x ++ [t]) x) s in
                   Ok (negb (is_eog t), s)
            end in
          let! (act, s) := first_drafts reqs last_logits s in
          Ok (a :: act, s)
      end
  end.

Fixpoint round_fill (reqs : list Z) (active : list bool) (i round : Z) (s : Sched P) (b : DBatch) (bs : Z) : res DBatch :=
  match reqs, active with
  | rid :: reqs, a :: active =>
      if (a : bool) then
        let! x := get_req rid s in
        let pos := u32 (n_tokens x + round - 1) in
        let! t := vget (spec_tokens x) (Zlen (spec_tokens x) - 1) in
        let! b := dbatch_add bs i x pos (pos + 1) [t] true b in
        round_fill reqs active (i + 1) round s b bs
      else round_fill reqs active (i + 1) round s b bs
  | [], _ => Ok b
  | _ :: _, [] => Err (UB "vector index out of range")
  end.

Fixpoint round_take (l : list Z) (j : Z) (reqs : list Z) (active : list bool) (rows : list (list V)) (s : Sched P)
  : res (list bool * Sched P) :=
  match l with
  | [] => Ok (active, s)
  | i :: l =>
      let! row := vget rows j in
      let! t := argmax row in
      let! rid := vget reqs i in
      let! s := upd_req rid (fun x => set_spec_tokens (spec_tokens x ++ [t]) x) s in
      let! active := if is_eog t then vset active i false else Ok active in
      round_take l (j + 1) reqs active rows s
  end.

Fixpoint draft_rounds (todo : nat) (round : Z) (reqs : list Z) (active : list bool) (s : Sched P) (d : Draft)
  : res (bool * Sched P * Draft) :=
  match todo with
  | O => Ok (true, s, d)
  | S todo =>
      let! b := round_fill reqs active 0 round s empty_dbatch (kv_block_size (d_kv d)) in
      if bool_decide (in_batch b = []) then Ok (true, s, d) else
      let '(rows, m) := run (dbatch_ub d b) (d_mem d) in
      let d := mkDraft (d_kv d) m in
      match rows with
      | None => Ok (false, s, d)
      | Some rows =>
          let! (active, s) := round_take (in_batch b) 0 reqs active rows s in
          draft_rounds todo (round + 1) reqs active s d
      end
  end.

(** tokens the draft still has to read *)
Definition behind (s : Sched P) (reqs : list Z) : nat :=
  foldr (fun rid n => (n + match heap s !! rid with Some x => Z.to_nat (n_tokens x - draft_computed x) | None => 0 end)%nat) 0%nat reqs.

(** [draft]; the boolean is false when an exception left it *)
Definition draft (reqs_in : list Z) (s : Sched P) (d : Draft) : res (bool * Sched P * Draft) :=
  if (n_draft =? 0) || bool_decide (reqs_in = []) then Ok (true, s, d) else
  let! (reqs, s, d) := draft_select reqs_in [] s d in
  if bool_decide (reqs = []) then Ok (true, s, d) else
  let! (ll, s, d) := catch_up (S (behind s reqs)) reqs (replicate (length reqs) (-1)) (replicate (length reqs) []) s d in
  match ll with
  | None => Ok (false, s, d)
  | Some last_logits =>
      let! (active, s) := first_drafts reqs last_logits s in
      draft_rounds (Z.to_nat (n_draft - 1)) 1 reqs active s d
  end.
End draft.
