(* ===== verification/Attention.v ===== *)
(** * Which cells a batch token attends to (src/iian/graph.cpp, src/iian/paged_attn.cpp)

    The engine has three attention paths: a masked window over the cache, the paged kernel, and
    per-sequence gathered attention.  Each is modelled by the cells it lets a query read:
    [fill_kq_mask] and [masked_cells] for the window, [paged_cells] for the kernel, [attn_groups],
    [gather_idx], [fill_gather_mask] and [gather_cells] for the gathered groups.  A mask entry is
    [None] for -inf and [Some v] for the bias [v] that is added to the score. *)

From S2P Require Import Prelude BlockPool FreeList PoolSpec KVCache Request Scheduler Batch.

(** the hyper-parameters the masks read; [n_swa] is the sliding window (0 = none), [is_swa] flags
    the layers that use it, [alibi] stands for f_max_alibi_bias > 0 *)
Record HParams := mkHP { causal_attn : bool; n_swa : Z; is_swa : list bool; alibi : bool }.

Definition has_swa_layers (hp : HParams) : bool := existsb (fun f => f) (is_swa hp).

(** ** Masked window *)
Definition mask_value (hp : HParams) (p1 p0 : Z) : Z := if alibi hp then - Z.abs (p1 - p0) else 0.

(** the inner loop: cells of the row's sequence *)
Fixpoint kq_row (hp : HParams) (swa : bool) (n_kv kv_start i p1 : Z) (cs ps : list Z) (buf : list (option Z))
  : res (list (option Z)) :=
  match cs with
  | [] => Ok buf
  | c :: cs =>
      match ps with
      | [] => Err (UB "cell_pos out of range")
      | p0 :: ps =>
          let! buf :=
            if negb (causal_attn hp) || (p0 <=? p1) then
              if swa && (n_swa hp <=? p1 - p0) then Ok buf else
              let j := c - kv_start in
              if (j <? 0) || (n_kv <=? j) then Ok buf
              else vset buf (i * n_kv + j) (Some (mask_value hp p1 p0))
            else Ok buf in
          kq_row hp swa n_kv kv_start i p1 cs ps buf
      end
  end.
Fixpoint kq_rows (todo : nat) (hp : HParams) (swa : bool) (ub : UBatch) (i : Z) (buf : list (option Z))
  : res (list (option Z)) :=
  match todo with
  | O => Ok buf
  | S todo =>
      let! si := vget (ub_seq_idx ub) i in
      let! s := vget (ub_seqs ub) si in
      let! p1 := vget (ub_pos ub) i in
      let! buf := kq_row hp swa (ub_n_kv ub) (ub_kv_start ub) i p1 (cells s) (cell_pos s) buf in
      kq_rows todo hp swa ub (i + 1) buf
  end.
Definition fill_kq_mask (hp : HParams) (swa : bool) (ub : UBatch) : res (list (option Z)) :=
  kq_rows (Z.to_nat (ub_n_tokens ub)) hp swa ub 0
    (replicate (Z.to_nat (ub_n_kv ub * ub_n_tokens ub)) None).

(** set_inputs and build_attn: the mask a layer uses *)
Definition layer_swa_masked (hp : HParams) (il : Z) : res bool :=
  if (0 <? n_swa hp) && has_swa_layers hp then vget (is_swa hp) il else Ok (0 <? n_swa hp).

Definition masked_cells (hp : HParams) (il : Z) (ub : UBatch) (t : Z) : res (list Z) :=
  let! swa := layer_swa_masked hp il in
  let! m := fill_kq_mask hp swa ub in
  Ok (List.filter (fun c => match vlookup m (t * ub_n_kv ub + (c - ub_kv_start ub)) with
                            | Some (Some _) => true | _ => false end)
                  (zrange (ub_kv_start ub) (ub_kv_start ub + ub_n_kv ub))).

(** ** Paged kernel *)
Definition layer_swa_paged (hp : HParams) (il : Z) : res bool :=
  if 0 <? n_swa hp then
    if bool_decide (is_swa hp = []) || negb (has_swa_layers hp) then Ok true else vget (is_swa hp) il
  else Ok false.

(** pass 1 of paged_attn_impl: the cells that get a finite score *)
Fixpoint scored_cells (causal : bool) (swa p1 : Z) (cs ps : list Z) : res (list Z) :=
  match cs with
  | [] => Ok []
  | c :: cs =>
      match ps with
      | [] => Err (UB "cell_pos out of range")
      | p0 :: ps =>
          let! l := scored_cells causal swa p1 cs ps in
          if (causal && (p1 <? p0)) || ((0 <? swa) && (swa <=? p1 - p0)) then Ok l else Ok (c :: l)
      end
  end.
Definition paged_cells (hp : HParams) (il : Z) (ub : UBatch) (t : Z) : res (list Z) :=
  let! layer_swa := layer_swa_paged hp il in
  let! si := vget (ub_seq_idx ub) t in
  let! s := vget (ub_seqs ub) si in
  let! p1 := vget (ub_pos ub) t in
  scored_cells (causal_attn hp) (if layer_swa then n_swa hp else 0) p1 (cells s) (cell_pos s).

(** ** Gathered groups *)
Record AttnGroup := mkGroup { g_tok0 : Z; g_T : Z; g_S : Z; g_L : Z; g_seqs : list Z }.

(** token count and first token of every sequence *)
Fixpoint count_tokens (todo : nat) (ub : UBatch) (i : Z) (n_tok tok0 : list Z) : res (list Z * list Z) :=
  match todo with
  | O => Ok (n_tok, tok0)
  | S todo =>
      let! s := vget (ub_seq_idx ub) i in
      let! n := vget n_tok s in
      let! n_tok := vset n_tok s (u32 (n + 1)) in
      let! t0 := vget tok0 s in
      let! tok0 := vset tok0 s (Z.min t0 i) in
      count_tokens todo ub (i + 1) n_tok tok0
  end.

(** std::sort by first token (the keys are distinct) *)
Fixpoint insert_by_tok0 (tok0 : list Z) (s : Z) (l : list Z) : list Z :=
  match l with
  | [] => [s]
  | s' :: l' => if default 0 (vlookup tok0 s) <? default 0 (vlookup tok0 s') then s :: l
                else s' :: insert_by_tok0 tok0 s l'
  end.
Definition sort_by_tok0 (tok0 : list Z) (l : list Z) : list Z := foldl (fun acc s => insert_by_tok0 tok0 s acc) [] l.

(** the grouping loop: extend the last group while the token counts agree *)
Fixpoint group_loop (ub : UBatch) (n_tok tok0 order : list Z) (groups : list AttnGroup) : res (list AttnGroup) :=
  match order with
  | [] => Ok groups
  | s :: order =>
      let! n := vget n_tok s in
      let! t0 := vget tok0 s in
      let! q := vget (ub_seqs ub) s in
      let len := u32 (Zlen (cells q)) in
      let fresh := groups ++ [mkGroup t0 n 1 len [s]] in
      let groups :=
        match last groups with
        | Some g => if g_T g =? n
                    then removelast groups ++ [mkGroup (g_tok0 g) (g_T g) (u32 (g_S g + 1)) (Z.max (g_L g) len) (g_seqs g ++ [s])]
                    else fresh
        | None => fresh
        end in
      group_loop ub n_tok tok0 order groups
  end.

Definition attn_groups (ub : UBatch) : res (list AttnGroup) :=
  let n := length (ub_seqs ub) in
  let! (n_tok, tok0) := count_tokens (Z.to_nat (ub_n_tokens ub)) ub 0 (replicate n 0) (replicate n (2 ^ 32 - 1)) in
  let order := List.filter (fun s => 0 <? default 0 (vlookup n_tok s)) (zrange 0 (Z.of_nat n)) in
  let! groups := group_loop ub n_tok tok0 (sort_by_tok0 tok0 order) [] in
  Ok (map (fun g => mkGroup (g_tok0 g) (g_T g) (g_S g) (Z.max 256 (u32 (g_L g + 255) / 256 * 256)) (g_seqs g)) groups).

Definition attn_layout_hash (groups : list AttnGroup) : Z :=
  let mix h v := u64 (Z.lxor h v * 1099511628211) in
  foldl (fun h g => mix (mix (mix (mix h (g_tok0 g)) (g_T g)) (g_S g)) (g_L g)) 1469598103934665603 groups.

(** set_inputs: the gather indices of a group, padded with the first cell *)
Definition gather_seq_idx (ub : UBatch) (L s : Z) : res (list Z) :=
  let! q := vget (ub_seqs ub) s in
  rmap (fun j => if j <? Zlen (cells q) then vget (cells q) j else vget (cells q) 0) (zrange 0 L).

(** fill_gather_mask: the row of the t-th token of the group's si-th sequence *)
Fixpoint gather_row (hp : HParams) (swa : bool) (p1 : Z) (j : Z) (cs ps : list Z) (row : list (option Z))
  : res (list (option Z)) :=
  match cs with
  | [] => Ok row
  | _ :: cs =>
      match ps with
      | [] => Err (UB "cell_pos out of range")
      | p0 :: ps =>
          let! row :=
            if causal_attn hp && (p1 <? p0) then Ok row else
            if swa && (n_swa hp <=? p1 - p0) then Ok row else
            vset row j (Some (mask_value hp p1 p0)) in
          gather_row hp swa p1 (j + 1) cs ps row
      end
  end.
Definition fill_gather_row (hp : HParams) (swa : bool) (ub : UBatch) (g : AttnGroup) (si t : Z) : res (list (option Z)) :=
  let! s := vget (g_seqs g) si in
  let! q := vget (ub_seqs ub) s in
  let! p1 := vget (ub_pos ub) (g_tok0 g + si * g_T g + t) in
  gather_row hp swa p1 0 (cells q) (cell_pos q) (replicate (Z.to_nat (g_L g)) None).

(** the cells the query (si, t) of group [g] attends to *)
Definition gather_cells (hp : HParams) (il : Z) (ub : UBatch) (g : AttnGroup) (si t : Z) : res (list Z) :=
  let! swa := layer_swa_masked hp il in
  let! s := vget (g_seqs g) si in
  let! idx := gather_seq_idx ub (g_L g) s in
  let! row := fill_gather_row hp swa ub g si t in
  Ok (zip idx row ≫= fun cv => match cv with (c, Some _) => [c] | (_, None) => [] end).
