(* ===== verification/Engine.v ===== *)
(** * The engine loop (src/iian/engine.cpp, include/iian/engine.h)

    The engine owns the scheduler, the request queues the submitters share with it, and the loop
    that schedules, runs the model and turns logits into tokens.  What it calls is gathered in two
    interfaces: [ModelOps] for tokenizer, sampler and grammar, and [forward] for the graph
    execution.  Floats are values of a type [V] with a least element [neg_inf].

    An exception leaves its function with the state at that point: functions that can throw while
    they change state return the state together with [Some message]. *)

From stdpp Require Import pretty.
From S2P Require Import Prelude BlockPool FreeList PoolSpec KVCache Request Sampling Scheduler Batch Attention Draft Detok.

(** tokenizer, sampler (state [SS]) and grammar (state [G]); a grammar that refuses a token throws *)
Record ModelOps (V SS G : Type) := mkOps {
  n_vocab : Z;
  neg_inf : V;
  gt : V -> V -> bool;
  is_eog : Z -> bool;
  token_to_piece : Z -> bool -> list Z;
  new_sampler : SamplingParams -> Z -> SS;
  sample : SS -> list V -> list Z -> list Z -> Z * SS;
  json_schema_to_grammar : list Z -> option (list Z);
  grammar_init : list Z -> list Z -> option G;
  would_accept : G -> Z -> bool;
  grammar_apply : G -> list V -> list V;
  grammar_accept : G -> Z -> option G
}.
Arguments n_vocab {V SS G}. Arguments neg_inf {V SS G}. Arguments gt {V SS G}. Arguments is_eog {V SS G}.
Arguments token_to_piece {V SS G}. Arguments new_sampler {V SS G}. Arguments sample {V SS G}.
Arguments json_schema_to_grammar {V SS G}. Arguments grammar_init {V SS G}. Arguments would_accept {V SS G}.
Arguments grammar_apply {V SS G}. Arguments grammar_accept {V SS G}.

Record EngineConfig := mkECfg {
  sched_cfg : SchedulerConfig;
  seed : Z;
  spec_ngram : Z;
  spec_ngram_min_n : Z;
  spec_ngram_max_n : Z;
  spec_draft_n : Z;
  paged_attn : bool;
  gather_attn : bool;
  attention_force_paged : bool;
  n_head_max : Z;
  n_threads : Z
}.

Record EngineStats := mkEStats {
  requests_total : Z;
  requests_finished : Z;
  requests_aborted : Z;
  prompt_tokens : Z;
  generation_tokens : Z;
  steps : Z;
  spec_drafted : Z;
  spec_accepted : Z;
  ttft_samples : Z
}.
Definition zero_stats : EngineStats := mkEStats 0 0 0 0 0 0 0 0 0.

Inductive AttnPath := Masked | Paged | Gather.

Record Engine (P M SS G : Type) := mkEngine {
  sched_ : Sched P;
  samplers_ : gmap Z (SS * option G);
  outs_ : gmap Z OutputQueue;
  new_requests_ : list Z;
  aborts_ : list Z;
  next_id_ : Z;
  e_running_ : bool;
  quit_ : bool;
  draft_ : option (Draft (P:=P) (M:=M));
  stats_ : EngineStats
}.
Arguments mkEngine {P M SS G}. Arguments sched_ {P M SS G}. Arguments samplers_ {P M SS G}. Arguments outs_ {P M SS G}.
Arguments new_requests_ {P M SS G}. Arguments aborts_ {P M SS G}. Arguments next_id_ {P M SS G}.
Arguments e_running_ {P M SS G}. Arguments quit_ {P M SS G}. Arguments draft_ {P M SS G}. Arguments stats_ {P M SS G}.

(** ** n-gram drafts *)

(** the inner scan: occurrences [i], [i-1], ..., [from] of the suffix *)
Fixpoint ngram_scan (todo : nat) (toks : list Z) (n k i : Z) : list Z :=
  match todo with
  | O => []
  | S todo =>
      if bool_decide (vslice toks i n = vslice toks (Zlen toks - n) n)
      then let out := take (Z.to_nat k) (drop (Z.to_nat (i + n)) toks) in
           if bool_decide (out = []) then ngram_scan todo toks n k (i - 1) else out
      else ngram_scan todo toks n k (i - 1)
  end.
Fixpoint ngram_sizes (todo : nat) (toks : list Z) (k from n : Z) : list Z :=
  match todo with
  | O => []
  | S todo =>
      let out := if Zlen toks <? n + 1 then []
                 else ngram_scan (Z.to_nat (Zlen toks - n - from)) toks n k (Zlen toks - n - 1) in
      if bool_decide (out = []) then ngram_sizes todo toks k from (n - 1) else out
  end.
Definition ngram_draft (c : EngineConfig) (toks : list Z) : list Z :=
  let search_from := if 8192 <? Zlen toks then Zlen toks - 8192 else 0 in
  let lo := Z.max 1 (spec_ngram_min_n c) in
  ngram_sizes (Z.to_nat (spec_ngram_max_n c + 1 - lo)) toks (spec_ngram c) search_from (spec_ngram_max_n c).

(** ** Strings *)

(** std::to_string, as bytes *)
Fixpoint bytes_of (s : string) : list Z :=
  match s with String.EmptyString => [] | String.String c s => Z.of_N (Ascii.N_of_ascii c) :: bytes_of s end.
Definition to_string (n : Z) : list Z := bytes_of (pretty n).

(** std::string::find *)
Fixpoint find_at (todo : nat) (s pat : list Z) (i : Z) : option Z :=
  match todo with
  | O => None
  | S todo => if bool_decide (vslice s i (Zlen pat) = pat) then Some i else find_at todo s pat (i + 1)
  end.
(** the first occurrence at or after [from]; candidates end where [pat] no longer fits *)
Definition find (s pat : list Z) (from : Z) : option Z :=
  find_at (Z.to_nat (Zlen s - Zlen pat + 1 - from)) s pat from.

Section engine.
Context {P : Type} `{PO : PoolOps P} {V SS G M Mem : Type}.
Context (ops : ModelOps V SS G) (cfg : EngineConfig).
(** the forward pass: K/V memory to logit rows and the new memory ([None]: it threw) *)
Context (forward : AttnPath -> UBatch -> Mem -> option (list (list V)) * Mem).
Context (draft_run : UBatch -> M -> option (list (list V)) * M).
Implicit Types e : Engine P M SS G.

Definition with_sched s e : Engine P M SS G :=
  mkEngine s (samplers_ e) (outs_ e) (new_requests_ e) (aborts_ e) (next_id_ e) (e_running_ e) (quit_ e) (draft_ e) (stats_ e).
Definition with_samplers m e : Engine P M SS G :=
  mkEngine (sched_ e) m (outs_ e) (new_requests_ e) (aborts_ e) (next_id_ e) (e_running_ e) (quit_ e) (draft_ e) (stats_ e).
Definition with_outs q e : Engine P M SS G :=
  mkEngine (sched_ e) (samplers_ e) q (new_requests_ e) (aborts_ e) (next_id_ e) (e_running_ e) (quit_ e) (draft_ e) (stats_ e).
Definition with_inbox n a e : Engine P M SS G :=
  mkEngine (sched_ e) (samplers_ e) (outs_ e) n a (next_id_ e) (e_running_ e) (quit_ e) (draft_ e) (stats_ e).
Definition with_next_id i e : Engine P M SS G :=
  mkEngine (sched_ e) (samplers_ e) (outs_ e) (new_requests_ e) (aborts_ e) i (e_running_ e) (quit_ e) (draft_ e) (stats_ e).
Definition with_flags r q e : Engine P M SS G :=
  mkEngine (sched_ e) (samplers_ e) (outs_ e) (new_requests_ e) (aborts_ e) (next_id_ e) r q (draft_ e) (stats_ e).
Definition with_draft d e : Engine P M SS G :=
  mkEngine (sched_ e) (samplers_ e) (outs_ e) (new_requests_ e) (aborts_ e) (next_id_ e) (e_running_ e) (quit_ e) d (stats_ e).
Definition with_stats st e : Engine P M SS G :=
  mkEngine (sched_ e) (samplers_ e) (outs_ e) (new_requests_ e) (aborts_ e) (next_id_ e) (e_running_ e) (quit_ e) (draft_ e) st.

Definition ereq (rid : Z) e : res Request := get_req rid (sched_ e).
Definition eput (rid : Z) (x : Request) e : Engine P M SS G := with_sched (put_req rid x (sched_ e)) e.
(** [r->out->push(c)] *)
Definition push_out (h : Z) (c : OutputChunk) e : Engine P M SS G :=
  with_outs (<[h := push c (default empty_queue (outs_ e !! h))]> (outs_ e)) e.

(** ** submit, submit_embedding, abort *)
Definition new_request (rid : Z) (ps : SamplingParams) (prio arr salt : Z) (prompt : list Z) (gram embd : bool) : Request :=
  mkRequest rid prio arr salt ps prompt (u32 (Zlen prompt)) WAITING NONE [] 0 0 0 empty_kvs [] gram embd 0 [] empty_kvs 0 0
    [] [] 0 0 [] [] rid.

(** allocate the request and hand it over: the locked block at the end of both submits *)
Definition enqueue (rid : Z) (x : Request) (sg : option (SS * option G)) e : Engine P M SS G :=
  let e := eput rid x e in
  let e := with_outs (<[rid := empty_queue]> (outs_ e)) e in
  let e := match sg with Some v => with_samplers (<[rid := v]> (samplers_ e)) e | None => e end in
  let st := stats_ e in
  with_stats (mkEStats (u64 (requests_total st + 1)) (requests_finished st) (requests_aborted st) (prompt_tokens st)
                (generation_tokens st) (steps st) (spec_drafted st) (spec_accepted st) (ttft_samples st))
    (with_inbox (new_requests_ e ++ [rid]) (aborts_ e) e).

(** the grammar of a request, if it asks for one *)
Definition request_grammar (ps : SamplingParams) : res (option G) :=
  if bool_decide (grammar ps = []) && bool_decide (json_schema ps = []) then Ok None else
  let! gbnf :=
    if bool_decide (json_schema ps = []) then Ok (grammar ps)
    else match json_schema_to_grammar ops (json_schema ps) with
         | Some g => Ok g
         | None => throw! "json_schema cannot be converted to a grammar"
         end in
  match grammar_init ops gbnf (grammar_root ps) with
  | Some g => Ok (Some g)
  | None => throw! "invalid grammar (see the server log for the parse error)"
  end.

(** a submit either throws or returns the handle's id; the id is drawn before the grammar is read *)
Definition submit (prompt : list Z) (ps : SamplingParams) (prio arr salt : Z) e : res Z * Engine P M SS G :=
  if bool_decide (prompt = []) then (throw! "prompt must not be empty", e) else
  match validate (n_vocab ops) ps with
  | Err x => (Err x, e)
  | Ok _ =>
      if existsb (out_of_vocab (n_vocab ops)) prompt then (throw! "prompt token id out of range", e) else
      if max_model_len (sched_cfg cfg) <=? Zlen prompt then (throw! "prompt is too long", e) else
      let rid := next_id_ e in
      let e := with_next_id (u64 (rid + 1)) e in
      match request_grammar ps with
      | Err x => (Err x, e)
      | Ok g =>
          let x := new_request rid ps prio arr salt prompt (bool_decide (is_Some g)) false in
          let ss := new_sampler ops ps (u64 (seed cfg + rid * 0x9E3779B97F4A7C15)) in
          (Ok rid, enqueue rid x (Some (ss, g)) e)
      end
  end.

(** the parameters of an embedding request: defaults with max_tokens = 1 *)
Definition embedding_params : SamplingParams :=
  mkParams 1 f1 f1 0 f0 f0 f0 f1 (-1) None 1 0 false [] [] false true (-1) false [] [] [] false [] [] [].
Definition submit_embedding (prompt : list Z) (prio arr salt : Z) e : res Z * Engine P M SS G :=
  if bool_decide (prompt = []) then (throw! "input must not be empty", e) else
  if existsb (out_of_vocab (n_vocab ops)) prompt then (throw! "input token id out of range", e) else
  if max_model_len (sched_cfg cfg) <? Zlen prompt then (throw! "input is too long", e) else
  let rid := next_id_ e in
  (Ok rid, enqueue rid (new_request rid embedding_params prio arr salt prompt false true) None
             (with_next_id (u64 (rid + 1)) e)).

Definition abort (i : Z) e : Engine P M SS G := with_inbox (new_requests_ e) (aborts_ e ++ [i]) e.

(** ** finish and deliver *)

(** the final chunk of a request, with the held-back text flushed *)
Definition finish_req (st : RequestStatus) (why : FinishReason) (err : string) (x : Request) : OutputChunk * Request :=
  let x := set_status st (set_finish_reason why x) in
  let '(tail, pend) := if is_embedding x then ([], detok_pending x) else detok_finish (detok_pending x) in
  let x := set_detok_pending pend (set_text (text x ++ tail) x) in
  let more := text_sent x <? Zlen (text x) in
  let txt := if more then drop (Z.to_nat (text_sent x)) (text x) else [] in
  let x := if more then set_text_sent (Zlen (text x)) x else x in
  (mkChunk (pending_tokens x) txt (pending_logprobs x) true why (stop_reason x) err (n_prompt x) (n_output x)
     (num_cached_tokens x), set_pending_tokens [] (set_pending_logprobs [] x)).

Definition finish (rid : Z) (st : RequestStatus) (why : FinishReason) (err : string) e : res (Engine P M SS G) :=
  let! x := ereq rid e in
  if is_finished x then Ok e else
  let '(c, x) := finish_req st why err x in
  let e := push_out (out x) c (eput rid x e) in
  let! e := match draft_ e with
            | Some d => let! (s, d) := release rid (sched_ e) d in Ok (with_draft (Some d) (with_sched s e))
            | None => Ok e
            end in
  let! s := finish_request rid st (sched_ e) in
  let e := with_sched s e in
  let t := stats_ e in
  Ok (with_stats (mkEStats (requests_total t) (u64 (requests_finished t + 1))
                    (if decide (why = ABORT) then u64 (requests_aborted t + 1) else requests_aborted t) (prompt_tokens t)
                    (generation_tokens t) (steps t) (spec_drafted t) (spec_accepted t) (ttft_samples t)) e).

(** the longest tail that could begin a stop string *)
Definition holdback (ps : SamplingParams) : Z :=
  foldl (fun h s => Z.max h (if 0 <? Zlen s then Zlen s - 1 else 0)) 0 (stop ps).

(** [deliver] on the request itself: the chunk to push, if any *)
Definition deliver_req (x : Request) : option OutputChunk * Request :=
  let hb := holdback (params x) in
  let send_to := if hb <? Zlen (text x) then Zlen (text x) - hb else 0 in
  if (send_to <=? text_sent x) && bool_decide (pending_tokens x = []) then (None, x) else
  let more := text_sent x <? send_to in
  let txt := if more then vslice (text x) (text_sent x) (send_to - text_sent x) else [] in
  let x := if more then set_text_sent send_to x else x in
  let c := mkChunk (pending_tokens x) txt (pending_logprobs x) false NONE [] EmptyString (n_prompt x) (n_output x) 0 in
  (Some c, set_pending_tokens [] (set_pending_logprobs [] x)).
Definition deliver (rid : Z) e : res (Engine P M SS G) :=
  let! x := ereq rid e in
  match deliver_req x with
  | (Some c, x) => Ok (push_out (out x) c (eput rid x e))
  | (None, x) => Ok e
  end.

(** ** process_outputs: one row *)

(** what the rows of a scheduled request work on; [rs_exn] is the exception that ended them *)
Record RowState := mkRow {
  rs_req : Request;
  rs_sampler : SS * option G;
  rs_accepted : Z;
  rs_stop : bool;
  rs_why : FinishReason;
  rs_gen : Z;
  rs_ttft : Z;
  rs_exn : option string
}.

(** min_tokens: forbid EOS and stop tokens *)
Fixpoint forbid (l : list Z) (row : list V) : res (list V) :=
  match l with [] => Ok row | t :: l => let! row := vset row t (neg_inf ops) in forbid l row end.
Definition mask_min_tokens (x : Request) (row : list V) : res (list V) :=
  if i32 (n_output x) <? min_tokens (params x) then
    forbid (stop_token_ids (params x)) (imap (fun t v => if is_eog ops (Z.of_nat t) then neg_inf ops else v) row)
  else Ok row.

(** the token and the new sampler and grammar state; [None] when the grammar throws *)
Definition sample_row (x : Request) (sg : SS * option G) (row : list V) : Z * SS * option (option G) :=
  let prompt := take (Z.to_nat (n_prompt x)) (tokens x) in
  let output := drop (Z.to_nat (n_prompt x)) (tokens x) in
  let '(t, ss) := sample ops sg.1 row prompt output in
  match sg.2 with
  | None => (t, ss, Some None)
  | Some g =>
      let '(t, ss) := if would_accept ops g t then (t, ss)
                      else sample ops ss (grammar_apply ops g row) prompt output in
      (t, ss, Some <$> grammar_accept ops g t)
  end.

(** stop strings: the match that ends first *)
Definition best_stop (x : Request) : option (Z * Z * list Z) :=
  foldl (fun best s =>
           if bool_decide (s = []) then best else
           let from := if Zlen s <? stop_check_offset x then stop_check_offset x - Zlen s else 0 in
           match find (text x) s from with
           | Some pos => match best with
                         | Some (best_end, _, _) => if pos + Zlen s <? best_end then Some (pos + Zlen s, pos, s) else best
                         | None => Some (pos + Zlen s, pos, s)
                         end
           | None => best
           end) None (stop (params x)).
Definition check_stop_strings (x : Request) : bool * Request :=
  match best_stop x with
  | Some (best_end, best_start, s) =>
      let x := set_stop_reason s x in
      let txt := take (Z.to_nat (if include_stop_str_in_output (params x) then best_end else best_start)) (text x) in
      let x := set_detok_pending (detok_finish (detok_pending x)).2 (set_text txt x) in
      (true, set_stop_check_offset (Zlen txt) x)
  | None => (false, set_stop_check_offset (Zlen (text x)) x)
  end.

(** r->text += r->detok->push(token) *)
Definition push_text (t : Z) (x : Request) : res Request :=
  let! (o, pend) := detok_push (token_to_piece ops t (negb (skip_special_tokens (params x)))) (detok_pending x) in
  Ok (set_detok_pending pend (set_text (text x ++ o) x)).

(** everything after the token is known: append it, run the stop checks *)
Definition append_token (t : Z) (x : Request) : res (Request * bool * FinishReason) :=
  let p := params x in
  let x := set_tokens (tokens x ++ [t]) x in
  let x := set_pending_tokens (pending_tokens x ++ [t]) x in
  let x := if 0 <=? logprobs p then set_pending_logprobs (pending_logprobs x ++ [t]) x else x in
  let eog := is_eog ops t in
  let stop0 := eog && negb (ignore_eos p) in
  let stop1 := negb stop0 && bool_decide (t ∈ stop_token_ids p) in
  let x := if stop1 then set_stop_reason (to_string t) x else x in
  let stp := stop0 || stop1 in
  let! x := if negb (stp && negb (include_stop_str_in_output p) && negb eog) && negb (eog && skip_special_tokens p)
            then push_text t x
            else if negb eog then push_text t x else Ok x in
  let '(stp2, x) := if negb stp && negb (bool_decide (Request.stop p = [])) && (min_tokens p <=? i32 (n_output x))
                    then check_stop_strings x else (false, x) in
  let stp := stp || stp2 in
  let why := if stp then STOP else NONE in
  let full := (0 <? max_tokens p) && (max_tokens p <=? i32 (n_output x)) in
  let long := max_model_len (sched_cfg cfg) <=? n_tokens x in
  Ok (x, stp || full || long, if stp then why else if full || long then LENGTH else NONE).

(** rows [k], [k+1], ..., [n_spec] of a request whose first row is [first] *)
Fixpoint rows_loop (todo : nat) (rows : list (list V)) (first n_spec k : Z) (st : RowState) : res RowState :=
  match todo with
  | O => Ok st
  | S todo =>
      let x := rs_req st in
      let! row := vget rows (first + k) in
      let! row := mask_min_tokens x row in
      let '(t, ss, g) := sample_row x (rs_sampler st) row in
      match g with
      | None => Ok (mkRow x (ss, (rs_sampler st).2) (rs_accepted st) (rs_stop st) (rs_why st) (rs_gen st) (rs_ttft st)
                      (Some "grammar does not accept the token"%string))
      | Some g =>
          let verifying := k <? n_spec in
          let! accepted := if verifying then let! d := vget (spec_tokens x) k in Ok (t =? d) else Ok false in
          let! (x, stp, why) := append_token t x in
          let st := mkRow x (ss, g) (if (accepted : bool) then rs_accepted st + 1 else rs_accepted st) stp why
                      (rs_gen st + 1) (if n_output x =? 1 then rs_ttft st + 1 else rs_ttft st) None in
          if (verifying && negb accepted) || stp then Ok st else rows_loop todo rows first n_spec (k + 1) st
      end
  end.

Definition add_ttft n e : Engine P M SS G :=
  let t := stats_ e in
  with_stats (mkEStats (requests_total t) (requests_finished t) (requests_aborted t) (prompt_tokens t) (generation_tokens t)
                (steps t) (spec_drafted t) (spec_accepted t) (u64 (ttft_samples t + n))) e.
Definition add_spec n acc e : Engine P M SS G :=
  let t := stats_ e in
  with_stats (mkEStats (requests_total t) (requests_finished t) (requests_aborted t) (prompt_tokens t) (generation_tokens t)
                (steps t) (u64 (spec_drafted t + n)) (u64 (spec_accepted t + acc)) (ttft_samples t)) e.
Definition add_counts n_prompt n_gen e : Engine P M SS G :=
  let t := stats_ e in
  with_stats (mkEStats (requests_total t) (requests_finished t) (requests_aborted t) (u64 (prompt_tokens t + n_prompt))
                (u64 (generation_tokens t + n_gen)) (steps t) (spec_drafted t) (spec_accepted t) (ttft_samples t)) e.

(** ** process_outputs: one scheduled request

    Returns the prompt tokens it finished and the tokens it generated. *)
Definition process_one (s : ScheduledRequest) (row : Z) (rows : list (list V)) e
  : res (Z * Z * option string * Engine P M SS G) :=
  let! x := ereq (s_req s) e in
  if is_finished x then Ok (0, 0, None, e) else
  let before := u32 (num_computed_tokens x - n_new_tokens s) in
  let np := if before <? n_prompt x then Z.min (n_new_tokens s) (u32 (n_prompt x - before)) else 0 in
  if is_embedding x || (row <? 0) then Ok (np, 0, None, e) else
  match samplers_ e !! s_req s with
  | None => Err (UB "request without a sampler")
  | Some sg =>
      let! st := rows_loop (Z.to_nat (n_spec s + 1)) rows row (n_spec s) 0 (mkRow x sg 0 false NONE 0 0 None) in
      let e := add_ttft (rs_ttft st) (with_samplers (<[s_req s := rs_sampler st]> (samplers_ e)) e) in
      match rs_exn st with
      | Some msg => Ok (np, rs_gen st, Some msg, eput (s_req s) (rs_req st) e)
      | None =>
          let x := rs_req st in
          let rejected := u32 (n_spec s - rs_accepted st) in
          let '(x, e) := if 0 <? n_spec s
                         then (set_num_computed_tokens (u32 (num_computed_tokens x - rejected)) x,
                               add_spec (n_spec s) (rs_accepted st) e)
                         else (x, e) in
          let x := set_spec_tokens
                     (if negb (rs_stop st) && bool_decide (draft_ e = None) && (0 <? spec_ngram cfg) && negb (has_grammar x)
                      then ngram_draft cfg (tokens x) else []) x in
          let e := eput (s_req s) x e in
          let! e := if rs_stop st
                    then finish (s_req s) (if decide (rs_why st = LENGTH) then FINISHED_LENGTH else FINISHED_STOPPED)
                           (rs_why st) EmptyString e
                    else deliver (s_req s) e in
          Ok (np, rs_gen st, None, e)
      end
  end.

(** ** process_outputs *)
Fixpoint process_loop (l : list ScheduledRequest) (lrows : list Z) (rows : list (list V)) (np ng : Z) e
  : res (Z * Z * option string * Engine P M SS G) :=
  match l with
  | [] => Ok (np, ng, None, e)
  | s :: l =>
      match lrows with
      | [] => Err (UB "vector index out of range")
      | row :: lrows =>
          let! (p, g, ex, e) := process_one s row rows e in
          match ex with
          | Some m => Ok (np + p, ng + g, Some m, e)
          | None => process_loop l lrows rows (np + p) (ng + g) e
          end
      end
  end.

(** the requests the draft model proposes tokens for *)
Fixpoint draft_cands (l : list ScheduledRequest) (s : Sched P) : res (list Z) :=
  match l with
  | [] => Ok []
  | e :: l =>
      let! x := get_req (s_req e) s in
      let! cs := draft_cands l s in
      Ok (if negb (is_finished x) && negb (is_embedding x) && negb (has_grammar x)
             && (u32 (num_computed_tokens x + 1) =? n_tokens x) then s_req e :: cs else cs)
  end.
Fixpoint clear_drafts (l : list Z) (s : Sched P) : res (Sched P) :=
  match l with [] => Ok s | r :: l => let! s := upd_req r (set_spec_tokens []) s in clear_drafts l s end.

Definition process_outputs (so : SchedulerOutput) (rows : list (list V)) (lrows : list Z) e
  : res (option string * Engine P M SS G) :=
  let! (np, ng, ex, e) := process_loop (scheduled so) lrows rows 0 0 e in
  match ex with
  | Some m => Ok (Some m, e)
  | None =>
      let! e :=
        match draft_ e with
        | None => Ok e
        | Some d =>
            let! cands := draft_cands (scheduled so) (sched_ e) in
            if bool_decide (cands = []) then Ok e else
            let! (ok, s, d) := draft (gt ops) draft_run (is_eog ops) (spec_draft_n cfg) cands (sched_ e) d in
            let! s := if (ok : bool) then Ok s else clear_drafts cands s in
            Ok (with_draft (Some d) (with_sched s e))
        end in
      Ok (None, add_counts np ng e)
  end.

(** ** process_embeddings (the pooled vector itself is float arithmetic on [embd_acc]) *)
Definition embed_one (s : ScheduledRequest) (row : Z * Z) e : res (Engine P M SS G) :=
  let! x := ereq (s_req s) e in
  if negb (is_embedding x) || is_finished x then Ok e else
  let x := set_embd_count (u32 (embd_count x + row.2)) x in
  let e := eput (s_req s) x e in
  if n_tokens x <=? num_computed_tokens x
  then finish (s_req s) FINISHED_STOPPED STOP EmptyString (add_counts (n_prompt x) 0 e)
  else Ok e.
Fixpoint embed_loop (l : list ScheduledRequest) (erows : list (Z * Z)) e : res (Engine P M SS G) :=
  match l with
  | [] => Ok e
  | s :: l =>
      match erows with
      | [] => Err (UB "vector index out of range")
      | r :: erows => let! e := embed_one s r e in embed_loop l erows e
      end
  end.
Definition process_embeddings (so : SchedulerOutput) (erows : list (Z * Z)) e : res (Engine P M SS G) :=
  if existsb (fun r => 0 <=? r.1) erows then embed_loop (scheduled so) erows e else Ok e.

(** ** step *)
Fixpoint add_all (l : list Z) (s : Sched P) : res (Sched P) :=
  match l with [] => Ok s | r :: l => let! s := add_request (sched_cfg cfg) r s in add_all l s end.

(** the request with id [i], if there is one *)
Fixpoint find_id (i : Z) (l : list Z) (s : Sched P) : res (option Z) :=
  match l with
  | [] => Ok None
  | r :: l => let! x := get_req r s in if id x =? i then Ok (Some r) else find_id i l s
  end.
Fixpoint abort_all (l : list Z) e : res (Engine P M SS G) :=
  match l with
  | [] => Ok e
  | i :: l =>
      let! r := find_id i (all_requests (sched_ e)) (sched_ e) in
      let! e := match r with Some r => finish r FINISHED_ABORTED ABORT EmptyString e | None => Ok e end in
      abort_all l e
  end.
Definition ingest e : res (Engine P M SS G) :=
  let fresh := new_requests_ e in
  let aborts := aborts_ e in
  let e := with_inbox [] [] e in
  let! s := add_all fresh (sched_ e) in
  abort_all aborts (with_sched s e).

(** nothing schedulable: fail the waiting requests when nothing runs *)
Fixpoint fail_waiting (l : list Z) e : res (Engine P M SS G) :=
  match l with
  | [] => Ok e
  | r :: l =>
      let! x := ereq r e in
      let! e := if bool_decide (status x = WAITING) && bool_decide (running_ (sched_ e) = [])
                then finish r FINISHED_ERROR ERROR "request does not fit in the KV cache" e
                else Ok e in
      fail_waiting l e
  end.

(** the attention path of the step *)
Definition paged_step (ub : UBatch) : bool :=
  paged_attn cfg && (attention_force_paged cfg || (2 * u64 (n_threads cfg) <=? u64 (ub_n_tokens ub * n_head_max cfg))).
Definition gather_step (ub : UBatch) : bool :=
  gather_attn cfg &&
  (let act := List.filter (fun q => negb (bool_decide (cells q = []))) (ub_seqs ub) in
   let sum_len := foldl (fun a q => u32 (a + u32 (Zlen (cells q)))) 0 act in
   (1 <? Zlen act) || (u32 (sum_len + 256) <? ub_n_kv ub)).
Definition attn_path (ub : UBatch) : AttnPath :=
  if paged_step ub then Paged else if gather_step ub then Gather else Masked.

Definition count_step e : Engine P M SS G :=
  let t := stats_ e in
  with_stats (mkEStats (requests_total t) (requests_finished t) (requests_aborted t) (prompt_tokens t) (generation_tokens t)
                (u64 (steps t + 1)) (spec_drafted t) (spec_accepted t) (ttft_samples t)) e.

(** the result of a step: whether it did work, or the exception that left it *)
Inductive StepResult := Did (b : bool) | Threw (msg : string).

Definition step (mem : Mem) e : res (StepResult * Mem * Engine P M SS G) :=
  let! e := ingest e in
  if negb (has_requests (sched_ e)) then Ok (Did false, mem, e) else
  let! (so, s) := schedule (sched_cfg cfg) (sched_ e) in
  let e := with_sched s e in
  if bool_decide (scheduled so = []) then
    if negb (bool_decide (preempted so = [])) then Ok (Did true, mem, e) else
    let! e := fail_waiting (all_requests (sched_ e)) e in Ok (Did false, mem, e)
  else
    let! (so, ub, b) := build_batch (gather_attn cfg) so (sched_ e) in
    match forward (attn_path ub) ub mem with
    | (None, mem) => Ok (Threw "graph compute failed", mem, e)
    | (Some rows, mem) =>
        let! s := update_after_step so (sched_ e) in
        let e := with_sched s e in
        let! e := process_embeddings so (embd_rows b) e in
        let! (ex, e) := process_outputs so rows (logit_rows b) e in
        match ex with
        | Some m => Ok (Threw m, mem, e)
        | None => Ok (Did true, mem, count_step e)
        end
    end.

(** ** run_loop and stop *)
Fixpoint finish_all (l : list Z) (st : RequestStatus) (why : FinishReason) (err : string) e : res (Engine P M SS G) :=
  match l with
  | [] => Ok e
  | r :: l => let! e := finish r st why err e in finish_all l st why err e
  end.
(** one iteration of the loop: an exception fails every request *)
Definition run_iter (mem : Mem) e : res (bool * Mem * Engine P M SS G) :=
  let! (r, mem, e) := step mem e in
  match r with
  | Did b => Ok (b, mem, e)
  | Threw m =>
      let! e := finish_all (all_requests (sched_ e)) FINISHED_ERROR ERROR m e in Ok (false, mem, e)
  end.
(** stop(), after the engine thread has been joined *)
Definition engine_stop e : res (Engine P M SS G) :=
  let was_running := e_running_ e in
  let e := with_flags false true e in
  if negb was_running then Ok e
  else finish_all (all_requests (sched_ e)) FINISHED_ABORTED ABORT "engine shutting down" e.
End engine.
