(* ===== verification/EngineFacts.v ===== *)
(** * Facts about the engine loop: rows, drafts and what they leave alone *)

From S2P Require Import Prelude BlockPool FreeList PoolSpec KVCache Request Sampling Scheduler Batch Attention Draft Detok Engine.

(** the fields the output code does not touch *)
Record keeps (x x' : Request) : Prop := {
  k_id : id x' = id x;
  k_salt : cache_salt x' = cache_salt x;
  k_params : params x' = params x;
  k_prompt : n_prompt x' = n_prompt x;
  k_status : status x' = status x;
  k_computed : num_computed_tokens x' = num_computed_tokens x;
  k_cached : num_cached_tokens x' = num_cached_tokens x;
  k_preempt : num_preemptions x' = num_preemptions x;
  k_kv : kv x' = kv x;
  k_hashes : block_hashes x' = block_hashes x;
  k_grammar : has_grammar x' = has_grammar x;
  k_embd : is_embedding x' = is_embedding x;
  k_spec : spec_tokens x' = spec_tokens x;
  k_dkv : draft_kv x' = draft_kv x;
  k_sent : text_sent x' = text_sent x;
  k_out : out x' = out x
}.
Lemma keeps_refl x : keeps x x.
Proof. by split. Qed.
Lemma keeps_trans x y z : keeps x y -> keeps y z -> keeps x z.
Proof. intros [] []. split; congruence. Qed.

Section rows.
Context {V SS G : Type} (ops : ModelOps V SS G) (cfg : EngineConfig).

Lemma push_text_run t x : exists o rest,
  push_text ops t x = Ok (set_detok_pending rest (set_text (text x ++ o) x))
  /\ o ++ rest = detok_pending x ++ token_to_piece ops t (negb (skip_special_tokens (params x))).
Proof.
  unfold push_text. destruct (detok_push_ok (token_to_piece ops t (negb (skip_special_tokens (params x)))) (detok_pending x))
    as (o & rest & -> & Ho & _). by exists o, rest.
Qed.
Lemma check_stop_keeps x : keeps x (check_stop_strings x).2 /\ tokens (check_stop_strings x).2 = tokens x.
Proof. unfold check_stop_strings. destruct (best_stop x) as [[[? ?] ?] |]; split; done. Qed.

Lemma append_token_run t x : exists x' stp why, append_token ops cfg t x = Ok (x', stp, why)
  /\ keeps x x' /\ tokens x' = tokens x ++ [t].
Proof.
  unfold append_token. set (p := params x).
  set (x1 := set_pending_tokens _ (set_tokens _ x)).
  set (x2 := if 0 <=? logprobs p then _ else _).
  set (x3 := if negb _ && bool_decide (t ∈ _) then set_stop_reason _ x2 else x2).
  assert (H3 : keeps x x3 /\ tokens x3 = tokens x ++ [t]) by (subst x3 x2 x1; repeat case_match; done).
  set (m := if negb _ && _ then push_text ops t x3 else _).
  assert (exists x4, m = Ok x4 /\ keeps x x4 /\ tokens x4 = tokens x ++ [t]) as (x4 & -> & Hk & Ht).
  { destruct (push_text_run t x3) as (o & rest & Hp & _). destruct H3 as [Hk Ht]. subst m.
    assert (Hx : exists x4, push_text ops t x3 = Ok x4 /\ keeps x x4 /\ tokens x4 = tokens x ++ [t]).
    { eexists. split; [exact Hp |]. split; [| done]. eapply keeps_trans; [exact Hk | done]. }
    case_match; [done |]. case_match; [done |]. by exists x3. }
  cbn [rbind]. set (c := negb _ && negb _ && _). destruct c.
  - destruct (check_stop_strings x4) as [b y] eqn:E. destruct (check_stop_keeps x4) as [Hk4 Ht4]. rewrite E in Hk4, Ht4. simpl in *.
    eexists y, _, _. split; [done |]. split; [by eapply keeps_trans | by rewrite Ht4].
  - eexists x4, _, _. done.
Qed.

(** stop tokens within the vocabulary can be masked *)
Lemma forbid_run l row : (forall t, t ∈ l -> 0 <= t < Zlen row) -> exists row', forbid ops l row = Ok row' /\ Zlen row' = Zlen row.
Proof.
  revert row. induction l as [| t l IH]; intros row H; [by exists row |]. simpl. rewrite vset_Ok by (apply H; set_solver). cbn [rbind].
  destruct (IH (vinsert t (neg_inf ops) row)) as (r & -> & Hr); [intros u Hu; rewrite Zlen_vinsert; apply H; set_solver |].
  exists r. split; [done |]. by rewrite Hr, Zlen_vinsert.
Qed.
Lemma mask_run x row : (forall t, t ∈ stop_token_ids (params x) -> 0 <= t < Zlen row) -> exists row', mask_min_tokens ops x row = Ok row'.
Proof.
  intros H. unfold mask_min_tokens. case_match; [| eauto]. edestruct forbid_run as (r & -> & _); [| eauto].
  intros t Ht. unfold Zlen. rewrite length_imap. by apply H.
Qed.

(** ** Decoding one token at a time: the reference for speculative decoding

    [logits] is the row the model produces after a token sequence. *)
Fixpoint seq_decode (m : nat) (logits : list Z -> list V) (st : RowState (SS:=SS) (G:=G)) : res (RowState (SS:=SS) (G:=G)) :=
  match m with
  | O => Ok st
  | S m =>
      let x := rs_req st in
      let! row := mask_min_tokens ops x (logits (tokens x)) in
      let '(t, ss, g) := sample_row ops x (rs_sampler st) row in
      match g with
      | None => Ok (mkRow x (ss, (rs_sampler st).2) (rs_accepted st) (rs_stop st) (rs_why st) (rs_gen st) (rs_ttft st)
                      (Some "grammar does not accept the token"%string))
      | Some g =>
          let! (x, stp, why) := append_token ops cfg t x in
          let st := mkRow x (ss, g) (rs_accepted st) stp why (rs_gen st + 1) (if n_output x =? 1 then rs_ttft st + 1 else rs_ttft st) None in
          if stp then Ok st else seq_decode m logits st
      end
  end.

(** equal up to the count of accepted drafts *)
Definition same_outcome (a b : RowState (SS:=SS) (G:=G)) : Prop :=
  rs_req a = rs_req b /\ rs_sampler a = rs_sampler b /\ rs_stop a = rs_stop b /\ rs_why a = rs_why b
  /\ rs_gen a = rs_gen b /\ rs_ttft a = rs_ttft b /\ rs_exn a = rs_exn b.

Lemma seq_decode_ext m logits a b r : same_outcome a b -> seq_decode m logits a = Ok r ->
  exists r', seq_decode m logits b = Ok r' /\ same_outcome r r'.
Proof.
  revert a b. induction m as [| m IH]; intros a b Hab H; [simpl in *; simplify_eq; eauto |].
  pose proof Hab as (E1 & E2 & E3 & E4 & E5 & E6 & E7). simpl in *. rewrite <- E1, <- E2.
  destruct (mask_min_tokens ops (rs_req a) (logits (tokens (rs_req a)))) as [row | ex]; cbn [rbind] in *; [| done].
  destruct (sample_row ops (rs_req a) (rs_sampler a) row) as [[t ss] g]. destruct g as [g |].
  - destruct (append_token ops cfg t (rs_req a)) as [[[x stp] why] | ex]; cbn [rbind] in *; [| done].
    destruct stp; [simplify_eq; eexists; split; [done |]; split_and!; simpl; rewrite ?E5, ?E6; done |].
    eapply IH; [| exact H]. split_and!; simpl; rewrite ?E5, ?E6; done.
  - simplify_eq. eexists. split; [done |]. split_and!; simpl; congruence.
Qed.

(** what a pass over the rows has done: [m] tokens decoded in sequence *)
Record rows_done (logits : list Z -> list V) (n_spec k : Z) (toks0 : list Z) (st st' : RowState (SS:=SS) (G:=G)) (m : nat) : Prop := {
  rd_seq : exists r, seq_decode m logits st = Ok r /\ same_outcome st' r;
  rd_keeps : keeps (rs_req st) (rs_req st');
  rd_toks : exists new, tokens (rs_req st') = tokens (rs_req st) ++ new /\ (rs_exn st' = None -> length new = m);
  rd_range : (1 <= m <= Z.to_nat (n_spec - k + 1))%nat;
  rd_acc : rs_accepted st <= rs_accepted st' <= rs_accepted st + Z.of_nat m;
  rd_live : rs_exn st' = None -> rs_stop st' = false -> rs_accepted st' = rs_accepted st + Z.of_nat m - 1
}.

Lemma rows_loop_run logits rows first n_spec toks0 spec todo : forall k st,
  rs_exn st = None -> spec_tokens (rs_req st) = spec -> n_spec <= Zlen spec ->
  (forall j, 0 <= j <= n_spec -> vlookup rows (first + j) = Some (logits (toks0 ++ take (Z.to_nat j) spec))) ->
  (forall toks, Zlen (logits toks) = n_vocab ops) ->
  (forall t, t ∈ stop_token_ids (params (rs_req st)) -> 0 <= t < n_vocab ops) ->
  0 <= k -> k + Z.of_nat todo = n_spec + 1 -> (0 < todo)%nat ->
  tokens (rs_req st) = toks0 ++ take (Z.to_nat k) spec ->
  exists st' m, rows_loop ops cfg todo rows first n_spec k st = Ok st' /\ rows_done logits n_spec k toks0 st st' m.
Proof.
  induction todo as [| todo IH]; intros k st Hex Hsp Hns Hrows Hlen Hids Hk Hn Htodo Htoks; [lia |]. cbn [rows_loop].
  rewrite (proj2 (vget_Ok _ _ _) (Hrows k ltac:(lia))). cbn [rbind]. rewrite <- Htoks.
  destruct (mask_run (rs_req st) (logits (tokens (rs_req st)))) as [row Hrow]; [by rewrite Hlen |]. rewrite Hrow. cbn [rbind].
  destruct (sample_row ops (rs_req st) (rs_sampler st) row) as [[t ss] g] eqn:Es. destruct g as [g |].
  2: { eexists _, 1%nat. split; [done |]. split; simpl; try done; try lia.
       - rewrite Hrow. cbn [rbind]. rewrite Es. eexists. split; [done |]. done.
       - exists []. split; [by rewrite app_nil_r | done]. }
  destruct (append_token_run t (rs_req st)) as (x' & stp & why & Ha & Hkeep & Ht). rewrite Ha.
  assert (exists acc, (if k <? n_spec then let! d := vget (spec_tokens (rs_req st)) k in Ok (t =? d) else Ok false) = Ok acc
    /\ (acc = true -> k < n_spec /\ vlookup spec k = Some t) /\ (acc = false -> True)) as (acc & Hacc & Hacc1 & _).
  { destruct (k <? n_spec) eqn:E; [| by exists false]. destruct (vlookup_lt_is_Some spec k ltac:(lia)) as [d Hd].
    rewrite Hsp, (proj2 (vget_Ok _ _ _) Hd). cbn [rbind]. exists (t =? d). split; [done |]. split; [| done].
    intros Heq%Z.eqb_eq. subst. split; [lia | done]. }
  rewrite Hacc. cbn [rbind]. set (st1 := mkRow x' (ss, g) _ stp why _ _ None).
  assert (Hone : forall m, seq_decode (S m) logits st = if stp then Ok (mkRow x' (ss, g) (rs_accepted st) stp why (rs_gen st + 1) (if n_output x' =? 1 then rs_ttft st + 1 else rs_ttft st) None)
    else seq_decode m logits (mkRow x' (ss, g) (rs_accepted st) stp why (rs_gen st + 1) (if n_output x' =? 1 then rs_ttft st + 1 else rs_ttft st) None)).
  { intros m. cbn [seq_decode]. rewrite Hrow. cbn [rbind]. rewrite Es, Ha. done. }
  destruct (((k <? n_spec) && negb acc) || stp) eqn:Ebreak.
  - exists st1, 1%nat. split; [done |]. split; [rewrite Hone; destruct stp; eexists; split; done | simpl..]; try done; try lia.
    + exists [t]. done.
    + destruct acc; lia.
    + intros _ ->. rewrite orb_false_r in Ebreak. apply andb_true_iff in Ebreak as [_ Hacc']. destruct acc; [done | lia].
  - apply orb_false_iff in Ebreak as [Eb ->]. destruct todo as [| todo'].
    + exists st1, 1%nat. cbn [rows_loop]. split; [done |]. split; [rewrite Hone; eexists; done | simpl..]; try done; try lia.
      * by exists [t].
      * destruct acc; lia.
      * intros _ _. destruct acc; [destruct (Hacc1 eq_refl); lia | lia].
    + assert (k < n_spec) by lia. rewrite (proj2 (Z.ltb_lt k n_spec)) in Eb by lia. simpl in Eb. apply negb_false_iff in Eb. subst acc.
      destruct (Hacc1 eq_refl) as [_ Hd].
      destruct (IH (k + 1) st1) as (st' & m & Hl & [R1 R2 R3 R4 R5 R6]); try done; try lia.
      * simpl. by rewrite (k_spec _ _ Hkeep).
      * simpl. by rewrite (k_params _ _ Hkeep).
      * simpl. rewrite Ht, Htoks, <- app_assoc. f_equal. unfold vlookup in Hd. rewrite (proj2 (Z.leb_le 0 k)) in Hd by lia.
        replace (Z.to_nat (k + 1)) with (S (Z.to_nat k)) by lia. by rewrite (take_S_r _ _ _ Hd).
      * exists st', (S m). split; [exact Hl |]. simpl in R5, R6. split; try lia.
        -- destruct R1 as (r & Hr & Hs). rewrite Hone.
           destruct (seq_decode_ext m logits st1 (mkRow x' (ss, g) (rs_accepted st) false why (rs_gen st + 1) (if n_output x' =? 1 then rs_ttft st + 1 else rs_ttft st) None) r) as (r' & Hr' & Hs'); [done | done |].
           exists r'. split; [done |]. destruct Hs as (? & ? & ? & ? & ? & ? & ?), Hs' as (? & ? & ? & ? & ? & ? & ?). split_and!; congruence.
        -- eapply keeps_trans; [exact Hkeep | exact R2].
        -- destruct R3 as (new & Hnew & Hm). exists (t :: new). simpl in Hnew. rewrite Hnew, Ht, <- app_assoc. split; [done |].
           intros He. simpl. by rewrite Hm.
        -- intros He Hs. specialize (R6 He Hs). lia.
Qed.
End rows.
