(* ===== verification/EngineText.v ===== *)
(** * What the client reads: stop strings, hold-back and the streamed text *)

From S2P Require Import Prelude BlockPool FreeList PoolSpec KVCache Request Sampling Scheduler Batch Attention Draft Detok Engine EngineFacts.

(** ** std::string::find *)
Definition occurs_at (pat s : list Z) (p : Z) : Prop := 0 <= p /\ vslice s p (Zlen pat) = pat.
Definition occurs (pat s : list Z) : Prop := exists p, occurs_at pat s p.

Lemma occurs_fits pat s p : pat <> [] -> occurs_at pat s p -> p + Zlen pat <= Zlen s.
Proof.
  intros Hne [Hp E]. assert (0 < Zlen pat) by (destruct pat as [| z pat]; [done | rewrite Zlen_cons; pose proof (Zlen_nonneg pat); lia]).
  assert (length (vslice s p (Zlen pat)) = length pat) as Hl by by rewrite E.
  unfold vslice in Hl. rewrite length_take, length_drop in Hl. unfold Zlen in *. lia.
Qed.

Lemma find_at_spec todo s pat i : 0 <= i ->
  match find_at todo s pat i with
  | Some p => i <= p < i + Z.of_nat todo /\ occurs_at pat s p
  | None => forall p, i <= p < i + Z.of_nat todo -> ~ occurs_at pat s p
  end.
Proof.
  revert i. induction todo as [| todo IH]; intros i Hi; [intros p; lia |]. cbn [find_at]. case_bool_decide as E.
  - split; [lia |]. by split.
  - specialize (IH (i + 1) ltac:(lia)). destruct (find_at todo s pat (i + 1)) as [p |].
    + destruct IH as [? ?]. split; [lia | done].
    + intros p Hp [Hp0 Ho]. destruct (decide (p = i)) as [-> | ?]; [done |]. apply (IH p); [lia | by split].
Qed.
(** and it is the first one *)
Lemma find_first todo s pat i : 0 <= i ->
  forall q, find_at todo s pat i = Some q -> forall p, i <= p -> occurs_at pat s p -> q <= p.
Proof.
  revert i. induction todo as [| todo IH]; intros i Hi q Hq p Hp Ho; [done |]. cbn [find_at] in Hq. case_bool_decide as E; [simplify_eq; lia |].
  destruct (decide (p = i)) as [-> | ?]; [by destruct Ho |]. apply (IH (i + 1) ltac:(lia) q Hq p); [lia | done].
Qed.
Lemma find_spec s pat from : pat <> [] -> 0 <= from ->
  match find s pat from with
  | Some p => from <= p /\ p + Zlen pat <= Zlen s /\ occurs_at pat s p
  | None => forall p, from <= p -> ~ occurs_at pat s p
  end.
Proof.
  intros Hne Hf. unfold find. pose proof (find_at_spec (Z.to_nat (Zlen s - Zlen pat + 1 - from)) s pat from Hf) as H.
  destruct (find_at _ s pat from) as [p |].
  - destruct H as [? ?]. split; [lia |]. split; [by apply occurs_fits | done].
  - intros p Hp Ho. pose proof (occurs_fits pat s p Hne Ho). apply (H p); [lia | done].
Qed.

Lemma vslice_app_l {A} (l k : list A) i n : 0 <= i -> i + n <= Zlen l -> vslice (l ++ k) i n = vslice l i n.
Proof.
  intros Hi Hn. unfold vslice, Zlen in *. destruct (decide (0 <= n)) as [? | ?].
  - rewrite drop_app_le by lia. rewrite take_app_le; [done |]. rewrite length_drop. lia.
  - by replace (Z.to_nat n) with 0%nat by lia.
Qed.
Lemma occurs_app pat s k p : p + Zlen pat <= Zlen s -> occurs_at pat (s ++ k) p <-> occurs_at pat s p.
Proof. intros H. unfold occurs_at. split; intros [? E]; (split; [done |]); rewrite vslice_app_l in *; done || lia. Qed.

(** ** The stop-string scan *)

(** stop strings that count *)
Definition stops (x : Request) : list (list Z) := List.filter (fun s => negb (bool_decide (s = []))) (stop (params x)).
Lemma elem_of_stops x s : s ∈ stops x <-> s ∈ stop (params x) /\ s <> [].
Proof.
  unfold stops. rewrite list_elem_of_In, List.filter_In, <- list_elem_of_In, negb_true_iff. by rewrite bool_decide_eq_false.
Qed.

(** no stop string in [t] *)
Definition clean (x : Request) (t : list Z) : Prop := forall s, s ∈ stops x -> ~ occurs s t.

Definition best_step (x : Request) (best : option (Z * Z * list Z)) (s : list Z) : option (Z * Z * list Z) :=
  if bool_decide (s = []) then best else
  let from := if Zlen s <? stop_check_offset x then stop_check_offset x - Zlen s else 0 in
  match find (text x) s from with
  | Some pos => match best with
                | Some (best_end, _, _) => if pos + Zlen s <? best_end then Some (pos + Zlen s, pos, s) else best
                | None => Some (pos + Zlen s, pos, s)
                end
  | None => best
  end.

(** a candidate of the scan *)
Definition candidate (x : Request) (b : Z * Z * list Z) : Prop :=
  b.2 ∈ stops x /\ occurs_at b.2 (text x) b.1.2 /\ b.1.1 = b.1.2 + Zlen b.2 /\ b.1.1 <= Zlen (text x).

(** the scan over [seen] has found [best]: every new match ends no earlier *)
Definition scanned (x : Request) (seen : list (list Z)) (best : option (Z * Z * list Z)) : Prop :=
  (forall b, best = Some b -> candidate x b)
  /\ forall s p, s ∈ seen -> s <> [] -> stop_check_offset x < p + Zlen s -> occurs_at s (text x) p ->
       exists b, best = Some b /\ b.1.1 <= p + Zlen s.

Lemma best_step_scanned x seen best s :
  s ∈ stop (params x) -> 0 <= stop_check_offset x -> scanned x seen best -> scanned x (seen ++ [s]) (best_step x best s).
Proof.
  intros Hin Hoff [Hb Hseen]. unfold best_step. case_bool_decide as Es.
  { split; [done |]. intros s' p Hs' Hne. apply elem_of_app in Hs' as [Hs' | ->%list_elem_of_singleton]; [by apply Hseen | done]. }
  set (from := if Zlen s <? stop_check_offset x then _ else _).
  assert (Hfrom : 0 <= from /\ forall p, 0 <= p -> stop_check_offset x < p + Zlen s -> from <= p)
    by (subst from; case_match; split; lia || (intros; lia)).
  destruct Hfrom as [Hf0 Hfrom]. unfold find. set (todo := Z.to_nat _).
  pose proof (find_spec (text x) s from Es Hf0) as Hfind. pose proof (find_first todo (text x) s from Hf0) as Hfirst.
  unfold find in Hfind. fold todo in Hfind.
  destruct (find_at todo (text x) s from) as [pos |].
  - destruct Hfind as (H1 & H2 & H3). assert (Hc : candidate x (pos + Zlen s, pos, s)) by (split_and!; simpl; try done; by apply elem_of_stops).
    assert (Hnew : forall p, stop_check_offset x < p + Zlen s -> occurs_at s (text x) p -> pos <= p).
    { intros p Hp Ho. apply (Hfirst pos eq_refl p); [apply Hfrom; [apply Ho | done] | done]. }
    destruct best as [[[be bs] bt] |]; [destruct (pos + Zlen s <? be) eqn:E |]; (split; [intros b ?; simplify_eq; try done; by apply Hb |]);
      intros s' p [Hs' | ->%list_elem_of_singleton]%elem_of_app Hne Hp Ho; try (specialize (Hnew p Hp Ho)); try (eexists; split; [done |]; simpl; lia);
      destruct (Hseen s' p Hs' Hne Hp Ho) as (b & ? & Hle); simplify_eq; simpl in *; eexists; (split; [done | simpl; lia]).
  - split; [done |]. intros s' p [Hs' | ->%list_elem_of_singleton]%elem_of_app Hne Hp Ho; [by apply (Hseen s' p) |].
    exfalso. apply (Hfind p); [apply Hfrom; [apply Ho | done] | done].
Qed.
Lemma best_stop_scanned x : 0 <= stop_check_offset x -> scanned x (stop (params x)) (best_stop x).
Proof.
  intros Hoff. change (best_stop x) with (foldl (best_step x) None (stop (params x))).
  assert (H : forall l seen best, (forall s, s ∈ l -> s ∈ stop (params x)) -> scanned x seen best -> scanned x (seen ++ l) (foldl (best_step x) best l)).
  { induction l as [| s l IH]; intros seen best Hl Hs; [by rewrite app_nil_r |]. simpl.
    replace (seen ++ s :: l) with ((seen ++ [s]) ++ l) by by rewrite <- app_assoc.
    apply IH; [set_solver |]. apply best_step_scanned; [set_solver | done | done]. }
  apply (H (stop (params x)) [] None); [done |]. split; [done |]. intros s p Hs. by apply not_elem_of_nil in Hs.
Qed.

Lemma best_stop_spec x : 0 <= stop_check_offset x ->
  (forall b, best_stop x = Some b -> candidate x b)
  /\ (best_stop x = None -> forall s, s ∈ stops x -> forall p, stop_check_offset x < p + Zlen s -> ~ occurs_at s (text x) p).
Proof.
  intros Hoff. destruct (best_stop_scanned x Hoff) as [H1 H2]. split; [exact H1 |].
  intros Hn s [Hs Hne]%elem_of_stops p Hp Ho. destruct (H2 s p Hs Hne Hp Ho) as (b & ? & _). congruence.
Qed.

(** ** The hold-back *)
Definition hold_step (h : Z) (s : list Z) : Z := Z.max h (if 0 <? Zlen s then Zlen s - 1 else 0).
Lemma hold_mono l h : h <= foldl hold_step h l.
Proof.
  revert h. induction l as [| s l IH]; intros h; simpl; [lia |]. specialize (IH (hold_step h s)). unfold hold_step in *. lia.
Qed.
Lemma holdback_nonneg ps : 0 <= holdback ps.
Proof. apply (hold_mono (stop ps) 0). Qed.
Lemma holdback_ge ps s : s ∈ stop ps -> Zlen s - 1 <= holdback ps.
Proof.
  change (holdback ps) with (foldl hold_step 0 (stop ps)). generalize 0 as h.
  induction (stop ps) as [| s' l IH]; intros h Hs; [by apply not_elem_of_nil in Hs |]. simpl.
  apply elem_of_cons in Hs as [-> | Hs]; [| by apply IH]. pose proof (hold_mono l (hold_step h s')) as Hm. unfold hold_step in Hm at 1.
  pose proof (Zlen_nonneg s'). destruct (0 <? Zlen s') eqn:E; lia.
Qed.

(** what holds between two tokens of a request *)
Record stream_ok (x : Request) : Prop := {
  so_sent : 0 <= text_sent x <= Z.max 0 (Zlen (text x) - holdback (params x));
  so_clean : clean x (text x);
  so_off : stop (params x) <> [] -> stop_check_offset x = Zlen (text x)
}.

(** a match in a text that was clean before begins after everything sent *)
Lemma match_after_sent x y o p s :
  stream_ok x -> params y = params x -> text y = text x ++ o -> s ∈ stops y -> occurs_at s (text y) p -> text_sent x <= p /\ Zlen (text x) < p + Zlen s.
Proof.
  intros [H1 H2 H3] Hp Ht Hs Ho. assert (Hs' : s ∈ stops x) by (unfold stops in *; by rewrite <- Hp).
  assert (Hlt : Zlen (text x) < p + Zlen s).
  { destruct (decide (p + Zlen s <= Zlen (text x))) as [Hle | ?]; [| lia]. exfalso. apply (H2 s Hs'). exists p. rewrite Ht in Ho. exact (proj1 (occurs_app s (text x) o p Hle) Ho). }
  split; [| done]. apply elem_of_stops in Hs' as [Hs' _]. pose proof (holdback_ge _ _ Hs'). destruct Ho as [Hp0 _]. lia.
Qed.

Section stream.
Context {V SS G : Type} (ops : ModelOps V SS G) (cfg : EngineConfig).

(** a token that ends the request by itself *)
Definition token_stop (t : Z) (x : Request) : bool :=
  is_eog ops t && negb (ignore_eos (params x)) || bool_decide (t ∈ stop_token_ids (params x)).

(** [append_token] by cases: the text before the stop-string check, and the check *)
Lemma append_token_text t x x' stp why :
  append_token ops cfg t x = Ok (x', stp, why) -> min_tokens (params x) <= 0 -> 0 <= i32 (u32 (Zlen (tokens x) + 1 - n_prompt x)) ->
  exists y o, keeps x y /\ text y = text x ++ o /\ stop_check_offset y = stop_check_offset x /\ tokens y = tokens x ++ [t]
    /\ ((token_stop t x = true /\ stp = true /\ x' = y)
        \/ (token_stop t x = false /\ stop (params x) = [] /\ x' = y)
        \/ (token_stop t x = false /\ stop (params x) <> [] /\ x' = (check_stop_strings y).2
            /\ ((check_stop_strings y).1 = true -> stp = true))).
Proof.
  unfold append_token. set (p := params x). intros H Hmin Hnn.
  set (x1 := set_pending_tokens _ (set_tokens _ x)) in H.
  set (x2 := if 0 <=? logprobs p then _ else _) in H.
  set (s0 := is_eog ops t && negb (ignore_eos p)) in H. set (s1 := negb s0 && bool_decide (t ∈ _)) in H.
  set (x3 := if s1 then set_stop_reason _ x2 else x2) in H.
  assert (H3 : keeps x x3 /\ tokens x3 = tokens x ++ [t] /\ text x3 = text x /\ stop_check_offset x3 = stop_check_offset x)
    by (subst x3 x2 x1; repeat case_match; done).
  destruct H3 as (Hk3 & Ht3 & Hx3 & Ho3).
  assert (Hst : s0 || s1 = token_stop t x) by (unfold token_stop; subst s1; fold p; fold s0; by destruct s0).
  rewrite Hst in H. set (m := if negb _ && _ then push_text ops t x3 else _) in H.
  assert (exists y o, m = Ok y /\ keeps x y /\ text y = text x ++ o /\ stop_check_offset y = stop_check_offset x /\ tokens y = tokens x ++ [t])
    as (y & o & Hm & Hk & Hy & Hoff & Htk).
  { destruct (push_text_run ops t x3) as (o & rest & Hp & _).
    assert (Hx : exists y o, push_text ops t x3 = Ok y /\ keeps x y /\ text y = text x ++ o /\ stop_check_offset y = stop_check_offset x /\ tokens y = tokens x ++ [t]).
    { eexists _, o. split; [exact Hp |]. split; [eapply keeps_trans; [exact Hk3 | done] |]. simpl. by rewrite Hx3. }
    subst m. case_match; [done |]. case_match; [done |]. exists x3, []. rewrite app_nil_r. done. }
  rewrite Hm in H. cbn [rbind] in H. exists y, o. split_and!; try done.
  assert (Hno : (min_tokens p <=? i32 (n_output y)) = true).
  { apply Z.leb_le. unfold n_output. rewrite (k_prompt _ _ Hk), Htk, Zlen_app. change (Zlen [t]) with 1. subst p. lia. }
  rewrite Hno, andb_true_r in H. destruct (token_stop t x) eqn:Et; simpl in H.
  - simplify_eq. by left.
  - case_bool_decide as Es; simpl in H; simplify_eq.
    + right; left. done.
    + right; right. destruct (check_stop_strings y) as [b z] eqn:Ez. simplify_eq. simpl. split_and!; try done. by intros ->.
Qed.

(** one token keeps everything already sent, and stops as soon as a stop string is complete *)
Lemma append_token_stream t x x' stp why :
  stream_ok x -> append_token ops cfg t x = Ok (x', stp, why) -> min_tokens (params x) <= 0 ->
  0 <= i32 (u32 (Zlen (tokens x) + 1 - n_prompt x)) ->
  text_sent x' = text_sent x /\ text_sent x <= Zlen (text x')
  /\ take (Z.to_nat (text_sent x)) (text x') = take (Z.to_nat (text_sent x)) (text x)
  /\ (stp = false -> stream_ok x')
  /\ (token_stop t x = false -> include_stop_str_in_output (params x) = false -> clean x (text x')).
Proof.
  intros Hso Ha Hmin Hnn. destruct (append_token_text t x x' stp why Ha Hmin Hnn) as (y & o & Hk & Hy & Hoff & _ & Hcase).
  pose proof (so_sent _ Hso) as Hsent. pose proof (Zlen_nonneg (text x)). pose proof (Zlen_nonneg o).
  pose proof (holdback_nonneg (params x)) as Hhb.
  assert (Hle : text_sent x <= Zlen (text x)) by lia.
  assert (Htake : take (Z.to_nat (text_sent x)) (text y) = take (Z.to_nat (text_sent x)) (text x)).
  { rewrite Hy. apply take_app_le. unfold Zlen in *. lia. }
  assert (Hlen : Zlen (text y) = Zlen (text x) + Zlen o) by by rewrite Hy, Zlen_app.
  assert (Hs : stops y = stops x) by (unfold stops; by rewrite (k_params _ _ Hk)).
  destruct Hcase as [(Hts & -> & ->) | [(_ & Hst & ->) | (_ & Hst & -> & Hstp)]].
  - split; [apply Hk |]. split; [lia |]. split; [done |]. split; [done |]. by rewrite Hts.
  - assert (Hnil : forall s, s ∈ stops x -> False).
    { intros s Hin. apply elem_of_stops in Hin as [Hin _]. rewrite Hst in Hin. by apply not_elem_of_nil in Hin. }
    split; [apply Hk |]. split; [lia |]. split; [done |]. split; [| by intros _ _ s Hin; apply Hnil in Hin].
    intros _. split; rewrite ?(k_params _ _ Hk), ?(k_sent _ _ Hk); [lia | | done].
    intros s Hin. rewrite Hs in Hin. by apply Hnil in Hin.
  - assert (Hoffy : 0 <= stop_check_offset y) by (rewrite Hoff, (so_off _ Hso Hst); lia).
    destruct (best_stop_spec y Hoffy) as [B1 B2]. unfold check_stop_strings in *. destruct (best_stop y) as [[[be bs] s] |] eqn:Eb.
    + destruct (B1 _ eq_refl) as (C1 & C2 & C3 & C4). simpl in C1, C2, C3, C4. specialize (Hstp eq_refl). subst stp.
      destruct (match_after_sent x y o bs s Hso (k_params _ _ Hk) Hy C1 C2) as [Hb _]. pose proof (Zlen_nonneg s).
      simpl. set (cut := if include_stop_str_in_output _ then be else bs). assert (Hcut : text_sent x <= cut <= Zlen (text y)) by (subst cut; destruct (include_stop_str_in_output _); lia).
      split; [apply Hk |]. split; [unfold Zlen; rewrite length_take; unfold Zlen in *; lia |]. split; [| split; [done |]].
      * rewrite take_take, Nat.min_l by lia. done.
      * intros _ Hinc. subst cut. simpl. rewrite (k_params _ _ Hk), Hinc. intros s' Hs' [p Hp]. rewrite <- Hs in Hs'.
        pose proof (proj1 (elem_of_stops _ _) Hs') as [Hin' Hne'].
        pose proof (occurs_fits _ _ _ Hne' Hp) as Hfit. unfold Zlen in Hfit at 2. rewrite length_take in Hfit.
        assert (Hp' : occurs_at s' (text y) p).
        { rewrite <- (take_drop (Z.to_nat bs) (text y)). apply occurs_app; [| done]. unfold Zlen at 2. rewrite length_take. lia. }
        destruct (match_after_sent x y o p s' Hso (k_params _ _ Hk) Hy Hs' Hp') as [_ Hlt].
        destruct (best_stop_scanned y Hoffy) as [_ Hmin']. rewrite Hoff, (so_off _ Hso Hst) in Hmin'.
        destruct (Hmin' s' p Hin' Hne' Hlt Hp') as (b & Hb' & Hle'). rewrite Eb in Hb'. simplify_eq. simpl in Hle'.
        assert (0 < Zlen s) by (apply elem_of_stops in C1 as [_ ?]; destruct s as [| z s]; [done | rewrite Zlen_cons; pose proof (Zlen_nonneg s); lia]).
        lia.
    + assert (Hcl : clean y (text y)).
      { intros s Hin [p Hp]. destruct (match_after_sent x y o p s Hso (k_params _ _ Hk) Hy Hin Hp) as [_ Hlt].
        apply (B2 eq_refl s Hin p); [| done]. by rewrite Hoff, (so_off _ Hso Hst). }
      simpl. split; [apply Hk |]. split; [lia |]. split; [done |]. split.
      * intros _. split; simpl; rewrite ?(k_params _ _ Hk), ?(k_sent _ _ Hk); try done. lia.
      * intros _ _ s Hin. apply Hcl. by rewrite Hs.
Qed.

(** [deliver] sends the text up to the hold-back, in order *)
Lemma deliver_stream x : stream_ok x ->
  let r := deliver_req x in
  stream_ok r.2 /\ text r.2 = text x
  /\ take (Z.to_nat (text_sent x)) (text x) ++ match r.1 with Some c => c_text c | None => [] end
     = take (Z.to_nat (text_sent r.2)) (text x).
Proof.
  intros Hso. pose proof (so_sent _ Hso) as Hsent. unfold deliver_req. set (send_to := if holdback (params x) <? Zlen (text x) then _ else 0).
  assert (Hst : send_to = Z.max 0 (Zlen (text x) - holdback (params x))) by (subst send_to; case_match; lia).
  destruct ((send_to <=? text_sent x) && _) eqn:E0; [cbn -[Z.to_nat]; rewrite app_nil_r; done |].
  destruct (text_sent x <? send_to) eqn:E; cbn -[Z.to_nat].
  - split; [| split; [done |]].
    + destruct Hso as [H1 H2 H3]. split; simpl; try done. lia.
    + unfold vslice. rewrite take_take_drop. f_equal. lia.
  - split; [destruct Hso; by split |]. split; [done |]. by rewrite app_nil_r.
Qed.

(** the final chunk sends the rest *)
Lemma finish_stream st why err x : text_sent x <= Zlen (text x) -> is_embedding x = false ->
  take (Z.to_nat (text_sent x)) (text x) ++ c_text (finish_req st why err x).1 = text x ++ detok_pending x
  /\ text (finish_req st why err x).2 = text x ++ detok_pending x.
Proof.
  intros Hle He. unfold finish_req. cbn [is_embedding set_status set_finish_reason]. rewrite He. cbn -[Z.to_nat].
  pose proof (Zlen_nonneg (detok_pending x)). destruct (text_sent x <? _) eqn:E; cbn -[Z.to_nat]; split; try done.
  - rewrite <- (take_app_le (text x) (detok_pending x)) by (unfold Zlen in *; lia). apply take_drop.
  - rewrite Zlen_app in E. assert (Zlen (detok_pending x) = 0) as Hz by lia. apply Zlen_0 in Hz. rewrite Hz, !app_nil_r.
    apply take_ge. unfold Zlen in *. lia.
Qed.
End stream.
