(* ===== verification/EngineProps.v ===== *)
(** * Properties of token generation and streaming *)

From S2P Require Import Prelude BlockPool FreeList PoolSpec KVCache Request Sampling Scheduler Batch Attention Draft Detok Engine EngineFacts EngineText.

(** ** A small model for the witnesses: four tokens, the next one is the length modulo 4 *)
Definition tiny_ops : ModelOps Z Z Z :=
  mkOps Z Z Z 4 (-1) Z.gtb (fun _ => false) (fun t _ => [t]) (fun _ s => s) (fun ss row _ _ => (default 0 (row !! 0%nat), ss + 1))
    (fun _ => None) (fun _ _ => None) (fun _ _ => true) (fun _ r => r) (fun g t => if t =? 3 then None else Some (g + t)).
Definition tiny_cfg : EngineConfig :=
  mkECfg (mkSchedCfg 4 8 64 0 true FCFS) 0 2 1 3 0 false false false 1 1.
Definition tiny_logits (toks : list Z) : list Z := replicate 4 (Zlen toks mod 4).
Definition tiny_params (mint : Z) (stops : list (list Z)) (ids : list Z) : SamplingParams :=
  mkParams 1 f1 f1 0 f0 f0 f0 f1 (-1) None 16 mint false stops ids false true (-1) false [] [] [] false [] [] [].
Definition tiny_req (ps : SamplingParams) (toks spec : list Z) : Request :=
  mkRequest 1 0 0 0 ps toks 2 RUNNING NONE [] (Zlen toks + Zlen spec) 0 0 empty_kvs [] false false 0 spec empty_kvs 0 0 [] [] 0 0 [] [] 1.

Section generation.
Context {V SS G : Type} (ops : ModelOps V SS G) (cfg : EngineConfig).

(** C8: Speculative decoding is exact.  When the rows of a request are the model's rows after its
    tokens and each prefix of its drafts, verifying the drafts has exactly the outcome of decoding
    one token at a time from the model's own rows: same tokens, text, sampler and grammar state,
    same stop.  Between one and n_spec + 1 tokens are produced, and unless generation ended the
    number of accepted drafts is one less than the number of tokens. *)
Theorem speculation_exact (logits : list Z -> list V) rows first n_spec (x : Request) sg :
  (forall toks, Zlen (logits toks) = n_vocab ops) ->
  (forall t, t ∈ stop_token_ids (params x) -> 0 <= t < n_vocab ops) ->
  0 <= n_spec <= Zlen (spec_tokens x) ->
  (forall j, 0 <= j <= n_spec -> vlookup rows (first + j) = Some (logits (tokens x ++ take (Z.to_nat j) (spec_tokens x)))) ->
  exists st m r, rows_loop ops cfg (Z.to_nat (n_spec + 1)) rows first n_spec 0 (mkRow x sg 0 false NONE 0 0 None) = Ok st
    /\ seq_decode ops cfg m logits (mkRow x sg 0 false NONE 0 0 None) = Ok r /\ same_outcome st r
    /\ (1 <= m <= Z.to_nat (n_spec + 1))%nat
    /\ (rs_exn st = None -> rs_stop st = false -> rs_accepted st = Z.of_nat m - 1 /\ Zlen (tokens (rs_req st)) = Zlen (tokens x) + Z.of_nat m).
Proof.
  intros Hlen Hids Hns Hrows.
  destruct (rows_loop_run ops cfg logits rows first n_spec (tokens x) (spec_tokens x) (Z.to_nat (n_spec + 1)) 0 (mkRow x sg 0 false NONE 0 0 None))
    as (st & m & Hl & [(r & Hr & Hs) _ (new & Hnew & Hm) R4 _ R6]); try done; try lia; [by rewrite app_nil_r |].
  exists st, m, r. split_and!; try done; try lia. intros He Hst. specialize (R6 He Hst). specialize (Hm He). simpl in *. split; [lia |].
  rewrite Hnew, Zlen_app. unfold Zlen. lia.
Qed.
End generation.

Lemma speculation_exact_witness :
  exists st m r, rows_loop tiny_ops tiny_cfg 4 (tiny_logits <$> [[1; 2]; [1; 2; 2]; [1; 2; 2; 3]; [1; 2; 2; 3; 1]]) 0 3 0
      (mkRow (tiny_req (tiny_params 0 [] []) [1; 2] [2; 3; 1]) (0, None) 0 false NONE 0 0 None) = Ok st
    /\ seq_decode tiny_ops tiny_cfg m tiny_logits (mkRow (tiny_req (tiny_params 0 [] []) [1; 2] [2; 3; 1]) (0, None) 0 false NONE 0 0 None) = Ok r
    /\ same_outcome st r /\ (1 <= m <= 4)%nat
    /\ (rs_exn st = None -> rs_stop st = false -> rs_accepted st = Z.of_nat m - 1 /\ Zlen (tokens (rs_req st)) = 2 + Z.of_nat m).
Proof.
  apply (speculation_exact tiny_ops tiny_cfg tiny_logits (tiny_logits <$> [[1; 2]; [1; 2; 2]; [1; 2; 2; 3]; [1; 2; 2; 3; 1]]) 0 3
           (tiny_req (tiny_params 0 [] []) [1; 2] [2; 3; 1]) (0, None)).
  - intros toks. unfold tiny_logits. unfold Zlen. by rewrite length_replicate.
  - intros t Ht. by apply not_elem_of_nil in Ht.
  - by vm_compute.
  - intros j Hj. assert (j = 0 \/ j = 1 \/ j = 2 \/ j = 3) as [-> | [-> | [-> | ->]]] by lia; by vm_compute.
Defined.

(** ** Streaming *)
Section streaming.
Context {V SS G : Type} (ops : ModelOps V SS G) (cfg : EngineConfig).

(** the chunks a client reads while the tokens [toks] are generated: one [deliver] per token, and
    the final chunk of [finish] when generation stops *)
Fixpoint serve (toks : list Z) (x : Request) : res (list OutputChunk * Request * bool) :=
  match toks with
  | [] => Ok ([], x, false)
  | t :: toks =>
      let! (x, stp, why) := append_token ops cfg t x in
      if (stp : bool) then let '(c, x) := finish_req FINISHED_STOPPED why EmptyString x in Ok ([c], x, true)
      else let '(c, x) := deliver_req x in
           let! (cs, x, b) := serve toks x in
           Ok (option_list c ++ cs, x, b)
  end.

(** C9: The client reads the text exactly.  With min_tokens = 0, over any tokens: the texts of all
    chunks concatenate, without a gap, an overlap or anything taken back, to the text of the
    request when generation ended (to all but the held-back tail otherwise); and this text, up to
    the bytes [pend] of an unfinished character flushed at the end, contains no stop string, unless
    the request asked to keep it or one of the tokens is a stop token.  With min_tokens above 0 this fails: text
    streamed before the minimum is reached is cut later. *)
Theorem stream_is_text (toks : list Z) (x : Request) :
  stream_ok x -> is_embedding x = false -> min_tokens (params x) <= 0 -> 0 <= n_prompt x <= Zlen (tokens x) ->
  Zlen (tokens x) + Zlen toks < 2 ^ 31 ->
  exists cs x' stopped, serve toks x = Ok (cs, x', stopped)
    /\ take (Z.to_nat (text_sent x)) (text x) ++ concat (c_text <$> cs)
       = (if (stopped : bool) then text x' else take (Z.to_nat (text_sent x')) (text x'))
    /\ (stopped = false -> stream_ok x')
    /\ ((forall t, t ∈ toks -> token_stop ops t x = false) -> include_stop_str_in_output (params x) = false ->
        exists pend, clean x (take (length (text x') - length pend) (text x')) /\ text x' = take (length (text x') - length pend) (text x') ++ pend
          /\ (stopped = false -> pend = [])).
Proof.
  revert x. induction toks as [| t toks IH]; intros x Hso He Hmin Hp Hlen.
  { exists [], x, false. split; [done |]. simpl. rewrite app_nil_r. split; [done |]. split; [done |]. intros _ _. exists [].
    rewrite Nat.sub_0_r, app_nil_r, take_ge by lia. split; [apply Hso | done]. }
  rewrite Zlen_cons in Hlen. pose proof (Zlen_nonneg toks). cbn [serve].
  destruct (append_token_run ops cfg t x) as (x1 & stp & why & Ha & Hk & Ht). rewrite Ha. cbn [rbind].
  assert (Hnn : 0 <= i32 (u32 (Zlen (tokens x) + 1 - n_prompt x))) by (rewrite u32_small, i32_small; lia).
  destruct (append_token_stream ops cfg t x x1 stp why Hso Ha Hmin Hnn) as (S1 & S2 & S3 & S4 & S5). destruct stp.
  - destruct (finish_stream FINISHED_STOPPED why EmptyString x1) as [F1 F2]; [by rewrite S1 | by rewrite (k_embd _ _ Hk) |].
    destruct (finish_req FINISHED_STOPPED why EmptyString x1) as [c x2] eqn:Ef. simpl in F1, F2. exists [c], x2, true. split; [done |].
    split; [cbn [fmap list_fmap concat]; rewrite app_nil_r, <- S3, <- S1, F1, F2; done |]. split; [done |].
    intros Hts Hinc. exists (detok_pending x1). rewrite F2, length_app, Nat.add_sub, take_app_length. split; [| done].
    apply S5; [apply Hts; set_solver | done].
  - specialize (S4 eq_refl). pose proof (deliver_stream x1 S4) as HD. cbv zeta in HD.
    destruct (deliver_req x1) as [c x2] eqn:Ed. simpl in HD. destruct HD as (D1 & D2 & D3).
    assert (Hx2 : keeps (set_text_sent (text_sent x2) x1) x2 /\ tokens x2 = tokens x1).
    { unfold deliver_req in Ed. repeat case_match; simplify_eq; done. }
    destruct Hx2 as [Hk2 Ht2].
    destruct (IH x2 D1) as (cs & x' & b & Hs & Hcat & Hso' & Hcl).
    + rewrite (k_embd _ _ Hk2). simpl. by rewrite (k_embd _ _ Hk).
    + rewrite (k_params _ _ Hk2). simpl. by rewrite (k_params _ _ Hk).
    + rewrite (k_prompt _ _ Hk2), Ht2, Ht, Zlen_app. simpl. rewrite (k_prompt _ _ Hk). change (Zlen [t]) with 1. lia.
    + rewrite Ht2, Ht, Zlen_app. change (Zlen [t]) with 1. lia.
    + assert (Hpar : params x2 = params x) by (rewrite (k_params _ _ Hk2); simpl; by rewrite (k_params _ _ Hk)).
      rewrite Hs. cbn [rbind]. exists (option_list c ++ cs), x', b. split; [done |]. split; [| split; [done |]].
      * rewrite <- Hcat, <- S3, fmap_app, concat_app, app_assoc, D2. f_equal. rewrite <- S1, <- D3. f_equal. by destruct c; simpl; rewrite ?app_nil_r.
      * intros Hts Hinc. rewrite <- Hpar in Hinc. destruct Hcl as (pend & C1 & C2 & C3); [| done |].
        -- intros u Hu. unfold token_stop. rewrite Hpar. apply Hts. set_solver.
        -- exists pend. split; [| done]. intros s Hin. apply C1. unfold stops in *. by rewrite Hpar.
Qed.
End streaming.

Definition tiny_stop : Request := tiny_req (tiny_params 0 [[2; 3]; [1]] []) [1; 2] [].
Lemma tiny_stop_ok : stream_ok tiny_stop.
Proof.
  split; [by vm_compute | | done]. intros s Hs [p Hp]. apply elem_of_stops in Hs as [_ Hne].
  pose proof (occurs_fits _ _ _ Hne Hp) as Hf. destruct Hp as [Hp _]. change (Zlen (text tiny_stop)) with 0 in Hf.
  destruct s as [| z s]; [done |]. rewrite Zlen_cons in Hf. pose proof (Zlen_nonneg s). lia.
Qed.
Lemma stream_is_text_witness :
  exists cs x' stopped, serve tiny_ops tiny_cfg [0; 2; 0; 2; 3; 0] tiny_stop = Ok (cs, x', stopped)
    /\ concat (c_text <$> cs) = (if (stopped : bool) then text x' else take (Z.to_nat (text_sent x')) (text x'))
    /\ stopped = true /\ text x' = [0; 2; 0].
Proof.
  destruct (stream_is_text tiny_ops tiny_cfg [0; 2; 0; 2; 3; 0] tiny_stop tiny_stop_ok) as (cs & x' & b & Hs & Hc & _); [done | done | by vm_compute | by vm_compute |].
  exists cs, x', b. split; [done |]. split; [exact Hc |]. vm_compute in Hs. by injection Hs as <- <- <-.
Defined.

(** With min_tokens > 0 the stream and the text come apart.  While fewer than min_tokens tokens
    are out the stop strings are not looked for, but their text is streamed; the first check then
    cuts the text before what was sent.  Here the client has read the whole stop string [2; 3] and
    the final text is empty. *)
Theorem min_tokens_streams_stop_string :
  exists cs x', serve tiny_ops tiny_cfg [2; 3; 1; 0] (tiny_req (tiny_params 4 [[2; 3]] []) [1; 2] []) = Ok (cs, x', true)
    /\ concat (c_text <$> cs) = [2; 3] /\ text x' = [] /\ stop_reason x' = [2; 3].
Proof. eexists _, _. split; [vm_compute; reflexivity |]. by vm_compute. Qed.

(** The text of a stop token is part of the output whether or not include_stop_str_in_output is
    set: a token of stop_token_ids that is not end-of-generation is detokenized on both branches
    of the condition that is meant to leave it out. *)
Theorem stop_token_text_kept {V SS G} (ops : ModelOps V SS G) (cfg : EngineConfig) t x :
  t ∈ stop_token_ids (params x) -> is_eog ops t = false ->
  exists x' o rest, append_token ops cfg t x = Ok (x', true, STOP) /\ text x' = text x ++ o /\ detok_pending x' = rest
    /\ o ++ rest = detok_pending x ++ token_to_piece ops t (negb (skip_special_tokens (params x))).
Proof.
  intros Hin Heog. unfold append_token. rewrite Heog. simpl. rewrite bool_decide_eq_true_2 by done. simpl.
  set (x3 := set_stop_reason _ _).
  assert (H3 : text x3 = text x /\ detok_pending x3 = detok_pending x /\ params x3 = params x) by (subst x3; by destruct (0 <=? logprobs (params x))).
  destruct H3 as (T3 & P3 & A3). destruct (push_text_run ops t x3) as (o & rest & Hp & Ho). rewrite T3, P3, A3 in *.
  rewrite Hp. match goal with |- context [rbind (if ?b then ?m else ?m) _] => replace (if b then m else m) with m by by destruct b end.
  cbn [rbind]. eexists _, o, rest. by split_and!.
Qed.
Lemma stop_token_text_kept_witness :
  exists x' o rest, append_token tiny_ops tiny_cfg 3 (tiny_req (tiny_params 0 [] [3]) [1; 2] []) = Ok (x', true, STOP) /\ text x' = [] ++ o
    /\ detok_pending x' = rest /\ o ++ rest = [3].
Proof. apply (stop_token_text_kept tiny_ops tiny_cfg 3 (tiny_req (tiny_params 0 [] [3]) [1; 2] [])); [set_solver | done]. Defined.
