(* ===== verification/AttnFacts.v ===== *)
(** * The three attention paths let a query read the same cells *)

From S2P Require Import Prelude BlockPool FreeList PoolSpec KVCache Request Scheduler Batch Attention.

(** ** Specification: the cells at positions the query may see *)
Definition allowed (hp : HParams) (swa : bool) (p1 p0 : Z) : bool :=
  (negb (causal_attn hp) || (p0 <=? p1)) && negb (swa && (n_swa hp <=? p1 - p0)).
Definition attend (hp : HParams) (swa : bool) (p1 : Z) (cs ps : list Z) : list Z :=
  (List.filter (fun cp => allowed hp swa p1 cp.2) (zip cs ps)).*1.

(** a batch whose arrays fit together and whose window covers its cells *)
Record ub_ok (ub : UBatch) : Prop := {
  uo_pos : Zlen (ub_pos ub) = ub_n_tokens ub;
  uo_idx : Zlen (ub_seq_idx ub) = ub_n_tokens ub;
  uo_seq : forall t s, vlookup (ub_seq_idx ub) t = Some s -> is_Some (vlookup (ub_seqs ub) s);
  uo_len : forall q, q ∈ ub_seqs ub -> length (cells q) = length (cell_pos q);
  uo_window : forall q c, q ∈ ub_seqs ub -> c ∈ cells q ->
    ub_kv_start ub <= c < ub_kv_start ub + ub_n_kv ub;
  uo_kv : 0 <= ub_n_kv ub
}.

Lemma ub_token ub t : ub_ok ub -> 0 <= t < ub_n_tokens ub -> exists s q p1,
  vlookup (ub_seq_idx ub) t = Some s /\ vlookup (ub_seqs ub) s = Some q /\ vlookup (ub_pos ub) t = Some p1
  /\ q ∈ ub_seqs ub.
Proof.
  intros Ho Ht. destruct (vlookup_lt_is_Some (ub_seq_idx ub) t) as [s Hs]; [rewrite (uo_idx _ Ho); lia |].
  destruct (uo_seq _ Ho _ _ Hs) as [q Hq]. destruct (vlookup_lt_is_Some (ub_pos ub) t) as [p1 Hp]; [rewrite (uo_pos _ Ho); lia |].
  exists s, q, p1. split_and!; try done. by eapply vlookup_elem_of.
Qed.

(** ** Layers *)
Lemma layer_swa_agree hp il : layer_swa_masked hp il = layer_swa_paged hp il.
Proof.
  unfold layer_swa_masked, layer_swa_paged, has_swa_layers. destruct (0 <? n_swa hp); simpl; [| done].
  destruct (is_swa hp) as [| f l] eqn:E; [done |]. simpl. by destruct (f || _).
Qed.

(** ** The paged kernel *)
Lemma scored_attend hp swa p1 cs ps :
  length cs = length ps -> (swa = true -> 0 < n_swa hp) ->
  scored_cells (causal_attn hp) (if swa then n_swa hp else 0) p1 cs ps = Ok (attend hp swa p1 cs ps).
Proof.
  intros Hlen Hs. revert ps Hlen. induction cs as [| c cs IH]; intros [| p0 ps] Hlen; try done. simpl.
  rewrite IH by (simpl in Hlen; lia). cbn [rbind]. unfold attend. simpl.
  assert (E : (causal_attn hp && (p1 <? p0) || (0 <? (if swa then n_swa hp else 0)) && ((if swa then n_swa hp else 0) <=? p1 - p0))
    = negb (allowed hp swa p1 p0)).
  { unfold allowed. rewrite (Z.leb_antisym p1 p0). destruct (causal_attn hp), (p1 <? p0), swa; simpl; try done;
      rewrite (proj2 (Z.ltb_lt 0 (n_swa hp))) by auto; by destruct (n_swa hp <=? p1 - p0). }
  rewrite E. by destruct (allowed hp swa p1 p0).
Qed.

(** ** The masked window *)
Definition is_set (buf : list (option Z)) (k : Z) : Prop := exists v, vlookup buf k = Some (Some v).

Lemma is_set_vinsert buf i v k :
  0 <= i < Zlen buf -> is_set (vinsert i (Some v) buf) k <-> k = i \/ is_set buf k.
Proof.
  intros Hi. unfold is_set. destruct (decide (i = k)) as [-> | Hne].
  - rewrite vlookup_vinsert_eq by done. split; [by left | by eexists].
  - rewrite vlookup_vinsert_ne by done. split; [by right |]. intros [-> | ?]; done.
Qed.

Lemma kq_row_spec hp swa n_kv kv_start i p1 cs ps buf :
  length cs = length ps -> 0 <= i -> 0 <= n_kv -> i * n_kv + n_kv <= Zlen buf ->
  exists buf', kq_row hp swa n_kv kv_start i p1 cs ps buf = Ok buf' /\ Zlen buf' = Zlen buf
    /\ forall k, is_set buf' k <-> is_set buf k
         \/ exists c, c ∈ attend hp swa p1 cs ps /\ 0 <= c - kv_start < n_kv /\ k = i * n_kv + (c - kv_start).
Proof.
  intros Hlen Hi Hn. revert ps buf Hlen. induction cs as [| c cs IH]; intros [| p0 ps] buf Hlen Hb; try done.
  { exists buf. split_and!; try done. intros k. split; [by left |]. intros [? | (c & Hc & _)]; [done |]. by apply not_elem_of_nil in Hc. }
  simpl. set (b1 := if negb (causal_attn hp) || (p0 <=? p1) then _ else _).
  assert (exists buf1, b1 = Ok buf1 /\ Zlen buf1 = Zlen buf /\ forall k, is_set buf1 k <-> is_set buf k
    \/ (allowed hp swa p1 p0 = true /\ 0 <= c - kv_start < n_kv /\ k = i * n_kv + (c - kv_start))) as (buf1 & Eb & Hl1 & Hs1).
  { subst b1. unfold allowed. destruct (negb (causal_attn hp) || (p0 <=? p1)); simpl; [| exists buf; naive_solver].
    destruct (swa && (n_swa hp <=? p1 - p0)); simpl; [exists buf; naive_solver |].
    destruct ((c - kv_start <? 0) || (n_kv <=? c - kv_start)) eqn:Ew; [exists buf; split_and!; try done; intros k; split; [by left | intros [? | (_ & ? & _)]; [done | lia]] |].
    rewrite vset_Ok by nia. eexists. split; [done |]. split; [by rewrite Zlen_vinsert |]. intros k.
    rewrite is_set_vinsert by nia. split; [intros [-> | ?]; [right; split_and!; lia || done | by left] | intros [? | (_ & _ & ->)]; auto]. }
  rewrite Eb. cbn [rbind]. destruct (IH ps buf1) as (buf' & -> & Hl' & Hs'); [simpl in Hlen; lia | lia |].
  exists buf'. split; [done |]. split; [congruence |]. intros k. rewrite Hs', Hs1. unfold attend. simpl.
  destruct (allowed hp swa p1 p0); simpl; set_solver.
Qed.

Definition row_hits (hp : HParams) (swa : bool) (ub : UBatch) (t c : Z) : Prop :=
  exists s q p1, vlookup (ub_seq_idx ub) t = Some s /\ vlookup (ub_seqs ub) s = Some q /\ vlookup (ub_pos ub) t = Some p1
    /\ c ∈ attend hp swa p1 (cells q) (cell_pos q).

Lemma attend_sub hp swa p1 cs ps c : c ∈ attend hp swa p1 cs ps -> c ∈ cs.
Proof.
  unfold attend. rewrite list_elem_of_fmap. intros ([c' p] & -> & Hin). apply list_elem_of_In, List.filter_In in Hin as [Hin _].
  apply list_elem_of_In, elem_of_zip_l in Hin. done.
Qed.

Lemma kq_rows_spec todo hp swa ub i buf :
  ub_ok ub -> 0 <= i -> i + Z.of_nat todo = ub_n_tokens ub -> Zlen buf = ub_n_kv ub * ub_n_tokens ub ->
  exists buf', kq_rows todo hp swa ub i buf = Ok buf'
    /\ forall k, is_set buf' k <-> is_set buf k
         \/ exists t c, i <= t < ub_n_tokens ub /\ row_hits hp swa ub t c /\ k = t * ub_n_kv ub + (c - ub_kv_start ub).
Proof.
  intros Ho. revert i buf. induction todo as [| todo IH]; intros i buf Hi Hn Hb.
  { exists buf. split; [done |]. intros k. split; [by left |]. intros [? | (t & c & Ht & _)]; [done | lia]. }
  destruct (ub_token ub i Ho) as (s & q & p1 & Hs & Hq & Hp & Hin); [lia |]. cbn [kq_rows].
  rewrite (proj2 (vget_Ok _ _ _) Hs). cbn [rbind]. rewrite (proj2 (vget_Ok _ _ _) Hq). cbn [rbind].
  rewrite (proj2 (vget_Ok _ _ _) Hp). cbn [rbind]. pose proof (uo_kv _ Ho) as Hk.
  destruct (kq_row_spec hp swa (ub_n_kv ub) (ub_kv_start ub) i p1 (cells q) (cell_pos q) buf) as (b1 & -> & Hl1 & Hs1);
    [by apply (uo_len _ Ho) | done | done | nia |].
  cbn [rbind]. destruct (IH (i + 1) b1) as (b2 & -> & Hs2); [lia | lia | lia |]. exists b2. split; [done |].
  intros k. rewrite Hs2, Hs1. split.
  - intros [[H | (c & Hc & Hw & ->)] | (t & c & Ht & Hr & ->)]; [by left | right | right].
    + exists i, c. split; [lia |]. split; [| done]. by exists s, q, p1.
    + exists t, c. split; [lia | done].
  - intros [H | (t & c & Ht & Hr & ->)]; [by left; left |]. destruct (decide (t = i)) as [-> | Hne].
    + left. right. destruct Hr as (s' & q' & p' & ? & ? & ? & Hc). simplify_eq. exists c. split; [done |]. split; [| done].
      pose proof (uo_window _ Ho q c Hin (attend_sub _ _ _ _ _ _ Hc)). lia.
    + right. exists t, c. split; [lia | done].
Qed.

Lemma masked_attend hp il ub t swa :
  ub_ok ub -> 0 <= t < ub_n_tokens ub -> layer_swa_masked hp il = Ok swa ->
  exists l, masked_cells hp il ub t = Ok l /\ NoDup l /\ forall c, c ∈ l <-> row_hits hp swa ub t c.
Proof.
  intros Ho Ht Hl. unfold masked_cells. rewrite Hl. cbn [rbind]. unfold fill_kq_mask. pose proof (uo_kv _ Ho) as Hk.
  destruct (kq_rows_spec (Z.to_nat (ub_n_tokens ub)) hp swa ub 0 (replicate (Z.to_nat (ub_n_kv ub * ub_n_tokens ub)) None) Ho)
    as (m & -> & Hm); [lia | lia | unfold Zlen; rewrite length_replicate; nia |].
  cbn [rbind]. eexists. split; [done |]. split; [apply NoDup_ListNoDup, List.NoDup_filter, NoDup_ListNoDup, zrange_NoDup |].
  assert (Hnone : forall k, ~ is_set (replicate (Z.to_nat (ub_n_kv ub * ub_n_tokens ub)) None) k).
  { intros k [v Hv]. unfold vlookup in Hv. case_match; [| done]. apply lookup_replicate in Hv as [? _]. done. }
  intros c. rewrite list_elem_of_In, List.filter_In, <- list_elem_of_In, elem_of_zrange.
  set (k := t * ub_n_kv ub + (c - ub_kv_start ub)).
  assert (Hset : match vlookup m k with Some (Some _) => true | _ => false end = true <-> is_set m k).
  { unfold is_set. destruct (vlookup m k) as [[v |] |]; naive_solver. }
  rewrite Hset, Hm. split.
  - intros [Hc [H | (t' & c' & Ht' & Hr & E)]]; [by apply Hnone in H |].
    assert (Hw : ub_kv_start ub <= c' < ub_kv_start ub + ub_n_kv ub).
    { destruct Hr as (s & q & p1 & _ & Hq & _ & Hc'). eapply (uo_window _ Ho q); [by eapply vlookup_elem_of | by eapply attend_sub]. }
    subst k. assert (t' = t) by nia. subst t'. by assert (c' = c) as <- by lia.
  - intros Hr. destruct Hr as (s & q & p1 & Hs & Hq & Hp & Hc). split.
    + eapply (uo_window _ Ho q); [by eapply vlookup_elem_of | by eapply attend_sub].
    + right. exists t, c. split; [lia |]. split; [| done]. by exists s, q, p1.
Qed.

Lemma layer_swa_window hp il swa : layer_swa_paged hp il = Ok swa -> swa = true -> 0 < n_swa hp.
Proof. intros H ->. unfold layer_swa_paged in H. destruct (0 <? n_swa hp) eqn:E; [lia | done]. Qed.

Lemma paged_attend hp il ub t swa s q p1 :
  ub_ok ub -> layer_swa_paged hp il = Ok swa -> vlookup (ub_seq_idx ub) t = Some s ->
  vlookup (ub_seqs ub) s = Some q -> vlookup (ub_pos ub) t = Some p1 ->
  paged_cells hp il ub t = Ok (attend hp swa p1 (cells q) (cell_pos q)).
Proof.
  intros Ho Hl Hs Hq Hp. unfold paged_cells. rewrite Hl. cbn [rbind]. rewrite (proj2 (vget_Ok _ _ _) Hs). cbn [rbind].
  rewrite (proj2 (vget_Ok _ _ _) Hq). cbn [rbind]. rewrite (proj2 (vget_Ok _ _ _) Hp). cbn [rbind].
  apply scored_attend; [by apply (uo_len _ Ho), (vlookup_elem_of _ _ _ Hq) | by eapply layer_swa_window].
Qed.

(** ** Gathered groups *)

(** sequence [m + k] has [ns !! k] tokens, all sequences in order *)
Fixpoint expand (m : Z) (ns : list Z) : list Z :=
  match ns with [] => [] | n :: ns => replicate (Z.to_nat n) m ++ expand (m + 1) ns end.
(** first tokens *)
Fixpoint offs (o : Z) (ns : list Z) : list Z :=
  match ns with [] => [] | n :: ns => o :: offs (o + n) ns end.
Definition total (ns : list Z) : Z := foldr Z.add 0 ns.

Lemma offs_length o ns : length (offs o ns) = length ns.
Proof. revert o. induction ns; intros; simpl; auto. Qed.
Lemma total_nonneg ns : (forall n, n ∈ ns -> 0 < n) -> 0 <= total ns.
Proof. induction ns as [| n ns IH]; intros H; simpl; [done |]. pose proof (H n ltac:(set_solver)). specialize (IH ltac:(set_solver)). lia. Qed.
Lemma total_length ns : (forall n, n ∈ ns -> 0 < n) -> Zlen ns <= total ns.
Proof. induction ns as [| n ns IH]; intros H; [by vm_compute |]. simpl. rewrite Zlen_cons. pose proof (H n ltac:(set_solver)). specialize (IH ltac:(set_solver)). lia. Qed.

(** one more token of sequence [m] *)
Lemma count_step todo ub i n_tok tok0 m n t0 :
  vlookup (ub_seq_idx ub) i = Some m -> vlookup n_tok m = Some n -> vlookup tok0 m = Some t0 ->
  count_tokens (S todo) ub i n_tok tok0
  = count_tokens todo ub (i + 1) (vinsert m (u32 (n + 1)) n_tok) (vinsert m (Z.min t0 i) tok0).
Proof.
  intros Hs Hn Ht. cbn [count_tokens]. rewrite (proj2 (vget_Ok _ _ _) Hs). cbn [rbind].
  rewrite (proj2 (vget_Ok _ _ _) Hn). cbn [rbind]. rewrite vset_Ok by by eapply vlookup_Some_range. cbn [rbind].
  rewrite (proj2 (vget_Ok _ _ _) Ht). cbn [rbind]. rewrite vset_Ok by by eapply vlookup_Some_range. done.
Qed.

Lemma vlookup_mid {A} (a : list A) x b : vlookup (a ++ x :: b) (Zlen a) = Some x.
Proof. rewrite vlookup_app_r by lia. by rewrite Z.sub_diag. Qed.
Lemma vinsert_mid {A} (a : list A) x y b : vinsert (Zlen a) y (a ++ x :: b) = a ++ y :: b.
Proof.
  unfold vinsert, Zlen. rewrite (proj2 (Z.leb_le 0 _)) by lia. rewrite Nat2Z.id.
  by rewrite insert_app_r_alt, Nat.sub_diag by lia.
Qed.

Lemma count_block k todo ub i a x b c y d :
  Zlen a = Zlen c -> 0 <= x -> x + Z.of_nat k < 2 ^ 32 -> y <= i \/ (x = 0 /\ i < y) ->
  (forall j, i <= j < i + Z.of_nat k -> vlookup (ub_seq_idx ub) j = Some (Zlen a)) ->
  count_tokens (k + todo) ub i (a ++ x :: b) (c ++ y :: d)
  = count_tokens todo ub (i + Z.of_nat k) (a ++ x + Z.of_nat k :: b)
      (c ++ (if (0 <? Z.of_nat k) then Z.min y i else y) :: d).
Proof.
  intros Hac. revert i x y. induction k as [| k IH]; intros i x y Hx Hsm Hy Hidx.
  { simpl. by rewrite !Z.add_0_r. }
  change (S k + todo)%nat with (S (k + todo))%nat.
  rewrite (count_step _ ub i _ _ (Zlen a) x y); [| apply Hidx; lia | apply vlookup_mid | rewrite Hac; apply vlookup_mid].
  rewrite vinsert_mid. rewrite Hac at 1. rewrite vinsert_mid. rewrite u32_small by lia.
  rewrite IH; [| lia | lia | left; lia | intros j Hj; apply Hidx; lia].
  f_equal; [lia | do 2 f_equal; lia |]. do 2 f_equal.
  rewrite (proj2 (Z.ltb_lt 0 (Z.of_nat (S k)))) by lia. destruct (0 <? Z.of_nat k); lia.
Qed.

Lemma count_all ns ub pre a c :
  ub_seq_idx ub = pre ++ expand (Zlen a) ns -> Zlen a = Zlen c -> (forall n, n ∈ ns -> 0 < n) ->
  Zlen pre + total ns < 2 ^ 32 - 1 ->
  count_tokens (Z.to_nat (total ns)) ub (Zlen pre) (a ++ replicate (length ns) 0) (c ++ replicate (length ns) (2 ^ 32 - 1))
  = Ok (a ++ ns, c ++ offs (Zlen pre) ns).
Proof.
  revert pre a c. induction ns as [| n ns IH]; intros pre a c Hidx Hac Hpos Hsm; [done |].
  pose proof (Hpos n ltac:(set_solver)) as Hn. pose proof (total_nonneg ns ltac:(set_solver)) as Ht. pose proof (Zlen_nonneg pre).
  simpl total. rewrite Z2Nat.inj_add by lia. simpl replicate. simpl in Hsm.
  rewrite count_block; [| done | lia | lia | right; lia |].
  - rewrite Z.add_0_l, (proj2 (Z.ltb_lt 0 _)), Z.min_r by lia. rewrite Z2Nat.id by lia.
    specialize (IH (pre ++ replicate (Z.to_nat n) (Zlen a)) (a ++ [n]) (c ++ [Zlen pre])).
    assert (Zlen (pre ++ replicate (Z.to_nat n) (Zlen a)) = Zlen pre + n) as Hp
      by (unfold Zlen; rewrite length_app, length_replicate; lia).
    rewrite Hp in IH. rewrite <- !app_assoc in IH. simpl in IH. apply IH; [| zlen | set_solver | lia].
    rewrite Hidx. simpl. f_equal. f_equal. f_equal. zlen.
  - intros j Hj. rewrite Hidx. simpl. rewrite vlookup_app_r by lia. unfold vlookup.
    rewrite (proj2 (Z.leb_le 0 _)) by lia. rewrite lookup_app_l by (rewrite length_replicate; lia).
    apply lookup_replicate_2. lia.
Qed.

(** sorting sequences that are in order already *)
Lemma sort_in_order tok0 l :
  (forall i j x y, (i < j)%nat -> l !! i = Some x -> l !! j = Some y ->
     default 0 (vlookup tok0 x) < default 0 (vlookup tok0 y)) -> sort_by_tok0 tok0 l = l.
Proof.
  induction l as [| s l IH] using rev_ind; intros H; [done |]. unfold sort_by_tok0 in *. rewrite foldl_app, IH.
  2: { intros i j x y Hij Hi Hj. apply (H i j x y Hij); by apply lookup_app_l_Some. }
  assert (Hlt : forall x, x ∈ l -> default 0 (vlookup tok0 x) < default 0 (vlookup tok0 s)).
  { intros x Hx. apply list_elem_of_lookup in Hx as [i Hi]. pose proof (lookup_lt_Some _ _ _ Hi).
    apply (H i (length l)); [done | by apply lookup_app_l_Some |]. by rewrite lookup_app_r, Nat.sub_diag by lia. }
  clear IH H. simpl. induction l as [| x l IH]; [done |]. simpl. pose proof (Hlt x ltac:(set_solver)).
  destruct (_ <? _) eqn:E; [lia |]. f_equal. apply IH. set_solver.
Qed.

Lemma zrange_snoc a b : a <= b -> zrange a (b + 1) = zrange a b ++ [b].
Proof.
  intros H. unfold zrange. replace (Z.to_nat (b + 1 - a)) with (S (Z.to_nat (b - a))) by lia.
  rewrite seq_S, fmap_app. simpl. do 2 f_equal. lia.
Qed.
Lemma vlookup_zrange a b k : 0 <= k < b - a -> vlookup (zrange a b) k = Some (a + k).
Proof. intros H. unfold vlookup. rewrite (proj2 (Z.leb_le 0 k)) by lia. rewrite zrange_lookup by lia. f_equal. lia. Qed.

Lemma offs_succ o ns k n t : offs o ns !! k = Some t -> ns !! k = Some n -> (S k < length ns)%nat -> offs o ns !! S k = Some (t + n).
Proof.
  revert o k. induction ns as [| n' ns IH]; intros o k Ht Hn Hk; [done |]. destruct k as [| k].
  - simpl in *. simplify_eq. destruct ns; simpl in *; [lia | done].
  - simpl in Ht, Hn, Hk. exact (IH (o + n') k Ht Hn ltac:(lia)).
Qed.
Lemma expand_lookup m o ns k n t : ns !! k = Some n -> offs o ns !! k = Some t -> (forall n, n ∈ ns -> 0 < n) ->
  o <= t /\ t + n <= o + total ns
  /\ forall j, 0 <= j < n -> vlookup (expand m ns) (t - o + j) = Some (m + Z.of_nat k).
Proof.
  revert m o k. induction ns as [| n' ns IH]; intros m o k Hn Ht Hpos; [done |].
  pose proof (Hpos n' ltac:(set_solver)) as Hn'. pose proof (total_nonneg ns ltac:(set_solver)) as Htot. destruct k as [| k].
  - simpl in *. simplify_eq. split; [lia |]. split; [lia |]. intros j Hj.
    rewrite vlookup_app_l by (unfold Zlen; rewrite length_replicate; lia). unfold vlookup.
    rewrite (proj2 (Z.leb_le 0 _)) by lia. rewrite Z.add_0_r. apply lookup_replicate_2. lia.
  - simpl in Ht, Hn. destruct (IH (m + 1) (o + n') k Hn Ht ltac:(set_solver)) as (H1 & H2 & H3). simpl.
    split; [lia |]. split; [lia |]. intros j Hj. assert (Hl : Zlen (replicate (Z.to_nat n') m) = n') by (unfold Zlen; rewrite length_replicate; lia).
    rewrite vlookup_app_r by lia. rewrite Hl. replace (t - o + j - n') with (t - (o + n') + j) by lia. rewrite H3 by done. f_equal. lia.
Qed.

Lemma offs_lt_nat o ns i j t u : (forall n, n ∈ ns -> 0 < n) ->
  offs o ns !! i = Some t -> offs o ns !! j = Some u -> (i < j)%nat -> t < u.
Proof.
  intros Hp. revert t u. induction j as [| j IH]; intros t u Hi Hj Hij; [lia |].
  pose proof (lookup_lt_Some _ _ _ Hj) as Hlt. rewrite offs_length in Hlt.
  destruct (lookup_lt_is_Some_2 ns j ltac:(lia)) as [n Hn].
  destruct (lookup_lt_is_Some_2 (offs o ns) j) as [v Hv]; [rewrite offs_length; lia |].
  pose proof (offs_succ o ns j n v Hv Hn Hlt) as E. rewrite E in Hj. injection Hj as <-.
  pose proof (Hp n (list_elem_of_lookup_2 _ _ _ Hn)). destruct (decide (i = j)) as [-> | Hne]; [simplify_eq; lia |].
  specialize (IH t v Hi Hv ltac:(lia)). lia.
Qed.
Lemma offs_lt ns i j : (forall n, n ∈ ns -> 0 < n) -> (i < j)%nat -> (j < length ns)%nat ->
  default 0 (vlookup (offs 0 ns) (0 + Z.of_nat i)) < default 0 (vlookup (offs 0 ns) (0 + Z.of_nat j)).
Proof.
  intros Hp Hij Hj. destruct (lookup_lt_is_Some_2 (offs 0 ns) i) as [t Ht]; [rewrite offs_length; lia |].
  destruct (lookup_lt_is_Some_2 (offs 0 ns) j) as [u Hu]; [rewrite offs_length; lia |].
  unfold vlookup. rewrite !Z.add_0_l, !(proj2 (Z.leb_le 0 _)), !Nat2Z.id, Ht, Hu by lia. simpl. by eapply offs_lt_nat.
Qed.

Section groups.
Context (ub : UBatch) (ns : list Z).
Hypothesis Hpos : forall n, n ∈ ns -> 0 < n.
Hypothesis Hseqs : length (ub_seqs ub) = length ns.
Hypothesis Hcells : forall q, q ∈ ub_seqs ub -> Zlen (cells q) + 255 < 2 ^ 32.
Hypothesis Hsmall : total ns < 2 ^ 32 - 1.

(** consecutive sequences of equal token count, starting at the group's first token *)
Definition group_ok (g : AttnGroup) : Prop := exists a,
  0 <= a /\ 0 < g_S g /\ a + g_S g <= Zlen ns /\ g_seqs g = zrange a (a + g_S g)
  /\ (forall s, a <= s < a + g_S g -> vlookup ns s = Some (g_T g))
  /\ vlookup (offs 0 ns) a = Some (g_tok0 g) /\ g_L g + 255 < 2 ^ 32
  /\ (forall s q, a <= s < a + g_S g -> vlookup (ub_seqs ub) s = Some q -> Zlen (cells q) <= g_L g).

Lemma concat_last gs g m a :
  concat (g_seqs <$> gs ++ [g]) = zrange 0 m -> g_seqs g = zrange a (a + g_S g) -> 0 < g_S g -> 0 <= m -> a + g_S g = m.
Proof.
  intros Hc Hs HS Hm. rewrite fmap_app, concat_app in Hc. simpl in Hc. rewrite app_nil_r, Hs in Hc.
  replace (a + g_S g) with (a + g_S g - 1 + 1) in Hc by lia. rewrite zrange_snoc, app_assoc in Hc by lia.
  destruct (decide (m = 0)) as [-> | Hne]; [by apply app_eq_nil in Hc as [_ ?] |].
  replace m with (m - 1 + 1) in Hc by lia. rewrite zrange_snoc in Hc by lia. apply app_inj_tail in Hc as [_ ?]. lia.
Qed.

Lemma group_single m n t0 q :
  vlookup ns m = Some n -> vlookup (offs 0 ns) m = Some t0 -> vlookup (ub_seqs ub) m = Some q ->
  group_ok (mkGroup t0 n 1 (u32 (Zlen (cells q))) [m]).
Proof.
  intros Hn Ht Hq. pose proof (vlookup_Some_range _ _ _ Hn) as Hr. pose proof (Hcells q (vlookup_elem_of _ _ _ Hq)) as Hcq.
  pose proof (Zlen_nonneg (cells q)). exists m. simpl. rewrite u32_small by lia. split_and!; try lia; try done.
  - rewrite zrange_snoc by lia. unfold zrange. by rewrite Z.sub_diag.
  - intros s Hs. by assert (s = m) as -> by lia.
  - intros s q' Hs Hq'. assert (s = m) as -> by lia. simplify_eq. lia.
Qed.

Lemma group_extend g m n q :
  group_ok g -> (exists a, g_seqs g = zrange a (a + g_S g) /\ a + g_S g = m) -> g_T g = n ->
  vlookup ns m = Some n -> vlookup (ub_seqs ub) m = Some q ->
  group_ok (mkGroup (g_tok0 g) (g_T g) (u32 (g_S g + 1)) (Z.max (g_L g) (u32 (Zlen (cells q)))) (g_seqs g ++ [m])).
Proof.
  intros (a & H1 & H2 & H3 & H4 & H5 & H6 & H7 & H8) (a' & E & Em) <- Hn Hq.
  pose proof (vlookup_Some_range _ _ _ Hn) as Hr. pose proof (total_length ns Hpos) as Htl.
  pose proof (Hcells q (vlookup_elem_of _ _ _ Hq)) as Hcq. pose proof (Zlen_nonneg (cells q)).
  assert (a' = a) as ->.
  { rewrite E in H4. apply (f_equal (fun l => l !! 0%nat)) in H4. rewrite !zrange_lookup in H4 by lia. simplify_eq. lia. }
  exists a. simpl. rewrite (u32_small (g_S g + 1)), (u32_small (Zlen (cells q))) by lia.
  split_and!; try lia; try done.
  - rewrite H4, Z.add_assoc, zrange_snoc by lia. by rewrite Em.
  - intros s Hs. destruct (decide (s = m)) as [-> | Hne]; [done | apply H5; lia].
  - intros s q' Hs Hq'. destruct (decide (s = m)) as [-> | Hne]; [simplify_eq; lia |]. specialize (H8 s q' ltac:(lia) Hq'). lia.
Qed.

Lemma group_loop_spec k m groups :
  m + Z.of_nat k = Zlen ns -> 0 <= m -> (forall g, g ∈ groups -> group_ok g) -> concat (g_seqs <$> groups) = zrange 0 m ->
  exists groups', group_loop ub ns (offs 0 ns) (zrange m (Zlen ns)) groups = Ok groups'
    /\ (forall g, g ∈ groups' -> group_ok g) /\ concat (g_seqs <$> groups') = zrange 0 (Zlen ns).
Proof.
  revert m groups. induction k as [| k IH]; intros m groups Hm Hm0 Hg Hc.
  { assert (m = Zlen ns) as -> by lia. exists groups. split_and!; try done. unfold zrange. by rewrite Z.sub_diag. }
  rewrite (zrange_cons m) by lia. cbn [group_loop].
  destruct (vlookup_lt_is_Some ns m) as [n Hn]; [lia |].
  destruct (vlookup_lt_is_Some (offs 0 ns) m) as [t0 Ht]; [unfold Zlen in *; rewrite offs_length; lia |].
  destruct (vlookup_lt_is_Some (ub_seqs ub) m) as [q Hq]; [unfold Zlen in *; rewrite Hseqs; lia |].
  rewrite (proj2 (vget_Ok _ _ _) Hn). cbn [rbind]. rewrite (proj2 (vget_Ok _ _ _) Ht). cbn [rbind].
  rewrite (proj2 (vget_Ok _ _ _) Hq). cbn [rbind]. pose proof (group_single m n t0 q Hn Ht Hq) as Hsingle.
  assert (Hfresh : exists groups', group_loop ub ns (offs 0 ns) (zrange (m + 1) (Zlen ns)) (groups ++ [mkGroup t0 n 1 (u32 (Zlen (cells q))) [m]]) = Ok groups'
    /\ (forall g, g ∈ groups' -> group_ok g) /\ concat (g_seqs <$> groups') = zrange 0 (Zlen ns)).
  { apply IH; [lia | lia | |].
    - intros g [? | ->%list_elem_of_singleton]%elem_of_app; auto.
    - rewrite fmap_app, concat_app, Hc. simpl. rewrite (zrange_snoc 0 m) by lia. done. }
  destruct (last groups) as [g |] eqn:El; [| exact Hfresh]. destruct (g_T g =? n) eqn:Et; [| exact Hfresh].
  apply Z.eqb_eq in Et. apply last_Some in El as [gs ->]. rewrite List.removelast_last.
  destruct (Hg g ltac:(set_solver)) as (a & A1 & A2 & A3 & A4 & A5 & A6 & A7 & A8) eqn:Eg. clear Eg.
  assert (Hend : a + g_S g = m) by (eapply concat_last; eauto).
  apply IH; [lia | lia | |].
  - intros g' [? | ->%list_elem_of_singleton]%elem_of_app; [apply Hg; set_solver |].
    eapply group_extend; eauto. apply Hg. set_solver.
  - rewrite fmap_app, concat_app in *. simpl in *. rewrite app_nil_r in *. rewrite (zrange_snoc 0 m), app_assoc, Hc by lia. done.
Qed.

(** what a finished group guarantees *)
Definition group_span (g : AttnGroup) (a : Z) : Prop :=
  0 <= a /\ 0 < g_S g /\ a + g_S g <= Zlen ns /\ g_seqs g = zrange a (a + g_S g)
  /\ (forall s, a <= s < a + g_S g -> vlookup ns s = Some (g_T g))
  /\ vlookup (offs 0 ns) a = Some (g_tok0 g)
  /\ (forall s q, a <= s < a + g_S g -> vlookup (ub_seqs ub) s = Some q -> Zlen (cells q) <= g_L g).

Definition pad_group (g : AttnGroup) : AttnGroup :=
  mkGroup (g_tok0 g) (g_T g) (g_S g) (Z.max 256 (u32 (g_L g + 255) / 256 * 256)) (g_seqs g).

Lemma pad_span g : group_ok g -> exists a, group_span (pad_group g) a.
Proof.
  intros (a & H1 & H2 & H3 & H4 & H5 & H6 & H7 & H8). exists a. split_and!; try done. simpl. intros s q Hs Hq.
  specialize (H8 s q Hs Hq). pose proof (Zlen_nonneg (cells q)). rewrite u32_small by lia.
  pose proof (Z.div_mod (g_L g + 255) 256 ltac:(lia)). pose proof (Z.mod_pos_bound (g_L g + 255) 256 ltac:(lia)). lia.
Qed.

Lemma attn_groups_spec :
  ub_seq_idx ub = expand 0 ns -> ub_n_tokens ub = total ns ->
  exists groups, attn_groups ub = Ok groups /\ (forall g, g ∈ groups -> exists a, group_span g a)
    /\ concat (g_seqs <$> groups) = zrange 0 (Zlen ns).
Proof.
  intros Hidx Hn. unfold attn_groups. rewrite Hn, Hseqs.
  pose proof (count_all ns ub [] [] [] Hidx eq_refl Hpos) as Hcnt. simpl in Hcnt. change (Zlen (@nil Z)) with 0 in Hcnt.
  rewrite Hcnt by lia. cbn [rbind].
  assert (Ho : List.filter (fun s => 0 <? default 0 (vlookup ns s)) (zrange 0 (Z.of_nat (length ns))) = zrange 0 (Zlen ns)).
  { assert (Hall : forall s, s ∈ zrange 0 (Zlen ns) -> (0 <? default 0 (vlookup ns s)) = true).
    { intros s Hs%elem_of_zrange. destruct (vlookup_lt_is_Some ns s Hs) as [n Hsn]. rewrite Hsn. simpl.
      apply vlookup_elem_of, Hpos in Hsn. by apply Z.ltb_lt. }
    unfold Zlen in *. revert Hall. generalize (zrange 0 (Z.of_nat (length ns))) as l. induction l as [| s l IH]; intros Hall; [done |].
    simpl. rewrite Hall by set_solver. f_equal. apply IH. set_solver. }
  rewrite Ho, sort_in_order.
  - destruct (group_loop_spec (length ns) 0 []) as (gs & -> & Hg & Hc); [unfold Zlen; lia | lia | set_solver | done |].
    cbn [rbind]. eexists. split; [done |]. split.
    + intros g (g0 & -> & Hin)%list_elem_of_fmap. apply pad_span. by apply Hg.
    + rewrite <- Hc. f_equal. rewrite <- list_fmap_compose. by apply list_fmap_ext.
  - intros i j x y Hij Hi Hj. pose proof (lookup_lt_Some _ _ _ Hi) as Li. pose proof (lookup_lt_Some _ _ _ Hj) as Lj.
    rewrite length_zrange in Li, Lj. rewrite zrange_lookup in Hi, Hj by done. simplify_eq.
    apply (offs_lt ns i j); [exact Hpos | done | unfold Zlen in *; lia].
Qed.

(** the first token of the group's sequences *)
Lemma group_offs g a (k : nat) : group_span g a -> Z.of_nat k < g_S g ->
  vlookup (offs 0 ns) (a + Z.of_nat k) = Some (g_tok0 g + Z.of_nat k * g_T g).
Proof.
  intros (H1 & H2 & H3 & H4 & H5 & H6 & _). induction k as [| k IH]; intros Hk; [by rewrite Z.mul_0_l, !Z.add_0_r |].
  specialize (IH ltac:(lia)). pose proof (H5 (a + Z.of_nat k) ltac:(lia)) as Hn.
  unfold vlookup in IH, Hn |- *. rewrite (proj2 (Z.leb_le 0 (a + Z.of_nat k))) in IH, Hn by lia.
  rewrite (proj2 (Z.leb_le 0 (a + Z.of_nat (S k)))) by lia.
  replace (Z.to_nat (a + Z.of_nat (S k))) with (S (Z.to_nat (a + Z.of_nat k))) by lia.
  rewrite (offs_succ 0 ns _ _ _ IH Hn); [f_equal; lia |]. unfold Zlen in *. lia.
Qed.

Lemma group_token g a si t :
  ub_seq_idx ub = expand 0 ns -> group_span g a -> 0 <= si < g_S g -> 0 <= t < g_T g ->
  vlookup (ub_seq_idx ub) (g_tok0 g + si * g_T g + t) = Some (a + si)
  /\ 0 <= g_tok0 g + si * g_T g + t < total ns.
Proof.
  intros Hidx Hg Hsi Ht. pose proof (group_offs g a (Z.to_nat si) Hg ltac:(lia)) as Ho. rewrite Z2Nat.id in Ho by lia.
  destruct Hg as (H1 & H2 & H3 & H4 & H5 & H6 & _). specialize (H5 (a + si) ltac:(lia)).
  unfold vlookup in Ho, H5. rewrite (proj2 (Z.leb_le 0 _)) in Ho, H5 by lia.
  destruct (expand_lookup 0 0 ns _ _ _ H5 Ho Hpos) as (E1 & E2 & E3). rewrite Hidx. specialize (E3 t Ht).
  rewrite Z.sub_0_r in E3. rewrite E3. split; [f_equal; lia | lia].
Qed.
End groups.

(** ** The gathered groups *)
Definition gathered (hp : HParams) (swa : bool) (p1 p0 : Z) : option Z :=
  if allowed hp swa p1 p0 then Some (mask_value hp p1 p0) else None.

Lemma vset_middle {A} (pre suf : list A) x y : vset (pre ++ x :: suf) (Zlen pre) y = Ok (pre ++ y :: suf).
Proof.
  rewrite vset_Ok by (unfold Zlen; rewrite length_app; simpl; lia). f_equal. unfold vinsert, Zlen.
  rewrite (proj2 (Z.leb_le 0 _)) by lia. rewrite Nat2Z.id. by rewrite insert_app_r_alt, Nat.sub_diag by done.
Qed.

Lemma gather_row_spec hp swa p1 cs ps pre (m : nat) :
  length cs = length ps ->
  gather_row hp swa p1 (Zlen pre) cs ps (pre ++ replicate (length cs + m) None)
  = Ok (pre ++ map (gathered hp swa p1) ps ++ replicate m None).
Proof.
  revert ps pre. induction cs as [| c cs IH]; intros [| p0 ps] pre Hlen; try done. simpl.
  set (r1 := if causal_attn hp && (p1 <? p0) then _ else _).
  assert (Er : r1 = Ok ((pre ++ [gathered hp swa p1 p0]) ++ replicate (length cs + m) None)).
  { subst r1. unfold gathered, allowed. rewrite <- app_assoc, (Z.leb_antisym p1 p0), vset_middle. simpl.
    by destruct (causal_attn hp), (p1 <? p0), (swa && (n_swa hp <=? p1 - p0)). }
  rewrite Er. cbn [rbind]. replace (Zlen pre + 1) with (Zlen (pre ++ [gathered hp swa p1 p0])) by (rewrite Zlen_app; unfold Zlen; simpl; lia).
  rewrite IH by (simpl in Hlen; lia). by rewrite <- app_assoc.
Qed.

Lemma gathered_attend hp swa p1 cs ps :
  length cs = length ps ->
  (zip cs (map (gathered hp swa p1) ps) ≫= fun cv => match cv with (c, Some _) => [c] | (_, None) => [] end)
  = attend hp swa p1 cs ps.
Proof.
  revert ps. induction cs as [| c cs IH]; intros [| p0 ps] Hlen; try done. unfold attend, gathered in *. simpl.
  rewrite IH by (simpl in Hlen; lia). by destruct (allowed hp swa p1 p0).
Qed.

Lemma zip_pad {A B} (l1 : list A) (l2 : list B) k1 k2 : length l1 = length l2 -> zip (l1 ++ k1) (l2 ++ k2) = zip l1 l2 ++ zip k1 k2.
Proof. apply zip_with_app. Qed.

(** a query of a group reads the cells of its sequence it may see, and nothing of the padding *)
Lemma gather_attend hp il ub ns g a si t swa q p1 :
  ub_ok ub -> layer_swa_masked hp il = Ok swa -> group_span ub ns g a -> 0 <= si < g_S g ->
  vlookup (ub_seqs ub) (a + si) = Some q -> cells q <> [] ->
  vlookup (ub_pos ub) (g_tok0 g + si * g_T g + t) = Some p1 ->
  gather_cells hp il ub g si t = Ok (attend hp swa p1 (cells q) (cell_pos q)).
Proof.
  intros Ho Hl (H1 & H2 & H3 & H4 & H5 & H6 & H7) Hsi Hq Hne Hp. pose proof (uo_len _ Ho q (vlookup_elem_of _ _ _ Hq)) as Hlen.
  specialize (H7 (a + si) q ltac:(lia) Hq). unfold gather_cells. rewrite Hl. cbn [rbind].
  assert (Hs : vlookup (g_seqs g) si = Some (a + si)) by (rewrite H4; apply vlookup_zrange; lia).
  rewrite (proj2 (vget_Ok _ _ _) Hs). cbn [rbind]. unfold gather_seq_idx, fill_gather_row.
  rewrite (proj2 (vget_Ok _ _ _) Hs). cbn [rbind]. rewrite (proj2 (vget_Ok _ _ _) Hq). cbn [rbind].
  rewrite (proj2 (vget_Ok _ _ _) Hp). cbn [rbind].
  destruct (cells q) as [| c0 cs] eqn:Ec; [done |]. rewrite <- Ec in *. clear Hne.
  rewrite (rmap_Ok _ (fun j => default c0 (vlookup (cells q) j))).
  2: { intros j Hj%elem_of_zrange. destruct (j <? Zlen (cells q)) eqn:E.
       - destruct (vlookup_lt_is_Some (cells q) j ltac:(lia)) as [c Hc]. rewrite Hc. by apply vget_Ok.
       - rewrite Ec at 1. apply vget_Ok. simpl. destruct (vlookup (cells q) j) eqn:Ej; [apply vlookup_Some_range in Ej; lia | done]. }
  cbn [rbind]. set (m := (Z.to_nat (g_L g) - length (cells q))%nat).
  replace (Z.to_nat (g_L g)) with (length (cells q) + m)%nat by (unfold m, Zlen in *; lia).
  pose proof (gather_row_spec hp swa p1 (cells q) (cell_pos q) [] m Hlen) as Hg. simpl in Hg. change (Zlen (@nil (option Z))) with 0 in Hg.
  rewrite Hg. cbn [rbind]. f_equal.
  assert (Hidx : (fun j => default c0 (vlookup (cells q) j)) <$> zrange 0 (g_L g) = cells q ++ replicate m c0).
  { apply list_eq. intros k. rewrite list_lookup_fmap. destruct (decide (k < Z.to_nat (g_L g))%nat) as [Hk | Hk].
    - rewrite zrange_lookup, Z.add_0_l by lia. cbn [fmap option_fmap option_map]. unfold vlookup.
      rewrite (proj2 (Z.leb_le 0 (Z.of_nat k))), Nat2Z.id by lia.
      destruct (decide (k < length (cells q))%nat) as [Hk' | Hk'].
      + rewrite lookup_app_l by done. by destruct (lookup_lt_is_Some_2 (cells q) k Hk') as [c ->].
      + rewrite lookup_app_r by lia. rewrite lookup_replicate_2 by (unfold m; lia). by rewrite lookup_ge_None_2 by lia.
    - rewrite (lookup_ge_None_2 (zrange _ _)) by (rewrite length_zrange; lia). rewrite lookup_ge_None_2; [done |].
      rewrite length_app, length_replicate. unfold m, Zlen in *. lia. }
  rewrite Hidx, zip_pad by (rewrite length_map; done). rewrite bind_app, gathered_attend by done.
  clear. induction m as [| m IH]; simpl; by rewrite ?app_nil_r in *.
Qed.
