(* ===== verification/SchedOps.v ===== *)
(** * The KV invariant of the scheduler state

    [Inv] ties the heap of requests, the block pool and a ghost memory together.  The ghost memory
    maps a cell to the K/V row it holds; rows are an abstract type [KV], and the row a token
    produces is an abstract function [F] of the token, its position and the rows the token attends
    to (the compute graph is a parameter).  [kv_ref toks i] is the row token [i] of [toks] gets when
    the sequence is run alone, so the invariant says that paging, sharing, prefix-cache hits and
    preemption never change a row a request relies on. *)

From S2P Require Import Prelude BlockPool FreeList PoolSpec KVCache KVFacts Request Scheduler.

Section reference.
Context {KV : Type} (F : Z -> Z -> list KV -> KV).

(** rows of the first [n] tokens, each computed from the rows before it *)
Fixpoint kv_rows (n : nat) (toks : list Z) : list KV :=
  match n with
  | O => []
  | S n => let rows := kv_rows n toks in rows ++ [F (default 0 (toks !! n)) (Z.of_nat n) rows]
  end.
Definition kv_ref (toks : list Z) (i : Z) : KV :=
  F (default 0 (vlookup toks i)) i (kv_rows (Z.to_nat i) toks).

Lemma kv_rows_take n m toks : (n <= m)%nat -> kv_rows n (take m toks) = kv_rows n toks.
Proof.
  intros Hn. induction n as [| n IH]; [done |]. simpl. rewrite IH by lia.
  by rewrite lookup_take_lt by lia.
Qed.

(** a row only depends on the tokens up to its own *)
Lemma kv_ref_take toks m i : 0 <= i < m -> kv_ref (take (Z.to_nat m) toks) i = kv_ref toks i.
Proof.
  intros Hi. unfold kv_ref, vlookup. rewrite kv_rows_take by lia.
  destruct (0 <=? i); [| done]. by rewrite lookup_take_lt by lia.
Qed.
Lemma kv_ref_app toks more i : 0 <= i < Zlen toks -> kv_ref (toks ++ more) i = kv_ref toks i.
Proof.
  intros Hi. rewrite <- (kv_ref_take (toks ++ more) (Zlen toks)) by done.
  unfold Zlen. by rewrite Nat2Z.id, take_app_length.
Qed.
End reference.

(** ** Block tables *)
Definition table (h : gmap Z Request) (r : Z) : list Z :=
  match h !! r with Some x => block_ids (kv x) | None => [] end.
Definition tabs (h : gmap Z Request) (l : list Z) : list Z := l ≫= table h.

#[export] Instance tabs_perm h : Proper ((≡ₚ) ==> (≡ₚ)) (tabs h).
Proof. intros l k H. unfold tabs. by rewrite H. Qed.
Lemma tabs_cons h r l : tabs h (r :: l) = table h r ++ tabs h l.
Proof. done. Qed.
Lemma tabs_insert_ne h r x l : r ∉ l -> tabs (<[r := x]> h) l = tabs h l.
Proof.
  induction l as [| c l IH]; intros Hni; [done |]. apply not_elem_of_cons in Hni as [? ?].
  rewrite !tabs_cons, IH by done. unfold table. by rewrite lookup_insert_ne.
Qed.
Lemma tabs_delete_ne h r l : r ∉ l -> tabs (delete r h) l = tabs h l.
Proof.
  induction l as [| c l IH]; intros Hni; [done |]. apply not_elem_of_cons in Hni as [? ?].
  rewrite !tabs_cons, IH by done. unfold table. by rewrite lookup_delete_ne.
Qed.
Lemma table_in_tabs h r l b : r ∈ l -> b ∈ table h r -> b ∈ tabs h l.
Proof. intros Hr Hb. apply list_elem_of_bind. eauto. Qed.

(** cell of token [i] in a block table *)
Definition cell (bs : Z) (ids : list Z) (i : Z) : option Z :=
  (fun b => b * bs + i mod bs) <$> vlookup ids (i / bs).
Lemma cell_of_cell bs st i c : cell_of bs st i = Ok c <-> cell bs (block_ids st) i = Some c.
Proof.
  unfold cell_of, cell, vget. destruct (vlookup (block_ids st) (i / bs)); simpl; naive_solver.
Qed.

Section invariant.
Context {P : Type} `{PO : PoolOps P} `{PS : !PoolSpec P}.
Context {KV : Type} (F : Z -> Z -> list KV -> KV).
(** the prefixes (with their salt) that are ever hashed *)
Context (U : list Z -> Z -> Prop).
Context (cfg : SchedulerConfig).
Implicit Types s : Sched P.

(** No two of these prefixes with the same last block have the same chained hash. *)
Definition collision_free (bs : Z) : Prop :=
  forall pre pre' salt salt' (k k' : nat) h,
    U pre salt -> U pre' salt' ->
    length pre = (S k * Z.to_nat bs)%nat -> length pre' = (S k' * Z.to_nat bs)%nat ->
    chain bs pre salt !! k = Some h -> chain bs pre' salt' !! k' = Some h ->
    drop (k * Z.to_nat bs) pre = drop (k' * Z.to_nat bs) pre' -> pre = pre'.

Definition live s : list Z := running_ s ++ waiting_ s.
Definition s_bs s : Z := kv_block_size (kvc s).

(** a single request *)
Record rok (bs : Z) (x : Request) : Prop := {
  rk_tokens : 0 < Zlen (tokens x) <= max_model_len cfg;
  rk_hashes : block_hashes x `prefix_of` chain bs (tokens x) (cache_salt x);
  rk_computed : 0 <= num_computed_tokens x <= Zlen (tokens x ++ spec_tokens x);
  rk_table : num_computed_tokens x <= Zlen (block_ids (kv x)) * bs;
  rk_ncb : 0 <= num_cached_blocks (kv x) <= Zlen (block_ids (kv x));
  rk_used : forall n, U (take n (tokens x)) (cache_salt x)
}.
(** a waiting request holds no blocks *)
Record wok (x : Request) : Prop := {
  wk_table : block_ids (kv x) = [];
  wk_computed : num_computed_tokens x = 0;
  wk_ncb : num_cached_blocks (kv x) = 0;
  wk_status : status x = WAITING \/ status x = PREEMPTED
}.

(** the cached block [b] holds the rows of the last block of a prefix with that hash *)
Definition cached_ok (bs : Z) (mem : Z -> KV) (b h : Z) (toks : list Z) : Prop :=
  exists pre salt (k : nat), U pre salt /\ length pre = (S k * Z.to_nat bs)%nat
    /\ chain bs pre salt !! k = Some h /\ toks = drop (k * Z.to_nat bs) pre
    /\ forall j, 0 <= j < bs -> mem (b * bs + j) = kv_ref F pre (Z.of_nat k * bs + j).

(** tokens of a request whose block is still being written: beyond the computed real tokens *)
Definition settled_tokens (x : Request) : Z := Z.min (num_computed_tokens x) (Zlen (tokens x)).

(** every computed token of the request is in its cell *)
Definition rows_ok (bs : Z) (mem : Z -> KV) (x : Request) : Prop :=
  forall i c, 0 <= i < num_computed_tokens x -> cell bs (block_ids (kv x)) i = Some c ->
    mem c = kv_ref F (tokens x ++ spec_tokens x) i.

(** a block past the settled tokens belongs to this request alone and is not cached *)
Definition excl_ok (bs : Z) (a : APool) (T : list Z) (x : Request) : Prop :=
  forall (i : nat) b, block_ids (kv x) !! i = Some b -> settled_tokens x < (Z.of_nat i + 1) * bs ->
    occ T b = 1 /\ a_cache a !! b = None.

Record Inv s (a : APool) (mem : Z -> KV) : Prop := {
  i_kv : kv_rep (kvc s) a;
  i_nodup : NoDup (live s);
  i_req : forall r, r ∈ live s -> exists x, heap s !! r = Some x /\ rok (s_bs s) x
    /\ (r ∈ running_ s -> status x = RUNNING) /\ (r ∈ waiting_ s -> wok x)
    /\ rows_ok (s_bs s) mem x /\ excl_ok (s_bs s) a (tabs (heap s) (live s)) x;
  i_refs : refs_ok a (tabs (heap s) (live s));
  i_cache : forall b h toks, a_cache a !! b = Some (h, toks) -> cached_ok (s_bs s) mem b h toks
}.
End invariant.

(** * The scheduler preserves the KV invariant: one request at a time

    Every operation of the scheduler changes one request (or adds or removes one).  [inv_change],
    [inv_add] and [inv_remove] say which local conditions are then enough for [Inv]; the lemmas
    after them discharge those conditions for the operations that free, allocate and cache blocks. *)

(** ** Lists *)
Lemma erase_perm r l : r ∈ l -> l ≡ₚ r :: erase r l.
Proof.
  induction l as [| c l IH]; intros Hr; [by apply not_elem_of_nil in Hr |]. simpl.
  destruct (c =? r) eqn:E; [apply Z.eqb_eq in E; by subst |]. apply Z.eqb_neq in E.
  rewrite Permutation_swap. f_equiv. apply IH. set_solver.
Qed.
Lemma erase_not_in r l : r ∉ l -> erase r l = l.
Proof.
  induction l as [| c l IH]; intros Hr; [done |]. simpl. apply not_elem_of_cons in Hr as [Hn Hr].
  destruct (c =? r) eqn:E; [apply Z.eqb_eq in E; congruence |]. by rewrite IH.
Qed.
Lemma erase_last r l : r ∉ l -> erase r (l ++ [r]) = l.
Proof.
  induction l as [| c l IH]; intros Hr; simpl; [by rewrite Z.eqb_refl |].
  apply not_elem_of_cons in Hr as [Hn Hr].
  destruct (c =? r) eqn:E; [apply Z.eqb_eq in E; congruence |]. by rewrite IH.
Qed.
Lemma erase_sub r l c : c ∈ erase r l -> c ∈ l.
Proof.
  induction l as [| d l IH]; simpl; [done |]. destruct (d =? r); set_solver.
Qed.
Lemma set_kv_id x : set_kv (kv x) x = x.
Proof. by destruct x. Qed.

Lemma live_running {P} (s : Sched P) r : r ∈ running_ s -> r ∈ live s.
Proof. unfold live. set_solver. Qed.
Lemma live_waiting {P} (s : Sched P) r : r ∈ waiting_ s -> r ∈ live s.
Proof. unfold live. set_solver. Qed.

Section facts.
Context {P : Type} `{PO : PoolOps P} `{PS : !PoolSpec P}.
Context {KV : Type} (F : Z -> Z -> list KV -> KV) (U : list Z -> Z -> Prop) (cfg : SchedulerConfig).
Implicit Types s : Sched P.
Abbreviation Inv := (Inv F U cfg).
Abbreviation rok := (rok U cfg).

(** what holds of a live request *)
Lemma inv_get s a mem r : Inv s a mem -> r ∈ live s -> exists x rest,
  heap s !! r = Some x /\ get_req r s = Ok x /\ rok (s_bs s) x
  /\ (r ∈ running_ s -> status x = RUNNING) /\ (r ∈ waiting_ s -> wok x)
  /\ rows_ok F (s_bs s) mem x /\ excl_ok (s_bs s) a (block_ids (kv x) ++ tabs (heap s) rest) x
  /\ live s ≡ₚ r :: rest /\ r ∉ rest /\ refs_ok a (block_ids (kv x) ++ tabs (heap s) rest).
Proof.
  intros HI Hr. destruct (i_req _ _ _ _ _ _ HI r Hr) as (x & Hx & Hok & Hst & Hw & Hrow & Hex).
  pose proof (erase_perm r _ Hr) as Hp. exists x, (erase r (live s)).
  assert (Htab : tabs (heap s) (live s) ≡ₚ block_ids (kv x) ++ tabs (heap s) (erase r (live s))).
  { rewrite Hp at 1. rewrite tabs_cons. unfold table. by rewrite Hx. }
  split; [done |]. split; [unfold get_req; by rewrite Hx |]. do 4 (split; [done |]).
  split. { intros i b Hb Hlt. destruct (Hex i b Hb Hlt) as [Ho Hc]. split; [| done]. by rewrite <- Htab. }
  split; [done |]. split.
  - pose proof (i_nodup _ _ _ _ _ _ HI) as Hnd. rewrite Hp in Hnd. by apply NoDup_cons in Hnd as [? _].
  - rewrite <- Htab. apply HI.
Qed.

Lemma excl_perm bs a T T' x : T ≡ₚ T' -> excl_ok bs a T x -> excl_ok bs a T' x.
Proof. intros HT Hx i b Hb Hlt. destruct (Hx i b Hb Hlt). by rewrite <- HT. Qed.

(** blocks of another request keep their exclusivity *)
Lemma excl_frame bs a a' ids ids' rest y :
  wf_apool a -> refs_ok a (ids ++ rest) -> (forall b, b ∈ block_ids (kv y) -> b ∈ rest) ->
  (forall b, b ∈ ids' -> b ∈ ids \/ b ∈ a_free a \/ is_Some (a_cache a !! b)) ->
  (forall b e, a_cache a' !! b = Some e -> a_cache a !! b = Some e \/ b ∈ ids) ->
  excl_ok bs a (ids ++ rest) y -> excl_ok bs a' (ids' ++ rest) y.
Proof.
  intros Hw Hr Hy Hids Hca Hx i b Hb Hlt. destruct (Hx i b Hb Hlt) as [Ho Hc].
  assert (Hin : b ∈ rest) by (eapply Hy, list_elem_of_lookup_2, Hb).
  rewrite occ_app in Ho. pose proof (occ_pos _ _ Hin). pose proof (occ_nonneg ids b).
  assert (Hni : b ∉ ids) by (apply occ_0; lia). split.
  - rewrite occ_app. assert (occ ids' b = 0); [| lia]. apply occ_0. intros Hb'.
    destruct (Hids b Hb') as [? | [Hf | [e He]]]; [done | | congruence].
    apply (refs_ok_free _ _ _ Hw Hr Hf). set_solver.
  - destruct (a_cache a' !! b) as [e |] eqn:E; [| done].
    destruct (Hca b e E) as [? | ?]; [congruence | done].
Qed.

Lemma table_sub h r rest b : r ∈ rest -> b ∈ table h r -> b ∈ tabs h rest.
Proof. apply table_in_tabs. Qed.

(** ** One request changes *)
Lemma inv_change s a mem r x rest s' a' x' :
  Inv s a mem -> heap s !! r = Some x -> live s ≡ₚ r :: rest ->
  live s' ≡ₚ r :: rest -> heap s' = <[r := x']> (heap s) -> s_bs s' = s_bs s ->
  kv_rep (kvc s') a' -> refs_ok a' (block_ids (kv x') ++ tabs (heap s) rest) ->
  (forall c, c ∈ rest -> (c ∈ running_ s' -> c ∈ running_ s) /\ (c ∈ waiting_ s' -> c ∈ waiting_ s)) ->
  rok (s_bs s) x' -> (r ∈ running_ s' -> status x' = RUNNING) -> (r ∈ waiting_ s' -> wok x') ->
  rows_ok F (s_bs s) mem x' ->
  excl_ok (s_bs s) a' (block_ids (kv x') ++ tabs (heap s) rest) x' ->
  (forall b, b ∈ block_ids (kv x') -> b ∈ block_ids (kv x) \/ b ∈ a_free a \/ is_Some (a_cache a !! b)) ->
  (forall b h toks, a_cache a' !! b = Some (h, toks) -> a_cache a !! b = Some (h, toks)
     \/ (b ∈ block_ids (kv x) /\ cached_ok F U (s_bs s) mem b h toks)) ->
  Inv s' a' mem.
Proof.
  intros HI Hx Hl Hl' Hh Hbs Hkv Hrefs Hmem Hok Hst Hw Hrow Hex Hids Hca.
  pose proof (i_nodup _ _ _ _ _ _ HI) as Hnd. rewrite Hl in Hnd. pose proof Hnd as [Hni _]%NoDup_cons.
  assert (Ht : forall l, r ∉ l -> tabs (heap s') l = tabs (heap s) l) by (intros; rewrite Hh; by apply tabs_insert_ne).
  assert (Htab' : tabs (heap s') (live s') ≡ₚ block_ids (kv x') ++ tabs (heap s) rest).
  { rewrite Hl', tabs_cons, Ht by done. unfold table. by rewrite Hh, lookup_insert_eq. }
  assert (Htab : tabs (heap s) (live s) ≡ₚ block_ids (kv x) ++ tabs (heap s) rest).
  { rewrite Hl, tabs_cons. unfold table. by rewrite Hx. }
  split.
  - done.
  - by rewrite Hl'.
  - rewrite Hbs. intros c Hc. rewrite Hl' in Hc. apply elem_of_cons in Hc as [-> | Hc].
    + exists x'. split; [by rewrite Hh, lookup_insert_eq |]. do 4 (split; [done |]).
      eapply excl_perm; [symmetry; exact Htab' | exact Hex].
    + assert (Hcr : c <> r) by (intros ->; done).
      destruct (i_req _ _ _ _ _ _ HI c) as (y & Hy & Hyok & Hys & Hyw & Hyr & Hye); [rewrite Hl; set_solver |].
      exists y. split; [by rewrite Hh, lookup_insert_ne |]. destruct (Hmem c Hc) as [Hm1 Hm2].
      split; [done |]. split; [auto |]. split; [auto |]. split; [done |].
      eapply excl_perm; [symmetry; exact Htab' |]. eapply excl_frame.
      1: eapply kr_wf, HI. 1: rewrite <- Htab; apply HI. 2: exact Hids.
      * intros b Hb. eapply (table_sub _ c); [done |]. unfold table. by rewrite Hy.
      * intros b [h toks] Hb. destruct (Hca b h toks Hb) as [? | [? _]]; auto.
      * eapply excl_perm; [exact Htab | done].
  - by rewrite Htab'.
  - rewrite Hbs. intros b h toks Hb. destruct (Hca b h toks Hb) as [Hb' | [_ ?]]; [| done].
    by eapply (i_cache _ _ _ _ _ _ HI).
Qed.

(** ** A request leaves *)
Lemma inv_remove s a mem r x rest s' a' :
  Inv s a mem -> heap s !! r = Some x -> live s ≡ₚ r :: rest -> live s' ≡ₚ rest ->
  heap s' = delete r (heap s) -> s_bs s' = s_bs s -> kv_rep (kvc s') a' ->
  refs_ok a' (tabs (heap s) rest) -> a_cache a' = a_cache a ->
  (forall c, c ∈ rest -> (c ∈ running_ s' -> c ∈ running_ s) /\ (c ∈ waiting_ s' -> c ∈ waiting_ s)) ->
  Inv s' a' mem.
Proof.
  intros HI Hx Hl Hl' Hh Hbs Hkv Hrefs Hca Hmem.
  pose proof (i_nodup _ _ _ _ _ _ HI) as Hnd. rewrite Hl in Hnd. pose proof Hnd as [Hni Hnd']%NoDup_cons.
  assert (Htab' : tabs (heap s') (live s') ≡ₚ [] ++ tabs (heap s) rest).
  { rewrite Hl', Hh. simpl. by rewrite tabs_delete_ne. }
  assert (Htab : tabs (heap s) (live s) ≡ₚ block_ids (kv x) ++ tabs (heap s) rest).
  { rewrite Hl, tabs_cons. unfold table. by rewrite Hx. }
  split.
  - done.
  - by rewrite Hl'.
  - rewrite Hbs. intros c Hc. rewrite Hl' in Hc. assert (Hcr : c <> r) by (intros ->; done).
    destruct (i_req _ _ _ _ _ _ HI c) as (y & Hy & Hyok & Hys & Hyw & Hyr & Hye); [rewrite Hl; set_solver |].
    exists y. split; [by rewrite Hh, lookup_delete_ne |]. destruct (Hmem c Hc) as [Hm1 Hm2].
    split; [done |]. split; [auto |]. split; [auto |]. split; [done |].
    eapply excl_perm; [symmetry; exact Htab' |]. eapply excl_frame.
    1: eapply kr_wf, HI. 1: rewrite <- Htab; apply HI. 2: set_solver.
    + intros b Hb. eapply (table_sub _ c); [done |]. unfold table. by rewrite Hy.
    + intros b e Hb. rewrite Hca in Hb. by left.
    + eapply excl_perm; [exact Htab | done].
  - by rewrite Htab'.
  - rewrite Hbs, Hca. apply HI.
Qed.

(** ** A request arrives *)
Lemma inv_add s a mem r s' x :
  Inv s a mem -> r ∉ live s -> live s' ≡ₚ r :: live s -> heap s' = <[r := x]> (heap s) ->
  kvc s' = kvc s -> running_ s' = running_ s ->
  (forall c, c <> r -> c ∈ waiting_ s' -> c ∈ waiting_ s) ->
  rok (s_bs s) x -> wok x -> Inv s' a mem.
Proof.
  intros HI Hni Hl' Hh Hk Hrun Hmem Hok Hw.
  assert (Hbs : s_bs s' = s_bs s) by (unfold s_bs; by rewrite Hk).
  assert (Htab' : tabs (heap s') (live s') ≡ₚ tabs (heap s) (live s)).
  { rewrite Hl', tabs_cons, Hh, tabs_insert_ne by done. unfold table.
    by rewrite lookup_insert_eq, (wk_table _ Hw). }
  split.
  - rewrite Hk. apply HI.
  - rewrite Hl'. apply NoDup_cons. split; [done | apply HI].
  - rewrite Hbs. intros c Hc. rewrite Hl' in Hc. apply elem_of_cons in Hc as [-> | Hc].
    + exists x. split; [by rewrite Hh, lookup_insert_eq |]. split; [done |]. split.
      { rewrite Hrun. intros Hr. destruct Hni. unfold live. set_solver. }
      split; [done |]. split; [| intros i b; by rewrite (wk_table _ Hw)].
      intros i c Hi. rewrite (wk_computed _ Hw) in Hi. lia.
    + assert (Hcr : c <> r) by (intros ->; done).
      destruct (i_req _ _ _ _ _ _ HI c Hc) as (y & Hy & Hyok & Hys & Hyw & Hyr & Hye).
      exists y. split; [by rewrite Hh, lookup_insert_ne |]. rewrite Hrun. do 2 (split; [done |]). split; [auto |].
      split; [done |]. eapply excl_perm; [symmetry; exact Htab' | done].
  - rewrite Htab'. apply HI.
  - rewrite Hbs. apply HI.
Qed.
End facts.

(** * Queue operations of the scheduler: add_request, finish_request, preempt

    Each runs without error on a state with [Inv] and keeps it.  Under PRIORITY the binary search
    of add_request finds the place that keeps the waiting queue ordered. *)

Section queues.
Context {P : Type} `{PO : PoolOps P}.
Implicit Types s : Sched P.

(** ** std::upper_bound *)
Definition in_heap s (w : list Z) : Prop := forall r, r ∈ w -> is_Some (heap s !! r).
(** request [r] stays behind [x]: the comparison the search makes *)
Definition behind s (x : Request) (r : Z) : bool :=
  match heap s !! r with Some y => before x y | None => false end.

Lemma upper_bound_run fuel s w x first count :
  in_heap s w -> 0 <= first -> 0 <= count -> first + count <= Zlen w -> count < Z.of_nat fuel ->
  exists pos, upper_bound fuel s w x first count = Ok pos /\ first <= pos <= first + count.
Proof.
  intros Hw. revert first count. induction fuel as [| fuel IH]; intros first count Hf Hc Hle Hfu; [lia |].
  cbn [upper_bound]. destruct (0 <? count) eqn:E; [| exists first; split; [done | lia]].
  pose proof (Z.div_pos count 2 Hc ltac:(lia)). pose proof (Z.div_lt count 2 ltac:(lia) ltac:(lia)).
  destruct (vlookup_lt_is_Some w (first + count / 2)) as [r Hr]; [lia |].
  rewrite (proj2 (vget_Ok _ _ _) Hr). cbn [rbind].
  destruct (Hw r) as [y Hy]; [by eapply vlookup_elem_of |]. unfold get_req. rewrite Hy. cbn [rbind].
  destruct (before x y).
  - destruct (IH first (count / 2)) as (pos & Hp & ?); try lia. exists pos. split; [done | lia].
  - destruct (IH (first + count / 2 + 1) (count - (count / 2 + 1))) as (pos & Hp & ?); try lia.
    exists pos. split; [done | lia].
Qed.

(** in a partitioned range the search returns the partition point *)
Lemma upper_bound_partition fuel s w x first count pos k :
  upper_bound fuel s w x first count = Ok pos -> first <= k <= first + count -> 0 <= count ->
  (forall i r, first <= i < first + count -> vlookup w i = Some r -> behind s x r = bool_decide (k <= i)) ->
  pos = k.
Proof.
  revert first count. induction fuel as [| fuel IH]; intros first count; cbn [upper_bound]; [done |].
  intros H Hk Hc Hpart. destruct (0 <? count) eqn:E; [| simplify_eq; lia].
  pose proof (Z.div_pos count 2 Hc ltac:(lia)). pose proof (Z.div_lt count 2 ltac:(lia) ltac:(lia)).
  apply bind_Ok in H as (r & Hr & H). apply bind_Ok in H as (y & Hy & H). apply vget_Ok in Hr.
  unfold get_req in Hy. destruct (heap s !! r) as [y' |] eqn:Hh; simplify_eq.
  pose proof (Hpart (first + count / 2) r ltac:(lia) Hr) as Hb. unfold behind in Hb. rewrite Hh in Hb.
  rewrite Hb in H. case_bool_decide.
  - eapply IH; [exact H | lia | lia |]. intros i c Hi. apply Hpart. lia.
  - eapply IH; [exact H | lia | lia |]. intros i c Hi. apply Hpart. lia.
Qed.

(** the waiting queue in PRIORITY order: nobody goes before a request ahead of it *)
Definition prio_ordered (h : gmap Z Request) (w : list Z) : Prop :=
  forall i j c d y z, (i < j)%nat -> w !! i = Some c -> w !! j = Some d ->
    h !! c = Some y -> h !! d = Some z -> before z y = false.

Lemma before_trans x y z : before x y = true -> before z y = false -> before x z = true.
Proof. unfold before. rewrite !orb_true_iff, !andb_true_iff, orb_false_iff, andb_false_iff. lia. Qed.
Lemma before_asym x y : before x y = true -> before y x = false.
Proof. unfold before. rewrite !orb_true_iff, !andb_true_iff, orb_false_iff, andb_false_iff. lia. Qed.

(** an ordered queue is partitioned by "goes behind [x]" *)
Lemma ordered_partition s w x :
  in_heap s w -> prio_ordered (heap s) w ->
  exists k, 0 <= k <= Zlen w
    /\ forall i r, 0 <= i < Zlen w -> vlookup w i = Some r -> behind s x r = bool_decide (k <= i).
Proof.
  intros Hw Ho. induction w as [| c w IH] using rev_ind.
  { exists 0. split; [by vm_compute |]. intros i r Hi. unfold Zlen in Hi. simpl in Hi. lia. }
  destruct IH as (k & Hk & Hp).
  { intros r Hr. apply Hw. set_solver. }
  { intros i j d e y z Hij Hi Hj. apply (Ho i j d e y z Hij); by apply lookup_app_l_Some. }
  destruct (Hw c) as [z Hz]; [set_solver |].
  assert (Hlast : vlookup (w ++ [c]) (Zlen w) = Some c).
  { rewrite vlookup_app_r by lia. by rewrite Z.sub_diag. }
  destruct (decide (k = Zlen w)) as [Ek | Ek].
  - exists (if before x z then Zlen w else Zlen w + 1). zlen. split; [destruct (before x z); lia |].
    intros i r Hi Hr. destruct (decide (i = Zlen w)) as [-> | Hne].
    + rewrite Hlast in Hr. injection Hr as <-. unfold behind. rewrite Hz.
      destruct (before x z); case_bool_decide; lia || done.
    + rewrite vlookup_app_l in Hr by lia. rewrite (Hp i r) by (done || lia).
      rewrite !bool_decide_eq_false_2; [done | |]; destruct (before x z); lia.
  - exists k. zlen. split; [lia |]. intros i r Hi Hr. destruct (decide (i = Zlen w)) as [-> | Hne].
    + rewrite Hlast in Hr. injection Hr as <-. rewrite bool_decide_eq_true_2 by lia. unfold behind. rewrite Hz.
      destruct (vlookup_lt_is_Some w k ltac:(lia)) as [d Hd].
      pose proof (Hp k d ltac:(lia) Hd) as Hb. rewrite bool_decide_eq_true_2 in Hb by lia.
      unfold behind in Hb. destruct (heap s !! d) as [y |] eqn:Hy; [| done].
      apply (before_trans x y z Hb). unfold vlookup in Hd. case_match; [| done].
      eapply (Ho (Z.to_nat k) (length w) d c); try done.
      * unfold Zlen in *. lia.
      * by apply lookup_app_l_Some.
      * by rewrite lookup_app_r, Nat.sub_diag by lia.
    + rewrite vlookup_app_l in Hr by lia. by apply Hp; [lia |].
Qed.

(** ** add_request *)
Lemma add_request_run cfg s r x :
  heap s !! r = Some x -> in_heap s (waiting_ s) ->
  exists l1 l2, waiting_ s = l1 ++ l2
    /\ add_request cfg r s = Ok (with_waiting (l1 ++ r :: l2) (put_req r (set_status WAITING x) s))
    /\ (policy cfg = FCFS -> l2 = []).
Proof.
  intros Hx Hw. unfold add_request, upd_req, get_req. rewrite Hx. cbn [rbind].
  case_decide as Ep.
  - cbn [heap put_req with_heap]. rewrite lookup_insert_eq. cbn [rbind].
    set (s1 := put_req r _ s). change (waiting_ s1) with (waiting_ s).
    destruct (upper_bound_run (S (length (waiting_ s))) s1 (waiting_ s) (set_status WAITING x) 0
      (Zlen (waiting_ s))) as (pos & Hp & Hr); try (unfold Zlen; lia).
    { intros c Hc. subst s1. simpl. rewrite lookup_insert. case_decide; [done | by apply Hw]. }
    rewrite Hp. cbn [rbind]. eexists _, _. split; [by rewrite (take_drop (Z.to_nat pos)) |].
    split; [done |]. rewrite Ep. done.
  - exists (waiting_ s), []. rewrite app_nil_r. split; [done |]. split; [done | done].
Qed.

Lemma behind_same s s' x r : (forall y, heap s !! r = Some y -> exists y', heap s' !! r = Some y'
    /\ priority y' = priority y /\ arrival y' = arrival y) -> is_Some (heap s !! r) ->
  behind s' x r = behind s x r.
Proof.
  intros H [y Hy]. destruct (H y Hy) as (y' & Hy' & Hp & Ha). unfold behind, before.
  by rewrite Hy, Hy', Hp, Ha.
Qed.

Lemma add_request_ordered cfg s r x s' :
  policy cfg = PRIORITY -> heap s !! r = Some x -> in_heap s (waiting_ s) -> r ∉ waiting_ s ->
  prio_ordered (heap s) (waiting_ s) -> add_request cfg r s = Ok s' -> prio_ordered (heap s') (waiting_ s').
Proof.
  intros Ep Hx Hw Hni Ho. unfold add_request, upd_req, get_req. rewrite Hx. cbn [rbind].
  rewrite decide_True by done. cbn [heap put_req with_heap]. rewrite lookup_insert_eq. cbn [rbind].
  set (x1 := set_status WAITING x). set (s1 := put_req r _ s). change (waiting_ s1) with (waiting_ s).
  assert (Hne : forall c, c ∈ waiting_ s -> heap s1 !! c = heap s !! c).
  { intros c Hc. subst s1. simpl. rewrite lookup_insert_ne; [done | set_solver]. }
  assert (Hw1 : in_heap s1 (waiting_ s)) by (intros c Hc; rewrite Hne by done; by apply Hw).
  assert (Ho1 : prio_ordered (heap s1) (waiting_ s)).
  { intros i j c d y z Hij Hi Hj Hc Hd. rewrite Hne in Hc by by eapply list_elem_of_lookup_2.
    rewrite Hne in Hd by by eapply list_elem_of_lookup_2. by eapply (Ho i j). }
  destruct (ordered_partition s1 (waiting_ s) x1 Hw1 Ho1) as (k & Hk & Hpart).
  intros (pos & Hp & [= <-])%bind_Ok.
  assert (pos = k) as -> by (eapply upper_bound_partition; [exact Hp | lia | lia | exact Hpart]).
  cbn [waiting_ heap with_waiting].
  set (w := waiting_ s) in *. set (n := Z.to_nat k). 
  assert (Hn : (n <= length w)%nat) by (unfold n, Zlen in *; lia).
  assert (Hr1 : heap s1 !! r = Some x1) by (subst s1; simpl; by rewrite lookup_insert_eq).
  (* where an element of the new queue comes from *)
  assert (Hpos : forall i c, (take n w ++ r :: drop n w) !! i = Some c ->
    ((i < n)%nat /\ w !! i = Some c) \/ (i = n /\ c = r) \/ ((n < i)%nat /\ w !! pred i = Some c)).
  { intros i c Hi. destruct (decide (i < n)%nat) as [Hlt | Hge].
    - left. rewrite lookup_app_l in Hi by (rewrite length_take; lia). by rewrite lookup_take_lt in Hi.
    - right. rewrite lookup_app_r in Hi by (rewrite length_take; lia). rewrite length_take_le in Hi by done.
      destruct (i - n)%nat as [| m] eqn:Em; simpl in Hi; [left; split; [lia | congruence] | right].
      split; [lia |]. rewrite lookup_drop in Hi. rewrite <- Hi. f_equal. lia. }
  assert (Hb : forall i c y, w !! i = Some c -> heap s1 !! c = Some y -> before x1 y = bool_decide (k <= Z.of_nat i)).
  { intros i c y Hi Hy. pose proof (lookup_lt_Some _ _ _ Hi) as Hlt.
    rewrite <- (Hpart (Z.of_nat i) c); [unfold behind; by rewrite Hy | unfold Zlen; lia |].
    unfold vlookup. rewrite Nat2Z.id. case_match eqn:E; [done | lia]. }
  intros i j c d y z Hij Hi Hj Hy Hz. destruct (Hpos i c Hi) as [[Hin Hi'] | [[-> ->] | [Hin Hi']]],
    (Hpos j d Hj) as [[Hjn Hj'] | [[-> ->] | [Hjn Hj']]]; try lia.
  - by eapply (Ho1 i j).
  - rewrite Hr1 in Hz. injection Hz as <-. rewrite (Hb i c y Hi' Hy). apply bool_decide_eq_false_2. lia.
  - eapply (Ho1 i (pred j)); try done. lia.
  - rewrite Hr1 in Hy. injection Hy as <-. apply before_asym. rewrite (Hb (pred j) d z Hj' Hz).
    apply bool_decide_eq_true_2. lia.
  - eapply (Ho1 (pred i) (pred j)); try done. lia.
Qed.
End queues.

(** ** Operations on a state with the invariant *)
Section inv_ops.
Context {P : Type} `{PO : PoolOps P} `{PS : !PoolSpec P}.
Context {KV : Type} (F : Z -> Z -> list KV -> KV) (U : list Z -> Z -> Prop) (cfg : SchedulerConfig).
Implicit Types s : Sched P.
Abbreviation Inv := (Inv F U cfg).
Abbreviation rok := (rok U cfg).

Lemma inv_in_heap s a mem : Inv s a mem -> in_heap s (waiting_ s).
Proof.
  intros HI r Hr. destruct (i_req _ _ _ _ _ _ HI r) as (x & Hx & _); [unfold live; set_solver |]. eauto.
Qed.
(** the two queues are disjoint *)
Lemma inv_disjoint s a mem r : Inv s a mem -> r ∈ running_ s -> r ∉ waiting_ s.
Proof. intros HI. pose proof (i_nodup _ _ _ _ _ _ HI) as (_ & Hd & _)%NoDup_app. apply Hd. Qed.

(** freeing the blocks of a live request *)
Lemma free_run s a mem x rest :
  Inv s a mem -> rok (s_bs s) x -> refs_ok a (block_ids (kv x) ++ rest) ->
  exists k a', free_kv (kv x) (kvc s) = Ok (empty_kvs, k)
    /\ kv_rep k a' /\ kv_block_size k = s_bs s /\ refs_ok a' rest /\ a_cache a' = a_cache a.
Proof.
  intros HI Hok HL.
  destruct (free_spec (kvc s) a (kv x) rest (i_kv _ _ _ _ _ _ HI) HL)
    as (st & k & a' & -> & Hk & Hbs & _ & Hids & Hn & Hr & Hc & _).
  exists k, a'. split; [| done]. do 2 f_equal. destruct st as [ids n]. simpl in *. subst.
  pose proof (rk_ncb _ _ _ _ Hok) as Hncb. case_bool_decide as E; [| done].
  rewrite E in Hncb. unfold Zlen in Hncb. simpl in Hncb. unfold empty_kvs. f_equal. lia.
Qed.

(** a queue a request is erased from *)
Lemma queues_erase s a mem r (rest : list Z) : Inv s a mem -> live s ≡ₚ r :: rest ->
  (r ∈ running_ s -> erase r (running_ s) ++ waiting_ s ≡ₚ rest)
  /\ (r ∈ waiting_ s -> running_ s ++ erase r (waiting_ s) ≡ₚ rest).
Proof.
  intros HI Hl. unfold live in Hl. split; intros Hr; pose proof (erase_perm _ _ Hr) as Hp;
    apply (Permutation_cons_inv (a := r)); rewrite <- Hl; symmetry.
  - by rewrite Hp at 1.
  - rewrite Hp at 1. by rewrite Permutation_middle.
Qed.

Lemma finish_request_inv s a mem r st :
  Inv s a mem -> r ∈ live s ->
  exists s' a', finish_request r st s = Ok s' /\ Inv s' a' mem /\ s_bs s' = s_bs s
    /\ heap s' = delete r (heap s) /\ a_cache a' = a_cache a
    /\ ((r ∈ running_ s /\ running_ s' = erase r (running_ s) /\ waiting_ s' = waiting_ s)
        \/ (r ∉ running_ s /\ running_ s' = running_ s /\ waiting_ s' = erase r (waiting_ s))).
Proof.
  intros HI Hr. destruct (inv_get _ _ _ _ _ _ _ HI Hr) as (x & rest & Hx & Hg & Hok & _ & _ & _ & _ & Hl & Hni & HL).
  destruct (free_run s a mem x (tabs (heap s) rest) HI Hok HL) as (k & a' & Hfree & Hk & Hbs & HL' & Hca).
  destruct (queues_erase s a mem r rest HI Hl) as [Hq1 Hq2].
  unfold finish_request, upd_req, free_req. rewrite Hg. cbn [rbind]. unfold get_req. simpl.
  rewrite lookup_insert_eq. cbn [rbind]. change (kv (set_status st x)) with (kv x). rewrite Hfree. simpl.
  rewrite insert_insert_eq, delete_insert_eq.
  case_bool_decide as Hrun.
  - eexists _, a'. split; [done |]. split; [| split_and!; auto].
    apply (inv_remove F U cfg s a mem r x rest); try done; [by apply Hq1 |].
    intros c Hc. simpl. split; [apply erase_sub | done].
  - assert (Hwt : r ∈ waiting_ s) by (unfold live in Hr; set_solver). rewrite bool_decide_eq_true_2 by done.
    eexists _, a'. split; [done |]. split; [| split_and!; auto].
    apply (inv_remove F U cfg s a mem r x rest); try done; [by apply Hq2 |].
    intros c Hc. simpl. split; [done | apply erase_sub].
Qed.

(** the request a preemption leaves in the waiting queue *)
Definition preempted_req (x : Request) : Request :=
  set_num_preemptions (u32 (num_preemptions x + 1))
    (set_num_computed_tokens 0 (set_status PREEMPTED (set_kv empty_kvs x))).

Lemma preempted_wok x : wok (preempted_req x).
Proof. split; simpl; auto. Qed.
Lemma preempted_rok bs x : rok bs x -> rok bs (preempted_req x).
Proof.
  intros [H1 H2 H3 H4 H5 H6]. split; simpl; try done.
  - pose proof (Zlen_nonneg (tokens x ++ spec_tokens x)). lia.
Qed.

Lemma preempt_run s a mem r x rest :
  Inv s a mem -> r ∈ running_ s -> heap s !! r = Some x -> live s ≡ₚ r :: rest ->
  exists k a' l1 l2, waiting_ s = l1 ++ l2
    /\ preempt cfg r s = Ok (mkSched (<[r := preempted_req x]> (heap s)) k (l1 ++ r :: l2)
                               (erase r (running_ s)) (u64 (n_preemptions_ s + 1)))
    /\ kv_rep k a' /\ kv_block_size k = s_bs s
    /\ refs_ok a' (tabs (heap s) rest) /\ a_cache a' = a_cache a /\ (policy cfg = FCFS -> l1 = []).
Proof.
  intros HI Hr Hx Hl. destruct (inv_get _ _ _ _ _ _ _ HI (live_running _ _ Hr))
    as (x' & rest' & Hx' & Hg & Hok & _ & _ & _ & _ & Hl' & Hni & HL). simplify_eq.
  rewrite Hl' in Hl. apply Permutation_cons_inv in Hl. rewrite Hl in HL. clear Hl Hl' rest' Hni.
  destruct (free_run s a mem x (tabs (heap s) rest) HI Hok HL) as (k & a' & Hfree & Hk & Hbs & HL' & Hca).
  unfold preempt, free_req. rewrite Hg. cbn [rbind]. rewrite Hfree. cbn [rbind].
  unfold upd_req, get_req. simpl. rewrite lookup_insert_eq. simpl. rewrite bool_decide_eq_true_2 by done.
  rewrite insert_insert_eq. fold (preempted_req x). case_decide as Ep.
  - set (s1 := with_running _ _). destruct (add_request_run cfg s1 r (preempted_req x)) as (l1 & l2 & Hw & -> & _).
    { subst s1. simpl. by rewrite lookup_insert_eq. }
    { intros c Hc. subst s1. simpl in *. rewrite lookup_insert. case_decide; [done |].
      by eapply inv_in_heap. }
    cbn [rbind]. simpl. rewrite lookup_insert_eq. cbn [rbind]. subst s1. simpl in *.
    exists k, a', l1, l2. split; [done |]. split; [| rewrite Ep; naive_solver].
    unfold put_req, with_heap. simpl. by rewrite !insert_insert_eq.
  - exists k, a', [], (waiting_ s). naive_solver.
Qed.

Lemma preempt_inv s a mem r :
  Inv s a mem -> r ∈ running_ s ->
  exists s' a' x, preempt cfg r s = Ok s' /\ Inv s' a' mem /\ s_bs s' = s_bs s
    /\ heap s !! r = Some x /\ heap s' = <[r := preempted_req x]> (heap s)
    /\ running_ s' = erase r (running_ s) /\ waiting_ s' ≡ₚ r :: waiting_ s
    /\ (policy cfg = FCFS -> waiting_ s' = r :: waiting_ s)
    /\ n_preemptions_ s' = u64 (n_preemptions_ s + 1).
Proof.
  intros HI Hr. destruct (inv_get _ _ _ _ _ _ _ HI (live_running _ _ Hr))
    as (x & rest & Hx & Hg & Hok & _ & _ & _ & _ & Hl & Hni & HL).
  destruct (preempt_run s a mem r x rest HI Hr Hx Hl) as (k & a' & l1 & l2 & Hw & Hp & Hk & Hbs & HL' & Hca & Hfc).
  eexists _, a', x. split; [exact Hp |]. destruct (queues_erase s a mem r rest HI Hl) as [Hq1 _].
  specialize (Hq1 Hr). assert (Hw' : l1 ++ r :: l2 ≡ₚ r :: waiting_ s) by (rewrite Hw; by rewrite Permutation_middle).
  split_and!; try done; [| intros E; simpl; by rewrite Hw, (Hfc E)].
  apply (inv_change F U cfg s a mem r x rest _ a' (preempted_req x)); try done; simpl.
  - unfold live. simpl. rewrite Hw'. rewrite <- Permutation_middle. by rewrite Hq1.
  - intros c Hc. split; [apply erase_sub |]. rewrite Hw'. intros [-> | ?]%elem_of_cons; done.
  - by apply preempted_rok.
  - intros Hin. exfalso. pose proof (i_nodup _ _ _ _ _ _ HI) as Hnd. unfold live in Hnd.
    rewrite (erase_perm r (running_ s)) in Hnd by done. apply NoDup_cons in Hnd as [Hn _]. set_solver.
  - intros _. apply preempted_wok.
  - intros i c Hi. simpl in Hi. lia.
  - set_solver.
  - intros b h toks Hb. left. by rewrite <- Hca.
Qed.

Lemma add_request_inv s a mem r x :
  Inv s a mem -> r ∉ live s -> heap s !! r = Some x -> rok (s_bs s) x -> wok (set_status WAITING x) ->
  exists s', add_request cfg r s = Ok s' /\ Inv s' a mem /\ s_bs s' = s_bs s
    /\ heap s' = <[r := set_status WAITING x]> (heap s) /\ running_ s' = running_ s
    /\ waiting_ s' ≡ₚ r :: waiting_ s.
Proof.
  intros HI Hni Hx Hok Hw. destruct (add_request_run cfg s r x Hx (inv_in_heap _ _ _ HI)) as (l1 & l2 & El & -> & _).
  assert (Hw' : l1 ++ r :: l2 ≡ₚ r :: waiting_ s) by (rewrite El; by rewrite Permutation_middle).
  eexists. split; [done |]. split_and!; try done.
  apply (inv_add F U cfg s a mem r _ (set_status WAITING x)); try done; simpl.
  - unfold live. simpl. rewrite Hw'. by rewrite <- Permutation_middle.
  - intros c Hc. rewrite Hw'. intros [-> | ?]%elem_of_cons; done.
  - destruct Hok. by split.
Qed.
End inv_ops.
