(* ===== verification/SchedAlloc.v ===== *)
(** * Allocation for one request keeps the invariant

    A running request grows its table by fresh blocks (phase 1); a waiting request starts from the
    cached blocks of its prefix (phase 2), whose rows are the right ones because no two prefixes in
    use collide. *)

From S2P Require Import Prelude BlockPool FreeList PoolSpec KVCache KVFacts Request Scheduler SchedOps.

Section alloc.
Context {P : Type} `{PO : PoolOps P} `{PS : !PoolSpec P}.
Context {KV : Type} (F : Z -> Z -> list KV -> KV) (U : list Z -> Z -> Prop) (cfg : SchedulerConfig).
Implicit Types s : Sched P.
Abbreviation Inv := (Inv F U cfg).
Abbreviation rok := (rok U cfg).

(** sizes that keep every sum of the scheduler below 2^32 *)
Record cfg_ok (bs : Z) : Prop := {
  co_batch : 0 <= max_num_batched_tokens cfg;
  co_long : 0 <= long_prefill_token_threshold cfg;
  co_small : max_model_len cfg + max_num_batched_tokens cfg + bs < 2 ^ 31
}.

(** [s] with the new table of request [r] *)
Definition alloc_state s (r : Z) (x : Request) (st : KVRequestState) (k : PagedKVCache P) : Sched P :=
  with_kvc k (put_req r (set_kv st x) s).

Lemma cell_app bs ids fresh i :
  0 < bs -> 0 <= i < Zlen ids * bs -> cell bs (ids ++ fresh) i = cell bs ids i.
Proof.
  intros Hbs Hi. unfold cell. rewrite vlookup_app_l; [done |]. apply Z.div_lt_upper_bound; lia.
Qed.

Lemma occ_NoDup l b : NoDup l -> b ∈ l -> occ l b = 1.
Proof.
  intros Hnd Hb. unfold occ. apply NoDup_ListNoDup in Hnd.
  rewrite (proj1 (NoDup_count_occ' Z.eq_dec l) Hnd b); [done | by apply list_elem_of_In].
Qed.

(** fresh blocks belong to their request alone *)
Lemma excl_fresh (a a' : APool) fresh L (b : Z) :
  NoDup fresh -> (forall b, b ∈ fresh -> b ∉ L) ->
  (forall b e, a_cache a' !! b = Some e <-> a_cache a !! b = Some e /\ b ∉ fresh) ->
  b ∈ fresh -> occ (fresh ++ L) b = 1 /\ a_cache a' !! b = None.
Proof.
  intros Hnd Hd Hca Hb. rewrite occ_app, (occ_NoDup _ _ Hnd Hb), (proj2 (occ_0 L b) (Hd b Hb)). split; [done |].
  destruct (a_cache a' !! b) as [e |] eqn:E; [| done]. apply Hca in E. naive_solver.
Qed.

Lemma alloc_running s a mem r x n_total :
  Inv s a mem -> r ∈ running_ s -> heap s !! r = Some x ->
  0 <= n_total -> n_total + s_bs s < 2 ^ 31 ->
  allocate_slots (kv x) n_total [] (kvc s) = Ok (false, kv x, kvc s)
  \/ exists st k a', allocate_slots (kv x) n_total [] (kvc s) = Ok (true, st, k)
       /\ Inv (alloc_state s r x st k) a' mem /\ kv_block_size k = s_bs s
       /\ n_total <= Zlen (block_ids st) * s_bs s.
Proof.
  intros HI Hr Hx Hn Hsmall.
  destruct (inv_get _ _ _ _ _ _ _ HI (live_running _ _ Hr))
    as (x' & rest & Hx' & _ & Hok & Hst & _ & Hrow & Hex & Hl & Hni & HL). simplify_eq.
  pose proof (i_kv _ _ _ _ _ _ HI) as Hkv. pose proof (kr_bs_pos _ _ Hkv) as Hbs.
  destruct (allocate_spec (kvc s) a (kv x) n_total [] Hkv) as [Hyes Hno]; [set_solver | done | done | done |].
  destruct (decide (n_new_blocks (kv_block_size (kvc s)) (kv x) n_total []
    + zero_refs (base_touched (kv x) []) a <= Zlen (a_free a))) as [Hd | Hd]; [| left; apply Hno; lia].
  right. destruct (Hyes Hd) as (st & k & a' & Hrun & [Hk Hkbs _ Hids Henough Hncb]).
  exists st, k, a'. split; [done |]. split; [| done].
  assert (Et : base_touched (kv x) [] = []) by (unfold base_touched; by destruct (block_ids (kv x))).
  assert (Eb : base_ids (kv x) [] = block_ids (kv x)) by (unfold base_ids; by destruct (block_ids (kv x))).
  rewrite Et, Eb in Hids. destruct Hids as (fresh & Eids & Hfree & Hnd & Hca & Href).
  specialize (Href _ HL) as [HL' Hdis]. simpl in HL', Hdis. rewrite bool_decide_eq_false_2 in Hncb by naive_solver.
  assert (HT : fresh ++ block_ids (kv x) ++ tabs (heap s) rest ≡ₚ block_ids st ++ tabs (heap s) rest)
    by (rewrite Eids, app_assoc; f_equiv; apply Permutation_app_comm).
  apply (inv_change F U cfg s a mem r x rest _ a' (set_kv st x)); try done; simpl.
  - by rewrite <- HT.
  - destruct Hok. split; simpl; try done; rewrite Eids, Zlen_app; pose proof (Zlen_nonneg fresh);
      [unfold s_bs in *; nia | lia].
  - intros Hw. exfalso. by eapply inv_disjoint.
  - intros i c Hi Hc. simpl in Hi, Hc. apply Hrow; [done |]. rewrite Eids, cell_app in Hc; [done | done |].
    pose proof (rk_table _ _ _ _ Hok). unfold s_bs in *. lia.
  - intros i b Hb Hlt. simpl in Hb. change (settled_tokens (set_kv st x)) with (settled_tokens x) in Hlt. rewrite <- HT.
    rewrite Eids in Hb. apply lookup_app_Some in Hb as [Hb | [_ Hb]].
    + destruct (Hex i b Hb Hlt) as [Ho Hc]. split.
      * rewrite occ_app, Ho. assert (occ fresh b = 0); [| lia]. apply occ_0. intros Hf.
        apply (Hdis b Hf). apply list_elem_of_lookup_2 in Hb. set_solver.
      * destruct (a_cache a' !! b) as [e |] eqn:E; [| done]. apply Hca in E as [E _]. congruence.
    + eapply excl_fresh; [done | exact Hdis | exact Hca |]. by eapply list_elem_of_lookup_2.
  - intros b Hb. rewrite Eids in Hb. apply elem_of_app in Hb as [? | ?]; auto.
  - intros b h toks Hb. left. by apply Hca in Hb as [? _].
Qed.

(** ** Admission *)

(** the rows of a cached block found under the chained hash of a prefix in use *)
Lemma hit_rows bs mem toks salt i b h t :
  0 < bs -> collision_free U bs -> (forall n, U (take n toks) salt) ->
  chain bs toks salt !! i = Some h -> t = take (Z.to_nat bs) (drop (i * Z.to_nat bs) toks) ->
  cached_ok F U bs mem b h t ->
  forall j, 0 <= j < bs -> mem (b * bs + j) = kv_ref F toks (Z.of_nat i * bs + j).
Proof.
  intros Hbs Hcf HU Hh -> (pre & salt' & k & Hpre & Hlen & Hk & Htoks & Hmem) j Hj.
  pose proof (lookup_lt_Some _ _ _ Hh) as Hi. rewrite chain_length in Hi.
  assert (Hfit : (S i * Z.to_nat bs <= length toks)%nat).
  { pose proof (Z.mul_div_le (Zlen toks) bs Hbs). unfold Zlen in *. nia. }
  assert (Hpref : chain bs (take (S i * Z.to_nat bs) toks) salt !! i = Some h).
  { rewrite <- Hh. symmetry. rewrite <- (take_drop (S i * Z.to_nat bs) toks) at 1.
    destruct (chain_app bs salt Hbs (take (S i * Z.to_nat bs) toks) (drop (S i * Z.to_nat bs) toks)) as [l Hl].
    rewrite Hl, lookup_app_l; [done |]. rewrite chain_length. unfold Zlen. rewrite length_take_le by done.
    replace (Z.of_nat (S i * Z.to_nat bs)) with (Z.of_nat (S i) * bs) by lia.
    rewrite Z.div_mul by lia. lia. }
  assert (pre = take (S i * Z.to_nat bs) toks) as ->.
  { eapply (Hcf pre _ salt' salt k i h); try done.
    - apply length_take_le. lia.
    - rewrite <- Htoks. rewrite take_drop_commute. f_equal. f_equal. lia. }
  rewrite length_take_le in Hlen by done. assert (k = i) as -> by nia.
  rewrite Hmem by done. rewrite <- (kv_ref_take F toks (Z.of_nat (S i) * bs)) by lia.
  f_equal. f_equal. lia.
Qed.

(** phase 2 before the allocation: the hashes and the statistics are updated *)
Definition prep_state s (r : Z) (x : Request) (hs : list Z) (q h : Z) : Sched P :=
  with_kvc (with_pool (op_stat q h (pool_ (kvc s))) (kvc s)) (put_req r (set_block_hashes hs x) s).

Lemma prep_inv s a mem r x q h :
  Inv s a mem -> r ∈ waiting_ s -> heap s !! r = Some x ->
  Inv (prep_state s r x (chain (s_bs s) (tokens x) (cache_salt x)) q h) a mem.
Proof.
  intros HI Hr Hx. destruct (inv_get _ _ _ _ _ _ _ HI (live_waiting _ _ Hr))
    as (x' & rest & Hx' & _ & Hok & Hst & Hw & Hrow & Hex & Hl & Hni & HL). simplify_eq.
  apply (inv_change F U cfg s a mem r x rest _ a (set_block_hashes (chain (s_bs s) (tokens x) (cache_salt x)) x)); try done; simpl.
  - destruct (i_kv _ _ _ _ _ _ HI). split; simpl; try done. by apply law_stat.
  - destruct Hok. split; simpl; try done.
  - intros Hw'. destruct (Hw Hw'). by split.
  - auto.
  - auto.
Qed.

Definition admitted (rsm : bool) (n : Z) (st : KVRequestState) (x : Request) : Request :=
  let x := set_num_computed_tokens n (set_status RUNNING (set_kv st x)) in
  if rsm then x else set_num_cached_tokens n x.
(** the request moves from the head of the waiting queue to the end of the running one *)
Definition admit_state s (r : Z) (rest : list Z) (x : Request) (k : PagedKVCache P) : Sched P :=
  mkSched (<[r := x]> (heap s)) k rest (running_ s ++ [r]) (n_preemptions_ s).

Lemma alloc_waiting s a mem r rest x bl n_total rsm :
  Inv s a mem -> collision_free U (s_bs s) -> waiting_ s = r :: rest -> heap s !! r = Some x ->
  block_hashes x = chain (s_bs s) (tokens x) (cache_salt x) ->
  (forall i b, bl !! i = Some b -> hit a (s_bs s) (tokens x) (block_hashes x) i b) ->
  Zlen bl * s_bs s <= Zlen (tokens x) -> Zlen bl * s_bs s <= n_total -> n_total + s_bs s < 2 ^ 31 ->
  allocate_slots (kv x) n_total bl (kvc s) = Ok (false, kv x, kvc s)
  \/ exists st k a', allocate_slots (kv x) n_total bl (kvc s) = Ok (true, st, k)
       /\ Inv (admit_state s r rest (admitted rsm (Zlen bl * s_bs s) st x) k) a' mem
       /\ kv_block_size k = s_bs s /\ n_total <= Zlen (block_ids st) * s_bs s.
Proof.
  intros HI Hcf Hwt Hx Hhash Hhit Hbl Hn Hsmall.
  assert (Hr : r ∈ waiting_ s) by (rewrite Hwt; set_solver).
  destruct (inv_get _ _ _ _ _ _ _ HI (live_waiting _ _ Hr))
    as (x' & rest' & Hx' & _ & Hok & Hst & Hw & Hrow & Hex & Hl & Hni & HL). simplify_eq.
  destruct (Hw Hr) as [Hids0 Hcomp Hncb0 Hstat].
  pose proof (i_kv _ _ _ _ _ _ HI) as Hkv. pose proof (kr_bs_pos _ _ Hkv) as Hbs.
  pose proof (kr_wf _ _ Hkv) as Hwf. pose proof (Zlen_nonneg bl) as Hbl0. unfold s_bs in *. set (bs := kv_block_size (kvc s)) in *.
  assert (Hcached : forall b, b ∈ bl -> is_Some (a_cache a !! b)).
  { intros b Hb. apply list_elem_of_lookup in Hb as [i Hb]. destruct (Hhit i b Hb) as (h & _ & ->). eauto. }
  destruct (allocate_spec (kvc s) a (kv x) n_total bl Hkv) as [Hyes Hno]; [| nia | done | nia |].
  { intros b Hb. destruct (Hcached b Hb) as [[h toks] Hc]. by eapply (wa_cache _ Hwf). }
  destruct (decide (n_new_blocks (kv_block_size (kvc s)) (kv x) n_total bl
    + zero_refs (base_touched (kv x) bl) a <= Zlen (a_free a))) as [Hd | Hd]; [| left; apply Hno; lia].
  right. destruct (Hyes Hd) as (st & k & a' & Hrun & [Hk Hkbs _ Hids Henough Hncb]).
  exists st, k, a'. split; [done |]. split; [| done].
  unfold base_touched, base_ids in Hids. rewrite Hids0 in Hids.
  destruct Hids as (fresh & Eids & Hfree & Hnd & Hca & Href).
  rewrite Hids0 in HL. specialize (Href _ HL) as [HL' Hdis]. simpl in HL', Hdis.
  assert (HT : fresh ++ bl ++ tabs (heap s) rest' ≡ₚ block_ids st ++ tabs (heap s) rest')
    by (rewrite Eids, app_assoc; f_equiv; apply Permutation_app_comm).
  set (x1 := admitted rsm (Zlen bl * bs) st x).
  assert (E1 : kv x1 = st /\ tokens x1 = tokens x /\ spec_tokens x1 = spec_tokens x /\ cache_salt x1 = cache_salt x
    /\ block_hashes x1 = block_hashes x /\ num_computed_tokens x1 = Zlen bl * bs /\ status x1 = RUNNING)
    by (unfold x1, admitted; destruct rsm; done).
  destruct E1 as (Ekv & Etok & Espec & Esalt & Ehash & Ecomp & Estat).
  apply (inv_change F U cfg s a mem r x rest' _ a' x1); try done; rewrite ?Ekv.
  - rewrite <- Hl. unfold live. simpl. rewrite Hwt, <- app_assoc. done.
  - by rewrite <- HT, (app_assoc fresh), (Permutation_app_comm fresh), <- app_assoc.
  - intros c Hc. simpl. rewrite elem_of_app, list_elem_of_singleton, Hwt. split; [| set_solver].
    intros [? | ->]; done.
  - destruct Hok as [R1 R2 R3 R4 R5 R6].
    split; rewrite ?Ekv, ?Etok, ?Espec, ?Esalt, ?Ehash, ?Ecomp; try done.
    + rewrite Zlen_app. pose proof (Zlen_nonneg (spec_tokens x)). nia.
    + rewrite Eids, Zlen_app. pose proof (Zlen_nonneg fresh). unfold s_bs. fold bs. nia.
    + rewrite Hncb, Eids, Zlen_app. pose proof (Zlen_nonneg fresh). case_bool_decide; lia.
  - intros Hin. exfalso. simpl in Hin. pose proof (i_nodup _ _ _ _ _ _ HI) as Hnd2. unfold live in Hnd2.
    rewrite Hwt in Hnd2. apply NoDup_app in Hnd2 as (_ & _ & Hnd2). by apply NoDup_cons in Hnd2 as [? _].
  - intros i c Hi Hc. rewrite Ekv, Ecomp, Etok, Espec in *. unfold s_bs in Hc. fold bs in Hc.
    rewrite Eids, cell_app in Hc by done. unfold cell in Hc.
    destruct (vlookup bl (i / bs)) as [b |] eqn:Hb; [| done]. simpl in Hc. injection Hc as <-.
    unfold vlookup in Hb. destruct (0 <=? i / bs) eqn:Ei; [| done].
    destruct (Hhit _ _ Hb) as (h & Hh & Hc). rewrite Hhash in Hh.
    rewrite (hit_rows bs mem (tokens x) (cache_salt x) (Z.to_nat (i / bs)) b h _ Hbs Hcf
      (rk_used _ _ _ _ Hok) Hh eq_refl (i_cache _ _ _ _ _ _ HI _ _ _ Hc)) by (apply Z.mod_pos_bound; lia).
    rewrite Z2Nat.id by lia. rewrite (Z.mul_comm (i / bs)), <- Z.div_mod by lia.
    symmetry. apply kv_ref_app. lia.
  - intros i b Hb Hlt. rewrite Ekv in *. rewrite <- HT. unfold settled_tokens in Hlt. rewrite Ecomp, Etok in Hlt.
    unfold s_bs in Hlt. fold bs in Hlt. rewrite Eids in Hb. apply lookup_app_Some in Hb as [Hb | [_ Hb]].
    + apply lookup_lt_Some in Hb. unfold Zlen in *. nia.
    + eapply excl_fresh; [done | exact Hdis | exact Hca |]. by eapply list_elem_of_lookup_2.
  - intros b Hb. rewrite Eids in Hb. apply elem_of_app in Hb as [? | ?]; auto.
  - intros b h toks Hb. left. by apply Hca in Hb as [? _].
Qed.
End alloc.
