(* ===== verification/SchedRun.v ===== *)
(** * A scheduling step: schedule never fails, keeps the invariant and stays within its budgets *)

From S2P Require Import Prelude BlockPool FreeList PoolSpec KVCache KVFacts Request Scheduler SchedOps SchedAlloc.

(** the fields of a request that the scheduler does not own *)
Definition core (x : Request) : Request :=
  set_status WAITING (set_num_computed_tokens 0 (set_num_cached_tokens 0 (set_num_preemptions 0
    (set_kv empty_kvs (set_block_hashes [] x))))).
Lemma core_insert (h : gmap Z Request) r x x' :
  h !! r = Some x -> core x' = core x -> core <$> <[r := x']> h = core <$> h.
Proof. intros Hx E. rewrite fmap_insert, E. apply insert_id. by rewrite lookup_fmap, Hx. Qed.
Lemma core_admitted rsm n st x : core (admitted rsm n st x) = core x.
Proof. by destruct rsm, x. Qed.

(** tokens in a list of scheduled entries *)
Definition sum_new (l : list ScheduledRequest) : Z := foldr (fun e n => n_new_tokens e + n) 0 l.
Lemma sum_new_app l k : sum_new (l ++ k) = sum_new l + sum_new k.
Proof. induction l; simpl; lia. Qed.

Section run.
Context {P : Type} `{PO : PoolOps P} `{PS : !PoolSpec P}.
Context {KV : Type} (F : Z -> Z -> list KV -> KV) (U : list Z -> Z -> Prop) (cfg : SchedulerConfig).
Implicit Types s : Sched P.
Abbreviation Inv := (Inv F U cfg).
Abbreviation rok := (rok U cfg).

(** between steps nothing beyond the real tokens is computed *)
Definition ready_req (x : Request) : Prop :=
  num_computed_tokens x <= Zlen (tokens x) /\ Zlen (spec_tokens x) < 2 ^ 31.
Definition Ready s : Prop := forall r x, r ∈ live s -> heap s !! r = Some x -> ready_req x.

(** what a scheduled entry promises to the batch builder *)
Definition entry_req (bs : Z) (e : ScheduledRequest) (x : Request) : Prop :=
  0 < n_new_tokens e /\ 0 <= n_spec e <= Zlen (spec_tokens x)
  /\ num_computed_tokens x + n_new_tokens e - n_spec e <= Zlen (tokens x)
  /\ (0 < n_spec e -> num_computed_tokens x + n_new_tokens e - n_spec e = Zlen (tokens x)
        /\ num_computed_tokens x + n_new_tokens e + 1 <= max_model_len cfg)
  /\ num_computed_tokens x + n_new_tokens e <= Zlen (block_ids (kv x)) * bs
  /\ n_spec e < n_new_tokens e.
Definition entry_ok s (e : ScheduledRequest) : Prop :=
  s_req e ∈ running_ s /\ exists x, heap s !! s_req e = Some x /\ entry_req (s_bs s) e x.

Lemma entry_frame s s' e :
  entry_ok s e -> s_req e ∈ running_ s' -> heap s' !! s_req e = heap s !! s_req e -> s_bs s' = s_bs s ->
  entry_ok s' e.
Proof. intros [_ (x & Hx & He)] Hr Hh Hb. split; [done |]. exists x. by rewrite Hh, Hb. Qed.

(** ** Counting tokens *)
Lemma new_tokens_bounds remaining budget :
  0 <= remaining -> 0 <= budget -> 0 <= long_prefill_token_threshold cfg ->
  0 <= new_tokens cfg remaining budget <= Z.min remaining budget.
Proof. unfold new_tokens. intros. destruct (0 <? _) eqn:E; lia. Qed.
(** a positive request under a positive budget gets something *)
Lemma new_tokens_pos remaining budget :
  0 < remaining -> 0 < budget -> 0 < new_tokens cfg remaining budget.
Proof. unfold new_tokens. intros. destruct (0 <? _) eqn:E; lia. Qed.

Lemma n_tokens_small bs x : cfg_ok cfg bs -> 0 < bs -> rok bs x -> n_tokens x = Zlen (tokens x).
Proof.
  intros Hc Hbs Hok. unfold n_tokens. apply u32_small. pose proof (rk_tokens _ _ _ _ Hok).
  pose proof (co_small _ _ Hc). pose proof (co_batch _ _ Hc). lia.
Qed.

Lemma spec_count_bounds bs x n budget :
  cfg_ok cfg bs -> 0 < bs -> rok bs x -> ready_req x ->
  0 < n -> num_computed_tokens x + n <= Zlen (tokens x) -> n <= budget -> budget <= max_num_batched_tokens cfg ->
  let k := spec_count cfg x n budget in
  0 <= k <= Zlen (spec_tokens x) /\ n + k <= budget
  /\ (0 < k -> num_computed_tokens x + n = Zlen (tokens x) /\ num_computed_tokens x + n + k + 1 <= max_model_len cfg).
Proof.
  intros Hc Hbs Hok [Hr1 Hr2] Hn Hnt Hnb Hb. pose proof (rk_tokens _ _ _ _ Hok) as Ht.
  pose proof (rk_computed _ _ _ _ Hok) as Hcomp. pose proof (co_small _ _ Hc). pose proof (Zlen_nonneg (spec_tokens x)).
  unfold spec_count. rewrite (n_tokens_small _ _ Hc Hbs Hok).
  rewrite (u32_small (Zlen (tokens x) - _)) by lia. rewrite (u32_small (Zlen (spec_tokens x))) by lia.
  destruct (negb _ && (n =? _)) eqn:E; [| simpl; split_and!; lia].
  apply andb_true_iff in E as [_ E]. apply Z.eqb_eq in E. rewrite (u32_small (n + Zlen _)) by lia.
  set (k1 := if budget <? n + Zlen (spec_tokens x) then budget - n else Zlen (spec_tokens x)).
  assert (0 <= k1 <= Zlen (spec_tokens x) /\ n + k1 <= budget) as [Hk1 Hk2].
  { subst k1. destruct (_ <? _) eqn:E1; lia. }
  rewrite (u32_small (_ + n + k1 + 1)), (u32_small (_ + n + 1)) by lia.
  destruct (max_model_len cfg <? _) eqn:E2; [| simpl; split_and!; lia].
  destruct (_ <? max_model_len cfg) eqn:E3; simpl; split_and!; lia.
Qed.

(** ** The allocation loop *)
Lemma vget_last (l : list Z) r : vget (l ++ [r]) (Zlen (l ++ [r]) - 1) = Ok r.
Proof. apply vget_Ok. zlen. rewrite vlookup_app_r by lia. by replace (_ - _) with 0 by lia. Qed.

Lemma out_find_None victim (o : SchedulerOutput) :
  (forall e, e ∈ scheduled o -> s_req e <> victim) -> out_find victim o = None.
Proof.
  unfold out_find. induction (scheduled o) as [| e l IH]; intros H; [done |]. simpl.
  destruct (s_req e =? victim) eqn:E; [| apply IH; set_solver].
  apply Z.eqb_eq in E. by destruct (H e ltac:(set_solver)).
Qed.

Lemma preempt_ready s s' r x :
  Ready s -> live s' ≡ₚ live s -> heap s !! r = Some x -> r ∈ live s ->
  heap s' = <[r := preempted_req x]> (heap s) -> Ready s'.
Proof.
  intros HR Hl Hx Hr Hh c y Hc Hy. rewrite Hh, lookup_insert in Hy. case_decide as E.
  - injection Hy as <-. destruct (HR r x Hr Hx). split; simpl; [apply Zlen_nonneg | done].
  - apply (HR c); [by rewrite <- Hl | done].
Qed.

Lemma alloc_loop_run fuel s a mem rid x n_new l1 l2 o budget :
  Inv s a mem -> Ready s -> cfg_ok cfg (s_bs s) -> running_ s = l1 ++ rid :: l2 -> heap s !! rid = Some x ->
  0 <= n_new -> num_computed_tokens x + n_new <= max_model_len cfg + max_num_batched_tokens cfg ->
  (forall e, e ∈ scheduled o -> s_req e ∈ l1) -> (length l2 < fuel)%nat ->
  exists ok s' a' vs,
    alloc_loop fuel cfg rid n_new s o budget
      = Ok (ok, s', mkSOut (scheduled o) (preempted o ++ vs) (total_tokens o), budget)
    /\ Inv s' a' mem /\ Ready s' /\ s_bs s' = s_bs s /\ live s' ≡ₚ live s /\ core <$> heap s' = core <$> heap s
    /\ (forall c, c ∈ l1 -> heap s' !! c = heap s !! c)
    /\ waiting_ s' ≡ₚ vs ++ waiting_ s
    /\ (if ok : bool then exists st l2', l2 = l2' ++ rev vs /\ running_ s' = l1 ++ rid :: l2'
            /\ heap s' !! rid = Some (set_kv st x)
            /\ num_computed_tokens x + n_new <= Zlen (block_ids st) * s_bs s
        else running_ s' = l1 /\ vs = rev (rid :: l2)).
Proof.
  revert s a l2 o. induction fuel as [| fuel IH]; intros s a l2 o HI HR Hcfg Hrun Hx Hn Hsmall Hsch Hfuel; [lia |].
  assert (Hr : rid ∈ running_ s) by (rewrite Hrun; set_solver).
  destruct (inv_get _ _ _ _ _ _ _ HI (live_running _ _ Hr)) as (x' & rest & Hx' & Hg & Hok & _). simplify_eq.
  pose proof (i_kv _ _ _ _ _ _ HI) as Hkv. pose proof (kr_bs_pos _ _ Hkv) as Hbs. fold (s_bs s) in Hbs.
  pose proof (rk_computed _ _ _ _ Hok) as Hc. pose proof (co_small _ _ Hcfg) as Hcs.
  pose proof (i_nodup _ _ _ _ _ _ HI) as Hnd. unfold live in Hnd. apply NoDup_app in Hnd as (Hnd & _).
  cbn [alloc_loop]. rewrite Hg. cbn [rbind]. rewrite u32_small by lia.
  destruct (alloc_running F U cfg s a mem rid x (num_computed_tokens x + n_new) HI Hr Hx) as [Hno | (st & k & a' & Hyes & HI' & Hkbs & Henough)];
    [lia | lia | |].
  2: { rewrite Hyes. cbn [rbind]. exists true, (alloc_state s rid x st k), a', [].
       split; [by rewrite app_nil_r; destruct o |]. split; [done |]. split.
       { intros c y Hc' Hy. simpl in Hy. rewrite lookup_insert in Hy. case_decide as E; [| by apply (HR c)].
         injection Hy as <-. change (ready_req x); apply (HR rid); [by apply live_running | done]. }
       split; [done |]. split; [done |].
       split; [apply (core_insert _ _ x); [done | by destruct x] |]. split.
       { intros c Hc'. simpl. apply lookup_insert_ne. intros <-. rewrite Hrun in Hnd.
         apply NoDup_app in Hnd as (_ & Hd & _). apply (Hd _ Hc'). set_solver. }
       split; [done |]. exists st, l2. split; [by rewrite app_nil_r |]. split; [done |]. split; [| done].
       simpl. by rewrite lookup_insert_eq. }
  rewrite Hno. cbn [rbind]. assert (Es : with_kvc (kvc s) (put_req rid (set_kv (kv x) x) s) = s).
  { rewrite set_kv_id. destruct s. unfold with_kvc, put_req, with_heap. simpl in *. f_equal. by apply insert_id. }
  rewrite Es. destruct l2 as [| victim l2 _] using rev_ind.
  - rewrite Hrun, vget_last. cbn [rbind]. rewrite Z.eqb_refl.
    destruct (preempt_inv F U cfg s a mem rid HI Hr) as (s' & a' & y & Hp & HI' & Hsb & Hy & Hh & Hrun' & Hw & _).
    simplify_eq. rewrite Hp. cbn [rbind].
    assert (Hnl : rid ∉ l1). { rewrite Hrun in Hnd. apply NoDup_app in Hnd as (_ & Hd & _). intros Hin. apply (Hd _ Hin). set_solver. }
    assert (Er : running_ s' = l1) by (rewrite Hrun', Hrun; by apply erase_last).
    assert (Hl : live s' ≡ₚ live s) by (unfold live; rewrite Er, Hw, Hrun, <- app_assoc; done).
    exists false, s', a', [rid]. split; [done |]. split; [done |].
    split; [eapply preempt_ready; eauto using live_running |]. split; [done |]. split; [done |].
    split; [rewrite Hh; apply (core_insert _ _ x); [done | by destruct x] |].
    split; [| split; [by rewrite Hw | done]]. intros c Hc'. rewrite Hh. apply lookup_insert_ne. by intros <-.
  - rewrite Hrun. replace (l1 ++ rid :: l2 ++ [victim]) with ((l1 ++ rid :: l2) ++ [victim]) by by rewrite <- app_assoc.
    rewrite vget_last. cbn [rbind]. rewrite Hrun in Hnd.
    replace (l1 ++ rid :: l2 ++ [victim]) with ((l1 ++ rid :: l2) ++ [victim]) in Hnd, Hrun by by rewrite <- app_assoc.
    apply NoDup_app in Hnd as (Hnd1 & Hd & _).
    assert (Hnv : victim ∉ l1 ++ rid :: l2) by (intros Hin; apply (Hd _ Hin); set_solver).
    destruct (victim =? rid) eqn:Ev; [apply Z.eqb_eq in Ev; subst; set_solver |]. apply Z.eqb_neq in Ev.
    rewrite out_find_None by (intros e He <-; apply Hnv; specialize (Hsch e He); set_solver).
    assert (Hv : victim ∈ running_ s) by (rewrite Hrun; set_solver).
    destruct (preempt_inv F U cfg s a mem victim HI Hv) as (s1 & a1 & y & Hp & HI1 & Hsb & Hy & Hh & Hrun' & Hw & _).
    rewrite Hp. cbn [rbind].
    assert (Er : running_ s1 = l1 ++ rid :: l2) by (rewrite Hrun', Hrun; by apply erase_last).
    assert (Hl : live s1 ≡ₚ live s) by (unfold live; rewrite Er, Hw, Hrun, <- !app_assoc; done).
    assert (Hkeep : forall c, c <> victim -> heap s1 !! c = heap s !! c)
      by (intros c Hc'; rewrite Hh; by apply lookup_insert_ne).
    destruct (IH s1 a1 l2 (mkSOut (scheduled o) (preempted o ++ [victim]) (total_tokens o)))
      as (ok & s' & a' & vs & Hrun2 & HI' & HR' & Hsb' & Hl' & Hcore & Hl1 & Hw' & Hcase); try done.
    { eapply preempt_ready; eauto using live_running. }
    { by rewrite Hsb. }
    { by rewrite Hkeep. }
    { rewrite length_app in Hfuel. simpl in Hfuel. lia. }
    exists ok, s', a', (victim :: vs). simpl in Hrun2. rewrite Hrun2. split; [by rewrite <- app_assoc |].
    split; [done |]. split; [done |]. split; [congruence |]. split; [by rewrite Hl' |].
    split; [rewrite Hcore, Hh; apply (core_insert _ _ y); [done | by destruct y] |].
    split; [intros c Hc'; rewrite Hl1 by done; apply Hkeep; set_solver |].
    split; [rewrite Hw', Hw; simpl; by rewrite Permutation_middle |].
    destruct ok.
    + destruct Hcase as (st & l2' & -> & Hr2 & Hh2 & Hen). exists st, l2'. simpl. rewrite app_assoc, Hsb in *. done.
    + destruct Hcase as [? ->]. split; [done |]. simpl. rewrite rev_app_distr. done.
Qed.

(** ** Phase 1 *)
Record out_ok s (o : SchedulerOutput) (budget : Z) : Prop := {
  oo_entry : forall e, e ∈ scheduled o -> entry_ok s e;
  oo_nodup : NoDup (s_req <$> scheduled o);
  oo_total : total_tokens o = sum_new (scheduled o);
  oo_budget : budget + total_tokens o = max_num_batched_tokens cfg;
  oo_range : 0 <= budget
}.

Lemma entry_sum_nonneg l s : (forall e, e ∈ l -> entry_ok s e) -> 0 <= sum_new l.
Proof.
  induction l as [| e l IH]; intros H; simpl; [done |].
  destruct (H e ltac:(set_solver)) as (_ & x & _ & Hn & _). specialize (IH ltac:(set_solver)). lia.
Qed.

(** one more entry *)
Lemma out_ok_push s s' o budget e pre :
  cfg_ok cfg (s_bs s) -> 0 < s_bs s -> out_ok s o budget -> (forall e', e' ∈ scheduled o -> entry_ok s' e') ->
  entry_ok s' e -> (forall e', e' ∈ scheduled o -> s_req e' <> s_req e) -> n_new_tokens e <= budget ->
  0 <= max_model_len cfg ->
  out_ok s' (mkSOut (scheduled o ++ [e]) pre (u32 (total_tokens o + n_new_tokens e))) (u32 (budget - n_new_tokens e)).
Proof.
  intros Hc Hbs [H1 H2 H3 H4 H5] Hold He Hne Hle Hm. pose proof (co_small _ _ Hc).
  pose proof (entry_sum_nonneg _ _ H1). destruct He as (Hr & x & Hx & Hpos & Hrest).
  rewrite !u32_small by lia. split; simpl.
  - intros e' [He' | ->%list_elem_of_singleton]%elem_of_app; [auto |]. split; [done |]. by exists x.
  - rewrite fmap_app. apply NoDup_app. split; [done |]. split; [| apply NoDup_singleton].
    intros c (e' & -> & He')%list_elem_of_fmap. simpl. rewrite list_elem_of_singleton. by apply Hne.
  - rewrite sum_new_app. simpl. lia.
  - lia.
  - lia.
Qed.

Lemma phase1_run fuel s a mem idx o budget :
  Inv s a mem -> Ready s -> cfg_ok cfg (s_bs s) -> 0 <= idx <= Zlen (running_ s) ->
  Zlen (running_ s) - idx < Z.of_nat fuel -> out_ok s o budget ->
  (forall e, e ∈ scheduled o -> s_req e ∈ take (Z.to_nat idx) (running_ s)) ->
  exists s' a' o' budget' vs more, phase1 fuel cfg idx s o budget = Ok (s', o', budget')
    /\ Inv s' a' mem /\ Ready s' /\ s_bs s' = s_bs s /\ live s' ≡ₚ live s /\ core <$> heap s' = core <$> heap s
    /\ out_ok s' o' budget' /\ scheduled o' = scheduled o ++ more /\ preempted o' = preempted o ++ vs
    /\ running_ s = running_ s' ++ rev vs /\ waiting_ s' ≡ₚ vs ++ waiting_ s
    /\ (more = [] -> vs = [] -> 0 < budget -> forall r x, r ∈ drop (Z.to_nat idx) (running_ s) ->
          heap s !! r = Some x -> num_computed_tokens x = Zlen (tokens x)).
Proof.
  revert s a idx o budget. induction fuel as [| fuel IH]; intros s a idx o budget HI HR Hcfg Hidx Hfuel Hout Hsch; [lia |].
  pose proof (kr_bs_pos _ _ (i_kv _ _ _ _ _ _ HI)) as Hbs. fold (s_bs s) in Hbs.
  pose proof (oo_range _ _ _ Hout) as Hb0. cbn [phase1].
  destruct ((idx <? _) && (0 <? budget)) eqn:E.
  2: { exists s, a, o, budget, [], []. rewrite !app_nil_r. split_and!; try done.
       intros _ _ Hpos r x Hr. rewrite drop_ge in Hr; [by apply not_elem_of_nil in Hr |].
       apply andb_false_iff in E. unfold Zlen in *. lia. }
  apply andb_true_iff in E as [Ei Eb]. destruct (vlookup_lt_is_Some (running_ s) idx) as [rid Hrid]; [lia |].
  rewrite (proj2 (vget_Ok _ _ _) Hrid). cbn [rbind].
  assert (Hr : rid ∈ running_ s) by by eapply vlookup_elem_of.
  destruct (inv_get _ _ _ _ _ _ _ HI (live_running _ _ Hr)) as (x & rest & Hx & Hg & Hok & _).
  rewrite Hg. cbn [rbind]. pose proof (HR rid x (live_running _ _ Hr) Hx) as Hready.
  pose proof Hready as [Hr1 Hr2]. pose proof (rk_computed _ _ _ _ Hok) as Hcomp. pose proof (rk_tokens _ _ _ _ Hok) as Htok.
  pose proof (co_small _ _ Hcfg) as Hcs. pose proof (co_batch _ _ Hcfg) as Hcb.
  rewrite (n_tokens_small _ _ Hcfg Hbs Hok), (u32_small (Zlen (tokens x) - _)) by lia.
  set (n_real := new_tokens cfg (Zlen (tokens x) - num_computed_tokens x) budget).
  assert (Hnr : 0 <= n_real <= Z.min (Zlen (tokens x) - num_computed_tokens x) budget)
    by (apply new_tokens_bounds; [lia | lia | apply Hcfg]).
  (* the table around [rid] *)
  unfold vlookup in Hrid. destruct (0 <=? idx) eqn:E0; [| lia]. apply take_drop_middle in Hrid as Hsplit.
  set (l1 := take (Z.to_nat idx) (running_ s)) in *. set (l2 := drop (S (Z.to_nat idx)) (running_ s)) in *.
  assert (Hl1 : length l1 = Z.to_nat idx) by (subst l1; rewrite length_take; unfold Zlen in *; lia).
  assert (Hdrop : drop (Z.to_nat idx) (running_ s) = rid :: l2) by (subst l2; by apply drop_S).
  destruct (n_real =? 0) eqn:En.
  { apply Z.eqb_eq in En.
    destruct (IH s a (idx + 1) o budget) as (s' & a' & o' & b' & vs & more & Hrun & H1 & H2 & H3 & H4 & H5 & H6 & H7 & H8 & H9 & H10 & H11);
      try done; try lia.
    { intros e He. specialize (Hsch e He). rewrite Z2Nat.inj_add by lia. rewrite Nat.add_1_r.
      rewrite (take_S_r _ _ rid) by done. fold l1. set_solver. }
    exists s', a', o', b', vs, more. split_and!; try done. intros Hm Hv Hb r y Hin Hy. rewrite Hdrop in Hin.
    apply elem_of_cons in Hin as [-> | Hin].
    - simplify_eq. destruct (decide (0 < Zlen (tokens x) - num_computed_tokens x)) as [Hp |]; [| lia].
      pose proof (new_tokens_pos _ _ Hp Hb). lia.
    - apply (H11 Hm Hv Hb r y); [| done]. rewrite Z2Nat.inj_add by lia. by rewrite Nat.add_1_r. }
  apply Z.eqb_neq in En. pose proof (oo_budget _ _ _ Hout) as Hbud.
  assert (Htot : 0 <= total_tokens o) by (rewrite (oo_total _ _ _ Hout); eapply entry_sum_nonneg, Hout).
  destruct (spec_count_bounds (s_bs s) x n_real budget Hcfg Hbs Hok Hready) as (Hk & Hkb & Hk'); try lia.
  set (nsp := spec_count cfg x n_real budget) in *. rewrite (u32_small (n_real + nsp)) by lia.
  destruct (alloc_loop_run (S (length (running_ s))) s a mem rid x (n_real + nsp) l1 l2 o budget HI HR Hcfg)
    as (ok & s1 & a1 & vs & -> & HI1 & HR1 & Hsb1 & Hl1' & Hcore1 & Hkeep & Hw1 & Hcase); try done; try lia.
  { rewrite <- Hsplit, length_app. simpl. lia. }
  cbn [rbind]. destruct ok.
  2: { destruct Hcase as [Er Ev]. eexists s1, a1, _, budget, vs, []. split; [done |]. rewrite app_nil_r.
       split_and!; try done.
       - destruct Hout as [O1 O2 O3 O4 O5]. split; simpl; try done. intros e He. eapply entry_frame; [by apply O1 | | |]; [..| done].
         + rewrite Er. by apply Hsch.
         + apply Hkeep. by apply Hsch.
       - rewrite <- Hsplit, Er, Ev. by rewrite rev_involutive.
       - intros _ ->. simpl in Ev. by destruct (rev l2). }
  destruct Hcase as (st & l2' & El2 & Er & Hx1 & Hen).
  assert (Hnd : NoDup (l1 ++ rid :: l2)).
  { rewrite Hsplit. pose proof (i_nodup _ _ _ _ _ _ HI) as Hnd. unfold live in Hnd. by apply NoDup_app in Hnd as (? & _). }
  assert (Hni : rid ∉ l1). { apply NoDup_app in Hnd as (_ & Hd & _). intros Hin. apply (Hd _ Hin). set_solver. }
  assert (Hold : forall e, e ∈ scheduled o -> entry_ok s1 e).
  { intros e He. eapply entry_frame; [by apply Hout | | |]; [..| done].
    - rewrite Er. specialize (Hsch e He). set_solver.
    - apply Hkeep. by apply Hsch. }
  assert (Hnew : entry_ok s1 (mkScheduled rid (n_real + nsp) nsp false)).
  { split; [rewrite Er; simpl; set_solver |]. exists (set_kv st x). split; [done |]. rewrite Hsb1.
    unfold entry_req. simpl. split_and!; try lia. }
  assert (Elen : Zlen (running_ s1) = idx + 1 + Zlen l2').
  { rewrite Er. zlen. unfold Zlen. rewrite Hl1. lia. }
  destruct (IH s1 a1 (idx + 1) (mkSOut (scheduled o ++ [mkScheduled rid (n_real + nsp) nsp false]) (preempted o ++ vs)
      (u32 (total_tokens o + (n_real + nsp)))) (u32 (budget - (n_real + nsp))))
    as (s' & a' & o' & b' & vs' & more & Hrun & H1 & H2 & H3 & H4 & H5 & H6 & H7 & H8 & H9 & H10 & H11); try done.
  - by rewrite Hsb1.
  - pose proof (Zlen_nonneg l2'). lia.
  - rewrite Elen. rewrite <- Hsplit, El2 in Hfuel. zlen. pose proof (Zlen_nonneg vs). unfold Zlen in *. lia.
  - apply (out_ok_push s s1 o budget (mkScheduled rid (n_real + nsp) nsp false)); try done; simpl; [| lia].
    intros e He <-. by apply Hni, Hsch.
  - simpl. intros e He. rewrite Er, Z2Nat.inj_add by lia. rewrite Nat.add_1_r.
    rewrite <- Hl1. rewrite (take_S_r _ _ rid) by (by apply list_lookup_middle). rewrite take_app_length.
    apply elem_of_app in He as [He | ->%list_elem_of_singleton]; [specialize (Hsch e He) | simpl]; set_solver.
  - exists s', a', o', b', (vs ++ vs'), (mkScheduled rid (n_real + nsp) nsp false :: more).
    simpl in *. rewrite <- app_assoc in H7, H8. split_and!; try done.
    + congruence.
    + by rewrite H4.
    + congruence.
    + rewrite rev_app_distr, app_assoc, <- H9, Er, <- app_assoc. simpl. by rewrite <- El2.
    + rewrite H10, Hw1, app_assoc. f_equiv. apply Permutation_app_comm.
Qed.
End run.
