(* ===== verification/SchedStep.v ===== *)
(** * Phase 2, schedule and update_after_step *)

From S2P Require Import Prelude BlockPool FreeList PoolSpec KVCache KVFacts Request Scheduler SchedOps SchedAlloc SchedRun.

Section step.
Context {P : Type} `{PO : PoolOps P} `{PS : !PoolSpec P}.
Context {KV : Type} (F : Z -> Z -> list KV -> KV) (U : list Z -> Z -> Prop) (cfg : SchedulerConfig).
Implicit Types s : Sched P.
Abbreviation Inv := (Inv F U cfg).
Abbreviation rok := (rok U cfg).

(** admission of the head of the waiting queue, up to the hash lookup *)
Lemma phase2_lookup s a mem rid rest :
  Inv s a mem -> cfg_ok cfg (s_bs s) -> waiting_ s = rid :: rest ->
  exists x bl, heap s !! rid = Some x /\ num_computed_tokens x = 0
    /\ update_hashes (kvc s) (block_hashes x) (tokens x) (cache_salt x) = Ok (chain (s_bs s) (tokens x) (cache_salt x))
    /\ get_computed_blocks (kvc s) (tokens x) (chain (s_bs s) (tokens x) (cache_salt x)) = Ok (Zlen bl * s_bs s, bl)
    /\ Zlen bl * s_bs s < Zlen (tokens x) <= max_model_len cfg /\ rok (s_bs s) x
    /\ (forall i b, bl !! i = Some b -> hit a (s_bs s) (tokens x) (chain (s_bs s) (tokens x) (cache_salt x)) i b).
Proof.
  intros HI Hcfg Hw. assert (Hr : rid ∈ waiting_ s) by (rewrite Hw; set_solver).
  destruct (inv_get _ _ _ _ _ _ _ HI (live_waiting _ _ Hr)) as (x & ? & Hx & _ & Hok & _ & Hwok & _).
  pose proof (i_kv _ _ _ _ _ _ HI) as Hkv. pose proof (rk_tokens _ _ _ _ Hok) as Ht.
  pose proof (co_small _ _ Hcfg) as Hcs. pose proof (co_batch _ _ Hcfg). pose proof (kr_bs_pos _ _ Hkv). unfold s_bs in *.
  destruct (get_computed_spec (kvc s) a (tokens x) (chain (kv_block_size (kvc s)) (tokens x) (cache_salt x)) Hkv)
    as (bl & Hbl & Hle & Hhit & _); [lia |].
  exists x, bl. split_and!; try done; [by apply (wk_computed _ (Hwok Hr)) | | lia | lia].
  eapply update_hashes_spec; [done | lia | apply Hok].
Qed.

(** the state in which request [rid] has been admitted *)
Lemma admit_out_ok s s2 a' mem o budget rid rest x2 st k (bl : list Z) rsm n_new :
  cfg_ok cfg (s_bs s) -> out_ok cfg s o budget -> Inv s2 a' mem -> rok (s_bs s) x2 ->
  s_bs s2 = s_bs s -> kv_block_size k = s_bs s -> running_ s2 = running_ s -> waiting_ s2 = rid :: rest ->
  (forall c, c <> rid -> heap s2 !! c = heap s !! c) ->
  0 < n_new <= budget -> Zlen bl * s_bs s + n_new <= Zlen (tokens x2) ->
  Zlen bl * s_bs s + n_new <= Zlen (block_ids st) * s_bs s ->
  out_ok cfg (admit_state s2 rid rest (admitted rsm (Zlen bl * s_bs s) st x2) k)
    (mkSOut (scheduled o ++ [mkScheduled rid n_new 0 rsm]) (preempted o) (u32 (total_tokens o + n_new)))
    (u32 (budget - n_new)).
Proof.
  intros Hcfg Hout HI Hok Hsb Hk Hrun Hw Hkeep Hn Hle Hen. pose proof (rk_tokens _ _ _ _ Hok).
  pose proof (kr_bs_pos _ _ (i_kv _ _ _ _ _ _ HI)) as Hbs. fold (s_bs s2) in Hbs.
  assert (Hni : rid ∉ running_ s).
  { rewrite <- Hrun. intros Hin. eapply inv_disjoint; [exact HI | exact Hin |]. rewrite Hw. set_solver. }
  assert (Hne : forall e, e ∈ scheduled o -> s_req e <> rid).
  { intros e He Ee. apply Hni. rewrite <- Ee. by destruct (oo_entry _ _ _ _ Hout e He). }
  apply (out_ok_push cfg s _ o budget (mkScheduled rid n_new 0 rsm)); simpl; try done; [congruence | | | lia | lia].
  - intros e He. destruct (oo_entry _ _ _ _ Hout e He) as [Hin Hx].
    apply (entry_frame cfg s); [by split | simpl; rewrite Hrun; set_solver | | done].
    simpl. rewrite lookup_insert_ne by (intros ?; by eapply Hne). by apply Hkeep, Hne.
  - split; [simpl; set_solver |]. eexists. simpl. rewrite lookup_insert_eq. split; [done |].
    unfold entry_req, s_bs in *. simpl. rewrite Hk. destruct rsm; simpl; pose proof (Zlen_nonneg (spec_tokens x2)); split_and!; lia.
Qed.

Lemma phase2_run fuel s a mem o budget :
  Inv s a mem -> Ready s -> cfg_ok cfg (s_bs s) -> collision_free U (s_bs s) ->
  (length (waiting_ s) < fuel)%nat -> out_ok cfg s o budget ->
  exists s' a' o' budget' adm more, phase2 fuel cfg s o budget = Ok (s', o', budget')
    /\ Inv s' a' mem /\ Ready s' /\ s_bs s' = s_bs s /\ live s' ≡ₚ live s /\ core <$> heap s' = core <$> heap s
    /\ out_ok cfg s' o' budget' /\ scheduled o' = scheduled o ++ more /\ s_req <$> more = adm
    /\ preempted o' = preempted o /\ running_ s' = running_ s ++ adm /\ waiting_ s = adm ++ waiting_ s'
    /\ Zlen (running_ s') <= Z.max (Zlen (running_ s)) (max_num_seqs cfg).
Proof.
  revert s a o budget. induction fuel as [| fuel IH]; intros s a o budget HI HR Hcfg Hcf Hfuel Hout; [lia |].
  assert (Hstop : forall s1, Inv s1 a mem -> Ready s1 -> s_bs s1 = s_bs s -> live s1 = live s ->
    core <$> heap s1 = core <$> heap s -> running_ s1 = running_ s -> waiting_ s1 = waiting_ s ->
    (forall c, c ∈ running_ s -> heap s1 !! c = heap s !! c) ->
    exists s' a' o' budget' adm more, Ok (s1, o, budget) = Ok (s', o', budget')
    /\ Inv s' a' mem /\ Ready s' /\ s_bs s' = s_bs s /\ live s' ≡ₚ live s /\ core <$> heap s' = core <$> heap s
    /\ out_ok cfg s' o' budget' /\ scheduled o' = scheduled o ++ more /\ s_req <$> more = adm
    /\ preempted o' = preempted o /\ running_ s' = running_ s ++ adm /\ waiting_ s = adm ++ waiting_ s'
    /\ Zlen (running_ s') <= Z.max (Zlen (running_ s)) (max_num_seqs cfg)).
  { intros s1 H1 H2 H3 H4 H5 H6 H7 H8. exists s1, a, o, budget, [], []. rewrite !app_nil_r, H4, H6.
    split_and!; try done; [| lia]. destruct Hout as [O1 O2 O3 O4 O5]. split; try done.
    intros e He. destruct (O1 e He) as [Hin Hx]. apply (entry_frame cfg s); [by split | by rewrite H6 | by apply H8 | done]. }
  cbn [phase2]. destruct (waiting_ s) as [| rid rest] eqn:Hw; [by apply Hstop |].
  destruct ((0 <? budget) && _) eqn:E; [| by apply Hstop]. apply andb_true_iff in E as [Eb Es].
  pose proof (kr_bs_pos _ _ (i_kv _ _ _ _ _ _ HI)) as Hbs. fold (s_bs s) in Hbs.
  assert (Hr : rid ∈ waiting_ s) by (rewrite Hw; set_solver).
  destruct (phase2_lookup s a mem rid rest HI Hcfg Hw) as (x & bl & Hx & Hc0 & Hh & Hgc & Hbl & Hok & Hhit).
  pose proof (co_small _ _ Hcfg) as Hcs. pose proof (co_batch _ _ Hcfg) as Hcb. pose proof (Zlen_nonneg bl) as Hbl0.
  unfold get_req at 1. rewrite Hx. cbn [rbind]. rewrite Hc0, Z.eqb_refl, Hh. cbn [rbind].
  change (kvc (put_req rid (set_block_hashes _ x) s)) with (kvc s). rewrite Hgc. cbn [rbind].
  set (hs := chain (s_bs s) (tokens x) (cache_salt x)) in *. set (x2 := set_block_hashes hs x).
  change (with_kvc _ (put_req rid x2 s)) with (prep_state s rid x hs (u32 (Zlen (tokens x) / s_bs s)) (Zlen bl * s_bs s / s_bs s)).
  set (s2 := prep_state _ _ _ _ _ _).
  assert (HI2 : Inv s2 a mem) by (by apply prep_inv).
  assert (Hx2 : heap s2 !! rid = Some x2) by (subst s2; simpl; by rewrite lookup_insert_eq).
  assert (Hkeep : forall c, c <> rid -> heap s2 !! c = heap s !! c) by (intros c Hc; subst s2; simpl; by apply lookup_insert_ne).
  assert (HR2 : Ready s2).
  { intros c y Hc Hy. destruct (decide (c = rid)) as [-> | Hne]; [| rewrite Hkeep in Hy by done; by apply (HR c)].
    rewrite Hx2 in Hy. injection Hy as <-. apply (HR rid x); [by apply live_waiting | done]. }
  assert (Hcore2 : core <$> heap s2 = core <$> heap s) by (apply (core_insert _ _ x); [done | by destruct x]).
  assert (Hstop2 := Hstop s2 HI2 HR2 eq_refl eq_refl Hcore2 eq_refl Hw).
  specialize (Hstop2 ltac:(intros c Hc; apply Hkeep; intros ->; by eapply inv_disjoint)).
  unfold get_req at 1. rewrite Hx2. cbn [rbind]. change (n_tokens x2) with (n_tokens x).
  rewrite (n_tokens_small U cfg _ _ Hcfg Hbs Hok), (u32_small (Zlen (tokens x) - _)) by nia.
  set (n1 := if 0 <? long_prefill_token_threshold cfg then _ else _).
  assert (Hbb : 0 <= Zlen bl * s_bs s) by nia.
  assert (Hn1 : 0 < n1 <= Zlen (tokens x) - Zlen bl * s_bs s) by (subst n1; destruct (0 <? long_prefill_token_threshold cfg) eqn:E1; lia).
  destruct (negb _ && _); [exact Hstop2 |].
  destruct (Z.min n1 budget =? 0) eqn:En; [exact Hstop2 |]. apply Z.eqb_neq in En.
  set (n_new := Z.min n1 budget) in *. pose proof (oo_budget _ _ _ _ Hout) as Hbud.
  assert (Htot : 0 <= total_tokens o) by (rewrite (oo_total _ _ _ _ Hout); eapply entry_sum_nonneg, Hout).
  rewrite (u32_small (_ + n_new)) by nia. set (rsm := bool_decide (status x2 = PREEMPTED)).
  destruct (alloc_waiting F U cfg s2 a mem rid rest x2 bl (Zlen bl * s_bs s + n_new) rsm HI2 Hcf Hw Hx2 eq_refl Hhit)
    as [Hno | (st & k & a' & Hyes & HI3 & Hk & Hen)]; try lia.
  { change (Zlen bl * s_bs s <= Zlen (tokens x)). lia. }
  { change (Zlen bl * s_bs s <= Zlen bl * s_bs s + n_new). lia. }
  { change (s_bs s2) with (s_bs s). lia. }
  { rewrite Hno. cbn [rbind negb]. rewrite set_kv_id.
    replace (with_kvc (kvc s2) (put_req rid x2 s2)) with s2; [exact Hstop2 |].
    unfold with_kvc, put_req, with_heap. rewrite insert_id by done. by destruct s2. }
  rewrite Hyes. cbn [rbind negb]. fold rsm. unfold upd_req, get_req at 1. simpl heap. rewrite lookup_insert_eq. cbn [rbind].
  set (s3 := admit_state s2 rid rest (admitted rsm (Zlen bl * s_bs s) st x2) k) in *.
  match goal with |- context [phase2 fuel cfg ?t _ _] => replace t with s3 end.
  2: { subst s3. unfold admit_state, with_running, put_req, with_heap, with_waiting, with_kvc. simpl. by rewrite !insert_insert_eq. }
  assert (Hout3 := admit_out_ok s s2 a mem o budget rid rest x2 st k bl rsm n_new Hcfg Hout HI2).
  specialize (Hout3 ltac:(by destruct Hok) eq_refl Hk eq_refl Hw Hkeep ltac:(lia) ltac:(simpl; lia) Hen). fold s3 in Hout3.
  assert (Hl3 : live s3 ≡ₚ live s).
  { subst s3. unfold live, admit_state. simpl. rewrite Hw, <- app_assoc. done. }
  assert (HR3 : Ready s3).
  { intros c y Hc Hy. subst s3. simpl in Hy. rewrite lookup_insert in Hy. case_decide as Ec.
    - injection Hy as <-. destruct (HR rid x (live_waiting _ _ Hr) Hx). unfold admitted, ready_req. destruct rsm; simpl; split; lia || done.
    - apply (HR2 c); [by rewrite Hl3 in Hc | done]. }
  set (o3 := mkSOut (scheduled o ++ _) _ _) in *. destruct (IH s3 a' o3 (u32 (budget - n_new)) HI3 HR3) as (s' & a'' & o' & b' & adm & more & Hrun & H1 & H2 & H3 & H4 & H5 & H6 & H7 & H8 & H9 & H10 & H11 & H12);
    [by unfold s_bs; simpl; rewrite Hk | by unfold s_bs; simpl; rewrite Hk | | exact Hout3 |].
  { simpl in *. lia. }
  exists s', a'', o', b', (rid :: adm), (mkScheduled rid n_new 0 rsm :: more). simpl in *. rewrite <- app_assoc in H7, H10.
  split_and!; try done.
  - rewrite H3. unfold s_bs. simpl. by rewrite Hk.
  - by rewrite H4.
  - rewrite H5, <- Hcore2. subst s3. simpl. apply (core_insert _ _ x2); [done | apply core_admitted].
  - f_equal. exact H8.
  - f_equal. exact H11.
  - rewrite Zlen_app in H12. unfold Zlen in *. simpl in H12. lia.
Qed.

(** ** schedule *)
Lemma out_ok_start s : cfg_ok cfg (s_bs s) -> out_ok cfg s (mkSOut [] [] 0) (max_num_batched_tokens cfg).
Proof. intros Hc. pose proof (co_batch _ _ Hc). split; simpl; [set_solver | constructor | done | lia | lia]. Qed.

Lemma schedule_run s a mem :
  Inv s a mem -> Ready s -> cfg_ok cfg (s_bs s) -> collision_free U (s_bs s) ->
  exists o s' a' adm, schedule cfg s = Ok (o, s')
    /\ Inv s' a' mem /\ Ready s' /\ s_bs s' = s_bs s /\ live s' ≡ₚ live s /\ core <$> heap s' = core <$> heap s
    /\ (exists budget, out_ok cfg s' o budget)
    /\ running_ s ++ adm = running_ s' ++ rev (preempted o)
    /\ (preempted o = [] \/ adm = [])
    /\ preempted o ++ waiting_ s ≡ₚ adm ++ waiting_ s'
    /\ Zlen (running_ s') <= Z.max (Zlen (running_ s)) (max_num_seqs cfg)
    /\ (scheduled o = [] -> preempted o = [] -> 0 < max_num_batched_tokens cfg ->
        adm = [] /\ forall r x, r ∈ running_ s -> heap s !! r = Some x -> num_computed_tokens x = Zlen (tokens x)).
Proof.
  intros HI HR Hcfg Hcf. unfold schedule. pose proof (Zlen_nonneg (running_ s)).
  destruct (phase1_run F U cfg (S (length (running_ s))) s a mem 0 (mkSOut [] [] 0) (max_num_batched_tokens cfg))
    as (s1 & a1 & o1 & b1 & vs & more & -> & H1 & H2 & H3 & H4 & H5 & H6 & H7 & H8 & H9 & H10 & H11); try done.
  { unfold Zlen. lia. }
  { by apply out_ok_start. }
  { simpl. set_solver. }
  cbn [rbind]. simpl in H7, H8. case_bool_decide as Ep.
  - assert (vs = []) as -> by congruence. rewrite app_nil_r in H9.
    destruct (phase2_run (S (length (waiting_ s1))) s1 a1 mem o1 b1)
      as (s' & a' & o' & b' & adm & more' & -> & I1 & I2 & I3 & I4 & I5 & I6 & I7 & I8 & I9 & I10 & I11 & I12);
      try done; [by rewrite H3 | by rewrite H3 | lia |].
    cbn [rbind]. exists o', s', a', adm. rewrite I9, Ep. simpl. rewrite app_nil_r.
    split_and!; try done; try congruence.
    + by rewrite I4.
    + by exists b'.
    + by left.
    + rewrite <- I11, H10. done.
    + intros E _ Hb. rewrite I7, H7 in E. apply app_eq_nil in E as [-> ->]. split; [by rewrite <- I8 |]. by apply H11.
  - cbn [rbind]. exists o1, s1, a1, []. rewrite app_nil_r, H8. split_and!; try done.
    + by exists b1.
    + by right.
    + rewrite H9, Zlen_app. pose proof (Zlen_nonneg (rev vs)). lia.
    + intros _ ->. congruence.
Qed.

(** ** update_after_step *)

(** rows of the first [n] tokens are in place *)
Definition rows_upto (bs : Z) (mem : Z -> KV) (x : Request) (n : Z) : Prop :=
  forall i c, 0 <= i < n -> cell bs (block_ids (kv x)) i = Some c ->
    mem c = kv_ref F (tokens x ++ spec_tokens x) i.

(** the block a step completes holds the rows of its prefix *)
Lemma fresh_cached_ok bs mem x n j b h :
  0 < bs -> rok bs x -> rows_upto bs mem x n -> 0 <= j -> (j + 1) * bs <= Z.min n (Zlen (tokens x)) ->
  vlookup (block_ids (kv x)) j = Some b -> vlookup (chain bs (tokens x) (cache_salt x)) j = Some h ->
  cached_ok F U bs mem b h (take (Z.to_nat bs) (drop (Z.to_nat (j * bs)) (tokens x))).
Proof.
  intros Hbs Hok Hrows Hj Hle Hb Hh. set (m := (S (Z.to_nat j) * Z.to_nat bs)%nat).
  assert (Hm : (m <= length (tokens x))%nat) by (unfold Zlen in *; nia).
  unfold vlookup in Hh. destruct (0 <=? j) eqn:E0; [| lia].
  exists (take m (tokens x)), (cache_salt x), (Z.to_nat j). split_and!.
  - apply Hok.
  - by rewrite length_take_le.
  - rewrite <- Hh. rewrite <- (take_drop m (tokens x)) at 2.
    destruct (chain_app bs (cache_salt x) Hbs (take m (tokens x)) (drop m (tokens x))) as [l ->].
    rewrite lookup_app_l; [done |]. rewrite chain_length. unfold Zlen. rewrite length_take_le by done.
    replace (Z.of_nat m) with (Z.of_nat (S (Z.to_nat j)) * bs) by lia. rewrite Z.div_mul by lia. lia.
  - rewrite take_drop_commute. f_equal; [| f_equal]; lia.
  - intros i Hi. rewrite (Hrows (j * bs + i)); [| lia |].
    + replace m with (Z.to_nat (Z.of_nat m)) by lia. rewrite kv_ref_take by lia. rewrite kv_ref_app by lia. f_equal. lia.
    + unfold cell. rewrite Z.div_add_l, (Z.div_small i), Z.add_0_r, Hb by lia. simpl.
      replace ((j * bs + i) mod bs) with i; [done |]. rewrite Z.add_comm, Z.mod_add, Z.mod_small; lia.
Qed.

(** the request after update_after_step *)
Definition advanced (n : Z) (hs : list Z) (st : KVRequestState) (x : Request) : Request :=
  set_kv st (set_block_hashes hs (set_num_computed_tokens (num_computed_tokens x + n) x)).

Lemma update_one_run s a mem e x :
  Inv s a mem -> cfg_ok cfg (s_bs s) -> s_req e ∈ running_ s -> heap s !! s_req e = Some x ->
  entry_req cfg (s_bs s) e x -> rows_upto (s_bs s) mem x (num_computed_tokens x + n_new_tokens e) ->
  exists st k a', update_one e s = Ok (with_kvc k (put_req (s_req e)
        (advanced (n_new_tokens e) (chain (s_bs s) (tokens x) (cache_salt x)) st x) s))
    /\ block_ids st = block_ids (kv x) /\ kv_block_size k = s_bs s
    /\ Inv (with_kvc k (put_req (s_req e) (advanced (n_new_tokens e) (chain (s_bs s) (tokens x) (cache_salt x)) st x) s)) a' mem.
Proof.
  intros HI Hcfg Hr Hx (He1 & He2 & He3 & He4 & He5 & He6) Hrows. set (r := s_req e) in *.
  destruct (inv_get _ _ _ _ _ _ _ HI (live_running _ _ Hr))
    as (x' & rest & Hx' & Hg & Hok & Hst & _ & _ & Hex & Hl & Hni & HL). simplify_eq.
  pose proof (i_kv _ _ _ _ _ _ HI) as Hkv. pose proof (kr_bs_pos _ _ Hkv) as Hbs.
  pose proof (rk_tokens _ _ _ _ Hok) as Ht. pose proof (rk_computed _ _ _ _ Hok) as Hc.
  pose proof (rk_ncb _ _ _ _ Hok) as Hncb. pose proof (co_small _ _ Hcfg) as Hcs. pose proof (co_batch _ _ Hcfg) as Hcb.
  unfold s_bs in *. set (bs := kv_block_size (kvc s)) in *.
  assert (Hbig : num_computed_tokens x + n_new_tokens e <= max_model_len cfg)
    by (destruct (decide (n_spec e = 0)); [lia | destruct He4; lia]).
  unfold update_one. fold r. rewrite Hg. cbn [rbind]. unfold is_finished. rewrite (Hst Hr). simpl.
  rewrite (u32_small (_ + _)) by lia.
  rewrite (update_hashes_spec (kvc s) a _ _ _ Hkv); [| lia | apply Hok]. cbn [rbind]. fold bs.
  set (hs := chain bs (tokens x) (cache_salt x)). set (c' := num_computed_tokens x + n_new_tokens e) in *.
  set (x1 := set_block_hashes hs (set_num_computed_tokens c' x)).
  change (n_tokens x1) with (n_tokens x). rewrite (n_tokens_small U cfg bs x Hcfg Hbs Hok).
  destruct (cache_blocks_spec (kvc s) a (kv x) (tokens x) (Z.min c' (Zlen (tokens x))) hs Hkv)
    as (st & k & a' & Hrun & Hk & Hkbs & _ & Hids & Hn1 & _ & Hpost); try lia.
  { intros b Hb. destruct (refs_ok_in _ _ b HL) as (? & ? & _); [set_solver | eauto]. }
  { intros h Hh. apply list_elem_of_lookup in Hh as [i Hi]. rewrite (chain_lookup _ _ _ _ _ Hi). apply hash_block_nonzero. }
  change (kv x1) with (kv x). change (tokens x1) with (tokens x). change (num_computed_tokens x1) with c'.
  rewrite Hrun. cbn [rbind]. exists st, k, a'. split; [done |]. split; [done |]. split; [done |].
  fold bs in Hpost. destruct Hpost as [P1 P2 P3 P4 P5 P6 P7].
  set (n_full := Z.min (Z.min c' (Zlen (tokens x)) / bs) (Zlen hs)) in *.
  assert (Hfull : n_full * bs <= Z.min c' (Zlen (tokens x))).
  { pose proof (Z.mul_div_le (Z.min c' (Zlen (tokens x))) bs Hbs). subst n_full. nia. }
  apply (inv_change F U cfg s a mem r x rest _ a' (advanced (n_new_tokens e) hs st x)); try done; simpl.
  - rewrite Hids. intros b. specialize (HL b). by rewrite P1.
  - destruct Hok as [R1 R2 R3 R4 R5 R6]. split; simpl; rewrite ?Hids; try done; [| lia].
    rewrite Zlen_app in *. fold c'. lia.
  - intros Hw. exfalso. by eapply inv_disjoint.
  - intros i c Hi Hcell. simpl in *. rewrite Hids in Hcell. by apply Hrows.
  - intros i b Hb Hlt. simpl in Hb. rewrite Hids in *. unfold settled_tokens in Hlt. simpl in Hlt. fold c' in Hlt.
    destruct (Hex i b Hb) as [Ho Hca]; [unfold settled_tokens, s_bs in *; subst c'; lia |]. split; [done |].
    destruct (a_cache a' !! b) as [e' |] eqn:Ec; [| done]. exfalso.
    destruct (P6 b e' Ec) as [? | (j & h & Hj & Hbj & _)]; [congruence |].
    unfold vlookup in Hbj. destruct (0 <=? j) eqn:E0; [| done]. rewrite occ_app in Ho.
    assert (Z.to_nat j = i).
    { eapply (occ_lookup_eq (block_ids (kv x))); [| done | done]. pose proof (occ_nonneg (tabs (heap s) rest) b). lia. }
    subst i. unfold s_bs in Hlt. fold bs in Hlt. nia.
  - rewrite Hids. auto.
  - intros b h toks Hb. destruct (P6 b _ Hb) as [? | (j & h' & Hj & Hbj & Hhj & [= -> ->])]; [by left |]. right.
    split; [by eapply vlookup_elem_of |]. eapply fresh_cached_ok; eauto; [lia |]. fold c'. nia.
Qed.

(** what update_after_step needs of an entry, and what it makes of its request *)
Definition computed_entry s (mem : Z -> KV) (e : ScheduledRequest) : Prop :=
  s_req e ∈ running_ s /\ exists x, heap s !! s_req e = Some x /\ entry_req cfg (s_bs s) e x
    /\ rows_upto (s_bs s) mem x (num_computed_tokens x + n_new_tokens e).

Lemma update_all_run l s a mem :
  Inv s a mem -> cfg_ok cfg (s_bs s) -> NoDup (s_req <$> l) -> (forall e, e ∈ l -> computed_entry s mem e) ->
  exists s' a', update_all l s = Ok s' /\ Inv s' a' mem /\ s_bs s' = s_bs s
    /\ running_ s' = running_ s /\ waiting_ s' = waiting_ s
    /\ (forall c, c ∉ s_req <$> l -> heap s' !! c = heap s !! c)
    /\ (forall e, e ∈ l -> exists x hs st, heap s !! s_req e = Some x /\ block_ids st = block_ids (kv x)
          /\ heap s' !! s_req e = Some (advanced (n_new_tokens e) hs st x)).
Proof.
  revert s a. induction l as [| e l IH]; intros s a HI Hcfg Hnd Hl.
  { exists s, a. split_and!; try done. intros e He. by apply not_elem_of_nil in He. }
  rewrite fmap_cons in Hnd. apply NoDup_cons in Hnd as [Hni Hnd].
  destruct (Hl e) as (Hr & x & Hx & He & Hrows); [set_solver |]. cbn [update_all].
  destruct (update_one_run s a mem e x HI Hcfg Hr Hx He Hrows) as (st & k & a1 & Hrun & Hids & Hk & HI1).
  rewrite Hrun. cbn [rbind]. set (s1 := with_kvc k _) in *.
  assert (Hkeep : forall c, c <> s_req e -> heap s1 !! c = heap s !! c)
    by (intros c Hc; subst s1; simpl; by apply lookup_insert_ne).
  assert (Hne : forall e', e' ∈ l -> s_req e' <> s_req e).
  { intros e' He' E. apply Hni. rewrite <- E. by apply list_elem_of_fmap_2. }
  destruct (IH s1 a1 HI1) as (s' & a' & -> & HI' & Hsb & Hrun' & Hw' & Hk' & Hent); [by unfold s_bs; simpl; rewrite Hk | done | |].
  { intros e' He'. destruct (Hl e') as (Hr' & x' & Hx' & Hrest); [set_solver |]. split; [done |]. exists x'.
    rewrite Hkeep by by apply Hne. unfold s_bs in *. simpl. by rewrite Hk. }
  exists s', a'. split_and!; try done.
  - rewrite Hsb. unfold s_bs. simpl. by rewrite Hk.
  - intros c Hc. rewrite fmap_cons in Hc. apply not_elem_of_cons in Hc as [Hc1 Hc2]. rewrite Hk' by done. by apply Hkeep.
  - intros e' He'. apply elem_of_cons in He' as [-> | He'].
    + rewrite Hk' by done. subst s1. simpl. rewrite lookup_insert_eq. eauto 6.
    + destruct (Hent e' He') as (x' & hs & st' & Hx' & ? & ?). rewrite Hkeep in Hx' by by apply Hne. eauto 6.
Qed.
End step.
