(* ===== verification/BatchFacts.v ===== *)
(** * The batch builder lays out the scheduled tokens

    On a state with the invariant [build_batch] runs without error and its arrays are the
    projections of [items]; the slots of a batch are distinct cells, written by nobody else. *)

From Stdlib Require Import Sorting.Sorted.
From S2P Require Import Prelude BlockPool FreeList PoolSpec KVCache KVFacts Request Scheduler Batch SchedOps SchedAlloc SchedRun SchedStep.

Lemma sort_insert_perm e l : sort_insert e l ≡ₚ e :: l.
Proof.
  induction l as [| e' l IH]; simpl; [done |]. destruct (_ <? _); [| done].
  rewrite IH. apply Permutation_swap.
Qed.
Lemma stable_sort_perm l : stable_sort l ≡ₚ l.
Proof. induction l as [| e l IH]; simpl; [done |]. by rewrite sort_insert_perm, IH. Qed.
Lemma stable_sort_sorted l : Sorted (fun a b => n_new_tokens b <= n_new_tokens a) (stable_sort l).
Proof.
  induction l as [| e l IH]; simpl; [constructor |]. revert IH. generalize (stable_sort l) as k.
  clear. induction k as [| e' k IHk]; intros Hs; simpl; [by repeat constructor |].
  destruct (_ <? _) eqn:E.
  - apply Sorted_inv in Hs as [Hs Hh]. constructor; [by apply IHk |].
    destruct k as [| c k]; simpl; [constructor; lia |]. destruct (_ <? n_new_tokens c); constructor; [| lia].
    by apply HdRel_inv in Hh.
  - constructor; [done |]. constructor. lia.
Qed.

Lemma items_lookup si l it :
  it ∈ items si l -> si <= it_seq it /\ l !! Z.to_nat (it_seq it - si) = Some (it_entry it, it_req it)
    /\ num_computed_tokens (it_req it) <= it_pos it < n_ctx_of (it_entry it) (it_req it).
Proof.
  revert si. induction l as [| [e x] l IH]; intros si H; simpl in H; [by apply not_elem_of_nil in H |].
  apply elem_of_app in H as [H | H].
  - apply list_elem_of_fmap in H as (i & -> & Hi). apply elem_of_zrange in Hi. simpl in *.
    split; [lia |]. by rewrite Z.sub_diag.
  - destruct (IH _ H) as (H1 & H2 & H3). split; [lia |]. split; [| done].
    replace (Z.to_nat (it_seq it - si)) with (S (Z.to_nat (it_seq it - (si + 1)))) by lia. done.
Qed.
Lemma elem_of_items si l it : it ∈ items si l -> (it_entry it, it_req it) ∈ l.
Proof. intros (_ & H & _)%items_lookup. by eapply list_elem_of_lookup_2. Qed.
Lemma items_length si l : (forall p, p ∈ l -> 0 <= n_new_tokens p.1) -> Zlen (items si l) = sum_new (l.*1).
Proof.
  revert si. induction l as [| [e x] l IH]; intros si Hn; [done |]. simpl. rewrite Zlen_app, IH by set_solver.
  unfold items_of. unfold Zlen at 1. rewrite length_fmap, length_zrange. unfold n_ctx_of. simpl.
  pose proof (Hn (e, x) ltac:(set_solver)). change (list_fmap _ _ fst l) with (l.*1). simpl in *. lia.
Qed.

Section build.
Context {P : Type} `{PO : PoolOps P} `{PS : !PoolSpec P}.
Context {KV : Type} (F : Z -> Z -> list KV -> KV) (U : list Z -> Z -> Prop) (cfg : SchedulerConfig).
Implicit Types s : Sched P.
Abbreviation Inv := (Inv F U cfg).
Abbreviation rok := (rok U cfg).

Lemma cell_of_ok bs x i :
  0 < bs -> 0 <= i < Zlen (block_ids (kv x)) * bs -> cell_of bs (kv x) i = Ok (cellz bs x i)
    /\ cell bs (block_ids (kv x)) i = Some (cellz bs x i).
Proof.
  intros Hbs Hi. unfold cell_of, cell, cellz, vget.
  destruct (vlookup_lt_is_Some (block_ids (kv x)) (i / bs)) as [b ->]; [| done].
  split; [apply Z.div_pos; lia | apply Z.div_lt_upper_bound; lia].
Qed.

Lemma batch_token_ok bs x i :
  cfg_ok cfg bs -> 0 < bs -> rok bs x -> 0 <= i < Zlen (tokens x ++ spec_tokens x) -> batch_token x i = Ok (tokz x i).
Proof.
  intros Hc Hbs Hok Hi. unfold batch_token, tokz. rewrite (n_tokens_small U cfg _ _ Hc Hbs Hok). zlen.
  destruct (_ <? _) eqn:E; unfold vget.
  - rewrite vlookup_app_l by lia. by destruct (vlookup_lt_is_Some (tokens x) i) as [t ->]; [lia |].
  - rewrite vlookup_app_r by lia. by destruct (vlookup_lt_is_Some (spec_tokens x) (i - Zlen (tokens x))) as [t ->]; [lia |].
Qed.

Lemma build_seq_run bs si e x b :
  cfg_ok cfg bs -> 0 < bs -> rok bs x -> entry_req cfg bs e x ->
  exists b', build_seq bs si e x b = Ok b' /\ built bs [(e, x)] si b b'.
Proof.
  intros Hc Hbs Hok (He1 & He2 & He3 & He4 & He5 & He6).
  pose proof (rk_computed _ _ _ _ Hok) as Hcomp. pose proof (rk_tokens _ _ _ _ Hok) as Ht.
  pose proof (co_small _ _ Hc). pose proof (co_batch _ _ Hc).
  assert (Hbig : num_computed_tokens x + n_new_tokens e <= max_model_len cfg)
    by (destruct (decide (n_spec e = 0)); [lia | destruct He4; lia]).
  unfold build_seq. rewrite u32_small by lia. fold (n_ctx_of e x).
  rewrite !(rmap_Ok (cell_of bs (kv x)) (cellz bs x)).
  2, 3: intros i Hi%elem_of_zrange; apply cell_of_ok; [done | unfold n_ctx_of in *; lia].
  cbn [rbind]. rewrite (rmap_Ok (batch_token x) (tokz x)).
  2: { intros i Hi%elem_of_zrange. eapply batch_token_ok; [done.. |]. zlen. unfold n_ctx_of in *. lia. }
  cbn [rbind]. destruct (if is_embedding x then _ else _) as [[outs lrow] erow].
  eexists. split; [done |]. split; simpl; rewrite ?app_nil_r; try done;
    unfold items_of; simpl; rewrite <- ?list_fmap_compose; try done; [| rewrite length_app; simpl; lia..].
  f_equal. symmetry. apply list_fmap_id.
Qed.

Lemma built_trans bs p l si b b1 b2 :
  built bs [p] si b b1 -> built bs l (si + 1) b1 b2 -> built bs (p :: l) si b b2.
Proof.
  intros [A1 A2 A3 A4 A5 A6 A7 A8 A9] [B1 B2 B3 B4 B5 B6 B7 B8 B9]. simpl in *. rewrite app_nil_r in *.
  split; simpl; rewrite ?fmap_app.
  - by rewrite B1, A1, app_assoc.
  - by rewrite B2, A2, app_assoc.
  - by rewrite B3, A3, app_assoc.
  - by rewrite B4, A4, app_assoc.
  - by rewrite B5, A5, <- app_assoc.
  - by rewrite B6, A6, foldl_app.
  - by rewrite B7, A7, foldl_app.
  - lia.
  - lia.
Qed.

(** the requests of a list of entries *)
Definition with_reqs s (l : list ScheduledRequest) : list (ScheduledRequest * Request) :=
  l ≫= fun e => match heap s !! s_req e with Some x => [(e, x)] | None => [] end.

Lemma build_loop_run s a mem l si b :
  Inv s a mem -> cfg_ok cfg (s_bs s) -> (forall e, e ∈ l -> entry_ok cfg s e) ->
  exists b', build_loop (s_bs s) si l s b = Ok b' /\ built (s_bs s) (with_reqs s l) si b b'.
Proof.
  intros HI Hcfg. pose proof (kr_bs_pos _ _ (i_kv _ _ _ _ _ _ HI)) as Hbs. fold (s_bs s) in Hbs.
  revert si b. induction l as [| e l IH]; intros si b Hl.
  { exists b. split; [done |]. split; simpl; rewrite ?app_nil_r; try done; lia. }
  destruct (Hl e) as (Hr & x & Hx & He); [set_solver |].
  destruct (inv_get _ _ _ _ _ _ _ HI (live_running _ _ Hr)) as (x' & ? & Hx' & Hg & Hok & _). simplify_eq.
  cbn [build_loop]. rewrite Hg. cbn [rbind].
  destruct (build_seq_run (s_bs s) si e x b Hcfg Hbs Hok He) as (b1 & -> & H1). cbn [rbind].
  destruct (IH (si + 1) b1) as (b2 & -> & H2); [set_solver |]. exists b2. split; [done |].
  unfold with_reqs. simpl. rewrite Hx. simpl. by eapply built_trans.
Qed.

Lemma with_reqs_fst s l : (forall e, e ∈ l -> is_Some (heap s !! s_req e)) -> (with_reqs s l).*1 = l.
Proof.
  induction l as [| e l IH]; intros H; [done |]. unfold with_reqs. simpl.
  destruct (H e ltac:(set_solver)) as [x ->]. simpl. f_equal. apply IH. set_solver.
Qed.
Lemma elem_of_with_reqs s l e x : (e, x) ∈ with_reqs s l <-> e ∈ l /\ heap s !! s_req e = Some x.
Proof.
  unfold with_reqs. rewrite list_elem_of_bind. split.
  - intros (e' & H & He'). destruct (heap s !! s_req e') eqn:E; [| by apply not_elem_of_nil in H].
    apply list_elem_of_singleton in H. by simplify_eq.
  - intros [He Hx]. exists e. rewrite Hx. split; [set_solver | done].
Qed.

(** ** The attention window *)
Lemma foldl_min_le m l c : c ∈ l \/ c = m -> foldl Z.min m l <= c.
Proof.
  revert m c. induction l as [| x l IH]; intros m c H; simpl; [set_solver by lia |].
  destruct H as [[-> | H]%elem_of_cons | ->]; [| by apply IH; left |].
  - transitivity (Z.min m x); [apply IH; by right | lia].
  - transitivity (Z.min m x); [apply IH; by right | lia].
Qed.
Lemma foldl_max_le m l c : c ∈ l \/ c = m -> c <= foldl Z.max m l.
Proof.
  revert m c. induction l as [| x l IH]; intros m c H; simpl; [set_solver by lia |].
  destruct H as [[-> | H]%elem_of_cons | ->]; [| by apply IH; left |].
  - transitivity (Z.max m x); [lia | apply IH; by right].
  - transitivity (Z.max m x); [lia | apply IH; by right].
Qed.
Lemma foldl_min_in m l : foldl Z.min m l = m \/ foldl Z.min m l ∈ l.
Proof.
  revert m. induction l as [| x l IH]; intros m; simpl; [by left |].
  destruct (IH (Z.min m x)) as [H | H]; [| right; set_solver]. rewrite H. destruct (Z.min_spec m x) as [[_ ->] | [_ ->]]; [by left | right; set_solver].
Qed.
Lemma foldl_max_in m l : foldl Z.max m l = m \/ foldl Z.max m l ∈ l.
Proof.
  revert m. induction l as [| x l IH]; intros m; simpl; [by left |].
  destruct (IH (Z.max m x)) as [H | H]; [| right; set_solver]. rewrite H. destruct (Z.max_spec m x) as [[_ ->] | [_ ->]]; [right; set_solver | by left].
Qed.

(** cells of a live request are cells of the cache *)
Lemma cellz_range s a mem r x i :
  Inv s a mem -> r ∈ live s -> heap s !! r = Some x -> 0 <= i < Zlen (block_ids (kv x)) * s_bs s ->
  0 <= cellz (s_bs s) x i < num_cells_ (kvc s).
Proof.
  intros HI Hr Hx Hi. destruct (inv_get _ _ _ _ _ _ _ HI Hr) as (x' & rest & Hx' & _ & _ & _ & _ & _ & _ & _ & _ & HL). simplify_eq.
  pose proof (i_kv _ _ _ _ _ _ HI) as Hkv. pose proof (kr_bs_pos _ _ Hkv) as Hbs. fold (s_bs s) in Hbs.
  unfold cellz. destruct (vlookup_lt_is_Some (block_ids (kv x)) (i / s_bs s)) as [b Hb];
    [split; [apply Z.div_pos | apply Z.div_lt_upper_bound]; lia |].
  rewrite Hb. simpl. apply vlookup_elem_of in Hb. destruct (refs_ok_in _ _ b HL) as (n & Hn & _); [set_solver |].
  pose proof (kr_cells _ _ Hkv b ltac:(eauto)) as Hc. destruct (wa_ref _ (kr_wf _ _ Hkv) _ _ Hn). fold (s_bs s) in Hc.
  pose proof (Z.mod_pos_bound i (s_bs s) Hbs). nia.
Qed.

(** the window covers the cells between the smallest and the largest *)
Lemma window_covers mn mx n c :
  0 <= mn -> mn <= c <= mx -> mx < n -> n < 2 ^ 31 ->
  let start := u32 (Z.quot mn 256 * 256) in
  let n_kv := Z.min (u32 (n - start)) (u32 (Z.quot (mx + 1 - start + 255) 256 * 256)) in
  start <= c < start + n_kv /\ start + n_kv <= n.
Proof.
  intros Hmn Hc Hmx Hn. rewrite Z.quot_div_nonneg by lia.
  pose proof (Z.div_mod mn 256 ltac:(lia)) as H1. pose proof (Z.mod_pos_bound mn 256 ltac:(lia)) as H2.
  rewrite (u32_small (mn / 256 * 256)) by lia. set (st := mn / 256 * 256) in *. assert (Hst : mn - 256 < st <= mn) by lia.
  cbv zeta. rewrite Z.quot_div_nonneg by lia.
  pose proof (Z.div_mod (mx + 1 - st + 255) 256 ltac:(lia)) as H3. pose proof (Z.mod_pos_bound (mx + 1 - st + 255) 256 ltac:(lia)) as H4.
  set (q := (mx + 1 - st + 255) / 256 * 256) in *. assert (Hq : mx + 1 - st <= q <= mx + 1 - st + 255) by lia.
  rewrite !u32_small by lia. lia.
Qed.

Lemma build_batch_run s a mem gather o :
  Inv s a mem -> cfg_ok cfg (s_bs s) -> (forall e, e ∈ scheduled o -> entry_ok cfg s e) ->
  exists o' ub b, build_batch gather o s = Ok (o', ub, b)
    /\ scheduled o' ≡ₚ scheduled o /\ preempted o' = preempted o /\ total_tokens o' = total_tokens o
    /\ ub_n_tokens ub = total_tokens o
    /\ built (s_bs s) (with_reqs s (scheduled o')) 0 empty_build b
    /\ ub_tokens ub = bd_tokens b /\ ub_pos ub = bd_pos b /\ ub_seq_idx ub = bd_seq_idx b
    /\ ub_slots ub = bd_slots b /\ ub_seqs ub = bd_seqs b
    /\ (forall q c, q ∈ ub_seqs ub -> c ∈ cells q ->
          ub_kv_start ub <= c < ub_kv_start ub + ub_n_kv ub /\ ub_kv_start ub + ub_n_kv ub <= num_cells_ (kvc s)).
Proof.
  intros HI Hcfg Hl. pose proof (kr_small _ _ (i_kv _ _ _ _ _ _ HI)) as Hn. set (o' := if gather then mkSOut (stable_sort (scheduled o)) (preempted o) (total_tokens o) else o).
  assert (Hp : scheduled o' ≡ₚ scheduled o) by (subst o'; destruct gather; [apply stable_sort_perm | done]).
  assert (Hl' : forall e, e ∈ scheduled o' -> entry_ok cfg s e) by (intros e; rewrite Hp; apply Hl).
  destruct (build_loop_run s a mem (scheduled o') 0 empty_build HI Hcfg Hl') as (b & Hb & Hbt).
  unfold build_batch. fold o'. fold (s_bs s). rewrite Hb. cbn [rbind].
  assert (Hcells : forall c, c ∈ (with_reqs s (scheduled o') ≫= fun p => cells (seq_of (s_bs s) p)) -> 0 <= c < num_cells_ (kvc s)).
  { intros c ([e x] & Hc & [He Hx]%elem_of_with_reqs)%list_elem_of_bind. simpl in Hc.
    apply list_elem_of_fmap in Hc as (i & -> & Hi%elem_of_zrange). destruct (Hl' e He) as (Hr & x' & Hx' & Hent). simplify_eq.
    eapply cellz_range; eauto using live_running. destruct Hent as (_ & _ & _ & _ & ? & _). unfold n_ctx_of in Hi. lia. }
  eexists o', _, b. split; [done |]. simpl. split_and!; try done; try (subst o'; by destruct gather).
  intros q c Hq Hc. rewrite (bt_seqs _ _ _ _ _ Hbt) in Hq. simpl in Hq.
  assert (Hin : c ∈ (with_reqs s (scheduled o') ≫= fun p => cells (seq_of (s_bs s) p))).
  { apply list_elem_of_fmap in Hq as (p & -> & Hq). apply list_elem_of_bind. eauto. }
  rewrite (bt_min _ _ _ _ _ Hbt), (bt_max _ _ _ _ _ Hbt). simpl cell_min. simpl cell_max.
  set (cs := with_reqs s (scheduled o') ≫= _) in *. pose proof (Hcells c Hin).
  pose proof (foldl_min_le (2 ^ 63 - 1) cs c (or_introl Hin)). pose proof (foldl_max_le (-1) cs c (or_introl Hin)).
  apply window_covers; [| lia | | done].
  - destruct (foldl_min_in (2 ^ 63 - 1) cs) as [-> | ?%Hcells]; lia.
  - destruct (foldl_max_in (-1) cs) as [-> | ?%Hcells]; lia.
Qed.
End build.
