(* ===== verification/Consistency.v ===== *)
(** * Executing a batch keeps every K/V row right

    The forward pass is a parameter: [Forward] states what the compute graph does to the cache, a
    row per batch token computed from the rows the token sees, and nothing else.  For the batches
    the engine builds the slots are private to their request, so a pass fills in the rows of the
    scheduled tokens and disturbs no other request and no cached block. *)

From S2P Require Import Prelude BlockPool FreeList PoolSpec KVCache KVFacts Request Scheduler Batch SchedOps SchedAlloc SchedRun SchedStep BatchFacts.

(** ** What a batch token sees *)

(** cells of the token's own sequence at earlier positions *)
Definition visible_before (ub : UBatch) (t : Z) : list Z :=
  match vlookup (ub_pos ub) t, vlookup (ub_seq_idx ub) t ≫= vlookup (ub_seqs ub) with
  | Some p, Some q => (List.filter (fun cp => cp.2 <? p) (zip (cells q) (cell_pos q))).*1
  | _, _ => []
  end.

(** slots are distinct and no token sees a cell that it or a later token of the batch writes *)
Definition ub_wf (ub : UBatch) : Prop :=
  NoDup (ub_slots ub)
  /\ forall t t' c, t <= t' -> c ∈ visible_before ub t -> vlookup (ub_slots ub) t' <> Some c.

Class Forward {KV : Type} (F : Z -> Z -> list KV -> KV) := {
  compute : UBatch -> (Z -> KV) -> (Z -> KV);
  compute_row ub mem t c tok p : ub_wf ub ->
    vlookup (ub_slots ub) t = Some c -> vlookup (ub_tokens ub) t = Some tok -> vlookup (ub_pos ub) t = Some p ->
    compute ub mem c = F tok p (compute ub mem <$> visible_before ub t);
  compute_other ub mem c : ub_wf ub -> c ∉ ub_slots ub -> compute ub mem c = mem c
}.

(** ** A forward pass: the batch tokens one after the other *)
Section exec.
Context {KV : Type} (F : Z -> Z -> list KV -> KV).

Definition upd_mem (c : Z) (v : KV) (mem : Z -> KV) : Z -> KV := fun c' => if c' =? c then v else mem c'.
Definition exec_token (ub : UBatch) (mem : Z -> KV) (t : nat) : Z -> KV :=
  match ub_slots ub !! t, ub_tokens ub !! t, ub_pos ub !! t with
  | Some c, Some tok, Some p => upd_mem c (F tok p (mem <$> visible_before ub (Z.of_nat t))) mem
  | _, _, _ => mem
  end.
Fixpoint exec_n (n : nat) (ub : UBatch) (mem : Z -> KV) : Z -> KV :=
  match n with O => mem | S n => exec_token ub (exec_n n ub mem) n end.

Lemma exec_keep n m ub mem c :
  (n <= m)%nat -> (forall t, (n <= t < m)%nat -> ub_slots ub !! t <> Some c) -> exec_n m ub mem c = exec_n n ub mem c.
Proof.
  intros Hnm. induction m as [| m IH]; intros Ht; [by replace n with 0%nat by lia |].
  destruct (decide (n = S m)) as [-> | Hne]; [done |]. simpl. unfold exec_token.
  assert (Hm : exec_n m ub mem c = exec_n n ub mem c) by (apply IH; [lia | intros t Hlt; apply Ht; lia]).
  destruct (ub_slots ub !! m) as [c' |] eqn:E; [| done]. repeat case_match; try done. unfold upd_mem.
  destruct (c =? c') eqn:Ec; [| done]. apply Z.eqb_eq in Ec. subst. by destruct (Ht m ltac:(lia)).
Qed.

#[export] Instance exec_forward : Forward F.
Proof.
  refine {| compute ub mem := exec_n (length (ub_slots ub)) ub mem |}.
  - intros ub mem t c tok p [Hnd Hvis] Hc Htok Hp. pose proof (vlookup_Some_range _ _ _ Hc) as Ht.
    set (n := Z.to_nat t). assert (Hn : Z.of_nat n = t) by lia. unfold vlookup in Hc, Htok, Hp.
    destruct (0 <=? t) eqn:E0; [| lia]. fold n in Hc, Htok, Hp.
    rewrite (exec_keep (S n) (length (ub_slots ub))).
    + simpl. unfold exec_token. rewrite Hc, Htok, Hp. unfold upd_mem. rewrite Z.eqb_refl, Hn. f_equal.
      apply list_fmap_ext. intros i c' Hc'. symmetry. apply exec_keep; [unfold Zlen in Ht; lia |].
      intros t' Ht' Hs. apply list_elem_of_lookup_2 in Hc'. apply (Hvis t (Z.of_nat t') c'); [lia | done |].
      unfold vlookup. rewrite Nat2Z.id. destruct (0 <=? Z.of_nat t') eqn:E; [done | lia].
    + unfold Zlen in Ht. lia.
    + intros t' Ht' Hs. assert (t' = n) by (eapply NoDup_lookup; eauto). lia.
  - intros ub mem c _ Hc. apply (exec_keep 0); [lia |]. intros t _ Ht. apply Hc. by eapply list_elem_of_lookup_2.
Defined.
End exec.

Lemma visible_filter (f : Z -> Z) n i :
  0 <= i <= n ->
  (List.filter (fun cp : Z * Z => cp.2 <? i) (zip (f <$> zrange 0 n) (zrange 0 n))).*1 = f <$> zrange 0 i.
Proof.
  intros Hi. assert (Hs : zrange 0 n = zrange 0 i ++ zrange i n).
  { unfold zrange. rewrite !Z.sub_0_r. replace (Z.to_nat n) with (Z.to_nat i + Z.to_nat (n - i))%nat by lia.
    rewrite seq_app, fmap_app. f_equal.
    replace (seq (0 + Z.to_nat i) (Z.to_nat (n - i))) with (Nat.add (Z.to_nat i) <$> seq 0 (Z.to_nat (n - i)))
      by (rewrite fmap_add_seq; f_equal; lia).
    rewrite <- list_fmap_compose. apply list_fmap_ext. intros k ? _. simpl. lia. }
  assert (Hf : forall l, (forall k, k ∈ l -> k < i) ->
    (List.filter (fun cp : Z * Z => cp.2 <? i) (zip (f <$> l) l)).*1 = f <$> l).
  { induction l as [| k l IH]; intros Hl; [done |]. simpl. pose proof (Hl k ltac:(set_solver)).
    destruct (k <? i) eqn:E; [| lia]. simpl. f_equal. apply IH. set_solver. }
  assert (Hg : forall l, (forall k, k ∈ l -> i <= k) ->
    List.filter (fun cp : Z * Z => cp.2 <? i) (zip (f <$> l) l) = []).
  { induction l as [| k l IH]; intros Hl; [done |]. simpl. pose proof (Hl k ltac:(set_solver)).
    destruct (k <? i) eqn:E; [lia |]. apply IH. set_solver. }
  rewrite Hs, fmap_app, zip_with_app by by rewrite length_fmap. rewrite List.filter_app, fmap_app, Hf, Hg.
  - by rewrite app_nil_r.
  - intros k Hk%elem_of_zrange. lia.
  - intros k Hk%elem_of_zrange. lia.
Qed.

Lemma kv_rows_refs {KV} (F : Z -> Z -> list KV -> KV) n toks :
  kv_rows F n toks = kv_ref F toks <$> zrange 0 (Z.of_nat n).
Proof.
  induction n as [| n IH]; [done |].
  assert (Hr : kv_ref F toks (Z.of_nat n) = F (default 0 (toks !! n)) (Z.of_nat n) (kv_rows F n toks)).
  { unfold kv_ref, vlookup. rewrite Nat2Z.id. rewrite (proj2 (Z.leb_le 0 (Z.of_nat n))) by lia. done. }
  cbn [kv_rows]. rewrite <- Hr, IH. unfold zrange. rewrite !Z.sub_0_r, !Nat2Z.id, seq_S, !fmap_app. done.
Qed.

Section consistency.
Context {P : Type} `{PO : PoolOps P} `{PS : !PoolSpec P}.
Context {KV : Type} (F : Z -> Z -> list KV -> KV) `{FW : !Forward F} (U : list Z -> Z -> Prop) (cfg : SchedulerConfig).
Implicit Types s : Sched P.
Abbreviation Inv := (Inv F U cfg).
Abbreviation rok := (rok U cfg).

(** ** A cell past the computed tokens is private *)
Lemma cellz_inj bs x y i j :
  0 < bs -> 0 <= i -> 0 <= j -> cellz bs x i = cellz bs y j ->
  default 0 (vlookup (block_ids (kv x)) (i / bs)) = default 0 (vlookup (block_ids (kv y)) (j / bs)) /\ i mod bs = j mod bs.
Proof.
  intros Hbs Hi Hj H. unfold cellz in H. pose proof (Z.mod_pos_bound i bs Hbs). pose proof (Z.mod_pos_bound j bs Hbs).
  set (b := default 0 _) in *. set (c := default 0 (vlookup (block_ids (kv y)) _)) in *.
  assert (b = c) by nia. subst b. split; [done | nia].
Qed.

Lemma slot_private s a mem r r' x y i j :
  Inv s a mem -> r ∈ live s -> r' ∈ live s -> heap s !! r = Some x -> heap s !! r' = Some y ->
  num_computed_tokens x <= Zlen (tokens x) ->
  num_computed_tokens x <= i < Zlen (block_ids (kv x)) * s_bs s -> 0 <= j < Zlen (block_ids (kv y)) * s_bs s ->
  cellz (s_bs s) x i = cellz (s_bs s) y j -> r = r' /\ i = j.
Proof.
  intros HI Hr Hr' Hx Hy Hready Hi Hj Hc.
  destruct (inv_get _ _ _ _ _ _ _ HI Hr) as (x' & rest & Hx' & _ & Hok & _ & _ & _ & Hex & Hl & Hni & HL). simplify_eq.
  pose proof (kr_bs_pos _ _ (i_kv _ _ _ _ _ _ HI)) as Hbs. fold (s_bs s) in Hbs. set (bs := s_bs s) in *.
  pose proof (rk_computed _ _ _ _ Hok) as Hcomp.
  destruct (cellz_inj bs x y i j Hbs) as [Hb Hm]; [lia | lia | done |].
  assert (Hdi : 0 <= i / bs < Zlen (block_ids (kv x))) by (split; [apply Z.div_pos | apply Z.div_lt_upper_bound]; lia).
  assert (Hdj : 0 <= j / bs < Zlen (block_ids (kv y))) by (split; [apply Z.div_pos | apply Z.div_lt_upper_bound]; lia).
  destruct (vlookup_lt_is_Some _ _ Hdi) as [b Eb]. destruct (vlookup_lt_is_Some _ _ Hdj) as [c Ec].
  rewrite Eb, Ec in Hb. simpl in Hb. subst c. unfold vlookup in Eb, Ec.
  destruct (0 <=? i / bs) eqn:E1; [| lia]. destruct (0 <=? j / bs) eqn:E2; [| lia].
  destruct (Hex _ _ Eb) as [Ho _].
  { unfold settled_tokens. pose proof (Z.mod_pos_bound i bs Hbs). pose proof (Z.div_mod i bs ltac:(lia)).
    rewrite Z2Nat.id by lia. nia. }
  rewrite occ_app in Ho. pose proof (occ_pos _ _ (list_elem_of_lookup_2 _ _ _ Eb)).
  pose proof (occ_nonneg (tabs (heap s) rest) b).
  destruct (decide (r = r')) as [<- | Hne].
  - split; [done |]. simplify_eq. assert (Z.to_nat (i / bs) = Z.to_nat (j / bs)) by (apply (occ_lookup_eq (block_ids (kv x)) _ _ b); [lia | done..]).
    rewrite (Z.div_mod i bs), (Z.div_mod j bs) by lia. nia.
  - exfalso. assert (Hin : b ∈ tabs (heap s) rest).
    { apply (table_in_tabs _ r'); [rewrite Hl in Hr'; set_solver |]. unfold table. rewrite Hy. by eapply list_elem_of_lookup_2. }
    apply occ_pos in Hin. lia.
Qed.

(** ** and is not part of a cached block *)
Lemma slot_uncached s a mem r x i b e :
  Inv s a mem -> r ∈ live s -> heap s !! r = Some x -> num_computed_tokens x <= Zlen (tokens x) ->
  num_computed_tokens x <= i < Zlen (block_ids (kv x)) * s_bs s -> a_cache a !! b = Some e ->
  forall j, 0 <= j < s_bs s -> cellz (s_bs s) x i <> b * s_bs s + j.
Proof.
  intros HI Hr Hx Hready Hi Hb j Hj Hc.
  destruct (inv_get _ _ _ _ _ _ _ HI Hr) as (x' & rest & Hx' & _ & Hok & _ & _ & _ & Hex & Hl & Hni & HL). simplify_eq.
  pose proof (kr_bs_pos _ _ (i_kv _ _ _ _ _ _ HI)) as Hbs. fold (s_bs s) in Hbs. set (bs := s_bs s) in *.
  pose proof (rk_computed _ _ _ _ Hok) as Hcomp. pose proof (Z.mod_pos_bound i bs Hbs) as Hm. pose proof (Z.div_mod i bs ltac:(lia)) as Hdm.
  assert (Hdi : 0 <= i / bs < Zlen (block_ids (kv x))) by (split; [apply Z.div_pos | apply Z.div_lt_upper_bound]; lia).
  destruct (vlookup_lt_is_Some _ _ Hdi) as [c Ec]. unfold cellz in Hc. rewrite Ec in Hc. simpl in Hc. assert (c = b) as -> by nia.
  unfold vlookup in Ec. destruct (0 <=? i / bs) eqn:E1; [| lia].
  destruct (Hex _ _ Ec) as [_ Hn]; [unfold settled_tokens; rewrite Z2Nat.id by lia; nia | congruence].
Qed.

(** ** The batch of a list of entries *)
Definition batch_ok s (l : list ScheduledRequest) (ub : UBatch) : Prop :=
  ub_tokens ub = (fun it => tokz (it_req it) (it_pos it)) <$> items 0 (with_reqs s l)
  /\ ub_pos ub = it_pos <$> items 0 (with_reqs s l)
  /\ ub_seq_idx ub = it_seq <$> items 0 (with_reqs s l)
  /\ ub_slots ub = (fun it => cellz (s_bs s) (it_req it) (it_pos it)) <$> items 0 (with_reqs s l)
  /\ ub_seqs ub = seq_of (s_bs s) <$> with_reqs s l.

Lemma items_index s l k it : items 0 (with_reqs s l) !! k = Some it ->
  with_reqs s l !! Z.to_nat (it_seq it) = Some (it_entry it, it_req it)
  /\ 0 <= it_seq it /\ it_entry it ∈ l /\ heap s !! s_req (it_entry it) = Some (it_req it)
  /\ num_computed_tokens (it_req it) <= it_pos it < n_ctx_of (it_entry it) (it_req it).
Proof.
  intros H%list_elem_of_lookup_2. destruct (items_lookup _ _ _ H) as (H1 & H2 & H3). rewrite Z.sub_0_r in H2.
  apply list_elem_of_lookup_2 in H2 as H4. apply elem_of_with_reqs in H4 as [? ?]. done.
Qed.

Lemma entry_facts s a mem e x : Inv s a mem -> entry_ok cfg s e -> heap s !! s_req e = Some x ->
  s_req e ∈ live s /\ 0 <= num_computed_tokens x /\ n_ctx_of e x <= Zlen (block_ids (kv x)) * s_bs s
  /\ n_ctx_of e x <= Zlen (tokens x ++ spec_tokens x).
Proof.
  intros HI (Hr & x' & Hx' & He1 & He2 & He3 & He4 & He5 & He6) Hx. simplify_eq.
  destruct (inv_get _ _ _ _ _ _ _ HI (live_running _ _ Hr)) as (y & ? & Hy & _ & Hok & _). simplify_eq.
  pose proof (rk_computed _ _ _ _ Hok). split; [by apply live_running |]. zlen. unfold n_ctx_of. split_and!; lia.
Qed.

(** a batch token sees exactly the cells of the earlier tokens of its request *)
Lemma visible_spec s a mem l ub t it :
  Inv s a mem -> (forall e, e ∈ l -> entry_ok cfg s e) -> batch_ok s l ub ->
  vlookup (items 0 (with_reqs s l)) t = Some it ->
  visible_before ub t = cellz (s_bs s) (it_req it) <$> zrange 0 (it_pos it).
Proof.
  intros HI Hl (_ & Hp & Hq & _ & Hs) Ht. unfold visible_before. rewrite Hp, Hq, Hs. unfold vlookup in *.
  destruct (0 <=? t) eqn:E; [| done]. rewrite !list_lookup_fmap, Ht. simpl.
  destruct (items_index _ _ _ _ Ht) as (H1 & H2 & H3 & H4 & H5). unfold vlookup.
  destruct (0 <=? it_seq it) eqn:E2; [| lia]. rewrite list_lookup_fmap, H1. simpl.
  destruct (entry_facts s a mem (it_entry it) (it_req it) HI (Hl _ H3) H4) as (_ & Hc & _).
  apply visible_filter. unfold n_ctx_of in *. lia.
Qed.

Lemma ready_entry s e x : Ready s -> entry_ok cfg s e -> heap s !! s_req e = Some x -> num_computed_tokens x <= Zlen (tokens x).
Proof. intros HR [Hr _] Hx. by destruct (HR _ _ (live_running _ _ Hr) Hx). Qed.

(** two batch tokens with one slot are one token of one request *)
Lemma slot_inj s a mem l it it' :
  Inv s a mem -> Ready s -> (forall e, e ∈ l -> entry_ok cfg s e) ->
  it ∈ items 0 (with_reqs s l) -> it' ∈ items 0 (with_reqs s l) ->
  cellz (s_bs s) (it_req it) (it_pos it) = cellz (s_bs s) (it_req it') (it_pos it') ->
  s_req (it_entry it) = s_req (it_entry it') /\ it_pos it = it_pos it'.
Proof.
  intros HI HR Hl [k H]%list_elem_of_lookup [k' H']%list_elem_of_lookup Hc.
  destruct (items_index _ _ _ _ H) as (_ & _ & He & Hx & Hp). destruct (items_index _ _ _ _ H') as (_ & _ & He' & Hx' & Hp').
  destruct (entry_facts _ _ _ _ _ HI (Hl _ He) Hx) as (Hr & Hc0 & Ht & _).
  destruct (entry_facts _ _ _ _ _ HI (Hl _ He') Hx') as (Hr' & Hc0' & Ht' & _).
  eapply (slot_private s a mem); eauto; [exact (ready_entry s _ _ HR (Hl _ He) Hx) | lia | lia].
Qed.

Lemma item_exists si ps e x i :
  (e, x) ∈ ps -> num_computed_tokens x <= i < n_ctx_of e x ->
  exists k it, items si ps !! k = Some it /\ it_entry it = e /\ it_req it = x /\ it_pos it = i.
Proof.
  revert si. induction ps as [| p ps IH]; intros si Hin Hi; [by apply not_elem_of_nil in Hin |]. simpl.
  apply elem_of_cons in Hin as [<- | Hin].
  - assert (mkItem si e x i ∈ items_of si (e, x)) as [k Hk]%list_elem_of_lookup.
    { unfold items_of. apply list_elem_of_fmap. exists i. split; [done |]. by apply elem_of_zrange. }
    exists k, (mkItem si e x i). split; [by apply lookup_app_l_Some | done].
  - destruct (IH (si + 1) Hin Hi) as (k & it & Hk & ?). exists (length (items_of si p) + k)%nat, it.
    split; [| done]. by rewrite lookup_app_r, Nat.add_comm, Nat.add_sub by lia.
Qed.

(** the items of distinct requests, in order, are distinct *)
Lemma items_order si ps k k' it it' :
  NoDup (s_req ∘ fst <$> ps) -> items si ps !! k = Some it -> items si ps !! k' = Some it' ->
  s_req (it_entry it) = s_req (it_entry it') -> (k <= k')%nat -> it_pos it <= it_pos it' /\ (it_pos it = it_pos it' -> k = k').
Proof.
  revert si k k'. induction ps as [| [e x] ps IH]; intros si k k' Hnd H H' Hs Hk; [done |]. simpl in H, H'.
  rewrite fmap_cons in Hnd. apply NoDup_cons in Hnd as [Hni Hnd].
  assert (Hne : forall i j, items (si + 1) ps !! i = Some j -> s_req (it_entry j) <> s_req e).
  { intros i j Hj Hsj. apply list_elem_of_lookup_2, elem_of_items in Hj. apply Hni. rewrite list_elem_of_fmap.
    exists (it_entry j, it_req j). simpl. rewrite Hsj. done. }
  apply lookup_app_Some in H as [H | [Hlen H]]; apply lookup_app_Some in H' as [H' | [Hlen' H']].
  - unfold items_of in H, H'. rewrite list_lookup_fmap in H, H'.
    destruct (zrange _ _ !! k) as [i |] eqn:E; [| done]. destruct (zrange _ _ !! k') as [i' |] eqn:E'; [| done].
    simpl in H, H'. simplify_eq. simpl. pose proof (lookup_lt_Some _ _ _ E) as L1. pose proof (lookup_lt_Some _ _ _ E') as L2.
    rewrite length_zrange in L1, L2. rewrite zrange_lookup in E, E' by done. simplify_eq. split; lia.
  - exfalso. apply (Hne _ _ H'). rewrite <- Hs. unfold items_of in H. rewrite list_lookup_fmap in H.
    by destruct (zrange _ _ !! k); simplify_eq/=.
  - exfalso. apply lookup_lt_Some in H'. lia.
  - destruct (IH (si + 1) _ _ Hnd H H' Hs ltac:(lia)) as [? Hi]. split; [done |]. intros E. specialize (Hi E). lia.
Qed.

Lemma batch_wf s a mem l ub :
  Inv s a mem -> Ready s -> NoDup (s_req <$> l) -> (forall e, e ∈ l -> entry_ok cfg s e) -> batch_ok s l ub -> ub_wf ub.
Proof.
  intros HI HR Hnd Hl Hb. pose proof Hb as (_ & _ & _ & Hs & _).
  assert (Hin : forall e, e ∈ l -> is_Some (heap s !! s_req e)) by (intros e He; destruct (Hl e He) as (_ & x & -> & _); eauto).
  assert (Hnd' : NoDup (s_req ∘ fst <$> with_reqs s l)) by (rewrite list_fmap_compose, with_reqs_fst; done).
  split.
  - rewrite Hs. apply NoDup_alt. intros k k' c H H'. rewrite list_lookup_fmap in H, H'.
    destruct (items 0 (with_reqs s l) !! k) as [it |] eqn:E; [| done].
    destruct (items 0 (with_reqs s l) !! k') as [it' |] eqn:E'; [| done]. simpl in H, H'. injection H as <-. injection H' as H'.
    destruct (slot_inj s a mem l it it' HI HR Hl) as [Hr Hp]; [by eapply list_elem_of_lookup_2.. | done |].
    destruct (Nat.le_ge_cases k k') as [Hk | Hk].
    + by apply (items_order 0 (with_reqs s l) k k' it it').
    + symmetry. by apply (items_order 0 (with_reqs s l) k' k it' it).
  - intros t t' c Htt Hc Ht'. rewrite Hs in Ht'. unfold vlookup in Ht'. destruct (0 <=? t') eqn:E0; [| done].
    rewrite list_lookup_fmap in Ht'. destruct (items 0 (with_reqs s l) !! Z.to_nat t') as [it' |] eqn:E'; [| done].
    simpl in Ht'. injection Ht' as <-.
    destruct (vlookup (items 0 (with_reqs s l)) t) as [it |] eqn:E.
    2: { unfold visible_before in Hc. destruct Hb as (_ & Hp & _). unfold vlookup in *. rewrite Hp in Hc.
         destruct (0 <=? t); [rewrite list_lookup_fmap, E in Hc |]; by apply not_elem_of_nil in Hc. }
    rewrite (visible_spec s a mem l ub t it HI Hl Hb E) in Hc. unfold vlookup in E. destruct (0 <=? t) eqn:E1; [| done].
    apply list_elem_of_fmap in Hc as (j & Hc & Hj). apply elem_of_zrange in Hj.
    destruct (items_index _ _ _ _ E) as (_ & _ & He & Hx & Hp). destruct (items_index _ _ _ _ E') as (_ & _ & He' & Hx' & Hp').
    destruct (entry_facts _ _ _ _ _ HI (Hl _ He) Hx) as (Hr & Hc0 & Ht & _).
    destruct (entry_facts _ _ _ _ _ HI (Hl _ He') Hx') as (Hr' & Hc0' & Ht' & _).
    destruct (slot_private s a mem (s_req (it_entry it')) (s_req (it_entry it)) (it_req it') (it_req it) (it_pos it') j)
      as [Hrr Hpp]; try done; [exact (ready_entry s _ _ HR (Hl _ He') Hx') | lia | lia |].
    destruct (items_order 0 _ _ _ it it' Hnd' E E') as [Hle _]; [done | lia |]. lia.
Qed.

Lemma compute_keep s a mem l ub c :
  Inv s a mem -> Ready s -> NoDup (s_req <$> l) -> (forall e, e ∈ l -> entry_ok cfg s e) -> batch_ok s l ub ->
  (forall it, it ∈ items 0 (with_reqs s l) -> cellz (s_bs s) (it_req it) (it_pos it) <> c) ->
  compute ub mem c = mem c.
Proof.
  intros HI HR Hnd Hl Hb Hne. apply compute_other; [by eapply batch_wf |].
  destruct Hb as (_ & _ & _ & -> & _). intros (it & -> & Hit)%list_elem_of_fmap. by eapply Hne.
Qed.

(** the rows below the computed count are not touched *)
Lemma compute_old s a mem l ub r x i :
  Inv s a mem -> Ready s -> NoDup (s_req <$> l) -> (forall e, e ∈ l -> entry_ok cfg s e) -> batch_ok s l ub ->
  r ∈ live s -> heap s !! r = Some x -> 0 <= i < num_computed_tokens x ->
  compute ub mem (cellz (s_bs s) x i) = mem (cellz (s_bs s) x i).
Proof.
  intros HI HR Hnd Hl Hb Hr Hx Hi. eapply compute_keep; eauto. intros it Hit Hc.
  apply list_elem_of_lookup in Hit as [k Hit]. destruct (items_index _ _ _ _ Hit) as (_ & _ & He & Hx' & Hp).
  destruct (entry_facts _ _ _ _ _ HI (Hl _ He) Hx') as (Hr' & Hc0 & Ht & _).
  destruct (inv_get _ _ _ _ _ _ _ HI Hr) as (y & ? & Hy & _ & Hok & _). simplify_eq. pose proof (rk_table _ _ _ _ Hok).
  destruct (slot_private s a mem (s_req (it_entry it)) r (it_req it) x (it_pos it) i) as [Er Ep];
    try done; [exact (ready_entry s _ _ HR (Hl _ He) Hx') | lia | lia |]. subst r. simplify_eq. lia.
Qed.

Theorem compute_inv s a mem l ub :
  Inv s a mem -> Ready s -> NoDup (s_req <$> l) -> (forall e, e ∈ l -> entry_ok cfg s e) -> batch_ok s l ub ->
  Inv s a (compute ub mem) /\ forall e, e ∈ l -> computed_entry F cfg s (compute ub mem) e.
Proof.
  intros HI HR Hnd Hl Hb. pose proof (kr_bs_pos _ _ (i_kv _ _ _ _ _ _ HI)) as Hbs. fold (s_bs s) in Hbs.
  assert (Hrow : forall r x i c, r ∈ live s -> heap s !! r = Some x -> 0 <= i < num_computed_tokens x ->
    cell (s_bs s) (block_ids (kv x)) i = Some c -> compute ub mem c = kv_ref F (tokens x ++ spec_tokens x) i).
  { intros r x i c Hr Hx Hi Hc. destruct (inv_get _ _ _ _ _ _ _ HI Hr) as (y & ? & Hy & _ & Hok & _ & _ & Hrows & _).
    simplify_eq. pose proof (rk_table _ _ _ _ Hok). destruct (cell_of_ok (s_bs s) x i Hbs) as [_ Hcz]; [lia |].
    rewrite Hcz in Hc. injection Hc as <-. rewrite (compute_old s a mem l ub r x i) by done. by apply Hrows. }
  split.
  - destruct HI as [I1 I2 I3 I4 I5]. split; try done.
    + intros r Hr. destruct (I3 r Hr) as (x & Hx & Hok & Hs & Hw & _ & Hex). exists x. split_and!; try done.
      intros i c Hi Hc. by eapply Hrow.
    + intros b h toks Hca. destruct (I5 b h toks Hca) as (pre & salt & k & H1 & H2 & H3 & H4 & H5).
      exists pre, salt, k. split_and!; try done. intros j Hj. rewrite <- H5 by done.
      eapply compute_keep; eauto; [by split |]. intros it Hit Hc.
      apply list_elem_of_lookup in Hit as [n Hit]. destruct (items_index _ _ _ _ Hit) as (_ & _ & He & Hx' & Hp).
      destruct (entry_facts s a mem _ _ ltac:(by split) (Hl _ He) Hx') as (Hr' & Hc0 & Ht & _).
      eapply (slot_uncached s a mem); eauto; [by split | exact (ready_entry s _ _ HR (Hl _ He) Hx') | lia].
  - intros e He. destruct (Hl e He) as (Hr & x & Hx & Hent). split; [done |]. exists x. split_and!; try done.
    destruct (entry_facts _ _ _ _ _ HI (Hl _ He) Hx) as (Hlive & Hc0 & Ht & Htok). fold (n_ctx_of e x).
    assert (Hall : forall n : nat, forall i, 0 <= i < Z.of_nat n -> i < n_ctx_of e x ->
      compute ub mem (cellz (s_bs s) x i) = kv_ref F (tokens x ++ spec_tokens x) i).
    { induction n as [| n IH]; intros i Hi Hctx; [lia |].
      destruct (cell_of_ok (s_bs s) x i Hbs) as [_ Hcz]; [lia |].
      destruct (decide (i < num_computed_tokens x)) as [Hlt | Hge]; [by eapply Hrow; eauto; lia |].
      destruct (item_exists 0 (with_reqs s l) e x i) as (k & it & Hk & <- & <- & <-);
        [by apply elem_of_with_reqs | lia |].
      assert (Hv : vlookup (items 0 (with_reqs s l)) (Z.of_nat k) = Some it)
        by (unfold vlookup; rewrite Nat2Z.id, (proj2 (Z.leb_le 0 (Z.of_nat k))) by lia; done).
      rewrite (compute_row ub mem (Z.of_nat k) _ (tokz (it_req it) (it_pos it)) (it_pos it)).
      - rewrite (visible_spec s a mem l ub (Z.of_nat k) it HI Hl Hb Hv).
        unfold kv_ref. rewrite kv_rows_refs, Z2Nat.id by lia. f_equal. rewrite <- list_fmap_compose.
        apply list_fmap_ext. intros j y Hy. apply list_elem_of_lookup_2, elem_of_zrange in Hy. apply IH; lia.
      - by eapply batch_wf.
      - destruct Hb as (_ & _ & _ & -> & _). by rewrite (vlookup_fmap _ _ _ _ Hv).
      - destruct Hb as (-> & _). by rewrite (vlookup_fmap _ _ _ _ Hv).
      - destruct Hb as (_ & -> & _). by rewrite (vlookup_fmap _ _ _ _ Hv). }
    intros i c Hi Hc. destruct (cell_of_ok (s_bs s) x i Hbs) as [_ Hcz]; [lia |]. rewrite Hcz in Hc. injection Hc as <-.
    apply (Hall (S (Z.to_nat i))); lia.
Qed.
End consistency.
