(* ===== verification/SchedProps.v ===== *)
(** * Properties of the scheduler and of a computation step

    The claims of this file are about [schedule], the queue operations and the pipeline
    schedule, build_batch, forward pass, update_after_step of one engine step. *)

From S2P Require Import Prelude BlockPool FreeList PoolSpec PoolRefine KVCache KVFacts CacheProps Request Scheduler Batch SchedOps SchedAlloc SchedRun SchedStep BatchFacts Consistency.

(** ** The empty scheduler *)
Section init.
Context {P : Type} `{PO : PoolOps P} `{PS : !PoolSpec P}.
Context {KV : Type} (F : Z -> Z -> list KV -> KV) (U : list Z -> Z -> Prop) (cfg : SchedulerConfig).
Lemma inv_init h (k : PagedKVCache P) a mem :
  kv_rep k a -> refs_ok a [] -> a_cache a = ∅ -> Inv F U cfg (mkSched h k [] [] 0) a mem.
Proof.
  intros Hk Hr Hc. split; simpl; try done; [constructor | |].
  - intros r Hin. by apply not_elem_of_nil in Hin.
  - intros b h' toks. by rewrite Hc.
Qed.
End init.

(** ** The pipeline of one step *)
Section step.
Context {P : Type} `{PO : PoolOps P}.
Context {KV : Type} (F : Z -> Z -> list KV -> KV) `{FW : !Forward F}.

(** schedule, lay out the batch, run the forward pass on the cache, advance the requests *)
Definition compute_step (cfg : SchedulerConfig) (gather : bool) (s : Sched P) (mem : Z -> KV)
  : res (SchedulerOutput * Sched P * (Z -> KV)) :=
  let! (o, s) := schedule cfg s in
  let! (o, ub, _) := build_batch gather o s in
  let! s := update_after_step o s in
  Ok (o, s, compute ub mem).
End step.

Section claims.
Context {P : Type} `{PO : PoolOps P} `{PS : !PoolSpec P}.
Context {KV : Type} (F : Z -> Z -> list KV -> KV) `{FW : !Forward F} (U : list Z -> Z -> Prop) (cfg : SchedulerConfig).

(** the pipeline, with what later proofs use of it *)
Lemma compute_step_run gather (s : Sched P) a mem :
  Inv F U cfg s a mem -> Ready s -> cfg_ok cfg (s_bs s) -> collision_free U (s_bs s) ->
  exists o o' s1 a1 s' a' ub b, schedule cfg s = Ok (o, s1) /\ build_batch gather o s1 = Ok (o', ub, b)
    /\ update_after_step o' s1 = Ok s' /\ Inv F U cfg s1 a1 mem /\ Ready s1 /\ Inv F U cfg s' a' (compute ub mem)
    /\ s_bs s1 = s_bs s /\ s_bs s' = s_bs s /\ scheduled o' ≡ₚ scheduled o /\ live s1 ≡ₚ live s
    /\ core <$> heap s1 = core <$> heap s
    /\ (exists budget, out_ok cfg s1 o budget) /\ batch_ok s1 (scheduled o') ub
    /\ built (s_bs s1) (with_reqs s1 (scheduled o')) 0 empty_build b
    /\ running_ s' = running_ s1 /\ waiting_ s' = waiting_ s1
    /\ (forall c, c ∉ s_req <$> scheduled o' -> heap s' !! c = heap s1 !! c)
    /\ (forall e, e ∈ scheduled o' -> exists x hs st, heap s1 !! s_req e = Some x /\ block_ids st = block_ids (kv x)
          /\ heap s' !! s_req e = Some (advanced (n_new_tokens e) hs st x)).
Proof.
  intros HI HR Hcfg Hcf.
  destruct (schedule_run F U cfg s a mem HI HR Hcfg Hcf)
    as (o & s1 & a1 & adm & Hs & HI1 & HR1 & Hb1 & Hl1 & Hcore & (bud & Hout) & _).
  assert (Hcfg1 : cfg_ok cfg (s_bs s1)) by by rewrite Hb1.
  destruct (build_batch_run F U cfg s1 a1 mem gather o HI1 Hcfg1 (oo_entry _ _ _ _ Hout))
    as (o' & ub & b & Hbb & Hp & _ & _ & _ & Hbt & E1 & E2 & E3 & E4 & E5 & _).
  assert (Hent : forall e, e ∈ scheduled o' -> entry_ok cfg s1 e) by (intros e He; apply (oo_entry _ _ _ _ Hout); by rewrite <- Hp).
  assert (Hnd : NoDup (s_req <$> scheduled o')) by (rewrite Hp; apply Hout).
  assert (Hbok : batch_ok s1 (scheduled o') ub).
  { unfold batch_ok. rewrite E1, E2, E3, E4, E5. destruct Hbt. simpl in *. done. }
  destruct (compute_inv F U cfg s1 a1 mem (scheduled o') ub HI1 HR1 Hnd Hent Hbok) as [HI2 Hce].
  destruct (update_all_run F U cfg (scheduled o') s1 a1 (compute ub mem) HI2 Hcfg1 Hnd Hce)
    as (s' & a' & Hu & HI' & Hb' & Hr' & Hw' & Hk & He).
  exists o, o', s1, a1, s', a', ub, b. split_and!; try done; [congruence | by exists bud].
Qed.

(** C4: One step of the pipeline never fails and keeps the K/V invariant: after it, every computed
    token of every request has in its cell the row it would get if its sequence ran alone, through
    any mix of paging, prefix-cache hits, sharing, preemption and draft tokens.  It holds from every state that
    satisfies the invariant and is ready for a step, under a configuration with positive limits, and as long as no two
    different prefixes in use have the same chained hash (collision_free: the cache does not verify prefixes,
    see hit_under_another_prefix).  The scheduled requests advanced, none beyond its real and draft tokens. *)
Theorem step_keeps_kv_consistent gather (s : Sched P) a mem :
  Inv F U cfg s a mem -> Ready s -> cfg_ok cfg (s_bs s) -> collision_free U (s_bs s) ->
  exists o s' a' mem', compute_step F cfg gather s mem = Ok (o, s', mem')
    /\ Inv F U cfg s' a' mem' /\ live s' ≡ₚ live s
    /\ (forall e, e ∈ scheduled o -> exists x, heap s' !! s_req e = Some x
          /\ n_new_tokens e <= num_computed_tokens x <= Zlen (tokens x) + n_spec e
          /\ rows_ok F (s_bs s') mem' x).
Proof.
  intros HI HR Hcfg Hcf. destruct (compute_step_run gather s a mem HI HR Hcfg Hcf)
    as (o & o' & s1 & a1 & s' & a' & ub & b & Hs & Hb & Hu & HI1 & HR1 & HI' & Hb1 & Hb' & Hp & Hl & _ & (bud & Hout) & _ & _ & Hr' & Hw' & _ & He).
  exists o', s', a', (compute ub mem). unfold compute_step. rewrite Hs. cbn [rbind]. rewrite Hb. cbn [rbind]. rewrite Hu.
  split; [done |]. split; [done |]. split; [unfold live; by rewrite Hr', Hw' |].
  intros e Hin. destruct (He e Hin) as (x & hs & st & Hx & Hst & Hx'). eexists. split; [exact Hx' |].
  assert (Hent : entry_ok cfg s1 e) by (apply (oo_entry _ _ _ _ Hout); by rewrite <- Hp).
  destruct Hent as (Hrun & y & Hy & E1 & E2 & E3 & _). simplify_eq.
  destruct (inv_get _ _ _ _ _ _ _ HI1 (live_running _ _ Hrun)) as (y & ? & Hy' & _ & Hok & _). simplify_eq.
  pose proof (rk_computed _ _ _ _ Hok). split; [simpl; lia |].
  destruct (inv_get F U cfg s' a' (compute ub mem) (s_req e) HI') as (z & ? & Hz & _ & _ & _ & _ & Hrows & _);
    [apply live_running; by rewrite Hr' |]. by simplify_eq.
Qed.

(** C5: schedule never fails and returns a batch within its limits: the token counts add up to
    total_tokens and stay within max_num_batched_tokens, no request is scheduled twice, no
    preempted request is scheduled, at most max_num_seqs requests are admitted to run, nothing is
    admitted in a step that preempts, and victims leave the running queue from its end.  The
    invariant holds afterwards and only fields the scheduler owns have changed. *)
Theorem schedule_within_limits (s : Sched P) a mem :
  Inv F U cfg s a mem -> Ready s -> cfg_ok cfg (s_bs s) -> collision_free U (s_bs s) ->
  exists o s' a' adm, schedule cfg s = Ok (o, s') /\ Inv F U cfg s' a' mem /\ Ready s'
    /\ total_tokens o = sum_new (scheduled o) /\ total_tokens o <= max_num_batched_tokens cfg
    /\ NoDup (s_req <$> scheduled o) /\ (forall e, e ∈ scheduled o -> entry_ok cfg s' e /\ s_req e ∉ preempted o)
    /\ Zlen (running_ s') <= Z.max (Zlen (running_ s)) (max_num_seqs cfg)
    /\ running_ s ++ adm = running_ s' ++ rev (preempted o) /\ (preempted o = [] \/ adm = [])
    /\ preempted o ++ waiting_ s ≡ₚ adm ++ waiting_ s'
    /\ core <$> heap s' = core <$> heap s.
Proof.
  intros HI HR Hcfg Hcf. destruct (schedule_run F U cfg s a mem HI HR Hcfg Hcf)
    as (o & s1 & a1 & adm & Hs & HI1 & HR1 & Hb1 & Hl1 & Hcore & (bud & [O1 O2 O3 O4 O5]) & Hrun & Hor & Hw & Hseq & _).
  exists o, s1, a1, adm. split_and!; try done; [lia |]. intros e He. split; [by apply O1 |]. intros Hp.
  destruct (O1 e He) as [Hr _]. destruct Hor as [E | E]; [rewrite E in Hp; by apply not_elem_of_nil in Hp |].
  pose proof (i_nodup _ _ _ _ _ _ HI) as Hnd. unfold live in Hnd. apply NoDup_app in Hnd as (Hnd & _).
  rewrite E, app_nil_r in Hrun. rewrite Hrun in Hnd. apply NoDup_app in Hnd as (_ & Hd & _). apply (Hd _ Hr).
  by rewrite <- Permutation_rev.
Qed.

(** C6: With a positive token budget, and under the conditions of the K/V invariant, a step with an empty batch
    in which nobody was preempted means that no running request had anything left to compute, and leaves the
    queues as they were: schedule does not idle while a running request has uncomputed tokens, except
    to preempt (the only running request may preempt itself). *)
Theorem schedule_does_not_idle (s : Sched P) a mem o s' :
  Inv F U cfg s a mem -> Ready s -> cfg_ok cfg (s_bs s) -> collision_free U (s_bs s) ->
  0 < max_num_batched_tokens cfg -> schedule cfg s = Ok (o, s') -> scheduled o = [] -> preempted o = [] ->
  running_ s' = running_ s /\ waiting_ s' ≡ₚ waiting_ s
  /\ forall r x, r ∈ running_ s -> heap s !! r = Some x -> num_computed_tokens x = Zlen (tokens x).
Proof.
  intros HI HR Hcfg Hcf Hb Hs Eo Ep. destruct (schedule_run F U cfg s a mem HI HR Hcfg Hcf)
    as (o1 & s1 & a1 & adm & Hs1 & _ & _ & _ & _ & _ & _ & Hrun & _ & Hw & _ & Hidle).
  rewrite Hs in Hs1. injection Hs1 as <- <-.
  destruct (Hidle Eo Ep Hb) as [-> Hall]. rewrite Ep in Hrun, Hw. simpl in *. rewrite !app_nil_r in Hrun.
  split_and!; done.
Qed.

(** finish_request on a live request returns all its blocks, removes it from its queue and
    destroys it, and leaves every other request and every cached block as they were. *)
Theorem finish_request_releases (s : Sched P) a mem r st :
  Inv F U cfg s a mem -> r ∈ live s ->
  exists s' a', finish_request r st s = Ok s' /\ Inv F U cfg s' a' mem
    /\ heap s' = delete r (heap s) /\ r ∉ live s' /\ live s ≡ₚ r :: live s' /\ a_cache a' = a_cache a.
Proof.
  intros HI Hr. destruct (finish_request_inv F U cfg s a mem r st HI Hr) as (s' & a' & Hf & HI' & _ & Hh & Hc & Hq).
  assert (Hl : live s ≡ₚ r :: live s').
  { unfold live. destruct Hq as [(H1 & -> & ->) | (H1 & -> & ->)].
    - by rewrite (erase_perm r (running_ s)) at 1.
    - assert (H2 : r ∈ waiting_ s) by (unfold live in Hr; set_solver).
      rewrite (erase_perm r (waiting_ s)) at 1 by done. by rewrite Permutation_middle. }
  exists s', a'. split_and!; try done. pose proof (i_nodup _ _ _ _ _ _ HI) as Hnd. rewrite Hl in Hnd.
  by apply NoDup_cons in Hnd as [? _].
Qed.

(** preempt gives the blocks of a running request back, resets its computed tokens and
    queues it again: at the head of the waiting queue under FCFS. *)
Theorem preempt_requeues (s : Sched P) a mem r :
  Inv F U cfg s a mem -> r ∈ running_ s ->
  exists s' a' x, preempt cfg r s = Ok s' /\ Inv F U cfg s' a' mem /\ heap s !! r = Some x
    /\ heap s' !! r = Some (preempted_req x) /\ running_ s' = erase r (running_ s)
    /\ waiting_ s' ≡ₚ r :: waiting_ s /\ (policy cfg = FCFS -> waiting_ s' = r :: waiting_ s)
    /\ n_preemptions_ s' = u64 (n_preemptions_ s + 1).
Proof.
  intros HI Hr. destruct (preempt_inv F U cfg s a mem r HI Hr) as (s' & a' & x & Hp & HI' & _ & Hx & Hh & Hrun & Hw & Hf & Hn).
  exists s', a', x. split_and!; try done. by rewrite Hh, lookup_insert_eq.
Qed.
End claims.

(** ** A concrete scheduler: one request of three tokens, blocks of two *)
Definition from_ok {A} (d : A) (r : res A) : A := match r with Ok a => a | Err _ => d end.
Definition demoF (tok pos : Z) (rows : list Z) : Z := tok + 10 * pos + foldr Z.add 0 rows.
Definition demoU (pre : list Z) (salt : Z) : Prop := pre `prefix_of` [1; 2; 3] /\ salt = 0.
Definition demo_scfg : SchedulerConfig := mkSchedCfg 4 8 64 0 true FCFS.
Definition one_f : spec_float := S754_finite false 8388608 (-23).
Definition demo_params : SamplingParams :=
  mkParams 1 one_f one_f 0 (S754_zero false) (S754_zero false) (S754_zero false) one_f (-1) None 16 0 false [] [] false true (-1) false [] [] [] false [] [] [].
Definition demo_req : Request :=
  mkRequest 1 0 0 0 demo_params [1; 2; 3] 3 WAITING NONE [] 0 0 0 empty_kvs [] false false 0 [] empty_kvs 0 0
    [] [] 0 0 [] [] 1.
Definition demo_kvc : PagedKVCache BlockPool :=
  from_ok (mkKV 0 0 false (mkPool [] [] [] 0 0 0 0 false (mkStats 0 0 0))) (new_kv demo_cfg).
Definition demo_sched : Sched BlockPool := mkSched {[1 := demo_req]} demo_kvc [1] [] 0.
Definition demo_running : Sched BlockPool := (from_ok (mkSOut [] [] 0, demo_sched) (schedule demo_scfg demo_sched)).2.
Definition demo_mem : Z -> Z := fun _ => 0.

Lemma demo_collision_free : collision_free demoU 2.
Proof.
  intros pre pre' salt salt' k k' h [Hp _] [Hp' _] Hl Hl' _ _ _.
  assert (Hk : forall q n, q `prefix_of` [1; 2; 3] -> length q = (S n * Z.to_nat 2)%nat -> q = [1; 2]).
  { intros q n Hq Hn. apply prefix_length in Hq as Hlen. change (Z.to_nat 2) with 2%nat in Hn.
    assert (length q = 2)%nat as H2 by (simpl in Hlen; lia). destruct Hq as [r Hr].
    destruct q as [| a [| b [| c q]]]; try done. by simplify_eq/=. }
  by rewrite (Hk pre k), (Hk pre' k').
Qed.
Lemma demo_cfg_ok : cfg_ok demo_scfg 2.
Proof. split; by vm_compute. Qed.

Lemma demo_inv : exists a, Inv demoF demoU demo_scfg demo_sched a demo_mem.
Proof.
  destruct demo_kv as (kv & Hk & HR & Hbs). assert (demo_kvc = kv) as E by (unfold demo_kvc; by rewrite Hk).
  exists (a_new 3 2 true).
  apply (inv_add demoF demoU demo_scfg (mkSched ∅ kv [] [] 0) (a_new 3 2 true) demo_mem 1 demo_sched demo_req); try done.
  - apply inv_init; [done | apply a_new_refs | done].
  - intros H. by apply not_elem_of_nil in H.
  - intros c Hc Hin. by apply list_elem_of_singleton in Hin.
  - unfold s_bs. simpl. rewrite Hbs. split; simpl; try (by vm_compute); [apply prefix_nil |].
    intros n. split; [| done]. apply prefix_take.
  - split; simpl; auto.
Qed.
Lemma demo_ready : Ready demo_sched.
Proof. intros r x _ Hx. unfold demo_sched in Hx. simpl in Hx. apply lookup_singleton_Some in Hx as [_ <-]. split; by vm_compute. Qed.
Lemma demo_bs : s_bs demo_sched = 2.
Proof. by vm_compute. Qed.

(** the state after one schedule: the request runs *)
Lemma demo_running_inv : exists a, Inv demoF demoU demo_scfg demo_running a demo_mem.
Proof.
  destruct demo_inv as [a HI].
  destruct (schedule_run demoF demoU demo_scfg demo_sched a demo_mem HI demo_ready) as (o & s' & a' & adm & Hs & HI' & _);
    [rewrite demo_bs; apply demo_cfg_ok | rewrite demo_bs; apply demo_collision_free |].
  exists a'. unfold demo_running. by rewrite Hs.
Qed.
Lemma demo_runs : running_ demo_running = [1] /\ waiting_ demo_running = [].
Proof. by vm_compute. Qed.

Lemma step_keeps_kv_consistent_witness :
  exists o s' a' mem', compute_step demoF demo_scfg true demo_sched demo_mem = Ok (o, s', mem')
    /\ Inv demoF demoU demo_scfg s' a' mem' /\ live s' ≡ₚ live demo_sched
    /\ (forall e, e ∈ scheduled o -> exists x, heap s' !! s_req e = Some x
          /\ n_new_tokens e <= num_computed_tokens x <= Zlen (tokens x) + n_spec e
          /\ rows_ok demoF (s_bs s') mem' x).
Proof.
  destruct demo_inv as [a HI]. apply (step_keeps_kv_consistent demoF demoU demo_scfg true demo_sched a demo_mem HI demo_ready);
    rewrite demo_bs; [apply demo_cfg_ok | apply demo_collision_free].
Defined.

Lemma schedule_within_limits_witness :
  exists o s' a' adm, schedule demo_scfg demo_sched = Ok (o, s') /\ Inv demoF demoU demo_scfg s' a' demo_mem /\ Ready s'
    /\ total_tokens o = sum_new (scheduled o) /\ total_tokens o <= max_num_batched_tokens demo_scfg
    /\ NoDup (s_req <$> scheduled o) /\ (forall e, e ∈ scheduled o -> entry_ok demo_scfg s' e /\ s_req e ∉ preempted o)
    /\ Zlen (running_ s') <= Z.max (Zlen (running_ demo_sched)) (max_num_seqs demo_scfg)
    /\ running_ demo_sched ++ adm = running_ s' ++ rev (preempted o) /\ (preempted o = [] \/ adm = [])
    /\ preempted o ++ waiting_ demo_sched ≡ₚ adm ++ waiting_ s'
    /\ core <$> heap s' = core <$> heap demo_sched.
Proof.
  destruct demo_inv as [a HI]. apply (schedule_within_limits demoF demoU demo_scfg demo_sched a demo_mem HI demo_ready);
    rewrite demo_bs; [apply demo_cfg_ok | apply demo_collision_free].
Defined.

(** after the step everything is computed: the next schedule has nothing to do *)
Definition demo_done : Sched BlockPool :=
  (from_ok (mkSOut [] [] 0, demo_sched, demo_mem) (compute_step demoF demo_scfg false demo_sched demo_mem)).1.2.
Lemma demo_done_inv : exists a mem, Inv demoF demoU demo_scfg demo_done a mem.
Proof.
  destruct demo_inv as [a HI].
  destruct (compute_step_run demoF demoU demo_scfg false demo_sched a demo_mem HI demo_ready)
    as (o & o' & s1 & a1 & s' & a' & ub & b & Hs & Hb & Hu & _ & _ & HI' & _);
    [rewrite demo_bs; apply demo_cfg_ok | rewrite demo_bs; apply demo_collision_free |].
  eexists a', _. unfold demo_done, compute_step. rewrite Hs. cbn [rbind]. rewrite Hb. cbn [rbind]. by rewrite Hu.
Qed.
Lemma demo_done_ready : Ready demo_done.
Proof.
  assert (E : heap demo_done = {[1 := default demo_req (heap demo_done !! 1)]}) by by vm_compute.
  intros r x _ Hx. rewrite E in Hx.
  apply lookup_singleton_Some in Hx as [_ <-]. split; by vm_compute.
Qed.
Definition demo_idle : SchedulerOutput * Sched BlockPool := from_ok (mkSOut [] [] 0, demo_done) (schedule demo_scfg demo_done).
Lemma schedule_does_not_idle_witness :
  running_ demo_idle.2 = running_ demo_done /\ waiting_ demo_idle.2 ≡ₚ waiting_ demo_done
  /\ forall r x, r ∈ running_ demo_done -> heap demo_done !! r = Some x -> num_computed_tokens x = Zlen (tokens x).
Proof.
  destruct demo_done_inv as (a & mem & HI). assert (Hb : s_bs demo_done = 2) by by vm_compute.
  apply (schedule_does_not_idle demoF demoU demo_scfg demo_done a mem demo_idle.1 demo_idle.2 HI demo_done_ready);
    [rewrite Hb; apply demo_cfg_ok | rewrite Hb; apply demo_collision_free | by vm_compute..].
Defined.

Lemma finish_request_releases_witness :
  exists s' a a', finish_request 1 FINISHED_STOPPED demo_running = Ok s' /\ Inv demoF demoU demo_scfg s' a' demo_mem
    /\ heap s' = delete 1 (heap demo_running) /\ 1 ∉ live s' /\ live demo_running ≡ₚ 1 :: live s' /\ a_cache a' = a_cache a.
Proof.
  destruct demo_running_inv as [a HI].
  destruct (finish_request_releases demoF demoU demo_scfg demo_running a demo_mem 1 FINISHED_STOPPED HI) as (s' & a' & ?);
    [unfold live; rewrite (proj1 demo_runs); set_solver | by exists s', a, a'].
Defined.

Lemma preempt_requeues_witness :
  exists s' a' x, preempt demo_scfg 1 demo_running = Ok s' /\ Inv demoF demoU demo_scfg s' a' demo_mem
    /\ heap demo_running !! 1 = Some x /\ heap s' !! 1 = Some (preempted_req x) /\ running_ s' = erase 1 (running_ demo_running)
    /\ waiting_ s' ≡ₚ 1 :: waiting_ demo_running /\ (policy demo_scfg = FCFS -> waiting_ s' = 1 :: waiting_ demo_running)
    /\ n_preemptions_ s' = u64 (n_preemptions_ demo_running + 1).
Proof.
  destruct demo_running_inv as [a HI].
  apply (preempt_requeues demoF demoU demo_scfg demo_running a demo_mem 1 HI). rewrite (proj1 demo_runs). set_solver.
Defined.

(** ** Priority order *)

(** Under the PRIORITY policy add_request inserts at the place its binary search finds and
    keeps the waiting queue ordered by (priority, arrival), after every request of the same key. *)
Theorem add_request_keeps_priority_order {P} `{PO : PoolOps P} cfg (s : Sched P) r x s' :
  policy cfg = PRIORITY -> heap s !! r = Some x -> in_heap s (waiting_ s) -> r ∉ waiting_ s ->
  prio_ordered (heap s) (waiting_ s) -> add_request cfg r s = Ok s' -> prio_ordered (heap s') (waiting_ s').
Proof. apply add_request_ordered. Qed.

Definition prio_req (p arr : Z) : Request :=
  mkRequest 1 p arr 0 demo_params [1; 2; 3] 3 WAITING NONE [] 0 0 0 empty_kvs [] false false 0 [] empty_kvs 0 0
    [] [] 0 0 [] [] 1.
Definition prio_cfg : SchedulerConfig := mkSchedCfg 4 8 64 0 true PRIORITY.
Definition prio_sched : Sched BlockPool :=
  mkSched {[1 := prio_req 0 5; 2 := prio_req 2 1; 3 := prio_req 2 9; 4 := prio_req 2 4]} demo_kvc [1; 2; 3] [] 0.
Definition prio_added : Sched BlockPool := from_ok prio_sched (add_request prio_cfg 4 prio_sched).
Lemma add_request_keeps_priority_order_witness :
  waiting_ prio_added = [1; 2; 4; 3] /\ prio_ordered (heap prio_added) (waiting_ prio_added).
Proof.
  split; [by vm_compute |].
  apply (add_request_keeps_priority_order prio_cfg prio_sched 4 (prio_req 2 4)); try by vm_compute.
  - intros r Hr. repeat (apply elem_of_cons in Hr as [-> | Hr]); [by vm_compute; eexists.. | by apply not_elem_of_nil in Hr].
  - unfold prio_sched. simpl. intros Hr. repeat (apply elem_of_cons in Hr as [? | Hr]; [done |]). by apply not_elem_of_nil in Hr.
  - intros i j c d y z Hij Hi Hj Hc Hd.
    destruct i as [| [| [| i]]], j as [| [| [| j]]]; try lia; simpl in Hi, Hj; simplify_eq;
      vm_compute in Hc, Hd; simplify_eq; by vm_compute.
Defined.
