(* ===== verification/AttnProps.v ===== *)
(** * Properties of the attention inputs of a step

    The batches the engine builds fit the attention code: the gathered groups cover every token
    once and in order, and the masked window, the paged kernel and the gathered groups let a token
    read the same cells. *)

From S2P Require Import Prelude BlockPool FreeList PoolSpec PoolRefine KVCache KVFacts CacheProps Request Scheduler Batch Attention AttnFacts SchedOps SchedAlloc SchedRun SchedStep BatchFacts Consistency SchedProps.

Lemma vlookup_fmap_inv {A B} (f : A -> B) (l : list A) i y :
  vlookup (f <$> l) i = Some y -> exists x, vlookup l i = Some x /\ y = f x.
Proof. unfold vlookup. case_match; [| done]. rewrite list_lookup_fmap. destruct (l !! _); naive_solver. Qed.

Section built_batch.
Context {P : Type} `{PO : PoolOps P} `{PS : !PoolSpec P}.
Context {KV : Type} (F : Z -> Z -> list KV -> KV) (U : list Z -> Z -> Prop) (cfg : SchedulerConfig).
Implicit Types s : Sched P.

(** token counts of the scheduled entries *)
Definition counts (l : list ScheduledRequest) : list Z := n_new_tokens <$> l.

Lemma items_expand si s l :
  (forall e, e ∈ l -> is_Some (heap s !! s_req e)) -> it_seq <$> items si (with_reqs s l) = expand si (counts l).
Proof.
  revert si. induction l as [| e l IH]; intros si Hl; [done |]. unfold with_reqs. simpl.
  destruct (Hl e ltac:(set_solver)) as [x ->]. simpl. rewrite fmap_app. f_equal; [| apply IH; set_solver].
  unfold items_of. simpl. rewrite <- list_fmap_compose. unfold compose. simpl.
  unfold zrange, n_ctx_of. rewrite <- list_fmap_compose. unfold compose.
  replace (num_computed_tokens x + n_new_tokens e - num_computed_tokens x) with (n_new_tokens e) by lia.
  generalize (seq 0 (Z.to_nat (n_new_tokens e))) (length_seq (Z.to_nat (n_new_tokens e)) 0). intros k <-.
  by induction k; simpl; f_equal.
Qed.

Lemma total_sum l : total (counts l) = sum_new l.
Proof. induction l; simpl; [done | by f_equal]. Qed.
Lemma sum_new_perm l k : l ≡ₚ k -> sum_new l = sum_new k.
Proof. induction 1; simpl; lia. Qed.
Lemma expand_length m ns : (forall n, n ∈ ns -> 0 < n) -> Zlen (expand m ns) = total ns.
Proof.
  revert m. induction ns as [| n ns IH]; intros m H; [done |]. simpl. rewrite Zlen_app, IH by set_solver.
  unfold Zlen. rewrite length_replicate. pose proof (H n ltac:(set_solver)). lia.
Qed.

(** what [build_batch] hands to the attention code *)
Record attn_ready s (o : SchedulerOutput) (ub : UBatch) : Prop := {
  ar_ok : ub_ok ub;
  ar_idx : ub_seq_idx ub = expand 0 (counts (scheduled o));
  ar_n : ub_n_tokens ub = total (counts (scheduled o));
  ar_pos : forall n, n ∈ counts (scheduled o) -> 0 < n;
  ar_seqs : ub_seqs ub = seq_of (s_bs s) <$> with_reqs s (scheduled o);
  ar_len : length (ub_seqs ub) = length (counts (scheduled o));
  ar_cells : forall q, q ∈ ub_seqs ub -> cells q <> [] /\ Zlen (cells q) + 255 < 2 ^ 32;
  ar_small : total (counts (scheduled o)) < 2 ^ 32 - 1;
  ar_batch : batch_ok s (scheduled o) ub
}.

Lemma build_attn_ready s a mem gather o bud :
  Inv F U cfg s a mem -> cfg_ok cfg (s_bs s) -> out_ok cfg s o bud ->
  exists o' ub b, build_batch gather o s = Ok (o', ub, b) /\ attn_ready s o' ub.
Proof.
  intros HI Hcfg Hout.
  destruct (build_batch_run F U cfg s a mem gather o HI Hcfg (oo_entry _ _ _ _ Hout))
    as (o' & ub & b & Hbb & Hp & _ & Ht & Hn & Hbt & E1 & E2 & E3 & E4 & E5 & Hw). exists o', ub, b. split; [done |].
  assert (Hent : forall e, e ∈ scheduled o' -> entry_ok cfg s e) by (intros e He; apply (oo_entry _ _ _ _ Hout); by rewrite <- Hp).
  assert (Hheap : forall e, e ∈ scheduled o' -> is_Some (heap s !! s_req e)) by (intros e He; destruct (Hent e He) as (_ & x & -> & _); eauto).
  destruct Hbt as [B1 B2 B3 B4 B5 _ _ _ _]. simpl in B1, B2, B3, B4, B5.
  assert (Hbok : batch_ok s (scheduled o') ub) by (unfold batch_ok; by rewrite E1, E2, E3, E4, E5).
  assert (Hpos : forall n, n ∈ counts (scheduled o') -> 0 < n).
  { intros n (e & -> & He)%list_elem_of_fmap. destruct (Hent e He) as (_ & x & _ & ?). unfold entry_req in *. lia. }
  assert (Hidx : ub_seq_idx ub = expand 0 (counts (scheduled o'))) by (rewrite E3, B3; by apply items_expand).
  assert (Htot : ub_n_tokens ub = total (counts (scheduled o'))).
  { rewrite Hn, (oo_total _ _ _ _ Hout), total_sum. symmetry. by apply sum_new_perm. }
  assert (Hq : forall q, q ∈ ub_seqs ub -> exists e x, e ∈ scheduled o' /\ heap s !! s_req e = Some x /\ q = seq_of (s_bs s) (e, x)).
  { intros q. rewrite E5, B5. intros ([e x] & -> & [? ?]%elem_of_with_reqs)%list_elem_of_fmap. eauto 6. }
  assert (Hlen : length (ub_seqs ub) = length (counts (scheduled o'))).
  { rewrite E5, B5, length_fmap. unfold counts. rewrite length_fmap.
    rewrite <- (with_reqs_fst s (scheduled o') Hheap) at 2. by rewrite length_fmap. }
  pose proof (oo_budget _ _ _ _ Hout) as Hbud. pose proof (oo_range _ _ _ _ Hout). destruct Hcfg as [C1 C2 C3].
  pose proof (kr_bs_pos _ _ (i_kv _ _ _ _ _ _ HI)) as Hbs. fold (s_bs s) in Hbs.
  split; try done.
  - split.
    + rewrite Htot, <- (expand_length 0) by done. rewrite <- Hidx, E3, E2, B2, B3. unfold Zlen. by rewrite !length_fmap.
    + by rewrite Hidx, Htot, expand_length.
    + intros t k Hk. rewrite E3, B3 in Hk. apply vlookup_fmap_inv in Hk as (it & Hit & ->).
      unfold vlookup in Hit. case_match; [| done]. destruct (items_index _ _ _ _ Hit) as (I1 & I2 & _).
      rewrite E5, B5. unfold vlookup. rewrite (proj2 (Z.leb_le 0 _)) by lia. rewrite list_lookup_fmap, I1. eauto.
    + intros q (e & x & _ & _ & ->)%Hq. simpl. by rewrite length_fmap.
    + intros q c Hin Hc. by apply (Hw q c).
    + unfold build_batch in Hbb. destruct (build_loop _ _ _ _ _) as [b0 |] eqn:Eb in Hbb; cbn [rbind] in Hbb; [| done].
      injection Hbb as _ <- _. simpl. apply Z.min_glb; apply u32_range.
  - by rewrite E5, B5.
  - intros q (e & x & He & Hx & ->)%Hq. destruct (Hent e He) as (Hr & x' & Hx' & He'). simplify_eq. unfold entry_req in He'. simpl.
    destruct (inv_get _ _ _ _ _ _ _ HI (live_running _ _ Hr)) as (y & ? & Hy & _ & Hok & _). simplify_eq.
    pose proof (rk_tokens _ _ _ _ Hok). pose proof (rk_computed _ _ _ _ Hok). unfold n_ctx_of.
    split; [rewrite zrange_cons by lia; done |]. unfold Zlen. rewrite length_fmap, length_zrange. lia.
  - destruct (scheduled o') as [| e l] eqn:El; [simpl; lia |]. destruct (Hent e ltac:(set_solver)) as (Hr & _).
    destruct (inv_get _ _ _ _ _ _ _ HI (live_running _ _ Hr)) as (y & ? & Hy & _ & Hok & _).
    pose proof (rk_tokens _ _ _ _ Hok). rewrite <- Htot, Hn. lia.
Qed.

(** the cells a token may read are those of the positions it may see *)
Lemma attend_positions hp swa p1 (f : Z -> Z) l :
  attend hp swa p1 (f <$> l) l = f <$> List.filter (allowed hp swa p1) l.
Proof. unfold attend. induction l as [| p l IH]; [done |]. simpl. destruct (allowed hp swa p1 p); simpl; [f_equal |]; exact IH. Qed.

(** C7: On every batch the engine builds the three attention paths agree.  The gathered groups
    list the sequences of the batch once and in order; the queries of a group are tokens of the
    batch; and for each of them the gathered row, the paged kernel and the masked window let it
    read exactly the cells of its own request at the positions it may see: none after it where
    attention is causal, none at or beyond the sliding window on the layers that have one. *)
Theorem attention_paths_agree hp il swa s a mem gather o bud :
  Inv F U cfg s a mem -> cfg_ok cfg (s_bs s) -> out_ok cfg s o bud -> layer_swa_masked hp il = Ok swa ->
  exists o' ub b groups, build_batch gather o s = Ok (o', ub, b) /\ attn_groups ub = Ok groups
    /\ concat (g_seqs <$> groups) = zrange 0 (Zlen (ub_seqs ub))
    /\ forall g si t, g ∈ groups -> 0 <= si < g_S g -> 0 <= t < g_T g ->
         let i := g_tok0 g + si * g_T g + t in
         exists it l m, vlookup (items 0 (with_reqs s (scheduled o'))) i = Some it
           /\ l = cellz (s_bs s) (it_req it) <$>
                    List.filter (allowed hp swa (it_pos it)) (zrange 0 (n_ctx_of (it_entry it) (it_req it)))
           /\ gather_cells hp il ub g si t = Ok l /\ paged_cells hp il ub i = Ok l
           /\ masked_cells hp il ub i = Ok m /\ NoDup m /\ (forall c, c ∈ m <-> c ∈ l).
Proof.
  intros HI Hcfg Hout Hswa. destruct (build_attn_ready s a mem gather o bud HI Hcfg Hout) as (o' & ub & b & Hbb & [A1 A2 A3 A4 A5 A6 A7 A8 A9]).
  assert (Hc : forall q, q ∈ ub_seqs ub -> Zlen (cells q) + 255 < 2 ^ 32) by (intros; by apply A7).
  destruct (attn_groups_spec ub (counts (scheduled o')) A4 A6 Hc A8 A2 A3) as (groups & Hg & Hspan & Hcat).
  exists o', ub, b, groups. split; [done |]. split; [done |]. split; [rewrite Hcat; unfold Zlen; by rewrite A6 |].
  intros g si t Hin Hsi Ht i. destruct (Hspan g Hin) as [a0 Hsp].
  destruct (group_token ub (counts (scheduled o')) A4 A6 g a0 si t A2 Hsp Hsi Ht) as [Hidx Hi]. fold i in Hidx, Hi.
  destruct A9 as (_ & B2 & B3 & _ & B5). pose proof Hidx as Hidx'. rewrite B3 in Hidx'.
  apply vlookup_fmap_inv in Hidx' as (it & Hit & Hseq).
  assert (Hp : vlookup (ub_pos ub) i = Some (it_pos it)) by (rewrite B2; by apply vlookup_fmap).
  assert (Hq : vlookup (ub_seqs ub) (a0 + si) = Some (seq_of (s_bs s) (it_entry it, it_req it))).
  { unfold vlookup in Hit. destruct (0 <=? i); [| done]. destruct (items_index _ _ _ _ Hit) as (I1 & I2 & _).
    rewrite B5, Hseq. apply vlookup_fmap. unfold vlookup. by rewrite (proj2 (Z.leb_le 0 _)) by lia. }
  destruct (masked_attend hp il ub i swa A1 ltac:(lia) Hswa) as (m & Hm & Hnd & Hmem).
  pose proof (attend_positions hp swa (it_pos it) (cellz (s_bs s) (it_req it)) (zrange 0 (n_ctx_of (it_entry it) (it_req it)))) as Hatt.
  eexists it, _, m. split; [done |]. split; [reflexivity |]. rewrite <- Hatt. split.
  { apply (gather_attend hp il ub _ g a0 si t swa _ _ A1 Hswa Hsp Hsi Hq); [| done]. apply (A7 _ (vlookup_elem_of _ _ _ Hq)). }
  rewrite layer_swa_agree in Hswa. split; [exact (paged_attend hp il ub i swa _ _ _ A1 Hswa Hidx Hq Hp) |]. split_and!; try done.
  intros c. rewrite Hmem. split.
  - intros (k & q & p & ? & ? & ? & Hcc). by simplify_eq.
  - intros Hcc. by eexists _, _, _.
Qed.
End built_batch.

Definition demo_hp : HParams := mkHP true 2 [true; false] false.
Definition demo_scheduled : SchedulerOutput * Sched BlockPool := from_ok (mkSOut [] [] 0, demo_sched) (schedule demo_scfg demo_sched).

Lemma attention_paths_agree_witness :
  exists o' ub b groups, build_batch true demo_scheduled.1 demo_scheduled.2 = Ok (o', ub, b) /\ attn_groups ub = Ok groups
    /\ concat (g_seqs <$> groups) = zrange 0 (Zlen (ub_seqs ub)) /\ groups <> []
    /\ forall g si t, g ∈ groups -> 0 <= si < g_S g -> 0 <= t < g_T g ->
         let i := g_tok0 g + si * g_T g + t in
         exists l m, gather_cells demo_hp 0 ub g si t = Ok l /\ paged_cells demo_hp 0 ub i = Ok l
           /\ masked_cells demo_hp 0 ub i = Ok m /\ NoDup m /\ (forall c, c ∈ m <-> c ∈ l).
Proof.
  destruct demo_inv as [a HI].
  destruct (schedule_run demoF demoU demo_scfg demo_sched a demo_mem HI demo_ready) as (o & s' & a' & adm & Hs & HI' & _ & Hb & _ & _ & (bud & Hout) & _);
    [rewrite demo_bs; apply demo_cfg_ok | rewrite demo_bs; apply demo_collision_free |].
  assert (E : demo_scheduled = (o, s')) by (unfold demo_scheduled; by rewrite Hs). rewrite E.
  destruct (attention_paths_agree demoF demoU demo_scfg demo_hp 0 true s' a' demo_mem true o bud HI') as (o' & ub & b & groups & Hbb & Hg & Hc & Hall);
    [rewrite Hb, demo_bs; apply demo_cfg_ok | done | done |].
  exists o', ub, b, groups. split; [done |]. split; [done |]. split; [done |]. split.
  - intros ->. assert (Hn : match build_batch true demo_scheduled.1 demo_scheduled.2 with Ok (_, u, _) => bool_decide (ub_seqs u = []) | _ => true end = false) by by vm_compute.
    rewrite E in Hn. simpl in Hn, Hbb. rewrite Hbb in Hn. apply bool_decide_eq_false in Hn. destruct (ub_seqs ub) eqn:Eu; [done |].
    rewrite zrange_cons in Hc by (unfold Zlen; simpl; lia). done.
  - intros g si t Hin Hsi Ht i. destruct (Hall g si t Hin Hsi Ht) as (it & l & m & _ & _ & ?). by exists l, m.
Defined.
