(* ===== verification/EngineSafety.v ===== *)
(** * The engine on concrete runs: a request used after its destruction, and one never served *)

From S2P Require Import Prelude BlockPool FreeList PoolSpec PoolRefine KVCache KVFacts CacheProps Request Sampling Scheduler Batch Attention Draft Detok Engine EngineFacts EngineText EngineProps SchedOps SchedAlloc SchedRun SchedStep BatchFacts Consistency SchedProps.

Definition empty_engine (k : PagedKVCache BlockPool) : Engine BlockPool unit Z Z :=
  mkEngine (mkSched ∅ k [] [] 0) ∅ ∅ [] [] 1 true false None zero_stats.

(** a forward pass that succeeds, and no draft model *)
Definition ok_forward (rows : list (list Z)) : AttnPath -> UBatch -> unit -> option (list (list Z)) * unit := fun _ _ m => (Some rows, m).
Definition no_draft : UBatch -> unit -> option (list (list Z)) * unit := fun _ m => (None, m).

Section Destroyed.
Context {P : Type} `{PO : PoolOps P} {V SS G M : Type} (ops : ModelOps V SS G) (cfg : EngineConfig) (draft_run : UBatch -> M -> option (list (list V)) * M).
Implicit Types e : Engine P M SS G.
Notation at_heap e := (heap (sched_ e)).
(** operations on one request leave the others as they are and in their queues *)
Definition others_kept (r : Z) (s s' : Sched P) : Prop := forall k, k <> r -> heap s' !! k = heap s !! k /\ (k ∈ live s -> k ∈ live s').
Lemma put_kept r x s : others_kept r s (put_req r x s).
Proof. intros k Hk. split; [by apply lookup_insert_ne | done]. Qed.
Lemma others_trans r s1 s2 s3 : others_kept r s1 s2 -> others_kept r s2 s3 -> others_kept r s1 s3.
Proof. intros H1 H2 k Hk. destruct (H1 k Hk) as [E1 L1], (H2 k Hk) as [E2 L2]. split; [congruence | auto]. Qed.
Lemma free_req_kept r s s' : free_req r s = Ok s' -> others_kept r s s' /\ running_ s' = running_ s /\ waiting_ s' = waiting_ s.
Proof.
  unfold free_req. destruct (get_req r s) as [x |]; [cbn [rbind] | done]. destruct (free_kv (kv x) (kvc s)) as [ [st k] |]; [| done]. intros [= <-]. split; [| done]. intros i Hi. split; [by apply lookup_insert_ne | done].
Qed.
Lemma elem_erase (k r : Z) l : k <> r -> k ∈ l -> k ∈ erase r l.
Proof. intros Hk. induction l as [| a l IH]; intros Hin; [done |]. cbn [erase]. apply elem_of_cons in Hin as [<- | Hin]; destruct (Z.eqb_spec a r) as [-> | Ha] || destruct (Z.eqb_spec k r) as [-> | Ha]; try done; [by left | right; by apply IH]. Qed.
Lemma finish_request_kept r st s s' : finish_request r st s = Ok s' -> others_kept r s s' /\ (r ∈ live s -> heap s' !! r = None).
Proof.
  unfold finish_request, upd_req. destruct (get_req r s) as [x |]; [cbn [rbind] | done]. set (s1 := put_req r _ s). destruct (free_req r s1) as [s2 |] eqn:E2; [cbn [rbind] | done]. destruct (free_req_kept r s1 s2 E2) as (K2 & R2 & W2). pose proof (others_trans r s s1 s2 (put_kept r _ s) K2) as K.
  assert (Hd : forall q, (forall k, k <> r -> k ∈ live s2 -> k ∈ live q) -> heap q = heap s2 -> others_kept r s (with_heap (delete r (heap q)) q)).
  { intros q Hq Eh k Hk. destruct (K k Hk) as [E L]. split; [simpl; rewrite Eh; by rewrite lookup_delete_ne by done | intros Hl; by apply Hq, L]. }
  case_bool_decide as B1; [| case_bool_decide as B2]; intros [= <-].
  - split; [| intros _; apply lookup_delete_eq]. apply (Hd (with_running (erase r (running_ s2)) s2)); [| done]. intros k Hk. unfold live. simpl. rewrite !elem_of_app. intros [? | ?]; [left; by apply elem_erase | by right].
  - split; [| intros _; apply lookup_delete_eq]. apply (Hd (with_waiting (erase r (waiting_ s2)) s2)); [| done]. intros k Hk. unfold live. simpl. rewrite !elem_of_app. intros [? | ?]; [by left | right; by apply elem_erase].
  - split; [done |]. intros Hl. exfalso. unfold live in Hl. rewrite R2 in B1. rewrite W2 in B2. apply elem_of_app in Hl as [? | ?]; [by apply B1 | by apply B2].
Qed.
Lemma finish_destroys r st why err e e' x : finish r st why err e = Ok e' -> at_heap e !! r = Some x -> is_finished x = false -> others_kept r (sched_ e) (sched_ e') /\ (r ∈ live (sched_ e) -> at_heap e' !! r = None).
Proof.
  intros E Hx Hf. unfold finish, ereq, get_req in E. rewrite Hx in E. cbn [rbind] in E. rewrite Hf in E. destruct (finish_req st why err x) as [c y]. set (e1 := push_out (out y) c (eput r y e)) in E.
  assert (H1 : others_kept r (sched_ e) (sched_ e1) /\ live (sched_ e1) = live (sched_ e)) by (split; [apply put_kept | done]). destruct H1 as [H1 L1].
  match type of E with rbind ?m _ = _ => destruct m as [e2 |] eqn:E2; [cbn [rbind] in E | done] end.
  assert (H2 : others_kept r (sched_ e1) (sched_ e2) /\ live (sched_ e2) = live (sched_ e1)).
  { destruct (draft_ e1) as [d |]; [| injection E2 as <-; split; [by intros k Hk | done] ]. destruct (release r (sched_ e1) d) as [ [s d'] |] eqn:Er; [| done]. cbn [rbind] in E2. injection E2 as <-. unfold release in Er. destruct (get_req r (sched_ e1)) as [z |]; [cbn [rbind] in Er | done]. destruct (free_kv (draft_kv z) (d_kv d)) as [ [q k] |]; [| done]. injection Er as <- _. split; [apply put_kept | done]. }
  destruct H2 as [K2 L2]. destruct (finish_request r st (sched_ e2)) as [s |] eqn:Ef; [cbn [rbind] in E | done]. injection E as <-. destruct (finish_request_kept r st (sched_ e2) s Ef) as [K3 D3]. simpl. split; [by eapply others_trans; [eapply others_trans |] |]. rewrite L2, L1 in D3. exact D3.
Qed.
(** one embedding request: it is destroyed when it is complete *)
Lemma embed_one_effect s r e e' x : embed_one s r e = Ok e' -> at_heap e !! s_req s = Some x -> is_embedding x = true -> s_req s ∈ live (sched_ e) -> others_kept (s_req s) (sched_ e) (sched_ e') /\
  (forall x', at_heap e' !! s_req s = Some x' -> is_embedding x' = true) /\ (is_finished x = false -> n_tokens x <= num_computed_tokens x -> at_heap e' !! s_req s = None).
Proof.
  intros E Hx He Hl. unfold embed_one, ereq, get_req in E. rewrite Hx in E. cbn [rbind] in E. rewrite He in E. cbn [negb orb] in E. destruct (is_finished x) eqn:Ef.
  { injection E as <-. split; [by intros k Hk |]. split; [intros x' Hx'; congruence | done]. }
  set (y := set_embd_count _ x) in E. assert (Hy : at_heap (add_counts (n_prompt y) 0 (eput (s_req s) y e)) !! s_req s = Some y) by apply lookup_insert_eq. change (n_tokens y) with (n_tokens x) in E. change (num_computed_tokens y) with (num_computed_tokens x) in E. destruct (Z.leb_spec (n_tokens x) (num_computed_tokens x)) as [Hc | Hc].
  - destruct (finish_destroys _ _ _ _ _ _ y E Hy Ef) as [K D]. split; [apply (others_trans _ _ (put_req (s_req s) y (sched_ e))); [apply put_kept | exact K] |]. specialize (D Hl). split; [intros x' Hx'; by rewrite D in Hx' | done].
  - injection E as <-. split; [apply put_kept |]. split; [| lia]. intros x' Hx'. simpl in Hx'. rewrite lookup_insert_eq in Hx'. by injection Hx' as <-.
Qed.
(** an entry of a batch of embedding requests *)
Definition embeds e (s : ScheduledRequest) : Prop := (exists x, at_heap e !! s_req s = Some x /\ is_embedding x = true) /\ s_req s ∈ live (sched_ e).
Lemma embed_loop_destroys l : forall erows e e' , NoDup (s_req <$> l) -> Forall (embeds e) l -> embed_loop l erows e = Ok e' ->
  (forall k, k ∉ s_req <$> l -> at_heap e' !! k = at_heap e !! k) /\
  forall s, s ∈ l -> (forall x', at_heap e' !! s_req s = Some x' -> is_embedding x' = true) /\ (forall x, at_heap e !! s_req s = Some x -> is_finished x = false -> n_tokens x <= num_computed_tokens x -> at_heap e' !! s_req s = None).
Proof.
  induction l as [| s l IH]; intros erows e e' Hnd Hl E; cbn [embed_loop] in E; [injection E as <-; split; [done |]; intros s Hs; by apply elem_of_nil in Hs |].
  destruct erows as [| r erows]; [done |]. destruct (embed_one s r e) as [e1 |] eqn:E1; [cbn [rbind] in E | done]. rewrite fmap_cons in Hnd. apply NoDup_cons in Hnd as [Hn Hnd]. apply Forall_cons in Hl as [ [ (x & Hx & He) Hlv] Hl].
  destruct (embed_one_effect s r e e1 x E1 Hx He Hlv) as (K & Ke & Kd). assert (Hne : forall t, t ∈ l -> s_req t <> s_req s) by (intros t Ht Et; apply Hn; rewrite <- Et; by apply list_elem_of_fmap_2).
  destruct (IH erows e1 e' Hnd) as [I1 I2]; [| done |].
  { apply Forall_forall. intros t Ht. rewrite Forall_forall in Hl. destruct (Hl t Ht) as [ (z & Hz & Hez) Hlz]. destruct (K (s_req t) (Hne t Ht)) as [Ez Lz]. split; [exists z; by rewrite Ez | by apply Lz]. }
  split; [intros k Hk; rewrite fmap_cons in Hk; apply not_elem_of_cons in Hk as [Hk1 Hk2]; rewrite I1 by done; by apply K |]. intros t Ht. apply elem_of_cons in Ht as [-> | Ht].
  - rewrite (I1 (s_req s)) by done. split; [done |]. intros z Hz. rewrite Hx in Hz. injection Hz as <-. exact Kd.
  - destruct (I2 t Ht) as [J1 J2]. split; [done |]. destruct (K (s_req t) (Hne t Ht)) as [Et _]. by rewrite <- Et.
Qed.
(** process_outputs passes over embedding requests up to the first that was destroyed *)
Lemma process_loop_destroyed rows e l : forall lrows np ng, length lrows = length l -> (forall s x, s ∈ l -> at_heap e !! s_req s = Some x -> is_embedding x = true) -> (exists s, s ∈ l /\ at_heap e !! s_req s = None) ->
  process_loop ops cfg l lrows rows np ng e = Err (UB "access to a destroyed request").
Proof.
  induction l as [| s l IH]; intros lrows np ng Hlen He (d & Hd & Hnone); [by apply elem_of_nil in Hd |]. destruct lrows as [| row lrows]; [done |]. cbn [process_loop]. unfold process_one, ereq, get_req. destruct (at_heap e !! s_req s) as [x |] eqn:Ex; [cbn [rbind] | done].
  assert (Hex : is_embedding x = true) by (by apply (He s x); [left |]). rewrite Hex. cbn [orb]. assert (Hrest : forall a b, process_loop ops cfg l lrows rows a b e = Err (UB "access to a destroyed request")).
  { intros a b. apply IH; [by injection Hlen | intros t z Ht; apply He; by right |]. exists d. split; [| done]. apply elem_of_cons in Hd as [-> | Hd]; [congruence | done]. }
  destruct (is_finished x); cbn [rbind]; apply Hrest.
Qed.
(** C39: An embedding request that completes is used after its destruction.  In every engine state, when a step has computed
    a batch of embedding requests (each scheduled once and queued) and one of them is complete, process_embeddings destroys it;
    if it returns, process_outputs, which the step calls next, reads the request through the same scheduled entry. *)
Theorem embedding_step_use_after_free (so : SchedulerOutput) (erows : list (Z * Z)) (rows : list (list V)) (lrows : list Z) e e' (s : ScheduledRequest) (x : Request) :
  NoDup (s_req <$> scheduled so) -> Forall (embeds e) (scheduled so) -> length lrows = length (scheduled so) -> existsb (fun r => 0 <=? r.1) erows = true ->
  s ∈ scheduled so -> at_heap e !! s_req s = Some x -> is_finished x = false -> n_tokens x <= num_computed_tokens x ->
  process_embeddings so erows e = Ok e' ->
  process_outputs ops cfg draft_run so rows lrows e' = Err (UB "access to a destroyed request").
Proof.
  intros Hnd Hall Hlen Hr Hs Hx Hf Hc E. unfold process_embeddings in E. rewrite Hr in E. destruct (embed_loop_destroys (scheduled so) erows e e' Hnd Hall E) as [_ H].
  unfold process_outputs. rewrite process_loop_destroyed; [done | done | intros t z Ht; by apply (H t Ht) |]. exists s. split; [done |]. by apply (proj2 (H s Hs) x).
Qed.
End Destroyed.

(** a request of three tokens, up to where its step calls process_embeddings *)
Definition embedding_step : res (SchedulerOutput * Build * Engine BlockPool unit Z Z) :=
  let e := (submit_embedding tiny_ops tiny_cfg [1; 2; 3] 0 0 0 (empty_engine demo_kvc)).2 in
  let! e := ingest tiny_cfg e in
  let! (so, s) := schedule (sched_cfg tiny_cfg) (sched_ e) in
  let! (so, ub, b) := build_batch (gather_attn tiny_cfg) so s in
  let! s := update_after_step so s in Ok (so, b, with_sched s e).
Lemma embedding_step_use_after_free_witness : exists so b e e', embedding_step = Ok (so, b, e) /\ process_embeddings so (embd_rows b) e = Ok e'
  /\ process_outputs tiny_ops tiny_cfg no_draft so [] (logit_rows b) e' = Err (UB "access to a destroyed request").
Proof.
  destruct embedding_step as [ [ [so b] e] |] eqn:E; [| vm_compute in E; discriminate]. destruct (process_embeddings so (embd_rows b) e) as [e' |] eqn:E'; [| exfalso; vm_compute in E; injection E as <- <- <-; vm_compute in E'; discriminate].
  exists so, b, e, e'. split; [reflexivity |]. split; [exact E' |]. clear -E E'. vm_compute in E. injection E as <- <- <-.
  eapply (embedding_step_use_after_free tiny_ops tiny_cfg no_draft _ _ [] _ _ e'); [| | | | | | | | exact E'].
  - apply NoDup_singleton.
  - apply Forall_singleton. split; [eexists; split; [vm_compute; reflexivity | reflexivity] | left].
  - reflexivity.
  - reflexivity.
  - left.
  - vm_compute. reflexivity.
  - vm_compute. reflexivity.
  - vm_compute. discriminate.
Defined.
(** the whole step of this request, whatever the model returns *)
Lemma embedding_step_run (rows : list (list Z)) :
  exists e, submit_embedding tiny_ops tiny_cfg [1; 2; 3] 0 0 0 (empty_engine demo_kvc) = (Ok 1, e)
    /\ step tiny_ops tiny_cfg (ok_forward rows) no_draft tt e = Err (UB "access to a destroyed request").
Proof. eexists. split; [reflexivity |]. vm_compute. reflexivity. Qed.

(** ** A preempted request that is never served again *)
Definition stuck_cfg : EngineConfig := mkECfg (mkSchedCfg 4 4 64 0 false FCFS) 0 0 1 3 0 false false false 1 1.
Definition stuck_params : SamplingParams :=
  mkParams 1 f1 f1 0 f0 f0 f0 f1 (-1) None 4 0 false [] [] false true (-1) false [] [] [] false [] [] [].
Definition stuck_start : Engine BlockPool unit Z Z :=
  let e := empty_engine (from_ok demo_kvc (new_kv (mkKVCfg 2 4 0 false))) in
  let e := (submit tiny_ops stuck_cfg [1; 2] stuck_params 0 0 0 e).2 in
  (submit tiny_ops stuck_cfg [1; 3] stuck_params 0 0 0 e).2.
(** a model whose rows always favour token 1 *)
Definition row_forward : AttnPath -> UBatch -> unit -> option (list (list Z)) * unit :=
  fun _ ub m => (Some (replicate (Z.to_nat (ub_n_outputs ub)) [1; 1; 1; 1]), m).
Fixpoint run_iters (n : nat) (e : Engine BlockPool unit Z Z) : res (Engine BlockPool unit Z Z) :=
  match n with
  | O => Ok e
  | S n => let! (_, _, e) := run_iter tiny_ops stuck_cfg row_forward no_draft tt e in run_iters n e
  end.
Definition stuck_end : Engine BlockPool unit Z Z := from_ok stuck_start (run_iters 4 stuck_start).

(** nothing runs, and the only queued request was preempted with more tokens than a step takes *)
Record starving (r : Z) (q : OutputQueue) (e : Engine BlockPool unit Z Z) : Prop := {
  st_new : new_requests_ e = [];
  st_aborts : aborts_ e = [];
  st_running : running_ (sched_ e) = [];
  st_waiting : waiting_ (sched_ e) = [r];
  st_off : prefix_caching (kvc (sched_ e)) = false;
  st_bs : 0 < kv_block_size (kvc (sched_ e));
  st_free : n_free_ (pool_ (kvc (sched_ e))) * kv_block_size (kvc (sched_ e)) = num_cells_ (kvc (sched_ e));
  st_out : outs_ e !! r = Some q;
  st_req : exists x, heap (sched_ e) !! r = Some x /\ status x = PREEMPTED /\ num_computed_tokens x = 0
    /\ 4 < Zlen (tokens x) < 2 ^ 32 /\ block_hashes x `prefix_of` chain (kv_block_size (kvc (sched_ e))) (tokens x) (cache_salt x)
}.

Lemma starving_iter r q e : starving r q e ->
  exists e', run_iter tiny_ops stuck_cfg row_forward no_draft tt e = Ok (false, tt, e') /\ starving r q e'.
Proof.
  intros [H1 H2 H3 H4 H5 H6 H7 H8 (x & Hx & Hst & Hc & Hlen & Hh)].
  destruct e as [s sm ou nr ab ni ru qu dr sts]. destruct s as [h k w rn np]. simpl in *. subst.
  assert (Hup : update_hashes k (block_hashes x) (tokens x) (cache_salt x) = Ok (chain (kv_block_size k) (tokens x) (cache_salt x))).
  { unfold update_hashes. rewrite u32_small by lia. apply hash_loop_spec; [done | done | lia |]. rewrite chain_length. lia. }
  set (hs := chain (kv_block_size k) (tokens x) (cache_salt x)) in *. set (s0 := mkSched h k [r] [] np).
  set (k' := with_pool (op_stat (u32 (Zlen (tokens x) / kv_block_size k)) (0 / kv_block_size k) (pool_ k)) k).
  assert (Hs : schedule (sched_cfg stuck_cfg) s0 = Ok (mkSOut [] [] 0, mkSched (<[r := set_block_hashes hs x]> h) k' [r] [] np)).
  { unfold schedule.
    assert (E1 : phase1 (S (length (running_ s0))) (sched_cfg stuck_cfg) 0 s0 (mkSOut [] [] 0) (max_num_batched_tokens (sched_cfg stuck_cfg))
      = Ok (s0, mkSOut [] [] 0, 4)) by reflexivity.
    rewrite E1. cbn [rbind preempted]. change (bool_decide (@nil Z = [])) with true. cbv iota.
    change (length (waiting_ s0)) with 1%nat. cbn [phase2 waiting_ s0 running_].
    change ((0 <? 4) && (Zlen (@nil Z) <? max_num_seqs (sched_cfg stuck_cfg))) with true. cbv iota. subst s0.
    unfold get_req. cbn [heap]. rewrite Hx. cbn [rbind]. rewrite Hc. cbn [Z.eqb kvc]. rewrite Hup. cbn [rbind].
    unfold get_computed_blocks. cbn [put_req with_heap kvc heap]. rewrite H5. cbn [negb orb rbind heap with_kvc put_req with_heap]. rewrite lookup_insert_eq. cbn [rbind].
    assert (Hn : n_tokens (set_block_hashes hs x) = Zlen (tokens x)) by (unfold n_tokens; simpl; apply u32_small; lia).
    rewrite Hn, Z.sub_0_r. rewrite (u32_small (Zlen (tokens x))) by lia. change (long_prefill_token_threshold (sched_cfg stuck_cfg)) with 0. change (0 <? 0) with false.
    change (enable_chunked_prefill (sched_cfg stuck_cfg)) with false. cbn [negb andb]. cbv iota.
    rewrite (proj2 (Z.ltb_lt 4 (Zlen (tokens x)))) by lia. reflexivity. }
  unfold run_iter, step, ingest. cbn [new_requests_ aborts_ with_inbox sched_ add_all rbind abort_all with_sched].
  change (has_requests s0) with true. cbn [negb]. fold s0. rewrite Hs. cbn [rbind scheduled preempted].
  change (bool_decide (@nil ScheduledRequest = [])) with true. change (bool_decide (@nil Z = [])) with true. cbv iota. cbn [negb].
  cbn [sched_ with_sched all_requests running_ waiting_ app fail_waiting]. unfold ereq, get_req. cbn [sched_ with_sched heap].
  rewrite lookup_insert_eq. cbn [rbind]. change (status (set_block_hashes hs x)) with (status x). rewrite Hst.
  change (bool_decide (PREEMPTED = WAITING)) with false. cbn [andb rbind fail_waiting]. eexists. split; [reflexivity |].
  split; cbn; try done. exists (set_block_hashes hs x). rewrite lookup_insert_eq. split_and!; try done; simpl; lia.
Qed.
Lemma starving_iters n r q e : starving r q e -> exists e', run_iters n e = Ok e' /\ starving r q e'.
Proof.
  revert e. induction n as [| n IH]; intros e He; [by exists e |]. cbn [run_iters].
  destruct (starving_iter r q e He) as (e1 & -> & H1). cbn [rbind]. by apply IH.
Qed.
Lemma run_iters_app n m e : run_iters (n + m) e = let! e := run_iters n e in run_iters m e.
Proof. revert e. induction n as [| n IH]; intros e; [done |]. simpl. destruct (run_iter _ _ _ _ _ _) as [[[? ?] e1] |]; [apply IH | done]. Qed.

(** the state of the run above after four iterations *)
Definition stuck_queue : OutputQueue := default empty_queue (outs_ stuck_end !! 2).
Definition stuck_req : Request := default demo_req (heap (sched_ stuck_end) !! 2).
Lemma stuck_end_starving : exists q, q_finished q = false /\ starving 2 q stuck_end.
Proof.
  exists stuck_queue. split; [vm_compute; reflexivity |]. split; [vm_compute; reflexivity.. |].
  exists stuck_req. split; [vm_compute; reflexivity |]. split; [vm_compute; reflexivity |]. split; [vm_compute; reflexivity |].
  split; [by vm_compute |].
  assert (E : block_hashes stuck_req = take (length (block_hashes stuck_req)) (chain (kv_block_size (kvc (sched_ stuck_end))) (tokens stuck_req) (cache_salt stuck_req)))
    by (vm_compute; reflexivity).
  rewrite E. apply prefix_take.
Qed.

(** C40: With chunked prefill off a preempted request can wait for ever.  Two requests run in a
    cache of eight cells until the second is preempted with five tokens; the first one finishes.
    From then on the cache is empty and nothing runs, but five tokens exceed the budget of four
    per step, and only requests that never ran are failed: after any number of further iterations
    the request is still queued, neither computed nor answered. *)
Theorem preempted_request_starves (n : nat) :
  exists e q, run_iters (4 + n) stuck_start = Ok e /\ waiting_ (sched_ e) = [2] /\ running_ (sched_ e) = []
    /\ (exists x, heap (sched_ e) !! 2 = Some x /\ status x = PREEMPTED /\ num_computed_tokens x = 0)
    /\ n_free_ (pool_ (kvc (sched_ e))) * kv_block_size (kvc (sched_ e)) = num_cells_ (kvc (sched_ e))
    /\ outs_ e !! 2 = Some q /\ q_finished q = false.
Proof.
  assert (E4 : run_iters 4 stuck_start = Ok stuck_end) by (vm_compute; reflexivity).
  destruct stuck_end_starving as (q & Hq & Hs).
  rewrite run_iters_app, E4. cbn [rbind].
  destruct (starving_iters n 2 q stuck_end Hs) as (e & He & [S1 S2 S3 S4 S5 S6 S7 S8 (x & Hx & S9 & S10 & S11 & _)]).
  exists e, q. split; [exact He |]. split; [exact S4 |]. split; [exact S3 |]. split; [exists x; exact (conj Hx (conj S9 S10)) |].
  split; [exact S7 |]. split; [exact S8 | exact Hq].
Qed.
