(* ===== verification/Text.v ===== *)
(** * Byte strings: C strings and the characters of the sources

    A C string is a list of bytes; the terminating 0 is the end of the list, and a read of the
    byte at a position gives 0 there, as it does at a 0 byte of the list. *)

From S2P Require Import Prelude.
From Stdlib Require Export Ascii.
From stdpp Require Export pretty.
Open Scope Z_scope.

(** the code of a character, the bytes of a literal *)
Definition ch (a : Ascii.ascii) : Z := Z.of_N (Ascii.N_of_ascii a).
Arguments ch a%_char.
Fixpoint bytes (s : string) : list Z :=
  match s with EmptyString => [] | String a s => ch a :: bytes s end.
(** the character behind a code above *)
Definition newline : Z := 10.
Definition creturn : Z := 13.
Definition tab : Z := 9.
Definition quote : Z := 34.

(** the bytes of a literal in which a backquote stands for a double quote *)
Definition quoted (s : string) : list Z := (fun c => if c =? ch "`" then quote else c) <$> bytes s.

(** the byte at a position, and [k] bytes after it *)
Definition peek (s : list Z) : Z := match s with [] => 0 | c :: _ => c end.
Definition peek_at (k : nat) (s : list Z) : Z := default 0 (s !! k).

(** std::to_string *)
Definition to_string (z : Z) : list Z := bytes (pretty z).

Lemma ch_inj a b : ch a = ch b -> a = b.
Proof.
  unfold ch. intros H. apply N2Z.inj in H. rewrite <- (Ascii.ascii_N_embedding a), <- (Ascii.ascii_N_embedding b). by rewrite H.
Qed.
#[global] Instance bytes_inj : Inj (=) (=) bytes.
Proof.
  intros s. induction s as [| a s IH]; intros [| b t]; simpl; intros H; try done. injection H as H1 H2.
  apply ch_inj in H1 as ->. by rewrite (IH t H2).
Qed.
Lemma to_string_inj x y : to_string x = to_string y -> x = y.
Proof. intros H%bytes_inj. by apply (inj pretty) in H. Qed.

(** the part of [src] before the rest [pos] (the range from src to pos) *)
Definition span (src pos : list Z) : list Z := take (length src - length pos) src.

(** a rest of a string: what a parsing function returns *)
Definition rest_of (pos src : list Z) : Prop := exists p, src = p ++ pos.
#[global] Instance rest_of_po : PreOrder rest_of.
Proof.
  split; [intros s; by exists [] |]. intros a b c [p Hp] [q Hq]. exists (q ++ p). by rewrite Hq, Hp, app_assoc.
Qed.
Lemma rest_of_drop k s : rest_of (drop k s) s.
Proof. exists (take k s). by rewrite take_drop. Qed.
Lemma rest_of_length pos src : rest_of pos src -> (length pos <= length src)%nat.
Proof. intros [p ->]. rewrite length_app. lia. Qed.
Lemma peek_nonzero s : peek s <> 0 -> exists c s', s = c :: s' /\ c = peek s.
Proof. destruct s as [| c s]; simpl; [done |]. by exists c, s. Qed.
#[export] Hint Resolve rest_of_drop : iian.

(** std::stoull on decimal digits (base 10, leading zeros allowed) *)
Definition digits_value (ds : list Z) : Z := foldl (fun v c => v * 10 + (c - 48)) 0 ds.
Definition stoull (ds : list Z) : res Z :=
  let v := digits_value ds in if v <? 2 ^ 64 then Ok v else throw! "stoull: out of range".

(** ** Searching *)
Definition starts_with (pat s : list Z) : bool := bool_decide (take (length pat) s = pat).
(** std::string::find: the first occurrence, and the first from a position on *)
Fixpoint find_first_of (pat s : list Z) : option nat :=
  if starts_with pat s then Some O else match s with [] => None | _ :: s' => S <$> find_first_of pat s' end.
Definition find_str (s pat : list Z) (pos : nat) : option nat := if (pos <=? length s)%nat then Nat.add pos <$> find_first_of pat (drop pos s) else None.
Definition has (s : list Z) (pat : string) : bool := bool_decide (is_Some (find_str s (bytes pat) 0)).
(** substr with a length, and with npos *)
Definition substr (s : list Z) (pos n : nat) : list Z := take n (drop pos s).
