(* ===== verification/Utf8.v ===== *)
(** * UTF-8 decoding of the grammar engine (the two decode_utf8 of src/iian/grammar/grammar.cpp)

    Bytes are integers from 0 to 255, C strings the lists of Text.v. *)

From S2P Require Import Prelude Text.

(** ** decode_utf8 of a C string: one code point, and the rest *)
Definition lookup1 : list Z := [1; 1; 1; 1; 1; 1; 1; 1; 1; 1; 1; 1; 2; 2; 3; 4].

(** at most [n] further bytes, up to the end *)
Fixpoint take_cont (n : nat) (value : Z) (s : list Z) : Z * list Z :=
  match n, s with
  | S n, c :: s' => if c =? 0 then (value, s) else take_cont n (u32 (value * 64 + Z.land c 0x3F)) s'
  | _, _ => (value, s)
  end.
Definition decode_one (src : list Z) : res (Z * list Z) :=
  let first := peek src in
  let! len := vget lookup1 (Z.shiftr first 4) in
  let mask := Z.land (Z.shiftl 1 (8 - len) - 1) 0xFF in
  Ok (take_cont (Z.to_nat (len - 1)) (Z.land first mask) (drop 1 src)).

(** ** decode_utf8(const std::string &, llama_partial_utf8) *)
Record llama_partial_utf8 := mkPartial { p_value : Z; n_remain : Z }.
#[global] Instance partial_eq_dec : EqDecision llama_partial_utf8.
Proof. solve_decision. Defined.

Definition lookup2 : list Z := [1; 1; 1; 1; 1; 1; 1; 1; 0; 0; 0; 0; 2; 2; 3; 4].

(** continue a previous decode: value, bytes missing and rest; [None] when a byte is no continuation *)
Fixpoint resume (s : list Z) (value n : Z) : option (Z * Z * list Z) :=
  match s with
  | [] => Some (value, n, [])
  | c :: s' =>
      if (c =? 0) || (n <=? 0) then Some (value, n, s)
      else if negb (Z.shiftr c 6 =? 2) then None
      else resume s' (u32 (value * 64 + Z.land c 0x3F)) (n - 1)
  end.
(** the bytes after a lead byte; they are not checked *)
Fixpoint follow (s : list Z) (value n : Z) : Z * Z * list Z :=
  match s with
  | [] => (value, n, [])
  | c :: s' => if (c =? 0) || (n <=? 0) then (value, n, s) else follow s' (u32 (value * 64 + Z.land c 0x3F)) (n - 1)
  end.
(** the main loop *)
Fixpoint decode_loop (fuel : nat) (s : list Z) (value n : Z) (cps : list Z) : res (list Z * llama_partial_utf8) :=
  match fuel with
  | O => Err Fuel
  | S fuel =>
      if peek s =? 0 then Ok (cps ++ [0], mkPartial value n) else
      let first := peek s in
      let! l := vget lookup2 (Z.shiftr first 4) in
      let n := l - 1 in
      if n <? 0 then Ok ([0], mkPartial 0 n) else
      let mask := Z.land (Z.shiftl 1 (7 - n) - 1) 0xFF in
      let '(value, n, s) := follow (drop 1 s) (Z.land first mask) n in
      decode_loop fuel s value n (if n =? 0 then cps ++ [value] else cps)
  end.
Definition decode_utf8 (src : list Z) (start : llama_partial_utf8) : res (list Z * llama_partial_utf8) :=
  match resume src (p_value start) (n_remain start) with
  | None => Ok ([0], mkPartial 0 (-1))
  | Some (value, n, s) =>
      decode_loop (S (length s)) s value n (if (0 <? n_remain start) && (n =? 0) then [value] else [])
  end.

(** ** Specification: the encoding of a code point *)
Definition utf8_encode (c : Z) : list Z :=
  if c <? 0x80 then [c]
  else if c <? 0x800 then [0xC0 + c / 64; 0x80 + c mod 64]
  else if c <? 0x10000 then [0xE0 + c / 4096; 0x80 + c / 64 mod 64; 0x80 + c mod 64]
  else [0xF0 + c / 262144; 0x80 + c / 4096 mod 64; 0x80 + c / 64 mod 64; 0x80 + c mod 64].

(** arithmetic on bytes *)
Lemma byte_bits (P : Z -> bool) : forallb P ((fun k => Z.of_nat k) <$> seq 0 256) = true -> forall b, 0 <= b < 256 -> P b = true.
Proof.
  intros H b Hb. rewrite forallb_forall in H. apply H. apply list_elem_of_In, list_elem_of_fmap. exists (Z.to_nat b).
  split; [lia |]. apply elem_of_seq. lia.
Qed.
Lemma cont_byte x : 0 <= x < 64 -> Z.land (0x80 + x) 0x3F = x /\ Z.shiftr (0x80 + x) 6 = 2.
Proof.
  intros Hx.
  assert (H : forall b, 0 <= b < 256 -> implb (b <? 64) ((Z.land (0x80 + b) 0x3F =? b) && (Z.shiftr (0x80 + b) 6 =? 2)) = true)
    by (apply byte_bits; vm_compute; reflexivity).
  specialize (H x ltac:(lia)). rewrite (proj2 (Z.ltb_lt _ _)) in H by lia. simpl in H. lia.
Qed.

(** ** Specification: a byte automaton

    The state is the value read so far and the number of bytes still missing; it fails on a 0
    byte, on a byte that cannot start a character and on a missing continuation byte. *)
Definition feed (st : Z * Z) (b : Z) : option (list Z * (Z * Z)) :=
  let '(v, n) := st in
  if (b <=? 0) || (256 <=? b) then None
  else if 0 <? n then
    if Z.shiftr b 6 =? 2 then
      let v' := u32 (v * 64 + Z.land b 0x3F) in Some (if n =? 1 then [v'] else [], (v', n - 1))
    else None
  else if b <? 0x80 then Some ([b], (b, 0))
  else if b <? 0xC0 then None
  else let n := if b <? 0xE0 then 1 else if b <? 0xF0 then 2 else 3 in
       Some ([], (Z.land b (Z.land (Z.shiftl 1 (7 - n) - 1) 0xFF), n)).
Arguments feed : simpl never.
Fixpoint feed_all (st : Z * Z) (s : list Z) : option (list Z * (Z * Z)) :=
  match s with
  | [] => Some ([], st)
  | b :: s => '(e1, st) ← feed st b; '(e2, st) ← feed_all st s; Some (e1 ++ e2, st)
  end.
Lemma feed_all_app st a b : feed_all st (a ++ b) = '(e1, st) ← feed_all st a; '(e2, st) ← feed_all st b; Some (e1 ++ e2, st).
Proof.
  revert st. induction a as [| x a IH]; intros st; simpl; [by destruct (feed_all st b) as [[? ?] |] |].
  destruct (feed st x) as [[e1 st1] |]; simpl; [| done]. rewrite IH.
  destruct (feed_all st1 a) as [[e2 st2] |]; simpl; [| done]. destruct (feed_all st2 b) as [[e3 st3] |]; simpl; [| done].
  by rewrite app_assoc.
Qed.

(** the class of a byte that starts a character *)
Lemma lead_byte b : 0 < b < 256 -> forall v r, feed (v, 0) b = Some r ->
  exists n, vget lookup2 (Z.shiftr b 4) = Ok (n + 1) /\ 0 <= n <= 3
    /\ r = (if n =? 0 then [Z.land b (Z.land (Z.shiftl 1 (7 - n) - 1) 0xFF)] else [], (Z.land b (Z.land (Z.shiftl 1 (7 - n) - 1) 0xFF), n)).
Proof.
  intros Hb v r.
  set (len := fun b => if b <? 0x80 then 0 else if b <? 0xC0 then -1 else if b <? 0xE0 then 1 else if b <? 0xF0 then 2 else 3).
  assert (H : forall b, 0 <= b < 256 -> match vget lookup2 (Z.shiftr b 4) with Ok l => l =? len b + 1 | Err _ => false end
    && implb (b <? 0x80) (Z.land b (Z.land (Z.shiftl 1 7 - 1) 0xFF) =? b) = true) by (apply byte_bits; vm_compute; reflexivity).
  specialize (H b ltac:(lia)). apply andb_prop in H as [H1 H2]. destruct (vget _ _) as [l |]; [| done]. apply Z.eqb_eq in H1 as ->.
  unfold feed. rewrite (proj2 (Z.leb_gt b 0)), (proj2 (Z.leb_gt 256 b)) by lia. simpl. subst len. simpl in *.
  destruct (b <? 0x80) eqn:E1; simpl in *.
  - intros [= <-]. exists 0. split_and!; [done | lia | lia |]. apply Z.eqb_eq in H2. change (7 - 0) with 7. rewrite H2. done.
  - destruct (b <? 0xC0) eqn:E2; [done |]. intros [= <-].
    destruct (b <? 0xE0); [exists 1 | destruct (b <? 0xF0); [exists 2 | exists 3]]; split_and!; try done; lia.
Qed.

Lemma feed_pos st b r : feed st b = Some r -> 0 < b < 256.
Proof. destruct st as [v n]. unfold feed. destruct ((b <=? 0) || (256 <=? b)) eqn:E; [done |]. intros _. lia. Qed.
Lemma feed_more v n b r : 0 < n -> feed (v, n) b = Some r ->
  0 < b < 256 /\ Z.shiftr b 6 = 2 /\ r = (if n =? 1 then [u32 (v * 64 + Z.land b 0x3F)] else [], (u32 (v * 64 + Z.land b 0x3F), n - 1)).
Proof.
  intros Hn H. pose proof (feed_pos _ _ _ H) as Hb. revert H. unfold feed.
  rewrite (proj2 (Z.leb_gt b 0)), (proj2 (Z.leb_gt 256 b)), (proj2 (Z.ltb_lt 0 n)) by lia. simpl.
  destruct (Z.shiftr b 6 =? 2) eqn:E; [| done]. intros [= <-]. apply Z.eqb_eq in E. done.
Qed.

(** inside a character the code follows the automaton to its end or to the end of the input *)
Lemma follow_feed s v n e st : 0 < n -> feed_all (v, n) s = Some (e, st) ->
  exists v1 n1 s1, follow s v n = (v1, n1, s1) /\ resume s v n = Some (v1, n1, s1) /\ 0 <= n1 <= n
    /\ ((n1 = 0 /\ exists e1, e = v1 :: e1 /\ feed_all (v1, 0) s1 = Some (e1, st) /\ (length s1 < length s)%nat)
        \/ (0 < n1 /\ s1 = [] /\ e = [] /\ st = (v1, n1))).
Proof.
  revert v n e st. induction s as [| b s IH]; intros v n e st Hn H; simpl in H.
  - simplify_eq. exists v, n, []. simpl. split_and!; try done; try lia. right. split_and!; try done.
  - destruct (feed (v, n) b) as [[e1 st1] |] eqn:Ef; [| done]. simpl in H.
    destruct (feed_more _ _ _ _ Hn Ef) as (Hb & Hs & [= -> ->]). set (v' := u32 _) in *.
    destruct (feed_all (v', n - 1) s) as [[e2 st2] |] eqn:Ea; [| done]. simpl in H. simplify_eq.
    assert (Hc : (b =? 0) || (n <=? 0) = false) by lia.
    simpl. rewrite Hc, Hs, Z.eqb_refl. simpl. fold v'.
    destruct (decide (n = 1)) as [-> | Hn1].
    + exists v', 0, s. change (1 - 1) with 0 in *. split_and!; try lia.
      * destruct s; simpl; [done | by rewrite orb_true_r].
      * destruct s; simpl; [done | by rewrite orb_true_r].
      * left. split; [done |]. exists e2. simpl. split_and!; try done. lia.
    + destruct (IH v' (n - 1) e2 st ltac:(lia) Ea) as (v1 & n1 & s1 & -> & -> & Hr & Hd). exists v1, n1, s1.
      rewrite (proj2 (Z.eqb_neq n 1)) by done. split_and!; try done; try lia.
      destruct Hd as [(-> & e3 & -> & He3 & Hl) | ?]; [left | by right]. split; [done |]. exists e3. split_and!; try done. lia.
Qed.
Lemma loop_feed fuel s v e v' n' cps : (length s < fuel)%nat -> feed_all (v, 0) s = Some (e, (v', n')) ->
  decode_loop fuel s v 0 cps = Ok (cps ++ e ++ [0], mkPartial v' n').
Proof.
  revert s v e cps. induction fuel as [| fuel IH]; intros s v e cps Hf H; [lia |]. destruct s as [| b s]; simpl in H.
  { simplify_eq. done. }
  destruct (feed (v, 0) b) as [[e1 st1] |] eqn:Ef; [| done]. simpl in H.
  pose proof (feed_pos _ _ _ Ef) as Hb. destruct (lead_byte b Hb v _ Ef) as (n & Hl & Hn & [= -> ->]).
  set (v1 := Z.land b _) in *. destruct (feed_all (v1, n) s) as [[e2 st2] |] eqn:Ea; [| done]. simpl in H. simplify_eq.
  cbn [decode_loop peek]. rewrite (proj2 (Z.eqb_neq b 0)), Hl by lia. cbn [rbind].
  replace (n + 1 - 1) with n by lia. rewrite (proj2 (Z.ltb_ge n 0)) by lia. cbn [drop]. fold v1. simpl in Hf.
  destruct (decide (n = 0)) as [-> | Hn0].
  - assert (E : follow (drop 0 s) v1 0 = (v1, 0, s)) by (destruct s; simpl; [done | by rewrite orb_true_r]).
    rewrite E. simpl. rewrite IH with (e := e2); [by rewrite <- app_assoc | lia | done].
  - destruct (follow_feed s v1 n e2 _ ltac:(lia) Ea) as (v2 & n2 & s2 & E & _ & Hr & Hd).
    change (drop 0 s) with s. rewrite E. rewrite (proj2 (Z.eqb_neq n 0)) by done. simpl.
    destruct Hd as [(-> & e3 & -> & He3 & Hl3) | (H1 & -> & -> & [= -> ->])].
    + simpl. rewrite IH with (e := e3); [by rewrite <- app_assoc | lia | done].
    + rewrite (proj2 (Z.eqb_neq n2 0)) by lia. destruct fuel; [lia | done].
Qed.
Lemma decode_feed s v n e v' n' : 0 <= n -> feed_all (v, n) s = Some (e, (v', n')) ->
  decode_utf8 s (mkPartial v n) = Ok (e ++ [0], mkPartial v' n').
Proof.
  intros Hn H. unfold decode_utf8. cbn [p_value n_remain]. destruct (decide (n = 0)) as [-> | Hn0].
  - assert (E : resume s v 0 = Some (v, 0, s)) by (destruct s; simpl; [done | by rewrite orb_true_r]).
    rewrite E. apply (loop_feed _ s v e v' n' []); [lia | done].
  - destruct (follow_feed s v n e _ ltac:(lia) H) as (v1 & n1 & s1 & _ & -> & Hr & Hd).
    rewrite (proj2 (Z.ltb_lt 0 n)) by lia. cbn [andb]. destruct Hd as [(-> & e1 & -> & He & Hl) | (H1 & -> & -> & [= -> ->])].
    + apply (loop_feed _ s1 v1 e1 v' n' [v1]); [lia | done].
    + by rewrite (proj2 (Z.eqb_neq n1 0)) by lia.
Qed.

(** the automaton on the encoding of one code point *)
Lemma feed_cont v n x : 0 < n -> 0 <= x < 64 ->
  feed (v, n) (0x80 + x) = Some (if n =? 1 then [u32 (v * 64 + x)] else [], (u32 (v * 64 + x), n - 1)).
Proof.
  intros Hn Hx. destruct (cont_byte x Hx) as [E1 E2]. unfold feed.
  rewrite (proj2 (Z.leb_gt (0x80 + x) 0)), (proj2 (Z.leb_gt 256 (0x80 + x))), (proj2 (Z.ltb_lt 0 n)), E2, E1 by lia. done.
Qed.
Lemma feed_lead v b n x : 1 <= n <= 3 -> b = 256 - 2 ^ (7 - n) -> 0 <= x < 2 ^ (6 - n) -> feed (v, 0) (b + x) = Some ([], (x, n)).
Proof.
  intros Hn -> Hx.
  assert (H : forall k, 0 <= k < 256 -> implb (k <? 2 ^ (6 - n)) (Z.land (256 - 2 ^ (7 - n) + k) (Z.land (Z.shiftl 1 (7 - n) - 1) 0xFF) =? k) = true).
  { assert (n = 1 \/ n = 2 \/ n = 3) as [-> | [-> | ->]] by lia; apply byte_bits; vm_compute; reflexivity. }
  assert (x < 32) by (assert (2 ^ (6 - n) <= 2 ^ 5) by (apply Z.pow_le_mono_r; lia); lia).
  specialize (H x ltac:(lia)). rewrite (proj2 (Z.ltb_lt x _)) in H by lia. simpl in H. apply Z.eqb_eq in H.
  unfold feed. revert H. assert (n = 1 \/ n = 2 \/ n = 3) as [-> | [-> | ->]] by lia; simpl in Hx |- *; intros H;
    repeat match goal with |- context [if ?c then _ else _] => let E := fresh in destruct c eqn:E; try (exfalso; lia) end; by rewrite H.
Qed.
Ltac dlia := Z.div_mod_to_equations; lia.
Definition scalar (c : Z) : Prop := 0 < c < 0x110000.
(** reading six more bits of a value *)
Lemma six_bits c k m : 0 < k -> m = k * 64 -> 0 <= c < 2 ^ 32 -> u32 (c / m * 64 + c / k mod 64) = c / k.
Proof.
  intros Hk -> Hc. rewrite <- Z.div_div by lia. pose proof (Z.div_mod (c / k) 64). replace (_ + _) with (c / k) by lia.
  apply u32_small. split; [apply Z.div_pos; lia |]. apply Z.le_lt_trans with c; [| lia]. apply Z.div_le_upper_bound; nia.
Qed.
Lemma six_bits_last c : 0 <= c < 2 ^ 32 -> u32 (c / 64 * 64 + c mod 64) = c.
Proof. intros Hc. pose proof (six_bits c 1 64 ltac:(lia) ltac:(lia) Hc). by rewrite Z.div_1_r in *. Qed.
Lemma feed_encode v c : scalar c -> feed_all (v, 0) (utf8_encode c) = Some ([c], (c, 0)).
Proof.
  intros Hc. unfold scalar in Hc. unfold utf8_encode.
  destruct (c <? 0x80) eqn:E1; [| destruct (c <? 0x800) eqn:E2; [| destruct (c <? 0x10000) eqn:E3]]; cbn [feed_all].
  - unfold feed. rewrite (proj2 (Z.leb_gt c 0)), (proj2 (Z.leb_gt 256 c)), E1 by lia. done.
  - rewrite (feed_lead v 0xC0 1) by (simpl Z.pow; simpl Z.sub; dlia). cbn [mbind option_bind].
    rewrite feed_cont, six_bits_last by dlia. done.
  - rewrite (feed_lead v 0xE0 2) by (simpl Z.pow; simpl Z.sub; dlia). cbn [mbind option_bind].
    rewrite feed_cont, (six_bits c 64) by dlia. cbn [mbind option_bind].
    rewrite feed_cont, six_bits_last by dlia. done.
  - rewrite (feed_lead v 0xF0 3) by (simpl Z.pow; simpl Z.sub; dlia). cbn [mbind option_bind].
    rewrite feed_cont, (six_bits c 4096) by dlia. cbn [mbind option_bind].
    rewrite feed_cont, (six_bits c 64) by dlia. cbn [mbind option_bind].
    rewrite feed_cont, six_bits_last by dlia. done.
Qed.
Lemma feed_encodes v cps : Forall scalar cps -> exists v', feed_all (v, 0) (concat (utf8_encode <$> cps)) = Some (cps, (v', 0)).
Proof.
  intros H. revert v. induction H as [| c cps Hc H IH]; intros v; [by exists v |].
  destruct (IH c) as (v' & E). exists v'. cbn [fmap list_fmap concat]. rewrite feed_all_app, feed_encode by done. cbn. by rewrite E.
Qed.

(** a stream decoded piece by piece, the state of one piece carried to the next; the final 0 of each
    piece is the marker the code appends *)
Fixpoint decode_chunks (chunks : list (list Z)) (st : llama_partial_utf8) : res (list Z * llama_partial_utf8) :=
  match chunks with
  | [] => Ok ([], st)
  | c :: chunks =>
      let! (cps, st) := decode_utf8 c st in
      let! (rest, st) := decode_chunks chunks st in
      Ok (removelast cps ++ rest, st)
  end.
Lemma chunks_feed chunks v n e v' n' : 0 <= n -> feed_all (v, n) (concat chunks) = Some (e, (v', n')) ->
  decode_chunks chunks (mkPartial v n) = Ok (e, mkPartial v' n').
Proof.
  revert v n e. induction chunks as [| c chunks IH]; intros v n e Hn H; simpl in H; [by simplify_eq |].
  rewrite feed_all_app in H. destruct (feed_all (v, n) c) as [[e1 [v1 n1]] |] eqn:E1; [| done]. simpl in H.
  destruct (feed_all (v1, n1) (concat chunks)) as [[e2 [v2 n2]] |] eqn:E2; [| done]. simpl in H. simplify_eq.
  simpl. rewrite (decode_feed _ _ _ _ _ _ Hn E1). simpl.
  rewrite (IH v1 n1 e2); [simpl; by rewrite removelast_last | | done].
  clear -Hn E1. revert v n e1 Hn E1. induction c as [| b c IH]; intros v n e1 Hn E1; simpl in E1; [by simplify_eq |].
  destruct (feed (v, n) b) as [[e3 [v3 n3]] |] eqn:Ef; [| done]. simpl in E1.
  destruct (feed_all (v3, n3) c) as [[e4 st4] |] eqn:E4; [| done]. simpl in E1. simplify_eq. eapply IH, E4.
  destruct (decide (n = 0)) as [-> | ?].
  - destruct (lead_byte b (feed_pos _ _ _ Ef) v _ Ef) as (m & _ & Hm & [= _ _ ->]). lia.
  - destruct (feed_more v n b _ ltac:(lia) Ef) as (_ & _ & [= _ _ ->]). lia.
Qed.

(** C24: UTF-8 round trip across token boundaries.  The UTF-8 encoding of any sequence of code points,
    cut into pieces at arbitrary byte positions and decoded piece by piece with the partial
    character carried over, yields exactly these code points and ends with no character open. *)
Theorem decode_utf8_chunked (cps : list Z) (chunks : list (list Z)) (v : Z) :
  Forall scalar cps -> concat chunks = concat (utf8_encode <$> cps) ->
  exists v', decode_chunks chunks (mkPartial v 0) = Ok (cps, mkPartial v' 0).
Proof.
  intros Hc Hs. destruct (feed_encodes v cps Hc) as (v' & E). exists v'. apply chunks_feed; [done |]. by rewrite Hs.
Qed.
Lemma decode_utf8_chunked_witness : exists v', decode_chunks [[0x61; 0xE2]; [0x82]; [0xAC; 0xF0; 0x9F]; [0x98; 0x80]] (mkPartial 0 0)
  = Ok ([0x61; 0x20AC; 0x1F600], mkPartial v' 0).
Proof.
  apply (decode_utf8_chunked [0x61; 0x20AC; 0x1F600]); [| vm_compute; reflexivity].
  repeat constructor; vm_compute; reflexivity.
Defined.
