(* ===== verification/GrammarParse.v ===== *)
(** * The grammar parser (llama_grammar_parser, src/iian/grammar/grammar.h and grammar.cpp)

    A grammar text is parsed into rules: vectors of elements, the alternatives separated by ALT
    and the whole ended by END.  Positions in the text are the rests of it; each parsing function
    returns what it read and the rest.  Exceptions carry the fixed part of the code's message.
    The tokenizer's [encode] (a token literal is looked up by encoding it) is a parameter, [None]
    for a null vocab. *)

From S2P Require Import Prelude Text Utf8.

(** ** Data *)
Inductive llama_gretype :=
| END | ALT | RULE_REF | CHAR | CHAR_NOT | CHAR_RNG_UPPER | CHAR_ALT | CHAR_ANY | TOKEN | TOKEN_NOT.
#[global] Instance gretype_eq_dec : EqDecision llama_gretype.
Proof. solve_decision. Defined.
Record llama_grammar_element := mkElem { etype : llama_gretype; evalue : Z }.
#[global] Instance element_eq_dec : EqDecision llama_grammar_element.
Proof. solve_decision. Defined.
Notation llama_grammar_rule := (list llama_grammar_element).
Notation llama_grammar_rules := (list (list llama_grammar_element)).

Record llama_grammar_parser := mkParser { symbol_ids : gmap (list Z) Z; rules : llama_grammar_rules }.

Section Parser.
Context (vocab : option (list Z -> list Z)).

(** ** Characters, spaces, names and numbers *)
Definition is_digit_char (c : Z) : bool := (48 <=? c) && (c <=? 57).
Definition is_word_char (c : Z) : bool :=
  ((97 <=? c) && (c <=? 122)) || ((65 <=? c) && (c <=? 90)) || (c =? ch "-") || is_digit_char c.

Definition hex_digit (c : Z) : option Z :=
  if (97 <=? c) && (c <=? 102) then Some (c - 97 + 10)
  else if (65 <=? c) && (c <=? 70) then Some (c - 65 + 10)
  else if (48 <=? c) && (c <=? 57) then Some (c - 48)
  else None.
Fixpoint hex_loop (size : nat) (value : Z) (pos : list Z) : res (Z * list Z) :=
  match size with
  | O => Ok (value, pos)
  | S size =>
      if peek pos =? 0 then throw! "expecting hex chars" else
      match hex_digit (peek pos) with
      | Some d => hex_loop size (u32 (u32 (value * 16) + d)) (drop 1 pos)
      | None => throw! "expecting hex chars"
      end
  end.
Definition parse_hex (src : list Z) (size : nat) : res (Z * list Z) := hex_loop size 0 src.

(** spaces and comments; [comment]: inside a comment *)
Fixpoint space_loop (newline_ok comment : bool) (pos : list Z) : list Z :=
  match pos with
  | [] => []
  | c :: pos' =>
      let eol := (c =? creturn) || (c =? newline) in
      if comment && negb ((c =? 0) || eol) then space_loop newline_ok true pos'
      else if c =? ch "#" then space_loop newline_ok true pos'
      else if (c =? ch " ") || (c =? tab) || (newline_ok && eol) then space_loop newline_ok false pos'
      else pos
  end.
Definition parse_space (src : list Z) (newline_ok : bool) : list Z := space_loop newline_ok false src.

(** the rest after the longest prefix of characters with property [p] *)
Fixpoint skip_while (p : Z -> bool) (pos : list Z) : list Z :=
  match pos with
  | [] => []
  | c :: pos' => if p c then skip_while p pos' else pos
  end.
Definition parse_name (src : list Z) : res (list Z) :=
  if is_word_char (peek src) then Ok (skip_while is_word_char src) else throw! "expecting name".
Definition parse_int (src : list Z) : res (list Z) :=
  if is_digit_char (peek src) then Ok (skip_while is_digit_char src) else throw! "expecting integer".

Definition parse_char (src : list Z) : res (Z * list Z) :=
  if peek src =? ch "\" then
    let c := peek_at 1 src in
    let pos := drop 2 src in
    if c =? ch "x" then parse_hex pos 2
    else if c =? ch "u" then parse_hex pos 4
    else if c =? ch "U" then parse_hex pos 8
    else if c =? ch "t" then Ok (tab, pos)
    else if c =? ch "r" then Ok (creturn, pos)
    else if c =? ch "n" then Ok (newline, pos)
    else if (c =? ch "\") || (c =? quote) || (c =? ch "[") || (c =? ch "]") || (c =? ch "-") then Ok (c, pos)
    else throw! "unknown escape"
  else if negb (peek src =? 0) then decode_one src
  else throw! "unexpected end of input".

Definition expect (c : Z) (msg : string) (pos : list Z) : res (list Z) :=
  if peek pos =? c then Ok (drop 1 pos) else throw! msg.

Definition parse_token (src : list Z) : res (Z * list Z) :=
  let! pos := expect (ch "<") "expecting '<'" src in
  if peek pos =? ch "[" then
    let pos := drop 1 pos in
    let! int_end := parse_int pos in
    let! v := stoull (span pos int_end) in
    let token_id := u32 v in
    let! pos := expect (ch "]") "expecting ']'" int_end in
    let! pos := expect (ch ">") "expecting '>'" pos in
    Ok (token_id, pos)
  else
    match vocab with
    | None => throw! "no vocab to parse token"
    | Some encode =>
        let pos := skip_while (fun c => negb (c =? 0) && negb (c =? ch ">")) pos in
        let! pos := expect (ch ">") "expecting '>'" pos in
        match encode (span src pos) with
        | [t] => Ok (u32 t, pos)
        | _ => throw! "invalid token"
        end
    end.

(** ** Symbols and rules *)
Definition n_symbols (p : llama_grammar_parser) : Z := Z.of_nat (size (symbol_ids p)).
Definition get_symbol_id (name : list Z) (p : llama_grammar_parser) : Z * llama_grammar_parser :=
  let next_id := u32 (n_symbols p) in
  match symbol_ids p !! name with
  | Some i => (i, p)
  | None => (next_id, mkParser (<[name := next_id]> (symbol_ids p)) (rules p))
  end.
Definition generate_symbol_id (base_name : list Z) (p : llama_grammar_parser) : Z * llama_grammar_parser :=
  let next_id := u32 (n_symbols p) in
  (next_id, mkParser (<[base_name ++ [ch "_"] ++ to_string next_id := next_id]> (symbol_ids p)) (rules p)).
Definition add_rule (rule_id : Z) (rule : llama_grammar_rule) (p : llama_grammar_parser) : llama_grammar_parser :=
  let rs := rules p in
  let rs := if Zlen rs <=? rule_id then rs ++ replicate (Z.to_nat (rule_id + 1 - Zlen rs)) [] else rs in
  mkParser (symbol_ids p) (vinsert rule_id rule rs).

(** ** Sequences *)
(** the locals of parse_sequence: the rule being built, where its last symbol starts, and the number
    of rules that symbol stands for *)
Record SeqState := mkSeq { sq_rule : llama_grammar_rule; last_sym_start : nat; n_prev_rules : Z }.
Definition MAX_REPETITION_THRESHOLD : Z := 2000.
Definition UINT64_MAX : Z := 2 ^ 64 - 1.

(** the loop that adds the optional repetitions S'(1), S'(2), ...  The count is the code's 64-bit one: for {3,2} it is
    2^64 - 1, and the loop is then recursion of this depth here, which has a value, while the program runs out of
    memory, which is not represented *)
Fixpoint rec_rules (n : nat) (first no_max : bool) (rule_name : list Z) (prev_rule : llama_grammar_rule)
    (last_rec_rule_id : Z) (p : llama_grammar_parser) : Z * llama_grammar_parser :=
  match n with
  | O => (last_rec_rule_id, p)
  | S n =>
      let '(rec_rule_id, p) := generate_symbol_id rule_name p in
      let rec_rule := prev_rule
        ++ (if negb first || no_max then [mkElem RULE_REF (if no_max then rec_rule_id else last_rec_rule_id)] else [])
        ++ [mkElem ALT 0; mkElem END 0] in
      rec_rules n false no_max rule_name prev_rule rec_rule_id (add_rule rec_rule_id rec_rule p)
  end.
Definition handle_repetitions (rule_name : list Z) (min_times max_times : Z) (st : SeqState) (p : llama_grammar_parser)
    : res (SeqState * llama_grammar_parser) :=
  let no_max := max_times =? UINT64_MAX in
  let rule := sq_rule st in
  if (last_sym_start st =? length rule)%nat then throw! "expecting preceding item to */+/?/{" else
  let prev_rule := drop (last_sym_start st) rule in
  let total_rules := if negb no_max && (0 <? max_times) then max_times else if 0 <? min_times then min_times else 1 in
  if MAX_REPETITION_THRESHOLD <? u64 (n_prev_rules st * total_rules)
  then throw! "number of rules that are going to be repeated exceeds sane defaults" else
  let rule := if min_times =? 0 then take (last_sym_start st) rule
              else rule ++ concat (replicate (Z.to_nat (min_times - 1)) prev_rule) in
  let n_opt := if no_max then 1 else u64 (max_times - min_times) in
  let '(last_rec_rule_id, p) := rec_rules (Z.to_nat n_opt) true no_max rule_name prev_rule 0 p in
  let rule := if 0 <? n_opt then rule ++ [mkElem RULE_REF last_rec_rule_id] else rule in
  let n_prev := u64 (n_prev_rules st * total_rules) in
  if n_prev <? 1 then Err (UB "GGML_ASSERT(n_prev_rules >= 1)") else
  Ok (mkSeq rule (last_sym_start st) n_prev, p).

(** the characters of a literal, up to the closing quote *)
Fixpoint literal_loop (fuel : nat) (pos : list Z) (rule : llama_grammar_rule) : res (list Z * llama_grammar_rule) :=
  match fuel with
  | O => Err Fuel
  | S fuel =>
      if peek pos =? quote then Ok (pos, rule)
      else if peek pos =? 0 then throw! "unexpected end of input"
      else let! (c, pos) := parse_char pos in literal_loop fuel pos (rule ++ [mkElem CHAR c])
  end.
(** the characters and ranges of a class, up to the closing bracket *)
Fixpoint class_loop (fuel : nat) (start_type : llama_gretype) (start : nat) (pos : list Z) (rule : llama_grammar_rule)
    : res (list Z * llama_grammar_rule) :=
  match fuel with
  | O => Err Fuel
  | S fuel =>
      if peek pos =? ch "]" then Ok (pos, rule)
      else if peek pos =? 0 then throw! "unexpected end of input"
      else
        let! (c, pos) := parse_char pos in
        let type := if (start <? length rule)%nat then CHAR_ALT else start_type in
        let rule := rule ++ [mkElem type c] in
        if (peek pos =? ch "-") && negb (peek_at 1 pos =? ch "]") then
          if peek_at 1 pos =? 0 then throw! "unexpected end of input"
          else let! (e, pos) := parse_char (drop 1 pos) in
               class_loop fuel start_type start pos (rule ++ [mkElem CHAR_RNG_UPPER e])
        else class_loop fuel start_type start pos rule
  end.
(** the bounds of a repetition in braces *)
Definition parse_bounds (is_nested : bool) (pos : list Z) : res (Z * Z * list Z) :=
  if negb (is_digit_char (peek pos)) then throw! "expecting an int" else
  let! int_end := parse_int pos in
  let! min_times := stoull (span pos int_end) in
  let pos := parse_space int_end is_nested in
  let! (max_times, pos) :=
    if peek pos =? ch "}" then Ok (min_times, parse_space (drop 1 pos) is_nested)
    else if peek pos =? ch "," then
      let pos := parse_space (drop 1 pos) is_nested in
      let! (max_times, pos) :=
        if is_digit_char (peek pos) then
          let! int_end := parse_int pos in
          let! m := stoull (span pos int_end) in
          Ok (m, parse_space int_end is_nested)
        else Ok (UINT64_MAX, pos) in
      let! pos := expect (ch "}") "expecting '}'" pos in
      Ok (max_times, parse_space pos is_nested)
    else throw! "expecting ','" in
  if MAX_REPETITION_THRESHOLD <? min_times then throw! "number of repetitions exceeds sane defaults" else
  let max_times := if negb (max_times =? UINT64_MAX) && (MAX_REPETITION_THRESHOLD <? max_times) then UINT64_MAX else max_times in
  Ok (min_times, max_times, pos).

(** parse_sequence's loop from its state [st], parse_alternates and its loop over the alternatives *)
Fixpoint parse_sequence (fuel : nat) (pos rule_name : list Z) (is_nested : bool) (st : SeqState) (p : llama_grammar_parser)
    {struct fuel} : res (list Z * SeqState * llama_grammar_parser) :=
  match fuel with
  | O => Err Fuel
  | S fuel =>
      let rule := sq_rule st in
      let start := length rule in
      let c := peek pos in
      if c =? 0 then Ok (pos, st, p)
      else if c =? quote then
        let! (pos, rule) := literal_loop (length pos) (drop 1 pos) rule in
        parse_sequence fuel (parse_space (drop 1 pos) is_nested) rule_name is_nested (mkSeq rule start 1) p
      else if c =? ch "[" then
        let pos := drop 1 pos in
        let '(start_type, pos) := if peek pos =? ch "^" then (CHAR_NOT, drop 1 pos) else (CHAR, pos) in
        let! (pos, rule) := class_loop (S (length pos)) start_type start pos rule in
        parse_sequence fuel (parse_space (drop 1 pos) is_nested) rule_name is_nested (mkSeq rule start 1) p
      else if (c =? ch "<") || (c =? ch "!") then
        let '(type, pos) := if c =? ch "!" then (TOKEN_NOT, drop 1 pos) else (TOKEN, pos) in
        let! (token, token_end) := parse_token pos in
        parse_sequence fuel (parse_space token_end is_nested) rule_name is_nested (mkSeq (rule ++ [mkElem type token]) start 1) p
      else if is_word_char c then
        let! name_end := parse_name pos in
        let '(ref_rule_id, p) := get_symbol_id (span pos name_end) p in
        parse_sequence fuel (parse_space name_end is_nested) rule_name is_nested (mkSeq (rule ++ [mkElem RULE_REF ref_rule_id]) start 1) p
      else if c =? ch "(" then
        let pos := parse_space (drop 1 pos) true in
        let n_rules_before := u32 (n_symbols p) in
        let '(sub_rule_id, p) := generate_symbol_id rule_name p in
        let! (pos, p) := parse_alternates fuel pos rule_name sub_rule_id true p in
        let n_prev := Z.max 1 (u32 (u32 (n_symbols p) - n_rules_before)) in
        let! pos := expect (ch ")") "expecting ')'" pos in
        parse_sequence fuel (parse_space pos is_nested) rule_name is_nested (mkSeq (rule ++ [mkElem RULE_REF sub_rule_id]) start n_prev) p
      else if c =? ch "." then
        parse_sequence fuel (parse_space (drop 1 pos) is_nested) rule_name is_nested (mkSeq (rule ++ [mkElem CHAR_ANY 0]) start 1) p
      else if c =? ch "*" then
        let pos := parse_space (drop 1 pos) is_nested in
        let! (st, p) := handle_repetitions rule_name 0 UINT64_MAX st p in
        parse_sequence fuel pos rule_name is_nested st p
      else if c =? ch "+" then
        let pos := parse_space (drop 1 pos) is_nested in
        let! (st, p) := handle_repetitions rule_name 1 UINT64_MAX st p in
        parse_sequence fuel pos rule_name is_nested st p
      else if c =? ch "?" then
        let pos := parse_space (drop 1 pos) is_nested in
        let! (st, p) := handle_repetitions rule_name 0 1 st p in
        parse_sequence fuel pos rule_name is_nested st p
      else if c =? ch "{" then
        let! (min_times, max_times, pos) := parse_bounds is_nested (parse_space (drop 1 pos) is_nested) in
        let! (st, p) := handle_repetitions rule_name min_times max_times st p in
        parse_sequence fuel pos rule_name is_nested st p
      else Ok (pos, st, p)
  end
with parse_alternates (fuel : nat) (src rule_name : list Z) (rule_id : Z) (is_nested : bool) (p : llama_grammar_parser)
    {struct fuel} : res (list Z * llama_grammar_parser) :=
  match fuel with
  | O => Err Fuel
  | S fuel =>
      let! (pos, st, p) := parse_sequence fuel src rule_name is_nested (mkSeq [] 0 1) p in
      let! (pos, rule, p) := alternates_loop fuel pos rule_name is_nested (sq_rule st) p in
      Ok (pos, add_rule rule_id (rule ++ [mkElem END 0]) p)
  end
with alternates_loop (fuel : nat) (pos rule_name : list Z) (is_nested : bool) (rule : llama_grammar_rule) (p : llama_grammar_parser)
    {struct fuel} : res (list Z * llama_grammar_rule * llama_grammar_parser) :=
  match fuel with
  | O => Err Fuel
  | S fuel =>
      if peek pos =? ch "|" then
        let rule := rule ++ [mkElem ALT 0] in
        let! (pos, st, p) := parse_sequence fuel (parse_space (drop 1 pos) true) rule_name is_nested (mkSeq rule (length rule) 1) p in
        alternates_loop fuel pos rule_name is_nested (sq_rule st) p
      else Ok (pos, rule, p)
  end.

(** ** Rules and grammars *)
(** twice the bytes left, and the two calls that read none *)
Definition parse_fuel (pos : list Z) : nat := 2 * length pos + 2.
Definition parse_rule (src : list Z) (p : llama_grammar_parser) : res (list Z * llama_grammar_parser) :=
  let! name_end := parse_name src in
  let pos := parse_space name_end false in
  let name := span src name_end in
  let '(rule_id, p) := get_symbol_id name p in
  if negb ((peek pos =? ch ":") && (peek_at 1 pos =? ch ":") && (peek_at 2 pos =? ch "=")) then throw! "expecting ::=" else
  let pos := parse_space (drop 3 pos) true in
  let! (pos, p) := parse_alternates (parse_fuel pos) pos name rule_id false p in
  let! pos :=
    if peek pos =? creturn then Ok (drop (if peek_at 1 pos =? newline then 2 else 1) pos)
    else if peek pos =? newline then Ok (drop 1 pos)
    else if negb (peek pos =? 0) then throw! "expecting newline or end"
    else Ok pos in
  Ok (parse_space pos true, p).
Fixpoint rules_loop (fuel : nat) (pos : list Z) (p : llama_grammar_parser) : res llama_grammar_parser :=
  match fuel with
  | O => Err Fuel
  | S fuel => if peek pos =? 0 then Ok p else let! (pos, p) := parse_rule pos p in rules_loop fuel pos p
  end.

(** the validation after parsing: no rule is empty and no named reference is undefined *)
Definition elem_undefined (p : llama_grammar_parser) (e : llama_grammar_element) : bool :=
  bool_decide (etype e = RULE_REF)
  && (match vlookup (rules p) (evalue e) with Some (_ :: _) => false | _ => true end)
  && bool_decide (Exists (fun kv => kv.2 = evalue e) (map_to_list (symbol_ids p))).
Definition rule_invalid (p : llama_grammar_parser) (r : llama_grammar_rule) : bool :=
  bool_decide (r = []) || existsb (elem_undefined p) r.

(** [None] is the result false of the code (which also clears the rules) *)
Definition parse (src : list Z) : res (option llama_grammar_parser) :=
  let pos := parse_space src true in
  match rules_loop (S (length pos)) pos (mkParser ∅ []) with
  | Err (Throw _) => Ok None
  | Err e => Err e
  | Ok p => if existsb (rule_invalid p) (rules p) then Ok None else Ok (Some p)
  end.
End Parser.
