(* ===== verification/GrammarParseFacts.v ===== *)
(** * Facts of the grammar parser: what each parsing function consumes, and the shape of rules *)

From S2P Require Import Prelude Text Utf8 GrammarParse.

(** ** Rests *)
Definition byte_string (s : list Z) : Prop := Forall (fun c => 0 <= c < 256) s.
Lemma byte_string_rest pos src : rest_of pos src -> byte_string src -> byte_string pos.
Proof. intros [p ->]. unfold byte_string. rewrite Forall_app. tauto. Qed.
Lemma rest_of_cons c s pos : rest_of pos s -> rest_of pos (c :: s).
Proof. intros [p ->]. by exists (c :: p). Qed.
Lemma rest_of_tail pos src : rest_of pos (drop 1 src) -> rest_of pos src.
Proof. destruct src; [done |]. apply rest_of_cons. Qed.
Lemma rest_strict pos src : peek src <> 0 -> rest_of pos (drop 1 src) -> (length pos < length src)%nat.
Proof. destruct src as [| c s]; [done |]. simpl. rewrite drop_0. intros _ H%rest_of_length. lia. Qed.
Lemma space_loop_rest nl b s : rest_of (space_loop nl b s) s.
Proof.
  revert b. induction s as [| c s IH]; intros b; simpl; [done |]. repeat case_match; try done; apply rest_of_cons, IH.
Qed.
Lemma parse_space_rest s nl src : rest_of s src -> rest_of (parse_space s nl) src.
Proof. intros H. etransitivity; [apply space_loop_rest | done]. Qed.
Lemma skip_while_rest p s : rest_of (skip_while p s) s.
Proof. induction s as [| c s IH]; simpl; [done |]. destruct (p c); [by apply rest_of_cons | done]. Qed.
Lemma drop_rest k s src : rest_of s src -> rest_of (drop k s) src.
Proof. intros H. etransitivity; [apply rest_of_drop | done]. Qed.
Lemma drop_rest_S k s : rest_of (drop (S k) s) (drop 1 s).
Proof. destruct s as [| c s]; [by rewrite !drop_nil |]. simpl. rewrite drop_0. apply rest_of_drop. Qed.
#[export] Hint Resolve parse_space_rest drop_rest skip_while_rest drop_rest_S rest_of_tail : iian.
Ltac rest := solve [eauto 6 with iian | etransitivity; eauto 6 with iian].

Lemma hex_loop_safe n v s : safe (fun '(_, pos) => rest_of pos s) (hex_loop n v s).
Proof.
  revert v s. induction n as [| n IH]; intros v s; simpl; [done |]. destruct (peek s =? 0); [done |].
  destruct (hex_digit _); [| done]. eapply safe_weaken; [apply IH |]. intros [c pos]. apply rest_of_tail.
Qed.
Lemma take_cont_rest n v s : rest_of (take_cont n v s).2 s.
Proof.
  revert v s. induction n as [| n IH]; intros v [| c s]; simpl; try done. destruct (c =? 0); [done |]. apply rest_of_cons, IH.
Qed.
Lemma lookup1_total b : 0 <= b < 256 -> exists l, vget lookup1 (Z.shiftr b 4) = Ok l.
Proof.
  intros Hb. pose proof (byte_bits (fun b => match vget lookup1 (Z.shiftr b 4) with Ok _ => true | _ => false end) ltac:(vm_compute; reflexivity) b Hb) as H.
  simpl in H. destruct (vget _ _) as [l |]; [by exists l | done].
Qed.
Lemma parse_char_safe s : peek s <> 0 -> byte_string s -> safe (fun '(_, pos) => rest_of pos (drop 1 s)) (parse_char s).
Proof.
  intros Hs Hb. unfold parse_char. destruct (peek s =? ch "\").
  - assert (Hx : forall n, safe (fun '(_, pos) => rest_of pos (drop 1 s)) (parse_hex (drop 2 s) n)).
    { intros n. eapply safe_weaken; [apply hex_loop_safe |]. intros [c pos] H. simpl in *. rest. }
    repeat case_match; simpl; try done; apply drop_rest_S.
  - rewrite (proj2 (Z.eqb_neq _ 0)) by done. simpl. unfold decode_one. destruct s as [| c s]; [done |].
    apply Forall_cons in Hb as [Hc _]. destruct (lookup1_total c Hc) as [l El]. cbn [peek drop]. rewrite El. simpl.
    destruct (take_cont _ _ _) as [v pos] eqn:E. pose proof (take_cont_rest (Z.to_nat (l - 1)) (Z.land c (Z.land (Z.shiftl 1 (8 - l) - 1) 255)) s) as H.
    rewrite drop_0 in *. by rewrite E in H.
Qed.
Lemma stoull_safe ds : Forall (fun c => is_digit_char c = true) ds -> safe (fun v => 0 <= v < 2 ^ 64) (stoull ds).
Proof.
  intros Hd. unfold stoull. destruct (_ <? _) eqn:E; [| done]. simpl. split; [| lia]. clear E. unfold digits_value.
  assert (H0 : 0 <= 0) by done. revert H0. generalize 0 at 2 4. induction Hd as [| c ds Hc Hd IH]; intros v Hv; simpl; [done |].
  apply IH. unfold is_digit_char in Hc. lia.
Qed.
Lemma span_app p pos : span (p ++ pos) pos = p.
Proof. unfold span. rewrite length_app. replace (_ - _)%nat with (length p) by lia. apply take_app_length. Qed.
Lemma span_skip_while p s : Forall (fun c => p c = true) (span s (skip_while p s)).
Proof.
  assert (H : exists q, s = q ++ skip_while p s /\ Forall (fun c => p c = true) q).
  { induction s as [| c s (q & Hq & Hf)]; [by exists [] |]. simpl. destruct (p c) eqn:E; [| by exists []].
    exists (c :: q). simpl. rewrite <- Hq. split; [done | by constructor]. }
  destruct H as (q & Hq & Hf). by rewrite Hq, span_app at 1.
Qed.
Lemma skip_while_strict p s : p (peek s) = true -> p 0 = false -> rest_of (skip_while p s) (drop 1 s) /\ peek s <> 0.
Proof.
  intros H H0. destruct s as [| c s]; [simpl in H; congruence |]. simpl in *. rewrite H, drop_0. split; [apply skip_while_rest |]. congruence.
Qed.
Lemma parse_int_safe s : safe (fun e => rest_of e (drop 1 s) /\ peek s <> 0 /\ Forall (fun c => is_digit_char c = true) (span s e)) (parse_int s).
Proof.
  unfold parse_int. destruct (is_digit_char (peek s)) eqn:E; [| done]. simpl. destruct (skip_while_strict _ _ E eq_refl). 
  split_and!; [done | done | apply span_skip_while].
Qed.
Lemma parse_name_safe s : safe (fun e => rest_of e (drop 1 s) /\ peek s <> 0 /\ Forall (fun c => is_word_char c = true) (span s e)) (parse_name s).
Proof.
  unfold parse_name. destruct (is_word_char (peek s)) eqn:E; [| done]. simpl. destruct (skip_while_strict _ _ E eq_refl). 
  split_and!; [done | done | apply span_skip_while].
Qed.
Lemma expect_safe c msg s : c <> 0 -> safe (fun pos => rest_of pos (drop 1 s) /\ peek s = c) (expect c msg s).
Proof. intros Hc. unfold expect. destruct (peek s =? c) eqn:E; [| done]. simpl. split; [done | lia]. Qed.

Lemma parse_token_safe vocab s : safe (fun '(_, pos) => rest_of pos (drop 1 s)) (parse_token vocab s).
Proof.
  unfold parse_token. eapply safe_bind; [by apply expect_safe |]. intros pos [Hr _]. destruct (peek pos =? ch "[").
  - eapply safe_bind; [apply parse_int_safe |]. intros e (He & _ & Hd). eapply safe_bind; [by apply stoull_safe |]. intros v _.
    eapply safe_bind; [by apply expect_safe |]. intros p1 [H1 _]. eapply safe_bind; [by apply expect_safe |]. intros p2 [H2 _]. simpl.
    transitivity p1; [by apply rest_of_tail |]. transitivity e; [by apply rest_of_tail |]. transitivity (drop 1 pos); [by apply rest_of_tail |]. rest.
  - destruct vocab as [encode |]; [| done]. eapply safe_bind; [by apply expect_safe |]. intros p1 [H1 _].
    destruct (encode _) as [| t []]; try done. simpl. etransitivity; [apply rest_of_tail, H1 |]. etransitivity; [apply skip_while_rest | done].
Qed.
Lemma parse_bounds_safe nested s : safe (fun '(mn, mx, pos) => rest_of pos s /\ 0 <= mn <= MAX_REPETITION_THRESHOLD
    /\ (mx = UINT64_MAX \/ 0 <= mx <= MAX_REPETITION_THRESHOLD)) (parse_bounds nested s).
Proof.
  unfold parse_bounds. destruct (negb _); [done |].
  eapply safe_bind; [apply parse_int_safe |]. intros e (He & _ & Hd). eapply safe_bind; [by apply stoull_safe |]. intros mn Hmn. cbn beta in Hmn.
  eapply (safe_bind (fun '(mx, pos) => rest_of pos s /\ 0 <= mx <= UINT64_MAX)).
  - set (pos := parse_space e nested). assert (Hp : rest_of pos s) by (apply parse_space_rest, rest_of_tail, He).
    destruct (peek pos =? ch "}"); [simpl; split; [rest | unfold UINT64_MAX; lia] |]. destruct (peek pos =? ch ","); [| done].
    set (p2 := parse_space (drop 1 pos) nested). assert (H2 : rest_of p2 s) by (subst p2; rest).
    eapply (safe_bind (fun '(mx, pos) => rest_of pos s /\ 0 <= mx <= UINT64_MAX)).
    + destruct (is_digit_char (peek p2)); [| simpl; split; [done | unfold UINT64_MAX; lia]].
      eapply safe_bind; [apply parse_int_safe |]. intros e2 (He2 & _ & Hd2). eapply safe_bind; [by apply stoull_safe |]. intros m Hm. cbn beta in Hm. simpl.
      split; [| unfold UINT64_MAX; lia]. apply parse_space_rest. transitivity p2; [by apply rest_of_tail | done].
    + intros [mx p3] [H3 Hmx]. eapply safe_bind; [by apply expect_safe |]. intros p4 [H4 _]. simpl. split; [| done].
      apply parse_space_rest. transitivity p3; [by apply rest_of_tail | done].
  - intros [mx pos] [Hp Hmx]. cbn beta in Hmx. destruct (_ <? mn) eqn:E1; [done |]. simpl. split_and!; [done | lia | lia |].
    destruct (negb _ && _) eqn:E2; [by left |]. apply andb_false_iff in E2 as [E2 | E2]; [left | right]; lia.
Qed.

(** ** The shape of rules

    A body is a sequence of items separated by ALT: a CHAR or CHAR_NOT may be followed by its range
    bound and by alternatives of the class, everything else stands alone.  A rule is a body and END. *)
Inductive pstate := Start | InChar | InRange.
Definition elem_step (s : pstate) (t : llama_gretype) : option pstate :=
  match t with
  | CHAR | CHAR_NOT => Some InChar
  | CHAR_RNG_UPPER => match s with InChar => Some InRange | _ => None end
  | CHAR_ALT => match s with Start => None | _ => Some InChar end
  | END => None
  | _ => Some Start
  end.
Fixpoint shape (s : pstate) (l : llama_grammar_rule) : option pstate :=
  match l with
  | [] => Some s
  | e :: l => match elem_step s (etype e) with Some s => shape s l | None => None end
  end.
Definition wf_body (l : llama_grammar_rule) : Prop := is_Some (shape Start l).
Definition wf_rule (r : llama_grammar_rule) : Prop := exists body, r = body ++ [mkElem END 0] /\ wf_body body.

Lemma shape_app s a b : shape s (a ++ b) = match shape s a with Some s => shape s b | None => None end.
Proof. revert s. induction a as [| e a IH]; intros s; simpl; [done |]. destruct (elem_step s (etype e)); [apply IH | done]. Qed.
Lemma shape_start s l : wf_body l -> is_Some (shape s l).
Proof.
  destruct l as [| e l]; [by exists s |]. unfold wf_body. simpl. destruct (etype e), s; simpl; try done; by intros [? ?].
Qed.
Lemma wf_body_app a b : wf_body a -> wf_body b -> wf_body (a ++ b).
Proof. intros [s Hs] Hb. unfold wf_body. rewrite shape_app, Hs. by apply shape_start. Qed.
Lemma wf_body_repeat n l : wf_body l -> wf_body (concat (replicate n l)).
Proof. intros H. induction n as [| n IH]; simpl; [by exists Start | by apply wf_body_app]. Qed.
Lemma wf_body_one t v : t <> END -> t <> CHAR_RNG_UPPER -> t <> CHAR_ALT -> wf_body [mkElem t v].
Proof. unfold wf_body. simpl. destruct t; simpl; intros; try done; eauto. Qed.

(** ** Symbols: ids stay named *)
Definition no_underscore (s : list Z) : Prop := ch "_" ∉ s.
Definition sym_ok (m : gmap (list Z) Z) : Prop :=
  forall k v, m !! k = Some v -> no_underscore k \/ exists base, no_underscore base /\ k = base ++ ch "_" :: to_string v.
Definition named (p : llama_grammar_parser) (v : Z) : Prop := exists k, symbol_ids p !! k = Some v.
Definition refs_named (p : llama_grammar_parser) (l : llama_grammar_rule) : Prop :=
  Forall (fun e => etype e = RULE_REF -> named p (evalue e)) l.
Definition rules_ok (p : llama_grammar_parser) : Prop := Forall (fun r => r = [] \/ (wf_rule r /\ refs_named p r)) (rules p).
Definition parser_ok (p : llama_grammar_parser) : Prop := sym_ok (symbol_ids p) /\ rules_ok p.
Definition grows (p q : llama_grammar_parser) : Prop := symbol_ids p ⊆ symbol_ids q.
#[global] Instance grows_po : PreOrder grows.
Proof. split; [intros p; unfold grows; done |]. intros a b c. unfold grows. apply transitivity. Qed.

Lemma refs_named_grows p q l : grows p q -> refs_named p l -> refs_named q l.
Proof.
  intros Hg Hl. eapply Forall_impl; [apply Hl |]. intros e He Ht. destruct (He Ht) as [k Hk]. exists k. by eapply lookup_weaken.
Qed.
Lemma refs_named_app p a b : refs_named p (a ++ b) <-> refs_named p a /\ refs_named p b.
Proof. apply Forall_app. Qed.
Lemma refs_named_plain p t v : t <> RULE_REF -> refs_named p [mkElem t v].
Proof. intros H. repeat constructor. simpl. done. Qed.
Lemma rules_ok_syms p m : symbol_ids p ⊆ m -> rules_ok p -> rules_ok (mkParser m (rules p)).
Proof.
  intros Hg Hl. eapply Forall_impl; [apply Hl |]. intros r [-> | [Hw Hr]]; [by left | right]. split; [done |]. by eapply refs_named_grows, Hr.
Qed.
Lemma app_underscore_inj a b x y : no_underscore a -> no_underscore b -> a ++ ch "_" :: x = b ++ ch "_" :: y -> a = b /\ x = y.
Proof.
  unfold no_underscore. revert b. induction a as [| c a IH]; intros [| d b] Ha Hb H; simpl in H; simplify_eq; [done | | |].
  - exfalso. apply Hb. left.
  - exfalso. apply Ha. left.
  - destruct (IH b) as [-> ->]; [set_solver | set_solver | done |]. done.
Qed.
Lemma get_symbol_id_ok name p : no_underscore name -> parser_ok p ->
  let '(i, q) := get_symbol_id name p in parser_ok q /\ grows p q /\ named q i.
Proof.
  intros Hn [Hs Hr]. unfold get_symbol_id. destruct (symbol_ids p !! name) as [i |] eqn:E.
  - split_and!; try done. by exists name.
  - assert (Hg : symbol_ids p ⊆ <[name := u32 (n_symbols p)]> (symbol_ids p)) by by apply insert_subseteq.
    split_and!; [| done | exists name; simpl; by rewrite lookup_insert_eq].
    split; [| by apply rules_ok_syms]. cbn [symbol_ids]. intros k v [[<- <-] | [Hne Hk]]%lookup_insert_Some; [by left | by apply Hs].
Qed.
Lemma generate_symbol_id_ok base p : no_underscore base -> parser_ok p ->
  let '(i, q) := generate_symbol_id base p in parser_ok q /\ grows p q /\ named q i /\ rules q = rules p.
Proof.
  intros Hn [Hs Hr]. unfold generate_symbol_id. set (i := u32 (n_symbols p)). set (k := base ++ [ch "_"] ++ to_string i).
  assert (Hg : symbol_ids p ⊆ <[k := i]> (symbol_ids p)).
  { apply map_subseteq_spec. intros k' v Hk. destruct (decide (k' = k)) as [-> | Hne]; [| by rewrite lookup_insert_ne].
    rewrite lookup_insert_eq. f_equal. destruct (Hs k v Hk) as [Hu | (b & Hb & He)].
    - exfalso. apply Hu. subst k. set_solver.
    - apply app_underscore_inj in He as [_ He]; [| done | done]. by apply to_string_inj in He. }
  split_and!; [| done | exists k; simpl; by rewrite lookup_insert_eq | done]. split; [| by apply rules_ok_syms]. cbn [symbol_ids].
  intros k' v [[<- <-] | [Hne Hk]]%lookup_insert_Some; [right; by exists base | by apply Hs].
Qed.
Lemma vinsert_Forall {A} (P : A -> Prop) i x l : Forall P l -> P x -> Forall P (vinsert i x l).
Proof. intros Hl Hx. unfold vinsert. case_match; [by apply Forall_insert | done]. Qed.
Lemma add_rule_ok i r p : wf_rule r -> refs_named p r -> parser_ok p -> parser_ok (add_rule i r p).
Proof.
  intros Hw Hn [Hs Hr]. split; [done |]. unfold rules_ok, add_rule. simpl. apply vinsert_Forall; [| by right]. case_match; [| done].
  apply Forall_app. split; [done |]. apply Forall_replicate. by left.
Qed.
