(* ===== verification/GrammarParseProps.v ===== *)
(** * The grammar parser terminates without undefined behaviour and yields well-formed rules *)

From S2P Require Import Prelude Text Utf8 GrammarParse GrammarParseFacts.

(** ** Literals and classes *)
Lemma literal_loop_safe fuel s rule : (length s < fuel)%nat -> byte_string s ->
  safe (fun '(pos, rule') => rest_of pos s /\ exists l, rule' = rule ++ l /\ wf_body l /\ forall p, refs_named p l) (literal_loop fuel s rule).
Proof.
  revert s rule. induction fuel as [| fuel IH]; intros s rule Hf Hb; [lia |]. simpl.
  destruct (peek s =? quote).
  { simpl. split; [done |]. exists []. rewrite app_nil_r. split_and!; [done | by exists Start | by intros; constructor]. }
  destruct (peek s =? 0) eqn:E; [done |]. assert (Hs : peek s <> 0) by lia.
  eapply safe_bind; [by apply parse_char_safe |]. intros [c pos] Hp. cbn beta iota in Hp.
  eapply safe_weaken; [apply IH |].
  - pose proof (rest_strict pos s Hs Hp). lia.
  - eapply byte_string_rest, Hb. by apply rest_of_tail.
  - intros [pos' rule'] (Hr & l & -> & Hw & Hn). split; [etransitivity; [done |]; by apply rest_of_tail |].
    exists ([mkElem CHAR c] ++ l). rewrite app_assoc. split_and!; [done | by apply wf_body_app; [apply wf_body_one |] |].
    intros p. apply refs_named_app. split; [by apply refs_named_plain | apply Hn].
Qed.
(** the elements of a class read so far: none, or a sequence that another alternative may follow *)
Definition class_ok (l : llama_grammar_rule) : Prop := l = [] \/ shape Start l = Some InChar \/ shape Start l = Some InRange.
Lemma class_ok_wf l : class_ok l -> wf_body l.
Proof. unfold wf_body. intros [-> | [-> | ->]]; simpl; eauto. Qed.
Lemma class_loop_safe fuel t start s pre l : (length s < fuel)%nat -> byte_string s -> t = CHAR \/ t = CHAR_NOT -> length pre = start ->
  class_ok l -> (forall p, refs_named p l) ->
  safe (fun '(pos, rule') => rest_of pos s /\ exists l, rule' = pre ++ l /\ wf_body l /\ forall p, refs_named p l) (class_loop fuel t start s (pre ++ l)).
Proof.
  intros Hf Hb Ht <-. revert s l Hf Hb. induction fuel as [| fuel IH]; intros s l Hf Hb Hl Hn; [lia |]. cbn [class_loop].
  destruct (peek s =? ch "]"); [simpl; split; [done |]; exists l; split_and!; [done | by apply class_ok_wf | done] |].
  destruct (peek s =? 0) eqn:E; [done |]. assert (Hs : peek s <> 0) by lia.
  eapply safe_bind; [by apply parse_char_safe |]. intros [c pos] Hp. cbn beta iota in Hp.
  pose proof (rest_strict pos s Hs Hp) as Hlt. assert (Hb' : byte_string pos) by (eapply byte_string_rest, Hb; by apply rest_of_tail).
  set (ty := if (_ <? _)%nat then CHAR_ALT else t).
  assert (Hty : shape Start (l ++ [mkElem ty c]) = Some InChar /\ ty <> RULE_REF).
  { subst ty. rewrite length_app. destruct Hl as [-> | Hl].
    - rewrite (proj2 (Nat.ltb_ge _ _)) by (simpl; lia). destruct Ht as [-> | ->]; done.
    - assert (l <> []) by (intros ->; by destruct Hl). assert (0 < length l)%nat by (destruct l; simpl; [done | lia]).
      rewrite (proj2 (Nat.ltb_lt _ _)) by lia. rewrite shape_app. destruct Hl as [-> | ->]; done. }
  destruct Hty as [Hty Hnr]. rewrite <- app_assoc.
  assert (Hn' : forall p, refs_named p (l ++ [mkElem ty c])) by (intros p; apply refs_named_app; split; [apply Hn | by apply refs_named_plain]).
  destruct (_ && _) eqn:E2.
  - destruct (peek_at 1 pos =? 0) eqn:E3; [done |]. apply andb_prop in E2 as [E2 _].
    change (ch "-") with 45 in E2. assert (Hp1 : peek pos <> 0) by lia. destruct pos as [| d pos]; [done |]. cbn [drop] in *. rewrite drop_0 in *.
    unfold peek_at in E3. simpl in E3. apply Forall_cons in Hb' as [_ Hb'].
    assert (Hpp : peek pos <> 0) by (destruct pos; simpl in *; lia).
    eapply safe_bind; [by apply parse_char_safe |]. intros [e pos2] Hp2. cbn beta iota in Hp2. rewrite <- app_assoc.
    pose proof (rest_strict pos2 pos Hpp Hp2) as Hlt2. simpl in Hlt.
    eapply safe_weaken; [apply IH |].
    + lia.
    + eapply byte_string_rest, Hb'. by apply rest_of_tail.
    + right. right. by rewrite shape_app, Hty.
    + intros p. apply refs_named_app. split; [apply Hn' | by apply refs_named_plain].
    + intros [pos' rule'] (Hr & Hx). split; [| done]. etransitivity; [done |]. etransitivity; [apply rest_of_tail, Hp2 |].
      etransitivity; [apply (rest_of_drop 1 (d :: pos)) |]. by apply rest_of_tail.
  - eapply safe_weaken; [apply IH; [lia | done | right; by left | done] |]. intros [pos' rule'] (Hr & Hx). split; [| done].
    etransitivity; [done |]. by apply rest_of_tail.
Qed.

(** ** Repetitions *)
Record seq_ok (st : SeqState) (p : llama_grammar_parser) : Prop := {
  so_start : (last_sym_start st <= length (sq_rule st))%nat;
  so_pre : wf_body (take (last_sym_start st) (sq_rule st));
  so_sym : wf_body (drop (last_sym_start st) (sq_rule st));
  so_refs : refs_named p (sq_rule st);
  so_prev : 1 <= n_prev_rules st <= 2 ^ 32
}.
Lemma seq_ok_wf st p : seq_ok st p -> wf_body (sq_rule st).
Proof. intros [_ Hp Hs _ _]. rewrite <- (take_drop (last_sym_start st)). by apply wf_body_app. Qed.
Lemma seq_ok_push rule l p n : wf_body rule -> refs_named p rule -> wf_body l -> refs_named p l -> 1 <= n <= 2 ^ 32 ->
  seq_ok (mkSeq (rule ++ l) (length rule) n) p.
Proof.
  intros H1 H2 H3 H4 H5. split; simpl.
  - rewrite length_app. lia.
  - by rewrite take_app_length.
  - by rewrite drop_app_length.
  - by apply refs_named_app.
  - done.
Qed.
Lemma rec_rules_ok n first no_max name prev last p : no_underscore name -> parser_ok p -> wf_body prev -> refs_named p prev ->
  (first = false -> named p last) ->
  let '(i, q) := rec_rules n first no_max name prev last p in parser_ok q /\ grows p q /\ ((0 < n)%nat \/ first = false -> named q i).
Proof.
  intros Hn. revert first last p. induction n as [| n IH]; intros first last p Hp Hw Hr Hl; cbn [rec_rules].
  { split_and!; [done | done |]. intros [? | ?]; [lia | by apply Hl]. }
  pose proof (generate_symbol_id_ok name p Hn Hp) as H. destruct (generate_symbol_id name p) as [i q]. destruct H as (Hq & Hg & Hi & _).
  set (r := prev ++ _).
  assert (Hwr : wf_rule r).
  { unfold r. exists (prev ++ (if negb first || no_max then [mkElem RULE_REF (if no_max then i else last)] else []) ++ [mkElem ALT 0]).
    split; [by rewrite <- !app_assoc |]. apply wf_body_app; [done |]. apply wf_body_app; [| by apply wf_body_one].
    case_match; [by apply wf_body_one | by exists Start]. }
  assert (Hrr : refs_named q r).
  { unfold r. apply refs_named_app. split; [by eapply refs_named_grows |]. apply refs_named_app. split.
    - destruct (negb first || no_max) eqn:E; [| constructor]. repeat constructor. intros _. simpl. destruct no_max; [done |].
      destruct first; [done |]. destruct (Hl eq_refl) as [k Hk]. exists k. by eapply lookup_weaken.
    - repeat constructor; done. }
  pose proof (add_rule_ok i r q Hwr Hrr Hq) as Ha.
  specialize (IH false i (add_rule i r q) Ha Hw). 
  assert (Hg2 : grows p (add_rule i r q)) by done. specialize (IH (refs_named_grows _ _ _ Hg2 Hr) (fun _ => Hi)).
  destruct (rec_rules n false no_max name prev i (add_rule i r q)) as [j q']. destruct IH as (H1 & H2 & H3).
  split_and!; [done | by etransitivity | intros _; apply H3; by right].
Qed.
Lemma handle_repetitions_safe name mn mx st p : no_underscore name -> parser_ok p -> seq_ok st p ->
  0 <= mn <= MAX_REPETITION_THRESHOLD -> mx = UINT64_MAX \/ 0 <= mx <= MAX_REPETITION_THRESHOLD ->
  safe (fun '(st', p') => seq_ok st' p' /\ parser_ok p' /\ grows p p') (handle_repetitions name mn mx st p).
Proof.
  intros Hn Hp Hs Hmn Hmx. unfold handle_repetitions. destruct (_ =? _)%nat; [done |].
  set (total := if negb _ && _ then mx else _). unfold MAX_REPETITION_THRESHOLD in *.
  assert (Ht : 1 <= total <= 2000).
  { subst total. destruct (negb _ && _) eqn:E; [| destruct (0 <? mn) eqn:E2; lia].
    apply andb_prop in E as [E1 E2]. destruct Hmx as [-> | Hmx]; [by rewrite Z.eqb_refl in E1 | lia]. }
  destruct Hs as [S1 S2 S3 S4 S5]. rewrite !u64_small by nia.
  destruct (2000 <? _) eqn:E; [done |].
  set (rule := if mn =? 0 then _ else _). set (n_opt := if mx =? UINT64_MAX then 1 else _).
  assert (Hrule : wf_body rule /\ refs_named p rule /\ (last_sym_start st <= length rule)%nat
    /\ wf_body (take (last_sym_start st) rule) /\ wf_body (drop (last_sym_start st) rule)).
  { subst rule. destruct (mn =? 0).
    - split_and!; [done | | rewrite length_take; lia | by rewrite take_take, Nat.min_id |].
      + rewrite <- (take_drop (last_sym_start st)) in S4. by apply refs_named_app in S4 as [S4 _].
      + rewrite skipn_all2 by (rewrite length_take; lia). by exists Start.
    - assert (Hc : wf_body (concat (replicate (Z.to_nat (mn - 1)) (drop (last_sym_start st) (sq_rule st))))) by by apply wf_body_repeat.
      split_and!.
      + apply wf_body_app; [| done]. rewrite <- (take_drop (last_sym_start st) (sq_rule st)). by apply wf_body_app.
      + apply refs_named_app. split; [done |]. rewrite <- (take_drop (last_sym_start st)) in S4. apply refs_named_app in S4 as [_ S4].
        generalize (Z.to_nat (mn - 1)). intros k. induction k; simpl; [constructor | by apply refs_named_app].
      + rewrite length_app. lia.
      + by rewrite take_app_le.
      + rewrite drop_app_le by done. by apply wf_body_app. }
  destruct Hrule as (R1 & R2 & R3 & R4 & R5).
  assert (Hsub : refs_named p (drop (last_sym_start st) (sq_rule st))).
  { rewrite <- (take_drop (last_sym_start st)) in S4. by apply refs_named_app in S4 as [_ S4]. }
  pose proof (rec_rules_ok (Z.to_nat n_opt) true (mx =? UINT64_MAX) name _ 0 p Hn Hp S3 Hsub ltac:(done)) as H.
  destruct (rec_rules _ _ _ _ _ _ _) as [i q]. destruct H as (Hq & Hg & Hi).
  rewrite (proj2 (Z.ltb_ge _ 1)) by nia. simpl. split; [| done].
  assert (Hopt : 0 <= n_opt) by (subst n_opt; case_match; [lia | apply u64_range]).
  destruct (0 <? n_opt) eqn:E0; split; simpl; try done; try (split; nia).
  - rewrite length_app. lia.
  - by rewrite take_app_le.
  - rewrite drop_app_le by done. apply wf_body_app; [done | by apply wf_body_one].
  - apply refs_named_app. split; [by eapply refs_named_grows |]. repeat constructor. intros _. apply Hi. left. lia.
  - by eapply refs_named_grows.
Qed.

(** ** Sequences and alternatives *)
Section Main.
Context (vocab : option (list Z -> list Z)).
Definition seq_spec (fuel : nat) : Prop := forall pos name nested st p,
  (2 * length pos + 1 <= fuel)%nat -> byte_string pos -> no_underscore name -> parser_ok p -> seq_ok st p ->
  safe (fun '(pos', st', p') => rest_of pos' pos /\ seq_ok st' p' /\ parser_ok p' /\ grows p p') (parse_sequence vocab fuel pos name nested st p).
Definition alternates_spec (fuel : nat) : Prop := forall pos name i nested p,
  (2 * length pos + 2 <= fuel)%nat -> byte_string pos -> no_underscore name -> parser_ok p ->
  safe (fun '(pos', p') => rest_of pos' pos /\ parser_ok p' /\ grows p p') (parse_alternates vocab fuel pos name i nested p).
Definition loop_spec (fuel : nat) : Prop := forall pos name nested rule p,
  (2 * length pos + 1 <= fuel)%nat -> byte_string pos -> no_underscore name -> parser_ok p -> wf_body rule -> refs_named p rule ->
  safe (fun '(pos', rule', p') => rest_of pos' pos /\ wf_body rule' /\ refs_named p' rule' /\ parser_ok p' /\ grows p p')
    (alternates_loop vocab fuel pos name nested rule p).

Lemma word_no_underscore s : Forall (fun c => is_word_char c = true) s -> no_underscore s.
Proof. intros H Hu. rewrite Forall_forall in H. by specialize (H _ Hu). Qed.

Lemma alternates_step fuel : seq_spec fuel -> loop_spec fuel -> alternates_spec (S fuel).
Proof.
  intros IHs IHl pos name i nested p Hf Hb Hn Hp. cbn [parse_alternates].
  eapply safe_bind; [apply IHs; try done; [lia |] |].
  { split; simpl; [lia | by exists Start.. | by constructor | lia]. }
  intros [[pos1 st1] p1] (H1 & H2 & H3 & H4).
  eapply safe_bind; [apply (IHl pos1 name nested (sq_rule st1) p1); try done |].
  - apply rest_of_length in H1. lia.
  - by eapply byte_string_rest.
  - by eapply seq_ok_wf.
  - apply H2.
  - intros [[pos2 rule] p2] (K1 & K2 & K3 & K4 & K5). simpl. split_and!; [by etransitivity | | by etransitivity].
    apply add_rule_ok; [by exists rule | | done]. apply refs_named_app. split; [done | by apply refs_named_plain].
Qed.
Lemma loop_step fuel : seq_spec fuel -> loop_spec fuel -> loop_spec (S fuel).
Proof.
  intros IHs IHl pos name nested rule p Hf Hb Hn Hp Hw Hr. cbn [alternates_loop].
  destruct (peek pos =? ch "|") eqn:E; [| done]. change (ch "|") with 124 in E.
  set (pos1 := parse_space (drop 1 pos) true). assert (R1 : rest_of pos1 (drop 1 pos)) by by apply parse_space_rest.
  pose proof (rest_strict pos1 pos ltac:(lia) R1) as Hlt. pose proof (rest_of_tail _ _ R1) as R1'.
  set (rule1 := rule ++ [mkElem ALT 0]).
  assert (Hw1 : wf_body rule1) by (apply wf_body_app; [done | by apply wf_body_one]).
  assert (Hr1 : refs_named p rule1) by (apply refs_named_app; split; [done | by apply refs_named_plain]).
  eapply safe_bind; [apply IHs; try done; [lia | by eapply byte_string_rest |] |].
  { rewrite <- (app_nil_r rule1) at 1. apply seq_ok_push; [done | done | by exists Start | by constructor | lia]. }
  intros [[pos2 st2] p2] (H1 & H2 & H3 & H4). pose proof (rest_of_length _ _ H1).
  eapply safe_weaken; [apply IHl; try done |].
  - lia.
  - eapply byte_string_rest, Hb. by etransitivity.
  - by eapply seq_ok_wf.
  - apply H2.
  - intros [[pos3 rule3] p3] (K1 & K2 & K3 & K4 & K5). split_and!; try done; [by do 2 (etransitivity; [done |]) | by etransitivity].
Qed.

Lemma seq_step fuel : seq_spec fuel -> alternates_spec fuel -> seq_spec (S fuel).
Proof.
  intros IHs IHa pos name nested st p Hf Hb Hn Hp Hst. cbn [parse_sequence].
  destruct (peek pos =? 0) eqn:E0; [done |]. assert (Hpos : peek pos <> 0) by lia.
  pose proof (seq_ok_wf _ _ Hst) as Hw. pose proof (so_refs _ _ Hst) as Hr.
  (* every branch goes on behind the first character *)
  assert (Hgo : forall pos1 st1 p1, rest_of pos1 (drop 1 pos) -> seq_ok st1 p1 -> parser_ok p1 -> grows p p1 ->
    safe (fun '(pos', st', p') => rest_of pos' pos /\ seq_ok st' p' /\ parser_ok p' /\ grows p p') (parse_sequence vocab fuel pos1 name nested st1 p1)).
  { intros pos1 st1 p1 H1 H2 H3 H4. pose proof (rest_strict _ _ Hpos H1). pose proof (rest_of_tail _ _ H1) as H1'.
    eapply safe_weaken; [apply IHs; try done; [lia | by eapply byte_string_rest] |].
    intros [[pos2 st2] p2] (K1 & K2 & K3 & K4). split_and!; try done; by etransitivity. }
  assert (Hb1 : byte_string (drop 1 pos)) by (eapply byte_string_rest, Hb; apply rest_of_drop).
  assert (Hl1 : (length (drop 1 pos) < length pos)%nat) by (by apply rest_strict).
  assert (Hone : forall t v, t <> END -> t <> CHAR_RNG_UPPER -> t <> CHAR_ALT -> (t = RULE_REF -> named p v) ->
    seq_ok (mkSeq (sq_rule st ++ [mkElem t v]) (length (sq_rule st)) 1) p).
  { intros t v T1 T2 T3 T4. apply seq_ok_push; [done | done | by apply wf_body_one | | lia]. by repeat constructor. }
  destruct (peek pos =? quote).
  { eapply safe_bind; [apply literal_loop_safe; [lia | done] |]. intros [pos1 rule1] (H1 & l & -> & Hl & Hln).
    apply Hgo; try done; [rest | apply seq_ok_push; try done; lia]. }
  destruct (peek pos =? ch "[").
  { set (tp := if peek (drop 1 pos) =? ch "^" then _ else _).
    assert (Htp : (tp.1 = CHAR \/ tp.1 = CHAR_NOT) /\ rest_of tp.2 (drop 1 pos)).
    { subst tp. destruct (peek (drop 1 pos) =? ch "^"); cbn [fst snd]; [split; [by right | rest] | split; [by left | reflexivity]]. }
    destruct tp as [ty pos1]. cbn [fst snd] in Htp. destruct Htp as [Hty Hp1].
    pose proof (class_loop_safe (S (length pos1)) ty (length (sq_rule st)) pos1 (sq_rule st) [] ltac:(lia)
      (byte_string_rest _ _ Hp1 Hb1) Hty eq_refl ltac:(by left) ltac:(by constructor)) as Hc.
    rewrite app_nil_r in Hc. eapply safe_bind; [exact Hc |]. intros [pos2 rule1] (H1 & l & -> & Hl & Hln).
    apply Hgo; try done; [| apply seq_ok_push; try done; lia]. apply parse_space_rest, drop_rest. by etransitivity. }
  destruct ((peek pos =? ch "<") || (peek pos =? ch "!")).
  { set (tp := if peek pos =? ch "!" then _ else _).
    assert (Htp : (tp.1 = TOKEN \/ tp.1 = TOKEN_NOT) /\ rest_of (drop 1 tp.2) (drop 1 pos)).
    { subst tp. destruct (peek pos =? ch "!"); cbn [fst snd]; [split; [by right | rest] | split; [by left | reflexivity]]. }
    destruct tp as [ty pos1]. cbn [fst snd] in Htp. destruct Htp as [Hty Hp1].
    eapply safe_bind; [apply parse_token_safe |]. intros [tk pos2] H2. cbn beta iota in H2.
    apply Hgo; try done; [apply parse_space_rest; by etransitivity | destruct Hty as [-> | ->]; by apply Hone]. }
  destruct (is_word_char (peek pos)).
  { eapply safe_bind; [apply parse_name_safe |]. intros e (He & _ & Hd).
    pose proof (get_symbol_id_ok (span pos e) p (word_no_underscore _ Hd) Hp) as H. destruct (get_symbol_id _ _) as [i q].
    destruct H as (Hq & Hg & Hi). apply Hgo; try done; [rest |]. apply seq_ok_push; [done | by eapply refs_named_grows | by apply wf_body_one | by repeat constructor | lia]. }
  destruct (peek pos =? ch "(").
  { pose proof (generate_symbol_id_ok name p Hn Hp) as H. destruct (generate_symbol_id name p) as [i q]. destruct H as (Hq & Hg & Hi & _).
    set (pos1 := parse_space (drop 1 pos) true). assert (R1 : rest_of pos1 (drop 1 pos)) by by apply parse_space_rest.
    pose proof (rest_strict _ _ Hpos R1). eapply safe_bind; [apply IHa; try done; [lia | by eapply byte_string_rest] |].
    intros [pos2 q2] (K1 & K2 & K3). eapply safe_bind; [by apply expect_safe |]. intros pos3 [K4 _].
    apply Hgo; try done; [| | by etransitivity].
    - apply parse_space_rest. etransitivity; [apply rest_of_tail, K4 |]. by etransitivity.
    - assert (grows p q2) by by etransitivity. apply seq_ok_push; [done | by eapply refs_named_grows | by apply wf_body_one | |].
      + repeat constructor. intros _. destruct Hi as [k Hk]. exists k. by eapply lookup_weaken.
      + pose proof (u32_range (u32 (n_symbols q2) - u32 (n_symbols p))). lia. }
  destruct (peek pos =? ch "."); [apply Hgo; try done; [rest | by apply Hone] |].
  assert (Hrep : forall mn mx pos1, rest_of pos1 (drop 1 pos) -> 0 <= mn <= MAX_REPETITION_THRESHOLD -> mx = UINT64_MAX \/ 0 <= mx <= MAX_REPETITION_THRESHOLD ->
    safe (fun '(pos', st', p') => rest_of pos' pos /\ seq_ok st' p' /\ parser_ok p' /\ grows p p')
      (let! (st, p) := handle_repetitions name mn mx st p in parse_sequence vocab fuel pos1 name nested st p)).
  { intros mn mx pos1 H1 H2 H3. eapply safe_bind; [by apply handle_repetitions_safe |]. intros [st1 p1] (K1 & K2 & K3). by apply Hgo. }
  unfold MAX_REPETITION_THRESHOLD in *.
  destruct (peek pos =? ch "*"); [apply Hrep; [rest | lia | by left] |].
  destruct (peek pos =? ch "+"); [apply Hrep; [rest | lia | by left] |].
  destruct (peek pos =? ch "?"); [apply Hrep; [rest | lia | right; lia] |].
  destruct (peek pos =? ch "{"); [| done].
  eapply safe_bind; [apply parse_bounds_safe |]. intros [[mn mx] pos1] (H1 & H2 & H3). apply Hrep; [| done | done].
  etransitivity; [done | rest].
Qed.
Lemma parse_specs fuel : seq_spec fuel /\ alternates_spec fuel /\ loop_spec fuel.
Proof.
  induction fuel as [| fuel (IHs & IHa & IHl)]; [split_and!; intros ?; intros; lia |].
  split_and!; [by apply seq_step | by apply alternates_step | by apply loop_step].
Qed.
End Main.

(** ** Rules and whole grammars *)
Lemma parse_rule_safe vocab src p : peek src <> 0 -> byte_string src -> parser_ok p ->
  safe (fun '(pos, p') => rest_of pos (drop 1 src) /\ parser_ok p') (parse_rule vocab src p).
Proof.
  intros Hs Hb Hp. unfold parse_rule. eapply safe_bind; [apply parse_name_safe |]. intros e (He & _ & Hd).
  pose proof (word_no_underscore _ Hd) as Hn.
  pose proof (get_symbol_id_ok (span src e) p Hn Hp) as H. destruct (get_symbol_id _ _) as [i q]. destruct H as (Hq & _ & _).
  destruct (negb _); [done |]. set (pos := parse_space (drop 3 (parse_space e false)) true).
  assert (Hpos : rest_of pos (drop 1 src)) by (apply parse_space_rest, drop_rest, parse_space_rest, He).
  eapply safe_bind. { apply (parse_specs vocab (parse_fuel pos)); [done | | done | done]. eapply byte_string_rest, Hb. by apply rest_of_tail. }
  intros [pos1 p1] (H1 & H2 & _). eapply (safe_bind (fun pos2 => rest_of pos2 pos1)).
  - repeat case_match; simpl; try done; apply rest_of_drop.
  - intros pos2 H3. simpl. split; [| done]. apply parse_space_rest. etransitivity; [done |]. by etransitivity.
Qed.
Lemma rules_loop_safe vocab fuel pos p : (length pos < fuel)%nat -> byte_string pos -> parser_ok p -> safe parser_ok (rules_loop vocab fuel pos p).
Proof.
  revert pos p. induction fuel as [| fuel IH]; intros pos p Hf Hb Hp; [lia |]. cbn [rules_loop].
  destruct (peek pos =? 0) eqn:E; [done |]. eapply safe_bind; [apply parse_rule_safe; try done; lia |].
  intros [pos1 p1] (H1 & H2). apply IH; [| | done].
  - pose proof (rest_strict pos1 pos ltac:(lia) H1). lia.
  - eapply byte_string_rest, Hb. by apply rest_of_tail.
Qed.
Lemma parse_loop_safe vocab src : byte_string src ->
  safe parser_ok (rules_loop vocab (S (length (parse_space src true))) (parse_space src true) (mkParser ∅ [])).
Proof.
  intros Hb. apply rules_loop_safe; [lia | by eapply byte_string_rest, Hb; apply parse_space_rest |].
  split; [intros k v H; simpl in H; by rewrite lookup_empty in H | constructor].
Qed.

(** C22: Parsing a grammar always ends with an answer.  On every byte string the parser returns true
    or false: its loops and its recursion end, and it never reads out of bounds or fails an
    assertion. *)
Theorem parse_total (vocab : option (list Z -> list Z)) (src : list Z) : byte_string src -> exists o, parse vocab src = Ok o.
Proof.
  intros Hb. unfold parse. pose proof (parse_loop_safe vocab src Hb) as H. destruct (rules_loop _ _ _ _) as [p | [] ]; simpl in H; try done.
  - case_match; eauto.
  - eauto.
Qed.
Lemma parse_total_witness : exists o, parse None (bytes "root ::= [a-z]{2,3} (foo | .)* foo ::= ") = Ok o.
Proof. apply parse_total. repeat constructor; discriminate. Defined.

Lemma parse_rules_ok (vocab : option (list Z -> list Z)) (src : list Z) (p : llama_grammar_parser) :
  byte_string src -> parse vocab src = Ok (Some p) ->
  Forall (fun r => wf_rule r /\ Forall (fun e => etype e = RULE_REF -> exists r', vlookup (rules p) (evalue e) = Some r' /\ wf_rule r') r) (rules p).
Proof.
  intros Hb. unfold parse. pose proof (parse_loop_safe vocab src Hb) as H. destruct (rules_loop _ _ _ _) as [q | [] ]; simpl in H; try done.
  destruct (existsb (rule_invalid q) (rules q)) eqn:E; [done |]. intros [= <-]. destruct H as [_ Hr].
  assert (Hv : forall r, r ∈ rules q -> r <> [] /\ existsb (elem_undefined q) r = false).
  { intros r Hi. assert (He : rule_invalid q r = false).
    { apply not_true_is_false. intros Ht. apply not_true_iff_false in E. apply E, existsb_exists. exists r. split; [by apply list_elem_of_In | done]. }
    unfold rule_invalid in He. apply orb_false_iff in He as [H1 H2]. by apply bool_decide_eq_false in H1. }
  assert (Hw : forall r, r ∈ rules q -> wf_rule r /\ refs_named q r).
  { intros r Hi. unfold rules_ok in Hr. rewrite Forall_forall in Hr. destruct (Hr r Hi) as [-> | ?]; [by destruct (Hv [] Hi) | done]. }
  apply Forall_forall. intros r Hi. destruct (Hw r Hi) as [Hwr Hn]. split; [done |]. apply Forall_forall. intros e He Ht.
  destruct (Hv r Hi) as [_ Hu].
  assert (Hue : elem_undefined q e = false).
  { apply not_true_is_false. intros Hx. apply not_true_iff_false in Hu. apply Hu, existsb_exists. exists e. split; [by apply list_elem_of_In | done]. }
  unfold elem_undefined in Hue. rewrite Ht in Hue. rewrite (bool_decide_eq_true_2 _ eq_refl) in Hue. simpl in Hue.
  unfold refs_named in Hn. rewrite Forall_forall in Hn. destruct (Hn e He Ht) as [k Hk].
  rewrite (bool_decide_eq_true_2 (Exists _ _)) in Hue; [| apply Exists_exists; exists (k, evalue e); split; [by apply elem_of_map_to_list | done]].
  rewrite andb_true_r in Hue. destruct (vlookup (rules q) (evalue e)) as [[| x r'] |] eqn:Ev; try done.
  exists (x :: r'). split; [done |]. apply (Hw (x :: r')). by eapply vlookup_elem_of.
Qed.
(** C23: The rules of a grammar that parses are well formed: each is a sequence of complete items
    and alternatives ended by END, with range bounds and class alternatives only behind a
    character, and every rule reference leads to a rule that is well formed in the same way. *)
Theorem parse_well_formed (vocab : option (list Z -> list Z)) (src : list Z) (p : llama_grammar_parser) :
  byte_string src -> parse vocab src = Ok (Some p) ->
  Forall (fun r => wf_rule r /\ Forall (fun e => etype e = RULE_REF -> exists r', vlookup (rules p) (evalue e) = Some r' /\ wf_rule r') r) (rules p).
Proof. apply parse_rules_ok. Qed.
Definition sample_grammar : list Z := bytes "root ::= [a-z]{2,3} (foo | .)*
foo ::= [^0-9x] foo?".
Lemma parse_well_formed_witness : exists p, Forall (fun r => wf_rule r /\ Forall (fun e => etype e = RULE_REF -> exists r', vlookup (rules p) (evalue e) = Some r' /\ wf_rule r') r) (rules p) /\ length (rules p) = 6%nat.
Proof.
  destruct (parse None sample_grammar) as [[p |] |] eqn:E; [| vm_compute in E; discriminate E..].
  exists p. split; [apply (parse_well_formed None sample_grammar p); [repeat constructor; discriminate | exact E] |].
  vm_compute in E. by injection E as <-.
Defined.
