(* ===== verification/GrammarMatch.v ===== *)
(** * The grammar matcher (src/iian/grammar/grammar.cpp, from llama_grammar_is_end_of_sequence on)

    A pointer to an element is a pair of a rule and an index in it; a stack of pointers is a list
    with the back of the vector first.  A failed GGML_ASSERT or GGML_ABORT ends the program and is
    [UB] here, as is a read outside a rule.  [fuel] bounds the expansions of one
    llama_grammar_advance_stack; the theorems of GrammarProps.v say how much is enough. *)

From S2P Require Import Prelude Text Utf8 GrammarParse Request.
From Stdlib Require Import SpecFloat.

Notation ptr := (Z * Z)%type.
Notation llama_grammar_stack := (list (Z * Z)).
Notation llama_grammar_stacks := (list (list (Z * Z))).

(** ** Elements *)
(** the elements from a pointer to the end of its rule *)
Definition elems_at (rs : llama_grammar_rules) (pos : ptr) : res llama_grammar_rule :=
  let! r := vget rs pos.1 in
  if (0 <=? pos.2) && (pos.2 <? Zlen r) then Ok (drop (Z.to_nat pos.2) r) else Err (UB "read outside a rule").
Definition elem_at (rs : llama_grammar_rules) (pos : ptr) : res llama_grammar_element :=
  let! l := elems_at rs pos in vget l 0.
Definition shift (pos : ptr) (k : Z) : ptr := (pos.1, pos.2 + k).

Definition is_end_type (t : llama_gretype) : bool := match t with END | ALT => true | _ => false end.
Definition is_end_of_sequence (rs : llama_grammar_rules) (pos : ptr) : res bool :=
  let! e := elem_at rs pos in Ok (is_end_type (etype e)).
Definition is_positive_type (t : llama_gretype) : bool := match t with CHAR | CHAR_ANY => true | _ => false end.

(** the loop over a character class: whether [chr] was found, and the number of elements read *)
Fixpoint char_loop (chr : Z) (found : bool) (l : llama_grammar_rule) : res (bool * Z) :=
  match l with
  | e :: ((u :: l2) as l1) =>
      if bool_decide (etype u = CHAR_RNG_UPPER) then
        let found := found || ((evalue e <=? chr) && (chr <=? evalue u)) in
        let! n := vget l2 0 in
        if bool_decide (etype n = CHAR_ALT) then let! (found, m) := char_loop chr found l2 in Ok (found, 2 + m) else Ok (found, 2)
      else
        let found := if bool_decide (etype e = CHAR_ANY) then true else found || (evalue e =? chr) in
        if bool_decide (etype u = CHAR_ALT) then let! (found, m) := char_loop chr found l1 in Ok (found, 1 + m) else Ok (found, 1)
  | _ => Err (UB "read outside a rule")
  end.
Definition match_char (rs : llama_grammar_rules) (pos : ptr) (chr : Z) : res (bool * ptr) :=
  let! l := elems_at rs pos in
  let! e := vget l 0 in
  let is_positive_char := is_positive_type (etype e) in
  if negb (is_positive_char || bool_decide (etype e = CHAR_NOT)) then Err (UB "GGML_ASSERT") else
  let! (found, k) := char_loop chr false l in
  Ok (eqb found is_positive_char, shift pos k).

(** whether a class overlaps the code points from [low] to [high] *)
Fixpoint partial_loop (is_positive_char : bool) (low high : Z) (l : llama_grammar_rule) : res bool :=
  match l with
  | e :: ((u :: l2) as l1) =>
      if bool_decide (etype u = CHAR_RNG_UPPER) then
        if (evalue e <=? high) && (low <=? evalue u) then Ok is_positive_char else
        let! n := vget l2 0 in
        if bool_decide (etype n = CHAR_ALT) then partial_loop is_positive_char low high l2 else Ok (negb is_positive_char)
      else if bool_decide (etype e = CHAR_ANY) then Ok true
      else if (low <=? evalue e) && (evalue e <=? high) then Ok is_positive_char
      else if bool_decide (etype u = CHAR_ALT) then partial_loop is_positive_char low high l1 else Ok (negb is_positive_char)
  | _ => Err (UB "read outside a rule")
  end.
(** the code points a partial character can still become *)
Definition partial_range (partial : llama_partial_utf8) : Z * Z :=
  let n := n_remain partial in
  let low := u32 (Z.shiftl (p_value partial) (n * 6)) in
  let high := Z.lor low (u32 (Z.shiftl 1 (n * 6) - 1)) in
  let low := if low =? 0 then (if n =? 2 then Z.shiftl 1 11 else if n =? 3 then Z.shiftl 1 16 else low) else low in
  (low, high).
Definition match_partial_char (rs : llama_grammar_rules) (pos : ptr) (partial : llama_partial_utf8) : res bool :=
  let! l := elems_at rs pos in
  let! e := vget l 0 in
  let is_positive_char := is_positive_type (etype e) in
  if negb (is_positive_char || bool_decide (etype e = CHAR_NOT)) then Err (UB "GGML_ASSERT") else
  let n := n_remain partial in
  if (n <? 0) || ((n =? 1) && (p_value partial <? 2)) then Ok false else
  let '(low, high) := partial_range partial in
  partial_loop is_positive_char low high l.

Definition is_token_type (t : llama_gretype) : bool := match t with TOKEN | TOKEN_NOT => true | _ => false end.
Definition match_token (rs : llama_grammar_rules) (pos : ptr) (token : Z) : res bool :=
  let! e := elem_at rs pos in
  match etype e with
  | TOKEN => Ok (evalue e =? u32 token)
  | TOKEN_NOT => Ok (negb (evalue e =? u32 token))
  | _ => Err (UB "GGML_ASSERT")
  end.

(** ** Expanding a stack *)
(** the elements before the next end of an alternative, and the elements from there *)
Fixpoint scan_end (l : llama_grammar_rule) : res (Z * llama_grammar_rule) :=
  match l with
  | [] => Err (UB "read outside a rule")
  | e :: l' => if is_end_type (etype e) then Ok (0, l) else let! (k, r) := scan_end l' in Ok (1 + k, r)
  end.
(** the starts of the alternatives of a rule from position [subpos] on; [None] for an empty one *)
Fixpoint alternatives (fuel : nat) (rs : llama_grammar_rules) (subpos : ptr) : res (list (option ptr)) :=
  match fuel with
  | O => Err Fuel
  | S fuel =>
      let! l := elems_at rs subpos in
      let! e := vget l 0 in
      let here := if is_end_type (etype e) then None else Some subpos in
      let! (k, r) := scan_end l in
      let! t := vget r 0 in
      if bool_decide (etype t = ALT) then let! more := alternatives fuel rs (shift subpos (k + 1)) in Ok (here :: more)
      else Ok [here]
  end.
(** all alternatives of a rule *)
Definition rule_alternatives (rs : llama_grammar_rules) (rule_id : Z) : res (list (option ptr)) :=
  let! r := vget rs rule_id in alternatives (S (length r)) rs (rule_id, 0).
(** a stack with the pointer on top when there is one *)
Definition push_opt (o : option ptr) (s : llama_grammar_stack) : llama_grammar_stack :=
  match o with Some q => q :: s | None => s end.
(** a stack whose top is a pointer unless its sequence ends there *)
Definition push_next (rs : llama_grammar_rules) (pos : ptr) (s : llama_grammar_stack) : res llama_grammar_stack :=
  let! e := is_end_of_sequence rs pos in Ok (if e then s else pos :: s).

(** emplace_back unless an equal stack is there *)
Definition add_stack (s : llama_grammar_stack) (new_stacks : llama_grammar_stacks) : llama_grammar_stacks :=
  if bool_decide (s ∈ new_stacks) then new_stacks else new_stacks ++ [s].
Fixpoint advance_loop (fuel : nat) (rs : llama_grammar_rules) (todo : list llama_grammar_stack) (seen : gset llama_grammar_stack)
    (new_stacks : llama_grammar_stacks) : res llama_grammar_stacks :=
  match todo with
  | [] => Ok new_stacks
  | curr :: todo =>
      match fuel with
      | O => Err Fuel
      | S fuel =>
          if bool_decide (curr ∈ seen) then advance_loop fuel rs todo seen new_stacks else
          let seen := {[ curr ]} ∪ seen in
          match curr with
          | [] => advance_loop fuel rs todo seen (add_stack curr new_stacks)
          | pos :: below =>
              let! e := elem_at rs pos in
              match etype e with
              | RULE_REF =>
                  let! alts := rule_alternatives rs (evalue e) in
                  let! next := push_next rs (shift pos 1) below in
                  advance_loop fuel rs (rev ((fun a => push_opt a next) <$> alts) ++ todo) seen new_stacks
              | CHAR | CHAR_NOT | CHAR_ANY | TOKEN | TOKEN_NOT => advance_loop fuel rs todo seen (add_stack curr new_stacks)
              | _ => Err (UB "GGML_ABORT")
              end
          end
      end
  end.
Definition advance_stack (fuel : nat) (rs : llama_grammar_rules) (stack : llama_grammar_stack) (new_stacks : llama_grammar_stacks)
    : res llama_grammar_stacks := advance_loop fuel rs [stack] ∅ new_stacks.

(** ** Accepting a character *)
Definition accept_chr (fuel : nat) (rs : llama_grammar_rules) (stack : llama_grammar_stack) (chr : Z) (new_stacks : llama_grammar_stacks)
    : res llama_grammar_stacks :=
  match stack with
  | [] => Ok new_stacks
  | pos :: below =>
      let! e := elem_at rs pos in
      if is_token_type (etype e) then Ok new_stacks else
      let! (ok, after) := match_char rs pos chr in
      if ok then let! new_stack := push_next rs after below in advance_stack fuel rs new_stack new_stacks
      else Ok new_stacks
  end.
Fixpoint accept_chr_all (fuel : nat) (rs : llama_grammar_rules) (stacks : llama_grammar_stacks) (chr : Z) (new_stacks : llama_grammar_stacks)
    : res llama_grammar_stacks :=
  match stacks with
  | [] => Ok new_stacks
  | s :: stacks => let! new_stacks := accept_chr fuel rs s chr new_stacks in accept_chr_all fuel rs stacks chr new_stacks
  end.

(** ** Rejecting candidates *)
Record llama_grammar_candidate := mkCand { index : Z; code_points : list Z; offset : nat; partial_utf8 : llama_partial_utf8; cand_id : Z }.
(** *tok.code_points *)
Definition cand_char (c : llama_grammar_candidate) : Z := default 0 (code_points c !! offset c).
Definition with_offset (f : nat -> nat) (c : llama_grammar_candidate) : llama_grammar_candidate :=
  mkCand (index c) (code_points c) (f (offset c)) (partial_utf8 c) (cand_id c).
Definition is_partial (c : llama_grammar_candidate) : bool := negb (n_remain (partial_utf8 c) =? 0).

(** the candidates for which a test succeeds *)
Fixpoint filter_res {A} (f : A -> res bool) (l : list A) : res (list A) :=
  match l with
  | [] => Ok []
  | x :: l => let! b := f x in let! r := filter_res f l in Ok (if b then x :: r else r)
  end.
(** the loop over the candidates: the rejected ones, and those whose character matches, one character on *)
Fixpoint split_candidates (rs : llama_grammar_rules) (stack_pos : ptr) (cands : list llama_grammar_candidate)
    : res (list llama_grammar_candidate * list llama_grammar_candidate) :=
  match cands with
  | [] => Ok ([], [])
  | tok :: cands =>
      let! what :=
        if cand_char tok =? 0 then
          if is_partial tok then let! m := match_partial_char rs stack_pos (partial_utf8 tok) in Ok (if m then None else Some false)
          else Ok None
        else let! (m, _) := match_char rs stack_pos (cand_char tok) in Ok (Some m) in
      let! (rejects, next) := split_candidates rs stack_pos cands in
      Ok (match what with
          | None => (rejects, next)
          | Some true => (rejects, with_offset S tok :: next)
          | Some false => (tok :: rejects, next)
          end)
  end.
(** the candidates that every stack rejects, [f] being the rejection by one stack *)
Fixpoint reject_fold (f : llama_grammar_stack -> list llama_grammar_candidate -> res (list llama_grammar_candidate))
    (stacks : llama_grammar_stacks) (rejects : list llama_grammar_candidate) : res (list llama_grammar_candidate) :=
  match stacks with
  | [] => Ok rejects
  | s :: stacks => let! rejects := f s rejects in reject_fold f stacks rejects
  end.
Definition reject_by (f : llama_grammar_stack -> list llama_grammar_candidate -> res (list llama_grammar_candidate))
    (stacks : llama_grammar_stacks) (cands : list llama_grammar_candidate) : res (list llama_grammar_candidate) :=
  match stacks, cands with
  | [], _ => Err (UB "GGML_ASSERT(!stacks.empty())")
  | _, [] => Ok []
  | _, _ => reject_fold f stacks cands
  end.
(** [depth] bounds the characters of a candidate *)
Fixpoint reject_candidates_for_stack (depth fuel : nat) (rs : llama_grammar_rules) (stack : llama_grammar_stack) (cands : list llama_grammar_candidate)
    : res (list llama_grammar_candidate) :=
  match depth with
  | O => Err Fuel
  | S depth =>
      match stack with
      | [] => Ok (filter (fun tok => negb (cand_char tok =? 0) || is_partial tok) cands)
      | stack_pos :: below =>
          let! e := elem_at rs stack_pos in
          if is_token_type (etype e) then
            filter_res (fun tok =>
              if cand_char tok =? 0 then Ok (is_partial tok)
              else let! m := match_token rs stack_pos (cand_id tok) in Ok (negb m)) cands
          else
            let! (rejects, next_candidates) := split_candidates rs stack_pos cands in
            let! (_, stack_pos_after) := match_char rs stack_pos 0 in
            let! stack_after := push_next rs stack_pos_after below in
            let! next_stacks := advance_stack fuel rs stack_after [] in
            let! next_rejects := reject_by (reject_candidates_for_stack depth fuel rs) next_stacks next_candidates in
            Ok (rejects ++ (with_offset Nat.pred <$> next_rejects))
      end
  end.
Definition reject_candidates (depth fuel : nat) (rs : llama_grammar_rules) : llama_grammar_stacks -> list llama_grammar_candidate -> res (list llama_grammar_candidate) :=
  reject_by (reject_candidates_for_stack depth fuel rs).

(** ** Left recursion *)
Record RecState := mkRec { rules_visited : list bool; rules_in_progress : list bool; rules_may_be_empty : list bool }.
(** whether some alternative of a rule is written empty *)
Fixpoint empty_alternative (at_rule_start : bool) (r : llama_grammar_rule) : bool :=
  match r with
  | [] => false
  | e :: r => if is_end_type (etype e) then at_rule_start || empty_alternative true r else empty_alternative false r
  end.
Definition set_flag (l : list bool) (i : Z) (b : bool) : res (list bool) := vset l i b.
Fixpoint detect_left_recursion (fuel : nat) (rs : llama_grammar_rules) (rule_index : Z) (st : RecState) : res (bool * RecState) :=
  match fuel with
  | O => Err Fuel
  | S fuel =>
      let! busy := vget (rules_in_progress st) rule_index in
      if busy then Ok (true, st) else
      let! ip := set_flag (rules_in_progress st) rule_index true in
      let! rule := vget rs rule_index in
      let! me := if empty_alternative true rule then set_flag (rules_may_be_empty st) rule_index true else Ok (rules_may_be_empty st) in
      let! (found, st) := (fix scan (recurse : bool) (l : llama_grammar_rule) (st : RecState) : res (bool * RecState) :=
        match l with
        | [] => Ok (false, st)
        | e :: l =>
            if bool_decide (etype e = RULE_REF) && recurse then
              let! (found, st) := detect_left_recursion fuel rs (evalue e) st in
              if found then Ok (true, st) else
              let! empty := vget (rules_may_be_empty st) (evalue e) in
              scan empty l st
            else scan (is_end_type (etype e)) l st
        end) true rule (mkRec (rules_visited st) ip me) in
      if found then Ok (true, st) else
      let! ip := set_flag (rules_in_progress st) rule_index false in
      let! vi := set_flag (rules_visited st) rule_index true in
      Ok (false, mkRec vi ip (rules_may_be_empty st))
  end.
(** the loop over all rules: [true] when some rule is left recursive *)
Fixpoint check_rules (n : nat) (i : Z) (rs : llama_grammar_rules) (st : RecState) : res bool :=
  match n with
  | O => Ok false
  | S n =>
      let! visited := vget (rules_visited st) i in
      if visited then check_rules n (i + 1) rs st else
      let! (found, st) := detect_left_recursion (S (length rs)) rs i st in
      if found then Ok true else check_rules n (i + 1) rs st
  end.
Definition left_recursive (rs : llama_grammar_rules) : res bool :=
  let no := replicate (length rs) false in check_rules (length rs) 0 rs (mkRec no no no).

(** ** The grammar *)
(** a compiled regular expression: what std::regex_match and std::regex_search find, the position and
    length of the whole match first, then those of the groups *)
Record Regex := mkRegex { regex_match : list Z -> option (list (Z * Z)); regex_search : list Z -> option (list (Z * Z)) }.
Record llama_grammar_trigger_pattern := mkPattern { pattern : list Z; regex : Regex }.
Definition find_start_pos (m : list (Z * Z)) : Z :=
  match list_find (fun g => 0 < g.2) (drop 1 m) with
  | Some (_, g) => g.1
  | None => (default (0, 0) (m !! 0%nat)).1
  end.
Definition pattern_find (t : llama_grammar_trigger_pattern) (input : list Z) : option Z :=
  let whole := if (negb (bool_decide (pattern t = []))) && (peek (pattern t) =? ch "^") && (default 0 (last (pattern t)) =? ch "$")
               then regex_match (regex t) input else None in
  match whole with
  | Some m => Some (find_start_pos m)
  | None => find_start_pos <$> regex_search (regex t) input
  end.

Record llama_grammar := mkGrammar {
  g_rules : llama_grammar_rules;
  stacks : llama_grammar_stacks;
  g_partial : llama_partial_utf8;
  lazy : bool;
  awaiting_trigger : bool;
  trigger_buffer : list Z;
  trigger_buffer_positions : list (Z * (Z * Z));
  trigger_tokens : list Z;
  trigger_patterns : list llama_grammar_trigger_pattern
}.
Definition with_stacks (s : llama_grammar_stacks) (g : llama_grammar) : llama_grammar :=
  mkGrammar (g_rules g) s (g_partial g) (lazy g) (awaiting_trigger g) (trigger_buffer g) (trigger_buffer_positions g) (trigger_tokens g) (trigger_patterns g).
Definition with_partial (p : llama_partial_utf8) (g : llama_grammar) : llama_grammar :=
  mkGrammar (g_rules g) (stacks g) p (lazy g) (awaiting_trigger g) (trigger_buffer g) (trigger_buffer_positions g) (trigger_tokens g) (trigger_patterns g).
Definition with_trigger (w : bool) (buf : list Z) (posn : list (Z * (Z * Z))) (g : llama_grammar) : llama_grammar :=
  mkGrammar (g_rules g) (stacks g) (g_partial g) (lazy g) w buf posn (trigger_tokens g) (trigger_patterns g).

(** the stacks of all alternatives of the start rule *)
Fixpoint initial_stacks (fuel : nat) (rs : llama_grammar_rules) (alts : list (option ptr)) (st : llama_grammar_stacks) : res llama_grammar_stacks :=
  match alts with
  | [] => Ok st
  | a :: alts => let! st := advance_stack fuel rs (push_opt a []) st in initial_stacks fuel rs alts st
  end.
(** a rule up to its END, as it is copied *)
Fixpoint copy_rule (r : llama_grammar_rule) : res llama_grammar_rule :=
  match r with
  | [] => Err (UB "read outside a rule")
  | e :: r => if bool_decide (etype e = END) then Ok [mkElem END 0] else let! r := copy_rule r in Ok (e :: r)
  end.
Fixpoint copy_rules (rs : llama_grammar_rules) : res llama_grammar_rules :=
  match rs with
  | [] => Ok []
  | r :: rs => let! r := copy_rule r in let! rs := copy_rules rs in Ok (r :: rs)
  end.
(** llama_grammar_init_impl from a text; [None] is nullptr *)
Definition init_impl (fuel : nat) (vocab : option (list Z -> list Z)) (grammar_str grammar_root : list Z) (lazy : bool)
    (patterns : list llama_grammar_trigger_pattern) (tokens : list Z) : res (option llama_grammar) :=
  let! parsed := parse vocab grammar_str in
  match parsed with
  | None => Ok None
  | Some p =>
      if bool_decide (length (rules p) = 0%nat) then Ok None else
      match symbol_ids p !! grammar_root with
      | None => Ok None
      | Some start_rule_index =>
          let! vec_rules := copy_rules (rules p) in
          let! bad := left_recursive vec_rules in
          if bad then Ok None else
          let! alts := rule_alternatives vec_rules start_rule_index in
          let! st := initial_stacks fuel vec_rules alts [] in
          Ok (Some (mkGrammar vec_rules st (mkPartial 0 0) lazy lazy [] [] tokens patterns))
      end
  end.

(** llama_grammar_accept *)
Definition accept (fuel : nat) (g : llama_grammar) (chr : Z) : res llama_grammar :=
  let! st := accept_chr_all fuel (g_rules g) (stacks g) chr [] in Ok (with_stacks st g).
Fixpoint accept_all (fuel : nat) (g : llama_grammar) (cps : list Z) : res llama_grammar :=
  match cps with
  | [] => Ok g
  | c :: cps => let! g := accept fuel g c in accept_all fuel g cps
  end.
Definition accept_str (fuel : nat) (g : llama_grammar) (piece : list Z) : res llama_grammar :=
  let! (cps, partial) := decode_utf8 piece (g_partial g) in
  let! g := accept_all fuel g (removelast cps) in
  let g := with_partial partial g in
  if bool_decide (stacks g = []) then throw! "Unexpected empty grammar stack after accepting piece" else Ok g.

(** the stacks one stack turns into over some characters; the loop stops when none is left *)
Fixpoint run_chars (fuel : nat) (rs : llama_grammar_rules) (cps : list Z) (current : llama_grammar_stacks) : res llama_grammar_stacks :=
  match cps with
  | [] => Ok current
  | c :: cps =>
      let! next := accept_chr_all fuel rs current c [] in
      match next with [] => Ok [] | _ => run_chars fuel rs cps next end
  end.
Fixpoint accept_token_stacks (fuel : nat) (rs : llama_grammar_rules) (token : Z) (cps : list Z) (sts new_stacks : llama_grammar_stacks)
    : res llama_grammar_stacks :=
  match sts with
  | [] => Ok new_stacks
  | [] :: sts => accept_token_stacks fuel rs token cps sts new_stacks
  | ((pos :: below) as stack) :: sts =>
      let! e := elem_at rs pos in
      let! new_stacks :=
        if is_token_type (etype e) then
          let! m := match_token rs pos token in
          if m then let! s := push_next rs (shift pos 1) below in advance_stack fuel rs s new_stacks else Ok new_stacks
        else
          let! surviving := run_chars fuel rs cps [stack] in
          Ok (foldl (fun acc s => add_stack s acc) new_stacks surviving) in
      accept_token_stacks fuel rs token cps sts new_stacks
  end.
Definition accept_token (fuel : nat) (g : llama_grammar) (token : Z) (piece : list Z) : res llama_grammar :=
  let! (cps, partial) := decode_utf8 piece (g_partial g) in
  let! st := accept_token_stacks fuel (g_rules g) token (removelast cps) (stacks g) [] in
  let g := with_partial partial (with_stacks st g) in
  if bool_decide (st = []) then throw! "Unexpected empty grammar stack after accepting piece" else Ok g.

(** ** The tokens of a vocabulary *)
Record GVocab := mkGVocab { gv_n_tokens : Z; gv_is_eog : Z -> bool; gv_piece : Z -> list Z }.
Definition piece (v : GVocab) (token : Z) : res (list Z) :=
  if (0 <=? token) && (token <? gv_n_tokens v) then Ok (gv_piece v token) else Err (UB "token out of range").
Definition accepts_end (g : llama_grammar) : bool := existsb (fun s => bool_decide (s = [])) (stacks g).
(** a piece with no first character *)
Definition blank (pc : list Z) : bool := peek pc =? 0.
(** enough depth for a candidate: its characters and their end *)
Definition cand_depth (cands : list llama_grammar_candidate) : nat := S (foldr (fun c n => Nat.max (length (code_points c)) n) 0%nat cands).

Definition would_accept (fuel : nat) (v : GVocab) (g : llama_grammar) (token : Z) : res bool :=
  if awaiting_trigger g then Ok true
  else if gv_is_eog v token then Ok (accepts_end g)
  else
    let! pc := piece v token in
    if blank pc then Ok false else
    let! (cps, partial) := decode_utf8 pc (g_partial g) in
    let cand := [mkCand 0 cps 0 partial token] in
    let! rejects := reject_candidates (cand_depth cand) fuel (g_rules g) (stacks g) cand in
    Ok (bool_decide (length rejects = 0%nat)).

Definition ninf : spec_float := S754_infinity true.
(** the loop over the vocabulary: the logits masked so far, and the candidates *)
Fixpoint apply_scan (v : GVocab) (g : llama_grammar) (allow_eog : bool) (n : nat) (id : Z) (logits : list spec_float)
    : res (list spec_float * list llama_grammar_candidate) :=
  match n with
  | O => Ok (logits, [])
  | S n =>
      let! x := vget logits id in
      if SFeqb x ninf then apply_scan v g allow_eog n (id + 1) logits else
      let! pc := piece v id in
      if gv_is_eog v id then
        let! logits := if allow_eog then Ok logits else vset logits id ninf in
        apply_scan v g allow_eog n (id + 1) logits
      else if blank pc then
        let! logits := vset logits id ninf in
        apply_scan v g allow_eog n (id + 1) logits
      else
        let! (cps, partial) := decode_utf8 pc (g_partial g) in
        let! (logits, cands) := apply_scan v g allow_eog n (id + 1) logits in
        Ok (logits, mkCand id cps 0 partial id :: cands)
  end.
Fixpoint mask_all (rejects : list llama_grammar_candidate) (logits : list spec_float) : res (list spec_float) :=
  match rejects with
  | [] => Ok logits
  | c :: rejects => let! logits := vset logits (index c) ninf in mask_all rejects logits
  end.
Definition apply_impl (fuel : nat) (v : GVocab) (g : llama_grammar) (logits : list spec_float) : res (list spec_float) :=
  if awaiting_trigger g then Ok logits else
  let! (logits, cands) := apply_scan v g (accepts_end g) (length logits) 0 logits in
  let! rejects := reject_candidates (cand_depth cands) fuel (g_rules g) (stacks g) cands in
  mask_all rejects logits.

(** the tokens of the buffer that reach behind the start of the match, replayed *)
Fixpoint replay (fuel : nat) (start : Z) (posn : list (Z * (Z * Z))) (g : llama_grammar) : res llama_grammar :=
  match posn with
  | [] => Ok g
  | (tok, (tok_start, tok_end)) :: posn =>
      if tok_end <=? start then replay fuel start posn g else
      let piece_start := if tok_start <? start then start else tok_start in
      let! g := accept_token fuel g tok (vslice (trigger_buffer g) piece_start (tok_end - piece_start)) in
      replay fuel start posn g
  end.
Fixpoint first_match (ps : list llama_grammar_trigger_pattern) (input : list Z) : option Z :=
  match ps with
  | [] => None
  | p :: ps => match pattern_find p input with Some s => Some s | None => first_match ps input end
  end.
Definition accept_impl (fuel : nat) (v : GVocab) (g : llama_grammar) (token : Z) : res llama_grammar :=
  let! pc := piece v token in
  if awaiting_trigger g then
    if bool_decide (token ∈ trigger_tokens g) then
      accept_token fuel (with_trigger false [] (trigger_buffer_positions g) g) token pc
    else
      let n := Zlen (trigger_buffer g) in
      let posn := trigger_buffer_positions g ++ [(token, (n, n + Zlen pc))] in
      let buf := trigger_buffer g ++ pc in
      match first_match (trigger_patterns g) buf with
      | Some start =>
          let! g := replay fuel start posn (with_trigger false buf posn g) in
          Ok (with_trigger false [] [] g)
      | None => Ok (with_trigger true buf posn g)
      end
  else if gv_is_eog v token then
    if accepts_end g then Ok g else Err (UB "GGML_ABORT")
  else accept_token fuel g token pc.
