(* ===== verification/GrammarSem.v ===== *)
(** * Semantics of grammar stacks: well-formed positions, expansion, languages *)

From S2P Require Import Prelude Text Utf8 GrammarParse GrammarParseFacts GrammarMatch.

(** ** Well-formed rules and positions *)
Definition tail_ok (s : pstate) (l : llama_grammar_rule) : Prop := exists body e, l = body ++ [e] /\ etype e = END /\ is_Some (shape s body).
Definition wf_rules (rs : llama_grammar_rules) : Prop :=
  Forall (fun r => tail_ok Start r /\ Forall (fun e => etype e = RULE_REF -> 0 <= evalue e < Zlen rs) r) rs.

(** types at which an item, or the end of a sequence, can stand *)
Definition boundary_type (t : llama_gretype) : bool := match t with CHAR_RNG_UPPER | CHAR_ALT => false | _ => true end.
Definition item_type (t : llama_gretype) : bool := boundary_type t && negb (is_end_type t).
Definition char_type (t : llama_gretype) : bool := match t with CHAR | CHAR_NOT | CHAR_ANY => true | _ => false end.

(** a position in a rule with the elements from there on *)
Definition at_pos (rs : llama_grammar_rules) (pos : ptr) (e : llama_grammar_element) (l : llama_grammar_rule) : Prop :=
  exists r pre, vlookup rs pos.1 = Some r /\ r = pre ++ e :: l /\ Zlen pre = pos.2.
Definition ptr_ok (rs : llama_grammar_rules) (pos : ptr) : Prop := exists e l, at_pos rs pos e l /\ item_type (etype e) = true.
Definition stack_ok (rs : llama_grammar_rules) (s : llama_grammar_stack) : Prop := Forall (ptr_ok rs) s.

Lemma at_pos_elems rs pos e l : at_pos rs pos e l -> elems_at rs pos = Ok (e :: l).
Proof.
  intros (r & pre & Hr & -> & Hp). unfold elems_at, vget. rewrite Hr. simpl. pose proof (Zlen_nonneg pre). pose proof (Zlen_nonneg l).
  rewrite (proj2 (Z.leb_le 0 _)), (proj2 (Z.ltb_lt _ _)) by (rewrite ?Zlen_app, ?Zlen_cons; lia). simpl. f_equal.
  rewrite <- Hp. unfold Zlen. rewrite Nat2Z.id. apply drop_app_length.
Qed.
Lemma at_pos_elem rs pos e l : at_pos rs pos e l -> elem_at rs pos = Ok e.
Proof. intros H. unfold elem_at. by rewrite (at_pos_elems _ _ _ _ H). Qed.
Lemma at_pos_shift rs pos e a f l : at_pos rs pos e (a ++ f :: l) -> at_pos rs (shift pos (1 + Zlen a)) f l.
Proof.
  intros (r & pre & Hr & -> & Hp). exists (pre ++ e :: a ++ f :: l), (pre ++ e :: a). split_and!; [done | by rewrite <- app_assoc |].
  simpl. rewrite Zlen_app, Zlen_cons. lia.
Qed.
Lemma at_pos_inj rs pos e l e' l' : at_pos rs pos e l -> at_pos rs pos e' l' -> e = e' /\ l = l'.
Proof. intros H1%at_pos_elems H2%at_pos_elems. rewrite H1 in H2. by simplify_eq. Qed.

Section Wf.
Context (rs : llama_grammar_rules) (Hwf : wf_rules rs).

(** the shape behind a position *)
Lemma at_pos_tail pos e l : at_pos rs pos e l -> (exists s, tail_ok s (e :: l)) /\ (etype e = RULE_REF -> 0 <= evalue e < Zlen rs).
Proof.
  intros (r & pre & Hr & -> & Hp). unfold wf_rules in Hwf. rewrite Forall_forall in Hwf. destruct (Hwf _ (vlookup_elem_of _ _ _ Hr)) as [(body & x & Hb & Hx & Hs) Hf].
  split.
  - destruct l as [| y l] using rev_ind.
    + apply app_inj_tail in Hb as [-> ->]. exists Start, [], x. split_and!; [done | done | by exists Start].
    + clear IHl. rewrite app_comm_cons, app_assoc in Hb. apply app_inj_tail in Hb as [<- ->].
      rewrite shape_app in Hs. destruct (shape Start pre) as [s |]; [| by destruct Hs]. exists s, (e :: l), x. done.
  - rewrite Forall_app, Forall_cons in Hf. tauto.
Qed.
Lemma tail_step s e l : etype e <> END -> tail_ok s (e :: l) -> exists s', elem_step s (etype e) = Some s' /\ tail_ok s' l.
Proof.
  intros He (body & x & Hb & Hx & Hs). destruct body as [| y body]; simpl in Hb; simplify_eq. simpl in Hs.
  destruct (elem_step s (etype y)) as [s' |]; [| by destruct Hs]. exists s'. split; [done |]. by exists body, x.
Qed.
Lemma tail_nonempty s l : tail_ok s l -> l <> [].
Proof. intros (body & x & -> & _) H. by apply app_eq_nil in H as [_ ?]. Qed.

(** behind a reference or a token stands an item or the end of the sequence *)
Lemma single_next pos e l : at_pos rs pos e l -> etype e = RULE_REF \/ is_token_type (etype e) = true ->
  exists f l', at_pos rs (shift pos 1) f l' /\ boundary_type (etype f) = true.
Proof.
  intros Ha Ht. destruct (at_pos_tail _ _ _ Ha) as [(s & Hs) _].
  destruct (tail_step s e l) as (s' & Es & Hs'); [by destruct Ht as [-> | Ht]; [| intros E; rewrite E in Ht] | done |].
  assert (s' = Start) as -> by (destruct Ht as [Ht | Ht]; [rewrite Ht in Es | destruct (etype e)]; by simplify_eq/=).
  destruct l as [| f l]; [by apply tail_nonempty in Hs' |]. exists f, l. split; [by apply (at_pos_shift rs pos e [] f l) |].
  destruct (decide (etype f = END)) as [-> |]; [done |]. destruct (tail_step _ _ _ n Hs') as (s2 & E2 & _). by destruct (etype f).
Qed.
End Wf.

(** ** Classes: what a character item matches and where it ends *)
Definition class_elem (e : llama_grammar_element) (chr : Z) : bool :=
  if bool_decide (etype e = CHAR_ANY) then true else evalue e =? chr.
(** the meaning of a class, apart from its sign *)
Inductive in_class (chr : Z) : llama_grammar_rule -> Prop :=
| ic_single e l : etype (default e (head l)) <> CHAR_RNG_UPPER -> class_elem e chr = true -> in_class chr (e :: l)
| ic_range e u l : etype u = CHAR_RNG_UPPER -> evalue e <= chr <= evalue u -> in_class chr (e :: u :: l)
| ic_next e f l : etype f = CHAR_ALT -> in_class chr (f :: l) -> in_class chr (e :: f :: l)
| ic_next_range e u f l : etype u = CHAR_RNG_UPPER -> etype f = CHAR_ALT -> in_class chr (f :: l) -> in_class chr (e :: u :: f :: l).
(** the end of a class *)
Inductive class_end : llama_grammar_rule -> Z -> Prop :=
| ce_single e f l : boundary_type (etype f) = true -> class_end (e :: f :: l) 1
| ce_range e u f l : etype u = CHAR_RNG_UPPER -> boundary_type (etype f) = true -> class_end (e :: u :: f :: l) 2
| ce_next e f l k : etype f = CHAR_ALT -> class_end (f :: l) k -> class_end (e :: f :: l) (1 + k)
| ce_next_range e u f l k : etype u = CHAR_RNG_UPPER -> etype f = CHAR_ALT -> class_end (f :: l) k -> class_end (e :: u :: f :: l) (2 + k).

Lemma class_ends s e l : char_type (etype e) = true \/ etype e = CHAR_ALT -> tail_ok s (e :: l) -> exists k, class_end (e :: l) k.
Proof.
  remember (length l) as n eqn:Hn. revert s e l Hn. induction (lt_wf n) as [n _ IH]. intros s e l -> Ht Hs.
  assert (He : etype e <> END) by (destruct Ht as [Ht | ->]; [by intros E; rewrite E in Ht | done]).
  destruct (tail_step _ _ _ He Hs) as (s1 & E1 & H1). destruct l as [| f l]; [by apply tail_nonempty in H1 |].
  destruct (boundary_type (etype f)) eqn:Ef; [exists 1; by constructor |].
  assert (Hf : etype f <> END) by (intros E; by rewrite E in Ef).
  destruct (tail_step _ _ _ Hf H1) as (s2 & E2 & H2).
  destruct (etype f) eqn:Etf; simpl in Ef; try done.
  - destruct l as [| g l]; [by apply tail_nonempty in H2 |].
    destruct (boundary_type (etype g)) eqn:Eg; [exists 2; by constructor |].
    assert (Hg : etype g <> END) by (intros E; by rewrite E in Eg).
    destruct (tail_step _ _ _ Hg H2) as (s3 & E3 & _).
    assert (s2 = InRange) as -> by (destruct s1; by simplify_eq/=).
    assert (etype g = CHAR_ALT) as Hga by (destruct (etype g); by simplify_eq/=).
    destruct (IH (length l) ltac:(simpl; lia) InRange g l eq_refl (or_intror Hga) H2) as (k & Hk). exists (2 + k). by constructor.
  - destruct (IH (length l) ltac:(simpl; lia) s1 f l eq_refl (or_intror Etf) H1) as (k & Hk). exists (1 + k). by constructor.
Qed.
Lemma class_end_tail l k : class_end l k -> exists e a f l', l = e :: a ++ f :: l' /\ Zlen a + 1 = k /\ boundary_type (etype f) = true.
Proof.
  induction 1 as [e f l Hf | e u f l Hu Hf | e f l k Hf H IH | e u f l k Hu Hf H IH].
  - by exists e, [], f, l.
  - by exists e, [u], f, l.
  - destruct IH as (e' & a & g & l' & He & Hk & Hg). injection He as <- ->. exists e, (f :: a), g, l'. rewrite Zlen_cons. split_and!; [done | lia | done].
  - destruct IH as (e' & a & g & l' & He & Hk & Hg). injection He as <- ->. exists e, (u :: f :: a), g, l'. rewrite !Zlen_cons. split_and!; [done | lia | done].
Qed.
Lemma class_end_fun l k k' : class_end l k -> class_end l k' -> k = k'.
Proof.
  intros H. revert k'. induction H as [e f l Hf | e u f l Hu Hf | e f l k Hf H IH | e u f l k Hu Hf H IH]; intros k' H';
    inversion H'; subst; try done; try (exfalso; by repeat match goal with E : etype _ = _ |- _ => rewrite E in * end); f_equal; by apply IH.
Qed.
Lemma boundary_not_range t : boundary_type t = true -> t <> CHAR_RNG_UPPER /\ t <> CHAR_ALT.
Proof. by destruct t. Qed.
Lemma char_loop_cons chr found e u l2 : char_loop chr found (e :: u :: l2) =
  if bool_decide (etype u = CHAR_RNG_UPPER) then
    let! n := vget l2 0 in
    if bool_decide (etype n = CHAR_ALT)
    then let! (found, m) := char_loop chr (found || ((evalue e <=? chr) && (chr <=? evalue u))) l2 in Ok (found, 2 + m)
    else Ok (found || ((evalue e <=? chr) && (chr <=? evalue u)), 2)
  else if bool_decide (etype u = CHAR_ALT)
  then let! (found, m) := char_loop chr (if bool_decide (etype e = CHAR_ANY) then true else found || (evalue e =? chr)) (u :: l2) in Ok (found, 1 + m)
  else Ok (if bool_decide (etype e = CHAR_ANY) then true else found || (evalue e =? chr), 1).
Proof. reflexivity. Qed.
Lemma char_loop_spec chr l k found : class_end l k ->
  exists b, char_loop chr found l = Ok (b, k) /\ (b = true <-> found = true \/ in_class chr l).
Proof.
  intros H. revert found. induction H as [e f l Hf | e u f l Hu Hf | e f l k Hf H IH | e u f l k Hu Hf H IH]; intros found; rewrite char_loop_cons.
  - destruct (boundary_not_range _ Hf) as [N1 N2]. rewrite !bool_decide_eq_false_2 by done.
    eexists. split; [done |]. assert (Hin : in_class chr (e :: f :: l) <-> class_elem e chr = true).
    { split; [intros Hi; inversion Hi; subst; done | intros Hi; by apply ic_single]. }
    rewrite Hin. unfold class_elem. destruct (bool_decide (etype e = CHAR_ANY)); rewrite ?orb_true_iff; tauto.
  - rewrite (bool_decide_eq_true_2 (etype u = _)) by done. change (vget (f :: l) 0) with (Ok f). cbn [rbind].
    destruct (boundary_not_range _ Hf) as [N1 N2]. rewrite (bool_decide_eq_false_2 (etype f = _)) by done.
    eexists. split; [done |]. rewrite orb_true_iff, andb_true_iff, !Z.leb_le. split; (intros [? | Hi]; [by left | right]).
    + by apply ic_range.
    + inversion Hi; subst; simpl in *; try done; congruence.
  - rewrite (bool_decide_eq_false_2 (etype f = CHAR_RNG_UPPER)), (bool_decide_eq_true_2 (etype f = CHAR_ALT)) by (rewrite Hf; done).
    destruct (IH (if bool_decide (etype e = CHAR_ANY) then true else found || (evalue e =? chr))) as (b & -> & Hb). simpl. exists b. split; [done |].
    rewrite Hb. assert (Hin : in_class chr (e :: f :: l) <-> class_elem e chr = true \/ in_class chr (f :: l)).
    { split; [intros Hi; inversion Hi; subst; first [by left | by right | congruence] |]. intros [Hi | Hi]; [apply ic_single; [simpl; congruence | done] | by apply ic_next]. }
    rewrite Hin. unfold class_elem. destruct (bool_decide (etype e = CHAR_ANY)); rewrite ?orb_true_iff; tauto.
  - rewrite (bool_decide_eq_true_2 (etype u = _)) by done. 
    change (vget (f :: l) 0) with (Ok f). cbn [rbind]. rewrite (bool_decide_eq_true_2 (etype f = _)) by done.
    destruct (IH (found || ((evalue e <=? chr) && (chr <=? evalue u)))) as (b & -> & Hb). simpl. exists b. split; [done |].
    rewrite Hb, orb_true_iff, andb_true_iff, !Z.leb_le.
    assert (Hin : in_class chr (e :: u :: f :: l) <-> evalue e <= chr <= evalue u \/ in_class chr (f :: l)).
    { split; [intros Hi; inversion Hi; subst; simpl in *; first [by left | by right | congruence] |].
      intros [Hi | Hi]; [by apply ic_range | by apply ic_next_range]. }
    rewrite Hin. tauto.
Qed.
Definition in_item (chr : Z) (e : llama_grammar_element) (l : llama_grammar_rule) : Prop :=
  if is_positive_type (etype e) then in_class chr (e :: l) else ~ in_class chr (e :: l).

Section Match.
Context (rs : llama_grammar_rules) (Hwf : wf_rules rs).
Lemma match_char_at pos e l : at_pos rs pos e l -> char_type (etype e) = true ->
  exists k f l', class_end (e :: l) k /\ at_pos rs (shift pos k) f l' /\ boundary_type (etype f) = true /\ drop (Z.to_nat k) (e :: l) = f :: l'
    /\ forall chr, exists b, match_char rs pos chr = Ok (b, shift pos k) /\ (b = true <-> in_item chr e l).
Proof.
  intros Ha Ht. destruct (at_pos_tail rs Hwf _ _ _ Ha) as [(s & Hs) _]. destruct (class_ends s e l (or_introl Ht) Hs) as (k & Hk).
  destruct (class_end_tail _ _ Hk) as (e' & a & f & l' & He & Hz & Hf). injection He as <- ->. exists k, f, l'. split_and!; try done.
  - replace k with (1 + Zlen a) by lia. by eapply at_pos_shift.
  - rewrite <- Hz. unfold Zlen. replace (Z.to_nat (Z.of_nat (length a) + 1)) with (S (length a)) by lia. simpl. apply drop_app_length.
  - intros chr. unfold match_char. rewrite (at_pos_elems _ _ _ _ Ha). cbn [rbind]. change (vget (e :: a ++ f :: l') 0) with (Ok e). cbn [rbind].
    assert (Hp : is_positive_type (etype e) || bool_decide (etype e = CHAR_NOT) = true) by (by destruct (etype e)). rewrite Hp. cbn [negb].
    destruct (char_loop_spec chr _ k false Hk) as (b & -> & Hb). cbn [rbind]. eexists. split; [done |].
    unfold in_item. destruct (is_positive_type (etype e)), b; simpl; naive_solver.
Qed.
End Match.

(** ** The language of a grammar

    [gen l w]: the sequence that starts at the elements [l] (up to the end of its alternative)
    generates the code points [w]; [gen_rule r w]: some alternative of [r] does.  Token elements
    generate no characters: they stand for a whole token. *)
Inductive gen (rs : llama_grammar_rules) : llama_grammar_rule -> list Z -> Prop :=
| gen_end e l : is_end_type (etype e) = true -> gen rs (e :: l) []
| gen_char e l k c w : char_type (etype e) = true -> in_item c e l -> class_end (e :: l) k -> gen rs (drop (Z.to_nat k) (e :: l)) w ->
    gen rs (e :: l) (c :: w)
| gen_ref e l r w1 w2 : etype e = RULE_REF -> vlookup rs (evalue e) = Some r -> gen_rule rs r w1 -> gen rs l w2 -> gen rs (e :: l) (w1 ++ w2)
with gen_rule (rs : llama_grammar_rules) : llama_grammar_rule -> list Z -> Prop :=
| gen_first r w : gen rs r w -> gen_rule rs r w
| gen_other a e r w : Forall (fun x => is_end_type (etype x) = false) a -> etype e = ALT -> gen_rule rs r w -> gen_rule rs (a ++ e :: r) w.
(** a stack generates what its positions generate, top first *)
Inductive lang (rs : llama_grammar_rules) : llama_grammar_stack -> list Z -> Prop :=
| lang_nil : lang rs [] []
| lang_cons pos l s w1 w2 : elems_at rs pos = Ok l -> gen rs l w1 -> lang rs s w2 -> lang rs (pos :: s) (w1 ++ w2).

(** the stacks a stack with a reference on top expands to *)
Inductive expand (rs : llama_grammar_rules) : llama_grammar_stack -> llama_grammar_stack -> Prop :=
| expand_ref pos below e alts next a : elem_at rs pos = Ok e -> etype e = RULE_REF -> rule_alternatives rs (evalue e) = Ok alts ->
    push_next rs (shift pos 1) below = Ok next -> a ∈ alts -> expand rs (pos :: below) (push_opt a next).
Definition terminal (rs : llama_grammar_rules) (s : llama_grammar_stack) : Prop :=
  match s with [] => True | pos :: _ => exists e, elem_at rs pos = Ok e /\ etype e <> RULE_REF end.

Section Expand.
Context (rs : llama_grammar_rules) (Hwf : wf_rules rs).

Lemma scan_end_spec s l : tail_ok s l -> exists a f l', scan_end l = Ok (Zlen a, f :: l') /\ l = a ++ f :: l'
  /\ Forall (fun x => is_end_type (etype x) = false) a /\ is_end_type (etype f) = true /\ (etype f = ALT -> tail_ok Start l').
Proof.
  revert s. induction l as [| e l IH]; intros s Hs; [by apply tail_nonempty in Hs |]. cbn [scan_end].
  destruct (is_end_type (etype e)) eqn:Ee.
  - exists [], e, l. split_and!; try done. intros Ht. destruct (tail_step s e l) as (s' & E & Hs'); [congruence | done |]. rewrite Ht in E. by simplify_eq/=.
  - destruct (tail_step s e l) as (s' & E & Hs'); [by intros Ht; rewrite Ht in Ee | done |].
    destruct (IH s' Hs') as (a & f & l' & -> & -> & Ha & Hf & Ht). cbn [rbind]. exists (e :: a), f, l'. rewrite Zlen_cons.
    split_and!; [done | done | by constructor | done | done].
Qed.
Lemma start_boundary e l : tail_ok Start (e :: l) -> boundary_type (etype e) = true.
Proof.
  intros H. destruct (decide (etype e = END)) as [-> |]; [done |]. destruct (tail_step _ _ _ n H) as (s & E & _). by destruct (etype e).
Qed.
(** the alternatives found are the ones of the language *)
Definition alt_lang (a : option ptr) (w : list Z) : Prop :=
  match a with None => w = [] | Some q => exists l, elems_at rs q = Ok l /\ gen rs l w end.
Lemma gen_end_inv e l w : is_end_type (etype e) = true -> gen rs (e :: l) w -> w = [].
Proof. intros He H. inversion H; subst; [done | by destruct (etype e) | by destruct (etype e)]. Qed.
Lemma gen_rule_split a f l w : Forall (fun x => is_end_type (etype x) = false) a -> is_end_type (etype f) = true ->
  gen_rule rs (a ++ f :: l) w <-> gen rs (a ++ f :: l) w \/ (etype f = ALT /\ gen_rule rs l w).
Proof.
  intros Ha Hf. split; [| intros [H | [He H]]; [by constructor | by apply gen_other]].
  intros H. remember (a ++ f :: l) as r eqn:Hr. destruct H as [r w H | b e r w Hb He H]; [by left |]. right.
  assert (a = b /\ f = e /\ l = r) as (-> & -> & ->); [| done].
  clear -Ha Hb Hf He Hr. revert b Hb Hr. induction a as [| x a IH]; intros [| y b] Hb Hr; simplify_eq/=; [done | | |].
  - apply Forall_cons in Hb as [Hb _]. congruence.
  - apply Forall_cons in Ha as [Ha _]. by rewrite He in Ha.
  - apply Forall_cons in Ha as [_ Ha]. apply Forall_cons in Hb as [_ Hb]. destruct (IH Ha b Hb) as (-> & -> & ->); done.
Qed.
Lemma alternatives_spec fuel subpos e l : (length l < fuel)%nat -> at_pos rs subpos e l -> tail_ok Start (e :: l) ->
  exists alts, alternatives fuel rs subpos = Ok alts /\ alts <> [] /\ (forall q, Some q ∈ alts -> ptr_ok rs q)
    /\ forall w, gen_rule rs (e :: l) w <-> exists a, a ∈ alts /\ alt_lang a w.
Proof.
  revert subpos e l. induction fuel as [| fuel IH]; intros subpos e l Hf Ha Hs; [lia |]. cbn [alternatives].
  rewrite (at_pos_elems _ _ _ _ Ha). cbn [rbind]. change (vget (e :: l) 0) with (Ok e). cbn [rbind].
  destruct (scan_end_spec _ _ Hs) as (a & f & l' & -> & Hl & Hna & Hef & Hft). cbn [rbind].
  change (vget (f :: l') 0) with (Ok f). cbn [rbind]. set (here := if is_end_type (etype e) then None else Some subpos).
  assert (Hhere : (forall q, here = Some q -> ptr_ok rs q) /\ forall w, gen rs (e :: l) w <-> alt_lang here w).
  { subst here. pose proof (start_boundary _ _ Hs) as Hb. destruct (is_end_type (etype e)) eqn:Ee.
    - split; [done |]. intros w. simpl. split; [by apply gen_end_inv |]. intros ->. by constructor.
    - split; [intros q [= <-]; exists e, l; split; [done |]; unfold item_type; by rewrite Hb, Ee |].
      intros w. simpl. rewrite (at_pos_elems _ _ _ _ Ha). split; [intros H; by exists (e :: l) | by intros (? & [= <-] & ?)]. }
  destruct Hhere as [Hh1 Hh2].
  assert (Hsplit : forall w, gen_rule rs (e :: l) w <-> alt_lang here w \/ (etype f = ALT /\ gen_rule rs l' w)).
  { intros w. rewrite <- Hh2, Hl. by apply gen_rule_split. }
  destruct (decide (etype f = ALT)) as [Hfa | Hfa].
  - rewrite bool_decide_eq_true_2 by done.
    assert (Ha' : exists e2 l2, l' = e2 :: l2 /\ at_pos rs (shift subpos (Zlen a + 1)) e2 l2).
    { pose proof (Hft Hfa) as Ht. destruct l' as [| e2 l2]; [by apply tail_nonempty in Ht |]. exists e2, l2. split; [done |].
      destruct a as [| x a]; simpl in Hl; injection Hl as -> ->.
      - by apply (at_pos_shift rs subpos f [] e2 l2).
      - rewrite Zlen_cons. replace (1 + Zlen a + 1) with (1 + Zlen (a ++ [f])) by (rewrite Zlen_app, Zlen_cons, Zlen_nil; lia).
        apply (at_pos_shift rs subpos x (a ++ [f]) e2 l2). by rewrite <- app_assoc. }
    destruct Ha' as (e2 & l2 & -> & Ha2).
    destruct (IH (shift subpos (Zlen a + 1)) e2 l2) as (alts & -> & H1 & H2 & H3); [| done | by apply Hft |].
    { assert (length (e :: l) = length (a ++ f :: e2 :: l2)) by (by rewrite Hl). rewrite length_app in H. simpl in H. lia. }
    cbn [rbind]. exists (here :: alts). split_and!; [done | done | |].
    + intros q Hq. apply elem_of_cons in Hq as [Hq | Hq]; [by apply Hh1 | by apply H2].
    + intros w. rewrite Hsplit, H3. setoid_rewrite elem_of_cons. naive_solver.
  - rewrite bool_decide_eq_false_2 by done. exists [here]. split_and!; [done | done | |].
    + intros q Hq%list_elem_of_singleton. by apply Hh1.
    + intros w. rewrite Hsplit. setoid_rewrite list_elem_of_singleton. naive_solver.
Qed.
Lemma rule_alternatives_spec v : 0 <= v < Zlen rs -> exists r alts, vlookup rs v = Some r /\ rule_alternatives rs v = Ok alts /\ alts <> []
  /\ (forall q, Some q ∈ alts -> ptr_ok rs q) /\ forall w, gen_rule rs r w <-> exists a, a ∈ alts /\ alt_lang a w.
Proof.
  intros Hv. destruct (vlookup_lt_is_Some rs v Hv) as [r Hr]. unfold wf_rules in Hwf. rewrite Forall_forall in Hwf.
  destruct (Hwf r (vlookup_elem_of _ _ _ Hr)) as [Ht _]. destruct r as [| e l]; [by apply tail_nonempty in Ht |].
  destruct (alternatives_spec (S (length (e :: l))) (v, 0) e l) as (alts & Ea & H1 & H2 & H3); [simpl; lia | by exists (e :: l), [] | done |].
  exists (e :: l), alts. unfold rule_alternatives, vget. rewrite Hr. cbn [rbind]. done.
Qed.
End Expand.
