(* ===== verification/GrammarText.v ===== *)
(** * What a grammar text means

    The syntax of grammar texts as a grammar of its own (literals, classes, references, groups and
    repetitions; comments and token elements are left out), and the language of its expressions, given
    the languages of the names.  Nothing here depends on how the parser works. *)

From S2P Require Import Prelude Text Utf8 GrammarParse GrammarParseFacts GrammarMatch GrammarSem.

(** ** Languages *)
Definition language : Type := list Z -> Prop.
Definition cat (L K : language) : language := fun w => exists u v, w = u ++ v /\ L u /\ K v.
Definition eps : language := fun w => w = [].
Fixpoint power (n : nat) (L : language) : language := match n with O => eps | S n => cat L (power n L) end.
Definition cats (Ls : list language) : language := foldr cat eps Ls.
Definition alts (Ls : list language) : language := fun w => Exists (fun L : language => L w) Ls.
(** between [lo] and [hi] times, without an upper bound when [hi] is [None] *)
Definition times (lo : nat) (hi : option nat) (L : language) : language :=
  fun w => exists n, (lo <= n)%nat /\ (match hi with Some hi => (n <= hi)%nat | None => True end) /\ power n L w.

(** ** Expressions *)
Inductive gx :=
| GLit (cps : list Z)
| GClass (neg : bool) (ranges : list (Z * Z))
| GAny
| GRef (name : list Z)
| GGroup (a : list (list gx))
| GRep (x : gx) (lo : nat) (hi : option nat).
Definition in_ranges (ranges : list (Z * Z)) (c : Z) : Prop := Exists (fun r => r.1 <= c <= r.2) ranges.
Section Meaning.
Context (rho : list Z -> language).
Fixpoint den (x : gx) : language :=
  match x with
  | GLit cps => fun w => w = cps
  | GClass neg ranges => fun w => exists c, w = [c] /\ if neg then ~ in_ranges ranges c else in_ranges ranges c
  | GAny => fun w => exists c, w = [c]
  | GRef name => rho name
  | GGroup a => alts (map (fun s => cats (map den s)) a)
  | GRep x lo hi => times lo hi (den x)
  end.
Definition den_seq (s : list gx) : language := cats (map den s).
Definition den_alts (a : list (list gx)) : language := alts (map den_seq a).
End Meaning.

(** ** Texts *)
Definition blank_char (nested : bool) (c : Z) : bool := (c =? ch " ") || (c =? tab) || (nested && ((c =? creturn) || (c =? newline))).
Definition blank (nested : bool) (s : list Z) : Prop := Forall (fun c => blank_char nested c = true) s.
(** a character that stands for itself, or an escape *)
Inductive char_text : Z -> list Z -> Prop :=
| ct_plain c : scalar c -> c <> ch "\" -> char_text c (utf8_encode c)
| ct_escape c e : (c, e) ∈ [(tab, ch "t"); (creturn, ch "r"); (newline, ch "n"); (ch "\", ch "\"); (quote, quote); (ch "[", ch "["); (ch "]", ch "]"); (ch "-", ch "-")] ->
    char_text c [ch "\"; e]
| ct_hex c x n ds : (x, n) ∈ [(ch "x", 2%nat); (ch "u", 4%nat); (ch "U", 8%nat)] -> length ds = n ->
    (exists vs, mapM hex_digit ds = Some vs /\ c = foldl (fun v d => v * 16 + d) 0 vs) -> char_text c (ch "\" :: x :: ds).
Inductive chars_text (stop : Z) : list Z -> list Z -> Prop :=
| cs_nil : chars_text stop [] []
| cs_cons c cps t u : char_text c t -> peek t <> stop -> chars_text stop cps u -> chars_text stop (c :: cps) (t ++ u).
(** the inside of a class: characters and ranges; a hyphen behind a character makes a range *)
Inductive class_text : list (Z * Z) -> list Z -> Prop :=
| cl_nil : class_text [] []
| cl_one c rs t u : char_text c t -> peek t <> ch "]" -> peek u <> ch "-" -> class_text rs u -> class_text ((c, c) :: rs) (t ++ u)
| cl_range c d rs t t' u : char_text c t -> peek t <> ch "]" -> char_text d t' -> peek t' <> ch "]" -> class_text rs u -> class_text ((c, d) :: rs) (t ++ ch "-" :: t' ++ u).
Definition digits_text (n : nat) (ds : list Z) : Prop := ds <> [] /\ Forall (fun c => is_digit_char c = true) ds /\ digits_value ds = Z.of_nat n.
Inductive op_text (nested : bool) : nat -> option nat -> list Z -> Prop :=
| op_star : op_text nested 0 None [ch "*"]
| op_plus : op_text nested 1 None [ch "+"]
| op_opt : op_text nested 0 (Some 1%nat) [ch "?"]
| op_times lo ds : digits_text lo ds -> op_text nested lo (Some lo) (ch "{" :: ds ++ [ch "}"])
| op_from lo ds : digits_text lo ds -> op_text nested lo None (ch "{" :: ds ++ [ch ","; ch "}"])
| op_range lo hi ds es : digits_text lo ds -> digits_text hi es -> (lo <= hi)%nat -> op_text nested lo (Some hi) (ch "{" :: ds ++ ch "," :: es ++ [ch "}"]).
(** what can be repeated: an item that is not empty and not itself a repetition *)
Definition base_item (x : gx) : bool := match x with GLit [] | GRep _ _ _ => false | _ => true end.
(** two texts that stay apart: a name does not run into the next word *)
Definition apart (t u : list Z) : Prop := match last t with Some c => is_word_char c = true -> is_word_char (peek u) = false | None => True end.
Definition word (s : list Z) : Prop := s <> [] /\ Forall (fun c => is_word_char c = true) s.
Inductive item_text : bool -> gx -> list Z -> Prop :=
| it_lit nested cps t : chars_text quote cps t -> item_text nested (GLit cps) (quote :: t ++ [quote])
| it_class nested rs t : rs <> [] -> class_text rs t -> peek t <> ch "^" -> item_text nested (GClass false rs) (ch "[" :: t ++ [ch "]"])
| it_not nested rs t : rs <> [] -> class_text rs t -> item_text nested (GClass true rs) (ch "[" :: ch "^" :: t ++ [ch "]"])
| it_any nested : item_text nested GAny [ch "."]
| it_ref nested name : word name -> item_text nested (GRef name) name
| it_group nested a s t : blank true s -> alts_text true a t -> item_text nested (GGroup a) (ch "(" :: s ++ t ++ [ch ")"])
| it_rep nested x lo hi t s o : base_item x = true -> item_text nested x t -> blank nested s -> op_text nested lo hi o -> item_text nested (GRep x lo hi) (t ++ s ++ o)
with seq_text : bool -> list gx -> list Z -> Prop :=
| st_nil nested : seq_text nested [] []
| st_cons nested x xs t s u : item_text nested x t -> blank nested s -> apart t (s ++ u) -> seq_text nested xs u -> seq_text nested (x :: xs) (t ++ s ++ u)
with alts_text : bool -> list (list gx) -> list Z -> Prop :=
| at_one nested a t : seq_text nested a t -> alts_text nested [a] t
| at_more nested a l t s u : seq_text nested a t -> blank true s -> alts_text nested l u -> (nested = true \/ u <> []) -> alts_text nested (a :: l) (t ++ ch "|" :: s ++ u).
Scheme item_text_mind := Minimality for item_text Sort Prop
  with seq_text_mind := Minimality for seq_text Sort Prop
  with alts_text_mind := Minimality for alts_text Sort Prop.
Combined Scheme text_mind from item_text_mind, seq_text_mind, alts_text_mind.

(** ** Grammars: a name, its alternatives, and the text of the rule on one line; behind ::= and | a line
    break is skipped, so that the text there must not be empty *)
Record gbnf_rule := mkGbnf { g_name : list Z; g_alts : list (list gx) }.
Definition rule_text (r : gbnf_rule) (line : list Z) : Prop := exists s t, word (g_name r) /\ blank true s /\ alts_text false (g_alts r) t /\ t <> [] /\ line = g_name r ++ bytes " ::=" ++ s ++ t.
Inductive grammar_text : list gbnf_rule -> list Z -> Prop :=
| gt_nil : grammar_text [] []
| gt_cons r rs line u : rule_text r line -> grammar_text rs u -> grammar_text (r :: rs) (line ++ newline :: u).

(** the symbols a text can add to the parser's table; a repetition multiplies those of its item *)
Fixpoint weight (x : gx) : Z :=
  match x with
  | GRef _ => 1
  | GGroup a => 1 + foldr Z.add 0 (map (fun s => foldr Z.add 0 (map weight s)) a)
  | GRep x lo hi => weight x + match hi with Some hi => Z.of_nat (hi - lo) | None => 1 end
  | _ => 0
  end.
(** repetitions stay below the limits of the parser *)
Definition most (lo : nat) (hi : option nat) : Z := match hi with Some (S h) => Z.of_nat (S h) | _ => Z.max 1 (Z.of_nat lo) end.
Fixpoint modest (x : gx) : bool :=
  match x with
  | GGroup a => forallb (forallb modest) a
  | GRep x lo hi => modest x && (Z.max 1 (weight x) * most lo hi <=? MAX_REPETITION_THRESHOLD) && (Z.of_nat lo <=? MAX_REPETITION_THRESHOLD) && (most lo hi <=? MAX_REPETITION_THRESHOLD)
  | _ => true
  end.
Definition weight_alts (a : list (list gx)) : Z := foldr Z.add 0 (map (fun s => foldr Z.add 0 (map weight s)) a).
(** the names an expression mentions *)
Fixpoint mentions (x : gx) : list (list Z) :=
  match x with
  | GRef n => [n]
  | GGroup a => concat (map (fun s => concat (map mentions s)) a)
  | GRep x _ _ => mentions x
  | _ => []
  end.
