(* ===== verification/GrammarCheck.v ===== *)
(** * Checking that a text is written the way an expression says

    A function that consumes the text of an expression, guided by the expression, and its soundness:
    with it a concrete grammar text is recognised by evaluation.  Also how texts are put together. *)

From S2P Require Import Prelude Text Utf8 GrammarParse GrammarParseFacts GrammarMatch GrammarSem GrammarText.

(** ** Consuming *)
Definition eat (pat s : list Z) : option (list Z) := if starts_with pat s then Some (drop (length pat) s) else None.
Definition escapes : list (Z * Z) := [(tab, ch "t"); (creturn, ch "r"); (newline, ch "n"); (ch "\", ch "\"); (quote, quote); (ch "[", ch "["); (ch "]", ch "]"); (ch "-", ch "-")].
Definition hex_forms : list (Z * nat) := [(ch "x", 2%nat); (ch "u", 4%nat); (ch "U", 8%nat)].
Definition eat_hex (c : Z) (s : list Z) : option (list Z) :=
  match s with
  | x :: s => match snd <$> List.find (fun f => f.1 =? x) hex_forms with
              | Some n => if bool_decide (length (take n s) = n) && bool_decide ((fun vs => foldl (fun v d => v * 16 + d) 0 vs) <$> mapM hex_digit (take n s) = Some c) then Some (drop n s) else None
              | None => None
              end
  | [] => None
  end.
Definition eat_char (stop c : Z) (s : list Z) : option (list Z) :=
  if peek s =? stop then None else
  match s with
  | b :: e :: s' =>
      if b =? ch "\" then if existsb (fun p => (p.1 =? c) && (p.2 =? e)) escapes then Some s' else eat_hex c (e :: s')
      else if (0 <? c) && (c <? 0x110000) && negb (c =? ch "\") then eat (utf8_encode c) s else None
  | _ => if (0 <? c) && (c <? 0x110000) && negb (c =? ch "\") then eat (utf8_encode c) s else None
  end.
Fixpoint eat_chars (stop : Z) (cps s : list Z) : option (list Z) :=
  match cps with [] => Some s | c :: cps => match eat_char stop c s with Some s => eat_chars stop cps s | None => None end end.
Fixpoint eat_class (rs : list (Z * Z)) (s : list Z) : option (list Z) :=
  match rs with
  | [] => Some s
  | (c, d) :: rs =>
      match eat_char (ch "]") c s with
      | None => None
      | Some s1 => if negb (peek s1 =? ch "-") then if c =? d then eat_class rs s1 else None
                   else match eat_char (ch "]") d (drop 1 s1) with Some s2 => eat_class rs s2 | None => None end
      end
  end.
Fixpoint digits_of (s : list Z) : list Z := match s with c :: s => if is_digit_char c then c :: digits_of s else [] | [] => [] end.
Definition eat_number (n : nat) (s : list Z) : option (list Z) :=
  let ds := digits_of s in if bool_decide (ds <> []) && (digits_value ds =? Z.of_nat n) then Some (drop (length ds) s) else None.
Definition eat_bounds (lo : nat) (hi : option nat) (s : list Z) : option (list Z) :=
  match eat_number lo s with
  | None => None
  | Some s => if peek s =? ch "}" then if bool_decide (hi = Some lo) then Some (drop 1 s) else None
              else match eat (bytes ",") s with
                   | None => None
                   | Some s => match hi with
                               | None => eat (bytes "}") s
                               | Some h => if (lo <=? h)%nat then match eat_number h s with Some s => eat (bytes "}") s | None => None end else None
                               end
                   end
  end.
Definition eat_op (lo : nat) (hi : option nat) (s : list Z) : option (list Z) :=
  if peek s =? ch "*" then if bool_decide (lo = 0%nat /\ hi = None) then Some (drop 1 s) else None
  else if peek s =? ch "+" then if bool_decide (lo = 1%nat /\ hi = None) then Some (drop 1 s) else None
  else if peek s =? ch "?" then if bool_decide (lo = 0%nat /\ hi = Some 1%nat) then Some (drop 1 s) else None
  else match eat (bytes "{") s with Some s => eat_bounds lo hi s | None => None end.
Definition eat_blank (nested : bool) (s : list Z) : list Z := skip_while (blank_char nested) s.
Definition is_word (s : list Z) : bool := match s with [] => false | _ => forallb is_word_char s end.
Section Eat.
Context (eat_item : bool -> gx -> list Z -> option (list Z)).
Fixpoint eat_items (nested : bool) (xs : list gx) (s : list Z) : option (list Z) :=
  match xs with
  | [] => Some s
  | x :: xs => match eat_item nested x s with
               | Some s => if match x with GRef _ => is_word_char (peek s) | _ => false end then None else eat_items nested xs (eat_blank nested s)
               | None => None
               end
  end.
Fixpoint eat_alternatives (nested : bool) (l : list (list gx)) (s : list Z) : option (list Z) :=
  match l with
  | [] => None
  | [a] => eat_items nested a s
  | a :: l => match eat_items nested a s with
              | Some s => match eat (bytes "|") s with
                          | Some s => let s := eat_blank true s in
                                      match eat_alternatives nested l s with Some s' => if nested || (length s' <? length s)%nat then Some s' else None | None => None end
                          | None => None
                          end
              | None => None
              end
  end.
End Eat.
Fixpoint eat_item (nested : bool) (x : gx) (s : list Z) : option (list Z) :=
  match x with
  | GLit cps => match eat [quote] s with Some s => match eat_chars quote cps s with Some s => eat [quote] s | None => None end | None => None end
  | GClass neg rs =>
      match eat (if neg then bytes "[^" else bytes "[") s with
      | Some s => if bool_decide (rs = []) || negb neg && (peek s =? ch "^") then None else match eat_class rs s with Some s => eat (bytes "]") s | None => None end
      | None => None
      end
  | GAny => eat (bytes ".") s
  | GRef name => if is_word name then eat name s else None
  | GGroup a =>
      match eat (bytes "(") s with
      | Some s => match eat_alternatives eat_item true a (eat_blank true s) with Some s => eat (bytes ")") s | None => None end
      | None => None
      end
  | GRep x lo hi => if base_item x then match eat_item nested x s with Some s => eat_op lo hi (eat_blank nested s) | None => None end else None
  end.
Definition eat_seq (nested : bool) (xs : list gx) (s : list Z) : option (list Z) := eat_items eat_item nested xs s.
Definition eat_alts (nested : bool) (l : list (list gx)) (s : list Z) : option (list Z) := eat_alternatives eat_item nested l s.

(** ** Soundness *)
Lemma eat_Some pat s u : eat pat s = Some u -> s = pat ++ u.
Proof. unfold eat, starts_with. case_bool_decide as H; [| done]. intros [= <-]. rewrite <- H at 1. by rewrite take_drop. Qed.
Lemma eat_app pat u : eat pat (pat ++ u) = Some u.
Proof. unfold eat, starts_with. rewrite take_app_length, bool_decide_eq_true_2 by done. by rewrite drop_app_length. Qed.
Lemma eat_hex_sound c s u : eat_hex c s = Some u -> exists x n ds, s = x :: ds ++ u /\ (x, n) ∈ hex_forms /\ length ds = n /\ exists vs, mapM hex_digit ds = Some vs /\ c = foldl (fun v d => v * 16 + d) 0 vs.
Proof.
  unfold eat_hex. destruct s as [| x s]; [done |]. destruct (List.find _ hex_forms) as [ [y n] |] eqn:Ef; [| done]. simpl. apply List.find_some in Ef as [Hin Hx]. apply Z.eqb_eq in Hx. simpl in Hx. subst y.
  destruct (_ && _) eqn:E; [| done]. intros [= <-]. apply andb_prop in E as [E1 E2]. apply bool_decide_eq_true in E1, E2. exists x, n, (take n s). rewrite take_drop. split_and!; [done | by apply list_elem_of_In | done |].
  destruct (mapM hex_digit (take n s)) as [vs |]; [| done]. simpl in E2. exists vs. split; [done |]. congruence.
Qed.
Lemma eat_char_sound stop c s u : eat_char stop c s = Some u -> exists t, s = t ++ u /\ char_text c t /\ peek t <> stop.
Proof.
  unfold eat_char. destruct (Z.eqb_spec (peek s) stop) as [| Hst]; [done |].
  assert (Hplain : (if (0 <? c) && (c <? 0x110000) && negb (c =? ch "\") then eat (utf8_encode c) s else None) = Some u -> exists t, s = t ++ u /\ char_text c t /\ peek t <> stop).
  { destruct (_ && _) eqn:E; [| done]. apply andb_prop in E as [E E3]. apply andb_prop in E as [E1 E2]. intros He. apply eat_Some in He. exists (utf8_encode c). split; [done |]. split; [constructor; [unfold scalar; lia |]; intros ->; done |].
    subst s. intros Hp. apply Hst. rewrite <- Hp. unfold utf8_encode. by repeat case_match. }
  destruct s as [| b [| e s'] ]; [exact Hplain | exact Hplain |]. destruct (Z.eqb_spec b (ch "\")) as [-> | _]; [| exact Hplain]. destruct (existsb _ escapes) eqn:Ex.
  - intros [= <-]. apply existsb_exists in Ex as ([c' e'] & Hin & Hce). apply andb_prop in Hce as [H1 H2]. apply Z.eqb_eq in H1, H2. simpl in H1, H2. subst. exists [ch "\"; e]. split_and!; [done | | done]. apply ct_escape. by apply list_elem_of_In.
  - intros (x & n & ds & He & Hin & Hl & Hv)%eat_hex_sound. injection He as -> ->. exists (ch "\" :: x :: ds). split_and!; [done | by eapply ct_hex | done].
Qed.
Lemma eat_chars_sound stop cps s u : eat_chars stop cps s = Some u -> exists t, s = t ++ u /\ chars_text stop cps t.
Proof.
  revert s. induction cps as [| c cps IH]; simpl; intros s; [intros [= ->]; exists []; split; [done | constructor] |]. destruct (eat_char stop c s) as [s1 |] eqn:E; [| done].
  apply eat_char_sound in E as (t & -> & Ht & Hp). intros (t' & -> & Ht')%IH. exists (t ++ t'). rewrite <- app_assoc. split; [done | by constructor].
Qed.
Lemma eat_class_sound rs s u : eat_class rs s = Some u -> exists t, s = t ++ u /\ class_text rs t.
Proof.
  revert s. induction rs as [| [c d] rs IH]; cbn [eat_class]; intros s; [intros [= ->]; exists []; split; [done | constructor] |]. destruct (eat_char _ c s) as [s1 |] eqn:E; [| done]. apply eat_char_sound in E as (t & -> & Ht & Hp).
  destruct (Z.eqb_spec (peek s1) (ch "-")) as [Hm | Hm]; cbn [negb].
  - destruct s1 as [| m s1]; [done |]. simpl in Hm. subst m. cbn [drop]. rewrite drop_0. destruct (eat_char _ d s1) as [s2 |] eqn:E2; [| done]. apply eat_char_sound in E2 as (t2 & -> & Ht2 & Hp2). intros (t' & -> & Ht')%IH.
    exists (t ++ ch "-" :: t2 ++ t'). split; [by rewrite <- !app_assoc; simpl; rewrite <- app_assoc | by constructor].
  - destruct (Z.eqb_spec c d) as [-> |]; [| done]. intros (t' & -> & Ht')%IH. exists (t ++ t'). rewrite <- app_assoc. split; [done |]. constructor; [done | done | | done]. by destruct t'.
Qed.
Lemma digits_of_app s : exists r, s = digits_of s ++ r /\ Forall (fun c => is_digit_char c = true) (digits_of s).
Proof. induction s as [| c s (r & E & H)]; simpl; [by exists [] |]. destruct (is_digit_char c) eqn:Ec; [exists r; split; [simpl; by f_equal | by constructor] | by exists (c :: s)]. Qed.
Lemma eat_number_sound n s u : eat_number n s = Some u -> exists ds, s = ds ++ u /\ digits_text n ds.
Proof.
  unfold eat_number. destruct (_ && _) eqn:E; [| done]. intros [= <-]. apply andb_prop in E as [E1 E2]. apply bool_decide_eq_true in E1. apply Z.eqb_eq in E2. destruct (digits_of_app s) as (r & Es & Hd). exists (digits_of s). split; [| by unfold digits_text; split_and!].
  rewrite Es at 1. f_equal. rewrite Es at 2. by rewrite drop_app_length.
Qed.
Lemma peek_is s c : peek s = c -> c <> 0 -> exists r, s = c :: r.
Proof. destruct s as [| d s]; simpl; intros <- ?; [done |]. by exists s. Qed.
Lemma eat_op_sound nested lo hi s u : eat_op lo hi s = Some u -> exists t, s = t ++ u /\ op_text nested lo hi t.
Proof.
  unfold eat_op. destruct (Z.eqb_spec (peek s) (ch "*")) as [H | _].
  { case_bool_decide as Hb; [| done]. destruct Hb as [-> ->]. apply peek_is in H as [r ->]; [| done]. intros [= <-]. exists [ch "*"]. rewrite drop_0. split; [done | constructor]. }
  destruct (Z.eqb_spec (peek s) (ch "+")) as [H | _].
  { case_bool_decide as Hb; [| done]. destruct Hb as [-> ->]. apply peek_is in H as [r ->]; [| done]. intros [= <-]. exists [ch "+"]. rewrite drop_0. split; [done | constructor]. }
  destruct (Z.eqb_spec (peek s) (ch "?")) as [H | _].
  { case_bool_decide as Hb; [| done]. destruct Hb as [-> ->]. apply peek_is in H as [r ->]; [| done]. intros [= <-]. exists [ch "?"]. rewrite drop_0. split; [done | constructor]. }
  destruct (eat _ s) as [s1 |] eqn:E; [| done]. apply eat_Some in E as ->. unfold eat_bounds. destruct (eat_number lo s1) as [s2 |] eqn:E; [| done]. apply eat_number_sound in E as (ds & -> & Hd).
  destruct (Z.eqb_spec (peek s2) (ch "}")) as [H | _].
  { case_bool_decide as Hb; [| done]. subst hi. apply peek_is in H as [r ->]; [| done]. intros [= <-]. rewrite drop_0. exists (ch "{" :: ds ++ [ch "}"]). split; [simpl; by rewrite <- app_assoc | by constructor]. }
  destruct (eat _ s2) as [s3 |] eqn:E; [| done]. apply eat_Some in E as ->. destruct hi as [h |].
  - destruct (Nat.leb_spec lo h) as [Hlh | _]; [| done]. destruct (eat_number h s3) as [s4 |] eqn:E; [| done]. apply eat_number_sound in E as (es & -> & He). intros E. apply eat_Some in E as ->.
    exists (ch "{" :: ds ++ ch "," :: es ++ [ch "}"]). split; [simpl; rewrite <- !app_assoc; simpl; by rewrite <- app_assoc | by constructor].
  - intros E. apply eat_Some in E as ->. exists (ch "{" :: ds ++ [ch ","; ch "}"]). split; [simpl; by rewrite <- app_assoc | by constructor].
Qed.
Lemma eat_blank_app nested s : exists b, s = b ++ eat_blank nested s /\ blank nested b.
Proof. unfold eat_blank. induction s as [| c s (b & E & Hb)]; simpl; [exists []; split; [done | constructor] |]. destruct (blank_char nested c) eqn:Ec; [exists (c :: b); split; [simpl; by f_equal | by constructor] | exists []; split; [done | constructor] ]. Qed.
Lemma is_word_sound s : is_word s = true -> word s.
Proof. unfold is_word, word. destruct s as [| c s]; [done |]. intros H. split; [done |]. apply Forall_forall. intros d Hd. rewrite forallb_forall in H. by apply H, list_elem_of_In. Qed.
(** only a name ends with a character that could go on *)
Lemma op_last nested lo hi o : op_text nested lo hi o -> exists c, last o = Some c /\ is_word_char c = false.
Proof.
  destruct 1; try (eexists; split; [reflexivity | done]); exists (ch "}"); split; try done; rewrite app_comm_cons; [by rewrite last_snoc | | ].
  - change [ch ","; ch "}"] with ([ch ","] ++ [ch "}"]). by rewrite app_assoc, last_snoc.
  - change (ch "," :: es ++ [ch "}"]) with ((ch "," :: es) ++ [ch "}"]). by rewrite app_assoc, last_snoc.
Qed.
Lemma last_app_Some {A} (l k : list A) x : last k = Some x -> last (l ++ k) = Some x.
Proof. intros H. by rewrite last_app, H. Qed.
Lemma item_last nested x t : item_text nested x t -> (exists n, x = GRef n) \/ exists c, last t = Some c /\ is_word_char c = false.
Proof.
  destruct 1 as [nested cps t Ht | nested rs t | nested rs t | nested | nested name | nested a s t | nested x lo hi t s o Hb Hx Hs Ho]; [right.. | by left; exists name | right | right].
  - exists quote. rewrite app_comm_cons, last_snoc. done.
  - exists (ch "]"). rewrite app_comm_cons, last_snoc. done.
  - exists (ch "]"). rewrite !app_comm_cons, last_snoc. done.
  - by exists (ch ".").
  - exists (ch ")"). rewrite app_assoc, app_comm_cons, last_snoc. done.
  - destruct (op_last _ _ _ _ Ho) as (c & Hl & Hc). exists c. split; [| done]. by apply last_app_Some, last_app_Some.
Qed.
Lemma peek_app_ne t u : t <> [] -> peek (t ++ u) = peek t.
Proof. by destruct t. Qed.
Lemma apart_intro nested x t u rest : item_text nested x t -> (match x with GRef _ => is_word_char (peek (u ++ rest)) = false | _ => True end) -> apart t u.
Proof.
  intros Ht Hx. unfold apart. destruct (item_last _ _ _ Ht) as [ [n ->] | (c & -> & Hc)]; [| by rewrite Hc]. destruct (last t); [| done]. intros _. destruct u as [| d u]; [done | exact Hx].
Qed.

Lemma eat_items_sound nested xs : Forall (fun x => forall nested s u, eat_item nested x s = Some u -> exists t, s = t ++ u /\ item_text nested x t) xs ->
  forall s u, eat_items eat_item nested xs s = Some u -> exists t, s = t ++ u /\ seq_text nested xs t.
Proof.
  induction 1 as [| x xs Hx _ IH]; simpl; intros s u; [intros [= ->]; exists []; split; [done | constructor] |]. destruct (eat_item nested x s) as [s1 |] eqn:E; [| done]. apply Hx in E as (t & -> & Ht).
  destruct (match x with GRef _ => is_word_char (peek s1) | _ => false end) eqn:Ew; [done |]. destruct (eat_blank_app nested s1) as (b & Eb & Hb). intros (t' & Et & Ht')%IH. exists (t ++ b ++ t'). rewrite Eb at 1. rewrite Et. split; [by rewrite <- !app_assoc |].
  constructor; [done | done | | done]. apply (apart_intro nested x t (b ++ t') u Ht). destruct x; try done. rewrite Eb, Et in Ew. by rewrite <- app_assoc.
Qed.
Lemma eat_alternatives_sound nested l : Forall (Forall (fun x => forall nested s u, eat_item nested x s = Some u -> exists t, s = t ++ u /\ item_text nested x t)) l ->
  forall s u, eat_alternatives eat_item nested l s = Some u -> exists t, s = t ++ u /\ alts_text nested l t.
Proof.
  induction 1 as [| a l Ha Hl IH]; [done |]. intros s u. cbn [eat_alternatives]. destruct l as [| a' l].
  { intros (t & -> & Ht)%eat_items_sound; [| done]. exists t. split; [done | by constructor]. }
  destruct (eat_items eat_item nested a s) as [s1 |] eqn:E; [| done]. apply eat_items_sound in E as (t & -> & Ht); [| done]. destruct (eat _ s1) as [s2 |] eqn:E; [| done]. apply eat_Some in E as ->.
  destruct (eat_blank_app true s2) as (b & Eb & Hb). destruct (eat_alternatives _ _ (a' :: l) _) as [s3 |] eqn:E; [| done]. apply IH in E as (t' & Et & Ht'). destruct (nested || _) eqn:En; [| done]. intros [= <-].
  exists (t ++ ch "|" :: b ++ t'). split; [rewrite Eb, Et; rewrite <- !app_assoc; simpl; by rewrite <- app_assoc |]. constructor; [done | done | done |].
  destruct nested; [by left | right]. intros ->. simpl in Et. rewrite Et in En. simpl in En. apply Nat.ltb_lt in En. lia.
Qed.
Lemma eat_item_sound x : forall nested s u, eat_item nested x s = Some u -> exists t, s = t ++ u /\ item_text nested x t.
Proof.
  revert x. fix IH 1. intros [cps | neg rs | | name | a | x lo hi] nested s u; cbn [eat_item].
  - destruct (eat _ s) as [s1 |] eqn:E; [| done]. apply eat_Some in E as ->. destruct (eat_chars quote cps s1) as [s2 |] eqn:E; [| done]. apply eat_chars_sound in E as (t & -> & Ht). intros E. apply eat_Some in E as ->.
    exists (quote :: t ++ [quote]). split; [simpl; by rewrite <- app_assoc | by constructor].
  - destruct (eat _ s) as [s1 |] eqn:E; [| done]. apply eat_Some in E as ->. destruct (bool_decide _ || _) eqn:Eb; [done |]. apply orb_false_iff in Eb as [Eb1 Eb2]. apply bool_decide_eq_false in Eb1.
    destruct (eat_class rs s1) as [s2 |] eqn:E; [| done]. apply eat_class_sound in E as (t & -> & Ht). intros E. apply eat_Some in E as ->. destruct neg.
    + exists (ch "[" :: ch "^" :: t ++ [ch "]"]). split; [simpl; by rewrite <- app_assoc | by constructor].
    + exists (ch "[" :: t ++ [ch "]"]). split; [simpl; by rewrite <- app_assoc |]. constructor; [done | done |]. simpl in Eb2. apply Z.eqb_neq in Eb2. by destruct t.
  - intros E. apply eat_Some in E as ->. exists [ch "."]. split; [done | constructor].
  - destruct (is_word name) eqn:Ew; [| done]. intros E. apply eat_Some in E as ->. exists name. split; [done |]. constructor. by apply is_word_sound.
  - destruct (eat _ s) as [s1 |] eqn:E; [| done]. apply eat_Some in E as ->. destruct (eat_alternatives _ _ _ _) as [s2 |] eqn:E; [| done]. destruct (eat_blank_app true s1) as (b & Eb & Hb).
    apply eat_alternatives_sound in E as (t & Et & Ht).
    + intros E. apply eat_Some in E as ->. exists (ch "(" :: b ++ t ++ [ch ")"]). split; [rewrite Eb, Et; simpl; by rewrite <- !app_assoc | by constructor].
    + clear -IH. induction a as [| y a IHa]; constructor; [| exact IHa]. clear IHa. induction y as [| x y IHy]; constructor; [exact (IH x) | exact IHy].
  - destruct (base_item x) eqn:Eb; [| done]. destruct (eat_item nested x s) as [s1 |] eqn:E; [| done]. apply IH in E as (t & -> & Ht). destruct (eat_blank_app nested s1) as (b & Eb' & Hb). intros (o & Eo & Ho)%(eat_op_sound nested).
    exists (t ++ b ++ o). split; [rewrite Eb' at 1; rewrite Eo; by rewrite <- !app_assoc | by constructor].
Qed.
Lemma eat_seq_sound nested xs t : eat_seq nested xs t = Some [] -> seq_text nested xs t.
Proof. intros (t' & -> & Ht)%eat_items_sound; [by rewrite app_nil_r |]. apply Forall_forall. intros x _. apply eat_item_sound. Qed.
Lemma eat_alts_sound nested l t : eat_alts nested l t = Some [] -> alts_text nested l t.
Proof. intros (t' & -> & Ht)%eat_alternatives_sound; [by rewrite app_nil_r |]. apply Forall_forall. intros a _. apply Forall_forall. intros x _. apply eat_item_sound. Qed.

(** ** Putting texts together *)
Lemma apart_word t u : word t -> apart t u -> is_word_char (peek u) = false.
Proof. intros [Hn Hw] Ha. unfold apart in Ha. destruct (last t) as [c |] eqn:E; [| by apply last_None in E]. apply Ha. apply last_Some_elem_of in E. by eapply (proj1 (Forall_forall _ _) Hw). Qed.
Lemma seq_text_app nested xs ys t u : seq_text nested xs t -> seq_text nested ys u -> apart t u -> seq_text nested (xs ++ ys) (t ++ u).
Proof.
  induction 1 as [nested | nested x xs t s t' Ht Hs Ha Ht' IH]; intros Hu Hap; [done |]. simpl. rewrite <- !app_assoc.
  constructor; [done | done | |].
  - destruct (decide (s ++ t' = [])) as [E | E]; [| unfold apart in *; destruct (last t); [| done]; intros Hw; rewrite app_assoc, peek_app_ne by done; by apply Ha].
    apply app_eq_nil in E as [-> ->]. simpl. unfold apart in *. by rewrite !app_nil_r in Hap.
  - apply IH; [done |]. destruct (decide (t' = [])) as [-> | E]; [done |]. unfold apart in *. assert (last (t ++ s ++ t') = last t') as <-; [| exact Hap]. rewrite app_assoc, last_app. destruct (last t') eqn:El; [done |]. by apply last_None in El.
Qed.

(** ** Whole grammars *)
Definition eat_rule (r : gbnf_rule) (s : list Z) : option (list Z) :=
  if negb (is_word (g_name r)) then None else
  match eat (g_name r ++ bytes " ::=") s with
  | Some s => let s := eat_blank true s in match eat_alts false (g_alts r) s with Some s' => if (length s' <? length s)%nat then eat [newline] s' else None | None => None end
  | None => None
  end.
Fixpoint eat_grammar (rs : list gbnf_rule) (s : list Z) : option (list Z) := match rs with [] => Some s | r :: rs => match eat_rule r s with Some s => eat_grammar rs s | None => None end end.
Lemma eat_grammar_sound rs src : eat_grammar rs src = Some [] -> grammar_text rs src.
Proof.
  revert src. induction rs as [| r rs IH]; cbn [eat_grammar]; intros src; [intros [= ->]; constructor |]. unfold eat_rule. destruct (is_word (g_name r)) eqn:Ew; [| done]. cbn [negb]. destruct (eat _ src) as [s1 |] eqn:E; [| done]. apply eat_Some in E as ->.
  destruct (eat_blank_app true s1) as (b & Eb & Hb). destruct (eat_alts false _ _) as [s2 |] eqn:E; [| done]. apply eat_alternatives_sound in E as (t & Et & Ht); [| apply Forall_forall; intros a _; apply Forall_forall; intros x _; apply eat_item_sound].
  destruct (Nat.ltb_spec (length s2) (length (eat_blank true s1))) as [Hl |]; [| done]. destruct (eat _ s2) as [s3 |] eqn:E; [| done]. apply eat_Some in E as ->. intros H%IH.
  rewrite Eb, Et. replace ((g_name r ++ bytes " ::=") ++ b ++ t ++ [newline] ++ s3) with ((g_name r ++ bytes " ::=" ++ b ++ t) ++ newline :: s3) by (by rewrite <- !app_assoc).
  constructor; [| done]. exists b, t. split_and!; [by apply is_word_sound | done | done | | done]. intros ->. rewrite Et in Hl. simpl in Hl. lia.
Qed.

(** ** The symbols of a text are at most so many *)
Definition per_byte : Z := 2001.
Lemma weight_lengths : (forall nested x t, item_text nested x t -> modest x = true -> weight x <= per_byte * Zlen t) /\
  (forall nested xs t, seq_text nested xs t -> forallb modest xs = true -> foldr Z.add 0 (map weight xs) <= per_byte * Zlen t) /\
  (forall nested l t, alts_text nested l t -> forallb (forallb modest) l = true -> weight_alts l <= per_byte * Zlen t).
Proof.
  apply text_mind; intros; unfold per_byte in *; repeat rewrite ?Zlen_app, ?Zlen_cons, ?Zlen_nil in *; repeat match goal with |- context [Zlen ?l] => lazymatch goal with H : 0 <= Zlen l |- _ => fail | _ => pose proof (Zlen_nonneg l) end end; try (cbn [weight map foldr]; lia).
  - cbn [weight]. destruct H as [Hn _]. destruct name; [done |]. rewrite Zlen_cons in *. pose proof (Zlen_nonneg name). lia.
  - cbn [weight]. specialize (H1 H2). unfold weight_alts in H1. lia.
  - cbn [weight modest] in *. apply andb_prop in H4 as [H4 Hm]. apply andb_prop in H4 as [H4 _]. apply andb_prop in H4 as [H4 _]. specialize (H1 H4). apply Z.leb_le in Hm. unfold MAX_REPETITION_THRESHOLD in Hm.
    assert (1 <= Zlen o) by (destruct H3; rewrite ?Zlen_cons; try (pose proof (Zlen_nonneg (@nil Z))); repeat match goal with |- context [Zlen ?l] => lazymatch goal with H : 0 <= Zlen l |- _ => fail | _ => pose proof (Zlen_nonneg l) end end; lia).
    destruct hi as [ [| h] |]; cbn [most] in Hm; lia.
  - cbn [forallb map foldr] in *. apply andb_prop in H5 as [Ha Hb]. specialize (H0 Ha). specialize (H4 Hb). lia.
  - unfold weight_alts in *. cbn [map foldr forallb] in *. apply andb_prop in H1 as [H1 _]. specialize (H0 H1). lia.
  - unfold weight_alts in *. cbn [map foldr forallb] in *. apply andb_prop in H5 as [Ha Hb]. specialize (H0 Ha). specialize (H3 Hb). lia.
Qed.

(** ** Texts and what they mean
    A text that is an item, a sequence or alternatives, mentions only the names [N], has at most [w] symbols and
    means the language [L], which depends on the languages of the names. *)
Definition env : Type := list Z -> language.
Definition agrees (L K : env -> language) : Prop := forall rho w, L rho w <-> K rho w.
Definition is_item (nested : bool) (N : list (list Z)) (w : Z) (t : list Z) (L : env -> language) : Prop :=
  exists x, item_text nested x t /\ base_item x = true /\ modest x = true /\ mentions x ⊆ N /\ weight x <= w /\ agrees (fun rho => den rho x) L.
Definition is_seq (nested : bool) (N : list (list Z)) (w : Z) (t : list Z) (L : env -> language) : Prop :=
  exists xs, seq_text nested xs t /\ forallb modest xs = true /\ concat (map mentions xs) ⊆ N /\ foldr Z.add 0 (map weight xs) <= w /\ agrees (fun rho => den_seq rho xs) L.
Definition is_alts (nested : bool) (N : list (list Z)) (w : Z) (t : list Z) (L : env -> language) : Prop :=
  exists l, alts_text nested l t /\ forallb (forallb modest) l = true /\ concat (map (fun s => concat (map mentions s)) l) ⊆ N /\ weight_alts l <= w /\ agrees (fun rho => den_alts rho l) L.
Lemma cat_eps L w : cat L eps w <-> L w.
Proof. split; [intros (u & v & -> & Hu & ->); by rewrite app_nil_r | intros H; exists w, []; by rewrite app_nil_r]. Qed.
Lemma cats_app Ls Ks w : cats (Ls ++ Ks) w <-> cat (cats Ls) (cats Ks) w.
Proof.
  revert w. induction Ls as [| L Ls IH]; intros w; simpl.
  - split; [intros H; by exists [], w | by intros (u & v & -> & -> & H)].
  - split.
    + intros (u & v & -> & Hu & Hv). apply IH in Hv as (v1 & v2 & -> & H1 & H2). exists (u ++ v1), v2. rewrite app_assoc. split_and!; [done | by exists u, v1 | done].
    + intros (x & v & -> & (u1 & u2 & -> & H1 & H2) & Hv). exists u1, (u2 ++ v). rewrite app_assoc. split_and!; [done | done |]. apply IH. by exists u2, v.
Qed.
Lemma is_item_ext nested N w t L K : agrees L K -> is_item nested N w t L -> is_item nested N w t K.
Proof. intros HLK (x & H1 & H2 & H3 & H4 & H5 & H6). exists x. split_and!; try done. intros rho v. by rewrite (H6 rho v). Qed.
Lemma is_seq_ext nested N w t L K : agrees L K -> is_seq nested N w t L -> is_seq nested N w t K.
Proof. intros HLK (x & H1 & H2 & H3 & H4 & H5). exists x. split_and!; try done. intros rho v. by rewrite (H5 rho v). Qed.
Lemma is_alts_ext nested N w t L K : agrees L K -> is_alts nested N w t L -> is_alts nested N w t K.
Proof. intros HLK (x & H1 & H2 & H3 & H4 & H5). exists x. split_and!; try done. intros rho v. by rewrite (H5 rho v). Qed.
Lemma is_seq_mono nested N N' w w' t L : N ⊆ N' -> w <= w' -> is_seq nested N w t L -> is_seq nested N' w' t L.
Proof. intros HN Hw (x & H1 & H2 & H3 & H4 & H5). exists x. split_and!; try done; [by etransitivity | lia]. Qed.
Lemma is_alts_mono nested N N' w w' t L : N ⊆ N' -> w <= w' -> is_alts nested N w t L -> is_alts nested N' w' t L.
Proof. intros HN Hw (x & H1 & H2 & H3 & H4 & H5). exists x. split_and!; try done; [by etransitivity | lia]. Qed.
Lemma is_seq_nil nested N : is_seq nested N 0 [] (fun _ => eps).
Proof. exists []. split_and!; [apply st_nil | done | set_solver | done | done]. Qed.
Lemma is_seq_item nested N w t L : is_item nested N w t L -> is_seq nested N w t L.
Proof.
  intros (x & H1 & H2 & H3 & H4 & H5 & H6). exists [x]. split_and!; [| simpl; by rewrite H3 | simpl; by rewrite app_nil_r | simpl; lia |].
  - rewrite <- (app_nil_r t). change (t ++ []) with (t ++ [] ++ []). constructor; [done | constructor | | constructor]. unfold apart. destruct (last t); [| done]. intros _. done.
  - intros rho v. rewrite <- (H6 rho v). apply cat_eps.
Qed.
Lemma is_seq_app nested N w w' t u L K : is_seq nested N w t L -> is_seq nested N w' u K -> apart t u -> is_seq nested N (w + w') (t ++ u) (fun rho => cat (L rho) (K rho)).
Proof.
  intros (xs & H1 & H2 & H3 & H4 & H5) (ys & G1 & G2 & G3 & G4 & G5) Ha. exists (xs ++ ys). split_and!.
  - by apply seq_text_app.
  - by rewrite forallb_app, H2, G2.
  - rewrite map_app, concat_app. set_solver.
  - rewrite map_app, foldr_app. assert (forall z l, foldr Z.add z l = foldr Z.add 0 l + z) as -> by (intros z l; induction l as [| y l IH]; simpl; lia). lia.
  - intros rho v. unfold den_seq. rewrite map_app, cats_app. split; intros (a & b & -> & Ha' & Hb'); exists a, b; (split_and!; [done | by apply H5 | by apply G5]).
Qed.
Lemma item_nonempty nested x t : item_text nested x t -> t <> [].
Proof. induction 1 as [| | | | nested name Hw | | nested x lo hi t s o _ _ IH]; try done; [apply Hw |]. by intros [-> _]%app_eq_nil. Qed.
Lemma blank_not_word nested s : blank nested s -> is_word_char (peek s) = false.
Proof.
  destruct 1 as [| d s Hd]; [done |]. simpl. unfold blank_char, tab, creturn, newline in Hd. change (ch " ") with 32 in Hd. unfold is_word_char, is_digit_char. change (ch "-") with 45. destruct nested; lia.
Qed.
Lemma seq_text_blank nested xs t s : xs <> [] -> blank nested s -> seq_text nested xs t -> seq_text nested xs (t ++ s).
Proof.
  intros Hne Hs H1. induction H1 as [nested | nested x xs t s' u Hx Hs' Ha Hu IH]; [done |]. rewrite <- !app_assoc. destruct xs as [| y xs].
  - inversion Hu; subst. replace (t ++ s' ++ [] ++ s) with (t ++ (s' ++ s) ++ []) by (by rewrite app_nil_r). constructor; [done | by apply Forall_app | | done].
    unfold apart in *. destruct (last t); [| done]. intros Hw. specialize (Ha Hw). rewrite !app_nil_r in *. destruct s' as [| d s']; [| done]. by eapply blank_not_word.
  - constructor; [done | done | | by apply IH]. unfold apart in *. destruct (last t); [| done]. intros Hw. rewrite app_assoc, peek_app_ne; [by apply Ha |]. intros [_ ->]%app_eq_nil. inversion Hu as [| ? ? ? t1 ? ? Hi]; subst. by apply item_nonempty in Hi; destruct t1.
Qed.
Lemma is_seq_blank nested N w t s L : t <> [] -> blank nested s -> is_seq nested N w t L -> is_seq nested N w (t ++ s) L.
Proof. intros Ht Hs (xs & H1 & H2). exists xs. split; [| done]. apply seq_text_blank; [| done | done]. intros ->. by inversion H1; subst. Qed.
Lemma is_alts_seq nested N w t L : is_seq nested N w t L -> is_alts nested N w t L.
Proof.
  intros (xs & H1 & H2 & H3 & H4 & H5). exists [xs]. split_and!; [by constructor | simpl; by rewrite H2 | simpl; by rewrite app_nil_r | unfold weight_alts; simpl; lia |].
  intros rho v. rewrite <- (H5 rho v). unfold den_alts, alts. simpl. rewrite Exists_cons, Exists_nil. tauto.
Qed.
Lemma is_alts_or nested N w w' t u L K : is_seq nested N w t L -> t <> [] -> is_alts nested N w' u K -> (nested = true \/ u <> []) -> is_alts nested N (w + w') (t ++ bytes " | " ++ u) (fun rho v => L rho v \/ K rho v).
Proof.
  intros Ht Hn (l & G1 & G2 & G3 & G4 & G5) Hu. assert (Hb : blank nested (bytes " ")) by (constructor; [by destruct nested | constructor]). destruct (is_seq_blank _ _ _ _ (bytes " ") _ Hn Hb Ht) as (xs & H1 & H2 & H3 & H4 & H5).
  exists (xs :: l). split_and!.
  - replace (t ++ bytes " | " ++ u) with ((t ++ bytes " ") ++ ch "|" :: bytes " " ++ u) by (by rewrite <- app_assoc). constructor; [done | constructor; [done | constructor] | done | done].
  - simpl. by rewrite H2, G2.
  - simpl. set_solver.
  - unfold weight_alts in *. simpl. lia.
  - intros rho v. rewrite <- (H5 rho v), <- (G5 rho v). unfold den_alts, alts. simpl. by rewrite Exists_cons.
Qed.
Lemma is_item_group nested N w s t L : blank true s -> is_alts true N w t L -> is_item nested N (1 + w) (bytes "(" ++ s ++ t ++ bytes ")") L.
Proof. intros Hs (l & H1 & H2 & H3 & H4 & H5). exists (GGroup l). split_and!; [by apply (it_group nested l s t) | done | done | done | unfold weight_alts in *; simpl; lia | done]. Qed.
Lemma most_pos lo hi : 1 <= most lo hi.
Proof. unfold most. destruct hi as [ [| h] |]; lia. Qed.
Lemma is_seq_rep nested N w lo hi t o L : is_item nested N w t L -> op_text nested lo hi o -> Z.max 1 w * most lo hi <= MAX_REPETITION_THRESHOLD -> Z.of_nat lo <= MAX_REPETITION_THRESHOLD ->
  is_seq nested N (w + match hi with Some hi => Z.of_nat (hi - lo) | None => 1 end) (t ++ o) (fun rho => times lo hi (L rho)).
Proof.
  intros (x & H1 & H2 & H3 & H4 & H5 & H6) Ho Hw Hlo. pose proof (most_pos lo hi). exists [GRep x lo hi]. split_and!.
  - replace (t ++ o) with ((t ++ [] ++ o) ++ [] ++ []) by (by rewrite !app_nil_r). assert (Hi : item_text nested (GRep x lo hi) (t ++ [] ++ o)) by (constructor; [done | done | constructor | done]).
    constructor; [done | constructor | | constructor]. by apply (apart_intro nested (GRep x lo hi) _ ([] ++ []) [] Hi).
  - simpl. rewrite H3, !andb_true_r. simpl. rewrite !andb_true_iff. split_and!; apply Z.leb_le; nia.
  - simpl. by rewrite app_nil_r.
  - simpl. destruct hi; lia.
  - intros rho v. unfold den_seq. simpl. rewrite cat_eps. unfold times.
    assert (Hp : forall n w, power n (den rho x) w <-> power n (L rho) w). { induction n as [| n IH]; [done |]. intros w'. simpl. unfold cat. split; intros (a & b & -> & Ha & Hb); exists a, b; (split_and!; [done | by apply (H6 rho a) | by apply IH]). }
    split; intros (n & A1 & A2 & A3); exists n; (split_and!; [done | done | by apply Hp]).
Qed.
Lemma is_item_lit nested N cps t : cps <> [] -> chars_text quote cps t -> is_item nested N 0 (quote :: t ++ [quote]) (fun _ w => w = cps).
Proof. intros Hn Ht. exists (GLit cps). split_and!; [by constructor | by destruct cps | done | set_solver | done | done]. Qed.
Lemma is_item_class nested N rs t : rs <> [] -> class_text rs t -> peek t <> ch "^" -> is_item nested N 0 (ch "[" :: t ++ [ch "]"]) (fun _ w => exists c, w = [c] /\ in_ranges rs c).
Proof. intros Hn Ht Hp. exists (GClass false rs). split_and!; [by constructor | done | done | set_solver | done | done]. Qed.
Lemma is_item_ref nested (N : list (list Z)) name : word name -> name ∈ N -> is_item nested N 1 name (fun rho => rho name).
Proof. intros Hw Hn. exists (GRef name). split_and!; [by constructor | done | done | set_solver | done | done]. Qed.
(** by evaluation *)
Lemma is_seq_eat nested N w xs t : eat_seq nested xs t = Some [] -> forallb modest xs = true -> forallb (fun n => bool_decide (n ∈ N)) (concat (map mentions xs)) = true -> foldr Z.add 0 (map weight xs) <=? w = true ->
  is_seq nested N w t (fun rho => den_seq rho xs).
Proof.
  intros H1 H2 H3 H4. exists xs. split_and!; [by apply eat_seq_sound | done | | lia | done]. intros n Hn. rewrite forallb_forall in H3. apply list_elem_of_In in Hn. specialize (H3 n Hn). by apply bool_decide_eq_true in H3.
Qed.
Lemma is_alts_eat nested N w l t : eat_alts nested l t = Some [] -> forallb (forallb modest) l = true -> forallb (fun n => bool_decide (n ∈ N)) (concat (map (fun s => concat (map mentions s)) l)) = true -> weight_alts l <=? w = true ->
  is_alts nested N w t (fun rho => den_alts rho l).
Proof.
  intros H1 H2 H3 H4. exists l. split_and!; [by apply eat_alts_sound | done | | lia | done]. intros n Hn. rewrite forallb_forall in H3. apply list_elem_of_In in Hn. specialize (H3 n Hn). by apply bool_decide_eq_true in H3.
Qed.
Lemma apart_l t u c : last t = Some c -> is_word_char c = false -> apart t u.
Proof. unfold apart. intros -> H. by rewrite H. Qed.
Lemma apart_r t u : is_word_char (peek u) = false -> apart t u.
Proof. unfold apart. by destruct (last t). Qed.

(** ** Texts are bytes *)
Lemma bytes_app_l s t : byte_string s -> byte_string t -> byte_string (s ++ t).
Proof. intros Hs Ht. by apply Forall_app. Qed.
Lemma blank_bytes nested s : blank nested s -> byte_string s.
Proof. intros H. eapply Forall_impl; [exact H |]. intros c Hc. unfold blank_char, tab, creturn, newline in Hc. change (ch " ") with 32 in Hc. destruct nested; simpl in *; lia. Qed.
Lemma words_bytes s : Forall (fun c => is_word_char c = true) s -> byte_string s.
Proof. intros Hw. eapply Forall_impl; [exact Hw |]. intros c Hc. unfold is_word_char, is_digit_char in Hc. change (ch "-") with 45 in Hc. lia. Qed.
Lemma encode_bytes c : scalar c -> byte_string (utf8_encode c).
Proof. intros Hc. unfold scalar in Hc. unfold utf8_encode. repeat case_match; repeat (constructor; [Z.to_euclidean_division_equations; lia |]); constructor. Qed.
Lemma hex_bytes ds : is_Some (mapM hex_digit ds) -> byte_string ds.
Proof.
  intros [vs Hv]. revert vs Hv. induction ds as [| d ds IH]; intros vs Hv; [constructor |]. simpl in Hv. destruct (hex_digit d) as [x |] eqn:Ed; [| done]. simpl in Hv. destruct (mapM hex_digit ds) as [ys |]; [| done]. constructor; [| by eapply IH].
  unfold hex_digit in Ed. repeat case_match; try done; lia.
Qed.
Lemma char_text_bytes c t : char_text c t -> byte_string t.
Proof.
  destruct 1 as [c Hc | c e Hin | c x n ds Hin Hl (vs & Hv & _)]; [by apply encode_bytes | |].
  - rewrite !elem_of_cons, elem_of_nil in Hin. destruct_or! Hin; try done; simplify_eq; repeat (constructor; [done |]); constructor.
  - constructor; [done |]. constructor; [| apply hex_bytes; by exists vs]. rewrite !elem_of_cons, elem_of_nil in Hin. destruct_or! Hin; try done; by simplify_eq.
Qed.
Lemma digits_text_bytes n ds : digits_text n ds -> byte_string ds.
Proof. intros (_ & H & _). apply words_bytes. eapply Forall_impl; [exact H |]. intros c Hc. unfold is_word_char. by rewrite Hc, !orb_true_r. Qed.
#[local] Hint Resolve bytes_app_l blank_bytes words_bytes char_text_bytes digits_text_bytes : textb.
Lemma bytes_cons c s : (0 <=? c) && (c <? 256) = true -> byte_string s -> byte_string (c :: s).
Proof. intros Hc Hs. constructor; [lia | done]. Qed.
Lemma texts_bytes : (forall nested x t, item_text nested x t -> byte_string t) /\ (forall nested xs t, seq_text nested xs t -> byte_string t) /\ (forall nested l t, alts_text nested l t -> byte_string t).
Proof.
  assert (Hn : byte_string []) by constructor. assert (Hcs : forall stop cps t, chars_text stop cps t -> byte_string t) by (induction 1; eauto with textb).
  assert (Hcl : forall rs t, class_text rs t -> byte_string t) by (induction 1; [done | eauto with textb |]; apply bytes_app_l; [eauto with textb |]; apply bytes_cons; [done | eauto with textb]).
  assert (Ho : forall nested lo hi o, op_text nested lo hi o -> byte_string o) by (destruct 1; repeat first [ apply bytes_cons; [done |] | apply bytes_app_l; [by eauto with textb |] | by eauto with textb ]).
  apply text_mind; intros; repeat first [ done | apply bytes_cons; [done |] | apply bytes_app_l; [by eauto with textb |] | by eauto with textb ].
  destruct H as [_ Hw]. by apply words_bytes.
Qed.
Lemma is_alts_bytes nested N w t L : is_alts nested N w t L -> byte_string t.
Proof. intros (l & H & _). by eapply (proj2 (proj2 texts_bytes)). Qed.
