(* ===== verification/GrammarAdvance.v ===== *)
(** * llama_grammar_advance_stack computes the expansions of a stack, and accept the derivative *)

From S2P Require Import Prelude Text Utf8 GrammarParse GrammarParseFacts GrammarMatch GrammarSem.

(** ** Runs with enough fuel: [a] is the result from some amount on *)
Definition evals {A} (f : nat -> res A) (a : A) : Prop := exists n, forall fuel, (n <= fuel)%nat -> f fuel = Ok a.
Lemma evals_const {A} (a : A) : evals (fun _ => Ok a) a.
Proof. by exists 0%nat. Qed.
Lemma evals_bind {A B} (f : nat -> res A) (g : nat -> A -> res B) a b :
  evals f a -> evals (fun n => g n a) b -> evals (fun n => let! x := f n in g n x) b.
Proof. intros [n Hf] [m Hg]. exists (Nat.max n m). intros fuel H. rewrite Hf by lia. simpl. apply Hg. lia. Qed.
Lemma evals_ext {A} (f g : nat -> res A) a : (forall n, f n = g n) -> evals g a -> evals f a.
Proof. intros H [n Hg]. exists n. intros fuel Hf. rewrite H. by apply Hg. Qed.

Section Advance.
Context (rs : llama_grammar_rules) (Hwf : wf_rules rs).

Lemma ptr_ok_elem pos : ptr_ok rs pos -> exists e l, at_pos rs pos e l /\ elem_at rs pos = Ok e /\ item_type (etype e) = true.
Proof. intros (e & l & Ha & Ht). exists e, l. split_and!; [done | by eapply at_pos_elem | done]. Qed.
Lemma push_next_spec pos f l below : at_pos rs pos f l -> boundary_type (etype f) = true -> stack_ok rs below ->
  exists next, push_next rs pos below = Ok next /\ stack_ok rs next
    /\ forall w, lang rs next w <-> exists w1 w2, w = w1 ++ w2 /\ gen rs (f :: l) w1 /\ lang rs below w2.
Proof.
  intros Ha Hb Hs. unfold push_next, is_end_of_sequence. rewrite (at_pos_elem _ _ _ _ Ha). cbn [rbind]. eexists. split; [done |].
  destruct (is_end_type (etype f)) eqn:Ee.
  - split; [done |]. intros w. split; [intros H; exists [], w; split_and!; [done | by constructor | done] |].
    intros (w1 & w2 & -> & H1 & H2). apply gen_end_inv in H1 as ->; [| done]. done.
  - split; [constructor; [| done]; exists f, l; split; [done |]; unfold item_type; by rewrite Hb, Ee |]. intros w. split.
    + intros H. inversion H as [| p l' s w1 w2 He Hg Hl]; subst. rewrite (at_pos_elems _ _ _ _ Ha) in He. injection He as <-. by exists w1, w2.
    + intros (w1 & w2 & -> & H1 & H2). econstructor; [by apply at_pos_elems | done | done].
Qed.
Lemma lang_cons_at pos e l s w : at_pos rs pos e l -> lang rs (pos :: s) w <-> exists w1 w2, w = w1 ++ w2 /\ gen rs (e :: l) w1 /\ lang rs s w2.
Proof.
  intros Ha. pose proof (at_pos_elems _ _ _ _ Ha) as He. split.
  - intros H. inversion H as [| p l' s' w1 w2 He' Hg Hl]; subst. rewrite He in He'. injection He' as <-. by exists w1, w2.
  - intros (w1 & w2 & -> & H1 & H2). by econstructor.
Qed.
Lemma push_opt_lang a next w : lang rs (push_opt a next) w <-> exists w1 w2, w = w1 ++ w2 /\ alt_lang rs a w1 /\ lang rs next w2.
Proof.
  destruct a as [q |]; simpl.
  - split.
    + intros H. inversion H as [| p l' s w1 w2 He Hg Hl]; subst. exists w1, w2. split_and!; [done | by exists l' | done].
    + intros (w1 & w2 & -> & (l & He & Hg) & Hl). by econstructor.
  - split; [intros H; by exists [], w | by intros (w1 & w2 & -> & -> & Hl)].
Qed.
(** the expansions of a reference: they exist, are well formed and keep the language *)
Lemma expand_top pos below e : stack_ok rs (pos :: below) -> elem_at rs pos = Ok e -> etype e = RULE_REF ->
  exists alts next, rule_alternatives rs (evalue e) = Ok alts /\ alts <> [] /\ push_next rs (shift pos 1) below = Ok next
    /\ (forall a, a ∈ alts -> stack_ok rs (push_opt a next))
    /\ forall w, lang rs (pos :: below) w <-> exists a, a ∈ alts /\ lang rs (push_opt a next) w.
Proof.
  intros [Hp Hs]%Forall_cons He Ht. destruct (ptr_ok_elem _ Hp) as (e' & l & Ha & He' & _). rewrite He in He'. injection He' as <-.
  destruct (at_pos_tail rs Hwf _ _ _ Ha) as [_ Hv]. destruct (rule_alternatives_spec rs Hwf _ (Hv Ht)) as (r & alts & Hr & Ea & Hne & Hok & Hl).
  destruct (single_next rs Hwf _ _ _ Ha (or_introl Ht)) as (f & l' & Haf & Hbf).
  assert (Hnext : l = f :: l').
  { destruct (at_pos_tail rs Hwf _ _ _ Ha) as [(s & Hs') _]. destruct (tail_step s e l) as (s' & _ & Hs2); [by rewrite Ht | done |].
    destruct l as [| g l]; [by apply tail_nonempty in Hs2 |]. pose proof (at_pos_shift rs pos e [] g l Ha) as Hg.
    destruct (at_pos_inj _ _ _ _ _ _ Haf Hg) as [-> ->]. done. }
  subst l. destruct (push_next_spec _ _ _ _ Haf Hbf Hs) as (next & En & Hok' & Hln). exists alts, next. split_and!; try done.
  - intros [q |] Hq; simpl; [constructor; [by apply Hok | done] | done].
  - intros w. rewrite (lang_cons_at _ _ _ _ _ Ha). setoid_rewrite push_opt_lang. setoid_rewrite Hln. split.
    + intros (w1 & w2 & -> & Hg & Hb). inversion Hg as [? ? Hx | ? ? ? ? ? Hx | ? ? r' u1 u2 _ Hr' Hg1 Hg2]; subst.
      * by rewrite Ht in Hx.
      * by rewrite Ht in Hx.
      * rewrite Hr in Hr'. injection Hr' as <-. apply Hl in Hg1 as (a & Hain & Hal). exists a. split; [done |].
        exists u1, (u2 ++ w2). rewrite app_assoc. split_and!; [done | done |]. by exists u2, w2.
    + intros (a & Hain & w1 & w2 & -> & Hal & u1 & u2 & -> & Hg & Hb). exists (w1 ++ u1), u2. rewrite app_assoc. split_and!; [done | | done].
      eapply gen_ref; [done | done | apply Hl; by exists a | done].
Qed.
Lemma expand_inv pos below e alts next s' : elem_at rs pos = Ok e -> rule_alternatives rs (evalue e) = Ok alts ->
  push_next rs (shift pos 1) below = Ok next -> expand rs (pos :: below) s' -> exists a, a ∈ alts /\ s' = push_opt a next.
Proof.
  intros He Ha Hn H. inversion H as [p b e' alts' next' a E1 E2 E3 E4 E5]; subst.
  assert (e' = e) as -> by congruence. assert (alts' = alts) as -> by congruence. assert (next' = next) as -> by congruence. by exists a.
Qed.
Lemma terminal_or_expand s : stack_ok rs s -> terminal rs s \/ exists pos below e, s = pos :: below /\ elem_at rs pos = Ok e /\ etype e = RULE_REF.
Proof.
  destruct s as [| pos below]; [by left |]. intros [Hp _]%Forall_cons. destruct (ptr_ok_elem _ Hp) as (e & l & _ & He & _).
  destruct (decide (etype e = RULE_REF)); [right; by exists pos, below, e | left; by exists e].
Qed.
Lemma terminal_no_expand s s' : terminal rs s -> expand rs s s' -> False.
Proof. intros Ht H. inversion H; subst. destruct Ht as (e' & He' & Hn). congruence. Qed.
Lemma expand_ok s s' : stack_ok rs s -> expand rs s s' -> stack_ok rs s'.
Proof.
  intros Hs H. inversion H as [p b e alts next a E1 E2 E3 E4 E5]; subst. destruct (expand_top _ _ _ Hs E1 E2) as (alts' & next' & H1 & _ & H2 & H3 & _).
  assert (alts' = alts) as -> by congruence. assert (next' = next) as -> by congruence. by apply H3.
Qed.
Lemma expands_ok s s' : stack_ok rs s -> rtc (expand rs) s s' -> stack_ok rs s'.
Proof. intros Hs H. induction H as [| s s1 s' H1 _ IH]; [done |]. apply IH. by eapply expand_ok. Qed.

(** ** The worklist *)
Lemma add_stack_spec s ns t : t ∈ add_stack s ns <-> t = s \/ t ∈ ns.
Proof.
  unfold add_stack. case_bool_decide as H; [| rewrite elem_of_app, list_elem_of_singleton; tauto]. split; [by right | intros [-> | ?]; done].
Qed.
Lemma terminal_step fuel s todo seen ns : stack_ok rs s -> terminal rs s -> s ∉ seen ->
  advance_loop (S fuel) rs (s :: todo) seen ns = advance_loop fuel rs todo ({[ s ]} ∪ seen) (add_stack s ns).
Proof.
  intros Hs Ht Hn. cbn [advance_loop]. rewrite bool_decide_eq_false_2 by done. destruct s as [| pos below]; [done |].
  apply Forall_cons in Hs as [Hp _]. destruct (ptr_ok_elem _ Hp) as (e & l & _ & He & Hi). destruct Ht as (e' & He' & Hr).
  rewrite He in He'. injection He' as <-. rewrite He. cbn [rbind]. by destruct (etype e).
Qed.
Lemma expand_step fuel pos below e alts next todo seen ns : elem_at rs pos = Ok e -> etype e = RULE_REF -> rule_alternatives rs (evalue e) = Ok alts ->
  push_next rs (shift pos 1) below = Ok next -> (pos :: below) ∉ seen ->
  advance_loop (S fuel) rs ((pos :: below) :: todo) seen ns
  = advance_loop fuel rs (rev ((fun a => push_opt a next) <$> alts) ++ todo) ({[ pos :: below ]} ∪ seen) ns.
Proof.
  intros He Ht Ha Hn Hs. cbn [advance_loop]. rewrite bool_decide_eq_false_2 by done. rewrite He. cbn [rbind]. rewrite Ht, Ha. cbn [rbind]. by rewrite Hn.
Qed.

Lemma elem_of_rev {A} (x : A) l : x ∈ rev l <-> x ∈ l.
Proof. rewrite !list_elem_of_In. symmetry. apply in_rev. Qed.

(** what has been seen is explored: terminal stacks are collected, expansions are seen or to do *)
Definition explored (seen : gset llama_grammar_stack) (todo ns : list llama_grammar_stack) : Prop :=
  forall s, s ∈ seen -> (terminal rs s -> s ∈ ns) /\ forall s', expand rs s s' -> s' ∈ seen \/ s' ∈ todo.
Lemma advance_loop_exact fuel start (ns0 : list llama_grammar_stack) todo seen ns out :
  advance_loop fuel rs todo seen ns = Ok out -> stack_ok rs start -> explored seen todo ns ->
  (forall s, s ∈ seen \/ s ∈ todo -> rtc (expand rs) start s) -> start ∈ seen \/ start ∈ todo ->
  (forall s, s ∈ ns -> s ∈ ns0 \/ (rtc (expand rs) start s /\ terminal rs s)) -> (forall s, s ∈ ns0 -> s ∈ ns) ->
  forall s, s ∈ out <-> s ∈ ns0 \/ (rtc (expand rs) start s /\ terminal rs s).
Proof.
  revert todo seen ns. induction fuel as [| fuel IH]; intros todo seen ns Hrun Hok Hex Hre Hst Hns Hsub.
  all: destruct todo as [| curr todo].
  2: done.
  1,2: injection Hrun as <-; intros s; split; [apply Hns |]; intros [Hs | [Hr Ht]]; [by apply Hsub |];
    apply (Hex s); [| done]; destruct Hst as [Hst | Hst]; [| by apply not_elem_of_nil in Hst];
    clear -Hr Hst Hex; induction Hr as [| a b c Hab _ IHr]; [done |]; apply IHr; destruct (Hex a Hst) as [_ H]; destruct (H b Hab) as [? | Hb]; [done | by apply not_elem_of_nil in Hb].
  assert (Hrc : rtc (expand rs) start curr) by (apply Hre; right; left).
  assert (Hokc : stack_ok rs curr) by by eapply expands_ok.
  destruct (decide (curr ∈ seen)) as [Hc | Hc].
  { cbn [advance_loop] in Hrun. rewrite bool_decide_eq_true_2 in Hrun by done. eapply IH; try done.
    - intros s Hs. destruct (Hex s Hs) as [H1 H2]. split; [done |]. intros s' Hs'. destruct (H2 s' Hs') as [? | H3]; [by left |].
      apply elem_of_cons in H3 as [-> | ?]; [by left | by right].
    - intros s Hs. apply Hre. set_solver.
    - set_solver. }
  destruct (terminal_or_expand curr Hokc) as [Ht | (pos & below & e & -> & He & Hr)].
  - rewrite terminal_step in Hrun by done. eapply IH; try done.
    + intros s Hs. apply elem_of_union in Hs as [->%elem_of_singleton | Hs].
      * split; [intros _; apply add_stack_spec; by left | intros s' Hx; by destruct (terminal_no_expand _ _ Ht Hx)].
      * destruct (Hex s Hs) as [H1 H2]. split; [intros Hts; apply add_stack_spec; right; by apply H1 |].
        intros s' Hx. destruct (H2 s' Hx) as [? | H3]; [left; set_solver |]. apply elem_of_cons in H3 as [-> | ?]; [left; set_solver | by right].
    + intros s Hs. apply Hre. set_solver.
    + set_solver.
    + intros s. rewrite add_stack_spec. intros [-> | Hs]; [right; tauto | by apply Hns].
    + intros s Hs. apply add_stack_spec. right. by apply Hsub.
  - destruct (expand_top _ _ _ Hokc He Hr) as (alts & next & Ea & Hne & En & Hoks & _).
    rewrite (expand_step _ _ _ _ _ _ _ _ _ He Hr Ea En Hc) in Hrun. eapply IH; try done.
    + intros s Hs. apply elem_of_union in Hs as [->%elem_of_singleton | Hs].
      * split; [intros (e' & He' & Hn); congruence |]. intros s' Hx. destruct (expand_inv _ _ _ _ _ _ He Ea En Hx) as (a & Hina & ->).
        right. apply elem_of_app. left. apply elem_of_rev. by apply (list_elem_of_fmap_2 (fun a => push_opt a next)).
      * destruct (Hex s Hs) as [H1 H2]. split; [done |]. intros s' Hx. destruct (H2 s' Hx) as [? | H3]; [left; set_solver |].
        apply elem_of_cons in H3 as [-> | ?]; [left; set_solver | right; apply elem_of_app; by right].
    + intros s [Hs | Hs].
      * apply elem_of_union in Hs as [->%elem_of_singleton | Hs]; [done | apply Hre; by left].
      * apply elem_of_app in Hs as [Hs | Hs]; [| apply Hre; right; by right].
        rewrite elem_of_rev in Hs. apply list_elem_of_fmap in Hs as (a & -> & Hina). eapply rtc_r; [done |]. by eapply expand_ref.
    + destruct Hst as [? | Hs]; [left; set_solver |]. apply elem_of_cons in Hs as [-> | ?]; [left; set_solver | right; apply elem_of_app; by right].
Qed.

(** ** Termination

    A bound on the expansions: [height pos] bounds the expansions of the sequence at [pos] and
    [nullable pos] says whether it may produce nothing.  It exists exactly when no reference leads
    back to itself without a character in between. *)
Definition seq_height (h : ptr -> nat) (next : option ptr) : nat := from_option h 0%nat next.
Definition seq_nullable (nu : ptr -> bool) (next : option ptr) : bool := from_option nu true next.
(** the position behind a reference, [None] at the end of its sequence *)
Definition next_ptr (pos : ptr) : option ptr :=
  match is_end_of_sequence rs (shift pos 1) with Ok false => Some (shift pos 1) | _ => None end.
Record bounded (height : ptr -> nat) (nullable : ptr -> bool) : Prop := {
  b_height : forall pos e alts a, ptr_ok rs pos -> elem_at rs pos = Ok e -> etype e = RULE_REF -> rule_alternatives rs (evalue e) = Ok alts -> a ∈ alts ->
    (seq_height height a + (if seq_nullable nullable a then seq_height height (next_ptr pos) else 0) < height pos)%nat;
  b_nullable : forall pos e alts a, ptr_ok rs pos -> elem_at rs pos = Ok e -> etype e = RULE_REF -> rule_alternatives rs (evalue e) = Ok alts -> a ∈ alts ->
    seq_nullable nullable a = true -> seq_nullable nullable (next_ptr pos) = true -> nullable pos = true
}.
Fixpoint potential (h : ptr -> nat) (nu : ptr -> bool) (s : llama_grammar_stack) : nat :=
  match s with [] => 0%nat | p :: s => (h p + if nu p then potential h nu s else 0)%nat end.
Lemma push_next_ptr pos below next : push_next rs (shift pos 1) below = Ok next -> next = push_opt (next_ptr pos) below.
Proof. unfold push_next, next_ptr. destruct (is_end_of_sequence _ _) as [[] |]; simpl; intros H; by simplify_eq. Qed.
Lemma potential_push h nu a s : potential h nu (push_opt a s) = (seq_height h a + if seq_nullable nu a then potential h nu s else 0)%nat.
Proof. by destruct a. Qed.
Lemma expand_potential h nu s s' : bounded h nu -> stack_ok rs s -> expand rs s s' -> (potential h nu s' < potential h nu s)%nat.
Proof.
  intros Hb Hs H. inversion H as [pos below e alts next a E1 E2 E3 E4 E5]; subst. apply Forall_cons in Hs as [Hp _].
  pose proof (b_height _ _ Hb _ _ _ _ Hp E1 E2 E3 E5) as Hh. pose proof (b_nullable _ _ Hb _ _ _ _ Hp E1 E2 E3 E5) as Hn.
  rewrite (push_next_ptr _ _ _ E4), !potential_push. simpl. destruct (seq_nullable nu a); [| lia].
  destruct (seq_nullable nu (next_ptr pos)); [| destruct (nu pos); lia]. rewrite (Hn eq_refl eq_refl). lia.
Qed.

(** processing the stack on top of the worklist ends, whatever is below *)
Lemma advance_loop_ends h nu : bounded h nu -> forall s, stack_ok rs s -> exists n, forall todo seen ns, exists seen' ns', forall fuel,
  exists k, (k <= n)%nat /\ advance_loop (k + fuel) rs (s :: todo) seen ns = advance_loop fuel rs todo seen' ns'.
Proof.
  intros Hb s. remember (potential h nu s) as m eqn:Hm. revert s Hm. induction (lt_wf m) as [m _ IH]. intros s -> Hs.
  destruct (terminal_or_expand s Hs) as [Ht | (pos & below & e & -> & He & Hr)].
  - exists 1%nat. intros todo seen ns. destruct (decide (s ∈ seen)) as [Hc | Hc].
    + exists seen, ns. intros fuel. exists 1%nat. split; [lia |]. simpl. by rewrite bool_decide_eq_true_2.
    + exists ({[ s ]} ∪ seen), (add_stack s ns). intros fuel. exists 1%nat. split; [lia |]. by apply terminal_step.
  - destruct (expand_top _ _ _ Hs He Hr) as (alts & next & Ea & Hne & En & Hoks & _).
    assert (Hall : forall l, (forall s', s' ∈ l -> stack_ok rs s' /\ (potential h nu s' < potential h nu (pos :: below))%nat) ->
      exists n, forall todo seen ns, exists seen' ns', forall fuel, exists k, (k <= n)%nat /\ advance_loop (k + fuel) rs (l ++ todo) seen ns = advance_loop fuel rs todo seen' ns').
    { induction l as [| s1 l IHl]; intros Hl.
      - exists 0%nat. intros todo seen ns. exists seen, ns. intros fuel. by exists 0%nat.
      - destruct (Hl s1 ltac:(left)) as [Hs1 Hp1]. destruct (IH _ Hp1 s1 eq_refl Hs1) as (n1 & H1).
        destruct IHl as (n2 & H2); [intros s' Hs'; apply Hl; by right |]. exists (n1 + n2)%nat. intros todo seen ns.
        destruct (H1 (l ++ todo) seen ns) as (seen1 & ns1 & G1). destruct (H2 todo seen1 ns1) as (seen2 & ns2 & G2). exists seen2, ns2. intros fuel.
        destruct (G2 fuel) as (k2 & Hk2 & E2). destruct (G1 (k2 + fuel)%nat) as (k1 & Hk1 & E1). exists (k1 + k2)%nat. split; [lia |].
        rewrite <- Nat.add_assoc. simpl. by rewrite E1, E2. }
    destruct (Hall (rev ((fun a => push_opt a next) <$> alts))) as (n & Hn).
    { intros s' Hs'. rewrite elem_of_rev in Hs'. apply list_elem_of_fmap in Hs' as (a & -> & Hina). split; [by apply Hoks |].
      apply expand_potential; [done | done |]. by eapply expand_ref. }
    exists (S n). intros todo seen ns. destruct (decide ((pos :: below) ∈ seen)) as [Hc | Hc].
    + exists seen, ns. intros fuel. exists 1%nat. split; [lia |]. simpl. by rewrite bool_decide_eq_true_2.
    + destruct (Hn todo ({[ pos :: below ]} ∪ seen) ns) as (seen' & ns' & Hk). exists seen', ns'. intros fuel.
      destruct (Hk fuel) as (k & Hkn & Ek). exists (S k). split; [lia |]. simpl "+"%nat. by rewrite (expand_step _ _ _ _ _ _ _ _ _ He Hr Ea En Hc), Ek.
Qed.
(** more fuel changes nothing *)
Lemma advance_loop_mono f f' todo seen ns out : (f <= f')%nat -> advance_loop f rs todo seen ns = Ok out -> advance_loop f' rs todo seen ns = Ok out.
Proof.
  revert f' todo seen ns. induction f as [| f IH]; intros f' todo seen ns Hf H; destruct todo as [| [| pos below] todo]; try (by destruct f'); try done.
  all: destruct f' as [| f']; [lia |]; cbn [advance_loop] in *.
  - case_bool_decide; (eapply IH; [lia | done]).
  - case_bool_decide; [eapply IH; [lia | done] |]. destruct (elem_at rs pos) as [e |]; [| done]. cbn [rbind] in *.
    destruct (etype e); try done; try (eapply IH; [lia | done]).
    destruct (rule_alternatives _ _) as [alts |]; [| done]. cbn [rbind] in *. destruct (push_next _ _ _) as [next |]; [| done]. cbn [rbind] in *.
    eapply IH; [lia | done].
Qed.
Lemma advance_stack_spec h nu s ns : bounded h nu -> stack_ok rs s ->
  exists out, evals (fun fuel => advance_stack fuel rs s ns) out /\ forall t, t ∈ out <-> t ∈ ns \/ (rtc (expand rs) s t /\ terminal rs t).
Proof.
  intros Hb Hs. destruct (advance_loop_ends h nu Hb s Hs) as (n & Hn). destruct (Hn [] ∅ ns) as (seen' & ns' & Hk).
  destruct (Hk 0%nat) as (k & Hkn & Ek). exists ns'.
  assert (E : forall fuel, (n <= fuel)%nat -> advance_stack fuel rs s ns = Ok ns').
  { intros fuel Hf. unfold advance_stack. eapply (advance_loop_mono (k + 0)); [lia |]. by rewrite Ek. }
  split; [by exists n |]. eapply (advance_loop_exact n s ns); [by apply E | done | | | right; left | by left | done].
  - intros t Ht. by apply not_elem_of_empty in Ht.
  - intros t [Ht | Ht]; [by apply not_elem_of_empty in Ht |]. apply list_elem_of_singleton in Ht as ->. done.
Qed.

(** the terminal stacks reached generate the language of the stack *)
Lemma lang_terminal h nu s w : bounded h nu -> stack_ok rs s ->
  lang rs s w <-> exists t, rtc (expand rs) s t /\ terminal rs t /\ lang rs t w.
Proof.
  intros Hb. remember (potential h nu s) as m eqn:Hm. revert s Hm. induction (lt_wf m) as [m _ IH]. intros s -> Hs. split.
  - intros Hl. destruct (terminal_or_expand s Hs) as [Ht | (pos & below & e & -> & He & Hr)]; [by exists s |].
    destruct (expand_top _ _ _ Hs He Hr) as (alts & next & Ea & Hne & En & Hoks & Hlg). apply Hlg in Hl as (a & Hina & Hl).
    assert (Hx : expand rs (pos :: below) (push_opt a next)) by by eapply expand_ref.
    destruct (proj1 (IH _ (expand_potential _ _ _ _ Hb Hs Hx) _ eq_refl (Hoks a Hina)) Hl) as (t & H1 & H2 & H3). exists t. split_and!; [by eapply rtc_l | done | done].
  - intros (t & Hr & Ht & Hl). destruct Hr as [s | s s1 t H1 Hr]; [done |].
    assert (Hl1 : lang rs s1 w).
    { apply (IH _ (expand_potential _ _ _ _ Hb Hs H1) _ eq_refl); [by eapply expand_ok |]. by exists t. }
    inversion H1 as [pos below e alts next a E1 E2 E3 E4 E5]; subst. destruct (expand_top _ _ _ Hs E1 E2) as (alts' & next' & Ea & _ & En & _ & Hlg).
    assert (alts' = alts) as -> by congruence. assert (next' = next) as -> by congruence. apply Hlg. by exists a.
Qed.
End Advance.
