(* ===== verification/GrammarMeans.v ===== *)
(** * The parser gives a grammar text its meaning

    For every text of the syntax of GrammarText.v the parser succeeds, and every rule it builds
    generates the language of its right-hand side. *)

From S2P Require Import Prelude Text Utf8 GrammarParse GrammarParseFacts GrammarParseProps GrammarMatch GrammarSem GrammarText GrammarAdvance.

(** ** Reading characters *)
Lemma take_cont_end n v s : n = O -> take_cont n v s = (v, s).
Proof. intros ->. by destruct s. Qed.
Lemma take_cont_step n v x s : 0 <= x < 64 -> take_cont (S n) v (0x80 + x :: s) = take_cont n (u32 (v * 64 + x)) s.
Proof. intros Hx. cbn [take_cont]. destruct (cont_byte x Hx) as [E _]. rewrite (proj2 (Z.eqb_neq (0x80 + x) 0)) by lia. by rewrite E. Qed.
(** lead bytes *)
Lemma lead1 b : 0 <= b < 0x80 -> decode_one (b :: []) = Ok (b, []) /\ forall s, decode_one (b :: s) = Ok (take_cont 0 b s).
Proof.
  intros Hb. assert (H : forall b, 0 <= b < 256 -> implb (b <? 0x80) (match vget lookup1 (Z.shiftr b 4) with Ok l => (l =? 1) && (Z.land b (Z.land (Z.shiftl 1 (8 - l) - 1) 0xFF) =? b) | Err _ => false end) = true)
    by (apply byte_bits; vm_compute; reflexivity).
  specialize (H b ltac:(lia)). rewrite (proj2 (Z.ltb_lt _ _)) in H by lia. simpl in H. unfold decode_one. cbn [peek drop].
  destruct (vget lookup1 (Z.shiftr b 4)) as [l |]; [| done]. apply andb_prop in H as [E1%Z.eqb_eq E2%Z.eqb_eq]. subst l. cbn [rbind]. rewrite E2. split; [done |]. intros s. by rewrite drop_0.
Qed.
Lemma lead_many n x s : (1 <= n <= 3)%nat -> 0 <= x < 2 ^ (6 - Z.of_nat n) -> decode_one (256 - 2 ^ (7 - Z.of_nat n) + x :: s) = Ok (take_cont n x s).
Proof.
  intros Hn Hx. assert (H : forall k, 0 <= k < 256 -> implb (k <? 2 ^ (6 - Z.of_nat n)) (match vget lookup1 (Z.shiftr (256 - 2 ^ (7 - Z.of_nat n) + k) 4) with
      Ok l => (l =? Z.of_nat n + 1) && (Z.land (256 - 2 ^ (7 - Z.of_nat n) + k) (Z.land (Z.shiftl 1 (8 - l) - 1) 0xFF) =? k) | Err _ => false end) = true).
  { assert (n = 1 \/ n = 2 \/ n = 3)%nat as [-> | [-> | ->]] by lia; apply byte_bits; vm_compute; reflexivity. }
  assert (x < 32) by (assert (2 ^ (6 - Z.of_nat n) <= 2 ^ 5) by (apply Z.pow_le_mono_r; lia); lia).
  specialize (H x ltac:(lia)). rewrite (proj2 (Z.ltb_lt x _)) in H by lia. simpl in H. unfold decode_one. cbn [peek drop]. set (b := 256 - 2 ^ (7 - Z.of_nat n) + x) in *.
  destruct (vget lookup1 (Z.shiftr b 4)) as [l |]; [| done]. apply andb_prop in H as [E1%Z.eqb_eq E2%Z.eqb_eq]. subst l. cbn [rbind]. rewrite E2, drop_0.
  by replace (Z.to_nat (Z.of_nat n + 1 - 1)) with n by lia.
Qed.
Lemma decode_one_encode c s : scalar c -> decode_one (utf8_encode c ++ s) = Ok (c, s).
Proof.
  intros Hc. unfold scalar in Hc. unfold utf8_encode.
  destruct (c <? 0x80) eqn:E1; [| destruct (c <? 0x800) eqn:E2; [| destruct (c <? 0x10000) eqn:E3]]; cbn [app].
  - rewrite (proj2 (lead1 c ltac:(lia))). by rewrite take_cont_end.
  - change 0xC0 with (256 - 2 ^ (7 - Z.of_nat 1)). rewrite lead_many by (simpl; dlia). rewrite take_cont_step, six_bits_last by dlia. by rewrite take_cont_end.
  - change 0xE0 with (256 - 2 ^ (7 - Z.of_nat 2)). rewrite lead_many by (simpl; dlia). rewrite !take_cont_step by dlia. rewrite (six_bits c 64), six_bits_last by dlia. by rewrite take_cont_end.
  - change 0xF0 with (256 - 2 ^ (7 - Z.of_nat 3)). rewrite lead_many by (simpl; dlia). rewrite !take_cont_step by dlia. rewrite (six_bits c 4096), (six_bits c 64), six_bits_last by dlia. by rewrite take_cont_end.
Qed.
Lemma utf8_first c : scalar c -> exists b t, utf8_encode c = b :: t /\ 0 < b /\ (b = c /\ t = [] \/ 0x80 <= b /\ 0x80 <= c).
Proof.
  intros Hc. unfold scalar in Hc. unfold utf8_encode.
  destruct (c <? 0x80) eqn:E1; [| destruct (c <? 0x800) eqn:E2; [| destruct (c <? 0x10000) eqn:E3]]; do 2 eexists; (split; [done |]); (split; [dlia |]); [left; split; [done | done] | right; dlia ..].
Qed.
Lemma hex_loop_reads ds vs v s : mapM hex_digit ds = Some vs -> 0 <= v -> (v + 1) * 16 ^ Zlen ds <= 2 ^ 32 ->
  hex_loop (length ds) v (ds ++ s) = Ok (foldl (fun v d => v * 16 + d) v vs, s).
Proof.
  revert vs v. induction ds as [| d ds IH]; intros vs v Hm Hv Hb; simpl in Hm; [by injection Hm as <- |]. destruct (hex_digit d) as [x |] eqn:Ed; [| done]. simpl in Hm.
  destruct (mapM hex_digit ds) as [ys |] eqn:Em; [| done]. injection Hm as <-. rewrite Zlen_cons, Z.pow_add_r, Z.pow_1_r in Hb by (pose proof (Zlen_nonneg ds); lia).
  assert (Hx : 0 <= x < 16 /\ d <> 0) by (unfold hex_digit in Ed; repeat case_match; simplify_eq; lia). destruct Hx as [Hx Hd0]. cbn [length hex_loop app peek drop].
  assert (1 <= 16 ^ Zlen ds) by (pose proof (Z.pow_pos_nonneg 16 (Zlen ds) ltac:(lia) (Zlen_nonneg ds)); lia).
  rewrite (proj2 (Z.eqb_neq d 0) Hd0), Ed, (u32_small (v * 16)), (u32_small (v * 16 + x)) by nia. rewrite drop_0. apply (IH ys); [done | lia | nia].
Qed.
Lemma parse_char_reads c t s : char_text c t -> parse_char (t ++ s) = Ok (c, s).
Proof.
  intros H. unfold parse_char. destruct H as [c Hc Hb | c e He | c x n ds Hx Hn (vs & Hm & ->)].
  - destruct (utf8_first c Hc) as (b & u & Eu & Hb0 & Hbc). rewrite <- (decode_one_encode c s Hc). rewrite Eu. cbn [app peek].
    assert (b <> ch "\"). { change (ch "\") with 92 in *. destruct Hbc as [[-> _] | ?]; [done | lia]. } rewrite (proj2 (Z.eqb_neq b (ch "\"))), (proj2 (Z.eqb_neq b 0)) by (done || lia). done.
  - set_unfold in He. repeat destruct He as [He | He]; try done; injection He as -> ->; done.
  - assert (Hl : parse_hex (ds ++ s) (length ds) = Ok (foldl (fun v d => v * 16 + d) 0 vs, s)).
    { apply hex_loop_reads; [done | done |]. assert (Zlen ds <= 8) by (unfold Zlen; set_unfold in Hx; naive_solver lia).
      transitivity (16 ^ 8); [| done]. rewrite Z.mul_1_l. apply Z.pow_le_mono_r; lia. }
    subst n. set_unfold in Hx. destruct Hx as [[= -> E] | [[= -> E] | [ [= -> E] | [] ] ] ]; cbn [app peek drop]; rewrite E in Hl; exact Hl.
Qed.
Lemma char_text_first c t : char_text c t -> exists b u, t = b :: u /\ 0 < b.
Proof. intros [c' Hc _ | |]; [destruct (utf8_first c' Hc) as (b & u & -> & ? & _); by exists b, u | |]; do 2 eexists; (split; [done |]); done. Qed.
Lemma peek_app t s : t <> [] -> peek (t ++ s) = peek t.
Proof. by destruct t. Qed.
Lemma char_text_ne c t : char_text c t -> t <> [] /\ peek t <> 0.
Proof. intros H. destruct (char_text_first c t H) as (b & u & -> & ?). split; [done | simpl; lia]. Qed.

(** literals *)
Lemma literal_reads cps t : chars_text quote cps t -> forall fuel s rule, (length cps < fuel)%nat ->
  literal_loop fuel (t ++ quote :: s) rule = Ok (quote :: s, rule ++ (mkElem CHAR <$> cps)).
Proof.
  induction 1 as [| c cps t u Hc Hq _ IH]; intros fuel s rule Hf; (destruct fuel as [| fuel]; [simpl in Hf; lia |]); cbn [literal_loop]; [by rewrite app_nil_r |].
  destruct (char_text_ne c t Hc) as [Hn H0]. rewrite <- app_assoc, peek_app, (proj2 (Z.eqb_neq _ quote)), (proj2 (Z.eqb_neq _ 0)) by done.
  rewrite (parse_char_reads c t _ Hc). cbn [rbind]. rewrite IH by (simpl in Hf; lia). by rewrite <- app_assoc.
Qed.
Lemma chars_text_length stop cps t : chars_text stop cps t -> (length cps <= length t)%nat.
Proof. induction 1 as [| c cps t u Hc _ _ IH]; [done |]. destruct (char_text_ne c t Hc) as [Hn _]. rewrite length_app. destruct t; [done |]. simpl. lia. Qed.
(** the elements of a class: the first has the type of the class, the others are alternatives *)
Inductive class_of : llama_gretype -> list (Z * Z) -> llama_grammar_rule -> Prop :=
| co_nil t : class_of t [] []
| co_one t c rs es : class_of CHAR_ALT rs es -> class_of t ((c, c) :: rs) (mkElem t c :: es)
| co_range t c d rs es : class_of CHAR_ALT rs es -> class_of t ((c, d) :: rs) (mkElem t c :: mkElem CHAR_RNG_UPPER d :: es).
Lemma class_reads rs t : class_text rs t -> forall type first, exists es, class_of first rs es /\
  forall fuel start s rule, (length t < fuel)%nat -> (start <= length rule)%nat -> (if (start <? length rule)%nat then CHAR_ALT else type) = first ->
    class_loop fuel type start (t ++ ch "]" :: s) rule = Ok (ch "]" :: s, rule ++ es).
Proof.
  induction 1 as [| c rs t u Hc Hq Hu _ IH | c d rs t t' u Hc Hq Hd Hq' _ IH]; intros type first.
  - exists []. split; [constructor |]. intros fuel start s rule Hf _ _. destruct fuel as [| fuel]; [lia |]. cbn [class_loop]. by rewrite app_nil_r.
  - destruct (IH type CHAR_ALT) as (es & Hco & E). exists (mkElem first c :: es). split; [by constructor |]. intros fuel start s rule Hf Hs Hty. destruct fuel as [| fuel]; [lia |]. cbn [class_loop].
    destruct (char_text_ne c t Hc) as [Hn H0]. rewrite <- app_assoc, peek_app, (proj2 (Z.eqb_neq _ (ch "]"))), (proj2 (Z.eqb_neq _ 0)) by done. rewrite (parse_char_reads c t _ Hc). cbn [rbind].
    assert (Hp : (peek (u ++ ch "]" :: s) =? ch "-") = false) by (destruct u; [done | by apply Z.eqb_neq]). rewrite Hp. cbn [andb]. rewrite Hty.
    rewrite length_app in Hf. assert (1 <= length t)%nat by (destruct t; [done | simpl; lia]).
    rewrite E; [by rewrite <- app_assoc | lia | rewrite length_app; lia |]. by rewrite (proj2 (Nat.ltb_lt _ _)) by (rewrite length_app; simpl; lia).
  - destruct (IH type CHAR_ALT) as (es & Hco & E). exists (mkElem first c :: mkElem CHAR_RNG_UPPER d :: es). split; [by constructor |]. intros fuel start s rule Hf Hs Hty. destruct fuel as [| fuel]; [lia |]. cbn [class_loop].
    destruct (char_text_ne c t Hc) as [Hn H0]. destruct (char_text_ne d t' Hd) as [Hn' H0']. rewrite <- app_assoc, peek_app, (proj2 (Z.eqb_neq _ (ch "]"))), (proj2 (Z.eqb_neq _ 0)) by done. rewrite (parse_char_reads c t _ Hc). cbn [rbind].
    cbn [app peek]. rewrite Z.eqb_refl. cbn [andb]. assert (E1 : peek_at 1 (ch "-" :: (t' ++ u) ++ ch "]" :: s) = peek t') by (unfold peek_at; by destruct t').
    rewrite E1, (proj2 (Z.eqb_neq _ (ch "]"))), (proj2 (Z.eqb_neq _ 0)) by done. cbn [negb andb drop]. rewrite <- app_assoc, drop_0, (parse_char_reads d t' _ Hd). cbn [rbind]. rewrite Hty.
    rewrite !length_app in Hf. simpl in Hf. rewrite length_app in Hf. assert (1 <= length t)%nat by (destruct t; [done | simpl; lia]).
    rewrite E; [by rewrite <- !app_assoc | lia | rewrite !length_app; lia |]. by rewrite (proj2 (Nat.ltb_lt _ _)) by (rewrite !length_app; simpl; lia).
Qed.

(** blanks *)
Definition solid (nested : bool) (s : list Z) : Prop := blank_char nested (peek s) = false /\ peek s <> ch "#".
Lemma space_reads nested s rest : blank nested s -> solid nested rest -> parse_space (s ++ rest) nested = rest.
Proof.
  intros Hs [H1 H2]. unfold parse_space. induction Hs as [| c s Hc _ IH].
  - destruct rest as [| c rest]; [done |]. simpl. unfold blank_char in H1. simpl in H1, H2. rewrite (proj2 (Z.eqb_neq _ _) H2). by rewrite H1.
  - unfold blank_char in Hc. cbn [app space_loop andb]. assert (E : (c =? ch "#") = false). { apply Z.eqb_neq. intros ->. by destruct nested. } rewrite E, Hc. exact IH.
Qed.

(** ** What elements generate *)
Definition plain_elems (b : llama_grammar_rule) : Prop := Forall (fun e => is_end_type (etype e) = false) b.
Definition leads (l : llama_grammar_rule) : Prop := exists f l', l = f :: l' /\ boundary_type (etype f) = true.
Lemma cat_assoc L K M w : cat (cat L K) M w <-> cat L (cat K M) w.
Proof.
  split.
  - intros (x & v & -> & (u1 & u2 & -> & H1 & H2) & H3). exists u1, (u2 ++ v). rewrite <- app_assoc. split_and!; [done | done |]. by exists u2, v.
  - intros (u & y & -> & H1 & (v1 & v2 & -> & H2 & H3)). exists (u ++ v1), v2. rewrite <- app_assoc. split_and!; [done | | done]. by exists u, v1.
Qed.
Lemma cat_eps_l L w : cat eps L w <-> L w.
Proof. split; [by intros (u & v & -> & -> & H) | intros H; by exists [], w]. Qed.
Lemma cat_eps_r L w : cat L eps w <-> L w.
Proof. split; [intros (u & v & -> & H & ->); by rewrite app_nil_r | intros H; exists w, []; by rewrite app_nil_r]. Qed.
Lemma cat_ext L L' K K' w : (forall u, L u <-> L' u) -> (forall u, K u <-> K' u) -> cat L K w <-> cat L' K' w.
Proof. intros H1 H2. unfold cat. by setoid_rewrite H1; setoid_rewrite H2. Qed.

(** derivations with a bound on the nesting of references *)
Inductive genh (rs : llama_grammar_rules) : nat -> llama_grammar_rule -> list Z -> Prop :=
| gh_end n e l : is_end_type (etype e) = true -> genh rs n (e :: l) []
| gh_char n e l k c w : char_type (etype e) = true -> in_item c e l -> class_end (e :: l) k -> genh rs n (drop (Z.to_nat k) (e :: l)) w -> genh rs n (e :: l) (c :: w)
| gh_ref n e l r w1 w2 : etype e = RULE_REF -> vlookup rs (evalue e) = Some r -> genh_rule rs n r w1 -> genh rs (S n) l w2 -> genh rs (S n) (e :: l) (w1 ++ w2)
with genh_rule (rs : llama_grammar_rules) : nat -> llama_grammar_rule -> list Z -> Prop :=
| gh_first n r w : genh rs n r w -> genh_rule rs n r w
| gh_other n a e r w : Forall (fun x => is_end_type (etype x) = false) a -> etype e = ALT -> genh_rule rs n r w -> genh_rule rs n (a ++ e :: r) w.
Scheme genh_mind := Minimality for genh Sort Prop with genh_rule_mind := Minimality for genh_rule Sort Prop.
Scheme gen_mind := Minimality for gen Sort Prop with gen_rule_mind := Minimality for gen_rule Sort Prop.
Combined Scheme genh_both from genh_mind, genh_rule_mind.
Combined Scheme gen_both from gen_mind, gen_rule_mind.
Lemma genh_gen rs : (forall n l w, genh rs n l w -> gen rs l w) /\ (forall n r w, genh_rule rs n r w -> gen_rule rs r w).
Proof.
  apply (genh_both rs (fun n l w => gen rs l w) (fun n r w => gen_rule rs r w)).
  - intros n e l He. by constructor.
  - intros n e l k c w He Hi Hk _ IH. by eapply gen_char.
  - intros n e l r w1 w2 He Hr _ IH1 _ IH2. by eapply gen_ref.
  - intros n r w _ IH. by constructor.
  - intros n a e r w Ha He _ IH. by apply gen_other.
Qed.
Lemma genh_mono rs : (forall n l w, genh rs n l w -> forall m, (n <= m)%nat -> genh rs m l w) /\ (forall n r w, genh_rule rs n r w -> forall m, (n <= m)%nat -> genh_rule rs m r w).
Proof.
  apply (genh_both rs (fun n l w => forall m, (n <= m)%nat -> genh rs m l w) (fun n r w => forall m, (n <= m)%nat -> genh_rule rs m r w)).
  - intros n e l He m _. by constructor.
  - intros n e l k c w He Hi Hk _ IH m Hm. eapply gh_char; eauto.
  - intros n e l r w1 w2 He Hr _ IH1 _ IH2 m Hm. destruct m as [| m]; [lia |]. eapply gh_ref; [done | done | apply IH1; lia | apply IH2; lia].
  - intros n r w _ IH m Hm. constructor. auto.
  - intros n a e r w Ha He _ IH m Hm. apply gh_other; auto.
Qed.
Lemma gen_genh rs : (forall l w, gen rs l w -> exists n, genh rs n l w) /\ (forall r w, gen_rule rs r w -> exists n, genh_rule rs n r w).
Proof.
  apply (gen_both rs (fun l w => exists n, genh rs n l w) (fun r w => exists n, genh_rule rs n r w)).
  - intros e l He. exists 0%nat. by constructor.
  - intros e l k c w He Hi Hk _ [n IH]. exists n. by eapply gh_char.
  - intros e l r w1 w2 He Hr _ [n1 IH1] _ [n2 IH2]. exists (S (Nat.max n1 n2)). eapply gh_ref; [done | done | eapply genh_mono; [exact IH1 | lia] | eapply genh_mono; [exact IH2 | lia] ].
  - intros r w _ [n IH]. exists n. by constructor.
  - intros a e r w Ha He _ [n IH]. exists n. by apply gh_other.
Qed.

Section Segments.
Context (rs : llama_grammar_rules).
(** the elements [b] generate [L] in front of whatever follows *)
Record seg (b : llama_grammar_rule) (L : language) : Prop := mkSeg {
  sg_plain : plain_elems b;
  sg_leads : forall l, leads l -> leads (b ++ l);
  sg_fwd : forall n l w, leads l -> genh rs n (b ++ l) w -> cat L (genh rs n l) w;
  sg_bwd : forall l w, leads l -> cat L (gen rs l) w -> gen rs (b ++ l) w }.
Lemma seg_gen b L l w : seg b L -> leads l -> gen rs (b ++ l) w <-> cat L (gen rs l) w.
Proof.
  intros [_ _ H1 H2] Hl. split; [| by apply H2]. intros [n Hg]%(proj1 (gen_genh rs)). destruct (H1 n l w Hl Hg) as (u & v & -> & Hu & Hv). exists u, v. split_and!; [done | done |]. by eapply (proj1 (genh_gen rs)).
Qed.
Lemma seg_ext b L K : (forall w, L w <-> K w) -> seg b L -> seg b K.
Proof.
  intros HE [H1 H2 H3 H4]. split; [done | done | |].
  - intros n l w Hl Hg. destruct (H3 n l w Hl Hg) as (u & v & -> & Hu & Hv). exists u, v. by rewrite <- HE.
  - intros l w Hl (u & v & -> & Hu & Hv). apply H4; [done |]. exists u, v. by rewrite HE.
Qed.
Lemma seg_nil : seg [] eps.
Proof. split; [apply Forall_nil_2 | done | intros n l w _ Hg; apply cat_eps_l; exact Hg | intros l w _ Hg; exact (proj1 (cat_eps_l _ _) Hg)]. Qed.
Lemma seg_cat a b L K : seg a L -> seg b K -> seg (a ++ b) (cat L K).
Proof.
  intros [A1 A2 A3 A4] [B1 B2 B3 B4]. split; [by apply Forall_app | intros l Hl; rewrite <- app_assoc; auto | |].
  - intros n l w Hl Hg. rewrite <- app_assoc in Hg. apply cat_assoc. destruct (A3 n (b ++ l) w (B2 l Hl) Hg) as (u & v & -> & Hu & Hv). exists u, v. split_and!; [done | done |]. by apply B3.
  - intros l w Hl Hg. rewrite <- app_assoc. apply A4; [auto |]. apply cat_assoc in Hg as (u & v & -> & Hu & Hv). exists u, v. split_and!; [done | done |]. by apply B4.
Qed.
(** one character item and what it matches *)
Lemma seg_item e a (P : Z -> Prop) k : char_type (etype e) = true -> Zlen a + 1 = k -> plain_elems a -> (forall l, leads l -> class_end (e :: a ++ l) k /\ forall c, in_item c e (a ++ l) <-> P c) ->
  seg (e :: a) (fun w => exists c, w = [c] /\ P c).
Proof.
  intros He Hk Ha H. assert (Hd : forall l, drop (Z.to_nat k) (e :: a ++ l) = l).
  { intros l. subst k. unfold Zlen. replace (Z.to_nat (Z.of_nat (length a) + 1)) with (S (length a)) by lia. simpl. apply drop_app_length. }
  split.
  - constructor; [by destruct (etype e) | done].
  - intros l _. exists e, (a ++ l). split; [done |]. by destruct (etype e).
  - intros n l w Hl Hg. destruct (H l Hl) as [Hc Hi]. simpl app in Hg. remember (e :: a ++ l) as r eqn:Er. destruct Hg as [n x y Hx | n x y k' c w' Hx Hin Hk' Hg | n x y r' w1 w2 Hx]; injection Er as -> ->; [by destruct (etype e) | | by rewrite Hx in He].
    assert (k' = k) as -> by (by eapply class_end_fun). rewrite Hd in Hg. exists [c], w'. split_and!; [done | | done]. exists c. split; [done | by apply Hi].
  - intros l w Hl (u & v & -> & (c & -> & HP) & Hg). destruct (H l Hl) as [Hc Hi]. simpl. eapply gen_char; [done | by apply Hi | done |]. by rewrite Hd.
Qed.
Lemma leads_end l : leads l -> forall e, class_end (e :: l) 1.
Proof. intros (f & l' & -> & Hf) e. by constructor. Qed.
Lemma seg_char c : seg [mkElem CHAR c] (fun w => w = [c]).
Proof.
  eapply (seg_ext _ (fun w => exists c', w = [c'] /\ c' = c)); [by intros w; split; [intros (? & -> & ->) | intros ->; exists c] |].
  apply (seg_item _ [] _ 1); [done | done | constructor |]. intros l Hl. split; [by apply leads_end |]. intros x. destruct Hl as (f & l' & -> & Hf). destruct (boundary_not_range _ Hf) as [N1 N2]. unfold in_item. simpl.
  split; [intros Hi; inversion Hi; subst; simpl in *; try congruence; unfold class_elem in *; simpl in *; lia | intros ->; apply ic_single; [done | unfold class_elem; simpl; apply Z.eqb_refl] ].
Qed.
Lemma seg_any : seg [mkElem CHAR_ANY 0] (fun w => exists c, w = [c]).
Proof.
  eapply (seg_ext _ (fun w => exists c', w = [c'] /\ True)); [by intros w; split; [intros (c & -> & _); exists c | intros [c ->]; exists c] |].
  apply (seg_item _ [] _ 1); [done | done | constructor |]. intros l Hl. split; [by apply leads_end |]. intros x. destruct Hl as (f & l' & -> & Hf). destruct (boundary_not_range _ Hf) as [N1 N2]. unfold in_item. simpl.
  split; [done |]. intros _. apply ic_single; [done | done].
Qed.
Lemma seg_chars cps : seg (mkElem CHAR <$> cps) (fun w => w = cps).
Proof.
  induction cps as [| c cps IH]; [apply seg_nil |]. eapply seg_ext; [| apply (seg_cat [mkElem CHAR c] _ _ _ (seg_char c) IH)].
  intros w. split; [by intros (? & ? & -> & -> & ->) | intros ->; by exists [c], cps].
Qed.
(** classes *)
Lemma class_of_end t ranges es l : class_of t ranges es -> es <> [] -> leads l -> class_end (es ++ l) (Zlen es).
Proof.
  intros H. induction H as [t | t c rs' es H IH | t c d rs' es H IH]; intros Hn Hl; [done | |].
  - destruct es as [| f es]; [rewrite Zlen_cons, Zlen_nil; by apply leads_end |]. rewrite Zlen_cons. simpl. apply ce_next; [by inversion H; subst |]. by apply IH.
  - destruct es as [| f es].
    + destruct Hl as (f & l' & -> & Hf). rewrite !Zlen_cons, Zlen_nil. by apply ce_range.
    + rewrite Zlen_cons, (Zlen_cons _ (f :: es)). replace (1 + (1 + Zlen (f :: es))) with (2 + Zlen (f :: es)) by lia. simpl. apply ce_next_range; [done | by inversion H; subst |]. by apply IH.
Qed.
Lemma class_of_in t ranges es l c : class_of t ranges es -> t <> CHAR_ANY -> es <> [] -> leads l -> in_class c (es ++ l) <-> in_ranges ranges c.
Proof.
  intros H. induction H as [t | t x rs' es H IH | t x d rs' es H IH]; intros Ht Hn Hl; [done | |].
  - unfold in_ranges. rewrite Exists_cons. simpl. assert (Hx : class_elem (mkElem t x) c = true <-> x <= c <= x). { unfold class_elem. simpl. rewrite bool_decide_eq_false_2 by done. lia. }
    destruct es as [| f es].
    + inversion H; subst. rewrite Exists_nil. destruct Hl as (f & l' & -> & Hf). destruct (boundary_not_range _ Hf) as [N1 N2]. rewrite <- Hx. simpl. split.
      * intros Hi. inversion Hi; subst; simpl in *; try congruence. by left.
      * intros [Hi | []]. by apply ic_single.
    + assert (Hf : etype f = CHAR_ALT) by (by inversion H; subst). rewrite <- Hx. fold (in_ranges rs' c). rewrite <- IH by done. simpl. split.
      * intros Hi. inversion Hi; subst; simpl in *; try congruence; [by left | by right].
      * intros [Hi | Hi]; [apply ic_single; [simpl; congruence | done] | by apply ic_next].
  - unfold in_ranges. rewrite Exists_cons. simpl. destruct es as [| f es].
    + inversion H; subst. rewrite Exists_nil. destruct Hl as (f & l' & -> & Hf). destruct (boundary_not_range _ Hf) as [N1 N2]. simpl. split.
      * intros Hi. inversion Hi; subst; simpl in *; try congruence. by left.
      * intros [Hi | []]. by apply ic_range.
    + assert (Hf : etype f = CHAR_ALT) by (by inversion H; subst). fold (in_ranges rs' c). rewrite <- IH by done. simpl. split.
      * intros Hi. inversion Hi; subst; simpl in *; try congruence; [by left | by right].
      * intros [Hi | Hi]; [by apply ic_range | by apply ic_next_range].
Qed.
Lemma class_of_plain t ranges es : class_of t ranges es -> is_end_type t = false -> plain_elems es.
Proof. induction 1 as [t | t c rs' es H IH | t c d rs' es H IH]; intros Ht; [constructor | constructor; [done | by apply IH] |]. constructor; [done |]. constructor; [done | by apply IH]. Qed.
Lemma seg_class (neg : bool) ranges es : ranges <> [] -> class_of (if neg then CHAR_NOT else CHAR) ranges es -> seg es (den (fun _ _ => False) (GClass neg ranges)).
Proof.
  intros Hr H. assert (Hn : es <> []) by (by destruct H). assert (Hp : plain_elems es) by (eapply class_of_plain; [exact H | by destruct neg]).
  destruct es as [| e a]; [done |]. assert (Et : etype e = if neg then CHAR_NOT else CHAR) by (by inversion H; subst). simpl. apply (seg_item e a (fun c => if neg then ~ in_ranges ranges c else in_ranges ranges c) (Zlen (e :: a))); [rewrite Et; by destruct neg | rewrite Zlen_cons; lia | by apply Forall_cons in Hp as [_ Hp] |].
  intros l Hl. split; [exact (class_of_end _ _ (e :: a) l H ltac:(done) Hl) |]. intros c. pose proof (class_of_in _ _ (e :: a) l c H ltac:(by destruct neg) ltac:(done) Hl) as Hc. simpl in Hc. unfold in_item. rewrite Et. destruct neg; simpl; rewrite Hc; done.
Qed.
End Segments.

(** ** The parser's tables *)
Definition rule_at (p : llama_grammar_parser) (i : Z) : llama_grammar_rule := default [] (vlookup (rules p) i).
(** the language of a name *)
Definition rho (p : llama_grammar_parser) (name : list Z) : language := fun w => exists i, symbol_ids p !! name = Some i /\ gen_rule (rules p) (rule_at p i) w.
(** ids and names are in bijection, and rules have ids *)
Record tidy (p : llama_grammar_parser) : Prop := mkTidy {
  td_inj : forall k1 k2 i, symbol_ids p !! k1 = Some i -> symbol_ids p !! k2 = Some i -> k1 = k2;
  td_range : forall k i, symbol_ids p !! k = Some i -> 0 <= i < n_symbols p;
  td_onto : forall i, 0 <= i < n_symbols p -> exists k, symbol_ids p !! k = Some i;
  td_len : Zlen (rules p) <= n_symbols p;
  td_syms : sym_ok (symbol_ids p) }.
(** from [p] to [q]: at most [n] new symbols, new names among [names], old rules unchanged, and of the new
    ids those that were generated have rules *)
Record steps (names : list (list Z)) (n : Z) (p q : llama_grammar_parser) : Prop := mkSteps {
  sp_grows : grows p q;
  sp_tidy : tidy q;
  sp_count : n_symbols p <= n_symbols q <= n_symbols p + n;
  sp_old : forall i, i < n_symbols p -> rule_at q i = rule_at p i;
  sp_new : forall k i, symbol_ids q !! k = Some i -> n_symbols p <= i -> (no_underscore k -> k ∈ names /\ rule_at q i = []) /\ (~ no_underscore k -> rule_at q i <> []);
  sp_names : forall k, k ∈ names -> no_underscore k -> is_Some (symbol_ids q !! k) }.
(** what is set stays as it is *)
Definition upto (p f : llama_grammar_parser) : Prop := grows p f /\ forall i, rule_at p i <> [] -> rule_at f i = rule_at p i.
Lemma upto_refl p : upto p p.
Proof. done. Qed.
Lemma upto_trans p q f : upto p q -> upto q f -> upto p f.
Proof. intros [G1 H1] [G2 H2]. split; [by etransitivity |]. intros i Hi. rewrite H2; [by apply H1 | by rewrite H1]. Qed.
Lemma no_underscore_dec k : no_underscore k \/ ~ no_underscore k.
Proof. unfold no_underscore. destruct (decide (ch "_" ∈ k)); tauto. Qed.
Lemma rule_at_range p i : tidy p -> rule_at p i <> [] -> 0 <= i < n_symbols p.
Proof.
  intros HT H. unfold rule_at in H. destruct (vlookup (rules p) i) as [r |] eqn:E; [| done]. apply vlookup_Some_range in E. pose proof (td_len p HT). lia.
Qed.
Lemma rule_at_beyond p i : tidy p -> n_symbols p <= i -> rule_at p i = [].
Proof. intros HT Hi. destruct (decide (rule_at p i = [])) as [? | Hr]; [done |]. apply rule_at_range in Hr; [lia | done]. Qed.
Lemma steps_upto names n p q : tidy p -> steps names n p q -> upto p q.
Proof. intros HT H. split; [apply (sp_grows _ _ _ _ H) |]. intros i Hi. apply (sp_old _ _ _ _ H). apply rule_at_range in Hi; [lia | done]. Qed.
Lemma steps_refl p : tidy p -> steps [] 0 p p.
Proof. intros HT. split; [done | done | lia | done | | set_solver]. intros k i Hk Hi. apply (td_range p HT) in Hk. lia. Qed.
Lemma steps_trans N1 N2 n1 n2 p q r : tidy p -> steps N1 n1 p q -> steps N2 n2 q r -> steps (N1 ++ N2) (n1 + n2) p r.
Proof.
  intros HT [A1 A2 A3 A4 A5 A6] [B1 B2 B3 B4 B5 B6]. split; [by etransitivity | done | lia | | |].
  - intros i Hi. rewrite B4 by lia. by apply A4.
  - intros k i Hk Hi. destruct (Z.lt_ge_cases i (n_symbols q)) as [Hq | Hq].
    + assert (Hkq : symbol_ids q !! k = Some i).
      { destruct (td_onto q A2 i) as [k' Hk']; [pose proof (td_range r B2 k i Hk); lia |]. assert (symbol_ids r !! k' = Some i) by (by eapply lookup_weaken). by rewrite (td_inj r B2 k k' i). }
      destruct (A5 k i Hkq Hi) as [H1 H2]. rewrite B4 by done. split; [intros Hn; destruct (H1 Hn); split; [set_solver | done] | done].
    + destruct (B5 k i Hk Hq) as [H1 H2]. split; [intros Hn; destruct (H1 Hn); split; [set_solver | done] | done].
  - intros k Hk Hn. apply elem_of_app in Hk as [Hk | Hk]; [| by apply B6]. destruct (A6 k Hk Hn) as [i Hi]. exists i. by eapply lookup_weaken.
Qed.
Lemma steps_weaken N n n' p q : n <= n' -> steps N n p q -> steps N n' p q.
Proof. intros Hn [A1 A2 A3 A4 A5 A6]. split; try done. lia. Qed.

(** a new symbol *)
Lemma insert_tidy p k : tidy p -> symbol_ids p !! k = None -> (no_underscore k \/ exists base, no_underscore base /\ k = base ++ ch "_" :: to_string (n_symbols p)) ->
  let q := mkParser (<[k := n_symbols p]> (symbol_ids p)) (rules p) in tidy q /\ n_symbols q = n_symbols p + 1.
Proof.
  intros [H1 H2 H3 H4 H5] Hk Hs q. assert (En : n_symbols q = n_symbols p + 1) by (unfold n_symbols, q; cbn [symbol_ids]; rewrite map_size_insert_None by done; lia). split; [| done]. subst q. split; cbn [symbol_ids rules] in *.
  - intros k1 k2 i [[<- <-] | [Hn1 E1]]%lookup_insert_Some [[<- Ei] | [Hn2 E2]]%lookup_insert_Some; [done | apply H2 in E2; lia | subst i; apply H2 in E1; lia | by eapply H1].
  - intros k1 i [[<- <-] | [Hn E]]%lookup_insert_Some; rewrite En; [unfold n_symbols; lia | apply H2 in E; lia].
  - intros i Hi. rewrite En in Hi. simpl. destruct (decide (i = n_symbols p)) as [-> | Hne]; [exists k; by rewrite lookup_insert_eq |]. destruct (H3 i) as [k' Hk']; [lia |]. exists k'. rewrite lookup_insert_ne; [done |]. congruence.
  - rewrite En. simpl. lia.
  - intros k1 i [[<- <-] | [Hn E]]%lookup_insert_Some; [done | by apply H5].
Qed.
Lemma get_symbol_steps p name : tidy p -> n_symbols p + 1 < 2 ^ 32 -> no_underscore name ->
  let r := get_symbol_id name p in steps [name] 1 p r.2 /\ symbol_ids r.2 !! name = Some r.1 /\ rules r.2 = rules p.
Proof.
  intros HT Hb Hn. unfold get_symbol_id. destruct (symbol_ids p !! name) as [i |] eqn:E; simpl.
  - split_and!; [| done | done]. destruct (steps_refl p HT) as [A1 A2 A3 A4 A5 A6]. split; [done | done | lia | done | | intros k ->%list_elem_of_singleton _; by exists i]. intros k j Hk Hj. apply (td_range p HT) in Hk. lia.
  - rewrite u32_small by (unfold n_symbols in *; lia). destruct (insert_tidy p name HT E ltac:(by left)) as [HT' En]. cbv zeta in *. split_and!; [| by rewrite lookup_insert_eq | done]. split; [by apply insert_subseteq | done | lia | done | |]; cbn [symbol_ids].
    + intros k j [[<- <-] | [Hne E']]%lookup_insert_Some Hj; [| apply (td_range p HT) in E'; lia]. split; [| done]. intros _. split; [set_solver |].
      by apply (rule_at_beyond p (n_symbols p)).
    + intros k ->%list_elem_of_singleton _. simpl. rewrite lookup_insert_eq. by eexists.
Qed.
(** a generated symbol, with the rule it gets in the end *)
Lemma generated_fresh p base : tidy p -> no_underscore base -> symbol_ids p !! (base ++ [ch "_"] ++ to_string (n_symbols p)) = None.
Proof.
  intros HT Hn. destruct (symbol_ids p !! _) as [i |] eqn:E; [| done]. exfalso. destruct (td_syms p HT _ _ E) as [Hu | (b & Hb & He)]; [apply Hu; set_solver |].
  simpl in He. apply app_underscore_inj in He as [_ He]; [| done | done]. apply to_string_inj in He. apply (td_range p HT) in E. lia.
Qed.
Lemma generate_tidy p base : tidy p -> n_symbols p + 1 < 2 ^ 32 -> no_underscore base ->
  let r := generate_symbol_id base p in r.1 = n_symbols p /\ tidy r.2 /\ n_symbols r.2 = n_symbols p + 1 /\ grows p r.2 /\ rules r.2 = rules p /\ exists k, symbol_ids r.2 !! k = Some (n_symbols p) /\ ~ no_underscore k.
Proof.
  intros HT Hb Hn. unfold generate_symbol_id. rewrite u32_small by (unfold n_symbols in *; lia). pose proof (generated_fresh p base HT Hn) as Hf. simpl.
  destruct (insert_tidy p _ HT Hf) as [HT' En]; [right; by exists base |]. split_and!; [done | done | done | by apply insert_subseteq | done |].
  eexists. rewrite lookup_insert_eq. split; [done |]. intros Hu. apply Hu. set_solver.
Qed.
Lemma rule_at_add p i r j : tidy p -> 0 <= i < n_symbols p -> rule_at (add_rule i r p) j = if decide (i = j) then r else rule_at p j.
Proof.
  intros HT Hi. unfold rule_at, add_rule. simpl. set (l := if Zlen (rules p) <=? i then _ else _).
  assert (Hl : i < Zlen l /\ forall j, default [] (vlookup l j) = default [] (vlookup (rules p) j)).
  { subst l. destruct (Z.leb_spec (Zlen (rules p)) i); [| split; [lia | done] ]. split; [rewrite Zlen_app; unfold Zlen at 2; rewrite length_replicate; pose proof (Zlen_nonneg (rules p)); lia |].
    intros k. unfold vlookup. destruct (0 <=? k) eqn:Ek; [| done]. destruct (decide (Z.to_nat k < length (rules p))%nat) as [Hk | Hk]; [by rewrite lookup_app_l |].
    rewrite lookup_app_r, (lookup_ge_None_2 (rules p)) by lia. destruct (replicate _ _ !! _) as [x |] eqn:E; [| done]. by apply lookup_replicate in E as [-> _]. }
  destruct Hl as [Hl1 Hl2]. rewrite <- Hl2. unfold vinsert, vlookup. rewrite (proj2 (Z.leb_le 0 i)) by lia. destruct (decide (i = j)) as [-> | Hij].
  - rewrite (proj2 (Z.leb_le 0 j)) by lia. rewrite list_lookup_insert_eq; [done |]. unfold Zlen in Hl1. lia.
  - destruct (0 <=? j) eqn:Ej; [| done]. rewrite list_lookup_insert_ne by lia. done.
Qed.

(** ** References, alternatives and repetitions *)
Lemma gen_rule_nil rs w : ~ gen_rule rs [] w.
Proof. intros H. remember [] as r eqn:E. destruct H as [r w H | a e r w _ _ _]; [subst; inversion H | by destruct a]. Qed.
Lemma seg_ref f i : seg (rules f) [mkElem RULE_REF i] (fun w => gen_rule (rules f) (rule_at f i) w).
Proof.
  split; [repeat constructor | intros l _; by exists (mkElem RULE_REF i), l | |].
  - intros n l w Hl Hg. simpl app in Hg. remember (mkElem RULE_REF i :: l) as r eqn:Er. destruct Hg as [n x y Hx | n x y k c w Hx | n x y r' w1 w2 Hx Hr Hg1 Hg2]; injection Er as -> ->; [done | done |].
    exists w1, w2. split_and!; [done | | done]. unfold rule_at. simpl in Hr. rewrite Hr. simpl. by eapply (proj2 (genh_gen _)).
  - intros l w Hl (u & v & -> & Hu & Hv). unfold rule_at in Hu. destruct (vlookup (rules f) i) as [r |] eqn:E; [| by apply gen_rule_nil in Hu]. simpl in *. by eapply gen_ref.
Qed.
(** the alternatives of a rule *)
Fixpoint join_alts (bs : list llama_grammar_rule) : llama_grammar_rule :=
  match bs with [] => [] | [b] => b | b :: bs => b ++ mkElem ALT 0 :: join_alts bs end.
Lemma leads_one t v l : boundary_type t = true -> leads (mkElem t v :: l).
Proof. intros H. by exists (mkElem t v), l. Qed.
Lemma seg_ended rs b L e l w : seg rs b L -> is_end_type (etype e) = true -> gen rs (b ++ e :: l) w <-> L w.
Proof.
  intros Hs He. assert (Hl : leads (e :: l)) by (exists e, l; split; [done | by destruct (etype e)]). rewrite (seg_gen rs b L _ _ Hs Hl). split.
  - intros (u & v & -> & Hu & Hv). apply gen_end_inv in Hv as ->; [| done]. by rewrite app_nil_r.
  - intros Hw. exists w, []. rewrite app_nil_r. split_and!; [done | done | by constructor].
Qed.
Lemma gen_rule_alt rs b L l w : seg rs b L -> gen_rule rs (b ++ mkElem ALT 0 :: l) w <-> L w \/ gen_rule rs l w.
Proof. intros Hs. rewrite gen_rule_split by (first [apply Hs | done]). rewrite (seg_ended rs b L) by done. naive_solver. Qed.
Lemma gen_rule_end rs b L w : seg rs b L -> gen_rule rs (b ++ [mkElem END 0]) w <-> L w.
Proof. intros Hs. rewrite gen_rule_split by (first [apply Hs | done]). rewrite (seg_ended rs b L) by done. naive_solver. Qed.
Lemma gen_rule_join rs bs Ls w : Forall2 (seg rs) bs Ls -> bs <> [] -> gen_rule rs (join_alts bs ++ [mkElem END 0]) w <-> alts Ls w.
Proof.
  intros H. induction H as [| b L bs Ls Hb Hbs IH]; intros Hn; [done |]. unfold alts. rewrite Exists_cons. destruct bs as [| b' bs].
  - inversion Hbs; subst. rewrite Exists_nil. simpl join_alts. rewrite (gen_rule_end rs b L) by done. tauto.
  - fold (alts Ls w). rewrite <- IH by done. change (join_alts (b :: b' :: bs)) with (b ++ mkElem ALT 0 :: join_alts (b' :: bs)). rewrite <- app_assoc. by apply gen_rule_alt.
Qed.
(** counting repetitions *)
Lemma times_step k L w : times 0 (Some (S k)) L w <-> cat L (times 0 (Some k) L) w \/ w = [].
Proof.
  split.
  - intros ([| n] & _ & Hn & Hw); [by right | left]. destruct Hw as (u & v & -> & Hu & Hv). exists u, v. split_and!; [done | done |]. exists n. split_and!; [lia | lia | done].
  - intros [(u & v & -> & Hu & (n & _ & Hn & Hv)) | ->]; [exists (S n); split_and!; [lia | lia |]; by exists u, v | exists 0%nat; split_and!; [lia | lia | done] ].
Qed.
Lemma times_zero L w : times 0 (Some 0%nat) L w <-> w = [].
Proof. split; [intros (n & _ & Hn & Hw); by replace n with 0%nat in Hw by lia | intros ->; exists 0%nat; split_and!; [lia | lia | done] ]. Qed.
Lemma power_app n m L w : power (n + m) L w <-> cat (power n L) (power m L) w.
Proof.
  revert w. induction n as [| n IH]; intros w; [by rewrite cat_eps_l |]. cbn [Nat.add power]. rewrite cat_assoc. apply cat_ext; [done | exact IH].
Qed.
Lemma times_from lo hi L w : times lo hi L w <-> cat (power lo L) (times 0 (match hi with Some hi => Some (hi - lo)%nat | None => None end) L) w /\ match hi with Some hi => (lo <= hi)%nat | None => True end.
Proof.
  split.
  - intros (n & Hlo & Hhi & Hw). replace n with (lo + (n - lo))%nat in Hw by lia. apply power_app in Hw as (u & v & -> & Hu & Hv). split; [| by destruct hi; [lia |] ].
    exists u, v. split_and!; [done | done |]. exists (n - lo)%nat. split_and!; [lia | by destruct hi; [lia |] | done].
  - intros [(u & v & -> & Hu & (n & _ & Hn & Hv)) Hle]. exists (lo + n)%nat. split_and!; [lia | by destruct hi; [lia |] |]. apply power_app. by exists u, v.
Qed.
Lemma seg_power rs b L n : seg rs b L -> seg rs (concat (replicate n b)) (power n L).
Proof. intros Hs. induction n as [| n IH]; [apply seg_nil |]. by apply seg_cat. Qed.
(** the rule of an unbounded repetition refers to itself *)
Lemma star_rule f b L i : seg (rules f) b L -> rule_at f i = b ++ mkElem RULE_REF i :: [mkElem ALT 0; mkElem END 0] -> forall w, gen_rule (rules f) (rule_at f i) w <-> times 0 None L w.
Proof.
  intros Hs Hr w. assert (Hv : vlookup (rules f) i = Some (rule_at f i)). { unfold rule_at in *. destruct (vlookup (rules f) i); [done |]. simpl in Hr. by destruct b. }
  split.
  - intros [n Hg]%(proj2 (gen_genh _)). revert w Hg. induction (lt_wf n) as [n _ IH]. intros w Hg. rewrite Hr in Hg.
    remember (b ++ mkElem RULE_REF i :: [mkElem ALT 0; mkElem END 0]) as r eqn:Er. destruct Hg as [n r w Hg | n a e r w Ha He Hg]; subst.
    + destruct (sg_fwd _ _ _ Hs n (mkElem RULE_REF i :: [mkElem ALT 0; mkElem END 0]) w ltac:(by apply leads_one) Hg) as (u & v & -> & Hu & Hg').
      remember (mkElem RULE_REF i :: [mkElem ALT 0; mkElem END 0]) as l eqn:El. destruct Hg' as [n x y Hx | n x y k c w Hx | n x y r' w1 w2 Hx Hr' Hg1 Hg2]; injection El as -> ->; [done | done |].
      simpl in Hr'. rewrite Hv in Hr'. injection Hr' as <-. destruct (IH n ltac:(lia) w1 Hg1) as (k & _ & _ & Hk).
      assert (w2 = []) as -> by (eapply gen_end_inv; [| exact (proj1 (genh_gen _) _ _ _ Hg2)]; done). rewrite app_nil_r. exists (S k). split_and!; [lia | done |]. by exists u, w1.
    + assert (a = b ++ [mkElem RULE_REF i] /\ r = [mkElem END 0]) as [-> ->].
      { revert Er. assert (Hp : plain_elems (b ++ [mkElem RULE_REF i])) by (apply Forall_app; split; [apply Hs | repeat constructor]).
        replace (b ++ mkElem RULE_REF i :: [mkElem ALT 0; mkElem END 0]) with ((b ++ [mkElem RULE_REF i]) ++ mkElem ALT 0 :: [mkElem END 0]) by (by rewrite <- app_assoc).
        generalize (b ++ [mkElem RULE_REF i]) Hp. clear -Ha He. intros c Hc. revert c Hc. induction Ha as [| x a Hx Ha IH]; intros [| y c] Hc E; simpl in E; simplify_eq; try done.
        - apply Forall_cons in Hc as [Hc _]. by rewrite He in Hc.
        - apply Forall_cons in Hc as [_ Hc]. destruct (IH c Hc) as [-> ->]; done. }
      assert (w = []) as -> by (exact (proj1 (gen_rule_end _ [] eps w (seg_nil _)) (proj2 (genh_gen _) _ _ _ Hg))). exists 0%nat. split_and!; [lia | done | done].
  - intros (n & _ & _ & Hw). revert w Hw. induction n as [| n IH]; intros w Hw.
    + rewrite Hr. replace (b ++ mkElem RULE_REF i :: [mkElem ALT 0; mkElem END 0]) with ((b ++ [mkElem RULE_REF i]) ++ mkElem ALT 0 :: [mkElem END 0]) by (by rewrite <- app_assoc).
      apply (gen_rule_alt _ _ _ _ _ (seg_cat _ _ _ _ _ Hs (seg_ref f i))). right. apply (gen_rule_end _ [] eps w (seg_nil _)). exact Hw.
    + rewrite Hr. replace (b ++ mkElem RULE_REF i :: [mkElem ALT 0; mkElem END 0]) with ((b ++ [mkElem RULE_REF i]) ++ mkElem ALT 0 :: [mkElem END 0]) by (by rewrite <- app_assoc).
      apply (gen_rule_alt _ _ _ _ _ (seg_cat _ _ _ _ _ Hs (seg_ref f i))). left. destruct Hw as (u & v & -> & Hu & Hv'). exists u, v. split_and!; [done | done |]. by apply IH.
Qed.
