(* ===== verification/GrammarReads.v ===== *)
(** * Parsing a grammar text: every function of the parser reads its part and gives it its meaning *)

From S2P Require Import Prelude Text Utf8 GrammarParse GrammarParseFacts GrammarParseProps GrammarMatch GrammarSem GrammarText GrammarAdvance GrammarMeans.

(** ** Rules for generated symbols *)
Lemma n_symbols_add i r p : n_symbols (add_rule i r p) = n_symbols p.
Proof. done. Qed.
Lemma add_tidy i r p : tidy p -> 0 <= i < n_symbols p -> tidy (add_rule i r p).
Proof.
  intros [H1 H2 H3 H4 H5] Hi. split; [done | done | done | | done]. rewrite n_symbols_add. unfold add_rule. cbn [rules]. rewrite Zlen_vinsert. destruct (Z.leb_spec (Zlen (rules p)) i); [| done].
  rewrite Zlen_app. unfold Zlen at 2. rewrite length_replicate. lia.
Qed.
Lemma generated_steps N n base p q r : tidy p -> no_underscore base -> n_symbols p + 1 + n < 2 ^ 32 -> 0 <= n -> r <> [] -> steps N n (generate_symbol_id base p).2 q ->
  steps N (1 + n) p (add_rule (n_symbols p) r q) /\ upto q (add_rule (n_symbols p) r q) /\ rule_at (add_rule (n_symbols p) r q) (n_symbols p) = r.
Proof.
  intros HT Hn Hb H0 Hr Hs. destruct (generate_tidy p base HT ltac:(lia) Hn) as (_ & HT1 & En & Hg & Er & (k0 & Hk0 & Hu0)). set (p1 := (generate_symbol_id base p).2) in *.
  destruct Hs as [A1 A2 A3 A4 A5 A6]. assert (Hi : 0 <= n_symbols p < n_symbols q) by (unfold n_symbols in *; lia).
  assert (Hr1 : forall j, rule_at p1 j = rule_at p j) by (intros j; unfold rule_at; by rewrite Er).
  assert (Hq : rule_at q (n_symbols p) = []) by (rewrite A4 by lia; rewrite Hr1; by apply rule_at_beyond).
  assert (Ha : forall j, rule_at (add_rule (n_symbols p) r q) j = if decide (n_symbols p = j) then r else rule_at q j) by (intros j; by apply rule_at_add).
  split_and!; [| | rewrite Ha; by case_decide].
  - split; [by etransitivity | by apply add_tidy | rewrite n_symbols_add; lia | | | done].
    + intros i Hlt. rewrite Ha. case_decide; [lia |]. rewrite A4 by lia. apply Hr1.
    + intros k i Hk Hge. rewrite Ha. case_decide as Hd; [| apply A5; [done | lia] ]. subst i. assert (k = k0) as ->; [| split; [done | done] ].
      eapply (td_inj q A2); [exact Hk | by eapply lookup_weaken].
  - split; [exact (reflexivity (R:=grows) q) |]. intros i Hne. rewrite Ha. case_decide; [by subst i | done].
Qed.

(** ** Repetitions *)
Section Repetitions.
Context (base : list Z) (Hbase : no_underscore base).
(** [b] generates [L f] once the parser has become [f] *)
Definition means (p : llama_grammar_parser) (b : llama_grammar_rule) (L : llama_grammar_parser -> language) : Prop := forall f, upto p f -> seg (rules f) b (L f).
Lemma means_later p q b L : upto p q -> means p b L -> means q b L.
Proof. intros Hu H f Hf. apply H. by eapply upto_trans. Qed.

Lemma rec_finite n : forall (first : bool) prev last k L p, tidy p -> n_symbols p + Z.of_nat n < 2 ^ 32 -> means p prev L ->
  (if first then k = 0%nat else means p [mkElem RULE_REF last] (fun f => times 0 (Some k) (L f))) ->
  let r := rec_rules n first false base prev last p in
  steps [] (Z.of_nat n) p r.2 /\ (if first && (n =? 0)%nat then True else means r.2 [mkElem RULE_REF r.1] (fun f => times 0 (Some (k + n)%nat) (L f))).
Proof.
  induction n as [| n IH]; intros first prev last k L p HT Hb Hp Hl; cbn [rec_rules].
  { split; [by apply steps_refl |]. destruct first; [done |]. simpl. by rewrite Nat.add_0_r. }
  destruct (generate_symbol_id base p) as [id p1] eqn:Eg. destruct (generate_tidy p base HT ltac:(lia) Hbase) as (Eid & HT1 & En & Hg & Er & _). rewrite Eg in *. cbn [fst snd] in *. subst id.
  set (rr := prev ++ _ ++ _). assert (Hrr : rr <> []) by (subst rr; intros E; apply (f_equal length) in E; rewrite !length_app in E; simpl in E; lia).
  destruct (generated_steps [] 0 base p p1 rr HT Hbase ltac:(lia) ltac:(lia) Hrr) as (S1 & U1 & R1); [rewrite Eg; by apply steps_refl |].
  assert (U0 : upto p p1) by (split; [done |]; intros i; unfold rule_at; by rewrite Er). set (p2 := add_rule (n_symbols p) rr p1) in *.
  assert (U2 : upto p p2) by (by eapply upto_trans).
  assert (Hm : means p2 [mkElem RULE_REF (n_symbols p)] (fun f => times 0 (Some (S k)) (L f))).
  { intros f Hf. eapply seg_ext; [| apply seg_ref]. intros w. rewrite times_step. assert (Hrf : rule_at f (n_symbols p) = rr) by (rewrite (proj2 Hf), R1; [done | by rewrite R1]). rewrite Hrf. subst rr.
    assert (Hpf : seg (rules f) prev (L f)) by (apply Hp; by eapply upto_trans). destruct first; cbn [negb orb].
    - subst k. cbn [app]. rewrite (gen_rule_alt _ _ _ _ _ Hpf), (gen_rule_end _ [] eps w (seg_nil _)). assert (Hc : cat (L f) (times 0 (Some 0%nat) (L f)) w <-> L f w); [| by rewrite Hc].
      rewrite <- (cat_eps_r (L f) w). apply cat_ext; [done |]. intros u. apply times_zero.
    - replace (prev ++ [mkElem RULE_REF last] ++ [mkElem ALT 0; mkElem END 0]) with ((prev ++ [mkElem RULE_REF last]) ++ mkElem ALT 0 :: [] ++ [mkElem END 0]) by (by rewrite <- app_assoc).
      rewrite (gen_rule_alt _ _ _ _ _ (seg_cat _ _ _ _ _ Hpf (Hl f (upto_trans _ _ _ U2 Hf)))), (gen_rule_end _ [] eps w (seg_nil _)). done. }
  destruct (IH false prev (n_symbols p) (S k) L p2) as [S2 M2]; [apply S1 | unfold p2; rewrite n_symbols_add; lia | by eapply means_later | exact Hm |].
  cbv zeta in *. split; [replace (Z.of_nat (S n)) with (1 + 0 + Z.of_nat n) by lia; exact (steps_trans [] [] _ _ _ _ _ HT S1 S2) |].
  rewrite andb_false_r. cbn [andb] in M2. by replace (k + S n)%nat with (S k + n)%nat by lia.
Qed.
Lemma rec_star prev L p : tidy p -> n_symbols p + 1 < 2 ^ 32 -> means p prev L ->
  let r := rec_rules 1 true true base prev 0 p in steps [] 1 p r.2 /\ means r.2 [mkElem RULE_REF r.1] (fun f => times 0 None (L f)).
Proof.
  intros HT Hb Hp. cbn [rec_rules]. destruct (generate_symbol_id base p) as [id p1] eqn:Eg. destruct (generate_tidy p base HT ltac:(lia) Hbase) as (Eid & HT1 & En & Hg & Er & _). rewrite Eg in *. cbn [fst snd] in *. subst id.
  set (rr := prev ++ _ ++ _). assert (Hrr : rr <> []) by (subst rr; intros E; apply (f_equal length) in E; rewrite !length_app in E; simpl in E; lia).
  destruct (generated_steps [] 0 base p p1 rr HT Hbase ltac:(lia) ltac:(lia) Hrr) as (S1 & U1 & R1); [rewrite Eg; by apply steps_refl |]. split; [done |].
  intros f Hf. eapply seg_ext; [| apply seg_ref]. intros w. apply (star_rule f prev).
  - apply Hp. eapply upto_trans; [| exact Hf]. eapply upto_trans; [| exact U1]. split; [done |]. intros i. unfold rule_at. by rewrite Er.
  - rewrite (proj2 Hf), R1; [done | by rewrite R1].
Qed.
End Repetitions.
Definition max_of (hi : option nat) : Z := match hi with Some hi => Z.of_nat hi | None => UINT64_MAX end.
Definition extra (lo : nat) (hi : option nat) : Z := match hi with Some hi => Z.of_nat (hi - lo) | None => 1 end.
Definition bounds_ok (lo : nat) (hi : option nat) : Prop := match hi with Some hi => (lo <= hi)%nat | None => True end.
Lemma repetition_reads base b np p lo hi L : no_underscore base -> b <> [] -> 1 <= np -> np * most lo hi <= MAX_REPETITION_THRESHOLD -> bounds_ok lo hi -> most lo hi <= MAX_REPETITION_THRESHOLD ->
  tidy p -> n_symbols p + extra lo hi < 2 ^ 32 -> means p b L ->
  exists b' np' p', (forall R, handle_repetitions base (Z.of_nat lo) (max_of hi) (mkSeq (R ++ b) (length R) np) p = Ok (mkSeq (R ++ b') (length R) np', p'))
    /\ steps [] (extra lo hi) p p' /\ means p' b' (fun f => times lo hi (L f)) /\ 1 <= np'.
Proof.
  intros Hbase Hb Hnp Hsmall Hlh Hmost HT Hn Hm. unfold MAX_REPETITION_THRESHOLD in *. set (no_max := max_of hi =? UINT64_MAX).
  assert (Hb1 : (1 <= length b)%nat) by (destruct b; [done | simpl; lia]).
  assert (Eno : no_max = bool_decide (hi = None)) by (subst no_max; destruct hi as [h |]; [rewrite bool_decide_eq_false_2 by done; apply Z.eqb_neq; unfold max_of, most, UINT64_MAX in *; destruct h; lia | done]).
  assert (Hx : exists last p', rec_rules (Z.to_nat (extra lo hi)) true no_max base b 0 p = (last, p') /\ steps [] (extra lo hi) p p' /\
    means p' (if 0 <? extra lo hi then [mkElem RULE_REF last] else []) (fun f => times 0 (match hi with Some hi => Some (hi - lo)%nat | None => None end) (L f))).
  { rewrite Eno. destruct hi as [h |]; simpl extra in *.
    - rewrite Nat2Z.id. destruct (rec_finite base Hbase (h - lo) true b 0 0 L p) as [S1 M1]; [done | lia | done | done |]. destruct (rec_rules (h - lo) true false base b 0 p) as [last p'] eqn:E. rewrite bool_decide_eq_false_2 by done. rewrite E. exists last, p'. split_and!; [done | done |].
      cbn [fst snd andb] in M1. destruct (h - lo)%nat as [| k] eqn:Ek; [| exact M1]. simpl. intros f Hf. eapply seg_ext; [| apply seg_nil]. intros w. rewrite times_zero. done.
    - destruct (rec_star base Hbase b L p) as [S1 M1]; [done | lia | done |]. change (Z.to_nat 1) with 1%nat. rewrite bool_decide_eq_true_2 by done. destruct (rec_rules 1 true true base b 0 p) as [last p'] eqn:E. exists last, p'. done. }
  destruct Hx as (last & p' & Erec & S1 & M1). assert (Hmo : 1 <= most lo hi) by (destruct hi as [ [| h] |]; simpl; lia).
  exists (concat (replicate lo b) ++ (if 0 <? extra lo hi then [mkElem RULE_REF last] else [])), (np * most lo hi), p'. split_and!; [| done | | nia].
  - intros R. unfold handle_repetitions. cbn [sq_rule last_sym_start n_prev_rules]. fold no_max. clearbody no_max. rewrite (proj2 (Nat.eqb_neq _ _)) by (rewrite length_app; lia).
    set (total := if negb no_max && _ then _ else _). assert (Etot : total = most lo hi). { subst total. rewrite Eno. destruct hi as [ [| h] |]; simpl in *; [| done |]; destruct (Z.ltb_spec 0 (Z.of_nat lo)); simpl; lia. } clearbody total. subst total.
    assert (Hu : u64 (np * most lo hi) = np * most lo hi) by (apply u64_small; nia). rewrite Hu. change MAX_REPETITION_THRESHOLD with 2000. rewrite (proj2 (Z.ltb_ge 2000 _)) by lia. rewrite drop_app_length.
    set (rule := if Z.of_nat lo =? 0 then _ else _). assert (Erule : rule = R ++ concat (replicate lo b)).
    { subst rule. destruct lo as [| lo]; simpl; [by rewrite take_app_length, app_nil_r |]. rewrite <- app_assoc. do 3 f_equal. f_equal. lia. } clearbody rule. subst rule.
    set (n_opt := if no_max then 1 else _). assert (Eopt : n_opt = extra lo hi). { subst n_opt. rewrite Eno. destruct hi as [h |]; simpl in *; [| done]. rewrite u64_small; [lia |]. unfold most in *. destruct h; lia. } clearbody n_opt. subst n_opt.
    rewrite Erec. rewrite (proj2 (Z.ltb_ge _ 1)) by nia. do 3 f_equal. rewrite <- !app_assoc. destruct (0 <? extra lo hi); [done | by rewrite app_nil_r].
  - intros f Hf. eapply seg_ext; [| apply seg_cat; [apply seg_power; apply Hm; eapply upto_trans; [by eapply steps_upto | exact Hf] | apply M1; exact Hf] ].
    intros w. rewrite (times_from lo hi). unfold bounds_ok in Hlh. tauto.
Qed.

(** ** Where a text starts and ends *)
Lemma evals_S {A} (f g : nat -> res A) a : (forall n, f (S n) = g n) -> evals g a -> evals f a.
Proof. intros H [n Hn]. exists (S n). intros fuel Hf. destruct fuel as [| fuel]; [lia |]. rewrite H. apply Hn. lia. Qed.
Definition start_char (c : Z) : bool := (c =? quote) || (c =? ch "[") || (c =? ch ".") || (c =? ch "(") || is_word_char c.
Lemma item_start nested x t : item_text nested x t -> exists c u, t = c :: u /\ start_char c = true.
Proof.
  induction 1 as [nested cps t | nested rs t | nested rs t | nested | nested name [Hn Hw] | nested a s t | nested x lo hi t s o _ _ (c & u & -> & Hc)]; try (do 2 eexists; split; [done | done]).
  destruct name as [| c u]; [done |]. exists c, u. split; [done |]. apply Forall_cons in Hw as [Hw _]. unfold start_char. by rewrite Hw, orb_true_r.
Qed.
Lemma start_solid nested c s : start_char c = true -> solid nested (c :: s).
Proof.
  intros H. unfold solid, blank_char. simpl. unfold start_char, is_word_char, is_digit_char, quote in H. change (ch "[") with 91 in H. change (ch ".") with 46 in H. change (ch "(") with 40 in H. change (ch "-") with 45 in H.
  change (ch " ") with 32. change (ch "#") with 35. unfold tab, creturn, newline. split; [destruct nested; lia | lia].
Qed.
(** where a sequence ends *)
Definition end_char (c : Z) : bool := (c =? 0) || (c =? ch "|") || (c =? ch ")") || (c =? newline) || (c =? creturn).
Definition stops (nested : bool) (s : list Z) : Prop := end_char (peek s) = true /\ solid nested s.
Lemma seq_start nested xs t rest : seq_text nested xs t -> (t = [] -> solid nested rest) -> solid nested (t ++ rest).
Proof.
  destruct 1 as [nested | nested x xs t s u Hi]; intros Hr; [by apply Hr |]. destruct (item_start _ _ _ Hi) as (c & v & -> & Hc). by apply start_solid.
Qed.
Lemma alts_start nested l t rest nl : alts_text nested l t -> (t = [] -> solid nl rest) -> solid nl (t ++ rest).
Proof.
  assert (Hs : forall nested xs t, seq_text nested xs t -> t = [] \/ exists c v, t = c :: v /\ start_char c = true).
  { destruct 1 as [| ? x xs t' s u Hi]; [by left | right]. destruct (item_start _ _ _ Hi) as (c & v & -> & Hc). by exists c, (v ++ s ++ u). }
  destruct 1 as [nested a t Ha | nested a l t s u Ha _ _ _]; intros Hr; (destruct (Hs _ _ _ Ha) as [-> | (c & v & -> & Hc)]; [| by apply start_solid]).
  - by apply Hr.
  - simpl. unfold solid, blank_char. simpl. by destruct nl.
Qed.
Lemma blank_word nested s c : blank nested s -> is_word_char c = false -> forall u, peek u = c -> is_word_char (peek (s ++ u)) = false.
Proof.
  intros Hs Hc u Hu. destruct s as [| d s]; simpl; [by rewrite Hu |]. apply Forall_cons in Hs as [Hd _]. unfold blank_char, tab, creturn, newline in Hd. change (ch " ") with 32 in Hd.
  unfold is_word_char, is_digit_char. change (ch "-") with 45. destruct nested; lia.
Qed.
Lemma end_not_word c : end_char c = true -> is_word_char c = false.
Proof. unfold end_char, is_word_char, is_digit_char, newline, creturn. change (ch "|") with 124. change (ch ")") with 41. change (ch "-") with 45. lia. Qed.
Lemma seq_stops vocab base nested st p rest : stops nested rest -> evals (fun fuel => parse_sequence vocab fuel rest base nested st p) (rest, st, p).
Proof.
  intros [He _]. exists 1%nat. intros fuel Hf. destruct fuel as [| fuel]; [lia |]. destruct rest as [| c rest]; [done |]. cbn [parse_sequence peek]. simpl in He. unfold end_char in He.
  change (ch "|") with 124 in He. change (ch ")") with 41 in He. unfold newline, creturn in He. assert (c = 0 \/ c = 124 \/ c = 41 \/ c = 10 \/ c = 13) as [-> | [-> | [-> | [-> | ->]]]] by lia; done.
Qed.

(** ** Names, numbers and repetition signs *)
Lemma skip_reads (P : Z -> bool) s rest : Forall (fun c => P c = true) s -> P (peek rest) = false -> skip_while P (s ++ rest) = rest.
Proof. intros Hs Hr. induction Hs as [| c s Hc _ IH]; simpl; [destruct rest as [| c rest]; [done | simpl in *; by rewrite Hr] | by rewrite Hc]. Qed.
Lemma int_reads n ds rest : digits_text n ds -> is_digit_char (peek rest) = false -> Z.of_nat n <= MAX_REPETITION_THRESHOLD ->
  is_digit_char (peek (ds ++ rest)) = true /\ parse_int (ds ++ rest) = Ok rest /\ stoull (span (ds ++ rest) rest) = Ok (Z.of_nat n).
Proof.
  intros (Hn & Hd & Hv) Hr Hb. unfold MAX_REPETITION_THRESHOLD in Hb. assert (Hp : is_digit_char (peek (ds ++ rest)) = true) by (destruct ds as [| d ds]; [done | by apply Forall_cons in Hd as [Hd _] ]).
  split_and!; [done | |].
  - unfold parse_int. rewrite Hp. by rewrite skip_reads.
  - rewrite span_app. unfold stoull. rewrite Hv. by rewrite (proj2 (Z.ltb_lt _ _)) by lia.
Qed.
Lemma digits_solid nested n ds rest : digits_text n ds -> solid nested (ds ++ rest).
Proof. intros (Hn & Hd & _). destruct ds as [| d ds]; [done |]. apply Forall_cons in Hd as [Hd _]. apply start_solid. unfold start_char, is_word_char. by rewrite Hd, !orb_true_r. Qed.
Lemma space_solid nested s : solid nested s -> parse_space s nested = s.
Proof. intros H. by apply (space_reads nested [] s); [constructor |]. Qed.
Lemma space_none nested c rest : blank_char nested c = false -> c <> ch "#" -> parse_space (c :: rest) nested = c :: rest.
Proof. intros H1 H2. apply (space_reads nested [] (c :: rest)); [constructor | done]. Qed.
Lemma bounds_reads nested lo hi o s rest : op_text nested lo hi (ch "{" :: o) -> Z.of_nat lo <= MAX_REPETITION_THRESHOLD -> most lo hi <= MAX_REPETITION_THRESHOLD -> blank nested s -> solid nested rest ->
  parse_bounds nested (parse_space (o ++ s ++ rest) nested) = Ok (Z.of_nat lo, max_of hi, rest).
Proof.
  intros Ho Hlo Hmost Hs Hr. assert (Hb : blank_char nested (ch "}") = false /\ blank_char nested (ch ",") = false) by (by destruct nested). destruct Hb as [Hb1 Hb2].
  assert (Hsp : parse_space (s ++ rest) nested = rest) by (by apply space_reads).
  assert (Hmin : (MAX_REPETITION_THRESHOLD <? Z.of_nat lo) = false) by (apply Z.ltb_ge; lia).
  assert (Hmax : forall h : nat, Z.of_nat h <= MAX_REPETITION_THRESHOLD -> (if negb (Z.of_nat h =? UINT64_MAX) && (MAX_REPETITION_THRESHOLD <? Z.of_nat h) then UINT64_MAX else Z.of_nat h) = Z.of_nat h).
  { intros h Hh. rewrite (proj2 (Z.ltb_ge MAX_REPETITION_THRESHOLD (Z.of_nat h))) by lia. by rewrite andb_false_r. }
  inversion Ho as [| | | lo' ds Hd | lo' ds Hd | lo' h ds es Hd He Hle]; subst.
  - rewrite <- app_assoc. rewrite (space_solid nested _ (digits_solid nested lo ds _ Hd)). simpl app. destruct (int_reads lo ds (ch "}" :: s ++ rest) Hd ltac:(done) Hlo) as (E1 & E2 & E3).
    unfold parse_bounds. rewrite E1, E2. cbn [negb rbind]. rewrite E3. cbn [rbind]. rewrite space_none by done. cbn [peek drop]. rewrite Z.eqb_refl. cbn [rbind]. rewrite ?drop_0, Hsp, Hmin. by rewrite andb_false_r.
  - rewrite <- app_assoc. rewrite (space_solid nested _ (digits_solid nested lo ds _ Hd)). simpl app. destruct (int_reads lo ds (ch "," :: ch "}" :: s ++ rest) Hd ltac:(done) Hlo) as (E1 & E2 & E3).
    unfold parse_bounds. rewrite E1, E2. cbn [negb rbind]. rewrite E3. cbn [rbind]. rewrite space_none by done. cbn [peek drop]. rewrite (proj2 (Z.eqb_neq (ch ",") (ch "}"))), Z.eqb_refl by done. rewrite ?drop_0, space_none by done. cbn [peek].
    change (is_digit_char (ch "}")) with false. cbn [rbind]. unfold expect. cbn [peek drop]. rewrite Z.eqb_refl. cbn [rbind]. rewrite ?drop_0, Hsp, Hmin. done.
  - rewrite <- app_assoc. rewrite (space_solid nested _ (digits_solid nested lo ds _ Hd)). simpl app. rewrite <- app_assoc. simpl app. destruct (int_reads lo ds (ch "," :: es ++ ch "}" :: s ++ rest) Hd ltac:(done) Hlo) as (E1 & E2 & E3).
    assert (Hh : Z.of_nat h <= MAX_REPETITION_THRESHOLD) by (unfold most in Hmost; destruct h; [done | lia]). destruct (int_reads h es (ch "}" :: s ++ rest) He ltac:(done) Hh) as (F1 & F2 & F3).
    unfold parse_bounds. rewrite E1, E2. cbn [negb rbind]. rewrite E3. cbn [rbind]. rewrite space_none by done. cbn [peek drop]. rewrite (proj2 (Z.eqb_neq (ch ",") (ch "}"))), Z.eqb_refl by done. rewrite ?drop_0, (space_solid nested _ (digits_solid nested h es _ He)).
    rewrite F1, F2. cbn [rbind]. rewrite F3. cbn [rbind]. rewrite space_none by done. unfold expect. cbn [peek drop]. rewrite Z.eqb_refl. cbn [rbind]. rewrite ?drop_0, Hsp, Hmin. by rewrite Hmax.
Qed.
Lemma op_reads vocab base nested lo hi o s rest fuel st p : op_text nested lo hi o -> Z.of_nat lo <= MAX_REPETITION_THRESHOLD -> most lo hi <= MAX_REPETITION_THRESHOLD -> blank nested s -> solid nested rest ->
  parse_sequence vocab (S fuel) (o ++ s ++ rest) base nested st p = let! (st, p) := handle_repetitions base (Z.of_nat lo) (max_of hi) st p in parse_sequence vocab fuel rest base nested st p.
Proof.
  intros Ho Hlo Hmost Hs Hr. assert (Hsp : parse_space (s ++ rest) nested = rest) by (by apply space_reads).
  assert (Hbr : forall o', o = ch "{" :: o' -> parse_sequence vocab (S fuel) (o ++ s ++ rest) base nested st p = let! (st, p) := handle_repetitions base (Z.of_nat lo) (max_of hi) st p in parse_sequence vocab fuel rest base nested st p).
  { intros o' ->. transitivity (let! (mn, mx, pos) := parse_bounds nested (parse_space (o' ++ s ++ rest) nested) in let! (st, p) := handle_repetitions base mn mx st p in parse_sequence vocab fuel pos base nested st p); [reflexivity |].
    rewrite (bounds_reads nested lo hi o' s rest) by done. reflexivity. }
  destruct Ho; try (by eapply Hbr); cbn [max_of].
  - transitivity (let! (st, p) := handle_repetitions base 0 UINT64_MAX st p in parse_sequence vocab fuel (parse_space (s ++ rest) nested) base nested st p); [reflexivity | by rewrite Hsp].
  - transitivity (let! (st, p) := handle_repetitions base 1 UINT64_MAX st p in parse_sequence vocab fuel (parse_space (s ++ rest) nested) base nested st p); [reflexivity | by rewrite Hsp].
  - transitivity (let! (st, p) := handle_repetitions base 0 1 st p in parse_sequence vocab fuel (parse_space (s ++ rest) nested) base nested st p); [reflexivity | by rewrite Hsp].
Qed.

(** ** Items, sequences and alternatives *)
Section Read.
Context (vocab : option (list Z -> list Z)) (base : list Z) (Hbase : no_underscore base).
Definition weight_seq (s : list gx) : Z := foldr Z.add 0 (map weight s).
Definition mentions_seq (s : list gx) : list (list Z) := concat (map mentions s).
Definition mentions_alts (a : list (list gx)) : list (list Z) := concat (map mentions_seq a).

Definition reads_item (nested : bool) (x : gx) (t : list Z) : Prop := forall p, modest x = true -> tidy p -> n_symbols p + weight x < 2 ^ 32 ->
  exists b np q, steps (mentions x) (weight x) p q /\ means q b (fun f => den (rho f) x) /\ 1 <= np /\ (base_item x = true -> b <> [] /\ np <= Z.max 1 (weight x)) /\
    forall st s rest out, blank nested s -> solid nested rest -> apart t (s ++ rest) ->
      evals (fun fuel => parse_sequence vocab fuel rest base nested (mkSeq (sq_rule st ++ b) (length (sq_rule st)) np) q) out ->
      evals (fun fuel => parse_sequence vocab fuel (t ++ s ++ rest) base nested st p) out.
Definition reads_seq (nested : bool) (xs : list gx) (t : list Z) : Prop := forall p, forallb modest xs = true -> tidy p -> n_symbols p + weight_seq xs < 2 ^ 32 ->
  exists b q, steps (mentions_seq xs) (weight_seq xs) p q /\ means q b (fun f => den_seq (rho f) xs) /\
    forall st rest, stops nested rest -> exists st', sq_rule st' = sq_rule st ++ b /\ evals (fun fuel => parse_sequence vocab fuel (t ++ rest) base nested st p) (rest, st', q).
Definition reads_alts (nested : bool) (l : list (list gx)) (t : list Z) : Prop := forall p, forallb (forallb modest) l = true -> tidy p -> n_symbols p + weight_alts l < 2 ^ 32 ->
  exists bs q, steps (mentions_alts l) (weight_alts l) p q /\ (forall f, upto q f -> Forall2 (seg (rules f)) bs (map (den_seq (rho f)) l)) /\ bs <> [] /\
    forall R rest, stops nested rest -> peek rest <> ch "|" ->
      evals (fun fuel => let! (pos, st, p) := parse_sequence vocab fuel (t ++ rest) base nested (mkSeq R (length R) 1) p in alternates_loop vocab fuel pos base nested (sq_rule st) p) (rest, R ++ join_alts bs, q).

Lemma weight_nonneg x : 0 <= weight x.
Proof.
  revert x. fix IH 1. intros [| | | | a | x lo hi]; simpl; try lia.
  - assert (H : 0 <= foldr Z.add 0 (map (fun s => foldr Z.add 0 (map weight s)) a)); [| lia]. induction a as [| s a IHa]; simpl; [lia |].
    assert (0 <= foldr Z.add 0 (map weight s)); [| lia]. induction s as [| x s IHs]; simpl; [lia |]. specialize (IH x). lia.
  - specialize (IH x). destruct hi; lia.
Qed.
Lemma weight_seq_nonneg s : 0 <= weight_seq s.
Proof. unfold weight_seq. induction s as [| x s IH]; simpl; [lia |]. pose proof (weight_nonneg x). lia. Qed.
Lemma weight_alts_nonneg a : 0 <= weight_alts a.
Proof. unfold weight_alts. induction a as [| s a IH]; simpl; [lia |]. pose proof (weight_seq_nonneg s). unfold weight_seq in *. lia. Qed.

(** an item that adds no symbol *)
Lemma plain_item nested x t b (body_ne : base_item x = true -> b <> []) : weight x = 0 -> mentions x = [] -> (forall f, seg (rules f) b (den (rho f) x)) ->
  (forall fuel st p s rest, blank nested s -> solid nested rest ->
     parse_sequence vocab (S fuel) (t ++ s ++ rest) base nested st p = parse_sequence vocab fuel rest base nested (mkSeq (sq_rule st ++ b) (length (sq_rule st)) 1) p) ->
  reads_item nested x t.
Proof.
  intros Hw Hm Hs Hp p _ HT _. exists b, 1, p. rewrite Hw, Hm. split_and!; [by apply steps_refl | intros f _; apply Hs | lia | intros Hb; split; [by apply body_ne | lia] |].
  intros st s rest out Hb Hr _ He. eapply evals_S; [| exact He]. intros fuel. by apply Hp.
Qed.
Lemma read_lit nested cps t : chars_text quote cps t -> reads_item nested (GLit cps) (quote :: t ++ [quote]).
Proof.
  intros Ht. apply (plain_item nested _ _ (mkElem CHAR <$> cps)); [by destruct cps | done | done | intros f; apply seg_chars |]. intros fuel st p s rest Hs Hr.
  transitivity (let! (pos, rule) := literal_loop (length (quote :: (t ++ [quote]) ++ s ++ rest)) ((t ++ [quote]) ++ s ++ rest) (sq_rule st) in
    parse_sequence vocab fuel (parse_space (drop 1 pos) nested) base nested (mkSeq rule (length (sq_rule st)) 1) p); [reflexivity |].
  rewrite <- (app_assoc t [quote]). cbn [app]. rewrite (literal_reads cps t Ht); [| apply chars_text_length in Ht; simpl; rewrite length_app; lia]. cbn [rbind drop]. rewrite drop_0. by rewrite space_reads.
Qed.
Lemma read_class nested (neg : bool) rs t : rs <> [] -> class_text rs t -> (neg = false -> peek t <> ch "^") -> reads_item nested (GClass neg rs) (ch "[" :: (if neg then [ch "^"] else []) ++ t ++ [ch "]"]).
Proof.
  intros Hn Ht Hp. set (ty := if neg then CHAR_NOT else CHAR). destruct (class_reads rs t Ht ty ty) as (es & Hes & E).
  apply (plain_item nested _ _ es); [by destruct Hes | done | done | intros f; by apply seg_class |]. intros fuel st p s rest Hs Hr.
  transitivity (let! (pos, rule) := class_loop (S (length (t ++ [ch "]"] ++ s ++ rest))) ty (length (sq_rule st)) (t ++ ch "]" :: s ++ rest) (sq_rule st) in
    parse_sequence vocab fuel (parse_space (drop 1 pos) nested) base nested (mkSeq rule (length (sq_rule st)) 1) p).
  - subst ty. destruct neg; cbn [app]; rewrite <- app_assoc; cbn [app]; [reflexivity |]. cbn [parse_sequence peek]. change (drop 1 (ch "[" :: t ++ ch "]" :: s ++ rest)) with (drop 0 (t ++ ch "]" :: s ++ rest)). rewrite drop_0.
    assert (Ep : (peek (t ++ ch "]" :: s ++ rest) =? ch "^") = false) by (destruct t; [done | apply Z.eqb_neq; by apply Hp]). rewrite Ep. reflexivity.
  - rewrite E; [| rewrite length_app; lia | lia | by rewrite (proj2 (Nat.ltb_ge _ _)) by lia]. cbn [rbind drop]. rewrite drop_0. by rewrite space_reads.
Qed.
Lemma read_any nested : reads_item nested GAny [ch "."].
Proof.
  apply (plain_item nested _ _ [mkElem CHAR_ANY 0]); [done | done | done | intros f; apply seg_any |]. intros fuel st p s rest Hs Hr.
  transitivity (parse_sequence vocab fuel (parse_space (s ++ rest) nested) base nested (mkSeq (sq_rule st ++ [mkElem CHAR_ANY 0]) (length (sq_rule st)) 1) p); [reflexivity |]. by rewrite space_reads.
Qed.
Lemma rho_later q f name i : symbol_ids q !! name = Some i -> upto q f -> forall w, rho f name w <-> gen_rule (rules f) (rule_at f i) w.
Proof.
  intros Hi [Hg _] w. assert (symbol_ids f !! name = Some i) by (by eapply lookup_weaken). unfold rho. split; [intros (j & Hj & Hw); congruence | intros Hw; by exists i].
Qed.
Lemma read_ref nested name : word name -> reads_item nested (GRef name) name.
Proof.
  intros [Hn Hw] p _ HT Hb. simpl in Hb. assert (Hu : no_underscore name) by (by apply word_no_underscore). destruct (get_symbol_steps p name HT ltac:(lia) Hu) as (S1 & E1 & Er).
  set (r := get_symbol_id name p) in *. exists [mkElem RULE_REF r.1], 1, r.2. split_and!; [exact S1 | | lia | simpl; intros _; split; [done | lia] |].
  - intros f Hf. eapply seg_ext; [| apply seg_ref]. intros w. symmetry. by eapply rho_later.
  - intros st s rest out Hs Hr Ha He. eapply evals_S; [| exact He]. intros fuel. destruct name as [| c name]; [done |]. pose proof Hw as [Hc _]%Forall_cons.
    assert (Ha' : is_word_char (peek (s ++ rest)) = false). { unfold apart in Ha. destruct (last (c :: name)) as [d |] eqn:El; [| by apply last_None in El]. apply Ha. apply last_Some_elem_of in El. by eapply (proj1 (Forall_forall _ _) Hw). }
    assert (Ename : parse_name ((c :: name) ++ s ++ rest) = Ok (s ++ rest)) by (unfold parse_name; rewrite (skip_reads is_word_char (c :: name) (s ++ rest)) by done; cbn [app peek]; by rewrite Hc).
    transitivity (let! name_end := parse_name ((c :: name) ++ s ++ rest) in let '(i, p) := get_symbol_id (span ((c :: name) ++ s ++ rest) name_end) p in
      parse_sequence vocab fuel (parse_space name_end nested) base nested (mkSeq (sq_rule st ++ [mkElem RULE_REF i]) (length (sq_rule st)) 1) p).
    + cbn [app parse_sequence peek]. unfold is_word_char, is_digit_char in Hc. change (ch "-") with 45 in Hc. rewrite (proj2 (Z.eqb_neq c 0)), (proj2 (Z.eqb_neq c quote)), (proj2 (Z.eqb_neq c (ch "["))), (proj2 (Z.eqb_neq c (ch "<"))), (proj2 (Z.eqb_neq c (ch "!"))) by (unfold quote; change (ch "[") with 91; change (ch "<") with 60; change (ch "!") with 33; lia).
      cbn [orb]. assert (Hc' : is_word_char c = true) by exact Hc. by rewrite Hc'.
    + rewrite Ename. cbn [rbind]. rewrite span_app. fold r. destruct r as [i q]. cbn [fst snd]. by rewrite space_reads.
Qed.
Lemma group_reads a s t p : blank true s -> alts_text true a t -> reads_alts true a t -> forallb (forallb modest) a = true -> tidy p -> n_symbols p + 1 + weight_alts a < 2 ^ 32 ->
  exists bs q, let q' := add_rule (n_symbols p) (join_alts bs ++ [mkElem END 0]) q in steps (mentions_alts a) (1 + weight_alts a) p q' /\ n_symbols q' = n_symbols q /\
    (forall f, upto q' f -> forall w, gen_rule (rules f) (rule_at f (n_symbols p)) w <-> den_alts (rho f) a w) /\
    forall rest, evals (fun fuel => parse_alternates vocab fuel (parse_space (s ++ t ++ ch ")" :: rest) true) base (n_symbols p) true (generate_symbol_id base p).2) (ch ")" :: rest, q').
Proof.
  intros Hs Ht IH Hm HT Hn. pose proof (weight_alts_nonneg a). destruct (generate_tidy p base HT ltac:(lia) Hbase) as (Eid & HT1 & En & Hg & Er & _).
  destruct (IH (generate_symbol_id base p).2 Hm HT1 ltac:(lia)) as (bs & q & S1 & M1 & Hbs & E1). exists bs, q. cbv zeta.
  assert (Hr : join_alts bs ++ [mkElem END 0] <> []) by (intros E; apply (f_equal length) in E; rewrite length_app in E; simpl in E; lia).
  destruct (generated_steps (mentions_alts a) (weight_alts a) base p q _ HT Hbase ltac:(lia) ltac:(lia) Hr S1) as (S2 & U2 & R2). split_and!; [done | done | |].
  - intros f Hf w. rewrite (proj2 Hf), R2 by (by rewrite R2). apply gen_rule_join; [| done]. apply M1. by eapply upto_trans.
  - intros rest. assert (Hst : stops true (ch ")" :: rest)) by (split; [done |]; split; done). rewrite space_reads by (done || (eapply alts_start; [exact Ht | intros ->; apply Hst])).
    specialize (E1 [] (ch ")" :: rest) Hst ltac:(done)). set (id := n_symbols p). eapply (evals_S _ (fun fuel => let! (pos, rule, p) := (let! (pos, st, p) := parse_sequence vocab fuel (t ++ ch ")" :: rest) base true (mkSeq [] 0 1) (generate_symbol_id base p).2 in
        alternates_loop vocab fuel pos base true (sq_rule st) p) in Ok (pos, add_rule id (rule ++ [mkElem END 0]) p))); [| eapply evals_bind; [exact E1 |]; apply evals_const].
    intros fuel. cbn [parse_alternates]. by destruct (parse_sequence _ _ _ _ _ _ _) as [ [ [? ?] ?] |].
Qed.
Lemma read_group nested a s t : blank true s -> alts_text true a t -> reads_alts true a t -> reads_item nested (GGroup a) (ch "(" :: s ++ t ++ [ch ")"]).
Proof.
  intros Hs Ht IH p Hm HT Hn. change (weight (GGroup a)) with (1 + weight_alts a) in *. change (mentions (GGroup a)) with (mentions_alts a).
  destruct (group_reads a s t p Hs Ht IH Hm HT ltac:(lia)) as (bs & q & Hq). set (q' := add_rule _ _ q) in Hq. destruct Hq as (S1 & En & M1 & E1).
  pose proof (sp_count _ _ _ _ S1) as Hc. pose proof (weight_alts_nonneg a). assert (0 <= n_symbols p) by (unfold n_symbols; lia).
  exists [mkElem RULE_REF (n_symbols p)], (Z.max 1 (n_symbols q' - n_symbols p)), q'. split_and!; [done | | lia | intros _; split; [done | lia] |].
  - intros f Hf. eapply seg_ext; [| apply seg_ref]. intros w. by rewrite M1.
  - intros st s' rest out Hs' Hr _ He. eapply (evals_S _ (fun fuel => let! (pos, p2) := parse_alternates vocab fuel (parse_space (s ++ t ++ ch ")" :: s' ++ rest) true) base (n_symbols p) true (generate_symbol_id base p).2 in
       let n_prev := Z.max 1 (u32 (u32 (n_symbols p2) - n_symbols p)) in let! pos := expect (ch ")") "expecting ')'" pos in
       parse_sequence vocab fuel (parse_space pos nested) base nested (mkSeq (sq_rule st ++ [mkElem RULE_REF (n_symbols p)]) (length (sq_rule st)) n_prev) p2)).
    + intros fuel. cbn [app]. rewrite <- !app_assoc. cbn [app]. destruct (generate_tidy p base HT ltac:(lia) Hbase) as (Eid & _). cbn [parse_sequence peek]. change (drop 1 (ch "(" :: s ++ t ++ ch ")" :: s' ++ rest)) with (drop 0 (s ++ t ++ ch ")" :: s' ++ rest)). rewrite drop_0.
      rewrite (u32_small (n_symbols p)) by lia. destruct (generate_symbol_id base p) as [id p1]. cbn [fst snd] in *. subst id. reflexivity.
    + eapply evals_bind; [apply E1 |]. cbv zeta. unfold expect. cbn [peek drop]. rewrite Z.eqb_refl. cbn [rbind]. rewrite drop_0, space_reads by done.
      rewrite (u32_small (n_symbols q')), u32_small by lia. exact He.
Qed.
Lemma read_rep nested x lo hi t s o : base_item x = true -> reads_item nested x t -> blank nested s -> op_text nested lo hi o -> reads_item nested (GRep x lo hi) (t ++ s ++ o).
Proof.
  intros Hx IH Hs Ho p Hm HT Hn. cbn [modest weight mentions] in *. apply andb_prop in Hm as [Hm Hmost]. apply andb_prop in Hm as [Hm Hlo]. apply andb_prop in Hm as [Hm Hsm]. apply Z.leb_le in Hmost, Hlo, Hsm. fold (extra lo hi) in *.
  assert (He : 0 <= extra lo hi) by (unfold extra; destruct hi; lia). assert (Hbo : bounds_ok lo hi) by (unfold bounds_ok; destruct Ho; simpl; lia).
  assert (Hmo : 1 <= most lo hi) by (destruct hi as [ [| h] |]; simpl; lia).
  destruct (IH p Hm HT ltac:(lia)) as (b & np & q & S1 & M1 & Hnp & Hb & E1). destruct (Hb Hx) as [Hbn Hnp']. pose proof (sp_count _ _ _ _ S1) as Hc.
  destruct (repetition_reads base b np q lo hi (fun f => den (rho f) x) Hbase Hbn Hnp ltac:(nia) Hbo Hmost (sp_tidy _ _ _ _ S1) ltac:(lia) M1) as (b' & np' & q' & Er & S2 & M2 & Hnp2).
  exists b', np', q'. split_and!; [rewrite <- (app_nil_r (mentions x)); by eapply steps_trans | exact M2 | done | done |].
  intros st s' rest out Hs' Hr _ He'. rewrite <- !app_assoc. apply E1; [done | | |].
  - destruct Ho; (split; [by destruct nested | done]).
  - unfold apart. destruct (last t); [| done]. intros _. eapply (blank_word nested s (peek (o ++ s' ++ rest))); [done | by destruct Ho | done].
  - eapply evals_S; [intros fuel; by apply (op_reads vocab base nested lo hi o s' rest fuel) |]. cbn [sq_rule last_sym_start]. rewrite Er. cbn [rbind]. exact He'.
Qed.
Lemma read_seq_cons nested x xs t s u : reads_item nested x t -> blank nested s -> apart t (s ++ u) -> seq_text nested xs u -> reads_seq nested xs u -> reads_seq nested (x :: xs) (t ++ s ++ u).
Proof.
  intros IHx Hs Ha Hu IHs p Hm HT Hn. cbn [forallb] in Hm. apply andb_prop in Hm as [Hm1 Hm2]. change (weight_seq (x :: xs)) with (weight x + weight_seq xs) in *. pose proof (weight_seq_nonneg xs).
  destruct (IHx p Hm1 HT ltac:(lia)) as (b & np & q & S1 & M1 & _ & _ & E1). pose proof (sp_count _ _ _ _ S1) as Hc. destruct (IHs q Hm2 (sp_tidy _ _ _ _ S1) ltac:(lia)) as (b' & q' & S2 & M2 & E2).
  exists (b ++ b'), q'. split_and!; [by eapply steps_trans | |].
  - intros f Hf. apply seg_cat; [apply M1; eapply upto_trans; [eapply steps_upto; [apply S1 | exact S2] | exact Hf] | by apply M2].
  - intros st rest Hst. destruct (E2 (mkSeq (sq_rule st ++ b) (length (sq_rule st)) np) rest Hst) as (st' & Er & E2'). exists st'. split; [rewrite Er; cbn [sq_rule]; by rewrite <- app_assoc |].
    rewrite <- !app_assoc. apply E1; [done | eapply seq_start; [exact Hu | intros _; apply Hst] | | exact E2'].
    unfold apart in *. destruct (last t) as [c |]; [| done]. intros Hc'. destruct (s ++ u) as [| d v] eqn:Esu.
    + apply app_eq_nil in Esu as [-> ->]. simpl. apply end_not_word, Hst.
    + rewrite app_assoc, Esu. by apply Ha.
Qed.
Lemma read_alt_more nested a l t s u : seq_text nested a t -> reads_seq nested a t -> blank true s -> alts_text nested l u -> reads_alts nested l u -> (nested = true \/ u <> []) -> reads_alts nested (a :: l) (t ++ ch "|" :: s ++ u).
Proof.
  intros Ht IHa Hs Hu IHl Hne p Hm HT Hn. cbn [forallb] in Hm. apply andb_prop in Hm as [Hm1 Hm2]. change (weight_alts (a :: l)) with (weight_seq a + weight_alts l) in *. pose proof (weight_alts_nonneg l).
  destruct (IHa p Hm1 HT ltac:(lia)) as (b & q & S1 & M1 & E1). pose proof (sp_count _ _ _ _ S1) as Hc. destruct (IHl q Hm2 (sp_tidy _ _ _ _ S1) ltac:(lia)) as (bs & q' & S2 & M2 & Hbs & E2).
  exists (b :: bs), q'. split_and!; [by eapply steps_trans | | done |].
  - intros f Hf. constructor; [apply M1; eapply upto_trans; [eapply steps_upto; [apply S1 | exact S2] | exact Hf] | by apply M2].
  - intros R rest Hst Hbar. assert (Hbst : stops nested (ch "|" :: s ++ u ++ rest)) by (split; [done |]; split; [by destruct nested | done]).
    destruct (E1 (mkSeq R (length R) 1) _ Hbst) as (st' & Er & E1'). cbn [sq_rule] in Er. rewrite <- app_assoc. cbn [app]. rewrite <- app_assoc. eapply evals_bind; [exact E1' |].
    cbv beta iota. rewrite Er. replace (R ++ join_alts (b :: bs)) with (((R ++ b) ++ [mkElem ALT 0]) ++ join_alts bs) by (destruct bs; [done |]; by rewrite <- !app_assoc).
    eapply evals_S; [| apply (E2 ((R ++ b) ++ [mkElem ALT 0]) rest Hst Hbar)]. intros fuel. cbn [alternates_loop peek]. rewrite Z.eqb_refl. change (drop 1 (ch "|" :: s ++ u ++ rest)) with (drop 0 (s ++ u ++ rest)). rewrite drop_0.
    rewrite space_reads; [done | done |]. eapply alts_start; [exact Hu |]. intros ->. destruct Hne as [-> | Hne]; [apply Hst | done].
Qed.
Lemma read_texts : (forall nested x t, item_text nested x t -> reads_item nested x t) /\ (forall nested xs t, seq_text nested xs t -> reads_seq nested xs t) /\ (forall nested l t, alts_text nested l t -> reads_alts nested l t).
Proof.
  assert (G : (forall nested x t, item_text nested x t -> item_text nested x t /\ reads_item nested x t) /\ (forall nested xs t, seq_text nested xs t -> seq_text nested xs t /\ reads_seq nested xs t) /\ (forall nested l t, alts_text nested l t -> alts_text nested l t /\ reads_alts nested l t)); [| naive_solver].
  apply (text_mind (fun nested x t => item_text nested x t /\ reads_item nested x t) (fun nested xs t => seq_text nested xs t /\ reads_seq nested xs t) (fun nested l t => alts_text nested l t /\ reads_alts nested l t)).
  - intros nested cps t Ht. split; [by constructor | by apply read_lit].
  - intros nested rs t Hn Ht Hp. split; [by constructor |]. by apply (read_class nested false).
  - intros nested rs t Hn Ht. split; [by constructor |]. by apply (read_class nested true).
  - intros nested. split; [by constructor | apply read_any].
  - intros nested name Hw. split; [by constructor | by apply read_ref].
  - intros nested a s t Hs _ [Ht IH]. split; [by constructor | by apply read_group].
  - intros nested x lo hi t s o Hx _ [Ht IH] Hs Ho. split; [by constructor | by apply read_rep].
  - intros nested. split; [constructor |]. intros p _ HT _. exists [], p. split_and!; [by apply steps_refl | intros f _; apply seg_nil |].
    intros st rest Hst. exists st. rewrite app_nil_r. split; [done | by apply seq_stops].
  - intros nested x xs t s u _ [Ht IHx] Hs Ha _ [Hu IHs]. split; [by constructor | by apply read_seq_cons].
  - intros nested a t _ [Ht IH]. split; [by constructor |]. intros p Hm HT Hn. cbn [forallb] in Hm. rewrite andb_true_r in Hm. unfold weight_alts in *. simpl in Hn |- *. rewrite Z.add_0_r in *. fold (weight_seq a) in *.
    destruct (IH p Hm HT Hn) as (b & q & S1 & M1 & E1). exists [b], q. split_and!; [unfold mentions_alts; simpl; by rewrite app_nil_r | | done |].
    + intros f Hf. constructor; [by apply M1 | constructor].
    + intros R rest Hst Hbar. destruct (E1 (mkSeq R (length R) 1) rest Hst) as (st' & Er & E1'). eapply evals_bind; [exact E1' |]. cbn [sq_rule] in Er. cbv beta iota. rewrite Er. eapply evals_S; [| apply evals_const]. intros fuel. cbn [alternates_loop]. by rewrite (proj2 (Z.eqb_neq _ _) Hbar).
  - intros nested a l t s u _ [Ht IHa] Hs _ [Hu IHl] Hne. split; [by constructor | by apply read_alt_more].
Qed.
End Read.
