(* ===== verification/GrammarTextProps.v ===== *)
(** * Grammar texts parse, and every rule generates what its text means *)

From S2P Require Import Prelude Text Utf8 GrammarParse GrammarParseFacts GrammarParseProps GrammarMatch GrammarSem GrammarText GrammarCheck GrammarAdvance GrammarMeans GrammarReads.

(** ** More fuel does not change a result *)
Definition below {A} (a b : res A) : Prop := a = Err Fuel \/ a = b.
Lemma below_refl {A} (a : res A) : below a a.
Proof. by right. Qed.
Lemma below_bind {A B} (m m' : res A) (k k' : A -> res B) : below m m' -> (forall x, below (k x) (k' x)) -> below (rbind m k) (rbind m' k').
Proof. intros [-> | ->] H; [by left |]. destruct m' as [x | e]; simpl; [apply H | by right]. Qed.
Section Fuel.
Context (vocab : option (list Z -> list Z)).
Lemma more_fuel fuel : (forall pos name nested st p, below (parse_sequence vocab fuel pos name nested st p) (parse_sequence vocab (S fuel) pos name nested st p))
  /\ (forall pos name i nested p, below (parse_alternates vocab fuel pos name i nested p) (parse_alternates vocab (S fuel) pos name i nested p))
  /\ (forall pos name nested rule p, below (alternates_loop vocab fuel pos name nested rule p) (alternates_loop vocab (S fuel) pos name nested rule p)).
Proof.
  induction fuel as [| fuel (IH1 & IH2 & IH3)]; [split_and!; intros; by left |]. split_and!.
  - intros pos name nested st p. set (g := S fuel) at 2. cbn [parse_sequence]. subst g.
    repeat match goal with
    | |- below ?a ?a => apply below_refl
    | |- below (if ?c then _ else _) (if ?c then _ else _) => destruct c
    | |- below (rbind ?m _) (rbind ?m _) => apply below_bind; [apply below_refl | intros ?]
    | |- below (rbind (parse_alternates _ _ _ _ _ _ _) _) _ => apply below_bind; [apply IH2 | intros ?]
    | |- below (match ?x with (_, _) => _ end) _ => destruct x
    | |- below (parse_sequence _ _ _ _ _ _ _) _ => apply IH1
    | |- below (let x := ?y in _) _ => cbv zeta
    end.
  - intros pos name i nested p. set (g := S fuel) at 2. cbn [parse_alternates]. subst g. apply below_bind; [apply IH1 |]. intros [ [pos1 st1] p1]. apply below_bind; [apply IH3 |]. intros [ [pos2 r2] p2]. apply below_refl.
  - intros pos name nested rule p. set (g := S fuel) at 2. cbn [alternates_loop]. subst g. destruct (peek pos =? ch "|"); [| apply below_refl]. apply below_bind; [apply IH1 |]. intros [ [pos1 st1] p1]. apply IH3.
Qed.
Lemma enough_fuel pos name i nested p out n : evals (fun fuel => parse_alternates vocab fuel pos name i nested p) out -> parse_alternates vocab n pos name i nested p <> Err Fuel -> parse_alternates vocab n pos name i nested p = Ok out.
Proof.
  intros [m Hm] Hn. assert (H : forall k, parse_alternates vocab (n + k) pos name i nested p = parse_alternates vocab n pos name i nested p).
  { induction k as [| k IH]; [by rewrite Nat.add_0_r |]. rewrite Nat.add_succ_r. destruct (proj1 (proj2 (more_fuel (n + k))) pos name i nested p) as [E | E]; congruence. }
  rewrite <- (H m). apply Hm. lia.
Qed.
End Fuel.

(** ** One rule *)
(** of the names those in [D] have rules, and names are among [N] *)
Record defined (D N : list (list Z)) (p : llama_grammar_parser) : Prop := mkDefined {
  df_tidy : tidy p;
  df_ok : parser_ok p;
  df_word : forall k i, symbol_ids p !! k = Some i -> no_underscore k -> k ∈ N /\ (rule_at p i <> [] <-> k ∈ D);
  df_gen : forall k i, symbol_ids p !! k = Some i -> ~ no_underscore k -> rule_at p i <> [];
  df_names : forall k, k ∈ D -> is_Some (symbol_ids p !! k) }.
Lemma grammar_solid rs u : grammar_text rs u -> solid true u.
Proof.
  destruct 1 as [| r rs line u (s & t & [Hn Hw] & _ & _ & _ & ->) _]; [done |]. destruct (g_name r) as [| c n]; [done |]. apply Forall_cons in Hw as [Hw _]. apply start_solid. unfold start_char. by rewrite Hw, orb_true_r.
Qed.
(** an id that was there before belongs to a name that was there before *)
Lemma steps_old_key ns n p q k j : tidy p -> steps ns n p q -> symbol_ids q !! k = Some j -> j < n_symbols p -> symbol_ids p !! k = Some j.
Proof.
  intros HT S Hk Hj. pose proof (sp_tidy _ _ _ _ S) as HT'. destruct (td_onto p HT j) as [k' Hk']; [pose proof (td_range q HT' k j Hk); lia |].
  assert (symbol_ids q !! k' = Some j) by (eapply lookup_weaken; [exact Hk' | apply S]). by rewrite (td_inj q HT' k k' j).
Qed.
(** a rule for the name [name], which had none, and what its text added *)
Lemma define_name D N ns n p q name i rule : defined D N p -> no_underscore name -> steps ns n p q -> symbol_ids q !! name = Some i -> rule_at q i = [] -> rule <> [] -> parser_ok (add_rule i rule q) ->
  defined (name :: D) (name :: ns ++ N) (add_rule i rule q) /\ upto q (add_rule i rule q).
Proof.
  intros HD Hund S Hi Hqi Hrule Hok. pose proof (df_tidy _ _ _ HD) as HT. pose proof (sp_tidy _ _ _ _ S) as HT'. pose proof (td_range q HT' _ _ Hi) as Hir.
  assert (Ha : forall j, rule_at (add_rule i rule q) j = if decide (i = j) then rule else rule_at q j) by (intros j; apply rule_at_add; [done | lia]).
  split; [split | split; [exact (reflexivity (R:=grows) q) |]; intros j Hj; rewrite Ha; case_decide; [by subst j | done] ].
  - by apply add_tidy.
  - done.
  - intros k j Hk Hku. rewrite Ha. change (symbol_ids q !! k = Some j) in Hk. case_decide as Hd.
    { subst j. assert (k = name) as -> by (by eapply (td_inj q HT')). split; [set_solver |]. split; [set_solver | done]. }
    assert (Hkn : k <> name) by congruence. destruct (Z.lt_ge_cases j (n_symbols p)) as [Hj | Hj].
    + pose proof (steps_old_key _ _ _ _ _ _ HT S Hk Hj) as Hk0. rewrite (sp_old _ _ _ _ S) by done. destruct (df_word _ _ _ HD k j Hk0 Hku) as [H1 H2]. split; [set_solver |]. rewrite H2. set_solver.
    + destruct (sp_new _ _ _ _ S k j Hk Hj) as [H1 _]. destruct (H1 Hku) as [H2 ->]. split; [set_solver |]. split; [done |]. intros HkD. exfalso. apply elem_of_cons in HkD as [? | HkD]; [done |].
      destruct (df_names _ _ _ HD k HkD) as [j' Hj']. pose proof (td_range p HT _ _ Hj') as Hr. assert (symbol_ids q !! k = Some j') by (eapply lookup_weaken; [exact Hj' | apply S]). simplify_eq. lia.
  - intros k j Hk Hku. rewrite Ha. change (symbol_ids q !! k = Some j) in Hk. case_decide; [done |]. destruct (Z.lt_ge_cases j (n_symbols p)) as [Hj | Hj].
    + rewrite (sp_old _ _ _ _ S) by done. eapply df_gen; [done | by eapply steps_old_key | done].
    + by apply (sp_new _ _ _ _ S k j Hk Hj).
  - intros k [-> | HkD]%elem_of_cons; [by exists i |]. destruct (df_names _ _ _ HD k HkD) as [j Hj]. exists j. change (symbol_ids q !! k = Some j). eapply lookup_weaken; [exact Hj | apply S].
Qed.
Lemma defined_mono D D' N N' p : (forall k, k ∈ D <-> k ∈ D') -> N ⊆ N' -> defined D N p -> defined D' N' p.
Proof.
  intros Hd Hs [H1 H2 H3 H4 H5]. split; [done | done | | done |].
  - intros k i Hk Hu. destruct (H3 k i Hk Hu) as [A1 A2]. split; [by apply Hs |]. by rewrite A2.
  - intros k Hk. by apply H5, Hd.
Qed.
Lemma name_solid nested name t : word name -> solid nested (name ++ t) /\ is_word_char (peek (name ++ t)) = true.
Proof.
  intros [Hn Hw]. destruct name as [| c n]; [done |]. apply Forall_cons in Hw as [Hw _]. split; [| done]. apply start_solid. unfold start_char. by rewrite Hw, orb_true_r.
Qed.
(** the line of a rule, once its alternatives are read *)
Lemma line_reads vocab name s t u p q i rule : word name -> blank true s -> solid true (t ++ newline :: u) -> solid true u -> byte_string (t ++ newline :: u) -> parser_ok p ->
  (get_symbol_id name p).1 = i ->
  evals (fun fuel => let! (pos, st, p) := parse_sequence vocab fuel (t ++ newline :: u) name false (mkSeq [] 0 1) (get_symbol_id name p).2 in alternates_loop vocab fuel pos name false (sq_rule st) p) (newline :: u, rule, q) ->
  parse_rule vocab ((name ++ bytes " ::=" ++ s ++ t) ++ newline :: u) p = Ok (u, add_rule i (rule ++ [mkElem END 0]) q).
Proof.
  intros Hw Hs Ht Hu Hby Hok <- He. assert (Hund : no_underscore name) by (apply word_no_underscore, Hw). destruct (get_symbol_id name p) as [i p1] eqn:Eg. cbn [fst snd] in *.
  assert (Epa : parse_alternates vocab (parse_fuel (t ++ newline :: u)) (t ++ newline :: u) name i false p1 = Ok (newline :: u, add_rule i (rule ++ [mkElem END 0]) q)).
  { apply enough_fuel.
    - eapply (evals_S _ (fun fuel => let! (pos, rl, p) := (let! (pos, st, p) := parse_sequence vocab fuel (t ++ newline :: u) name false (mkSeq [] 0 1) p1 in
        alternates_loop vocab fuel pos name false (sq_rule st) p) in Ok (pos, add_rule i (rl ++ [mkElem END 0]) p))); [| eapply evals_bind; [exact He |]; apply evals_const].
      intros fuel. cbn [parse_alternates]. by destruct (parse_sequence _ _ _ _ _ _ _) as [ [ [? ?] ?] |].
    - intros E. assert (Hok1 : parser_ok p1) by (pose proof (get_symbol_id_ok name p Hund Hok) as Hg; rewrite Eg in Hg; apply Hg).
      pose proof (proj1 (proj2 (parse_specs vocab (parse_fuel (t ++ newline :: u)))) (t ++ newline :: u) name i false p1 ltac:(unfold parse_fuel; lia) Hby Hund Hok1) as Hsafe. by rewrite E in Hsafe. }
  rewrite <- !app_assoc. unfold parse_rule, parse_name. rewrite (skip_reads is_word_char name) by (done || apply Hw). rewrite (proj2 (name_solid false name _ Hw)). cbn [rbind].
  rewrite span_app, Eg. assert (Esp : parse_space (bytes " ::=" ++ s ++ t ++ newline :: u) false = bytes "::=" ++ s ++ t ++ newline :: u) by reflexivity. rewrite Esp. cbn [negb].
  change (drop 3 (bytes "::=" ++ s ++ t ++ newline :: u)) with (s ++ t ++ newline :: u). rewrite space_reads by done.
  transitivity (let! (pos, p) := parse_alternates vocab (parse_fuel (t ++ newline :: u)) (t ++ newline :: u) name i false p1 in
    let! pos := (if peek pos =? creturn then Ok (drop (if peek_at 1 pos =? newline then 2 else 1) pos) else if peek pos =? newline then Ok (drop 1 pos) else if negb (peek pos =? 0) then throw! "expecting newline or end" else Ok pos) in
    Ok (parse_space pos true, p)); [reflexivity |].
  rewrite Epa. cbn [rbind]. transitivity (Ok (parse_space u true, add_rule i (rule ++ [mkElem END 0]) q) : res (list Z * llama_grammar_parser)); [reflexivity |]. by rewrite (space_solid true u).
Qed.
Lemma rule_reads vocab r line rs u p D N : rule_text r line -> grammar_text rs u -> byte_string (line ++ newline :: u) -> forallb (forallb modest) (g_alts r) = true -> defined D N p -> g_name r ∉ D ->
  n_symbols p + 1 + weight_alts (g_alts r) < 2 ^ 32 ->
  exists i q, parse_rule vocab (line ++ newline :: u) p = Ok (u, q) /\ defined (g_name r :: D) (g_name r :: mentions_alts (g_alts r) ++ N) q /\ upto p q /\ n_symbols q <= n_symbols p + 1 + weight_alts (g_alts r) /\
    symbol_ids q !! g_name r = Some i /\ rule_at q i <> [] /\ forall f, upto q f -> forall w, gen_rule (rules f) (rule_at f i) w <-> den_alts (rho f) (g_alts r) w.
Proof.
  intros (s & t & Hw & Hs & Ht & Htn & ->) Hu Hbytes Hm HD HnD Hb. set (name := g_name r) in *. pose proof (df_tidy _ _ _ HD) as HT. assert (Hund : no_underscore name) by (apply word_no_underscore, Hw).
  pose proof (weight_alts_nonneg (g_alts r)) as Hw0. destruct (get_symbol_steps p name HT ltac:(lia) Hund) as (S1 & E1 & Er1). set (i := (get_symbol_id name p).1) in *. set (p1 := (get_symbol_id name p).2) in *.
  pose proof (sp_count _ _ _ _ S1) as Hc1. destruct (proj2 (proj2 (read_texts vocab name Hund)) _ _ _ Ht p1 Hm (sp_tidy _ _ _ _ S1) ltac:(lia)) as (bs & q & S2 & M2 & Hbs & E2).
  pose proof (steps_trans _ _ _ _ _ _ _ HT S1 S2) as S12. pose proof (sp_count _ _ _ _ S12) as Hc. set (rule := join_alts bs ++ [mkElem END 0]). set (q' := add_rule i rule q).
  assert (Hrule : rule <> []) by (subst rule; intros E; apply (f_equal length) in E; rewrite length_app in E; simpl in E; lia).
  assert (Hst : solid true (t ++ newline :: u)) by (eapply alts_start; [exact Ht | done]).
  assert (Hby : byte_string (t ++ newline :: u)) by (eapply byte_string_rest; [| exact Hbytes]; exists (name ++ bytes " ::=" ++ s); by rewrite <- !app_assoc).
  assert (Eparse : parse_rule vocab ((name ++ bytes " ::=" ++ s ++ t) ++ newline :: u) p = Ok (u, q')).
  { apply line_reads; [done | done | done | by eapply grammar_solid | done | apply HD | done |]. apply (E2 []); [split; [done |]; done | done]. }
  assert (Eq : symbol_ids q !! name = Some i) by (eapply lookup_weaken; [exact E1 | apply S2]).
  assert (Hpi : rule_at p i = []).
  { destruct (Z.lt_ge_cases i (n_symbols p)) as [Hi | Hi]; [| by apply rule_at_beyond]. pose proof (steps_old_key _ _ _ _ _ _ HT S1 E1 Hi) as Ep.
    destruct (df_word _ _ _ HD name i Ep Hund) as [_ Hd]. destruct (rule_at p i); [done |]. exfalso. by apply HnD, Hd. }
  assert (Hqi : rule_at q i = []). { rewrite (sp_old _ _ _ _ S2) by apply (td_range p1 (sp_tidy _ _ _ _ S1) _ _ E1). unfold rule_at. rewrite Er1. exact Hpi. }
  assert (Hok : parser_ok q'). { pose proof (parse_rule_safe vocab ((name ++ bytes " ::=" ++ s ++ t) ++ newline :: u) p) as Hsf. rewrite Eparse in Hsf. apply Hsf; [| done | apply HD]. rewrite <- app_assoc. intros E0. pose proof (proj2 (name_solid false name ((bytes " ::=" ++ s ++ t) ++ newline :: u) Hw)) as Hp. rewrite E0 in Hp. done. }
  destruct (define_name D N _ _ p q name i rule HD Hund S12 Eq Hqi Hrule Hok) as [Hd Uq]. fold q' in Hd, Uq.
  assert (Eq' : rule_at q' i = rule) by (unfold q'; rewrite rule_at_add by (apply S2 || apply (td_range q (sp_tidy _ _ _ _ S2) _ _ Eq)); by case_decide).
  exists i, q'. split; [exact Eparse |]. split_and!; [| | unfold q'; rewrite n_symbols_add; lia | done | by rewrite Eq' |].
  - eapply defined_mono; [| | exact Hd]; set_solver.
  - eapply upto_trans; [by eapply steps_upto | exact Uq].
  - intros f Hf w. rewrite (proj2 Hf), Eq' by (by rewrite Eq'). apply gen_rule_join; [| done]. apply M2. by eapply upto_trans.
Qed.

(** ** All rules *)
Definition weights (rs : list gbnf_rule) : Z := foldr Z.add 0 (map (fun r => 1 + weight_alts (g_alts r)) rs).
Definition names (rs : list gbnf_rule) : list (list Z) := map g_name rs.
Definition mentioned (rs : list gbnf_rule) : list (list Z) := concat (map (fun r => mentions_alts (g_alts r)) rs).
Definition modest_rules (rs : list gbnf_rule) : bool := forallb (fun r => forallb (forallb modest) (g_alts r)) rs.
(** the rule of [r] in [p] means what the text of [r] says *)
Definition rule_means (p : llama_grammar_parser) (r : gbnf_rule) : Prop := exists i rule, symbol_ids p !! g_name r = Some i /\ vlookup (rules p) i = Some rule /\ forall w, gen_rule (rules p) rule w <-> den_alts (rho p) (g_alts r) w.
Lemma weights_nonneg rs : 0 <= weights rs.
Proof. induction rs as [| r rs IH]; [done |]. unfold weights in *. simpl. pose proof (weight_alts_nonneg (g_alts r)). lia. Qed.
Lemma rule_at_rule p i : rule_at p i <> [] -> vlookup (rules p) i = Some (rule_at p i).
Proof. unfold rule_at. by destruct (vlookup (rules p) i). Qed.
Lemma rules_read vocab rs u : grammar_text rs u -> forall fuel p D N, (length u < fuel)%nat -> byte_string u -> modest_rules rs = true -> NoDup (names rs) -> (forall k, k ∈ names rs -> k ∉ D) -> defined D N p ->
  n_symbols p + weights rs < 2 ^ 32 ->
  exists q, rules_loop vocab fuel u p = Ok q /\ defined (names rs ++ D) (names rs ++ mentioned rs ++ N) q /\ upto p q /\ Forall (rule_means q) rs.
Proof.
  induction 1 as [| r rs line u Hr Hu IH]; intros fuel p D N Hf Hb Hm Hnd HD Hp Hw.
  { destruct fuel as [| fuel]; [simpl in Hf; lia |]. exists p. split_and!; [done | done | apply upto_refl | constructor]. }
  simpl in Hm. apply andb_prop in Hm as [Hm1 Hm2]. apply NoDup_cons in Hnd as [Hnr Hnd]. unfold weights in Hw. simpl in Hw. fold (weights rs) in Hw. pose proof (weights_nonneg rs).
  destruct (rule_reads vocab r line rs u p D N Hr Hu Hb Hm1 Hp) as (i & q & E & Hq & Upq & Hc & Ei & Hi & M); [apply HD; set_solver | lia |].
  destruct fuel as [| fuel]; [lia |]. destruct (IH fuel q (g_name r :: D) (g_name r :: mentions_alts (g_alts r) ++ N)) as (q' & E' & Hq' & Uq & F); [rewrite length_app in Hf; simpl in Hf; lia | | done | done | | done | lia |].
  { eapply byte_string_rest; [| exact Hb]. exists (line ++ [newline]). by rewrite <- app_assoc. }
  { intros k Hk. assert (k ∉ D) by (apply HD; unfold names in *; simpl; set_solver). intros [-> | ?]%elem_of_cons; [by apply Hnr | done]. }
  assert (Hp0 : peek (line ++ newline :: u) <> 0). { destruct Hr as (s & t & Hw' & _ & _ & _ & ->). rewrite <- app_assoc. intros E0. pose proof (proj2 (name_solid false (g_name r) ((bytes " ::=" ++ s ++ t) ++ newline :: u) Hw')) as Hx. by rewrite E0 in Hx. }
  exists q'. split_and!.
  - cbn [rules_loop]. rewrite (proj2 (Z.eqb_neq _ _) Hp0), E. exact E'.
  - eapply defined_mono; [| | exact Hq']; unfold names, mentioned; simpl; set_solver.
  - by eapply upto_trans.
  - constructor; [| done]. exists i, (rule_at q' i). split_and!; [eapply lookup_weaken; [exact Ei | apply Uq] | apply rule_at_rule; by rewrite (proj2 Uq) | by apply M].
Qed.
(** when all names have rules, the check behind the parser passes *)
Lemma defined_valid D N p : defined D N p -> N ⊆ D -> existsb (rule_invalid p) (rules p) = false.
Proof.
  intros [HT [Hs Hr] Hw Hg _] HN. assert (Hall : forall k i, symbol_ids p !! k = Some i -> rule_at p i <> []).
  { intros k i Hk. destruct (no_underscore_dec k) as [Hu | Hu]; [| by eapply Hg]. destruct (Hw k i Hk Hu) as [H1 H2]. by apply H2, HN. }
  apply not_true_is_false. intros (r & Hin & Hr')%existsb_exists. apply list_elem_of_In in Hin. unfold rule_invalid in Hr'. apply orb_prop in Hr' as [He | He].
  - apply bool_decide_eq_true in He as ->. apply list_elem_of_lookup in Hin as [n Hn]. assert (Hlt : (n < length (rules p))%nat) by (by eapply lookup_lt_Some).
    destruct (td_onto p HT (Z.of_nat n)) as [k Hk]; [pose proof (td_len p HT); unfold Zlen in *; lia |]. apply (Hall k _ Hk). unfold rule_at, vlookup. rewrite (proj2 (Z.leb_le _ _)) by lia. by rewrite Nat2Z.id, Hn.
  - apply existsb_exists in He as (e & _ & He). unfold elem_undefined in He. apply andb_prop in He as [He H3]. apply andb_prop in He as [_ H2]. apply bool_decide_eq_true, Exists_exists in H3 as ((k & i) & Hk & Hi). simpl in Hi. subst i.
    apply elem_of_map_to_list in Hk. pose proof (rule_at_rule p _ (Hall k _ Hk)) as Hx. rewrite Hx in H2. specialize (Hall k _ Hk). by destruct (rule_at p (evalue e)).
Qed.
Lemma empty_defined : defined [] [] (mkParser ∅ []).
Proof.
  assert (E : forall k i, symbol_ids (mkParser ∅ []) !! k = Some i -> False) by (intros k i H; simpl in H; by rewrite lookup_empty in H).
  assert (En : n_symbols (mkParser ∅ []) = 0) by (unfold n_symbols; simpl; by rewrite map_size_empty).
  assert (Hs : sym_ok ∅) by (intros k v H; by rewrite lookup_empty in H).
  split; [split | split; [done | constructor] | | |]; try (intros; exfalso; by eapply E); try done.
  - intros i Hi. rewrite En in Hi. lia.
  - intros k Hk. by apply elem_of_nil in Hk.
Qed.

(** a text of two megabytes has no more symbols than ids *)
Lemma weights_length rs src : grammar_text rs src -> modest_rules rs = true -> weights rs <= per_byte * Zlen src.
Proof.
  induction 1 as [| r rs line u (s & t & [Hn _] & _ & Ht & _ & ->) _ IH]; [done |]. unfold modest_rules. cbn [forallb]. intros [Hm1 Hm2]%andb_prop. specialize (IH Hm2).
  pose proof (proj2 (proj2 weight_lengths) _ _ _ Ht Hm1) as Hw. unfold weights, per_byte in *. cbn [map foldr]. repeat rewrite ?Zlen_app, ?Zlen_cons. pose proof (Zlen_nonneg (g_name r)). pose proof (Zlen_nonneg s). change (Zlen (bytes " ::=")) with 4. lia.
Qed.
Lemma grammar_text_parses (vocab : option (list Z -> list Z)) (rs : list gbnf_rule) (src : list Z) : grammar_text rs src -> byte_string src ->
  NoDup (names rs) -> mentioned rs ⊆ names rs -> modest_rules rs = true -> Zlen src < 2 ^ 21 ->
  exists p, parse vocab src = Ok (Some p) /\ Forall (rule_means p) rs.
Proof.
  intros Ht Hb Hnd Hmen Hm Hlen. pose proof (weights_length rs src Ht Hm) as Hw. unfold per_byte in Hw.
  destruct (rules_read vocab rs src Ht (S (length src)) (mkParser ∅ []) [] []) as (q & E & Hq & _ & F); [lia | done | done | done | set_solver | apply empty_defined | unfold n_symbols; simpl; rewrite map_size_empty; lia |].
  exists q. split; [| done]. unfold parse. rewrite (space_solid true src) by (by eapply grammar_solid). rewrite E. rewrite (defined_valid _ _ _ Hq); [done |]. set_solver.
Qed.

Definition sample_rules : list gbnf_rule :=
  [mkGbnf (bytes "root") [ [GLit [97; 233]; GRep (GGroup [ [GRef (bytes "ws"); GClass false [(48, 57); (45, 45)] ] ]) 2 (Some 3%nat)] ];
   mkGbnf (bytes "ws") [ []; [GLit [32]; GRep (GRef (bytes "ws")) 0 (Some 1%nat)]; [GClass true [(97, 122)]; GRep GAny 0 None] ] ].
Definition sample_text : list Z := quoted "root ::= `a\xe9` ( ws [0-9\-] ){2,3}
ws ::= | ` ` ws? | [^a-z] .*
".
