(* ===== verification/GrammarProps.v ===== *)
(** * The matcher recognises the language of the grammar *)

From S2P Require Import Prelude Text Utf8 GrammarParse GrammarParseFacts GrammarParseProps GrammarMatch GrammarSem GrammarAdvance.

(** what a list of stacks generates *)
Definition langs (rs : llama_grammar_rules) (sts : llama_grammar_stacks) (w : list Z) : Prop := exists s, s ∈ sts /\ lang rs s w.
(** the stacks of a grammar are well formed and stand at characters or tokens *)
Definition ready (rs : llama_grammar_rules) (s : llama_grammar_stack) : Prop := stack_ok rs s /\ terminal rs s.
Definition stacks_ok (rs : llama_grammar_rules) (sts : llama_grammar_stacks) : Prop := Forall (ready rs) sts.

Section Accept.
Context (rs : llama_grammar_rules) (Hwf : wf_rules rs).

Lemma gen_char_inv e l k w : char_type (etype e) = true -> class_end (e :: l) k -> gen rs (e :: l) w ->
  exists c w', w = c :: w' /\ in_item c e l /\ gen rs (drop (Z.to_nat k) (e :: l)) w'.
Proof.
  intros Ht Hk Hg. remember (e :: l) as el eqn:Hel. destruct Hg as [x y Hx | x y k' c w' Hx Hi Hk' Hg' | x y r w1 w2 Hx]; simplify_eq.
  - by destruct (etype e).
  - assert (k' = k) as -> by (by eapply class_end_fun). by exists c, w'.
  - by rewrite Hx in Ht.
Qed.
Lemma lang_char pos e l k f l' below next c w : at_pos rs pos e l -> char_type (etype e) = true -> class_end (e :: l) k ->
  drop (Z.to_nat k) (e :: l) = f :: l' ->
  (forall w, lang rs next w <-> exists w1 w2, w = w1 ++ w2 /\ gen rs (f :: l') w1 /\ lang rs below w2) ->
  lang rs (pos :: below) (c :: w) <-> in_item c e l /\ lang rs next w.
Proof.
  intros Ha Ht Hk Hd Hn. rewrite (lang_cons_at rs _ _ _ _ _ Ha), Hn. split.
  - intros (w1 & w2 & Hw & Hg & Hl). destruct (gen_char_inv _ _ _ _ Ht Hk Hg) as (c' & w' & -> & Hi & Hg').
    rewrite Hd in Hg'. injection Hw as <- ->. split; [done |]. by exists w', w2.
  - intros (Hi & w1 & w2 & -> & Hg & Hl). exists (c :: w1), w2. split_and!; [done | | done]. eapply gen_char; [done | done | done |]. by rewrite Hd.
Qed.
Lemma lang_terminal_nil s : ready rs s -> lang rs s [] <-> s = [].
Proof.
  intros [Hs Ht]. destruct s as [| pos below]; [split; [done | constructor] |]. split; [| done]. intros Hl. exfalso.
  apply Forall_cons in Hs as [Hp _]. destruct (ptr_ok_elem rs _ Hp) as (e & l & Ha & He & Hi). destruct Ht as (e' & He' & Hr).
  assert (e' = e) as -> by congruence. destruct (proj1 (lang_cons_at rs _ _ _ _ _ Ha) Hl) as (w1 & w2 & Hw & Hg & _).
  symmetry in Hw. apply app_eq_nil in Hw as [-> _]. inversion Hg as [? ? Hx | | ? ? ? ? ? Hx]; subst; [| done]. unfold item_type in Hi. rewrite Hx in Hi.
  by rewrite andb_false_r in Hi.
Qed.
Lemma lang_token pos below e w : stack_ok rs (pos :: below) -> elem_at rs pos = Ok e -> is_token_type (etype e) = true -> ~ lang rs (pos :: below) w.
Proof.
  intros Hs He Ht Hl. apply Forall_cons in Hs as [Hp _]. destruct (ptr_ok_elem rs _ Hp) as (e' & l & Ha & He' & Hi). assert (e' = e) as -> by congruence.
  destruct (proj1 (lang_cons_at rs _ _ _ _ _ Ha) Hl) as (w1 & w2 & _ & Hg & _). inversion Hg as [? ? Hx | ? ? ? ? ? Hx | ? ? ? ? ? Hx]; subst; by destruct (etype e).
Qed.
(** a ready stack is empty, at a token, or at a character *)
Lemma ready_cases s : ready rs s -> s = [] \/ exists pos below e l, s = pos :: below /\ stack_ok rs below /\ at_pos rs pos e l
  /\ (is_token_type (etype e) = true \/ (is_token_type (etype e) = false /\ char_type (etype e) = true)).
Proof.
  intros [Hs Ht]. destruct s as [| pos below]; [by left | right]. pose proof Hs as [Hp Hb]%Forall_cons.
  destruct (ptr_ok_elem rs _ Hp) as (e & l & Ha & He & Hi). destruct Ht as (e' & He' & Hr). assert (e' = e) as -> by congruence.
  exists pos, below, e, l. split_and!; [done | done | done |]. destruct (etype e); simpl in Hi; try done; first [by left | by right].
Qed.

Context (h : ptr -> nat) (nu : ptr -> bool) (Hb : bounded rs h nu).

(** expanding a stack adds ready stacks with its language *)
Lemma advance_langs s ns : stack_ok rs s -> stacks_ok rs ns ->
  exists out, evals (fun fuel => advance_stack fuel rs s ns) out /\ stacks_ok rs out /\ forall w, langs rs out w <-> langs rs ns w \/ lang rs s w.
Proof.
  intros Hs Hns. destruct (advance_stack_spec rs Hwf h nu s ns Hb Hs) as (out & E & Hout). exists out. split_and!; [done | |].
  - apply Forall_forall. intros t Ht. apply Hout in Ht as [Ht | [Hr Ht]]; [unfold stacks_ok in Hns; rewrite Forall_forall in Hns; by apply Hns |].
    split; [by eapply expands_ok | done].
  - intros w. unfold langs. rewrite (lang_terminal rs Hwf h nu s w Hb Hs). setoid_rewrite Hout. naive_solver.
Qed.
Lemma accept_chr_langs s c ns : ready rs s -> stacks_ok rs ns ->
  exists out, evals (fun fuel => accept_chr fuel rs s c ns) out /\ stacks_ok rs out /\ forall w, langs rs out w <-> langs rs ns w \/ lang rs s (c :: w).
Proof.
  intros Hr Hns.
  assert (Hsame : (forall w, ~ lang rs s (c :: w)) -> (forall fuel, accept_chr fuel rs s c ns = Ok ns) ->
    exists out, evals (fun fuel => accept_chr fuel rs s c ns) out /\ stacks_ok rs out /\ forall w, langs rs out w <-> langs rs ns w \/ lang rs s (c :: w)).
  { intros Hn He. exists ns. split_and!; [by exists 0%nat | done |]. intros w. specialize (Hn w). tauto. }
  destruct (ready_cases s Hr) as [-> | (pos & below & e & l & -> & Hbe & Ha & Ht)]; [apply Hsame; [intros w Hl; inversion Hl | done] |].
  pose proof (at_pos_elem _ _ _ _ Ha) as He. destruct Ht as [Ht | [Ht Hc]].
  { apply Hsame; [intros w; by eapply lang_token; [apply Hr | |] |]. intros fuel. unfold accept_chr. rewrite He. cbn [rbind]. by rewrite Ht. }
  destruct (match_char_at rs Hwf _ _ _ Ha Hc) as (k & f & l' & Hk & Haf & Hbf & Hd & Hm). destruct (Hm c) as (b & Em & Hbi).
  destruct (push_next_spec rs _ _ _ _ Haf Hbf Hbe) as (next & En & Hnok & Hnl).
  assert (Hl : forall w, lang rs (pos :: below) (c :: w) <-> in_item c e l /\ lang rs next w) by (intros w; by eapply lang_char).
  assert (Eq : forall fuel, accept_chr fuel rs (pos :: below) c ns = if b then advance_stack fuel rs next ns else Ok ns).
  { intros fuel. unfold accept_chr. rewrite He. cbn [rbind]. rewrite Ht, Em. cbn [rbind]. destruct b; [| done]. by rewrite En. }
  destruct b; [| apply Hsame; [intros w; rewrite Hl; naive_solver | done]].
  destruct (advance_langs next ns Hnok Hns) as (out & E & Ho & Hlo). exists out. split_and!; [eapply evals_ext; [exact Eq | exact E] | done |].
  intros w. rewrite Hlo, Hl. naive_solver.
Qed.
Lemma accept_chr_all_langs sts c ns : stacks_ok rs sts -> stacks_ok rs ns ->
  exists out, evals (fun fuel => accept_chr_all fuel rs sts c ns) out /\ stacks_ok rs out /\ forall w, langs rs out w <-> langs rs ns w \/ langs rs sts (c :: w).
Proof.
  revert ns. induction sts as [| s sts IH]; intros ns Hs Hns.
  { exists ns. split_and!; [apply evals_const | done |]. intros w. unfold langs. setoid_rewrite elem_of_nil. naive_solver. }
  apply Forall_cons in Hs as [Hr Hs]. destruct (accept_chr_langs s c ns Hr Hns) as (out1 & E1 & Ho1 & Hl1).
  destruct (IH out1 Hs Ho1) as (out & E2 & Ho2 & Hl2). exists out. split_and!; [by eapply evals_bind | done |].
  intros w. rewrite Hl2, Hl1. unfold langs. setoid_rewrite elem_of_cons. naive_solver.
Qed.
Lemma accept_all_langs g cps : g_rules g = rs -> stacks_ok rs (stacks g) ->
  exists g', evals (fun fuel => accept_all fuel g cps) g' /\ g_rules g' = rs /\ stacks_ok rs (stacks g') /\ forall w, langs rs (stacks g') w <-> langs rs (stacks g) (cps ++ w).
Proof.
  revert g. induction cps as [| c cps IH]; intros g Hg Hs; [exists g; split_and!; [apply evals_const | done | done | done] |].
  destruct (accept_chr_all_langs (stacks g) c [] Hs ltac:(constructor)) as (out & E & Ho & Hl).
  destruct (IH (with_stacks out g) Hg Ho) as (g' & E' & Hg' & Hs' & Hl'). exists g'. split_and!; [| done | done |].
  - simpl. eapply evals_bind; [| exact E']. unfold accept. eapply evals_bind; [rewrite Hg; exact E | apply evals_const].
  - intros w. rewrite Hl'. simpl. rewrite Hl. unfold langs at 1. setoid_rewrite elem_of_nil. naive_solver.
Qed.
Lemma accepts_end_langs g : stacks_ok rs (stacks g) -> accepts_end g = true <-> langs rs (stacks g) [].
Proof.
  intros Hs. unfold accepts_end, langs, stacks_ok in *. rewrite Forall_forall in Hs. rewrite existsb_exists. split.
  - intros (s & Hin & He%bool_decide_eq_true). apply list_elem_of_In in Hin. exists s. split; [done |]. by apply lang_terminal_nil; [apply Hs |].
  - intros (s & Hin & Hl). exists s. split; [by apply list_elem_of_In |]. apply bool_decide_eq_true. apply lang_terminal_nil; [by apply Hs | done].
Qed.
End Accept.

(** ** From the text to the first stacks *)
Lemma wf_body_copy s body : is_Some (shape s body) -> copy_rule (body ++ [mkElem END 0]) = Ok (body ++ [mkElem END 0]).
Proof.
  revert s. induction body as [| e body IH]; intros s Hs; simpl in *; [done |]. destruct (elem_step s (etype e)) as [s' |] eqn:E; [| by destruct Hs].
  rewrite bool_decide_eq_false_2 by (intros Ht; by rewrite Ht in E). by rewrite (IH s' Hs).
Qed.
Lemma copy_rules_wf rs : Forall wf_rule rs -> copy_rules rs = Ok rs.
Proof. induction 1 as [| r rs (body & -> & Hw) _ IH]; [done |]. simpl. by rewrite (wf_body_copy _ _ Hw), IH. Qed.
Lemma parse_wf_rules vocab src p : byte_string src -> parse vocab src = Ok (Some p) -> wf_rules (rules p) /\ copy_rules (rules p) = Ok (rules p).
Proof.
  intros Hb Hp. pose proof (parse_rules_ok vocab src p Hb Hp) as H. split.
  - eapply Forall_impl; [exact H |]. intros r [(body & -> & Hw) Hr]. split; [by exists body, (mkElem END 0) |].
    eapply Forall_impl; [exact Hr |]. intros e He Ht. destruct (He Ht) as (r' & Hr' & _). by eapply vlookup_Some_range.
  - apply copy_rules_wf. eapply Forall_impl; [exact H |]. by intros r [Hr _].
Qed.

Section Init.
Context (rs : llama_grammar_rules) (Hwf : wf_rules rs) (h : ptr -> nat) (nu : ptr -> bool) (Hb : bounded rs h nu).
Lemma initial_stacks_langs alts st : (forall q, Some q ∈ alts -> ptr_ok rs q) -> stacks_ok rs st ->
  exists out, evals (fun fuel => initial_stacks fuel rs alts st) out /\ stacks_ok rs out
    /\ forall w, langs rs out w <-> langs rs st w \/ exists a, a ∈ alts /\ alt_lang rs a w.
Proof.
  revert st. induction alts as [| a alts IH]; intros st Ha Hst.
  { exists st. split_and!; [apply evals_const | done |]. intros w. setoid_rewrite elem_of_nil. naive_solver. }
  assert (Hpa : stack_ok rs (push_opt a [])) by (destruct a as [q |]; simpl; [constructor; [apply Ha; left | constructor] | constructor]).
  destruct (advance_langs rs Hwf h nu Hb _ st Hpa Hst) as (out1 & E1 & H1 & L1).
  destruct (IH out1) as (out & E2 & H2 & L2); [intros q Hq; apply Ha; by right | done |]. exists out. split_and!; [by eapply evals_bind | done |].
  intros w. rewrite L2, L1. setoid_rewrite elem_of_cons. setoid_rewrite push_opt_lang.
  assert (Hw : (exists w1 w2, w = w1 ++ w2 /\ alt_lang rs a w1 /\ lang rs [] w2) <-> alt_lang rs a w).
  { split; [intros (w1 & w2 & -> & Hx & Hy); inversion Hy; subst; by rewrite app_nil_r |]. intros Hx. exists w, []. rewrite app_nil_r. split_and!; [done | done | constructor]. }
  rewrite Hw. naive_solver.
Qed.
End Init.

(** Accepting a character computes the derivative of the language.  In a grammar whose
    expansions are bounded, llama_grammar_accept turns the stacks, given enough steps, into stacks
    that generate exactly the strings w for which the old ones generate the character followed
    by w. *)
Theorem accept_derivative (g : llama_grammar) (h : ptr -> nat) (nu : ptr -> bool) (c : Z) :
  wf_rules (g_rules g) -> bounded (g_rules g) h nu -> stacks_ok (g_rules g) (stacks g) ->
  exists g', evals (fun fuel => accept fuel g c) g' /\ stacks_ok (g_rules g') (stacks g')
    /\ forall w, langs (g_rules g') (stacks g') w <-> langs (g_rules g) (stacks g) (c :: w).
Proof.
  intros Hwf Hb Hs. destruct (accept_all_langs _ Hwf h nu Hb g [c] eq_refl Hs) as (g' & [n E] & Hg & Hs' & Hl). exists g'. rewrite Hg. split_and!; [| done | done].
  exists n. intros fuel Hf. specialize (E fuel Hf). simpl in E. by destruct (accept fuel g c).
Qed.

(** C16: The grammar engine recognises its grammar.  For a text that parses, passes the check for left
    recursion and has bounded expansions, a grammar object is built, every sequence of characters
    can be fed to it, and afterwards a stack is complete exactly when the start rule generates
    the sequence. *)
Theorem grammar_recognises (vocab : option (list Z -> list Z)) (src root : list Z) (p : llama_grammar_parser) (i : Z) (r : llama_grammar_rule)
    (h : ptr -> nat) (nu : ptr -> bool) (cps : list Z) :
  byte_string src -> parse vocab src = Ok (Some p) -> symbol_ids p !! root = Some i -> vlookup (rules p) i = Some r ->
  left_recursive (rules p) = Ok false -> bounded (rules p) h nu ->
  exists g g', evals (fun fuel => init_impl fuel vocab src root false [] []) (Some g) /\ evals (fun fuel => accept_all fuel g cps) g'
    /\ (accepts_end g' = true <-> gen_rule (rules p) r cps).
Proof.
  intros Hbs Hp Hi Hr Hlr Hb. destruct (parse_wf_rules _ _ _ Hbs Hp) as [Hwf Hcopy].
  destruct (rule_alternatives_spec _ Hwf i (vlookup_Some_range _ _ _ Hr)) as (r' & alts & Hr' & Ea & _ & Hok & Hal).
  assert (r' = r) as -> by congruence.
  destruct (initial_stacks_langs _ Hwf h nu Hb alts [] Hok ltac:(constructor)) as (st & Est & Hst & Hl).
  set (g := mkGrammar (rules p) st (mkPartial 0 0) false false [] [] [] []).
  destruct (accept_all_langs _ Hwf h nu Hb g cps eq_refl Hst) as (g' & Eg & Hg & Hs' & Hl'). exists g, g'. split_and!; [| done |].
  - destruct Est as [n En]. exists n. intros fuel Hf. unfold init_impl. rewrite Hp. cbn [rbind].
    rewrite bool_decide_eq_false_2 by (intros H0%nil_length_inv; rewrite H0 in Hr; unfold vlookup in Hr; by destruct (0 <=? i)). 
    rewrite Hi, Hcopy. cbn [rbind]. rewrite Hlr. cbn [rbind]. rewrite Ea. cbn [rbind]. by rewrite En.
  - rewrite (accepts_end_langs _ _ Hs'), Hl', app_nil_r. simpl. rewrite Hl, Hal. split; [| by right]. intros [(s & Hs & _) | ?]; [by apply not_elem_of_nil in Hs | done].
Qed.

(** ** Checking a bound by evaluation *)
Definition all_ptrs (rs : llama_grammar_rules) : list ptr :=
  concat (imap (fun i r => (fun j => (Z.of_nat i, Z.of_nat j)) <$> seq 0 (length r)) rs).
Definition bounded_check (rs : llama_grammar_rules) (h : ptr -> nat) (nu : ptr -> bool) : bool :=
  forallb (fun pos => match elem_at rs pos with
    | Ok e => if bool_decide (etype e = RULE_REF) then
        match rule_alternatives rs (evalue e) with
        | Ok alts => forallb (fun a =>
            (seq_height h a + (if seq_nullable nu a then seq_height h (next_ptr rs pos) else 0) <? h pos)%nat
            && implb (seq_nullable nu a && seq_nullable nu (next_ptr rs pos)) (nu pos)) alts
        | Err _ => true end
      else true
    | Err _ => true end) (all_ptrs rs).
Lemma at_pos_all_ptrs rs pos e l : at_pos rs pos e l -> pos ∈ all_ptrs rs.
Proof.
  intros (r & pre & Hr & -> & Hp). destruct pos as [i j]. simpl in *. unfold vlookup in Hr. destruct (0 <=? i) eqn:Ei; [| done].
  unfold all_ptrs. apply list_elem_of_In, in_concat. exists ((fun j => (i, Z.of_nat j)) <$> seq 0 (length (pre ++ e :: l))). split.
  - apply list_elem_of_In, elem_of_lookup_imap. exists (Z.to_nat i), (pre ++ e :: l). rewrite Z2Nat.id by lia. done.
  - apply list_elem_of_In, list_elem_of_fmap. exists (length pre). unfold Zlen in Hp. rewrite Hp. split; [done |]. apply elem_of_seq. rewrite length_app. simpl. lia.
Qed.
Lemma bounded_check_sound rs h nu : bounded_check rs h nu = true -> bounded rs h nu.
Proof.
  unfold bounded_check. rewrite forallb_forall. intros H.
  assert (G : forall pos e alts a, ptr_ok rs pos -> elem_at rs pos = Ok e -> etype e = RULE_REF -> rule_alternatives rs (evalue e) = Ok alts -> a ∈ alts ->
    (seq_height h a + (if seq_nullable nu a then seq_height h (next_ptr rs pos) else 0) <? h pos)%nat
      && implb (seq_nullable nu a && seq_nullable nu (next_ptr rs pos)) (nu pos) = true).
  { intros pos e alts a (e' & l & Ha & _) He Ht Hal Hin. specialize (H pos (proj1 (list_elem_of_In _ _) (at_pos_all_ptrs _ _ _ _ Ha))).
    rewrite He, (bool_decide_eq_true_2 _ Ht), Hal in H. rewrite forallb_forall in H. by apply H, list_elem_of_In. }
  split; intros pos e alts a H1 H2 H3 H4 H5; specialize (G pos e alts a H1 H2 H3 H4 H5); apply andb_prop in G as [G1 G2].
  - by apply Nat.ltb_lt.
  - intros N1 N2. by rewrite N1, N2 in G2.
Qed.

Definition demo_grammar : list Z := quoted "root ::= item root | [z]
item ::= [^a-c] | `xy` opt
opt ::= `` | `q` opt".
Definition demo_parser : llama_grammar_parser := match parse None demo_grammar with Ok (Some p) => p | _ => mkParser ∅ [] end.
Definition demo_height (pos : ptr) : nat :=
  if bool_decide (pos = (0, 1)) then 2 else if bool_decide (pos = (0, 0) \/ pos = (1, 5) \/ pos = (2, 2)) then 1 else 0.
Definition demo_nullable (pos : ptr) : bool := bool_decide (pos = (1, 5) \/ pos = (2, 2)).
Definition demo_grammar_obj : llama_grammar :=
  match init_impl 100 None demo_grammar (bytes "root") false [] [] with Ok (Some g) => g | _ => mkGrammar [] [] (mkPartial 0 0) false false [] [] [] [] end.

Lemma grammar_recognises_witness : exists g g', evals (fun fuel => init_impl fuel None demo_grammar (bytes "root") false [] []) (Some g)
  /\ evals (fun fuel => accept_all fuel g (bytes "dxyqz")) g' /\ (accepts_end g' = true <-> gen_rule (rules demo_parser) (default [] (vlookup (rules demo_parser) 0)) (bytes "dxyqz")).
Proof.
  apply (grammar_recognises None demo_grammar (bytes "root") demo_parser 0 _ demo_height demo_nullable).
  - repeat constructor; discriminate.
  - vm_compute. reflexivity.
  - vm_compute. reflexivity.
  - vm_compute. reflexivity.
  - vm_compute. reflexivity.
  - apply bounded_check_sound. vm_compute. reflexivity.
Defined.

Lemma elem_at_at_pos rs pos e : elem_at rs pos = Ok e -> exists l, at_pos rs pos e l.
Proof.
  unfold elem_at, elems_at. intros H. apply bind_Ok in H as (x & H0 & H). apply bind_Ok in H0 as (r & Hr & H0). apply vget_Ok in Hr.
  case_match eqn:Ec; [| done]. apply andb_prop in Ec as [E1 E2].
  injection H0 as <-. apply vget_Ok in H. destruct (drop (Z.to_nat pos.2) r) as [| y l] eqn:Ed; [done |]. injection H as ->.
  exists l, r, (take (Z.to_nat pos.2) r). rewrite <- Ed, take_drop. split_and!; [done | done |]. unfold Zlen in *. rewrite length_take. lia.
Qed.
Definition ready_check (rs : llama_grammar_rules) (s : llama_grammar_stack) : bool :=
  forallb (fun pos => match elem_at rs pos with Ok e => item_type (etype e) | Err _ => false end) s
  && match s with [] => true | pos :: _ => match elem_at rs pos with Ok e => negb (bool_decide (etype e = RULE_REF)) | Err _ => false end end.
Lemma ready_check_sound rs s : ready_check rs s = true -> ready rs s.
Proof.
  intros [H1 H2]%andb_prop. split.
  - apply Forall_forall. intros pos Hp. rewrite forallb_forall in H1. specialize (H1 pos (proj1 (list_elem_of_In _ _) Hp)).
    destruct (elem_at rs pos) as [e |] eqn:E; [| done]. destruct (elem_at_at_pos _ _ _ E) as (l & Ha). by exists e, l.
  - destruct s as [| pos s]; [done |]. simpl in *. destruct (elem_at rs pos) as [e |]; [| done]. exists e. split; [done |].
    apply negb_true_iff in H2. by apply bool_decide_eq_false in H2.
Qed.
Lemma accept_derivative_witness : exists g', evals (fun fuel => accept fuel demo_grammar_obj 100) g' /\ stacks_ok (g_rules g') (stacks g')
  /\ forall w, langs (g_rules g') (stacks g') w <-> langs (g_rules demo_grammar_obj) (stacks demo_grammar_obj) (100 :: w).
Proof.
  apply (accept_derivative demo_grammar_obj demo_height demo_nullable).
  - assert (E : g_rules demo_grammar_obj = rules demo_parser) by (vm_compute; reflexivity). rewrite E.
    apply (parse_wf_rules None demo_grammar); [repeat constructor; discriminate | vm_compute; reflexivity].
  - apply bounded_check_sound. vm_compute. reflexivity.
  - apply Forall_forall. intros s Hs. apply ready_check_sound.
    assert (G : forallb (ready_check (g_rules demo_grammar_obj)) (stacks demo_grammar_obj) = true) by (vm_compute; reflexivity).
    rewrite forallb_forall in G. by apply G, list_elem_of_In.
Defined.
