(* ===== verification/GrammarAgree.v ===== *)
(** * Tokens: the rejection of candidates against a specification, and against acceptance *)

From S2P Require Import Prelude Text Utf8 GrammarParse GrammarParseFacts GrammarParseProps GrammarMatch GrammarSem GrammarAdvance GrammarProps.

(** ** When a token survives

    The characters of the token are consumed along the grammar, every reference expanded; a token
    element takes a whole token by its id; what is left of a character at the end must fit the
    position reached. *)
Inductive survives (rs : llama_grammar_rules) (partial : llama_partial_utf8) (tok : Z) : llama_grammar_stack -> list Z -> Prop :=
| sv_empty : n_remain partial = 0 -> survives rs partial tok [] []
| sv_token_end pos below e : elem_at rs pos = Ok e -> is_token_type (etype e) = true -> n_remain partial = 0 -> survives rs partial tok (pos :: below) []
| sv_token pos below e c w : elem_at rs pos = Ok e -> is_token_type (etype e) = true -> match_token rs pos tok = Ok true ->
    survives rs partial tok (pos :: below) (c :: w)
| sv_char_end pos below e : elem_at rs pos = Ok e -> char_type (etype e) = true ->
    n_remain partial = 0 \/ match_partial_char rs pos partial = Ok true -> survives rs partial tok (pos :: below) []
| sv_char pos below e c w after next t : elem_at rs pos = Ok e -> char_type (etype e) = true -> match_char rs pos c = Ok (true, after) ->
    push_next rs after below = Ok next -> rtc (expand rs) next t -> terminal rs t -> survives rs partial tok t w -> survives rs partial tok (pos :: below) (c :: w).

(** a candidate: its characters, with the 0 the decoder appends, and the offset reached *)
Definition cand_ok (c : llama_grammar_candidate) : Prop :=
  exists cps, code_points c = cps ++ [0] /\ Forall (fun x => x <> 0) cps /\ (offset c <= length cps)%nat.
Definition cand_rest (c : llama_grammar_candidate) : list Z := removelast (drop (offset c) (code_points c)).
Definition cand_survives (rs : llama_grammar_rules) (s : llama_grammar_stack) (c : llama_grammar_candidate) : Prop :=
  survives rs (partial_utf8 c) (cand_id c) s (cand_rest c).

Lemma cand_rest_cases c : cand_ok c ->
  (cand_char c = 0 /\ cand_rest c = []) \/ (cand_char c <> 0 /\ cand_ok (with_offset S c) /\ cand_rest c = cand_char c :: cand_rest (with_offset S c)).
Proof.
  intros (cps & Hc & Hz & Ho). unfold cand_char, cand_rest. simpl. rewrite Hc.
  destruct (decide (offset c = length cps)) as [He | Hne].
  - left. rewrite He. rewrite lookup_app_r, Nat.sub_diag by lia. simpl. by rewrite drop_app_length.
  - right. destruct (lookup_lt_is_Some_2 cps (offset c)) as [x Hx]; [lia |]. rewrite lookup_app_l by lia. rewrite Hx. simpl. split_and!.
    + rewrite Forall_forall in Hz. by eapply Hz, list_elem_of_lookup_2.
    + exists cps. split_and!; [done | done | simpl; lia].
    + assert (Hl : (cps ++ [0]) !! offset c = Some x) by (rewrite lookup_app_l by lia; done).
      rewrite (drop_S _ _ _ Hl). destruct (drop (S (offset c)) (cps ++ [0])) as [| y l] eqn:Ed; [| done].
      assert (Hlen : length (drop (S (offset c)) (cps ++ [0])) = 0%nat) by (by rewrite Ed). rewrite length_drop, length_app in Hlen. simpl in Hlen. lia.
Qed.
Lemma with_offset_back c : with_offset Nat.pred (with_offset S c) = c.
Proof. by destruct c. Qed.

Section Reject.
Context (rs : llama_grammar_rules) (Hwf : wf_rules rs) (h : ptr -> nat) (nu : ptr -> bool) (Hb : bounded rs h nu).

Lemma partial_loop_total pc low high l k : class_end l k -> exists b, partial_loop pc low high l = Ok b.
Proof.
  induction 1 as [e f l Hf | e u f l Hu Hf | e f l k Hf H IH | e u f l k Hu Hf H IH]; cbn [partial_loop].
  - destruct (boundary_not_range _ Hf) as [N1 N2]. rewrite (bool_decide_eq_false_2 (etype f = CHAR_RNG_UPPER)), (bool_decide_eq_false_2 (etype f = CHAR_ALT)) by done. repeat case_match; eauto.
  - rewrite (bool_decide_eq_true_2 (etype u = _)) by done. case_match; [eauto |]. change (vget (f :: l) 0) with (Ok f). cbn [rbind].
    destruct (boundary_not_range _ Hf) as [N1 N2]. rewrite (bool_decide_eq_false_2 (etype f = CHAR_ALT)) by done. eauto.
  - rewrite (bool_decide_eq_false_2 (etype f = CHAR_RNG_UPPER)), (bool_decide_eq_true_2 (etype f = CHAR_ALT)) by (rewrite Hf; done). case_match; [eauto |]. case_match; [eauto |]. exact IH.
  - rewrite (bool_decide_eq_true_2 (etype u = _)) by done. case_match; [eauto |]. change (vget (f :: l) 0) with (Ok f). cbn [rbind].
    rewrite (bool_decide_eq_true_2 (etype f = CHAR_ALT)) by done. exact IH.
Qed.
Lemma match_partial_total pos e l partial : at_pos rs pos e l -> char_type (etype e) = true -> exists b, match_partial_char rs pos partial = Ok b.
Proof.
  intros Ha Ht. destruct (match_char_at rs Hwf _ _ _ Ha Ht) as (k & f & l' & Hk & _). unfold match_partial_char.
  rewrite (at_pos_elems _ _ _ _ Ha). cbn [rbind]. change (vget (e :: l) 0) with (Ok e). cbn [rbind].
  assert (Hp : is_positive_type (etype e) || bool_decide (etype e = CHAR_NOT) = true) by (by destruct (etype e)). rewrite Hp. cbn [negb].
  case_match; [eauto |]. destruct (partial_range partial). by eapply partial_loop_total.
Qed.
Lemma match_token_total pos e l tok : at_pos rs pos e l -> is_token_type (etype e) = true -> exists b, match_token rs pos tok = Ok b.
Proof. intros Ha Ht. unfold match_token. rewrite (at_pos_elem _ _ _ _ Ha). cbn [rbind]. destruct (etype e); try done; eauto. Qed.

(** every stack leads to a terminal one *)
Lemma terminal_exists s : stack_ok rs s -> exists t, rtc (expand rs) s t /\ terminal rs t.
Proof.
  remember (potential h nu s) as m eqn:Hm. revert s Hm. induction (lt_wf m) as [m _ IH]. intros s -> Hs.
  destruct (terminal_or_expand rs s Hs) as [Ht | (pos & below & e & -> & He & Hr)]; [by exists s |].
  destruct (expand_top rs Hwf _ _ _ Hs He Hr) as (alts & next & Ea & Hne & En & Hoks & _). destruct alts as [| a alts]; [done |].
  assert (Hx : expand rs (pos :: below) (push_opt a next)) by (eapply expand_ref; try done; left).
  destruct (IH _ (expand_potential rs _ _ _ _ Hb Hs Hx) _ eq_refl (Hoks a ltac:(left))) as (t & H1 & H2). exists t. split; [by eapply rtc_l | done].
Qed.
(** what the loop does with one candidate at a character position *)
Definition rejected_at (pos : ptr) (c : llama_grammar_candidate) : Prop :=
  (cand_char c = 0 /\ n_remain (partial_utf8 c) <> 0 /\ match_partial_char rs pos (partial_utf8 c) = Ok false)
  \/ (cand_char c <> 0 /\ exists a, match_char rs pos (cand_char c) = Ok (false, a)).
Definition passes_at (pos : ptr) (c : llama_grammar_candidate) : Prop := cand_char c <> 0 /\ exists a, match_char rs pos (cand_char c) = Ok (true, a).
Lemma classify pos e l c : at_pos rs pos e l -> char_type (etype e) = true ->
  exists what, (if cand_char c =? 0 then
                  if is_partial c then let! m := match_partial_char rs pos (partial_utf8 c) in Ok (if m then None else Some false) else Ok None
                else let! (m, _) := match_char rs pos (cand_char c) in Ok (Some m)) = Ok what
    /\ (what = Some false <-> rejected_at pos c) /\ (what = Some true <-> passes_at pos c).
Proof.
  intros Ha Ht. destruct (match_char_at rs Hwf _ _ _ Ha Ht) as (k & _ & _ & _ & _ & _ & _ & Hm). unfold rejected_at, passes_at, is_partial.
  destruct (cand_char c =? 0) eqn:E0; [apply Z.eqb_eq in E0 | apply Z.eqb_neq in E0].
  - destruct (n_remain (partial_utf8 c) =? 0) eqn:Er; cbn [negb]; [apply Z.eqb_eq in Er | apply Z.eqb_neq in Er].
    + exists None. split; [done |]. clear -E0 Er. naive_solver.
    + destruct (match_partial_total _ _ _ (partial_utf8 c) Ha Ht) as [b ->]. cbn [rbind]. eexists. split; [done |].
      clear -E0 Er. destruct b; naive_solver.
  - destruct (Hm (cand_char c)) as (b & -> & _). cbn [rbind]. eexists. split; [done |]. clear -E0. destruct b; naive_solver.
Qed.
Lemma split_candidates_spec pos e l cands : at_pos rs pos e l -> char_type (etype e) = true ->
  exists rej next, split_candidates rs pos cands = Ok (rej, next)
    /\ (forall c, c ∈ rej <-> c ∈ cands /\ rejected_at pos c)
    /\ (forall c, c ∈ next <-> exists d, d ∈ cands /\ c = with_offset S d /\ passes_at pos d).
Proof.
  intros Ha Ht. induction cands as [| c cands (rej & next & E & Hr & Hn)].
  { exists [], []. split; [done |]. setoid_rewrite elem_of_nil. naive_solver. }
  destruct (classify pos e l c Ha Ht) as (what & Ew & H1 & H2). cbn [split_candidates]. rewrite Ew. cbn [rbind]. rewrite E. cbn [rbind].
  clear E Ew Ha Ht. destruct what as [[] |]; [exists rej, (with_offset S c :: next) | exists (c :: rej), next | exists rej, next];
    (split_and!; [done | |]); intros d; rewrite ?elem_of_cons, ?Hr, ?Hn; repeat setoid_rewrite elem_of_cons; naive_solver.
Qed.
(** at a character: what survives *)
Lemma survives_char pos e l k f l' below next partial tok : at_pos rs pos e l -> char_type (etype e) = true ->
  at_pos rs (shift pos k) f l' -> (forall c, exists b, match_char rs pos c = Ok (b, shift pos k) /\ (b = true <-> in_item c e l)) ->
  push_next rs (shift pos k) below = Ok next ->
  (survives rs partial tok (pos :: below) [] <-> n_remain partial = 0 \/ match_partial_char rs pos partial = Ok true)
  /\ forall c w, survives rs partial tok (pos :: below) (c :: w) <->
       (exists a, match_char rs pos c = Ok (true, a)) /\ exists t, rtc (expand rs) next t /\ terminal rs t /\ survives rs partial tok t w.
Proof.
  intros Ha Ht Haf Hm Hn. pose proof (at_pos_elem _ _ _ _ Ha) as He. assert (Htk : is_token_type (etype e) = false) by (by destruct (etype e)).
  split; [| intros c w]; split.
  - intros H. inversion H; subst; first [tauto | by left | congruence].
  - intros H. by eapply sv_char_end.
  - intros H. inversion H as [| | | | ? ? e' ? ? after next' t H1 H2 H3 H4 H5 H6 H7]; subst; [congruence |].
    split; [by eexists |]. destruct (Hm c) as (b & Eb & _). assert (after = shift pos k) as -> by congruence. assert (next' = next) as -> by congruence. by exists t.
  - intros [(a & Ea) (t & H1 & H2 & H3)]. destruct (Hm c) as (b & Eb & _). assert (a = shift pos k) as -> by congruence. by eapply sv_char.
Qed.

Definition rest_below (depth : nat) (cands : list llama_grammar_candidate) : Prop := forall c, c ∈ cands -> cand_ok c /\ (length (cand_rest c) < depth)%nat.
(** [f] finds the candidates one stack rejects *)
Definition rejects_spec (s : llama_grammar_stack) (cands rej : list llama_grammar_candidate) : Prop :=
  forall c, c ∈ rej <-> c ∈ cands /\ ~ cand_survives rs s c.
Lemma reject_fold_spec depth sts cands :
  (forall s cands, s ∈ sts -> rest_below depth cands -> exists rej, evals (fun fuel => reject_candidates_for_stack depth fuel rs s cands) rej /\ rejects_spec s cands rej) ->
  rest_below depth cands ->
  exists rej, evals (fun fuel => reject_fold (reject_candidates_for_stack depth fuel rs) sts cands) rej
    /\ forall c, c ∈ rej <-> c ∈ cands /\ forall s, s ∈ sts -> ~ cand_survives rs s c.
Proof.
  revert cands. induction sts as [| s sts IH]; intros cands Hf Hc.
  { exists cands. split; [apply evals_const |]. setoid_rewrite elem_of_nil. naive_solver. }
  destruct (Hf s cands ltac:(left) Hc) as (rej1 & E1 & H1).
  destruct (IH rej1) as (rej & E & H2).
  { intros s' cands' Hs'. apply Hf. by right. }
  { intros c Hin. apply H1 in Hin as [Hin _]. by apply Hc. }
  exists rej. split; [cbn [reject_fold]; by eapply evals_bind |]. intros c. rewrite H2, (H1 c). setoid_rewrite elem_of_cons. naive_solver.
Qed.
Lemma reject_by_spec depth sts cands : sts <> [] ->
  ((0 < depth)%nat -> forall s cands, s ∈ sts -> rest_below depth cands -> exists rej, evals (fun fuel => reject_candidates_for_stack depth fuel rs s cands) rej /\ rejects_spec s cands rej) ->
  rest_below depth cands ->
  exists rej, evals (fun fuel => reject_by (reject_candidates_for_stack depth fuel rs) sts cands) rej
    /\ forall c, c ∈ rej <-> c ∈ cands /\ forall s, s ∈ sts -> ~ cand_survives rs s c.
Proof.
  intros Hne Hf Hc. destruct sts as [| s sts]; [done |]. destruct cands as [| c cands].
  2: { apply reject_fold_spec; [apply Hf; destruct (Hc c ltac:(left)); lia | done]. }
  exists []. split; [apply evals_const |]. setoid_rewrite elem_of_nil. naive_solver.
Qed.

(** the three kinds of stacks *)
Lemma reject_empty depth cands : rest_below (S depth) cands ->
  exists rej, evals (fun fuel => reject_candidates_for_stack (S depth) fuel rs [] cands) rej /\ rejects_spec [] cands rej.
Proof.
  intros Hc. eexists. split; [apply evals_const |]. intros c. rewrite list_elem_of_filter. split.
  - intros [Hp Hin]. split; [done |]. intros Hs. destruct (Hc c Hin) as [Hok _]. unfold cand_survives in Hs.
    destruct (cand_rest_cases c Hok) as [[E1 E2] | (E1 & _ & E2)]; rewrite E2 in Hs; inversion Hs. rewrite E1 in Hp. unfold is_partial in Hp. rewrite H in Hp. done.
  - intros [Hin Hn]. split; [| done]. destruct (Hc c Hin) as [Hok _]. unfold cand_survives in Hn.
    destruct (cand_rest_cases c Hok) as [[E1 E2] | (E1 & _ & E2)]; rewrite E2 in Hn.
    + rewrite E1. simpl. unfold is_partial. destruct (n_remain (partial_utf8 c) =? 0) eqn:Er; [| done]. apply Z.eqb_eq in Er. exfalso. apply Hn. by constructor.
    + apply Z.eqb_neq in E1. by rewrite E1.
Qed.
Lemma filter_res_spec {A} (f : A -> res bool) (g : A -> bool) l : (forall x, x ∈ l -> f x = Ok (g x)) -> filter_res f l = Ok (filter (fun x => g x) l).
Proof.
  induction l as [| x l IH]; intros H; [done |]. cbn [filter_res]. rewrite H by left. cbn [rbind]. rewrite IH by (intros y Hy; apply H; by right).
  cbn [rbind]. f_equal. rewrite filter_cons. destruct (decide _) as [E | E]; destruct (g x); done.
Qed.
Lemma survives_token pos e below partial tok : elem_at rs pos = Ok e -> is_token_type (etype e) = true ->
  (survives rs partial tok (pos :: below) [] <-> n_remain partial = 0)
  /\ forall c w, survives rs partial tok (pos :: below) (c :: w) <-> match_token rs pos tok = Ok true.
Proof.
  intros He Ht. assert (Hct : char_type (etype e) = false) by (by destruct (etype e)). split; [| intros c w]; split; intros H.
  - inversion H; subst; first [done | congruence].
  - by eapply sv_token_end.
  - inversion H; subst; first [done | congruence].
  - by eapply sv_token.
Qed.
Lemma reject_token depth pos below e l cands : at_pos rs pos e l -> is_token_type (etype e) = true -> rest_below (S depth) cands ->
  exists rej, evals (fun fuel => reject_candidates_for_stack (S depth) fuel rs (pos :: below) cands) rej /\ rejects_spec (pos :: below) cands rej.
Proof.
  intros Ha Ht Hc. pose proof (at_pos_elem _ _ _ _ Ha) as He. assert (Hct : char_type (etype e) = false) by (by destruct (etype e)).
  set (m := fun c => match match_token rs pos (cand_id c) with Ok b => b | Err _ => false end).
  assert (Hm : forall c, match_token rs pos (cand_id c) = Ok (m c)) by (intros c; subst m; simpl; by destruct (match_token_total _ _ _ (cand_id c) Ha Ht) as [b ->]).
  eexists. split.
  - exists 0%nat. intros fuel _. cbn [reject_candidates_for_stack]. rewrite He. cbn [rbind]. rewrite Ht.
    apply (filter_res_spec _ (fun c => if cand_char c =? 0 then is_partial c else negb (m c))). intros c _. rewrite Hm. by destruct (cand_char c =? 0).
  - intros c. rewrite list_elem_of_filter. unfold cand_survives.
    destruct (survives_token pos e below (partial_utf8 c) (cand_id c) He Ht) as [S1 S2].
    assert (G : cand_ok c -> Is_true (if cand_char c =? 0 then is_partial c else negb (m c)) <-> ~ survives rs (partial_utf8 c) (cand_id c) (pos :: below) (cand_rest c)).
    { intros Hok. destruct (cand_rest_cases c Hok) as [[E1 E2] | (E1 & _ & E2)]; rewrite E2.
      - rewrite E1, S1. simpl. unfold is_partial. destruct (Z.eqb_spec (n_remain (partial_utf8 c)) 0); simpl; tauto.
      - apply Z.eqb_neq in E1. rewrite E1, S2, Hm. destruct (m c); simpl; naive_solver. }
    split; intros [H1 H2].
    + split; [done |]. exact (proj1 (G (proj1 (Hc c H2))) H1).
    + split; [| done]. exact (proj2 (G (proj1 (Hc c H1))) H2).
Qed.
Lemma reject_char depth pos below e l cands : stack_ok rs below -> at_pos rs pos e l -> is_token_type (etype e) = false -> char_type (etype e) = true ->
  ((0 < depth)%nat -> forall s cands, ready rs s -> rest_below depth cands -> exists rej, evals (fun fuel => reject_candidates_for_stack depth fuel rs s cands) rej /\ rejects_spec s cands rej) ->
  rest_below (S depth) cands ->
  exists rej, evals (fun fuel => reject_candidates_for_stack (S depth) fuel rs (pos :: below) cands) rej /\ rejects_spec (pos :: below) cands rej.
Proof.
  intros Hbe Ha Htk Hct IH Hc. pose proof (at_pos_elem _ _ _ _ Ha) as He.
  destruct (match_char_at rs Hwf _ _ _ Ha Hct) as (k & f & l' & Hk & Haf & Hbf & Hd & Hm).
  destruct (push_next_spec rs _ _ _ _ Haf Hbf Hbe) as (next & En & Hnok & _).
  destruct (advance_stack_spec rs Hwf h nu next [] Hb Hnok) as (nst & Est & Hst).
  destruct (split_candidates_spec pos e l cands Ha Hct) as (rej1 & cnext & Es & Hr1 & Hcn).
  assert (Hst' : forall t, t ∈ nst <-> rtc (expand rs) next t /\ terminal rs t).
  { intros t. rewrite Hst, elem_of_nil. tauto. }
  destruct (reject_by_spec depth nst cnext) as (rej2 & E2 & H2).
  { destruct (terminal_exists next Hnok) as (t & Ht). apply Hst' in Ht. intros ->. by apply not_elem_of_nil in Ht. }
  { intros Hdp s cs Hs. apply (IH Hdp). apply Hst' in Hs as [Hs1 Hs2]. split; [by eapply expands_ok | done]. }
  { intros c Hin. apply Hcn in Hin as (d & Hd' & -> & Hp & _). destruct (Hc d Hd') as [Hok Hlen].
    destruct (cand_rest_cases d Hok) as [[E1 _] | (_ & Hok' & Er)]; [done |]. split; [done |]. rewrite Er in Hlen. simpl in Hlen. lia. }
  exists (rej1 ++ (with_offset Nat.pred <$> rej2)). split.
  - cbn [reject_candidates_for_stack]. rewrite He. cbn [rbind]. rewrite Htk, Es. cbn [rbind].
    destruct (Hm 0) as (b0 & -> & _). cbn [rbind]. rewrite En. cbn [rbind]. eapply evals_bind; [exact Est |]. eapply evals_bind; [exact E2 |]. apply evals_const.
  - intros c. destruct (survives_char pos e l k f l' below next (partial_utf8 c) (cand_id c) Ha Hct Haf Hm En) as [S1 S2].
    assert (G : cand_ok c -> c ∈ cands -> (rejected_at pos c \/ (passes_at pos c /\ forall s, s ∈ nst -> ~ cand_survives rs s (with_offset S c))) <-> ~ cand_survives rs (pos :: below) c).
    { intros Hok Hin. unfold cand_survives at 2. destruct (cand_rest_cases c Hok) as [[E1 E2'] | (E1 & _ & E2')]; rewrite E2'; unfold rejected_at, passes_at.
      - rewrite S1. destruct (match_partial_total _ _ _ (partial_utf8 c) Ha Hct) as [b Eb]. rewrite Eb. destruct b; naive_solver.
      - rewrite S2. setoid_rewrite Hst'. destruct (Hm (cand_char c)) as (b & Eb & _). rewrite Eb. unfold cand_survives. simpl. destruct b; naive_solver. }
    rewrite elem_of_app, Hr1, list_elem_of_fmap. split.
    + intros [[Hin Hr] | (d & -> & Hd2)]; [split; [done |]; apply G; [by apply Hc | done | by left] |].
      apply H2 in Hd2 as [Hd2 Hn]. apply Hcn in Hd2 as (d' & Hin & -> & Hp). rewrite with_offset_back in *. split; [done |]. apply G; [by apply Hc | done |]. by right.
    + intros [Hin Hn]. apply G in Hn as [Hr | [Hp Hn]]; [by left | | by apply Hc | done]. right. exists (with_offset S c). split; [by rewrite with_offset_back |].
      apply H2. split; [| done]. apply Hcn. by exists c.
Qed.
(** whether a token survives is decided by the finitely many expansions *)
Lemma exists_dec {A} (P : A -> Prop) (l : list A) : (forall x, x ∈ l -> P x \/ ~ P x) -> (exists x, x ∈ l /\ P x) \/ (forall x, x ∈ l -> ~ P x).
Proof.
  induction l as [| x l IH]; intros H; [right; intros x Hx; by apply not_elem_of_nil in Hx |].
  destruct (H x ltac:(left)) as [Hx | Hx]; [left; exists x; split; [left | done] |].
  destruct IH as [(y & Hy & Hp) | Hn]; [intros y Hy; apply H; by right | left; exists y; split; [by right | done] | right].
  intros y [-> | Hy]%elem_of_cons; [done | by apply Hn].
Qed.
Lemma survives_dec partial tok s w : ready rs s -> survives rs partial tok s w \/ ~ survives rs partial tok s w.
Proof.
  revert s. induction w as [| c w IH]; intros s Hs;
    (destruct (ready_cases rs s Hs) as [-> | (pos & below & e & l & -> & Hbe & Ha & [Ht | [Ht Hct]])]).
  - destruct (decide (n_remain partial = 0)); [left; by constructor | right; intros H; by inversion H].
  - destruct (survives_token pos e below partial tok (at_pos_elem _ _ _ _ Ha) Ht) as [-> _]. destruct (decide (n_remain partial = 0)); tauto.
  - destruct (match_char_at rs Hwf _ _ _ Ha Hct) as (k & f & l' & Hk & Haf & Hbf & Hd & Hm).
    destruct (push_next_spec rs _ _ _ _ Haf Hbf Hbe) as (next & En & Hnok & _).
    destruct (survives_char pos e l k f l' below next partial tok Ha Hct Haf Hm En) as [-> _].
    destruct (match_partial_total _ _ _ partial Ha Hct) as [b ->]. destruct (decide (n_remain partial = 0)); [tauto |]. destruct b; [tauto | naive_solver].
  - right. intros H. inversion H.
  - destruct (survives_token pos e below partial tok (at_pos_elem _ _ _ _ Ha) Ht) as [_ S2]. rewrite S2.
    destruct (match_token_total _ _ _ tok Ha Ht) as [b ->]. destruct b; naive_solver.
  - destruct (match_char_at rs Hwf _ _ _ Ha Hct) as (k & f & l' & Hk & Haf & Hbf & Hd & Hm).
    destruct (push_next_spec rs _ _ _ _ Haf Hbf Hbe) as (next & En & Hnok & _).
    destruct (survives_char pos e l k f l' below next partial tok Ha Hct Haf Hm En) as [_ S2]. rewrite S2.
    destruct (Hm c) as (b & Eb & _). rewrite Eb. destruct b; [| naive_solver].
    destruct (advance_stack_spec rs Hwf h nu next [] Hb Hnok) as (nst & _ & Hst). setoid_rewrite elem_of_nil in Hst.
    destruct (exists_dec (fun t => survives rs partial tok t w) nst) as [(t & Hin & Hsv) | Hn].
    + intros t Hin. apply IH. apply Hst in Hin as [[] | [H1 H2]]. split; [by eapply expands_ok | done].
    + left. split; [by eexists |]. apply Hst in Hin as [[] | [H1 H2]]. by exists t.
    + right. intros [_ (t & H1 & H2 & H3)]. apply (Hn t); [apply Hst; by right | done].
Qed.
Lemma reject_for_stack_spec depth s cands : ready rs s -> rest_below depth cands -> (0 < depth)%nat ->
  exists rej, evals (fun fuel => reject_candidates_for_stack depth fuel rs s cands) rej /\ rejects_spec s cands rej.
Proof.
  revert s cands. induction depth as [| depth IH]; intros s cands Hs Hc Hd; [lia |].
  destruct (ready_cases rs s Hs) as [-> | (pos & below & e & l & -> & Hbe & Ha & [Ht | [Ht Hct]])].
  - by apply reject_empty.
  - by eapply reject_token.
  - eapply reject_char; try done. intros Hdp t cs Ht' Hcs. by apply IH.
Qed.
End Reject.

(** * Sampling masks: would_accept and apply against the specification, and against accept_token *)

(** a grammar object in use: well-formed rules with bounded expansions, and stacks at characters or tokens *)
Record grammar_ok (g : llama_grammar) : Prop := {
  go_wf : wf_rules (g_rules g);
  go_bounded : exists (h : ptr -> nat) (nu : ptr -> bool), bounded (g_rules g) h nu;
  go_stacks : stacks_ok (g_rules g) (stacks g);
  go_some : stacks g <> []
}.
(** the characters of a piece in the current state, and what is left of a character *)
Definition decodes (g : llama_grammar) (pc cps : list Z) (partial : llama_partial_utf8) : Prop :=
  decode_utf8 pc (g_partial g) = Ok (cps ++ [0], partial) /\ Forall (fun c => c <> 0) cps.

Lemma fresh_cand_ok i cps partial tok : Forall (fun c => c <> 0) cps -> cand_ok (mkCand i (cps ++ [0]) 0 partial tok).
Proof. intros H. exists cps. split_and!; [done | done | simpl; lia]. Qed.
Lemma fresh_cand_rest i cps partial tok : cand_rest (mkCand i (cps ++ [0]) 0 partial tok) = cps.
Proof. unfold cand_rest. simpl. rewrite drop_0. apply removelast_last. Qed.
Lemma cand_depth_spec cands c : c ∈ cands -> cand_ok c -> (length (cand_rest c) < cand_depth cands)%nat.
Proof.
  intros Hin Hok. assert (Hl : (length (cand_rest c) <= length (code_points c))%nat).
  { unfold cand_rest. destruct (drop (offset c) (code_points c)) as [| x l] eqn:E; [simpl; lia |].
    pose proof (length_drop (code_points c) (offset c)) as Hd. rewrite E in Hd. pose proof (app_removelast_last 0 (l := x :: l) ltac:(done)) as Hr.
    apply (f_equal length) in Hr. rewrite length_app in Hr. simpl length in *. lia. }
  unfold cand_depth. clear Hok. induction cands as [| d cands IH]; [by apply not_elem_of_nil in Hin |]. simpl.
  apply elem_of_cons in Hin as [-> | Hin]; [lia |]. specialize (IH Hin). lia.
Qed.
Lemma reject_candidates_spec g cands : grammar_ok g -> Forall cand_ok cands ->
  exists rej, evals (fun fuel => reject_candidates (cand_depth cands) fuel (g_rules g) (stacks g) cands) rej
    /\ forall c, c ∈ rej <-> c ∈ cands /\ forall s, s ∈ stacks g -> ~ cand_survives (g_rules g) s c.
Proof.
  intros [Hwf (h & nu & Hb) Hst Hne] Hc. rewrite Forall_forall in Hc. apply (reject_by_spec (g_rules g)); [done | |].
  - intros Hd s cs Hs Hcs. unfold stacks_ok in Hst. rewrite Forall_forall in Hst. by apply (reject_for_stack_spec _ Hwf h nu Hb); [apply Hst | |].
  - intros c Hin. split; [by apply Hc |]. by apply cand_depth_spec; [| apply Hc].
Qed.

Lemma stacks_dec g tok cps partial : grammar_ok g ->
  (exists s, s ∈ stacks g /\ survives (g_rules g) partial tok s cps) \/ (forall s, s ∈ stacks g -> ~ survives (g_rules g) partial tok s cps).
Proof.
  intros [Hwf (h & nu & Hb) Hst _]. apply exists_dec. intros s Hs. unfold stacks_ok in Hst. rewrite Forall_forall in Hst.
  by apply (survives_dec _ Hwf h nu Hb), Hst.
Qed.

Lemma would_accept_ok (v : GVocab) (g : llama_grammar) (tok : Z) (cps : list Z) (partial : llama_partial_utf8) :
  grammar_ok g -> awaiting_trigger g = false -> 0 <= tok < gv_n_tokens v -> gv_is_eog v tok = false ->
  peek (gv_piece v tok) <> 0 -> decodes g (gv_piece v tok) cps partial ->
  exists b, evals (fun fuel => would_accept fuel v g tok) b /\ (b = true <-> exists s, s ∈ stacks g /\ survives (g_rules g) partial tok s cps).
Proof.
  intros Hg Hw Ht He Hp [Hd Hz]. set (c := mkCand 0 (cps ++ [0]) 0 partial tok).
  destruct (reject_candidates_spec g [c] Hg) as (rej & [n E] & Hrej); [by repeat constructor; apply fresh_cand_ok |].
  exists (bool_decide (length rej = 0%nat)). split.
  - exists n. intros fuel Hf. unfold would_accept, piece, blank. rewrite Hw, He, (proj2 (Z.leb_le 0 tok)), (proj2 (Z.ltb_lt tok _)) by lia. cbn [andb rbind].
    rewrite (proj2 (Z.eqb_neq _ 0)) by done. rewrite Hd. cbn [rbind]. fold c. by rewrite E.
  - assert (Hall : forall d, d ∈ rej -> d ∈ [c]) by (intros d Hd'; by apply Hrej in Hd' as [? _]).
    specialize (Hrej c). unfold cand_survives in Hrej. subst c. rewrite fresh_cand_rest in Hrej. simpl in Hrej. rewrite bool_decide_eq_true. split.
    + intros H0%nil_length_inv. subst rej. destruct (stacks_dec g tok cps partial Hg) as [? | Hn]; [done |].
      exfalso. apply (not_elem_of_nil (A := llama_grammar_candidate) (mkCand 0 (cps ++ [0]) 0 partial tok)), Hrej. split; [left | done].
    + intros (s & Hs & Hsv). destruct rej as [| d rej]; [done |]. exfalso. 
      assert (Hd' : d ∈ [mkCand 0 (cps ++ [0]) 0 partial tok]) by (apply Hall; left). apply list_elem_of_singleton in Hd' as ->.
      destruct (proj1 Hrej ltac:(left)) as [_ Hn]. by apply (Hn s).
Qed.
(** The test of a single token is exact.  For a token that does not end the generation,
    would_accept answers, given enough steps, true exactly when some stack of the grammar lets the
    token through: its characters match along the expansions of the grammar, a token element on
    the way takes it by id, and an incomplete last character fits the position reached. *)
Theorem would_accept_exact (v : GVocab) (g : llama_grammar) (tok : Z) (cps : list Z) (partial : llama_partial_utf8) :
  grammar_ok g -> awaiting_trigger g = false -> 0 <= tok < gv_n_tokens v -> gv_is_eog v tok = false ->
  peek (gv_piece v tok) <> 0 -> decodes g (gv_piece v tok) cps partial ->
  exists b, evals (fun fuel => would_accept fuel v g tok) b /\ (b = true <-> exists s, s ∈ stacks g /\ survives (g_rules g) partial tok s cps).
Proof. apply would_accept_ok. Qed.

(** ** Accepting a token *)
(** the stacks one character leads to *)
Definition steps_to (rs : llama_grammar_rules) (c : Z) (s t : llama_grammar_stack) : Prop :=
  exists pos below e after next, s = pos :: below /\ elem_at rs pos = Ok e /\ char_type (etype e) = true /\ match_char rs pos c = Ok (true, after)
    /\ push_next rs after below = Ok next /\ rtc (expand rs) next t /\ terminal rs t.
Section AcceptToken.
Context (rs : llama_grammar_rules) (Hwf : wf_rules rs) (h : ptr -> nat) (nu : ptr -> bool) (Hb : bounded rs h nu).
Lemma accept_chr_exact s c ns : ready rs s -> exists out, evals (fun fuel => accept_chr fuel rs s c ns) out /\ forall t, t ∈ out <-> t ∈ ns \/ steps_to rs c s t.
Proof.
  intros Hr. destruct (ready_cases rs s Hr) as [-> | (pos & below & e & l & -> & Hbe & Ha & Ht)].
  { exists ns. split; [apply evals_const |]. intros t. split; [by left |]. intros [? | (pos & below & ? & ? & ? & ? & _)]; [done | done]. }
  pose proof (at_pos_elem _ _ _ _ Ha) as He. destruct Ht as [Ht | [Ht Hc]].
  { exists ns. split; [exists 0%nat; intros fuel _; unfold accept_chr; rewrite He; cbn [rbind]; by rewrite Ht |]. intros t. split; [by left |].
    intros [? | (pos' & below' & e' & ? & ? & [= <- <-] & He' & Hc' & _)]; [done |]. assert (e' = e) as -> by congruence. by destruct (etype e). }
  destruct (match_char_at rs Hwf _ _ _ Ha Hc) as (k & f & l' & Hk & Haf & Hbf & Hd & Hm). destruct (Hm c) as (b & Em & _).
  destruct (push_next_spec rs _ _ _ _ Haf Hbf Hbe) as (next & En & Hnok & _).
  assert (Eq : forall fuel, accept_chr fuel rs (pos :: below) c ns = if b then advance_stack fuel rs next ns else Ok ns).
  { intros fuel. unfold accept_chr. rewrite He. cbn [rbind]. rewrite Ht, Em. cbn [rbind]. destruct b; [| done]. by rewrite En. }
  destruct b.
  - destruct (advance_stack_spec rs Hwf h nu next ns Hb Hnok) as (out & E & Ho). exists out. split; [eapply evals_ext; [exact Eq | exact E] |].
    intros t. rewrite Ho. split; (intros [? | H]; [by left | right]).
    + by exists pos, below, e, (shift pos k), next.
    + destruct H as (pos' & below' & e' & after & next' & [= <- <-] & _ & _ & Hmm & Hpn & H1 & H2).
      assert (after = shift pos k) as -> by congruence. assert (next' = next) as -> by congruence. done.
  - exists ns. split; [exists 0%nat; intros fuel _; apply Eq |]. intros t. split; [by left |].
    intros [? | (pos' & below' & e' & after & next' & [= <- <-] & _ & _ & Hmm & _)]; [done | congruence].
Qed.
Lemma accept_chr_all_exact sts c ns : stacks_ok rs sts ->
  exists out, evals (fun fuel => accept_chr_all fuel rs sts c ns) out /\ forall t, t ∈ out <-> t ∈ ns \/ exists s, s ∈ sts /\ steps_to rs c s t.
Proof.
  revert ns. induction sts as [| s sts IH]; intros ns Hs.
  { exists ns. split; [apply evals_const |]. setoid_rewrite elem_of_nil. naive_solver. }
  apply Forall_cons in Hs as [Hr Hs]. destruct (accept_chr_exact s c ns Hr) as (out1 & E1 & H1). destruct (IH out1 Hs) as (out & E2 & H2).
  exists out. split; [by eapply evals_bind |]. intros t. rewrite H2, H1. setoid_rewrite elem_of_cons. naive_solver.
Qed.
Lemma steps_to_ready c s t : stack_ok rs s -> steps_to rs c s t -> ready rs t.
Proof.
  intros Hs (pos & below & e & after & next & -> & He & Hc & Hm & Hn & H1 & H2). split; [| done]. apply Forall_cons in Hs as [Hp Hbe].
  destruct (ptr_ok_elem rs _ Hp) as (e' & l & Ha & He' & _). assert (e' = e) as -> by congruence.
  destruct (match_char_at rs Hwf _ _ _ Ha Hc) as (k & f & l' & _ & Haf & Hbf & _ & Hmm). destruct (Hmm c) as (b & Eb & _).
  assert (after = shift pos k) as -> by congruence. destruct (push_next_spec rs _ _ _ _ Haf Hbf Hbe) as (next' & En & Hok & _).
  assert (next' = next) as -> by congruence. by eapply expands_ok.
Qed.
(** without token elements and with all characters complete, a stack lets a token through when a run over its characters ends *)
Inductive runs : list Z -> llama_grammar_stack -> llama_grammar_stack -> Prop :=
| runs_nil s : runs [] s s
| runs_cons c w s t u : steps_to rs c s t -> runs w t u -> runs (c :: w) s u.
Lemma run_chars_exact cps current : stacks_ok rs current ->
  exists out, evals (fun fuel => run_chars fuel rs cps current) out /\ forall u, u ∈ out <-> exists s, s ∈ current /\ runs cps s u.
Proof.
  revert current. induction cps as [| c cps IH]; intros current Hc.
  { exists current. split; [apply evals_const |]. intros u. split; [intros Hu; exists u; split; [done | constructor] |]. intros (s & Hs & Hr). by inversion Hr; subst. }
  destruct (accept_chr_all_exact current c [] Hc) as (next & E & Hn).
  assert (Hnok : stacks_ok rs next).
  { apply Forall_forall. intros t Ht. apply Hn in Ht as [Ht | (s & Hs & Ht)]; [by apply not_elem_of_nil in Ht |]. eapply steps_to_ready; [| done].
    unfold stacks_ok in Hc. rewrite Forall_forall in Hc. by apply Hc. }
  destruct (IH next Hnok) as (out & E2 & Ho). exists out. split.
  - cbn [run_chars]. eapply evals_bind; [exact E |]. destruct next as [| t next]; [| done].
    assert (out = []) as ->; [| apply evals_const]. apply elem_of_nil_inv. intros u Hu. apply Ho in Hu as (s & Hs & _). by apply not_elem_of_nil in Hs.
  - intros u. rewrite Ho. setoid_rewrite Hn. setoid_rewrite elem_of_nil. split.
    + intros (t & [[] | (s & Hs & Hst)] & Hr). exists s. split; [done |]. by econstructor.
    + intros (s & Hs & Hr). inversion Hr as [| ? ? ? t ? H1 H2]; subst. exists t. split; [right; by exists s | done].
Qed.
Definition no_tokens : Prop := Forall (Forall (fun e => is_token_type (etype e) = false)) rs.
Lemma no_tokens_at pos e : no_tokens -> elem_at rs pos = Ok e -> is_token_type (etype e) = false.
Proof.
  intros Hn He. destruct (elem_at_at_pos _ _ _ He) as (l & r & pre & Hr & -> & _). unfold no_tokens in Hn. rewrite Forall_forall in Hn.
  specialize (Hn _ (vlookup_elem_of _ _ _ Hr)). rewrite Forall_app, Forall_cons in Hn. tauto.
Qed.
Lemma survives_runs partial tok s cps : no_tokens -> n_remain partial = 0 -> ready rs s -> survives rs partial tok s cps <-> exists u, runs cps s u.
Proof.
  intros Hnt Hp. revert s. induction cps as [| c cps IH]; intros s Hs.
  - split; [intros _; exists s; constructor |]. intros _. destruct (ready_cases rs s Hs) as [-> | (pos & below & e & l & -> & _ & Ha & [Ht | [_ Ht]])].
    + by constructor.
    + by eapply sv_token_end; [eapply at_pos_elem | |].
    + eapply sv_char_end; [by eapply at_pos_elem | done | by left].
  - split.
    + intros H. inversion H as [| | pos below e ? ? He Ht | | pos below e ? ? after next t He Hc Hm Hn Hr Ht Hsv]; subst.
      * by rewrite (no_tokens_at _ _ Hnt He) in Ht.
      * assert (Hst : steps_to rs c (pos :: below) t) by by exists pos, below, e, after, next.
        apply IH in Hsv as (u & Hu); [exists u; by econstructor |]. eapply steps_to_ready; [apply Hs | done].
    + intros (u & Hu). inversion Hu as [| ? ? ? t ? H1 H2]; subst.
      assert (Hsv : survives rs partial tok t cps) by (apply IH; [eapply steps_to_ready; [apply Hs | done] | by exists u]).
      destruct H1 as (pos & below & e & after & next & -> & He & Hc & Hm & Hn & Hr & Ht). by eapply sv_char.
Qed.
Lemma foldl_add_stack l ns t : t ∈ foldl (fun acc s => add_stack s acc) ns l <-> t ∈ ns \/ t ∈ l.
Proof.
  revert ns. induction l as [| s l IH]; intros ns; simpl; [rewrite elem_of_nil; tauto |]. rewrite IH, add_stack_spec, elem_of_cons. tauto.
Qed.
Lemma accept_token_stacks_exact tok cps sts ns : no_tokens -> stacks_ok rs sts ->
  exists out, evals (fun fuel => accept_token_stacks fuel rs tok cps sts ns) out
    /\ forall u, u ∈ out <-> u ∈ ns \/ exists s, s ∈ sts /\ s <> [] /\ runs cps s u.
Proof.
  intros Hnt. revert ns. induction sts as [| s sts IH]; intros ns Hs.
  { exists ns. split; [apply evals_const |]. setoid_rewrite elem_of_nil. naive_solver. }
  apply Forall_cons in Hs as [Hr Hs]. destruct s as [| pos below].
  { destruct (IH ns Hs) as (out & E & Ho). exists out. split; [done |]. intros u. rewrite Ho. setoid_rewrite elem_of_cons. naive_solver. }
  destruct (ready_cases rs _ Hr) as [? | (pos' & below' & e & l & [= <- <-] & _ & Ha & _)]; [done |]. pose proof (at_pos_elem _ _ _ _ Ha) as He.
  destruct (run_chars_exact cps [pos :: below]) as (sv & Es & Hsv); [by apply Forall_singleton |].
  destruct (IH (foldl (fun acc s => add_stack s acc) ns sv) Hs) as (out & E & Ho). exists out. split.
  - cbn [accept_token_stacks]. rewrite He. cbn [rbind]. rewrite (no_tokens_at _ _ Hnt He). eapply evals_bind; [| exact E].
    eapply evals_bind; [exact Es |]. apply evals_const.
  - intros u. rewrite Ho, foldl_add_stack, Hsv. setoid_rewrite list_elem_of_singleton. setoid_rewrite elem_of_cons. naive_solver.
Qed.
End AcceptToken.

(** C20: The mask agrees with acceptance.  In a grammar without token elements that does not wait for a trigger, for a token of
    the vocabulary that does not end generation, has a non-empty piece and leaves no character unfinished at its end, would_accept says true exactly when accept_token succeeds, and false
    exactly when accept_token throws its "unexpected empty grammar stack". *)
Theorem mask_agrees_with_accept (v : GVocab) (g : llama_grammar) (tok : Z) (cps : list Z) (partial : llama_partial_utf8) :
  grammar_ok g -> no_tokens (g_rules g) -> awaiting_trigger g = false -> 0 <= tok < gv_n_tokens v -> gv_is_eog v tok = false ->
  peek (gv_piece v tok) <> 0 -> decodes g (gv_piece v tok) cps partial -> cps <> [] -> n_remain partial = 0 ->
  exists n b, forall fuel, (n <= fuel)%nat -> would_accept fuel v g tok = Ok b /\
    match accept_token fuel g tok (gv_piece v tok) with
    | Ok g' => b = true /\ grammar_ok g'
    | Err e => b = false /\ e = Throw "Unexpected empty grammar stack after accepting piece"
    end.
Proof.
  intros Hg Hnt Hw Ht He Hp Hd Hne Hn. destruct (would_accept_ok v g tok cps partial Hg Hw Ht He Hp Hd) as (b & [n1 E1] & Hb).
  destruct Hg as [Hwf (h & nu & Hbd) Hst Hsome]. destruct (accept_token_stacks_exact _ Hwf h nu Hbd tok cps (stacks g) [] Hnt Hst) as (out & [n2 E2] & Ho).
  exists (Nat.max n1 n2), b. intros fuel Hf. split; [apply E1; lia |]. unfold accept_token. rewrite (proj1 Hd). cbn [rbind]. rewrite removelast_last, E2 by lia. cbn [rbind].
  unfold stacks_ok in Hst. rewrite Forall_forall in Hst.
  assert (Hiff : b = true <-> exists u, u ∈ out).
  { rewrite Hb. setoid_rewrite Ho. setoid_rewrite elem_of_nil. split.
    - intros (s & Hs & Hsv). apply (survives_runs _ Hwf) in Hsv as (u & Hu); [| done | done | by apply Hst]. exists u. right. exists s. split_and!; [done | | done].
      intros ->. destruct cps; [done |]. inversion Hu as [| ? ? ? ? ? Hx]; subst. by destruct Hx as (? & ? & ? & ? & ? & ? & _).
    - intros (u & [[] | (s & Hs & _ & Hr)]). exists s. split; [done |]. apply (survives_runs _ Hwf); [done | done | by apply Hst | by exists u]. }
  case_bool_decide as Ho2.
  - split; [| done]. destruct b; [| done]. destruct (proj1 Hiff eq_refl) as (u & Hu). rewrite Ho2 in Hu. by apply not_elem_of_nil in Hu.
  - split; [apply Hiff; destruct out as [| u out]; [done |]; exists u; left |]. split; simpl; [done | by exists h, nu | | done].
    apply Forall_forall. intros u Hu. apply Ho in Hu as [Hu | (s & Hs & _ & Hr)]; [by apply not_elem_of_nil in Hu |]. pose proof (Hst s Hs) as Hrs.
    clear -Hwf Hr Hrs. induction Hr as [| c w s t u H1 _ IH]; [done |]. apply IH. eapply steps_to_ready; [done | apply Hrs | done].
Qed.
