(* ===== verification/GrammarApply.v ===== *)
(** * llama_grammar_apply_impl masks exactly the tokens would_accept refuses; what the checks miss *)

From S2P Require Import Prelude Text Utf8 GrammarParse GrammarParseFacts GrammarParseProps GrammarMatch GrammarSem GrammarAdvance GrammarProps GrammarAgree.

From Stdlib Require SpecFloat.

Lemma vlookup_vinsert {A} (l : list A) i x j y : vlookup l j = Some y -> vlookup (vinsert i x l) j = Some (if bool_decide (i = j) then x else y).
Proof.
  intros H. case_bool_decide as E; [subst; apply vlookup_vinsert_eq; by eapply vlookup_Some_range | by rewrite vlookup_vinsert_ne].
Qed.
Lemma mask_all_spec rejects logits : (forall c, c ∈ rejects -> 0 <= index c < Zlen logits) ->
  exists out, mask_all rejects logits = Ok out /\ Zlen out = Zlen logits
    /\ forall j x, vlookup logits j = Some x -> vlookup out j = Some (if bool_decide (j ∈ index <$> rejects) then ninf else x).
Proof.
  revert logits. induction rejects as [| c rejects IH]; intros logits Hr; [by exists logits |]. cbn [mask_all].
  rewrite vset_Ok by (apply Hr; left). cbn [rbind]. destruct (IH (vinsert (index c) ninf logits)) as (out & -> & Hl & Hv).
  { intros d Hd. rewrite Zlen_vinsert. apply Hr. by right. }
  exists out. split_and!; [done | by rewrite Hl, Zlen_vinsert |]. intros j x Hx. rewrite (Hv j _ (vlookup_vinsert _ _ _ _ _ Hx)).
  cbn [fmap list_fmap]. f_equal. repeat case_bool_decide; try done; set_solver.
Qed.

Section Apply.
Context (v : GVocab) (g : llama_grammar) (logits0 : list SpecFloat.spec_float).
Context (Hlen : Zlen logits0 <= gv_n_tokens v).
Context (Hdec : forall id, 0 <= id < Zlen logits0 -> gv_is_eog v id = false -> peek (gv_piece v id) <> 0 -> exists cps partial, decodes g (gv_piece v id) cps partial).

Definition excluded (x : SpecFloat.spec_float) : bool := SpecFloat.SFeqb x ninf.
(** masked while the candidates are collected *)
Definition drops (allow : bool) (x : SpecFloat.spec_float) (j : Z) : bool :=
  negb (excluded x) && (if gv_is_eog v j then negb allow else blank (gv_piece v j)).
(** a candidate for the grammar *)
Definition considered (x : SpecFloat.spec_float) (j : Z) : bool := negb (excluded x) && negb (gv_is_eog v j) && negb (blank (gv_piece v j)).

Lemma piece_ok j : 0 <= j < Zlen logits0 -> piece v j = Ok (gv_piece v j).
Proof. intros H. unfold piece. by rewrite (proj2 (Z.leb_le 0 j)), (proj2 (Z.ltb_lt j _)) by lia. Qed.

(** the result of collecting: the logits with the entries from [id] on masked, and the candidates from [from] on *)
Definition cand_from (from : Z) (c : llama_grammar_candidate) : Prop := exists j x cps partial, from <= j /\ vlookup logits0 j = Some x
  /\ considered x j = true /\ decodes g (gv_piece v j) cps partial /\ c = mkCand j (cps ++ [0]) 0 partial j.
Definition scanned (allow : bool) (id from : Z) (logits : list SpecFloat.spec_float) (r : res (list SpecFloat.spec_float * list llama_grammar_candidate)) : Prop :=
  exists out cands, r = Ok (out, cands) /\ Zlen out = Zlen logits0
    /\ (forall j x, vlookup logits j = Some x -> vlookup out j = Some (if (id <=? j) && drops allow x j then ninf else x))
    /\ (forall c, c ∈ cands <-> cand_from from c).
Lemma apply_scan_spec allow n id logits : 0 <= id -> id + Z.of_nat n = Zlen logits0 -> Zlen logits = Zlen logits0 ->
  (forall j, id <= j < Zlen logits0 -> vlookup logits j = vlookup logits0 j) ->
  scanned allow id id logits (apply_scan v g allow n id logits).
Proof.
  revert id logits. induction n as [| n IH]; intros id logits Hid Hn Hl Hsame.
  { exists logits, []. split_and!; [done | done | |].
    - intros j x Hx. apply vlookup_Some_range in Hx as Hr. by rewrite (proj2 (Z.leb_gt id j)) by lia.
    - intros c. rewrite elem_of_nil. split; [done |]. intros (j & x & ? & ? & Hj & Hx & _). apply vlookup_Some_range in Hx. lia. }
  destruct (vlookup_lt_is_Some logits0 id ltac:(lia)) as [x Hx]. pose proof (Hsame id ltac:(lia)) as Hx'. rewrite Hx in Hx'.
  (* one entry: the rest starts from logits that differ at most at this entry *)
  assert (Hgo : forall logits1, Zlen logits1 = Zlen logits0 -> (forall j y, vlookup logits j = Some y -> vlookup logits1 j = Some (if bool_decide (j = id) && drops allow x id then ninf else y)) ->
    scanned allow id (id + 1) logits (apply_scan v g allow n (id + 1) logits1)).
  { intros logits1 Hl1 H1. destruct (IH (id + 1) logits1) as (out & cands & E & Ho & Hv & Hc); [lia | lia | done | |].
    - intros j Hj. rewrite <- Hsame by lia. destruct (vlookup_lt_is_Some logits j ltac:(lia)) as [y Hy]. rewrite Hy, (H1 j y Hy).
      by rewrite bool_decide_eq_false_2 by lia.
    - exists out, cands. split_and!; [done | done | | done]. intros j y Hy. rewrite (Hv j _ (H1 j y Hy)). destruct (decide (j = id)) as [-> | Hne].
      + assert (y = x) as -> by congruence. rewrite (proj2 (Z.leb_gt (id + 1) id)), Z.leb_refl by lia. by rewrite bool_decide_eq_true_2.
      + rewrite bool_decide_eq_false_2 by done. cbn [andb]. destruct (id <=? j) eqn:E1, (id + 1 <=? j) eqn:E2; try done; lia. }
  assert (Hkeep : drops allow x id = false -> scanned allow id (id + 1) logits (apply_scan v g allow n (id + 1) logits)).
  { intros Hd. apply Hgo; [done |]. intros j y Hy. by rewrite Hd, andb_false_r. }
  assert (Hmask : drops allow x id = true -> exists l1, vset logits id ninf = Ok l1 /\ scanned allow id (id + 1) logits (apply_scan v g allow n (id + 1) l1)).
  { intros Hd. exists (vinsert id ninf logits). split; [apply vset_Ok; lia |]. apply Hgo; [by rewrite Zlen_vinsert |].
    intros j y Hy. rewrite (vlookup_vinsert _ _ _ _ _ Hy), Hd, andb_true_r. by repeat case_bool_decide. }
  (* the candidates from [id] on are those behind it when the entry is no candidate *)
  assert (Hnc : considered x id = false -> forall c, cand_from (id + 1) c <-> cand_from id c).
  { intros Hn0 c. split; intros (j & y & cps & pa & Hj & H1 & H2 & H3); exists j, y, cps, pa; (split; [| done]); [lia |].
    destruct (decide (j = id)) as [-> |]; [congruence | lia]. }
  cbn [apply_scan]. unfold vget. rewrite Hx'. cbn [rbind]. fold (excluded x). unfold drops, considered in Hkeep, Hmask, Hnc. revert Hkeep Hmask Hnc.
  destruct (excluded x) eqn:Eex; cbn [negb andb]; intros Hkeep Hmask Hnc.
  { destruct (Hkeep eq_refl) as (out & cands & E & Ho & Hv & Hc). exists out, cands. split_and!; try done. intros c. rewrite Hc. by apply Hnc. }
  rewrite piece_ok by lia. cbn [rbind]. destruct (gv_is_eog v id) eqn:Eeog; cbn [negb andb] in *.
  { destruct allow; cbn [negb rbind] in *.
    - destruct (Hkeep eq_refl) as (out & cands & E & Ho & Hv & Hc). exists out, cands. split_and!; try done. intros c. rewrite Hc. by apply Hnc.
    - destruct (Hmask eq_refl) as (l1 & -> & out & cands & E & Ho & Hv & Hc). exists out, cands. split_and!; try done. intros c. rewrite Hc. by apply Hnc. }
  destruct (blank (gv_piece v id)) eqn:Ebl; cbn [negb] in *.
  { destruct (Hmask eq_refl) as (l1 & -> & out & cands & E & Ho & Hv & Hc). exists out, cands. split_and!; try done. intros c. rewrite Hc. by apply Hnc. }
  destruct (Hkeep eq_refl) as (out & cands & E & Ho & Hv & Hc). unfold blank in Ebl. apply Z.eqb_neq in Ebl.
  destruct (Hdec id ltac:(lia) Eeog Ebl) as (cps & pa & Hd). pose proof Hd as [Hd1 _]. rewrite Hd1. cbn [rbind]. rewrite E. cbn [rbind].
  exists out, (mkCand id (cps ++ [0]) 0 pa id :: cands). split_and!; try done. intros c. rewrite elem_of_cons, Hc. split.
  - intros [-> | (j & y & cps' & pa' & Hj & H1)]; [| exists j, y, cps', pa'; split; [lia | done]]. exists id, x, cps, pa. split_and!; try done.
    unfold considered, blank. rewrite Eex, Eeog, (proj2 (Z.eqb_neq _ 0)) by done. done.
  - intros (j & y & cps' & pa' & Hj & H1 & H2 & [H3 H4] & ->). destruct (decide (j = id)) as [-> |]; [left | right; exists j, y, cps', pa'; split; [lia | done]].
    rewrite H3 in Hd1. injection Hd1 as Hcp ->. apply app_inv_tail in Hcp as ->. done.
Qed.
End Apply.

(** C21: The mask over the vocabulary is the test of each token.  llama_grammar_apply_impl, which
    decodes all pieces once and rejects the candidates in batches along the grammar, leaves every
    logit as it was when it is already excluded or would_accept accepts its token, and sets it to
    minus infinity otherwise. *)
Theorem apply_masks_exactly (v : GVocab) (g : llama_grammar) (logits : list SpecFloat.spec_float) :
  grammar_ok g -> awaiting_trigger g = false -> Zlen logits <= gv_n_tokens v ->
  (forall id, 0 <= id < Zlen logits -> gv_is_eog v id = false -> peek (gv_piece v id) <> 0 -> exists cps partial, decodes g (gv_piece v id) cps partial) ->
  exists out, evals (fun fuel => apply_impl fuel v g logits) out /\ Zlen out = Zlen logits
    /\ forall id x, vlookup logits id = Some x -> exists b, evals (fun fuel => would_accept fuel v g id) b
         /\ vlookup out id = Some (if excluded x || b then x else ninf).
Proof.
  intros Hg Hw Hlen Hdec.
  destruct (apply_scan_spec v g logits Hlen Hdec (accepts_end g) (length logits) 0 logits) as (l1 & cands & Es & Hl1 & Hv1 & Hc); [lia | done | done | done |].
  destruct (reject_candidates_spec g cands Hg) as (rej & [n Er] & Hrej).
  { apply Forall_forall. intros c (j & x & cps & pa & _ & _ & _ & [_ Hz] & ->)%Hc. by apply fresh_cand_ok. }
  destruct (mask_all_spec rej l1) as (out & Em & Hlo & Hvo).
  { intros c [(j & x & cps & pa & _ & Hx & _ & _ & ->)%Hc _]%Hrej. simpl. rewrite Hl1. by eapply vlookup_Some_range. }
  exists out. split_and!; [| by rewrite Hlo |].
  { exists n. intros fuel Hf. unfold apply_impl. rewrite Hw, Es. cbn [rbind]. by rewrite Er by done. }
  intros id x Hx. pose proof (vlookup_Some_range _ _ _ Hx) as Hr. pose proof (Hv1 id x Hx) as Hx1. rewrite (proj2 (Z.leb_le 0 id)) in Hx1 by lia. cbn [andb] in Hx1.
  rewrite (Hvo id _ Hx1). unfold drops in *.
  (* an entry that is no candidate is not touched by the rejects *)
  assert (Hnot : considered v x id = false -> bool_decide (id ∈ index <$> rej) = false).
  { intros Hn0. apply bool_decide_eq_false. intros (c & -> & [(j & y & cps & pa & _ & Hy & Hcy & _ & ->)%Hc _]%Hrej)%list_elem_of_fmap. simpl in *. congruence. }
  assert (Hpc : piece v id = Ok (gv_piece v id)) by (apply (piece_ok v logits Hlen); lia).
  unfold considered in Hnot. destruct (gv_is_eog v id) eqn:Eeog.
  { exists (accepts_end g). split; [exists 0%nat; intros fuel _; unfold would_accept; by rewrite Hw, Eeog |].
    rewrite Hnot by (by rewrite andb_false_r). by destruct (excluded x), (accepts_end g). }
  destruct (blank (gv_piece v id)) eqn:Ebl.
  { exists false. split; [exists 0%nat; intros fuel _; unfold would_accept; by rewrite Hw, Eeog, Hpc; cbn [rbind]; rewrite Ebl |].
    rewrite Hnot by (by rewrite andb_false_r). by destruct (excluded x). }
  unfold blank in Ebl. apply Z.eqb_neq in Ebl. destruct (Hdec id Hr Eeog Ebl) as (cps & pa & Hd).
  destruct (would_accept_ok v g id cps pa Hg Hw ltac:(lia) Eeog Ebl Hd) as (b & Eb & Hb). exists b. split; [done |].
  destruct (excluded x) eqn:Eex; cbn [negb andb orb] in *; [by rewrite Hnot |].
  set (c := mkCand id (cps ++ [0]) 0 pa id).
  assert (Hcin : c ∈ cands).
  { apply Hc. exists id, x, cps, pa. split_and!; [lia | done | | done | done]. unfold considered, blank. by rewrite Eex, Eeog, (proj2 (Z.eqb_neq _ 0)). }
  assert (Hiff : id ∈ index <$> rej <-> forall s, s ∈ stacks g -> ~ survives (g_rules g) pa id s cps).
  { assert (Hcr : c ∈ rej <-> forall s, s ∈ stacks g -> ~ survives (g_rules g) pa id s cps).
    { rewrite Hrej. unfold cand_survives. subst c. rewrite fresh_cand_rest. simpl. tauto. }
    rewrite <- Hcr. split; [| intros Hin; by apply (list_elem_of_fmap_2 index rej c)]. intros (d & Hid & Hdr)%list_elem_of_fmap.
    pose proof Hdr as [(j & y & cps' & pa' & _ & _ & _ & [Hd1 _] & ->)%Hc _]%Hrej. simpl in Hid. subst j. destruct Hd as [Hd2 _].
    rewrite Hd1 in Hd2. injection Hd2 as Hcp ->. apply app_inv_tail in Hcp as ->. done. }
  destruct b.
  - rewrite bool_decide_eq_false_2; [done |]. intros Hin. destruct (proj1 Hb eq_refl) as (s & Hs & Hsv). by apply (proj1 Hiff Hin s).
  - rewrite bool_decide_eq_true_2; [done |]. apply Hiff. intros s Hs Hsv. by assert (false = true) by (apply Hb; by exists s).
Qed.

(** ** A concrete grammar and vocabulary *)
Definition demo_vocab : GVocab := mkGVocab 4 (fun t => t =? 0) (fun t => if t =? 1 then bytes "xyq" else if t =? 2 then bytes "a" else if t =? 3 then bytes "zz" else []).
Lemma demo_grammar_ok : grammar_ok demo_grammar_obj.
Proof.
  split.
  - assert (E : g_rules demo_grammar_obj = rules demo_parser) by (vm_compute; reflexivity). rewrite E.
    apply (parse_wf_rules None demo_grammar); [repeat constructor; discriminate | vm_compute; reflexivity].
  - exists demo_height, demo_nullable. apply bounded_check_sound. vm_compute. reflexivity.
  - apply Forall_forall. intros s Hs. apply ready_check_sound.
    assert (G : forallb (ready_check (g_rules demo_grammar_obj)) (stacks demo_grammar_obj) = true) by (vm_compute; reflexivity).
    rewrite forallb_forall in G. by apply G, list_elem_of_In.
  - vm_compute. discriminate.
Qed.
Lemma demo_decodes : decodes demo_grammar_obj (gv_piece demo_vocab 1) [120; 121; 113] (mkPartial 113 0).
Proof. split; [vm_compute; reflexivity | repeat constructor; discriminate]. Qed.
Lemma would_accept_exact_witness : exists b, evals (fun fuel => would_accept fuel demo_vocab demo_grammar_obj 1) b
  /\ (b = true <-> exists s, s ∈ stacks demo_grammar_obj /\ survives (g_rules demo_grammar_obj) (mkPartial 113 0) 1 s [120; 121; 113]).
Proof. apply (would_accept_exact demo_vocab); [exact demo_grammar_ok | vm_compute; reflexivity | by vm_compute | done | by vm_compute | exact demo_decodes]. Defined.
Lemma demo_no_tokens : no_tokens (g_rules demo_grammar_obj).
Proof.
  assert (H : forallb (forallb (fun e => negb (is_token_type (etype e)))) (g_rules demo_grammar_obj) = true) by (vm_compute; reflexivity).
  apply Forall_forall. intros r Hr. rewrite forallb_forall in H. specialize (H r (proj1 (list_elem_of_In _ _) Hr)).
  apply Forall_forall. intros e He. rewrite forallb_forall in H. specialize (H e (proj1 (list_elem_of_In _ _) He)). by apply negb_true_iff.
Qed.
Lemma mask_agrees_with_accept_witness : exists n b, forall fuel, (n <= fuel)%nat -> would_accept fuel demo_vocab demo_grammar_obj 1 = Ok b /\
  match accept_token fuel demo_grammar_obj 1 (gv_piece demo_vocab 1) with
  | Ok g' => b = true /\ grammar_ok g'
  | Err e => b = false /\ e = Throw "Unexpected empty grammar stack after accepting piece" end.
Proof.
  apply (mask_agrees_with_accept demo_vocab demo_grammar_obj 1 [120; 121; 113] (mkPartial 113 0));
    [exact demo_grammar_ok | exact demo_no_tokens | vm_compute; reflexivity | by vm_compute | done | by vm_compute | exact demo_decodes | done | done].
Defined.
Lemma apply_masks_exactly_witness : exists out, evals (fun fuel => apply_impl fuel demo_vocab demo_grammar_obj [SpecFloat.S754_zero false; SpecFloat.S754_zero false]) out /\ Zlen out = 2
  /\ forall id x, vlookup [SpecFloat.S754_zero false; SpecFloat.S754_zero false] id = Some x -> exists b, evals (fun fuel => would_accept fuel demo_vocab demo_grammar_obj id) b
       /\ vlookup out id = Some (if excluded x || b then x else ninf).
Proof.
  apply (apply_masks_exactly demo_vocab demo_grammar_obj [SpecFloat.S754_zero false; SpecFloat.S754_zero false]);
    [exact demo_grammar_ok | vm_compute; reflexivity | by vm_compute |].
  intros id Hid Hn _. change (Zlen [SpecFloat.S754_zero false; SpecFloat.S754_zero false]) with 2 in Hid.
  assert (id = 0 \/ id = 1) as [-> | ->] by lia; [done | exists [120; 121; 113], (mkPartial 113 0); exact demo_decodes].
Defined.

(** * Grammars on which the engine does not do what it means to *)

(** A token element behind characters splits the mask from acceptance.  In the grammar
    root ::= "a" <[5]>, where token 5 is the text "ab", the candidate test meets the token element in
    the middle of token 5 and compares the id only: would_accept allows token 5 as first token, and
    accepting it throws "unexpected empty grammar stack". *)
Theorem token_element_mid_token :
  let v := mkGVocab 6 (fun _ => false) (fun t => if t =? 5 then bytes "ab" else bytes "a") in
  exists g, init_impl 10 None (quoted "root ::= `a` <[5]>") (bytes "root") false [] [] = Ok (Some g)
    /\ would_accept 10 v g 5 = Ok true
    /\ accept_impl 10 v g 5 = throw! "Unexpected empty grammar stack after accepting piece".
Proof. eexists. split; [vm_compute; reflexivity |]. split; vm_compute; reflexivity. Qed.

(** A start symbol that is only mentioned is used out of bounds.  The validation looks at the
    references that remain in the rules: a reference removed by a repetition of zero, as in
    a ::= root{0}, leaves "root" in the symbol table with no rule, and building the grammar reads
    past the vector of rules. *)
Theorem undefined_start_rule (fuel : nat) :
  init_impl fuel None (bytes "a ::= root{0}") (bytes "root") false [] [] = Err (UB "vector index out of range").
Proof. vm_compute. reflexivity. Qed.

(** The test of an incomplete character is wrong for negated classes.  For the class [^é] (U+00E9)
    and the first byte 0xC3 of a two-byte character, match_partial_char says that no continuation
    can match, although the continuation U+00E8 does: tokens that end with this byte are masked. *)
Theorem negated_partial_too_strict :
  exists p, parse None (bytes "root ::= [^\xE9]") = Ok (Some p)
    /\ decode_utf8 [0xC3] (mkPartial 0 0) = Ok ([0], mkPartial 3 1)
    /\ match_partial_char (rules p) (0, 0) (mkPartial 3 1) = Ok false
    /\ decode_utf8 [0xA8] (mkPartial 3 1) = Ok ([0xE8; 0], mkPartial 0xE8 0)
    /\ exists after, match_char (rules p) (0, 0) 0xE8 = Ok (true, after).
Proof. eexists. split; [vm_compute; reflexivity |]. split_and!; try (vm_compute; reflexivity). eexists. vm_compute. reflexivity. Qed.

(** ** Left recursion behind an indirectly empty rule *)
Definition hidden_grammar : list Z := quoted "root ::= b root `x` | `y`
b ::= c
c ::= `` | `z`".
Definition hidden_rules : llama_grammar_rules :=
  [[mkElem RULE_REF 1; mkElem RULE_REF 0; mkElem CHAR 120; mkElem ALT 0; mkElem CHAR 121; mkElem END 0];
   [mkElem RULE_REF 2; mkElem END 0];
   [mkElem ALT 0; mkElem CHAR 122; mkElem END 0]].
Definition xs (k : nat) : llama_grammar_stack := replicate k (0, 2).
Definition count_x (s : llama_grammar_stack) : nat := length (filter (fun p => p = (0, 2)) s).
Lemma count_xs k : count_x (xs k) = k.
Proof. unfold count_x, xs. induction k as [| k IH]; [done |]. cbn [replicate]. rewrite filter_cons_True by done. cbn [length]. by rewrite IH. Qed.
Lemma count_cons p s : p <> (0, 2) -> count_x (p :: s) = count_x s.
Proof. intros H. unfold count_x. by rewrite filter_cons_False. Qed.
(** what has been seen when the expansion reaches the root for the [k]-th time *)
Definition seen_upto (k : nat) (seen : gset llama_grammar_stack) : Prop := forall s, s ∈ seen -> s = (0, 4) :: xs k \/ (count_x s < k)%nat.
Lemma not_seen k seen s : seen_upto k seen -> count_x s = k -> s <> (0, 4) :: xs k -> s ∉ seen.
Proof. intros H Hc Hn Hs. destruct (H s Hs) as [? | ?]; [done | lia]. Qed.
Lemma char_step fuel pos below e todo seen ns : elem_at hidden_rules pos = Ok e -> etype e = CHAR -> (pos :: below) ∉ seen ->
  advance_loop (S fuel) hidden_rules ((pos :: below) :: todo) seen ns = advance_loop fuel hidden_rules todo ({[ pos :: below ]} ∪ seen) (add_stack (pos :: below) ns).
Proof. intros He Ht Hn. cbn [advance_loop]. rewrite bool_decide_eq_false_2 by done. rewrite He. cbn [rbind]. by rewrite Ht. Qed.
Lemma fuel_out rs s todo seen ns : advance_loop 0 rs (s :: todo) seen ns = Err Fuel.
Proof. done. Qed.
Lemma hidden_loop fuel k seen ns : seen_upto k seen -> advance_loop fuel hidden_rules [(0, 0) :: xs k] seen ns = Err Fuel.
Proof.
  revert k seen ns. induction (lt_wf fuel) as [fuel _ IH]. intros k seen ns Hs.
  assert (C1 : count_x ((0, 1) :: xs k) = k) by (by rewrite count_cons, count_xs).
  destruct fuel as [| fuel]; [done |].
  rewrite (expand_step hidden_rules fuel (0, 0) (xs k) (mkElem RULE_REF 1) [Some (1, 0)] ((0, 1) :: xs k)); try reflexivity;
    [| eapply not_seen; [done | by rewrite count_cons, count_xs | done]].
  cbn [fmap list_fmap rev app push_opt]. destruct fuel as [| fuel]; [done |].
  set (s1 := {[ (0, 0) :: xs k ]} ∪ seen).
  assert (Hs1 : forall s, s ∈ s1 -> s = (0, 0) :: xs k \/ s ∈ seen) by (intros s; subst s1; set_solver).
  rewrite (expand_step hidden_rules fuel (1, 0) ((0, 1) :: xs k) (mkElem RULE_REF 2) [None; Some (2, 1)] ((0, 1) :: xs k)); try reflexivity;
    [| intros [? | Hx]%Hs1; [done | eapply not_seen in Hx; [done | done | by rewrite count_cons | done]]].
  cbn [fmap list_fmap rev app push_opt]. destruct fuel as [| fuel]; [done |]. set (s2 := {[ (1, 0) :: (0, 1) :: xs k ]} ∪ s1).
  assert (Hs2 : forall s, s ∈ s2 -> s = (1, 0) :: (0, 1) :: xs k \/ s ∈ s1) by (intros s; subst s2; set_solver).
  rewrite (char_step fuel (2, 1) ((0, 1) :: xs k) (mkElem CHAR 122)); try reflexivity;
    [| intros [? | [? | Hx]%Hs1]%Hs2; [done | done | eapply not_seen in Hx; [done | done | by rewrite count_cons | done]]].
  destruct fuel as [| fuel]; [done |]. set (s3 := {[ (2, 1) :: (0, 1) :: xs k ]} ∪ s2).
  assert (Hs3 : forall s, s ∈ s3 -> s = (2, 1) :: (0, 1) :: xs k \/ s ∈ s2) by (intros s; subst s3; set_solver).
  rewrite (expand_step hidden_rules fuel (0, 1) (xs k) (mkElem RULE_REF 0) [Some (0, 0); Some (0, 4)] ((0, 2) :: xs k)); try reflexivity;
    [| intros [? | [? | [? | Hx]%Hs1]%Hs2]%Hs3; [done | done | done | eapply not_seen in Hx; [done | done | done | done]]].
  cbn [fmap list_fmap rev app push_opt]. destruct fuel as [| fuel]; [done |]. set (s4 := {[ (0, 1) :: xs k ]} ∪ s3).
  assert (Hs4 : forall s, s ∈ s4 -> (count_x s <= k)%nat).
  { intros s Hx. assert (s = (0, 1) :: xs k \/ s ∈ s3) as [-> | [-> | [-> | [-> | Hy]%Hs1]%Hs2]%Hs3] by (subst s4; set_solver);
      rewrite ?count_cons, ?count_xs by done; try lia. destruct (Hs s Hy) as [-> | ?]; [rewrite count_cons, count_xs by done; lia | lia]. }
  assert (C4 : count_x ((0, 4) :: xs (S k)) = S k) by (by rewrite count_cons, count_xs).
  change ((0, 2) :: xs k) with (xs (S k)).
  rewrite (char_step fuel (0, 4) (xs (S k)) (mkElem CHAR 121)); try reflexivity; [| intros Hx%Hs4; lia].
  apply IH; [lia |]. intros s [->%elem_of_singleton | Hx]%elem_of_union; [by left | right; specialize (Hs4 s Hx); lia].
Qed.

(** Left recursion behind a rule that is empty only indirectly is not detected, and the grammar
    is expanded for ever.  In root ::= b root "x" | "y" with b ::= c and a rule c that may be empty the check
    marks c as possibly empty but not b, and finds no left recursion; the expansion of the start
    rule then never ends, whatever number of steps it is given. *)
Theorem left_recursion_missed (fuel : nat) :
  exists p, parse None hidden_grammar = Ok (Some p) /\ left_recursive (rules p) = Ok false
    /\ init_impl fuel None hidden_grammar (bytes "root") false [] [] = Err Fuel.
Proof.
  destruct (parse None hidden_grammar) as [[p |] |] eqn:Ep; [| vm_compute in Ep; discriminate Ep..]. exists p.
  assert (Er : rules p = hidden_rules) by (vm_compute in Ep; injection Ep as <-; reflexivity).
  assert (Ei : symbol_ids p !! bytes "root" = Some 0) by (vm_compute in Ep; injection Ep as <-; vm_compute; reflexivity).
  rewrite Er. split; [done |]. split; [vm_compute; reflexivity |]. unfold init_impl. rewrite Ep. cbn [rbind]. rewrite Ei, Er.
  assert (Ec : copy_rules hidden_rules = Ok hidden_rules) by (vm_compute; reflexivity).
  assert (El : left_recursive hidden_rules = Ok false) by (vm_compute; reflexivity).
  assert (Ea : rule_alternatives hidden_rules 0 = Ok [Some (0, 0); Some (0, 4)]) by (vm_compute; reflexivity).
  rewrite (bool_decide_eq_false_2 (length hidden_rules = 0%nat)) by done. rewrite Ec. cbn [rbind]. rewrite El. cbn [rbind]. rewrite Ea.
  unfold initial_stacks, advance_stack, push_opt. cbn [rbind].
  assert (Hl : advance_loop fuel hidden_rules [[(0, 0)]] ∅ [] = Err Fuel).
  { apply (hidden_loop fuel 0 ∅ []). intros s Hs. destruct (not_elem_of_empty s Hs). }
  rewrite Hl. reflexivity.
Qed.
