(* ===== verification/JsonSchema.v ===== *)
(** * From JSON schemas and regular expressions to grammars (src/iian/grammar/json_schema.cpp)

    The converter that writes the text of a grammar for a JSON schema or for a regular expression.
    Texts are byte lists; in the literals below a backquote stands for a double quote.  JSON values are
    those of the JSON library, with objects in the order of their keys; a floating-point number of a
    JSON text is a rational.  Printing a value ([dump]) is a parameter.  What the code appends to a stream is returned. *)

From Stdlib Require Import QArith.
From S2P Require Import Prelude Text GrammarParse.
Open Scope Z_scope.

(** ** Strings *)
Definition string_repeat (str : list Z) (n : nat) : list Z := concat (replicate n str).
Fixpoint string_join (values : list (list Z)) (separator : list Z) : list Z :=
  match values with [] => [] | [v] => v | v :: values => v ++ separator ++ string_join values separator end.
Fixpoint split_loop (fuel : nat) (str delimiter : list Z) : list (list Z) :=
  match fuel with
  | O => [str]
  | S fuel => match find_str str delimiter 0 with
              | Some e => take e str :: split_loop fuel (drop (e + length delimiter) str) delimiter
              | None => [str]
              end
  end.
Definition string_split (str delimiter : list Z) : list (list Z) := split_loop (length str) str delimiter.

(** std::strtol and its kind: blanks, a sign and digits; [None] when there is no digit *)
Definition is_blank_char (c : Z) : bool := (c =? 32) || ((9 <=? c) && (c <=? 13)).
Fixpoint take_digits (s : list Z) : list Z := match s with c :: s => if is_digit_char c then c :: take_digits s else [] | [] => [] end.
Definition read_int (s : list Z) : option Z :=
  let s := skip_while is_blank_char s in
  let '(neg, s) := match s with c :: s' => if c =? ch "-" then (true, s') else if c =? ch "+" then (false, s') else (false, s) | [] => (false, []) end in
  match take_digits s with [] => None | ds => Some (if neg : bool then - digits_value ds else digits_value ds) end.
Definition INT_MAX : Z := 2 ^ 31 - 1.
Definition INT64_MAX : Z := 2 ^ 63 - 1.
Definition INT64_MIN : Z := - 2 ^ 63.
(** std::stoi and std::stoll: [None] for either exception *)
Definition stoi (s : list Z) : option Z := match read_int s with Some v => if (- 2 ^ 31 <=? v) && (v <=? INT_MAX) then Some v else None | None => None end.
Definition stoll (s : list Z) : res Z :=
  match read_int s with Some v => if (INT64_MIN <=? v) && (v <=? INT64_MAX) then Ok v else throw! "stoll: out of range" | None => throw! "stoll: no conversion" end.

(** ** Repetitions *)
Definition repetition_sign (min_items max_items : Z) : list Z :=
  bytes "{" ++ to_string min_items ++ bytes "," ++ (if max_items =? INT_MAX then [] else to_string max_items) ++ bytes "}".
(** without a separator *)
Definition build_repetition_plain (item_rule : list Z) (min_items max_items : Z) : list Z :=
  let has_max := negb (max_items =? INT_MAX) in
  if max_items =? 0 then [] else
  if (min_items =? 0) && (max_items =? 1) then item_rule ++ bytes "?" else
  if (min_items =? 1) && negb has_max then item_rule ++ bytes "+" else
  if (min_items =? 0) && negb has_max then item_rule ++ bytes "*" else
  item_rule ++ repetition_sign min_items max_items.
Definition build_repetition (item_rule : list Z) (min_items max_items : Z) (separator_rule : list Z) : list Z :=
  match separator_rule with
  | [] => build_repetition_plain item_rule min_items max_items
  | _ =>
      if max_items =? 0 then [] else
      if (min_items =? 0) && (max_items =? 1) then item_rule ++ bytes "?" else
      let result := item_rule ++ bytes " " ++ build_repetition_plain (bytes "(" ++ separator_rule ++ bytes " " ++ item_rule ++ bytes ")")
        (if min_items =? 0 then 0 else min_items - 1) (if max_items =? INT_MAX then max_items else max_items - 1) in
      if min_items =? 0 then bytes "(" ++ result ++ bytes ")?" else result
  end.
(** with a separator 1 is subtracted from both bounds, which overflows at the least int *)
Definition repetition_overflows (min_items max_items : Z) : bool :=
  negb (max_items =? 0) && negb ((min_items =? 0) && (max_items =? 1)) && ((min_items =? - 2 ^ 31) || (max_items =? - 2 ^ 31)).

(** ** Integer ranges *)
Definition digit_range (from to : Z) : list Z := bytes "[" ++ (if from =? to then [from] else [from; ch "-"; to]) ++ bytes "]".
Definition more_digits (min_digits max_digits : Z) : list Z :=
  bytes "[0-9]" ++
  if (min_digits =? max_digits) && (min_digits =? 1) then [] else
  bytes "{" ++ to_string min_digits ++ (if max_digits =? min_digits then [] else bytes "," ++ if max_digits =? INT_MAX then [] else to_string max_digits) ++ bytes "}".
Fixpoint common_prefix (from to : list Z) : nat :=
  match from, to with a :: from, b :: to => if a =? b then S (common_prefix from to) else O | _, _ => O end.
(** behind the common prefix: the digits [f] and [t] differ *)
Definition range_tail (uniform_range : list Z -> list Z -> res (list Z)) (f t : Z) (from_sub to_sub : list Z) : res (list Z) :=
  let sub_len := length from_sub in
  match sub_len with
  | O => Ok [ch "["; f; ch "-"; t; ch "]"]
  | S _ =>
      let sub_zeros := string_repeat (bytes "0") sub_len in
      let sub_nines := string_repeat (bytes "9") sub_len in
      let rest := bytes " " ++ more_digits (Z.of_nat sub_len) (Z.of_nat sub_len) in
      let! (body, to_reached) :=
        if bool_decide (from_sub = sub_zeros) then Ok (digit_range f (t - 1) ++ rest, false)
        else
          let! u := uniform_range from_sub sub_nines in
          let first := [ch "["; f; ch "]"; ch " "; ch "("] ++ u ++ bytes ")" in
          if f <? t - 1 then
            if bool_decide (to_sub = sub_nines) then Ok (first ++ bytes " | " ++ digit_range (f + 1) t ++ rest, true)
            else Ok (first ++ bytes " | " ++ digit_range (f + 1) (t - 1) ++ rest, false)
          else Ok (first, false) in
      let! last :=
        if to_reached : bool then Ok []
        else let! u := uniform_range sub_zeros to_sub in Ok (bytes " | " ++ digit_range t t ++ bytes " " ++ u) in
      Ok (bytes "(" ++ body ++ last ++ bytes ")")
  end.
Fixpoint uniform_range (fuel : nat) (from to : list Z) : res (list Z) :=
  match fuel with
  | O => Err Fuel
  | S fuel =>
      let i := common_prefix from to in
      let head := match i with O => [] | S _ => quote :: take i from ++ [quote] end in
      match drop i from, drop i to with
      | f :: from_sub, t :: to_sub =>
          let! u := range_tail (uniform_range fuel) f t from_sub to_sub in
          Ok (head ++ match i with O => [] | S _ => bytes " " end ++ u)
      | _, _ => Ok head
      end
  end.
(** from the digits of [min_s] up to those of [max_s], length by length *)
Fixpoint digits_loop (n : nat) (digits : nat) (min_s max_s : list Z) : res (list Z) :=
  match n with
  | O => uniform_range (S (length min_s)) min_s max_s
  | S n =>
      let! u := uniform_range (S (length min_s)) min_s (string_repeat (bytes "9") digits) in
      let! v := digits_loop n (S digits) (bytes "1" ++ string_repeat (bytes "0") digits) max_s in
      Ok (u ++ bytes " | " ++ v)
  end.
(** -x on int64_t *)
Definition neg64 (x : Z) : res Z := if x =? INT64_MIN then Err (UB "negation overflow") else Ok (- x).
Fixpoint build_min_max_int (fuel : nat) (min_value max_value decimals_left : Z) (top_level : bool) : res (list Z) :=
  match fuel with
  | O => Err Fuel
  | S fuel =>
      let has_min := negb (min_value =? INT64_MIN) in
      let has_max := negb (max_value =? INT64_MAX) in
      let less_decimals := Z.max (decimals_left - 1) 1 in
      if has_min && has_max then
        if (min_value <? 0) && (max_value <? 0) then
          let! mx := neg64 max_value in
          let! u := build_min_max_int fuel mx (- min_value) decimals_left true in
          Ok (quoted "`-` (" ++ u ++ bytes ")")
        else
          let! neg :=
            if min_value <? 0 then let! u := build_min_max_int fuel 0 (- min_value) decimals_left true in Ok (quoted "`-` (" ++ u ++ bytes ") | ")
            else Ok [] in
          let min_s := to_string (if min_value <? 0 then 0 else min_value) in
          let max_s := to_string max_value in
          let! u := digits_loop (length max_s - length min_s) (length min_s) min_s max_s in
          Ok (neg ++ u)
      else if has_min then
        if min_value <? 0 then
          let! u := build_min_max_int fuel INT64_MIN (- min_value) decimals_left false in
          Ok (quoted "`-` (" ++ u ++ bytes ") | [0] | [1-9] " ++ more_digits 0 (decimals_left - 1))
        else if min_value =? 0 then
          if top_level then Ok (bytes "[0] | [1-9] " ++ more_digits 0 less_decimals) else Ok (more_digits 1 decimals_left)
        else if min_value <=? 9 then
          let c := 48 + min_value in
          let range_start := if top_level then ch "1" else ch "0" in
          Ok ((if range_start <? c then digit_range range_start (c - 1) ++ bytes " " ++ more_digits 1 less_decimals ++ bytes " | " else [])
              ++ digit_range c (ch "9") ++ bytes " " ++ more_digits 0 less_decimals)
        else
          let min_s := to_string min_value in
          let len := Zlen min_s in
          let c := peek min_s in
          let! rest := stoll (drop 1 min_s) in
          let! u := build_min_max_int fuel rest INT64_MAX less_decimals false in
          Ok ((if ch "1" <? c then digit_range (if top_level then ch "1" else ch "0") (c - 1) ++ bytes " " ++ more_digits len less_decimals ++ bytes " | " else [])
              ++ digit_range c c ++ bytes " (" ++ u ++ bytes ")"
              ++ (if c <? ch "9" then bytes " | " ++ digit_range (c + 1) (ch "9") ++ bytes " " ++ more_digits (len - 1) less_decimals else []))
      else if has_max then
        if 0 <=? max_value then
          let! u := build_min_max_int fuel 0 max_value decimals_left true in
          Ok ((if top_level then quoted "`-` [1-9] " ++ more_digits 0 less_decimals ++ bytes " | " else []) ++ u)
        else
          let! mn := neg64 max_value in
          let! u := build_min_max_int fuel mn INT64_MAX decimals_left false in
          Ok (quoted "`-` (" ++ u ++ bytes ")")
      else throw! "At least one of min_value or max_value must be set"
  end.
(** one call for every digit and the sign *)
Definition range_fuel : nat := 30.

(** ** The built-in rules *)
Definition SPACE_RULE : list Z := quoted "| ` ` | `\n`{1,2} [ \t]{0,20}".
Record BuiltinRule := mkBuiltin { br_content : list Z; br_deps : list (list Z) }.
Definition builtin (name content : string) (deps : list string) : list Z * BuiltinRule := (bytes name, mkBuiltin (quoted content) (bytes <$> deps)).
Definition PRIMITIVE_RULES : list (list Z * BuiltinRule) :=
  [builtin "boolean" "(`true` | `false`)" [];
   builtin "decimal-part" "[0-9]{1,16}" [];
   builtin "integral-part" "[0] | [1-9] [0-9]{0,15}" [];
   builtin "number" "(`-`? integral-part) (`.` decimal-part)? ([eE] [-+]? integral-part)?" ["integral-part"; "decimal-part"];
   builtin "integer" "(`-`? integral-part)" ["integral-part"];
   builtin "value" "object | array | string | number | boolean | null" ["object"; "array"; "string"; "number"; "boolean"; "null"];
   builtin "object" "`{` space ( string `:` space value (`,` space string `:` space value)* )? space `}`" ["string"; "value"];
   builtin "array" "`[` space ( value (`,` space value)* )? space `]`" ["value"];
   builtin "uuid" "`\`` [0-9a-fA-F]{8} `-` [0-9a-fA-F]{4} `-` [0-9a-fA-F]{4} `-` [0-9a-fA-F]{4} `-` [0-9a-fA-F]{12} `\``" [];
   builtin "char" "[^`\\\x7F\x00-\x1F] | [\\] ([`\\bfnrt] | `u` [0-9a-fA-F]{4})" [];
   builtin "string" "`\`` char* `\``" ["char"];
   builtin "null" "`null`" [] ]%string.
Definition STRING_FORMAT_RULES : list (list Z * BuiltinRule) :=
  [builtin "date" "[0-9]{4} `-` ( `0` [1-9] | `1` [0-2] ) `-` ( `0` [1-9] | [1-2] [0-9] | `3` [0-1] )" [];
   builtin "time" "([01] [0-9] | `2` [0-3]) `:` [0-5] [0-9] `:` [0-5] [0-9] ( `.` [0-9]{3} )? ( `Z` | ( `+` | `-` ) ( [01] [0-9] | `2` [0-3] ) `:` [0-5] [0-9] )" [];
   builtin "date-time" "date `T` time" ["date"; "time"];
   builtin "date-string" "`\`` date `\``" ["date"];
   builtin "time-string" "`\`` time `\``" ["time"];
   builtin "date-time-string" "`\`` date-time `\``" ["date-time"] ]%string.
Definition find_rule (name : list Z) (table : list (list Z * BuiltinRule)) : option BuiltinRule := snd <$> List.find (fun r => bool_decide (r.1 = name)) table.
Definition is_reserved_name (name : list Z) : bool :=
  bool_decide (name = bytes "root") || bool_decide (is_Some (find_rule name PRIMITIVE_RULES)) || bool_decide (is_Some (find_rule name STRING_FORMAT_RULES)).

(** ** Names and literals *)
(** INVALID_RULE_CHARS_RE: every run of other characters becomes one hyphen *)
Definition is_rule_char (c : Z) : bool := is_word_char c.
Fixpoint replace_runs (in_run : bool) (s : list Z) : list Z :=
  match s with
  | [] => []
  | c :: s => if is_rule_char c then c :: replace_runs false s else if in_run then replace_runs true s else ch "-" :: replace_runs true s
  end.
Definition escape_name (name : list Z) : list Z := replace_runs false name.
(** GRAMMAR_LITERAL_ESCAPE_RE and GRAMMAR_LITERAL_ESCAPES *)
Definition escape_char (c : Z) : list Z :=
  if c =? creturn then bytes "\r" else if c =? newline then bytes "\n" else if c =? quote then [ch "\"; quote] else if c =? ch "\" then bytes "\\" else [c].
Definition format_literal (literal : list Z) : list Z := quote :: concat (map escape_char literal) ++ [quote].
Definition gbnf_format_literal (literal : list Z) : list Z := format_literal literal.
Definition is_hex_char (c : Z) : bool := bool_decide (is_Some (hex_digit c)).
(** the length of the escape at the start of [s], 0 when there is none *)
Definition gbnf_escape_length (s : list Z) : nat :=
  match s with
  | b :: e :: rest =>
      if negb (b =? ch "\") then 0%nat else
      let n_hex := if e =? ch "x" then 2%nat else if e =? ch "u" then 4%nat else if e =? ch "U" then 8%nat else 0%nat in
      match n_hex with
      | O => if existsb (Z.eqb e) [ch "t"; ch "r"; ch "n"; ch "\"; quote; ch "["; ch "]"] then 2%nat else 0%nat
      | _ => if (n_hex <=? length rest)%nat && forallb is_hex_char (take n_hex rest) then (2 + n_hex)%nat else 0%nat
      end
  | _ => 0%nat
  end.

(** ** JSON values (nlohmann::ordered_json) *)
Inductive jvalue :=
| Null
| Bool (b : bool)
| Int (z : Z)
| Real (q : Q)
| Str (s : list Z)
| Arr (l : list jvalue)
| Obj (l : list (list Z * jvalue)).
Definition assoc (key : list Z) (l : list (list Z * jvalue)) : option jvalue := snd <$> List.find (fun e => bool_decide (e.1 = key)) l.
(** v[key], behind v.contains(key) *)
Definition field (key : string) (v : jvalue) : option jvalue := match v with Obj l => assoc (bytes key) l | _ => None end.
Definition has_field (key : string) (v : jvalue) : bool := bool_decide (is_Some (field key v)).
(** v[key] = x on an object *)
Fixpoint set_assoc (key : list Z) (x : jvalue) (l : list (list Z * jvalue)) : list (list Z * jvalue) :=
  match l with [] => [(key, x)] | e :: l => if bool_decide (e.1 = key) then (key, x) :: l else e :: set_assoc key x l end.
Definition set_field (key : string) (x v : jvalue) : jvalue := match v with Obj l => Obj (set_assoc (bytes key) x l) | _ => v end.
Definition is_str (s : string) (v : jvalue) : bool := match v with Str t => bool_decide (t = bytes s) | _ => false end.
Definition is_null (v : jvalue) : bool := match v with Null => true | _ => false end.
(** conversion to std::string *)
Definition get_string (v : jvalue) : res (list Z) := match v with Str s => Ok s | _ => throw! "type must be string" end.
(** get<int>() and get<int64_t>(): only the former takes a bool; a float is truncated *)
Definition i64 (z : Z) : Z := (z + 2 ^ 63) mod 2 ^ 64 - 2 ^ 63.
Definition truncate (lo hi : Z) (q : Q) : res Z := let z := Z.quot (Qnum q) (Zpos (Qden q)) in if (lo <=? z) && (z <=? hi) then Ok z else Err (UB "float out of range").
Definition get_int (v : jvalue) : res Z :=
  match v with Int z => Ok (i32 z) | Bool b => Ok (if b then 1 else 0) | Real q => truncate (- 2 ^ 31) INT_MAX q | _ => throw! "type must be number" end.
Definition get_int64 (v : jvalue) : res Z :=
  match v with Int z => Ok (i64 z) | Real q => truncate INT64_MIN INT64_MAX q | _ => throw! "type must be number" end.
(** what a loop over a value visits, and what a loop over its items() visits *)
Definition elements (v : jvalue) : list jvalue := match v with Null => [] | Arr l => l | Obj l => map snd l | v => [v] end.
Definition items (v : jvalue) : list (list Z * jvalue) :=
  match v with Null => [] | Arr l => imap (fun i x => (to_string (Z.of_nat i), x)) l | Obj l => l | v => [([], v)] end.
Definition size_of (v : jvalue) : Z := match v with Null => 0 | Arr l => Zlen l | Obj l => Zlen l | _ => 1 end.
Definition is_empty (v : jvalue) : bool := match v with Null => true | Arr [] | Obj [] => true | _ => false end.

(** ** The converter *)
Record common_schema_converter := mkConverter {
  c_dotall : bool;
  c_rules : gmap (list Z) (list Z);
  c_refs : gmap (list Z) jvalue;
  c_refs_being_resolved : gset (list Z);
  c_errors : list (list Z);
  c_warnings : list (list Z) }.
Definition new_converter (dotall : bool) : common_schema_converter := mkConverter dotall {[bytes "space" := SPACE_RULE]} ∅ ∅ [] [].
Definition with_rules (r : gmap (list Z) (list Z)) (c : common_schema_converter) := mkConverter (c_dotall c) r (c_refs c) (c_refs_being_resolved c) (c_errors c) (c_warnings c).
Definition with_refs (r : gmap (list Z) jvalue) (c : common_schema_converter) := mkConverter (c_dotall c) (c_rules c) r (c_refs_being_resolved c) (c_errors c) (c_warnings c).
Definition with_resolving (r : gset (list Z)) (c : common_schema_converter) := mkConverter (c_dotall c) (c_rules c) (c_refs c) r (c_errors c) (c_warnings c).
Definition push_error (e : list Z) (c : common_schema_converter) := mkConverter (c_dotall c) (c_rules c) (c_refs c) (c_refs_being_resolved c) (c_errors c ++ [e]) (c_warnings c).
Definition push_warning (e : list Z) (c : common_schema_converter) := mkConverter (c_dotall c) (c_rules c) (c_refs c) (c_refs_being_resolved c) (c_errors c) (c_warnings c ++ [e]).
(** the name is free or already has this rule *)
Definition usable (rules : gmap (list Z) (list Z)) (name rule : list Z) : bool := match rules !! name with None => true | Some r => bool_decide (r = rule) end.
(** the first number that makes the name usable; there is one among the first [size rules + 1] *)
Fixpoint free_index (n : nat) (i : Z) (rules : gmap (list Z) (list Z)) (name rule : list Z) : Z :=
  match n with O => i | S n => if usable rules (name ++ to_string i) rule then i else free_index n (i + 1) rules name rule end.
Definition _add_rule (name rule : list Z) (c : common_schema_converter) : list Z * common_schema_converter :=
  let esc_name := escape_name name in
  let key := if usable (c_rules c) esc_name rule then esc_name else esc_name ++ to_string (free_index (size (c_rules c)) 0 (c_rules c) esc_name rule) in
  (key, with_rules (<[key := rule]> (c_rules c)) c).
(** a dependency is added when there is no rule of its name *)
Definition builtin_rule (name : list Z) : option BuiltinRule := match find_rule name PRIMITIVE_RULES with Some r => Some r | None => find_rule name STRING_FORMAT_RULES end.
Fixpoint deps_loop (add : list Z -> BuiltinRule -> common_schema_converter -> res (list Z * common_schema_converter)) (deps : list (list Z)) (c : common_schema_converter) : res common_schema_converter :=
  match deps with
  | [] => Ok c
  | dep :: deps =>
      match builtin_rule dep with
      | None => deps_loop add deps (push_error (bytes "Rule " ++ dep ++ bytes " not known") c)
      | Some dep_rule =>
          match c_rules c !! dep with
          | None => let! (_, c) := add dep dep_rule c in deps_loop add deps c
          | Some _ => deps_loop add deps c
          end
      end
  end.
Fixpoint _add_primitive (fuel : nat) (name : list Z) (rule : BuiltinRule) (c : common_schema_converter) : res (list Z * common_schema_converter) :=
  match fuel with
  | O => Err Fuel
  | S fuel =>
      let '(n, c) := _add_rule name (br_content rule) c in
      let! c := deps_loop (_add_primitive fuel) (br_deps rule) c in
      Ok (n, c)
  end.
(** no deeper than the number of built-in rules *)
Definition primitive_fuel : nat := 20.
Definition add_builtin (name : list Z) (builtin : string) (table : list (list Z * BuiltinRule)) (c : common_schema_converter) : res (list Z * common_schema_converter) :=
  match find_rule (bytes builtin) table with Some r => _add_primitive primitive_fuel name r c | None => throw! "unordered_map::at" end.

(** ** Patterns *)
Inductive pattern_error := Unsupported (what : list Z) | Invalid (what : list Z) | NoFuel.
Definition unsupported {A} (s : string) : A + pattern_error := inr (Unsupported (bytes s)).
Definition invalid_pattern {A} (s : string) : A + pattern_error := inr (Invalid (bytes s)).
Definition MAX_PATTERN_DEPTH : Z := 100.
Definition NON_LITERAL_SET : list Z := bytes "|.()[]{}*+?^$".
Definition ESCAPED_IN_REGEXPS_BUT_NOT_IN_LITERALS : list Z := bytes "^$.[]()|{}*+?".
Definition is_non_literal (c : Z) : bool := existsb (Z.eqb c) NON_LITERAL_SET.
(** a literal (true) or a rule text *)
Definition literal_or_rule : Type := list Z * bool.
Definition to_rule (ls : literal_or_rule) : list Z := if ls.2 then quote :: ls.1 ++ [quote] else ls.1.
(** consecutive literals are merged *)
Definition flush_literal (literal : list Z) (ret : list literal_or_rule) : list literal_or_rule := match literal with [] => ret | _ => ret ++ [(literal, true)] end.
Fixpoint join_loop (seq : list literal_or_rule) (literal : list Z) (ret : list literal_or_rule) : list literal_or_rule :=
  match seq with
  | [] => flush_literal literal ret
  | item :: seq => if item.2 then join_loop seq (literal ++ item.1) ret else join_loop seq [] (flush_literal literal ret ++ [item])
  end.
Definition join_seq (seq : list literal_or_rule) : literal_or_rule := (string_join (map to_rule (join_loop seq [] [])) (bytes " "), false).
(** the inside of a character class, up to its bracket *)
Fixpoint class_chars (fuel : nat) (s : list Z) (acc : list Z) : (list Z * list Z) + pattern_error :=
  match fuel with
  | O => inr NoFuel
  | S fuel =>
      match s with
      | [] => invalid_pattern "unterminated character class"
      | c :: s' =>
          if c =? ch "]" then inl (acc ++ [ch "]"], s')
          else if c =? ch "\" then
            match gbnf_escape_length s with
            | O => inr (Unsupported (bytes "unsupported escape in character class: " ++ take 2 s))
            | n => class_chars fuel (drop n s) (acc ++ take n s)
            end
          else class_chars fuel s' (acc ++ [c])
      end
  end.
(** the inside of curly brackets and what is behind them *)
Fixpoint curly_chars (s : list Z) (acc : list Z) : option (list Z * list Z) :=
  match s with [] => None | c :: s => if c =? ch "}" then Some (acc, s) else curly_chars s (acc ++ [c]) end.
Definition curly_bounds (inside : list Z) : (Z * Z) + pattern_error :=
  let number (s : list Z) (dflt : Z) := match s with [] => Some dflt | _ => stoi s end in
  match string_split inside (bytes ",") with
  | [a] => match stoi a with Some n => inl (n, n) | None => unsupported "invalid number in curly brackets" end
  | [a; b] => match number a 0, number b INT_MAX with Some n, Some m => inl (n, m) | _, _ => unsupported "invalid number in curly brackets" end
  | _ => unsupported "wrong number of values in curly brackets"
  end.
(** a run of literal characters and escapes *)
Fixpoint literal_chars (fuel : nat) (s literal : list Z) : (list Z * list Z) + pattern_error :=
  match fuel with
  | O => inr NoFuel
  | S fuel =>
      match s with
      | [] => inl (literal, [])
      | c :: s' =>
          if c =? ch "\" then
            match s' with
            | [] => invalid_pattern "trailing backslash"
            | next :: s'' =>
                if existsb (Z.eqb next) ESCAPED_IN_REGEXPS_BUT_NOT_IN_LITERALS then literal_chars fuel s'' (literal ++ [next])
                else match gbnf_escape_length s with
                     | O => inr (Unsupported (bytes "unsupported escape: " ++ take 2 s))
                     | n => literal_chars fuel (drop n s) (literal ++ take n s)
                     end
            end
          else if c =? quote then literal_chars fuel s' (literal ++ [ch "\"; quote])
          else if negb (is_non_literal c) && (match s' with [] => true | d :: _ => match literal with [] => true | _ => (d =? ch ".") || negb (is_non_literal d) end end)
          then literal_chars fuel s' (literal ++ [c])
          else inl (literal, s)
      end
  end.
(** what a pattern's conversion changes: the rules, the names of repeated parts, the open groups *)
Record pattern_state := mkPattern { ps_conv : common_schema_converter; ps_sub_rule_ids : gmap (list Z) (list Z); ps_paren_depth : Z }.
Definition with_depth (d : Z) (ps : pattern_state) : pattern_state := mkPattern (ps_conv ps) (ps_sub_rule_ids ps) d.
Definition get_dot (ps : pattern_state) : list Z * pattern_state :=
  let rule := if c_dotall (ps_conv ps) then bytes "[\U00000000-\U0010FFFF]" else bytes "[^\x0A\x0D]" in
  let '(n, c) := _add_rule (bytes "dot") rule (ps_conv ps) in (n, mkPattern c (ps_sub_rule_ids ps) (ps_paren_depth ps)).
(** the name under which a part is repeated *)
Definition sub_rule_id (name sub : list Z) (ps : pattern_state) : list Z * pattern_state :=
  match default [] (ps_sub_rule_ids ps !! sub) with
  | [] =>
      let ids := <[sub := []]> (ps_sub_rule_ids ps) in
      let '(id, c) := _add_rule (name ++ bytes "-" ++ to_string (Z.of_nat (size ids))) sub (ps_conv ps) in
      (id, mkPattern c (<[sub := id]> ids) (ps_paren_depth ps))
  | id => (id, ps)
  end.
Fixpoint transform (fuel : nat) (name s : list Z) (seq : list literal_or_rule) (ps : pattern_state) : (literal_or_rule * list Z * pattern_state) + pattern_error :=
  match fuel with
  | O => inr NoFuel
  | S fuel =>
      match s with
      | [] => inl (join_seq seq, [], ps)
      | c :: s' =>
          if c =? ch "." then let '(n, ps) := get_dot ps in transform fuel name s' (seq ++ [(n, false)]) ps
          else if c =? ch "(" then
            match (match s' with
                   | q :: r => if q =? ch "?" then match r with k :: r' => if k =? ch ":" then inl r' else unsupported "unsupported group syntax" | [] => unsupported "unsupported group syntax" end else inl s'
                   | [] => inl s' end) with
            | inr e => inr e
            | inl s'' =>
                if MAX_PATTERN_DEPTH <? ps_paren_depth ps + 1 then unsupported "pattern nesting too deep"
                else match transform fuel name s'' [] (with_depth (ps_paren_depth ps + 1) ps) with
                     | inr e => inr e
                     | inl (g, s3, ps) => transform fuel name s3 (seq ++ [(bytes "(" ++ to_rule g ++ bytes ")", false)]) ps
                     end
            end
          else if c =? ch ")" then if ps_paren_depth ps =? 0 then invalid_pattern "unbalanced parentheses" else inl (join_seq seq, s', with_depth (ps_paren_depth ps - 1) ps)
          else if (c =? ch "^") || (c =? ch "$") then unsupported "anchor inside the pattern"
          else if c =? ch "[" then
            match class_chars (S (length s')) s' [ch "["] with inr e => inr e | inl (cls, s'') => transform fuel name s'' (seq ++ [(cls, false)]) ps end
          else if c =? ch "|" then transform fuel name s' (seq ++ [(bytes "|", false)]) ps
          else if (c =? ch "*") || (c =? ch "+") || (c =? ch "?") then
            match last seq with None => invalid_pattern "nothing to repeat" | Some l => transform fuel name s' (removelast seq ++ [(to_rule l ++ [c], false)]) ps end
          else if c =? ch "{" then
            match curly_chars s' [] with
            | None => unsupported "unterminated curly brackets"
            | Some (inside, s'') =>
                match curly_bounds inside with
                | inr e => inr e
                | inl (min_times, max_times) =>
                    match last seq with
                    | None => invalid_pattern "nothing to repeat"
                    | Some l =>
                        let '(sub, ps) := if l.2 then (to_rule l, ps) else sub_rule_id name l.1 ps in
                        transform fuel name s'' (removelast seq ++ [(build_repetition sub min_times max_times [], false)]) ps
                    end
                end
            end
          else match literal_chars (S (length s)) s [] with
               | inr e => inr e
               | inl ([], _) => inr (Unsupported (bytes "unsupported character: " ++ [c]))
               | inl (literal, s'') => transform fuel name s'' (seq ++ [(literal, true)]) ps
               end
      end
  end.
Definition _pattern_to_rule (pattern name : list Z) (is_quoted : bool) (c : common_schema_converter) : (list Z * common_schema_converter) + pattern_error :=
  if (length pattern <? 2)%nat || negb (peek pattern =? ch "^") || negb (bool_decide (last pattern = Some (ch "$"))) then unsupported "not anchored with '^' and '$'"
  else
    let sub_pattern := substr pattern 1 (length pattern - 2) in
    match transform (S (length sub_pattern)) name sub_pattern [] (mkPattern c ∅ 0) with
    | inr e => inr e
    | inl (r, _, ps) =>
        if negb (ps_paren_depth ps =? 0) then invalid_pattern "unbalanced parentheses"
        else inl (_add_rule name (if is_quoted then quoted "`\`` (" ++ to_rule r ++ quoted ") `\``" else to_rule r) (ps_conv ps))
    end.
Definition _visit_pattern (pattern name : list Z) (c : common_schema_converter) : res (list Z * common_schema_converter) :=
  match _pattern_to_rule pattern name true c with
  | inl r => Ok r
  | inr (Unsupported what) =>
      let c := push_warning (bytes "pattern " ++ pattern ++ bytes " is not supported (" ++ what ++ bytes "), accepting any string") c in
      let! (r, c) := add_builtin (bytes "string") "string" PRIMITIVE_RULES c in Ok (_add_rule name r c)
  | inr (Invalid what) => Ok ([], push_error (bytes "Invalid pattern " ++ pattern ++ bytes ": " ++ what) c)
  | inr NoFuel => Err Fuel
  end.

(** ** Strings that are none of the given ones *)
Inductive TrieNode := mkNode (children : list (Z * TrieNode)) (is_end_of_string : bool).
Definition children (n : TrieNode) : list (Z * TrieNode) := let 'mkNode l _ := n in l.
Definition is_end_of_string (n : TrieNode) : bool := let 'mkNode _ e := n in e.
(** char is signed: the order of std::map<char, ...> *)
Definition signed_char (c : Z) : Z := if c <? 128 then c else c - 256.
Fixpoint insert_child (c : Z) (f : TrieNode -> TrieNode) (l : list (Z * TrieNode)) : list (Z * TrieNode) :=
  match l with
  | [] => [(c, f (mkNode [] false))]
  | (d, n) :: l => if c =? d then (d, f n) :: l else if signed_char c <? signed_char d then (c, f (mkNode [] false)) :: (d, n) :: l else (d, n) :: insert_child c f l
  end.
Fixpoint insert_string (s : list Z) (n : TrieNode) : TrieNode :=
  match s with
  | [] => mkNode (children n) true
  | c :: s => mkNode (insert_child c (insert_string s) (children n)) (is_end_of_string n)
  end.
Fixpoint node_text (char_rule : list Z) (n : TrieNode) : list Z :=
  let 'mkNode l _ := n in
  let texts := map (fun kv : Z * TrieNode =>
    let '(c, m) := kv in
    [ch "["; c; ch "]"] ++
    match m with
    | mkNode (_ :: _) _ => bytes " (" ++ node_text char_rule m ++ bytes ")"
    | mkNode [] true => bytes " " ++ char_rule ++ bytes "+"
    | mkNode [] false => []
    end) l in
  match l with
  | [] => []
  | _ => string_join texts (bytes " | ") ++ bytes " | " ++ quoted "[^`" ++ map fst l ++ bytes "] " ++ char_rule ++ bytes "*"
  end.
Definition _not_strings (strings : list (list Z)) (c : common_schema_converter) : res (list Z * common_schema_converter) :=
  let trie := foldl (fun n s => insert_string s n) (mkNode [] false) strings in
  let! (char_rule, c) := add_builtin (bytes "char") "char" PRIMITIVE_RULES c in
  Ok (quoted "[`] ( " ++ node_text char_rule trie ++ bytes " )" ++ (if is_end_of_string trie then [] else bytes "?") ++ quoted " [`]", c).

(** ** References *)
Definition dash (name : list Z) : list Z := match name with [] => [] | _ => bytes "-" end.
(** the part of a reference behind the first number sign *)
Definition fragment (ref : list Z) : option (list Z) := match find_str ref (bytes "#") 0 with Some i => Some (drop (S i) ref) | None => None end.
Inductive index := Index (z : Z) | NoIndex.
(** std::stoull of a selector; only std::invalid_argument is caught *)
Definition stoull_index (sel : list Z) : res index :=
  match read_int sel with None => Ok NoIndex | Some v => if Z.abs v <? 2 ^ 64 then Ok (Index (u64 v)) else throw! "stoull: out of range" end.
Section Convert.
Context (dump : jvalue -> res (list Z)).
(** following the path of a reference: a value or the selector at which it ends *)
Fixpoint follow_path (sels : list (list Z)) (target : jvalue) : res (jvalue + list Z * jvalue) :=
  match sels with
  | [] => Ok (inl target)
  | sel :: sels =>
      match target with
      | Obj l => match assoc sel l with Some v => follow_path sels v | None => Ok (inr (sel, target)) end
      | Arr l =>
          let! i := stoull_index sel in
          match i with Index i => match vlookup l i with Some v => follow_path sels v | None => Ok (inr (sel, target)) end | NoIndex => Ok (inr (sel, target)) end
      | _ => Ok (inr (sel, target))
      end
  end.
(** one reference inside [schema].  What is fetched from outside is null; as the url is empty the
    reference itself is not rewritten *)
Definition resolve_one (schema : jvalue) (ref : list Z) (c : common_schema_converter) : res common_schema_converter :=
  let finish (target : jvalue) (c : common_schema_converter) :=
    let! r := follow_path (drop 1 (string_split (default ref (fragment ref)) (bytes "/"))) target in
    match r with
    | inl v => Ok (with_refs (<[ref := v]> (c_refs c)) c)
    | inr (sel, target) => let! d := dump target in Ok (push_error (bytes "Error resolving ref " ++ ref ++ bytes ": " ++ sel ++ bytes " not in " ++ d) c)
    end in
  match c_refs c !! ref with
  | Some _ => Ok c
  | None =>
      if starts_with (bytes "https://") ref then
        let base_url := match find_str ref (bytes "#") 0 with Some i => take i ref | None => ref end in
        let '(target, c) := match c_refs c !! base_url with Some t => (t, c) | None => (Null, with_refs (<[base_url := Null]> (c_refs c)) c) end in
        match fragment ref with None | Some [] => Ok c | Some _ => finish target c end
      else if starts_with (bytes "#/") ref then finish schema c
      else Ok (push_error (bytes "Unsupported ref: " ++ ref) c)
  end.
Fixpoint visit_refs (schema n : jvalue) (c : common_schema_converter) {struct n} : res common_schema_converter :=
  match n with
  | Arr l => (fix elems (l : list jvalue) (c : common_schema_converter) : res common_schema_converter :=
      match l with [] => Ok c | x :: l => let! c := visit_refs schema x c in elems l c end) l c
  | Obj l =>
      match assoc (bytes "$ref") l with
      | Some r => let! ref := get_string r in resolve_one schema ref c
      | None => (fix values (l : list (list Z * jvalue)) (c : common_schema_converter) : res common_schema_converter :=
          match l with [] => Ok c | (_, x) :: l => let! c := visit_refs schema x c in values l c end) l c
      end
  | _ => Ok c
  end.
Definition resolve_refs (schema : jvalue) (c : common_schema_converter) : res common_schema_converter := visit_refs schema schema c.

(** ** Schemas *)
Definition _generate_constant_rule (value : jvalue) : res (list Z) := let! d := dump value in Ok (format_literal d).
Fixpoint constant_rules (l : list jvalue) : res (list (list Z)) :=
  match l with [] => Ok [] | v :: l => let! r := _generate_constant_rule v in let! rs := constant_rules l in Ok (r :: rs) end.
Section Visit.
Context (visit : jvalue -> list Z -> common_schema_converter -> res (list Z * common_schema_converter)).
Fixpoint union_loop (i : Z) (name : list Z) (alt_schemas : list jvalue) (c : common_schema_converter) : res (list (list Z) * common_schema_converter) :=
  match alt_schemas with
  | [] => Ok ([], c)
  | s :: alt_schemas =>
      let! (r, c) := visit s (name ++ match name with [] => bytes "alternative-" | _ => bytes "-" end ++ to_string i) c in
      let! (rs, c) := union_loop (i + 1) name alt_schemas c in
      Ok (r :: rs, c)
  end.
Definition _generate_union_rule (name : list Z) (alt_schemas : list jvalue) (c : common_schema_converter) : res (list Z * common_schema_converter) :=
  let! (rules, c) := union_loop 0 name alt_schemas c in Ok (string_join rules (bytes " | "), c).
(** refs[key], which inserts null for a key that is not there *)
Definition ref_at (ref : list Z) (c : common_schema_converter) : jvalue * common_schema_converter :=
  match c_refs c !! ref with Some v => (v, c) | None => (Null, with_refs (<[ref := Null]> (c_refs c)) c) end.
Definition _resolve_ref (ref : list Z) (c : common_schema_converter) : res (list Z * common_schema_converter) :=
  let ref_name := bytes "ref" ++ escape_name (default ref (fragment ref)) in
  if bool_decide (is_Some (c_rules c !! ref_name)) || bool_decide (ref ∈ c_refs_being_resolved c) then Ok (ref_name, c)
  else
    let c := with_resolving ({[ref]} ∪ c_refs_being_resolved c) c in
    let '(resolved, c) := ref_at ref c in
    let! (ref_name, c) := visit resolved ref_name c in
    Ok (ref_name, with_resolving (c_refs_being_resolved c ∖ {[ref]}) c).

(** the rules of the properties: name and rule of each *)
Fixpoint props_loop (name : list Z) (properties : list (list Z * jvalue)) (kv : gmap (list Z) (list Z)) (c : common_schema_converter) : res (gmap (list Z) (list Z) * common_schema_converter) :=
  match properties with
  | [] => Ok (kv, c)
  | (prop_name, prop_schema) :: properties =>
      let! (prop_rule_name, c) := visit prop_schema (name ++ dash name ++ prop_name) c in
      let! d := dump (Str prop_name) in
      let '(r, c) := _add_rule (name ++ dash name ++ prop_name ++ bytes "-kv") (format_literal d ++ quoted " space `:` space " ++ prop_rule_name) c in
      props_loop name properties (<[prop_name := r]> kv) c
  end.
Fixpoint get_recursive_refs (name : list Z) (kv : gmap (list Z) (list Z)) (ks : list (list Z)) (first_is_optional : bool) (c : common_schema_converter) : list Z * common_schema_converter :=
  match ks with
  | [] => ([], c)
  | k :: ks =>
      let kv_rule_name := default [] (kv !! k) in
      let star := bool_decide (k = bytes "*") in
      let comma_ref := quoted "( `,` space " ++ kv_rule_name ++ bytes " )" in
      let res := if first_is_optional then comma_ref ++ (if star then bytes "*" else bytes "?")
                 else kv_rule_name ++ (if star then bytes " " ++ comma_ref ++ bytes "*" else []) in
      match ks with
      | [] => (res, c)
      | _ =>
          let '(rest, c) := get_recursive_refs name kv ks true c in
          let '(rest_name, c) := _add_rule (name ++ dash name ++ k ++ bytes "-rest") rest c in
          (res ++ bytes " " ++ rest_name, c)
      end
  end.
(** the alternatives by the first optional property that is there *)
Fixpoint optional_loop (first : bool) (name : list Z) (kv : gmap (list Z) (list Z)) (ks : list (list Z)) (c : common_schema_converter) : list Z * common_schema_converter :=
  match ks with
  | [] => ([], c)
  | _ :: ks' =>
      let '(r, c) := get_recursive_refs name kv ks false c in
      let '(rs, c) := optional_loop false name kv ks' c in
      ((if first then [] else bytes " | ") ++ r ++ rs, c)
  end.
Definition allows_more (additional_properties : jvalue) : bool := match additional_properties with Bool b => b | Obj _ => true | _ => false end.
Definition additional_rules (name : list Z) (prop_names : list (list Z)) (additional_properties : jvalue) (kv : gmap (list Z) (list Z)) (c : common_schema_converter) : res (gmap (list Z) (list Z) * common_schema_converter) :=
  let sub_name := name ++ dash name ++ bytes "additional" in
  let! (value_rule, c) := match additional_properties with Obj _ => visit additional_properties (sub_name ++ bytes "-value") c | _ => add_builtin (bytes "value") "value" PRIMITIVE_RULES c end in
  let! (key_rule, c) :=
    match prop_names with
    | [] => add_builtin (bytes "string") "string" PRIMITIVE_RULES c
    | _ => let! (k, c) := _not_strings prop_names c in Ok (_add_rule (sub_name ++ bytes "-k") k c)
    end in
  let '(kv_rule, c) := _add_rule (sub_name ++ bytes "-kv") (key_rule ++ quoted " `:` space " ++ value_rule) c in
  Ok (<[bytes "*" := kv_rule]> kv, c).
Definition _build_object_rule (properties : list (list Z * jvalue)) (required : gset (list Z)) (name : list Z) (additional_properties : jvalue) (c : common_schema_converter) : res (list Z * common_schema_converter) :=
  let! (kv, c) := props_loop name properties ∅ c in
  let prop_names := map fst properties in
  let required_props := List.filter (fun k => bool_decide (k ∈ required)) prop_names in
  let optional_props := List.filter (fun k => negb (bool_decide (k ∈ required))) prop_names in
  let! (kv, optional_props, c) :=
    if allows_more additional_properties then let! (kv, c) := additional_rules name prop_names additional_properties kv c in Ok (kv, optional_props ++ [bytes "*"], c)
    else Ok (kv, optional_props, c) in
  match required_props, optional_props with
  | [], [] => Ok (quoted "`{` space `}`", c)
  | _, _ =>
      let rule := quoted "`{` space " ++ string_join (map (fun k => default [] (kv !! k)) required_props) (quoted " `,` space ") in
      let '(rule, c) :=
        match optional_props with
        | [] => (rule, c)
        | _ =>
            let '(alts, c) := optional_loop true name kv optional_props c in
            (rule ++ bytes " (" ++ (match required_props with [] => [] | _ => quoted " `,` space ( " end) ++ alts ++ (match required_props with [] => [] | _ => bytes " )" end) ++ bytes " )?", c)
        end in
      Ok (rule ++ quoted " space `}`", c)
  end.
Fixpoint tuple_loop (first : bool) (i : Z) (name : list Z) (l : list jvalue) (c : common_schema_converter) : res (list Z * common_schema_converter) :=
  match l with
  | [] => Ok ([], c)
  | x :: l =>
      let! (r, c) := visit x (name ++ dash name ++ bytes "tuple-" ++ to_string i) c in
      let! (rs, c) := tuple_loop false (i + 1) name l c in
      Ok ((if first then [] else quoted " `,` space ") ++ r ++ rs, c)
  end.
End Visit.

(** *** allOf: the properties and constants of the components *)
Record components := mkComponents { co_required : gset (list Z); co_properties : list (list Z * jvalue); co_enums : gmap (list Z) Z }.
Fixpoint add_properties (is_required : bool) (props : list (list Z * jvalue)) (co : components) : components :=
  match props with
  | [] => co
  | (k, v) :: props => add_properties is_required props (mkComponents (if is_required then {[k]} ∪ co_required co else co_required co) (co_properties co ++ [(k, v)]) (co_enums co))
  end.
Fixpoint add_enums (values : list jvalue) (co : components) : res components :=
  match values with
  | [] => Ok co
  | v :: values => let! rule := _generate_constant_rule v in add_enums values (mkComponents (co_required co) (co_properties co) (<[rule := default 0 (co_enums co !! rule) + 1]> (co_enums co)))
  end.
Fixpoint add_component (fuel : nat) (comp_schema : jvalue) (is_required : bool) (co : components) (c : common_schema_converter) : res (components * common_schema_converter) :=
  match fuel with
  | O => Err Fuel
  | S fuel =>
      match field "$ref" comp_schema, field "properties" comp_schema, field "enum" comp_schema with
      | Some r, _, _ => let! ref := get_string r in let '(v, c) := ref_at ref c in add_component fuel v is_required co c
      | None, Some p, _ => Ok (add_properties is_required (items p) co, c)
      | None, None, Some e => let! co := add_enums (elements e) co in Ok (co, c)
      | None, None, None => Ok (co, c)
      end
  end.
Fixpoint any_loop (fuel : nat) (l : list jvalue) (is_required : bool) (co : components) (c : common_schema_converter) : res (components * common_schema_converter) :=
  match l with [] => Ok (co, c) | t :: l => let! (co, c) := add_component fuel t is_required co c in any_loop fuel l is_required co c end.
Fixpoint all_loop (fuel : nat) (l : list jvalue) (co : components) (c : common_schema_converter) : res (components * common_schema_converter) :=
  match l with
  | [] => Ok (co, c)
  | t :: l =>
      let! (co, c) := match field "anyOf" t with Some ts => any_loop fuel (elements ts) false co c | None => add_component fuel t true co c end in
      all_loop fuel l co c
  end.
(** std::map and std::string order: by bytes *)
Fixpoint bytes_lt (a b : list Z) : bool :=
  match a, b with [], [] => false | [], _ => true | _, [] => false | x :: a, y :: b => if x =? y then bytes_lt a b else x <? y end.
Fixpoint insert_entry {A} (e : list Z * A) (l : list (list Z * A)) : list (list Z * A) :=
  match l with [] => [e] | d :: l' => if bytes_lt e.1 d.1 then e :: l else d :: insert_entry e l' end.
Definition sorted_entries {A} (m : gmap (list Z) A) : list (list Z * A) := foldr insert_entry [] (map_to_list m).

(** *** visit *)
Definition is_uuid_format (s : list Z) : bool := bool_decide (s = bytes "uuid") || existsb (fun d => bool_decide (s = bytes "uuid" ++ [d])) (bytes "12345").
Definition type_copies (schema : jvalue) (types : list jvalue) : list jvalue := map (fun t => set_field "type" t schema) types.
Definition required_set (schema : jvalue) : gset (list Z) :=
  match field "required" schema with Some (Arr l) => foldr (fun x r => match x with Str s => {[s]} ∪ r | _ => r end) ∅ l | _ => ∅ end.
Definition is_true (v : jvalue) : bool := match v with Bool true => true | _ => false end.
(** x + 1 and x - 1 on int64_t *)
Definition add64 (x d : Z) : res Z := if (INT64_MIN <=? x + d) && (x + d <=? INT64_MAX) then Ok (x + d) else Err (UB "addition overflow").
Definition min_bound (schema : jvalue) : res Z :=
  match field "minimum" schema, field "exclusiveMinimum" schema with
  | Some v, _ => get_int64 v
  | None, Some v => let! x := get_int64 v in add64 x 1
  | None, None => Ok INT64_MIN
  end.
Definition max_bound (schema : jvalue) : res Z :=
  match field "maximum" schema, field "exclusiveMaximum" schema with
  | Some v, _ => get_int64 v
  | None, Some v => let! x := get_int64 v in add64 x (-1)
  | None, None => Ok INT64_MAX
  end.
Definition int_field (key : string) (dflt : Z) (schema : jvalue) : res Z := match field key schema with Some v => get_int v | None => Ok dflt end.
Definition rule_name_of (name : list Z) : list Z := if is_reserved_name name then name ++ bytes "-" else match name with [] => bytes "root" | _ => name end.
Fixpoint visit (fuel : nat) (schema : jvalue) (name : list Z) (c : common_schema_converter) : res (list Z * common_schema_converter) :=
  match fuel with
  | O => Err Fuel
  | S fuel =>
      let schema_type := default Null (field "type" schema) in
      let! schema_format := match field "format" schema with Some f => get_string f | None => Ok [] end in
      let rule_name := rule_name_of name in
      let or_null (t : string) := is_null schema_type || is_str t schema_type in
      let add (r : list Z * common_schema_converter) := Ok (_add_rule rule_name r.1 r.2) in
      if has_field "$ref" schema then let! ref := get_string (default Null (field "$ref" schema)) in let! r := _resolve_ref (visit fuel) ref c in add r
      else if has_field "oneOf" schema || has_field "anyOf" schema then
        let alts := match field "oneOf" schema with Some a => a | None => default Null (field "anyOf" schema) end in
        let! r := _generate_union_rule (visit fuel) name (elements alts) c in add r
      else if match schema_type with Arr _ => true | _ => false end then let! r := _generate_union_rule (visit fuel) name (type_copies schema (elements schema_type)) c in add r
      else if has_field "const" schema then let! r := _generate_constant_rule (default Null (field "const" schema)) in add (r, c)
      else if has_field "enum" schema then let! rs := constant_rules (elements (default Null (field "enum" schema))) in add (bytes "(" ++ string_join rs (bytes " | ") ++ bytes ")", c)
      else if or_null "object" && (has_field "properties" schema || match field "additionalProperties" schema with Some a => negb (is_true a) | None => false end) then
        let! r := _build_object_rule (visit fuel) (items (default Null (field "properties" schema))) (required_set schema) name (default Null (field "additionalProperties" schema)) c in add r
      else if (or_null "object" || is_str "string" schema_type) && has_field "allOf" schema then
        let all := default Null (field "allOf" schema) in
        let! (co, c) := all_loop fuel (elements all) (mkComponents ∅ [] ∅) c in
        match map fst (List.filter (fun p => p.2 =? size_of all) (sorted_entries (co_enums co))) with
        | [] => let! r := _build_object_rule (visit fuel) (co_properties co) (co_required co) name Null c in add r
        | enum_intersection => add (bytes "(" ++ string_join enum_intersection (bytes " | ") ++ bytes ")", c)
        end
      else if or_null "array" && (has_field "items" schema || has_field "prefixItems" schema) then
        let items := match field "items" schema with Some i => i | None => default Null (field "prefixItems" schema) end in
        match items with
        | Arr l => let! (r, c) := tuple_loop (visit fuel) true 0 name l c in add (quoted "`[` space " ++ r ++ quoted " space `]`", c)
        | _ =>
            let! (item_rule_name, c) := visit fuel items (name ++ dash name ++ bytes "item") c in
            let! min_items := int_field "minItems" 0 schema in
            let! max_items := match field "maxItems" schema with Some (Int z) => get_int (Int z) | _ => Ok INT_MAX end in
            if repetition_overflows min_items max_items then Err (UB "signed overflow") else
            add (quoted "`[` space " ++ build_repetition item_rule_name min_items max_items (quoted "`,` space") ++ quoted " space `]`", c)
        end
      else if or_null "string" && has_field "pattern" schema then let! p := get_string (default Null (field "pattern" schema)) in _visit_pattern p rule_name c
      else if or_null "string" && is_uuid_format schema_format then add_builtin (if bool_decide (rule_name = bytes "root") then bytes "root" else schema_format) "uuid" PRIMITIVE_RULES c
      else match (if or_null "string" then find_rule (schema_format ++ bytes "-string") STRING_FORMAT_RULES else None) with
      | Some r => let! r := _add_primitive primitive_fuel (schema_format ++ bytes "-string") r c in add r
      | None =>
      if is_str "string" schema_type && (has_field "minLength" schema || has_field "maxLength" schema) then
        let! (char_rule, c) := add_builtin (bytes "char") "char" PRIMITIVE_RULES c in
        let! min_len := int_field "minLength" 0 schema in
        let! max_len := int_field "maxLength" INT_MAX schema in
        add (quoted "`\`` " ++ build_repetition char_rule min_len max_len [] ++ quoted " `\``", c)
      else if is_str "integer" schema_type && (has_field "minimum" schema || has_field "exclusiveMinimum" schema || has_field "maximum" schema || has_field "exclusiveMaximum" schema) then
        let! min_value := min_bound schema in
        let! max_value := max_bound schema in
        let! out := build_min_max_int range_fuel min_value max_value 16 true in
        add (bytes "(" ++ out ++ bytes ")", c)
      else if is_empty schema || is_str "object" schema_type then let! r := add_builtin (bytes "object") "object" PRIMITIVE_RULES c in add r
      else if is_null schema_type && match schema with Obj _ => true | _ => false end then let! r := add_builtin (bytes "value") "value" PRIMITIVE_RULES c in add r
      else match schema_type with
      | Str t =>
          match find_rule t PRIMITIVE_RULES with
          | Some r => _add_primitive primitive_fuel (if bool_decide (rule_name = bytes "root") then bytes "root" else t) r c
          | None => let! d := dump schema in Ok ([], push_error (bytes "Unrecognized schema: " ++ d) c)
          end
      | _ => let! d := dump schema in Ok ([], push_error (bytes "Unrecognized schema: " ++ d) c)
      end
      end
  end.

(** ** Whole grammars *)
Definition check_errors (c : common_schema_converter) : res unit := match c_errors c with [] => Ok () | _ => throw! "JSON schema conversion failed" end.
Definition format_grammar (c : common_schema_converter) : list Z := concat (map (fun kv => kv.1 ++ bytes " ::= " ++ kv.2 ++ [newline]) (sorted_entries (c_rules c))).
Definition build_grammar (cb : common_schema_converter -> res common_schema_converter) (dotall : bool) : res (list Z) :=
  let! c := cb (new_converter dotall) in let! _ := check_errors c in Ok (format_grammar c).
(** builder.add_schema *)
Definition add_schema (fuel : nat) (name : list Z) (schema : jvalue) (c : common_schema_converter) : res (list Z * common_schema_converter) :=
  visit fuel schema (if bool_decide (name = bytes "root") then [] else name) c.
Definition json_schema_to_grammar (fuel : nat) (schema : jvalue) : res (list Z) :=
  build_grammar (fun c => let! c := resolve_refs schema c in let! (_, c) := add_schema fuel [] schema c in Ok c) false.
End Convert.
Definition set_root_regex (regex : list Z) (c : common_schema_converter) : res common_schema_converter :=
  match _pattern_to_rule regex (bytes "root") false c with
  | inl (_, c) => Ok (with_rules (delete (bytes "space") (c_rules c)) c)
  | inr (Unsupported _) => throw! "regex is not supported"
  | inr (Invalid _) => throw! "invalid regex"
  | inr NoFuel => Err Fuel
  end.
(** the backslashes at the end *)
Fixpoint count_trailing (s : list Z) : nat := match s with [] => 0 | c :: s => if c =? ch "\" then S (count_trailing s) else 0 end.
Definition regex_to_grammar (regex : list Z) (dotall : bool) : res (list Z) :=
  let anchored := if negb (peek regex =? ch "^") then ch "^" :: regex else regex in
  let n := length anchored in
  let trailing_backslashes := count_trailing (rev anchored) in
  let ends_anchored := (2 <=? n)%nat && bool_decide (last anchored = Some (ch "$")) && ((n <? 3)%nat || negb (bool_decide (anchored !! (n - 2)%nat = Some (ch "\"))) || Nat.even trailing_backslashes) in
  let anchored := if ends_anchored then anchored else anchored ++ [ch "$"] in
  let! c := set_root_regex anchored (new_converter dotall) in
  let! _ := check_errors c in
  Ok (format_grammar c).

(** ** common_schema_info::resolves_to_string: with the references seen so far *)
Definition has_string (v : jvalue) : bool := existsb (fun x => match x with Str _ => true | _ => false end) (elements v).
Definition string_format (fmt : list Z) : bool :=
  existsb (fun f => bool_decide (fmt = bytes f)) ["date"; "time"; "date-time"; "uri"; "email"; "hostname"; "ipv4"; "ipv6"; "uuid"]%string || starts_with (bytes "uuid") fmt.
Section Info.
Context (refs : gmap (list Z) jvalue).
Section Loops.
Context (check : jvalue -> gset (list Z) -> res (bool * gset (list Z))).
Fixpoint check_any (l : list jvalue) (seen : gset (list Z)) : res (bool * gset (list Z)) :=
  match l with [] => Ok (false, seen) | x :: l => let! (b, seen) := check x seen in if b : bool then Ok (true, seen) else check_any l seen end.
Fixpoint check_all (l : list jvalue) (seen : gset (list Z)) : res (bool * gset (list Z)) :=
  match l with [] => Ok (true, seen) | x :: l => let! (b, seen) := check x seen in if b : bool then check_all l seen else Ok (false, seen) end.
Definition check_field (loop : list jvalue -> gset (list Z) -> res (bool * gset (list Z))) (key : string) (s : jvalue) (seen : gset (list Z)) : res (bool * gset (list Z)) :=
  match field key s with Some v => loop (elements v) seen | None => Ok (false, seen) end.
End Loops.
Fixpoint check (fuel : nat) (s : jvalue) (seen : gset (list Z)) : res (bool * gset (list Z)) :=
  match fuel with
  | O => Err Fuel
  | S fuel =>
      match s with
      | Obj _ =>
          match field "$ref" s with
          | Some r =>
              let! ref := get_string r in
              if bool_decide (ref ∈ seen) then Ok (false, seen)
              else match refs !! ref with Some v => check fuel v ({[ref]} ∪ seen) | None => Ok (false, {[ref]} ∪ seen) end
          | None =>
              if match field "type" s with Some (Str t) => bool_decide (t = bytes "string") | Some (Arr l) => existsb (is_str "string") l | _ => false end then Ok (true, seen) else
              let! (b, seen) := check_field (check_any (check fuel)) "oneOf" s seen in if b : bool then Ok (true, seen) else
              let! (b, seen) := check_field (check_any (check fuel)) "anyOf" s seen in if b : bool then Ok (true, seen) else
              let! (b, seen) := check_field (check_all (check fuel)) "allOf" s seen in if b : bool then Ok (true, seen) else
              if match field "const" s with Some (Str _) => true | _ => false end then Ok (true, seen) else
              if match field "enum" s with Some v => has_string v | None => false end then Ok (true, seen) else
              if has_field "pattern" s || has_field "minLength" s || has_field "maxLength" s then Ok (true, seen) else
              match field "format" s with Some f => let! fmt := get_string f in Ok (string_format fmt, seen) | None => Ok (false, seen) end
          end
      | _ => Ok (false, seen)
      end
  end.
Definition resolves_to_string (fuel : nat) (schema : jvalue) : res bool := let! (b, _) := check fuel schema ∅ in Ok b.
End Info.
