(* ===== verification/SchemaRange.v ===== *)
(** * The grammar text of an integer range means the numerals of the range

    Decimal numerals, the texts of [uniform_range] and [digits_loop], and [build_min_max_int] when both
    bounds are given. *)

From S2P Require Import Prelude Text Utf8 GrammarParse GrammarParseFacts GrammarMatch GrammarSem GrammarText GrammarCheck JsonSchema.
Open Scope Z_scope.

(** ** Decimal numerals *)
Definition digits (s : list Z) : Prop := Forall (fun c => is_digit_char c = true) s.
Lemma digits_value_snoc s c : digits_value (s ++ [c]) = digits_value s * 10 + (c - 48).
Proof. unfold digits_value. by rewrite foldl_app. Qed.
Lemma digits_value_app s t : digits_value (s ++ t) = digits_value s * 10 ^ Zlen t + digits_value t.
Proof.
  induction t as [| c t IH] using rev_ind; [rewrite app_nil_r; unfold digits_value at 3; simpl; rewrite Zlen_nil; lia |]. rewrite app_assoc, !digits_value_snoc, IH, Zlen_app, Zlen_cons, Zlen_nil.
  rewrite Z.pow_add_r by (pose proof (Zlen_nonneg t); lia). change (10 ^ (1 + 0)) with 10. lia.
Qed.
Lemma digits_value_cons c t : digits_value (c :: t) = (c - 48) * 10 ^ Zlen t + digits_value t.
Proof. change (c :: t) with ([c] ++ t). rewrite digits_value_app. unfold digits_value at 1. simpl. lia. Qed.
Lemma digits_value_bound s : digits s -> 0 <= digits_value s < 10 ^ Zlen s.
Proof.
  induction 1 as [| c s Hc _ IH]; [done |]. rewrite digits_value_cons, Zlen_cons, Z.pow_add_r by (pose proof (Zlen_nonneg s); lia). unfold is_digit_char in Hc. assert (0 < 10 ^ Zlen s) by (apply Z.pow_pos_nonneg; [lia | apply Zlen_nonneg]). nia.
Qed.
Lemma digits_value_inj s t : digits s -> digits t -> length s = length t -> digits_value s = digits_value t -> s = t.
Proof.
  intros Hs. revert t. induction Hs as [| c s Hc Hs IH]; intros [| d t]; try done. intros [Hd Ht]%Forall_cons Hl. injection Hl as Hl. rewrite !digits_value_cons.
  assert (Zlen s = Zlen t) as El by (unfold Zlen; lia). rewrite El. pose proof (digits_value_bound s Hs). pose proof (digits_value_bound t Ht). rewrite El in *. unfold is_digit_char in *. intros E.
  assert (c = d) as -> by (destruct (Z.lt_trichotomy c d) as [Hlt | [Heq | Hgt] ]; [exfalso | done | exfalso]; nia). f_equal. apply IH; [done | done | lia].
Qed.
Lemma pow10_pos n : 0 <= n -> 0 < 10 ^ n.
Proof. intros. by apply Z.pow_pos_nonneg. Qed.
(** what pretty prints *)
Lemma pretty_go_digits (x : N) s : (0 < x)%N -> exists ds, bytes (pretty_N_go x s) = ds ++ bytes s /\ digits ds /\ digits_value ds = Z.of_N x /\ ds <> [] /\ 10 ^ (Zlen ds - 1) <= Z.of_N x.
Proof.
  revert s. induction (N.lt_wf_0 x) as [x _ IH]; intros s Hx. rewrite pretty_N_go_step by done.
  assert (Hc : bytes (String (pretty_N_char (x `mod` 10)) s) = (48 + Z.of_N (x `mod` 10)) :: bytes s). { simpl. f_equal. pose proof (N.mod_lt x 10 ltac:(done)). assert (forall m, (m < 10)%N -> ch (pretty_N_char m) = 48 + Z.of_N m); [| auto]. intros m Hm. assert (m = 0 \/ m = 1 \/ m = 2 \/ m = 3 \/ m = 4 \/ m = 5 \/ m = 6 \/ m = 7 \/ m = 8 \/ m = 9)%N as HH by lia. by destruct_or! HH; subst m. }
  pose proof (N.mod_lt x 10 ltac:(done)) as Hm. pose proof (N.div_mod x 10 ltac:(done)) as Hd. assert (Hdig : is_digit_char (48 + Z.of_N (x `mod` 10)) = true) by (clear -Hm; revert Hm; generalize (x `mod` 10)%N; intros m Hm; unfold is_digit_char; lia).
  destruct (decide (x < 10)%N) as [Hlt | Hge].
  - rewrite (N.div_small x 10) by done. rewrite pretty_N_go_0, Hc. exists [48 + Z.of_N (x `mod` 10)]. rewrite N.mod_small in * by done. split_and!; [done | by constructor | unfold digits_value; simpl; lia | done |]. change (10 ^ (Zlen [48 + Z.of_N x] - 1)) with 1. lia.
  - destruct (IH (x `div` 10)%N) with (s := String (pretty_N_char (x `mod` 10)) s) as (ds & E & H1 & H2 & H3 & H4); [by apply N.div_lt | apply N.div_str_pos; lia |].
    exists (ds ++ [48 + Z.of_N (x `mod` 10)]). rewrite E, Hc, <- app_assoc. split_and!; [done | apply Forall_app; split; [done | by constructor] | rewrite digits_value_snoc, H2; clear -Hd; revert Hd; generalize (x `div` 10)%N (x `mod` 10)%N; lia | by destruct ds |].
    rewrite Zlen_app, Zlen_cons, Zlen_nil. assert (1 <= Zlen ds) by (destruct ds; [done | rewrite Zlen_cons; pose proof (Zlen_nonneg ds); lia]). replace (Zlen ds + (1 + 0) - 1) with (Zlen ds - 1 + 1) by lia. rewrite Z.pow_add_r by lia. clear -Hd H4. revert Hd H4. generalize (x `div` 10)%N (x `mod` 10)%N. lia.
Qed.
Record numeral (v : Z) (s : list Z) : Prop := mkNumeral {
  nu_digits : digits s;
  nu_value : digits_value s = v;
  nu_len : 1 <= Zlen s;
  nu_low : 2 <= Zlen s -> 10 ^ (Zlen s - 1) <= v }.
Lemma to_string_numeral v : 0 <= v -> numeral v (to_string v).
Proof.
  intros Hv. unfold to_string. destruct v as [| p |]; [split; [by constructor | done | done | done] | | done]. change (pretty (Z.pos p)) with (pretty_N_go (N.pos p) ""). destruct (pretty_go_digits (N.pos p) "" ltac:(done)) as (ds & E & H1 & H2 & H3 & H4).
  rewrite app_nil_r in E. rewrite E. split; [done | done | | intros _; exact H4]. destruct ds; [done | rewrite Zlen_cons; pose proof (Zlen_nonneg ds); lia].
Qed.
Lemma numeral_length v s t : numeral v s -> numeral v t -> Zlen s = Zlen t.
Proof.
  assert (H : forall s t, numeral v s -> numeral v t -> Zlen s <= Zlen t). 2: { intros Hs Ht. pose proof (H s t Hs Ht). pose proof (H t s Ht Hs). lia. }
  clear s t. intros s t [H1 H2 H3 H4] [G1 G2 G3 G4]. destruct (Z.le_gt_cases (Zlen s) (Zlen t)) as [| Hlt]; [done |]. exfalso. specialize (H4 ltac:(lia)). pose proof (digits_value_bound t G1) as Hb. rewrite G2 in Hb.
  assert (10 ^ Zlen t <= 10 ^ (Zlen s - 1)) by (apply Z.pow_le_mono_r; lia). lia.
Qed.
Lemma numeral_to_string v s : numeral v s -> s = to_string v.
Proof.
  intros H. assert (0 <= v) by (rewrite <- (nu_value _ _ H); apply digits_value_bound, H). pose proof (to_string_numeral v ltac:(done)) as G. apply digits_value_inj; [apply H | apply G | | by rewrite (nu_value _ _ H), (nu_value _ _ G)]. pose proof (numeral_length v _ _ H G). unfold Zlen in *. lia.
Qed.
(** ** Strings of digits *)
Definition zeros (n : nat) : list Z := string_repeat (bytes "0") n.
Definition nines (n : nat) : list Z := string_repeat (bytes "9") n.
Lemma string_repeat_one c n : string_repeat [c] n = replicate n c.
Proof. unfold string_repeat. induction n as [| n IH]; simpl; [done | by rewrite IH]. Qed.
Lemma zeros_spec n : digits (zeros n) /\ length (zeros n) = n /\ digits_value (zeros n) = 0.
Proof.
  unfold zeros. rewrite (string_repeat_one (ch "0")). split_and!; [by apply Forall_replicate | apply length_replicate |]. induction n as [| n IH]; [done |]. simpl. rewrite digits_value_cons, IH. change (ch "0") with 48. lia.
Qed.
Lemma nines_spec n : digits (nines n) /\ length (nines n) = n /\ digits_value (nines n) = 10 ^ Z.of_nat n - 1.
Proof.
  unfold nines. rewrite (string_repeat_one (ch "9")). split_and!; [by apply Forall_replicate | apply length_replicate |]. induction n as [| n IH]; [done |]. simpl. rewrite digits_value_cons, IH. change (ch "9") with 57. unfold Zlen. rewrite length_replicate.
  replace (Z.of_nat (S n)) with (Z.of_nat n + 1) by lia. rewrite Z.pow_add_r by lia. lia.
Qed.
(** the strings of [n] digits between two values *)
Definition between (n : nat) (lo hi : Z) : language := fun w => length w = n /\ digits w /\ lo <= digits_value w <= hi.
Lemma common_prefix_spec from to : exists p, from = p ++ drop (common_prefix from to) from /\ to = p ++ drop (common_prefix from to) to /\ take (common_prefix from to) from = p /\ length p = common_prefix from to
  /\ match drop (common_prefix from to) from, drop (common_prefix from to) to with f :: _, t :: _ => f <> t | _, _ => True end.
Proof.
  revert to. induction from as [| a from IH]; intros [| b to]; simpl; try (exists []; by split_and!). destruct (Z.eqb_spec a b) as [-> | Hab]; [| exists []; by split_and!].
  destruct (IH to) as (p & H1 & H2 & H3 & H4 & H5). exists (b :: p). simpl. split_and!; [by f_equal | by f_equal | by f_equal | by f_equal | done].
Qed.
(** ** Classes of digits *)
Lemma digit_char_text c : is_digit_char c = true -> char_text c [c].
Proof.
  intros H. unfold is_digit_char in H. assert (Hs : scalar c) by (unfold scalar; lia). assert (utf8_encode c = [c]) as <- by (unfold utf8_encode; case_match; [done | lia]). constructor; [done |]. change (ch "\") with 92. lia.
Qed.
Lemma is_item_digits nested N a b : is_digit_char a = true -> is_digit_char b = true -> is_item nested N 0 [ch "["; a; ch "-"; b; ch "]"] (fun _ w => exists c, w = [c] /\ a <= c <= b).
Proof.
  intros Ha Hb. eapply is_item_ext; [| apply (is_item_class nested N [(a, b)] [a; ch "-"; b])]; [| done | | unfold is_digit_char in Ha; change (ch "^") with 94; simpl; lia].
  - intros rho w. split; intros (c & -> & Hc); exists c; (split; [done |]); [by apply Exists_cons in Hc as [Hc | Hc%Exists_nil] | by apply Exists_cons; left].
  - apply (cl_range a b [] [a] [b] []); [by apply digit_char_text | unfold is_digit_char in Ha; change (ch "]") with 93; simpl; lia | by apply digit_char_text | unfold is_digit_char in Hb; change (ch "]") with 93; simpl; lia | constructor].
Qed.
Lemma is_item_digit_range nested N a b : is_digit_char a = true -> is_digit_char b = true -> is_item nested N 0 (digit_range a b) (fun _ w => exists c, w = [c] /\ a <= c <= b).
Proof.
  intros Ha Hb. unfold digit_range. destruct (Z.eqb_spec a b) as [<- |]; [| by apply is_item_digits]. eapply is_item_ext; [| apply (is_item_class nested N [(a, a)] [a])]; [| done | | unfold is_digit_char in Ha; change (ch "^") with 94; simpl; lia].
  - intros rho w. split; intros (c & -> & Hc); exists c; (split; [done |]); [by apply Exists_cons in Hc as [Hc | Hc%Exists_nil] | by apply Exists_cons; left].
  - apply (cl_one a [] [a] []); [by apply digit_char_text | unfold is_digit_char in Ha; change (ch "]") with 93; simpl; lia | done | constructor].
Qed.
Definition all_digits (n : nat) : language := fun w => length w = n /\ digits w.
Lemma power_digits n w : power n (fun w => exists c, w = [c] /\ 48 <= c <= 57) w <-> all_digits n w.
Proof.
  unfold all_digits. revert w. induction n as [| n IH]; intros w; simpl.
  - unfold eps. split; [intros ->; split; [done | constructor] | intros [H _]; by destruct w].
  - split.
    + intros (u & v & -> & (c & -> & Hc) & Hv). apply IH in Hv as [H1 H2]. split; [simpl; lia |]. constructor; [unfold is_digit_char; lia | done].
    + intros [H1 H2]. destruct w as [| c w]; [done |]. apply Forall_cons in H2 as [Hc H2]. exists [c], w. split_and!; [done | exists c; split; [done | unfold is_digit_char in Hc; lia] |]. apply IH. split; [simpl in H1; lia | done].
Qed.
Lemma times_exact n L w : times n (Some n) L w <-> power n L w.
Proof. unfold times. split; [intros (m & H1 & H2 & H3); by replace n with m by lia | intros H; exists n; split_and!; [lia | lia | done] ]. Qed.
Lemma digits_text_to_string n : digits_text n (to_string (Z.of_nat n)).
Proof.
  destruct (to_string_numeral (Z.of_nat n) ltac:(lia)) as [H1 H2 H3 _]. split_and!; [| done | done]. intros E. rewrite E in H3. by rewrite Zlen_nil in H3.
Qed.
Lemma is_seq_more_digits nested N n : (1 <= n <= 2000)%nat -> is_seq nested N 0 (more_digits (Z.of_nat n) (Z.of_nat n)) (fun _ => all_digits n).
Proof.
  intros Hn. assert (Hc : is_item nested N 0 (bytes "[0-9]") (fun _ w => exists c, w = [c] /\ 48 <= c <= 57)) by (by apply (is_item_digits nested N 48 57)). unfold more_digits. rewrite Z.eqb_refl. cbn [andb]. destruct (Z.eqb_spec (Z.of_nat n) 1) as [E | E].
  - rewrite app_nil_r. eapply is_seq_ext; [| apply is_seq_item; exact Hc]. intros rho w. assert (n = 1%nat) as -> by lia. rewrite <- power_digits. simpl. by rewrite cat_eps.
  - rewrite app_nil_l. eapply is_seq_ext; [| eapply is_seq_mono; [reflexivity | | apply (is_seq_rep nested N 0 n (Some n) _ _ _ Hc); [apply op_times, digits_text_to_string | | ] ] ].
    + intros rho w. by rewrite times_exact, power_digits.
    + rewrite Nat.sub_diag. done.
    + unfold MAX_REPETITION_THRESHOLD, most. destruct n; lia.
    + unfold MAX_REPETITION_THRESHOLD. lia.
Qed.
(** ** How the strings between two values begin *)
Lemma between_cons n c a b w : is_digit_char c = true -> digits a -> digits b -> length a = n -> length b = n ->
  between (S n) (digits_value (c :: a)) (digits_value (c :: b)) w <-> exists v, w = c :: v /\ between n (digits_value a) (digits_value b) v.
Proof.
  intros Hc Ha Hb Hla Hlb. pose proof (digits_value_bound a Ha) as Ba. pose proof (digits_value_bound b Hb) as Bb. unfold Zlen in Ba, Bb. rewrite Hla in Ba. rewrite Hlb in Bb. unfold between. rewrite !digits_value_cons. unfold Zlen. rewrite Hla, Hlb. split.
  - intros (Hl & Hw & Hv). destruct w as [| d v]; [done |]. injection Hl as Hl. apply Forall_cons in Hw as [Hd Hw]. pose proof (digits_value_bound v Hw) as Bv. rewrite digits_value_cons in Hv. unfold Zlen in Bv, Hv. rewrite Hl in Bv, Hv.
    assert (d = c) as -> by (destruct (Z.lt_trichotomy d c) as [Hlt | [Heq | Hgt] ]; [exfalso | done | exfalso]; nia). exists v. split_and!; [done | done | done | lia | lia].
  - intros (v & -> & Hl & Hw & Hv). rewrite digits_value_cons. unfold Zlen. rewrite Hl. split_and!; [simpl; lia | by constructor | lia | lia].
Qed.
Lemma between_app p n a b w : digits p -> digits a -> digits b -> length a = n -> length b = n ->
  between (length p + n) (digits_value (p ++ a)) (digits_value (p ++ b)) w <-> exists v, w = p ++ v /\ between n (digits_value a) (digits_value b) v.
Proof.
  intros Hp Ha Hb Hla Hlb. revert w. induction Hp as [| c p Hc Hp IH]; intros w; simpl; [split; [intros H; by exists w | by intros (v & -> & H)] |].
  rewrite between_cons; [| done | by apply Forall_app | by apply Forall_app | rewrite length_app; lia | rewrite length_app; lia]. split.
  - intros (v & -> & Hv). apply IH in Hv as (v' & -> & Hv). by exists v'.
  - intros (v & -> & Hv). exists (p ++ v). split; [done |]. apply IH. by exists v.
Qed.
(** a digit and [n] more, with a condition on the digit and on the value of the others *)
Definition starts (n : nat) (P : Z -> Z -> Prop) : language := fun w => exists c v, w = c :: v /\ length v = n /\ digits v /\ P c (digits_value v).
Lemma starts_ext n P Q w : (forall c d, 0 <= d < 10 ^ Z.of_nat n -> P c d <-> Q c d) -> starts n P w <-> starts n Q w.
Proof.
  intros H. split; intros (c & v & -> & Hl & Hv & HP); exists c, v; (split_and!; [done | done | done |]); pose proof (digits_value_bound v Hv) as B; unfold Zlen in B; rewrite Hl in B; by apply (H c (digits_value v) B).
Qed.
Lemma starts_or n P Q w : starts n P w \/ starts n Q w <-> starts n (fun c d => P c d \/ Q c d) w.
Proof. unfold starts. naive_solver. Qed.
Lemma between_step n f t a b w : is_digit_char f = true -> is_digit_char t = true -> digits a -> digits b -> length a = n -> length b = n -> f < t ->
  between (S n) (digits_value (f :: a)) (digits_value (t :: b)) w <-> starts n (fun c d => f <= c <= t /\ (c = f -> digits_value a <= d) /\ (c = t -> d <= digits_value b)) w.
Proof.
  intros Hf Ht Ha Hb Hla Hlb Hft. pose proof (digits_value_bound a Ha) as Ba. pose proof (digits_value_bound b Hb) as Bb. unfold Zlen in Ba, Bb. rewrite Hla in Ba. rewrite Hlb in Bb. unfold between, starts. rewrite !digits_value_cons. unfold Zlen. rewrite Hla, Hlb.
  assert (Hp : 0 < 10 ^ Z.of_nat n) by (apply pow10_pos; lia). split.
  - intros (Hl & Hw & Hv). destruct w as [| d v]; [done |]. injection Hl as Hl. apply Forall_cons in Hw as [Hd Hw]. pose proof (digits_value_bound v Hw) as Bv. rewrite digits_value_cons in Hv. unfold Zlen in Bv, Hv. rewrite Hl in Bv, Hv.
    exists d, v. split_and!; [done | done | done | | | intros ->; lia | intros ->; lia].
    + destruct (Z.le_gt_cases f d) as [| Hlt]; [done | exfalso; nia].
    + destruct (Z.le_gt_cases d t) as [| Hlt]; [done | exfalso; nia].
  - intros (d & v & -> & Hl & Hw & Hd & H1 & H2). pose proof (digits_value_bound v Hw) as Bv. rewrite digits_value_cons. unfold Zlen in *. rewrite Hl in *. unfold is_digit_char in *. split_and!; [simpl; lia | constructor; [unfold is_digit_char; lia | done] | |].
    + destruct (Z.eq_dec d f) as [-> |]; [lia | nia].
    + destruct (Z.eq_dec d t) as [-> |]; [lia | nia].
Qed.
(** a class and what follows it *)
Lemma is_seq_class_then N w a b u L : is_digit_char a = true -> is_digit_char b = true -> is_seq true N w u L ->
  is_seq true N w (digit_range a b ++ bytes " " ++ u) (fun rho v => exists c v', v = c :: v' /\ a <= c <= b /\ L rho v').
Proof.
  intros Ha Hb Hu. rewrite app_assoc. pose proof (is_seq_item _ _ _ _ _ (is_item_digit_range true N a b Ha Hb)) as Hc. assert (Hbl : blank true (bytes " ")) by (constructor; [done | constructor]).
  assert (Hn : digit_range a b <> []) by done. eapply is_seq_ext; [| apply (is_seq_app true N 0 w); [by apply is_seq_blank | exact Hu | apply (apart_l _ _ 32); [apply (last_snoc 32 (digit_range a b)) | done] ] ].
  intros rho v. split.
  - intros (x & y & -> & (c & -> & Hx) & Hy). by exists c, y.
  - intros (c & v' & -> & Hc' & Hv). exists [c], v'. split_and!; [done | by exists c | done].
Qed.

Lemma is_seq_class_between N w a b n lo hi u : is_digit_char a = true -> is_digit_char b = true -> is_seq true N w u (fun _ => between n lo hi) ->
  is_seq true N w (digit_range a b ++ bytes " " ++ u) (fun _ => starts n (fun c d => a <= c <= b /\ lo <= d <= hi)).
Proof. intros Ha Hb Hu. eapply is_seq_ext; [| by apply is_seq_class_then]. intros rho v. unfold between, starts. naive_solver. Qed.
(** a further alternative *)
Lemma is_alts_starts N w1 w2 n P Q R t u : is_seq true N w1 t (fun _ => starts n P) -> t <> [] -> is_alts true N w2 u (fun _ => starts n Q) -> (forall c d, 0 <= d < 10 ^ Z.of_nat n -> P c d \/ Q c d <-> R c d) ->
  is_alts true N (w1 + w2) (t ++ bytes " | " ++ u) (fun _ => starts n R).
Proof.
  intros Ht Hn Hu H. eapply is_alts_ext; [| apply (is_alts_or true N w1 w2); [exact Ht | exact Hn | exact Hu | by left] ]. intros rho v. cbv beta. rewrite starts_or. by apply starts_ext.
Qed.
Lemma uniform_alts N f t a b fuel u1 u2 : is_digit_char f = true -> is_digit_char t = true -> digits a -> digits b -> length a = length b -> (1 <= length a <= 2000)%nat -> f < t ->
  (a <> zeros (length a) -> uniform_range fuel a (nines (length a)) = Ok u1 /\ exists w, is_seq true N w u1 (fun _ => between (length a) (digits_value a) (digits_value (nines (length a))))) ->
  uniform_range fuel (zeros (length a)) b = Ok u2 -> (exists w, is_seq true N w u2 (fun _ => between (length a) 0 (digits_value b))) ->
  exists out w, range_tail (uniform_range fuel) f t a b = Ok (bytes "(" ++ out ++ bytes ")") /\ is_alts true N w out (fun _ => between (S (length a)) (digits_value (f :: a)) (digits_value (t :: b))).
Proof.
  intros Hf Ht Ha Hb Hl Hn Hft H1 E2 [w2 H2]. assert (G : exists out w, range_tail (uniform_range fuel) f t a b = Ok (bytes "(" ++ out ++ bytes ")") /\
    is_alts true N w out (fun _ => starts (length a) (fun c d => f <= c <= t /\ (c = f -> digits_value a <= d) /\ (c = t -> d <= digits_value b)))).
  2: { destruct G as (out & w & E & G). exists out, w. split; [done |]. eapply is_alts_ext; [| exact G]. intros rho v. symmetry. by apply between_step. }
  unfold range_tail. destruct (length a) as [| m] eqn:El; [lia |]. rewrite <- El in *. fold (zeros (length a)) (nines (length a)).
  set (rest := bytes " " ++ more_digits (Z.of_nat (length a)) (Z.of_nat (length a))). destruct (nines_spec (length a)) as (_ & _ & Hn3). destruct (zeros_spec (length a)) as (_ & _ & Hz3).
  pose proof (digits_value_bound a Ha) as Ba. unfold Zlen in Ba.
  pose proof (is_alts_seq _ _ _ _ _ (is_seq_class_between N w2 t t _ _ _ u2 Ht Ht H2)) as Hlast.
  assert (Hrange : forall x y, f <= x <= t -> f <= y <= t -> is_seq true N 0 (digit_range x y ++ rest) (fun _ => starts (length a) (fun c d => x <= c <= y))).
  { intros x y Hx Hy. unfold is_digit_char in *. eapply is_seq_ext; [| apply is_seq_class_then; [unfold is_digit_char; lia | unfold is_digit_char; lia | by apply is_seq_more_digits] ]. intros rho v. unfold starts, all_digits. naive_solver. }
  case_bool_decide as Ez.
  - cbn [rbind]. rewrite E2. cbn [rbind]. exists ((digit_range f (t - 1) ++ rest) ++ bytes " | " ++ digit_range t t ++ bytes " " ++ u2). eexists. split; [by rewrite <- !app_assoc |].
    eapply is_alts_starts; [apply Hrange; lia | done | exact Hlast |]. assert (Ea : digits_value a = 0) by (by rewrite Ez). rewrite Ea. intros c d Hd. cbv beta. lia.
  - destruct (H1 Ez) as (E1 & w1 & H1'). rewrite E1. cbn [rbind]. set (first := [ch "["; f; ch "]"; ch " "; ch "("] ++ u1 ++ bytes ")").
    assert (Hfirst : is_seq true N (1 + w1) first (fun _ => starts (length a) (fun c d => f <= c <= f /\ digits_value a <= d <= digits_value (nines (length a))))).
    { replace first with (digit_range f f ++ bytes " " ++ bytes "(" ++ [] ++ u1 ++ bytes ")") by (subst first; unfold digit_range; by rewrite Z.eqb_refl). apply is_seq_class_between; [done | done |]. apply is_seq_item, is_item_group; [constructor |]. by apply is_alts_seq. }
    rewrite Hn3 in Hfirst. destruct (Z.ltb_spec f (t - 1)) as [Hlt | Hge]; [case_bool_decide as En |].
    + cbn [rbind]. exists (first ++ bytes " | " ++ digit_range (f + 1) t ++ rest). eexists. split; [by rewrite app_nil_l |].
      eapply is_alts_starts; [exact Hfirst | done | apply is_alts_seq, Hrange; lia |]. rewrite En, Hn3. intros c d Hd. cbv beta. lia.
    + cbn [rbind]. rewrite E2. cbn [rbind]. exists (first ++ bytes " | " ++ (digit_range (f + 1) (t - 1) ++ rest) ++ bytes " | " ++ digit_range t t ++ bytes " " ++ u2). eexists. split; [subst first; cbn [app]; rewrite <- ?app_assoc; cbn [app]; rewrite <- ?app_assoc; reflexivity |].
      eapply is_alts_starts; [exact Hfirst | done | |]; [eapply (is_alts_starts N _ _ _ _ _ (fun c d => f + 1 <= c <= t - 1 \/ c = t /\ d <= digits_value b)); [apply Hrange; lia | done | exact Hlast | intros c d Hd; cbv beta; lia] |]. intros c d Hd. cbv beta. lia.
    + cbn [rbind]. rewrite E2. cbn [rbind]. exists (first ++ bytes " | " ++ digit_range t t ++ bytes " " ++ u2). eexists. split; [subst first; cbn [app]; rewrite <- ?app_assoc; cbn [app]; rewrite <- ?app_assoc; reflexivity |].
      eapply is_alts_starts; [exact Hfirst | done | exact Hlast |]. intros c d Hd. cbv beta. lia.
Qed.

(** the common prefix is a literal *)
Lemma digits_chars p : digits p -> chars_text quote p p.
Proof. induction 1 as [| c p Hc _ IH]; [constructor |]. apply (cs_cons quote c p [c] p); [by apply digit_char_text | | done]. unfold is_digit_char in Hc. unfold quote. simpl. lia. Qed.
Definition prefix_text (p : list Z) : list Z := match p with [] => [] | _ => quote :: p ++ [quote] ++ bytes " " end.
Lemma is_seq_prefix N w p u n a b : digits p -> digits a -> digits b -> length a = n -> length b = n -> is_seq true N w u (fun _ => between n (digits_value a) (digits_value b)) ->
  is_seq true N w (prefix_text p ++ u) (fun _ => between (length p + n) (digits_value (p ++ a)) (digits_value (p ++ b))).
Proof.
  intros Hp Ha Hb Hla Hlb Hu. destruct p as [| c p]; [done |]. assert (Hbl : blank true (bytes " ")) by (constructor; [done | constructor]).
  assert (Ht : is_seq true N 0 (prefix_text (c :: p)) (fun _ w => w = c :: p)).
  { replace (prefix_text (c :: p)) with ((quote :: (c :: p) ++ [quote]) ++ bytes " ") by (simpl; by rewrite <- app_assoc). apply is_seq_blank; [done | done |]. apply is_seq_item, is_item_lit; [done | by apply digits_chars]. }
  eapply is_seq_ext; [| apply (is_seq_app true N 0 w); [exact Ht | exact Hu |] ].
  - intros rho v. rewrite between_app by done. split; [intros (x & y & -> & -> & H); by exists y | intros (y & -> & H); by exists (c :: p), y].
  - apply (apart_l _ _ 32); [| done]. change (prefix_text (c :: p)) with (quote :: (c :: p) ++ [quote] ++ [32]). by rewrite app_assoc, app_comm_cons, last_snoc.
Qed.
Lemma prefix_value p a b : digits p -> length a = length b -> digits_value (p ++ a) <= digits_value (p ++ b) -> digits_value a <= digits_value b.
Proof. intros _ Hl. rewrite !digits_value_app. unfold Zlen. rewrite Hl. lia. Qed.
(** the text behind the common prefix *)
Lemma uniform_tail N fuel f a t b : (forall from to, digits from -> digits to -> length from = length to -> digits_value from <= digits_value to -> (1 <= length from <= 2000)%nat -> (length from < fuel)%nat ->
    exists u w, uniform_range fuel from to = Ok u /\ u <> [] /\ is_seq true N w u (fun _ => between (length from) (digits_value from) (digits_value to))) ->
  digits (f :: a) -> digits (t :: b) -> length a = length b -> digits_value (f :: a) <= digits_value (t :: b) -> f <> t -> (length (f :: a) <= 2000)%nat -> (length (f :: a) <= fuel)%nat ->
  exists u w, range_tail (uniform_range fuel) f t a b = Ok u /\ u <> [] /\ is_seq true N w u (fun _ => between (length (f :: a)) (digits_value (f :: a)) (digits_value (t :: b))).
Proof.
  intros IH [Hf Ha]%Forall_cons [Ht Hb]%Forall_cons Hl Hv Hft Hn Hfuel. simpl in Hn, Hfuel.
  assert (Hlt : f < t). { rewrite !digits_value_cons in Hv. unfold Zlen in Hv. rewrite Hl in Hv. pose proof (digits_value_bound a Ha) as Ba. pose proof (digits_value_bound b Hb) as Bb. unfold Zlen in *. rewrite Hl in Ba. destruct (Z.lt_trichotomy f t) as [| [|] ]; [done | done | exfalso; nia]. }
  destruct (decide (length a = 0%nat)) as [E0 | E0].
  - apply nil_length_inv in E0 as ->. symmetry in Hl. apply nil_length_inv in Hl as ->. exists [ch "["; f; ch "-"; t; ch "]"], 0. split_and!; [done | done |].
    eapply is_seq_ext; [| apply is_seq_item, (is_item_digits true N f t Hf Ht)]. intros rho w. change (length [f]) with 1%nat. rewrite (between_step 0 f t [] []) by done. unfold starts. split.
    + intros (c & -> & Hc). exists c, []. split_and!; [done | done | constructor | lia | lia | done | done].
    + intros (c & v & -> & Hlv & _ & Hc & _). apply nil_length_inv in Hlv as ->. by exists c.
  - destruct (zeros_spec (length a)) as (Hz1 & Hz2 & Hz3). destruct (nines_spec (length a)) as (Hn1 & Hn2 & Hn3). pose proof (digits_value_bound a Ha) as Ba. pose proof (digits_value_bound b Hb) as Bb. unfold Zlen in Ba, Bb.
    destruct (IH (zeros (length a)) b) as (u2 & w2 & E2 & _ & H2); [done | done | lia | lia | lia | lia |]. rewrite Hz2, Hz3 in H2.
    destruct (IH a (nines (length a))) as (u1 & w1 & E1 & _ & H1); [done | done | lia | lia | lia | lia |].
    destruct (uniform_alts N f t a b fuel u1 u2) as (out & w & E & Hout); [done | done | done | done | done | lia | done | intros _; split; [done | by exists w1] | done | by exists w2 |].
    exists (bytes "(" ++ out ++ bytes ")"), (1 + w). split_and!; [done | done |]. apply is_seq_item. apply (is_item_group true N w [] out); [constructor | done].
Qed.
Lemma uniform_reads N fuel from to : digits from -> digits to -> length from = length to -> digits_value from <= digits_value to -> (1 <= length from <= 2000)%nat -> (length from < fuel)%nat ->
  exists u w, uniform_range fuel from to = Ok u /\ u <> [] /\ is_seq true N w u (fun _ => between (length from) (digits_value from) (digits_value to)).
Proof.
  revert from to. induction fuel as [| fuel IH]; intros from to Hf Ht Hl Hv Hn Hfuel; [lia |].
  destruct (common_prefix_spec from to) as (p & Ef & Et & Ep & Elen & Hdiff). set (i := common_prefix from to) in *. destruct (drop i from) as [| f a] eqn:Edf.
  - assert (Edt : drop i to = []) by (apply nil_length_inv; rewrite length_drop; apply (f_equal length) in Edf; rewrite length_drop in Edf; simpl in Edf; lia). rewrite Edt, app_nil_r in Et. rewrite app_nil_r in Ef. subst p. 
    exists (quote :: from ++ [quote]), 0. split_and!; [| done |].
    + cbn [uniform_range]. fold i. rewrite Edf, Ep. destruct i; [simpl in Elen; lia | done].
    + subst to. eapply is_seq_ext; [| apply is_seq_item, (is_item_lit true N from from); [intros ->; simpl in Hn; lia | by apply digits_chars] ]. intros rho w. unfold between. split; [intros ->; done |]. intros (H1 & H2 & H3). apply digits_value_inj; [done | done | done | lia].
  - destruct (drop i to) as [| t b] eqn:Edt; [apply (f_equal length) in Edf, Edt; rewrite length_drop in Edf, Edt; simpl in Edf, Edt; lia |].
    assert (Hd : digits p /\ digits (f :: a) /\ digits (t :: b)) by (rewrite Ef in Hf; rewrite Et in Ht; apply Forall_app in Hf as [? ?], Ht as [? ?]; done). destruct Hd as (Hp & Hfa & Htb).
    assert (Hlab : length (f :: a) = length (t :: b)) by (apply (f_equal length) in Ef, Et; rewrite length_app in Ef, Et; lia). injection Hlab as Hlab.
    assert (Hlen : length from = (length p + length (f :: a))%nat) by (rewrite Ef at 1; apply length_app).
    destruct (uniform_tail N fuel f a t b) as (u & w & E & Hu & Hs); [done | done | done | done | | done | simpl in *; lia | simpl in *; lia |].
    { rewrite Ef, Et in Hv. apply (prefix_value p); [done | simpl; lia | done]. }
    exists (prefix_text p ++ u), w. split_and!; [| by destruct p |].
    + cbn [uniform_range]. fold i. rewrite Edf, Edt, E, Ep. cbn [rbind]. f_equal. rewrite <- Elen. destruct p; [done |]. simpl. by rewrite <- !app_assoc.
    + rewrite Hlen. rewrite Ef, Et. apply is_seq_prefix; [done | done | done | done | simpl; lia | done].
Qed.

(** ** All lengths *)
Definition numerals (lo hi : Z) : language := fun w => exists v, lo <= v <= hi /\ w = to_string v.
Lemma between_numerals k lo hi w : 1 <= Z.of_nat k -> 0 <= lo -> (2 <= Z.of_nat k -> 10 ^ (Z.of_nat k - 1) <= lo) -> hi < 10 ^ Z.of_nat k -> between k lo hi w <-> numerals lo hi w.
Proof.
  intros Hk H0 Hlo Hhi. unfold between, numerals. split.
  - intros (Hl & Hd & Hv). exists (digits_value w). split; [done |]. apply numeral_to_string. split; unfold Zlen; rewrite ?Hl; [done | done | lia |]. intros H2. specialize (Hlo H2). lia.
  - intros (v & Hv & ->). destruct (to_string_numeral v ltac:(lia)) as [H1 H2 H3 H4]. pose proof (digits_value_bound _ H1) as B. rewrite H2 in B. split_and!; [| done | lia | lia].
    assert (Zlen (to_string v) = Z.of_nat k); [| unfold Zlen in *; lia]. destruct (Z.lt_trichotomy (Zlen (to_string v)) (Z.of_nat k)) as [Hlt | [| Hgt] ]; [exfalso | done | exfalso].
    + specialize (Hlo ltac:(lia)). assert (10 ^ Zlen (to_string v) <= 10 ^ (Z.of_nat k - 1)) by (apply Z.pow_le_mono_r; lia). lia.
    + specialize (H4 ltac:(lia)). assert (10 ^ Z.of_nat k <= 10 ^ (Zlen (to_string v) - 1)) by (apply Z.pow_le_mono_r; lia). lia.
Qed.
Lemma power_numeral k : numeral (10 ^ Z.of_nat k) (bytes "1" ++ string_repeat (bytes "0") k).
Proof.
  destruct (zeros_spec k) as (H1 & H2 & H3). fold (zeros k). assert (El : Zlen (bytes "1" ++ zeros k) = 1 + Z.of_nat k) by (rewrite Zlen_app; unfold Zlen at 2; rewrite H2; done). split.
  - apply Forall_app. split; [by repeat constructor | done].
  - rewrite digits_value_app, H3. unfold Zlen. rewrite H2. change (digits_value (bytes "1")) with 1. lia.
  - lia.
  - intros _. rewrite El. replace (1 + Z.of_nat k - 1) with (Z.of_nat k) by lia. done.
Qed.
Lemma digits_loop_reads N n : forall k min_s max_s lo hi, numeral lo min_s -> numeral hi max_s -> lo <= hi -> length min_s = k -> (length max_s = n + k)%nat -> (length max_s <= 2000)%nat ->
  exists u w, digits_loop n k min_s max_s = Ok u /\ u <> [] /\ is_alts true N w u (fun _ => numerals lo hi).
Proof.
  induction n as [| n IH]; intros k min_s max_s lo hi Hlo Hhi Hle Hk Hl Hmax; cbn [digits_loop]; pose proof (nu_len _ _ Hlo) as Hl1; unfold Zlen in Hl1; pose proof (digits_value_bound _ (nu_digits _ _ Hlo)) as Blo; pose proof (digits_value_bound _ (nu_digits _ _ Hhi)) as Bhi; rewrite (nu_value _ _ Hlo) in Blo; rewrite (nu_value _ _ Hhi) in Bhi; unfold Zlen in Blo, Bhi.
  - destruct (uniform_reads N (S (length min_s)) min_s max_s) as (u & w & E & Hn & Hu); [apply Hlo | apply Hhi | lia | rewrite (nu_value _ _ Hlo), (nu_value _ _ Hhi); done | lia | lia |].
    exists u, w. split_and!; [done | done |]. apply is_alts_seq. eapply is_seq_ext; [| exact Hu]. intros rho v. rewrite (nu_value _ _ Hlo), (nu_value _ _ Hhi). apply between_numerals; [lia | lia | exact (nu_low _ _ Hlo) |]. replace (length min_s) with (length max_s) by lia. lia.
  - rewrite Hk in Blo. destruct (nines_spec k) as (N1 & N2 & N3). fold (nines k). destruct (uniform_reads N (S (length min_s)) min_s (nines k)) as (u & w & E & Hn & Hu); [apply Hlo | done | lia | rewrite (nu_value _ _ Hlo), N3; lia | lia | lia |].
    assert (Hpow : 10 ^ Z.of_nat k <= hi). { pose proof (nu_low _ _ Hhi) as Hlow. unfold Zlen in Hlow. rewrite Hl in Hlow. etransitivity; [| apply Hlow; lia]. apply Z.pow_le_mono_r; lia. }
    destruct (IH (S k) (bytes "1" ++ string_repeat (bytes "0") k) max_s (10 ^ Z.of_nat k) hi) as (u' & w' & E' & Hn' & Hu'); [apply power_numeral | done | done | | lia | done |].
    { destruct (zeros_spec k) as (_ & Z2 & _). fold (zeros k). rewrite length_app, Z2. done. }
    exists (u ++ bytes " | " ++ u'), (w + w'). split_and!; [by rewrite E, E' | by destruct u |]. eapply is_alts_ext; [| apply (is_alts_or true N w w'); [exact Hu | done | exact Hu' | by left] ].
    intros rho v. rewrite (nu_value _ _ Hlo), N3. rewrite (between_numerals (length min_s)); [| lia | lia | intros H2; pose proof (nu_low _ _ Hlo) as Hlow; unfold Zlen in Hlow; by apply Hlow | rewrite Hk; lia]. unfold numerals. split.
    + intros [(x & Hx & ->) | (x & Hx & ->)]; exists x; (split; [lia | done]).
    + intros (x & Hx & ->). destruct (Z.lt_ge_cases x (10 ^ Z.of_nat k)); [left | right]; exists x; (split; [lia | done]).
Qed.
(** ** build_min_max_int with both bounds *)
Lemma to_string_length v : 0 <= v < 10 ^ 20 -> (length (to_string v) <= 20)%nat.
Proof.
  intros Hv. destruct (to_string_numeral v ltac:(lia)) as [_ _ H3 H4]. unfold Zlen in *. destruct (Nat.le_gt_cases (length (to_string v)) 20) as [| Hgt]; [done |]. exfalso. specialize (H4 ltac:(lia)). assert (10 ^ 20 <= 10 ^ (Z.of_nat (length (to_string v)) - 1)) by (apply Z.pow_le_mono_r; lia). lia.
Qed.
Lemma to_string_neg v : 0 < v -> to_string (- v) = ch "-" :: to_string v.
Proof. destruct v as [| p | p]; try done. Qed.
Lemma minus_text nested N w u L : is_alts true N w u L -> is_seq nested N (1 + w) (quoted "`-` (" ++ u ++ bytes ")") (fun rho v => exists v', v = ch "-" :: v' /\ L rho v').
Proof.
  intros Hu. assert (Hl : is_seq nested N 0 (quoted "`-` ") (fun _ w => w = bytes "-")). { change (quoted "`-` ") with ((quote :: bytes "-" ++ [quote]) ++ bytes " "). apply is_seq_blank; [done | constructor; [by destruct nested | constructor] |]. apply is_seq_item, is_item_lit; [done |]. apply (cs_cons quote 45 [] [45] []); [| done | constructor]. by apply (ct_plain 45). }
  change (quoted "`-` (" ++ u ++ bytes ")") with (quoted "`-` " ++ bytes "(" ++ [] ++ u ++ bytes ")"). eapply is_seq_ext; [| apply (is_seq_app nested N 0 (1 + w)); [exact Hl | apply is_seq_item, is_item_group; [constructor | exact Hu] | by apply (apart_l _ _ 32)] ].
  intros rho v. split; [intros (a & b & -> & -> & H); by exists b | intros (b & -> & H); by exists (bytes "-"), b].
Qed.
(** the numerals of a range; with bounds on both sides of zero also a negative zero *)
Definition range_language (lo hi : Z) : language := fun w => numerals lo hi w \/ (lo < 0 <= hi /\ w = bytes "-0").
Lemma nonneg_range N fuel lo hi d : 0 <= lo <= hi -> hi < INT64_MAX -> exists u w, build_min_max_int (S fuel) lo hi d true = Ok u /\ u <> [] /\ is_alts true N w u (fun _ => numerals lo hi).
Proof.
  intros Hle Hmax. unfold INT64_MAX in *. cbn [build_min_max_int]. rewrite (proj2 (Z.eqb_neq lo INT64_MIN)) by (unfold INT64_MIN; lia). rewrite (proj2 (Z.eqb_neq hi INT64_MAX)) by (unfold INT64_MAX; lia). cbn [negb andb]. rewrite (proj2 (Z.ltb_ge lo 0)) by lia. cbn [andb rbind app].
  pose proof (to_string_numeral lo ltac:(lia)) as Hlo. pose proof (to_string_numeral hi ltac:(lia)) as Hhi. pose proof (to_string_length hi ltac:(lia)) as Hlen.
  assert (Hll : (length (to_string lo) <= length (to_string hi))%nat).
  { destruct (Nat.le_gt_cases (length (to_string lo)) (length (to_string hi))) as [| Hgt]; [done |]. exfalso. pose proof (nu_low _ _ Hlo) as L1. pose proof (nu_len _ _ Hhi) as L2. pose proof (digits_value_bound _ (nu_digits _ _ Hhi)) as B. rewrite (nu_value _ _ Hhi) in B. unfold Zlen in *. specialize (L1 ltac:(lia)).
    assert (10 ^ Z.of_nat (length (to_string hi)) <= 10 ^ (Z.of_nat (length (to_string lo)) - 1)) by (apply Z.pow_le_mono_r; lia). lia. }
  destruct (digits_loop_reads N (length (to_string hi) - length (to_string lo)) (length (to_string lo)) (to_string lo) (to_string hi) lo hi) as (u & w & E & Hn & Hu); [done | done | lia | done | lia | lia |]. exists u, w. rewrite E. by split_and!.
Qed.
Lemma range_reads N fuel lo hi d : - INT64_MAX < lo <= hi -> hi < INT64_MAX -> exists u w, build_min_max_int (S (S fuel)) lo hi d true = Ok u /\ u <> [] /\ is_alts true N w u (fun _ => range_language lo hi).
Proof.
  intros Hle Hmax. unfold INT64_MAX in *. destruct (Z.lt_ge_cases lo 0) as [Hneg | Hpos].
  2: { destruct (nonneg_range N (S fuel) lo hi d) as (u & w & E & Hn & Hu); [lia | unfold INT64_MAX; lia |]. exists u, w. split_and!; [done | done |]. eapply is_alts_ext; [| exact Hu]. intros rho v. unfold range_language. split; [by left | intros [| [? _] ]; [done | lia] ]. }
  assert (Hminus : forall v, (exists v', v = ch "-" :: v' /\ numerals (Z.max 0 (- hi)) (- lo) v') <-> numerals lo (Z.min hi (-1)) v \/ (lo < 0 <= hi /\ v = bytes "-0")).
  { intros v. unfold numerals. split.
    - intros (v' & -> & x & Hx & ->). destruct (Z.eq_dec x 0) as [-> | Hx0]; [right; split; [lia | done] | left]. exists (- x). split; [lia |]. rewrite to_string_neg; [done | lia].
    - intros [(x & Hx & ->) | [Hx ->] ]; [| exists (bytes "0"); split; [done |]; exists 0; split; [lia | done] ]. exists (to_string (- x)). split; [| exists (- x); split; [lia | done] ]. rewrite <- to_string_neg by lia. by rewrite Z.opp_involutive. }
  remember (S fuel) as fuel1 eqn:Ef. cbn [build_min_max_int]. rewrite (proj2 (Z.eqb_neq lo INT64_MIN)) by (unfold INT64_MIN; lia). rewrite (proj2 (Z.eqb_neq hi INT64_MAX)) by (unfold INT64_MAX; lia). cbn [negb andb]. rewrite (proj2 (Z.ltb_lt lo 0)) by lia. cbn [andb]. destruct (Z.ltb_spec hi 0) as [Hhi | Hhi].
  - unfold neg64. rewrite (proj2 (Z.eqb_neq hi INT64_MIN)) by (unfold INT64_MIN; lia). cbn [rbind]. subst fuel1. destruct (nonneg_range N fuel (- hi) (- lo) d) as (u & w & E & Hn & Hu); [lia | unfold INT64_MAX; lia |]. rewrite E. cbn [rbind].
    eexists. exists (1 + w). split_and!; [reflexivity | done |]. apply is_alts_seq. eapply is_seq_ext; [| by apply minus_text]. intros rho v. cbv beta. rewrite (Z.max_r 0 (- hi)), (Z.min_l hi (-1)) in Hminus by lia. by rewrite Hminus.
  - subst fuel1. destruct (nonneg_range N fuel 0 (- lo) d) as (u & w & E & Hn & Hu); [lia | unfold INT64_MAX; lia |]. rewrite E. cbn [rbind].
    destruct (nonneg_range N fuel 0 hi d) as (u2 & w2 & E2 & Hn2 & Hu2); [lia | unfold INT64_MAX; lia |]. cbn [build_min_max_int] in E2. rewrite (proj2 (Z.eqb_neq hi INT64_MAX)) in E2 by (unfold INT64_MAX; lia). change (0 =? INT64_MIN) with false in E2. change (0 <? 0) with false in E2. cbn [negb andb rbind app] in E2.
    destruct (digits_loop _ _ (to_string 0) (to_string hi)) as [u3 |] eqn:E3; [| done]. cbn [rbind] in E2. injection E2 as ->. cbn [rbind]. eexists. exists (1 + w + w2). split_and!; [reflexivity | done |].
    rewrite <- !app_assoc. replace (quoted "`-` (" ++ u ++ bytes ") | " ++ u2) with ((quoted "`-` (" ++ u ++ bytes ")") ++ bytes " | " ++ u2) by (by rewrite <- !app_assoc).
    eapply is_alts_ext; [| apply (is_alts_or true N (1 + w) w2); [by apply minus_text | done | exact Hu2 | by left] ]. intros rho v. cbv beta. rewrite (Z.max_l 0 (- hi)), (Z.min_r hi (-1)) in Hminus by lia. rewrite Hminus. unfold range_language, numerals. split.
    + intros [ [(x & Hx & ->) | [_ ->] ] | (x & Hx & ->)]; [left; exists x; split; [lia | done] | by right | left; exists x; split; [lia | done] ].
    + intros [(x & Hx & ->) | [_ ->] ]; [| by left; right]. destruct (Z.lt_ge_cases x 0); [left; left | right]; exists x; (split; [lia | done]).
Qed.
