(* ===== verification/SchemaProps.v ===== *)
(** * Grammars of JSON schemas accept exactly the texts the schema describes

    The rules of the converter and what they mean together, the built-in rules, and for the schemas made of
    constants, enumerations, integer ranges, simple types, alternatives, objects, arrays and tuples the
    language of the grammar that is built. *)

From S2P Require Import Prelude Text Utf8 GrammarParse GrammarParseFacts GrammarMatch GrammarSem GrammarText GrammarCheck GrammarAdvance GrammarMeans GrammarReads GrammarTextProps JsonSchema SchemaRange.
Open Scope Z_scope.

(** ** Bytes *)
Lemma byte_string_app s t : byte_string s -> byte_string t -> byte_string (s ++ t).
Proof. intros Hs Ht. by apply Forall_app. Qed.
Lemma byte_string_check s : forallb (fun c => (0 <=? c) && (c <? 256)) s = true -> byte_string s.
Proof. intros H. apply Forall_forall. intros c Hc. rewrite forallb_forall in H. apply list_elem_of_In in Hc. specialize (H c Hc). lia. Qed.
Lemma word_bytes s : word s -> byte_string s.
Proof. intros [_ Hw]. eapply Forall_impl; [exact Hw |]. intros c Hc. unfold is_word_char, is_digit_char in Hc. change (ch "-") with 45 in Hc. lia. Qed.

(** ** Rule tables *)
Definition table : Type := gmap (list Z) (list Z).
Definition names_of (R : table) : list (list Z) := (map_to_list R).*1.
Lemma names_of_spec R n : n ∈ names_of R <-> is_Some (R !! n).
Proof.
  unfold names_of. rewrite list_elem_of_fmap. split; [intros ([k v] & -> & H); apply elem_of_map_to_list in H; by exists v | intros [v H]; exists (n, v); split; [done | by apply elem_of_map_to_list] ].
Qed.
Lemma names_of_mono R R' : R ⊆ R' -> names_of R ⊆ names_of R'.
Proof. intros H n. rewrite !names_of_spec. intros [v Hv]. exists v. by eapply lookup_weaken. Qed.
(** every rule is a word with a text that mentions rules of the table or of [D] *)
Definition closed (D : list (list Z)) (R : table) : Prop := forall n t, R !! n = Some t -> word n /\ byte_string t /\ t <> [] /\ exists w L, is_alts false (names_of R ++ D) w t L.
(** languages that solve the equations of the rules *)
Definition solves (rho : env) (R : table) : Prop :=
  forall n t l, R !! n = Some t -> alts_text false l t -> forallb (forallb modest) l = true -> concat (map (fun s => concat (map mentions s)) l) ⊆ names_of R -> forall w, rho n w <-> den_alts rho l w.
Lemma solves_is rho R N w n t L : solves rho R -> R !! n = Some t -> N ⊆ names_of R -> is_alts false N w t L -> forall v, rho n v <-> L rho v.
Proof. intros Hs Hn HN (l & H1 & H2 & H3 & H4 & H5) v. rewrite <- (H5 rho v). apply (Hs n t l); [done | done | done |]. by etransitivity. Qed.
Lemma solves_mono rho R R' : R ⊆ R' -> solves rho R' -> solves rho R.
Proof. intros Hsub Hs n t l Hn H1 H2 H3. apply (Hs n t l); [by eapply lookup_weaken | done | done |]. etransitivity; [exact H3 | by apply names_of_mono]. Qed.

(** ** The table printed and parsed *)
Lemma insert_entry_perm {A} (e : list Z * A) l : insert_entry e l ≡ₚ e :: l.
Proof. induction l as [| d l IH]; simpl; [done |]. case_match; [done |]. rewrite IH. by constructor. Qed.
Lemma sorted_entries_perm {A} (m : gmap (list Z) A) : sorted_entries m ≡ₚ map_to_list m.
Proof. unfold sorted_entries. induction (map_to_list m) as [| e l IH]; simpl; [done |]. by rewrite insert_entry_perm, IH. Qed.
Definition entry_text (kv : list Z * list Z) : list Z := kv.1 ++ bytes " ::= " ++ kv.2 ++ [newline].
Definition entry_ok (N : list (list Z)) (kv : list Z * list Z) (l : list (list gx)) : Prop :=
  word kv.1 /\ kv.2 <> [] /\ alts_text false l kv.2 /\ forallb (forallb modest) l = true /\ concat (map (fun s => concat (map mentions s)) l) ⊆ N.
Lemma choose_all {A B} (P : A -> B -> Prop) (l : list A) : Forall (fun a => exists b, P a b) l -> exists k, Forall2 P l k.
Proof. induction 1 as [| a l [b Hb] _ [k Hk] ]; [by exists [] | exists (b :: k); by constructor]. Qed.
Definition rules_of (es : list (list Z * list Z)) (ls : list (list (list gx))) : list gbnf_rule := zip_with (fun e l => mkGbnf e.1 l) es ls.
Lemma entries_text N es ls : Forall2 (entry_ok N) es ls -> grammar_text (rules_of es ls) (concat (map entry_text es)).
Proof.
  induction 1 as [| [n t] l es ls (H1 & H2 & H3 & H4 & H5) _ IH]; simpl; [constructor |]. unfold entry_text at 1. cbn [fst snd] in *.
  replace ((n ++ bytes " ::= " ++ t ++ [newline]) ++ concat (map entry_text es)) with ((n ++ bytes " ::=" ++ bytes " " ++ t) ++ newline :: concat (map entry_text es)).
  - constructor; [| done]. exists (bytes " "), t. split_and!; [done | constructor; [done | constructor] | done | done | done].
  - rewrite <- !app_assoc. change (bytes " ::= ") with (bytes " ::=" ++ bytes " "). by rewrite <- !app_assoc.
Qed.
Lemma entries_names N es ls : Forall2 (entry_ok N) es ls -> names (rules_of es ls) = es.*1 /\ mentioned (rules_of es ls) ⊆ N /\ modest_rules (rules_of es ls) = true.
Proof.
  induction 1 as [| [n t] l es ls (H1 & H2 & H3 & H4 & H5) _ (I1 & I2 & I3)]; [split_and!; [done | set_solver | done] |]. split_and!.
  - unfold names in *. simpl. by rewrite I1.
  - unfold mentioned in *. simpl. apply list_subseteq_app_iff_l. split; [exact H5 | exact I2].
  - unfold modest_rules in *. simpl. by rewrite H4, I3.
Qed.
Section Table.
Context (vocab : option (list Z -> list Z)) (R : table) (HR : closed [] R).
Let es : list (list Z * list Z) := sorted_entries R.
Lemma entry_in e : e ∈ es <-> R !! e.1 = Some e.2.
Proof. unfold es. rewrite sorted_entries_perm. destruct e as [n t]. apply elem_of_map_to_list. Qed.
Lemma entries_bytes : byte_string (concat (map entry_text es)).
Proof.
  assert (H : Forall (fun e => byte_string (entry_text e)) es).
  { apply Forall_forall. intros e He. apply entry_in in He. destruct (HR _ _ He) as (Hw & Ht & _). unfold entry_text. apply byte_string_app; [by apply word_bytes |]. apply byte_string_app; [by apply byte_string_check |]. by apply byte_string_app; [| apply byte_string_check]. }
  induction H as [| e l He _ IH]; [constructor |]. simpl. by apply Forall_app.
Qed.
Lemma table_parses ls : Zlen (concat (map entry_text es)) < 2 ^ 21 -> Forall2 (entry_ok (names_of R)) es ls -> exists p, parse vocab (concat (map entry_text es)) = Ok (Some p) /\ Forall (rule_means p) (rules_of es ls).
Proof.
  intros Hlen Hls. destruct (entries_names _ _ _ Hls) as (H1 & H2 & H3). assert (Hes : es.*1 ≡ₚ names_of R) by (unfold es, names_of; by rewrite sorted_entries_perm).
  apply (grammar_text_parses vocab (rules_of es ls)); [by eapply entries_text | apply entries_bytes | | | done | done].
  - rewrite H1, Hes. apply NoDup_fst_map_to_list.
  - rewrite H1. intros n Hn. rewrite Hes. by apply H2.
Qed.
(** the grammar parses, and the languages of its rules solve the equations *)
Lemma table_means : Zlen (concat (map entry_text es)) < 2 ^ 21 -> exists p, parse vocab (concat (map entry_text es)) = Ok (Some p) /\ solves (rho p) R /\
  forall n, is_Some (R !! n) -> exists i rule, symbol_ids p !! n = Some i /\ vlookup (rules p) i = Some rule /\ forall w, gen_rule (rules p) rule w <-> rho p n w.
Proof.
  intros Hlen. assert (Hall : Forall (fun e => exists l, entry_ok (names_of R) e l) es).
  { apply Forall_forall. intros e He. apply entry_in in He. destruct (HR _ _ He) as (Hw & _ & Hne & w & L & l & H1 & H2 & H3 & _). exists l. rewrite app_nil_r in H3. by split_and!. }
  assert (Hmeans : forall p n i, symbol_ids p !! n = Some i -> forall rule, vlookup (rules p) i = Some rule -> forall w, rho p n w <-> gen_rule (rules p) rule w).
  { intros p n i Hi rule Hr w. unfold rho, rule_at. split; [intros (j & Hj & Hg); simplify_eq; by rewrite Hr in Hg | intros Hg; exists i; split; [done | by rewrite Hr] ]. }
  destruct (choose_all _ _ Hall) as [ls Hls]. destruct (table_parses ls Hlen Hls) as (p & Ep & Hp). exists p. split_and!; [done | |].
  - intros n t l Hn H1 H2 H3 w. assert (Hov : Forall (fun e => exists k, entry_ok (names_of R) e k /\ (e.1 = n -> k = l)) es).
    { apply Forall_forall. intros e He. rewrite Forall_forall in Hall. destruct (Hall e He) as [k Hk]. destruct (decide (e.1 = n)) as [E | E]; [| by exists k]. exists l. split; [| done]. apply entry_in in He. rewrite E, Hn in He. injection He as He. destruct Hk as (K1 & K2 & _). split_and!; [done | done | by rewrite <- He | done | done]. }
    destruct (choose_all _ _ Hov) as [ks Hks]. destruct (table_parses ks Hlen) as (p' & Ep' & Hp'); [eapply Forall2_impl; [exact Hks |]; by intros ? ? [? _] |]. rewrite Ep in Ep'. injection Ep' as <-.
    assert (Hin : mkGbnf n l ∈ rules_of es ks).
    { assert (He : (n, t) ∈ es) by (by apply entry_in). apply list_elem_of_lookup in He as [j Hj]. destruct (Forall2_lookup_l _ _ _ _ _ Hks Hj) as (k & Hk & _ & Hkl). apply list_elem_of_lookup. exists j. unfold rules_of. rewrite lookup_zip_with, Hj, Hk. simpl. by rewrite Hkl. }
    rewrite Forall_forall in Hp'. destruct (Hp' _ Hin) as (i & rule & Hi & Hr & Hg). simpl in Hi, Hg. rewrite (Hmeans p n i Hi rule Hr). apply Hg.
  - intros n [t Hn]. assert (He : (n, t) ∈ es) by (by apply entry_in). apply list_elem_of_lookup in He as [j Hj]. destruct (Forall2_lookup_l _ _ _ _ _ Hls Hj) as (k & Hk & _).
    assert (Hin : mkGbnf n k ∈ rules_of es ls) by (apply list_elem_of_lookup; exists j; unfold rules_of; by rewrite lookup_zip_with, Hj, Hk). rewrite Forall_forall in Hp. destruct (Hp _ Hin) as (i & rule & Hi & Hr & _). exists i, rule. split_and!; [done | done |]. intros w. symmetry. by apply (Hmeans p n i).
Qed.
End Table.

(** ** Names *)
Definition fine (name : list Z) : Prop := Forall (fun c => is_word_char c = true) name.
Lemma escape_fine name : fine name -> escape_name name = name.
Proof. unfold escape_name. induction 1 as [| c s Hc _ IH]; [done |]. simpl. unfold is_rule_char. by rewrite Hc, IH. Qed.
Lemma word_fine name : word name -> fine name.
Proof. by intros [_ H]. Qed.
Lemma fine_app s t : fine s -> fine t -> fine (s ++ t).
Proof. intros Hs Ht. by apply Forall_app. Qed.
Lemma fine_check s : forallb is_word_char s = true -> fine s.
Proof. intros H. apply Forall_forall. intros c Hc. rewrite forallb_forall in H. by apply H, list_elem_of_In. Qed.
Lemma word_app_l s t : word s -> fine t -> word (s ++ t).
Proof. intros [Hn Hs] Ht. split; [by destruct s | by apply Forall_app]. Qed.
Lemma word_app_r s t : fine s -> word t -> word (s ++ t).
Proof. intros Hs [Hn Ht]. split; [by intros [_ ->]%app_eq_nil | by apply Forall_app]. Qed.
Lemma to_string_fine z : 0 <= z -> word (to_string z).
Proof.
  intros Hz. destruct (to_string_numeral z Hz) as [H1 _ H3 _]. split; [intros E; rewrite E in H3; by rewrite Zlen_nil in H3 |]. eapply Forall_impl; [exact H1 |]. intros c Hc. unfold is_word_char. by rewrite Hc, !orb_true_r.
Qed.
(** reserved names end with a letter *)
Definition letter_end (k : list Z) : bool := match last k with Some c => (97 <=? c) && (c <=? 122) | None => false end.
Lemma find_rule_in k tbl r : find_rule k tbl = Some r -> (k, r) ∈ tbl.
Proof.
  unfold find_rule. destruct (List.find _ tbl) as [ [k' r'] |] eqn:E; [| done]. simpl. intros [= ->]. apply List.find_some in E as [Hin Hk]. apply bool_decide_eq_true in Hk. simpl in Hk. subst k'. by apply list_elem_of_In.
Qed.
Lemma tables_end : forallb (fun e => letter_end e.1) (PRIMITIVE_RULES ++ STRING_FORMAT_RULES) = true.
Proof. vm_compute. reflexivity. Qed.
Lemma builtin_end k r : builtin_rule k = Some r -> letter_end k = true.
Proof.
  intros H. assert (Hin : (k, r) ∈ PRIMITIVE_RULES ++ STRING_FORMAT_RULES). { unfold builtin_rule in H. apply elem_of_app. destruct (find_rule k PRIMITIVE_RULES) eqn:E; [injection H as ->; left; by apply find_rule_in | right; by apply find_rule_in]. }
  pose proof tables_end as Ht. rewrite forallb_forall in Ht. apply list_elem_of_In in Hin. exact (Ht _ Hin).
Qed.
Lemma reserved_end k : is_reserved_name k = true -> letter_end k = true.
Proof.
  unfold is_reserved_name. rewrite !orb_true_iff, !bool_decide_eq_true. intros [ [-> | [r H] ] | [r H] ]; [done | |].
  - apply (builtin_end k r). unfold builtin_rule. by rewrite H.
  - unfold builtin_rule in *. destruct (find_rule k PRIMITIVE_RULES) as [r' |] eqn:E; [apply (builtin_end k r') | apply (builtin_end k r)]; unfold builtin_rule; by rewrite E.
Qed.
Lemma not_reserved k : letter_end k = false -> is_reserved_name k = false.
Proof. intros H. destruct (is_reserved_name k) eqn:E; [| done]. apply reserved_end in E. congruence. Qed.
Lemma reserved_none k : is_reserved_name k = false -> builtin_rule k = None /\ k <> bytes "root".
Proof.
  unfold is_reserved_name, builtin_rule. rewrite !orb_false_iff, !bool_decide_eq_false. intros [ [H1 H2] H3]. split; [| done]. destruct (find_rule k PRIMITIVE_RULES); [exfalso; by apply H2 |]. destruct (find_rule k STRING_FORMAT_RULES); [exfalso; by apply H3 | done].
Qed.
Lemma end_app s t : t <> [] -> letter_end (s ++ t) = letter_end t.
Proof. intros Ht. unfold letter_end. rewrite last_app. destruct (last t) eqn:E; [done |]. by apply last_None in E. Qed.
Lemma end_number z : 0 <= z -> letter_end (to_string z) = false.
Proof.
  intros Hz. destruct (to_string_numeral z Hz) as [H1 _ H3 _]. unfold letter_end. destruct (last (to_string z)) as [c |] eqn:E; [| done]. apply last_Some_elem_of in E. unfold digits in H1. rewrite Forall_forall in H1. specialize (H1 c E). unfold is_digit_char in H1. lia.
Qed.
Lemma rule_name_fine name : fine name -> word (rule_name_of name) /\ builtin_rule (rule_name_of name) = None /\ (name <> [] -> rule_name_of name <> bytes "root") /\ rule_name_of [] = bytes "root".
Proof.
  intros Hf. unfold rule_name_of. destruct (is_reserved_name name) eqn:E.
  - assert (Hn : name <> []) by (intros ->; by vm_compute in E). assert (Hd : letter_end (name ++ bytes "-") = false) by (by rewrite end_app). apply not_reserved, reserved_none in Hd as [H1 H2]. split_and!; [apply word_app_l; [done | by apply fine_check] | done | done | done].
  - apply reserved_none in E as [E1 E2]. destruct name as [| c name]; [split_and!; [split; [done | by apply fine_check] | by vm_compute | done | done] |]. by split_and!.
Qed.

(** ** [_add_rule] *)
Lemma to_string_app_inj (name : list Z) i j : name ++ to_string i = name ++ to_string j -> i = j.
Proof. intros H. apply app_inv_head in H. by apply to_string_inj. Qed.
Lemma free_index_spec n i R name rule : 0 <= i -> let j := free_index n i R name rule in i <= j <= i + Z.of_nat n /\ (usable R (name ++ to_string j) rule = true \/ j = i + Z.of_nat n) /\ forall k, i <= k < j -> usable R (name ++ to_string k) rule = false.
Proof.
  revert i. induction n as [| n IH]; intros i Hi; cbn [free_index]; [split_and!; [lia | lia | right; lia | lia] |]. destruct (usable R (name ++ to_string i) rule) eqn:E; [split_and!; [lia | lia | by left | lia] |].
  destruct (IH (i + 1) ltac:(lia)) as (H1 & H2 & H3). split_and!; [lia | lia | destruct H2 as [|]; [by left | right; lia] |]. intros k Hk. destruct (Z.eq_dec k i) as [-> |]; [done | apply H3; lia].
Qed.
Lemma free_index_usable R name rule : usable R (name ++ to_string (free_index (size R) 0 R name rule)) rule = true.
Proof.
  destruct (free_index_spec (size R) 0 R name rule ltac:(lia)) as (H1 & H2 & H3). set (j := free_index (size R) 0 R name rule) in *. destruct H2 as [| Hj]; [done |]. destruct (usable R (name ++ to_string j) rule) eqn:E; [done |]. exfalso.
  assert (Hin : forall k, (k <= size R)%nat -> name ++ to_string (Z.of_nat k) ∈ names_of R). { intros k Hk. apply names_of_spec. assert (Hu : usable R (name ++ to_string (Z.of_nat k)) rule = false) by (destruct (Z.eq_dec (Z.of_nat k) j) as [-> |]; [done | apply H3; lia]). unfold usable in Hu. destruct (R !! _) eqn:Er; [by eexists | done]. }
  assert (Hnd : NoDup (map (fun k => name ++ to_string (Z.of_nat k)) (seq 0 (S (size R))))). { apply NoDup_fmap_2; [intros a b Hab; apply to_string_app_inj in Hab; lia | apply NoDup_seq]. }
  assert (Hle : (length (map (fun k => name ++ to_string (Z.of_nat k)) (seq 0 (S (size R)))) <= length (names_of R))%nat).
  { apply submseteq_length, NoDup_submseteq; [done |]. intros x Hx. apply list_elem_of_fmap in Hx as (k & -> & Hk). apply Hin. apply elem_of_seq in Hk. lia. }
  rewrite length_map, length_seq in Hle. assert (length (names_of R) = size R) by (unfold names_of; rewrite length_fmap; apply length_map_to_list). lia.
Qed.
(** the name that is returned, and the table *)
Lemma add_rule_key name rule c : let '(n, c') := _add_rule name rule c in
  (n = escape_name name \/ exists i, 0 <= i /\ n = escape_name name ++ to_string i) /\ (c_rules c !! escape_name name = None -> n = escape_name name) /\
  c' = with_rules (<[n := rule]> (c_rules c)) c /\ c_rules c ⊆ c_rules c' /\ c_rules c' !! n = Some rule.
Proof.
  unfold _add_rule. set (R := c_rules c). set (esc := escape_name name). assert (Hu : usable R (if usable R esc rule then esc else esc ++ to_string (free_index (size R) 0 R esc rule)) rule = true) by (destruct (usable R esc rule) eqn:E; [done | apply free_index_usable]).
  split_and!; [| | done | | cbn [with_rules c_rules]; by rewrite lookup_insert_eq].
  - destruct (usable R esc rule); [by left | right]. eexists. split; [| done]. apply (free_index_spec (size R) 0 R esc rule). lia.
  - intros E. unfold usable. by rewrite E.
  - cbn [with_rules c_rules]. unfold usable at 1 in Hu. set (k := if usable R esc rule then _ else _) in *. destruct (R !! k) as [r |] eqn:E; [apply bool_decide_eq_true in Hu as ->; by rewrite insert_id | by apply insert_subseteq].
Qed.

(** ** The state of the converter *)
Record inv (D : list (list Z)) (c : common_schema_converter) : Prop := mkInv {
  inv_closed : closed D (c_rules c);
  inv_space : c_rules c !! bytes "space" = Some SPACE_RULE;
  inv_builtin : forall n r, builtin_rule n = Some r -> c_rules c !! n = None \/ c_rules c !! n = Some (br_content r);
  inv_errors : c_errors c = [] }.
(** more rules, and a rule of the name [root] only if it was asked for *)
Definition grown (top : bool) (c c' : common_schema_converter) : Prop := c_rules c ⊆ c_rules c' /\ (top = false -> c_rules c' !! bytes "root" = c_rules c !! bytes "root").
Lemma grown_refl top c : grown top c c.
Proof. done. Qed.
Lemma grown_trans top c1 c2 c3 : grown false c1 c2 -> grown top c2 c3 -> grown top c1 c3.
Proof. intros [H1 H2] [H3 H4]. split; [by etransitivity |]. intros E. rewrite H4 by done. by apply H2. Qed.
Lemma grown_weak top c c' : grown false c c' -> grown top c c'.
Proof. intros [H1 H2]. split; [done |]. intros _. by apply H2. Qed.
Lemma inv_drop d D c : inv (d :: D) c -> d ∈ names_of (c_rules c) -> inv D c.
Proof.
  intros [H1 H2 H3 H4] Hd. split; [| done | done | done]. intros n t Hn. destruct (H1 n t Hn) as (A1 & A2 & A3 & w & L & A4). split_and!; [done | done | done |]. exists w, L. eapply is_alts_mono; [| reflexivity | exact A4]. intros x. rewrite !elem_of_app, elem_of_cons. intros [| [-> |] ]; auto.
Qed.
Lemma inv_push d D c : inv D c -> inv (d :: D) c.
Proof.
  intros [H1 H2 H3 H4]. split; [| done | done | done]. intros n t Hn. destruct (H1 n t Hn) as (A1 & A2 & A3 & w & L & A4). split_and!; [done | done | done |]. exists w, L. eapply is_alts_mono; [| reflexivity | exact A4]. set_solver.
Qed.
Lemma add_rule_spec D c name rule w L : inv D c -> word name -> byte_string rule -> rule <> [] -> is_alts false (names_of (c_rules c) ++ D) w rule L ->
  (builtin_rule name = None \/ exists r, builtin_rule name = Some r /\ br_content r = rule) ->
  exists n c', _add_rule name rule c = (n, c') /\ inv D c' /\ grown (bool_decide (name = bytes "root")) c c' /\ c_rules c' !! n = Some rule /\ (c_rules c !! name = None -> n = name) /\ word n.
Proof.
  intros [H1 H2 H3 H4] Hw Hb Hne Ha Hbu. pose proof (add_rule_key name rule c) as K. destruct (_add_rule name rule c) as [n c']. rewrite escape_fine in K by (by apply word_fine). destruct K as (K1 & K2 & -> & K4 & K5). exists n, (with_rules (<[n:=rule]> (c_rules c)) c).
  assert (Hwn : word n) by (destruct K1 as [-> | (i & Hi & ->)]; [done | apply word_app_l; [done | by apply word_fine, to_string_fine] ]).
  assert (Hend : n = name \/ letter_end n = false). { destruct K1 as [-> | (i & Hi & ->)]; [by left | right]. rewrite end_app; [by apply end_number |]. by apply to_string_fine. }
  split_and!; [done | | | done | done | done].
  - split; [| by eapply lookup_weaken | | done].
    + intros m t Hm. assert (Hnm : names_of (c_rules c) ++ D ⊆ names_of (c_rules (with_rules (<[n:=rule]> (c_rules c)) c)) ++ D). { intros x. rewrite !elem_of_app. intros [Hx |]; [left | by right]. by eapply names_of_mono. }
      cbn [with_rules c_rules] in Hm. apply lookup_insert_Some in Hm as [ [<- <-] | [_ Hm] ].
      * split_and!; [done | done | done |]. exists w, L. by eapply is_alts_mono.
      * destruct (H1 m t Hm) as (A1 & A2 & A3 & w' & L' & A4). split_and!; [done | done | done |]. exists w', L'. by eapply is_alts_mono.
    + intros m r Hr. cbn [with_rules c_rules]. destruct (decide (n = m)) as [<- | Hnm]; [right | rewrite lookup_insert_ne by done; by apply H3]. rewrite lookup_insert_eq. f_equal.
      destruct Hend as [-> | Hend]; [| apply builtin_end in Hr; congruence]. destruct Hbu as [Hn | (r' & Hr' & <-)]; congruence.
  - split; [done |]. intros Hr. apply bool_decide_eq_false in Hr. cbn [with_rules c_rules]. rewrite lookup_insert_ne; [done |]. intros ->. destruct Hend as [E | E]; [by rewrite E in Hr | done].
Qed.

(** ** Equal languages *)
Definition same (L K : language) : Prop := forall w, L w <-> K w.
#[global] Instance same_equiv : Equivalence same.
Proof. split; [by intros L w | intros L K H w; symmetry; apply H | intros L K M H1 H2 w; by rewrite (H1 w)]. Qed.
#[global] Instance cat_same : Proper (same ==> same ==> same) cat.
Proof. intros L L' HL K K' HK w. unfold cat. split; intros (u & v & -> & Hu & Hv); exists u, v; (split_and!; [done | by apply HL | by apply HK]). Qed.
#[global] Instance power_same n : Proper (same ==> same) (power n).
Proof. intros L K H. induction n as [| n IH]; [reflexivity |]. by apply cat_same. Qed.
#[global] Instance times_same lo hi : Proper (same ==> same) (times lo hi).
Proof. intros L K H w. unfold times. split; intros (n & H1 & H2 & H3); exists n; (split_and!; [done | done |]); by apply (power_same n L K H). Qed.
#[global] Instance cats_same : Proper (Forall2 same ==> same) cats.
Proof. intros Ls Ks H. induction H as [| L K Ls Ks HL _ IH]; [reflexivity |]. by apply cat_same. Qed.
#[global] Instance alts_same : Proper (Forall2 same ==> same) alts.
Proof. intros Ls Ks H w. unfold alts. induction H as [| L K Ls Ks HL _ IH]; [by rewrite !Exists_nil |]. rewrite !Exists_cons. by rewrite (HL w), IH. Qed.
Lemma cat_nil_r L : same (cat L eps) L.
Proof. intros w. apply cat_eps. Qed.
Lemma cat_nil_l L : same (cat eps L) L.
Proof. intros w. unfold cat, eps. split; [by intros (u & v & -> & -> & H) | intros H; by exists [], w]. Qed.
Lemma cat_assoc_same L K M : same (cat L (cat K M)) (cat (cat L K) M).
Proof.
  intros w. unfold cat. split.
  - intros (u & v & -> & Hu & v1 & v2 & -> & H1 & H2). exists (u ++ v1), v2. rewrite app_assoc. split_and!; [done | by exists u, v1 | done].
  - intros (x & v & -> & (u1 & u2 & -> & H1 & H2) & Hv). exists u1, (u2 ++ v). rewrite app_assoc. split_and!; [done | done | by exists u2, v].
Qed.
(** ** The built-in languages *)
Definition lit (s : list Z) : language := fun w => w = s.
Definition cls (rs : list (Z * Z)) : language := fun w => exists c, w = [c] /\ in_ranges rs c.
Definition not_cls (rs : list (Z * Z)) : language := fun w => exists c, w = [c] /\ ~ in_ranges rs c.
Definition maybe (L : language) : language := times 0 (Some 1%nat) L.
Definition digit_cls : list (Z * Z) := [(48, 57)].
Definition hex_cls : list (Z * Z) := [(48, 57); (97, 102); (65, 70)].
Definition space_language : language := alts [cats []; cats [lit [32] ]; cats [times 1 (Some 2%nat) (lit [newline]); times 0 (Some 20%nat) (cls [(32, 32); (9, 9)])] ].
Definition boolean_language : language := cats [alts [cats [lit (bytes "true")]; cats [lit (bytes "false")] ] ].
Definition null_language : language := cats [lit (bytes "null")].
Definition integral_language : language := alts [cats [cls [(48, 48)] ]; cats [cls [(49, 57)]; times 0 (Some 15%nat) (cls digit_cls)] ].
Definition decimal_language : language := cats [times 1 (Some 16%nat) (cls digit_cls)].
Definition integer_language : language := cats [maybe (lit (bytes "-")); integral_language].
Definition number_language : language :=
  cats [integer_language; maybe (cats [lit (bytes "."); decimal_language]); maybe (cats [cls [(101, 101); (69, 69)]; maybe (cls [(45, 45); (43, 43)]); integral_language])].
(** a character that stands for itself, or an escape *)
Definition char_language : language :=
  alts [cats [not_cls [(quote, quote); (92, 92); (127, 127); (0, 31)] ];
        cats [cls [(92, 92)]; alts [cats [cls [(quote, quote); (92, 92); (98, 98); (102, 102); (110, 110); (114, 114); (116, 116)] ]; cats [lit (bytes "u"); times 4 (Some 4%nat) (cls hex_cls)] ] ] ].
Definition string_language : language := cats [lit [quote]; times 0 None char_language; lit [quote] ].
(** the simple types *)
Definition simple_types : list (string * language) := [("boolean", boolean_language); ("null", null_language); ("string", string_language); ("integer", integer_language); ("number", number_language)]%string.

(** ** The built-in rules as expressions *)
Definition L' (s : string) : gx := GLit (bytes s).
Definition C' (rs : list (Z * Z)) : gx := GClass false rs.
Definition maybe' (x : gx) : gx := GRep x 0 (Some 1%nat).
Definition integral_ref : gx := GRef (bytes "integral-part").
Definition builtin_alts : list (string * list (list gx)) :=
  [("boolean", [ [GGroup [ [L' "true"]; [L' "false"] ] ] ]);
   ("null", [ [L' "null"] ]);
   ("decimal-part", [ [GRep (C' digit_cls) 1 (Some 16%nat)] ]);
   ("integral-part", [ [C' [(48, 48)] ]; [C' [(49, 57)]; GRep (C' digit_cls) 0 (Some 15%nat)] ]);
   ("integer", [ [GGroup [ [maybe' (L' "-"); integral_ref] ] ] ]);
   ("number", [ [GGroup [ [maybe' (L' "-"); integral_ref] ]; maybe' (GGroup [ [L' "."; GRef (bytes "decimal-part")] ]); maybe' (GGroup [ [C' [(101, 101); (69, 69)]; maybe' (C' [(45, 45); (43, 43)]); integral_ref] ])] ]);
   ("char", [ [GClass true [(quote, quote); (92, 92); (127, 127); (0, 31)] ];
              [C' [(92, 92)]; GGroup [ [C' [(quote, quote); (92, 92); (98, 98); (102, 102); (110, 110); (114, 114); (116, 116)] ]; [L' "u"; GRep (C' hex_cls) 4 (Some 4%nat)] ] ] ]);
   ("string", [ [GLit [quote]; GRep (GRef (bytes "char")) 0 None; GLit [quote] ] ])]%string.
Definition space_alts : list (list gx) := [ []; [GLit [32] ]; [GRep (GLit [newline]) 1 (Some 2%nat); GRep (C' [(32, 32); (9, 9)]) 0 (Some 20%nat)] ].
Definition builtin_ok (e : string * list (list gx)) : bool :=
  match builtin_rule (bytes e.1) with
  | Some r => bool_decide (eat_alts false e.2 (br_content r) = Some []) && forallb (forallb modest) e.2 && forallb (fun n => bool_decide (n ∈ br_deps r)) (concat (map (fun s => concat (map mentions s)) e.2))
              && is_word (bytes e.1) && negb (bool_decide (br_content r = [])) && forallb (fun c => (0 <=? c) && (c <? 256)) (br_content r)
  | None => false
  end.
Lemma builtin_alts_ok : forallb builtin_ok builtin_alts = true.
Proof. vm_compute. reflexivity. Qed.
Lemma space_ok : eat_alts false space_alts SPACE_RULE = Some [].
Proof. vm_compute. reflexivity. Qed.
Lemma builtin_is b l : (b, l) ∈ builtin_alts -> exists r, builtin_rule (bytes b) = Some r /\ is_alts false (br_deps r) (weight_alts l) (br_content r) (fun rho => den_alts rho l) /\ word (bytes b) /\ br_content r <> [] /\ byte_string (br_content r).
Proof.
  intros Hin. pose proof builtin_alts_ok as H. rewrite forallb_forall in H. apply list_elem_of_In in Hin. specialize (H _ Hin). unfold builtin_ok in H. cbn [fst snd] in H. destruct (builtin_rule (bytes b)) as [r |]; [| done]. exists r. rewrite !andb_true_iff in H. destruct H as [ [ [ [ [H1 H2] H3] H4] H5] H6].
  apply bool_decide_eq_true in H1. apply negb_true_iff, bool_decide_eq_false in H5. split_and!; [done | | by apply is_word_sound | done | by apply byte_string_check]. apply is_alts_eat; [done | done | done |]. apply Z.leb_le. lia.
Qed.
Lemma builtin_root r : builtin_rule (bytes "root") = Some r -> False.
Proof. by vm_compute. Qed.
(** a built-in rule that needs no others, under its own name *)
Definition leaf (d : list Z) : Prop := exists b l r, d = bytes b /\ (b, l) ∈ builtin_alts /\ builtin_rule d = Some r /\ br_deps r = [].
Lemma add_leaf fuel D d r c : leaf d -> builtin_rule d = Some r -> inv D c -> c_rules c !! d = None ->
  exists c', _add_primitive (S fuel) d r c = Ok (d, c') /\ inv D c' /\ grown false c c' /\ c_rules c' !! d = Some (br_content r).
Proof.
  intros (b & l & r' & -> & Hin & Hr' & Hd) Hr Hi Hn. destruct (builtin_is b l Hin) as (r0 & Hr0 & Ha & Hw & Hne & Hby). assert (r0 = r) as -> by congruence. assert (r' = r) as -> by congruence. rewrite Hd in Ha.
  destruct (add_rule_spec D c (bytes b) (br_content r) (weight_alts l) (fun rho => den_alts rho l) Hi Hw Hby Hne) as (n & c' & E & Hi' & Hg & Hl & Hk & _); [eapply is_alts_mono; [| reflexivity | exact Ha]; set_solver | right; by exists r |].
  exists c'. cbn [_add_primitive]. rewrite E, Hd. cbn [deps_loop rbind]. rewrite (Hk Hn) in *. split_and!; [done | done | | done]. rewrite bool_decide_eq_false_2 in Hg; [done |]. intros Eb. rewrite Eb in Hr. by apply builtin_root in Hr.
Qed.
Lemma deps_spec fuel ds : forall D c, Forall leaf ds -> inv (ds ++ D) c ->
  exists c', deps_loop (_add_primitive (S fuel)) ds c = Ok c' /\ inv D c' /\ grown false c c' /\ forall d r, d ∈ ds -> builtin_rule d = Some r -> c_rules c' !! d = Some (br_content r).
Proof.
  induction ds as [| d ds IH]; intros D c Hl Hi; cbn [deps_loop]; [exists c; split_and!; [done | done | apply grown_refl | intros d r Hd; by apply elem_of_nil in Hd] |]. apply Forall_cons in Hl as [Hd Hl]. pose proof Hd as (b & l & r & _ & _ & Hr & _). rewrite Hr.
  assert (Hstep : exists c1, (match c_rules c !! d with None => let! (_, c) := _add_primitive (S fuel) d r c in deps_loop (_add_primitive (S fuel)) ds c | Some _ => deps_loop (_add_primitive (S fuel)) ds c end) = deps_loop (_add_primitive (S fuel)) ds c1
    /\ inv (ds ++ D) c1 /\ grown false c c1 /\ c_rules c1 !! d = Some (br_content r)).
  { simpl in Hi. destruct (c_rules c !! d) as [t |] eqn:Et.
    - exists c. assert (Hin : d ∈ names_of (c_rules c)) by (apply names_of_spec; by exists t). split_and!; [done | by eapply inv_drop | apply grown_refl |]. destruct (inv_builtin _ _ Hi d r Hr) as [|]; congruence.
    - destruct (add_leaf fuel (d :: ds ++ D) d r c Hd Hr Hi Et) as (c1 & E & Hi1 & Hg & Hl1). exists c1. rewrite E. cbn [rbind]. split_and!; [done | | done | done]. eapply inv_drop; [exact Hi1 |]. apply names_of_spec. by eexists. }
  destruct Hstep as (c1 & -> & Hi1 & Hg1 & Hl1). destruct (IH D c1 Hl Hi1) as (c' & E & Hi' & Hg & Hds). exists c'. split_and!; [done | done | by eapply grown_trans |]. intros d' r' [-> | Hd']%elem_of_cons Hr'; [| by apply Hds]. assert (r' = r) as -> by congruence. eapply lookup_weaken; [exact Hl1 | apply Hg].
Qed.
(** a built-in rule of depth at most two, under any free name or under its own *)
Lemma add_builtin_spec fuel b l r name c : (b, l) ∈ builtin_alts -> builtin_rule (bytes b) = Some r -> Forall leaf (br_deps r) -> inv [] c -> word name -> (builtin_rule name = None \/ name = bytes b) ->
  exists n c', _add_primitive (S (S fuel)) name r c = Ok (n, c') /\ inv [] c' /\ grown (bool_decide (name = bytes "root")) c c' /\ c_rules c' !! n = Some (br_content r) /\ (c_rules c !! name = None -> n = name) /\ word n /\
    (forall rho, solves rho (c_rules c') -> forall v, rho n v <-> den_alts rho l v) /\ (forall d r', d ∈ br_deps r -> builtin_rule d = Some r' -> c_rules c' !! d = Some (br_content r')).
Proof.
  intros Hin Hr Hl Hi Hw Hname. destruct (builtin_is b l Hin) as (r0 & Hr0 & Ha & _ & Hne & Hby). assert (r0 = r) as -> by congruence.
  assert (Hi2 : forall ds, inv (ds ++ []) c) by (induction ds as [| d ds IH]; [done | exact (inv_push d _ c IH)]). specialize (Hi2 (br_deps r)).
  destruct (add_rule_spec (br_deps r ++ []) c name (br_content r) (weight_alts l) (fun rho => den_alts rho l) Hi2 Hw Hby Hne) as (n & c1 & E & Hi1 & Hg1 & Hl1 & Hk & Hwn).
  { eapply is_alts_mono; [| reflexivity | exact Ha]. set_solver. } { destruct Hname as [| ->]; [by left | right; by exists r]. }
  destruct (deps_spec fuel (br_deps r) [] c1 Hl Hi1) as (c' & E' & Hi' & Hg' & Hds). exists n, c'. assert (Hln : c_rules c' !! n = Some (br_content r)) by (eapply lookup_weaken; [exact Hl1 | apply Hg']).
  split_and!; [| done | | done | done | done | | done].
  - remember (S fuel) as f1. cbn [_add_primitive]. rewrite E, E'. done.
  - destruct Hg1 as [G1 G2], Hg' as [G3 G4]. split; [by etransitivity |]. intros Ht. rewrite G4 by done. by apply G2.
  - intros rho Hs v. apply (solves_is rho (c_rules c') (br_deps r) (weight_alts l) n (br_content r) (fun rho => den_alts rho l)); [done | done | | done]. intros d Hd. apply names_of_spec. rewrite Forall_forall in Hl. destruct (Hl d Hd) as (b' & l' & r' & _ & _ & Hr' & _). exists (br_content r'). by apply Hds.
Qed.

(** *** The simple types *)
Lemma builtin_denotes rho b l r c : (b, l) ∈ builtin_alts -> builtin_rule (bytes b) = Some r -> br_deps r = [] -> solves rho (c_rules c) -> c_rules c !! bytes b = Some (br_content r) -> same (rho (bytes b)) (den_alts rho l).
Proof.
  intros Hin Hr Hd Hs Hl v. destruct (builtin_is b l Hin) as (r0 & Hr0 & Ha & _). assert (r0 = r) as -> by congruence. rewrite Hd in Ha. apply (solves_is rho (c_rules c) [] (weight_alts l) (bytes b) (br_content r) (fun rho => den_alts rho l)); [done | done | set_solver | done].
Qed.
Definition result (top : bool) (c : common_schema_converter) (L : language) (r : list Z * common_schema_converter) : Prop :=
  inv [] r.2 /\ grown top c r.2 /\ is_Some (c_rules r.2 !! r.1) /\ word r.1 /\ (top = true -> c_rules c !! bytes "root" = None -> r.1 = bytes "root") /\ forall rho, solves rho (c_rules r.2) -> same (rho r.1) L.
Definition prim (b : string) : BuiltinRule := default (mkBuiltin [] []) (find_rule (bytes b) PRIMITIVE_RULES).
Definition alts_at (b : string) : list (list gx) := default [] (snd <$> List.find (fun e => bool_decide (e.1 = b)) builtin_alts).
Lemma leaves : Forall leaf [bytes "char"; bytes "integral-part"; bytes "decimal-part"].
Proof.
  assert (H : forall i b, builtin_alts !! i = Some (b, alts_at b) -> builtin_rule (bytes b) = Some (prim b) -> br_deps (prim b) = [] -> leaf (bytes b)) by (intros i b H1 H2 H3; exists b, (alts_at b), (prim b); split_and!; [done | by eapply list_elem_of_lookup_2 | done | done]).
  repeat constructor; [apply (H 6%nat) | apply (H 3%nat) | apply (H 2%nat)]; vm_compute; reflexivity.
Qed.
Lemma leaf_denotes rho c b L : bytes b ∈ [bytes "char"; bytes "integral-part"; bytes "decimal-part"] -> solves rho (c_rules c) -> (forall r, builtin_rule (bytes b) = Some r -> c_rules c !! bytes b = Some (br_content r)) ->
  same (den_alts rho (alts_at b)) L -> same (rho (bytes b)) L.
Proof.
  intros Hb Hs Hl HL. assert (Hr : exists i, builtin_alts !! i = Some (b, alts_at b) /\ builtin_rule (bytes b) = Some (prim b) /\ br_deps (prim b) = []).
  { rewrite !elem_of_cons, elem_of_nil in Hb. destruct_or! Hb; try done; apply (inj bytes) in Hb as ->; [exists 6%nat | exists 3%nat | exists 2%nat]; vm_compute; split_and!; reflexivity. }
  destruct Hr as (i & Hi & Hr & Hd). etransitivity; [| exact HL]. eapply builtin_denotes; [by eapply list_elem_of_lookup_2 | exact Hr | exact Hd | exact Hs | by apply Hl].
Qed.
Lemma alts_one L : same (alts [L]) L.
Proof. intros w. unfold alts. rewrite Exists_cons, Exists_nil. tauto. Qed.
(** what is left of a meaning when the references are known *)
Ltac each := repeat match goal with |- Forall2 _ _ _ => constructor end.
Ltac known := repeat first [ reflexivity | assumption | apply cats_same; each | apply alts_same; each | apply times_same | apply cat_same ].
Lemma simple_types_in b L : (b, L) ∈ simple_types -> exists l r, (b, l) ∈ builtin_alts /\ find_rule (bytes b) PRIMITIVE_RULES = Some r /\ Forall leaf (br_deps r) /\
  forall rho c, solves rho (c_rules c) -> (forall d r', d ∈ br_deps r -> builtin_rule d = Some r' -> c_rules c !! d = Some (br_content r')) -> same (den_alts rho l) L.
Proof.
  intros Hin. exists (alts_at b), (prim b). pose proof leaves as Hlv. rewrite !Forall_cons in Hlv. destruct Hlv as (V1 & V2 & V3 & _).
  assert (H : exists i (ds : list (list Z)), builtin_alts !! i = Some (b, alts_at b) /\ find_rule (bytes b) PRIMITIVE_RULES = Some (prim b) /\ br_deps (prim b) = ds /\ Forall leaf ds /\
    forall rho c, solves rho (c_rules c) -> (forall d r', d ∈ ds -> builtin_rule d = Some r' -> c_rules c !! d = Some (br_content r')) -> same (den_alts rho (alts_at b)) L).
  2: { destruct H as (i & ds & H1 & H2 & H3 & H4 & H5). rewrite H3. split_and!; [by eapply list_elem_of_lookup_2 | done | done | done]. }
  assert (V : forall b' M rho c (ds : list (list Z)), bytes b' ∈ ds -> bytes b' ∈ [bytes "char"; bytes "integral-part"; bytes "decimal-part"] -> solves rho (c_rules c) -> (forall d r', d ∈ ds -> builtin_rule d = Some r' -> c_rules c !! d = Some (br_content r')) ->
    same (den_alts rho (alts_at b')) M -> same (rho (bytes b')) M) by (intros b' M rho c ds Hd Hb' Hs Hl HM; eapply leaf_denotes; [done | exact Hs | intros r Hr; by eapply Hl | done]).
  unfold simple_types in Hin. rewrite !elem_of_cons, elem_of_nil in Hin. destruct_or! Hin; try done; simplify_eq.
  - exists 0%nat, []. split_and!; [by vm_compute.. | constructor |]. intros rho c _ _. apply alts_one.
  - exists 1%nat, []. split_and!; [by vm_compute.. | constructor |]. intros rho c _ _. apply alts_one.
  - exists 7%nat, [bytes "char"]. split_and!; [by vm_compute.. | by repeat constructor |]. intros rho c Hs Hl. etransitivity; [apply alts_one |].
    assert (same (rho (bytes "char")) char_language) by (eapply V; [apply list_elem_of_here | set_solver | done | done | reflexivity]). unfold string_language. known.
  - exists 4%nat, [bytes "integral-part"]. split_and!; [by vm_compute.. | by repeat constructor |]. intros rho c Hs Hl.
    assert (same (rho (bytes "integral-part")) integral_language) by (eapply V; [apply list_elem_of_here | set_solver | done | done | reflexivity]). etransitivity; [apply alts_one |]. etransitivity; [apply cat_nil_r |]. etransitivity; [apply alts_one |]. unfold integer_language. known.
  - exists 5%nat, [bytes "integral-part"; bytes "decimal-part"]. split_and!; [by vm_compute.. | by repeat constructor |]. intros rho c Hs Hl.
    assert (same (rho (bytes "integral-part")) integral_language) by (eapply V; [apply list_elem_of_here | set_solver | done | done | reflexivity]).
    assert (same (rho (bytes "decimal-part")) decimal_language) by (eapply V; [apply list_elem_of_further, list_elem_of_here | set_solver | done | done | apply alts_one]).
    etransitivity; [apply alts_one |]. unfold number_language. apply cats_same. each.
    + etransitivity; [apply alts_one |]. unfold integer_language. known.
    + apply times_same. etransitivity; [apply alts_one |]. known.
    + apply times_same. etransitivity; [apply alts_one |]. known.
Qed.
(** a property of a type that is one of the simple ones *)
Lemma simple_type_spec b L name c : (b, L) ∈ simple_types -> inv [] c -> fine name -> exists r rr, find_rule (bytes b) PRIMITIVE_RULES = Some r /\
  _add_primitive primitive_fuel (if bool_decide (rule_name_of name = bytes "root") then bytes "root" else bytes b) r c = Ok rr /\ result (bool_decide (name = [])) c L rr.
Proof.
  intros Hin Hi Hf. destruct (simple_types_in b L Hin) as (l & r & Hb & Hr & Hl & HL). destruct (rule_name_fine name Hf) as (R1 & R2 & R3 & R4). destruct (builtin_is b l Hb) as (r0 & Hr0 & _ & Hw & _).
  assert (Hbr : builtin_rule (bytes b) = Some r) by (unfold builtin_rule; by rewrite Hr). set (nm := if bool_decide (rule_name_of name = bytes "root") then bytes "root" else bytes b).
  assert (Hnm : word nm /\ (builtin_rule nm = None \/ nm = bytes b) /\ bool_decide (nm = bytes "root") = bool_decide (name = [])).
  { subst nm. destruct (decide (name = [])) as [-> | Hn].
    - rewrite R4, !bool_decide_eq_true_2 by done. split_and!; [split; [done | by apply fine_check] | left; by vm_compute | done].
    - rewrite (bool_decide_eq_false_2 (rule_name_of name = _)) by (by apply R3). rewrite (bool_decide_eq_false_2 (name = [])) by done. split_and!; [done | by right |]. apply bool_decide_eq_false_2. intros E. rewrite E in Hbr. by apply builtin_root in Hbr. }
  destruct Hnm as (N1 & N2 & N3). destruct (add_builtin_spec 18 b l r nm c Hb Hbr Hl Hi N1 N2) as (n & c' & E & A1 & A2 & A3 & A4 & A5 & A6 & A7). exists r, (n, c'). split_and!; [done | done |]. rewrite N3 in A2. split_and!; [done | done | by eexists | done | |].
  - cbn [fst]. intros Ht Hroot. rewrite <- N3 in Ht. apply bool_decide_eq_true in Ht. rewrite Ht in A4. by apply A4.
  - intros rho Hs. cbn [fst]. intros v. rewrite (A6 rho Hs v). by apply (HL rho c').
Qed.

(** ** Rules with a given text *)
Lemma add_named c name rule w L K : inv [] c -> fine name -> rule <> [] -> is_alts false (names_of (c_rules c)) w rule L -> (forall rho, solves rho (c_rules c) -> same (L rho) K) ->
  result (bool_decide (name = [])) c K (_add_rule (rule_name_of name) rule c).
Proof.
  intros Hi Hf Hne Ha HK. pose proof (is_alts_bytes _ _ _ _ _ Ha) as Hb. destruct (rule_name_fine name Hf) as (R1 & R2 & R3 & R4). rewrite <- (app_nil_r (names_of _)) in Ha. destruct (add_rule_spec [] c (rule_name_of name) rule w L Hi R1 Hb Hne Ha) as (n & c' & E & A1 & A2 & A3 & A4 & A5); [by left |]. rewrite E.
  assert (Ht : bool_decide (rule_name_of name = bytes "root") = bool_decide (name = [])). { destruct (decide (name = [])) as [-> | Hn]; [by rewrite R4 |]. rewrite !bool_decide_eq_false_2; [done | done | by apply R3]. }
  rewrite Ht in A2. split_and!; [done | done | by eexists | done | |]; cbn [fst snd].
  - intros Hn Hr. apply bool_decide_eq_true in Hn as ->. rewrite R4 in A4. by apply A4.
  - intros rho Hs v. etransitivity; [| apply HK; eapply solves_mono; [apply A2 | done] ]. rewrite app_nil_r in Ha. apply (solves_is rho (c_rules c') (names_of (c_rules c)) w n rule L); [done | done | apply names_of_mono, A2 | done].
Qed.
Lemma result_trans top c0 c K r : grown false c0 c -> result top c K r -> result top c0 K r.
Proof.
  intros Hg (A1 & A2 & A3 & A4 & A5 & A6). split_and!; [done | by eapply grown_trans | done | done | | done]. intros Ht Hr. apply A5; [done |]. rewrite (proj2 Hg); done.
Qed.
(** a rule of the table that is known to mean [L] *)
Definition has_rule (c : common_schema_converter) (n : list Z) (L : language) : Prop := is_Some (c_rules c !! n) /\ word n /\ forall rho, solves rho (c_rules c) -> same (rho n) L.
Lemma has_rule_mono top c c' n L : grown top c c' -> has_rule c n L -> has_rule c' n L.
Proof. intros [Hg _] ([t Ht] & Hw & HL). split_and!; [exists t; by eapply lookup_weaken | done |]. intros rho Hs. apply HL. by eapply solves_mono. Qed.
Lemma result_rule top c L r : result top c L r -> has_rule r.2 r.1 L.
Proof. intros (A1 & A2 & A3 & A4 & A5 & A6). by split_and!. Qed.
Lemma is_item_rule nested c n L : has_rule c n L -> is_item nested (names_of (c_rules c)) 1 n (fun rho => rho n).
Proof. intros (H1 & H2 & _). apply is_item_ref; [done | by apply names_of_spec]. Qed.
Lemma space_rule c : inv [] c -> has_rule c (bytes "space") space_language.
Proof.
  intros Hi. pose proof (inv_space _ _ Hi) as Hs. split_and!; [by eexists | split; [done | by apply fine_check] |]. intros rho Hsol v.
  apply (solves_is rho (c_rules c) [] (weight_alts space_alts) (bytes "space") SPACE_RULE (fun rho => den_alts rho space_alts)); [done | done | set_solver |]. apply is_alts_eat; [apply space_ok | done | done | done].
Qed.

(** ** Literals *)
Definition utf8s (cps : list Z) : list Z := concat (map utf8_encode cps).
Lemma escaped_utf8 c : scalar c -> exists t, concat (map escape_char (utf8_encode c)) = t /\ char_text c t /\ peek t <> quote.
Proof.
  intros Hc. unfold scalar in Hc. eexists. split; [reflexivity |]. destruct (decide (c < 128)) as [Hlt | Hge].
  - assert (E : utf8_encode c = [c]) by (unfold utf8_encode; case_match; [done | lia]). rewrite E. cbn [map concat]. rewrite app_nil_r. unfold escape_char.
    destruct (Z.eqb_spec c creturn) as [-> | N1]; [split; [apply ct_escape; set_solver | done] |]. destruct (Z.eqb_spec c newline) as [-> | N2]; [split; [apply ct_escape; set_solver | done] |].
    destruct (Z.eqb_spec c quote) as [-> | N3]; [split; [apply ct_escape; set_solver | done] |]. destruct (Z.eqb_spec c (ch "\")) as [-> | N4]; [split; [apply ct_escape; set_solver | done] |]. rewrite <- E. split; [by apply ct_plain | by rewrite E].
  - assert (Hall : Forall (fun b => 128 <= b) (utf8_encode c)). { unfold utf8_encode. repeat case_match; try lia; rewrite !Forall_cons, Forall_nil; split_and!; try done; Z.to_euclidean_division_equations; lia. }
    assert (E : concat (map escape_char (utf8_encode c)) = utf8_encode c). { clear Hge. induction Hall as [| b s Hb _ IH]; [done |]. simpl. rewrite IH. unfold escape_char, creturn, newline, quote. change (ch "\") with 92. repeat (case_match; [lia |]). done. }
    rewrite E. split; [apply ct_plain; [done | change (ch "\") with 92; lia] |]. destruct Hall as [| b s Hb]; [done |]. simpl. unfold quote. lia.
Qed.

Lemma format_literal_text cps : Forall scalar cps -> exists t, format_literal (utf8s cps) = quote :: t ++ [quote] /\ chars_text quote cps t.
Proof.
  intros H. unfold format_literal, utf8s. eexists. split; [reflexivity |]. induction H as [| c cps Hc _ IH]; [constructor |]. simpl. rewrite map_app, concat_app. destruct (escaped_utf8 c Hc) as (t & -> & Ht & Hp). by constructor.
Qed.
Lemma is_item_literal nested N cps : Forall scalar cps -> cps <> [] -> is_item nested N 0 (format_literal (utf8s cps)) (fun _ => lit cps).
Proof. intros Hs Hn. destruct (format_literal_text cps Hs) as (t & -> & Ht). by apply is_item_lit. Qed.

(** ** Alternatives joined by bars, and a blank behind them *)
Lemma string_join_cons t ts sep : string_join (t :: ts) sep = t ++ match ts with [] => [] | _ => sep ++ string_join ts sep end.
Proof. destruct ts; simpl; [by rewrite app_nil_r | done]. Qed.
Lemma is_alts_join nested N s (ts : list (list Z)) (Ls : list (env -> language)) : blank nested s -> ts <> [] -> Forall2 (fun t L => t <> [] /\ is_seq nested N 2 t L) ts Ls ->
  is_alts nested N (2 * Zlen ts) (string_join ts (bytes " | ") ++ s) (fun rho => alts (map (fun L => L rho) Ls)).
Proof.
  intros Hs Hne H. induction H as [| t L ts Ls [Ht HL] Hts IH]; [done |]. rewrite string_join_cons. destruct ts as [| t' ts].
  - inversion Hts; subst. rewrite app_nil_r. eapply is_alts_mono; [reflexivity | | eapply is_alts_ext; [| apply is_alts_seq; by apply is_seq_blank] ]; [rewrite Zlen_cons, Zlen_nil; lia |]. intros rho v. simpl. by rewrite (alts_one (L rho) v).
  - rewrite <- !app_assoc. rewrite Zlen_cons. eapply is_alts_mono; [reflexivity | | eapply is_alts_ext; [| apply (is_alts_or nested N 2 (2 * Zlen (t' :: ts))); [exact HL | done | by apply IH | right; rewrite string_join_cons] ] ]; [lia | |].
    + intros rho v. simpl. unfold alts. rewrite (Exists_cons _ (L rho)). done.
    + apply Forall2_cons_inv_l in Hts as (L' & Ls' & [Ht' _] & _ & ->). by destruct t'.
Qed.

(** ** Sequences with brackets, commas and blanks *)
Definition comma : language := cats [lit (bytes ","); space_language].
Definition joined (Ls : list language) : language := match Ls with [] => eps | L :: Ls => cat L (cats (map (cat comma) Ls)) end.
Lemma blank_space nested : blank nested (bytes " ").
Proof. constructor; [by destruct nested | constructor]. Qed.
Lemma is_seq_wrap nested N w1 w2 w3 A B C LA LB LC : is_seq nested N w1 A LA -> is_seq nested N w2 B LB -> is_seq nested N w3 C LC -> last A = Some 32 ->
  is_seq nested N (w1 + w2 + w3) (A ++ B ++ bytes " " ++ C) (fun rho => cat (cat (LA rho) (LB rho)) (LC rho)).
Proof.
  intros HA HB HC Hl. rewrite app_assoc, (app_assoc _ (bytes " ")). apply is_seq_app; [| done |].
  - apply is_seq_blank; [by destruct A | apply blank_space |]. apply is_seq_app; [done | done |]. by apply (apart_l _ _ 32).
  - apply (apart_l _ _ 32); [apply (last_snoc 32 _) | done].
Qed.
(** two parts with a blank between them *)
Lemma is_seq_pair nested N w1 w2 A B LA LB : is_seq nested N w1 A LA -> A <> [] -> is_seq nested N w2 B LB -> is_seq nested N (w1 + w2) (A ++ bytes " " ++ B) (fun rho => cat (LA rho) (LB rho)).
Proof.
  intros HA Hne HB. rewrite app_assoc. apply is_seq_app; [apply is_seq_blank; [done | apply blank_space | done] | done |]. apply (apart_l _ _ 32); [apply (last_snoc 32 _) | done].
Qed.
Section Sequences.
Context (c : common_schema_converter) (Hc : inv [] c).
Let N := names_of (c_rules c).
Lemma space_in : bytes "space" ∈ N.
Proof. apply names_of_spec. exists SPACE_RULE. apply Hc. Qed.
Lemma is_seq_const nested w xs t : eat_seq nested xs t = Some [] -> forallb modest xs = true -> forallb (fun n => bool_decide (n ∈ [bytes "space"])) (concat (map mentions xs)) = true -> foldr Z.add 0 (map weight xs) <=? w = true -> is_seq nested N w t (fun rho => den_seq rho xs).
Proof. intros H1 H2 H3 H4. eapply is_seq_mono; [| reflexivity | by apply (is_seq_eat nested [bytes "space"] w xs t)]. intros n ->%list_elem_of_singleton. apply space_in. Qed.
Lemma space_means rho : solves rho (c_rules c) -> same (rho (bytes "space")) space_language.
Proof. apply (space_rule c Hc). Qed.
Definition comma_xs : list gx := [L' ","; GRef (bytes "space")].
Lemma comma_means rho : solves rho (c_rules c) -> same (den_seq rho comma_xs) comma.
Proof. intros Hs. pose proof (space_means rho Hs). unfold comma. apply cats_same. each; [reflexivity | done]. Qed.
(** names joined by commas *)
Lemma is_seq_joined nested (ns : list (list Z)) (Ls : list language) : Forall2 (has_rule c) ns Ls ->
  exists L, is_seq nested N (2 * Zlen ns) (string_join ns (quoted " `,` space ")) L /\ forall rho, solves rho (c_rules c) -> same (L rho) (joined Ls).
Proof.
  induction 1 as [| n L ns Ls Hn Hns (M & HM & HL)]; [exists (fun _ => eps); split; [apply is_seq_nil | intros rho _; reflexivity] |]. pose proof (is_seq_item _ _ _ _ _ (is_item_rule nested c n L Hn)) as Hi. destruct Hn as (_ & [Hne Hw] & HnL). rewrite string_join_cons. destruct ns as [| n' ns].
  - inversion Hns; subst. exists (fun rho => rho n). rewrite app_nil_r. split; [eapply is_seq_mono; [reflexivity | | exact Hi]; rewrite Zlen_cons, Zlen_nil; lia |]. intros rho Hs. etransitivity; [by apply HnL |]. symmetry. apply cat_nil_r.
  - pose proof (is_seq_const nested 1 comma_xs (quoted "`,` space ") ltac:(by destruct nested) eq_refl eq_refl eq_refl) as Hcm.
    exists (fun rho => cat (rho n) (cat (den_seq rho comma_xs) (M rho))). split.
    + change (quoted " `,` space ") with (bytes " " ++ quoted "`,` space ") at 1. rewrite <- (app_assoc (bytes " ")). eapply is_seq_mono; [reflexivity | | apply (is_seq_pair nested N 1 (1 + 2 * Zlen (n' :: ns))); [exact Hi | done |] ]; [rewrite (Zlen_cons n); lia |].
      apply is_seq_app; [exact Hcm | exact HM |]. apply (apart_l _ _ 32); done.
    + intros rho Hs. rewrite (HL rho Hs), (HnL rho Hs), (comma_means rho Hs). apply Forall2_cons_inv_l in Hns as (L1 & Ls1 & _ & _ & ->). simpl. apply cat_same; [reflexivity |]. apply cat_assoc_same.
Qed.
(** an opening bracket and a blank before, a blank and a closing bracket behind *)
Definition bracketed (o e : string) (L : language) : language := cats [lit (bytes o); space_language; L; space_language; lit (bytes e)].
Lemma is_seq_bracketed w b t L K o e : (o, e) ∈ [("[", "]"); ("{", "}")]%string -> b = [] \/ b = bytes " " -> is_seq false N w t L -> (forall rho, solves rho (c_rules c) -> same (L rho) K) ->
  exists M, is_seq false N (1 + w + 1) ([quote] ++ bytes o ++ [quote] ++ bytes " space " ++ b ++ t ++ bytes " space " ++ [quote] ++ bytes e ++ [quote]) M /\ forall rho, solves rho (c_rules c) -> same (M rho) (bracketed o e K).
Proof.
  intros Hin Hb Ht HK. exists (fun rho => cat (cat (den_seq rho [L' o; GRef (bytes "space")]) (L rho)) (den_seq rho [GRef (bytes "space"); L' e])). split.
  - set (A := [quote] ++ bytes o ++ [quote] ++ bytes " space " ++ b). assert (HA : is_seq false N 1 A (fun rho => den_seq rho [L' o; GRef (bytes "space")]) /\ last A = Some 32) by (subst A; rewrite !elem_of_cons, elem_of_nil in Hin; destruct_or! Hin; try done; simplify_eq; destruct Hb as [-> | ->]; (split; [by apply is_seq_const | done])).
    assert (He : is_seq false N 1 (bytes "space " ++ [quote] ++ bytes e ++ [quote]) (fun rho => den_seq rho [GRef (bytes "space"); L' e])) by (rewrite !elem_of_cons, elem_of_nil in Hin; destruct_or! Hin; try done; simplify_eq; by apply is_seq_const).
    pose proof (is_seq_wrap false N 1 w 1 A t _ _ _ _ (proj1 HA) Ht He (proj2 HA)) as H. replace ([quote] ++ bytes o ++ [quote] ++ bytes " space " ++ b ++ t ++ bytes " space " ++ [quote] ++ bytes e ++ [quote]) with (A ++ t ++ bytes " " ++ bytes "space " ++ [quote] ++ bytes e ++ [quote]); [exact H |].
    subst A. rewrite <- !app_assoc. done.
  - intros rho Hs. pose proof (space_means rho Hs) as Hsp. pose proof (HK rho Hs) as HL. unfold bracketed, den_seq. cbn [map cats foldr]. change (den rho (GRef (bytes "space"))) with (rho (bytes "space")).
    assert (E1 : same (cat (den rho (L' o)) (cat (rho (bytes "space")) eps)) (cat (lit (bytes o)) space_language)) by (apply cat_same; [reflexivity |]; etransitivity; [apply cat_nil_r | done]).
    assert (E2 : same (cat (rho (bytes "space")) (cat (den rho (L' e)) eps)) (cat space_language (cat (lit (bytes e)) eps))) by (apply cat_same; [done | reflexivity]).
    rewrite E1, E2, HL. rewrite <- !cat_assoc_same. reflexivity.
Qed.
End Sequences.
