(* ===== verification/SchemaVisit.v ===== *)
(** * What the grammar of a JSON schema accepts

    For every kind of schema of the fragment the rule that [visit] writes and its language, and the
    theorems about whole grammars. *)

From S2P Require Import Prelude Text Utf8 GrammarParse GrammarParseFacts GrammarMatch GrammarSem GrammarText GrammarCheck GrammarAdvance GrammarMeans GrammarReads GrammarTextProps JsonSchema SchemaRange SchemaProps.
Open Scope Z_scope.

(** ** Repetitions *)
Definition max_items_of (hi : option nat) : Z := match hi with Some h => Z.of_nat h | None => INT_MAX end.
(** the bounds a repetition may have so that the grammar parser takes it *)
Definition bounded (lo : nat) (hi : option nat) : Prop := (lo <= 600)%nat /\ match hi with Some h => (lo <= h <= 600)%nat | None => True end.
Lemma bounded_most lo hi : bounded lo hi -> 1 <= most lo hi <= 600 /\ Z.of_nat lo <= 600 /\ (match hi with Some h => Z.of_nat h | None => 0 end <= 600).
Proof. intros [H1 H2]. unfold most. destruct hi as [ [| h] |]; lia. Qed.
Lemma times_never L : same (times 0 (Some 0%nat) L) eps.
Proof. intros w. unfold times. split; [intros (n & _ & H & Hp); by replace n with 0%nat in Hp by lia | intros ->; by exists 0%nat]. Qed.
Definition extras (hi : option nat) : Z := match hi with Some h => Z.of_nat h | None => 1 end.
Lemma is_seq_rep' nested N w lo hi t o L : is_item nested N w t L -> 0 <= w <= 3 -> bounded lo hi -> op_text nested lo hi o -> is_seq nested N (w + extras hi) (t ++ o) (fun rho => times lo hi (L rho)).
Proof.
  intros Hi Hw Hb Ho. destruct (bounded_most lo hi Hb) as (B1 & B2 & B3). eapply is_seq_mono; [reflexivity | | apply (is_seq_rep nested N w lo hi t o L Hi Ho)]; unfold MAX_REPETITION_THRESHOLD; [unfold extras; destruct hi; lia | nia | lia].
Qed.
Lemma is_seq_plain_repetition nested N w lo hi t L : is_item nested N w t L -> 0 <= w <= 3 -> bounded lo hi ->
  is_seq nested N (w + extras hi) (build_repetition_plain t (Z.of_nat lo) (max_items_of hi)) (fun rho => times lo hi (L rho)).
Proof.
  intros Hi Hw Hb. pose proof (is_seq_rep' nested N w lo hi t) as Hrep. assert (Hx : 0 <= extras hi) by (unfold extras; destruct hi; lia). destruct (bounded_most lo hi Hb) as (_ & B2 & B3).
  assert (Hsign : is_seq nested N (w + extras hi) (t ++ repetition_sign (Z.of_nat lo) (max_items_of hi)) (fun rho => times lo hi (L rho))).
  { apply Hrep; [done | done | done |]. unfold repetition_sign, max_items_of. destruct hi as [h |].
    - rewrite (proj2 (Z.eqb_neq _ _)) by (unfold INT_MAX; lia). apply (op_range nested lo h); [apply digits_text_to_string | apply digits_text_to_string | apply Hb].
    - rewrite Z.eqb_refl. apply (op_from nested lo), digits_text_to_string. }
  unfold build_repetition_plain. destruct hi as [h |]; cbn [max_items_of] in *.
  - rewrite (proj2 (Z.eqb_neq (Z.of_nat h) INT_MAX)) by (unfold INT_MAX; lia). cbn [negb]. rewrite !andb_false_r. destruct (Z.eqb_spec (Z.of_nat h) 0) as [E | E].
    + assert (h = 0%nat) as -> by lia. assert (lo = 0%nat) as -> by (destruct Hb as [_ ?]; lia). eapply is_seq_mono; [reflexivity | | eapply is_seq_ext; [| apply is_seq_nil] ]; [lia |]. intros rho v. symmetry. apply times_never.
    + destruct ((Z.of_nat lo =? 0) && (Z.of_nat h =? 1)) eqn:E1; [| done]. assert (lo = 0%nat /\ h = 1%nat) as [-> ->] by lia. apply Hrep; [done | done | done | constructor].
  - change (INT_MAX =? 0) with false. change (INT_MAX =? 1) with false. rewrite Z.eqb_refl, andb_false_r. cbn [negb]. rewrite !andb_true_r. destruct (Z.eqb_spec (Z.of_nat lo) 1) as [E | E].
    { assert (lo = 1%nat) as -> by lia. apply Hrep; [done | done | done | constructor]. } destruct (Z.eqb_spec (Z.of_nat lo) 0) as [E0 | E0]; [| done]. assert (lo = 0%nat) as -> by lia. apply Hrep; [done | done | done | constructor].
Qed.
(** between [lo] and [hi] items with commas *)
Definition items_language (lo : nat) (hi : option nat) (L : language) : language :=
  fun w => exists n, (lo <= n)%nat /\ match hi with Some h => (n <= h)%nat | None => True end /\ joined (replicate n L) w.
Lemma cats_replicate n L : cats (replicate n L) = power n L.
Proof. unfold cats. induction n as [| n IH]; simpl; [done | by rewrite IH]. Qed.
Lemma joined_replicate n L : joined (replicate (S n) L) = cat L (power n (cat comma L)).
Proof. unfold joined. cbn [replicate]. f_equal. rewrite <- cats_replicate. f_equal. apply (fmap_replicate (cat comma)). Qed.
Definition pred_max (hi : option nat) : option nat := match hi with Some h => Some (h - 1)%nat | None => None end.
Lemma items_from_one lo hi L : (1 <= lo)%nat -> match hi with Some h => (lo <= h)%nat | None => True end -> same (cat L (times (lo - 1) (pred_max hi) (cat comma L))) (items_language lo hi L).
Proof.
  intros Hlo Hhi w. unfold items_language, times. split.
  - intros (u & v & -> & Hu & n & H1 & H2 & H3). exists (S n). rewrite joined_replicate. split_and!; [lia | destruct hi; simpl in *; lia | by exists u, v].
  - intros (n & H1 & H2 & H3). destruct n as [| n]; [lia |]. rewrite joined_replicate in H3. destruct H3 as (u & v & -> & Hu & Hv). exists u, v. split_and!; [done | done |]. exists n. split_and!; [lia | destruct hi; simpl in *; lia | done].
Qed.
Lemma items_from_zero hi L : match hi with Some h => (1 <= h)%nat | None => True end -> same (maybe (cat L (times 0 (pred_max hi) (cat comma L)))) (items_language 0 hi L).
Proof.
  intros Hhi w. assert (H1 : maybe (cat L (times 0 (pred_max hi) (cat comma L))) w <-> w = [] \/ cat L (times 0 (pred_max hi) (cat comma L)) w).
  { unfold maybe, times at 1. split; [intros (n & _ & Hn & Hp); destruct n as [| [| n] ]; [by left | right; by apply (cat_nil_r _ w) | lia] | intros [-> | H]; [by exists 0%nat; split_and!; [lia | lia |] | exists 1%nat; split_and!; [lia | lia |]; by apply (cat_nil_r _ w)] ]. }
  rewrite H1. pose proof (items_from_one 1 hi L ltac:(lia) Hhi w) as H2. change (1 - 1)%nat with 0%nat in H2. rewrite H2. unfold items_language. split.
  - intros [-> | (n & G1 & G2 & G3)]; [by exists 0%nat; split_and!; [lia | destruct hi; lia |] | exists n; split_and!; [lia | done | done] ].
  - intros (n & _ & G2 & G3). destruct n as [| n]; [left; done | right; exists (S n); split_and!; [lia | done | done] ].
Qed.
Section Arrays.
Context (c : common_schema_converter) (Hc : inv [] c).
Let N := names_of (c_rules c).
Lemma is_item_comma nested n L : has_rule c n L -> is_item nested N 3 (bytes "(" ++ quoted "`,` space" ++ bytes " " ++ n ++ bytes ")") (fun rho => cat (den_seq rho comma_xs) (rho n)).
Proof.
  intros Hn. pose proof (is_item_group nested N 2 [] (quoted "`,` space" ++ bytes " " ++ n) (fun rho => cat (den_seq rho comma_xs) (rho n)) ltac:(constructor)) as H. change (1 + 2) with 3 in H. rewrite app_nil_l, <- !app_assoc in H. apply H.
  apply is_alts_seq. apply (is_seq_pair true N 1 1 (quoted "`,` space") n); [by apply (is_seq_const c Hc) | done | by apply is_seq_item, (is_item_rule true c n L)].
Qed.
(** one item and the further ones *)
Lemma is_seq_items_from nested n L lo hi : has_rule c n L -> bounded lo hi -> match hi with Some h => (1 <= h)%nat | None => True end ->
  is_seq nested N 700 (n ++ bytes " " ++ build_repetition_plain (bytes "(" ++ quoted "`,` space" ++ bytes " " ++ n ++ bytes ")")
      (if Z.of_nat lo =? 0 then 0 else Z.of_nat lo - 1) (if max_items_of hi =? INT_MAX then max_items_of hi else max_items_of hi - 1))
    (fun rho => cat (rho n) (times (lo - 1) (pred_max hi) (cat (den_seq rho comma_xs) (rho n)))).
Proof.
  intros Hn Hb Hhi. destruct (bounded_most lo hi Hb) as (_ & B2 & B3). pose proof (is_seq_item _ _ _ _ _ (is_item_rule nested c n L Hn)) as Hi.
  assert (E1 : (if Z.of_nat lo =? 0 then 0 else Z.of_nat lo - 1) = Z.of_nat (lo - 1)) by (destruct (Z.eqb_spec (Z.of_nat lo) 0); lia).
  assert (E2 : (if max_items_of hi =? INT_MAX then max_items_of hi else max_items_of hi - 1) = max_items_of (pred_max hi)) by (destruct hi as [h |]; cbn [max_items_of pred_max]; [rewrite (proj2 (Z.eqb_neq _ _)) by (unfold INT_MAX; lia); lia | by rewrite Z.eqb_refl]).
  assert (Hb' : bounded (lo - 1) (pred_max hi)) by (destruct Hb as [H1 H2]; split; [lia | destruct hi; simpl; lia]). rewrite E1, E2.
  eapply is_seq_mono; [reflexivity | | apply (is_seq_pair nested N 1 (3 + extras (pred_max hi))); [exact Hi | by apply Hn |] ].
  - unfold extras. destruct hi; simpl; lia.
  - apply (is_seq_plain_repetition nested N 3); [by eapply is_item_comma | lia | done].
Qed.
Lemma items_means rho n L lo hi : solves rho (c_rules c) -> has_rule c n L -> same (cat (rho n) (times (lo - 1) (pred_max hi) (cat (den_seq rho comma_xs) (rho n)))) (cat L (times (lo - 1) (pred_max hi) (cat comma L))).
Proof. intros Hs (_ & _ & HL). specialize (HL rho Hs). pose proof (comma_means c Hc rho Hs) as Hcm. apply cat_same; [done |]. apply times_same. by apply cat_same. Qed.
Lemma is_seq_items n L lo hi : has_rule c n L -> bounded lo hi ->
  exists M w, is_seq false N w (build_repetition n (Z.of_nat lo) (max_items_of hi) (quoted "`,` space")) M /\ forall rho, solves rho (c_rules c) -> same (M rho) (items_language lo hi L).
Proof.
  intros Hn Hb. pose proof (is_item_rule false c n L Hn) as Hi. destruct (bounded_most lo hi Hb) as (_ & B2 & B3). unfold build_repetition. change (quoted "`,` space") with (quote :: ch "," :: quote :: bytes " space") at 1. cbv iota. fold (quoted "`,` space").
  assert (HnL : forall rho, solves rho (c_rules c) -> same (rho n) L) by apply Hn. destruct (Z.eqb_spec (max_items_of hi) 0) as [E0 | E0].
  { destruct hi as [h |]; [| done]. cbn [max_items_of] in E0. assert (h = 0%nat) as -> by lia. assert (lo = 0%nat) as -> by (destruct Hb as [_ ?]; lia). exists (fun _ => eps), 0. split; [apply is_seq_nil |]. intros rho _ w. unfold items_language. split; [intros ->; by exists 0%nat | intros (k & _ & Hk & Hw); by replace k with 0%nat in Hw by lia]. }
  assert (Hhi : match hi with Some h => (1 <= h)%nat | None => True end) by (destruct hi as [h |]; [cbn [max_items_of] in E0; lia | done]).
  destruct ((Z.of_nat lo =? 0) && (max_items_of hi =? 1)) eqn:E1.
  { destruct hi as [h |]; [| cbn [max_items_of] in E1; change (INT_MAX =? 1) with false in E1; by rewrite andb_false_r in E1]. cbn [max_items_of] in E1. assert (lo = 0%nat /\ h = 1%nat) as [-> ->] by lia. exists (fun rho => maybe (rho n)), (1 + extras (Some 1%nat)).
    split; [apply (is_seq_rep' false N 1 0 (Some 1%nat)); [exact Hi | lia | done | constructor] |]. intros rho Hs. etransitivity; [| by apply (items_from_zero (Some 1%nat))]. apply times_same. etransitivity; [by apply HnL |]. etransitivity; [symmetry; apply cat_nil_r |]. apply cat_same; [reflexivity |]. symmetry. apply times_never. }
  destruct (Z.eqb_spec (Z.of_nat lo) 0) as [El | El].
  - assert (lo = 0%nat) as -> by lia. pose proof (is_seq_items_from true n L 0 hi Hn Hb Hhi) as HR. change (Z.of_nat 0 =? 0) with true in HR. cbv iota in HR. set (R := n ++ bytes " " ++ _) in *.
    exists (fun rho => maybe (cat (rho n) (times 0 (pred_max hi) (cat (den_seq rho comma_xs) (rho n))))), (701 + 1). split.
    + replace (bytes "(" ++ R ++ bytes ")?") with ((bytes "(" ++ [] ++ R ++ bytes ")") ++ bytes "?") by (rewrite <- !app_assoc; done). apply (is_seq_rep false N 701 0 (Some 1%nat)); [apply (is_item_group false N 700); [constructor | by apply is_alts_seq] | constructor | done | done].
    + intros rho Hs. etransitivity; [| by apply items_from_zero]. apply times_same. by apply (items_means rho n L 0 hi).
  - pose proof (is_seq_items_from false n L lo hi Hn Hb Hhi) as HR. rewrite (proj2 (Z.eqb_neq _ _) El) in HR. eexists _, 700. split; [exact HR |]. intros rho Hs. etransitivity; [by apply (items_means rho n L lo hi) |]. apply items_from_one; [lia | destruct Hb as [_ ?]; destruct hi; lia].
Qed.
End Arrays.

(** ** Names with a suffix *)
Definition ends_with (suf k : list Z) : bool := bool_decide (drop (length k - length suf) k = suf).
Lemma suffix_free suf x : forallb (fun e => negb (ends_with suf e.1)) (PRIMITIVE_RULES ++ STRING_FORMAT_RULES) = true -> builtin_rule (x ++ suf) = None.
Proof.
  intros H. destruct (builtin_rule (x ++ suf)) as [r |] eqn:E; [| done]. exfalso. assert (Hin : (x ++ suf, r) ∈ PRIMITIVE_RULES ++ STRING_FORMAT_RULES).
  { unfold builtin_rule in E. apply elem_of_app. destruct (find_rule (x ++ suf) PRIMITIVE_RULES) eqn:E1; [injection E as ->; left; by apply find_rule_in | right; by apply find_rule_in]. }
  rewrite forallb_forall in H. apply list_elem_of_In in Hin. specialize (H _ Hin). cbn [fst] in H. unfold ends_with in H. rewrite length_app, Nat.add_sub, drop_app_length, bool_decide_eq_true_2 in H by done. done.
Qed.
Lemma suffix_root suf x : ends_with suf (bytes "root") = false -> x ++ suf <> bytes "root".
Proof. intros H E. rewrite <- E in H. unfold ends_with in H. rewrite length_app, Nat.add_sub, drop_app_length, bool_decide_eq_true_2 in H by done. done. Qed.
Lemma dash_fine name : fine name -> fine (name ++ dash name).
Proof. intros H. apply fine_app; [done |]. destruct name; [constructor | by apply fine_check]. Qed.
(** a rule under a name with a suffix that no built-in rule has *)
Lemma add_suffixed c x suf rule w L K : inv [] c -> fine x -> word suf -> forallb (fun e => negb (ends_with suf e.1)) (PRIMITIVE_RULES ++ STRING_FORMAT_RULES) = true -> ends_with suf (bytes "root") = false ->
  rule <> [] -> is_alts false (names_of (c_rules c)) w rule L -> (forall rho, solves rho (c_rules c) -> same (L rho) K) ->
  exists n c', _add_rule (x ++ suf) rule c = (n, c') /\ inv [] c' /\ grown false c c' /\ has_rule c' n K.
Proof.
  intros Hi Hx Hsuf Hb Hr Hne Ha HK. pose proof (is_alts_bytes _ _ _ _ _ Ha) as Hby. destruct (add_rule_spec [] c (x ++ suf) rule w L Hi) as (n & c' & E & A1 & A2 & A3 & _ & A5); [by apply word_app_r | done | done | by rewrite app_nil_r | left; by apply suffix_free |].
  exists n, c'. rewrite bool_decide_eq_false_2 in A2 by (by apply suffix_root). split_and!; [done | done | done |]. split_and!; [by eexists | done |]. intros rho Hs v. etransitivity; [| apply HK; eapply solves_mono; [apply A2 | done] ].
  apply (solves_is rho (c_rules c') (names_of (c_rules c)) w n rule L); [done | done | apply names_of_mono, A2 | done].
Qed.

(** ** Objects *)
Definition member (cps : list Z) (L : language) : language := cats [lit cps; space_language; lit (bytes ":"); space_language; L].
Section Member.
Context (c : common_schema_converter) (Hc : inv [] c).
Let N := names_of (c_rules c).
Lemma is_seq_member cps n L : Forall scalar cps -> cps <> [] -> has_rule c n L ->
  exists M, is_seq false N 3 (format_literal (utf8s cps) ++ quoted " space `:` space " ++ n) M /\ forall rho, solves rho (c_rules c) -> same (M rho) (member cps L).
Proof.
  intros Hs Hne Hn. set (xs := [GRef (bytes "space"); L' ":"; GRef (bytes "space")]). exists (fun rho => cat (lit cps) (cat (den_seq rho xs) (rho n))). split.
  - change (quoted " space `:` space ") with (bytes " " ++ quoted "space `:` space "). rewrite <- (app_assoc (bytes " ")). apply (is_seq_pair false N 0 3); [by apply is_seq_item, is_item_literal | done |].
    apply (is_seq_app false N 2 1); [by apply (is_seq_const c Hc) | by apply is_seq_item, (is_item_rule false c n L) | by apply (apart_l _ _ 32)].
  - intros rho Hsol. pose proof (space_means c Hc rho Hsol) as Hsp. destruct Hn as (_ & _ & HL). specialize (HL rho Hsol). unfold member, den_seq, xs. cbn [map cats foldr]. change (den rho (GRef (bytes "space"))) with (rho (bytes "space")). change (den rho (L' ":")) with (lit (bytes ":")).
    apply cat_same; [reflexivity |]. rewrite Hsp, HL, cat_nil_r, cat_nil_r. rewrite <- !cat_assoc_same. reflexivity.
Qed.
Lemma is_item_comma_ref nested n L : has_rule c n L -> is_item nested N 3 (quoted "( `,` space " ++ n ++ bytes " )") (fun rho => cat (den_seq rho comma_xs) (rho n)).
Proof.
  intros Hn. pose proof (is_item_group nested N 2 (bytes " ") ((quoted "`,` space " ++ n) ++ bytes " ") (fun rho => cat (den_seq rho comma_xs) (rho n)) ltac:(apply blank_space)) as H.
  replace (quoted "( `,` space " ++ n ++ bytes " )") with (bytes "(" ++ bytes " " ++ ((quoted "`,` space " ++ n) ++ bytes " ") ++ bytes ")") by (rewrite <- !app_assoc; done). apply H. apply is_alts_seq, is_seq_blank; [done | apply blank_space |].
  apply (is_seq_app true N 1 1); [by apply (is_seq_const c Hc) | by apply is_seq_item, (is_item_rule true c n L) | by apply (apart_l _ _ 32)].
Qed.
End Member.
(** the optional members behind a member *)
Definition rest_language (Ms : list language) : language := cats (map (fun M => maybe (cat comma M)) Ms).
Definition first_language (optional : bool) (Ms : list language) : language := if optional then rest_language Ms else match Ms with [] => eps | M :: Ms => cat M (rest_language Ms) end.
Definition has_kv (kv : gmap (list Z) (list Z)) (c : common_schema_converter) (k : list Z) (M : language) : Prop := exists n, kv !! k = Some n /\ has_rule c n M.
Lemma has_kv_mono top kv c c' k M : grown top c c' -> has_kv kv c k M -> has_kv kv c' k M.
Proof. intros Hg (n & Hn & Hr). exists n. split; [done | by eapply has_rule_mono]. Qed.
Lemma word_not_star k : fine k -> bool_decide (k = bytes "*") = false.
Proof. intros Hk. apply bool_decide_eq_false_2. intros ->. apply Forall_cons in Hk as [Hk _]. by vm_compute in Hk. Qed.
Lemma recursive_refs name kv ks : forall Ms optional c, fine name -> Forall fine ks -> ks <> [] -> inv [] c -> Forall2 (has_kv kv c) ks Ms ->
  exists t c' L, get_recursive_refs name kv ks optional c = (t, c') /\ inv [] c' /\ grown false c c' /\ t <> [] /\
    (forall nested, is_seq nested (names_of (c_rules c')) (if optional then 5 else 2) t L) /\ forall rho, solves rho (c_rules c') -> same (L rho) (first_language optional Ms).
Proof.
  induction ks as [| k ks IH]; intros Ms optional c Hname Hks Hne Hc Hkv; [done |]. apply Forall_cons in Hks as [Hk Hks]. apply Forall2_cons_inv_l in Hkv as (M & Ms' & (n & Hn & Hrule) & Hkv & ->).
  cbn [get_recursive_refs]. rewrite Hn, (word_not_star k Hk). change (default [] (Some n)) with n. rewrite app_nil_r.
  assert (Hnw : n <> []) by apply Hrule.
  set (res := if optional then _ else _).
  (* the first member *)
  assert (Hres : forall c', inv [] c' -> grown false c c' -> exists L, (forall nested, is_seq nested (names_of (c_rules c')) (if optional then 4 else 1) res L) /\ forall rho, solves rho (c_rules c') -> same (L rho) (if optional then maybe (cat comma M) else M)).
  { intros c' Hc' Hg. pose proof (has_rule_mono _ _ _ _ _ Hg Hrule) as Hr'. destruct optional; subst res.
    - exists (fun rho => maybe (cat (den_seq rho comma_xs) (rho n))). split.
      + intros nested. apply (is_seq_rep nested _ 3 0 (Some 1%nat)); [by eapply is_item_comma_ref | constructor | done | done].
      + intros rho Hs. apply times_same, cat_same; [by apply (comma_means c' Hc') | by apply Hr'].
    - exists (fun rho => rho n). split; [intros nested; by apply is_seq_item, (is_item_rule nested c' n M) | intros rho Hs; by apply Hr']. }
  assert (Hrn : res <> []) by (subst res; by destruct optional). destruct ks as [| k' ks].
  - inversion Hkv; subst. destruct (Hres c Hc (grown_refl _ _)) as (L & HL & HM). exists res, c, L. split_and!; [done | done | apply grown_refl | done | |].
    + intros nested. eapply is_seq_mono; [reflexivity | | apply HL]. destruct optional; lia.
    + intros rho Hs. etransitivity; [by apply HM |]. unfold first_language, rest_language. destruct optional; simpl; symmetry; apply cat_nil_r.
  - destruct (IH Ms' true c Hname Hks ltac:(done) Hc Hkv) as (rest & c1 & LR & E & Hc1 & Hg1 & Hrest & HLR & HMR). rewrite E.
    rewrite (app_assoc name), (app_assoc (name ++ dash name)). destruct (add_suffixed c1 ((name ++ dash name) ++ k) (bytes "-rest") rest 5 LR (rest_language Ms')) as (m & c2 & E2 & Hc2 & Hg2 & Hm); [done | apply fine_app; [by apply dash_fine | done] | split; [done | by apply fine_check] | by vm_compute | by vm_compute | done | apply is_alts_seq, HLR | exact HMR |].
    rewrite E2. assert (Hg : grown false c c2) by (by eapply grown_trans). destruct (Hres c2 Hc2 Hg) as (L & HL & HM). exists (res ++ bytes " " ++ m), c2, (fun rho => cat (L rho) (rho m)). split_and!; [done | done | done | by destruct res | |].
    + intros nested. eapply is_seq_mono; [reflexivity | | apply (is_seq_pair nested _ (if optional then 4 else 1) 1); [apply HL | done | by apply is_seq_item, (is_item_rule nested c2 m (rest_language Ms'))] ]. destruct optional; lia.
    + intros rho Hs. etransitivity; [apply cat_same; [by apply HM | by apply Hm] |]. unfold first_language, rest_language. destruct optional; reflexivity.
Qed.
Lemma maybe_iff L w : maybe L w <-> w = [] \/ L w.
Proof.
  unfold maybe, times. split.
  - intros (n & _ & Hn & Hp). destruct n as [| [| n] ]; [by left | right; by apply (cat_nil_r _ w) | lia].
  - intros [-> | H]; [exists 0%nat; split_and!; [lia | lia | done] | exists 1%nat; split_and!; [lia | lia |]; by apply (cat_nil_r _ w)].
Qed.
(** the optional members: those that are there, in order *)
Lemma rest_sub Ms w : rest_language Ms w <-> exists sub, sublist sub Ms /\ cats (map (cat comma) sub) w.
Proof.
  unfold rest_language. revert w. induction Ms as [| M Ms IH]; intros w; simpl.
  - split; [intros ->; exists []; split; [constructor | done] | intros (sub & Hs & Hw); apply sublist_nil_r in Hs as ->; done].
  - split.
    + intros (u & v & -> & Hu & Hv). apply IH in Hv as (sub & Hs & Hv). apply maybe_iff in Hu as [-> | Hu]; [exists sub; split; [by apply sublist_cons | done] | exists (M :: sub); split; [by apply sublist_skip | by exists u, v] ].
    + intros (sub & Hs & Hw). inversion Hs as [| ? s1 ? Hs1 | ? s1 ? Hs1]; subst.
      * destruct Hw as (u & v & -> & Hu & Hv). exists u, v. split_and!; [done | apply maybe_iff; by right | apply IH; by exists s1].
      * exists [], w. split_and!; [done | apply maybe_iff; by left | apply IH; by exists sub].
Qed.
Fixpoint tails (Ms : list language) : list language := match Ms with [] => [] | M :: Ms => cat M (rest_language Ms) :: tails Ms end.
Lemma tails_sub Ms w : alts (tails Ms) w <-> exists sub, sub <> [] /\ sublist sub Ms /\ joined sub w.
Proof.
  unfold alts. induction Ms as [| M Ms IH]; simpl; [split; [intros H; by apply Exists_nil in H | intros (sub & Hn & Hs & _); by apply sublist_nil_r in Hs] |]. rewrite Exists_cons, IH. split.
  - intros [(u & v & -> & Hu & Hv) | (sub & Hn & Hs & Hw)]; [| exists sub; split_and!; [done | by apply sublist_cons | done] ]. apply rest_sub in Hv as (sub & Hs & Hv). exists (M :: sub). split_and!; [done | by apply sublist_skip | by exists u, v].
  - intros (sub & Hn & Hs & Hw). inversion Hs as [| ? s1 ? Hs1 | ? s1 ? Hs1]; subst; [left | right; by exists sub]. destruct Hw as (u & v & -> & Hu & Hv). exists u, v. split_and!; [done | done |]. apply rest_sub. by exists s1.
Qed.
(** all of [req], then some of [opt], in order and with commas *)
Definition members_language (req opt : list language) : language := fun w => exists sub, sublist sub opt /\ joined (req ++ sub) w.
Lemma members_no_required opt : same (maybe (alts (tails opt))) (members_language [] opt).
Proof.
  intros w. rewrite maybe_iff, tails_sub. unfold members_language. split.
  - intros [-> | (sub & _ & Hs & Hw)]; [exists []; split; [apply sublist_nil_l | done] | by exists sub].
  - intros (sub & Hs & Hw). destruct sub as [| M sub]; [by left | right; by exists (M :: sub)].
Qed.
Lemma joined_app req sub : req <> [] -> same (joined (req ++ sub)) (cat (joined req) (cats (map (cat comma) sub))).
Proof. intros Hn. destruct req as [| R req]; [done |]. simpl. rewrite map_app. intros w. rewrite <- (cat_assoc_same (_ : language) _ _ w). apply (cat_same R R); [reflexivity |]. intros v. apply cats_app. Qed.
Lemma members_required req opt : req <> [] -> same (cat (joined req) (maybe (cat comma (alts (tails opt))))) (members_language req opt).
Proof.
  intros Hn w. unfold members_language. split.
  - intros (u & v & -> & Hu & Hv). apply maybe_iff in Hv as [-> | (v1 & v2 & -> & H1 & H2)].
    + exists []. split; [apply sublist_nil_l |]. apply (joined_app req [] Hn). by exists u, [].
    + apply tails_sub in H2 as (sub & Hsn & Hs & Hw). exists sub. split; [done |]. apply (joined_app req sub Hn). exists u, (v1 ++ v2). split_and!; [done | done |]. destruct sub as [| M sub]; [done |]. simpl. apply (cat_assoc_same comma M). by exists v1, v2.
  - intros (sub & Hs & Hw). apply (joined_app req sub Hn) in Hw as (u & v & -> & Hu & Hv). exists u, v. split_and!; [done | done |]. apply maybe_iff. destruct sub as [| M sub]; [by left | right]. simpl in Hv. apply (cat_assoc_same comma M) in Hv as (v1 & v2 & -> & H1 & H2). exists v1, v2. split_and!; [done | done |]. apply tails_sub. by exists (M :: sub).
Qed.
Lemma is_seq_grown top c c' nested w t L : grown top c c' -> is_seq nested (names_of (c_rules c)) w t L -> is_seq nested (names_of (c_rules c')) w t L.
Proof. intros [Hg _] H. eapply is_seq_mono; [by apply names_of_mono | reflexivity | exact H]. Qed.
Lemma join_concat sep ts : concat (map (app sep) ts) = match ts with [] => [] | _ => sep ++ string_join ts sep end.
Proof. induction ts as [| t ts IH]; [done |]. cbn [map concat]. rewrite IH, string_join_cons. by rewrite <- app_assoc. Qed.
(** the alternatives by the first optional member *)
Lemma optional_alts name kv ks : forall Ms first c, fine name -> Forall fine ks -> inv [] c -> Forall2 (has_kv kv c) ks Ms ->
  exists ts Ls c', optional_loop first name kv ks c = ((if first : bool then string_join ts (bytes " | ") else concat (map (app (bytes " | ")) ts)), c') /\ inv [] c' /\ grown false c c' /\
    Forall2 (fun t L => t <> [] /\ forall nested, is_seq nested (names_of (c_rules c')) 2 t L) ts Ls /\ length ts = length ks /\ forall rho, solves rho (c_rules c') -> Forall2 same (map (fun L : env -> language => L rho) Ls) (tails Ms).
Proof.
  induction ks as [| k ks IH]; intros Ms first c Hname Hks Hc Hkv; cbn [optional_loop].
  { inversion Hkv; subst. exists [], [], c. split_and!; [by destruct first | done | apply grown_refl | constructor | done |]. intros rho _. constructor. }
  destruct (recursive_refs name kv (k :: ks) Ms false c Hname Hks ltac:(done) Hc Hkv) as (t & c1 & L & E & Hc1 & Hg1 & Ht & HL & HM). rewrite E. apply Forall_cons in Hks as [Hk Hks]. apply Forall2_cons_inv_l in Hkv as (M & Ms' & _ & Hkv & ->).
  destruct (IH Ms' false c1 Hname Hks Hc1) as (ts & Ls & c2 & E2 & Hc2 & Hg2 & Hts & Hlen & Hsol); [eapply Forall2_impl; [exact Hkv |]; intros; by eapply has_kv_mono |].
  rewrite E2. exists (t :: ts), (L :: Ls), c2. split_and!.
  - f_equal. destruct first; [| cbn [map concat]; by rewrite <- app_assoc]. by rewrite string_join_cons, join_concat.
  - done.
  - by eapply grown_trans.
  - constructor; [| done]. split; [done |]. intros nested. by eapply is_seq_grown.
  - simpl. lia.
  - intros rho Hs. simpl. constructor; [| by apply Hsol]. apply (HM rho). eapply solves_mono; [apply Hg2 | done].
Qed.

Section Object.
Context (c : common_schema_converter) (Hc : inv [] c).
Let N := names_of (c_rules c).
(** the group of the optional members, with a comma before it or without *)
Definition optional_text (req : bool) (ts : list (list Z)) : list Z :=
  bytes "(" ++ (if req then quoted " `,` space ( " else []) ++ string_join ts (bytes " | ") ++ (if req then bytes " )" else []) ++ bytes " )?".
Lemma is_seq_optional (req : bool) ts Ls Ms : ts <> [] -> (length ts <= 900)%nat -> Forall2 (fun t L => t <> [] /\ forall nested, is_seq nested N 2 t L) ts Ls -> (forall rho, solves rho (c_rules c) -> Forall2 same (map (fun L : env -> language => L rho) Ls) (tails Ms)) ->
  exists L w, is_seq false N w (optional_text req ts) L /\ forall rho, solves rho (c_rules c) -> same (L rho) (maybe (if req then cat comma (alts (tails Ms)) else alts (tails Ms))).
Proof.
  intros Hne Hlen Hts Hsol. assert (Hl : 0 <= Zlen ts <= 900) by (unfold Zlen; lia).
  assert (Ha : is_alts true N (2 * Zlen ts) (string_join ts (bytes " | ") ++ bytes " ") (fun rho => alts (map (fun L => L rho) Ls))). { apply is_alts_join; [apply blank_space | done |]. eapply Forall2_impl; [exact Hts |]. intros t L [H1 H3]. by split. }
  assert (Hm : forall rho, solves rho (c_rules c) -> same (alts (map (fun L : env -> language => L rho) Ls)) (alts (tails Ms))) by (intros rho Hs; by apply alts_same, Hsol).
  unfold optional_text. destruct req.
  - exists (fun rho => maybe (cat (den_seq rho comma_xs) (alts (map (fun L => L rho) Ls)))), (1 + (1 + (1 + 2 * Zlen ts)) + 1). split; [| intros rho Hs; apply times_same, cat_same; [by apply (comma_means c Hc) | by apply Hm] ].
    replace (bytes "(" ++ quoted " `,` space ( " ++ string_join ts (bytes " | ") ++ bytes " )" ++ bytes " )?") with ((bytes "(" ++ bytes " " ++ ((quoted "`,` space " ++ bytes "(" ++ bytes " " ++ (string_join ts (bytes " | ") ++ bytes " ") ++ bytes ")") ++ bytes " ") ++ bytes ")") ++ bytes "?").
    2: { rewrite <- !app_assoc. done. }
    apply (is_seq_rep false N (1 + (1 + (1 + 2 * Zlen ts))) 0 (Some 1%nat)); [| constructor | unfold MAX_REPETITION_THRESHOLD; simpl most; lia | done]. apply is_item_group; [apply blank_space |]. apply is_alts_seq, is_seq_blank; [done | apply blank_space |].
    apply is_seq_app; [by apply (is_seq_const c Hc) | apply is_seq_item, is_item_group; [apply blank_space | exact Ha] | by apply (apart_l _ _ 32)].
  - exists (fun rho => maybe (alts (map (fun L => L rho) Ls))), (1 + 2 * Zlen ts + 1). split; [| intros rho Hs; by apply times_same, Hm].
    replace (bytes "(" ++ [] ++ string_join ts (bytes " | ") ++ [] ++ bytes " )?") with ((bytes "(" ++ [] ++ (string_join ts (bytes " | ") ++ bytes " ") ++ bytes ")") ++ bytes "?") by (rewrite <- !app_assoc; done).
    apply (is_seq_rep false N (1 + 2 * Zlen ts) 0 (Some 1%nat)); [| constructor | unfold MAX_REPETITION_THRESHOLD; simpl most; lia | done]. apply is_item_group; [constructor | exact Ha].
Qed.
(** the whole rule of an object with members *)
Definition object_text (rns ts : list (list Z)) : list Z :=
  quoted "`{` space " ++ string_join rns (quoted " `,` space ") ++ (match ts with [] => [] | _ => bytes " " ++ optional_text (match rns with [] => false | _ => true end) ts end) ++ quoted " space `}`".
Lemma is_seq_object rns RLs ts Ls Ms : Forall2 (has_rule c) rns RLs -> (length ts <= 900)%nat -> length ts = length Ms -> (rns <> [] \/ ts <> []) -> Forall2 (fun t L => t <> [] /\ forall nested, is_seq nested N 2 t L) ts Ls ->
  (forall rho, solves rho (c_rules c) -> Forall2 same (map (fun L : env -> language => L rho) Ls) (tails Ms)) ->
  exists M w, is_seq false N w (object_text rns ts) M /\ forall rho, solves rho (c_rules c) -> same (M rho) (bracketed "{" "}" (members_language RLs Ms)).
Proof.
  intros Hr Hlen HlM Hne Hts Hsol. destruct (is_seq_joined c Hc false rns RLs Hr) as (LR & HR & HRM). unfold object_text.
  assert (G : exists b t L w, (b = [] \/ b = bytes " ") /\ b ++ t = string_join rns (quoted " `,` space ") ++ (match ts with [] => [] | _ => bytes " " ++ optional_text (match rns with [] => false | _ => true end) ts end) /\ is_seq false N w t L /\ forall rho, solves rho (c_rules c) -> same (L rho) (members_language RLs Ms)).
  { destruct ts as [| t0 ts].
    - exists [], (string_join rns (quoted " `,` space ")), LR, (2 * Zlen rns). split_and!; [by left | by rewrite app_nil_r | done |]. intros rho Hs. etransitivity; [by apply HRM |]. destruct Ms; [| done]. intros w. unfold members_language. split; [intros Hw; exists []; split; [constructor | by rewrite app_nil_r] | intros (sub & Hsub & Hw); apply sublist_nil_r in Hsub as ->; by rewrite app_nil_r in Hw].
    - destruct rns as [| r rns].
      + inversion Hr; subst. destruct (is_seq_optional false (t0 :: ts) Ls Ms ltac:(done) Hlen Hts Hsol) as (L & w & HL & HM). exists (bytes " "), (optional_text false (t0 :: ts)), L, w. split_and!; [by right | done | done |]. intros rho Hs. etransitivity; [by apply HM |]. apply members_no_required.
      + destruct (is_seq_optional true (t0 :: ts) Ls Ms ltac:(done) Hlen Hts Hsol) as (L & w & HL & HM). eexists [], _, (fun rho => cat (LR rho) (L rho)), (2 * Zlen (r :: rns) + w). split_and!; [by left | reflexivity | |].
        * apply is_seq_pair; [exact HR | | exact HL]. apply Forall2_cons_inv_l in Hr as (R & Rs & Hr0 & _ & ->). rewrite string_join_cons. destruct Hr0 as (_ & [Hrn _] & _). by destruct r.
        * intros rho Hs. etransitivity; [apply cat_same; [by apply HRM | by apply HM] |]. apply members_required. by inversion Hr. }
  destruct G as (b & t & L & w & Hb & Et & HL & HM). destruct (is_seq_bracketed c Hc w b t L (members_language RLs Ms) "{" "}") as (M & HM1 & HM2); [set_solver | done | done | done |]. exists M, (1 + w + 1). split; [| done].
  replace (quoted "`{` space " ++ string_join rns (quoted " `,` space ") ++ _ ++ quoted " space `}`") with ([quote] ++ bytes "{" ++ [quote] ++ bytes " space " ++ b ++ t ++ bytes " space " ++ [quote] ++ bytes "}" ++ [quote]); [exact HM1 |].
  rewrite (app_assoc b t), Et. rewrite <- !app_assoc. done.
Qed.
End Object.

(** ** The schemas of the fragment and the texts they describe *)
Section Valid.
Context (dump : jvalue -> res (list Z)).
Definition lacks (keys : list string) (s : jvalue) : Prop := Forall (fun k => field k s = None) keys.
Definition format_ok (s : jvalue) : Prop := match field "format" s with None | Some (Str _) => True | _ => False end.
Definition type_is (t : string) (s : jvalue) : Prop := field "type" s = Some (Str (bytes t)).
Definition plain_type (s : jvalue) : Prop := match field "type" s with Some (Arr _) => False | _ => True end.
(** the text of a value, in code points *)
Definition printed (v : jvalue) (cps : list Z) : Prop := dump v = Ok (utf8s cps) /\ Forall scalar cps /\ cps <> [].
(** a property: its name, the text of the name, and the language of its values *)
Definition property : Type := list Z * list Z * language.
Definition property_member (p : property) : language := member p.1.2 p.2.
Definition object_language (required : gset (list Z)) (ps : list property) : language :=
  match ps with
  | [] => cats [lit (bytes "{"); space_language; lit (bytes "}")]
  | _ => bracketed "{" "}" (members_language (map property_member (List.filter (fun p => bool_decide (p.1.1 ∈ required)) ps)) (map property_member (List.filter (fun p => negb (bool_decide (p.1.1 ∈ required))) ps)))
  end.
Definition min_items (s : jvalue) (lo : nat) : Prop := match field "minItems" s with None => lo = 0%nat | Some (Int z) => 0 <= z /\ lo = Z.to_nat z | _ => False end.
Definition max_items (s : jvalue) (hi : option nat) : Prop := match field "maxItems" s with None => hi = None | Some (Int z) => 0 <= z /\ hi = Some (Z.to_nat z) | _ => False end.
Definition earlier : list string := ["$ref"; "oneOf"; "anyOf"]%string.
(** [valid s L]: the schema [s] describes the texts [L].  Keys that are not looked at are free. *)
Inductive valid : jvalue -> language -> Prop :=
| v_const s v cps : format_ok s -> plain_type s -> lacks earlier s -> field "const" s = Some v -> printed v cps -> valid s (lit cps)
| v_enum s vs texts : format_ok s -> plain_type s -> lacks (earlier ++ ["const"%string]) s -> field "enum" s = Some (Arr vs) -> vs <> [] -> Forall2 printed vs texts -> valid s (alts (map lit texts))
| v_range s lo hi : format_ok s -> type_is "integer" s -> lacks (earlier ++ ["const"; "enum"]%string) s -> field "minimum" s = Some (Int lo) -> field "maximum" s = Some (Int hi) -> - INT64_MAX < lo <= hi -> hi < INT64_MAX -> valid s (range_language lo hi)
| v_simple s b L : (b, L) ∈ simple_types -> type_is b s -> lacks (earlier ++ ["const"; "enum"; "format"; "allOf"; "pattern"; "minLength"; "maxLength"; "minimum"; "maximum"; "exclusiveMinimum"; "exclusiveMaximum"]%string) s -> valid s L
| v_any s l Ls : format_ok s -> field "$ref" s = None -> (field "oneOf" s = Some (Arr l) \/ field "oneOf" s = None /\ field "anyOf" s = Some (Arr l)) -> l <> [] -> valid_list l Ls -> valid s (alts Ls)
| v_object s props ps : format_ok s -> type_is "object" s \/ field "type" s = None -> lacks (earlier ++ ["const"; "enum"]%string) s -> field "properties" s = Some (Obj props) ->
    (field "additionalProperties" s = None \/ field "additionalProperties" s = Some (Bool false)) -> (length props <= 900)%nat -> NoDup (map fst props) -> valid_props props ps -> valid s (object_language (required_set s) ps)
| v_array s x L lo hi : format_ok s -> type_is "array" s -> lacks (earlier ++ ["const"; "enum"]%string) s -> field "items" s = Some x -> (match x with Arr _ => False | _ => True end) -> min_items s lo -> max_items s hi -> bounded lo hi ->
    valid x L -> valid s (bracketed "[" "]" (items_language lo hi L))
| v_tuple s l Ls : format_ok s -> type_is "array" s -> lacks (earlier ++ ["const"; "enum"]%string) s -> (field "items" s = Some (Arr l) \/ field "items" s = None /\ field "prefixItems" s = Some (Arr l)) ->
    valid_list l Ls -> valid s (bracketed "[" "]" (joined Ls))
with valid_list : list jvalue -> list language -> Prop :=
| vl_nil : valid_list [] []
| vl_cons s L l Ls : valid s L -> valid_list l Ls -> valid_list (s :: l) (L :: Ls)
with valid_props : list (list Z * jvalue) -> list property -> Prop :=
| vp_nil : valid_props [] []
| vp_cons k s cps L props ps : word k -> printed (Str k) cps -> valid s L -> valid_props props ps -> valid_props ((k, s) :: props) ((k, cps, L) :: ps).
Scheme valid_ind' := Minimality for valid Sort Prop
  with valid_list_ind' := Minimality for valid_list Sort Prop
  with valid_props_ind' := Minimality for valid_props Sort Prop.
Combined Scheme valid_mind from valid_ind', valid_list_ind', valid_props_ind'.

(** ** Visiting *)
Definition visits (s : jvalue) (L : language) : Prop := forall name c, inv [] c -> fine name -> exists r, evals (fun fuel => visit dump fuel s name c) r /\ result (bool_decide (name = [])) c L r.
Lemma visits_sub s L name c : visits s L -> inv [] c -> fine name -> name <> [] -> exists n c', evals (fun fuel => visit dump fuel s name c) (n, c') /\ inv [] c' /\ grown false c c' /\ has_rule c' n L.
Proof.
  intros H Hc Hf Hn. destruct (H name c Hc Hf) as ([n c'] & E & Hr). exists n, c'. rewrite bool_decide_eq_false_2 in Hr by done. split_and!; [done | apply Hr | apply Hr | by apply (result_rule _ _ _ _ Hr)].
Qed.
Lemma union_spec l Ls name : Forall2 visits l Ls -> fine name -> forall i c, 0 <= i -> inv [] c ->
  exists ns c', evals (fun fuel => union_loop (visit dump fuel) i name l c) (ns, c') /\ inv [] c' /\ grown false c c' /\ Forall2 (has_rule c') ns Ls.
Proof.
  intros H Hf. induction H as [| s L l Ls Hs _ IH]; intros i c Hi Hc; cbn [union_loop]; [exists [], c; split_and!; [apply evals_const | done | apply grown_refl | constructor] |].
  set (nm := name ++ _ ++ to_string i). assert (Hnm : word nm) by (subst nm; rewrite app_assoc; apply word_app_r; [apply fine_app; [done |]; destruct name; by apply fine_check | by apply to_string_fine]).
  destruct (visits_sub s L nm c Hs Hc (word_fine _ Hnm) (proj1 Hnm)) as (n & c1 & E1 & Hc1 & Hg1 & Hr1). destruct (IH (i + 1) c1 ltac:(lia) Hc1) as (ns & c2 & E2 & Hc2 & Hg2 & Hr2).
  exists (n :: ns), c2. split_and!; [| done | by eapply grown_trans | constructor; [by eapply has_rule_mono | done] ].
  eapply (evals_bind _ (fun fuel '(r, c) => let! (rs, c) := union_loop (visit dump fuel) (i + 1) name l c in Ok (r :: rs, c))); [exact E1 |]. eapply (evals_bind _ (fun fuel '(rs, c) => Ok (n :: rs, c))); [exact E2 | apply evals_const].
Qed.
Lemma tuple_spec l Ls name : Forall2 visits l Ls -> fine name -> forall first i c, 0 <= i -> inv [] c ->
  exists ns c', evals (fun fuel => tuple_loop (visit dump fuel) first i name l c) ((if first : bool then string_join ns (quoted " `,` space ") else concat (map (app (quoted " `,` space ")) ns)), c') /\ inv [] c' /\ grown false c c' /\ Forall2 (has_rule c') ns Ls.
Proof.
  intros H Hf. induction H as [| s L l Ls Hs _ IH]; intros first i c Hi Hc; cbn [tuple_loop]; [exists [], c; split_and!; [destruct first; apply evals_const | done | apply grown_refl | constructor] |].
  set (nm := name ++ dash name ++ bytes "tuple-" ++ to_string i). assert (Hnm : word nm) by (subst nm; rewrite app_assoc; apply word_app_r; [by apply dash_fine | apply word_app_r; [by apply fine_check | by apply to_string_fine] ]).
  destruct (visits_sub s L nm c Hs Hc (word_fine _ Hnm) (proj1 Hnm)) as (n & c1 & E1 & Hc1 & Hg1 & Hr1). destruct (IH false (i + 1) c1 ltac:(lia) Hc1) as (ns & c2 & E2 & Hc2 & Hg2 & Hr2).
  exists (n :: ns), c2. split_and!; [| done | by eapply grown_trans | constructor; [by eapply has_rule_mono | done] ].
  eapply (evals_bind _ (fun fuel '(r, c) => let! (rs, c) := tuple_loop (visit dump fuel) false (i + 1) name l c in Ok ((if first then [] else quoted " `,` space ") ++ r ++ rs, c))); [exact E1 |].
  eapply (evals_bind _ (fun fuel '(rs, c) => Ok ((if first then [] else quoted " `,` space ") ++ n ++ rs, c))); [exact E2 |].
  destruct first; [rewrite string_join_cons, <- join_concat; apply evals_const | cbn [map concat]; rewrite <- app_assoc; apply evals_const].
Qed.
(** the properties of an object *)
Definition visits_prop (prop : list Z * jvalue) (p : property) : Prop := word prop.1 /\ prop.1 = p.1.1 /\ printed (Str prop.1) p.1.2 /\ visits prop.2 p.2.
Lemma props_spec props ps name : Forall2 visits_prop props ps -> fine name -> NoDup (map fst props) -> forall kv c, inv [] c ->
  exists kv' c', evals (fun fuel => props_loop dump (visit dump fuel) name props kv c) (kv', c') /\ inv [] c' /\ grown false c c' /\ Forall2 (fun prop p => has_kv kv' c' prop.1 (property_member p)) props ps /\
    forall k, k ∉ map fst props -> kv' !! k = kv !! k.
Proof.
  intros H Hf. induction H as [| [k s] [ [k' cps] L] props ps (Hk & Ek & Hp & Hs) Hps IH]; intros Hnd kv c Hc; cbn [props_loop]; [exists kv, c; split_and!; [apply evals_const | done | apply grown_refl | constructor | done] |]. cbn [fst snd] in *. subst k'.
  apply NoDup_cons in Hnd as [Hk' Hnd]. destruct Hp as (Ed & Hsc & Hne).
  assert (Hnm : word (name ++ dash name ++ k)) by (rewrite app_assoc; apply word_app_r; [by apply dash_fine | done]).
  destruct (visits_sub s L (name ++ dash name ++ k) c Hs Hc (word_fine _ Hnm) (proj1 Hnm)) as (n & c1 & E1 & Hc1 & Hg1 & Hr1). destruct (is_seq_member c1 Hc1 cps n L Hsc Hne Hr1) as (M & HM & HML).
  destruct (add_suffixed c1 (name ++ dash name ++ k) (bytes "-kv") (format_literal (utf8s cps) ++ quoted " space `:` space " ++ n) 3 M (member cps L)) as (m & c2 & E2 & Hc2 & Hg2 & Hr2);
    [done | by apply word_fine | split; [done | by apply fine_check] | by vm_compute | by vm_compute | done | by apply is_alts_seq | done |].
  destruct (IH Hnd (<[k := m]> kv) c2 Hc2) as (kv' & c3 & E3 & Hc3 & Hg3 & Hkv & Hother). exists kv', c3. split_and!; [| done | eapply grown_trans; [exact Hg1 | by eapply grown_trans] | constructor; [| done] |].
  - eapply (evals_bind _ (fun fuel '(prop_rule_name, c) => let! d := dump (Str k) in let '(r, c) := _add_rule (name ++ dash name ++ k ++ bytes "-kv") (format_literal d ++ quoted " space `:` space " ++ prop_rule_name) c in props_loop dump (visit dump fuel) name props (<[k := r]> kv) c)); [exact E1 |].
    rewrite Ed. cbn [rbind]. replace (name ++ dash name ++ k ++ bytes "-kv") with ((name ++ dash name ++ k) ++ bytes "-kv") by (by rewrite <- !app_assoc). rewrite E2. exact E3.
  - exists m. split; [rewrite Hother by done; by rewrite lookup_insert_eq | by eapply has_rule_mono].
  - intros k0 Hk0. cbn [map fst] in Hk0. apply not_elem_of_cons in Hk0 as [Hk1 Hk2]. rewrite Hother by done. by rewrite lookup_insert_ne.
Qed.
Lemma filter_kv (f : list Z -> bool) kv c props ps : Forall2 visits_prop props ps -> Forall2 (fun prop p => has_kv kv c prop.1 (property_member p)) props ps ->
  Forall2 (has_kv kv c) (List.filter f (map fst props)) (map property_member (List.filter (fun p => f p.1.1) ps)).
Proof.
  intros H1 H2. induction H1 as [| prop p props ps (_ & E & _) _ IH]; [constructor |]. apply Forall2_cons_1 in H2 as [Hk H2]. simpl. rewrite <- E. destruct (f prop.1); [simpl; constructor; [done | by apply IH] | by apply IH].
Qed.
Lemma kv_rules kv c ks Ms : Forall2 (has_kv kv c) ks Ms -> Forall2 (has_rule c) (map (fun k => default [] (kv !! k)) ks) Ms.
Proof. induction 1 as [| k M ks Ms (n & Hn & Hr) _ IH]; [constructor |]. simpl. rewrite Hn. by constructor. Qed.
Lemma object_spec props ps name required additional c : Forall2 visits_prop props ps -> fine name -> NoDup (map fst props) -> (length props <= 900)%nat -> allows_more additional = false -> inv [] c ->
  exists rule c' L w, evals (fun fuel => _build_object_rule dump (visit dump fuel) props required name additional c) (rule, c') /\ inv [] c' /\ grown false c c' /\ rule <> [] /\
    is_alts false (names_of (c_rules c')) w rule L /\ forall rho, solves rho (c_rules c') -> same (L rho) (object_language required ps).
Proof.
  intros Hps Hf Hnd Hlen Hadd Hc. destruct (props_spec props ps name Hps Hf Hnd ∅ c Hc) as (kv & c1 & E1 & Hc1 & Hg1 & Hkv & _).
  set (rps := List.filter (fun k => bool_decide (k ∈ required)) (map fst props)). set (ops := List.filter (fun k => negb (bool_decide (k ∈ required))) (map fst props)).
  pose proof (filter_kv (fun k => bool_decide (k ∈ required)) kv c1 props ps Hps Hkv) as Hreq. pose proof (filter_kv (fun k => negb (bool_decide (k ∈ required))) kv c1 props ps Hps Hkv) as Hopt. fold rps in Hreq. fold ops in Hopt.
  set (RM := map property_member (List.filter (fun p => bool_decide (p.1.1 ∈ required)) ps)) in *. set (OM := map property_member (List.filter (fun p => negb (bool_decide (p.1.1 ∈ required))) ps)) in *.
  assert (Hof : Forall fine ops). { apply Forall_forall. intros k Hk. apply list_elem_of_In, List.filter_In in Hk as [Hk _]. apply list_elem_of_In, list_elem_of_fmap in Hk as (prop & -> & Hprop). apply list_elem_of_lookup in Hprop as [j Hj]. destruct (Forall2_lookup_l _ _ _ _ _ Hps Hj) as (p & _ & Hw & _). by apply word_fine. }
  destruct (optional_alts name kv ops OM true c1 Hf Hof Hc1 Hopt) as (ts & Ls & c2 & E2 & Hc2 & Hg2 & Hts & Hlts & Hsol).
  assert (Hol : (length ops <= 900)%nat) by (etransitivity; [apply List.filter_length_le |]; by rewrite length_map).
  assert (Eb : forall X : list Z * common_schema_converter, (match rps, ops with [], [] => (quoted "`{` space `}`", c1) | _, _ => (object_text (map (fun k => default [] (kv !! k)) rps) ts, c2) end) = X -> evals (fun fuel => _build_object_rule dump (visit dump fuel) props required name additional c) X).
  { intros X <-. eapply (evals_bind _ (fun fuel '(kv, c) => _)); [exact E1 |]. cbv beta iota. rewrite Hadd. cbn [rbind]. fold rps ops. rewrite E2. destruct ops as [| o os].
    - cbn [optional_loop] in E2. injection E2 as E2 <-. destruct ts as [| t ts]; [| done]. destruct rps as [| r rs]; [apply evals_const |]. unfold object_text. cbn [map]. rewrite app_nil_l, <- app_assoc. apply evals_const.
    - destruct ts as [| t ts]; [done |]. unfold object_text, optional_text. destruct rps as [| r rs]; cbn [map]; rewrite <- !app_assoc; apply evals_const. }
  destruct (decide (rps = [] /\ ops = [])) as [ [Er Eo] | Hne].
  - rewrite Er, Eo in Eb. assert (Hp0 : props = []) by (destruct props as [| prop props]; [done |]; exfalso; clear -Er Eo; subst rps ops; simpl in Er, Eo; by destruct (bool_decide _)). subst props. inversion Hps; subst.
    exists (quoted "`{` space `}`"), c1, (fun rho => den_seq rho [L' "{"; GRef (bytes "space"); L' "}"]), 1. split_and!; [by apply Eb | done | done | done | apply is_alts_seq; by apply (is_seq_const c1 Hc1) |].
    intros rho Hs. pose proof (space_means c1 Hc1 rho Hs). unfold object_language. apply cats_same. each; [reflexivity | done | reflexivity].
  - pose proof (kv_rules kv c1 rps RM Hreq) as Hrr. assert (Hrr2 : Forall2 (has_rule c2) (map (fun k => default [] (kv !! k)) rps) RM) by (eapply Forall2_impl; [exact Hrr |]; intros; by eapply has_rule_mono).
    destruct (is_seq_object c2 Hc2 (map (fun k => default [] (kv !! k)) rps) RM ts Ls OM) as (M & w & HM & HML); [done | lia | rewrite Hlts; by eapply Forall2_length | | done | done |].
    { destruct rps as [| r rs]; [right | by left]. destruct ts; [| done]. destruct ops; [| done]. exfalso. by apply Hne. }
    exists (object_text (map (fun k => default [] (kv !! k)) rps) ts), c2, M, w. split_and!; [apply Eb; destruct rps, ops; try done; exfalso; by apply Hne | done | by eapply grown_trans | done | by apply is_alts_seq |].
    intros rho Hs. etransitivity; [by apply HML |]. unfold object_language. destruct ps as [| p ps]; [| reflexivity]. exfalso. inversion Hps; subst. apply Hne. by subst rps ops.
Qed.
(** *** One kind of schema after the other *)
Lemma has_lacks keys s k : lacks keys s -> bool_decide (k ∈ keys) = true -> has_field k s = false.
Proof. intros H Hk. apply bool_decide_eq_true in Hk. unfold lacks in H. rewrite Forall_forall in H. unfold has_field. by rewrite (H k Hk). Qed.
Lemma lacks_field keys s k : lacks keys s -> bool_decide (k ∈ keys) = true -> field k s = None.
Proof. intros H Hk. apply bool_decide_eq_true in Hk. unfold lacks in H. rewrite Forall_forall in H. by apply H. Qed.
Lemma has_some k s v : field k s = Some v -> has_field k s = true.
Proof. intros H. unfold has_field. by rewrite H. Qed.
Lemma format_get s : format_ok s -> exists f, (match field "format" s with Some f => get_string f | None => Ok [] end) = Ok f.
Proof. unfold format_ok. destruct (field "format" s) as [ [] |]; try done; intros _; by eexists. Qed.
Lemma type_str t s : type_is t s -> default Null (field "type" s) = Str (bytes t).
Proof. unfold type_is. by intros ->. Qed.
(** the result of a visit that ends by adding a rule to [c'] *)
Lemma visits_rule s L K name c c' rule w : grown false c c' -> inv [] c' -> fine name -> rule <> [] -> is_alts false (names_of (c_rules c')) w rule L -> (forall rho, solves rho (c_rules c') -> same (L rho) K) ->
  evals (fun fuel => visit dump fuel s name c) (_add_rule (rule_name_of name) rule c') -> exists r, evals (fun fuel => visit dump fuel s name c) r /\ result (bool_decide (name = [])) c K r.
Proof. intros Hg Hc Hf Hne Ha HK He. eexists. split; [exact He |]. eapply result_trans; [exact Hg |]. by eapply add_named. Qed.
Ltac absent H := repeat match goal with |- context [has_field ?k ?s] => rewrite (has_lacks _ s k H) by done end.
Ltac step_visit := eapply evals_S; [intros fuel; cbn [visit]; reflexivity |].
Lemma plain_not_list s : plain_type s -> (match default Null (field "type" s) with Arr _ => true | _ => false end) = false.
Proof. unfold plain_type. destruct (field "type" s) as [ [] |]; done. Qed.
Lemma visit_const s v cps : format_ok s -> plain_type s -> lacks earlier s -> field "const" s = Some v -> printed v cps -> visits s (lit cps).
Proof.
  intros Hf Ht Hl Hv (Hd & Hs & Hne) name c Hc Hn. destruct (format_get s Hf) as (f & Ef).
  apply (visits_rule s (fun _ => lit cps) (lit cps) name c c (format_literal (utf8s cps)) 0); [apply grown_refl | done | done | done | by apply is_alts_seq, is_seq_item, is_item_literal | done |].
  step_visit. rewrite Ef. cbn [rbind]. absent Hl. cbn [orb]. rewrite (plain_not_list s Ht), (has_some _ _ _ Hv), Hv. change (default Null (Some v)) with v. unfold _generate_constant_rule. rewrite Hd. apply evals_const.
Qed.
Lemma constants_spec vs texts : Forall2 printed vs texts -> constant_rules dump vs = Ok (map (fun t => format_literal (utf8s t)) texts).
Proof. induction 1 as [| v t vs texts (Hd & _) _ IH]; [done |]. cbn [constant_rules]. unfold _generate_constant_rule. rewrite Hd. cbn [rbind]. by rewrite IH. Qed.
Lemma visit_enum s vs texts : format_ok s -> plain_type s -> lacks (earlier ++ ["const"%string]) s -> field "enum" s = Some (Arr vs) -> vs <> [] -> Forall2 printed vs texts -> visits s (alts (map lit texts)).
Proof.
  intros Hf Ht Hl Hv Hne Hp name c Hc Hn. destruct (format_get s Hf) as (f & Ef). set (ts := map (fun t => format_literal (utf8s t)) texts).
  assert (Hts : Forall2 (fun t L => t <> [] /\ is_seq true (names_of (c_rules c)) 2 t L) ts (map (fun t _ => lit t) texts)). { subst ts. clear -Hp. induction Hp as [| v t vs texts (_ & Hs & Hn) _ IH]; [constructor |]. simpl. constructor; [| done]. split; [done |]. eapply is_seq_mono; [reflexivity | | by apply is_seq_item, is_item_literal]. done. }
  assert (Htne : ts <> []) by (inversion Hp; subst; [done |]; by subst ts).
  apply (visits_rule s (fun rho => alts (map (fun L => L rho) (map (fun t _ => lit t) texts))) (alts (map lit texts)) name c c (bytes "(" ++ string_join ts (bytes " | ") ++ bytes ")") (1 + 2 * Zlen ts)); [apply grown_refl | done | done | done | | |].
  - apply is_alts_seq, is_seq_item. apply (is_item_group false _ _ []); [constructor |]. rewrite <- (app_nil_r (string_join ts _)). apply is_alts_join; [constructor | done | done].
  - intros rho _. rewrite map_map. reflexivity.
  - step_visit. rewrite Ef. cbn [rbind]. absent Hl. cbn [orb]. rewrite (plain_not_list s Ht), (has_some _ _ _ Hv), Hv. change (default Null (Some (Arr vs))) with (Arr vs). cbn [elements]. rewrite (constants_spec vs texts Hp). apply evals_const.
Qed.
Lemma i64_small z : - 2 ^ 63 <= z < 2 ^ 63 -> i64 z = z.
Proof. unfold i64. intros. rewrite Z.mod_small; lia. Qed.
Lemma visit_range s lo hi : format_ok s -> type_is "integer" s -> lacks (earlier ++ ["const"; "enum"]%string) s -> field "minimum" s = Some (Int lo) -> field "maximum" s = Some (Int hi) -> - INT64_MAX < lo <= hi -> hi < INT64_MAX -> visits s (range_language lo hi).
Proof.
  intros Hf Ht Hl Hmin Hmax Hlo Hhi name c Hc Hn. destruct (format_get s Hf) as (f & Ef). destruct (range_reads (names_of (c_rules c)) 28 lo hi 16 Hlo Hhi) as (u & w & Eu & Hune & Hu).
  apply (visits_rule s (fun _ => range_language lo hi) (range_language lo hi) name c c (bytes "(" ++ u ++ bytes ")") (1 + w)); [apply grown_refl | done | done | done | | done |].
  - apply is_alts_seq, is_seq_item. by apply (is_item_group false _ _ []); [constructor |].
  - step_visit. rewrite Ef. cbn [rbind]. absent Hl. cbn [orb]. rewrite (type_str _ _ Ht). cbn [is_null is_str]. rewrite !(bool_decide_eq_false_2 (bytes "integer" = _)) by done. cbn [orb andb]. rewrite (bool_decide_eq_true_2 (bytes "integer" = bytes "integer")) by done. rewrite (has_some _ _ _ Hmin). cbn [orb andb].
    unfold min_bound, max_bound. rewrite Hmin, Hmax. unfold get_int64. rewrite !i64_small by (unfold INT64_MAX in *; lia). cbn [rbind]. change range_fuel with (S (S 28)). rewrite Eu. apply evals_const.
Qed.
Lemma simple_name b L : (b, L) ∈ simple_types -> b ∈ ["boolean"; "null"; "string"; "integer"; "number"]%string.
Proof. unfold simple_types. rewrite !elem_of_cons, !elem_of_nil. intros H. destruct_or! H; try done; simplify_eq; auto 10. Qed.
Lemma visit_simple s b L : (b, L) ∈ simple_types -> type_is b s -> lacks (earlier ++ ["const"; "enum"; "format"; "allOf"; "pattern"; "minLength"; "maxLength"; "minimum"; "maximum"; "exclusiveMinimum"; "exclusiveMaximum"]%string) s -> visits s L.
Proof.
  intros Hb Ht Hl name c Hc Hn. destruct (simple_type_spec b L name c Hb Hc Hn) as (r & rr & Hr & Er & Hres). exists rr. split; [| done]. step_visit. rewrite (lacks_field _ _ "format" Hl) by done. cbn [rbind]. absent Hl. cbn [orb]. rewrite (type_str _ _ Ht). cbn [is_null is_str].
  assert (He : is_empty s = false) by (unfold type_is, field in Ht; destruct s as [| | | | | | [| e l] ]; done).
  apply simple_name in Hb. rewrite !elem_of_cons, elem_of_nil in Hb. rewrite !andb_false_r, He. destruct_or! Hb; try done; subst b; rewrite ?(bool_decide_eq_false_2 (bytes _ = bytes "object")), ?(bool_decide_eq_false_2 (bytes _ = bytes "array")) by done; cbn [orb andb]; rewrite ?andb_false_r; try rewrite (bool_decide_eq_true_2 (bytes "string" = bytes "string")) by done; rewrite ?(bool_decide_eq_false_2 (bytes _ = bytes "string")) by done; cbn [orb andb]; rewrite ?andb_false_r; cbn [orb andb].
  all: try (change (is_uuid_format []) with false; change (find_rule ([] ++ bytes "-string") STRING_FORMAT_RULES) with (@None BuiltinRule)); cbv iota; rewrite Hr, Er; apply evals_const.
Qed.
Lemma visit_any s l Ls : format_ok s -> field "$ref" s = None -> (field "oneOf" s = Some (Arr l) \/ field "oneOf" s = None /\ field "anyOf" s = Some (Arr l)) -> l <> [] -> Forall2 visits l Ls -> visits s (alts Ls).
Proof.
  intros Hf Href Halt Hne Hl name c Hc Hn. destruct (format_get s Hf) as (f & Ef). destruct (union_spec l Ls name Hl Hn 0 c ltac:(lia) Hc) as (ns & c1 & E1 & Hc1 & Hg1 & Hns).
  assert (Hts : Forall2 (fun t L => t <> [] /\ is_seq false (names_of (c_rules c1)) 2 t L) ns (map (fun n (rho : env) => rho n) ns)).
  { clear -Hns. induction Hns as [| n L ns Ls Hn _ IH]; [constructor |]. simpl. constructor; [| done]. split; [apply Hn |]. eapply is_seq_mono; [reflexivity | | by apply is_seq_item, (is_item_rule false c1 n L)]. done. }
  assert (Hnn : ns <> []) by (intros ->; inversion Hns; subst; by inversion Hl; subst).
  apply (visits_rule s (fun rho => alts (map (fun L => L rho) (map (fun n (rho : env) => rho n) ns))) (alts Ls) name c c1 (string_join ns (bytes " | ")) (2 * Zlen ns)); [done | done | done | | | |].
  - destruct Hns as [| n L ns Ls Hn0 _]; [done |]. rewrite string_join_cons. destruct Hn0 as (_ & [Hw _] & _). by destruct n.
  - rewrite <- (app_nil_r (string_join ns _)). apply is_alts_join; [constructor | done | done].
  - intros rho Hs. apply alts_same. clear -Hns Hs. rewrite map_map. induction Hns as [| n L ns Ls Hn _ IH]; [constructor |]. simpl. constructor; [by apply Hn | done].
  - step_visit. rewrite Ef. cbn [rbind]. unfold has_field at 1. rewrite Href. cbn [bool_decide]. rewrite (bool_decide_eq_false_2 (is_Some None)) by (by intros [? ?]). assert (Ho : has_field "oneOf" s || has_field "anyOf" s = true) by (destruct Halt as [H | [_ H] ]; [by rewrite (has_some _ _ _ H) | by rewrite (has_some _ _ _ H), orb_true_r]). rewrite Ho.
    replace (match field "oneOf" s with Some a => a | None => default Null (field "anyOf" s) end) with (Arr l) by (destruct Halt as [-> | [-> ->] ]; done). cbn [elements]. unfold _generate_union_rule.
    eapply (evals_bind _ (fun fuel r => Ok (_add_rule (rule_name_of name) r.1 r.2)) (string_join ns (bytes " | "), c1)); [| apply evals_const]. eapply (evals_bind _ (fun fuel '(rules, c) => Ok (string_join rules (bytes " | "), c)) (ns, c1)); [exact E1 | apply evals_const].
Qed.
Lemma visit_object s props ps : format_ok s -> type_is "object" s \/ field "type" s = None -> lacks (earlier ++ ["const"; "enum"]%string) s -> field "properties" s = Some (Obj props) ->
  (field "additionalProperties" s = None \/ field "additionalProperties" s = Some (Bool false)) -> (length props <= 900)%nat -> NoDup (map fst props) -> Forall2 visits_prop props ps -> visits s (object_language (required_set s) ps).
Proof.
  intros Hf Ht Hl Hp Hadd Hlen Hnd Hps name c Hc Hn. destruct (format_get s Hf) as (f & Ef).
  destruct (object_spec props ps name (required_set s) (default Null (field "additionalProperties" s)) c Hps Hn Hnd Hlen) as (rule & c1 & L & w & E1 & Hc1 & Hg1 & Hrn & Ha & HM); [by destruct Hadd as [-> | ->] | done |].
  apply (visits_rule s L (object_language (required_set s) ps) name c c1 rule w); [done | done | done | done | done | done |].
  step_visit. rewrite Ef. cbn [rbind]. absent Hl. cbn [orb]. assert (Ht1 : match default Null (field "type" s) with Arr _ => true | _ => false end = false) by (destruct Ht as [H | H]; [unfold type_is in H |]; by rewrite H).
  assert (Ht2 : is_null (default Null (field "type" s)) || is_str "object" (default Null (field "type" s)) = true) by (destruct Ht as [H | H]; [unfold type_is in H |]; rewrite H; [cbn; by rewrite bool_decide_eq_true_2 | done]).
  rewrite Ht1, Ht2, (has_some _ _ _ Hp), Hp. cbn [orb andb]. change (items (default Null (Some (Obj props)))) with props. eapply (evals_bind _ (fun fuel r => Ok (_add_rule (rule_name_of name) r.1 r.2)) (rule, c1)); [exact E1 | apply evals_const].
Qed.
Lemma items_i32 z : 0 <= z <= 600 -> get_int (Int z) = Ok z.
Proof. intros Hz. unfold get_int, i32. rewrite Z.mod_small by lia. f_equal. lia. Qed.
Lemma min_items_get s lo : min_items s lo -> (lo <= 600)%nat -> int_field "minItems" 0 s = Ok (Z.of_nat lo).
Proof. unfold min_items, int_field. destruct (field "minItems" s) as [ [] |]; try done; [| by intros ->]. intros [Hz ->] Hlo. rewrite items_i32 by lia. f_equal. lia. Qed.
Lemma max_items_get s lo hi : max_items s hi -> bounded lo hi -> (match field "maxItems" s with Some (Int z) => get_int (Int z) | _ => Ok INT_MAX end) = Ok (max_items_of hi).
Proof. unfold max_items. destruct (field "maxItems" s) as [ [] |]; try done; [| by intros ->]. intros [Hz ->] [_ Hb]. cbn [max_items_of]. rewrite items_i32 by lia. f_equal. lia. Qed.
(** the rule of an array around the rule of its items *)
Lemma array_rule s name c c' t w L K : inv [] c' -> fine name -> grown false c c' -> is_seq false (names_of (c_rules c')) w t L -> (forall rho, solves rho (c_rules c') -> same (L rho) K) ->
  evals (fun fuel => visit dump fuel s name c) (_add_rule (rule_name_of name) (quoted "`[` space " ++ t ++ quoted " space `]`") c') ->
  exists r, evals (fun fuel => visit dump fuel s name c) r /\ result (bool_decide (name = [])) c (bracketed "[" "]" K) r.
Proof.
  intros Hc Hn Hg Ht HK He. destruct (is_seq_bracketed c' Hc w [] t L K "[" "]") as (M & HM & HMK); [set_solver | by left | done | done |]. apply (visits_rule s M (bracketed "[" "]" K) name c c' (quoted "`[` space " ++ t ++ quoted " space `]`") (1 + w + 1)); [done | done | done | done | | done | done].
  apply is_alts_seq. exact HM.
Qed.
Lemma visit_tuple s l Ls : format_ok s -> type_is "array" s -> lacks (earlier ++ ["const"; "enum"]%string) s -> (field "items" s = Some (Arr l) \/ field "items" s = None /\ field "prefixItems" s = Some (Arr l)) ->
  Forall2 visits l Ls -> visits s (bracketed "[" "]" (joined Ls)).
Proof.
  intros Hf Ht Hl Hi Hs name c Hc Hn. destruct (format_get s Hf) as (f & Ef). destruct (tuple_spec l Ls name Hs Hn true 0 c ltac:(lia) Hc) as (ns & c1 & E1 & Hc1 & Hg1 & Hns). cbv iota in E1. destruct (is_seq_joined c1 Hc1 false ns Ls Hns) as (L & HL & HLM).
  eapply array_rule; [exact Hc1 | done | done | exact HL | exact HLM |]. step_visit. rewrite Ef. cbn [rbind]. absent Hl. cbn [orb]. rewrite (type_str _ _ Ht). cbn [is_null is_str]. rewrite !(bool_decide_eq_false_2 (bytes "array" = _)) by done. cbn [orb andb]. rewrite (bool_decide_eq_true_2 (bytes "array" = bytes "array")) by done. cbn [andb].
  assert (Ho : has_field "items" s || has_field "prefixItems" s = true) by (destruct Hi as [H | [_ H] ]; [by rewrite (has_some _ _ _ H) | by rewrite (has_some _ _ _ H), orb_true_r]). rewrite Ho.
  replace (match field "items" s with Some i => i | None => default Null (field "prefixItems" s) end) with (Arr l) by (destruct Hi as [-> | [-> ->] ]; done).
  eapply (evals_bind _ (fun fuel '(r, c) => Ok (_add_rule (rule_name_of name) (quoted "`[` space " ++ r ++ quoted " space `]`") c)) (_, c1)); [exact E1 | apply evals_const].
Qed.
Lemma visit_array s x L lo hi : format_ok s -> type_is "array" s -> lacks (earlier ++ ["const"; "enum"]%string) s -> field "items" s = Some x -> (match x with Arr _ => False | _ => True end) -> min_items s lo -> max_items s hi -> bounded lo hi ->
  visits x L -> visits s (bracketed "[" "]" (items_language lo hi L)).
Proof.
  intros Hf Ht Hl Hi Hx Hmin Hmax Hb Hs name c Hc Hn. destruct (format_get s Hf) as (f & Ef). destruct (visits_sub x L (name ++ dash name ++ bytes "item") c Hs Hc) as (n & c1 & E1 & Hc1 & Hg1 & Hr); [by rewrite app_assoc; apply fine_app; [apply dash_fine | apply fine_check] | by destruct name |].
  destruct (is_seq_items c1 Hc1 n L lo hi Hr Hb) as (M & w & HM & HML). eapply array_rule; [exact Hc1 | done | done | exact HM | exact HML |]. step_visit. rewrite Ef. cbn [rbind]. absent Hl. cbn [orb]. rewrite (type_str _ _ Ht). cbn [is_null is_str]. rewrite !(bool_decide_eq_false_2 (bytes "array" = _)) by done. cbn [orb andb]. rewrite (bool_decide_eq_true_2 (bytes "array" = bytes "array")) by done. rewrite (has_some _ _ _ Hi), Hi. cbn [orb andb].
  assert (G : evals (fun fuel => let! (item_rule_name, c) := visit dump fuel x (name ++ dash name ++ bytes "item") c in
            let! min_items := int_field "minItems" 0 s in
            let! max_items := match field "maxItems" s with Some (Int z) => get_int (Int z) | _ => Ok INT_MAX end in
            if repetition_overflows min_items max_items then Err (UB "signed overflow") else
            Ok (_add_rule (rule_name_of name) (quoted "`[` space " ++ build_repetition item_rule_name min_items max_items (quoted "`,` space") ++ quoted " space `]`") c)) (_add_rule (rule_name_of name) (quoted "`[` space " ++ build_repetition n (Z.of_nat lo) (max_items_of hi) (quoted "`,` space") ++ quoted " space `]`") c1)).
  { eapply (evals_bind _ (fun fuel '(r, c) => _) (n, c1)); [exact E1 |]. cbv beta iota. rewrite (min_items_get s lo Hmin) by apply Hb. cbn [rbind]. rewrite (max_items_get s lo hi Hmax Hb). cbn [rbind]. assert (Eo : repetition_overflows (Z.of_nat lo) (max_items_of hi) = false) by (unfold repetition_overflows; rewrite (proj2 (Z.eqb_neq (Z.of_nat lo) (- 2 ^ 31))), (proj2 (Z.eqb_neq (max_items_of hi) (- 2 ^ 31))) by (destruct hi; cbn [max_items_of]; unfold INT_MAX; lia); apply andb_false_r). rewrite Eo. apply evals_const. }
  destruct x; try done; exact G.
Qed.
(** *** Every schema of the fragment *)
Lemma visits_all : (forall s L, valid s L -> visits s L) /\ (forall l Ls, valid_list l Ls -> Forall2 visits l Ls) /\ (forall props ps, valid_props props ps -> Forall2 visits_prop props ps).
Proof.
  apply valid_mind; intros; [by eapply visit_const | by eapply visit_enum | by eapply visit_range | by eapply visit_simple | by eapply visit_any | by eapply visit_object | by eapply visit_array | by eapply visit_tuple | constructor | by constructor | constructor | by constructor].
Qed.
End Valid.

(** ** Whole grammars *)
(** no reference anywhere in the schema *)
Fixpoint no_refs (n : jvalue) : bool :=
  match n with
  | Arr l => forallb no_refs l
  | Obj l => match assoc (bytes "$ref") l with Some _ => false | None => forallb (fun e => no_refs e.2) l end
  | _ => true
  end.
Lemma no_refs_visit dump s : forall n c, no_refs n = true -> visit_refs dump s n c = Ok c.
Proof.
  fix IH 1. intros n c H. destruct n as [| b | z | q | t | l | l]; try reflexivity; cbn [visit_refs no_refs] in *.
  - revert c. induction l as [| x l IHl]; intros c; [reflexivity |]. cbn [forallb] in H. apply andb_prop in H as [Hx Hl]. rewrite (IH x c Hx). exact (IHl Hl c).
  - destruct (assoc _ l); [discriminate H |]. revert c. induction l as [| [k x] l IHl]; intros c; [reflexivity |]. cbn [forallb snd] in H. apply andb_prop in H as [Hx Hl]. rewrite (IH x c Hx). exact (IHl Hl c).
Qed.
Lemma new_converter_inv dotall : inv [] (new_converter dotall).
Proof.
  assert (Hs : forall n t, c_rules (new_converter dotall) !! n = Some t <-> n = bytes "space" /\ t = SPACE_RULE) by (intros n t; cbn [new_converter c_rules]; rewrite lookup_singleton_Some; naive_solver).
  split.
  - intros n t Hn. apply Hs in Hn as [-> ->]. split_and!; [split; [done | by apply fine_check] | by apply byte_string_check | done |]. exists (weight_alts space_alts), (fun rho => den_alts rho space_alts). apply is_alts_eat; [apply space_ok | done | set_solver | done].
  - by apply Hs.
  - intros n r Hn. left. cbn [new_converter c_rules]. apply lookup_singleton_ne. intros <-. by vm_compute in Hn.
  - done.
Qed.
Lemma schema_grammar dump s L : valid dump s L -> no_refs s = true ->
  exists c, evals (fun fuel => json_schema_to_grammar dump fuel s) (format_grammar c) /\ inv [] c /\ has_rule c (bytes "root") L.
Proof.
  intros Hv Hr. destruct (proj1 (visits_all dump) s L Hv [] (new_converter false) (new_converter_inv false)) as ([n c] & E & Hres); [constructor |]. pose proof (result_rule _ _ _ _ Hres) as Hn. destruct Hres as (Hc & _ & _ & _ & Hroot & _). cbn [fst snd] in *.
  rewrite Hroot in Hn by done. exists c. split_and!; [| done | done]. unfold json_schema_to_grammar, build_grammar, resolve_refs. rewrite no_refs_visit by done. cbn [rbind].
  eapply (evals_bind _ (fun fuel c => let! _ := check_errors c in Ok (format_grammar c)) c); [eapply (evals_bind _ (fun fuel '(_, c) => Ok c) (n, c)); [exact E | apply evals_const] |]. cbv beta. unfold check_errors. rewrite (inv_errors _ _ Hc). apply evals_const.
Qed.

(** *** A schema *)
Definition sample_dump (v : jvalue) : res (list Z) :=
  match v with Null => Ok (bytes "null") | Bool b => Ok (bytes (if b then "true" else "false")) | Int z => Ok (to_string z) | Str s => Ok (quote :: s ++ [quote]) | _ => throw! "not a constant" end.
Definition sample_object (l : list (string * jvalue)) : jvalue := Obj (map (fun e => (bytes e.1, e.2)) l).
Definition sample_str (s : string) : jvalue := Str (bytes s).
Definition sample_schema : jvalue :=
  sample_object [("type", sample_str "object");
    ("properties", sample_object [("name", sample_object [("type", sample_str "string")]);
      ("age", sample_object [("type", sample_str "integer"); ("minimum", Int 0); ("maximum", Int 120)]);
      ("tags", sample_object [("type", sample_str "array"); ("items", sample_object [("enum", Arr [sample_str "a"; Int 7; Null])]); ("minItems", Int 1); ("maxItems", Int 3)]);
      ("any", sample_object [("anyOf", Arr [sample_object [("const", Bool true)]; sample_object [("type", sample_str "number")]; sample_object [("type", sample_str "array"); ("prefixItems", Arr [sample_object [("type", sample_str "null")] ])] ])])]);
    ("required", Arr [sample_str "age"; sample_str "name"]); ("additionalProperties", Bool false)]%string.
Definition sample_language : language :=
  object_language {[bytes "age"; bytes "name"]}
    [(bytes "name", quoted "`name`", string_language); (bytes "age", quoted "`age`", range_language 0 120);
     (bytes "tags", quoted "`tags`", bracketed "[" "]" (items_language 1 (Some 3%nat) (alts (map lit [quoted "`a`"; bytes "7"; bytes "null"]))));
     (bytes "any", quoted "`any`", alts [lit (bytes "true"); number_language; bracketed "[" "]" (joined [null_language])])].
Lemma scalar_check cps : forallb (fun c => (0 <? c) && (c <? 128)) cps = true -> Forall scalar cps.
Proof. intros H. apply Forall_forall. intros c Hc. rewrite forallb_forall in H. apply list_elem_of_In in Hc. specialize (H c Hc). unfold scalar. lia. Qed.
Ltac sample_printed := split_and!; [vm_compute; reflexivity | apply scalar_check; vm_compute; reflexivity | by vm_compute].
Lemma sample_valid : valid sample_dump sample_schema sample_language.
Proof.
  assert (Hr : required_set sample_schema = {[bytes "age"; bytes "name"]}) by (vm_compute; reflexivity). unfold sample_language. rewrite <- Hr.
  eapply v_object; [done | by left | repeat constructor | reflexivity | by right | apply Nat.leb_le; vm_compute; reflexivity | apply (bool_decide_unpack _); vm_compute; exact I |].
  repeat apply vp_cons; [split; [done | by apply fine_check] | sample_printed | | split; [done | by apply fine_check] | sample_printed | | split; [done | by apply fine_check] | sample_printed | | split; [done | by apply fine_check] | sample_printed | | constructor].
  - apply (v_simple _ _ "string"); [set_solver | done | repeat constructor].
  - apply v_range; [done | done | repeat constructor | done | done | unfold INT64_MAX; lia | unfold INT64_MAX; lia].
  - eapply v_array; [done | done | repeat constructor | reflexivity | done | by cbn | by cbn | unfold bounded; cbn; lia |]. eapply v_enum; [done | done | repeat constructor | reflexivity | done |]. constructor; [sample_printed |]. constructor; [sample_printed |]. constructor; [sample_printed | constructor].
  - eapply v_any; [done | done | by right | done |]. repeat apply vl_cons; [| | | constructor].
    + apply (v_const _ _ (Bool true)); [done | done | repeat constructor | reflexivity | sample_printed].
    + apply (v_simple _ _ "number"); [set_solver | done | repeat constructor].
    + eapply v_tuple; [done | done | repeat constructor | by right |]. apply vl_cons; [| constructor]. apply (v_simple _ _ "null"); [set_solver | done | repeat constructor].
Qed.

(** ** Where the conversion deviates *)
Definition at_least (z : Z) : jvalue := sample_object [("type", sample_str "integer"); ("minimum", Int z)]%string.
Definition digits_between (lo : nat) (hi : nat) : gx := GRep (C' digit_cls) lo (Some hi).
Definition range_rules (l : list (list gx)) : list gbnf_rule := [mkGbnf (bytes "root") [ [GGroup l] ]; mkGbnf (bytes "space") space_alts].
Definition text_of (s : jvalue) : list Z := match json_schema_to_grammar sample_dump 1 s with Ok t => t | Err _ => [] end.
Lemma range_rules_mean s l : eat_grammar (range_rules l) (text_of s) = Some [] -> forallb (fun c => (0 <=? c) && (c <? 256)) (text_of s) = true -> mentioned (range_rules l) = [] -> modest_rules (range_rules l) = true -> Zlen (text_of s) < 2 ^ 21 ->
  exists p i rule, parse None (text_of s) = Ok (Some p) /\ symbol_ids p !! bytes "root" = Some i /\ vlookup (rules p) i = Some rule /\ forall w, gen_rule (rules p) rule w <-> den_alts (rho p) [ [GGroup l] ] w.
Proof.
  intros He Hb Hm Hr Hlen. destruct (grammar_text_parses None (range_rules l) (text_of s)) as (p & Ep & Hp); [by apply eat_grammar_sound | by apply byte_string_check | apply (bool_decide_unpack _); vm_compute; exact I | rewrite Hm; set_solver | done | done |].
  inversion Hp as [| ? ? (i & rule & Hi & Hru & Hg) _]; subst. exists p, i, rule. by split_and!.
Qed.
Lemma den_class rho rs s w : den_seq rho (C' rs :: s) w <-> exists c v, w = c :: v /\ in_ranges rs c /\ den_seq rho s v.
Proof. split; [intros (u & v & -> & (c & -> & Hc) & Hv); by exists c, v | intros (c & v & -> & Hc & Hv); exists [c], v; split_and!; [done | by exists c | done] ]. Qed.
Lemma den_group rho l w : den_seq rho [GGroup l] w <-> Exists (fun s => den_seq rho s w) l.
Proof. change (den_seq rho [GGroup l] w) with (cat (den_alts rho l) eps w). etransitivity; [apply cat_nil_r |]. unfold den_alts, alts. by rewrite List.Exists_map. Qed.
Lemma den_root rho l w : den_alts rho [ [GGroup l] ] w <-> Exists (fun s => den_seq rho s w) l.
Proof. unfold den_alts, alts. cbn [map]. rewrite Exists_cons, Exists_nil, den_group. naive_solver. Qed.
Lemma one_range lo hi c : in_ranges [(lo, hi)] c <-> lo <= c <= hi.
Proof. unfold in_ranges. rewrite Exists_cons, Exists_nil. simpl. naive_solver. Qed.
(** A minimum without a maximum is not the minimum that is asked for when a later digit is zero:
    the grammar for integers of at least 1005 accepts 15, and the one for integers of at least 210
    rejects 2099. *)
Theorem open_range_inexact :
  (exists p i rule, parse None (text_of (at_least 1005)) = Ok (Some p) /\ symbol_ids p !! bytes "root" = Some i /\ vlookup (rules p) i = Some rule /\ gen_rule (rules p) rule (bytes "15")) /\
  (exists p i rule, parse None (text_of (at_least 210)) = Ok (Some p) /\ symbol_ids p !! bytes "root" = Some i /\ vlookup (rules p) i = Some rule /\ ~ gen_rule (rules p) rule (bytes "2099")).
Proof.
  split.
  - destruct (range_rules_mean (at_least 1005) [ [C' [(49, 49)]; GGroup [ [C' [(48, 52)]; digits_between 1 14]; [C' [(53, 57)]; digits_between 0 14] ] ]; [C' [(50, 57)]; digits_between 3 15] ]) as (p & i & rule & Ep & Hi & Hr & Hg); [by vm_compute | by vm_compute | done | done | by vm_compute |].
    exists p, i, rule. split_and!; [done | done | done |]. apply Hg, den_root. apply Exists_cons_hd, den_class. exists 49, [53]. split; [reflexivity |]. split; [apply one_range; lia |]. apply den_group. apply Exists_cons_tl, Exists_cons_hd, den_class. exists 53, []. split; [reflexivity |]. split; [apply one_range; lia |].
    apply cat_nil_r. exists 0%nat. split; [lia |]. split; [lia | reflexivity].
  - destruct (range_rules_mean (at_least 210) [ [C' [(49, 49)]; digits_between 3 15]; [C' [(50, 50)]; GGroup [ [C' [(49, 49)]; GGroup [ [digits_between 1 14] ] ]; [C' [(50, 57)]; digits_between 1 14] ] ]; [C' [(51, 57)]; digits_between 2 15] ]) as (p & i & rule & Ep & Hi & Hr & Hg); [by vm_compute | by vm_compute | done | done | by vm_compute |].
    exists p, i, rule. split_and!; [done | done | done |]. intros Hw. apply Hg, den_root in Hw. change (bytes "2099") with [50; 48; 57; 57] in Hw. apply Exists_cons in Hw as [Hw | Hw]; [| apply Exists_cons in Hw as [Hw | Hw]; [| apply Exists_cons in Hw as [Hw | Hw]; [| by apply Exists_nil in Hw] ] ].
    1, 3: apply den_class in Hw as (c & v & [= <- <-] & Hc & _); apply one_range in Hc; lia.
    apply den_class in Hw as (c & v & [= <- <-] & _ & Hw). apply den_group in Hw. apply Exists_cons in Hw as [Hw | Hw]; [| apply Exists_cons in Hw as [Hw | Hw]; [| by apply Exists_nil in Hw] ].
    all: apply den_class in Hw as (c & v & [= <- <-] & Hc & _); apply one_range in Hc; lia.
Qed.

(** ** What a conversion never takes back *)
(** more rules and more errors: no rule is changed and no error is lost *)
Definition wider (c c' : common_schema_converter) : Prop := c_rules c ⊆ c_rules c' /\ c_errors c `prefix_of` c_errors c'.
#[export] Instance wider_preorder : PreOrder wider.
Proof. split; [by intros c | intros c1 c2 c3 [H1 H2] [H3 H4]; split; by etransitivity]. Qed.
(** a computation whose resulting converter is wider *)
Definition widens {A} (c : common_schema_converter) (m : res (A * common_schema_converter)) : Prop := forall a c', m = Ok (a, c') -> wider c c'.
Lemma widens_ok {A} c (a : A) c' : wider c c' -> widens c (Ok (a, c')).
Proof. by intros H ? ? [= <- <-]. Qed.
Lemma widens_err {A} c e : widens (A := A) c (Err e).
Proof. by intros a c'. Qed.
Lemma widens_bind {A B} c (m : res (A * common_schema_converter)) (k : A * common_schema_converter -> res (B * common_schema_converter)) :
  widens c m -> (forall a c', wider c c' -> widens c' (k (a, c'))) -> widens c (rbind m k).
Proof. intros Hm Hk b c2 E. destruct m as [ [a c1] | e]; [| done]. specialize (Hm a c1 eq_refl). etransitivity; [exact Hm |]. by apply (Hk a c1 Hm b). Qed.
Lemma widens_pure {A B} c (m : res A) (k : A -> res (B * common_schema_converter)) : (forall a, widens c (k a)) -> widens c (let! a := m in k a).
Proof. intros Hk. destruct m as [a | e]; [apply Hk | apply widens_err]. Qed.
Lemma widens_from {A} c c' (m : res (A * common_schema_converter)) : wider c c' -> widens c' m -> widens c m.
Proof. intros H Hm a c2 E. etransitivity; [exact H | by eapply Hm]. Qed.
Lemma add_rule_wider name rule c : wider c (_add_rule name rule c).2.
Proof. pose proof (add_rule_key name rule c) as K. destruct (_add_rule name rule c) as [n c'] eqn:E. destruct K as (_ & _ & -> & K & _). by split. Qed.
Lemma add_rule_widens name rule c c' : wider c c' -> widens c (Ok (_add_rule name rule c')).
Proof. intros H. pose proof (add_rule_wider name rule c'). destruct (_add_rule name rule c') as [n c2]. apply widens_ok. by etransitivity. Qed.
Lemma push_error_wider e c : wider c (push_error e c).
Proof. split; [done |]. by apply prefix_app_r. Qed.
Lemma with_refs_wider r c : wider c (with_refs r c).
Proof. done. Qed.
Lemma with_resolving_wider r c : wider c (with_resolving r c).
Proof. done. Qed.
Lemma deps_wider add deps : (forall n r c, widens c (add n r c)) -> forall c c', deps_loop add deps c = Ok c' -> wider c c'.
Proof.
  intros Hadd. induction deps as [| d deps IH]; cbn [deps_loop]; intros c c' E; [by injection E as <-|]. destruct (builtin_rule d) as [r |]; [| etransitivity; [apply push_error_wider | by eapply IH] ].
  destruct (c_rules c !! d); [by eapply IH |]. destruct (add d r c) as [ [n c1] | e] eqn:Ea; [| done]. etransitivity; [by eapply Hadd | by eapply IH].
Qed.
Lemma add_primitive_widens fuel : forall name rule c, widens c (_add_primitive fuel name rule c).
Proof.
  induction fuel as [| fuel IH]; intros name rule c; cbn [_add_primitive]; [apply widens_err |]. pose proof (add_rule_wider name (br_content rule) c) as Hw. destruct (_add_rule name (br_content rule) c) as [n c1]. cbn [snd] in Hw.
  intros a c' E. destruct (deps_loop _ _ c1) as [c2 | e] eqn:Ed; [| done]. injection E as <- <-. etransitivity; [exact Hw |]. by eapply deps_wider.
Qed.
Lemma add_builtin_widens name b table c : widens c (add_builtin name b table c).
Proof. unfold add_builtin. destruct (find_rule _ _); [apply add_primitive_widens | apply widens_err]. Qed.
Create HintDb wide.
#[export] Hint Resolve add_builtin_widens add_primitive_widens widens_err push_error_wider with_refs_wider with_resolving_wider add_rule_wider : wide.
#[export] Hint Extern 1 (wider ?c ?c) => reflexivity : wide.
(** the steps of a conversion one after the other *)
Ltac widen := repeat (intros; first
  [ solve [eauto 3 with wide]
  | lazymatch goal with
    | |- widens _ (Ok (_add_rule _ _ _)) => apply add_rule_widens
    | |- widens _ (Ok _) => apply widens_ok
    | |- widens _ (let '(_, _) := _add_rule ?n ?r ?c in _) => eapply (widens_from _ _ _ (add_rule_wider n r c)); destruct (_add_rule n r c); cbn [snd]
    | |- widens _ (@rbind (_ * common_schema_converter) _ _ _) => apply widens_bind; [| intros ? ? ?; cbn [fst snd] ]
    | |- widens _ (rbind _ _) => apply widens_pure; intros ?; cbv beta
    end
  | case_match ]).
Lemma not_strings_widens strings c : widens c (_not_strings strings c).
Proof. unfold _not_strings. widen. Qed.
Lemma sub_rule_wider name sub ps : wider (ps_conv ps) (ps_conv (sub_rule_id name sub ps).2).
Proof.
  unfold sub_rule_id. destruct (default [] _) as [|]; [| done]. match goal with |- context [_add_rule ?n ?r ?c] => pose proof (add_rule_wider n r c) as H; destruct (_add_rule n r c) end. exact H.
Qed.
Lemma transform_wider fuel : forall name s seq ps r s' ps', transform fuel name s seq ps = inl (r, s', ps') -> wider (ps_conv ps) (ps_conv ps').
Proof.
  induction fuel as [| fuel IH]; intros name s seq ps r s' ps' E; [done |]. cbn [transform] in E. destruct s as [| c s0]; [by injection E as <- <- <- |]. destruct (c =? ch ".").
  { unfold get_dot in E. match type of E with context [_add_rule ?n ?r ?c] => pose proof (add_rule_wider n r c) as H; destruct (_add_rule n r c) end. etransitivity; [exact H | by apply IH in E]. }
  destruct (c =? ch "(").
  { destruct (match s0 with [] => _ | _ => _ end) as [s2 |]; [| done]. destruct (_ <? _); [done |]. destruct (transform fuel name s2 [] _) as [ [ [g s3] ps2] |] eqn:E2; [| done]. apply IH in E2, E. by etransitivity. }
  destruct (c =? ch ")"); [destruct (_ =? 0); [done |]; by injection E as <- <- <- |]. destruct (_ || _); [done |]. destruct (c =? ch "["); [destruct (class_chars _ _ _) as [ [cl s2] |]; [by eapply IH | done] |]. destruct (c =? ch "|"); [by eapply IH |].
  destruct (_ || _ || _); [destruct (last seq); [by eapply IH | done] |]. destruct (c =? ch "{").
  { destruct (curly_chars s0 []) as [ [inside s2] |]; [| done]. destruct (curly_bounds inside) as [ [mi ma] |]; [| done]. destruct (last seq) as [l |]; [| done]. destruct l.2; [by eapply IH |]. pose proof (sub_rule_wider name l.1 ps) as H. destruct (sub_rule_id name l.1 ps) as [sub ps2]. etransitivity; [exact H | by eapply IH]. }
  destruct (literal_chars _ _ _) as [ [ [| x literal] s2] |]; [done | by eapply IH | done].
Qed.
Lemma visit_pattern_widens pattern name c : widens c (_visit_pattern pattern name c).
Proof.
  unfold _visit_pattern. destruct (_pattern_to_rule pattern name true c) as [ [n c1] | [what | what |] ] eqn:E.
  - apply widens_ok. unfold _pattern_to_rule in E. destruct (_ || _); [done |]. destruct (transform _ _ _ _ _) as [ [ [r s'] ps] |] eqn:Et; [| done]. destruct (negb _); [done |]. apply (inj inl) in E. apply transform_wider in Et. etransitivity; [exact Et |]. match type of E with _add_rule ?n ?t ?c = _ => pose proof (add_rule_wider n t c) as Hw end. by rewrite E in Hw.
  - apply (widens_from _ (push_warning (bytes "pattern " ++ pattern ++ bytes " is not supported (" ++ what ++ bytes "), accepting any string") c)); [done |]. widen.
  - apply widens_ok, push_error_wider.
  - apply widens_err.
Qed.
Lemma ref_at_wider ref c : wider c (ref_at ref c).2.
Proof. unfold ref_at. by destruct (c_refs c !! ref). Qed.
Lemma recursive_refs_wider name kv ks : forall first c, wider c (get_recursive_refs name kv ks first c).2.
Proof.
  induction ks as [| k ks IH]; intros first c; cbn [get_recursive_refs]; [done |]. destruct ks as [| k2 ks]; [done |]. specialize (IH true c). destruct (get_recursive_refs name kv (k2 :: ks) true c) as [rest c1]. etransitivity; [exact IH |].
  match goal with |- context [_add_rule ?n ?r ?c] => pose proof (add_rule_wider n r c) as H; destruct (_add_rule n r c) end. exact H.
Qed.
Lemma optional_wider name kv ks : forall first c, wider c (optional_loop first name kv ks c).2.
Proof.
  induction ks as [| k ks IH]; intros first c; cbn [optional_loop]; [done |]. pose proof (recursive_refs_wider name kv (k :: ks) false c) as H. destruct (get_recursive_refs name kv (k :: ks) false c) as [r c1]. specialize (IH false c1). destruct (optional_loop false name kv ks c1) as [rs c2]. by etransitivity.
Qed.
Section Widens.
Context (dump : jvalue -> res (list Z)) (visit : jvalue -> list Z -> common_schema_converter -> res (list Z * common_schema_converter)) (Hv : forall s n c, widens c (visit s n c)).
Lemma union_widens i name l c : widens c (union_loop visit i name l c).
Proof. revert i c. induction l as [| s l IH]; intros i c; cbn [union_loop]; widen. Qed.
Lemma tuple_widens first i name l c : widens c (tuple_loop visit first i name l c).
Proof. revert first i c. induction l as [| s l IH]; intros first i c; cbn [tuple_loop]; widen. Qed.
Lemma props_widens name props kv c : widens c (props_loop dump visit name props kv c).
Proof. revert kv c. induction props as [| [k s] props IH]; intros kv c; cbn [props_loop]; widen. Qed.
Lemma resolve_ref_widens ref c : widens c (_resolve_ref visit ref c).
Proof.
  unfold _resolve_ref. destruct (_ || _); [widen |]. set (c0 := with_resolving _ c). apply (widens_from _ c0); [done |]. pose proof (ref_at_wider ref c0) as H. destruct (ref_at ref c0) as [v c1]. apply (widens_from _ c1); [done |]. widen.
Qed.
Lemma additional_widens name ks a kv c : widens c (additional_rules visit name ks a kv c).
Proof. pose proof not_strings_widens. unfold additional_rules. widen. Qed.
Lemma object_widens props required name a c : widens c (_build_object_rule dump visit props required name a c).
Proof.
  pose proof props_widens. pose proof additional_widens. unfold _build_object_rule. apply widens_bind; [done | intros kv c1 _].
  match goal with |- widens _ (rbind ?m _) => assert (Hm : widens c1 m) by widen; destruct m as [ [ [kv2 ops] c2] | e]; [| apply widens_err] end. apply (widens_from _ c2); [by apply (Hm (kv2, ops)) |]. cbn [rbind].
  destruct (List.filter _ _) as [| r rs], ops as [| o os]; try (widen; fail); match goal with |- context [optional_loop ?a ?b ?k ?l ?c] => pose proof (optional_wider b k l a c) as Ho; destruct (optional_loop a b k l c) as [t c3] end; by apply widens_ok.
Qed.
End Widens.
Lemma component_widens dump fuel : forall s req co c, widens c (add_component dump fuel s req co c).
Proof.
  induction fuel as [| fuel IH]; intros s req co c; cbn [add_component]; [apply widens_err |]. destruct (field "$ref" s) as [r |]; [| widen]. apply widens_pure. intros ref. pose proof (ref_at_wider ref c) as H. destruct (ref_at ref c) as [v c1]. by apply (widens_from _ c1).
Qed.
Lemma any_widens dump fuel l : forall req co c, widens c (any_loop dump fuel l req co c).
Proof. pose proof (component_widens dump fuel). induction l as [| t l IH]; intros req co c; cbn [any_loop]; widen. Qed.
Lemma all_widens dump fuel l : forall co c, widens c (all_loop dump fuel l co c).
Proof. pose proof (component_widens dump fuel). pose proof (any_widens dump fuel). induction l as [| t l IH]; intros co c; cbn [all_loop]; widen. Qed.
Lemma visit_widens dump fuel : forall s name c, widens c (visit dump fuel s name c).
Proof.
  induction fuel as [| fuel IH]; intros s name c; cbn [visit]; [apply widens_err |].
  pose proof (union_widens _ IH). pose proof (tuple_widens _ IH). pose proof (resolve_ref_widens _ IH). pose proof (object_widens dump _ IH). pose proof (all_widens dump fuel). pose proof visit_pattern_widens.
  unfold _generate_union_rule. widen; reflexivity.
Qed.
(** C19: A conversion never takes back what it wrote.  Whatever the schema, with references, patterns, unions and
    [allOf] in it and invalid parts too, visiting it keeps every rule there is as it is, so that a name once given out goes on to stand
    for its rule, and keeps every error, so that an error anywhere inside a schema makes the conversion fail. *)
Theorem visit_keeps_rules (dump : jvalue -> res (list Z)) (fuel : nat) (s : jvalue) (name : list Z) (c : common_schema_converter) (n : list Z) (c' : common_schema_converter) :
  visit dump fuel s name c = Ok (n, c') -> (forall k r, c_rules c !! k = Some r -> c_rules c' !! k = Some r) /\ c_errors c `prefix_of` c_errors c' /\ (c_errors c <> [] -> check_errors c' = throw! "JSON schema conversion failed").
Proof.
  intros E. destruct (visit_widens dump fuel s name c n c' E) as [H1 H2]. split_and!; [intros k r Hk; by eapply lookup_weaken | done |]. intros Hne. unfold check_errors. destruct (c_errors c') as [| e es] eqn:Ee; [| done]. by apply prefix_nil_inv in H2.
Qed.
Definition sample_bad : jvalue := sample_object [("anyOf", Arr [sample_object [("type", sample_str "string"); ("pattern", sample_str "^(a$")]; sample_object [("type", sample_str "number")] ])]%string.
Definition sample_visit : res (list Z * common_schema_converter) := visit sample_dump 3 sample_bad (bytes "space") (push_error (bytes "earlier") (new_converter false)).
Lemma visit_keeps_rules_witness : exists n c', sample_visit = Ok (n, c') /\ length (c_errors c') = 2%nat /\ size (c_rules c') = 5%nat /\ check_errors c' = throw! "JSON schema conversion failed".
Proof.
  destruct sample_visit as [ [n c'] | e] eqn:E; [| by vm_compute in E]. exists n, c'.  split_and!; [reflexivity | | |].
  - vm_compute in E. injection E as <- <-. reflexivity.
  - vm_compute in E. injection E as <- <-. reflexivity.
  - apply (visit_keeps_rules sample_dump 3 sample_bad (bytes "space") (push_error (bytes "earlier") (new_converter false)) n c' E). done.
Defined.
