(* ===== verification/JinjaLexer.v ===== *)
(** * The template lexer (src/iian/chat/jinja/lexer.h and lexer.cpp)

    The source is a byte string; a position is an index into it.  Reading the byte at the end gives
    0, as operator[] of std::string does, and reading behind it is undefined.  The exceptions keep
    the fixed part of their message. *)

From S2P Require Import Prelude Text.

Inductive token_type :=
| t_eof | t_text | t_numeric_literal | t_string_literal | t_identifier | t_equals | t_open_paren | t_close_paren
| t_open_statement | t_close_statement | t_open_expression | t_close_expression | t_open_square_bracket | t_close_square_bracket
| t_open_curly_bracket | t_close_curly_bracket | t_comma | t_dot | t_colon | t_pipe | t_call_operator | t_additive_binary_operator
| t_multiplicative_binary_operator | t_comparison_binary_operator | t_unary_operator | t_comment.
#[global] Instance token_type_eq_dec : EqDecision token_type.
Proof. solve_decision. Defined.
Record token := mkToken { t_type : token_type; t_value : list Z; t_pos : nat }.
#[global] Instance token_eq_dec : EqDecision token.
Proof. solve_decision. Defined.

Definition is_digit (c : Z) : bool := (48 <=? c) && (c <=? 57).
Definition is_alpha (c : Z) : bool := ((97 <=? c) && (c <=? 122)) || ((65 <=? c) && (c <=? 90)).
Definition is_space (c : Z) : bool := (c =? 32) || ((9 <=? c) && (c <=? 13)).
Definition is_word (c : Z) : bool := is_alpha c || is_digit c || (c =? ch "_").
Definition is_integer (c : Z) : bool := is_digit c.

Definition escape_chars (c : Z) : option Z :=
  if c =? ch "n" then Some 10 else if c =? ch "t" then Some 9 else if c =? ch "r" then Some 13 else if c =? ch "b" then Some 8
  else if c =? ch "f" then Some 12 else if c =? ch "v" then Some 11
  else if (c =? ch "\") || (c =? ch "'") || (c =? quote) then Some c else None.
Definition ordered_mapping_table : list (list Z * token_type) :=
  [(bytes "{%-", t_open_statement); (bytes "-%}", t_close_statement); (bytes "{{-", t_open_expression); (bytes "-}}", t_close_expression);
   (bytes "{%", t_open_statement); (bytes "%}", t_close_statement); (bytes "{{", t_open_expression); (bytes "}}", t_close_expression);
   (bytes "(", t_open_paren); (bytes ")", t_close_paren); (bytes "{", t_open_curly_bracket); (bytes "}", t_close_curly_bracket);
   (bytes "[", t_open_square_bracket); (bytes "]", t_close_square_bracket); (bytes ",", t_comma); (bytes ".", t_dot); (bytes ":", t_colon);
   (bytes "|", t_pipe); (bytes "<=", t_comparison_binary_operator); (bytes ">=", t_comparison_binary_operator);
   (bytes "==", t_comparison_binary_operator); (bytes "!=", t_comparison_binary_operator); (bytes "<", t_comparison_binary_operator);
   (bytes ">", t_comparison_binary_operator); (bytes "+", t_additive_binary_operator); (bytes "-", t_additive_binary_operator);
   (bytes "~", t_additive_binary_operator); (bytes "*", t_multiplicative_binary_operator); (bytes "/", t_multiplicative_binary_operator);
   (bytes "%", t_multiplicative_binary_operator); (bytes "=", t_equals)].

(** string_lstrip and string_rstrip with the characters the lexer passes *)
Definition is_blank (c : Z) : bool := (c =? 32) || (c =? 9) || (c =? 13) || (c =? 10).
Fixpoint string_lstrip (s : list Z) : list Z :=
  match s with [] => [] | c :: s' => if is_blank c then string_lstrip s' else s end.
Definition string_rstrip (s : list Z) : list Z := rev (string_lstrip (rev s)).

(** \r\n and \r become \n; one trailing newline of the original source is dropped *)
Fixpoint drop_cr (s : list Z) : list Z :=
  match s with
  | 13 :: ((10 :: s'') as s') => 10 :: drop_cr s''
  | c :: s' => c :: drop_cr s'
  | [] => []
  end.
Definition normalize (source : list Z) : list Z :=
  let src := (fun c => if c =? 13 then 10 else c) <$> drop_cr source in
  if default 0 (last source) =? 10 then removelast src else src.

Section Lexer.
Context (src : list Z).
Notation size := (length src).

(** src[pos] *)
Definition at_ (pos : nat) : res Z :=
  if (pos <? size)%nat then Ok (default 0 (src !! pos)) else if (pos =? size)%nat then Ok 0 else Err (UB "string index out of range").
(** whether one of [chars] stands [n] behind [pos], within the source *)
Definition next_pos_is (pos : nat) (chars : list Z) (n : nat) : bool :=
  match src !! (pos + n)%nat with Some c => existsb (Z.eqb c) chars | None => false end.

Fixpoint consume_while (fuel : nat) (p : Z -> bool) (pos : nat) (str : list Z) : res (list Z * nat) :=
  match fuel with
  | O => Err Fuel
  | S fuel =>
      let! c := at_ pos in
      if negb (p c) then Ok (str, pos)
      else if c =? ch "\" then
        let pos := S pos in
        if (size <=? pos)%nat then throw! "unexpected end of input after escape character" else
        let! escaped_char := at_ pos in
        match escape_chars escaped_char with
        | None => throw! "unknown escape character"
        | Some u => consume_while fuel p (S pos) (str ++ [u])
        end
      else
        let pos := S pos in
        if (size <? pos)%nat then throw! "unexpected end of input during consume_while" else consume_while fuel p pos (str ++ [c])
  end.
Definition consume (p : Z -> bool) (pos : nat) : res (list Z * nat) := consume_while (S (S (size - pos))) p pos [].
Definition consume_numeric (pos : nat) : res (list Z * nat) :=
  let! (num, pos) := consume is_integer pos in
  if next_pos_is pos [ch "."] 0 && match src !! S pos with Some c => is_integer c | None => false end then
    let! (frac, pos) := consume is_integer (S pos) in Ok (num ++ [ch "."] ++ frac, pos)
  else Ok (num, pos).

(** ** Text between blocks *)
(** the position of the next statement, expression or comment, or the end *)
Fixpoint text_end (n : nat) (pos : nat) : nat :=
  match n with
  | O => pos
  | S n => if next_pos_is pos [ch "{"] 0 && next_pos_is pos [ch "%"; ch "{"; ch "#"] 1 then pos else text_end n (S pos)
  end.
(** the end of the text once the blanks before a block at the start of its line are cut *)
Fixpoint lstrip_loop (n : nat) (start current end_ : nat) : nat :=
  match n with
  | O => end_
  | S n =>
      if (current <=? start)%nat then end_ else
      let c := default 0 (src !! Nat.pred current) in
      if (current =? 1)%nat then 0%nat
      else if c =? newline then current
      else if negb (is_space c) then end_
      else lstrip_loop n start (Nat.pred current) end_
  end.
(** the text from [start] on, trimmed, and the position behind it *)
Definition consume_text (start : nat) : list Z * nat :=
  let back (k : nat) := default 0 (src !! (start - k)%nat) in
  let c0 := back 3%nat in let c1 := back 2%nat in let c2 := back 1%nat in
  let far := (3 <? start)%nat in
  let is_rstrip_block := far && (c0 =? ch "-") && ((c1 =? ch "%") || (c1 =? ch "}") || (c1 =? ch "#")) && (c2 =? ch "}") in
  let last_block_can_rm_newline := far && ((c1 =? ch "#") || (c1 =? ch "%") || (c1 =? ch "-")) && (c2 =? ch "}") in
  let pos := text_end (size - start) start in
  let here := next_pos_is pos [ch "{"] 0 in
  let end_ := if here && next_pos_is pos [ch "%"; ch "#"; ch "-"] 1 then lstrip_loop (S pos) start pos pos else pos in
  let text := take (end_ - start) (drop start src) in
  let text := if last_block_can_rm_newline then match text with c :: t => if c =? newline then t else text | [] => [] end else text in
  let text := if is_rstrip_block then string_lstrip text else text in
  let is_lstrip_block := here && next_pos_is pos [ch "{"; ch "%"; ch "#"] 1 && next_pos_is pos [ch "-"] 2 in
  let text := if is_lstrip_block then string_rstrip text else text in
  (text, pos).

(** ** Comments, operators and words *)
Fixpoint comment_loop (n : nat) (pos : nat) (comment : list Z) : res (list Z * nat) :=
  match n with
  | O => Err Fuel
  | S n =>
      if next_pos_is pos [ch "#"] 0 && next_pos_is pos [ch "}"] 1 then Ok (comment, pos)
      else if (size <=? pos + 2)%nat then throw! "missing end of comment tag"
      else let! c := at_ pos in comment_loop n (S pos) (comment ++ [c])
  end.
(** the first entry of the table that stands at [pos] *)
Fixpoint match_table (tab : list (list Z * token_type)) (depth : Z) (pos : nat) : option (list Z * token_type) :=
  match tab with
  | [] => None
  | (seq, typ) :: tab =>
      if bool_decide (seq = bytes "}}") && (0 <? depth) then match_table tab depth pos
      else if bool_decide (take (length seq) (drop pos src) = seq) then Some (seq, typ)
      else match_table tab depth pos
  end.
Definition new_depth (typ : token_type) (depth : Z) : Z :=
  match typ with
  | t_open_expression => 0
  | t_open_curly_bracket => u64 (depth + 1)
  | t_close_curly_bracket => u64 (depth - 1)
  | _ => depth
  end.
Record LexState := mkLex { tokens : list token; pos : nat; curly_bracket_depth : Z }.
Definition last_type (dflt : token_type) (ts : list token) : token_type := from_option t_type dflt (last ts).
Definition in_text (t : token_type) : bool := match t with t_close_statement | t_close_expression | t_comment => true | _ => false end.
Definition ends_operand (t : token_type) : bool :=
  match t with t_identifier | t_numeric_literal | t_string_literal | t_close_paren | t_close_square_bracket => true | _ => false end.

(** a unary operator, with the number behind it if there is one; [None] when the sign is binary *)
Definition lex_unary (st : LexState) (p : nat) (c : Z) : res (option LexState) :=
  let t := last_type t_eof (tokens st) in
  if bool_decide (t = t_text \/ t = t_eof) then throw! "unexpected character"
  else if ends_operand t then Ok None
  else
    let! (num, p') := consume_numeric (S p) in
    Ok (Some (mkLex (tokens st ++ [mkToken (if bool_decide (num = []) then t_unary_operator else t_numeric_literal) (c :: num) p]) p' (curly_bracket_depth st))).
(** an operator of the table, a string, a number or an identifier *)
Definition lex_item (st : LexState) (p : nat) (c : Z) : res LexState :=
  match match_table ordered_mapping_table (curly_bracket_depth st) p with
  | Some (seq, typ) => Ok (mkLex (tokens st ++ [mkToken typ seq p]) (p + length seq) (new_depth typ (curly_bracket_depth st)))
  | None =>
      let push t s p' := mkLex (tokens st ++ [mkToken t s p]) p' (curly_bracket_depth st) in
      if (c =? ch "'") || (c =? quote) then
        let! (str, p') := consume (fun d => negb (d =? c)) (S p) in Ok (push t_string_literal str (S p'))
      else if is_integer c then let! (num, p') := consume_numeric p in Ok (push t_numeric_literal num p')
      else if is_word c then let! (word, p') := consume is_word p in Ok (push t_identifier word p')
      else throw! "unexpected character"
  end.
(** the part of an iteration behind the text: a comment, or a token inside a block; [inl] leaves the main loop *)
Definition lex_block (last : token_type) (st : LexState) (p : nat) : res (LexState + LexState) :=
  if next_pos_is p [ch "{"] 0 && next_pos_is p [ch "#"] 1 then
    let! (comment, p') := comment_loop (S size) (p + 2) [] in
    Ok (inr (mkLex (tokens st ++ [mkToken t_comment comment p]) (p' + 2) (curly_bracket_depth st)))
  else
    let! c := at_ p in
    let p := if (c =? ch "-") && bool_decide (last = t_open_expression \/ last = t_open_statement) then S p else p in
    if (size <=? p)%nat then Ok (inl st) else
    let! (_, p) := consume is_space p in
    if (size <=? p)%nat then Ok (inl st) else
    let! c := at_ p in
    let is_closing_block := (c =? ch "-") && next_pos_is p [ch "%"; ch "}"] 1 in
    let! unary := if negb is_closing_block && ((c =? ch "-") || (c =? ch "+")) then lex_unary st p c else Ok None in
    match unary with
    | Some st => Ok (inr st)
    | None => let! st := lex_item st p c in Ok (inr st)
    end.
(** one iteration of the main loop *)
Definition lex_step (st : LexState) : res (LexState + LexState) :=
  let start_pos := pos st in
  let last := last_type t_close_statement (tokens st) in
  if in_text last then
    let '(text, p) := consume_text start_pos in
    match text with
    | _ :: _ => Ok (inr (mkLex (tokens st ++ [mkToken t_text text start_pos]) p (curly_bracket_depth st)))
    | [] => lex_block last st p
    end
  else lex_block last st start_pos.
Fixpoint lex_loop (fuel : nat) (st : LexState) : res (list token) :=
  match fuel with
  | O => Err Fuel
  | S fuel =>
      if (size <=? pos st)%nat then Ok (tokens st) else
      let! r := lex_step st in
      match r with inl st => Ok (tokens st) | inr st => lex_loop fuel st end
  end.
End Lexer.

(** lexer::tokenize: the tokens and the normalised source *)
Definition tokenize (source : list Z) : res (list token * list Z) :=
  if bool_decide (source = []) then Ok ([], source) else
  let src := normalize source in
  let! ts := lex_loop src (S (length src)) (mkLex [] 0 0) in
  Ok (ts, src).
