(* ===== verification/JinjaLexerProps.v ===== *)
(** * The lexer ends on every source, stays within it and places its tokens in order *)

From S2P Require Import Prelude Text JinjaLexer.
From Stdlib Require Import Sorting.Sorted.

Section Facts.
Context (src : list Z).
Notation size := (length src).

Lemma at_ok p : (p <= size)%nat -> exists c, at_ src p = Ok c /\ (p = size -> c = 0).
Proof.
  intros H. unfold at_. destruct (p <? size)%nat eqn:E; [eexists; split; [done |]; intros ->; rewrite Nat.ltb_irrefl in E; done |].
  apply Nat.ltb_ge in E. replace p with size by lia. rewrite Nat.eqb_refl. by eexists.
Qed.
Lemma next_pos_is_lt p cs n : next_pos_is src p cs n = true -> (p + n < size)%nat.
Proof. unfold next_pos_is. destruct (src !! (p + n)%nat) eqn:E; [| done]. intros _. by apply lookup_lt_Some in E. Qed.
(** the characters consumed, and where the run stops *)
Lemma consume_while_safe fuel p pos str : (size - pos + 1 < fuel)%nat -> (pos <= size)%nat ->
  safe (fun '(_, pos') => (pos <= pos' <= size)%nat /\ (exists c, at_ src pos' = Ok c /\ p c = false)
    /\ (forall c, at_ src pos = Ok c -> p c = true -> (pos < pos')%nat)) (consume_while src fuel p pos str).
Proof.
  revert pos str. induction fuel as [| fuel IH]; intros pos str Hf Hp; [lia |]. cbn [consume_while].
  destruct (at_ok pos Hp) as (c & Ec & Hz). rewrite Ec. cbn [rbind]. destruct (p c) eqn:Epc; cbn [negb].
  2: { simpl. split_and!; [lia | lia | by exists c |]. intros c' Hc' Ht. congruence. }
  destruct (c =? ch "\").
  - destruct (size <=? S pos)%nat eqn:E1; [done |]. apply Nat.leb_gt in E1. destruct (at_ok (S pos) ltac:(lia)) as (d & -> & _). cbn [rbind].
    destruct (escape_chars d); [| done]. eapply safe_weaken; [apply IH; lia |]. intros [s p'] (H1 & H2 & _). split_and!; [lia | lia | done |]. intros. lia.
  - destruct (size <? S pos)%nat eqn:E1; [done |]. apply Nat.ltb_ge in E1. eapply safe_weaken; [apply IH; lia |].
    intros [s p'] (H1 & H2 & _). split_and!; [lia | lia | done |]. intros. lia.
Qed.
Lemma consume_safe p pos : (pos <= size)%nat ->
  safe (fun '(_, pos') => (pos <= pos' <= size)%nat /\ (exists c, at_ src pos' = Ok c /\ p c = false)
    /\ (forall c, at_ src pos = Ok c -> p c = true -> (pos < pos')%nat)) (consume src p pos).
Proof. intros H. apply consume_while_safe; lia. Qed.
Lemma consume_numeric_safe pos : (pos <= size)%nat ->
  safe (fun '(_, pos') => (pos <= pos' <= size)%nat /\ (forall c, at_ src pos = Ok c -> is_integer c = true -> (pos < pos')%nat)) (consume_numeric src pos).
Proof.
  intros H. unfold consume_numeric. eapply safe_bind; [by apply consume_safe |]. intros [num p1] (H1 & _ & H2). cbn beta iota in H1, H2.
  destruct (next_pos_is src p1 _ 0 && _) eqn:E; [| simpl; by split].
  apply andb_prop in E as [E1 E2]. destruct (src !! S p1) eqn:El; [| done]. apply lookup_lt_Some in El.
  eapply safe_bind; [apply consume_safe; lia |]. intros [frac p2] (H3 & _). simpl. split; [lia |]. intros c Hc Hi. specialize (H2 c Hc Hi). lia.
Qed.
Lemma comment_loop_safe n pos cm : (size - pos < n)%nat -> (pos <= size)%nat ->
  safe (fun '(_, pos') => (pos <= pos')%nat /\ (pos' + 2 <= size)%nat) (comment_loop src n pos cm).
Proof.
  revert pos cm. induction n as [| n IH]; intros pos cm Hn Hp; [lia |]. cbn [comment_loop].
  destruct (next_pos_is src pos _ 0 && _) eqn:E; [apply andb_prop in E as [_ E]; apply next_pos_is_lt in E; simpl; lia |].
  destruct (size <=? pos + 2)%nat eqn:E2; [done |]. apply Nat.leb_gt in E2. destruct (at_ok pos Hp) as (c & -> & _). cbn [rbind].
  eapply safe_weaken; [apply IH; lia |]. intros [s p'] ?. lia.
Qed.
Lemma text_end_range n p : (p + n = size)%nat -> (p <= text_end src n p <= size)%nat.
Proof.
  revert p. induction n as [| n IH]; intros p H; simpl; [lia |]. destruct (_ && _); [lia |]. specialize (IH (S p) ltac:(lia)). lia.
Qed.
Lemma consume_text_range start text p : (start <= size)%nat -> consume_text src start = (text, p) -> (start <= p <= size)%nat /\ (text <> [] -> (start < p)%nat).
Proof.
  intros Hs H. unfold consume_text in H. set (q := text_end src (size - start) start) in *. pose proof (text_end_range (size - start) start ltac:(lia)) as Hq. fold q in Hq.
  injection H as Ht ->. split; [done |]. intros Hne. destruct (decide (start < p)%nat); [done |]. exfalso. apply Hne. assert (p = start) as He by lia.
  assert (Hend : forall b : bool, ((if b then lstrip_loop src (S p) start p p else p) - start = 0)%nat).
  { intros b. destruct b; [| lia]. cbn [lstrip_loop]. rewrite (proj2 (Nat.leb_le p start)) by lia. lia. }
  rewrite Hend in Ht. cbn [take] in Ht. rewrite <- Ht. by repeat case_match.
Qed.

(** an operator token stands in the source at its position *)
Definition operator_type (t : token_type) : bool := match t with t_text | t_comment | t_string_literal | t_numeric_literal | t_identifier | t_unary_operator => false | _ => true end.
Definition token_ok (t : token) : Prop :=
  (t_pos t < size)%nat /\ (operator_type (t_type t) = true -> t_value t <> [] /\ take (length (t_value t)) (drop (t_pos t) src) = t_value t).
Lemma match_table_spec tab depth p seq typ : Forall (fun e => e.1 <> []) tab -> match_table src tab depth p = Some (seq, typ) ->
  seq <> [] /\ take (length seq) (drop p src) = seq /\ (p + length seq <= size)%nat.
Proof.
  induction 1 as [| [s t] tab Hne _ IH]; [done |]. cbn [match_table]. destruct (_ && _); [done |]. case_bool_decide as Et; [| done].
  intros [= <- <-]. split_and!; [done | done |]. assert (Hl : length (take (length s) (drop p src)) = length s) by (by rewrite Et).
  rewrite length_take, length_drop in Hl. simpl in Hne. assert (length s <> 0%nat) by (by destruct s). lia.
Qed.
(** an iteration adds one token at or behind the position it started from, and moves on *)
Definition adds (p0 : nat) (st st' : LexState) : Prop :=
  exists t, tokens st' = tokens st ++ [t] /\ token_ok t /\ (p0 <= t_pos t)%nat /\ (t_pos t < pos st' <= size)%nat.
Lemma table_nonempty : Forall (fun e : list Z * token_type => e.1 <> []) ordered_mapping_table.
Proof. repeat constructor; discriminate. Qed.
Lemma lex_item_safe st p c : (p < size)%nat -> at_ src p = Ok c -> safe (adds p st) (lex_item src st p c).
Proof.
  intros Hp Hc. unfold lex_item. destruct (match_table src ordered_mapping_table _ p) as [[seq typ] |] eqn:Em.
  - destruct (match_table_spec _ _ _ _ _ table_nonempty Em) as (H1 & H2 & H3). assert (length seq <> 0%nat) by (by destruct seq).
    simpl. eexists. split; [done |]. simpl. split_and!; [split; simpl; [lia | done] | lia | lia | lia].
  - destruct ((c =? ch "'") || (c =? quote)) eqn:Eq.
    + eapply safe_bind; [apply (consume_safe (fun d => negb (d =? c))); lia |]. intros [s p'] (H1 & (d & Hd & Hdc) & _). simpl.
      assert (p' <> size) as Hp'.
      { intros ->. destruct (at_ok size ltac:(lia)) as (z & Hz & Hz0). rewrite Hd in Hz. injection Hz as <-. rewrite Hz0 in Hdc by done.
        apply negb_false_iff in Hdc. change (ch "'") with 39 in Eq. change quote with 34 in Eq. lia. }
      eexists. split; [done |]. simpl. split_and!; [by split; simpl; [lia |] | lia | lia | lia].
    + destruct (is_integer c) eqn:Ei.
      * eapply safe_bind; [apply consume_numeric_safe; lia |]. intros [s p'] (H1 & H2). specialize (H2 c Hc Ei). simpl.
        eexists. split; [done |]. simpl. split_and!; [by split; simpl; [lia |] | lia | lia | lia].
      * destruct (is_word c) eqn:Ew; [| done]. eapply safe_bind; [apply consume_safe; lia |]. intros [s p'] (H1 & _ & H2). specialize (H2 c Hc Ew). simpl.
        eexists. split; [done |]. simpl. split_and!; [by split; simpl; [lia |] | lia | lia | lia].
Qed.
Lemma lex_unary_safe st p c : (p < size)%nat -> safe (fun o => match o with Some st' => adds p st st' | None => True end) (lex_unary src st p c).
Proof.
  intros Hp. unfold lex_unary. case_bool_decide; [done |]. destruct (ends_operand _); [done |].
  eapply safe_bind; [apply consume_numeric_safe; lia |]. intros [num p'] (H1 & _). simpl. eexists. split; [done |]. simpl.
  split_and!; [split; simpl; [lia |]; by case_bool_decide | lia | lia | lia].
Qed.
Lemma lex_block_safe last st p : (p <= size)%nat ->
  safe (fun r => match r with inl st' => tokens st' = tokens st | inr st' => adds p st st' end) (lex_block src last st p).
Proof.
  intros Hp. unfold lex_block. destruct (next_pos_is src p _ 0 && _) eqn:E.
  - apply andb_prop in E as [_ E]. apply next_pos_is_lt in E. eapply safe_bind; [apply comment_loop_safe; lia |]. intros [cm p'] (H1 & H2). simpl.
    eexists. split; [done |]. simpl. split_and!; [by split; simpl; [lia |] | lia | lia | lia].
  - destruct (at_ok p Hp) as (c & Ec & Hz). rewrite Ec. cbn [rbind]. set (p1 := if _ && _ then S p else p).
    assert (Hp1 : (p <= p1)%nat /\ (p1 <= size)%nat).
    { subst p1. destruct ((c =? ch "-") && _) eqn:E2; [| lia]. apply andb_prop in E2 as [E2 _]. change (ch "-") with 45 in E2.
      destruct (decide (p = size)) as [He | ?]; [rewrite Hz in E2 by done; lia | lia]. }
    destruct (size <=? p1)%nat eqn:E1; [done |]. apply Nat.leb_gt in E1. eapply safe_bind; [apply consume_safe; lia |]. intros [w p2] (H2 & _).
    destruct (size <=? p2)%nat eqn:E3; [done |]. apply Nat.leb_gt in E3. destruct (at_ok p2 ltac:(lia)) as (d & Ed & _). rewrite Ed. cbn [rbind].
    assert (Hadd : forall st', adds p2 st st' -> adds p st st') by (intros st' (t & ? & ? & ? & ?); exists t; split_and!; [done | done | lia | lia | lia]).
    eapply (safe_bind (fun o => match o with Some st' => adds p2 st st' | None => True end)).
    + case_match; [by apply lex_unary_safe | done].
    + intros [st' |] Ho; [by apply Hadd |]. eapply safe_bind; [by apply lex_item_safe |]. intros st' Hst. by apply Hadd.
Qed.
Lemma lex_step_safe st : (pos st <= size)%nat ->
  safe (fun r => match r with inl st' => tokens st' = tokens st | inr st' => adds (pos st) st st' end) (lex_step src st).
Proof.
  intros Hp. unfold lex_step. destruct (in_text _); [| by apply lex_block_safe].
  destruct (consume_text src (pos st)) as [text p] eqn:Et. destruct (consume_text_range _ _ _ Hp Et) as [H1 H2]. destruct text as [| c text].
  - eapply safe_weaken; [apply lex_block_safe; lia |]. intros [st' | st']; [done |]. intros (t & ? & ? & ? & ?). exists t. split_and!; [done | done | lia | lia | lia].
  - specialize (H2 ltac:(done)). simpl. eexists. split; [done |]. simpl. split_and!; [by split; simpl; [lia |] | lia | lia | lia].
Qed.

(** the tokens so far: in order, all before the position *)
Definition lexed (ts : list token) : Prop := Forall token_ok ts /\ StronglySorted (fun a b => (t_pos a < t_pos b)%nat) ts.
Lemma sorted_snoc ts t : StronglySorted (fun a b => (t_pos a < t_pos b)%nat) ts -> Forall (fun a => (t_pos a < t_pos t)%nat) ts ->
  StronglySorted (fun a b => (t_pos a < t_pos b)%nat) (ts ++ [t]).
Proof.
  induction 1 as [| a ts H IH Ha]; intros Ht; simpl; [repeat constructor |]. apply Forall_cons in Ht as [Ht1 Ht2]. constructor; [by apply IH |].
  apply Forall_app. split; [done | by repeat constructor].
Qed.
Lemma lex_loop_safe fuel st : (size - pos st < fuel)%nat -> (pos st <= size)%nat -> lexed (tokens st) -> Forall (fun t => (t_pos t < pos st)%nat) (tokens st) ->
  safe lexed (lex_loop src fuel st).
Proof.
  revert st. induction fuel as [| fuel IH]; intros st Hf Hp [Ht Hs] Hb; [lia |]. cbn [lex_loop]. destruct (size <=? pos st)%nat eqn:E; [done |]. apply Nat.leb_gt in E.
  eapply safe_bind; [by apply lex_step_safe |]. intros [st' | st']; [by intros -> |]. intros (t & Et & Hok & H1 & H2). 
  assert (Hbt : Forall (fun a => (t_pos a < t_pos t)%nat) (tokens st)) by (eapply Forall_impl; [exact Hb |]; simpl; intros; lia).
  apply IH; [lia | lia | |].
  - split; rewrite Et; [apply Forall_app; split; [done | by apply Forall_singleton] | by apply sorted_snoc].
  - rewrite Et. apply Forall_app. split; [eapply Forall_impl; [exact Hbt |]; simpl; intros; lia | apply Forall_singleton; lia].
Qed.
End Facts.

(** C25: Lexing a template ends with tokens or an exception, never with a read outside the source.
    The tokens are in the order of the source, at strictly increasing positions inside it, and
    every operator token is the text found at its position. *)
Theorem tokenize_in_order (source : list Z) :
  match tokenize source with
  | Ok (ts, src) => Forall (token_ok src) ts /\ StronglySorted (fun a b => (t_pos a < t_pos b)%nat) ts
  | Err e => exists msg, e = Throw msg
  end.
Proof.
  unfold tokenize. case_bool_decide; [split; constructor |]. pose proof (lex_loop_safe (normalize source) (S (length (normalize source))) (mkLex [] 0 0)) as Hl.
  cbn [pos tokens] in Hl. specialize (Hl ltac:(lia) ltac:(lia) ltac:(split; constructor) ltac:(constructor)).
  destruct (lex_loop _ _ _) as [ts | [msg | |] ]; simpl in *; [exact Hl | by exists msg | done | done].
Qed.

(** The blank-stripping before a block drops the first character of a template.  When the text
    before the first block is one character followed only by blanks, the loop that looks for the
    start of the line stops at index 1 without looking at the character: the template
    a{% if x %} yields the tokens of the block alone, and the text is lost. *)
Theorem first_character_lost :
  exists ts, tokenize (bytes "a{% if x %}") = Ok (ts, bytes "a{% if x %}")
    /\ t_type <$> ts = [t_open_statement; t_identifier; t_identifier; t_close_statement].
Proof. eexists. split; [vm_compute; reflexivity |]. vm_compute. reflexivity. Qed.
