(* ===== verification/JinjaParser.v ===== *)
(** * The template parser (src/iian/chat/jinja/parser.cpp, the nodes of runtime.h)

    A recursive-descent parser over the tokens of the lexer.  The parser's state is the index of the
    current token; a parsing function takes it and returns a node and the index behind it.  The
    mutual recursion of the methods goes through parse_expression and parse_any: the definitions
    take the function to call for a nested expression or statement as an argument, and
    [parse_expression] and [parse_any] tie the knots with fuel.  std::stod is a parameter, [None]
    where it throws; the asserts of the node constructors are compiled out of a release build.  The
    exceptions keep the fixed part of their message. *)

From S2P Require Import Prelude Text JinjaLexer.

(** ** Nodes: the position of a token of the source, and the kind of node *)
Inductive statement (F : Type) := mkStmt (s_pos : nat) (s_node : node F)
with node (F : Type) :=
| comment_statement (val : list Z)
| string_literal (val : list Z)
| integer_literal (val : Z)
| float_literal (val : F)
| identifier (val : list Z)
| break_statement
| continue_statement
| noop_statement
| blank_expression
| set_statement (assignee : statement F) (val : option (statement F)) (body : list (statement F))
| if_statement (test : statement F) (body alternate : list (statement F))
| for_statement (loopvar iterable : statement F) (body default_block : list (statement F))
| macro_statement (name : statement F) (args body : list (statement F))
| call_statement (call : statement F) (caller_args body : list (statement F))
| filter_statement (filter : statement F) (body : list (statement F))
| binary_expression (op : token) (left right : statement F)
| unary_expression (op : token) (argument : statement F)
| ternary_expression (condition true_expr false_expr : statement F)
| select_expression (lhs test : statement F)
| test_expression (operand : statement F) (negate : bool) (test : statement F)
| filter_expression (operand filter : statement F)
| member_expression (object property : statement F) (computed : bool)
| call_expression (callee : statement F) (args : list (statement F))
| spread_expression (argument : statement F)
| keyword_argument_expression (key val : statement F)
| slice_expression (start_expr stop_expr step_expr : option (statement F))
| array_literal (val : list (statement F))
| tuple_literal (val : list (statement F))
| object_literal (val : list (statement F * statement F)).
Arguments mkStmt {F}.
Arguments comment_statement {F}.
Arguments string_literal {F}.
Arguments integer_literal {F}.
Arguments float_literal {F}.
Arguments identifier {F}.
Arguments break_statement {F}.
Arguments continue_statement {F}.
Arguments noop_statement {F}.
Arguments blank_expression {F}.
Arguments set_statement {F}.
Arguments if_statement {F}.
Arguments for_statement {F}.
Arguments macro_statement {F}.
Arguments call_statement {F}.
Arguments filter_statement {F}.
Arguments binary_expression {F}.
Arguments unary_expression {F}.
Arguments ternary_expression {F}.
Arguments select_expression {F}.
Arguments test_expression {F}.
Arguments filter_expression {F}.
Arguments member_expression {F}.
Arguments call_expression {F}.
Arguments spread_expression {F}.
Arguments keyword_argument_expression {F}.
Arguments slice_expression {F}.
Arguments array_literal {F}.
Arguments tuple_literal {F}.
Arguments object_literal {F}.

(** std::stoll: blanks, a sign, the decimal digits that follow; it throws without digits and out of the range of 64 bits *)
Fixpoint skip_spaces (s : list Z) : list Z :=
  match s with c :: s' => if is_space c then skip_spaces s' else s | [] => [] end.
Fixpoint take_digits (s : list Z) : list Z :=
  match s with c :: s' => if is_digit c then c :: take_digits s' else [] | [] => [] end.
Definition stoll (s : list Z) : res Z :=
  let s := skip_spaces s in
  let '(neg, s) := match s with
                   | c :: s' => if c =? ch "-" then (true, s') else if c =? ch "+" then (false, s') else (false, s)
                   | [] => (false, []) end in
  let ds := take_digits s in
  if bool_decide (ds = []) then throw! "stoll" else
  let v := foldl (fun v c => v * 10 + (c - 48)) 0 ds in
  let v := if neg : bool then - v else v in
  if (- 2 ^ 63 <=? v) && (v <? 2 ^ 63) then Ok v else throw! "stoll".

Section Parser.
Context {F : Type} (stod : list Z -> option F).
Context (toks : list token).
Notation stmt := (statement F).
Notation parser A := (nat -> res (A * nat)).

(** ** Tokens *)
Definition end_token : token := mkToken t_eof [] 0.
Definition peek_tok (offset cur : nat) : token := default end_token (toks !! (cur + offset)%nat).
Definition next_tok : parser token := fun cur =>
  match toks !! cur with None => throw! "Parser Error: Unexpected EOF" | Some t => Ok (t, S cur) end.
Definition is_tok (t : token_type) (cur : nat) : bool := bool_decide (t_type (peek_tok 0 cur) = t).
Definition expect_tok (t : token_type) (error : string) : parser unit := fun cur =>
  if is_tok t cur then Ok (tt, S cur) else Err (Throw error).
Definition is_id_at (offset : nat) (name : string) (cur : nat) : bool :=
  bool_decide (t_type (peek_tok offset cur) = t_identifier) && bool_decide (t_value (peek_tok offset cur) = bytes name).
Definition is_identifier (name : string) (cur : nat) : bool := is_id_at 0 name cur.
Definition expect_identifier (name : string) : parser unit := fun cur =>
  if is_identifier name cur then Ok (tt, S cur) else throw! "Expected identifier".
Definition is_statement (names : list string) (cur : nat) : bool :=
  bool_decide (t_type (peek_tok 0 cur) = t_open_statement) && existsb (fun n => is_id_at 1 n cur) names.
(** mk_stmt: the node at the position of a token *)
Definition mk_stmt (start_pos : nat) (n : node F) : res stmt :=
  match toks !! start_pos with Some t => Ok (mkStmt (t_pos t) n) | None => Err (UB "token index out of range") end.
Definition mk (start_pos : nat) (n : node F) (cur : nat) : res (stmt * nat) := let! s := mk_stmt start_pos n in Ok (s, cur).
(** the closing tag of a statement *)
Definition expect_end (name : string) : parser unit := fun cur =>
  let! (_, cur) := expect_tok t_open_statement "Expected {%" cur in
  let! (_, cur) := expect_identifier name cur in
  expect_tok t_close_statement "Expected %}" cur.

(** ** Expressions; [expr] parses a nested expression *)
Section Expr.
Context (expr : parser stmt).

(** the elements of an array up to its bracket *)
Fixpoint array_loop (fuel : nat) (vals : list stmt) (cur : nat) : res (list stmt * nat) :=
  match fuel with
  | O => Err Fuel
  | S fuel =>
      if is_tok t_close_square_bracket cur then Ok (vals, cur) else
      let! (v, cur) := expr cur in
      array_loop fuel (vals ++ [v]) (if is_tok t_comma cur then S cur else cur)
  end.
Fixpoint object_loop (fuel : nat) (pairs : list (stmt * stmt)) (cur : nat) : res (list (stmt * stmt) * nat) :=
  match fuel with
  | O => Err Fuel
  | S fuel =>
      if is_tok t_close_curly_bracket cur then Ok (pairs, cur) else
      let! (k, cur) := expr cur in
      let! (_, cur) := expect_tok t_colon "Expected :" cur in
      let! (v, cur) := expr cur in
      object_loop fuel (pairs ++ [(k, v)]) (if is_tok t_comma cur then S cur else cur)
  end.
(** adjacent string literals are joined *)
Fixpoint join_strings (fuel : nat) (val : list Z) (cur : nat) : list Z * nat :=
  match fuel with
  | O => (val, cur)
  | S fuel => if is_tok t_string_literal cur then join_strings fuel (val ++ t_value (peek_tok 0 cur)) (S cur) else (val, cur)
  end.
(** the expressions behind commas *)
Fixpoint sequence_loop (item : parser stmt) (fuel : nat) (exprs : list stmt) (cur : nat) : res (list stmt * nat) :=
  match fuel with
  | O => Err Fuel
  | S fuel =>
      if is_tok t_comma cur then let! (e, cur) := item (S cur) in sequence_loop item fuel (exprs ++ [e]) cur
      else Ok (exprs, cur)
  end.
(** the bound of every loop: an iteration consumes a token *)
Definition loops (cur : nat) : nat := S (length toks - cur).
Definition parse_sequence_of (item : parser stmt) : parser stmt := fun cur =>
  let start_pos := cur in
  let! (e, cur) := item cur in
  let is_tuple := is_tok t_comma cur in
  let! (es, cur) := sequence_loop item (loops cur) [e] cur in
  if is_tuple then mk start_pos (tuple_literal es) cur else Ok (e, cur).
Definition parse_primary_expression : parser stmt := fun cur =>
  let start_pos := cur in
  let! (t, cur) := next_tok cur in
  match t_type t with
  | t_numeric_literal =>
      if bool_decide (ch "." ∈ t_value t) then
        match stod (t_value t) with Some v => mk start_pos (float_literal v) cur | None => throw! "stod" end
      else let! v := stoll (t_value t) in mk start_pos (integer_literal v) cur
  | t_string_literal => let '(val, cur) := join_strings (loops cur) (t_value t) cur in mk start_pos (string_literal val) cur
  | t_identifier => mk start_pos (identifier (t_value t)) cur
  | t_open_paren =>
      let! (e, cur) := parse_sequence_of expr cur in
      let! (_, cur) := expect_tok t_close_paren "Expected )" cur in Ok (e, cur)
  | t_open_square_bracket =>
      let! (vals, cur) := array_loop (loops cur) [] cur in mk start_pos (array_literal vals) (S cur)
  | t_open_curly_bracket =>
      let! (pairs, cur) := object_loop (loops cur) [] cur in mk start_pos (object_literal pairs) (S cur)
  | _ => throw! "Unexpected token"
  end.

(** one argument of a call: *expr, key = expr or expr *)
Definition parse_arg : parser stmt := fun cur =>
  if is_tok t_multiplicative_binary_operator cur && bool_decide (t_value (peek_tok 0 cur) = bytes "*") then
    let! (e, cur') := expr (S cur) in mk cur (spread_expression e) cur'
  else
    let! (e, cur) := expr cur in
    if is_tok t_equals cur then let! (v, cur') := expr (S cur) in mk cur (keyword_argument_expression e v) cur'
    else Ok (e, cur).
(** the arguments of a call *)
Fixpoint args_loop (fuel : nat) (args : list stmt) (cur : nat) : res (list stmt * nat) :=
  match fuel with
  | O => Err Fuel
  | S fuel =>
      if is_tok t_close_paren cur then Ok (args, cur) else
      let! (arg, cur) := parse_arg cur in
      args_loop fuel (args ++ [arg]) (if is_tok t_comma cur then S cur else cur)
  end.
Definition parse_args : parser (list stmt) := fun cur =>
  let! (_, cur) := expect_tok t_open_paren "Expected (" cur in
  let! (args, cur) := args_loop (loops cur) [] cur in
  let! (_, cur) := expect_tok t_close_paren "Expected )" cur in
  Ok (args, cur).
(** the parts of a subscript, [None] where one is left out *)
Fixpoint slice_loop (fuel : nat) (slices : list (option stmt)) (is_slice : bool) (cur : nat) : res (list (option stmt) * bool * nat) :=
  match fuel with
  | O => Err Fuel
  | S fuel =>
      if is_tok t_close_square_bracket cur then Ok (slices, is_slice, cur)
      else if is_tok t_colon cur then slice_loop fuel (slices ++ [None]) true (S cur)
      else
        let! (e, cur) := expr cur in
        if is_tok t_colon cur then slice_loop fuel (slices ++ [Some e]) true (S cur)
        else slice_loop fuel (slices ++ [Some e]) is_slice cur
  end.
Definition parse_member_expression_arguments : parser stmt := fun cur =>
  let start_pos := cur in
  let! (slices, is_slice, cur) := slice_loop (loops cur) [] false cur in
  let part (i : nat) : option stmt := mjoin (slices !! i) in
  if (is_slice : bool) then mk start_pos (slice_expression (part 0%nat) (part 1%nat) (part 2%nat)) cur
  else match slices with
       | Some e :: _ => Ok (e, cur)
       | _ => mk start_pos blank_expression cur
       end.
Fixpoint member_loop (fuel : nat) (start_pos : nat) (object : stmt) (cur : nat) : res (stmt * nat) :=
  match fuel with
  | O => Err Fuel
  | S fuel =>
      if is_tok t_dot cur then
        let! (prop, cur) := parse_primary_expression (S cur) in
        let! object := mk_stmt start_pos (member_expression object prop false) in
        member_loop fuel start_pos object cur
      else if is_tok t_open_square_bracket cur then
        let! (prop, cur) := parse_member_expression_arguments (S cur) in
        let! (_, cur) := expect_tok t_close_square_bracket "Expected ]" cur in
        let! object := mk_stmt start_pos (member_expression object prop true) in
        member_loop fuel start_pos object cur
      else Ok (object, cur)
  end.
Definition parse_member_expression (object : stmt) : parser stmt := fun cur => member_loop (loops cur) cur object cur.
(** calls in a row: foo.x().y() *)
Fixpoint call_loop (fuel : nat) (callee : stmt) (cur : nat) : res (stmt * nat) :=
  match fuel with
  | O => Err Fuel
  | S fuel =>
      let start_pos := cur in
      let! (args, cur) := parse_args cur in
      let! e := mk_stmt start_pos (call_expression callee args) in
      let! (member, cur) := parse_member_expression e cur in
      if is_tok t_open_paren cur then call_loop fuel member cur else Ok (member, cur)
  end.
Definition parse_call_expression (callee : stmt) : parser stmt := fun cur => call_loop (loops cur) callee cur.
(** a node, called when a parenthesis follows *)
Definition with_call (s : stmt) : parser stmt := fun cur => if is_tok t_open_paren cur then parse_call_expression s cur else Ok (s, cur).
Definition parse_call_member_expression : parser stmt := fun cur =>
  let! (p, cur) := parse_primary_expression cur in
  let! (member, cur) := parse_member_expression p cur in
  with_call member cur.

Fixpoint filter_loop (fuel : nat) (operand : stmt) (cur : nat) : res (stmt * nat) :=
  match fuel with
  | O => Err Fuel
  | S fuel =>
      if is_tok t_pipe cur then
        let start_pos := cur in
        let! (f, cur) := parse_primary_expression (S cur) in
        let! (f, cur) := with_call f cur in
        let! operand := mk_stmt start_pos (filter_expression operand f) in
        filter_loop fuel operand cur
      else Ok (operand, cur)
  end.
Definition parse_filter_expression : parser stmt := fun cur =>
  let! (operand, cur) := parse_call_member_expression cur in filter_loop (loops cur) operand cur.
Fixpoint test_loop (fuel : nat) (operand : stmt) (cur : nat) : res (stmt * nat) :=
  match fuel with
  | O => Err Fuel
  | S fuel =>
      if is_identifier "is" cur then
        let start_pos := cur in
        let cur := S cur in
        let negate := is_identifier "not" cur in
        let cur := if negate then S cur else cur in
        let! (t, cur) := parse_primary_expression cur in
        let! (t, cur) := with_call t cur in
        let! operand := mk_stmt start_pos (test_expression operand negate t) in
        test_loop fuel operand cur
      else Ok (operand, cur)
  end.
Definition parse_test_expression : parser stmt := fun cur =>
  let! (operand, cur) := parse_filter_expression cur in test_loop (loops cur) operand cur.

(** a chain of binary operators of one level: [op] reads an operator when one is there *)
Fixpoint binary_loop (op : nat -> option (token * nat)) (operand : parser stmt) (fuel : nat) (lhs : stmt) (cur : nat) : res (stmt * nat) :=
  match fuel with
  | O => Err Fuel
  | S fuel =>
      match op cur with
      | Some (o, cur') =>
          let! (rhs, cur'') := operand cur' in
          let! lhs := mk_stmt cur (binary_expression o lhs rhs) in
          binary_loop op operand fuel lhs cur''
      | None => Ok (lhs, cur)
      end
  end.
Definition binary_level (op : nat -> option (token * nat)) (operand : parser stmt) : parser stmt := fun cur =>
  let! (lhs, cur) := operand cur in binary_loop op operand (loops cur) lhs cur.
Definition op_type (t : token_type) (cur : nat) : option (token * nat) := if is_tok t cur then Some (peek_tok 0 cur, S cur) else None.
Definition op_name (name : string) (cur : nat) : option (token * nat) := if is_identifier name cur then Some (peek_tok 0 cur, S cur) else None.
Definition op_comparison (cur : nat) : option (token * nat) :=
  if is_identifier "not" cur && is_id_at 1 "in" cur then Some (mkToken t_identifier (bytes "not in") (t_pos (peek_tok 0 cur)), S (S cur))
  else match op_name "in" cur with Some r => Some r | None => op_type t_comparison_binary_operator cur end.

Definition parse_multiplicative_expression : parser stmt := binary_level (op_type t_multiplicative_binary_operator) parse_test_expression.
Definition parse_additive_expression : parser stmt := binary_level (op_type t_additive_binary_operator) parse_multiplicative_expression.
Definition parse_comparison_expression : parser stmt := binary_level op_comparison parse_additive_expression.
Fixpoint negation_loop (fuel : nat) (cur : nat) : res (stmt * nat) :=
  match fuel with
  | O => Err Fuel
  | S fuel =>
      if is_identifier "not" cur then
        let! (a, cur') := negation_loop fuel (S cur) in mk cur (unary_expression (peek_tok 0 cur) a) cur'
      else parse_comparison_expression cur
  end.
Definition parse_logical_negation_expression : parser stmt := fun cur => negation_loop (loops cur) cur.
Definition parse_logical_and_expression : parser stmt := binary_level (op_name "and") parse_logical_negation_expression.
Definition parse_logical_or_expression : parser stmt := binary_level (op_name "or") parse_logical_and_expression.
(** the else branch of a ternary is an expression again *)
Definition parse_if_expression : parser stmt := fun cur =>
  let! (a, cur) := parse_logical_or_expression cur in
  if is_identifier "if" cur then
    let start_pos := cur in
    let! (test, cur) := parse_logical_or_expression (S cur) in
    if is_identifier "else" cur then
      let pos0 := cur in
      let! (false_expr, cur) := expr (S cur) in
      mk pos0 (ternary_expression test a false_expr) cur
    else mk start_pos (select_expression a test) cur
  else Ok (a, cur).
End Expr.

Fixpoint parse_expression_fuel (fuel : nat) : parser stmt := fun cur =>
  match fuel with
  | O => Err Fuel
  | S fuel => parse_if_expression (parse_expression_fuel fuel) cur
  end.
Definition parse_expression : parser stmt := fun cur => parse_expression_fuel (loops cur) cur.
Definition parse_primary : parser stmt := parse_primary_expression parse_expression.
Definition parse_expression_sequence (primary : bool) : parser stmt := parse_sequence_of (if primary then parse_primary else parse_expression).

(** ** Statements; [any] parses a nested statement *)
Section Stmt.
Context (any : parser stmt).
(** the statements up to one of the tags [ends] *)
Fixpoint body_loop (fuel : nat) (ends : list string) (body : list stmt) (cur : nat) : res (list stmt * nat) :=
  match fuel with
  | O => Err Fuel
  | S fuel =>
      if is_statement ends cur then Ok (body, cur) else
      let! (s, cur) := any cur in body_loop fuel ends (body ++ [s]) cur
  end.
Definition parse_body (ends : list string) : parser (list stmt) := fun cur => body_loop (loops cur) ends [] cur.
Definition parse_set_statement (start_pos : nat) : parser stmt := fun cur =>
  let! (lhs, cur) := parse_expression_sequence false cur in
  if is_tok t_equals cur then
    let! (value, cur) := parse_expression_sequence false (S cur) in
    let! (_, cur) := expect_tok t_close_statement "Expected %}" cur in
    mk start_pos (set_statement lhs (Some value) []) cur
  else
    let! (_, cur) := expect_tok t_close_statement "Expected %}" cur in
    let! (body, cur) := parse_body ["endset"%string] cur in
    let! (_, cur) := expect_end "endset" cur in
    mk start_pos (set_statement lhs None body) cur.
(** an if statement up to, and without, its end tag; an elif is a nested one *)
Fixpoint if_loop (fuel : nat) (start_pos : nat) (cur : nat) : res (stmt * nat) :=
  match fuel with
  | O => Err Fuel
  | S fuel =>
      let! (test, cur) := parse_expression cur in
      let! (_, cur) := expect_tok t_close_statement "Expected %}" cur in
      let! (body, cur) := parse_body ["elif"%string; "else"%string; "endif"%string] cur in
      let! (alternate, cur) :=
        if is_statement ["elif"%string] cur then
          let! (nested, cur) := if_loop fuel cur (S (S cur)) in Ok ([nested], cur)
        else if is_statement ["else"%string] cur then
          let! (_, cur) := expect_tok t_close_statement "Expected %}" (S (S cur)) in
          parse_body ["endif"%string] cur
        else Ok ([], cur) in
      mk start_pos (if_statement test body alternate) cur
  end.
Definition parse_if_statement (start_pos : nat) : parser stmt := fun cur => if_loop (loops cur) start_pos cur.
Definition parse_macro_statement (start_pos : nat) : parser stmt := fun cur =>
  let! (name, cur) := parse_primary cur in
  let! (args, cur) := parse_args parse_expression cur in
  let! (_, cur) := expect_tok t_close_statement "Expected %}" cur in
  let! (body, cur) := parse_body ["endmacro"%string] cur in
  mk start_pos (macro_statement name args body) cur.
Definition parse_for_statement (start_pos : nat) : parser stmt := fun cur =>
  let! (loop_var, cur) := parse_expression_sequence true cur in
  if negb (is_identifier "in" cur) then throw! "Expected 'in'" else
  let! (iterable, cur) := parse_expression (S cur) in
  let! (_, cur) := expect_tok t_close_statement "Expected %}" cur in
  let! (body, cur) := parse_body ["endfor"%string; "else"%string] cur in
  let! (alternate, cur) :=
    if is_statement ["else"%string] cur then
      let! (_, cur) := expect_tok t_close_statement "Expected %}" (S (S cur)) in
      parse_body ["endfor"%string] cur
    else Ok ([], cur) in
  mk start_pos (for_statement loop_var iterable body alternate) cur.
Definition is_ident (s : stmt) : bool := match s with mkStmt _ (identifier _) => true | _ => false end.
Definition parse_call_statement (start_pos : nat) : parser stmt := fun cur =>
  let! (caller_args, cur) := if is_tok t_open_paren cur then parse_args parse_expression cur else Ok ([], cur) in
  let! (callee, cur) := parse_primary cur in
  if negb (is_ident callee) then throw! "Expected identifier" else
  let! (call_args, cur) := parse_args parse_expression cur in
  let! (_, cur) := expect_tok t_close_statement "Expected %}" cur in
  let! (body, cur) := parse_body ["endcall"%string] cur in
  let! (_, cur) := expect_end "endcall" cur in
  let! call := mk_stmt start_pos (call_expression callee call_args) in
  mk start_pos (call_statement call caller_args body) cur.
Definition parse_filter_statement (start_pos : nat) : parser stmt := fun cur =>
  let! (f, cur) := parse_primary cur in
  let! (f, cur) := if is_ident f && is_tok t_open_paren cur then parse_call_expression parse_expression f cur else Ok (f, cur) in
  let! (_, cur) := expect_tok t_close_statement "Expected %}" cur in
  let! (body, cur) := parse_body ["endfilter"%string] cur in
  let! (_, cur) := expect_end "endfilter" cur in
  mk start_pos (filter_statement f body) cur.
(** a statement and its end tag *)
Definition ended (p : parser stmt) (name : string) : parser stmt := fun cur =>
  let! (s, cur) := p cur in let! (_, cur) := expect_end name cur in Ok (s, cur).
(** the statement of a name *)
Definition parse_named (name : list Z) (start_pos : nat) : parser stmt := fun cur =>
  let named (n : string) := bool_decide (name = bytes n) in
  if named "set" then parse_set_statement start_pos cur
  else if named "if" then ended (parse_if_statement start_pos) "endif" cur
  else if named "macro" then ended (parse_macro_statement start_pos) "endmacro" cur
  else if named "for" then ended (parse_for_statement start_pos) "endfor" cur
  else if named "break" then
    let! (_, cur) := expect_tok t_close_statement "Expected %}" cur in mk start_pos break_statement cur
  else if named "continue" then
    let! (_, cur) := expect_tok t_close_statement "Expected %}" cur in mk start_pos continue_statement cur
  else if named "call" then parse_call_statement start_pos cur
  else if named "filter" then parse_filter_statement start_pos cur
  else if named "generation" || named "endgeneration" then mk start_pos noop_statement (S cur)
  else throw! "Unknown statement".
Definition parse_jinja_statement : parser stmt := fun cur =>
  let! (_, cur) := expect_tok t_open_statement "Expected {%" cur in
  if negb (is_tok t_identifier cur) then throw! "Unknown statement" else
  let! (t, cur') := next_tok cur in
  parse_named (t_value t) cur cur'.
Definition parse_jinja_expression : parser stmt := fun cur =>
  let! (_, cur) := expect_tok t_open_expression "Expected {{" cur in
  let! (e, cur) := parse_expression cur in
  let! (_, cur) := expect_tok t_close_expression "Expected }}" cur in
  Ok (e, cur).
Definition parse_any_with : parser stmt := fun cur =>
  match t_type (peek_tok 0 cur) with
  | t_comment => let! (t, cur') := next_tok cur in mk cur (comment_statement (t_value t)) cur'
  | t_text => let! (t, cur') := next_tok cur in mk cur (string_literal (t_value t)) cur'
  | t_open_statement => parse_jinja_statement cur
  | t_open_expression => parse_jinja_expression cur
  | _ => throw! "Unexpected token type"
  end.
End Stmt.
Fixpoint parse_any_fuel (fuel : nat) : parser stmt := fun cur =>
  match fuel with
  | O => Err Fuel
  | S fuel => parse_any_with (parse_any_fuel fuel) cur
  end.
Definition parse_any : parser stmt := fun cur => parse_any_fuel (loops cur) cur.
Fixpoint program_loop (fuel : nat) (body : list stmt) (cur : nat) : res (list stmt) :=
  match fuel with
  | O => Err Fuel
  | S fuel => if (length toks <=? cur)%nat then Ok body else let! (s, cur) := parse_any cur in program_loop fuel (body ++ [s]) cur
  end.
Definition parse_from_tokens : res (list stmt) := program_loop (loops 0) [] 0.
End Parser.
