(* ===== verification/JinjaParserFacts.v ===== *)
(** * The template parser makes progress: every nested call and every turn of a loop consumes a token *)

From S2P Require Import Prelude Text JinjaLexer JinjaParser.

Section Facts.
Context {F : Type} (stod : list Z -> option F) (toks : list token).
Notation stmt := (statement F).
Notation parser A := (nat -> res (A * nat)).
Notation len := (length toks).

(** a result behind [lo] of a run that found a token at [cur] *)
Definition reach {A} (lo cur : nat) (r : A * nat) : Prop := (lo <= r.2)%nat /\ (cur < len)%nat.
Definition adv {A} (cur : nat) : A * nat -> Prop := reach (S cur) cur.
Definition ge {A} (cur : nat) (r : A * nat) : Prop := (cur <= r.2)%nat.

Lemma peek_in o cur : t_type (peek_tok toks o cur) <> t_eof -> (cur + o < len)%nat.
Proof. unfold peek_tok. destruct (toks !! (cur + o)%nat) eqn:E; [intros _; by apply lookup_lt_Some in E | done]. Qed.
Lemma is_tok_in t cur : is_tok toks t cur = true -> t <> t_eof -> (cur < len)%nat.
Proof. unfold is_tok. intros H%bool_decide_eq_true Ht. rewrite <- H in Ht. apply peek_in in Ht. lia. Qed.
Lemma is_id_at_in o n cur : is_id_at toks o n cur = true -> (cur + o < len)%nat.
Proof. unfold is_id_at. intros [H%bool_decide_eq_true _]%andb_prop. apply peek_in. by rewrite H. Qed.
Lemma is_identifier_in n cur : is_identifier toks n cur = true -> (cur < len)%nat.
Proof. intros H%is_id_at_in. lia. Qed.
Lemma is_statement_in ns cur : is_statement toks ns cur = true -> (S cur < len)%nat.
Proof.
  unfold is_statement. intros [_ H]%andb_prop. apply existsb_exists in H as (n & _ & H%is_id_at_in). lia.
Qed.
Lemma next_tok_safe cur : safe (adv cur) (next_tok toks cur).
Proof. unfold next_tok. destruct (toks !! cur) eqn:E; [| done]. apply lookup_lt_Some in E. by split; simpl; [lia |]. Qed.
Lemma expect_tok_safe t e cur : t <> t_eof -> safe (adv cur) (expect_tok toks t e cur).
Proof. intros Ht. unfold expect_tok. destruct (is_tok toks t cur) eqn:E; [| done]. apply is_tok_in in E; [| done]. by split; simpl; [lia |]. Qed.
Lemma expect_identifier_safe n cur : safe (adv cur) (expect_identifier toks n cur).
Proof. unfold expect_identifier. destruct (is_identifier toks n cur) eqn:E; [| done]. apply is_identifier_in in E. by split; simpl; [lia |]. Qed.
Lemma mk_stmt_safe i (n : node F) : (i < len)%nat -> safe (fun _ => True) (mk_stmt toks i n).
Proof. intros H. unfold mk_stmt. destruct (lookup_lt_is_Some_2 toks i H) as [t ->]. done. Qed.
Lemma mk_safe i (n : node F) cur : (i < len)%nat -> safe (fun r => r.2 = cur) (mk toks i n cur).
Proof. intros H. unfold mk. eapply safe_bind; [by apply mk_stmt_safe |]. done. Qed.
End Facts.

Create HintDb parser.
#[export] Hint Resolve next_tok_safe expect_identifier_safe : parser.
#[export] Hint Extern 1 (safe _ (expect_tok _ _ _ _)) => apply expect_tok_safe; discriminate : parser.

(** what the guards of a branch and the results of the calls before it say about the token index *)
Ltac index :=
  unfold adv, reach, ge in *; cbn [snd fst] in *;
  repeat match goal with
    | H : is_tok _ _ _ = true |- _ => apply is_tok_in in H; [| discriminate]
    | H : is_identifier _ _ _ = true |- _ => apply is_identifier_in in H
    | H : is_id_at _ _ _ _ = true |- _ => apply is_id_at_in in H
    | H : is_statement _ _ _ = true |- _ => apply is_statement_in in H
    | H : (_ && _)%bool = true |- _ => apply andb_prop in H as [H ?]
    end;
  unfold loops in *; repeat case_match; lia.
(** one bind of a parsing function: its callee's specification, then the rest *)
Ltac call tac := eapply safe_bind; [tac | intros [? ?] ?; cbn beta iota].
Ltac ret := first [done | eapply safe_weaken; [apply mk_safe; index |]; intros ??; index | cbn [safe]; index].

Section Expressions.
Context {F : Type} (stod : list Z -> option F) (toks : list token).
Notation stmt := (statement F).
Notation parser A := (nat -> res (A * nat)).
Notation len := (length toks).
Notation adv := (adv toks).
Notation reach := (reach toks).

(** nested expressions behind the token at or after [c] are parsed safely *)
Context (expr : parser stmt) (c : nat).
Context (Hexpr : forall cur, (c < cur)%nat -> (c < len)%nat -> safe (adv cur) (expr cur)).

Lemma array_loop_safe fuel vals cur : (c < cur)%nat -> (c < len)%nat -> (len - cur < fuel)%nat -> safe (ge cur) (array_loop toks expr fuel vals cur).
Proof.
  revert vals cur. induction fuel as [| fuel IH]; intros vals cur Hc Hl Hf; [lia |]. cbn [array_loop]. destruct (is_tok toks t_close_square_bracket cur); [ret |].
  call ltac:(by apply Hexpr). eapply safe_weaken; [apply IH; index |]. intros ??. index.
Qed.
Lemma object_loop_safe fuel pairs cur : (c < cur)%nat -> (c < len)%nat -> (len - cur < fuel)%nat -> safe (ge cur) (object_loop toks expr fuel pairs cur).
Proof.
  revert pairs cur. induction fuel as [| fuel IH]; intros pairs cur Hc Hl Hf; [lia |]. cbn [object_loop]. destruct (is_tok toks t_close_curly_bracket cur); [ret |].
  call ltac:(by apply Hexpr). call ltac:(eauto with parser). call ltac:(apply Hexpr; index). eapply safe_weaken; [apply IH; index |]. intros ??. index.
Qed.
Lemma join_strings_ge fuel val cur : (cur <= (join_strings toks fuel val cur).2)%nat.
Proof. revert val cur. induction fuel as [| fuel IH]; intros val cur; simpl; [done |]. destruct (is_tok _ _ _); simpl; [| done]. etrans; [| apply IH]. lia. Qed.
Lemma sequence_loop_safe (item : parser stmt) d fuel es cur :
  (forall cur, (d < cur)%nat -> (d < len)%nat -> safe (adv cur) (item cur)) -> (d <= cur)%nat -> (len - cur < fuel)%nat -> safe (ge cur) (sequence_loop toks item fuel es cur).
Proof.
  intros Hi. revert es cur. induction fuel as [| fuel IH]; intros es cur Hd Hf; [lia |]. cbn [sequence_loop]. destruct (is_tok toks t_comma cur) eqn:E; [| ret].
  call ltac:(apply Hi; index). eapply safe_weaken; [apply IH; index |]. intros ??. index.
Qed.
Lemma sequence_of_safe (item : parser stmt) cur :
  safe (adv cur) (item cur) -> (forall cur', (cur < cur')%nat -> (cur < len)%nat -> safe (adv cur') (item cur')) -> safe (adv cur) (parse_sequence_of toks item cur).
Proof.
  intros H0 Hi. unfold parse_sequence_of. call ltac:(exact H0). call ltac:(apply (sequence_loop_safe _ cur); [exact Hi | index | index]).
  destruct (is_tok toks t_comma _); ret.
Qed.
Lemma primary_safe cur : (c <= cur)%nat -> safe (adv cur) (parse_primary_expression stod toks expr cur).
Proof.
  intros Hc. unfold parse_primary_expression. call ltac:(apply next_tok_safe). destruct (t_type _); try done.
  - case_bool_decide; [case_match; ret |]. eapply (safe_bind (fun _ => True)); [unfold stoll; repeat case_match; done |]. intros. ret.
  - pose proof (join_strings_ge (loops toks n) (t_value t) n). destruct (join_strings _ _ _ _). ret.
  - ret.
  - call ltac:(apply sequence_of_safe; intros; apply Hexpr; index). call ltac:(eauto with parser). ret.
  - call ltac:(apply array_loop_safe; index). ret.
  - call ltac:(apply object_loop_safe; index). ret.
Qed.

Lemma arg_safe cur : (c < cur)%nat -> (c < len)%nat -> safe (adv cur) (parse_arg toks expr cur).
Proof.
  intros Hc Hl. unfold parse_arg. destruct (is_tok toks t_multiplicative_binary_operator cur && _) eqn:E.
  - call ltac:(apply Hexpr; index). ret.
  - call ltac:(by apply Hexpr). destruct (is_tok toks t_equals _) eqn:E'; [| ret]. call ltac:(apply Hexpr; index). ret.
Qed.
Lemma args_loop_safe fuel args cur : (c < cur)%nat -> (c < len)%nat -> (len - cur < fuel)%nat -> safe (ge cur) (args_loop toks expr fuel args cur).
Proof.
  revert args cur. induction fuel as [| fuel IH]; intros args cur Hc Hl Hf; [lia |]. cbn [args_loop]. destruct (is_tok toks t_close_paren cur); [ret |].
  call ltac:(by apply arg_safe). eapply safe_weaken; [apply IH; index |]. intros ??. index.
Qed.
Lemma args_safe cur : (c <= cur)%nat -> safe (adv cur) (parse_args toks expr cur).
Proof. intros Hc. unfold parse_args. call ltac:(eauto with parser). call ltac:(apply args_loop_safe; index). call ltac:(eauto with parser). ret. Qed.
Lemma slice_loop_safe fuel sl b cur : (c < cur)%nat -> (c < len)%nat -> (len - cur < fuel)%nat ->
  safe (fun r => ge cur r /\ (r.2 < len)%nat) (slice_loop toks expr fuel sl b cur).
Proof.
  revert sl b cur. induction fuel as [| fuel IH]; intros sl b cur Hc Hl Hf; [lia |]. cbn [slice_loop].
  destruct (is_tok toks t_close_square_bracket cur) eqn:E; [ret |]. destruct (is_tok toks t_colon cur) eqn:E'.
  - eapply safe_weaken; [apply IH; index |]. intros ? [? ?]. index.
  - call ltac:(by apply Hexpr). destruct (is_tok toks t_colon n) eqn:E''; (eapply safe_weaken; [apply IH; index |]; intros ? [? ?]; index).
Qed.
Lemma member_arguments_safe cur : (c < cur)%nat -> (c < len)%nat -> safe (ge cur) (parse_member_expression_arguments toks expr cur).
Proof.
  intros Hc Hl. unfold parse_member_expression_arguments. eapply safe_bind; [apply slice_loop_safe; index |]. intros [ [sl b] n] [? ?]. cbn beta iota.
  destruct b; [ret |]. destruct sl as [| [e |] sl]; ret.
Qed.
Lemma member_loop_safe fuel sp object cur : (c <= cur)%nat -> (sp <= cur)%nat -> (len - cur < fuel)%nat -> safe (ge cur) (member_loop stod toks expr fuel sp object cur).
Proof.
  revert object cur. induction fuel as [| fuel IH]; intros object cur Hc Hs Hf; [lia |]. cbn [member_loop]. destruct (is_tok toks t_dot cur) eqn:E.
  - call ltac:(apply primary_safe; lia). eapply safe_bind; [apply mk_stmt_safe; index |]. intros o _. eapply safe_weaken; [apply IH; index |]. intros ??. index.
  - destruct (is_tok toks t_open_square_bracket cur) eqn:E'; [| ret]. call ltac:(apply member_arguments_safe; index). call ltac:(eauto with parser).
    eapply safe_bind; [apply mk_stmt_safe; index |]. intros o _. eapply safe_weaken; [apply IH; index |]. intros ??. index.
Qed.
Lemma member_safe object cur : (c <= cur)%nat -> safe (ge cur) (parse_member_expression stod toks expr object cur).
Proof. intros Hc. apply member_loop_safe; index. Qed.
Lemma call_loop_safe fuel callee cur : (c <= cur)%nat -> (len - cur < fuel)%nat -> safe (adv cur) (call_loop stod toks expr fuel callee cur).
Proof.
  revert callee cur. induction fuel as [| fuel IH]; intros callee cur Hc Hf; [lia |]. cbn [call_loop]. call ltac:(by apply args_safe).
  eapply safe_bind; [apply mk_stmt_safe; index |]. intros e _. call ltac:(apply member_safe; index). destruct (is_tok toks t_open_paren _) eqn:E; [| ret].
  eapply safe_weaken; [apply IH; index |]. intros ??. index.
Qed.
Lemma call_safe callee cur : (c <= cur)%nat -> safe (adv cur) (parse_call_expression stod toks expr callee cur).
Proof. intros Hc. apply call_loop_safe; index. Qed.
Lemma with_call_safe s cur : (c <= cur)%nat -> safe (ge cur) (with_call stod toks expr s cur).
Proof. intros Hc. unfold with_call. destruct (is_tok toks t_open_paren cur); [| ret]. eapply safe_weaken; [by apply call_safe |]. intros ??. index. Qed.
Lemma call_member_safe cur : (c <= cur)%nat -> safe (adv cur) (parse_call_member_expression stod toks expr cur).
Proof.
  intros Hc. unfold parse_call_member_expression. call ltac:(by apply primary_safe). call ltac:(apply member_safe; index).
  eapply safe_weaken; [apply with_call_safe; index |]. intros ??. index.
Qed.
Lemma filter_loop_safe fuel operand cur : (c <= cur)%nat -> (len - cur < fuel)%nat -> safe (ge cur) (filter_loop stod toks expr fuel operand cur).
Proof.
  revert operand cur. induction fuel as [| fuel IH]; intros operand cur Hc Hf; [lia |]. cbn [filter_loop]. destruct (is_tok toks t_pipe cur) eqn:E; [| ret].
  call ltac:(apply primary_safe; index). call ltac:(apply with_call_safe; index). eapply safe_bind; [apply mk_stmt_safe; index |]. intros o _.
  eapply safe_weaken; [apply IH; index |]. intros ??. index.
Qed.
Lemma filter_safe cur : (c <= cur)%nat -> safe (adv cur) (parse_filter_expression stod toks expr cur).
Proof.
  intros Hc. unfold parse_filter_expression. call ltac:(by apply call_member_safe). eapply safe_weaken; [apply filter_loop_safe; index |]. intros ??. index.
Qed.
Lemma test_loop_safe fuel operand cur : (c <= cur)%nat -> (len - cur < fuel)%nat -> safe (ge cur) (test_loop stod toks expr fuel operand cur).
Proof.
  revert operand cur. induction fuel as [| fuel IH]; intros operand cur Hc Hf; [lia |]. cbn [test_loop]. destruct (is_identifier toks _ cur) eqn:E; [| ret].
  call ltac:(apply primary_safe; index). call ltac:(apply with_call_safe; index). eapply safe_bind; [apply mk_stmt_safe; index |]. intros o _.
  eapply safe_weaken; [apply IH; index |]. intros ??. index.
Qed.
Lemma test_safe cur : (c <= cur)%nat -> safe (adv cur) (parse_test_expression stod toks expr cur).
Proof.
  intros Hc. unfold parse_test_expression. call ltac:(by apply filter_safe). eapply safe_weaken; [apply test_loop_safe; index |]. intros ??. index.
Qed.

(** a level of binary operators, when reading an operator consumes a token *)
Definition op_ok (op : nat -> option (token * nat)) : Prop := forall cur o cur', op cur = Some (o, cur') -> (cur < cur')%nat /\ (cur < len)%nat.
Lemma binary_level_safe op (operand : parser stmt) : op_ok op -> (forall cur, (c <= cur)%nat -> safe (adv cur) (operand cur)) ->
  forall cur, (c <= cur)%nat -> safe (adv cur) (binary_level toks op operand cur).
Proof.
  intros Hop Ho.
  assert (forall fuel lhs cur, (c <= cur)%nat -> (len - cur < fuel)%nat -> safe (ge cur) (binary_loop toks op operand fuel lhs cur)) as Hloop.
  { induction fuel as [| fuel IH]; intros lhs cur Hc Hf; [lia |]. cbn [binary_loop]. destruct (op cur) as [ [o cur'] |] eqn:E; [| ret].
    apply Hop in E as [? ?]. call ltac:(apply Ho; index). eapply safe_bind; [apply mk_stmt_safe; index |]. intros l _.
    eapply safe_weaken; [apply IH; index |]. intros ??. index. }
  intros cur Hc. unfold binary_level. call ltac:(by apply Ho). eapply safe_weaken; [apply Hloop; index |]. intros ??. index.
Qed.
Lemma op_type_ok t : t <> t_eof -> op_ok (op_type toks t).
Proof. intros Ht cur o cur'. unfold op_type. destruct (is_tok toks t cur) eqn:E; [| done]. apply is_tok_in in E; [| done]. intros [= _ <-]. lia. Qed.
Lemma op_name_ok n : op_ok (op_name toks n).
Proof. intros cur o cur'. unfold op_name. destruct (is_identifier toks n cur) eqn:E; [| done]. apply is_identifier_in in E. intros [= _ <-]. lia. Qed.
Lemma op_comparison_ok : op_ok (op_comparison toks).
Proof.
  intros cur o cur'. unfold op_comparison. destruct (is_identifier toks _ cur && _) eqn:E.
  - apply andb_prop in E as [E%is_identifier_in _]. intros [= _ <-]. lia.
  - destruct (op_name toks _ cur) as [ [? ?] |] eqn:E'; [intros [= <- <-]; by apply op_name_ok in E' | by apply op_type_ok].
Qed.
Lemma negation_loop_safe fuel cur : (c <= cur)%nat -> (len - cur < fuel)%nat -> safe (adv cur) (negation_loop stod toks expr fuel cur).
Proof.
  revert cur. induction fuel as [| fuel IH]; intros cur Hc Hf; [lia |]. cbn [negation_loop]. destruct (is_identifier toks _ cur) eqn:E.
  - call ltac:(apply IH; index). ret.
  - apply binary_level_safe; [apply op_comparison_ok | | done].
    apply binary_level_safe; [by apply op_type_ok |]. apply binary_level_safe; [by apply op_type_ok |]. apply test_safe.
Qed.
Lemma logical_or_safe cur : (c <= cur)%nat -> safe (adv cur) (parse_logical_or_expression stod toks expr cur).
Proof.
  apply binary_level_safe; [apply op_name_ok |]. apply binary_level_safe; [apply op_name_ok |].
  intros cur' Hc. apply negation_loop_safe; index.
Qed.
Lemma if_expression_safe cur : (c <= cur)%nat -> safe (adv cur) (parse_if_expression stod toks expr cur).
Proof.
  intros Hc. unfold parse_if_expression. call ltac:(by apply logical_or_safe). destruct (is_identifier toks _ _) eqn:E; [| ret].
  call ltac:(apply logical_or_safe; index). destruct (is_identifier toks "else" n0) eqn:E'; [| ret]. call ltac:(apply Hexpr; index). ret.
Qed.
End Expressions.

Section Statements.
Context {F : Type} (stod : list Z -> option F) (toks : list token).
Notation stmt := (statement F).
Notation parser A := (nat -> res (A * nat)).
Notation len := (length toks).
Notation adv := (adv toks).

Lemma expression_fuel_safe fuel cur : (len - cur < fuel)%nat -> safe (adv cur) (parse_expression_fuel stod toks fuel cur).
Proof.
  revert cur. induction fuel as [| fuel IH]; intros cur Hf; [lia |]. cbn [parse_expression_fuel].
  apply (if_expression_safe _ _ _ cur); [| done]. intros. apply IH. lia.
Qed.
Lemma expression_safe cur : safe (adv cur) (parse_expression stod toks cur).
Proof. apply expression_fuel_safe. unfold loops. lia. Qed.
Lemma parse_primary_safe cur : safe (adv cur) (parse_primary stod toks cur).
Proof. apply (primary_safe _ _ _ cur); [| done]. intros. apply expression_safe. Qed.
Lemma parse_args_safe cur : safe (adv cur) (parse_args toks (parse_expression stod toks) cur).
Proof. apply (args_safe _ _ cur); [| done]. intros. apply expression_safe. Qed.
Lemma expression_sequence_safe b cur : safe (adv cur) (parse_expression_sequence stod toks b cur).
Proof. unfold parse_expression_sequence. destruct b; apply sequence_of_safe; intros; (apply parse_primary_safe || apply expression_safe). Qed.
Lemma expect_end_safe n cur : safe (adv cur) (expect_end toks n cur).
Proof.
  unfold expect_end. call ltac:(eauto with parser). call ltac:(eauto with parser). eapply safe_weaken; [by apply expect_tok_safe |]. intros ??. index.
Qed.
#[local] Hint Resolve expression_safe parse_primary_safe parse_args_safe expression_sequence_safe expect_end_safe : parser.

Context (any : parser stmt) (c : nat).
Context (Hany : forall cur, (c < cur)%nat -> (c < len)%nat -> safe (adv cur) (any cur)).

Lemma body_safe ends cur : (c < cur)%nat -> (c < len)%nat -> safe (ge cur) (parse_body toks any ends cur).
Proof.
  intros Hc Hl. unfold parse_body.
  assert (forall fuel body cur, (c < cur)%nat -> (len - cur < fuel)%nat -> safe (ge cur) (body_loop toks any fuel ends body cur)) as Hloop.
  { clear cur Hc. induction fuel as [| fuel IH]; intros body cur Hc Hf; [lia |]. cbn [body_loop]. destruct (is_statement _ _ _); [ret |].
    call ltac:(by apply Hany). eapply safe_weaken; [apply IH; index |]. intros ??. index. }
  apply Hloop; index.
Qed.
Ltac body := call ltac:(apply body_safe; index).
Ltac known := call ltac:(eauto with parser).
Lemma set_safe sp cur : (c < cur)%nat -> (c < len)%nat -> (sp < len)%nat -> safe (ge cur) (parse_set_statement stod toks any sp cur).
Proof.
  intros Hc Hl Hs. unfold parse_set_statement. known. destruct (is_tok toks t_equals _) eqn:E; [do 2 known; ret |]. known. body. known. ret.
Qed.
Lemma if_safe sp cur : (c < cur)%nat -> (c < len)%nat -> (sp < len)%nat -> safe (ge cur) (parse_if_statement stod toks any sp cur).
Proof.
  intros Hc Hl Hs. unfold parse_if_statement.
  assert (forall fuel sp cur, (c < cur)%nat -> (sp < len)%nat -> (len - cur < fuel)%nat -> safe (ge cur) (if_loop stod toks any fuel sp cur)) as Hloop; [| apply Hloop; index].
  clear sp cur Hc Hs. induction fuel as [| fuel IH]; intros sp cur Hc Hs Hf; [lia |]. cbn [if_loop]. do 2 known. body.
  eapply (safe_bind (ge n1)).
  - destruct (is_statement toks ["elif"%string] n1) eqn:E; [call ltac:(apply IH; index); ret |].
    destruct (is_statement toks ["else"%string] n1) eqn:E'; [| ret]. known. eapply safe_weaken; [apply body_safe; index |]. intros ??. index.
  - intros [? ?] ?. ret.
Qed.
Lemma macro_safe sp cur : (c < cur)%nat -> (c < len)%nat -> (sp < len)%nat -> safe (ge cur) (parse_macro_statement stod toks any sp cur).
Proof. intros Hc Hl Hs. unfold parse_macro_statement. do 3 known. body. ret. Qed.
Lemma for_safe sp cur : (c < cur)%nat -> (c < len)%nat -> (sp < len)%nat -> safe (ge cur) (parse_for_statement stod toks any sp cur).
Proof.
  intros Hc Hl Hs. unfold parse_for_statement. known. destruct (negb _); [done |]. do 2 known. body.
  eapply (safe_bind (ge n2)).
  - destruct (is_statement toks ["else"%string] n2) eqn:E; [| ret]. known. eapply safe_weaken; [apply body_safe; index |]. intros ??. index.
  - intros [? ?] ?. ret.
Qed.
Lemma call_statement_safe sp cur : (c < cur)%nat -> (c < len)%nat -> (sp < len)%nat -> safe (ge cur) (parse_call_statement stod toks any sp cur).
Proof.
  intros Hc Hl Hs. unfold parse_call_statement. eapply (safe_bind (ge cur)).
  - destruct (is_tok toks t_open_paren cur); [| ret]. eapply safe_weaken; [apply parse_args_safe |]. intros ??. index.
  - intros [? ?] ?. known. destruct (negb _); [done |]. do 2 known. body. known. eapply safe_bind; [by apply mk_stmt_safe |]. intros e _. ret.
Qed.
Lemma filter_statement_safe sp cur : (c < cur)%nat -> (c < len)%nat -> (sp < len)%nat -> safe (ge cur) (parse_filter_statement stod toks any sp cur).
Proof.
  intros Hc Hl Hs. unfold parse_filter_statement. known. eapply (safe_bind (ge n)).
  - destruct (is_ident _ && _); [| ret]. eapply safe_weaken; [apply (call_safe _ _ _ n); [| done]; intros; apply expression_safe |]. intros ??. index.
  - intros [? ?] ?. known. body. known. ret.
Qed.
Lemma ended_safe (p : parser stmt) n cur : safe (ge cur) (p cur) -> safe (ge cur) (ended toks p n cur).
Proof. intros H. unfold ended. call ltac:(exact H). known. ret. Qed.
Lemma any_with_safe cur : (c <= cur)%nat -> safe (adv cur) (parse_any_with stod toks any cur).
Proof.
  intros Hc. unfold parse_any_with. destruct (t_type _) eqn:Et; try done.
  - call ltac:(apply next_tok_safe). ret.
  - unfold parse_jinja_statement. known. destruct (negb _); [done |]. call ltac:(apply next_tok_safe).
    assert (Hpost : forall r : res (stmt * nat), safe (ge n0) r -> safe (adv cur) r) by (intros r Hr; eapply safe_weaken; [exact Hr |]; intros ??; index).
    unfold parse_named. repeat case_match; try done;
      try (apply Hpost; try apply ended_safe; (apply set_safe || apply if_safe || apply macro_safe || apply for_safe || apply call_statement_safe || apply filter_statement_safe); index);
      try (known; ret); ret.
  - unfold parse_jinja_expression. do 3 known. ret.
  - call ltac:(apply next_tok_safe). ret.
Qed.
End Statements.

Section Program.
Context {F : Type} (stod : list Z -> option F) (toks : list token).
Notation len := (length toks).

Lemma any_fuel_safe fuel cur : (len - cur < fuel)%nat -> safe (adv toks cur) (parse_any_fuel stod toks fuel cur).
Proof.
  revert cur. induction fuel as [| fuel IH]; intros cur Hf; [lia |]. cbn [parse_any_fuel]. apply (any_with_safe _ _ _ cur); [| done]. intros. apply IH. lia.
Qed.
Lemma program_loop_safe fuel body cur : (len - cur < fuel)%nat -> safe (fun _ => True) (program_loop stod toks fuel body cur).
Proof.
  revert body cur. induction fuel as [| fuel IH]; intros body cur Hf; [lia |]. cbn [program_loop]. destruct (len <=? cur)%nat eqn:E; [done |]. apply Nat.leb_gt in E.
  call ltac:(apply any_fuel_safe; unfold loops; lia). apply IH. index.
Qed.
End Program.
