(* ===== verification/JinjaSyntax.v ===== *)
(** * The template language as a grammar

    The sentences of the language and the tree of each: a relation between the tokens of an
    expression, a statement or a body and the nodes the parser is to build, with the precedence and
    the associativity of the operators.  Levels of expressions: 0 a primary, 1 members and calls,
    2 filters, 3 tests, 4 to 6 the multiplicative, additive and comparison operators, 7 not, 8 and,
    9 or, 10 a conditional. *)

From S2P Require Import Prelude Text JinjaLexer JinjaParser.

Definition typed (ty : token_type) (t : token) : Prop := t_type t = ty.
Definition named (n : string) (t : token) : Prop := t_type t = t_identifier /\ t_value t = bytes n.
Definition head_pos (ts : list token) : nat := match ts with t :: _ => t_pos t | [] => O end.
(** the text does not start with the word not *)
Definition not_negated (ts : list token) : Prop := forall t, head ts = Some t -> ~ named "not" t.

(** the tokens of a binary operator of a level, and the operator stored in the node *)
Inductive op_tokens : nat -> list token -> token -> Prop :=
| op_mul t : typed t_multiplicative_binary_operator t -> op_tokens 4 [t] t
| op_add t : typed t_additive_binary_operator t -> op_tokens 5 [t] t
| op_cmp t : typed t_comparison_binary_operator t -> op_tokens 6 [t] t
| op_in t : named "in" t -> op_tokens 6 [t] t
| op_not_in t t' : named "not" t -> named "in" t' -> op_tokens 6 [t; t'] (mkToken t_identifier (bytes "not in") (t_pos t))
| op_and t : named "and" t -> op_tokens 8 [t] t
| op_or t : named "or" t -> op_tokens 9 [t] t.

Section Syntax.
Context {F : Type} (stod : list Z -> option F).
Notation stmt := (statement F).

(** ** Expressions *)
Inductive derives : nat -> list token -> stmt -> Prop :=
| d_int t v : typed t_numeric_literal t -> ch "." ∉ t_value t -> stoll (t_value t) = Ok v -> derives 0 [t] (mkStmt (t_pos t) (integer_literal v))
| d_float t v : typed t_numeric_literal t -> ch "." ∈ t_value t -> stod (t_value t) = Some v -> derives 0 [t] (mkStmt (t_pos t) (float_literal v))
| d_string t ts : typed t_string_literal t -> Forall (typed t_string_literal) ts ->
    derives 0 (t :: ts) (mkStmt (t_pos t) (string_literal (t_value t ++ (ts ≫= t_value))))
| d_ident t : typed t_identifier t -> derives 0 [t] (mkStmt (t_pos t) (identifier (t_value t)))
| d_paren o ts c s : typed t_open_paren o -> derives 10 ts s -> typed t_close_paren c -> derives 0 (o :: ts ++ [c]) s
| d_tuple o ts1 s1 k ts2 es c : typed t_open_paren o -> derives 10 ts1 s1 -> typed t_comma k -> exprs ts2 es -> typed t_close_paren c ->
    derives 0 (o :: ts1 ++ k :: ts2 ++ [c]) (mkStmt (head_pos ts1) (tuple_literal (s1 :: es)))
| d_array o ts es c : typed t_open_square_bracket o -> items ts es -> typed t_close_square_bracket c ->
    derives 0 (o :: ts ++ [c]) (mkStmt (t_pos o) (array_literal es))
| d_object o ts ps c : typed t_open_curly_bracket o -> pairs ts ps -> typed t_close_curly_bracket c ->
    derives 0 (o :: ts ++ [c]) (mkStmt (t_pos o) (object_literal ps))
| d_postfix chain ts s : postfix chain ts s -> derives 1 ts s
| d_up l ts s : (1 <= l < 10)%nat -> derives l ts s -> (l = 6%nat -> not_negated ts) -> derives (S l) ts s
| d_filter ts1 s1 k ts2 s2 : derives 2 ts1 s1 -> typed t_pipe k -> callable ts2 s2 ->
    derives 2 (ts1 ++ k :: ts2) (mkStmt (t_pos k) (filter_expression s1 s2))
| d_test ts1 s1 k ts2 s2 : derives 3 ts1 s1 -> named "is" k -> callable ts2 s2 -> not_negated ts2 ->
    derives 3 (ts1 ++ k :: ts2) (mkStmt (t_pos k) (test_expression s1 false s2))
| d_test_not ts1 s1 k n ts2 s2 : derives 3 ts1 s1 -> named "is" k -> named "not" n -> callable ts2 s2 ->
    derives 3 (ts1 ++ k :: n :: ts2) (mkStmt (t_pos k) (test_expression s1 true s2))
| d_binary l ts1 s1 k op ts2 s2 : derives l ts1 s1 -> op_tokens l k op -> derives (pred l) ts2 s2 ->
    derives l (ts1 ++ k ++ ts2) (mkStmt (head_pos k) (binary_expression op s1 s2))
| d_not k ts s : named "not" k -> derives 7 ts s -> derives 7 (k :: ts) (mkStmt (t_pos k) (unary_expression k s))
| d_ternary ts1 s1 i ts2 s2 e ts3 s3 : derives 9 ts1 s1 -> named "if" i -> derives 9 ts2 s2 -> named "else" e -> derives 10 ts3 s3 ->
    derives 10 (ts1 ++ i :: ts2 ++ e :: ts3) (mkStmt (t_pos e) (ternary_expression s2 s1 s3))
| d_select ts1 s1 i ts2 s2 : derives 9 ts1 s1 -> named "if" i -> derives 9 ts2 s2 ->
    derives 10 (ts1 ++ i :: ts2) (mkStmt (t_pos i) (select_expression s1 s2))
(** one or more expressions between commas *)
with exprs : list token -> list stmt -> Prop :=
| e_one ts s : derives 10 ts s -> exprs ts [s]
| e_more ts s k ts' es : derives 10 ts s -> typed t_comma k -> exprs ts' es -> exprs (ts ++ k :: ts') (s :: es)
(** the elements of an array, with a comma behind the last one or not *)
with items : list token -> list stmt -> Prop :=
| i_nil : items [] []
| i_last ts s : derives 10 ts s -> items ts [s]
| i_more ts s k ts' es : derives 10 ts s -> typed t_comma k -> items ts' es -> items (ts ++ k :: ts') (s :: es)
(** the entries of an object *)
with pairs : list token -> list (stmt * stmt) -> Prop :=
| p_nil : pairs [] []
| p_last ts a k ts' b : derives 10 ts a -> typed t_colon k -> derives 10 ts' b -> pairs (ts ++ k :: ts') [(a, b)]
| p_more ts a k ts' b q ts'' ps : derives 10 ts a -> typed t_colon k -> derives 10 ts' b -> typed t_comma q -> pairs ts'' ps ->
    pairs (ts ++ k :: ts' ++ q :: ts'') ((a, b) :: ps)
(** members and calls behind a primary; [chain] is the position of the first token of the current
    run of members, which all the nodes of the run have *)
with postfix : option nat -> list token -> stmt -> Prop :=
| x_primary ts s : derives 0 ts s -> postfix None ts s
| x_dot chain ts1 s1 k ts2 s2 : postfix chain ts1 s1 -> typed t_dot k -> derives 0 ts2 s2 ->
    postfix (Some (default (t_pos k) chain)) (ts1 ++ k :: ts2) (mkStmt (default (t_pos k) chain) (member_expression s1 s2 false))
| x_index chain ts1 s1 k ts2 s2 c : postfix chain ts1 s1 -> typed t_open_square_bracket k -> subscript ts2 s2 -> typed t_close_square_bracket c ->
    postfix (Some (default (t_pos k) chain)) (ts1 ++ k :: ts2 ++ [c]) (mkStmt (default (t_pos k) chain) (member_expression s1 s2 true))
| x_call chain ts1 s1 k ts2 es c : postfix chain ts1 s1 -> typed t_open_paren k -> args ts2 es -> typed t_close_paren c ->
    postfix None (ts1 ++ k :: ts2 ++ [c]) (mkStmt (t_pos k) (call_expression s1 es))
(** an index or a slice *)
with subscript : list token -> stmt -> Prop :=
| s_index ts s : derives 10 ts s -> subscript ts s
| s_slice ts1 o1 k ts2 o2 : part ts1 o1 -> typed t_colon k -> part ts2 o2 ->
    subscript (ts1 ++ k :: ts2) (mkStmt (head_pos (ts1 ++ [k])) (slice_expression o1 o2 None))
| s_slice_step ts1 o1 k ts2 o2 k' ts3 o3 : part ts1 o1 -> typed t_colon k -> part ts2 o2 -> typed t_colon k' -> part ts3 o3 ->
    subscript (ts1 ++ k :: ts2 ++ k' :: ts3) (mkStmt (head_pos (ts1 ++ [k])) (slice_expression o1 o2 o3))
with part : list token -> option stmt -> Prop :=
| part_none : part [] None
| part_some ts s : derives 10 ts s -> part ts (Some s)
(** the arguments of a call *)
with args : list token -> list stmt -> Prop :=
| a_nil : args [] []
| a_last ts s : arg ts s -> args ts [s]
| a_more ts s k ts' es : arg ts s -> typed t_comma k -> args ts' es -> args (ts ++ k :: ts') (s :: es)
with arg : list token -> stmt -> Prop :=
| arg_plain ts s : derives 10 ts s -> arg ts s
| arg_spread k ts s : typed t_multiplicative_binary_operator k -> t_value k = bytes "*" -> derives 10 ts s ->
    arg (k :: ts) (mkStmt (t_pos k) (spread_expression s))
| arg_keyword ts1 s1 k ts2 s2 : derives 10 ts1 s1 -> typed t_equals k -> derives 10 ts2 s2 ->
    arg (ts1 ++ k :: ts2) (mkStmt (t_pos k) (keyword_argument_expression s1 s2))
(** the name of a filter or a test, with arguments or not *)
with callable : list token -> stmt -> Prop :=
| c_name ts s : derives 0 ts s -> callable ts s
| c_call ts s k ts' es c : derives 0 ts s -> typed t_open_paren k -> args ts' es -> typed t_close_paren c ->
    callable (ts ++ k :: ts' ++ [c]) (mkStmt (t_pos k) (call_expression s es)).

(** ** Statements *)
(** one expression, or a tuple without parentheses *)
Inductive seq : list token -> stmt -> Prop :=
| seq_one ts s : derives 10 ts s -> seq ts s
| seq_tuple ts1 s1 k ts2 es : derives 10 ts1 s1 -> typed t_comma k -> exprs ts2 es -> seq (ts1 ++ k :: ts2) (mkStmt (head_pos ts1) (tuple_literal (s1 :: es))).
(** the variables of a loop *)
Inductive vars : list token -> list stmt -> Prop :=
| v_one ts s : derives 0 ts s -> vars ts [s]
| v_more ts s k ts' es : derives 0 ts s -> typed t_comma k -> vars ts' es -> vars (ts ++ k :: ts') (s :: es).
Inductive loop_vars : list token -> stmt -> Prop :=
| lv_one ts s : derives 0 ts s -> loop_vars ts s
| lv_tuple ts1 s1 k ts2 es : derives 0 ts1 s1 -> typed t_comma k -> vars ts2 es -> loop_vars (ts1 ++ k :: ts2) (mkStmt (head_pos ts1) (tuple_literal (s1 :: es))).
(** the tag of the word [n] without operands *)
Inductive tag (n : string) : list token -> Prop :=
| tag_intro o w c : typed t_open_statement o -> named n w -> typed t_close_statement c -> tag n [o; w; c].
Inductive call_args : list token -> list stmt -> Prop :=
| ca_intro o ts es c : typed t_open_paren o -> args ts es -> typed t_close_paren c -> call_args (o :: ts ++ [c]) es.
(** the name of a filter block, with arguments or not *)
Inductive filter_call (f : stmt) : list token -> stmt -> Prop :=
| fc_name : filter_call f [] f
| fc_call o ts es c : typed t_open_paren o -> args ts es -> typed t_close_paren c -> filter_call f (o :: ts ++ [c]) (mkStmt (t_pos o) (call_expression f es)).

Inductive st : list token -> stmt -> Prop :=
| st_text t : typed t_text t -> st [t] (mkStmt (t_pos t) (string_literal (t_value t)))
| st_comment t : typed t_comment t -> st [t] (mkStmt (t_pos t) (comment_statement (t_value t)))
| st_output o ts c s : typed t_open_expression o -> derives 10 ts s -> typed t_close_expression c -> st (o :: ts ++ [c]) s
| st_set o w ts1 s1 k ts2 s2 c : typed t_open_statement o -> named "set" w -> seq ts1 s1 -> typed t_equals k -> seq ts2 s2 -> typed t_close_statement c ->
    st (o :: w :: ts1 ++ k :: ts2 ++ [c]) (mkStmt (t_pos w) (set_statement s1 (Some s2) []))
| st_set_block o w ts1 s1 c b ss e : typed t_open_statement o -> named "set" w -> seq ts1 s1 -> typed t_close_statement c -> body b ss -> tag "endset" e ->
    st (o :: w :: ts1 ++ c :: b ++ e) (mkStmt (t_pos w) (set_statement s1 None ss))
| st_if o w ts n e : typed t_open_statement o -> named "if" w -> branches ts n -> tag "endif" e -> st (o :: w :: ts ++ e) (mkStmt (t_pos w) n)
| st_for o w ts1 s1 i ts2 s2 c b ss d alt e : typed t_open_statement o -> named "for" w -> loop_vars ts1 s1 -> named "in" i -> derives 10 ts2 s2 -> typed t_close_statement c ->
    body b ss -> otherwise d alt -> tag "endfor" e ->
    st (o :: w :: ts1 ++ i :: ts2 ++ c :: b ++ d ++ e) (mkStmt (t_pos w) (for_statement s1 s2 ss alt))
| st_macro o w ts1 s1 ts2 es c b ss e : typed t_open_statement o -> named "macro" w -> derives 0 ts1 s1 -> call_args ts2 es -> typed t_close_statement c -> body b ss -> tag "endmacro" e ->
    st (o :: w :: ts1 ++ ts2 ++ c :: b ++ e) (mkStmt (t_pos w) (macro_statement s1 es ss))
| st_call o w ts1 es1 t ts2 es2 c b ss e : typed t_open_statement o -> named "call" w -> (ts1 = [] /\ es1 = [] \/ call_args ts1 es1) -> typed t_identifier t -> call_args ts2 es2 ->
    typed t_close_statement c -> body b ss -> tag "endcall" e ->
    st (o :: w :: ts1 ++ t :: ts2 ++ c :: b ++ e)
       (mkStmt (t_pos w) (call_statement (mkStmt (t_pos w) (call_expression (mkStmt (t_pos t) (identifier (t_value t))) es2)) es1 ss))
| st_filter o w t ts n c b ss e : typed t_open_statement o -> named "filter" w -> typed t_identifier t -> filter_call (mkStmt (t_pos t) (identifier (t_value t))) ts n ->
    typed t_close_statement c -> body b ss -> tag "endfilter" e ->
    st (o :: w :: t :: ts ++ c :: b ++ e) (mkStmt (t_pos w) (filter_statement n ss))
| st_break o w c : typed t_open_statement o -> named "break" w -> typed t_close_statement c -> st [o; w; c] (mkStmt (t_pos w) break_statement)
| st_continue o w c : typed t_open_statement o -> named "continue" w -> typed t_close_statement c -> st [o; w; c] (mkStmt (t_pos w) continue_statement)
| st_generation o w c : typed t_open_statement o -> named "generation" w \/ named "endgeneration" w -> typed t_close_statement c -> st [o; w; c] (mkStmt (t_pos w) noop_statement)
(** the text of an if statement behind its word: the test, the body, and the other branches *)
with branches : list token -> node F -> Prop :=
| b_intro ts s c b ss d alt : derives 10 ts s -> typed t_close_statement c -> body b ss -> otherwise d alt -> branches (ts ++ c :: b ++ d) (if_statement s ss alt)
| b_elif ts s c b ss o w d n : derives 10 ts s -> typed t_close_statement c -> body b ss -> typed t_open_statement o -> named "elif" w -> branches d n ->
    branches (ts ++ c :: b ++ o :: w :: d) (if_statement s ss [mkStmt (t_pos o) n])
with otherwise : list token -> list stmt -> Prop :=
| o_none : otherwise [] []
| o_else e b ss : tag "else" e -> body b ss -> otherwise (e ++ b) ss
with body : list token -> list stmt -> Prop :=
| body_nil : body [] []
| body_cons ts s ts' ss : st ts s -> body ts' ss -> body (ts ++ ts') (s :: ss).
End Syntax.

Scheme derives_mut := Induction for derives Sort Prop
with exprs_mut := Induction for exprs Sort Prop
with items_mut := Induction for items Sort Prop
with pairs_mut := Induction for pairs Sort Prop
with postfix_mut := Induction for postfix Sort Prop
with subscript_mut := Induction for subscript Sort Prop
with part_mut := Induction for part Sort Prop
with args_mut := Induction for args Sort Prop
with arg_mut := Induction for arg Sort Prop
with callable_mut := Induction for callable Sort Prop.
Combined Scheme syntax_mut from derives_mut, exprs_mut, items_mut, pairs_mut, postfix_mut, subscript_mut, part_mut, args_mut, arg_mut, callable_mut.

Scheme st_mut := Induction for st Sort Prop
with branches_mut := Induction for branches Sort Prop
with otherwise_mut := Induction for otherwise Sort Prop
with body_mut := Induction for body Sort Prop.
Combined Scheme statements_mut from st_mut, branches_mut, otherwise_mut, body_mut.
