(* ===== verification/JinjaComplete.v ===== *)
(** * The parser builds the tree of every sentence of the grammar: expressions *)

From S2P Require Import Prelude Text JinjaLexer JinjaParser JinjaParserFacts JinjaSyntax.

(** ** Texts within the token list *)
Section Segments.
Context {F : Type} (toks : list token).
Notation len := (length toks).

(** [ts] stands at index [cur] *)
Definition text_at (cur : nat) (ts : list token) : Prop := forall i t, ts !! i = Some t -> toks !! (cur + i)%nat = Some t.
Lemma text_at_nil cur : text_at cur [].
Proof. intros i t. by rewrite lookup_nil. Qed.
Lemma text_at_app cur a b : text_at cur (a ++ b) <-> text_at cur a /\ text_at (cur + length a) b.
Proof.
  split.
  - intros H. split; intros i t Hi; [apply H; by apply lookup_app_l_Some |].
    rewrite <- Nat.add_assoc. apply H. rewrite lookup_app_r by lia. by replace (length a + i - length a)%nat with i by lia.
  - intros [Ha Hb] i t [Hi | [Hl Hi] ]%lookup_app_Some; [by apply Ha |]. apply Hb in Hi. by replace (cur + i)%nat with (cur + length a + (i - length a))%nat by lia.
Qed.
Lemma text_at_cons cur t ts : text_at cur (t :: ts) <-> toks !! cur = Some t /\ text_at (S cur) ts.
Proof.
  change (t :: ts) with ([t] ++ ts). rewrite text_at_app. simpl. replace (cur + 1)%nat with (S cur) by lia. split; intros [H1 H2]; (split; [| done]).
  - specialize (H1 O t eq_refl). by rewrite Nat.add_0_r in H1.
  - intros [| i] u; simpl; [| done]. intros [= <-]. by rewrite Nat.add_0_r.
Qed.

(** ** What a token at an index decides *)
Lemma is_tok_at ty cur t : toks !! cur = Some t -> is_tok toks ty cur = bool_decide (t_type t = ty).
Proof. intros H. unfold is_tok, peek_tok. by rewrite Nat.add_0_r, H. Qed.
Lemma is_identifier_at n cur t : toks !! cur = Some t -> is_identifier toks n cur = bool_decide (t_type t = t_identifier) && bool_decide (t_value t = bytes n).
Proof. intros H. unfold is_identifier, is_id_at, peek_tok. by rewrite Nat.add_0_r, H. Qed.
Lemma is_tok_typed ty ty' cur t : toks !! cur = Some t -> typed ty t -> is_tok toks ty' cur = bool_decide (ty = ty').
Proof. intros H Ht. by rewrite (is_tok_at _ _ _ H), Ht. Qed.
Lemma is_identifier_typed ty n cur t : toks !! cur = Some t -> typed ty t -> ty <> t_identifier -> is_identifier toks n cur = false.
Proof. intros H Ht Hn. rewrite (is_identifier_at _ _ _ H), Ht. by rewrite bool_decide_false. Qed.
Lemma is_identifier_named n m cur t : toks !! cur = Some t -> named m t -> is_identifier toks n cur = bool_decide (bytes m = bytes n).
Proof. intros H [Ht Hv]. rewrite (is_identifier_at _ _ _ H), Ht, Hv. by rewrite bool_decide_true. Qed.
Lemma named_typed n t : named n t -> typed t_identifier t.
Proof. by intros [? _]. Qed.
Lemma next_at cur t : toks !! cur = Some t -> next_tok toks cur = Ok (t, S cur).
Proof. intros H. unfold next_tok. by rewrite H. Qed.
Lemma expect_at ty e cur t : toks !! cur = Some t -> typed ty t -> expect_tok toks ty e cur = Ok (tt, S cur).
Proof. intros H Ht. unfold expect_tok. by rewrite (is_tok_typed _ _ _ _ H Ht), bool_decide_true. Qed.
Lemma mk_stmt_at i t (n : node F) : toks !! i = Some t -> mk_stmt toks i n = Ok (mkStmt (t_pos t) n).
Proof. intros H. unfold mk_stmt. by rewrite H. Qed.
Lemma mk_at i t (n : node F) cur : toks !! i = Some t -> mk toks i n cur = Ok (mkStmt (t_pos t) n, cur).
Proof. intros H. unfold mk. by rewrite (mk_stmt_at _ _ _ H). Qed.

(** ** Where an expression of a level ends: no token that continues it follows *)
Definition cont_at (l cur : nat) : bool :=
  match l with
  | 0 => is_tok toks t_string_literal cur
  | 1 => is_tok toks t_dot cur || is_tok toks t_open_square_bracket cur || is_tok toks t_open_paren cur
  | 2 => is_tok toks t_pipe cur
  | 3 => is_identifier toks "is" cur
  | 4 => is_tok toks t_multiplicative_binary_operator cur
  | 5 => is_tok toks t_additive_binary_operator cur
  | 6 => bool_decide (is_Some (op_comparison toks cur))
  | 7 => false
  | 8 => is_identifier toks "and" cur
  | 9 => is_identifier toks "or" cur
  | _ => is_identifier toks "if" cur || is_identifier toks "else" cur
  end%nat.
Definition stops (l cur : nat) : Prop := forall l', (l' <= l)%nat -> cont_at l' cur = false.
Lemma stops_le l l' cur : stops l cur -> (l' <= l)%nat -> stops l' cur.
Proof. intros H Hl l'' ?. apply H. lia. Qed.
Definition closer (ty : token_type) : Prop :=
  ty ∈ [t_close_paren; t_close_square_bracket; t_close_curly_bracket; t_comma; t_colon; t_equals; t_close_statement; t_close_expression].
Lemma op_comparison_at cur t : toks !! cur = Some t -> t_type t <> t_comparison_binary_operator ->
  is_identifier toks "not" cur = false -> is_identifier toks "in" cur = false -> op_comparison toks cur = None.
Proof.
  intros H Ht Hn Hi. unfold op_comparison, op_name, op_type. rewrite Hn, Hi, (is_tok_at _ _ _ H). by rewrite bool_decide_false.
Qed.
Lemma stops_closer ty cur t : toks !! cur = Some t -> typed ty t -> closer ty -> stops 10 cur.
Proof.
  intros H Ht Hc l Hl. assert (ty <> t_identifier) as Hi by (intros ->; unfold closer in Hc; set_solver).
  assert (Hid : forall n, is_identifier toks n cur = false) by (intros n; by eapply is_identifier_typed).
  destruct l as [| [| [| [| [| [| [| [| [| [| l] ] ] ] ] ] ] ] ] ]; cbn [cont_at]; rewrite ?(is_tok_typed _ _ _ _ H Ht), ?Hid; try done;
    rewrite ?bool_decide_false; try done; try (intros ->; unfold closer in Hc; set_solver).
  rewrite (op_comparison_at _ _ H); [by intros [? [=] ] | rewrite Ht; intros ->; unfold closer in Hc; set_solver | apply Hid | apply Hid].
Qed.
Lemma stops_word n cur t l : toks !! cur = Some t -> named n t -> (l <= 10)%nat ->
  (3 <= l -> bytes n <> bytes "is")%nat -> (6 <= l -> bytes n <> bytes "in" /\ bytes n <> bytes "not")%nat -> (8 <= l -> bytes n <> bytes "and")%nat ->
  (9 <= l -> bytes n <> bytes "or")%nat -> (10 <= l -> bytes n <> bytes "if" /\ bytes n <> bytes "else")%nat -> stops l cur.
Proof.
  intros H Hn Hl H3 H6 H8 H9 H10 l' Hl'. pose proof (named_typed _ _ Hn) as Ht.
  destruct l' as [| [| [| [| [| [| [| [| [| [| l'] ] ] ] ] ] ] ] ] ]; cbn [cont_at];
    rewrite ?(is_tok_typed _ _ _ _ H Ht), ?(is_identifier_named _ _ _ _ H Hn); rewrite ?bool_decide_false; try done; auto with lia.
  - rewrite (op_comparison_at _ _ H); [by intros [? [=] ] | by rewrite Ht | |];
      rewrite (is_identifier_named _ _ _ _ H Hn), bool_decide_false; try done; apply H6; lia.
  - apply H10; lia.
  - apply H10; lia.
Qed.
(** an operator ends the operands of its level *)
Lemma stops_op l k op cur : op_tokens l k op -> text_at cur k -> stops (pred l) cur.
Proof.
  intros Hop Hk. assert (Hty : forall t ty l, toks !! cur = Some t -> typed ty t ->
    (ty = t_multiplicative_binary_operator /\ l = 3 \/ ty = t_additive_binary_operator /\ l = 4 \/ ty = t_comparison_binary_operator /\ l = 5)%nat -> stops l cur).
  { intros t ty l0 H Ht Hl l' Hl'. assert (Hid : forall n, is_identifier toks n cur = false) by (intros n; eapply is_identifier_typed; [done | done |]; intros ->; naive_solver).
    destruct l' as [| [| [| [| [| [| l'] ] ] ] ] ]; cbn [cont_at]; rewrite ?(is_tok_typed _ _ _ _ H Ht), ?Hid; try done;
      rewrite ?bool_decide_false; try done; try lia; intros ->; naive_solver lia. }
  destruct Hop as [t Ht | t Ht | t Ht | t Ht | t t' Ht Ht' | t Ht | t Ht]; apply text_at_cons in Hk as [Hk _]; cbn [pred];
    try (eapply Hty; [exact Hk | exact Ht | naive_solver]); eapply stops_word; try exact Hk; try exact Ht; try lia; intros; try split; discriminate.
Qed.
End Segments.

(** ** How an expression starts *)
Definition starter (ty : token_type) : Prop :=
  ty ∈ [t_numeric_literal; t_string_literal; t_identifier; t_open_paren; t_open_square_bracket; t_open_curly_bracket].
Definition starts (ts : list token) : Prop := exists t ts', ts = t :: ts' /\ starter (t_type t).
Lemma starts_app a b : starts a -> starts (a ++ b).
Proof. intros (t & ts' & -> & H). by exists t, (ts' ++ b). Qed.
Lemma syntax_starts {F : Type} (stod : list Z -> option F) :
  (forall l ts s, derives stod l ts s -> starts ts) /\ (forall ts es, exprs stod ts es -> True) /\ (forall ts es, items stod ts es -> True) /\ (forall ts ps, pairs stod ts ps -> True)
  /\ (forall ch ts s, postfix stod ch ts s -> starts ts) /\ (forall ts s, subscript stod ts s -> True) /\ (forall ts o, part stod ts o -> True)
  /\ (forall ts es, args stod ts es -> True) /\ (forall ts s, arg stod ts s -> True) /\ (forall ts s, callable stod ts s -> True).
Proof.
  apply (syntax_mut F stod (fun _ ts _ _ => starts ts) (fun _ _ _ => True) (fun _ _ _ => True) (fun _ _ _ => True) (fun _ ts _ _ => starts ts)
    (fun _ _ _ => True) (fun _ _ _ => True) (fun _ _ _ => True) (fun _ _ _ => True) (fun _ _ _ => True)); intros; try done; try (by apply starts_app);
    try (eexists _, _; split; [reflexivity |]; unfold typed in *; match goal with H : t_type _ = _ |- _ => rewrite H end; unfold starter; set_solver).
  eexists _, _. split; [reflexivity |]. match goal with H : named _ _ |- _ => destruct H as [-> _] end. unfold starter; set_solver.
Qed.
Lemma derives_starts {F} (stod : list Z -> option F) l ts s : derives stod l ts s -> starts ts.
Proof. apply (proj1 (syntax_starts stod)). Qed.

Section Complete.
Context {F : Type} (stod : list Z -> option F) (toks : list token).
Notation stmt := (statement F).
Notation parser A := (nat -> res (A * nat)).
Notation len := (length toks).
Notation text_at := (text_at toks).
Notation stops := (stops toks).

Lemma text_at_length cur t ts : text_at cur (t :: ts) -> (cur + length (t :: ts) <= len)%nat.
Proof.
  intros H. destruct (last (t :: ts)) as [u |] eqn:E; [| by apply last_None in E].
  rewrite last_lookup in E. apply H, lookup_lt_Some in E. simpl in *. lia.
Qed.
Lemma starts_length cur ts : text_at cur ts -> starts ts -> (cur < len)%nat.
Proof. intros H (t & ts' & -> & _). apply text_at_length in H. simpl in H. lia. Qed.
Lemma starts_head cur ts : text_at cur ts -> starts ts -> exists t, toks !! cur = Some t /\ head ts = Some t /\ starter (t_type t).
Proof. intros H (t & ts' & -> & Ht). apply text_at_cons in H as [H _]. eauto. Qed.
Lemma starter_not ty cur ts : text_at cur ts -> starts ts -> ~ starter ty -> is_tok toks ty cur = false.
Proof.
  intros H Hs Hty. destruct (starts_head _ _ H Hs) as (t & Ht & _ & Hst). rewrite (is_tok_at _ _ _ _ Ht). apply bool_decide_false. by intros <-.
Qed.
Lemma head_pos_at cur ts t : text_at cur ts -> toks !! cur = Some t -> starts ts -> head_pos ts = t_pos t.
Proof. intros H Ht (u & ts' & -> & _). apply text_at_cons in H as [H _]. simpl. congruence. Qed.

(** ** The parsing functions by level *)
Definition lp (l : nat) (expr : parser stmt) : parser stmt :=
  match l with
  | 0 => parse_primary_expression stod toks expr
  | 1 => parse_call_member_expression stod toks expr
  | 2 => parse_filter_expression stod toks expr
  | 3 => parse_test_expression stod toks expr
  | 4 => parse_multiplicative_expression stod toks expr
  | 5 => parse_additive_expression stod toks expr
  | 6 => parse_comparison_expression stod toks expr
  | 7 => parse_logical_negation_expression stod toks expr
  | 8 => parse_logical_and_expression stod toks expr
  | 9 => parse_logical_or_expression stod toks expr
  | _ => parse_if_expression stod toks expr
  end%nat.
Definition op_at (l : nat) : nat -> option (token * nat) :=
  match l with
  | 4 => op_type toks t_multiplicative_binary_operator
  | 5 => op_type toks t_additive_binary_operator
  | 6 => op_comparison toks
  | 8 => op_name toks "and"
  | _ => op_name toks "or"
  end%nat.
Definition binary (l : nat) : Prop := l ∈ [4; 5; 6; 8; 9]%nat.
(** the state of a level's loop that has built [s] and stands at [cur] *)
Definition looped (l : nat) (expr : parser stmt) (fuel : nat) (s : stmt) (cur : nat) : res (stmt * nat) :=
  match l with
  | 2 => filter_loop stod toks expr fuel s cur
  | 3 => test_loop stod toks expr fuel s cur
  | 4 | 5 | 6 | 8 | 9 => binary_loop toks (op_at l) (lp (pred l) expr) fuel s cur
  | _ => Ok (s, cur)
  end%nat.
Lemma lp_binary l expr cur : binary l -> lp l expr cur = binary_level toks (op_at l) (lp (pred l) expr) cur.
Proof. unfold binary. rewrite !elem_of_cons, elem_of_nil. intros [-> | [-> | [-> | [-> | [-> | []] ] ] ] ]; reflexivity. Qed.
Lemma looped_binary l expr f s cur : binary l -> looped l expr f s cur = binary_loop toks (op_at l) (lp (pred l) expr) f s cur.
Proof. unfold binary. rewrite !elem_of_cons, elem_of_nil. intros [-> | [-> | [-> | [-> | [-> | []] ] ] ] ]; reflexivity. Qed.
Lemma op_at_tokens l k op cur : op_tokens l k op -> text_at cur k -> binary l /\ op_at l cur = Some (op, cur + length k)%nat /\ (exists t, toks !! cur = Some t /\ head_pos k = t_pos t).
Proof.
  intros Hop Hk. unfold binary. destruct Hop as [t Ht | t Ht | t Ht | t Ht | t t' Ht Ht' | t Ht | t Ht]; apply text_at_cons in Hk as [Hk Hk'];
    (split; [set_solver |]); (split; [| by exists t]); unfold op_at, op_comparison, op_type, op_name, peek_tok;
    try rewrite (is_identifier_named _ "not" _ _ _ Hk Ht); try rewrite (is_identifier_typed _ _ "not" _ _ Hk Ht ltac:(done));
    try rewrite (is_identifier_named _ "in" _ _ _ Hk Ht); try rewrite (is_identifier_typed _ _ "in" _ _ Hk Ht ltac:(done));
    rewrite ?(is_tok_typed _ _ _ _ _ Hk Ht), ?(is_identifier_named _ _ _ _ _ Hk Ht), ?Nat.add_0_r, ?Hk; try (simpl; repeat f_equal; lia).
  apply text_at_cons in Hk' as [Hk' _]. rewrite bool_decide_true by done. unfold is_id_at, peek_tok.
  replace (cur + 1)%nat with (S cur) by lia. destruct Ht' as [Ht1 Ht2]. rewrite Hk'. simpl default. rewrite Ht1, Ht2, !bool_decide_true by done. simpl. repeat f_equal; lia.
Qed.

(** the function for nested expressions, with fuel enough behind [c] *)
Definition fueled (c : nat) (expr : parser stmt) : Prop :=
  forall cur, (c < cur)%nat -> (c < len)%nat -> exists n, (len - cur < n)%nat /\ expr cur = parse_expression_fuel stod toks n cur.
Lemma fueled_le c c' expr : fueled c expr -> (c <= c')%nat -> fueled c' expr.
Proof. intros H Hc cur ??. apply H; lia. Qed.
Definition level_below (l : nat) : nat := match l with 0 => 0 | 1 => 1 | 10 => 10 | _ => pred l end%nat.

Lemma level_below_le l : (level_below l <= l)%nat.
Proof. do 11 (destruct l as [| l]; [simpl; lia |]). simpl. lia. Qed.

(** what holds of the text of a node: the level's function reads it and is in its loop behind it *)
Definition claim (l : nat) (ts : list token) (s : stmt) : Prop :=
  forall cur e expr, e = (cur + length ts)%nat -> fueled cur expr -> text_at cur ts -> stops (level_below l) e ->
  match l with
  | 7 => forall f, (len - cur < f)%nat -> negation_loop stod toks expr f cur = Ok (s, e)
  | _ => exists f, (len - e < f)%nat /\ lp l expr cur = looped l expr f s e
  end%nat.
Lemma claim_exact l ts s cur e expr : claim l ts s -> (l <= 10)%nat -> e = (cur + length ts)%nat -> fueled cur expr -> text_at cur ts -> stops l e ->
  lp l expr cur = Ok (s, e).
Proof.
  intros Hc Hl He Hx Hs Hst. specialize (Hc cur e expr He Hx Hs (stops_le _ _ _ _ Hst (level_below_le l))).
  pose proof (Hst l (le_n _)) as Hco.
  destruct l as [| [| [| [| [| [| [| [| [| [| [| l] ] ] ] ] ] ] ] ] ] ]; [..| lia]; cbn [cont_at] in Hco;
    try (apply Hc; unfold loops; lia);
    (destruct Hc as (f & Hf & ->); cbn [looped]; try done; (destruct f as [| f]; [lia |]); cbn [filter_loop test_loop binary_loop op_at]).
  1,2: by rewrite Hco.
  all: unfold op_type, op_name; try rewrite Hco; try done. apply bool_decide_eq_false in Hco. destruct (op_comparison toks e); [| done]. by destruct Hco.
Qed.
Lemma nested c ts s cur e expr : claim 10 ts s -> fueled c expr -> (c < cur)%nat -> (c < len)%nat -> starts ts -> e = (cur + length ts)%nat -> text_at cur ts -> stops 10 e ->
  expr cur = Ok (s, e).
Proof.
  intros Hc Hx H1 H2 Hst He Hs Hstop. destruct (Hx cur H1 H2) as (n & Hn & ->). pose proof (starts_length _ _ Hs Hst) as Hl. destruct n as [| n]; [lia |]. cbn [parse_expression_fuel].
  apply (claim_exact 10 ts s cur e (parse_expression_fuel stod toks n)); try done. intros cur' ??. exists n. split; [lia | done].
Qed.
End Complete.
