(* ===== verification/JinjaExprs.v ===== *)
(** * Every expression of the grammar is parsed to its tree: the rules *)

From S2P Require Import Prelude Text JinjaLexer JinjaParser JinjaParserFacts JinjaSyntax JinjaComplete.

(** the tokens of a text at their indices, and its length *)
Ltac split_text :=
  repeat match goal with
    | H : text_at _ _ (_ ++ _) |- _ => apply text_at_app in H as [? ?]
    | H : text_at _ _ (_ :: _) |- _ => apply text_at_cons in H as [? ?]
    | H : text_at _ _ [] |- _ => clear H
    end;
  repeat first [progress cbn [length] in * | progress rewrite length_app in *].

Section Rules.
Context {F : Type} (stod : list Z -> option F) (toks : list token).
Notation stmt := (statement F).
Notation parser A := (nat -> res (A * nat)).
Notation len := (length toks).
Notation text_at := (text_at toks).
Notation stops := (stops toks).
Notation claim := (claim stod toks).
Notation fueled := (fueled stod toks).

Definition tok_at (e : nat) (ty : token_type) : Prop := exists k, toks !! e = Some k /\ typed ty k.
Lemma tok_at_intro e k ty : toks !! e = Some k -> typed ty k -> tok_at e ty.
Proof. by exists k. Qed.

Definition inner (c cur : nat) (expr : parser stmt) : Prop := fueled c expr /\ (c < cur)%nat /\ (c < len)%nat.
Lemma inner_le c cur cur' expr : inner c cur expr -> (cur <= cur')%nat -> inner c cur' expr.
Proof. unfold inner. intros (? & ? & ?) ?. split_and!; [done | lia | lia]. Qed.
Lemma fueled_inner c cur expr : fueled c expr -> (c < cur)%nat -> (c < len)%nat -> inner c cur expr.
Proof. unfold inner. by intros. Qed.
(** an expression inside another construct *)
Definition inside (ts : list token) (s : stmt) : Prop := claim 10 ts s /\ starts ts.
Lemma inside_parse c ts s cur e expr : inside ts s -> inner c cur expr -> text_at cur ts -> e = (cur + length ts)%nat -> stops 10 e -> expr cur = Ok (s, e).
Proof. intros [Hc Hs] (Hx & H1 & H2) Hg He Hst. by eapply nested. Qed.
Lemma tok_at_closer e ty : tok_at e ty -> closer ty -> stops 10 e.
Proof. intros (k & Hk & Ht) Hc. by eapply stops_closer. Qed.
Lemma tok_at_is e ty ty' : tok_at e ty -> is_tok toks ty' e = bool_decide (ty = ty').
Proof. intros (k & Hk & Ht). by eapply is_tok_typed. Qed.
Lemma inside_not ts s cur ty : inside ts s -> text_at cur ts -> ~ starter ty -> is_tok toks ty cur = false.
Proof. intros [_ Hs] Hg Hn. by eapply starter_not. Qed.
#[local] Hint Extern 2 (closer _) => unfold closer; set_solver : core.
#[local] Hint Extern 2 (~ starter _) => unfold starter; set_solver : core.

Ltac side := solve [done | lia | eapply inner_le; [done | lia] | eapply tok_at_closer; [done |]; auto | auto].

(** ** Lists *)
Definition exprs_claim (ts : list token) (es : list stmt) : Prop := forall c cur e expr f acc,
  inner c cur expr -> tok_at cur t_comma -> text_at (S cur) ts -> e = (S cur + length ts)%nat -> stops 10 e -> is_tok toks t_comma e = false -> (len - cur < f)%nat ->
  sequence_loop toks expr f acc cur = Ok (acc ++ es, e).
Lemma exprs_one ts s : inside ts s -> exprs_claim ts [s].
Proof.
  intros Hi c cur e expr f acc Hc Hk Hg He Hst Hcm Hf. destruct f as [| f]; [lia |]. cbn [sequence_loop]. rewrite (tok_at_is _ _ _ Hk), bool_decide_true by done.
  rewrite (inside_parse c ts s (S cur) e expr Hi (inner_le _ cur _ _ Hc (Nat.le_succ_diag_r cur)) Hg He Hst). cbn [rbind].
  destruct Hk as (k & Hk & _). apply lookup_lt_Some in Hk. destruct f as [| f]; [lia |]. cbn [sequence_loop]. by rewrite Hcm.
Qed.
Lemma exprs_more ts s k ts' es : inside ts s -> typed t_comma k -> exprs_claim ts' es -> exprs_claim (ts ++ k :: ts') (s :: es).
Proof.
  intros Hi Hk IH c cur e expr f acc Hc Hk0 Hg He Hst Hcm Hf. split_text. destruct f as [| f]; [lia |]. cbn [sequence_loop]. rewrite (tok_at_is _ _ _ Hk0), bool_decide_true by done.
  assert (tok_at (S cur + length ts) t_comma) as Hk' by (by eapply tok_at_intro).
  erewrite (inside_parse c ts s (S cur)) by side. cbn [rbind].
  destruct Hk0 as (k0 & Hk0 & _). apply lookup_lt_Some in Hk0.
  rewrite (IH c (S cur + length ts)%nat e expr f (acc ++ [s])) by side. by rewrite <- app_assoc.
Qed.
Definition items_claim (ts : list token) (es : list stmt) : Prop := forall c cur e expr f acc,
  inner c cur expr -> text_at cur ts -> e = (cur + length ts)%nat -> tok_at e t_close_square_bracket -> (len - cur < f)%nat ->
  array_loop toks expr f acc cur = Ok (acc ++ es, e).
Lemma items_nil : items_claim [] [].
Proof.
  intros c cur e expr f acc Hc Hg He Ht Hf. destruct f as [| f]; [lia |]. cbn [array_loop length] in *. replace e with cur in * by lia.
  rewrite (tok_at_is _ _ _ Ht), bool_decide_true by done. by rewrite app_nil_r.
Qed.
Lemma items_last ts s : inside ts s -> items_claim ts [s].
Proof.
  intros Hi c cur e expr f acc Hc Hg He Ht Hf. destruct f as [| f]; [lia |]. cbn [array_loop]. rewrite (inside_not _ _ _ _ Hi Hg) by auto.
  rewrite (inside_parse c ts s cur e expr Hi Hc Hg He) by side. cbn [rbind]. rewrite (tok_at_is _ _ _ Ht), bool_decide_false by done.
  pose proof (starts_length _ _ _ Hg (proj2 Hi)). assert (cur < e)%nat by (destruct Hi as [_ (? & ? & -> & _)]; simpl in He; lia).
  destruct f as [| f]; [lia |]. cbn [array_loop]. by rewrite (tok_at_is _ _ _ Ht), bool_decide_true.
Qed.
Lemma items_more ts s k ts' es : inside ts s -> typed t_comma k -> items_claim ts' es -> items_claim (ts ++ k :: ts') (s :: es).
Proof.
  intros Hi Hk IH c cur e expr f acc Hc Hg He Ht Hf. split_text. destruct f as [| f]; [lia |]. cbn [array_loop]. rewrite (inside_not _ _ _ _ Hi H) by auto.
  assert (tok_at (cur + length ts) t_comma) as Hk' by (by eapply tok_at_intro). pose proof (starts_length _ _ _ H (proj2 Hi)).
  erewrite (inside_parse c ts s cur) by side. cbn [rbind]. rewrite (tok_at_is _ _ _ Hk'), bool_decide_true by done.
  rewrite (IH c _ e expr f (acc ++ [s])) by side. by rewrite <- app_assoc.
Qed.
Definition pairs_claim (ts : list token) (ps : list (stmt * stmt)) : Prop := forall c cur e expr f acc,
  inner c cur expr -> text_at cur ts -> e = (cur + length ts)%nat -> tok_at e t_close_curly_bracket -> (len - cur < f)%nat ->
  object_loop toks expr f acc cur = Ok (acc ++ ps, e).
Lemma pairs_nil : pairs_claim [] [].
Proof.
  intros c cur e expr f acc Hc Hg He Ht Hf. destruct f as [| f]; [lia |]. cbn [object_loop length] in *. replace e with cur in * by lia.
  rewrite (tok_at_is _ _ _ Ht), bool_decide_true by done. by rewrite app_nil_r.
Qed.
(** one entry, up to the token behind it *)
Lemma pair_entry ts a k ts' b c cur e expr f acc ty : inside ts a -> typed t_colon k -> inside ts' b -> inner c cur expr -> text_at cur (ts ++ k :: ts') ->
  e = (cur + length (ts ++ k :: ts'))%nat -> tok_at e ty -> closer ty ->
  object_loop toks expr (S f) acc cur = object_loop toks expr f (acc ++ [(a, b)]) (if is_tok toks t_comma e then S e else e).
Proof.
  intros Ha Hk Hb Hc Hg He Ht Hcl. split_text. cbn [object_loop]. rewrite (inside_not _ _ _ _ Ha H) by auto.
  assert (tok_at (cur + length ts) t_colon) as Hk' by (by eapply tok_at_intro).
  erewrite (inside_parse c ts a cur) by side. cbn [rbind]. erewrite expect_at by done. cbn [rbind].
  rewrite (inside_parse c ts' b (S (cur + length ts)) e expr Hb); [done | side ..].
Qed.
Lemma pairs_last ts a k ts' b : inside ts a -> typed t_colon k -> inside ts' b -> pairs_claim (ts ++ k :: ts') [(a, b)].
Proof.
  intros Ha Hk Hb c cur e expr f acc Hc Hg He Ht Hf. destruct f as [| f]; [lia |]. rewrite (pair_entry ts a k ts' b c cur e expr f acc t_close_curly_bracket) by side.
  rewrite (tok_at_is _ _ _ Ht), bool_decide_false by done. split_text. pose proof (starts_length _ _ _ H (proj2 Ha)).
  destruct f as [| f]; [lia |]. cbn [object_loop]. by rewrite (tok_at_is _ _ _ Ht), bool_decide_true.
Qed.
Lemma pairs_more ts a k ts' b q ts'' ps : inside ts a -> typed t_colon k -> inside ts' b -> typed t_comma q -> pairs_claim ts'' ps ->
  pairs_claim (ts ++ k :: ts' ++ q :: ts'') ((a, b) :: ps).
Proof.
  intros Ha Hk Hb Hq IH c cur e expr f acc Hc Hg He Ht Hf. destruct f as [| f]; [lia |].
  replace (ts ++ k :: ts' ++ q :: ts'') with ((ts ++ k :: ts') ++ q :: ts'') in * by (by rewrite <- app_assoc).
  apply text_at_app in Hg as [Hg Hg2]. apply text_at_cons in Hg2 as [Hq' Hg2]. assert (tok_at (cur + length (ts ++ k :: ts')) t_comma) as Hk' by (by eapply tok_at_intro).
  rewrite (pair_entry ts a k ts' b c cur (cur + length (ts ++ k :: ts'))%nat expr f acc t_comma) by side.
  rewrite (tok_at_is _ _ _ Hk'), bool_decide_true by done. split_text. pose proof (starts_length _ _ _ H (proj2 Ha)).
  rewrite (IH c _ e expr f (acc ++ [(a, b)])) by side. by rewrite <- app_assoc.
Qed.

(** ** Arguments and subscripts *)
Definition arg_claim (ts : list token) (s : stmt) : Prop := forall c cur e expr,
  inner c cur expr -> text_at cur ts -> e = (cur + length ts)%nat -> stops 10 e -> is_tok toks t_equals e = false ->
  is_tok toks t_close_paren cur = false /\ (cur < len)%nat /\ (cur < e)%nat /\ parse_arg toks expr cur = Ok (s, e).
Lemma inside_range ts s cur : inside ts s -> text_at cur ts -> (cur < len)%nat /\ (0 < length ts)%nat.
Proof. intros [_ Hs] Hg. split; [by eapply starts_length |]. destruct Hs as (? & ? & -> & _). simpl. lia. Qed.
Lemma arg_plain_ok ts s : inside ts s -> arg_claim ts s.
Proof.
  intros Hi c cur e expr Hc Hg He Hst Heq. destruct (inside_range _ _ _ Hi Hg). rewrite (inside_not _ _ _ _ Hi Hg) by auto. split_and!; [done | done | lia |].
  unfold parse_arg. rewrite (inside_not _ _ _ t_multiplicative_binary_operator Hi Hg) by auto. cbn [andb].
  rewrite (inside_parse c ts s cur e expr) by side. cbn [rbind]. by rewrite Heq.
Qed.
Lemma arg_spread_ok k ts s : typed t_multiplicative_binary_operator k -> t_value k = bytes "*" -> inside ts s -> arg_claim (k :: ts) (mkStmt (t_pos k) (spread_expression s)).
Proof.
  intros Hk Hv Hi c cur e expr Hc Hg He Hst Heq. split_text. rewrite (is_tok_typed _ _ _ _ _ H Hk), bool_decide_false by done.
  pose proof (lookup_lt_Some _ _ _ H). split_and!; [done | lia | lia |].
  unfold parse_arg. rewrite (is_tok_typed _ _ _ _ _ H Hk), bool_decide_true by done. unfold peek_tok. rewrite Nat.add_0_r, H. simpl default. rewrite Hv, bool_decide_true by done. cbn [andb].
  rewrite (inside_parse c ts s (S cur) e expr) by side. cbn [rbind]. by erewrite mk_at.
Qed.
Lemma arg_keyword_ok ts1 s1 k ts2 s2 : inside ts1 s1 -> typed t_equals k -> inside ts2 s2 -> arg_claim (ts1 ++ k :: ts2) (mkStmt (t_pos k) (keyword_argument_expression s1 s2)).
Proof.
  intros Hi Hk Hi2 c cur e expr Hc Hg He Hst Heq. split_text. destruct (inside_range _ _ _ Hi H). rewrite (inside_not _ _ _ _ Hi H) by auto. split_and!; [done | done | lia |].
  unfold parse_arg. rewrite (inside_not _ _ _ t_multiplicative_binary_operator Hi H) by auto. cbn [andb].
  assert (tok_at (cur + length ts1) t_equals) as Hk' by (by eapply tok_at_intro).
  erewrite (inside_parse c ts1 s1 cur) by side. cbn [rbind]. rewrite (tok_at_is _ _ _ Hk'), bool_decide_true by done.
  rewrite (inside_parse c ts2 s2 (S (cur + length ts1)) e expr) by side. cbn [rbind]. by erewrite mk_at.
Qed.
Definition args_claim (ts : list token) (es : list stmt) : Prop := forall c cur e expr f acc,
  inner c cur expr -> text_at cur ts -> e = (cur + length ts)%nat -> tok_at e t_close_paren -> (len - cur < f)%nat -> args_loop toks expr f acc cur = Ok (acc ++ es, e).
Lemma args_nil : args_claim [] [].
Proof.
  intros c cur e expr f acc Hc Hg He Ht Hf. destruct f as [| f]; [lia |]. cbn [args_loop length] in *. replace e with cur in * by lia.
  rewrite (tok_at_is _ _ _ Ht), bool_decide_true by done. by rewrite app_nil_r.
Qed.
Lemma args_last ts s : arg_claim ts s -> args_claim ts [s].
Proof.
  intros Hi c cur e expr f acc Hc Hg He Ht Hf. destruct f as [| f]; [lia |]. cbn [args_loop].
  destruct (Hi c cur e expr) as (Hp & ? & ? & ->); [side .. | by rewrite (tok_at_is _ _ _ Ht) |]. rewrite Hp. cbn [rbind]. rewrite (tok_at_is _ _ _ Ht), bool_decide_false by done.
  destruct f as [| f]; [lia |]. cbn [args_loop]. by rewrite (tok_at_is _ _ _ Ht), bool_decide_true.
Qed.
Lemma args_more ts s k ts' es : arg_claim ts s -> typed t_comma k -> args_claim ts' es -> args_claim (ts ++ k :: ts') (s :: es).
Proof.
  intros Hi Hk IH c cur e expr f acc Hc Hg He Ht Hf. split_text. destruct f as [| f]; [lia |]. cbn [args_loop].
  assert (tok_at (cur + length ts) t_comma) as Hk' by (by eapply tok_at_intro).
  destruct (Hi c cur (cur + length ts)%nat expr) as (Hp & ? & ? & ->); [side .. | by rewrite (tok_at_is _ _ _ Hk') |]. rewrite Hp. cbn [rbind]. rewrite (tok_at_is _ _ _ Hk'), bool_decide_true by done.
  rewrite (IH c _ e expr f (acc ++ [s])) by side. by rewrite <- app_assoc.
Qed.
Lemma parse_args_ok k ts es c cur e expr : args_claim ts es -> typed t_open_paren k -> fueled cur expr -> text_at cur (k :: ts ++ [c]) -> typed t_close_paren c ->
  e = (cur + length (k :: ts ++ [c]))%nat -> parse_args toks expr cur = Ok (es, e).
Proof.
  intros Ha Hk Hx Hg Hc He. split_text. unfold parse_args. pose proof (lookup_lt_Some _ _ _ H). erewrite expect_at by done. cbn [rbind].
  erewrite (Ha cur (S cur)); [| by apply fueled_inner; [| lia |] | done | done | by eapply tok_at_intro | unfold loops; lia]. cbn [rbind].
  erewrite expect_at by done. cbn [rbind]. repeat f_equal. lia.
Qed.

(** a part of a slice, up to its colon or up to the bracket *)
Definition part_claim (ts : list token) (o : option stmt) : Prop := forall c cur e expr f acc b, inner c cur expr -> text_at cur ts -> e = (cur + length ts)%nat -> (len - cur < f)%nat ->
  (tok_at e t_colon -> exists f', (len - S e < f')%nat /\ slice_loop toks expr f acc b cur = slice_loop toks expr f' (acc ++ [o]) true (S e))
  /\ (tok_at e t_close_square_bracket -> slice_loop toks expr f acc b cur = Ok (acc ++ match o with Some s => [Some s] | None => [] end, b, e)).
Lemma part_none_ok : part_claim [] None.
Proof.
  intros c cur e expr f acc b Hc Hg He Hf. cbn [length] in He. replace e with cur in * by lia. destruct f as [| f]; [lia |]. cbn [slice_loop]. split; intros Ht.
  - exists f. rewrite !(tok_at_is _ _ _ Ht), bool_decide_false, bool_decide_true by done. split; [| done].
    destruct Ht as (k & Hk & _). apply lookup_lt_Some in Hk. lia.
  - rewrite (tok_at_is _ _ _ Ht), bool_decide_true by done. by rewrite app_nil_r.
Qed.
Lemma part_some_ok ts s : inside ts s -> part_claim ts (Some s).
Proof.
  intros Hi c cur e expr f acc b Hc Hg He Hf. destruct (inside_range _ _ _ Hi Hg). destruct f as [| f]; [lia |]. cbn [slice_loop].
  rewrite !(inside_not _ _ _ _ Hi Hg) by auto.
  split; intros Ht; (rewrite (inside_parse c ts s cur e expr) by side); cbn [rbind]; rewrite (tok_at_is _ _ _ Ht).
  - rewrite bool_decide_true by done. exists f. split; [lia | done].
  - rewrite bool_decide_false by done. destruct f as [| f]; [lia |]. cbn [slice_loop]. by rewrite (tok_at_is _ _ _ Ht), bool_decide_true.
Qed.
Definition subscript_claim (ts : list token) (s : stmt) : Prop := forall c cur e expr, inner c cur expr -> text_at cur ts -> e = (cur + length ts)%nat -> tok_at e t_close_square_bracket ->
  parse_member_expression_arguments toks expr cur = Ok (s, e).
Lemma subscript_index_ok ts s : inside ts s -> subscript_claim ts s.
Proof.
  intros Hi c cur e expr Hc Hg He Ht. unfold parse_member_expression_arguments.
  destruct (part_some_ok _ _ Hi c cur e expr (loops toks cur) [] false) as [_ Hp]; [side .. | unfold loops; lia |]. by rewrite (Hp Ht).
Qed.
Lemma head_pos_first ts k cur t : text_at cur (ts ++ [k]) -> toks !! cur = Some t -> head_pos (ts ++ [k]) = t_pos t.
Proof. intros Hg Ht. destruct ts as [| u ts]; simpl in *; apply text_at_cons in Hg as [Hg _]; congruence. Qed.
Lemma slice_node ts k rest cur (n : node F) e : text_at cur (ts ++ k :: rest) -> mk toks cur n e = Ok (mkStmt (head_pos (ts ++ [k])) n, e).
Proof.
  intros Hg. replace (ts ++ k :: rest) with ((ts ++ [k]) ++ rest) in Hg by (by rewrite <- app_assoc). apply text_at_app in Hg as [Hg _].
  destruct (toks !! cur) as [t |] eqn:Et; [by rewrite (mk_at _ _ _ _ _ Et), (head_pos_first _ _ _ _ Hg Et) |].
  destruct ts as [| u ts]; simpl in Hg; apply text_at_cons in Hg as [Hg _]; congruence.
Qed.
Lemma subscript_slice_ok ts1 o1 k ts2 o2 : part_claim ts1 o1 -> typed t_colon k -> part_claim ts2 o2 ->
  subscript_claim (ts1 ++ k :: ts2) (mkStmt (head_pos (ts1 ++ [k])) (slice_expression o1 o2 None)).
Proof.
  intros H1 Hk H2 c cur e expr Hc Hg He Ht. unfold parse_member_expression_arguments. pose proof (fun n => slice_node _ _ _ _ n e Hg) as Hn. split_text.
  destruct (H1 c cur (cur + length ts1)%nat expr (loops toks cur) [] false) as [Hp1 _]; [side .. | unfold loops; lia |].
  destruct Hp1 as (f & Hf & ->); [by eapply tok_at_intro |]. destruct (H2 c (S (cur + length ts1)) e expr f ([] ++ [o1]) true) as [_ Hp2]; [side .. |]. rewrite (Hp2 Ht). cbn [rbind].
  rewrite Hn. by destruct o1, o2.
Qed.
Lemma subscript_step_ok ts1 o1 k ts2 o2 k' ts3 o3 : part_claim ts1 o1 -> typed t_colon k -> part_claim ts2 o2 -> typed t_colon k' -> part_claim ts3 o3 ->
  subscript_claim (ts1 ++ k :: ts2 ++ k' :: ts3) (mkStmt (head_pos (ts1 ++ [k])) (slice_expression o1 o2 o3)).
Proof.
  intros H1 Hk H2 Hk' H3 c cur e expr Hc Hg He Ht. unfold parse_member_expression_arguments. pose proof (fun n => slice_node _ _ _ _ n e Hg) as Hn. split_text.
  destruct (H1 c cur (cur + length ts1)%nat expr (loops toks cur) [] false) as [Hp1 _]; [side .. | unfold loops; lia |].
  destruct Hp1 as (f & Hf & ->); [by eapply tok_at_intro |].
  destruct (H2 c (S (cur + length ts1)) (S (cur + length ts1) + length ts2)%nat expr f ([] ++ [o1]) true) as [Hp2 _]; [side .. |].
  destruct Hp2 as (f2 & Hf2 & ->); [by eapply tok_at_intro |]. 
  destruct (H3 c (S (S (cur + length ts1) + length ts2)) e expr f2 (([] ++ [o1]) ++ [o2]) true) as [_ Hp3]; [side .. |]. rewrite (Hp3 Ht). cbn [rbind].
  rewrite Hn. by destruct o1, o2, o3.
Qed.

(** ** Primaries *)
Definition primary_claim (ts : list token) (s : stmt) : Prop := forall cur e expr,
  e = (cur + length ts)%nat -> fueled cur expr -> text_at cur ts -> stops 0 e -> parse_primary_expression stod toks expr cur = Ok (s, e).
Lemma primary_0 ts s : primary_claim ts s <-> claim 0 ts s.
Proof.
  split; intros H cur e expr He Hx Hg Hst; [exists (S (len - e)); split; [lia | by apply H] |]. by destruct (H cur e expr He Hx Hg Hst) as (f & _ & Hf).
Qed.
Lemma join_strings_ok ts cur e f val : Forall (typed t_string_literal) ts -> text_at cur ts -> e = (cur + length ts)%nat -> is_tok toks t_string_literal e = false -> (length ts < f)%nat ->
  join_strings toks f val cur = (val ++ (ts ≫= t_value), e).
Proof.
  intros Ht. revert cur f val. induction Ht as [| t ts Ht _ IH]; intros cur f val Hg He Hn Hf; (destruct f as [| f]; [lia |]); cbn [join_strings length] in *.
  - replace cur with e by lia. by rewrite Hn, app_nil_r.
  - apply text_at_cons in Hg as [Ht0 Hg]. rewrite (is_tok_typed _ _ _ _ _ Ht0 Ht), bool_decide_true by done. unfold peek_tok. rewrite Nat.add_0_r, Ht0. simpl default.
    rewrite IH by (done || lia). rewrite bind_cons, app_assoc. done.
Qed.
Ltac first_token Ht := unfold parse_primary_expression; erewrite next_at by done; cbn [rbind]; rewrite Ht.
Lemma int_ok t v : typed t_numeric_literal t -> ch "." ∉ t_value t -> stoll (t_value t) = Ok v -> claim 0 [t] (mkStmt (t_pos t) (integer_literal v)).
Proof.
  intros Ht Hd Hv. apply primary_0. intros cur e expr He Hx Hg Hst. split_text. first_token Ht. rewrite bool_decide_false by done. rewrite Hv. cbn [rbind].
  erewrite mk_at by done. repeat f_equal. lia.
Qed.
Lemma float_ok t v : typed t_numeric_literal t -> ch "." ∈ t_value t -> stod (t_value t) = Some v -> claim 0 [t] (mkStmt (t_pos t) (float_literal v)).
Proof.
  intros Ht Hd Hv. apply primary_0. intros cur e expr He Hx Hg Hst. split_text. first_token Ht. rewrite bool_decide_true by done. rewrite Hv.
  erewrite mk_at by done. repeat f_equal. lia.
Qed.
Lemma string_ok t ts : typed t_string_literal t -> Forall (typed t_string_literal) ts -> claim 0 (t :: ts) (mkStmt (t_pos t) (string_literal (t_value t ++ (ts ≫= t_value)))).
Proof.
  intros Ht Hts. apply primary_0. intros cur e expr He Hx Hg Hst. pose proof (text_at_length _ _ _ _ Hg) as Hl. split_text. first_token Ht.
  rewrite (join_strings_ok ts _ e _ _ Hts); [by erewrite mk_at | done | lia | by apply (Hst O) | unfold loops; lia].
Qed.
Lemma ident_ok t : typed t_identifier t -> claim 0 [t] (mkStmt (t_pos t) (identifier (t_value t))).
Proof. intros Ht. apply primary_0. intros cur e expr He Hx Hg Hst. split_text. first_token Ht. erewrite mk_at by done. repeat f_equal. lia. Qed.
Lemma sequence_one ts s c cur e expr : inside ts s -> inner c cur expr -> text_at cur ts -> e = (cur + length ts)%nat -> stops 10 e -> is_tok toks t_comma e = false ->
  parse_sequence_of toks expr cur = Ok (s, e).
Proof.
  intros Hi Hc Hg He Hst Hcm. unfold parse_sequence_of. rewrite (inside_parse c ts s cur e expr) by side. cbn [rbind]. rewrite Hcm.
  unfold loops. cbn [sequence_loop]. by rewrite Hcm.
Qed.
Lemma sequence_tuple ts1 s1 k ts2 es c cur e expr : inside ts1 s1 -> typed t_comma k -> exprs_claim ts2 es -> inner c cur expr -> text_at cur (ts1 ++ k :: ts2) ->
  e = (cur + length (ts1 ++ k :: ts2))%nat -> stops 10 e -> is_tok toks t_comma e = false ->
  parse_sequence_of toks expr cur = Ok (mkStmt (head_pos ts1) (tuple_literal (s1 :: es)), e).
Proof.
  intros Hi Hk Hes Hc Hg He Hst Hcm. split_text. assert (tok_at (cur + length ts1) t_comma) as Hk' by (by eapply tok_at_intro).
  unfold parse_sequence_of. erewrite (inside_parse c ts1 s1 cur) by side. cbn [rbind]. rewrite (tok_at_is _ _ _ Hk'), bool_decide_true by done.
  rewrite (Hes c (cur + length ts1)%nat e expr (loops toks (cur + length ts1)%nat) [s1]); [| side .. | unfold loops; lia]. cbn [rbind].
  destruct (starts_head _ _ _ H (proj2 Hi)) as (t & Ht & _ & _). by erewrite mk_at, (head_pos_at _ _ _ _ H Ht (proj2 Hi)).
Qed.
Lemma paren_ok o ts c s : typed t_open_paren o -> inside ts s -> typed t_close_paren c -> claim 0 (o :: ts ++ [c]) s.
Proof.
  intros Ho Hi Hc. apply primary_0. intros cur e expr He Hx Hg Hst. split_text. first_token Ho. pose proof (lookup_lt_Some _ _ _ H).
  assert (tok_at (S cur + length ts) t_close_paren) as Hk by (by eapply tok_at_intro).
  erewrite (sequence_one ts s cur (S cur)); [| done | by apply fueled_inner; [| lia |] | done | done | side | by rewrite (tok_at_is _ _ _ Hk)]. cbn [rbind].
  erewrite expect_at by done. cbn [rbind]. repeat f_equal. lia.
Qed.
Lemma tuple_ok o ts1 s1 k ts2 es c : typed t_open_paren o -> inside ts1 s1 -> typed t_comma k -> exprs_claim ts2 es -> typed t_close_paren c ->
  claim 0 (o :: ts1 ++ k :: ts2 ++ [c]) (mkStmt (head_pos ts1) (tuple_literal (s1 :: es))).
Proof.
  intros Ho Hi Hk Hes Hc. apply primary_0. intros cur e expr He Hx Hg Hst. replace (o :: ts1 ++ k :: ts2 ++ [c]) with (o :: (ts1 ++ k :: ts2) ++ [c]) in * by (by rewrite <- app_assoc).
  apply text_at_cons in Hg as [H Hg]. apply text_at_app in Hg as [Hg Hg2]. apply text_at_cons in Hg2 as [Hc' _]. first_token Ho. pose proof (lookup_lt_Some _ _ _ H).
  assert (tok_at (S cur + length (ts1 ++ k :: ts2)) t_close_paren) as Hk' by (by eapply tok_at_intro).
  erewrite (sequence_tuple ts1 s1 k ts2 es cur (S cur)); [| done | done | done | by apply fueled_inner; [| lia |] | done | done | side | by rewrite (tok_at_is _ _ _ Hk')]. cbn [rbind].
  erewrite expect_at by done. cbn [rbind]. repeat f_equal. split_text. lia.
Qed.
Lemma array_ok o ts es c : typed t_open_square_bracket o -> items_claim ts es -> typed t_close_square_bracket c -> claim 0 (o :: ts ++ [c]) (mkStmt (t_pos o) (array_literal es)).
Proof.
  intros Ho Hi Hc. apply primary_0. intros cur e expr He Hx Hg Hst. split_text. first_token Ho. pose proof (lookup_lt_Some _ _ _ H).
  erewrite (Hi cur (S cur)); [| by apply fueled_inner; [| lia |] | done | done | by eapply tok_at_intro | unfold loops; lia]. cbn [rbind].
  erewrite mk_at by done. repeat f_equal. lia.
Qed.
Lemma object_ok o ts ps c : typed t_open_curly_bracket o -> pairs_claim ts ps -> typed t_close_curly_bracket c -> claim 0 (o :: ts ++ [c]) (mkStmt (t_pos o) (object_literal ps)).
Proof.
  intros Ho Hi Hc. apply primary_0. intros cur e expr He Hx Hg Hst. split_text. first_token Ho. pose proof (lookup_lt_Some _ _ _ H).
  erewrite (Hi cur (S cur)); [| by apply fueled_inner; [| lia |] | done | done | by eapply tok_at_intro | unfold loops; lia]. cbn [rbind].
  erewrite mk_at by done. repeat f_equal. lia.
Qed.
End Rules.

(** * Every expression of the grammar is parsed to its tree: members, calls and operators *)

Section Levels.
Context {F : Type} (stod : list Z -> option F) (toks : list token).
Notation stmt := (statement F).
Notation parser A := (nat -> res (A * nat)).
Notation len := (length toks).
Notation text_at := (text_at toks).
Notation stops := (stops toks).
Notation claim := (claim stod toks).
Notation fueled := (fueled stod toks).
Notation inside := (inside stod toks).
Notation lp := (lp stod toks).
Notation args_claim := (args_claim stod toks).
Notation subscript_claim := (subscript_claim stod toks).

Lemma stops_0 ty e t : toks !! e = Some t -> typed ty t -> ty <> t_string_literal -> stops 0 e.
Proof. intros H Ht Hn l Hl. replace l with O by lia. cbn [cont_at]. by rewrite (is_tok_typed _ _ _ _ _ H Ht), bool_decide_false. Qed.
Lemma stops_pipe e t : toks !! e = Some t -> typed t_pipe t -> stops 1 e.
Proof. intros H Ht l Hl. destruct l as [| [| l] ]; [..| lia]; cbn [cont_at]; by rewrite !(is_tok_typed _ _ _ _ _ H Ht). Qed.
Lemma member_exit f sp s e expr : stops 1 e -> member_loop stod toks expr (S f) sp s e = Ok (s, e) /\ is_tok toks t_open_paren e = false.
Proof.
  intros H. specialize (H 1%nat (le_n _)). cbn [cont_at] in H. apply orb_false_elim in H as [H H3]. apply orb_false_elim in H as [H1 H2].
  cbn [member_loop]. by rewrite H1, H2.
Qed.

(** ** Members and calls *)
(** the run of members that started at [sp], and the calls behind it *)
Definition post (expr : parser stmt) (f : nat) (f2 : nat -> nat) (sp : nat) (s : stmt) (cur : nat) : res (stmt * nat) :=
  let! (m, cur) := member_loop stod toks expr f sp s cur in
  if is_tok toks t_open_paren cur then call_loop stod toks expr (f2 cur) m cur else Ok (m, cur).
Definition chain_at (chain : option nat) (sp e : nat) : Prop := match chain with None => sp = e | Some p => exists t, toks !! sp = Some t /\ t_pos t = p end.
Definition postfix_claim (chain : option nat) (ts : list token) (s : stmt) : Prop := forall cur e expr,
  e = (cur + length ts)%nat -> fueled cur expr -> text_at cur ts -> stops 0 e ->
  exists f f2 sp, (len - e < f)%nat /\ (forall cur', e <= cur' -> len - cur' < f2 cur')%nat /\ chain_at chain sp e /\ parse_call_member_expression stod toks expr cur = post expr f f2 sp s e.
Lemma chain_token chain sp e k : chain_at chain sp e -> toks !! e = Some k -> exists t, toks !! sp = Some t /\ t_pos t = default (t_pos k) chain.
Proof. destruct chain as [p |]; simpl; [done |]. intros -> H. by exists k. Qed.
Lemma primary_postfix ts s : claim 0 ts s -> postfix_claim None ts s.
Proof.
  intros Hp%primary_0 cur e expr He Hx Hg Hst. exists (loops toks e), (loops toks), e. unfold loops. split_and!; [lia | lia | done |].
  unfold parse_call_member_expression. rewrite (Hp cur e expr He Hx Hg Hst). reflexivity.
Qed.
Lemma dot_postfix chain ts1 s1 k ts2 s2 : postfix_claim chain ts1 s1 -> typed t_dot k -> claim 0 ts2 s2 ->
  postfix_claim (Some (default (t_pos k) chain)) (ts1 ++ k :: ts2) (mkStmt (default (t_pos k) chain) (member_expression s1 s2 false)).
Proof.
  intros H1 Hk Hp%primary_0 cur e expr He Hx Hg Hst. split_text. pose proof (lookup_lt_Some _ _ _ H0) as Hl.
  destruct (H1 cur _ expr eq_refl Hx H (stops_0 _ _ _ H0 Hk ltac:(done))) as (f & f2 & sp & Hf & Hf2 & Hch & ->). destruct (chain_token _ _ _ _ Hch H0) as (t & Ht & Hpos).
  destruct f as [| f]; [lia |]. exists f, f2, sp. split_and!; [lia | intros; apply Hf2; lia | by exists t |]. unfold post. cbn [member_loop]. rewrite (is_tok_typed _ _ _ _ _ H0 Hk), bool_decide_true by done.
  rewrite (Hp (S (cur + length ts1)) e expr) by (done || lia || (eapply fueled_le; [done | lia])). cbn [rbind]. erewrite mk_stmt_at by done. cbn [rbind]. by rewrite Hpos.
Qed.
Lemma index_postfix chain ts1 s1 k ts2 s2 c : postfix_claim chain ts1 s1 -> typed t_open_square_bracket k -> subscript_claim ts2 s2 -> typed t_close_square_bracket c ->
  postfix_claim (Some (default (t_pos k) chain)) (ts1 ++ k :: ts2 ++ [c]) (mkStmt (default (t_pos k) chain) (member_expression s1 s2 true)).
Proof.
  intros H1 Hk Hs Hc cur e expr He Hx Hg Hst. split_text. pose proof (lookup_lt_Some _ _ _ H0) as Hl.
  destruct (H1 cur _ expr eq_refl Hx H (stops_0 _ _ _ H0 Hk ltac:(done))) as (f & f2 & sp & Hf & Hf2 & Hch & ->). destruct (chain_token _ _ _ _ Hch H0) as (t & Ht & Hpos).
  destruct f as [| f]; [lia |]. exists f, f2, sp. split_and!; [lia | intros; apply Hf2; lia | by exists t |]. unfold post. cbn [member_loop].
  rewrite !(is_tok_typed _ _ _ _ _ H0 Hk), bool_decide_false, bool_decide_true by done.
  erewrite (Hs (cur + length ts1)%nat (S (cur + length ts1))); [| apply fueled_inner; [eapply fueled_le; [done | lia] | lia | lia] | done | done | by eapply tok_at_intro]. cbn [rbind].
  erewrite expect_at by done. cbn [rbind]. erewrite mk_stmt_at by done. cbn [rbind]. rewrite Hpos. by replace (S (S (cur + length ts1) + length ts2)) with e by lia.
Qed.
(** a call, and the members behind it *)
Lemma call_step expr f2 m k ts es c cur e : args_claim ts es -> typed t_open_paren k -> fueled cur expr -> text_at cur (k :: ts ++ [c]) -> typed t_close_paren c ->
  e = (cur + length (k :: ts ++ [c]))%nat ->
  call_loop stod toks expr (S f2) m cur = post expr (loops toks e) (fun _ => f2) e (mkStmt (t_pos k) (call_expression m es)) e.
Proof.
  intros Ha Hk Hx Hg Hc He. cbn [call_loop]. rewrite (parse_args_ok _ _ _ _ _ _ _ _ _ Ha Hk Hx Hg Hc He). cbn [rbind]. apply text_at_cons in Hg as [Hg _]. by erewrite mk_stmt_at.
Qed.
Lemma call_postfix chain ts1 s1 k ts2 es c : postfix_claim chain ts1 s1 -> typed t_open_paren k -> args_claim ts2 es -> typed t_close_paren c ->
  postfix_claim None (ts1 ++ k :: ts2 ++ [c]) (mkStmt (t_pos k) (call_expression s1 es)).
Proof.
  intros H1 Hk Ha Hc cur e expr He Hx Hg Hst. apply text_at_app in Hg as [Hg Hg2]. pose proof Hg2 as [H0 _]%text_at_cons. pose proof (lookup_lt_Some _ _ _ H0) as Hl.
  destruct (H1 cur _ expr eq_refl Hx Hg (stops_0 _ _ _ H0 Hk ltac:(done))) as (f & f2 & sp & Hf & Hf2 & _ & ->). destruct f as [| f]; [lia |].
  pose proof (Hf2 _ (le_n _)) as Hf3. destruct (f2 (cur + length ts1)%nat) as [| f3] eqn:Ef; [lia |]. exists (loops toks e), (fun _ => f3), e. rewrite length_app in He. cbn [length] in He. unfold loops. split_and!; [lia | intros; lia | done |]. unfold post at 1. cbn [member_loop].
  rewrite !(is_tok_typed _ _ _ _ _ H0 Hk), !bool_decide_false by done. cbn [rbind]. rewrite (is_tok_typed _ _ _ _ _ H0 Hk), bool_decide_true, Ef by done.
  rewrite (call_step expr f3 s1 k ts2 es c _ e Ha Hk); [done | eapply fueled_le; [done | lia] | done | done | simpl; lia].
Qed.
Lemma postfix_claim_1 chain ts s : postfix_claim chain ts s -> claim 1 ts s.
Proof.
  intros H cur e expr He Hx Hg Hst. destruct (H cur e expr He Hx Hg (stops_le _ 1 0 _ Hst (Nat.le_0_l _))) as (f & f2 & sp & Hf & Hf2 & _ & Hr).
  exists (S (len - e)). split; [lia |]. cbn [JinjaComplete.lp]. rewrite Hr. destruct f as [| f]; [lia |]. unfold post. destruct (member_exit f sp s e expr Hst) as [-> He']. cbn [rbind]. by rewrite He'.
Qed.
Definition callable_claim (ts : list token) (s : stmt) : Prop := forall cur e expr, e = (cur + length ts)%nat -> fueled cur expr -> text_at cur ts -> stops 1 e ->
  exists s0 c0, (cur < c0 <= e)%nat /\ parse_primary_expression stod toks expr cur = Ok (s0, c0) /\ with_call stod toks expr s0 c0 = Ok (s, e).
Lemma callable_name ts s : claim 0 ts s -> starts ts -> callable_claim ts s.
Proof.
  intros Hp%primary_0 Hs cur e expr He Hx Hg Hst. exists s, e. rewrite (Hp cur e expr He Hx Hg (stops_le _ 1 0 _ Hst (Nat.le_0_l _))).
  destruct (member_exit 0 0 s e expr Hst) as [_ Hn]. unfold with_call. rewrite Hn. destruct Hs as (? & ? & -> & _). simpl in He. split; [lia | done].
Qed.
Lemma callable_call ts s k ts' es c : claim 0 ts s -> starts ts -> typed t_open_paren k -> args_claim ts' es -> typed t_close_paren c ->
  callable_claim (ts ++ k :: ts' ++ [c]) (mkStmt (t_pos k) (call_expression s es)).
Proof.
  intros Hp%primary_0 Hs Hk Ha Hc cur e expr He Hx Hg Hst. apply text_at_app in Hg as [Hg Hg2]. pose proof Hg2 as [H0 _]%text_at_cons. rewrite length_app in He.
  exists s, (cur + length ts)%nat. rewrite (Hp cur _ expr eq_refl Hx Hg (stops_0 _ _ _ H0 Hk ltac:(done))). split; [destruct Hs as (? & ? & -> & _); cbn [length] in *; lia |]. split; [done |].
  unfold with_call. rewrite (is_tok_typed _ _ _ _ _ H0 Hk), bool_decide_true by done. unfold parse_call_expression, loops at 1.
  rewrite (call_step expr _ s k ts' es c _ e Ha Hk); [| eapply fueled_le; [done | lia] | done | done | lia].
  unfold post, loops. destruct (member_exit (len - e) e (mkStmt (t_pos k) (call_expression s es)) e expr Hst) as [-> He']. cbn [rbind]. by rewrite He'.
Qed.

(** ** Filters, tests and operators *)
Lemma up_filter ts s : claim 1 ts s -> claim 2 ts s.
Proof.
  intros H cur e expr He Hx Hg Hst. exists (loops toks e). unfold loops. split; [lia |]. cbn [JinjaComplete.lp looped]. unfold parse_filter_expression.
  pose proof (claim_exact _ _ 1 ts s cur e expr H ltac:(lia) He Hx Hg Hst) as Hr. cbn [JinjaComplete.lp] in Hr. by rewrite Hr.
Qed.
Lemma up_test ts s : claim 2 ts s -> claim 3 ts s.
Proof.
  intros H cur e expr He Hx Hg Hst. exists (loops toks e). unfold loops. split; [lia |]. cbn [JinjaComplete.lp looped]. unfold parse_test_expression.
  pose proof (claim_exact _ _ 2 ts s cur e expr H ltac:(lia) He Hx Hg Hst) as Hr. cbn [JinjaComplete.lp] in Hr. by rewrite Hr.
Qed.
Lemma binary_cases (P : nat -> Prop) : P 4%nat -> P 5%nat -> P 6%nat -> P 8%nat -> P 9%nat -> forall l, binary l -> P l.
Proof. intros ????? l Hl. unfold binary in Hl. rewrite !elem_of_cons, elem_of_nil in Hl. naive_solver. Qed.
(** for the binary levels the claim is about their loop *)
Lemma claim_binary l ts s : binary l -> claim l ts s <-> forall cur e expr, e = (cur + length ts)%nat -> fueled cur expr -> text_at cur ts -> stops (pred l) e ->
  exists f, (len - e < f)%nat /\ lp l expr cur = looped stod toks l expr f s e.
Proof. revert l. by apply binary_cases. Qed.
Lemma binary_le l : binary l -> (pred l <= 10)%nat.
Proof. revert l. apply binary_cases; simpl; lia. Qed.
Lemma up_binary l ts s : binary l -> claim (pred l) ts s -> claim l ts s.
Proof.
  intros Hb H. apply claim_binary; [done |]. intros cur e expr He Hx Hg Hst. exists (loops toks e). unfold loops. split; [lia |]. rewrite (lp_binary _ _ _ _ _ Hb), (looped_binary _ _ _ _ _ _ _ Hb).
  unfold binary_level. by rewrite (claim_exact _ _ _ ts s cur e expr H (binary_le _ Hb) He Hx Hg Hst).
Qed.
Lemma up_not ts s : claim 6 ts s -> starts ts -> not_negated ts -> claim 7 ts s.
Proof.
  intros H Hs Hn cur e expr He Hx Hg Hst f Hf. destruct f as [| f]; [lia |]. cbn [negation_loop]. destruct (starts_head _ _ _ Hg Hs) as (t & Ht & Hh & _).
  assert (is_identifier toks "not" cur = false) as ->; [| by apply (claim_exact _ _ 6 ts s cur e expr H ltac:(lia))].
  rewrite (is_identifier_at _ _ _ _ Ht). specialize (Hn t Hh). apply andb_false_iff. destruct (decide (t_type t = t_identifier)) as [E |]; [right | left; by apply bool_decide_false].
  apply bool_decide_false. intros Hv. by apply Hn.
Qed.
Lemma up_if ts s : claim 9 ts s -> claim 10 ts s.
Proof.
  intros H cur e expr He Hx Hg Hst. exists (S (len - e)). split; [lia |]. cbn [JinjaComplete.lp looped]. unfold parse_if_expression.
  pose proof (claim_exact _ _ 9 ts s cur e expr H ltac:(lia) He Hx Hg (stops_le _ 10 9 _ Hst ltac:(lia))) as Hr. cbn [JinjaComplete.lp] in Hr. rewrite Hr. cbn [rbind].
  specialize (Hst 10%nat (le_n _)). cbn [cont_at] in Hst. apply orb_false_elim in Hst as [Hi _]. by rewrite Hi.
Qed.
Lemma up_level l ts s : (1 <= l < 10)%nat -> claim l ts s -> starts ts -> (l = 6%nat -> not_negated ts) -> claim (S l) ts s.
Proof.
  intros Hl H Hs Hn. destruct l as [| [| [| [| [| [| [| [| [| [| l] ] ] ] ] ] ] ] ] ]; [lia | by apply up_filter | by apply up_test | .. | by apply up_not; [.. | apply Hn] | | | by apply up_if | lia];
    (apply up_binary; [unfold binary; set_solver | done]).
Qed.
Lemma filter_level ts1 s1 k ts2 s2 : claim 2 ts1 s1 -> typed t_pipe k -> callable_claim ts2 s2 -> claim 2 (ts1 ++ k :: ts2) (mkStmt (t_pos k) (filter_expression s1 s2)).
Proof.
  intros H1 Hk Hc cur e expr He Hx Hg Hst. split_text. pose proof (lookup_lt_Some _ _ _ H0).
  destruct (H1 cur _ expr eq_refl Hx H (stops_pipe _ _ H0 Hk)) as (f & Hf & ->). destruct f as [| f]; [lia |]. exists f. split; [lia |]. cbn [looped filter_loop].
  rewrite (is_tok_typed _ _ _ _ _ H0 Hk), bool_decide_true by done.
  destruct (Hc (S (cur + length ts1)) e expr) as (s0 & c0 & _ & -> & Hw); [lia | eapply fueled_le; [done | lia] | done | done |]. cbn [rbind]. rewrite Hw. cbn [rbind]. by erewrite mk_stmt_at.
Qed.
Lemma is_stops k cur : toks !! cur = Some k -> named "is" k -> stops 2 cur.
Proof. intros H Hk. eapply stops_word; try exact H; try exact Hk; try lia; intros; try split; discriminate. Qed.
(** one test, behind the words is and not *)
Lemma test_step ts1 s1 k pre ts2 s2 (b : bool) : claim 3 ts1 s1 -> named "is" k -> callable_claim ts2 s2 -> starts ts2 ->
  (if b then exists n, pre = [n] /\ named "not" n else pre = [] /\ not_negated ts2) ->
  claim 3 (ts1 ++ k :: pre ++ ts2) (mkStmt (t_pos k) (test_expression s1 b s2)).
Proof.
  intros H1 Hk Hc Hs Hb cur e expr He Hx Hg Hst. split_text. pose proof (lookup_lt_Some _ _ _ H0).
  destruct (H1 cur _ expr eq_refl Hx H (is_stops _ _ H0 Hk)) as (f & Hf & ->). destruct f as [| f]; [lia |]. exists f. split; [lia |]. cbn [looped test_loop].
  rewrite (is_identifier_named _ _ _ _ _ H0 Hk), bool_decide_true by done.
  assert (is_identifier toks "not" (S (cur + length ts1)) = b) as ->.
  { destruct b as [] eqn:Eb; [destruct Hb as (n & -> & Hn); split_text; erewrite is_identifier_named by done; by rewrite bool_decide_true |]. destruct Hb as [-> Hn]. simpl in *. rewrite Nat.add_0_r in *.
    destruct (starts_head _ _ _ H3 Hs) as (t & Ht & Hh & _). erewrite is_identifier_at by done. specialize (Hn t Hh). apply andb_false_iff.
    destruct (decide (t_type t = t_identifier)) as [E |]; [right | left; by apply bool_decide_false]. apply bool_decide_false. intros Hv. by apply Hn. }
  destruct (Hc (if b then S (S (cur + length ts1)) else S (cur + length ts1)) e expr) as (s0 & c0 & _ & -> & Hw).
  - destruct b; [destruct Hb as (n & -> & _) | destruct Hb as [-> _] ]; cbn [length] in *; lia.
  - eapply fueled_le; [done |]. destruct b; lia.
  - destruct b; [destruct Hb as (n & -> & _) | destruct Hb as [-> _] ]; cbn [length] in H3; [by replace (S (S (cur + length ts1))) with (S (cur + length ts1) + 1)%nat by lia | by rewrite Nat.add_0_r in H3].
  - exact (stops_le _ 2 1 _ Hst ltac:(lia)).
  - cbn [rbind]. rewrite Hw. cbn [rbind]. by erewrite mk_stmt_at.
Qed.
Lemma binary_step l ts1 s1 k op ts2 s2 : claim l ts1 s1 -> op_tokens l k op -> claim (pred l) ts2 s2 -> claim l (ts1 ++ k ++ ts2) (mkStmt (head_pos k) (binary_expression op s1 s2)).
Proof.
  intros H1 Hop H2. assert (Hb : binary l) by (unfold binary; destruct Hop; set_solver). rewrite (claim_binary l ts1 s1 Hb) in H1. apply (claim_binary l _ _ Hb). intros cur e expr He Hx Hg Hst.
  split_text. destruct (op_at_tokens _ _ _ _ _ Hop H0) as (_ & Hat & t & Ht & Hpos). pose proof (lookup_lt_Some _ _ _ Ht) as Hl.
  destruct (H1 cur _ expr eq_refl Hx H (stops_op _ _ _ _ _ Hop H0)) as (f & Hf & ->). destruct f as [| f]; [lia |]. assert (0 < length k)%nat by (destruct Hop; simpl; lia).
  exists f. split; [lia |]. rewrite !(looped_binary _ _ _ _ _ _ _ Hb). cbn [binary_loop]. rewrite Hat.
  erewrite (claim_exact _ _ _ ts2 s2 _ e expr H2 (binary_le _ Hb)); [| lia | eapply fueled_le; [done | lia] | done | done]. cbn [rbind]. erewrite mk_stmt_at by done. cbn [rbind]. by rewrite Hpos.
Qed.
Lemma not_step k ts s : named "not" k -> claim 7 ts s -> claim 7 (k :: ts) (mkStmt (t_pos k) (unary_expression k s)).
Proof.
  intros Hk H cur e expr He Hx Hg Hst f Hf. split_text. pose proof (lookup_lt_Some _ _ _ H0). destruct f as [| f]; [lia |]. cbn [negation_loop].
  rewrite (is_identifier_named _ _ _ _ _ H0 Hk), bool_decide_true by done.
  rewrite (H (S cur) e expr); [| lia | eapply fueled_le; [done | lia] | done | done | lia]. cbn [rbind]. erewrite mk_at by done. unfold peek_tok. by rewrite Nat.add_0_r, H0.
Qed.
Lemma word_stops_9 n k e : toks !! e = Some k -> named n k -> (n = "if" \/ n = "else")%string -> stops 9 e.
Proof. intros H Hk [-> | ->]; (eapply stops_word; try exact H; try exact Hk; try lia; intros; try split; discriminate). Qed.
Lemma ternary_step ts1 s1 i ts2 s2 w ts3 s3 : claim 9 ts1 s1 -> named "if" i -> claim 9 ts2 s2 -> named "else" w -> inside ts3 s3 ->
  claim 10 (ts1 ++ i :: ts2 ++ w :: ts3) (mkStmt (t_pos w) (ternary_expression s2 s1 s3)).
Proof.
  intros H1 Hi H2 Hw H3 cur e expr He Hx Hg Hst. split_text. pose proof (lookup_lt_Some _ _ _ H0). exists (S (len - e)). split; [lia |]. cbn [JinjaComplete.lp looped]. unfold parse_if_expression.
  pose proof (claim_exact _ _ 9 ts1 s1 cur _ expr H1 ltac:(lia) eq_refl Hx H (word_stops_9 _ _ _ H0 Hi ltac:(auto))) as Hr. cbn [JinjaComplete.lp] in Hr. rewrite Hr. cbn [rbind].
  rewrite (is_identifier_named _ _ _ _ _ H0 Hi), bool_decide_true by done.
  pose proof (claim_exact _ _ 9 ts2 s2 _ _ expr H2 ltac:(lia) eq_refl (fueled_le _ _ _ (S (cur + length ts1)) _ Hx ltac:(lia)) H4 (word_stops_9 _ _ _ H5 Hw ltac:(auto))) as Hr2.
  cbn [JinjaComplete.lp] in Hr2. rewrite Hr2. cbn [rbind]. rewrite (is_identifier_named _ _ _ _ _ H5 Hw), bool_decide_true by done. pose proof (lookup_lt_Some _ _ _ H5).
  rewrite (inside_parse _ _ cur ts3 s3 _ e expr H3); [| apply fueled_inner; [done | lia | lia] | done | lia | done]. cbn [rbind]. by erewrite mk_at.
Qed.
Lemma select_step ts1 s1 i ts2 s2 : claim 9 ts1 s1 -> named "if" i -> claim 9 ts2 s2 -> claim 10 (ts1 ++ i :: ts2) (mkStmt (t_pos i) (select_expression s1 s2)).
Proof.
  intros H1 Hi H2 cur e expr He Hx Hg Hst. split_text. exists (S (len - e)). split; [lia |]. cbn [JinjaComplete.lp looped]. unfold parse_if_expression.
  pose proof (claim_exact _ _ 9 ts1 s1 cur _ expr H1 ltac:(lia) eq_refl Hx H (word_stops_9 _ _ _ H0 Hi ltac:(auto))) as Hr. cbn [JinjaComplete.lp] in Hr. rewrite Hr. cbn [rbind].
  rewrite (is_identifier_named _ _ _ _ _ H0 Hi), bool_decide_true by done.
  pose proof (claim_exact _ _ 9 ts2 s2 (S (cur + length ts1)) e expr H2 ltac:(lia) ltac:(lia) (fueled_le _ _ _ (S (cur + length ts1)) _ Hx ltac:(lia)) H3 (stops_le _ 10 9 _ Hst ltac:(lia))) as Hr2.
  cbn [JinjaComplete.lp] in Hr2. rewrite Hr2. cbn [rbind]. specialize (Hst 10%nat (le_n _)). cbn [cont_at] in Hst. apply orb_false_elim in Hst as [_ Hn]. rewrite Hn. by erewrite mk_at.
Qed.
End Levels.
