(* ===== verification/JinjaParserProps.v ===== *)
(** * The parser builds the tree of every sentence of the grammar: statements *)

From S2P Require Import Prelude Text JinjaLexer JinjaParser JinjaParserFacts JinjaSyntax JinjaComplete JinjaExprs.

Ltac run E := rewrite E; cbn [rbind].

Section Statements.
Context {F : Type} (stod : list Z -> option F) (toks : list token).
Notation stmt := (statement F).
Notation parser A := (nat -> res (A * nat)).
Notation len := (length toks).
Notation text_at := (text_at toks).
Notation stops := (stops toks).
Notation claim := (claim stod toks).
Notation fueled := (fueled stod toks).
Notation inside := (inside stod toks).
Notation expr := (parse_expression stod toks).

Lemma syntax_claims :
  (forall l ts s, derives stod l ts s -> claim l ts s) /\ (forall ts es, exprs stod ts es -> exprs_claim stod toks ts es) /\ (forall ts es, items stod ts es -> items_claim stod toks ts es)
  /\ (forall ts ps, pairs stod ts ps -> pairs_claim stod toks ts ps) /\ (forall ch ts s, postfix stod ch ts s -> postfix_claim stod toks ch ts s)
  /\ (forall ts s, subscript stod ts s -> subscript_claim stod toks ts s) /\ (forall ts o, part stod ts o -> part_claim stod toks ts o)
  /\ (forall ts es, args stod ts es -> args_claim stod toks ts es) /\ (forall ts s, arg stod ts s -> arg_claim stod toks ts s)
  /\ (forall ts s, callable stod ts s -> callable_claim stod toks ts s /\ starts ts).
Proof.
  assert (Hin : forall ts s, derives stod 10 ts s -> claim 10 ts s -> inside ts s) by (intros; split; [done | by eapply derives_starts]).
  apply (syntax_mut F stod (fun l ts s _ => claim l ts s) (fun ts es _ => exprs_claim stod toks ts es) (fun ts es _ => items_claim stod toks ts es)
    (fun ts ps _ => pairs_claim stod toks ts ps) (fun ch ts s _ => postfix_claim stod toks ch ts s) (fun ts s _ => subscript_claim stod toks ts s)
    (fun ts o _ => part_claim stod toks ts o) (fun ts es _ => args_claim stod toks ts es) (fun ts s _ => arg_claim stod toks ts s)
    (fun ts s _ => callable_claim stod toks ts s /\ starts ts)); intros;
    repeat match goal with H : derives stod 10 ?ts ?s, H' : claim 10 ?ts ?s |- _ => pose proof (Hin _ _ H H'); clear H' end.
  all: try (by eauto using int_ok, float_ok, string_ok, ident_ok, paren_ok, tuple_ok, array_ok, object_ok, postfix_claim_1, exprs_one, exprs_more, items_nil, items_last, items_more,
    pairs_nil, pairs_last, pairs_more, primary_postfix, dot_postfix, index_postfix, call_postfix).
  all: try (by eauto using subscript_index_ok, subscript_slice_ok, subscript_step_ok, part_none_ok, part_some_ok, args_nil, args_last, args_more, arg_plain_ok, arg_spread_ok, arg_keyword_ok).
  all: try (by eauto using not_step, ternary_step, select_step, binary_step).
  - apply up_level; try done. by eapply derives_starts.
  - apply filter_level; naive_solver.
  - apply (test_step _ _ _ _ _ [] _ _ false); naive_solver.
  - apply (test_step _ _ _ _ _ [n] _ _ true); naive_solver.
  - split; [apply callable_name; [done |]; by eapply derives_starts | by eapply derives_starts].
  - assert (starts ts) by (by eapply derives_starts). split; [by apply callable_call | by apply starts_app].
Qed.

(** ** The expressions of a statement *)
Lemma expr_fueled c : fueled c expr.
Proof. intros cur _ _. exists (loops toks cur). unfold loops. split; [lia | done]. Qed.
Lemma derives_inside ts s : derives stod 10 ts s -> inside ts s.
Proof. intros H. split; [by apply syntax_claims | by eapply derives_starts]. Qed.
Lemma expr_ok ts s cur e : derives stod 10 ts s -> (0 < cur)%nat -> text_at cur ts -> e = (cur + length ts)%nat -> stops 10 e -> expr cur = Ok (s, e).
Proof.
  intros H%derives_inside Hc Hg He Hst. destruct (inside_range _ _ _ _ _ H Hg). eapply (inside_parse _ _ (pred cur)); try done.
  apply fueled_inner; [apply expr_fueled | lia | lia].
Qed.
Lemma primary_ok ts s cur e : derives stod 0 ts s -> text_at cur ts -> e = (cur + length ts)%nat -> stops 0 e -> parse_primary stod toks cur = Ok (s, e).
Proof. intros H Hg He Hst. apply syntax_claims, primary_0 in H. by apply (H cur e expr); [| apply expr_fueled | |]. Qed.
Lemma args_ok ts es cur e : call_args stod ts es -> text_at cur ts -> e = (cur + length ts)%nat -> parse_args toks expr cur = Ok (es, e).
Proof. intros [o ts' es' c Ho Ha Hc] Hg He. eapply parse_args_ok; try done; [by apply syntax_claims | apply expr_fueled]. Qed.
Lemma seq_ok ts s cur e : seq stod ts s -> (0 < cur)%nat -> text_at cur ts -> e = (cur + length ts)%nat -> stops 10 e -> is_tok toks t_comma e = false ->
  parse_expression_sequence stod toks false cur = Ok (s, e).
Proof.
  intros H Hc Hg He Hst Hcm. assert (Hin : forall t, toks !! cur = Some t -> inner stod toks (pred cur) cur expr).
  { intros t Ht. apply lookup_lt_Some in Ht. apply fueled_inner; [apply expr_fueled | lia | lia]. }
  destruct H as [ts s H | ts1 s1 k ts2 es H Hk Hes].
  - pose proof (derives_inside _ _ H) as Hi. destruct (starts_head _ _ _ Hg (proj2 Hi)) as (t & Ht & _). by eapply (sequence_one _ _ ts s (pred cur)); eauto.
  - pose proof (derives_inside _ _ H) as Hi. pose proof Hg as [Hg1 _]%text_at_app. destruct (starts_head _ _ _ Hg1 (proj2 Hi)) as (t & Ht & _).
    eapply (sequence_tuple _ _ ts1 s1 k ts2 es (pred cur)); eauto. by apply syntax_claims.
Qed.
Lemma vars_ok ts es : vars stod ts es -> forall cur e f acc, tok_at toks cur t_comma -> text_at (S cur) ts -> e = (S cur + length ts)%nat -> stops 0 e -> is_tok toks t_comma e = false ->
  (len - cur < f)%nat -> sequence_loop toks (parse_primary stod toks) f acc cur = Ok (acc ++ es, e).
Proof.
  induction 1 as [ts s H | ts s k ts' es H Hk _ IH]; intros cur e f acc Hk0 Hg He Hst Hcm Hf;
    (destruct f as [| f]; [lia |]); cbn [sequence_loop]; rewrite (tok_at_is _ _ _ _ Hk0), bool_decide_true by done; destruct Hk0 as (k0 & Hk0%lookup_lt_Some & _).
  - rewrite (primary_ok ts s (S cur) e) by done. cbn [rbind]. destruct f as [| f]; [lia |]. cbn [sequence_loop]. by rewrite Hcm.
  - split_text. erewrite (primary_ok ts s (S cur)); [| done | done | done | by eapply stops_0]. cbn [rbind].
    rewrite (IH (S cur + length ts)%nat e f) by (done || lia || by eapply tok_at_intro). by rewrite <- app_assoc.
Qed.
Lemma loop_vars_ok ts s cur e : loop_vars stod ts s -> text_at cur ts -> e = (cur + length ts)%nat -> stops 0 e -> is_tok toks t_comma e = false ->
  parse_expression_sequence stod toks true cur = Ok (s, e).
Proof.
  intros H Hg He Hst Hcm. unfold parse_expression_sequence, parse_sequence_of. destruct H as [ts s H | ts1 s1 k ts2 es H Hk Hes].
  - rewrite (primary_ok ts s cur e) by done. cbn [rbind]. rewrite Hcm. unfold loops. cbn [sequence_loop]. by rewrite Hcm.
  - split_text. erewrite (primary_ok ts1 s1 cur); [| done | done | done | by eapply stops_0]. cbn [rbind]. rewrite (is_tok_typed _ _ _ _ _ H1 Hk), bool_decide_true by done.
    rewrite (vars_ok _ _ Hes _ e); [| by eapply tok_at_intro | done | lia | done | done | unfold loops; lia]. cbn [rbind].
    pose proof (derives_starts _ _ _ _ H) as Hs. destruct (starts_head _ _ _ H0 Hs) as (t & Ht & _). by erewrite mk_at, (head_pos_at _ _ _ _ H0 Ht Hs).
Qed.

(** ** Tags *)
Lemma is_statement_at o w cur ns : toks !! cur = Some o -> typed t_open_statement o -> toks !! S cur = Some w -> t_type w = t_identifier ->
  is_statement toks ns cur = existsb (fun n => bool_decide (t_value w = bytes n)) ns.
Proof.
  intros Ho Ht Hw Hi. unfold is_statement, is_id_at, peek_tok. rewrite Nat.add_0_r, Ho. replace (cur + 1)%nat with (S cur) by lia. rewrite Hw. simpl default.
  rewrite Ht, Hi. by rewrite bool_decide_true.
Qed.
Lemma is_statement_typed ty o cur ns : toks !! cur = Some o -> typed ty o -> ty <> t_open_statement -> is_statement toks ns cur = false.
Proof. intros Ho Ht Hn. unfold is_statement, peek_tok. rewrite Nat.add_0_r, Ho. simpl default. by rewrite Ht, bool_decide_false. Qed.
Lemma tag_is n ts cur ns rest : tag n ts -> text_at cur (ts ++ rest) -> is_statement toks ns cur = existsb (fun m => bool_decide (bytes n = bytes m)) ns.
Proof. intros [o w c Ho [Hw Hv] Hc] Hg. cbn [app] in Hg. split_text. erewrite is_statement_at by done. by rewrite Hv. Qed.
Lemma expect_end_ok n ts cur e : tag n ts -> text_at cur ts -> e = (cur + length ts)%nat -> expect_end toks n cur = Ok (tt, e).
Proof.
  intros [o w c Ho Hw Hc] Hg He. split_text. unfold expect_end. erewrite expect_at by done. cbn [rbind]. unfold expect_identifier.
  rewrite (is_identifier_named _ _ _ _ _ H0 Hw), bool_decide_true by done. cbn [rbind]. erewrite expect_at by done. repeat f_equal. lia.
Qed.

(** ** Bodies *)
Definition enders : list string := ["elif"; "else"; "endif"; "endset"; "endfor"; "endmacro"; "endcall"; "endfilter"]%string.
Definition openers : list string := ["set"; "if"; "macro"; "for"; "break"; "continue"; "call"; "filter"; "generation"; "endgeneration"]%string.
(** a statement does not start with one of the tags that end a body *)
Definition opens (ts : list token) : Prop :=
  (exists t ts', ts = t :: ts' /\ t_type t <> t_open_statement) \/ (exists o w n ts', ts = o :: w :: ts' /\ typed t_open_statement o /\ named n w /\ n ∈ openers).
Lemma opens_not_end ts cur ends : opens ts -> text_at cur ts -> ends ⊆ enders -> is_statement toks ends cur = false.
Proof.
  intros [(t & ts' & -> & Ht) | (o & w & n & ts' & -> & Ho & [Hw Hv] & Hn)] Hg He; split_text.
  - by eapply is_statement_typed.
  - erewrite is_statement_at by done. rewrite Hv. apply not_true_is_false. intros (m & Hm & Hb)%existsb_exists. apply bool_decide_eq_true in Hb. apply list_elem_of_In, He in Hm.
    assert (Hd : Forall (fun n => Forall (fun m => bytes n <> bytes m) enders) openers) by (repeat constructor; discriminate).
    rewrite Forall_forall in Hd. specialize (Hd _ Hn). rewrite Forall_forall in Hd. by apply (Hd _ Hm).
Qed.
Lemma st_opens ts s : st stod ts s -> opens ts.
Proof.
  intros H. destruct H; [left; eexists _, _; split; [reflexivity |]; unfold typed in *; congruence .. | | | | | | | | | |]; right.
  all: try (eexists _, _, _, _; split; [reflexivity |]; split; [done |]; split; [eassumption |]; unfold openers; set_solver).
  match goal with H : _ \/ _ |- _ => destruct H end; (eexists _, _, _, _; split; [reflexivity |]; split; [done |]; split; [eassumption |]; unfold openers; set_solver).
Qed.
Definition any_fueled (c : nat) (any : parser stmt) : Prop :=
  forall cur, (c < cur)%nat -> (c < len)%nat -> exists n, (len - cur < n)%nat /\ any cur = parse_any_fuel stod toks n cur.
Lemma any_fueled_le c c' any : any_fueled c any -> (c <= c')%nat -> any_fueled c' any.
Proof. intros H Hc cur ??. apply H; lia. Qed.
Definition st_claim (ts : list token) (s : stmt) : Prop := forall cur e any, e = (cur + length ts)%nat -> any_fueled cur any -> text_at cur ts -> parse_any_with stod toks any cur = Ok (s, e).
Definition body_claim (ts : list token) (ss : list stmt) : Prop := forall c cur e any ends f acc, any_fueled c any -> (c < cur)%nat -> (c < len)%nat -> text_at cur ts -> e = (cur + length ts)%nat ->
  is_statement toks ends e = true -> ends ⊆ enders -> (len - cur < f)%nat -> body_loop toks any f ends acc cur = Ok (acc ++ ss, e).
Lemma body_nil_ok : body_claim [] [].
Proof.
  intros c cur e any ends f acc Ha ?? Hg He Hs _ Hf. destruct f as [| f]; [lia |]. cbn [body_loop length] in *. replace cur with e by lia. by rewrite Hs, app_nil_r.
Qed.
Lemma opens_length ts cur : opens ts -> text_at cur ts -> (cur < len)%nat /\ (0 < length ts)%nat.
Proof. intros [(? & ? & -> & _) | (? & ? & ? & ? & -> & _)] Hg; apply text_at_length in Hg; simpl in *; lia. Qed.
Lemma any_ok ts s c cur e any : st_claim ts s -> opens ts -> any_fueled c any -> (c < cur)%nat -> (c < len)%nat -> text_at cur ts -> e = (cur + length ts)%nat -> any cur = Ok (s, e).
Proof.
  intros H Ho Ha Hc Hl Hg He. destruct (opens_length _ _ Ho Hg). destruct (Ha cur Hc Hl) as (n & Hn & ->). destruct n as [| n]; [lia |]. cbn [parse_any_fuel].
  apply (H cur e); try done. intros cur' ??. exists n. split; [lia | done].
Qed.
Lemma body_cons_ok ts s ts' ss : st_claim ts s -> opens ts -> body_claim ts' ss -> body_claim (ts ++ ts') (s :: ss).
Proof.
  intros H Ho IH c cur e any ends f acc Ha Hc Hl Hg He Hs Hsub Hf. split_text. destruct (opens_length _ _ Ho H0). destruct f as [| f]; [lia |]. cbn [body_loop].
  rewrite (opens_not_end _ _ _ Ho H0 Hsub). erewrite (any_ok ts s c cur) by done. cbn [rbind]. rewrite (IH c (cur + length ts)%nat e any ends f) by (done || lia). by rewrite <- app_assoc.
Qed.
Lemma parse_body_ok ts ss c cur e any ends : body_claim ts ss -> any_fueled c any -> (c < cur)%nat -> (c < len)%nat -> text_at cur ts -> e = (cur + length ts)%nat ->
  is_statement toks ends e = true -> ends ⊆ enders -> parse_body toks any ends cur = Ok (ss, e).
Proof. intros H. intros. unfold parse_body. erewrite (H c cur e any ends); try done. unfold loops. lia. Qed.

(** ** The branches of if and for *)
Lemma tag_length n ts : tag n ts -> length ts = 3%nat.
Proof. by intros []. Qed.
Lemma tag_eq n ts cur ns : tag n ts -> text_at cur ts -> is_statement toks ns cur = existsb (fun m => bool_decide (bytes n = bytes m)) ns.
Proof. intros Ht Hg. eapply (tag_is _ _ _ _ []); [done |]. by rewrite app_nil_r. Qed.
(** up to the tag [fin]: the else branch, when there is one *)
Definition otherwise_claim (d : list token) (alt : list stmt) : Prop := forall c cur e any fin et, any_fueled c any -> (c < cur)%nat -> (c < len)%nat ->
  text_at cur (d ++ et) -> tag fin et -> (fin = "endif" \/ fin = "endfor")%string -> e = (cur + length d)%nat ->
  is_statement toks ["elif"%string] cur = false /\ (forall ns, fin ∈ ns -> "else"%string ∈ ns -> is_statement toks ns cur = true)
  /\ (if is_statement toks ["else"%string] cur then let! (_, cur) := expect_tok toks t_close_statement "Expected %}" (S (S cur)) in parse_body toks any [fin] cur else Ok ([], cur)) = Ok (alt, e).
Lemma tag_among n ns : n ∈ ns -> existsb (fun m => bool_decide (bytes n = bytes m)) ns = true.
Proof. intros H. apply existsb_exists. exists n. split; [by apply list_elem_of_In | by apply bool_decide_true]. Qed.
Lemma otherwise_none : otherwise_claim [] [].
Proof.
  intros c cur e any fin et Ha ?? Hg Ht Hf He. simpl in *. rewrite !(tag_eq _ _ _ _ Ht Hg). split_and!; [by destruct Hf as [-> | ->] | |].
  - intros ns Hn _. rewrite (tag_eq _ _ _ _ Ht Hg). by apply tag_among.
  - replace cur with e by lia. by destruct Hf as [-> | ->].
Qed.
Lemma otherwise_else w b ss : tag "else" w -> body_claim b ss -> otherwise_claim (w ++ b) ss.
Proof.
  intros Hw Hb c cur e any fin et Ha Hc Hl Hg Ht Hf He. rewrite <- app_assoc in Hg. rewrite !(tag_is _ _ _ _ _ Hw Hg). split_and!; [done | |].
  - intros ns _ Hn. rewrite (tag_is _ _ _ _ _ Hw Hg). by apply tag_among.
  - cbn [existsb]. rewrite bool_decide_true by done. cbn [orb]. destruct Hw as [o w k Ho Hw Hk]. cbn [app length] in *. split_text. erewrite expect_at by done. cbn [rbind].
    eapply (parse_body_ok b ss c); try done; [lia | lia | |].
    + replace e with (S (S (S cur)) + length b)%nat by lia. rewrite (tag_eq _ _ _ _ Ht) by done. apply tag_among. set_solver.
    + unfold enders. destruct Hf as [-> | ->]; set_solver.
Qed.
Definition branches_claim (ts : list token) (n : node F) : Prop := forall c cur e any et sp t f, any_fueled c any -> (c < cur)%nat -> (c < len)%nat -> text_at cur (ts ++ et) -> tag "endif" et ->
  e = (cur + length ts)%nat -> toks !! sp = Some t -> (len - cur < f)%nat -> if_loop stod toks any f sp cur = Ok (mkStmt (t_pos t) n, e).
(** a test, the end of its tag and the body behind it *)
Lemma test_body ts s k b ss c cur any ends rest : derives stod 10 ts s -> typed t_close_statement k -> body_claim b ss -> any_fueled c any -> (c < cur)%nat -> (c < len)%nat ->
  text_at cur (ts ++ k :: b ++ rest) -> is_statement toks ends (cur + length (ts ++ k :: b)) = true -> ends ⊆ enders ->
  expr cur = Ok (s, cur + length ts)%nat /\ expect_tok toks t_close_statement "Expected %}" (cur + length ts) = Ok (tt, S (cur + length ts))
  /\ parse_body toks any ends (S (cur + length ts)) = Ok (ss, cur + length (ts ++ k :: b))%nat.
Proof.
  intros H Hk Hb Ha Hc Hl Hg Hs Hsub. split_text. assert (tok_at toks (cur + length ts) t_close_statement) as Hk' by (by eapply tok_at_intro). split_and!.
  - eapply expr_ok; try done; [lia |]. eapply tok_at_closer; [done |]. unfold closer. set_solver.
  - by eapply expect_at.
  - eapply (parse_body_ok b ss c); try done; lia.
Qed.
Lemma branches_intro ts s k b ss d alt : derives stod 10 ts s -> typed t_close_statement k -> body_claim b ss -> otherwise_claim d alt ->
  branches_claim (ts ++ k :: b ++ d) (if_statement s ss alt).
Proof.
  intros H Hk Hb Ho c cur e any et sp t f Ha Hc Hl Hg Ht He Hsp Hf. destruct f as [| f]; [lia |]. cbn [if_loop].
  replace ((ts ++ k :: b ++ d) ++ et) with ((ts ++ k :: b) ++ d ++ et) in Hg by (by rewrite <- !app_assoc; simpl; rewrite <- app_assoc). pose proof Hg as [_ Hg2]%text_at_app.
  replace ((ts ++ k :: b) ++ d ++ et) with (ts ++ k :: b ++ (d ++ et)) in Hg by (by rewrite <- app_assoc).
  destruct (Ho c (cur + length (ts ++ k :: b))%nat e any "endif"%string et Ha) as (H1 & H2 & H3); [lia | done | done | done | by left | split_text; lia |].
  destruct (test_body ts s k b ss c cur any ["elif"; "else"; "endif"]%string _ H Hk Hb Ha Hc Hl Hg) as (E1 & E2 & E3); [apply H2; set_solver | unfold enders; set_solver |].
  run E1. run E2. run E3. rewrite H1, H3. cbn [rbind]. by erewrite mk_at.
Qed.
Lemma branches_elif ts s k b ss o w d n : derives stod 10 ts s -> typed t_close_statement k -> body_claim b ss -> typed t_open_statement o -> named "elif" w -> branches_claim d n ->
  branches_claim (ts ++ k :: b ++ o :: w :: d) (if_statement s ss [mkStmt (t_pos o) n]).
Proof.
  intros H Hk Hb Ho Hw IH c cur e any et sp t f Ha Hc Hl Hg Ht He Hsp Hf. destruct f as [| f]; [lia |]. cbn [if_loop].
  replace ((ts ++ k :: b ++ o :: w :: d) ++ et) with ((ts ++ k :: b) ++ o :: w :: d ++ et) in Hg by (by rewrite <- !app_assoc; simpl; rewrite <- app_assoc). pose proof Hg as [_ Hg2]%text_at_app.
  apply text_at_cons in Hg2 as [Ho' Hg2]. apply text_at_cons in Hg2 as [Hw' Hg2]. destruct Hw as [Hw Hv].
  replace ((ts ++ k :: b) ++ o :: w :: d ++ et) with (ts ++ k :: b ++ (o :: w :: d ++ et)) in Hg by (by rewrite <- app_assoc).
  destruct (test_body ts s k b ss c cur any ["elif"; "else"; "endif"]%string _ H Hk Hb Ha Hc Hl Hg) as (E1 & E2 & E3);
    [by rewrite (is_statement_at o w), Hv | unfold enders; set_solver |].
  run E1. run E2. run E3. rewrite (is_statement_at o w), Hv by done. cbn [existsb]. rewrite bool_decide_true by done. cbn [orb].
  erewrite (IH c _ _ any et _ o f); [| done | lia | done | done | done | done | done | split_text; pose proof (lookup_lt_Some _ _ _ Ho'); split_text; lia]. cbn [rbind].
  erewrite mk_at by done. repeat f_equal. split_text. lia.
Qed.

(** ** Statements *)
Lemma statement_at o w n cur any : toks !! cur = Some o -> typed t_open_statement o -> toks !! S cur = Some w -> named n w ->
  parse_any_with stod toks any cur = parse_named stod toks any (bytes n) (S cur) (S (S cur)).
Proof.
  intros Ho Ht Hw [Hi Hv]. unfold parse_any_with, peek_tok. rewrite Nat.add_0_r, Ho. simpl default. rewrite Ht. unfold parse_jinja_statement.
  erewrite expect_at by done. cbn [rbind]. rewrite (is_tok_at _ _ _ _ Hw), Hi, bool_decide_true by done. cbn [negb]. erewrite next_at by done. cbn [rbind]. by rewrite Hv.
Qed.
Ltac dispatch := erewrite statement_at by done; unfold parse_named;
  repeat first [rewrite bool_decide_true by reflexivity | rewrite bool_decide_false by discriminate]; cbn [orb].
Ltac closes := eapply tok_at_closer; [by eapply tok_at_intro |]; unfold closer; set_solver.
Lemma text_ok t : typed t_text t -> st_claim [t] (mkStmt (t_pos t) (string_literal (t_value t))).
Proof.
  intros Ht cur e any He Ha Hg. split_text. unfold parse_any_with, peek_tok. rewrite Nat.add_0_r, H. simpl default. rewrite Ht. erewrite next_at by done. cbn [rbind].
  erewrite mk_at by done. repeat f_equal. lia.
Qed.
Lemma comment_ok t : typed t_comment t -> st_claim [t] (mkStmt (t_pos t) (comment_statement (t_value t))).
Proof.
  intros Ht cur e any He Ha Hg. split_text. unfold parse_any_with, peek_tok. rewrite Nat.add_0_r, H. simpl default. rewrite Ht. erewrite next_at by done. cbn [rbind].
  erewrite mk_at by done. repeat f_equal. lia.
Qed.
Lemma output_ok o ts c s : typed t_open_expression o -> derives stod 10 ts s -> typed t_close_expression c -> st_claim (o :: ts ++ [c]) s.
Proof.
  intros Ho H Hc cur e any He Ha Hg. split_text. unfold parse_any_with, peek_tok. rewrite Nat.add_0_r, H0. simpl default. rewrite Ho. unfold parse_jinja_expression.
  erewrite expect_at by done. cbn [rbind]. erewrite (expr_ok ts s (S cur)); [| done | lia | done | done | closes]. cbn [rbind]. erewrite expect_at by done. cbn [rbind]. repeat f_equal. lia.
Qed.
Lemma set_ok o w ts1 s1 k ts2 s2 c : typed t_open_statement o -> named "set" w -> seq stod ts1 s1 -> typed t_equals k -> seq stod ts2 s2 -> typed t_close_statement c ->
  st_claim (o :: w :: ts1 ++ k :: ts2 ++ [c]) (mkStmt (t_pos w) (set_statement s1 (Some s2) [])).
Proof.
  intros Ho Hw H1 Hk H2 Hc cur e any He Ha Hg. split_text. dispatch. unfold parse_set_statement.
  erewrite (seq_ok ts1 s1 (S (S cur))); [| done | lia | done | done | closes | by erewrite is_tok_typed by done]. cbn [rbind]. erewrite is_tok_typed by done. rewrite bool_decide_true by done.
  erewrite (seq_ok ts2 s2); [| done | | done | done | closes | by erewrite is_tok_typed by done]; [| lia]. cbn [rbind]. erewrite expect_at by done. cbn [rbind].
  erewrite mk_at by done. repeat f_equal. lia.
Qed.
(** a body and the tag that ends it *)
Lemma body_end b ss n et c cur any : text_at cur (b ++ et) -> body_claim b ss -> tag n et -> n ∈ enders -> any_fueled c any -> (c < cur)%nat -> (c < len)%nat ->
  parse_body toks any [n] cur = Ok (ss, cur + length b)%nat /\ expect_end toks n (cur + length b) = Ok (tt, cur + length (b ++ et))%nat.
Proof.
  intros Hg Hb Ht Hn Ha Hc Hl. apply text_at_app in Hg as [Hg Hg2]. split.
  - eapply (parse_body_ok b ss c); try done; [rewrite (tag_eq _ _ _ _ Ht) by done; apply tag_among; set_solver |]. set_solver.
  - eapply expect_end_ok; try done. rewrite length_app. lia.
Qed.
Ltac ender := unfold enders; set_solver.
Lemma set_block_ok o w ts1 s1 c b ss et : typed t_open_statement o -> named "set" w -> seq stod ts1 s1 -> typed t_close_statement c -> body_claim b ss -> tag "endset" et ->
  st_claim (o :: w :: ts1 ++ c :: b ++ et) (mkStmt (t_pos w) (set_statement s1 None ss)).
Proof.
  intros Ho Hw H1 Hc Hb Ht cur e any He Ha Hg. pose proof (text_at_length _ _ _ _ Hg) as Hl. apply text_at_cons in Hg as [Hg1 Hg]. apply text_at_cons in Hg as [Hg2 Hg].
  apply text_at_app in Hg as [Hg3 Hg]. apply text_at_cons in Hg as [Hg4 Hg]. dispatch. unfold parse_set_statement. cbn [length] in *. rewrite length_app in *. cbn [length] in *.
  erewrite (seq_ok ts1 s1 (S (S cur))); [| done | lia | done | done | closes | by erewrite is_tok_typed by done]. cbn [rbind]. erewrite is_tok_typed by done. rewrite bool_decide_false by done.
  erewrite expect_at by done. cbn [rbind]. destruct (body_end b ss "endset" et cur _ any Hg Hb Ht ltac:(ender) Ha ltac:(lia) ltac:(lia)) as [E1 E2]. run E1. run E2.
  erewrite mk_at by done. repeat f_equal. lia.
Qed.
Lemma if_ok o w ts n et : typed t_open_statement o -> named "if" w -> branches_claim ts n -> tag "endif" et -> st_claim (o :: w :: ts ++ et) (mkStmt (t_pos w) n).
Proof.
  intros Ho Hw Hb Ht cur e any He Ha Hg. pose proof (text_at_length _ _ _ _ Hg) as Hl. apply text_at_cons in Hg as [Hg1 Hg]. apply text_at_cons in Hg as [Hg2 Hg]. dispatch.
  unfold ended, parse_if_statement. cbn [length] in *. erewrite (Hb cur); [| done | lia | lia | done | done | done | done | unfold loops; lia]. cbn [rbind].
  apply text_at_app in Hg as [_ Hg]. erewrite expect_end_ok by done. cbn [rbind]. repeat f_equal. rewrite length_app in *. lia.
Qed.
Lemma for_ok o w ts1 s1 i ts2 s2 c b ss d alt et : typed t_open_statement o -> named "for" w -> loop_vars stod ts1 s1 -> named "in" i -> derives stod 10 ts2 s2 -> typed t_close_statement c ->
  body_claim b ss -> otherwise_claim d alt -> tag "endfor" et ->
  st_claim (o :: w :: ts1 ++ i :: ts2 ++ c :: b ++ d ++ et) (mkStmt (t_pos w) (for_statement s1 s2 ss alt)).
Proof.
  intros Ho Hw H1 Hi H2 Hc Hb Hd Ht cur e any He Ha Hg. pose proof (text_at_length _ _ _ _ Hg) as Hl. apply text_at_cons in Hg as [Hg1 Hg]. apply text_at_cons in Hg as [Hg2 Hg].
  apply text_at_app in Hg as [Hg3 Hg]. apply text_at_cons in Hg as [Hg4 Hg]. dispatch. unfold ended, parse_for_statement.
  erewrite (loop_vars_ok ts1 s1 (S (S cur))); [| done | done | done | eapply stops_0; [done | by eapply named_typed | done] | by rewrite (is_tok_typed _ _ _ _ _ Hg4 (named_typed _ _ Hi))].
  cbn [rbind]. rewrite (is_identifier_named _ _ _ _ _ Hg4 Hi), bool_decide_true by done. cbn [negb]. set (p := S (S (S cur) + length ts1)) in *.
  replace (ts2 ++ c :: b ++ d ++ et) with ((ts2 ++ c :: b) ++ d ++ et) in Hg by (by rewrite <- app_assoc). pose proof Hg as [_ Hgd]%text_at_app.
  replace ((ts2 ++ c :: b) ++ d ++ et) with (ts2 ++ c :: b ++ (d ++ et)) in Hg by (by rewrite <- app_assoc).
  repeat (cbn [length] in Hl, He; rewrite ?length_app in Hl, He).
  destruct (Hd cur (p + length (ts2 ++ c :: b))%nat _ any "endfor"%string et Ha ltac:(lia) ltac:(lia) Hgd Ht ltac:(by right) eq_refl) as (_ & E4 & E5).
  destruct (test_body ts2 s2 c b ss cur p any ["endfor"; "else"]%string (d ++ et) H2 Hc Hb Ha) as (E1 & E2 & E3); [lia | lia | done | apply E4; set_solver | ender |].
  run E1. run E2. run E3. run E5. erewrite mk_at by done. cbn [rbind]. apply text_at_app in Hgd as [_ Hgd]. erewrite expect_end_ok by done. cbn [rbind].
  repeat f_equal. rewrite length_app. cbn [length]. subst p. lia.
Qed.
Lemma macro_ok o w ts1 s1 ts2 es c b ss et : typed t_open_statement o -> named "macro" w -> derives stod 0 ts1 s1 -> call_args stod ts2 es -> typed t_close_statement c -> body_claim b ss ->
  tag "endmacro" et -> st_claim (o :: w :: ts1 ++ ts2 ++ c :: b ++ et) (mkStmt (t_pos w) (macro_statement s1 es ss)).
Proof.
  intros Ho Hw H1 H2 Hc Hb Ht cur e any He Ha Hg. pose proof (text_at_length _ _ _ _ Hg) as Hl. apply text_at_cons in Hg as [Hg1 Hg]. apply text_at_cons in Hg as [Hg2 Hg].
  apply text_at_app in Hg as [Hg3 Hg]. apply text_at_app in Hg as [Hg4 Hg]. apply text_at_cons in Hg as [Hg5 Hg]. dispatch. unfold ended, parse_macro_statement.
  assert (Hp : stops 0 (S (S cur) + length ts1)) by (destruct H2 as [k ????]; apply text_at_cons in Hg4 as [? _]; by eapply stops_0).
  repeat (cbn [length] in Hl, He; rewrite ?length_app in Hl, He).
  erewrite (primary_ok ts1 s1) by done. cbn [rbind]. erewrite args_ok by done. cbn [rbind]. erewrite expect_at by done. cbn [rbind].
  destruct (body_end b ss "endmacro" et cur _ any Hg Hb Ht ltac:(ender) Ha ltac:(lia) ltac:(lia)) as [E1 E2]. run E1. erewrite mk_at by done. cbn [rbind]. run E2.
  repeat f_equal. rewrite length_app. lia.
Qed.
Lemma ident_at t cur : toks !! cur = Some t -> typed t_identifier t -> stops 0 (S cur) -> parse_primary stod toks cur = Ok (mkStmt (t_pos t) (identifier (t_value t)), S cur).
Proof.
  intros H Ht Hst. eapply (primary_ok [t]); [by apply d_ident | | simpl; lia | done]. apply text_at_cons. split; [done | apply text_at_nil].
Qed.
Lemma call_args_open ts es cur : call_args stod ts es -> text_at cur ts -> is_tok toks t_open_paren cur = true /\ stops 0 cur.
Proof. intros [o ? ? c Ho _ _] [Hg _]%text_at_cons. split; [by erewrite is_tok_typed, bool_decide_true | by eapply stops_0]. Qed.
Lemma call_ok o w ts1 es1 t ts2 es2 c b ss et : typed t_open_statement o -> named "call" w -> (ts1 = [] /\ es1 = [] \/ call_args stod ts1 es1) -> typed t_identifier t -> call_args stod ts2 es2 ->
  typed t_close_statement c -> body_claim b ss -> tag "endcall" et ->
  st_claim (o :: w :: ts1 ++ t :: ts2 ++ c :: b ++ et)
    (mkStmt (t_pos w) (call_statement (mkStmt (t_pos w) (call_expression (mkStmt (t_pos t) (identifier (t_value t))) es2)) es1 ss)).
Proof.
  intros Ho Hw H1 Hi H2 Hc Hb Ht cur e any He Ha Hg. pose proof (text_at_length _ _ _ _ Hg) as Hl. apply text_at_cons in Hg as [Hg1 Hg]. apply text_at_cons in Hg as [Hg2 Hg].
  apply text_at_app in Hg as [Hg3 Hg]. apply text_at_cons in Hg as [Hg4 Hg]. apply text_at_app in Hg as [Hg5 Hg]. apply text_at_cons in Hg as [Hg6 Hg]. dispatch. unfold parse_call_statement.
  repeat (cbn [length] in Hl, He; rewrite ?length_app in Hl, He).
  assert ((if is_tok toks t_open_paren (S (S cur)) then parse_args toks expr (S (S cur)) else Ok ([], S (S cur))) = Ok (es1, S (S cur) + length ts1)%nat) as ->.
  { destruct H1 as [ [-> ->] | H1]; [rewrite Nat.add_0_r in *; simpl in *; by rewrite (is_tok_typed _ _ _ _ _ Hg4 Hi) |].
    rewrite (proj1 (call_args_open _ _ _ H1 Hg3)). by erewrite args_ok. }
  cbn [rbind]. rewrite (ident_at t) by (done || apply (call_args_open _ _ _ H2 Hg5)). cbn [rbind is_ident negb]. erewrite args_ok by done. cbn [rbind].
  erewrite expect_at by done. cbn [rbind]. destruct (body_end b ss "endcall" et cur _ any Hg Hb Ht ltac:(ender) Ha ltac:(lia) ltac:(lia)) as [E1 E2]. run E1. run E2.
  erewrite mk_stmt_at by done. cbn [rbind]. erewrite mk_at by done. repeat f_equal. rewrite length_app. lia.
Qed.
Lemma filter_ok o w t ts n c b ss et : typed t_open_statement o -> named "filter" w -> typed t_identifier t -> filter_call stod (mkStmt (t_pos t) (identifier (t_value t))) ts n ->
  typed t_close_statement c -> body_claim b ss -> tag "endfilter" et -> st_claim (o :: w :: t :: ts ++ c :: b ++ et) (mkStmt (t_pos w) (filter_statement n ss)).
Proof.
  intros Ho Hw Hi H1 Hc Hb Ht cur e any He Ha Hg. pose proof (text_at_length _ _ _ _ Hg) as Hl. apply text_at_cons in Hg as [Hg1 Hg]. apply text_at_cons in Hg as [Hg2 Hg]. apply text_at_cons in Hg as [Hg3 Hg].
  apply text_at_app in Hg as [Hg4 Hg]. apply text_at_cons in Hg as [Hg5 Hg]. dispatch. unfold parse_filter_statement. repeat (cbn [length] in Hl, He; rewrite ?length_app in Hl, He).
  assert (Hst : stops 10 (S (S (S cur)) + length ts)) by closes.
  assert (stops 0 (S (S (S cur))) /\ (if is_tok toks t_open_paren (S (S (S cur))) then parse_call_expression stod toks expr (mkStmt (t_pos t) (identifier (t_value t))) (S (S (S cur)))
    else Ok (mkStmt (t_pos t) (identifier (t_value t)), S (S (S cur)))) = Ok (n, S (S (S cur)) + length ts)%nat) as [Hs0 Hcall].
  { destruct H1 as [| k ts es c' Hk Has Hc'].
    - cbn [length] in *. rewrite Nat.add_0_r in *. split; [exact (stops_le _ 10 0 _ Hst ltac:(lia)) |]. by rewrite (is_tok_typed _ _ _ _ _ Hg5 Hc).
    - pose proof Hg4 as [Hk' _]%text_at_cons. split; [by eapply stops_0 |]. rewrite (is_tok_typed _ _ _ _ _ Hk' Hk), bool_decide_true by done. unfold parse_call_expression, loops at 1.
      erewrite (call_step stod toks expr _ _ k ts es c'); [| by apply syntax_claims | done | apply expr_fueled | done | done | done].
      unfold post, loops. match goal with |- context [member_loop _ _ _ (S ?f) ?sp ?s ?x] => destruct (member_exit stod toks f sp s x expr (stops_le _ 10 1 _ Hst ltac:(lia))) as [-> He'] end.
      cbn [rbind]. by rewrite He'. }
  rewrite (ident_at t) by done. cbn [rbind is_ident]. rewrite andb_true_l. rewrite Hcall. cbn [rbind]. erewrite expect_at by done. cbn [rbind].
  destruct (body_end b ss "endfilter" et cur _ any Hg Hb Ht ltac:(ender) Ha ltac:(lia) ltac:(lia)) as [E1 E2]. run E1. run E2. erewrite mk_at by done. repeat f_equal. rewrite length_app. lia.
Qed.
Lemma break_ok o w c : typed t_open_statement o -> named "break" w -> typed t_close_statement c -> st_claim [o; w; c] (mkStmt (t_pos w) break_statement).
Proof. intros Ho Hw Hc cur e any He Ha Hg. split_text. dispatch. erewrite expect_at by done. cbn [rbind]. erewrite mk_at by done. repeat f_equal. lia. Qed.
Lemma continue_ok o w c : typed t_open_statement o -> named "continue" w -> typed t_close_statement c -> st_claim [o; w; c] (mkStmt (t_pos w) continue_statement).
Proof. intros Ho Hw Hc cur e any He Ha Hg. split_text. dispatch. erewrite expect_at by done. cbn [rbind]. erewrite mk_at by done. repeat f_equal. lia. Qed.
Lemma generation_ok o w c : typed t_open_statement o -> named "generation" w \/ named "endgeneration" w -> st_claim [o; w; c] (mkStmt (t_pos w) noop_statement).
Proof. intros Ho [Hw | Hw] cur e any He Ha Hg; split_text; dispatch; erewrite mk_at by done; repeat f_equal; lia. Qed.

Lemma statement_claims :
  (forall ts s, st stod ts s -> st_claim ts s) /\ (forall ts n, branches stod ts n -> branches_claim ts n) /\ (forall d alt, otherwise stod d alt -> otherwise_claim d alt)
  /\ (forall ts ss, body stod ts ss -> body_claim ts ss).
Proof.
  apply (statements_mut F stod (fun ts s _ => st_claim ts s) (fun ts n _ => branches_claim ts n) (fun d alt _ => otherwise_claim d alt) (fun ts ss _ => body_claim ts ss)); intros.
  all: try (by eauto using text_ok, comment_ok, output_ok, set_ok, set_block_ok, if_ok, for_ok, macro_ok, call_ok, filter_ok, break_ok, continue_ok, generation_ok,
    branches_intro, branches_elif, otherwise_none, otherwise_else, body_nil_ok).
  apply body_cons_ok; [done | by eapply st_opens | done].
Qed.
End Statements.

(** * The template parser: it always ends, and it parses the language of the grammar *)

Lemma program_ok {F : Type} (stod : list Z -> option F) toks ts ss : body stod ts ss -> forall cur f acc, text_at toks cur ts -> (cur + length ts = length toks)%nat -> (length toks - cur < f)%nat ->
  program_loop stod toks f acc cur = Ok (acc ++ ss).
Proof.
  induction 1 as [| ts s ts' ss Hs _ IH]; intros cur f acc Hg Hl Hf; (destruct f as [| f]; [lia |]); cbn [program_loop length] in *.
  - rewrite (proj2 (Nat.leb_le _ _)) by lia. by rewrite app_nil_r.
  - split_text. pose proof (st_opens _ _ _ Hs) as Ho. destruct (opens_length _ _ _ Ho H). rewrite (proj2 (Nat.leb_gt _ _)) by lia. unfold parse_any, loops. cbn [parse_any_fuel].
    apply (proj1 (statement_claims stod toks)) in Hs. erewrite (Hs cur (cur + length ts)%nat); [| done | | done].
    + cbn [rbind]. rewrite IH by (done || lia). by rewrite <- app_assoc.
    + intros cur' ??. exists (length toks - cur)%nat. split; [lia | done].
Qed.

(** C27: Parsing ends on every token list, with a tree or an exception.  No nested call and no turn of
    a loop leaves the current token where it was, so the recursion is bounded by the number of
    tokens, and a node is never given the position of a token behind the end. *)
Theorem parse_ends {F : Type} (stod : list Z -> option F) (toks : list token) :
  match parse_from_tokens stod toks with Ok _ => True | Err e => exists msg, e = Throw msg end.
Proof.
  pose proof (program_loop_safe stod toks (loops toks 0) [] 0 ltac:(unfold loops; lia)) as H. unfold parse_from_tokens.
  destruct (program_loop _ _ _ _ _) as [ss | [msg | |] ]; simpl in H; [done | by exists msg | done | done].
Qed.

(** C26: The parser accepts every sentence of the template grammar and builds its tree: nested
    statements with their bodies and branches, calls, members, slices, filters and tests, and the
    operators with the precedence and associativity of the grammar.  Chains of comparison and membership operators group to the left, as the
    loop builds them and against the comment above it, which says to the right (comparison_chains_left).  In
    particular the grammar is not ambiguous. *)
Theorem parse_complete {F : Type} (stod : list Z -> option F) (toks : list token) (ss : list (statement F)) :
  body stod toks ss -> parse_from_tokens stod toks = Ok ss.
Proof. intros H. apply (program_ok stod toks toks ss H); [by intros i t | done | unfold loops; lia]. Qed.

Definition tk (ty : token_type) (s : string) (p : nat) : token := mkToken ty (bytes s) p.
(** {{ a + b * 2 }} and {% if not x %}t{% endif %} *)
Definition sample_tokens : list token :=
  [tk t_open_expression "{{" 0; tk t_identifier "a" 3; tk t_additive_binary_operator "+" 5; tk t_identifier "b" 7; tk t_multiplicative_binary_operator "*" 9; tk t_numeric_literal "2" 11;
   tk t_close_expression "}}" 13; tk t_open_statement "{%" 15; tk t_identifier "if" 18; tk t_identifier "not" 21; tk t_identifier "x" 25; tk t_close_statement "%}" 27; tk t_text "t" 29;
   tk t_open_statement "{%" 30; tk t_identifier "endif" 33; tk t_close_statement "%}" 39].
Definition sample_tree : list (statement unit) :=
  [mkStmt 5 (binary_expression (tk t_additive_binary_operator "+" 5) (mkStmt 3 (identifier (bytes "a")))
     (mkStmt 9 (binary_expression (tk t_multiplicative_binary_operator "*" 9) (mkStmt 7 (identifier (bytes "b"))) (mkStmt 11 (integer_literal 2)))));
   mkStmt 18 (if_statement (mkStmt 21 (unary_expression (tk t_identifier "not" 21) (mkStmt 25 (identifier (bytes "x"))))) [mkStmt 29 (string_literal (bytes "t"))] [])].
Lemma lift_level {F : Type} (stod : list Z -> option F) l ts s : (1 <= l <= 10)%nat -> derives stod 0 ts s -> not_negated ts -> derives stod l ts s.
Proof.
  intros Hl H Hn. induction l as [| l IH]; [lia |]. destruct l as [| l]; [eapply d_postfix, x_primary, H |]. apply d_up; [lia | apply IH; lia | done].
Qed.
Lemma not_negated_head t ts : ~ named "not" t -> not_negated (t :: ts).
Proof. intros H u. by intros [= <-]. Qed.
Lemma lift_from {F : Type} (stod : list Z -> option F) l l' ts s : (1 <= l)%nat -> (l <= l' <= 10)%nat -> derives stod l ts s -> not_negated ts \/ (6 < l)%nat -> derives stod l' ts s.
Proof.
  intros H1 Hl H Hn. induction l' as [| l' IH]; [lia |]. destruct (decide (l = S l')) as [<- |]; [done |]. apply d_up; [lia | apply IH; lia | intros ->; by destruct Hn; [| lia] ].
Qed.
Lemma parse_complete_witness : body (fun _ => None) sample_tokens sample_tree /\ parse_from_tokens (fun _ => None) sample_tokens = Ok sample_tree.
Proof.
  assert (H : body (fun _ => @None unit) sample_tokens sample_tree).
  { apply (body_cons _ (take 7 sample_tokens) _ (drop 7 sample_tokens)); [| apply (body_cons _ (drop 7 sample_tokens) _ []); [| constructor] ].
    - apply (st_output _ _ (take 5 (drop 1 sample_tokens)) _); [reflexivity | | reflexivity]. apply (lift_from _ 5); [lia | lia | | left; apply not_negated_head; by intros [_ [=] ] ].
      apply (d_binary _ 5 [tk t_identifier "a" 3] _ [tk t_additive_binary_operator "+" 5] _ [_; _; _]); [| by constructor |].
      + apply lift_level; [lia | by apply (d_ident _ (tk t_identifier "a" 3)) | apply not_negated_head; by intros [_ [=] ] ].
      + apply (d_binary _ 4 [tk t_identifier "b" 7] _ [tk t_multiplicative_binary_operator "*" 9] _ [tk t_numeric_literal "2" 11]); [| by constructor |].
        * apply lift_level; [lia | by apply (d_ident _ (tk t_identifier "b" 7)) | apply not_negated_head; by intros [_ [=] ] ].
        * apply lift_level; [simpl; lia | apply (d_int _ (tk t_numeric_literal "2" 11)); [reflexivity | | reflexivity] | apply not_negated_head; by intros [ [=] _] ].
          simpl. intros Hin. by apply list_elem_of_singleton in Hin.
    - apply (st_if _ _ (tk t_identifier "if" 18) (take 4 (drop 9 sample_tokens)) _ (drop 13 sample_tokens)); [reflexivity | by split | | by repeat constructor].
      apply (b_intro _ (take 2 (drop 9 sample_tokens)) _ (tk t_close_statement "%}" 27) [tk t_text "t" 29] _ []); [| reflexivity | | constructor].
      + apply (lift_from _ 7); [lia | lia | | right; lia]. apply (d_not _ (tk t_identifier "not" 21)); [by split |].
        apply lift_level; [lia | by apply (d_ident _ (tk t_identifier "x" 25)) | apply not_negated_head; by intros [_ [=] ] ].
      + apply (body_cons _ [_] _ []); [by apply (st_text _ (tk t_text "t" 29)) | constructor]. }
  split; [exact H | exact (parse_complete (fun _ => None) sample_tokens sample_tree H)].
Defined.

(** what the lexer and the parser make of a template, without numbers with a point *)
Definition parse_source (source : string) : res (list (statement unit)) := let! (ts, _) := tokenize (bytes source) in parse_from_tokens (fun _ => None) ts.
(** The lexer turns a sign before a name into a unary operator, as its comment says (-apple), but no
    parsing function accepts one: the template {{ -x }} is refused. *)
Theorem unary_minus_refused : (exists ts src, tokenize (bytes "{{ -x }}") = Ok (ts, src) /\ t_unary_operator ∈ (t_type <$> ts)) /\ parse_source "{{ -x }}" = throw! "Unexpected token".
Proof. split; [| vm_compute; reflexivity]. eexists _, _. split; [vm_compute; reflexivity |]. vm_compute. set_solver. Qed.
(** Membership and comparison chains group to the left: 'a' in 'apple' == 'b' in 'banana' is read as
    (('a' in 'apple') == 'b') in 'banana', not as the comment in the code has it. *)
Theorem comparison_chains_left : parse_source "{{ a in b == c in d }}" =
  Ok [mkStmt 15 (binary_expression (tk t_identifier "in" 15)
        (mkStmt 10 (binary_expression (tk t_comparison_binary_operator "==" 10)
           (mkStmt 5 (binary_expression (tk t_identifier "in" 5) (mkStmt 3 (identifier (bytes "a"))) (mkStmt 8 (identifier (bytes "b")))))
           (mkStmt 13 (identifier (bytes "c")))))
        (mkStmt 18 (identifier (bytes "d"))))].
Proof. vm_compute. reflexivity. Qed.
