(* ===== verification/ToolCalls.v ===== *)
(** * Tool calls in generated text (src/iian/server/tool_calls.h, tool_calls.cpp)

    The format a chat template expects, the tool calls parsed out of a complete message, and how
    much of a partial message can be streamed.  Strings are byte lists and std::string::npos is
    [None].  The JSON library is a parameter: parsing a text to a value ([None] when it is refused)
    and printing a value; so is the random identifier of a call, numbered by the calls before it. *)

From S2P Require Import JsonSchema Prelude Request Text JinjaLexer.

Inductive ToolFormat := TF_NONE | HERMES | LLAMA3 | MISTRAL | GENERIC.
#[global] Instance ToolFormat_eq_dec : EqDecision ToolFormat.
Proof. solve_decision. Defined.
Record ToolCall := mkCall { tc_id : list Z; tc_name : list Z; tc_arguments : list Z }.
Record ParsedAssistant := mkParsed { content : list Z; tool_calls : list ToolCall }.

(** a value of the JSON library; numbers by their text *)
Inductive json := j_null | j_bool (b : bool) | j_number (t : list Z) | j_string (s : list Z) | j_array (l : list json) | j_object (l : list (list Z * json)).
Definition j_get (key : list Z) (l : list (list Z * json)) : option json := snd <$> List.find (fun e => bool_decide (e.1 = key)) l.

(** ** Strings *)
Definition trim (s : list Z) : list Z := string_rstrip (string_lstrip s).

Definition detect_tool_format (src : list Z) : ToolFormat :=
  if has src "<tool_call>" then HERMES
  else if has src "[TOOL_CALLS]" then MISTRAL
  else if has src "<|python_tag|>" || (bool_decide (is_Some (find_str src (quoted "`parameters`") 0)) && has src "tool_calls") then LLAMA3
  else if has src "tools" && has src "tool_calls" then GENERIC
  else TF_NONE.

Definition open_marker : list Z := bytes "<tool_call>".
Definition close_marker : list Z := bytes "</tool_call>".
Definition mistral_marker : list Z := bytes "[TOOL_CALLS]".
Definition python_tag : list Z := bytes "<|python_tag|>".

Section Parse.
(** [random_id n] is the id drawn for the n-th call that a parse finds: every parse draws its own *)
Context (json_parse : list Z -> option json) (dump : json -> list Z) (random_id : nat -> list Z).

Definition tool_call_from_json (n : nat) (j : json) : option ToolCall :=
  match j with
  | j_object l =>
      match j_get (bytes "name") l with
      | Some (j_string name) =>
          let args := match j_get (bytes "arguments") l with Some a => Some a | None => j_get (bytes "parameters") l end in
          let arguments := match args with None => bytes "{}" | Some (j_string s) => s | Some a => dump a end in
          Some (mkCall (bytes "call_" ++ random_id n) name arguments)
      | _ => None
      end
  | _ => None
  end.
(** the calls of a value are added to [calls]; whether there was one *)
Fixpoint collect_array (l : list json) (calls : list ToolCall) (any : bool) : list ToolCall * bool :=
  match l with
  | [] => (calls, any)
  | e :: l => match tool_call_from_json (length calls) e with
              | Some tc => collect_array l (calls ++ [tc]) true
              | None => collect_array l calls any
              end
  end.
Definition collect_calls (v : json) (calls : list ToolCall) : list ToolCall * bool :=
  match v with
  | j_array l => collect_array l calls false
  | _ => match tool_call_from_json (length calls) v with Some tc => (calls ++ [tc], true) | None => (calls, false) end
  end.

(** the index behind the bracket that closes the value, from index [i] on *)
Fixpoint match_bracket (s : list Z) (i : nat) (depth : Z) (in_str esc : bool) : option nat :=
  match s with
  | [] => None
  | c :: s =>
      if in_str then
        if esc then match_bracket s (S i) depth true false
        else if c =? ch "\" then match_bracket s (S i) depth true true
        else if c =? quote then match_bracket s (S i) depth false false
        else match_bracket s (S i) depth true false
      else if c =? quote then match_bracket s (S i) depth true esc
      else if (c =? ch "{") || (c =? ch "[") then match_bracket s (S i) (depth + 1) false esc
      else if (c =? ch "}") || (c =? ch "]") then
        if depth - 1 =? 0 then Some (S i) else match_bracket s (S i) (depth - 1) false esc
      else match_bracket s (S i) depth false esc
  end.
Definition opens_json (c : Z) : bool := (c =? ch "{") || (c =? ch "[").
Definition parse_json_at (text : list Z) (pos : nat) : option (nat * json) :=
  match text !! pos with
  | Some c =>
      if negb (opens_json c) then None else
      match match_bracket (drop pos text) pos 0 false false with
      | Some e => match json_parse (substr text pos (e - pos)) with Some v => Some (e, v) | None => None end
      | None => None
      end
  | None => None
  end.

(** ** HERMES: calls between tags, content outside *)
Fixpoint hermes_loop (fuel : nat) (text : list Z) (pos : nat) (cont : list Z) (calls : list ToolCall) : res (list Z * list ToolCall) :=
  match fuel with
  | O => Err Fuel
  | S fuel =>
      match find_str text open_marker pos with
      | None => Ok (cont ++ drop pos text, calls)
      | Some s =>
          let cont := cont ++ substr text pos (s - pos) in
          let body := (s + length open_marker)%nat in
          let e := find_str text close_marker body in
          let inner := trim (match e with None => drop body text | Some e => substr text body (e - body) end) in
          let whole := match e with None => drop s text | Some e => substr text s (e + length close_marker - s) end in
          let '(cont, calls) := match json_parse inner with
                                | None => (cont ++ whole, calls)
                                | Some v => let '(calls', any) := collect_calls v calls in
                                            if any : bool then (cont, calls') else (cont ++ whole, calls')
                                end in
          match e with
          | None => Ok (cont, calls)
          | Some e => hermes_loop fuel text (e + length close_marker) cont calls
          end
      end
  end.
Definition parse_hermes (text : list Z) : res ParsedAssistant :=
  let! (cont, calls) := hermes_loop (S (length text)) text 0 [] [] in Ok (mkParsed (trim cont) calls).

(** ** MISTRAL: a value behind the marker *)
Fixpoint find_bracket (s : list Z) (i : nat) : option nat := match s with [] => None | c :: s => if opens_json c then Some i else find_bracket s (S i) end.
Definition parse_mistral (text : list Z) : ParsedAssistant :=
  match find_str text mistral_marker 0 with
  | Some s =>
      let from := (s + length mistral_marker)%nat in
      match find_bracket (drop from text) from with
      | Some start =>
          match parse_json_at text start with
          | Some (e, v) => match collect_calls v [] with
                           | (calls, true) => mkParsed (trim (take s text ++ drop e text)) calls
                           | (calls, false) => mkParsed (trim text) calls
                           end
          | None => mkParsed (trim text) []
          end
      | None => mkParsed (trim text) []
      end
  | None => mkParsed (trim text) []
  end.

(** ** LLAMA3, GENERIC, NONE: values at the start of the message *)
Fixpoint skip_separators (n : nat) (t : list Z) (pos : nat) : nat :=
  match n with
  | O => pos
  | S n => match t !! pos with
           | Some c => if (c =? ch ";") || (c =? ch ",") || is_space c then skip_separators n t (S pos) else pos
           | None => pos
           end
  end.
(** where the values end, whether there was a call, and the calls *)
Fixpoint values_loop (fuel : nat) (t : list Z) (pos : nat) (any : bool) (calls : list ToolCall) : res (nat * bool * list ToolCall) :=
  match fuel with
  | O => Err Fuel
  | S fuel =>
      if (length t <=? pos)%nat then Ok (pos, any, calls) else
      match parse_json_at t pos with
      | None => Ok (pos, any, calls)
      | Some (e, v) =>
          match collect_calls v calls with
          | (calls, false) => Ok (pos, any, calls)
          | (calls, true) =>
              let pos := skip_separators (length t - e) t e in
              match t !! pos with
              | Some c => if opens_json c then values_loop fuel t pos true calls else Ok (pos, true, calls)
              | None => values_loop fuel t pos true calls
              end
          end
      end
  end.
Definition parse_values (text : list Z) : res ParsedAssistant :=
  let t := trim text in
  let t := if starts_with python_tag t then trim (drop (length python_tag) t) else t in
  let whole := mkParsed (trim text) in
  match t with
  | c :: _ =>
      if opens_json c then
        let! (pos, any, calls) := values_loop (S (length t)) t 0 false [] in
        if any : bool then Ok (mkParsed (trim (drop pos t)) calls) else Ok (whole calls)
      else Ok (whole [])
  | [] => Ok (whole [])
  end.
Definition parse_tool_calls (text : list Z) (fmt : ToolFormat) : res ParsedAssistant :=
  match fmt with HERMES => parse_hermes text | MISTRAL => Ok (parse_mistral text) | _ => parse_values text end.
End Parse.

(** ** How much of a partial message can be streamed *)
(** the longest proper prefix of the marker, of length at most [k], that ends the text *)
Fixpoint hold_suffix (k : nat) (partial marker : list Z) : nat :=
  match k with
  | O => length partial
  | S k' => if bool_decide (drop (length partial - k) partial = take k marker) then (length partial - k)%nat else hold_suffix k' partial marker
  end.
Definition held_for_marker (partial marker : list Z) : nat :=
  match find_str partial marker 0 with Some s => s | None => hold_suffix (Nat.min (length marker - 1) (length partial)) partial marker end.
Definition streamable_prefix (partial : list Z) (fmt : ToolFormat) : nat :=
  match fmt with
  | HERMES => held_for_marker partial open_marker
  | MISTRAL => held_for_marker partial mistral_marker
  | _ => match string_lstrip partial with
         | [] => O
         | c :: _ => if opens_json c || (c =? ch "<") then O else length partial
         end
  end.

(** ** The grammar that forces tool calls *)
Section Force.
Context (dump : jvalue -> res (list Z)).
Definition args_key (fmt : ToolFormat) : list Z := match fmt with LLAMA3 => bytes "parameters" | _ => bytes "arguments" end.
(** the value of a key with the default "", when the key has a string *)
Definition name_value (f : jvalue) : res (list Z) :=
  match f with
  | Obj l => match JsonSchema.assoc (bytes "name") l with Some v => get_string v | None => Ok [] end
  | _ => throw! "cannot use value() with this type"
  end.
Definition tool_schema (fmt : ToolFormat) (name : list Z) (f : jvalue) : jvalue :=
  let params := match JsonSchema.field "parameters" f with Some (Obj l) => Obj l | _ => Obj [(bytes "type", Str (bytes "object"))] end in
  Obj [(bytes "type", Str (bytes "object")); (bytes "properties", Obj [(bytes "name", Obj [(bytes "const", Str name)]); (args_key fmt, params)]);
       (bytes "required", Arr [Str (bytes "name"); Str (args_key fmt)]); (bytes "additionalProperties", Bool false)].
Fixpoint tool_alternatives (fmt : ToolFormat) (only : list Z) (tools : list jvalue) : res (list jvalue) :=
  match tools with
  | [] => Ok []
  | t :: tools =>
      match JsonSchema.field "function" t with
      | None => tool_alternatives fmt only tools
      | Some f =>
          let! name := name_value f in
          let! rest := tool_alternatives fmt only tools in
          if bool_decide (name = []) || (negb (bool_decide (only = [])) && negb (bool_decide (name = only))) then Ok rest else Ok (tool_schema fmt name f :: rest)
      end
  end.
(** the rule around the calls *)
Definition call_root (fmt : ToolFormat) (parallel : bool) : list Z :=
  match fmt with
  | HERMES => if parallel then quoted "root ::= (`<tool_call>\n` call `\n</tool_call>` `\n`?)+" else quoted "root ::= `<tool_call>\n` call `\n</tool_call>`"
  | MISTRAL => if parallel then quoted "root ::= `[TOOL_CALLS][` call (`,` call)* `]`" else quoted "root ::= `[TOOL_CALLS][` call `]`"
  | LLAMA3 => if parallel then quoted "root ::= call (`;` call)*" else bytes "root ::= call"
  | _ => if parallel then quoted "root ::= `[` call (`,` call)* `]`" else bytes "root ::= call"
  end.
Definition tool_call_grammar (fuel : nat) (tools : jvalue) (fmt : ToolFormat) (parallel : bool) (only : list Z) : res (list Z) :=
  let! alternatives := tool_alternatives fmt only (JsonSchema.elements tools) in
  let! call_schema := match alternatives with
                      | [] => throw! (if bool_decide (only = []) then "no usable tool definitions" else "tool_choice names a function that is not in 'tools'")
                      | [a] => Ok a
                      | _ => Ok (Obj [(bytes "anyOf", Arr alternatives)])
                      end in
  let! inner := json_schema_to_grammar dump fuel call_schema in
  match find_str inner (bytes "root ::=") 0 with
  | None => throw! "schema grammar has no root rule"
  | Some rp => Ok (call_root fmt parallel ++ [newline] ++ take rp inner ++ bytes "call" ++ drop (rp + 4) inner)
  end.
End Force.

(** *** A parameter named root *)
Definition constant_text (v : jvalue) : res (list Z) := match v with Str s => Ok (quote :: s ++ [quote]) | _ => throw! "not a string" end.
Definition one_tool (parameter : string) : jvalue :=
  Arr [Obj [(bytes "function", Obj [(bytes "name", Str (bytes "f")); (bytes "parameters", Obj [(bytes "type", Str (bytes "object")); (bytes "properties", Obj [(bytes parameter, Obj [(bytes "enum", Arr [Str (bytes "a"); Str (bytes "b")])])])])])] ].
Definition forced (parameter : string) : res bool :=
  let! text := tool_call_grammar constant_text 9 (one_tool parameter) HERMES false [] in let! p := GrammarParse.parse None text in Ok (bool_decide (is_Some p)).
(** The rule that is renamed is the first one whose name ends in [root]: with an enumerated parameter of
    that name it is the parameter's rule, and the grammar has no rule for the call. *)
Theorem tool_parameter_named_root : forced "value" = Ok true /\ forced "root" = Ok false.
Proof. split; vm_compute; reflexivity. Qed.
