(* ===== verification/Generation.v ===== *)
(** * Streaming a choice to the client (src/iian/server/generation.h, generation.cpp)

    The accumulated result of one choice, the chunks taken from its queue and the frames sent for
    them.  A frame is kept as the delta it carries; its JSON text, the rendering of the log
    probabilities (a list here, [None] for null) and the other choices of the request are left out.
    [pump] takes all chunks that are ready, so frames are rendered after several chunks were applied. *)

From S2P Require Import Prelude Request Text ToolCalls.

Record GenerationRequest := mkGenRequest {
  is_chat : bool;
  echo : bool;
  prompt_text : list Z;
  want_logprobs : bool;
  parse_tools : bool;
  tool_format : ToolFormat
}.
Record ChoiceResult := mkResult {
  r_text : list Z;
  r_tokens : list Z;
  r_logprobs : list Z;
  r_finish : FinishReason;
  r_stop_reason : list Z;
  r_error : string;
  r_n_prompt : Z;
  r_n_output : Z;
  r_n_cached : Z
}.
Record Choice := mkChoice { ch_finished : bool; role_sent : bool; echo_sent : bool; content_sent : nat }.
Inductive delta := d_role | d_content (t : list Z) | d_empty | d_tool_calls (l : list ToolCall).
Inductive frame :=
| f_error (msg : string)
| f_chat (d : delta) (lp : option (list Z)) (fin : FinishReason) (stop : list Z)
| f_completion (text : list Z) (lp : option (list Z)) (fin : FinishReason) (stop : list Z).

Definition new_choice : Choice := mkChoice false false false 0.
Definition new_result (n_prompt : Z) : ChoiceResult := mkResult [] [] [] NONE [] EmptyString n_prompt 0 0.

Definition apply_chunk (c : OutputChunk) (s : Choice * ChoiceResult) : Choice * ChoiceResult :=
  let '(ch, r) := s in
  let tokens := r_tokens r ++ c_tokens c in
  let n_prompt := if c_n_prompt_tokens c =? 0 then r_n_prompt r else c_n_prompt_tokens c in
  let n_output := if c_n_output_tokens c =? 0 then u32 (Zlen tokens) else c_n_output_tokens c in
  let text := r_text r ++ c_text c in
  let lps := r_logprobs r ++ c_logprobs c in
  if c_finished c then
    (mkChoice true (role_sent ch) (echo_sent ch) (content_sent ch),
     mkResult text tokens lps (c_finish_reason c) (c_stop_reason c) (c_error c) n_prompt n_output (c_n_cached_tokens c))
  else (ch, mkResult text tokens lps (r_finish r) (r_stop_reason r) (r_error r) n_prompt n_output (r_n_cached r)).

Section Stream.
Context (json_parse : list Z -> option json) (dump : json -> list Z) (random_id : nat -> list Z).
Context (req : GenerationRequest).

Definition set_sent (n : nat) (ch : Choice) : Choice := mkChoice (ch_finished ch) (role_sent ch) (echo_sent ch) n.
Definition set_role (ch : Choice) : Choice := mkChoice (ch_finished ch) true (echo_sent ch) (content_sent ch).
Definition set_echo (ch : Choice) : Choice := mkChoice (ch_finished ch) (role_sent ch) true (content_sent ch).
Definition content_frame (t : list Z) (lp : option (list Z)) : frame := f_chat (d_content t) lp NONE [].

(** the frames of a chunk when tool calls are looked for *)
Definition sse_tools (ch : Choice) (r : ChoiceResult) (c : OutputChunk) (lp : option (list Z)) : res (list frame * Choice) :=
  if negb (c_finished c) then
    let safe := streamable_prefix (r_text r) (tool_format req) in
    if (content_sent ch <? safe)%nat then
      Ok ([content_frame (substr (r_text r) (content_sent ch) (safe - content_sent ch)) lp], set_sent safe ch)
    else Ok (match lp with Some _ => [f_chat d_empty lp NONE []] | None => [] end, ch)
  else
    let! pa := parse_tool_calls json_parse dump random_id (r_text r) (tool_format req) in
    let '(out, fin) :=
      match tool_calls pa with
      | [] => (if (content_sent ch <? length (r_text r))%nat then [content_frame (drop (content_sent ch) (r_text r)) lp] else [], c_finish_reason c)
      | _ =>
          let sent := take (content_sent ch) (r_text r) in
          let rest := if (length sent <? length (content pa))%nat && starts_with sent (content pa)
                      then [content_frame (drop (length sent) (content pa)) None] else [] in
          (rest ++ [f_chat (d_tool_calls (tool_calls pa)) lp NONE []],
           if bool_decide (c_finish_reason c = STOP) then TOOL_CALLS else c_finish_reason c)
      end in
    Ok (out ++ [f_chat d_empty None fin (c_stop_reason c)], set_sent (length (r_text r)) ch).
Definition sse_for (c : OutputChunk) (ch : Choice) (r : ChoiceResult) : res (list frame * Choice) :=
  if negb (bool_decide (c_error c = EmptyString)) then Ok ([f_error (c_error c)], ch) else
  let lp := if want_logprobs req && negb (bool_decide (c_logprobs c = [])) then Some (c_logprobs c) else None in
  if is_chat req then
    let '(role, ch) := if role_sent ch then ([], ch) else ([f_chat d_role None NONE []], set_role ch) in
    if negb (parse_tools req) then
      let text := if negb (bool_decide (c_text c = [])) || bool_decide (is_Some lp) then [content_frame (c_text c) lp] else [] in
      let fin := if c_finished c then [f_chat d_empty None (c_finish_reason c) (c_stop_reason c)] else [] in
      Ok (role ++ text ++ fin, ch)
    else let! (fs, ch) := sse_tools ch r c lp in Ok (role ++ fs, ch)
  else
    let '(text, ch) := if echo req && negb (echo_sent ch) then (prompt_text req ++ c_text c, set_echo ch) else (c_text c, ch) in
    Ok (if negb (bool_decide (text = [])) || bool_decide (is_Some lp) || c_finished c then [f_completion text lp (c_finish_reason c) (c_stop_reason c)] else [], ch).

(** [pump] on one choice: chunks are taken and applied until none is ready or the choice is finished *)
Fixpoint pump (ready : list OutputChunk) (s : Choice * ChoiceResult) : list OutputChunk * (Choice * ChoiceResult) :=
  match ready with
  | [] => ([], s)
  | c :: ready =>
      if ch_finished s.1 then ([], s) else let '(ev, s) := pump ready (apply_chunk c s) in (c :: ev, s)
  end.
(** [next_sse]: the frames of the chunks pumped *)
Fixpoint render (ev : list OutputChunk) (ch : Choice) (r : ChoiceResult) (out : list frame) : res (list frame * Choice) :=
  match ev with
  | [] => Ok (out, ch)
  | c :: ev => let! (fs, ch) := sse_for c ch r in render ev ch r (out ++ fs)
  end.
Definition next_sse (ready : list OutputChunk) (s : Choice * ChoiceResult) (out : list frame) : res (list frame * (Choice * ChoiceResult)) :=
  let '(ev, (ch, r)) := pump ready s in
  let! (out, ch) := render ev ch r out in Ok (out, (ch, r)).
(** the stream of a choice: the chunks come in batches *)
Fixpoint stream_loop (batches : list (list OutputChunk)) (s : Choice * ChoiceResult) (out : list frame) : res (list frame * (Choice * ChoiceResult)) :=
  match batches with
  | [] => Ok (out, s)
  | b :: batches => let! (out, s) := next_sse b s out in stream_loop batches s out
  end.
Definition stream (batches : list (list OutputChunk)) (n_prompt : Z) : res (list frame) :=
  let! (out, _) := stream_loop batches (new_choice, new_result n_prompt) [] in Ok out.

(** [chat_response_json] without streaming: the content, the calls and the finish reason of the message *)
Definition chat_message (r : ChoiceResult) : res (list Z * list ToolCall * FinishReason) :=
  if parse_tools req then
    let! pa := parse_tool_calls json_parse dump random_id (r_text r) (tool_format req) in
    match tool_calls pa with
    | [] => Ok (r_text r, [], r_finish r)
    | calls => Ok (content pa, calls, if bool_decide (r_finish r = STOP) then TOOL_CALLS else r_finish r)
    end
  else Ok (r_text r, [], r_finish r).
End Stream.
