(* ===== verification/GenerationProps.v ===== *)
(** * Tool calls: searching, trimming, and what may be streamed of a partial message *)

From S2P Require Import Prelude Request Text JinjaLexer ToolCalls Generation.

(** ** std::string::find *)
Lemma starts_with_spec pat s : starts_with pat s = true <-> exists r, s = pat ++ r.
Proof.
  unfold starts_with. rewrite bool_decide_eq_true. split.
  - intros H. exists (drop (length pat) s). rewrite <- H at 1. by rewrite take_drop.
  - intros [r ->]. by rewrite take_app_length.
Qed.
Lemma find_first_spec pat s :
  match find_first_of pat s with
  | Some i => (i <= length s)%nat /\ starts_with pat (drop i s) = true /\ forall j, (j < i)%nat -> starts_with pat (drop j s) = false
  | None => forall j, (j <= length s)%nat -> starts_with pat (drop j s) = false
  end.
Proof.
  induction s as [| c s IH]; cbn [find_first_of]; destruct (starts_with pat _) eqn:E.
  - split_and!; [simpl; lia | done | lia].
  - intros j Hj. simpl in Hj. by replace j with O by lia.
  - split_and!; [lia | done | lia].
  - destruct (find_first_of pat s) as [i |]; simpl.
    + destruct IH as (H1 & H2 & H3). split_and!; [lia | done |]. intros [| j] Hj; [done |]. simpl. apply H3. lia.
    + intros [| j] Hj; [done |]. simpl. apply IH. simpl in Hj. lia.
Qed.
Lemma find_str_0 s pat : find_str s pat 0 = find_first_of pat s.
Proof. unfold find_str. simpl. rewrite drop_0. by destruct (find_first_of pat s). Qed.
Lemma find_str_spec s pat pos i : find_str s pat pos = Some i -> (pos <= i)%nat /\ exists r, drop i s = pat ++ r.
Proof.
  unfold find_str. destruct (pos <=? length s)%nat; [| done]. pose proof (find_first_spec pat (drop pos s)) as H. destruct (find_first_of _ _) as [j |]; [| done].
  intros [= <-]. split; [lia |]. destruct H as (_ & H & _). rewrite drop_drop in H. by apply starts_with_spec in H.
Qed.
Lemma find_str_length s pat pos i : pat <> [] -> find_str s pat pos = Some i -> (pos <= i)%nat /\ (i + length pat <= length s)%nat.
Proof.
  intros Hp [H [r Hr] ]%find_str_spec. split; [done |]. apply (f_equal length) in Hr. rewrite length_app, length_drop in Hr. destruct pat; [done |]. simpl in *. lia.
Qed.

(** ** Blanks *)
Definition all_blank (s : list Z) : Prop := Forall (fun c => is_blank c = true) s.
Lemma lstrip_split s : exists w, all_blank w /\ s = w ++ string_lstrip s /\ (forall c r, string_lstrip s = c :: r -> is_blank c = false).
Proof.
  induction s as [| c s (w & Hw & Hs & Hc)]; [exists []; split_and!; [constructor | done | done] |]. cbn [string_lstrip]. destruct (is_blank c) eqn:E.
  - exists (c :: w). split_and!; [by constructor | simpl; by rewrite <- Hs | done].
  - exists []. split_and!; [constructor | done | by intros ?? [= <- <-] ].
Qed.
Lemma lstrip_id c s : is_blank c = false -> string_lstrip (c :: s) = c :: s.
Proof. intros H. simpl. by rewrite H. Qed.
Lemma rstrip_split s : exists w, all_blank w /\ s = string_rstrip s ++ w.
Proof.
  unfold string_rstrip. destruct (lstrip_split (rev s)) as (w & Hw & Hs & _). exists (rev w). split; [by apply Forall_rev |].
  rewrite <- rev_app_distr, <- Hs. by rewrite rev_involutive.
Qed.
Lemma lstrip_blank s : all_blank s -> string_lstrip s = [].
Proof. induction 1 as [| c s H _ IH]; [done |]. simpl. by rewrite H. Qed.

(** ** What is held back for a marker *)
Lemma hold_suffix_le k p m : (hold_suffix k p m <= length p)%nat.
Proof. induction k as [| k IH]; [done |]. cbn [hold_suffix]. case_bool_decide; lia. Qed.
Lemma hold_suffix_first k k' p m : (k <= k')%nat -> drop (length p - k) p = take k m -> (hold_suffix k' p m <= length p - k)%nat.
Proof.
  intros Hk Hd. induction k' as [| k' IH]; [simpl; lia |]. cbn [hold_suffix]. case_bool_decide as E; [lia |].
  destruct (decide (k = S k')) as [-> |]; [done |]. apply IH. lia.
Qed.
Lemma held_le p m : (held_for_marker p m <= length p)%nat.
Proof.
  unfold held_for_marker. rewrite find_str_0. pose proof (find_first_spec m p). destruct (find_first_of m p); [naive_solver | apply hold_suffix_le].
Qed.
(** whatever follows, nothing of the marker is let through *)
Lemma held_safe p q m i : m <> [] -> find_str (p ++ q) m 0 = Some i -> (held_for_marker p m <= i)%nat.
Proof.
  intros Hm. rewrite find_str_0. pose proof (find_first_spec m (p ++ q)) as Hf. intros Hi. rewrite Hi in Hf. destruct Hf as (H1 & [r Hr]%starts_with_spec & H3).
  destruct (decide (length p <= i)%nat) as [| Hlt]; [pose proof (held_le p m); lia |]. apply Nat.nle_gt in Hlt. unfold held_for_marker. rewrite find_str_0.
  rewrite drop_app_le in Hr by lia. assert (Hlen : (length m <= length p - i)%nat \/ (length p - i < length m)%nat) by lia.
  pose proof (find_first_spec m p) as Hp. destruct Hlen as [Hlen | Hlen].
  - assert (Hocc : starts_with m (drop i p) = true).
    { unfold starts_with. apply bool_decide_eq_true. assert (take (length m) (drop i p ++ q) = m) as <- by (rewrite Hr; by rewrite take_app_length).
      rewrite take_app_le by (rewrite length_drop; lia). by rewrite length_take, Nat.min_l by (rewrite length_drop; lia). }
    destruct (find_first_of m p) as [j |]; [| rewrite Hp in Hocc by lia; done]. destruct Hp as (_ & _ & Hp). destruct (decide (j <= i)%nat); [done |]. rewrite Hp in Hocc by lia. done.
  - destruct (find_first_of m p) as [j |].
    + destruct (decide (j <= i)%nat); [done |]. destruct Hp as (Hj & Hp & _). apply starts_with_spec in Hp as [r' Hp]. apply (f_equal length) in Hp. rewrite length_drop, length_app in Hp.
      destruct m; [done |]. simpl in *. lia.
    + replace i with (length p - (length p - i))%nat by lia. apply hold_suffix_first; [lia |]. replace (length p - (length p - i))%nat with i by lia.
      assert (take (length p - i) (m ++ r) = drop i p) as <- by (rewrite <- Hr; rewrite take_app_le by (rewrite length_drop; lia); apply take_ge; rewrite length_drop; lia).
      by rewrite take_app_le by lia.
Qed.
(** the bound of what is streamed of a message, whatever prefix was known at the time *)
Definition marker (fmt : ToolFormat) : option (list Z) := match fmt with HERMES => Some open_marker | MISTRAL => Some mistral_marker | _ => None end.
Lemma streamable_le p fmt : (streamable_prefix p fmt <= length p)%nat.
Proof. destruct fmt; simpl; try apply held_le; repeat case_match; lia. Qed.
Lemma streamable_marker p q fmt m i : marker fmt = Some m -> find_str (p ++ q) m 0 = Some i -> (streamable_prefix p fmt <= i)%nat.
Proof. destruct fmt; simpl; intros [= <-] H; (eapply held_safe; [discriminate | exact H]). Qed.
Lemma streamable_values p q fmt c r : marker fmt = None -> string_lstrip (p ++ q) = c :: r -> opens_json c || (c =? ch "<") = true -> streamable_prefix p fmt = O.
Proof.
  intros Hm Hs Hc. assert (streamable_prefix p fmt = match string_lstrip p with [] => O | d :: _ => if opens_json d || (d =? ch "<") then O else length p end) as -> by (by destruct fmt).
  destruct (string_lstrip p) as [| d t] eqn:E; [done |]. enough (d = c) as -> by (by rewrite Hc).
  destruct (lstrip_split p) as (w & Hw & Hp & Hd). rewrite E in Hp. rewrite Hp, <- app_assoc in Hs. simpl in Hs. specialize (Hd d t E).
  clear Hp. induction Hw as [| x w Hx _ IH]; simpl in Hs; [rewrite Hd in Hs; by injection Hs | rewrite Hx in Hs; by apply IH].
Qed.

(** * A streamed message is the message sent at once *)

Section Facts.
Context (json_parse : list Z -> option json) (dump : json -> list Z) (random_id : nat -> list Z).
Notation hermes_loop := (hermes_loop json_parse dump random_id).
Notation values_loop := (values_loop json_parse dump random_id).
Notation parse_tool_calls := (parse_tool_calls json_parse dump random_id).

(** ** Parsing ends; where the content comes from *)
Lemma hermes_total f text pos cont calls : (length text - pos < f)%nat -> exists rest calls', hermes_loop f text pos cont calls = Ok (cont ++ rest, calls').
Proof.
  revert pos cont calls. induction f as [| f IH]; intros pos cont calls Hf; [lia |]. cbn [ToolCalls.hermes_loop]. destruct (find_str text open_marker pos) as [s |] eqn:Es; [| by eexists _, _].
  apply find_str_length in Es as [Hs1 Hs2]; [| done]. change (length open_marker) with 11%nat in *. change (length close_marker) with 12%nat. destruct (find_str text close_marker _) as [e |] eqn:Ee.
  - apply find_str_length in Ee as [He1 He2]; [| done].
    match goal with |- context [match json_parse ?x with _ => _ end] => destruct (json_parse x) as [v |] end; [destruct (collect_calls dump random_id v calls) as [calls' [] ] |];
      (edestruct (IH (e + 12)%nat) as (rest & calls'' & ->); [lia |]; rewrite <- ?app_assoc; by eexists _, _).
  - match goal with |- context [match json_parse ?x with _ => _ end] => destruct (json_parse x) as [v |] end; [destruct (collect_calls dump random_id v calls) as [calls' [] ] |];
      rewrite <- ?app_assoc; by eexists _, _.
Qed.
Lemma match_bracket_lt s i depth a b e : match_bracket s i depth a b = Some e -> (i < e)%nat.
Proof.
  revert i depth a b. induction s as [| c s IH]; intros i depth a b H; [done |]. cbn [match_bracket] in H. repeat case_match; try (apply IH in H; lia); injection H as <-; lia.
Qed.
Lemma parse_json_at_lt t pos e v : parse_json_at json_parse t pos = Some (e, v) -> (pos < e)%nat.
Proof.
  unfold parse_json_at. intros H. destruct (t !! pos); [| done]. destruct (negb _); [done |]. destruct (match_bracket _ _ _ _ _) as [e' |] eqn:E; [| done].
  destruct (json_parse _); [| done]. injection H as <- _. by apply match_bracket_lt in E.
Qed.
Lemma skip_separators_ge n t pos : (pos <= skip_separators n t pos)%nat.
Proof. revert pos. induction n as [| n IH]; intros pos; simpl; [done |]. repeat case_match; try done. specialize (IH (S pos)). lia. Qed.
Lemma values_total f t pos any calls : (length t - pos < f)%nat -> exists pos' any' calls', values_loop f t pos any calls = Ok (pos', any', calls').
Proof.
  revert pos any calls. induction f as [| f IH]; intros pos any calls Hf; [lia |]. cbn [ToolCalls.values_loop]. destruct (length t <=? pos)%nat eqn:El; [by eexists _, _, _ |].
  apply Nat.leb_gt in El. destruct (parse_json_at json_parse t pos) as [ [e v] |] eqn:Ep; [| by eexists _, _, _]. apply parse_json_at_lt in Ep.
  destruct (collect_calls _ _ _ _) as [calls' [] ]; [| by eexists _, _, _]. pose proof (skip_separators_ge (length t - e) t e).
  destruct (t !! _); [destruct (opens_json _); [| by eexists _, _, _] |]; apply IH; lia.
Qed.
(** the calls stand behind a marker or at the start of the message, and the content before them is kept *)
Definition shape (text : list Z) (fmt : ToolFormat) (pa : ParsedAssistant) : Prop :=
  match marker fmt with
  | Some m => exists i rest, find_str text m 0 = Some i /\ content pa = trim (take i text ++ rest)
  | None => exists c r, string_lstrip text = c :: r /\ opens_json c || (c =? ch "<") = true
  end.
Lemma trim_head text c r : trim text = c :: r -> exists r', string_lstrip text = c :: r'.
Proof.
  unfold trim. intros H. destruct (rstrip_split (string_lstrip text)) as (w & _ & Hw). rewrite H in Hw. rewrite Hw. by eexists.
Qed.
Lemma parse_tool_calls_shape text fmt : exists pa, parse_tool_calls text fmt = Ok pa /\ (tool_calls pa <> [] -> shape text fmt pa).
Proof.
  assert (Hvals : exists pa, parse_values json_parse dump random_id text = Ok pa /\ (tool_calls pa <> [] -> exists c r, string_lstrip text = c :: r /\ opens_json c || (c =? ch "<") = true)).
  { unfold parse_values. set (t := trim text). set (t' := if starts_with python_tag t then _ else t).
    destruct t' as [| c r] eqn:Et; [eexists; by split |]. destruct (opens_json c) eqn:Ec; [| eexists; by split].
    destruct (values_total (S (length (c :: r))) (c :: r) 0 false [] ltac:(lia)) as (pos & any & calls & ->). cbn [rbind].
    assert (Hc : exists d r', string_lstrip text = d :: r' /\ opens_json d || (d =? ch "<") = true).
    { subst t'. destruct (starts_with python_tag t) eqn:Est.
      - apply starts_with_spec in Est as [q Hq]. subst t. destruct (trim_head text (ch "<") (drop 1 python_tag ++ q) Hq) as [r' ->]. by eexists _, _.
      - subst t. destruct (trim_head _ _ _ Et) as [r' ->]. eexists _, _. split; [done |]. by rewrite Ec. }
    destruct any; eexists; by split. }
  unfold shape. destruct fmt; cbn [ToolCalls.parse_tool_calls marker]; try exact Hvals.
  - unfold parse_hermes. cbn [ToolCalls.hermes_loop]. destruct (find_str text open_marker 0) as [s |] eqn:Es; [| eexists; by split].
    cbv zeta. replace ([] ++ substr text 0 (s - 0)) with (take s text) by (unfold substr; by rewrite drop_0, Nat.sub_0_r).
    assert (Hgo : forall r : res (list Z * list ToolCall), (exists rest calls, r = Ok (take s text ++ rest, calls)) ->
      exists pa, (let! (cont, calls) := r in Ok (mkParsed (trim cont) calls)) = Ok pa
        /\ (tool_calls pa <> [] -> exists i rest, Some s = Some i /\ content pa = trim (take i text ++ rest))) by (intros r (rest & calls & ->); simpl; eexists; split; [done | eauto]).
    apply find_str_length in Es as [_ Hs]; [| done]. apply Hgo. clear Hgo.
    destruct (find_str text close_marker _) as [e |] eqn:Ee.
    + apply find_str_length in Ee as [He1 He2]; [| done].
      match goal with |- context [match json_parse ?x with _ => _ end] => destruct (json_parse x) as [v |] end; [destruct (collect_calls _ _ v _) as [calls' [] ] |];
        (edestruct (hermes_total (length text) text (e + length close_marker)%nat) as (rest & calls'' & ->); [simpl in *; lia |]; rewrite <- ?app_assoc; by eexists _, _).
    + match goal with |- context [match json_parse ?x with _ => _ end] => destruct (json_parse x) as [v |] end; [destruct (collect_calls _ _ v _) as [calls' [] ] |];
        try (by eexists _, _). exists [], calls'. by rewrite app_nil_r.
  - eexists. split; [done |]. unfold parse_mistral. destruct (find_str text mistral_marker 0) as [s |]; [| done]. destruct (find_bracket _ _); [| done].
    destruct (parse_json_at _ _ _) as [ [e v] |]; [| done]. destruct (collect_calls dump random_id v []) as [calls [] ] eqn:Ec; simpl; [eauto |].
    intros Hne. exfalso. apply Hne. clear -Ec. unfold collect_calls in Ec. destruct v; try (destruct (tool_call_from_json _ _ _ _); by simplify_eq).
    assert (forall l calls0 any, calls0 <> [] -> any = true -> (collect_array dump random_id l calls0 any).2 = true) as Ht.
    { clear. induction l as [| e l IH]; intros calls0 any Hc Ha; simpl; [done |]. destruct (tool_call_from_json _ _ _ _); apply IH; try done. by destruct calls0. }
    assert (forall l, (collect_array dump random_id l [] false).2 = false -> (collect_array dump random_id l [] false).1 = []) as Hf.
    { clear -Ht. induction l as [| e l IH]; simpl; [done |]. destruct (tool_call_from_json _ _ _ _) as [tc |]; [| done]. by rewrite Ht. }
    specialize (Hf l). rewrite Ec in Hf. by apply Hf.
Qed.
End Facts.

(** ** Frames *)
Definition frame_content (f : frame) : list Z := match f with f_chat (d_content t) _ _ _ => t | _ => [] end.
Definition frame_calls (f : frame) : list ToolCall := match f with f_chat (d_tool_calls l) _ _ _ => l | _ => [] end.
Definition frame_finish (f : frame) : FinishReason := match f with f_chat _ _ fin _ => fin | _ => NONE end.
(** what a client reads: the content, the calls and the last finish reason *)
Definition contents (fs : list frame) : list Z := fs ≫= frame_content.
Definition calls_of (fs : list frame) : list ToolCall := fs ≫= frame_calls.
Definition final (fs : list frame) : FinishReason := match last fs with Some f => frame_finish f | None => NONE end.
Lemma contents_app a b : contents (a ++ b) = contents a ++ contents b.
Proof. apply bind_app. Qed.
Lemma calls_app a b : calls_of (a ++ b) = calls_of a ++ calls_of b.
Proof. apply bind_app. Qed.
Definition texts (cs : list OutputChunk) : list Z := concat (c_text <$> cs).
Lemma texts_app a b : texts (a ++ b) = texts a ++ texts b.
Proof. unfold texts. by rewrite fmap_app, concat_app. Qed.
Definition running (c : OutputChunk) : Prop := c_finished c = false /\ c_error c = EmptyString.
Definition apply_all (cs : list OutputChunk) (s : Choice * ChoiceResult) : Choice * ChoiceResult := foldl (fun s c => apply_chunk c s) s cs.

Lemma apply_running cs ch r : Forall running cs -> exists r', apply_all cs (ch, r) = (ch, r') /\ r_text r' = r_text r ++ texts cs.
Proof.
  intros H. revert r. induction H as [| c cs [Hf _] _ IH]; intros r; simpl; [exists r; by rewrite app_nil_r |]. rewrite Hf.
  match goal with |- context [apply_all cs (ch, ?x)] => destruct (IH x) as (r' & -> & Ht) end. exists r'. split; [done |]. rewrite Ht. cbn [r_text]. unfold texts. simpl. by rewrite <- app_assoc.
Qed.
Lemma pump_running cs s : Forall running cs -> ch_finished s.1 = false -> pump cs s = (cs, apply_all cs s).
Proof.
  intros H. revert s. induction H as [| c cs [Hf _] _ IH]; intros s Hs; simpl; [done |]. rewrite Hs. destruct s as [ch r]. simpl in *. by rewrite IH; rewrite Hf.
Qed.
Lemma pump_last cs c s : Forall running cs -> ch_finished s.1 = false -> pump (cs ++ [c]) s = (cs ++ [c], apply_all (cs ++ [c]) s).
Proof.
  intros H. revert s. induction H as [| d cs [Hf _] _ IH]; intros s Hs; simpl; rewrite Hs; [done |]. destruct s as [ch r]. simpl in *. by rewrite IH; rewrite Hf.
Qed.

Section Streams.
Context (json_parse : list Z -> option json) (dump : json -> list Z) (random_id : nat -> list Z) (req : GenerationRequest).
Context (Hchat : is_chat req = true) (Htools : parse_tools req = true).
Notation fmt := (tool_format req).
Notation sse_for := (sse_for json_parse dump random_id req).
Notation render := (render json_parse dump random_id req).
Notation parse_tool_calls := (parse_tool_calls json_parse dump random_id).

(** [n] bytes of the message [full] can be streamed *)
Definition allowed (full : list Z) (n : nat) : Prop :=
  match marker fmt with
  | Some m => forall i, find_str full m 0 = Some i -> (n <= i)%nat
  | None => forall c r, string_lstrip full = c :: r -> opens_json c || (c =? ch "<") = true -> n = O
  end.
Lemma streamable_allowed p q : allowed (p ++ q) (streamable_prefix p fmt).
Proof.
  unfold allowed. destruct (marker fmt) as [m |] eqn:E; [intros i Hi; by eapply streamable_marker | intros c r Hc Ho; by eapply streamable_values].
Qed.
(** the frames so far carry the first bytes of the text *)
Definition streaming (text full : list Z) (out : list frame) (ch : Choice) : Prop :=
  (content_sent ch <= length text)%nat /\ contents out = take (content_sent ch) text /\ calls_of out = [] /\ allowed full (content_sent ch) /\ exists q, full = text ++ q.
Lemma sse_running c ch r full out : running c -> streaming (r_text r) full out ch ->
  exists fs ch', sse_for c ch r = Ok (fs, ch') /\ ch_finished ch' = ch_finished ch /\ streaming (r_text r) full (out ++ fs) ch'.
Proof.
  intros [Hf He] (H1 & H2 & H3 & H4 & q & Hq). unfold sse_for. rewrite He, Hchat, Htools. cbn [negb]. rewrite bool_decide_true by done. cbn [negb].
  set (lp := if _ && _ then _ else _). set (rc := if role_sent ch then _ else _).
  assert (Hrc : rc = ([], ch) \/ rc = ([f_chat d_role None NONE []], set_role ch)) by (subst rc; destruct (role_sent ch); auto).
  assert (Hrole : contents rc.1 = [] /\ calls_of rc.1 = [] /\ content_sent rc.2 = content_sent ch /\ ch_finished rc.2 = ch_finished ch) by (by destruct Hrc as [-> | ->]).
  destruct rc as [role ch1]. destruct Hrole as (Hr1 & Hr2 & Hr3 & Hr4). cbn [fst snd] in *. unfold sse_tools. rewrite Hf. cbn [negb]. set (n := streamable_prefix _ _).
  pose proof (streamable_le (r_text r) fmt) as Hn. pose proof (streamable_allowed (r_text r) q) as Ha. rewrite <- Hq in Ha. fold n in Hn, Ha.
  destruct (content_sent ch1 <? n)%nat eqn:El.
  - apply Nat.ltb_lt in El. eexists _, _. split; [done |]. split; [done |]. unfold streaming. rewrite !contents_app, !calls_app, H2, H3, Hr1, Hr2. cbn. rewrite Hr3 in *.
    split_and!; [done | | done | done | by eexists]. rewrite app_nil_r. unfold substr. rewrite take_take_drop. f_equal. lia.
  - eexists _, _. split; [done |]. split; [done |]. unfold streaming. rewrite !contents_app, !calls_app, H2, H3, Hr1, Hr2, Hr3.
    assert (forall o : option (list Z), contents (match o with Some _ => [f_chat d_empty o NONE []] | None => [] end) = [] /\ calls_of (match o with Some _ => [f_chat d_empty o NONE []] | None => [] end) = []) as Hl by (by intros []).
    destruct (Hl lp) as [-> ->]. rewrite !app_nil_r. split_and!; try done. by eexists.
Qed.
Lemma render_running ev ch r full out : Forall running ev -> streaming (r_text r) full out ch ->
  exists out' ch', render ev ch r out = Ok (out', ch') /\ ch_finished ch' = ch_finished ch /\ streaming (r_text r) full out' ch'.
Proof.
  intros H. revert ch out. induction H as [| c ev Hc _ IH]; intros ch out Hs; [by eexists _, _ |]. cbn [Generation.render].
  destruct (sse_running c ch r full out Hc Hs) as (fs & ch' & -> & Hf & Hs'). cbn [rbind]. destruct (IH ch' _ Hs') as (out' & ch'' & -> & Hf' & Hs''). eexists _, _. split; [done |]. by rewrite Hf'.
Qed.
Lemma render_app a b ch r out : render (a ++ b) ch r out = let! (out, ch) := render a ch r out in render b ch r out.
Proof. revert ch out. induction a as [| c a IH]; intros ch out; [done |]. cbn [app Generation.render]. destruct (sse_for c ch r) as [ [fs ch'] |]; [| done]. cbn [rbind]. apply IH. Qed.

(** the end of a stream against the message parsed at once *)
Definition agrees (full : list Z) (reason : FinishReason) (fs : list frame) : Prop :=
  exists pa, parse_tool_calls full fmt = Ok pa /\ calls_of fs = tool_calls pa
    /\ final fs = (if bool_decide (tool_calls pa = []) then reason else if bool_decide (reason = STOP) then TOOL_CALLS else reason)
    /\ exists ws, all_blank ws /\ contents fs = (if bool_decide (tool_calls pa = []) then full else content pa) ++ ws.
(** two prefixes of a text of which the longer one ends in blanks *)
Lemma sent_and_content (sent cont x : list Z) : (exists a, x = sent ++ a) -> (exists w, all_blank w /\ x = cont ++ w) -> exists ws, all_blank ws /\
  sent ++ (if (length sent <? length cont)%nat && starts_with sent cont then drop (length sent) cont else []) = cont ++ ws.
Proof.
  intros [a Ha] (w & Hw & Hx). rewrite Ha in Hx. destruct (length sent <? length cont)%nat eqn:El.
  - apply Nat.ltb_lt in El. apply app_eq_inv in Hx as [(k & Hk & _) | (k & Hk & _)]; [apply (f_equal length) in Hk; rewrite length_app in Hk; lia |].
    assert (starts_with sent cont = true) as -> by (apply starts_with_spec; by exists k). exists []. split; [constructor |]. rewrite Hk, drop_app_length, app_nil_r. done.
  - apply Nat.ltb_ge in El. rewrite app_nil_r. apply app_eq_inv in Hx as [(k & Hk & Hk2) | (k & Hk & Hk2)].
    + exists k. split; [| done]. rewrite Hk2 in Hw. by apply Forall_app in Hw as [? _].
    + exists []. rewrite Hk, length_app in El. destruct k; [| simpl in El; lia]. split; [constructor |]. by rewrite Hk, !app_nil_r.
Qed.
Lemma sse_last c ch r out : c_finished c = true -> c_error c = EmptyString -> streaming (r_text r) (r_text r) out ch ->
  (marker fmt = None \/ forall d t, r_text r = d :: t -> is_blank d = false) ->
  exists fs ch', sse_for c ch r = Ok (fs, ch') /\ agrees (r_text r) (c_finish_reason c) (out ++ fs).
Proof.
  intros Hf He (H1 & H2 & H3 & H4 & _) Hblank. unfold sse_for. rewrite He, Hchat, Htools. cbn [negb]. rewrite bool_decide_true by done. cbn [negb].
  set (lp := if _ && _ then _ else _). set (rc := if role_sent ch then _ else _).
  assert (Hrc : rc = ([], ch) \/ rc = ([f_chat d_role None NONE []], set_role ch)) by (subst rc; destruct (role_sent ch); auto).
  assert (Hrole : contents rc.1 = [] /\ calls_of rc.1 = [] /\ content_sent rc.2 = content_sent ch) by (by destruct Hrc as [-> | ->]).
  destruct rc as [role ch1]. destruct Hrole as (Hr1 & Hr2 & Hr3). cbn [fst snd] in *. unfold sse_tools. rewrite Hf. cbn [negb].
  destruct (parse_tool_calls_shape json_parse dump random_id (r_text r) fmt) as (pa & Hpa & Hshape). rewrite Hpa. cbn [rbind]. rewrite Hr3. set (k := content_sent ch) in *.
  destruct (tool_calls pa) as [| tc tcs] eqn:Etc.
  - eexists _, _. split; [done |]. exists pa. rewrite Etc. split_and!; [done | | by unfold final; rewrite !app_assoc, last_snoc |].
    + rewrite !calls_app, H3, Hr2. by destruct (_ <? _)%nat.
    + exists []. split; [constructor |]. rewrite !contents_app, H2, Hr1. rewrite bool_decide_true by done. destruct (k <? length (r_text r))%nat eqn:El.
      * cbn. by rewrite !app_nil_r, take_drop.
      * apply Nat.ltb_ge in El. cbn. rewrite !app_nil_r. by rewrite take_ge.
  - eexists _, _. split; [done |]. exists pa. rewrite Etc. rewrite (bool_decide_false (tc :: tcs = [])) by done. specialize (Hshape ltac:(done)).
    split_and!; [done | | unfold final; by rewrite !app_assoc, last_snoc |].
    + rewrite !calls_app, H3, Hr2. destruct ((_ <? _)%nat && _); unfold calls_of; simpl; by rewrite !app_nil_r.
    + rewrite !contents_app, H2, Hr1. change (contents [f_chat (d_tool_calls (tc :: tcs)) lp NONE []]) with (@nil Z).
      match goal with |- context [contents [f_chat d_empty None ?x ?y] ] => change (contents [f_chat d_empty None x y]) with (@nil Z) end. rewrite app_nil_r. cbn [app].
      set (sent := take k (r_text r)) in *.
      assert (contents (if (length sent <? length (content pa))%nat && starts_with sent (content pa) then [content_frame (drop (length sent) (content pa)) None] else [])
        = if (length sent <? length (content pa))%nat && starts_with sent (content pa) then drop (length sent) (content pa) else []) as -> by (destruct ((_ <? _)%nat && _); [cbn; by rewrite app_nil_r | done]).
      rewrite app_nil_r. destruct (decide (k = O)) as [Hk0 | Hk0].
      { apply (sent_and_content sent (content pa) (content pa)); [subst sent; rewrite Hk0; by exists (content pa) | exists []; split; [constructor | by rewrite app_nil_r] ]. }
      unfold shape in Hshape. unfold allowed in H4. destruct (marker fmt) as [m |] eqn:Em.
      * destruct Hshape as (i & rest & Hi & Hc). specialize (H4 i Hi). destruct Hblank as [| Hblank]; [done |].
        destruct (r_text r) as [| d t] eqn:Et; [simpl in H1; lia |]. specialize (Hblank d t eq_refl).
        apply (sent_and_content sent (content pa) (take i (d :: t) ++ rest)).
        -- exists (drop k (take i (d :: t)) ++ rest). subst sent. rewrite app_assoc. f_equal. rewrite <- (take_drop k (take i (d :: t))) at 1. by rewrite take_take, Nat.min_l by lia.
        -- rewrite Hc. unfold trim. destruct i as [| i]; [lia |]. cbn [take app]. rewrite (lstrip_id _ _ Hblank). destruct (rstrip_split (d :: take i t ++ rest)) as (w & Hw & Hs). by exists w.
      * destruct Hshape as (d & t & Hd & Ho). by rewrite (H4 d t Hd Ho) in Hk0.
Qed.
Lemma stream_loop_ok batches init c ch r out : concat batches = init ++ [c] -> Forall running init -> c_finished c = true -> c_error c = EmptyString -> ch_finished ch = false ->
  streaming (r_text r) (r_text r ++ texts (init ++ [c])) out ch -> (marker fmt = None \/ forall d t, r_text r ++ texts (init ++ [c]) = d :: t -> is_blank d = false) ->
  exists fs ch', stream_loop json_parse dump random_id req batches (ch, r) out = Ok (fs, (ch', (apply_all (init ++ [c]) (ch, r)).2))
    /\ agrees (r_text r ++ texts (init ++ [c])) (c_finish_reason c) fs.
Proof.
  revert init ch r out. induction batches as [| b batches IH]; intros init ch r out Hcat Hrun Hf He Hnf Hs Hb; [by destruct init |]. cbn [concat stream_loop] in *. unfold next_sse.
  destruct (decide (concat batches = [])) as [Hnil | Hne].
  - rewrite Hnil, app_nil_r in Hcat. subst b. rewrite pump_last by done. unfold apply_all. rewrite foldl_app. destruct (apply_running init ch r Hrun) as (r1 & Hr1 & Ht1). unfold apply_all in Hr1. rewrite Hr1.
    cbn [foldl]. unfold apply_chunk at 1. rewrite Hf. set (ch2 := mkChoice true _ _ _). set (r2 := mkResult _ _ _ _ _ _ _ _ _). rewrite render_app.
    assert (Ht2 : r_text r2 = r_text r ++ texts (init ++ [c])) by (subst r2; cbn [r_text]; rewrite Ht1, texts_app; unfold texts; simpl; by rewrite app_nil_r, <- app_assoc).
    assert (Hs2 : streaming (r_text r2) (r_text r2) out ch2).
    { destruct Hs as (H1 & H2 & H3 & H4 & _). subst ch2. unfold streaming. cbn [content_sent]. rewrite Ht2. split_and!; [rewrite length_app; lia | by rewrite take_app_le | done | done | exists []; by rewrite app_nil_r]. }
    destruct (render_running init ch2 r2 (r_text r2) out Hrun Hs2) as (out1 & ch3 & -> & _ & Hs3). cbn [rbind Generation.render].
    destruct (sse_last c ch3 r2 out1 Hf He Hs3 ltac:(by rewrite Ht2)) as (fs & ch4 & -> & Hag). cbn [rbind].
    assert (forall bs s fs, concat bs = [] -> stream_loop json_parse dump random_id req bs s fs = Ok (fs, s)) as Hend.
    { clear. induction bs as [| b bs IH]; intros s fs H; [done |]. simpl in H. apply app_nil in H as [-> H]. cbn [stream_loop]. unfold next_sse. cbn [pump]. destruct s. cbn [rbind Generation.render]. by apply IH. }
    rewrite Hend by done. exists (out1 ++ fs), ch4. rewrite <- Ht2. split; [| done].
    unfold apply_chunk. by rewrite Hf.
  - destruct (exists_last Hne) as (init' & c' & Hc'). rewrite Hc', app_assoc in Hcat. apply app_inj_tail in Hcat as [<- <-]. apply Forall_app in Hrun as [Hrb Hri].
    rewrite pump_running by done. destruct (apply_running b ch r Hrb) as (r1 & Hr1 & Ht1). rewrite Hr1.
    assert (Hfull : r_text r ++ texts ((b ++ init') ++ [c']) = r_text r1 ++ texts (init' ++ [c'])) by (by rewrite Ht1, <- app_assoc, texts_app, <- app_assoc).
    rewrite Hfull in *. assert (Hs1 : streaming (r_text r1) (r_text r1 ++ texts (init' ++ [c'])) out ch).
    { destruct Hs as (H1 & H2 & H3 & H4 & _). unfold streaming. split_and!; [rewrite Ht1, length_app; lia | by rewrite Ht1, take_app_le | done | done | by eexists]. }
    destruct (render_running b ch r1 _ out Hrb Hs1) as (out1 & ch1 & -> & Hf1 & Hs2). cbn [rbind]. rewrite Hnf in Hf1.
    destruct (IH init' ch1 r1 out1 Hc' Hri Hf He Hf1 Hs2 Hb) as (fs & ch' & -> & Hag). eexists _, _. split; [| done]. f_equal. f_equal. f_equal.
    rewrite <- app_assoc. unfold apply_all. rewrite (foldl_app _ b). unfold apply_all in Hr1. rewrite Hr1.
    assert (forall cs ch ch' r, (foldl (fun s c => apply_chunk c s) (ch, r) cs).2 = (foldl (fun s c => apply_chunk c s) (ch', r) cs).2) as Hch.
    { clear. induction cs as [| c cs IH]; intros ch ch' r; [done |]. simpl. destruct (c_finished c); apply IH. }
    apply Hch.
Qed.
End Streams.

Lemma apply_finished init c n : Forall running init -> c_finished c = true ->
  r_text (apply_all (init ++ [c]) (new_choice, new_result n)).2 = texts (init ++ [c]) /\ r_finish (apply_all (init ++ [c]) (new_choice, new_result n)).2 = c_finish_reason c.
Proof.
  intros Hr Hf. unfold apply_all. rewrite foldl_app. destruct (apply_running init new_choice (new_result n) Hr) as (r1 & Hr1 & Ht). unfold apply_all in Hr1. rewrite Hr1.
  simpl. rewrite Hf. simpl. rewrite Ht, texts_app. unfold texts. simpl. by rewrite app_nil_r.
Qed.

(** ** Two parses of a text draw different ids and find the same calls *)
Definition call_text (c : ToolCall) : list Z * list Z := (tc_name c, tc_arguments c).
Section Ids.
Context (json_parse : list Z -> option json) (dump : json -> list Z) (ids1 ids2 : nat -> list Z).
Notation same a b := (call_text <$> a = call_text <$> b).
Lemma from_json_ids n m j : same (tool_call_from_json dump ids1 n j) (tool_call_from_json dump ids2 m j).
Proof. unfold tool_call_from_json. by repeat case_match. Qed.
Lemma collect_array_ids l : forall a b any, same a b -> same (collect_array dump ids1 l a any).1 (collect_array dump ids2 l b any).1 /\ (collect_array dump ids1 l a any).2 = (collect_array dump ids2 l b any).2.
Proof.
  induction l as [| e l IH]; intros a b any H; [done |]. cbn [collect_array]. pose proof (from_json_ids (length a) (length b) e) as He.
  destruct (tool_call_from_json dump ids1 (length a) e) as [c |], (tool_call_from_json dump ids2 (length b) e) as [d |]; try done; [| by apply IH]. apply IH. rewrite !fmap_app, H. f_equal. injection He as E1 E2. cbn. unfold call_text. by rewrite E1, E2.
Qed.
Lemma collect_calls_ids v a b : same a b -> same (collect_calls dump ids1 v a).1 (collect_calls dump ids2 v b).1 /\ (collect_calls dump ids1 v a).2 = (collect_calls dump ids2 v b).2.
Proof.
  intros H. unfold collect_calls. assert (G : forall v, same (match tool_call_from_json dump ids1 (length a) v with Some tc => (a ++ [tc], true) | None => (a, false) end).1 (match tool_call_from_json dump ids2 (length b) v with Some tc => (b ++ [tc], true) | None => (b, false) end).1 /\ (match tool_call_from_json dump ids1 (length a) v with Some tc => (a ++ [tc], true) | None => (a, false) end).2 = (match tool_call_from_json dump ids2 (length b) v with Some tc => (b ++ [tc], true) | None => (b, false) end).2).
  { intros w. pose proof (from_json_ids (length a) (length b) w) as He. destruct (tool_call_from_json dump ids1 (length a) w) as [c |], (tool_call_from_json dump ids2 (length b) w) as [d |]; try done. injection He as E1 E2. split; [| done]. cbn [fst]. rewrite !fmap_app, H. f_equal. cbn. unfold call_text. by rewrite E1, E2. }
  destruct v; try apply G. by apply collect_array_ids.
Qed.
Lemma hermes_ids text fuel : forall pos cont a b, same a b ->
  match hermes_loop json_parse dump ids1 fuel text pos cont a, hermes_loop json_parse dump ids2 fuel text pos cont b with
  | Ok (c1, l1), Ok (c2, l2) => c1 = c2 /\ same l1 l2 | Err x, Err y => x = y | _, _ => False end.
Proof.
  induction fuel as [| fuel IH]; intros pos cont a b H; [done |]. cbn [hermes_loop]. destruct (find_str text open_marker pos) as [s |]; [| done]. destruct (find_str text close_marker _) as [e |].
  - match goal with |- context [json_parse ?x] => destruct (json_parse x) as [v |] end; [| by apply IH]. pose proof (collect_calls_ids v a b H) as [H1 H2]. destruct (collect_calls dump ids1 v a) as [a' x], (collect_calls dump ids2 v b) as [b' y]. cbn [fst snd] in *. subst y. destruct x; by apply IH.
  - match goal with |- context [json_parse ?x] => destruct (json_parse x) as [v |] end; [| done]. pose proof (collect_calls_ids v a b H) as [H1 H2]. destruct (collect_calls dump ids1 v a) as [a' x], (collect_calls dump ids2 v b) as [b' y]. cbn [fst snd] in *. subst y. by destruct x.
Qed.
Lemma values_ids t fuel : forall pos any a b, same a b ->
  match values_loop json_parse dump ids1 fuel t pos any a, values_loop json_parse dump ids2 fuel t pos any b with
  | Ok (p1, x1, l1), Ok (p2, x2, l2) => p1 = p2 /\ x1 = x2 /\ same l1 l2 | Err x, Err y => x = y | _, _ => False end.
Proof.
  induction fuel as [| fuel IH]; intros pos any a b H; [done |]. cbn [values_loop]. destruct (length t <=? pos)%nat; [done |]. destruct (parse_json_at json_parse t pos) as [ [e v] |]; [| done].
  pose proof (collect_calls_ids v a b H) as [H1 H2]. destruct (collect_calls dump ids1 v a) as [a' x], (collect_calls dump ids2 v b) as [b' y]. cbn [fst snd] in *. subst y. destruct x; [| done]. destruct (t !! _) as [c |]; [destruct (opens_json c); [by apply IH | done] | by apply IH].
Qed.
Lemma parse_ids text fmt :
  match parse_tool_calls json_parse dump ids1 text fmt, parse_tool_calls json_parse dump ids2 text fmt with
  | Ok p1, Ok p2 => content p1 = content p2 /\ same (tool_calls p1) (tool_calls p2) | Err x, Err y => x = y | _, _ => False end.
Proof.
  assert (V : match parse_values json_parse dump ids1 text, parse_values json_parse dump ids2 text with Ok p1, Ok p2 => content p1 = content p2 /\ same (tool_calls p1) (tool_calls p2) | Err x, Err y => x = y | _, _ => False end).
  { unfold parse_values. cbv zeta. match goal with |- context [match ?t with [] => _ | c :: _ => _ end] => set (t0 := t) end. destruct t0 as [| c t0]; [done |]. destruct (opens_json c); [| done]. pose proof (values_ids (c :: t0) (S (length (c :: t0))) 0 false [] [] eq_refl) as H.
    destruct (values_loop json_parse dump ids1 _ _ _ _ _) as [ [ [p1 x1] l1] |], (values_loop json_parse dump ids2 _ _ _ _ _) as [ [ [p2 x2] l2] |]; try done. destruct H as (-> & -> & H). by destruct x2. }
  destruct fmt; cbn [parse_tool_calls]; try exact V.
  - unfold parse_hermes. pose proof (hermes_ids text (S (length text)) 0 [] [] [] eq_refl) as H. destruct (hermes_loop json_parse dump ids1 _ _ _ _ _) as [ [c1 l1] |], (hermes_loop json_parse dump ids2 _ _ _ _ _) as [ [c2 l2] |]; try done. by destruct H as [-> H].
  - unfold parse_mistral. repeat case_match; try done; simplify_eq; match goal with H1 : collect_calls dump ids1 ?v [] = _, H2 : collect_calls dump ids2 ?v [] = _ |- _ => pose proof (collect_calls_ids v [] [] eq_refl) as [G1 G2]; rewrite H1, H2 in G1, G2; cbn [fst snd] in G1, G2 end; try done.
Qed.
End Ids.

(** C28: Streaming with tools sends the message of the answer without streaming.  However the chunks of
    a choice are batched by the queue, when its text does not start with a blank (or the format has no marker) and no
    error ends it, the content of the frames is the content of the parsed message up to blanks at its end, and the names and
    arguments of the tool calls and the finish reason are the same.  The ids of the calls are random: each
    parse draws its own ([ids], [ids']), and nothing is said of them. *)
Theorem stream_matches_message (json_parse : list Z -> option json) (dump : json -> list Z) (ids ids' : nat -> list Z) (req : GenerationRequest)
    (batches : list (list OutputChunk)) (init : list OutputChunk) (c : OutputChunk) (n : Z) :
  is_chat req = true -> parse_tools req = true -> concat batches = init ++ [c] -> Forall running init -> c_finished c = true -> c_error c = EmptyString ->
  (marker (tool_format req) = None \/ forall d t, texts (init ++ [c]) = d :: t -> is_blank d = false) ->
  exists fs cont calls fin ws, stream json_parse dump ids req batches n = Ok fs
    /\ chat_message json_parse dump ids' req (apply_all (init ++ [c]) (new_choice, new_result n)).2 = Ok (cont, calls, fin)
    /\ contents fs = cont ++ ws /\ all_blank ws /\ call_text <$> calls_of fs = call_text <$> calls /\ final fs = fin.
Proof.
  intros Hchat Htools Hcat Hrun Hf He Hb. destruct (apply_finished init c n Hrun Hf) as [Ht Hfin].
  destruct (stream_loop_ok json_parse dump ids req Hchat Htools batches init c new_choice (new_result n) [] Hcat Hrun Hf He eq_refl) as (fs & ch' & Hs & Hag).
  - unfold streaming. cbn [r_text new_result content_sent new_choice app]. split_and!; [lia | done | done | | by eexists].
    unfold allowed. destruct (marker _); [intros; lia | done].
  - exact Hb.
  - destruct Hag as (pa & Hpa & H1 & H2 & ws & Hws & H3). cbn [r_text new_result app] in *. pose proof (parse_ids json_parse dump ids ids' (texts (init ++ [c])) (tool_format req)) as Hids. rewrite Hpa in Hids.
    unfold stream, chat_message. rewrite Hs, Htools, Ht, Hfin. cbn [rbind]. destruct (parse_tool_calls json_parse dump ids' _ _) as [pb |]; [| done]. destruct Hids as [Ec El]. cbn [rbind].
    exists fs. destruct (tool_calls pa) as [| tc tcs] eqn:Etc, (tool_calls pb) as [| td tds]; try done.
    + exists (texts (init ++ [c])), [], (c_finish_reason c), ws. rewrite bool_decide_true in H2, H3 by done. split_and!; try done. by rewrite H1.
    + exists (content pb), (td :: tds), (if bool_decide (c_finish_reason c = STOP) then TOOL_CALLS else c_finish_reason c), ws.
      rewrite (bool_decide_false (tc :: tcs = [])) in H2, H3 by done. rewrite <- Ec. split_and!; try done. by rewrite H1.
Qed.

Definition sample_json : list Z := quoted "{`name`:`f`}".
Definition sample_parse (s : list Z) : option json := if bool_decide (s = sample_json) then Some (j_object [(bytes "name", j_string (bytes "f"))]) else None.
Definition sample_chunk (t : list Z) (fin : bool) : OutputChunk := mkChunk [] t [] fin (if fin then STOP else NONE) [] EmptyString 0 0 0.
Definition sample_request : GenerationRequest := mkGenRequest true false [] false true HERMES.
Definition sample_call : list Z := bytes "_call>" ++ sample_json ++ bytes "</tool_call> bye".
Lemma stream_matches_message_witness : exists fs cont calls fin ws,
  stream sample_parse (fun _ => []) (fun _ => bytes "0") sample_request [ [sample_chunk (bytes "Hi <tool") false]; [sample_chunk sample_call true] ] 0 = Ok fs
  /\ chat_message sample_parse (fun _ => []) (fun _ => bytes "1") sample_request
       (apply_all ([sample_chunk (bytes "Hi <tool") false] ++ [sample_chunk sample_call true]) (new_choice, new_result 0)).2 = Ok (cont, calls, fin)
  /\ contents fs = cont ++ ws /\ all_blank ws /\ call_text <$> calls_of fs = call_text <$> calls /\ final fs = fin.
Proof.
  apply (stream_matches_message sample_parse (fun _ => []) (fun _ => bytes "0") (fun _ => bytes "1") sample_request _ [sample_chunk (bytes "Hi <tool") false] (sample_chunk sample_call true) 0);
    [reflexivity | reflexivity | reflexivity | repeat constructor | reflexivity | reflexivity |].
  right. intros d t H. vm_compute in H. injection H as <- _. reflexivity.
Defined.

(** When the text starts with a blank, the content behind a tool call is not streamed.  The streamed
    prefix keeps the blank while the parsed content is trimmed, so it is not a prefix of the content
    and the rest is dropped: the client reads newline Hi, the answer without streaming has Hi  bye. *)
Theorem leading_blank_loses_content :
  let batches := [ [sample_chunk (newline :: bytes "Hi <tool") false]; [sample_chunk sample_call true] ] in
  exists fs calls, stream sample_parse (fun _ => []) (fun _ => bytes "0") sample_request batches 0 = Ok fs
    /\ chat_message sample_parse (fun _ => []) (fun _ => bytes "0") sample_request (apply_all (concat batches) (new_choice, new_result 0)).2 = Ok (bytes "Hi  bye", calls, TOOL_CALLS)
    /\ contents fs = newline :: bytes "Hi " /\ length (calls_of fs) = 1%nat.
Proof. eexists _, _. split; [vm_compute; reflexivity |]. split; [vm_compute; reflexivity |]. vm_compute. done. Qed.
