(* ===== verification/Unicode.v ===== *)
(** * Unicode: UTF-8, the byte alphabet, code point flags (src/iian/tokenizer/unicode.cpp, unicode.h)

    Bytes are integers from 0 to 255 and code points are [uint32_t] values.  The tables of
    unicode-data.cpp are an argument, [unicode_data]: every theorem holds for every table that has
    the properties it names.  The vector of flags that unicode_cpt_flags_array builds is a function
    of the index. *)

From S2P Require Import Prelude Text.

(** ** unicode_len_utf8 *)
Definition len_lookup : list Z := [1; 1; 1; 1; 1; 1; 1; 1; 1; 1; 1; 1; 2; 2; 3; 4].
Definition unicode_len_utf8 (src : Z) : Z := default 0 (vlookup len_lookup (Z.shiftr src 4)).

(** ** One code point: unicode_cpt_from_utf8, unicode_cpt_to_utf8 *)
Definition invalid {A} : res A := throw! "invalid character".
Definition bit_clear (b m : Z) : bool := Z.land b m =? 0.
Definition continues (b : option Z) : bool := match b with Some b => Z.land b 0xC0 =? 0x80 | None => false end.
Definition low6 (b : option Z) : Z := Z.land (default 0 b) 0x3F.

(** the code point at the start of [s] and the number of bytes it takes *)
Definition unicode_cpt_from_utf8 (s : list Z) : res (Z * Z) :=
  let! b := vget s 0 in
  if bit_clear b 0x80 then Ok (b, 1)
  else if bit_clear b 0x40 then invalid
  else if bit_clear b 0x20 then
    if negb (continues (s !! 1%nat)) then invalid
    else Ok (Z.lor (Z.shiftl (Z.land b 0x1F) 6) (low6 (s !! 1%nat)), 2)
  else if bit_clear b 0x10 then
    if negb (continues (s !! 1%nat)) || negb (continues (s !! 2%nat)) then invalid
    else Ok (Z.lor (Z.lor (Z.shiftl (Z.land b 0x0F) 12) (Z.shiftl (low6 (s !! 1%nat)) 6)) (low6 (s !! 2%nat)), 3)
  else if bit_clear b 0x08 then
    if negb (continues (s !! 1%nat)) || negb (continues (s !! 2%nat)) || negb (continues (s !! 3%nat)) then invalid
    else Ok (Z.lor (Z.lor (Z.lor (Z.shiftl (Z.land b 0x07) 18) (Z.shiftl (low6 (s !! 1%nat)) 12))
                          (Z.shiftl (low6 (s !! 2%nat)) 6)) (low6 (s !! 3%nat)), 4)
  else throw! "failed to convert utf8 to codepoint".

Definition unicode_cpt_to_utf8 (cpt : Z) : res (list Z) :=
  if cpt <=? 0x7F then Ok [cpt]
  else if (0x80 <=? cpt) && (cpt <=? 0x7FF) then
    Ok [Z.lor 0xC0 (Z.land (Z.shiftr cpt 6) 0x1F); Z.lor 0x80 (Z.land cpt 0x3F)]
  else if (0x800 <=? cpt) && (cpt <=? 0xFFFF) then
    Ok [Z.lor 0xE0 (Z.land (Z.shiftr cpt 12) 0x0F); Z.lor 0x80 (Z.land (Z.shiftr cpt 6) 0x3F); Z.lor 0x80 (Z.land cpt 0x3F)]
  else if (0x10000 <=? cpt) && (cpt <=? 0x10FFFF) then
    Ok [Z.lor 0xF0 (Z.land (Z.shiftr cpt 18) 0x07); Z.lor 0x80 (Z.land (Z.shiftr cpt 12) 0x3F);
        Z.lor 0x80 (Z.land (Z.shiftr cpt 6) 0x3F); Z.lor 0x80 (Z.land cpt 0x3F)]
  else throw! "invalid codepoint".

(** ** Strings *)
(** the loop of unicode_cpts_from_utf8 over the rest of the string: an invalid byte is replaced *)
Fixpoint cpts_loop (fuel : nat) (s : list Z) (result : list Z) : res (list Z) :=
  match s, fuel with
  | [], _ => Ok result
  | _, O => Err Fuel
  | _, S fuel =>
      match unicode_cpt_from_utf8 s with
      | Ok (c, n) => cpts_loop fuel (drop (Z.to_nat n) s) (result ++ [c])
      | Err (Throw _) => cpts_loop fuel (drop 1 s) (result ++ [0xFFFD])
      | Err e => Err e
      end
  end.
Definition unicode_cpts_from_utf8 (utf8 : list Z) : res (list Z) := cpts_loop (length utf8) utf8 [].

Fixpoint unicode_cpts_to_utf8 (cps : list Z) : res (list Z) :=
  match cps with
  | [] => Ok []
  | c :: cps => let! s := unicode_cpt_to_utf8 c in let! r := unicode_cpts_to_utf8 cps in Ok (s ++ r)
  end.

(** ** The byte alphabet: a printable character for every byte *)
Definition range (a b : Z) : list Z := (fun k => a + Z.of_nat k) <$> seq 0 (Z.to_nat (b - a + 1)).
Definition printable : list Z := range 0x21 0x7E ++ range 0xA1 0xAC ++ range 0xAE 0xFF.

(** the literal assignments [map[ch] = unicode_cpt_to_utf8(ch)] *)
Fixpoint put_all (chs : list Z) (map : gmap Z (list Z)) : res (gmap Z (list Z)) :=
  match chs with
  | [] => Ok map
  | c :: chs => let! u := unicode_cpt_to_utf8 c in put_all chs (<[c := u]> map)
  end.
(** the remaining bytes, numbered from 256 *)
Fixpoint put_rest (chs : list Z) (n : Z) (map : gmap Z (list Z)) : res (gmap Z (list Z)) :=
  match chs with
  | [] => Ok map
  | c :: chs =>
      match map !! c with
      | Some _ => put_rest chs n map
      | None => let! u := unicode_cpt_to_utf8 (256 + n) in put_rest chs (n + 1) (<[c := u]> map)
      end
  end.
Definition unicode_byte_to_utf8_map : res (gmap Z (list Z)) :=
  let! map := put_all printable ∅ in put_rest (range 0 255) 0 map.

Fixpoint get_all (chs : list Z) (map : gmap (list Z) Z) : res (gmap (list Z) Z) :=
  match chs with
  | [] => Ok map
  | c :: chs => let! u := unicode_cpt_to_utf8 c in get_all chs (<[u := c]> map)
  end.
Fixpoint get_rest (chs : list Z) (n : Z) (map : gmap (list Z) Z) : res (gmap (list Z) Z) :=
  match chs with
  | [] => Ok map
  | c :: chs =>
      let! k := unicode_cpt_to_utf8 c in
      match map !! k with
      | Some _ => get_rest chs n map
      | None => let! u := unicode_cpt_to_utf8 (256 + n) in get_rest chs (n + 1) (<[u := c]> map)
      end
  end.
Definition unicode_utf8_to_byte_map : res (gmap (list Z) Z) :=
  let! map := get_all printable ∅ in get_rest (range 0 255) 0 map.

(** [map.at] throws std::out_of_range *)
Definition at_key {K V} `{Countable K} (k : K) (m : gmap K V) : res V :=
  match m !! k with Some v => Ok v | None => throw! "out_of_range" end.
Definition unicode_byte_to_utf8 (byte : Z) : res (list Z) := let! map := unicode_byte_to_utf8_map in at_key byte map.
Definition unicode_utf8_to_byte (utf8 : list Z) : res Z := let! map := unicode_utf8_to_byte_map in at_key utf8 map.

Fixpoint byte_encode_all (s : list Z) : res (list Z) :=
  match s with
  | [] => Ok []
  | c :: s => let! u := unicode_byte_to_utf8 c in let! r := byte_encode_all s in Ok (u ++ r)
  end.
Fixpoint unicode_byte_encoding_process (bpe_words : list (list Z)) : res (list (list Z)) :=
  match bpe_words with
  | [] => Ok []
  | word :: rest =>
      let! utf_word := unicode_cpts_from_utf8 word in
      let! text_utf := unicode_cpts_to_utf8 utf_word in
      let! encoded_token := byte_encode_all text_utf in
      let! encoded := unicode_byte_encoding_process rest in
      Ok (encoded_token :: encoded)
  end.

(** ** Flags of a code point *)
Definition UNDEFINED := 0x0001.
Definition NUMBER := 0x0002.
Definition LETTER := 0x0004.
Definition ACCENT_MARK := 0x0010.
Definition PUNCTUATION := 0x0020.
Definition SYMBOL := 0x0040.
Definition MASK_CATEGORIES := 0x00FF.
Definition WHITESPACE := 0x0100.
Definition LOWERCASE := 0x0200.
Definition UPPERCASE := 0x0400.
Definition NFD := 0x0800.

(** the bit fields of the structure *)
Definition is_number (f : Z) : bool := Z.testbit f 1.
Definition is_letter (f : Z) : bool := Z.testbit f 2.
Definition is_separator (f : Z) : bool := Z.testbit f 3.
Definition is_accent_mark (f : Z) : bool := Z.testbit f 4.
Definition is_punctuation (f : Z) : bool := Z.testbit f 5.
Definition is_symbol (f : Z) : bool := Z.testbit f 6.
Definition is_control (f : Z) : bool := Z.testbit f 7.
Definition is_whitespace (f : Z) : bool := Z.testbit f 8.
Definition category_flag (f : Z) : Z := Z.land f MASK_CATEGORIES.

Definition MAX_CODEPOINTS := 0x110000.
Record range_nfd := mkNfd { nfd_first : Z; nfd_last : Z; nfd : Z }.
Record unicode_data := mkData {
  unicode_ranges_flags : list (Z * Z);
  unicode_set_whitespace : list Z;
  unicode_map_lowercase : list (Z * Z);
  unicode_map_uppercase : list (Z * Z);
  unicode_ranges_nfd : list range_nfd }.

Section Data.
Context (D : unicode_data).

Definition fill_range (a : Z -> Z) (ini fin v : Z) : Z -> Z :=
  fun c => if (ini <=? c) && (c <? fin) then v else a c.
(** each range ends where the next one starts *)
Fixpoint fill_ranges (ranges : list (Z * Z)) (a : Z -> Z) : Z -> Z :=
  match ranges with
  | (ini, v) :: rest => match rest with
                        | (fin, _) :: _ => fill_ranges rest (fill_range a ini fin v)
                        | [] => a
                        end
  | [] => a
  end.
Definition raise_flag (flag : Z) (a : Z -> Z) (cpt : Z) : Z -> Z :=
  fun c => if c =? cpt then Z.lor (a c) flag else a c.
Definition unicode_cpt_flags_array : Z -> Z :=
  let a := fill_ranges (unicode_ranges_flags D) (fun _ => UNDEFINED) in
  let a := foldl (raise_flag WHITESPACE) a (unicode_set_whitespace D) in
  let a := foldl (raise_flag LOWERCASE) a ((unicode_map_lowercase D).*2) in
  let a := foldl (raise_flag UPPERCASE) a ((unicode_map_uppercase D).*2) in
  foldl (raise_flag NFD) a (nfd <$> unicode_ranges_nfd D).
Definition unicode_cpt_flags_from_cpt (cpt : Z) : Z :=
  if cpt <? MAX_CODEPOINTS then unicode_cpt_flags_array cpt else UNDEFINED.

(** ** Lower case, decomposition, Han characters *)
(** std::lower_bound on the sorted table: the first entry that is not before [cpt] *)
Definition unicode_tolower (cpt : Z) : Z :=
  match List.find (fun p => negb (p.1 <? cpt)) (unicode_map_lowercase D) with
  | Some (k, v) => if k =? cpt then v else cpt
  | None => cpt
  end.

(** std::nfd_bound: the number of leading entries that are not after [cpt] *)
Fixpoint nfd_bound (cpt : Z) (l : list range_nfd) : Z :=
  match l with
  | r :: l => if cpt <? nfd_first r then 0 else 1 + nfd_bound cpt l
  | [] => 0
  end.
Definition nfd_of (cpt : Z) : res Z :=
  let! it := vget (unicode_ranges_nfd D) (nfd_bound cpt (unicode_ranges_nfd D) - 1) in
  Ok (if (nfd_first it <=? cpt) && (cpt <=? nfd_last it) then nfd it else cpt).
Fixpoint unicode_cpts_normalize_nfd (cpts : list Z) : res (list Z) :=
  match cpts with
  | [] => Ok []
  | c :: cpts => let! r := nfd_of c in let! rs := unicode_cpts_normalize_nfd cpts in Ok (r :: rs)
  end.
End Data.

Definition within (a b c : Z) : bool := (a <=? c) && (c <=? b).
Definition unicode_cpt_is_han (cpt : Z) : bool :=
  within 0x4E00 0x9FFF cpt || within 0x3400 0x4DBF cpt || within 0x20000 0x2A6DF cpt || within 0x2A700 0x2B73F cpt ||
  within 0x2B740 0x2B81F cpt || within 0x2B820 0x2CEAF cpt || within 0x2CEB0 0x2EBEF cpt || within 0xF900 0xFAFF cpt ||
  within 0x2F800 0x2FA1F cpt.
