(* ===== verification/UnicodeSplit.v ===== *)
(** * Splitting a text into words (the splitters and unicode_regex_split of
    src/iian/tokenizer/unicode.cpp)

    A splitter refines a division of the text, given by the lengths of its parts in code points.
    Inside a part ([offset_ini], [offset_end]) it moves a position and records words with
    [_add_token]; the state of the recording is the end of the last word and the lengths so far.
    A failed assert is an error of the model.  std::regex is an argument, [regex_matches]: the
    positions and lengths of the matches of an expression in a range, [None] for an expression it
    rejects. *)

From S2P Require Import Prelude Text Unicode.

Section Split.
Context (D : unicode_data).

Definition OUT_OF_RANGE := 0xFFFFFFFF.

(** ** Inside one part of the text *)
Section Part.
Context (cpts : list Z) (offset_ini offset_end : Z).

Definition in_range (pos : Z) : bool := (offset_ini <=? pos) && (pos <? offset_end).
Definition get_cpt (pos : Z) : Z := if in_range pos then default OUT_OF_RANGE (vlookup cpts pos) else OUT_OF_RANGE.
Definition get_flags (pos : Z) : Z := if in_range pos then unicode_cpt_flags_from_cpt D (get_cpt pos) else 0.

(** the end of the last word and the lengths recorded *)
Definition recorder : Type := Z * list Z.
Definition add_token (st : recorder) (e : Z) : res (Z * recorder) :=
  let '(prev_end, bpe_offsets) := st in
  if (prev_end <=? e) && (e <=? offset_end) then
    let len := e - prev_end in Ok (len, (e, if 0 <? len then bpe_offsets ++ [len] else bpe_offsets))
  else Err (UB "assertion failed").
(** [_add_token(pos); continue;] *)
Definition add_to (st : recorder) (pos : Z) : res (Z * recorder) :=
  let! (_, st) := add_token st pos in Ok (pos, st).

(** [while (p(pos)) pos++;] *)
Fixpoint scan (fuel : nat) (p : Z -> bool) (pos : Z) : res Z :=
  match fuel with
  | O => Err Fuel
  | S fuel => if p pos then scan fuel p (pos + 1) else Ok pos
  end.
Definition scan_while (p : Z -> bool) (pos : Z) : res Z := scan (S (Z.to_nat (offset_end - pos))) p pos.

Definition letter_at (pos : Z) : bool := is_letter (get_flags pos).
Definition number_at (pos : Z) : bool := is_number (get_flags pos).
Definition white_at (pos : Z) : bool := is_whitespace (get_flags pos).
Definition eol (c : Z) : bool := (c =? creturn) || (c =? newline).
(** neither space, letter nor number, and not undefined as flags are outside the part *)
Definition other (f : Z) : bool := negb (is_whitespace f || is_letter f || is_number f) && negb (f =? 0).

(** the length of a contraction after an apostrophe at [pos], 0 when there is none *)
Definition contraction (lower : Z -> Z) (pos : Z) : Z :=
  if (get_cpt pos =? ch "'") && (pos + 1 <? offset_end) then
    let cpt_next := lower (get_cpt (pos + 1)) in
    if (cpt_next =? ch "s") || (cpt_next =? ch "t") || (cpt_next =? ch "m") || (cpt_next =? ch "d") then 2
    else if pos + 2 <? offset_end then
      let cpt_next_next := lower (get_cpt (pos + 2)) in
      if ((cpt_next =? ch "r") && (cpt_next_next =? ch "e")) || ((cpt_next =? ch "v") && (cpt_next_next =? ch "e")) ||
         ((cpt_next =? ch "l") && (cpt_next_next =? ch "l")) then 3
      else 0
    else 0
  else 0.

(** white space from [pos] on: the number of characters and the end of the last line break, or 0 *)
Fixpoint blanks (fuel : nat) (pos num_whitespaces last_end_r_or_n : Z) : res (Z * Z) :=
  match fuel with
  | O => Err Fuel
  | S fuel =>
      if white_at (pos + num_whitespaces) then
        blanks fuel pos (num_whitespaces + 1)
          (if eol (get_cpt (pos + num_whitespaces)) then pos + num_whitespaces + 1 else last_end_r_or_n)
      else Ok (num_whitespaces, last_end_r_or_n)
  end.
Definition count_blanks (pos : Z) : res (Z * Z) := blanks (S (Z.to_nat (offset_end - pos))) pos 0 0.

(** the last three patterns: white space not followed by more, white space, no match *)
Definition spaces_or_one (num_whitespaces pos : Z) (st : recorder) : res (Z * recorder) :=
  if (1 <? num_whitespaces) && negb (get_cpt (pos + num_whitespaces) =? OUT_OF_RANGE) then add_to st (pos + (num_whitespaces - 1))
  else if 0 <? num_whitespaces then add_to st (pos + num_whitespaces)
  else add_to st (pos + 1).
(** white space up to a line break, then the last three *)
Definition blanks_step (pos : Z) (st : recorder) : res (Z * recorder) :=
  let! (num_whitespaces, last_end_r_or_n) := count_blanks pos in
  if 0 <? last_end_r_or_n then add_to st last_end_r_or_n else spaces_or_one num_whitespaces pos st.

(** ** unicode_regex_split_custom_gpt2: one round of the loop *)
Definition gpt2_step (pos : Z) (st : recorder) : res (Z * recorder) :=
  let cpt := get_cpt pos in
  let flags := get_flags pos in
  let k := contraction (fun c => c) pos in
  if 0 <? k then let! (len, st) := add_token st (pos + k) in Ok (pos + len, st) else
  let space := cpt =? ch " " in
  let flags2 := if space then get_flags (pos + 1) else flags in
  let pos' := pos + Z.b2z space in
  if is_letter flags2 then let! e := scan_while letter_at pos' in add_to st e
  else if is_number flags2 then let! e := scan_while number_at pos' in add_to st e
  else if other flags2 then let! e := scan_while (fun p => other (get_flags p)) pos' in add_to st e
  else
    let! e := scan_while white_at pos in
    spaces_or_one (e - pos) pos st.

(** ** unicode_regex_split_custom_llama3, _qwen2, _qwen35 *)
(** [\p{N}{1,3}]: a word for every three digits and for the rest *)
Fixpoint digits_loop (fuel : nat) (ini pos : Z) (st : recorder) : res (Z * recorder) :=
  match fuel with
  | O => Err Fuel
  | S fuel =>
      if number_at pos then
        let pos := pos + 1 in
        if 3 <=? pos - ini then let! (_, st) := add_token st pos in digits_loop fuel pos pos st
        else digits_loop fuel ini pos st
      else add_to st pos
  end.
Definition three_digits (pos : Z) (st : recorder) : res (Z * recorder) :=
  digits_loop (S (Z.to_nat (offset_end - pos))) pos pos st.
Definition one_digit (pos : Z) (st : recorder) : res (Z * recorder) := add_to st (pos + 1).

(** an optional space, then a run of symbols and line breaks *)
Definition symbols_run (others : Z -> bool) (pos : Z) (st : recorder) : res (Z * recorder) :=
  let! e := scan_while (fun p => others (get_flags p)) (pos + Z.b2z (get_cpt pos =? ch " ")) in
  let! e := scan_while (fun p => eol (get_cpt p)) e in
  add_to st e.

(** what the three share: [word] tells the flags of a letter run, [digits] handles numbers *)
Definition words_step (word : Z -> bool) (digits : Z -> recorder -> res (Z * recorder)) (pos : Z) (st : recorder)
  : res (Z * recorder) :=
  let cpt := get_cpt pos in
  let flags := get_flags pos in
  let k := contraction (unicode_tolower D) pos in
  if 0 <? k then let! (len, st) := add_token st (pos + k) in Ok (pos + len, st)
  else if negb (eol cpt || is_number flags) && (word flags || word (get_flags (pos + 1))) then
    let! e := scan_while (fun p => word (get_flags p)) (pos + 1) in add_to st e
  else if is_number flags then digits pos st
  else
    let flags2 := if cpt =? ch " " then get_flags (pos + 1) else flags in
    if negb (is_whitespace flags2 || word flags2 || is_number flags2) && negb (flags =? 0) then
      symbols_run (fun f => negb (is_whitespace f || word f || is_number f) && negb (f =? 0)) pos st
    else blanks_step pos st.

Definition llama3_step : Z -> recorder -> res (Z * recorder) := words_step is_letter three_digits.
Definition qwen2_step : Z -> recorder -> res (Z * recorder) := words_step is_letter one_digit.
Definition letter_or_mark (f : Z) : bool := is_letter f || is_accent_mark f.
Definition qwen35_step : Z -> recorder -> res (Z * recorder) := words_step letter_or_mark one_digit.

(** ** unicode_regex_split_custom_kimi_k2 *)
Definition plain_letter_at (pos : Z) : bool := letter_at pos && negb (unicode_cpt_is_han (get_cpt pos)).
(** patterns 2 and 3: [None] when no letter was found *)
Definition letters_word (pos : Z) (st : recorder) : res (option (Z * recorder)) :=
  let has_leading_char := negb (eol (get_cpt pos) || letter_at pos || number_at pos) in
  let start := if has_leading_char then pos + 1 else pos in
  let! e := scan_while plain_letter_at start in
  let has_letters := start <? e in
  if has_letters || (negb has_leading_char && plain_letter_at e) then
    let e := if has_letters then e else e + 1 in
    let! e := scan_while plain_letter_at e in
    let! r := add_to st (e + contraction (unicode_tolower D) e) in
    Ok (Some r)
  else Ok None.
Definition kimi_rest (pos : Z) (st : recorder) : res (Z * recorder) :=
  let flags := get_flags pos in
  if is_number flags then three_digits pos st
  else
    let flags2 := if get_cpt pos =? ch " " then get_flags (pos + 1) else flags in
    if other flags2 then symbols_run other pos st else blanks_step pos st.
Definition kimi_k2_step (pos : Z) (st : recorder) : res (Z * recorder) :=
  let cpt := get_cpt pos in
  if unicode_cpt_is_han cpt then
    let! e := scan_while (fun p => unicode_cpt_is_han (get_cpt p)) pos in add_to st e
  else
    let is_letter_pattern := plain_letter_at pos ||
      (negb (eol cpt || letter_at pos || number_at pos) && plain_letter_at (pos + 1)) in
    if is_letter_pattern then
      let! r := letters_word pos st in
      match r with Some r => Ok r | None => kimi_rest pos st end
    else kimi_rest pos st.

(** ** unicode_regex_split_custom_afmoe: digits in groups of three from the right *)
Fixpoint groups_of_3 (fuel : nat) (current stop_at : Z) (st : recorder) : res recorder :=
  match fuel with
  | O => Err Fuel
  | S fuel => if current <? stop_at then let! (_, st) := add_token st (current + 3) in groups_of_3 fuel (current + 3) stop_at st
              else Ok st
  end.
Definition afmoe_step (pos : Z) (st : recorder) : res (Z * recorder) :=
  if number_at pos then
    let! e := scan_while (fun p => number_at p && (p <? offset_end)) pos in
    let digit_count := e - pos in
    let remainder := digit_count mod 3 in
    let! st := (if 0 <? remainder then let! (_, st) := add_token st (pos + remainder) in Ok st else Ok st) in
    let! st := groups_of_3 (S (Z.to_nat digit_count)) (pos + remainder) (pos + digit_count) st in
    Ok (e, st)
  else Ok (pos + 1, st).

(** ** The loop over a part *)
Fixpoint part_loop (fuel : nat) (step1 : Z -> recorder -> res (Z * recorder)) (pos : Z) (st : recorder) : res recorder :=
  if offset_end <=? pos then Ok st else
  match fuel with
  | O => Err Fuel
  | S fuel => let! (pos, st) := step1 pos st in part_loop fuel step1 pos st
  end.
Definition split_part (step1 : Z -> recorder -> res (Z * recorder)) (bpe_offsets : list Z) : res (list Z) :=
  let! (_, out) := part_loop (Z.to_nat (offset_end - offset_ini)) step1 offset_ini (offset_ini, bpe_offsets) in Ok out.
(** afmoe records what is left at the end *)
Definition split_part_afmoe (bpe_offsets : list Z) : res (list Z) :=
  let! (prev_end, out) := part_loop (Z.to_nat (offset_end - offset_ini)) afmoe_step offset_ini (offset_ini, bpe_offsets) in
  if prev_end <? offset_end then let! (_, (_, out)) := add_token (prev_end, out) offset_end in Ok out else Ok out.
(** runs of line feeds and of other characters *)
Fixpoint newline_loop (fuel : nat) (pos : Z) (bpe_offsets : list Z) : res (list Z) :=
  if offset_end <=? pos then Ok bpe_offsets else
  match fuel with
  | O => Err Fuel
  | S fuel =>
      let! c := vget cpts pos in
      let is_newline := c =? newline in
      let! e := scan_while (fun p => (p <? offset_end) && Bool.eqb (get_cpt p =? newline) is_newline) pos in
      newline_loop fuel e (bpe_offsets ++ [e - pos])
  end.
Definition split_part_newlines (bpe_offsets : list Z) : res (list Z) :=
  newline_loop (Z.to_nat (offset_end - offset_ini)) offset_ini bpe_offsets.
End Part.

(** ** The loop over the parts *)
Definition part_splitter : Type := list Z -> Z -> Z -> list Z -> res (list Z).
Fixpoint parts_loop (split1 : part_splitter) (cpts : list Z) (offsets : list Z) (start : Z) (out : list Z) : res (list Z) :=
  match offsets with
  | [] => Ok out
  | offset :: offsets =>
      let offset_end := start + offset in
      if offset_end <=? Zlen cpts then
        let! out := split1 cpts start offset_end out in parts_loop split1 cpts offsets offset_end out
      else Err (UB "assertion failed")
  end.
Definition split_with (split1 : part_splitter) (text : list Z) (offsets : list Z) : res (list Z) :=
  let! cpts := unicode_cpts_from_utf8 text in parts_loop split1 cpts offsets 0 [].

Definition unicode_regex_split_custom_gpt2 := split_with (fun cpts a b => split_part a b (gpt2_step cpts a b)).
Definition unicode_regex_split_custom_llama3 := split_with (fun cpts a b => split_part a b (llama3_step cpts a b)).
Definition unicode_regex_split_custom_qwen2 := split_with (fun cpts a b => split_part a b (qwen2_step cpts a b)).
Definition unicode_regex_split_custom_qwen35 := split_with (fun cpts a b => split_part a b (qwen35_step cpts a b)).
Definition unicode_regex_split_custom_kimi_k2 := split_with (fun cpts a b => split_part a b (kimi_k2_step cpts a b)).
Definition unicode_regex_split_custom_afmoe := split_with split_part_afmoe.
Definition unicode_regex_split_custom_newlines := split_with split_part_newlines.
End Split.

(** * unicode_regex_split (src/iian/tokenizer/unicode.cpp)

    The expressions of a pre-tokenizer are applied one after the other: a splitter written by hand
    where there is one for the expression, std::regex otherwise, on the text itself or on the text
    with every code point collapsed to one byte.  std::regex is the argument [regex_matches]:
    whether wide characters are used, the expression and the range searched give the positions and
    lengths of the successive matches, or [None] for a regex_error. *)

Section Regex.
Context (D : unicode_data).
Context (regex_matches : bool -> list Z -> list Z -> option (list (Z * Z))).

Definition gpt2_expr := bytes "'s|'t|'re|'ve|'m|'ll|'d| ?\p{L}+| ?\p{N}+| ?[^\s\p{L}\p{N}]+|\s+(?!\S)".
Definition llama3_expr := bytes "(?i:'s|'t|'re|'ve|'m|'ll|'d)|[^\r\n\p{L}\p{N}]?\p{L}+|\p{N}{1,3}| ?[^\s\p{L}\p{N}]+[\r\n]*|\s*[\r\n]+|\s+(?!\S)|\s+".
Definition llama3_expr' := bytes "(?:'[sS]|'[tT]|'[rR][eE]|'[vV][eE]|'[mM]|'[lL][lL]|'[dD])|[^\r\n\p{L}\p{N}]?\p{L}+|\p{N}{1,3}| ?[^\s\p{L}\p{N}]+[\r\n]*|\s*[\r\n]+|\s+(?!\S)|\s+".
Definition qwen2_expr := bytes "(?:'[sS]|'[tT]|'[rR][eE]|'[vV][eE]|'[mM]|'[lL][lL]|'[dD])|[^\r\n\p{L}\p{N}]?\p{L}+|\p{N}| ?[^\s\p{L}\p{N}]+[\r\n]*|\s*[\r\n]+|\s+(?!\S)|\s+".
Definition qwen35_expr := bytes "(?:'[sS]|'[tT]|'[rR][eE]|'[vV][eE]|'[mM]|'[lL][lL]|'[dD])|[^\r\n\p{L}\p{N}]?[\p{L}\p{M}]+|\p{N}| ?[^\s\p{L}\p{M}\p{N}]+[\r\n]*|\s*[\r\n]+|\s+(?!\S)|\s+".
Definition kimi_k2_expr := bytes "\p{Han}+".
Definition afmoe_expr := bytes "\p{AFMoE_digits}".
Definition newlines_expr := bytes "[^\n]+|[\n]+".
Definition tiny_aya_expr := bytes "\d{1,3}(?=(?:\d{3})*\b)".

Definition is_expr (regex_expr e : list Z) : bool := bool_decide (regex_expr = e).

(** ** unicode_regex_split_custom: no lengths when no splitter is written for the expression *)
Definition unicode_regex_split_custom (text regex_expr : list Z) (offsets : list Z) : res (list Z) :=
  if is_expr regex_expr gpt2_expr then unicode_regex_split_custom_gpt2 D text offsets
  else if is_expr regex_expr llama3_expr || is_expr regex_expr llama3_expr' then unicode_regex_split_custom_llama3 D text offsets
  else if is_expr regex_expr qwen2_expr then unicode_regex_split_custom_qwen2 D text offsets
  else if is_expr regex_expr qwen35_expr then unicode_regex_split_custom_qwen35 D text offsets
  else if is_expr regex_expr kimi_k2_expr then unicode_regex_split_custom_kimi_k2 D text offsets
  else if is_expr regex_expr afmoe_expr then unicode_regex_split_custom_afmoe D text offsets
  else if is_expr regex_expr newlines_expr then unicode_regex_split_custom_newlines text offsets
  else if is_expr regex_expr tiny_aya_expr then unicode_regex_split_custom_afmoe D text offsets
  else Ok [].

(** ** unicode_regex_split_stl *)
Fixpoint matches_loop (ms : list (Z * Z)) (start_idx : Z) (out : list Z) : Z * list Z :=
  match ms with
  | [] => (start_idx, out)
  | (position, len) :: ms =>
      let out := if start_idx <? position then out ++ [position - start_idx] else out in
      matches_loop ms (position + len) (out ++ [len])
  end.
Fixpoint unicode_regex_split_stl (wide : bool) (text regex : list Z) (offsets : list Z) (start : Z) (out : list Z)
  : res (list Z) :=
  match offsets with
  | [] => Ok out
  | offset :: offsets =>
      match regex_matches wide regex (vslice text start offset) with
      | None => throw! "Failed to process regex"
      | Some ms =>
          let '(start_idx, out) := matches_loop ms 0 out in
          let out := if start_idx <? offset then out ++ [offset - start_idx] else out in
          unicode_regex_split_stl wide text regex offsets (start + offset) out
      end
  end.

(** ** Unicode categories *)
Definition k_ucat_enum : list (list Z * Z) :=
  [(bytes "\p{N}", NUMBER); (bytes "\p{L}", LETTER); (bytes "\p{P}", PUNCTUATION); (bytes "\p{M}", ACCENT_MARK);
   (bytes "\p{S}", SYMBOL); (bytes "\p{Lu}", LETTER); (bytes "\p{Ll}", LETTER); (bytes "\p{Lt}", LETTER);
   (bytes "\p{Lm}", LETTER); (bytes "\p{Lo}", LETTER)].
Definition k_ucat_cpt : list (Z * Z) :=
  [(NUMBER, 0xD1); (LETTER, 0xD2); (PUNCTUATION, 0xD3); (ACCENT_MARK, 0xD4); (SYMBOL, 0xD5)].
Definition k_ucat_map : list (Z * list Z) :=
  [(NUMBER, bytes "0-9"); (LETTER, bytes "A-Za-z"); (PUNCTUATION, bytes "!-#%-*,-/:-;?-@\[-\]_\{\}");
   (ACCENT_MARK, []); (SYMBOL, bytes "\$\+<->^`\|\~")].
Definition assoc {K V} `{EqDecision K} (k : K) (l : list (K * V)) : option V :=
  snd <$> List.find (fun e => bool_decide (e.1 = k)) l.

(** an expression uses a category *)
Definition uses_category (regex_expr : list Z) : bool :=
  existsb (fun ucat => bool_decide (is_Some (find_str regex_expr ucat.1 0))) k_ucat_enum.

(** the text with every code point collapsed to one byte *)
Definition collapse_cpt (c : Z) : Z :=
  if c <? 128 then c
  else
    let flags := unicode_cpt_flags_from_cpt D c in
    if is_whitespace flags then 0x0B else default 0xD0 (assoc (category_flag flags) k_ucat_cpt).

(** the category named at index [i] of an expression and the index of its closing brace *)
Definition category_at (r : list Z) (i : nat) : option (Z * nat) :=
  if (peek_at i r =? ch "\") && (i + 3 <? length r)%nat && (peek_at (i + 1) r =? ch "p") && (peek_at (i + 2) r =? ch "{") then
    match find_str r [ch "}"] (i + 3) with
    | Some closing_brace =>
        if (closing_brace <=? i + 10)%nat then
          (fun cat => (cat, closing_brace)) <$> assoc (substr r i (closing_brace - i + 1)) k_ucat_enum
        else None
    | None => None
    end
  else None.
(** the expression with the categories replaced by the bytes that stand for them *)
Fixpoint collapse_expr (fuel : nat) (r : list Z) (i : nat) (inside : bool) (out : list Z) : res (list Z) :=
  if (length r <=? i)%nat then Ok out else
  match fuel with
  | O => Err Fuel
  | S fuel =>
      let c := peek_at i r in
      let escaped := match i with O => false | S j => peek_at j r =? ch "\" end in
      if (c =? ch "[") && negb escaped then collapse_expr fuel r (S i) true (out ++ [ch "["])
      else if inside && (c =? ch "]") && negb escaped then collapse_expr fuel r (S i) false (out ++ [ch "]"])
      else
        match category_at r i with
        | Some (cat, closing_brace) =>
            match assoc cat k_ucat_cpt, assoc cat k_ucat_map with
            | Some c, Some m =>
                collapse_expr fuel r (S closing_brace) inside
                  (out ++ (if inside then [] else [ch "["]) ++ [c] ++ m ++ (if inside then [] else [ch "]"]))
            | _, _ => throw! "out_of_range"
            end
        | None => collapse_expr fuel r (S i) inside (out ++ [c])
        end
  end.

(** wide text: white space outside ASCII is replaced *)
Definition wide_cpt (c : Z) : Z :=
  if (0x7F <? c) && is_whitespace (unicode_cpt_flags_from_cpt D c) then 0x0B else c.

(** one expression of the pre-tokenizer *)
Definition apply_expr (text cpts regex_expr : list Z) (bpe_offsets : list Z) : res (list Z) :=
  let! tmp := unicode_regex_split_custom text regex_expr bpe_offsets in
  match tmp with
  | _ :: _ => Ok tmp
  | [] =>
      let! cpts_regex := unicode_cpts_from_utf8 regex_expr in
      if uses_category regex_expr then
        if existsb (fun c => 128 <=? c) cpts_regex then
          throw! "Regex includes both unicode categories and non-ASCII characters - not supported"
        else
          let! regex_expr_collapsed := collapse_expr (length regex_expr) regex_expr 0 false [] in
          unicode_regex_split_stl false (collapse_cpt <$> cpts) regex_expr_collapsed bpe_offsets 0 []
      else unicode_regex_split_stl true (wide_cpt <$> cpts) cpts_regex bpe_offsets 0 []
  end.
Fixpoint apply_exprs (text cpts : list Z) (regex_exprs : list (list Z)) (bpe_offsets : list Z) : res (list Z) :=
  match regex_exprs with
  | [] => Ok bpe_offsets
  | e :: es => let! bpe_offsets := apply_expr text cpts e bpe_offsets in apply_exprs text cpts es bpe_offsets
  end.

(** the words: the code points of each part, encoded again *)
Fixpoint words_of (cpts : list Z) (bpe_offsets : list Z) (start : Z) : res (list (list Z)) :=
  match bpe_offsets with
  | [] => Ok []
  | offset :: rest =>
      if start + offset <=? Zlen cpts then
        let! w := unicode_cpts_to_utf8 (vslice cpts start offset) in
        let! ws := words_of cpts rest (start + offset) in
        Ok (w :: ws)
      else Err (UB "vector index out of range")
  end.

Definition unicode_regex_split (text : list Z) (regex_exprs : list (list Z)) (byte_encode : bool) : res (list (list Z)) :=
  let! cpts := unicode_cpts_from_utf8 text in
  let! bpe_offsets := apply_exprs text cpts regex_exprs [Zlen cpts] in
  let! bpe_words := words_of cpts bpe_offsets 0 in
  if byte_encode then unicode_byte_encoding_process bpe_words else Ok bpe_words.
End Regex.
