(* ===== verification/UnicodeFacts.v ===== *)
(** * UTF-8 and the byte alphabet of the tokenizers

    The encoder writes the standard encoding of a code point ([utf8_encode] of Utf8.v), the decoder
    reads it back, and the characters that stand for bytes are told apart by the decoding map. *)

From S2P Require Import Prelude Text Utf8 Unicode.

(** ** Bits and arithmetic *)
Lemma lor_add a b k : 0 <= k -> 0 <= b < 2 ^ k -> Z.lor (a * 2 ^ k) b = a * 2 ^ k + b.
Proof.
  intros Hk Hb. pose proof (Z.add_lor_land (a * 2 ^ k) b) as Hs.
  assert (Hz : Z.land (a * 2 ^ k) b = 0); [| lia]. apply Z.bits_inj'. intros n Hn. rewrite Z.land_spec, Z.bits_0.
  destruct (Z.lt_ge_cases n k); [by rewrite Z.mul_pow2_bits_low |].
  destruct (Z.eq_dec b 0) as [-> |]; [rewrite Z.bits_0; apply andb_false_r |].
  rewrite (Z.bits_above_log2 b n), ?andb_false_r; [done | lia |]. pose proof (proj1 (Z.log2_lt_pow2 b k ltac:(lia)) ltac:(lia)). lia.
Qed.
Lemma shift_or a b k : 0 <= k -> 0 <= b < 2 ^ k -> Z.lor (Z.shiftl a k) b = a * 2 ^ k + b.
Proof. intros. rewrite Z.shiftl_mul_pow2 by lia. by apply lor_add. Qed.
Lemma land_low c k : 0 <= k -> Z.land c (2 ^ k - 1) = c mod 2 ^ k.
Proof. intros. replace (2 ^ k - 1) with (Z.ones k) by (rewrite Z.ones_equiv; lia). by apply Z.land_ones. Qed.

(** a number below [n] satisfies a boolean property: the cases are run *)
Lemma small_cases (P : Z -> bool) (n : nat) : forallb P (Z.of_nat <$> seq 0 n) = true -> forall x, 0 <= x < Z.of_nat n -> P x = true.
Proof.
  intros H x Hx. rewrite forallb_forall in H. apply H. apply list_elem_of_In, list_elem_of_fmap. exists (Z.to_nat x).
  split; [lia |]. apply elem_of_seq. lia.
Qed.
Ltac by_cases P n := let H := fresh in
  assert (H : forall x, 0 <= x < Z.of_nat n -> P x = true) by (apply small_cases; vm_compute; reflexivity).

(** ** Encoding *)
Definition codepoint (c : Z) : Prop := 0 <= c <= 0x10FFFF.
#[global] Instance codepoint_dec c : Decision (codepoint c).
Proof. unfold codepoint. apply _. Defined.

Lemma lead_or a b k m : 0 <= k -> m = a * 2 ^ k -> 0 <= b < 2 ^ k -> Z.lor m b = m + b.
Proof. intros Hk -> Hb. by apply lor_add. Qed.

Lemma div_range c d n : 0 < d -> 0 <= c < d * n -> 0 <= c / d < n.
Proof. intros. split; [apply Z.div_pos | apply Z.div_lt_upper_bound]; lia. Qed.
(** the bytes of an encoding: a lead with the high bits, and six bits with 0x80 *)
Lemma lead_byte_add c s d a k m mask : 0 < d -> 0 <= k -> d = 2 ^ s -> 0 <= s -> mask = 2 ^ k - 1 -> m = a * 2 ^ k -> 0 <= c < d * 2 ^ k ->
  Z.lor m (Z.land (Z.shiftr c s) mask) = m + c / d.
Proof.
  intros Hd Hk -> Hs -> Hm Hc. pose proof (div_range c (2 ^ s) (2 ^ k) Hd Hc).
  rewrite Z.shiftr_div_pow2, land_low, Z.mod_small by lia. by apply (lead_or a _ k).
Qed.
Lemma cont_byte_add x : Z.lor 0x80 (Z.land x 0x3F) = 0x80 + x mod 64.
Proof. change 0x3F with (2 ^ 6 - 1). rewrite land_low by lia. change (2 ^ 6) with 64. apply (lead_or 2 _ 6); [lia | done |]. apply Z.mod_pos_bound. lia. Qed.

Lemma to_utf8_encode c : codepoint c -> unicode_cpt_to_utf8 c = Ok (utf8_encode c).
Proof.
  intros [H0 H1]. unfold unicode_cpt_to_utf8, utf8_encode. rewrite !cont_byte_add, !(Z.shiftr_div_pow2 c 12), !(Z.shiftr_div_pow2 c 6) by lia.
  destruct (Z.leb_spec c 0x7F); [by rewrite (proj2 (Z.ltb_lt c 0x80)) by lia |].
  rewrite (proj2 (Z.ltb_ge c 0x80)), (proj2 (Z.leb_le 0x80 c)) by lia. simpl.
  destruct (Z.leb_spec c 0x7FF).
  { rewrite (proj2 (Z.ltb_lt c 0x800)) by lia. rewrite <- Z.shiftr_div_pow2 by lia. by rewrite (lead_byte_add c 6 64 6 5) by lia. }
  rewrite (proj2 (Z.ltb_ge c 0x800)), (proj2 (Z.leb_le 0x800 c)) by lia. simpl.
  destruct (Z.leb_spec c 0xFFFF).
  { rewrite (proj2 (Z.ltb_lt c 0x10000)) by lia. rewrite <- (Z.shiftr_div_pow2 c 12) by lia. by rewrite (lead_byte_add c 12 4096 14 4) by lia. }
  rewrite (proj2 (Z.ltb_ge c 0x10000)), (proj2 (Z.leb_le 0x10000 c)), (proj2 (Z.leb_le c 0x10FFFF)) by lia. simpl.
  by rewrite (lead_byte_add c 18 262144 30 3) by lia.
Qed.
Lemma cpts_to_utf8_encode cps : Forall codepoint cps -> unicode_cpts_to_utf8 cps = Ok (concat (utf8_encode <$> cps)).
Proof. induction 1 as [| c cps Hc _ IH]; simpl; [done |]. by rewrite to_utf8_encode, IH. Qed.

(** ** Decoding what was encoded *)
Ltac cases_at H x := specialize (H x ltac:(lia)); cbv beta zeta in H; rewrite ?andb_true_iff, ?negb_true_iff, ?Z.eqb_eq in H; simpl; tauto.
Lemma cont_facts x : 0 <= x < 64 -> continues (Some (0x80 + x)) = true /\ low6 (Some (0x80 + x)) = x.
Proof.
  intros Hx. by_cases (fun x => continues (Some (0x80 + x)) && (low6 (Some (0x80 + x)) =? x)) 64%nat.
  cases_at H x.
Qed.
Lemma ascii_facts b : 0 <= b < 0x80 -> bit_clear b 0x80 = true.
Proof. intros Hb. by_cases (fun x => bit_clear x 0x80) 128%nat. apply H. lia. Qed.
Lemma lead2_facts x : 0 <= x < 32 -> let b := 0xC0 + x in
  bit_clear b 0x80 = false /\ bit_clear b 0x40 = false /\ bit_clear b 0x20 = true /\ Z.land b 0x1F = x.
Proof.
  intros Hx. by_cases (fun x => let b := 0xC0 + x in
    negb (bit_clear b 0x80) && negb (bit_clear b 0x40) && bit_clear b 0x20 && (Z.land b 0x1F =? x)) 32%nat.
  cases_at H x.
Qed.
Lemma lead3_facts x : 0 <= x < 16 -> let b := 0xE0 + x in
  bit_clear b 0x80 = false /\ bit_clear b 0x40 = false /\ bit_clear b 0x20 = false /\ bit_clear b 0x10 = true /\ Z.land b 0x0F = x.
Proof.
  intros Hx. by_cases (fun x => let b := 0xE0 + x in
    negb (bit_clear b 0x80) && negb (bit_clear b 0x40) && negb (bit_clear b 0x20) && bit_clear b 0x10 && (Z.land b 0x0F =? x)) 16%nat.
  cases_at H x.
Qed.
Lemma lead4_facts x : 0 <= x < 8 -> let b := 0xF0 + x in
  bit_clear b 0x80 = false /\ bit_clear b 0x40 = false /\ bit_clear b 0x20 = false /\ bit_clear b 0x10 = false /\
  bit_clear b 0x08 = true /\ Z.land b 0x07 = x.
Proof.
  intros Hx. by_cases (fun x => let b := 0xF0 + x in negb (bit_clear b 0x80) && negb (bit_clear b 0x40) &&
    negb (bit_clear b 0x20) && negb (bit_clear b 0x10) && bit_clear b 0x08 && (Z.land b 0x07 =? x)) 8%nat.
  cases_at H x.
Qed.

#[local] Arguments continues : simpl never.
#[local] Arguments low6 : simpl never.
(** joining six bits at a time *)
Lemma join6 c d e : 0 < d -> e = d * 64 -> c / e * 64 + c / d mod 64 = c / d.
Proof. intros ? ->. rewrite <- Z.div_div by lia. pose proof (Z.div_mod (c / d) 64). lia. Qed.

Lemma from_utf8_encode c t : codepoint c -> unicode_cpt_from_utf8 (utf8_encode c ++ t) = Ok (c, Zlen (utf8_encode c)).
Proof.
  intros [H0 H1]. unfold utf8_encode.
  pose proof (fun x => cont_facts (x mod 64) ltac:(apply Z.mod_pos_bound; lia)) as HC.
  destruct (Z.ltb_spec c 0x80); [| destruct (Z.ltb_spec c 0x800); [| destruct (Z.ltb_spec c 0x10000)]];
    unfold unicode_cpt_from_utf8; simpl app; unfold vget; simpl vlookup; simpl rbind.
  - by rewrite ascii_facts by lia.
  - destruct (lead2_facts (c / 64)) as (-> & -> & -> & ->); [apply div_range; lia |].
    simpl lookup. destruct (HC c) as [-> ->]. simpl. rewrite shift_or by (try lia; apply Z.mod_pos_bound; lia).
    f_equal. f_equal. pose proof (Z.div_mod c 64). lia.
  - destruct (lead3_facts (c / 4096)) as (-> & -> & -> & -> & ->); [apply div_range; lia |]. simpl lookup.
    destruct (HC (c / 64)) as [-> ->]. destruct (HC c) as [-> ->]. simpl.
    rewrite <- (Z.shiftl_shiftl _ 6 6), <- Z.shiftl_lor by lia.
    rewrite !shift_or by (try lia; apply Z.mod_pos_bound; lia). f_equal. f_equal. change (2 ^ 6) with 64.
    rewrite (join6 c 64 4096) by lia. pose proof (Z.div_mod c 64). lia.
  - destruct (lead4_facts (c / 262144)) as (-> & -> & -> & -> & -> & ->); [apply div_range; lia |]. simpl lookup.
    destruct (HC (c / 4096)) as [-> ->]. destruct (HC (c / 64)) as [-> ->]. destruct (HC c) as [-> ->]. simpl.
    change 18 with (12 + 6). change 12 with (6 + 6). rewrite <- !Z.shiftl_shiftl, <- !Z.shiftl_lor by lia.
    rewrite !shift_or by (try lia; apply Z.mod_pos_bound; lia). f_equal. f_equal. change (2 ^ 6) with 64.
    rewrite (join6 c 4096 262144), (join6 c 64 4096) by lia. pose proof (Z.div_mod c 64). lia.
Qed.

(** ** Whole strings *)
Lemma continues_lt (s : list Z) k : continues (s !! k) = true -> (k < length s)%nat.
Proof. destruct (s !! k) eqn:E; [| done]. intros _. by apply lookup_lt_Some in E. Qed.
Lemma from_utf8_size s c n : unicode_cpt_from_utf8 s = Ok (c, n) -> 1 <= n <= Zlen s.
Proof.
  destruct s as [| b s]; [done |]. unfold unicode_cpt_from_utf8. simpl rbind. unfold invalid.
  pose proof (continues_lt s) as Hl. unfold Zlen. simpl lookup. simpl length in *.
  repeat case_match; intros; simplify_eq; try lia;
    repeat match goal with H : _ || _ = false |- _ => apply orb_false_iff in H as [] | H : negb _ = false |- _ => apply negb_false_iff in H end;
    repeat match goal with H : continues _ = true |- _ => apply Hl in H end; lia.
Qed.
Lemma from_utf8_throws s e : s <> [] -> unicode_cpt_from_utf8 s = Err e -> exists m, e = Throw m.
Proof.
  destruct s as [| b s]; [done |]. intros _. unfold unicode_cpt_from_utf8, invalid. simpl.
  repeat case_match; intros; simplify_eq/=; eauto.
Qed.
Lemma cpts_loop_step fuel s out : s <> [] -> cpts_loop (S fuel) s out =
  match unicode_cpt_from_utf8 s with
  | Ok (c, n) => cpts_loop fuel (drop (Z.to_nat n) s) (out ++ [c])
  | Err (Throw _) => cpts_loop fuel (drop 1 s) (out ++ [0xFFFD])
  | Err e => Err e
  end.
Proof. by destruct s. Qed.
Lemma cpts_loop_ok fuel s out : (length s <= fuel)%nat -> exists cpts, cpts_loop fuel s out = Ok (out ++ cpts).
Proof.
  revert s out. induction fuel as [| fuel IH]; intros [| b s] out Hf; simpl in Hf; try lia; try (exists []; by rewrite app_nil_r).
  rewrite cpts_loop_step by done.
  destruct (unicode_cpt_from_utf8 (b :: s)) as [[c n] | e] eqn:E.
  - pose proof (from_utf8_size _ _ _ E). destruct (IH (drop (Z.to_nat n) (b :: s)) (out ++ [c])) as [cpts ->]; [rewrite length_drop; simpl; lia |].
    exists (c :: cpts). by rewrite <- app_assoc.
  - destruct (from_utf8_throws (b :: s) e ltac:(done) E) as [m ->]. destruct (IH (drop 1 (b :: s)) (out ++ [0xFFFD])) as [cpts ->]; [simpl; rewrite drop_0; lia |].
    exists (0xFFFD :: cpts). by rewrite <- app_assoc.
Qed.
Lemma cpts_from_utf8_ok s : exists cpts, unicode_cpts_from_utf8 s = Ok cpts.
Proof. unfold unicode_cpts_from_utf8. destruct (cpts_loop_ok (length s) s []) as [cpts ->]; [lia |]. by exists cpts. Qed.

Lemma utf8_encode_size c : (1 <= length (utf8_encode c) <= 4)%nat.
Proof. unfold utf8_encode. repeat case_match; simpl; lia. Qed.
Lemma cpts_loop_encode fuel cps out : Forall codepoint cps -> (length (concat (utf8_encode <$> cps)) <= fuel)%nat ->
  cpts_loop fuel (concat (utf8_encode <$> cps)) out = Ok (out ++ cps).
Proof.
  intros H. revert fuel out. induction H as [| c cps Hc _ IH]; intros fuel out Hf.
  { destruct fuel; simpl; by rewrite app_nil_r. }
  rewrite fmap_cons in *. cbn [concat] in *.
  pose proof (utf8_encode_size c) as Hs. rewrite length_app in Hf. destruct fuel as [| fuel]; [lia |].
  pose proof (from_utf8_encode c (concat (utf8_encode <$> cps)) Hc) as E.
  rewrite cpts_loop_step by (intros Es; apply (f_equal length) in Es; rewrite length_app in Es; simpl in Es; lia).
  rewrite E, drop_app_length' by (unfold Zlen; lia). rewrite IH by lia. by rewrite <- app_assoc.
Qed.
Lemma cpts_from_utf8_encode cps : Forall codepoint cps -> unicode_cpts_from_utf8 (concat (utf8_encode <$> cps)) = Ok cps.
Proof. intros. unfold unicode_cpts_from_utf8. by rewrite cpts_loop_encode. Qed.

(** ** The byte alphabet *)
Definition is_byte (b : Z) : Prop := 0 <= b < 256.
(** the code point that stands for a byte: the printable Latin-1 bytes stand for themselves *)
Definition byte_cpt (b : Z) : Z :=
  if (0x21 <=? b) && (b <=? 0x7E) || (0xA1 <=? b) && (b <=? 0xAC) || (0xAE <=? b) then b
  else if b <=? 0x20 then 256 + b
  else if b <=? 0xA0 then 256 + 33 + (b - 0x7F)
  else 256 + 67.
Lemma byte_cpt_range b : is_byte b -> codepoint (byte_cpt b).
Proof. unfold is_byte, codepoint, byte_cpt. intros. repeat case_match; lia. Qed.
Lemma byte_maps : exists m m', unicode_byte_to_utf8_map = Ok m /\ unicode_utf8_to_byte_map = Ok m' /\
  forall b, is_byte b -> m !! b = Some (utf8_encode (byte_cpt b)) /\ m' !! utf8_encode (byte_cpt b) = Some b.
Proof.
  set (P := fun (m : gmap Z (list Z)) (m' : gmap (list Z) Z) b =>
    bool_decide (m !! b = Some (utf8_encode (byte_cpt b))) && bool_decide (m' !! utf8_encode (byte_cpt b) = Some b)).
  assert (H : match unicode_byte_to_utf8_map, unicode_utf8_to_byte_map with
              | Ok m, Ok m' => forallb (P m m') (Z.of_nat <$> seq 0 256) | _, _ => false end = true) by (vm_compute; reflexivity).
  destruct unicode_byte_to_utf8_map as [m |]; [| done]. destruct unicode_utf8_to_byte_map as [m' |]; [| done].
  exists m, m'. do 2 (split; [done |]). intros b Hb. pose proof (small_cases _ 256 H b Hb) as E. unfold P in E.
  by rewrite andb_true_iff, !bool_decide_eq_true in E.
Qed.
Lemma byte_to_utf8_cpt b : is_byte b -> unicode_byte_to_utf8 b = Ok (utf8_encode (byte_cpt b)).
Proof. destruct byte_maps as (m & m' & E & _ & H). intros Hb. unfold unicode_byte_to_utf8, at_key. rewrite E. simpl. by destruct (H b Hb) as [-> _]. Qed.
Lemma utf8_to_byte_cpt b : is_byte b -> unicode_utf8_to_byte (utf8_encode (byte_cpt b)) = Ok b.
Proof. destruct byte_maps as (m & m' & _ & E & H). intros Hb. unfold unicode_utf8_to_byte, at_key. rewrite E. simpl. by destruct (H b Hb) as [_ ->]. Qed.
