(* ===== verification/SplitRegex.v ===== *)
(** * The splitters divide a text: every word is not empty, and the words of a part make the part

    Each round of a splitter's loop records words from the position it starts at to the position it
    ends at ([step_divides]); the loops over a part and over the parts follow for any such round. *)

From S2P Require Import Prelude Text Unicode UnicodeSplit UnicodeFacts.

Definition total (l : list Z) : Z := foldr Z.add 0 l.
Lemma total_app l k : total (l ++ k) = total l + total k.
Proof. induction l as [| x l IH]; simpl; [done | lia]. Qed.
(** lengths that divide a stretch of [n] *)
Definition divides (n : Z) (l : list Z) : Prop := Forall (fun x => 0 < x) l /\ total l = n.
Lemma divides_app n m l k : divides n l -> divides m k -> divides (n + m) (l ++ k).
Proof. intros [H1 H2] [H3 H4]. split; [by apply Forall_app |]. rewrite total_app. lia. Qed.
Lemma divides_one n : 0 < n -> divides n [n].
Proof. intros. split; [by repeat constructor | simpl; lia]. Qed.
Lemma divides_nil : divides 0 [].
Proof. split; [constructor | done]. Qed.
#[export] Hint Resolve divides_one divides_nil : iian.

(** the lengths [l] cut each length of [offsets] into pieces *)
Definition refines_parts (offsets l : list Z) : Prop := exists ls, l = concat ls /\ Forall2 divides offsets ls.
Lemma refines_parts_total offsets l : refines_parts offsets l -> total l = total offsets.
Proof.
  intros (ls & -> & H). induction H as [| n l ns ls [_ H] _ IH]; simpl; [done |]. rewrite total_app. lia.
Qed.

Section Part.
Context (D : unicode_data) (cpts : list Z) (a b : Z).
Notation get_cpt := (get_cpt cpts a b).
Notation get_flags := (get_flags D cpts a b).

(** ** Outside the part there is nothing *)
Lemma flags_outside pos : b <= pos -> get_flags pos = 0.
Proof. intros. unfold UnicodeSplit.get_flags, in_range. rewrite (proj2 (Z.ltb_ge pos b)) by lia. by rewrite andb_false_r. Qed.
Lemma cpt_outside pos : b <= pos -> get_cpt pos = OUT_OF_RANGE.
Proof. intros. unfold UnicodeSplit.get_cpt, in_range. rewrite (proj2 (Z.ltb_ge pos b)) by lia. by rewrite andb_false_r. Qed.
Lemma flag_outside (p : Z -> bool) : p 0 = false -> forall pos, b <= pos -> p (get_flags pos) = false.
Proof. intros H pos Hp. by rewrite flags_outside. Qed.
Lemma eol_outside pos : b <= pos -> eol (get_cpt pos) = false.
Proof. intros. by rewrite cpt_outside. Qed.
Lemma han_outside pos : b <= pos -> unicode_cpt_is_han (get_cpt pos) = false.
Proof. intros. by rewrite cpt_outside. Qed.

(** ** Scanning *)
Lemma scan_ok fuel p pos : (forall q, b <= q -> p q = false) -> pos <= b -> (Z.to_nat (b - pos) < fuel)%nat ->
  exists e, scan fuel p pos = Ok e /\ pos <= e <= b /\ (forall q, pos <= q < e -> p q = true) /\ p e = false.
Proof.
  intros Hp. revert pos. induction fuel as [| fuel IH]; intros pos Hb Hf; [lia |]. simpl. destruct (p pos) eqn:E.
  - destruct (Z.eq_dec pos b) as [-> |]; [rewrite Hp in E by lia; done |].
    destruct (IH (pos + 1)) as (e & -> & He & Hq & Hn); [lia | lia |]. exists e. split; [done |]. split; [lia |]. split; [| done].
    intros q Hq'. destruct (Z.eq_dec q pos) as [-> |]; [done |]. apply Hq. lia.
  - exists pos. repeat split; [lia | lia | intros; lia | done].
Qed.
Lemma scan_while_ok p pos : (forall q, b <= q -> p q = false) -> pos <= b ->
  exists e, scan_while b p pos = Ok e /\ pos <= e <= b /\ (forall q, pos <= q < e -> p q = true) /\ p e = false.
Proof. intros. unfold scan_while. apply scan_ok; [done | lia | lia]. Qed.
Lemma scan_progress (p : Z -> bool) pos e : p pos = true -> p e = false -> pos <= e -> pos < e.
Proof. intros H1 H2 H. destruct (Z.eq_dec pos e); [congruence | lia]. Qed.

Lemma add_token_ok prev out e : prev <= e <= b ->
  add_token b (prev, out) e = Ok (e - prev, (e, if 0 <? e - prev then out ++ [e - prev] else out)).
Proof. intros. unfold add_token. by rewrite (proj2 (Z.leb_le prev e)), (proj2 (Z.leb_le e b)) by lia. Qed.
Lemma add_to_ok pos out e : pos < e <= b -> add_to b (pos, out) e = Ok (e, (e, out ++ [e - pos])).
Proof. intros. unfold add_to. rewrite add_token_ok by lia. simpl. by rewrite (proj2 (Z.ltb_lt 0 (e - pos))) by lia. Qed.

Lemma contraction_range lower pos : pos <= b -> 0 <= contraction cpts a b lower pos /\ pos + contraction cpts a b lower pos <= b.
Proof. intros. unfold contraction. repeat case_match; lia. Qed.

Lemma blanks_ok fuel pos n last : 0 <= n -> pos + n <= b -> (Z.to_nat (b - (pos + n)) < fuel)%nat ->
  (last = 0 \/ pos < last <= pos + n) ->
  exists m l, blanks D cpts a b fuel pos n last = Ok (m, l) /\ n <= m /\ pos + m <= b /\ (l = 0 \/ pos < l <= pos + m) /\ white_at D cpts a b (pos + m) = false /\
    (forall k, n <= k < m -> white_at D cpts a b (pos + k) = true).
Proof.
  revert n last. induction fuel as [| fuel IH]; intros n last H0 Hb Hf Hl; [lia |]. simpl. destruct (white_at _ _ _ _ _) eqn:E.
  - assert (pos + n < b).
    { destruct (Z.eq_dec (pos + n) b) as [Eq |]; [| lia]. unfold white_at in E. rewrite flags_outside in E by lia. done. }
    edestruct (IH (n + 1) (if eol (get_cpt (pos + n)) then pos + n + 1 else last)) as (m & l & -> & ? & ? & ? & ? & Hw); [lia | lia | lia | case_match; lia |].
    exists m, l. repeat split; try done; try lia. intros k Hk. destruct (Z.eq_dec k n) as [-> |]; [done |]. apply Hw. lia.
  - exists n, last. repeat split; try done; try lia.
Qed.
Lemma count_blanks_ok pos : pos <= b -> exists m l, count_blanks D cpts a b pos = Ok (m, l) /\ 0 <= m /\ pos + m <= b /\ (l = 0 \/ pos < l <= pos + m) /\
  white_at D cpts a b (pos + m) = false /\ (forall k, 0 <= k < m -> white_at D cpts a b (pos + k) = true).
Proof. intros. unfold count_blanks. apply blanks_ok; lia. Qed.

(** ** One round of each splitter *)
(** from [pos], words up to the position returned *)
Definition divides_from (pos : Z) (out : list Z) (r : res (Z * recorder)) : Prop :=
  exists pos' new, r = Ok (pos', (pos', out ++ new)) /\ pos < pos' <= b /\ divides (pos' - pos) new.
Definition step_divides (step1 : Z -> recorder -> res (Z * recorder)) : Prop :=
  forall pos out, a <= pos < b -> divides_from pos out (step1 pos (pos, out)).

Lemma add_to_divides pos out e : pos < e <= b -> divides_from pos out (add_to b (pos, out) e).
Proof. intros. exists e, [e - pos]. rewrite add_to_ok by lia. repeat split; try lia; [repeat constructor; lia | simpl; lia]. Qed.
Lemma scan_divides p start pos out : (forall q, b <= q -> p q = false) -> pos <= start <= b -> (p start = true \/ pos < start) ->
  divides_from pos out (let! e := scan_while b p start in add_to b (pos, out) e).
Proof.
  intros Hp Hs Hw. destruct (scan_while_ok p start Hp ltac:(lia)) as (e & -> & He & _ & Hf). simpl. apply add_to_divides.
  destruct Hw as [Hw | Hw]; [pose proof (scan_progress p start e Hw Hf ltac:(lia)) |]; lia.
Qed.
Lemma contraction_divides lower pos out : a <= pos < b -> 0 < contraction cpts a b lower pos ->
  divides_from pos out (let! (len, st) := add_token b (pos, out) (pos + contraction cpts a b lower pos) in Ok (pos + len, st)).
Proof.
  intros H Hk. pose proof (contraction_range lower pos ltac:(lia)). set (k := contraction _ _ _ _ _) in *.
  rewrite add_token_ok by lia. simpl. replace (pos + (pos + k - pos)) with (pos + k) by lia.
  exists (pos + k), [pos + k - pos]. rewrite (proj2 (Z.ltb_lt 0 (pos + k - pos))) by lia. repeat split; try lia; [repeat constructor; lia | simpl; lia].
Qed.
Lemma spaces_divides n pos out : a <= pos < b -> 0 <= n -> pos + n <= b -> divides_from pos out (spaces_or_one cpts a b n pos (pos, out)).
Proof. intros. unfold spaces_or_one. repeat case_match; apply add_to_divides; lia. Qed.
Lemma blanks_step_divides : step_divides (blanks_step D cpts a b).
Proof.
  intros pos out H. unfold blanks_step. destruct (count_blanks_ok pos ltac:(lia)) as (m & l & -> & ? & ? & ? & _). simpl.
  case_match; [apply add_to_divides | apply spaces_divides]; lia.
Qed.
Lemma step_of_bool (c : bool) : 0 <= Z.b2z c <= 1.
Proof. destruct c; simpl; lia. Qed.

Lemma other_outside : other 0 = false.
Proof. done. Qed.
Lemma gpt2_divides : step_divides (gpt2_step D cpts a b).
Proof.
  intros pos out H. unfold gpt2_step. destruct (Z.ltb_spec 0 (contraction cpts a b (fun c => c) pos)); [by apply contraction_divides |].
  set (sp := get_cpt pos =? ch " "). pose proof (step_of_bool sp).
  assert (Hf : forall p : Z -> bool, p (if sp then get_flags (pos + 1) else get_flags pos) = true -> p (get_flags (pos + Z.b2z sp)) = true)
    by (intros p; destruct sp; simpl; rewrite ?Z.add_0_r; done).
  destruct (is_letter _) eqn:E1; [| destruct (is_number _) eqn:E2; [| destruct (other _) eqn:E3] ].
  - apply scan_divides; [by apply (flag_outside is_letter) | lia | left; by apply Hf].
  - apply scan_divides; [by apply (flag_outside is_number) | lia | left; by apply Hf].
  - apply scan_divides; [by apply (flag_outside other) | lia | left; by apply Hf].
  - destruct (scan_while_ok (white_at D cpts a b) pos) as (e & -> & He & _); [by apply (flag_outside is_whitespace) | lia |]. simpl.
    apply spaces_divides; lia.
Qed.

(** digits: words of three, the last one shorter *)
Lemma digits_loop_divides fuel ini prev pos out new0 : a <= pos -> pos <= b -> (Z.to_nat (b - pos) < fuel)%nat -> prev = ini -> ini <= pos -> pos - ini < 3 ->
  (pos = ini -> new0 = [] -> number_at D cpts a b pos = true) -> forall s0, s0 <= ini -> divides (ini - s0) new0 ->
  divides_from s0 out (digits_loop D cpts a b fuel ini pos (prev, out ++ new0)).
Proof.
  revert ini prev pos new0. induction fuel as [| fuel IH]; intros ini prev pos new0 Ha Hb Hf -> Hi H3 Hn s0 Hs Hd; [lia |]. cbn [digits_loop].
  destruct (number_at D cpts a b pos) eqn:E.
  - assert (pos < b) by (destruct (Z.eq_dec pos b) as [-> |]; [unfold number_at in E; rewrite flags_outside in E by lia; done | lia]).
    destruct (Z.leb_spec 3 (pos + 1 - ini)).
    + rewrite add_token_ok by lia. simpl. rewrite (proj2 (Z.ltb_lt 0 (pos + 1 - ini))) by lia. rewrite <- app_assoc.
      apply IH; try lia; [intros _ []%app_nil; done |]. replace (pos + 1 - s0) with (ini - s0 + (pos + 1 - ini)) by lia.
      apply divides_app; [done | apply divides_one; lia].
    + apply IH; try lia; done.
  - unfold add_to. rewrite add_token_ok by lia. simpl. destruct (Z.ltb_spec 0 (pos - ini)).
    + rewrite <- app_assoc. exists pos, (new0 ++ [pos - ini]). split; [done |]. split; [lia |].
      replace (pos - s0) with (ini - s0 + (pos - ini)) by lia. apply divides_app; [done | apply divides_one; lia].
    + assert (pos = ini) as -> by lia. exists ini, new0. split; [done |]. split; [| done]. destruct Hd as [Hp Ht].
      destruct new0 as [| x l]; [by specialize (Hn eq_refl eq_refl) |]. apply Forall_cons in Hp as [Hx Hp]. simpl in Ht.
      assert (0 <= total l) by (clear -Hp; induction Hp; simpl; lia). lia.
Qed.
Lemma three_digits_divides pos out : a <= pos < b -> number_at D cpts a b pos = true ->
  divides_from pos out (three_digits D cpts a b pos (pos, out)).
Proof.
  intros. unfold three_digits. pose proof (digits_loop_divides (S (Z.to_nat (b - pos))) pos pos pos out []) as G. rewrite app_nil_r in G.
  apply G; try lia; try done. rewrite Z.sub_diag. apply divides_nil.
Qed.
Lemma one_digit_divides pos out : a <= pos < b -> divides_from pos out (one_digit b pos (pos, out)).
Proof. intros. apply add_to_divides. lia. Qed.

Lemma symbols_run_divides others pos out : a <= pos < b -> others 0 = false ->
  (get_cpt pos <> ch " " -> others (get_flags pos) = true) -> divides_from pos out (symbols_run D cpts a b others pos (pos, out)).
Proof.
  intros H H0 Hs. unfold symbols_run. set (sp := get_cpt pos =? ch " ") in *. pose proof (step_of_bool sp).
  destruct (scan_while_ok (fun p => others (get_flags p)) (pos + Z.b2z sp)) as (e & -> & He & _ & Hf); [by apply flag_outside | lia |]. simpl.
  apply scan_divides; [apply eol_outside | |]; assert (pos < e); try lia.
  all: destruct (Z.eqb_spec (get_cpt pos) (ch " ")) as [Eq | Ne]; subst sp; simpl in *; [lia |]; rewrite Z.add_0_r in *.
  all: pose proof (scan_progress (fun p => others (get_flags p)) pos e (Hs Ne) Hf ltac:(lia)); lia.
Qed.
Lemma words_divides word digits : word 0 = false ->
  (forall pos out, a <= pos < b -> number_at D cpts a b pos = true -> divides_from pos out (digits pos (pos, out))) ->
  step_divides (words_step D cpts a b word digits).
Proof.
  intros Hw Hd pos out H. unfold words_step. destruct (Z.ltb_spec 0 (contraction cpts a b (unicode_tolower D) pos)); [by apply contraction_divides |].
  case_match; [apply scan_divides; [by apply flag_outside | lia | right; lia] |].
  case_match eqn:En; [by apply Hd |]. case_match eqn:Es; [| by apply blanks_step_divides].
  apply symbols_run_divides; [done | by rewrite Hw | intros Hne]. rewrite (proj2 (Z.eqb_neq _ _) Hne) in Es. done.
Qed.
Lemma llama3_divides : step_divides (llama3_step D cpts a b).
Proof. apply words_divides; [done | apply three_digits_divides]. Qed.
Lemma qwen2_divides : step_divides (qwen2_step D cpts a b).
Proof. apply words_divides; [done |]. intros. by apply one_digit_divides. Qed.
Lemma qwen35_divides : step_divides (qwen35_step D cpts a b).
Proof. apply words_divides; [done |]. intros. by apply one_digit_divides. Qed.

Lemma plain_letter_outside pos : b <= pos -> plain_letter_at D cpts a b pos = false.
Proof. intros. unfold plain_letter_at, letter_at. by rewrite flags_outside. Qed.
Lemma kimi_rest_divides : step_divides (kimi_rest D cpts a b).
Proof.
  intros pos out H. unfold kimi_rest. case_match eqn:En; [by apply three_digits_divides |]. case_match eqn:Es; [| by apply blanks_step_divides].
  apply symbols_run_divides; [done | done |]. intros Hne. by rewrite (proj2 (Z.eqb_neq _ _) Hne) in Es.
Qed.
Lemma letters_word_divides pos out : a <= pos < b ->
  letters_word D cpts a b pos (pos, out) = Ok None \/ exists r, letters_word D cpts a b pos (pos, out) = Ok (Some r) /\ divides_from pos out (Ok r).
Proof.
  intros H. unfold letters_word. set (lead := negb _). set (start := if lead then pos + 1 else pos).
  assert (Hst : pos <= start <= b) by (subst start; destruct lead; lia). clearbody start lead.
  destruct (scan_while_ok (plain_letter_at D cpts a b) start plain_letter_outside ltac:(lia)) as (e & -> & He & _ & Hf). simpl.
  destruct (_ || _) eqn:E; [right | by left].
  set (e' := if start <? e then e else e + 1).
  assert (He' : pos < e' <= b).
  { subst e'. destruct (Z.ltb_spec start e) as [| Hge]; [lia |]. exfalso. by rewrite Hf, andb_false_r in E. }
  destruct (scan_while_ok (plain_letter_at D cpts a b) e' plain_letter_outside ltac:(lia)) as (f & -> & Hef & _). simpl.
  pose proof (contraction_range (unicode_tolower D) f ltac:(lia)).
  destruct (add_to_divides pos out (f + contraction cpts a b (unicode_tolower D) f) ltac:(lia)) as (p' & new & -> & Hd). simpl.
  eexists. split; [done |]. by exists p', new.
Qed.
Lemma kimi_k2_divides : step_divides (kimi_k2_step D cpts a b).
Proof.
  intros pos out H. unfold kimi_k2_step. case_match eqn:Eh; [apply scan_divides; [apply han_outside | lia | by left] |].
  case_match; [| by apply kimi_rest_divides].
  destruct (letters_word_divides pos out H) as [-> | (r & -> & Hr)]; simpl; [by apply kimi_rest_divides | done].
Qed.
End Part.

(** ** The loop over a part *)
Section Loops.
Context (D : unicode_data) (cpts : list Z) (a b : Z).

Lemma part_loop_divides step1 fuel pos out : step_divides a b step1 -> a <= pos <= b -> (Z.to_nat (b - pos) <= fuel)%nat ->
  exists new, part_loop b fuel step1 pos (pos, out) = Ok (b, out ++ new) /\ divides (b - pos) new.
Proof.
  intros Hs. revert pos out. induction fuel as [| fuel IH]; intros pos out Hp Hf; simpl; destruct (Z.leb_spec b pos); try lia.
  1,2: assert (pos = b) as -> by lia; exists []; rewrite app_nil_r, Z.sub_diag; by auto with iian.
  destruct (Hs pos out ltac:(lia)) as (pos' & new & -> & Hlt & Hd). simpl.
  destruct (IH pos' (out ++ new) ltac:(lia) ltac:(lia)) as (new' & -> & Hd'). exists (new ++ new'). rewrite <- app_assoc. split; [done |].
  replace (b - pos) with (pos' - pos + (b - pos')) by lia. by apply divides_app.
Qed.
Lemma split_part_divides step1 out : step_divides a b step1 -> a <= b -> exists new, split_part a b step1 out = Ok (out ++ new) /\ divides (b - a) new.
Proof.
  intros Hs Hab. unfold split_part. destruct (part_loop_divides step1 (Z.to_nat (b - a)) a out Hs ltac:(lia) ltac:(lia)) as (new & -> & Hd). by exists new.
Qed.

(** what afmoe has recorded up to [prev] *)
Definition recorded (out : list Z) (prev : Z) (st : recorder) : Prop := exists new, st = (prev, out ++ new) /\ divides (prev - a) new.
Lemma add_token_recorded out prev st e : recorded out prev st -> prev < e <= b -> exists len st', add_token b st e = Ok (len, st') /\ recorded out e st'.
Proof.
  intros (new & -> & Hd) He. rewrite add_token_ok, (proj2 (Z.ltb_lt 0 (e - prev))) by lia. eexists _, _. split; [done |].
  exists (new ++ [e - prev]). rewrite app_assoc. split; [done |]. replace (e - a) with (prev - a + (e - prev)) by lia.
  apply divides_app; [done | apply divides_one; lia].
Qed.
Lemma groups_recorded out fuel prev current e st : recorded out prev st -> prev <= current <= e -> e <= b -> (e - current) mod 3 = 0 -> (Z.to_nat (e - current) < fuel)%nat ->
  exists st' prev', groups_of_3 b fuel current e st = Ok st' /\ recorded out prev' st' /\ prev <= prev' <= e.
Proof.
  revert prev current st. induction fuel as [| fuel IH]; intros prev current st Hr Hp He Hm Hf; [lia |]. cbn [groups_of_3].
  destruct (Z.ltb_spec current e); [| exists st, prev; repeat split; try done; lia].
  assert (current + 3 <= e) by (pose proof (Z.div_mod (e - current) 3); lia).
  destruct (add_token_recorded out prev st (current + 3) Hr ltac:(lia)) as (len & st' & -> & Hr'). simpl.
  destruct (IH (current + 3) (current + 3) st') as (st2 & p2 & -> & Hr2 & ?); try done; try lia.
  - replace (e - (current + 3)) with (e - current + (-1) * 3) by lia. by rewrite Z.mod_add.
  - exists st2, p2. repeat split; try done; lia.
Qed.
Lemma afmoe_step_recorded out prev pos st : recorded out prev st -> a <= prev <= pos -> a <= pos < b ->
  exists pos' prev' st', afmoe_step D cpts a b pos st = Ok (pos', st') /\ recorded out prev' st' /\ a <= prev' <= pos' /\ pos < pos' <= b.
Proof.
  intros Hr Hp Hb. unfold afmoe_step. destruct (number_at D cpts a b pos) eqn:En; [| exists (pos + 1), prev, st; repeat split; try done; lia].
  set (p := fun q => number_at D cpts a b q && (q <? b)).
  destruct (scan_while_ok b p pos) as (e & -> & He & _ & Hf); [intros q Hq; subst p; simpl; rewrite (proj2 (Z.ltb_ge q b)) by lia; apply andb_false_r | lia |].
  cbn [rbind]. assert (pos < e).
  { apply (scan_progress p pos e); [| done | lia]. subst p. simpl. rewrite En. simpl. apply Z.ltb_lt. lia. }
  pose proof (Z.mod_pos_bound (e - pos) 3 ltac:(lia)). pose proof (Z.mod_le (e - pos) 3 ltac:(lia) ltac:(lia)). set (r := (e - pos) mod 3) in *.
  assert (Hg : (pos + (e - pos) - (pos + r)) mod 3 = 0).
  { replace (pos + (e - pos) - (pos + r)) with (3 * ((e - pos) / 3)) by (subst r; pose proof (Z.div_mod (e - pos) 3); lia).
    rewrite Z.mul_comm. by apply Z.mod_mul. }
  destruct (Z.ltb_spec 0 r).
  - destruct (add_token_recorded out prev st (pos + r) Hr ltac:(lia)) as (len & st' & -> & Hr'). cbn [rbind].
    destruct (groups_recorded out (S (Z.to_nat (e - pos))) (pos + r) (pos + r) (pos + (e - pos)) st') as (st2 & p2 & -> & Hr2 & ?); try done; try lia.
    simpl. exists e, p2, st2. repeat split; try done; lia.
  - cbn [rbind]. destruct (groups_recorded out (S (Z.to_nat (e - pos))) prev (pos + r) (pos + (e - pos)) st) as (st2 & p2 & -> & Hr2 & ?); try done; try lia.
    simpl. exists e, p2, st2. repeat split; try done; lia.
Qed.
Lemma afmoe_loop_recorded out fuel prev pos st : recorded out prev st -> a <= prev <= pos -> a <= pos <= b -> (Z.to_nat (b - pos) <= fuel)%nat ->
  exists prev' st', part_loop b fuel (afmoe_step D cpts a b) pos st = Ok st' /\ recorded out prev' st' /\ a <= prev' <= b.
Proof.
  revert prev pos st. induction fuel as [| fuel IH]; intros prev pos st Hr Hp Hb Hf; cbn [part_loop]; destruct (Z.leb_spec b pos); try lia.
  1,2: exists prev, st; repeat split; try done; lia.
  destruct (afmoe_step_recorded out prev pos st Hr ltac:(lia) ltac:(lia)) as (pos' & prev' & st' & -> & Hr' & ? & ?). simpl.
  apply (IH prev' pos' st'); try done; lia.
Qed.
Lemma afmoe_divides out : a <= b -> exists new, split_part_afmoe D cpts a b out = Ok (out ++ new) /\ divides (b - a) new.
Proof.
  intros Hab. unfold split_part_afmoe.
  destruct (afmoe_loop_recorded out (Z.to_nat (b - a)) a a (a, out)) as (prev & st & -> & Hr & Hp); try lia.
  { exists []. by rewrite app_nil_r, Z.sub_diag. }
  pose proof Hr as (new & -> & Hd). cbn [rbind]. destruct (Z.ltb_spec prev b).
  - destruct (add_token_recorded out prev _ b Hr ltac:(lia)) as (len & st' & -> & (new' & -> & Hd')). simpl. by exists new'.
  - exists new. split; [done |]. by replace b with prev by lia.
Qed.

Lemma newline_loop_divides fuel pos out : 0 <= a <= pos -> pos <= b <= Zlen cpts -> (Z.to_nat (b - pos) <= fuel)%nat ->
  exists new, newline_loop cpts a b fuel pos out = Ok (out ++ new) /\ divides (b - pos) new.
Proof.
  revert pos out. induction fuel as [| fuel IH]; intros pos out Ha Hb Hf; cbn [newline_loop]; destruct (Z.leb_spec b pos); try lia.
  1,2: assert (pos = b) as -> by lia; exists []; rewrite app_nil_r, Z.sub_diag; by auto with iian.
  destruct (vlookup_lt_is_Some cpts pos ltac:(lia)) as [c Hc]. rewrite (proj2 (vget_Ok cpts pos c) Hc). simpl.
  set (p := fun q => (q <? b) && Bool.eqb (get_cpt cpts a b q =? newline) (c =? newline)).
  destruct (scan_while_ok b p pos) as (e & -> & He & _ & Hn); [intros q Hq; subst p; simpl; by rewrite (proj2 (Z.ltb_ge q b)) by lia | lia |]. simpl.
  assert (pos < e).
  { apply (scan_progress p pos e); [| done | lia]. subst p. simpl. unfold get_cpt, in_range.
    rewrite (proj2 (Z.ltb_lt pos b)), (proj2 (Z.leb_le a pos)), Hc by lia. simpl. apply eqb_reflx. }
  destruct (IH e (out ++ [e - pos]) ltac:(lia) ltac:(lia) ltac:(lia)) as (new & -> & Hd). exists ([e - pos] ++ new). rewrite app_assoc. split; [done |].
  replace (b - pos) with (e - pos + (b - e)) by lia. apply divides_app; [apply divides_one; lia | done].
Qed.
End Loops.

(** ** The loop over the parts *)
Definition splitter_divides (split1 : part_splitter) : Prop := forall cpts a b out, 0 <= a <= b -> b <= Zlen cpts ->
  exists new, split1 cpts a b out = Ok (out ++ new) /\ divides (b - a) new.
Lemma parts_loop_divides split1 cpts offsets start out : splitter_divides split1 -> Forall (fun n => 0 <= n) offsets -> 0 <= start -> start + total offsets <= Zlen cpts ->
  exists new, parts_loop split1 cpts offsets start out = Ok (out ++ new) /\ refines_parts offsets new.
Proof.
  intros Hs Ho. revert start out. induction Ho as [| n ns Hn Hns IH]; intros start out H0 Ht; cbn [parts_loop]; simpl total in Ht.
  { exists []. rewrite app_nil_r. split; [done |]. by exists []. }
  assert (0 <= total ns) by (clear -Hns; induction Hns; simpl; lia).
  rewrite (proj2 (Z.leb_le (start + n) (Zlen cpts))) by lia. destruct (Hs cpts start (start + n) out ltac:(lia) ltac:(lia)) as (new & -> & Hd). cbn [rbind].
  destruct (IH (start + n) (out ++ new) ltac:(lia) ltac:(lia)) as (new' & -> & (ls & -> & Hf)). exists (new ++ concat ls). rewrite <- app_assoc. split; [done |].
  exists (new :: ls). split; [done |]. constructor; [| done]. by replace (start + n - start) with n in Hd by lia.
Qed.
Lemma split_with_divides split1 text cpts offsets : splitter_divides split1 -> unicode_cpts_from_utf8 text = Ok cpts ->
  Forall (fun n => 0 <= n) offsets -> total offsets = Zlen cpts -> exists l, split_with split1 text offsets = Ok l /\ refines_parts offsets l.
Proof.
  intros Hs E Ho Ht. unfold split_with. rewrite E. simpl. destruct (parts_loop_divides split1 cpts offsets 0 [] Hs Ho ltac:(lia) ltac:(lia)) as (l & -> & H). by exists l.
Qed.

(** * The expressions behind the hand-written splitters

    A reference semantics for the regular expressions in the comments of unicode.cpp (greedy
    repetition of a class, alternatives in order, a negative look-ahead), with the matches in the
    order a backtracking engine tries them, and the proof that one round of each splitter takes the
    first match. *)

(** ** Expressions and their matches: what is left of the text after each, the preferred one first *)
Inductive regex :=
| Rep (p : Z -> bool) (lo : nat) (hi : option nat)
| Seq (r1 r2 : regex)
| Alt (r1 r2 : regex)
| NotAhead (p : Z -> bool).
Definition Star p := Rep p 0 None.
Definition Plus p := Rep p 1 None.
Definition Opt p := Rep p 0 (Some 1%nat).
Definition One p := Rep p 1 (Some 1%nat).
Definition Chr c := One (fun x => x =? c).

(** after runs of at most [n] characters, the longest first *)
Fixpoint run_rests (p : Z -> bool) (n : nat) (s : list Z) : list (list Z) :=
  match n, s with
  | S n, c :: s' => if p c then run_rests p n s' ++ [s] else [s]
  | _, _ => [s]
  end.
Fixpoint rests (r : regex) (s : list Z) : list (list Z) :=
  match r with
  | Rep p lo hi => let l := run_rests p (default (length s) hi) s in take (length l - lo) l
  | Seq r1 r2 => concat (rests r2 <$> rests r1 s)
  | Alt r1 r2 => rests r1 s ++ rests r2 s
  | NotAhead p => match s with c :: _ => if p c then [] else [s] | [] => [s] end
  end.
Definition regex_first (r : regex) (s : list Z) : option (list Z) := head (rests r s).

(** the words of a text: successive first matches, none of them empty *)
Fixpoint words_by (fuel : nat) (r : regex) (s : list Z) : option (list Z) :=
  match s, fuel with
  | [], _ => Some []
  | _, O => None
  | _, S fuel =>
      s' ← regex_first r s;
      if (length s' <? length s)%nat then cons (Zlen s - Zlen s') <$> words_by fuel r s' else None
  end.

(** ** The expressions *)
Section Expressions.
Context (D : unicode_data).
Definition flags (c : Z) : Z := unicode_cpt_flags_from_cpt D c.
Definition L (c : Z) : bool := is_letter (flags c).
Definition N' (c : Z) : bool := is_number (flags c).
Definition W (c : Z) : bool := is_whitespace (flags c).
Definition LM (c : Z) : bool := letter_or_mark (flags c).
Definition none_of (ps : list (Z -> bool)) (c : Z) : bool := negb (existsb (fun p => p c) ps).
Definition is_space (c : Z) : bool := c =? ch " ".
(** 's|'t|'re|'ve|'m|'ll|'d, case folded by [lower] *)
Definition contractions (lower : Z -> Z) : regex :=
  let c a := One (fun x => lower x =? a) in
  let q r := Seq (Chr (ch "'")) r in
  Alt (q (One (fun x => (lower x =? ch "s") || (lower x =? ch "t") || (lower x =? ch "m") || (lower x =? ch "d"))))
   (Alt (q (Seq (c (ch "r")) (c (ch "e")))) (Alt (q (Seq (c (ch "v")) (c (ch "e")))) (q (Seq (c (ch "l")) (c (ch "l")))))).
(** \s+(?!\S)|\s+ *)
Definition spaces : regex := Alt (Seq (Plus W) (NotAhead (none_of [W]))) (Plus W).

(** 's|'t|'re|'ve|'m|'ll|'d| ?\p{L}+| ?\p{N}+| ?[^\s\p{L}\p{N}]+|\s+(?!\S)|\s+ *)
Definition gpt2_regex : regex :=
  Alt (contractions (fun c => c)) (Alt (Seq (Opt is_space) (Plus L)) (Alt (Seq (Opt is_space) (Plus N'))
    (Alt (Seq (Opt is_space) (Plus (none_of [W; L; N']))) spaces))).
(** (?i:'s|'t|'re|'ve|'m|'ll|'d)|[^\r\n\p{L}\p{N}]?\p{L}+|\p{N}{1,3}| ?[^\s\p{L}\p{N}]+[\r\n]*|\s*[\r\n]+|\s+(?!\S)|\s+,
    with [word] for the class of a word and [most] for the longest run of digits *)
Definition words_regex (word : Z -> bool) (most : nat) : regex :=
  Alt (contractions (unicode_tolower D)) (Alt (Seq (Opt (none_of [eol; L; N'])) (Plus word)) (Alt (Rep N' 1 (Some most))
    (Alt (Seq (Opt is_space) (Seq (Plus (none_of [W; word; N'])) (Star eol))) (Alt (Seq (Star W) (Plus eol)) spaces)))).
Definition llama3_regex : regex := words_regex L 3.
Definition qwen2_regex : regex := words_regex L 1.
Definition qwen35_regex : regex := words_regex LM 1.

(** what the tables say of a character: it has flags, one class, blanks are white space and the
    apostrophe is no number *)
Definition one_of (a b c d : bool) : bool :=
  negb (a && b) && negb (a && c) && negb (a && d) && negb (b && c) && negb (b && d) && negb (c && d).
Definition plain (c : Z) : bool :=
  (0 <=? c) && (c <=? 0x10FFFF) && negb (flags c =? 0) && one_of (L c) (N' c) (W c) (is_accent_mark (flags c)) &&
  implb (is_space c || eol c) (W c) && negb ((c =? ch "'") && N' c).
End Expressions.

(** ** First matches *)
(** the number of leading characters of a class *)
Fixpoint run (p : Z -> bool) (s : list Z) : nat := match s with c :: s => if p c then S (run p s) else O | [] => O end.
Lemma run_le p s : (run p s <= length s)%nat.
Proof. induction s as [| c s IH]; simpl; [lia |]. case_match; lia. Qed.
Lemma run_rests_length p n s : length (run_rests p n s) = S (Nat.min n (run p s)).
Proof.
  revert s. induction n as [| n IH]; intros [| c s]; simpl; try done. destruct (p c); [| simpl; lia]. rewrite length_app, IH. simpl. lia.
Qed.
Lemma run_rests_lookup p n s i : (i <= Nat.min n (run p s))%nat -> run_rests p n s !! i = Some (drop (Nat.min n (run p s) - i) s).
Proof.
  revert s i. induction n as [| n IH]; intros s i Hi; [assert (i = O) as -> by lia; by destruct s |].
  destruct s as [| c s]; simpl in *; [by assert (i = O) as -> by lia |]. destruct (p c) eqn:E; simpl in *; [| by assert (i = O) as -> by lia].
  destruct (decide (i <= Nat.min n (run p s))%nat).
  - rewrite lookup_app_l by (rewrite run_rests_length; lia). rewrite IH by done. by rewrite Nat.sub_succ_l by lia.
  - assert (i = S (Nat.min n (run p s))) as -> by lia. rewrite lookup_app_r by (rewrite run_rests_length; lia).
    rewrite run_rests_length, !Nat.sub_diag. done.
Qed.
Lemma rep_match p lo hi s : let k := Nat.min (default (length s) hi) (run p s) in
  regex_first (Rep p lo hi) s = if (lo <=? k)%nat then Some (drop k s) else None.
Proof.
  intros k. unfold regex_first. simpl. rewrite head_lookup, run_rests_length. fold k. destruct (Nat.leb_spec lo k).
  - rewrite lookup_take_lt by lia. rewrite run_rests_lookup by lia. fold k. by rewrite Nat.sub_0_r.
  - replace (S k - lo)%nat with O by lia. done.
Qed.

Fixpoint first_some {A B} (f : A -> option B) (l : list A) : option B :=
  match l with [] => None | x :: l => match f x with Some y => Some y | None => first_some f l end end.
Lemma seq_match r1 r2 s : regex_first (Seq r1 r2) s = first_some (regex_first r2) (rests r1 s).
Proof.
  unfold regex_first. simpl. induction (rests r1 s) as [| x l IH]; simpl; [done |]. rewrite <- IH.
  by destruct (rests r2 x).
Qed.
Lemma alt_match r1 r2 s : regex_first (Alt r1 r2) s = match regex_first r1 s with Some x => Some x | None => regex_first r2 s end.
Proof. unfold regex_first. simpl. by destruct (rests r1 s). Qed.
Lemma plus_match p s : regex_first (Plus p) s = if (0 <? run p s)%nat then Some (drop (run p s) s) else None.
Proof. unfold Plus. rewrite rep_match. simpl default. rewrite Nat.min_r by apply run_le. by destruct (run p s). Qed.
Lemma star_match p s : regex_first (Star p) s = Some (drop (run p s) s).
Proof. unfold Star. rewrite rep_match. simpl default. by rewrite Nat.min_r by apply run_le. Qed.
Lemma one_rests p s : rests (One p) s = match s with c :: s' => if p c then [s'] else [] | [] => [] end.
Proof. destruct s as [| c s]; simpl; [done |]. by destruct (p c), s. Qed.
Lemma one_match p s : regex_first (One p) s = match s with c :: s' => if p c then Some s' else None | [] => None end.
Proof. unfold regex_first. rewrite one_rests. destruct s; [done |]. by case_match. Qed.
Lemma opt_rests p s : rests (Opt p) s = match s with c :: s' => if p c then [s'; s] else [s] | [] => [[]] end.
Proof. destruct s as [| c s]; simpl; [done |]. by destruct (p c), s. Qed.
(** an optional character before [r]: taken if [r] goes on after it *)
Lemma opt_match p r s : regex_first (Seq (Opt p) r) s =
  match s with
  | c :: s' => if p c then match regex_first r s' with Some x => Some x | None => regex_first r s end else regex_first r s
  | [] => regex_first r []
  end.
Proof. rewrite seq_match, opt_rests. destruct s as [| c s]; simpl; [by case_match |]. destruct (p c); simpl; by repeat case_match. Qed.

(** the length of a contraction *)
Definition contraction_len (lower : Z -> Z) (s : list Z) : nat :=
  match s with
  | c :: c1 :: s =>
      if c =? ch "'" then
        let n := lower c1 in
        if (n =? ch "s") || (n =? ch "t") || (n =? ch "m") || (n =? ch "d") then 2%nat
        else match s with
             | c2 :: _ => let n2 := lower c2 in
                 if ((n =? ch "r") && (n2 =? ch "e")) || ((n =? ch "v") && (n2 =? ch "e")) || ((n =? ch "l") && (n2 =? ch "l")) then 3%nat else O
             | [] => O
             end
      else O
  | _ => O
  end.
Lemma contractions_match lower s : regex_first (contractions lower) s =
  if (0 <? contraction_len lower s)%nat then Some (drop (contraction_len lower s) s) else None.
Proof.
  unfold contractions, Chr. rewrite !alt_match, !seq_match, !one_rests.
  destruct s as [| c [| c1 s] ]; cbn [contraction_len first_some]; [done | by destruct (c =? ch "'") |].
  destruct (c =? ch "'"); [| done]. cbn [first_some]. rewrite one_match, !seq_match, !one_rests.
  destruct (_ || (lower c1 =? ch "d")); [done |].
  destruct s as [| c2 s].
  { destruct (lower c1 =? ch "r"), (lower c1 =? ch "v"), (lower c1 =? ch "l"); done. }
  destruct (Z.eqb_spec (lower c1) (ch "r")) as [-> |]; [| destruct (Z.eqb_spec (lower c1) (ch "v")) as [-> |]; [| destruct (Z.eqb_spec (lower c1) (ch "l")) ] ];
    cbn [first_some andb orb]; rewrite ?one_match; try done; by destruct (_ =? _).
Qed.

(** ** White space *)
Lemma first_some_app {A B} (f : A -> option B) l k : first_some f (l ++ k) = match first_some f l with Some x => Some x | None => first_some f k end.
Proof. induction l as [| x l IH]; simpl; [done |]. by destruct (f x). Qed.
Lemma plus_rests p s : exists l, rests (Plus p) s = l /\ length l = run p s /\ forall i, (i < run p s)%nat -> l !! i = Some (drop (run p s - i) s).
Proof.
  eexists. split; [done |]. simpl. pose proof (run_le p s). pose proof (run_rests_length p (length s) s) as E. rewrite Nat.min_r in E by lia.
  rewrite E, length_take, E. split; [lia |].
  intros i Hi. rewrite lookup_take_lt by lia. rewrite run_rests_lookup by lia. by rewrite Nat.min_r by lia.
Qed.
Lemma run_stops p s c l : drop (run p s) s = c :: l -> p c = false.
Proof. induction s as [| x s IH]; simpl; [done |]. destruct (p x) eqn:E; simpl; [apply IH |]. intros. by simplify_eq. Qed.
Lemma run_goes p s i c : (i < run p s)%nat -> s !! i = Some c -> p c = true.
Proof.
  revert i. induction s as [| x s IH]; simpl; intros i Hi; [lia |]. destruct (p x) eqn:E; [| lia].
  destruct i as [| i]; simpl; [by intros [= ->] | apply IH; lia].
Qed.
Lemma spaces_match D s : let w := run (W D) s in regex_first (spaces D) s =
  if (w =? 0)%nat then None else if (1 <? w)%nat && (w <? length s)%nat then Some (drop (w - 1) s) else Some (drop w s).
Proof.
  intros w. unfold spaces. rewrite alt_match, seq_match, plus_match. fold w.
  destruct (plus_rests (W D) s) as (l & -> & Hl & Hi). fold w in Hl, Hi.
  destruct (Nat.eqb_spec w 0) as [E | E]; [rewrite E in *; by destruct l |].
  rewrite (proj2 (Nat.ltb_lt 0 w)) by lia. destruct l as [| x l]; simpl in Hl; [lia |].
  pose proof (Hi O ltac:(lia)) as [= ->]. rewrite Nat.sub_0_r in *. cbn [first_some]. unfold regex_first at 1. cbn [rests].
  pose proof (run_le (W D) s) as Hle. fold w in Hle. destruct (drop w s) as [| c rest] eqn:Ed.
  { apply (f_equal length) in Ed. rewrite length_drop in Ed. simpl in *. rewrite (proj2 (Nat.ltb_ge w (length s))) by lia. by rewrite andb_false_r. }
  pose proof (f_equal length Ed) as Hlen. rewrite length_drop in Hlen. simpl in Hlen. rewrite (proj2 (Nat.ltb_lt w (length s))), andb_true_r by lia.
  pose proof (run_stops _ _ _ _ Ed) as Hc. unfold none_of. simpl. rewrite Hc. simpl.
  destruct l as [| y l]; simpl in Hl; [rewrite (proj2 (Nat.ltb_ge 1 w)) by lia; done |].
  rewrite (proj2 (Nat.ltb_lt 1 w)) by lia. pose proof (Hi 1%nat ltac:(lia)) as [= ->]. cbn [first_some]. unfold regex_first. cbn [rests].
  destruct (lookup_lt_is_Some_2 s (w - 1)) as [d Hd]; [lia |]. rewrite (drop_S _ _ _ Hd).
  assert (Hg : W D d = true) by (apply (run_goes (W D) s (w - 1) d); [fold w; lia | done]). simpl. by rewrite Hg.
Qed.

(** the end of the last line break in the leading white space, 0 when there is none *)
Fixpoint last_eol (w : Z -> bool) (s : list Z) : nat :=
  match s with
  | c :: s => if w c then match last_eol w s with S l => S (S l) | O => if eol c then 1%nat else O end else O
  | [] => O
  end.
Lemma star_rests_cons p c s : rests (Star p) (c :: s) = if p c then rests (Star p) s ++ [c :: s] else [c :: s].
Proof. simpl. destruct (p c); [| done]. rewrite !Nat.sub_0_r, !firstn_all. done. Qed.
Lemma eol_match w s : Forall (fun c => eol c = true -> w c = true) s ->
  regex_first (Seq (Star w) (Plus eol)) s = match last_eol w s with O => None | S l => Some (drop (S l) s) end.
Proof.
  rewrite seq_match. induction 1 as [| c s Hc Hs IH]; [done |]. rewrite star_rests_cons. cbn [last_eol].
  destruct (w c) eqn:Ew.
  - rewrite first_some_app, IH. destruct (last_eol w s) as [| l] eqn:El; [| done]. cbn [first_some]. rewrite plus_match. cbn [run].
    destruct (eol c); [| done]. assert (run eol s = O) as ->; [| done].
    destruct s as [| d s]; [done |]. cbn [run]. destruct (eol d) eqn:Ed; [| done]. apply Forall_cons in Hs as [Hd _]. cbn [last_eol] in El.
    rewrite (Hd Ed), Ed in El. by destruct (last_eol w s).
  - cbn [first_some]. rewrite plus_match. cbn [run]. destruct (eol c); [| done]. by specialize (Hc eq_refl).
Qed.
