(* ===== verification/SplitMatch.v ===== *)
(** * The hand-written splitters take the first match of their expressions *)

From S2P Require Import Prelude Text Utf8 Unicode UnicodeSplit UnicodeFacts SplitRegex.

(** successive first matches lead from [s] to [s'] *)
Inductive chain (r : regex) : list Z -> list Z -> list Z -> Prop :=
| chain_nil s : chain r s [] s
| chain_cons s s1 l s' : regex_first r s = Some s1 -> (length s1 < length s)%nat -> chain r s1 l s' ->
    chain r s ((Zlen s - Zlen s1) :: l) s'.
Lemma matches_app r s l s1 k s' : chain r s l s1 -> chain r s1 k s' -> chain r s (l ++ k) s'.
Proof. induction 1; simpl; intros; [done |]. econstructor; eauto. Qed.
Lemma chain_words r s l fuel : chain r s l [] -> (length s <= fuel)%nat -> words_by fuel r s = Some l.
Proof.
  remember [] as e eqn:Ee. intros H. revert fuel Ee. induction H as [s | s s1 l s' Hm Hl _ IH]; intros fuel Ee Hf; [subst; by destruct fuel |].
  destruct s as [| c s]; [simpl in Hl; lia |]. destruct fuel as [| fuel]; [simpl in Hf; lia |]. simpl in *. rewrite Hm. simpl.
  rewrite (proj2 (Nat.ltb_lt _ _) Hl). rewrite IH by (done || lia). done.
Qed.

Section Match.
Context (D : unicode_data) (cpts : list Z) (a b : Z).
Context (Hab : 0 <= a <= b) (Hb : b <= Zlen cpts) (Hplain : Forall (fun c => plain D c = true) cpts).
Notation get_cpt := (get_cpt cpts a b).
Notation get_flags := (get_flags D cpts a b).

(** ** The rest of the part *)
Definition rest (pos : Z) : list Z := vslice cpts pos (b - pos).
Lemma rest_length pos : 0 <= pos <= b -> length (rest pos) = Z.to_nat (b - pos).
Proof. intros. unfold rest, vslice. rewrite length_take, length_drop. unfold Zlen in Hb. lia. Qed.
Lemma rest_drop pos e : 0 <= pos <= e -> e <= b -> rest e = drop (Z.to_nat (e - pos)) (rest pos).
Proof.
  intros. unfold rest, vslice. rewrite skipn_firstn_comm, drop_drop. f_equal; [lia |]. f_equal. lia.
Qed.
Lemma rest_cpt pos (k : nat) : a <= pos <= b -> get_cpt (pos + Z.of_nat k) = default OUT_OF_RANGE (rest pos !! k).
Proof.
  intros H. unfold UnicodeSplit.get_cpt, in_range, rest, vslice. rewrite (proj2 (Z.leb_le a (pos + Z.of_nat k))) by lia. simpl.
  destruct (Z.ltb_spec (pos + Z.of_nat k) b).
  - rewrite lookup_take_lt by lia. rewrite lookup_drop. unfold vlookup. rewrite (proj2 (Z.leb_le 0 (pos + Z.of_nat k))) by lia. do 2 f_equal. lia.
  - rewrite lookup_take_ge by lia. done.
Qed.
Lemma rest_flags pos (k : nat) : a <= pos <= b -> get_flags (pos + Z.of_nat k) = match rest pos !! k with Some c => flags D c | None => 0 end.
Proof.
  intros H. unfold UnicodeSplit.get_flags. rewrite rest_cpt by done. pose proof (rest_length pos ltac:(lia)). unfold in_range.
  rewrite (proj2 (Z.leb_le a (pos + Z.of_nat k))) by lia. simpl. destruct (Z.ltb_spec (pos + Z.of_nat k) b).
  - destruct (lookup_lt_is_Some_2 (rest pos) k) as [c ->]; [lia | done].
  - by rewrite lookup_ge_None_2 by lia.
Qed.
Lemma rest_plain pos : Forall (fun c => plain D c = true) (rest pos).
Proof. by apply Forall_take, Forall_drop. Qed.
Lemma rest_cons pos : a <= pos < b -> exists c t, rest pos = c :: t /\ get_cpt pos = c /\ get_flags pos = flags D c /\ t = rest (pos + 1) /\
  plain D c = true.
Proof.
  intros H. pose proof (rest_length pos ltac:(lia)) as Hl. pose proof (rest_cpt pos 0 ltac:(lia)) as Hc. pose proof (rest_flags pos 0 ltac:(lia)) as Hf.
  rewrite Z.add_0_r in *. pose proof (rest_drop pos (pos + 1) ltac:(lia) ltac:(lia)) as Hd. replace (Z.to_nat (pos + 1 - pos)) with 1%nat in Hd by lia.
  destruct (rest pos) as [| c t] eqn:E; [simpl in Hl; lia |]. exists c, t. rewrite Hc, Hf, Hd. simpl. rewrite drop_0. repeat split; try done.
  pose proof (rest_plain pos) as Hp. rewrite E in Hp. by inversion Hp.
Qed.

Lemma scan_run P p pos : a <= pos <= b -> (forall k : nat, p (pos + Z.of_nat k) = match rest pos !! k with Some c => P c | None => false end) ->
  scan_while b p pos = Ok (pos + Z.of_nat (run P (rest pos))).
Proof.
  intros H Hp. pose proof (rest_length pos ltac:(lia)) as Hl.
  destruct (scan_while_ok b p pos) as (e & -> & He & Hq & Hn); [| lia |].
  { intros q Hq. replace q with (pos + Z.of_nat (Z.to_nat (q - pos))) by lia. rewrite Hp. by rewrite lookup_ge_None_2 by lia. }
  f_equal. replace e with (pos + Z.of_nat (Z.to_nat (e - pos))) in * by lia. set (n := Z.to_nat (e - pos)) in *. do 2 f_equal.
  rewrite Hp in Hn. assert (Hall : forall i, (i < n)%nat -> exists c, rest pos !! i = Some c /\ P c = true).
  { intros i Hi. specialize (Hq (pos + Z.of_nat i) ltac:(lia)). rewrite Hp in Hq. destruct (rest pos !! i) as [c |]; [by exists c | done]. }
  clearbody n. clear -Hn Hall. revert n Hn Hall. induction (rest pos) as [| c t IH]; intros n Hn Hall; simpl.
  - destruct n; [done |]. destruct (Hall O ltac:(lia)) as (? & ? & _). done.
  - destruct n as [| n]; simpl in Hn; [by rewrite Hn |]. destruct (Hall O ltac:(lia)) as (c' & [= ->] & ->). f_equal. apply IH; [done |].
    intros i Hi. apply (Hall (S i)). lia.
Qed.
(** a class given by the flags *)
Lemma scan_flags q pos : a <= pos <= b -> q 0 = false -> scan_while b (fun p => q (get_flags p)) pos = Ok (pos + Z.of_nat (run (fun c => q (flags D c)) (rest pos))).
Proof. intros H H0. apply scan_run; [done |]. intros k. rewrite rest_flags by done. by destruct (rest pos !! k). Qed.
Lemma scan_eol pos : a <= pos <= b -> scan_while b (fun p => eol (get_cpt p)) pos = Ok (pos + Z.of_nat (run eol (rest pos))).
Proof. intros H. apply scan_run; [done |]. intros k. rewrite rest_cpt by done. by destruct (rest pos !! k). Qed.

Lemma contraction_rest lower pos : a <= pos < b -> contraction cpts a b lower pos = Z.of_nat (contraction_len lower (rest pos)).
Proof.
  intros H. unfold contraction. pose proof (rest_length pos ltac:(lia)) as Hl.
  pose proof (rest_cpt pos 0 ltac:(lia)) as H0. pose proof (rest_cpt pos 1 ltac:(lia)) as H1. pose proof (rest_cpt pos 2 ltac:(lia)) as H2.
  rewrite Z.add_0_r in H0. change (Z.of_nat 1) with 1 in H1. change (Z.of_nat 2) with 2 in H2. rewrite H0, H1, H2.
  destruct (rest pos) as [| c [| c1 [| c2 t] ] ]; simpl in Hl; [lia | | |]; simpl.
  - rewrite (proj2 (Z.ltb_ge (pos + 1) b)) by lia. by rewrite andb_false_r.
  - rewrite (proj2 (Z.ltb_lt (pos + 1) b)), (proj2 (Z.ltb_ge (pos + 2) b)), andb_true_r by lia. repeat case_match; done.
  - rewrite (proj2 (Z.ltb_lt (pos + 1) b)), (proj2 (Z.ltb_lt (pos + 2) b)), andb_true_r by lia. repeat case_match; done.
Qed.

(** ** A round that takes first matches *)
Definition matches_from (r : regex) (pos : Z) (out : list Z) (m : res (Z * recorder)) : Prop :=
  exists pos' new, m = Ok (pos', (pos', out ++ new)) /\ pos < pos' <= b /\ chain r (rest pos) new (rest pos').
Lemma rest_word pos e : 0 <= pos <= e -> e <= b -> Zlen (rest pos) - Zlen (rest e) = e - pos.
Proof. intros. unfold Zlen. rewrite !rest_length by lia. lia. Qed.
Lemma chain_one r pos e : 0 <= pos < e -> e <= b -> regex_first r (rest pos) = Some (drop (Z.to_nat (e - pos)) (rest pos)) -> chain r (rest pos) [e - pos] (rest e).
Proof.
  intros H He Hm. rewrite <- (rest_word pos e) by lia. rewrite <- rest_drop in Hm by lia. econstructor; [done | rewrite !rest_length by lia; lia | constructor].
Qed.
Lemma add_to_matches r pos out e : 0 <= pos < e -> e <= b -> regex_first r (rest pos) = Some (drop (Z.to_nat (e - pos)) (rest pos)) ->
  matches_from r pos out (add_to b (pos, out) e).
Proof. intros. exists e, [e - pos]. rewrite add_to_ok by lia. repeat split; try lia. by apply chain_one. Qed.
Lemma contraction_matches r lower pos out : a <= pos < b -> 0 < contraction cpts a b lower pos ->
  matches_from (Alt (contractions lower) r) pos out (let! (len, st) := add_token b (pos, out) (pos + contraction cpts a b lower pos) in Ok (pos + len, st)).
Proof.
  intros H Hk. pose proof (contraction_range cpts a b lower pos ltac:(lia)) as Hr. rewrite contraction_rest in * by done.
  set (k := contraction_len lower (rest pos)) in *. rewrite add_token_ok by lia. simpl. replace (pos + (pos + Z.of_nat k - pos)) with (pos + Z.of_nat k) by lia.
  rewrite (proj2 (Z.ltb_lt 0 (pos + Z.of_nat k - pos))) by lia. exists (pos + Z.of_nat k), [pos + Z.of_nat k - pos]. repeat split; try lia.
  apply chain_one; try lia. rewrite alt_match, contractions_match. fold k. rewrite (proj2 (Nat.ltb_lt 0 k)) by lia. do 2 f_equal. lia.
Qed.

(** ** What the tables say *)
Lemma plain_facts c : plain D c = true -> 0 <= c <= 0x10FFFF /\ flags D c <> 0 /\ (is_space c || eol c = true -> W D c = true) /\
  one_of (L D c) (N' D c) (W D c) (is_accent_mark (flags D c)) = true /\ (N' D c = true -> c <> ch "'").
Proof.
  unfold plain. rewrite !andb_true_iff, !negb_true_iff. intros (((((? & ?) & ?) & ?) & Hi) & Hq). repeat split; try lia; try done.
  - intros E. by rewrite E in Hi.
  - intros HN ->. by rewrite HN in Hq.
Qed.
Lemma run_ext P Q s : Forall (fun c => P c = Q c) s -> run P s = run Q s.
Proof. induction 1 as [| c s Hc _ IH]; simpl; [done |]. by rewrite Hc, IH. Qed.
Lemma other_plain word c : plain D c = true -> negb (is_whitespace (flags D c) || word (flags D c) || is_number (flags D c)) && negb (flags D c =? 0) =
  none_of [W D; fun c => word (flags D c); N' D] c.
Proof.
  intros Hp. apply plain_facts in Hp as (_ & H0 & _). rewrite (proj2 (Z.eqb_neq _ _) H0). simpl. unfold none_of, W, N'. simpl.
  by rewrite orb_false_r, andb_true_r, orb_assoc.
Qed.
Lemma run_other word pos : run (fun c => negb (is_whitespace (flags D c) || word (flags D c) || is_number (flags D c)) && negb (flags D c =? 0)) (rest pos) =
  run (none_of [W D; fun c => word (flags D c); N' D]) (rest pos).
Proof. apply run_ext. eapply Forall_impl; [apply rest_plain |]. intros c Hc. by apply other_plain. Qed.

Lemma spaces_matches r pos out : a <= pos < b -> regex_first r (rest pos) = regex_first (spaces D) (rest pos) -> (0 < run (W D) (rest pos))%nat ->
  matches_from r pos out (spaces_or_one cpts a b (Z.of_nat (run (W D) (rest pos))) pos (pos, out)).
Proof.
  intros H Hr Hn. pose proof (rest_length pos ltac:(lia)) as Hl. pose proof (run_le (W D) (rest pos)) as Hle. rewrite (spaces_match D (rest pos)) in Hr.
  set (n := run (W D) (rest pos)) in *. rewrite (proj2 (Nat.eqb_neq n 0)) in Hr by lia. unfold spaces_or_one. rewrite rest_cpt by lia.
  assert (Ho : negb (default OUT_OF_RANGE (rest pos !! n) =? OUT_OF_RANGE) = (n <? length (rest pos))%nat).
  { destruct (Nat.ltb_spec n (length (rest pos))) as [Hlt | Hge]; [| by rewrite lookup_ge_None_2].
    destruct (lookup_lt_is_Some_2 _ _ Hlt) as [c Hc]. rewrite Hc. simpl. apply negb_true_iff, Z.eqb_neq. intros ->.
    pose proof (rest_plain pos) as Hp. rewrite Forall_lookup in Hp. apply Hp, plain_facts in Hc as [Hc _]. unfold OUT_OF_RANGE in Hc. lia. }
  rewrite Ho. assert (E1 : (1 <? Z.of_nat n) = (1 <? n)%nat) by (destruct (Z.ltb_spec 1 (Z.of_nat n)), (Nat.ltb_spec 1 n); lia). rewrite E1.
  destruct (_ && _) eqn:E; [| rewrite (proj2 (Z.ltb_lt 0 (Z.of_nat n))) by lia].
  - rewrite andb_true_iff, Nat.ltb_lt in E. apply add_to_matches; try lia. rewrite Hr. do 2 f_equal. lia.
  - apply add_to_matches; try lia. rewrite Hr. do 2 f_equal. lia.
Qed.

(** an optional space, then one or more characters of a class without the space *)
Lemma opt_space_match P pos : a <= pos < b -> (W D (get_cpt pos) = true -> P (get_cpt pos) = false) ->
  let s := rest (pos + Z.b2z (get_cpt pos =? ch " ")) in
  regex_first (Seq (Opt is_space) (Plus P)) (rest pos) = if (0 <? run P s)%nat then Some (drop (run P s) s) else None.
Proof.
  intros H HP. destruct (rest_cons pos H) as (c & t & E & Hc & _ & Et & Hp). rewrite Hc in *. rewrite opt_match, E, !plus_match. unfold is_space.
  apply plain_facts in Hp as (_ & _ & Hs & _). destruct (Z.eqb_spec c (ch " ")) as [-> |]; simpl.
  - rewrite <- Et. rewrite HP by (by apply Hs). by case_match.
  - rewrite Z.add_0_r, E. done.
Qed.
(** the flags of the character after an optional space *)
Lemma flags2_run q pos : a <= pos < b -> q 0 = false -> let sp := get_cpt pos =? ch " " in
  q (if sp then get_flags (pos + 1) else get_flags pos) = (0 <? run (fun c => q (flags D c)) (rest (pos + Z.b2z sp)))%nat.
Proof.
  intros H H0 sp. assert (E : (if sp then get_flags (pos + 1) else get_flags pos) = get_flags (pos + Z.b2z sp)) by (destruct sp; simpl; by rewrite ?Z.add_0_r).
  rewrite E. pose proof (step_of_bool sp). pose proof (rest_flags (pos + Z.b2z sp) 0 ltac:(lia)) as Hf. rewrite Z.add_0_r in Hf. rewrite Hf.
  destruct (rest (pos + Z.b2z sp)) as [| c s]; simpl; [done |]. by destruct (q (flags D c)).
Qed.
Lemma opt_space_step r q pos out : a <= pos < b -> q 0 = false -> (W D (get_cpt pos) = true -> q (flags D (get_cpt pos)) = false) ->
  let sp := get_cpt pos =? ch " " in q (if sp then get_flags (pos + 1) else get_flags pos) = true ->
  regex_first r (rest pos) = regex_first (Seq (Opt is_space) (Plus (fun c => q (flags D c)))) (rest pos) ->
  matches_from r pos out (let! e := scan_while b (fun p => q (get_flags p)) (pos + Z.b2z sp) in add_to b (pos, out) e).
Proof.
  intros H H0 HW sp Hq Hr. rewrite (opt_space_match (fun c => q (flags D c)) pos H HW) in Hr. unfold sp in Hq. rewrite (flags2_run q pos H H0) in Hq. fold sp in Hr, Hq.
  rewrite Hq in Hr. apply Nat.ltb_lt in Hq. pose proof (step_of_bool sp). rewrite scan_flags by (lia || done). simpl.
  pose proof (run_le (fun c => q (flags D c)) (rest (pos + Z.b2z sp))). rewrite rest_length in * by lia.
  apply add_to_matches; try lia. rewrite Hr. rewrite (rest_drop pos (pos + Z.b2z sp)) by lia. rewrite drop_drop. do 2 f_equal. lia.
Qed.
Lemma opt_space_none q pos : a <= pos < b -> q 0 = false -> (W D (get_cpt pos) = true -> q (flags D (get_cpt pos)) = false) ->
  q (if get_cpt pos =? ch " " then get_flags (pos + 1) else get_flags pos) = false ->
  regex_first (Seq (Opt is_space) (Plus (fun c => q (flags D c)))) (rest pos) = None.
Proof. intros H H0 HW Hq. rewrite (opt_space_match (fun c => q (flags D c)) pos H HW). rewrite (flags2_run q pos H H0) in Hq. by rewrite Hq. Qed.
Lemma opt_space_some q pos : a <= pos < b -> q 0 = false -> (W D (get_cpt pos) = true -> q (flags D (get_cpt pos)) = false) ->
  q (if get_cpt pos =? ch " " then get_flags (pos + 1) else get_flags pos) = true ->
  exists x, regex_first (Seq (Opt is_space) (Plus (fun c => q (flags D c)))) (rest pos) = Some x.
Proof. intros H H0 HW Hq. rewrite (opt_space_match (fun c => q (flags D c)) pos H HW). rewrite (flags2_run q pos H H0) in Hq. rewrite Hq. eauto. Qed.
Lemma contraction_none lower pos : a <= pos < b -> contraction cpts a b lower pos <= 0 -> regex_first (contractions lower) (rest pos) = None.
Proof. intros H Hk. rewrite contraction_rest in Hk by done. rewrite contractions_match. by replace (contraction_len lower (rest pos)) with O by lia. Qed.
Lemma scan_white pos : a <= pos <= b -> scan_while b (white_at D cpts a b) pos = Ok (pos + Z.of_nat (run (W D) (rest pos))).
Proof. intros. by apply (scan_flags is_whitespace). Qed.
Lemma white_run pos : a <= pos < b -> W D (get_cpt pos) = true -> (0 < run (W D) (rest pos))%nat.
Proof. intros H HW. destruct (rest_cons pos H) as (c & t & E & Hc & _). rewrite E. simpl. rewrite Hc in HW. rewrite HW. lia. Qed.
Lemma plus_ext P Q pos : run P (rest pos) = run Q (rest pos) -> regex_first (Plus P) (rest pos) = regex_first (Plus Q) (rest pos).
Proof. intros E. by rewrite !plus_match, E. Qed.
Lemma other_run pos : a <= pos < b -> regex_first (Seq (Opt is_space) (Plus (none_of [W D; L D; N' D]))) (rest pos) =
  regex_first (Seq (Opt is_space) (Plus (fun c => other (flags D c)))) (rest pos).
Proof.
  intros H. destruct (rest_cons pos H) as (c & t & E & _ & _ & -> & _). pose proof (plus_ext _ _ pos (run_other is_letter pos)) as E0.
  pose proof (plus_ext _ _ (pos + 1) (run_other is_letter (pos + 1))) as E1. rewrite !opt_match, E. rewrite E in E0. unfold L. by rewrite <- E0, <- E1.
Qed.
Lemma white_excludes c : plain D c = true -> W D c = true -> L D c = false /\ N' D c = false /\ is_accent_mark (flags D c) = false.
Proof. intros Hp HW. apply plain_facts in Hp as (_ & _ & _ & H1 & _). rewrite HW in H1. unfold one_of in H1. by destruct (L D c), (N' D c), (is_accent_mark _). Qed.

(** ** gpt2 *)
Lemma gpt2_matches pos out : a <= pos < b -> matches_from (gpt2_regex D) pos out (gpt2_step D cpts a b pos (pos, out)).
Proof.
  intros H. unfold gpt2_step. destruct (Z.ltb_spec 0 (contraction cpts a b (fun c => c) pos)); [by apply contraction_matches |].
  destruct (rest_cons pos H) as (c & t & E & Hc & Hf & _ & Hp). pose proof (white_excludes c Hp) as Hx.
  assert (Hg : regex_first (gpt2_regex D) (rest pos) = match regex_first (Seq (Opt is_space) (Plus (L D))) (rest pos) with Some x => Some x | None =>
    match regex_first (Seq (Opt is_space) (Plus (N' D))) (rest pos) with Some x => Some x | None =>
    match regex_first (Seq (Opt is_space) (Plus (fun c => other (flags D c)))) (rest pos) with Some x => Some x | None => regex_first (spaces D) (rest pos) end end end).
  { unfold gpt2_regex. rewrite !alt_match, contraction_none by done. by rewrite other_run. }
  assert (HL : W D (get_cpt pos) = true -> is_letter (flags D (get_cpt pos)) = false) by (rewrite Hc; intros HW; by destruct (Hx HW)).
  assert (HN : W D (get_cpt pos) = true -> is_number (flags D (get_cpt pos)) = false) by (rewrite Hc; intros HW; by destruct (Hx HW) as (_ & ? & _)).
  assert (HO : W D (get_cpt pos) = true -> other (flags D (get_cpt pos)) = false) by (unfold W, other; by intros ->).
  set (f2 := if get_cpt pos =? ch " " then get_flags (pos + 1) else get_flags pos). destruct (is_letter f2) eqn:E1.
  { apply (opt_space_step (gpt2_regex D) is_letter pos out H eq_refl HL E1). rewrite Hg. unfold L. by destruct (opt_space_some is_letter pos H eq_refl HL E1) as [x ->]. }
  unfold L in Hg. rewrite (opt_space_none is_letter pos H eq_refl HL E1) in Hg. destruct (is_number f2) eqn:E2.
  { apply (opt_space_step (gpt2_regex D) is_number pos out H eq_refl HN E2). rewrite Hg. unfold N'. by destruct (opt_space_some is_number pos H eq_refl HN E2) as [x ->]. }
  unfold N' in Hg. rewrite (opt_space_none is_number pos H eq_refl HN E2) in Hg. destruct (other f2) eqn:E3.
  { apply (opt_space_step (gpt2_regex D) other pos out H eq_refl HO E3). rewrite Hg. by destruct (opt_space_some other pos H eq_refl HO E3) as [x ->]. }
  rewrite (opt_space_none other pos H eq_refl HO E3) in Hg. rewrite scan_white by lia. cbn [rbind].
  replace (pos + _ - pos) with (Z.of_nat (run (W D) (rest pos))) by lia. apply spaces_matches; try done. apply white_run; [done |]. rewrite Hc.
  pose proof (plain_facts c Hp) as (_ & Hz & Hs & _). subst f2. destruct (Z.eqb_spec (get_cpt pos) (ch " ")) as [Eq |].
  - apply Hs. unfold is_space. by rewrite <- Hc, Eq.
  - rewrite Hf in E1, E2, E3. unfold other in E3. rewrite E1, E2, !orb_false_r in E3. unfold W.
    apply andb_false_iff in E3 as [E3 | E3]; [by apply negb_false_iff in E3 |]. apply negb_false_iff, Z.eqb_eq in E3. done.
Qed.

(** ** llama3, qwen2, qwen35 *)
Lemma blanks_rest fuel pos n last : a <= pos -> 0 <= n -> pos + n <= b -> (Z.to_nat (b - (pos + n)) < fuel)%nat ->
  blanks D cpts a b fuel pos n last = Ok (n + Z.of_nat (run (W D) (rest (pos + n))),
    match last_eol (W D) (rest (pos + n)) with O => last | S l => pos + n + Z.of_nat (S l) end).
Proof.
  intros Ha. revert n last. induction fuel as [| fuel IH]; intros n last Hn Hp Hf; [lia |]. cbn [blanks]. unfold white_at.
  pose proof (rest_flags (pos + n) 0 ltac:(lia)) as H0. pose proof (rest_cpt (pos + n) 0 ltac:(lia)) as H1. rewrite Z.add_0_r in H0, H1. rewrite H0, H1.
  pose proof (rest_length (pos + n) ltac:(lia)) as Hl. destruct (rest (pos + n)) as [| c t] eqn:E; simpl; [f_equal; f_equal; lia |].
  fold (W D c). destruct (W D c) eqn:EW; [| f_equal; f_equal; lia].
  assert (Et : t = rest (pos + (n + 1))).
  { simpl in Hl. rewrite Z.add_assoc, (rest_drop (pos + n) (pos + n + 1)), E by lia. replace (Z.to_nat (pos + n + 1 - (pos + n))) with 1%nat by lia. done. }
  simpl in Hl. rewrite IH by lia. rewrite <- Et. f_equal. f_equal; [lia |]. destruct (last_eol (W D) t); [destruct (eol c); lia | lia].
Qed.
Lemma plus_star_match P s : regex_first (Seq (Plus P) (Star eol)) s =
  if (0 <? run P s)%nat then Some (drop (run eol (drop (run P s) s)) (drop (run P s) s)) else None.
Proof.
  rewrite seq_match. destruct (plus_rests P s) as (l & -> & Hl & Hi). destruct (Nat.ltb_spec 0 (run P s)); [| by destruct l; simpl in Hl; [| lia] ].
  destruct l as [| x l]; simpl in Hl; [lia |]. pose proof (Hi O ltac:(lia)) as [= ->]. cbn [first_some]. by rewrite star_match, Nat.sub_0_r.
Qed.
Lemma eol_rest pos : regex_first (Seq (Star (W D)) (Plus eol)) (rest pos) = match last_eol (W D) (rest pos) with O => None | S l => Some (drop (S l) (rest pos)) end.
Proof.
  apply eol_match. eapply Forall_impl; [apply rest_plain |]. intros c Hc He. apply plain_facts in Hc as (_ & _ & Hs & _). apply Hs. by rewrite He, orb_true_r.
Qed.
Lemma last_eol_le w s : (last_eol w s <= length s)%nat.
Proof. induction s as [| c s IH]; simpl; [lia |]. repeat case_match; lia. Qed.
Lemma blanks_matches r pos out : a <= pos < b -> W D (get_cpt pos) = true ->
  regex_first r (rest pos) = regex_first (Alt (Seq (Star (W D)) (Plus eol)) (spaces D)) (rest pos) ->
  matches_from r pos out (blanks_step D cpts a b pos (pos, out)).
Proof.
  intros H HW Hr. unfold blanks_step, count_blanks. rewrite blanks_rest by lia. rewrite !Z.add_0_r, Z.add_0_l. cbn [rbind].
  rewrite alt_match, eol_rest in Hr. pose proof (last_eol_le (W D) (rest pos)) as Hle. rewrite rest_length in Hle by lia.
  destruct (last_eol (W D) (rest pos)) as [| l]; cbn [Z.ltb Z.compare].
  - apply spaces_matches; [done | done | by apply white_run].
  - rewrite (proj2 (Z.ltb_lt 0 (pos + Z.of_nat (S l)))) by lia. apply add_to_matches; try lia. rewrite Hr. do 2 f_equal. lia.
Qed.

Section Words.
Context (word : Z -> bool) (Hw0 : word 0 = false) (HwL : forall f, is_letter f = true -> word f = true).
Context (Hwx : forall c, plain D c = true -> word (flags D c) = true -> W D c = false /\ N' D c = false).
Notation wordC := (fun c => word (flags D c)).

Lemma word_match pos : a <= pos < b ->
  regex_first (Seq (Opt (none_of [eol; L D; N' D])) (Plus wordC)) (rest pos) =
  if negb (eol (get_cpt pos) || is_number (get_flags pos)) && (word (get_flags pos) || word (get_flags (pos + 1)))
  then Some (drop (S (run wordC (rest (pos + 1)))) (rest pos)) else None.
Proof.
  intros H. destruct (rest_cons pos H) as (c & t & E & -> & -> & Et & Hp). rewrite opt_match, E, !plus_match. cbn [run].
  pose proof (rest_flags (pos + 1) 0 ltac:(lia)) as Hn. rewrite Z.add_0_r in Hn. rewrite Hn, <- Et. clear Hn.
  assert (Hnext : word (match t !! O with Some c => flags D c | None => 0 end) = (0 <? run wordC t)%nat).
  { destruct t as [| d t]; simpl; [done |]. by destruct (word (flags D d)). }
  rewrite Hnext. unfold none_of. cbn [existsb]. rewrite orb_false_r. fold (N' D c).
  pose proof (Hwx c Hp) as Hx. pose proof (plain_facts c Hp) as (_ & _ & Hs & _).
  destruct (word (flags D c)) eqn:Ew.
  - destruct (Hx eq_refl) as [HW HN]. rewrite HN. assert (He : eol c = false) by (destruct (eol c); [rewrite Hs in HW; [done | apply orb_true_r] | done]).
    rewrite He. simpl. destruct (L D c); simpl; [done |]. destruct (run wordC t) eqn:Er; [by rewrite drop_0 |]. done.
  - assert (HL : L D c = false) by (destruct (L D c) eqn:El; [apply HwL in El; congruence | done]). rewrite HL. simpl.
    destruct (eol c || N' D c); simpl; [done |]. by destruct (run wordC t).
Qed.

Section Digits.
Context (most : nat).
Notation r := (words_regex D wordC most).

(** the expression after the contractions and the words *)
Lemma words_regex_rest pos : a <= pos < b -> contraction cpts a b (unicode_tolower D) pos <= 0 ->
  negb (eol (get_cpt pos) || is_number (get_flags pos)) && (word (get_flags pos) || word (get_flags (pos + 1))) = false ->
  regex_first r (rest pos) = regex_first (Alt (Rep (N' D) 1 (Some most)) (Alt (Seq (Opt is_space) (Seq (Plus (none_of [W D; wordC; N' D])) (Star eol)))
    (Alt (Seq (Star (W D)) (Plus eol)) (spaces D)))) (rest pos).
Proof. intros H Hk Hw. unfold words_regex. rewrite (alt_match (contractions _)), contraction_none, alt_match, word_match, Hw by done. done. Qed.
Lemma digit_match pos : a <= pos < b -> (0 < most)%nat -> N' D (get_cpt pos) = true ->
  regex_first r (rest pos) = Some (drop (Nat.min most (run (N' D) (rest pos))) (rest pos)).
Proof.
  intros H Hm HN. destruct (rest_cons pos H) as (c & t & E & Hc & Hf & _ & Hp). rewrite words_regex_rest; [| done | |].
  - rewrite alt_match, rep_match. simpl default. rewrite E. cbn [run]. rewrite Hc in HN. rewrite HN. by rewrite (proj2 (Nat.leb_le 1 _)) by lia.
  - rewrite contraction_rest, E by done. cbn [contraction_len]. destruct t; [done |]. rewrite Hc in HN. apply plain_facts in Hp as (_ & _ & _ & _ & Hq).
    rewrite (proj2 (Z.eqb_neq c (ch "'"))) by (by apply Hq). done.
  - rewrite Hf, <- Hc. fold (N' D (get_cpt pos)). by rewrite HN, orb_true_r.
Qed.
End Digits.

Lemma number_run pos : a <= pos <= b -> number_at D cpts a b pos = (0 <? run (N' D) (rest pos))%nat.
Proof.
  intros H. unfold number_at. pose proof (rest_flags pos 0 H) as E. rewrite Z.add_0_r in E. rewrite E. destruct (rest pos) as [| c t]; simpl; [done |].
  fold (N' D c). by destruct (N' D c).
Qed.
Lemma run_next P pos : a <= pos < b -> (0 < run P (rest pos))%nat -> run P (rest pos) = S (run P (rest (pos + 1))).
Proof. intros H. destruct (rest_cons pos H) as (c & t & -> & _ & _ & <- & _). cbn [run]. destruct (P c); [done | lia]. Qed.
Lemma three_digits_loop fuel ini pos out s0 new0 : a <= ini <= pos -> pos <= b -> (Z.to_nat (b - pos) < fuel)%nat -> pos - ini < 3 ->
  run (N' D) (rest ini) = (Z.to_nat (pos - ini) + run (N' D) (rest pos))%nat -> a <= s0 <= ini -> (s0 < ini \/ (0 < run (N' D) (rest ini))%nat) ->
  chain (words_regex D wordC 3) (rest s0) new0 (rest ini) ->
  matches_from (words_regex D wordC 3) s0 out (digits_loop D cpts a b fuel ini pos (ini, out ++ new0)).
Proof.
  revert ini pos new0. induction fuel as [| fuel IH]; intros ini pos new0 Ha Hp Hf H3 Hr Hs Hn Hc; [lia |]. cbn [digits_loop]. rewrite number_run by lia.
  assert (Hdig : ini < b -> (0 < run (N' D) (rest ini))%nat -> regex_first (words_regex D wordC 3) (rest ini) = Some (drop (Nat.min 3 (run (N' D) (rest ini))) (rest ini))).
  { intros Hi H0. apply digit_match; [lia | lia |]. destruct (rest_cons ini ltac:(lia)) as (c & t & E & Ec & _). rewrite E in H0. simpl in H0. rewrite Ec. by destruct (N' D c); [| lia]. }
  destruct (Nat.ltb_spec 0 (run (N' D) (rest pos))) as [Hd | Hd].
  - assert (pos < b) by (pose proof (run_le (N' D) (rest pos)); rewrite rest_length in *; lia).
    pose proof (run_next (N' D) pos ltac:(lia) Hd) as Hnx. destruct (Z.leb_spec 3 (pos + 1 - ini)).
    + rewrite add_token_ok by lia. cbn [rbind]. rewrite (proj2 (Z.ltb_lt 0 (pos + 1 - ini))) by lia. rewrite <- app_assoc. apply IH; try lia.
      eapply matches_app; [done |]. apply chain_one; try lia. rewrite Hdig by lia. do 2 f_equal. lia.
    + apply IH; try lia. done.
  - unfold add_to. rewrite add_token_ok by lia. cbn [rbind]. destruct (Z.ltb_spec 0 (pos - ini)).
    + rewrite <- app_assoc. eexists _, _. split; [done |]. split; [lia |]. eapply matches_app; [done |]. apply chain_one; try lia. rewrite Hdig by lia. do 2 f_equal. lia.
    + assert (pos = ini) as -> by lia. exists ini, new0. split; [done |]. split; [lia | done].
Qed.

Lemma symbols_match pos : a <= pos < b -> let P := none_of [W D; wordC; N' D] in let s := rest (pos + Z.b2z (get_cpt pos =? ch " ")) in
  regex_first (Seq (Opt is_space) (Seq (Plus P) (Star eol))) (rest pos) =
  if (0 <? run P s)%nat then Some (drop (run eol (drop (run P s) s)) (drop (run P s) s)) else None.
Proof.
  intros H P. destruct (rest_cons pos H) as (c & t & E & Hc & _ & Et & Hp). rewrite Hc in *. rewrite opt_match, E, !plus_star_match. unfold is_space.
  pose proof (plain_facts c Hp) as (_ & _ & Hs & _). destruct (Z.eqb_spec c (ch " ")) as [Eq |]; simpl.
  - rewrite <- Et. assert (HP : P c = false) by (unfold P, none_of; simpl; rewrite Hs; [done | by rewrite Eq]). rewrite HP. by case_match.
  - by rewrite Z.add_0_r, E.
Qed.
Lemma symbols_matches r pos out : a <= pos < b -> let s := rest (pos + Z.b2z (get_cpt pos =? ch " ")) in let P := none_of [W D; wordC; N' D] in
  (0 < run P s)%nat -> regex_first r (rest pos) = regex_first (Seq (Opt is_space) (Seq (Plus P) (Star eol))) (rest pos) ->
  matches_from r pos out (symbols_run D cpts a b (fun f => negb (is_whitespace f || word f || is_number f) && negb (f =? 0)) pos (pos, out)).
Proof.
  intros H s P Hn Hr. rewrite symbols_match in Hr by done. fold s in Hr. fold P in Hr. rewrite (proj2 (Nat.ltb_lt 0 (run P s)) Hn) in Hr.
  set (others := fun f => negb (is_whitespace f || word f || is_number f) && negb (f =? 0)). unfold symbols_run.
  set (sp := get_cpt pos =? ch " ") in *. pose proof (step_of_bool sp).
  rewrite (scan_flags others) by (first [lia | by unfold others; rewrite Hw0]). unfold others. rewrite run_other. fold s. fold P. cbn [rbind].
  assert (Hs : s = drop (Z.to_nat (Z.b2z sp)) (rest pos)) by (subst s; rewrite (rest_drop pos) by lia; f_equal; lia).
  pose proof (run_le P s) as H1. assert (Hls : length s = Z.to_nat (b - (pos + Z.b2z sp))) by (apply rest_length; lia).
  rewrite scan_eol by lia. cbn [rbind]. assert (He : rest (pos + Z.b2z sp + Z.of_nat (run P s)) = drop (run P s) s).
  { rewrite (rest_drop (pos + Z.b2z sp)) by lia. fold s. f_equal. lia. }
  rewrite He. pose proof (run_le eol (drop (run P s) s)) as H2. rewrite length_drop in H2. apply add_to_matches; try lia.
  rewrite Hr. clear Hr He H1 H2 Hn. generalize (run eol (drop (run P s) s)), (run P s). intros k2 k1. rewrite Hs, !drop_drop. do 2 f_equal. lia.
Qed.
(** a space that ends the part: the code takes it with the symbols, the expression with the white space *)
Lemma last_space_matches r pos out others : a <= pos < b -> others 0 = false -> get_cpt pos = ch " " -> rest (pos + 1) = [] ->
  regex_first r (rest pos) = regex_first (Alt (Seq (Star (W D)) (Plus eol)) (spaces D)) (rest pos) ->
  matches_from r pos out (symbols_run D cpts a b others pos (pos, out)).
Proof.
  intros H H0 Hc Hs Hr. destruct (rest_cons pos H) as (c & t & E & Hc' & _ & Et & Hp). rewrite Hs in Et. subst t. rewrite Hc in Hc'. subst c.
  assert (HW : W D (ch " ") = true) by (apply plain_facts in Hp as (_ & _ & Hsp & _); by apply Hsp).
  unfold symbols_run. rewrite Hc. change (Z.b2z (ch " " =? ch " ")) with 1. rewrite (scan_flags others) by (done || lia). rewrite Hs. cbn [run rbind].
  rewrite Z.add_0_r, scan_eol, Hs by lia. cbn [run rbind]. rewrite Z.add_0_r. apply add_to_matches; try lia. rewrite Hr, E.
  rewrite alt_match, spaces_match. rewrite eol_match by (repeat constructor; intros; done). cbn [last_eol run]. rewrite HW. simpl. by replace (Z.to_nat (pos + 1 - pos)) with 1%nat by lia.
Qed.
Lemma words_matches digits most pos out : (0 < most)%nat ->
  (forall pos out, a <= pos < b -> number_at D cpts a b pos = true -> matches_from (words_regex D wordC most) pos out (digits pos (pos, out))) ->
  a <= pos < b -> matches_from (words_regex D wordC most) pos out (words_step D cpts a b word digits pos (pos, out)).
Proof.
  intros Hm Hdig H. unfold words_step. destruct (Z.ltb_spec 0 (contraction cpts a b (unicode_tolower D) pos)) as [| Hk]; [by apply contraction_matches |].
  destruct (rest_cons pos H) as (c & t & E & Hc & Hf & Et & Hp). destruct (negb (eol (get_cpt pos) || is_number (get_flags pos)) && _) eqn:Ew.
  { rewrite (scan_flags word) by (done || lia). cbn [rbind]. pose proof (run_le wordC (rest (pos + 1))). rewrite rest_length in * by lia. apply add_to_matches; try lia.
    unfold words_regex. rewrite (alt_match (contractions _)), contraction_none, alt_match, word_match, Ew by done. do 2 f_equal. lia. }
  pose proof (words_regex_rest most pos H Hk Ew) as Hr. destruct (is_number (get_flags pos)) eqn:En; [by apply Hdig |].
  rewrite alt_match, rep_match in Hr. replace (run (N' D) (rest pos)) with O in Hr by (rewrite E; simpl; unfold N'; by rewrite <- Hf, En).
  rewrite Nat.min_0_r in Hr. cbn [Nat.leb] in Hr. rewrite alt_match in Hr.
  set (P := none_of [W D; wordC; N' D]) in Hr. set (s := rest (pos + Z.b2z (get_cpt pos =? ch " "))).
  pose proof (symbols_match pos H) as Hsym. cbv zeta in Hsym. fold P s in Hsym. pose proof (plain_facts c Hp) as (_ & Hz & Hs & _).
  set (others := fun f => negb (is_whitespace f || word f || is_number f) && negb (f =? 0)).
  pose proof (flags2_run others pos H ltac:(by unfold others; rewrite Hw0)) as Hrun. cbv zeta in Hrun.
  assert (HP : (0 <? run P s)%nat = others (if get_cpt pos =? ch " " then get_flags (pos + 1) else get_flags pos)) by (rewrite Hrun; unfold others; by rewrite run_other).
  unfold others in HP. rewrite Hf in HP |- *. rewrite (proj2 (Z.eqb_neq _ _) Hz). rewrite andb_true_r. set (f2 := if get_cpt pos =? ch " " then get_flags (pos + 1) else flags D c) in *.
  destruct (Nat.ltb_spec 0 (run P s)) as [Hpos | Hpos].
  - symmetry in HP. apply andb_true_iff in HP as [-> _]. apply symbols_matches; [done | done |]. rewrite Hr. rewrite Hsym. done.
  - rewrite Hsym in Hr. destruct (negb (is_whitespace f2 || word f2 || is_number f2)) eqn:Ef; symmetry in HP.
    + apply negb_false_iff, Z.eqb_eq in HP. subst f2. destruct (Z.eqb_spec (get_cpt pos) (ch " ")) as [Esp |]; [| done].
      apply last_space_matches; try done; [by unfold others; rewrite Hw0 |]. pose proof (rest_flags (pos + 1) 0 ltac:(lia)) as H1. rewrite Z.add_0_r in H1. rewrite H1 in HP.
      pose proof (rest_plain (pos + 1)) as Hpl. destruct (rest (pos + 1)) as [| d s']; [done |]. apply Forall_cons in Hpl as [Hd _]. by apply plain_facts in Hd as (_ & Hd & _).
    + apply blanks_matches; try done. rewrite Hc. subst f2. destruct (Z.eqb_spec (get_cpt pos) (ch " ")) as [Esp |]; [apply Hs; unfold is_space; by rewrite <- Hc, Esp |].
      apply negb_false_iff in Ef. rewrite <- Hf, En, orb_false_r in Ef. apply orb_true_iff in Ef as [Ef | Ef]; [unfold W; by rewrite <- Hf |].
      rewrite Ef in Ew. rewrite Hf in Ef. destruct (Hwx c Hp Ef) as [HW _]. rewrite orb_false_r, andb_true_r in Ew. apply negb_false_iff in Ew. apply Hs. rewrite <- Hc. by rewrite Ew, orb_true_r.
Qed.
End Words.

(** the classes of a word *)
Lemma letter_class c : plain D c = true -> is_letter (flags D c) = true -> W D c = false /\ N' D c = false.
Proof.
  intros Hp HL. apply plain_facts in Hp as (_ & _ & _ & H1 & _). unfold one_of, L in H1. rewrite HL in H1. by destruct (N' D c), (W D c).
Qed.
Lemma mark_class c : plain D c = true -> letter_or_mark (flags D c) = true -> W D c = false /\ N' D c = false.
Proof.
  intros Hp HL. apply plain_facts in Hp as (_ & _ & _ & H1 & _). unfold letter_or_mark in HL. unfold one_of, L in H1.
  by destruct (is_letter _), (is_accent_mark _), (N' D c), (W D c).
Qed.
Lemma one_digit_matches word pos out : word 0 = false -> (forall f, is_letter f = true -> word f = true) ->
  (forall c, plain D c = true -> word (flags D c) = true -> W D c = false /\ N' D c = false) ->
  a <= pos < b -> number_at D cpts a b pos = true -> matches_from (words_regex D (fun c => word (flags D c)) 1) pos out (one_digit b pos (pos, out)).
Proof.
  intros H0 HL Hx H Hn. rewrite number_run in Hn by lia. apply Nat.ltb_lt in Hn. apply add_to_matches; try lia.
  destruct (rest_cons pos H) as (c & t & E & Hc & _). rewrite (digit_match word H0 HL Hx) by (first [lia | rewrite E in Hn; simpl in Hn; rewrite Hc; by destruct (N' D c); [| lia] ]).
  do 2 f_equal. lia.
Qed.

Lemma llama3_matches pos out : a <= pos < b -> matches_from (llama3_regex D) pos out (llama3_step D cpts a b pos (pos, out)).
Proof.
  intros H. apply (words_matches is_letter); try done; try lia; [apply letter_class |]. intros p o Hp Hn. rewrite number_run in Hn by lia. apply Nat.ltb_lt in Hn.
  unfold three_digits. pose proof (three_digits_loop is_letter eq_refl (fun f H => H) letter_class (S (Z.to_nat (b - p))) p p o p []) as G. rewrite app_nil_r in G.
  apply G; try lia. constructor.
Qed.
Lemma qwen2_matches pos out : a <= pos < b -> matches_from (qwen2_regex D) pos out (qwen2_step D cpts a b pos (pos, out)).
Proof.
  intros H. apply (words_matches is_letter); try done; try lia; [apply letter_class |]. intros. apply (one_digit_matches is_letter); try done. apply letter_class.
Qed.
Lemma letter_is_word f : is_letter f = true -> letter_or_mark f = true.
Proof. unfold letter_or_mark. by intros ->. Qed.
Lemma qwen35_matches pos out : a <= pos < b -> matches_from (qwen35_regex D) pos out (qwen35_step D cpts a b pos (pos, out)).
Proof.
  intros H. apply (words_matches letter_or_mark); try done; try lia; [apply letter_is_word | apply mark_class |].
  intros. apply (one_digit_matches letter_or_mark); try done; [apply letter_is_word | apply mark_class].
Qed.
End Match.
