(* ===== verification/UnicodeProps.v ===== *)
(** * Splitting a text into words: what the pre-tokenizers promise *)

From S2P Require Import Prelude Text Utf8 Unicode UnicodeSplit UnicodeFacts SplitRegex SplitMatch.

(** ** The words of the hand-written splitters are those of their expressions *)
Section Words.
Context (D : unicode_data).

Lemma part_loop_words r step1 cpts a b fuel pos out :
  0 <= a <= pos -> pos <= b <= Zlen cpts -> (Z.to_nat (b - pos) <= fuel)%nat ->
  (forall pos out, a <= pos < b -> matches_from cpts b r pos out (step1 pos (pos, out))) ->
  exists new, part_loop b fuel step1 pos (pos, out) = Ok (b, out ++ new) /\ chain r (rest cpts b pos) new [].
Proof.
  intros Ha Hb Hf Hs. revert pos out Ha Hb Hf. induction fuel as [| fuel IH]; intros pos out Ha Hb Hf; cbn [part_loop]; destruct (Z.leb_spec b pos); try lia.
  1,2: assert (pos = b) as -> by lia; exists []; rewrite app_nil_r; split; [done |];
    replace (rest cpts b b) with (@nil Z) by (unfold rest, vslice; by rewrite Z.sub_diag); constructor.
  destruct (Hs pos out ltac:(lia)) as (pos' & new & -> & Hlt & Hd). cbn [rbind].
  destruct (IH pos' (out ++ new) ltac:(lia) ltac:(lia) ltac:(lia)) as (new' & -> & Hd'). exists (new ++ new'). rewrite <- app_assoc. split; [done |].
  by eapply matches_app.
Qed.

Lemma split_part_words r step1 cpts a b out : 0 <= a <= b -> b <= Zlen cpts ->
  (forall pos out, a <= pos < b -> matches_from cpts b r pos out (step1 pos (pos, out))) ->
  exists new, split_part a b step1 out = Ok (out ++ new) /\ chain r (rest cpts b a) new [].
Proof.
  intros Ha Hb Hs. unfold split_part. destruct (part_loop_words r step1 cpts a b (Z.to_nat (b - a)) a out) as (new & -> & Hc); try done; try lia. by exists new.
Qed.

(** the parts of a text *)
Fixpoint cut (cpts : list Z) (offsets : list Z) (start : Z) : list (list Z) :=
  match offsets with [] => [] | n :: ns => vslice cpts start n :: cut cpts ns (start + n) end.
(** the words of a part by an expression *)
Definition part_words (r : regex) (part l : list Z) : Prop := words_by (length part) r part = Some l.

Definition step_matches (r : regex) (step1 : list Z -> Z -> Z -> Z -> recorder -> res (Z * recorder)) : Prop :=
  forall cpts a b pos out, 0 <= a <= b -> b <= Zlen cpts -> Forall (fun c => plain D c = true) cpts -> a <= pos < b ->
  matches_from cpts b r pos out (step1 cpts a b pos (pos, out)).
Lemma parts_words r step1 cpts offsets start out : step_matches r step1 -> Forall (fun c => plain D c = true) cpts ->
  Forall (fun n => 0 <= n) offsets -> 0 <= start -> start + total offsets <= Zlen cpts ->
  exists ls, parts_loop (fun cpts a b => split_part a b (step1 cpts a b)) cpts offsets start out = Ok (out ++ concat ls) /\ Forall2 (part_words r) (cut cpts offsets start) ls.
Proof.
  intros Hs Hp Ho. revert start out. induction Ho as [| n ns Hn Hns IH]; intros start out H0 Ht; cbn [parts_loop cut]; simpl total in Ht.
  { exists []. by rewrite app_nil_r. }
  assert (0 <= total ns) by (clear -Hns; induction Hns; simpl; lia). rewrite (proj2 (Z.leb_le (start + n) (Zlen cpts))) by lia.
  destruct (split_part_words r (step1 cpts start (start + n)) cpts start (start + n) out) as (new & -> & Hc); [lia | lia | |].
  { intros pos o Hpos. apply Hs; [lia | lia | done | lia]. }
  cbn [rbind]. destruct (IH (start + n) (out ++ new) ltac:(lia) ltac:(lia)) as (ls & -> & Hf). exists (new :: ls). rewrite <- app_assoc. split; [done |].
  constructor; [| done]. unfold rest in Hc. replace (start + n - start) with n in Hc by lia. by apply chain_words.
Qed.
Lemma split_with_words r step1 text cps offsets : step_matches r step1 -> unicode_cpts_from_utf8 text = Ok cps -> Forall (fun c => plain D c = true) cps ->
  Forall (fun n => 0 <= n) offsets -> total offsets = Zlen cps ->
  exists ls, split_with (fun cpts a b => split_part a b (step1 cpts a b)) text offsets = Ok (concat ls) /\ Forall2 (part_words r) (cut cps offsets 0) ls.
Proof.
  intros Hs E Hp Ho Ht. unfold split_with. rewrite E. cbn [rbind]. destruct (parts_words r step1 cps offsets 0 [] Hs Hp Ho ltac:(lia) ltac:(lia)) as (ls & -> & H).
  by exists ls.
Qed.

(** the expressions the splitters are written for *)
Definition written_for : list (list Z * regex) :=
  [(gpt2_expr, gpt2_regex D); (llama3_expr, llama3_regex D); (llama3_expr', llama3_regex D); (qwen2_expr, qwen2_regex D); (qwen35_expr, qwen35_regex D)].
End Words.

(** C29: the hand-written splitters of the gpt2, llama3, qwen2 and qwen35 pre-tokenizers cut every
    part of a text into the words that their regular expressions find: the successive first matches
    of a backtracking engine, alternatives in order and repetition greedy.  The tables are assumed
    to give every character of the text flags and at most one of the classes letter, number, white
    space and mark, and to count blanks and line breaks as white space.  The other hand-written splitters are not part of this: the one
    of Kimi K2 differs from its expression (kimi_k2_ignores_case). *)
Theorem splitters_match_expressions (D : unicode_data) (text cps : list Z) (offsets expr : list Z) (r : regex) :
  (expr, r) ∈ written_for D -> unicode_cpts_from_utf8 text = Ok cps -> Forall (fun c => plain D c = true) cps ->
  Forall (fun n => 0 <= n) offsets -> total offsets = Zlen cps ->
  exists ls, unicode_regex_split_custom D text expr offsets = Ok (concat ls) /\ Forall2 (part_words r) (cut cps offsets 0) ls.
Proof.
  intros Hr E Hp Ho Ht. assert (G : forall e s, (e, s) ∈ written_for D ->
    exists step1, step_matches D s step1 /\ unicode_regex_split_custom D text e offsets = split_with (fun cpts a b => split_part a b (step1 cpts a b)) text offsets).
  { intros e s Hin. repeat apply elem_of_cons in Hin as [Hin | Hin]; try by apply elem_of_nil in Hin.
    all: injection Hin as -> ->.
    - exists (gpt2_step D). split; [intros cpts a b pos out ????; by apply (gpt2_matches D cpts a b) | reflexivity].
    - exists (llama3_step D). split; [intros cpts a b pos out ????; by apply (llama3_matches D cpts a b) | reflexivity].
    - exists (llama3_step D). split; [intros cpts a b pos out ????; by apply (llama3_matches D cpts a b) | reflexivity].
    - exists (qwen2_step D). split; [intros cpts a b pos out ????; by apply (qwen2_matches D cpts a b) | reflexivity].
    - exists (qwen35_step D). split; [intros cpts a b pos out ????; by apply (qwen35_matches D cpts a b) | reflexivity]. }
  destruct (G expr r Hr) as (step1 & Hs & ->). by apply (split_with_words D).
Qed.

(** tables for ASCII: control characters, separators, punctuation, digits and letters *)
Definition ascii_data : unicode_data := mkData
  [(0, 0x80); (0x20, 0x08); (0x21, PUNCTUATION); (0x30, NUMBER); (0x3A, PUNCTUATION); (0x41, LETTER); (0x5B, PUNCTUATION); (0x61, LETTER); (0x7B, PUNCTUATION); (0x7F, UNDEFINED); (0x110000, 0)]
  [9; 10; 11; 12; 13; 32] ((fun k => (65 + Z.of_nat k, 97 + Z.of_nat k)) <$> seq 0 26) [] [mkNfd 0 0 0].
Lemma splitters_match_expressions_witness :
  unicode_regex_split_custom ascii_data (bytes "He said 'Don'T': 12345!!  ok ") llama3_expr [28; 1] = Ok [2; 5; 2; 3; 2; 2; 1; 3; 2; 2; 1; 3; 1] /\
  exists ls, unicode_regex_split_custom ascii_data (bytes "He said 'Don'T': 12345!!  ok ") llama3_expr [28; 1] = Ok (concat ls) /\
    Forall2 (part_words (llama3_regex ascii_data)) (cut (bytes "He said 'Don'T': 12345!!  ok ") [28; 1] 0) ls.
Proof.
  split; [vm_compute; reflexivity |]. apply splitters_match_expressions.
  - unfold written_for. apply list_elem_of_further, list_elem_of_here.
  - vm_compute. reflexivity.
  - apply (bool_decide_eq_true_1 (Forall _ _)). vm_compute. reflexivity.
  - repeat constructor; lia.
  - vm_compute. reflexivity.
Defined.

(** ** Every pre-tokenizer divides the text *)
(** documented behaviour of std::regex_iterator: matches lie in the range searched, in order, and do
    not overlap *)
Fixpoint in_order (from : Z) (ms : list (Z * Z)) (n : Z) : Prop :=
  match ms with [] => from <= n | (p, l) :: ms => from <= p /\ 0 <= l /\ in_order (p + l) ms n end.
Definition regex_in_order (regex_matches : bool -> list Z -> list Z -> option (list (Z * Z))) : Prop :=
  forall wide e s ms, regex_matches wide e s = Some ms -> in_order 0 ms (Zlen s).
(** lengths of the parts of a text of [n] code points *)
Definition lengths (n : Z) (l : list Z) : Prop := Forall (fun x => 0 <= x) l /\ total l = n.
Lemma lengths_app n m l k : lengths n l -> lengths m k -> lengths (n + m) (l ++ k).
Proof. intros [H1 H2] [H3 H4]. split; [by apply Forall_app |]. rewrite total_app. lia. Qed.
Lemma lengths_one n : 0 <= n -> lengths n [n].
Proof. intros. split; [by repeat constructor | simpl; lia]. Qed.

Section Divide.
Context (D : unicode_data) (regex_matches : bool -> list Z -> list Z -> option (list (Z * Z))).

Definition hand_written (e : list Z) : bool :=
  existsb (is_expr e) [gpt2_expr; llama3_expr; llama3_expr'; qwen2_expr; qwen35_expr; kimi_k2_expr; afmoe_expr; newlines_expr; tiny_aya_expr].
Lemma custom_refines text cpts e offsets : unicode_cpts_from_utf8 text = Ok cpts -> Forall (fun n => 0 <= n) offsets -> total offsets = Zlen cpts ->
  exists l, unicode_regex_split_custom D text e offsets = Ok l /\ (if hand_written e then refines_parts offsets l else l = []).
Proof.
  intros E Ho Ht. assert (G : forall split1, splitter_divides split1 -> exists l, split_with split1 text offsets = Ok l /\ refines_parts offsets l)
    by (intros; by eapply split_with_divides).
  unfold unicode_regex_split_custom, hand_written. cbn [existsb]. rewrite orb_false_r.
  destruct (is_expr e gpt2_expr); [apply G; intros cp a b out ? ?; apply split_part_divides; [apply gpt2_divides | lia] |].
  destruct (is_expr e llama3_expr); [apply G; intros cp a b out ? ?; apply split_part_divides; [apply llama3_divides | lia] |].
  destruct (is_expr e llama3_expr'); [apply G; intros cp a b out ? ?; apply split_part_divides; [apply llama3_divides | lia] |].
  destruct (is_expr e qwen2_expr); [apply G; intros cp a b out ? ?; apply split_part_divides; [apply qwen2_divides | lia] |].
  destruct (is_expr e qwen35_expr); [apply G; intros cp a b out ? ?; apply split_part_divides; [apply qwen35_divides | lia] |].
  destruct (is_expr e kimi_k2_expr); [apply G; intros cp a b out ? ?; apply split_part_divides; [apply kimi_k2_divides | lia] |].
  destruct (is_expr e afmoe_expr); [apply G; intros cp a b out ? ?; apply afmoe_divides; lia |].
  destruct (is_expr e newlines_expr); [apply G; intros cp a b out ? ?; apply newline_loop_divides; lia |].
  destruct (is_expr e tiny_aya_expr); [apply G; intros cp a b out ? ?; apply afmoe_divides; lia |]. by exists [].
Qed.

Lemma matches_loop_lengths ms from n out : in_order from ms n -> exists e new, matches_loop ms from out = (e, out ++ new) /\ lengths (e - from) new /\ e <= n.
Proof.
  revert from out. induction ms as [| [p l] ms IH]; intros from out H; simpl in *.
  { exists from, []. rewrite app_nil_r, Z.sub_diag. repeat split; [constructor | done]. }
  destruct H as (Hp & Hl & H). destruct (IH (p + l) ((if from <? p then out ++ [p - from] else out) ++ [l]) H) as (e & new & -> & Hn & He).
  assert (G : lengths (e - from) ((if from <? p then [p - from] else []) ++ [l] ++ new)).
  { replace (e - from) with ((p - from) + (l + (e - (p + l)))) by lia. apply lengths_app; [| apply lengths_app; [by apply lengths_one | done] ].
    destruct (Z.ltb_spec from p); [apply lengths_one; lia |]. split; [constructor | simpl; lia]. }
  exists e, ((if from <? p then [p - from] else []) ++ [l] ++ new). split; [| done]. destruct (from <? p); by rewrite <- !app_assoc.
Qed.
Lemma stl_lengths wide text e offsets start out : regex_in_order regex_matches -> Forall (fun n => 0 <= n) offsets -> 0 <= start -> start + total offsets <= Zlen text ->
  safe (fun l => exists new, l = out ++ new /\ lengths (total offsets) new) (unicode_regex_split_stl regex_matches wide text e offsets start out).
Proof.
  intros Hr Ho. revert start out. induction Ho as [| n ns Hn Hns IH]; intros start out H0 Ht; cbn [unicode_regex_split_stl]; simpl total in *.
  { exists []. rewrite app_nil_r. split; [done |]. split; [constructor | done]. }
  assert (0 <= total ns) by (clear -Hns; induction Hns; simpl; lia).
  destruct (regex_matches wide e (vslice text start n)) as [ms |] eqn:Em; [| done]. apply Hr in Em. rewrite vslice_length in Em by lia.
  destruct (matches_loop_lengths ms 0 n out Em) as (e' & new & -> & Hnew & He). rewrite Z.sub_0_r in Hnew.
  set (out' := if e' <? n then (out ++ new) ++ [n - e'] else out ++ new).
  assert (Hout : exists new', out' = out ++ new' /\ lengths n new').
  { subst out'. destruct (Z.ltb_spec e' n); [exists (new ++ [n - e']); rewrite app_assoc; split; [done |] | exists new; split; [done |]; by replace n with e' by lia].
    replace n with (e' + (n - e')) at 1 by lia. apply lengths_app; [done |]. apply lengths_one. lia. }
  destruct Hout as (new' & -> & Hnew'). eapply safe_weaken; [apply IH; lia |]. intros l (new2 & -> & Hn2). exists (new' ++ new2). rewrite app_assoc. split; [done |]. by apply lengths_app.
Qed.

Lemma find_first_bound pat s k : find_first_of pat s = Some k -> (k <= length s)%nat.
Proof.
  revert k. induction s as [| c s IH]; simpl; intros k; case_match; intros; simplify_eq; try lia.
  destruct (find_first_of pat s) as [m |]; simplify_eq/=. specialize (IH m eq_refl). lia.
Qed.
Lemma category_at_after r i cat e : category_at r i = Some (cat, e) -> (i < e)%nat.
Proof.
  unfold category_at, find_str. intros H. repeat case_match; simplify_eq/=; try done.
  destruct (find_first_of _ _) as [k |]; simplify_eq/=. destruct (assoc _ _); simplify_eq/=. lia.
Qed.
Lemma collapse_expr_safe fuel r i inside out : (length r <= fuel + i)%nat -> safe (fun _ => True) (collapse_expr fuel r i inside out).
Proof.
  revert i inside out. induction fuel as [| fuel IH]; intros i inside out Hf; cbn [collapse_expr]; destruct (Nat.leb_spec (length r) i); try done; try lia.
  repeat (case_match; try (apply IH; lia)); try done. all: apply IH; repeat match goal with H : category_at _ _ = Some _ |- _ => apply category_at_after in H end; lia.
Qed.
Lemma refines_lengths offsets l : refines_parts offsets l -> lengths (total offsets) l.
Proof.
  intros H. split; [| by apply refines_parts_total]. destruct H as (ls & -> & H). apply Forall_concat. induction H as [| n k ns ks [Hk _] _ IH]; constructor; [| done].
  eapply Forall_impl; [exact Hk |]. simpl. lia.
Qed.

Section Exprs.
Context (text cpts : list Z) (Hcpts : unicode_cpts_from_utf8 text = Ok cpts).
Lemma apply_expr_lengths e offsets : regex_in_order regex_matches -> lengths (Zlen cpts) offsets ->
  safe (lengths (Zlen cpts)) (apply_expr D regex_matches text cpts e offsets).
Proof.
  intros Hr [Ho Ht]. unfold apply_expr. destruct (custom_refines text cpts e offsets Hcpts Ho Ht) as (l & -> & Hl). cbn [rbind].
  destruct l as [| x l]; [| destruct (hand_written e); [| done]; apply refines_lengths in Hl; by rewrite Ht in Hl].
  destruct (cpts_from_utf8_ok e) as [ce ->]. cbn [rbind].
  assert (G : forall wide f ex, safe (lengths (Zlen cpts)) (unicode_regex_split_stl regex_matches wide (f <$> cpts) ex offsets 0 [])).
  { intros wide f ex. eapply safe_weaken; [apply stl_lengths; try done; unfold Zlen; rewrite length_fmap; fold (Zlen cpts); lia |].
    intros l (new & -> & Hn). by rewrite Ht in Hn. }
  destruct (uses_category e); [| apply G]. destruct (existsb _ ce); [done |].
  eapply safe_bind; [apply collapse_expr_safe; lia |]. intros ex _. apply G.
Qed.
Lemma apply_exprs_lengths exprs offsets : regex_in_order regex_matches -> lengths (Zlen cpts) offsets ->
  safe (lengths (Zlen cpts)) (apply_exprs D regex_matches text cpts exprs offsets).
Proof.
  intros Hr. revert offsets. induction exprs as [| e es IH]; intros offsets Ho; simpl; [done |]. eapply safe_bind; [by apply apply_expr_lengths |]. auto.
Qed.
(** splitters written by hand make words that are not empty *)
Lemma apply_exprs_divides exprs offsets : forallb hand_written exprs = true -> offsets <> [] -> divides (Zlen cpts) offsets ->
  exists l, apply_exprs D regex_matches text cpts exprs offsets = Ok l /\ divides (Zlen cpts) l.
Proof.
  revert offsets. induction exprs as [| e es IH]; intros offsets He Hne Ho; cbn [apply_exprs]; [by exists offsets |].
  cbn [forallb] in He. apply andb_true_iff in He as [He Hes]. destruct Ho as [Hp Ht]. unfold apply_expr.
  destruct (custom_refines text cpts e offsets Hcpts) as (l & -> & Hl); [eapply Forall_impl; [exact Hp | simpl; lia] | done |]. cbn [rbind]. rewrite He in Hl.
  assert (Hd : divides (Zlen cpts) l).
  { split; [| by rewrite (refines_parts_total _ _ Hl)]. destruct Hl as (ls & -> & H). apply Forall_concat. clear -H. induction H as [| n k ns ks [Hk _] _ IH]; by constructor. }
  assert (Hn : l <> []).
  { intros ->. apply refines_parts_total in Hl. destruct offsets as [| x xs]; [done |]. apply Forall_cons in Hp as [Hx Hxs]. simpl in Hl.
    assert (0 <= total xs) by (clear -Hxs; induction Hxs; simpl; lia). lia. }
  destruct l as [| x l]; [done |]. cbn [rbind]. by apply IH.
Qed.
End Exprs.
End Divide.

(** ** The words make the text *)
Definition encode_all (cps : list Z) : list Z := concat (utf8_encode <$> cps).
Lemma encode_all_app l k : encode_all (l ++ k) = encode_all l ++ encode_all k.
Proof. unfold encode_all. by rewrite fmap_app, concat_app. Qed.
Lemma vslice_split (cpts : list Z) start n m : 0 <= start -> 0 <= n -> 0 <= m -> vslice cpts start n ++ vslice cpts (start + n) m = vslice cpts start (n + m).
Proof.
  intros. unfold vslice. rewrite !Z2Nat.inj_add by lia. rewrite <- drop_drop. set (l := drop (Z.to_nat start) cpts).
  set (i := Z.to_nat n). set (j := Z.to_nat m). clearbody l i j. clear. revert l. induction i as [| i IH]; intros l; [by rewrite drop_0 |].
  destruct l as [| x l]; [by destruct j |]. simpl. by rewrite IH.
Qed.
Lemma words_of_ok cpts offsets start : Forall codepoint cpts -> Forall (fun n => 0 <= n) offsets -> 0 <= start -> start + total offsets <= Zlen cpts ->
  words_of cpts offsets start = Ok (encode_all <$> cut cpts offsets start) /\ concat (cut cpts offsets start) = vslice cpts start (total offsets).
Proof.
  intros Hc Ho. revert start. induction Ho as [| n ns Hn Hns IH]; intros start H0 Ht; cbn [words_of cut]; simpl total in *; [done |].
  assert (0 <= total ns) by (clear -Hns; induction Hns; simpl; lia). rewrite (proj2 (Z.leb_le (start + n) (Zlen cpts))) by lia.
  rewrite cpts_to_utf8_encode by (by apply Forall_take, Forall_drop). destruct (IH (start + n) ltac:(lia) ltac:(lia)) as [-> E].
  split; [done |]. cbn [concat]. rewrite E. apply vslice_split; lia.
Qed.
Lemma encode_all_concat ps : concat (encode_all <$> ps) = encode_all (concat ps).
Proof. induction ps as [| p ps IH]; [done |]. cbn [concat]. rewrite encode_all_app, <- IH. done. Qed.

(** the byte alphabet applied to a string *)
Definition byte_encoded (w : list Z) : list Z := concat ((fun b => utf8_encode (byte_cpt b)) <$> w).
Lemma utf8_encode_bytes c : codepoint c -> Forall is_byte (utf8_encode c).
Proof.
  intros [H0 H1]. unfold utf8_encode, is_byte.
  assert (M : forall x, 0 <= 0x80 + x mod 64 < 256) by (intros x; pose proof (Z.mod_pos_bound x 64); lia).
  pose proof (fun d n => div_range c d n) as Hd.
  destruct (Z.ltb_spec c 0x80); [| destruct (Z.ltb_spec c 0x800); [| destruct (Z.ltb_spec c 0x10000) ] ]; repeat constructor; try (apply M); try lia.
  - specialize (Hd 64 32). lia.
  - specialize (Hd 64 32). lia.
  - specialize (Hd 4096 16). lia.
  - specialize (Hd 4096 16). lia.
  - specialize (Hd 262144 8). lia.
  - specialize (Hd 262144 8). lia.
Qed.
Lemma encode_all_bytes cps : Forall codepoint cps -> Forall is_byte (encode_all cps).
Proof. intros H. apply Forall_concat, Forall_fmap. eapply Forall_impl; [exact H |]. apply utf8_encode_bytes. Qed.
Lemma byte_encode_all_ok w : Forall is_byte w -> byte_encode_all w = Ok (byte_encoded w).
Proof. induction 1 as [| b w Hb _ IH]; [done |]. cbn [byte_encode_all]. by rewrite byte_to_utf8_cpt, IH. Qed.
Lemma byte_encoding_ok ps : Forall (Forall codepoint) ps -> unicode_byte_encoding_process (encode_all <$> ps) = Ok (byte_encoded <$> (encode_all <$> ps)).
Proof.
  induction 1 as [| p ps Hp _ IH]; [done |]. rewrite fmap_cons. cbn [unicode_byte_encoding_process]. unfold encode_all at 1. rewrite cpts_from_utf8_encode by done. cbn [rbind].
  rewrite cpts_to_utf8_encode by done. cbn [rbind]. rewrite byte_encode_all_ok by (by apply encode_all_bytes). cbn [rbind]. by rewrite IH.
Qed.
Lemma cut_codepoints cpts offsets start : Forall codepoint cpts -> Forall (Forall codepoint) (cut cpts offsets start).
Proof. intros H. revert start. induction offsets as [| n ns IH]; intros start; simpl; constructor; [by apply Forall_take, Forall_drop | apply IH]. Qed.
Lemma cut_not_empty cpts l start : Forall (fun n => 0 < n) l -> 0 <= start -> start + total l <= Zlen cpts -> Forall (fun p => encode_all p <> []) (cut cpts l start).
Proof.
  intros H. revert start. induction H as [| n ns Hn Hns IH]; intros start H0 Hb; simpl in *; constructor.
  - assert (0 <= total ns) by (clear -Hns; induction Hns; simpl; lia). intros E.
    assert (Hl : Zlen (vslice cpts start n) = n) by (apply vslice_length; lia). destruct (vslice cpts start n) as [| c s]; [rewrite Zlen_nil in Hl; lia |].
    unfold encode_all in E. apply (f_equal length) in E. simpl in E. rewrite length_app in E. pose proof (utf8_encode_size c). lia.
  - apply IH; lia.
Qed.
Lemma vslice_all (l : list Z) : vslice l 0 (Zlen l) = l.
Proof. unfold vslice, Zlen. rewrite Nat2Z.id, drop_0. by rewrite firstn_all. Qed.

Lemma words_encoded cps l (byte_encode : bool) : Forall codepoint cps -> lengths (Zlen cps) l ->
  (let! w := words_of cps l 0 in if byte_encode then unicode_byte_encoding_process w else Ok w) =
    Ok (if byte_encode then byte_encoded <$> (encode_all <$> cut cps l 0) else encode_all <$> cut cps l 0) /\ concat (encode_all <$> cut cps l 0) = encode_all cps.
Proof.
  intros Hc [Hl Ht]. destruct (words_of_ok cps l 0 Hc Hl ltac:(lia) ltac:(lia)) as [-> E2]. cbn [rbind].
  rewrite encode_all_concat, E2, Ht, vslice_all. split; [| done]. destruct byte_encode; [| done]. by rewrite byte_encoding_ok by (by apply cut_codepoints).
Qed.
(** splitters written by hand always return, and no word is empty *)
Lemma split_hand_written (D : unicode_data) regex_matches (text cps : list Z) exprs (byte_encode : bool) : Forall codepoint cps -> text = encode_all cps -> forallb hand_written exprs = true -> text <> [] ->
  exists ws, concat ws = text /\ Forall (fun w => w <> []) ws /\ unicode_regex_split D regex_matches text exprs byte_encode = Ok (if byte_encode then byte_encoded <$> ws else ws).
Proof.
  intros Hc -> He Hne. unfold unicode_regex_split. pose proof (cpts_from_utf8_encode cps Hc) as E. fold (encode_all cps) in E. rewrite E. cbn [rbind].
  assert (0 < Zlen cps) by (destruct cps; [done | rewrite Zlen_cons; pose proof (Zlen_nonneg cps); lia]).
  destruct (apply_exprs_divides D regex_matches (encode_all cps) cps E exprs [Zlen cps] He ltac:(done) (divides_one (Zlen cps) ltac:(lia))) as (l & -> & Hp & Ht). cbn [rbind].
  destruct (words_encoded cps l byte_encode Hc) as [-> E2]; [split; [eapply Forall_impl; [exact Hp | simpl; lia] | done] |]. exists (encode_all <$> cut cps l 0). split; [done |]. split; [| done].
  apply Forall_fmap, cut_not_empty; [done | lia | lia].
Qed.

(** C30: whatever expressions a pre-tokenizer has, splitting a valid text never loses or changes a
    byte: with splitters written by hand and a text that is not empty it always returns and no word is empty, with std::regex it
    returns or throws, words may be empty (empty_match_empty_word), and in both cases the words joined are the text (with [byte_encode], each
    word written in the byte alphabet).  Of std::regex only the documented order of its matches is
    assumed. *)
Theorem regex_split_lossless (D : unicode_data) regex_matches (text cps : list Z) (exprs : list (list Z)) (byte_encode : bool) :
  regex_in_order regex_matches -> Forall codepoint cps -> text = encode_all cps ->
  safe (fun words => exists ws, concat ws = text /\ words = if byte_encode then byte_encoded <$> ws else ws)
    (unicode_regex_split D regex_matches text exprs byte_encode) /\
  (forallb hand_written exprs = true -> text <> [] -> exists ws, concat ws = text /\ Forall (fun w => w <> []) ws /\
    unicode_regex_split D regex_matches text exprs byte_encode = Ok (if byte_encode then byte_encoded <$> ws else ws)).
Proof.
  intros Hr Hc ->. split; [| intros; by apply (split_hand_written D regex_matches _ cps)]. unfold unicode_regex_split. pose proof (cpts_from_utf8_encode cps Hc) as E. fold (encode_all cps) in E. rewrite E. cbn [rbind].
  eapply safe_bind; [apply apply_exprs_lengths; [done | done | apply lengths_one, Zlen_nonneg] |]. intros l Hl. destruct (words_encoded cps l byte_encode Hc Hl) as [-> E2]. by exists (encode_all <$> cut cps l 0).
Qed.
Lemma regex_split_lossless_witness :
  unicode_regex_split ascii_data (fun _ _ s => Some [(0, Zlen s)]) (bytes "naive caf" ++ [0xC3; 0xA9]) [llama3_expr] true =
    Ok [bytes "naive"; [0xC4; 0xA0] ++ bytes "caf"; [0xC3; 0x83; 0xC2; 0xA9]] /\
  exists ws, concat ws = bytes "naive caf" ++ [0xC3; 0xA9] /\ Forall (fun w => w <> []) ws /\
    unicode_regex_split ascii_data (fun _ _ s => Some [(0, Zlen s)]) (bytes "naive caf" ++ [0xC3; 0xA9]) [llama3_expr] true = Ok (byte_encoded <$> ws).
Proof.
  split; [vm_compute; reflexivity |].
  apply (regex_split_lossless ascii_data (fun _ _ s => Some [(0, Zlen s)]) _ (bytes "naive caf" ++ [0xE9]) [llama3_expr] true); try reflexivity; try done.
  - intros wide e s ms [= <-]. pose proof (Zlen_nonneg s). simpl. lia.
  - apply (bool_decide_unpack _). vm_compute. exact I.
Defined.

(** ** Findings *)
(** the expressions of the superbpe pre-tokenizer *)
Definition superbpe_exprs : list (list Z) := [bytes "\p{N}+"; bytes "(?=(\d{3})+(?!\d))"].
Lemma is_ok_inv {A : Type} (r : res A) : (match r with Ok _ => true | Err _ => false end) = true -> exists x, r = Ok x.
Proof. destruct r as [x |]; [by exists x | done]. Qed.
Lemma superbpe_applies regex_matches (wide : bool) (ms : list (Z * Z)) (e : list Z) : (wide = false /\ e = bytes "\p{N}+" \/ wide = true /\ e = bytes "(?=(\d{3})+(?!\d))") ->
  (forall e', regex_matches wide e' (bytes "123456") = Some ms) ->
  apply_expr ascii_data regex_matches (bytes "123456") (bytes "123456") e [6] = Ok (let '(start_idx, out) := matches_loop ms 0 [] in if start_idx <? 6 then out ++ [6 - start_idx] else out).
Proof.
  intros He H. set (text := bytes "123456") in *. assert (G : forall e', unicode_regex_split_stl regex_matches wide text e' [6] 0 [] = Ok (let '(start_idx, out) := matches_loop ms 0 [] in if start_idx <? 6 then out ++ [6 - start_idx] else out)).
  { intros e'. cbn [unicode_regex_split_stl]. replace (vslice text 0 6) with text by (vm_compute; reflexivity). rewrite H. by destruct (matches_loop ms 0 []). }
  unfold apply_expr. replace (wide_cpt ascii_data <$> text) with text by (vm_compute; reflexivity). replace (collapse_cpt ascii_data <$> text) with text by (vm_compute; reflexivity).
  destruct He as [ [-> ->] | [-> ->] ].
  - set (e := bytes "\p{N}+") in *. replace (unicode_regex_split_custom ascii_data text e [6]) with (Ok (@nil Z)) by (vm_compute; reflexivity).
    replace (unicode_cpts_from_utf8 e) with (Ok e) by (vm_compute; reflexivity). cbn [rbind]. replace (uses_category e) with true by (vm_compute; reflexivity). replace (existsb (fun c => 128 <=? c) e) with false by (vm_compute; reflexivity).
    destruct (is_ok_inv (collapse_expr (length e) e 0 false []) ltac:(vm_compute; reflexivity)) as [k ->]. apply G.
  - set (e := bytes "(?=(\d{3})+(?!\d))") in *. replace (unicode_regex_split_custom ascii_data text e [6]) with (Ok (@nil Z)) by (vm_compute; reflexivity).
    replace (unicode_cpts_from_utf8 e) with (Ok e) by (vm_compute; reflexivity). cbn [rbind]. replace (uses_category e) with false by (vm_compute; reflexivity). apply G.
Qed.
(** A match of length 0 becomes a word of length 0: the second expression of superbpe matches the empty text before every group of three digits, and
    123456, one run of digits for the first, is divided into four words, two of them empty. *)
Theorem empty_match_empty_word (regex_matches : bool -> list Z -> list Z -> option (list (Z * Z))) :
  (forall e, regex_matches false e (bytes "123456") = Some [(0, 6)]) -> (forall e, regex_matches true e (bytes "123456") = Some [(0, 0); (3, 0)]) ->
  unicode_regex_split ascii_data regex_matches (bytes "123456") superbpe_exprs false = Ok [[]; bytes "123"; []; bytes "456"].
Proof.
  intros H1 H2. unfold unicode_regex_split. replace (unicode_cpts_from_utf8 (bytes "123456")) with (Ok (bytes "123456")) by (vm_compute; reflexivity). cbn [rbind].
  change (Zlen (bytes "123456")) with 6. unfold superbpe_exprs. cbn [apply_exprs].
  rewrite (superbpe_applies regex_matches false [(0, 6)]); [cbn [rbind matches_loop] | by left | done].
  rewrite (superbpe_applies regex_matches true [(0, 0); (3, 0)]); [vm_compute; reflexivity | by right | done].
Qed.
Lemma to_utf8_cases c : if c <=? 0x10FFFF then exists u, unicode_cpt_to_utf8 c = Ok u else unicode_cpt_to_utf8 c = throw! "invalid codepoint".
Proof.
  unfold unicode_cpt_to_utf8. destruct (Z.leb_spec c 0x10FFFF) as [H | H].
  - destruct (Z.leb_spec c 0x7F); [by eexists |]. rewrite (proj2 (Z.leb_le 0x80 c)) by lia. destruct (Z.leb_spec c 0x7FF); [by eexists |].
    rewrite (proj2 (Z.leb_le 0x800 c)) by lia. destruct (Z.leb_spec c 0xFFFF); [by eexists |]. rewrite (proj2 (Z.leb_le 0x10000 c)) by lia. by eexists.
  - by rewrite !(proj2 (Z.leb_gt c _)), !andb_false_r by lia.
Qed.
Lemma cpts_to_utf8_cases cps : if forallb (fun c => c <=? 0x10FFFF) cps then exists w, unicode_cpts_to_utf8 cps = Ok w else unicode_cpts_to_utf8 cps = throw! "invalid codepoint".
Proof.
  induction cps as [| c cps IH]; [by exists [] |]. cbn [forallb unicode_cpts_to_utf8]. pose proof (to_utf8_cases c) as Hc.
  destruct (c <=? 0x10FFFF); [| by rewrite Hc]. destruct Hc as [u ->]. cbn [rbind andb]. destruct (forallb _ cps); [| by rewrite IH].
  destruct IH as [w ->]. by eexists.
Qed.
Lemma words_of_large cpts offsets start : forallb (fun c => c <=? 0x10FFFF) (vslice cpts start (total offsets)) = false -> Forall (fun n => 0 <= n) offsets -> 0 <= start ->
  start + total offsets <= Zlen cpts -> words_of cpts offsets start = throw! "invalid codepoint".
Proof.
  intros H Ho. revert start H. induction Ho as [| n ns Hn Hns IH]; intros start H H0 Ht; cbn [words_of]; simpl total in *; [done |].
  assert (0 <= total ns) by (clear -Hns; induction Hns; simpl; lia). rewrite (proj2 (Z.leb_le (start + n) (Zlen cpts))) by lia.
  rewrite <- vslice_split, forallb_app in H by lia. pose proof (cpts_to_utf8_cases (vslice cpts start n)) as Hc.
  destruct (forallb _ (vslice cpts start n)); [| by rewrite Hc]. destruct Hc as [w ->]. cbn [rbind]. rewrite IH by (done || lia). done.
Qed.

(** A text in which a four-byte sequence encodes a number above 0x10FFFF makes splitting throw
    std::invalid_argument, with every pre-tokenizer written by hand.  The decoder accepts such
    sequences where it replaces every other invalid byte, so that (says its comment) no exception
    leaves the tokenizer. *)
Theorem too_large_code_point_throws (D : unicode_data) regex_matches (text cpts : list Z) (exprs : list (list Z)) (byte_encode : bool) :
  unicode_cpts_from_utf8 text = Ok cpts -> forallb (fun c => c <=? 0x10FFFF) cpts = false -> forallb hand_written exprs = true ->
  unicode_regex_split D regex_matches text exprs byte_encode = throw! "invalid codepoint".
Proof.
  intros E Hl He. unfold unicode_regex_split. rewrite E. cbn [rbind].
  assert (0 < Zlen cpts) by (destruct cpts; [done | rewrite Zlen_cons; pose proof (Zlen_nonneg cpts); lia]).
  destruct (apply_exprs_divides D regex_matches text cpts E exprs [Zlen cpts] He ltac:(done) (divides_one (Zlen cpts) ltac:(lia))) as (l & -> & Hp & Ht). cbn [rbind].
  rewrite words_of_large; [done | by rewrite Ht, vslice_all | eapply Forall_impl; [exact Hp | simpl; lia] | lia | lia].
Qed.
Lemma too_large_code_point_throws_witness :
  unicode_regex_split ascii_data (fun _ _ _ => None) [0x61; 0xF5; 0x80; 0x80; 0x80] [gpt2_expr] true = throw! "invalid codepoint".
Proof. apply (too_large_code_point_throws ascii_data _ _ [0x61; 0x140000]); vm_compute; reflexivity. Defined.

(** the part of the documented expression of kimi_k2 that words in Latin letters meet:
    [\p{Lu}...]*[\p{Ll}...]+ or [\p{Lu}...]+[\p{Ll}...]* *)
Definition upper_char (c : Z) : bool := (65 <=? c) && (c <=? 90).
Definition lower_char (c : Z) : bool := (97 <=? c) && (c <=? 122).
Definition kimi_k2_words : regex := Alt (Seq (Star upper_char) (Plus lower_char)) (Seq (Plus upper_char) (Star lower_char)).
(** the kimi_k2 splitter takes a run of letters as one word, whatever its case: HelloWorld stays
    whole, where the expression it is written for cuts it before the second capital. *)
Theorem kimi_k2_ignores_case :
  unicode_regex_split_custom ascii_data (bytes "HelloWorld") kimi_k2_expr [10] = Ok [10] /\ part_words kimi_k2_words (bytes "HelloWorld") [5; 5].
Proof. split; vm_compute; reflexivity. Qed.
