(* ===== verification/Merge.v ===== *)
(** * Merging neighbouring symbols (the work queue of the SPM and BPE sessions,
    src/iian/tokenizer/vocab.cpp)

    Both sessions keep a vector of symbols, doubly linked by index, and a priority queue of pairs
    that may be merged; entries are not removed when they become outdated but skipped when they are
    popped.  What differs is how a pair is made and recognised as outdated, which is the [bigram]
    interface; std::priority_queue is the interface [PQueue], any implementation that satisfies its
    laws.  A [const char *] into a text is the text from there on. *)

From S2P Require Import Prelude Text Unicode.

(** ** Symbols *)
Record llm_symbol := mkSym { s_prev : Z; s_next : Z; s_text : list Z; s_n : Z }.
(** std::string(symbol.text, symbol.n) *)
Definition str (s : llm_symbol) : list Z := take (Z.to_nat (s_n s)) (s_text s).
Definition set_n (n : Z) (s : llm_symbol) : llm_symbol := mkSym (s_prev s) (s_next s) (s_text s) n.
Definition relink_next (i : Z) (s : llm_symbol) : llm_symbol := mkSym (s_prev s) i (s_text s) (s_n s).
Definition relink_prev (i : Z) (s : llm_symbol) : llm_symbol := mkSym i (s_next s) (s_text s) (s_n s).

(** the characters of a text as symbols; [index] is the number of the first one *)
Fixpoint split_chars (fuel : nat) (index : Z) (s : list Z) : res (list llm_symbol) :=
  match s with
  | [] => Ok []
  | c :: _ =>
      match fuel with
      | O => Err Fuel
      | S fuel =>
          let n := Z.min (unicode_len_utf8 c) (Zlen s) in
          let s' := drop (Z.to_nat n) s in
          let! rest := split_chars fuel (index + 1) s' in
          Ok (mkSym (index - 1) (if bool_decide (s' = []) then -1 else index + 1) s n :: rest)
      end
  end.

(** ** std::priority_queue: [below x y] is the comparison the queue is ordered by *)
Class PQueue {E : Type} (below : E -> E -> bool) (Q : Type) := {
  q_empty : Q;
  q_push : E -> Q -> Q;
  (** top() and pop(); [None] when empty *)
  q_pop : Q -> option (E * Q);
  contents : Q -> list E;
  contents_empty : contents q_empty = [];
  contents_push e q : contents (q_push e q) ≡ₚ e :: contents q;
  pop_empty q : q_pop q = None -> contents q = [];
  pop_top e q q' : q_pop q = Some (e, q') -> contents q ≡ₚ e :: contents q' /\ Forall (fun x => below e x = false) (contents q') }.

(** a list as a queue: the element that no other one is above is searched *)
Fixpoint take_top {E} (below : E -> E -> bool) (q : list E) : option (E * list E) :=
  match q with
  | [] => None
  | e :: q => match take_top below q with
              | None => Some (e, q)
              | Some (t, q') => if below e t then Some (t, e :: q') else Some (e, q)
              end
  end.

(** ** Pairs *)
Record bigram_ops (B X : Type) := mkOps {
  b_left : B -> Z;
  b_right : B -> Z;
  (** the entry for two symbols and their indices, if they may be merged *)
  b_make : llm_symbol -> llm_symbol -> Z -> Z -> res (option B);
  (** the symbols are still those the entry was made for *)
  b_current : B -> llm_symbol -> llm_symbol -> bool;
  b_below : B -> B -> bool;
  (** what else is recorded when an entry is pushed *)
  b_note : llm_symbol -> llm_symbol -> Z -> Z -> X -> X }.
Arguments b_left {B X}. Arguments b_right {B X}. Arguments b_make {B X}. Arguments b_current {B X}. Arguments b_below {B X}. Arguments b_note {B X}.

Section Session.
Context {B X Q : Type} (ops : bigram_ops B X) `{PQ : !PQueue (b_below ops) Q}.

Record session := mkSession { symbols : list llm_symbol; work_queue : Q; noted : X }.

(** try_add_bigram, add_new_bigram *)
Definition add_bigram (left right : Z) (st : session) : res session :=
  if (left =? -1) || (right =? -1) then Ok st else
  let! l := vget (symbols st) left in
  let! r := vget (symbols st) right in
  let! b := b_make ops l r left right in
  match b with
  | None => Ok st
  | Some b => Ok (mkSession (symbols st) (q_push b (work_queue st)) (b_note ops l r left right (noted st)))
  end.
(** all pairs of neighbours, in order *)
Fixpoint seed_queue (todo : nat) (i : Z) (st : session) : res session :=
  match todo with
  | O => Ok st
  | S todo => let! st := add_bigram (i - 1) i st in seed_queue todo (i + 1) st
  end.

(** the right symbol goes into the left one and out of the chain *)
Definition merge_symbols (left right : Z) (syms : list llm_symbol) : res (list llm_symbol) :=
  let! l := vget syms left in
  let! r := vget syms right in
  let! syms := vset syms left (set_n (s_n l + s_n r) l) in
  let! r := vget syms right in
  let! syms := vset syms right (set_n 0 r) in
  let! l := vget syms left in
  let! r := vget syms right in
  let! syms := vset syms left (relink_next (s_next r) l) in
  if 0 <=? s_next r then
    let! k := vget syms (s_next r) in vset syms (s_next r) (relink_prev left k)
  else Ok syms.

(** one popped entry *)
Definition merge_step (b : B) (st : session) : res session :=
  let left := b_left ops b in
  let right := b_right ops b in
  let! l := vget (symbols st) left in
  let! r := vget (symbols st) right in
  if (s_n l =? 0) || (s_n r =? 0) || negb (b_current ops b l r) then Ok st else
  let! syms := merge_symbols left right (symbols st) in
  let st := mkSession syms (work_queue st) (noted st) in
  let! l := vget syms left in
  let! st := add_bigram (s_prev l) left st in
  add_bigram left (s_next l) st.
Fixpoint merge_loop (fuel : nat) (st : session) : res session :=
  match q_pop (work_queue st) with
  | None => Ok st
  | Some (b, q) =>
      match fuel with
      | O => Err Fuel
      | S fuel => let! st := merge_step b (mkSession (symbols st) q (noted st)) in merge_loop fuel st
      end
  end.
(** the queue filled, then emptied *)
Definition merge_all (syms : list llm_symbol) (x : X) : res session :=
  let! st := seed_queue (length syms - 1) 1 (mkSession syms q_empty x) in
  merge_loop (3 * length syms) st.
End Session.
Arguments mkSession {X Q}. Arguments symbols {X Q}. Arguments work_queue {X Q}. Arguments noted {X Q}.
