(* ===== verification/MergeInv.v ===== *)
(** * The merging sessions against the plain algorithm

    The reference: merge the pair of neighbours with the best key, the leftmost among equals, until
    no pair can be merged.  The sessions do it with a queue whose entries may be outdated.  The
    invariant: the symbols that are alive form a chain that covers the text, every pair of
    neighbours that can be merged has its entry in the queue, and an entry that is not outdated is
    one of those. *)

From S2P Require Import Prelude Text Unicode UnicodeFacts Merge.
From Stdlib Require Import Sorting.Sorted.

(** ** The reference *)
Section Reference.
Context {K : Type} (better : K -> K -> bool) (cand : list Z -> list Z -> option K).

(** the position and key of the best pair of neighbours, the leftmost among equals *)
Fixpoint best_pair (l : list (list Z)) : option (nat * K) :=
  match l with
  | a :: t =>
      match t with
      | b :: _ =>
          match cand a b, best_pair t with
          | Some k, Some (i, k') => if better k' k then Some (S i, k') else Some (O, k)
          | Some k, None => Some (O, k)
          | None, Some (i, k') => Some (S i, k')
          | None, None => None
          end
      | [] => None
      end
  | [] => None
  end.
Fixpoint merge_at (i : nat) (l : list (list Z)) : list (list Z) :=
  match i, l with
  | O, a :: b :: t => (a ++ b) :: t
  | S i, a :: t => a :: merge_at i t
  | _, _ => l
  end.
Fixpoint greedy_steps (fuel : nat) (l : list (list Z)) : list (list Z) :=
  match fuel with
  | O => l
  | S fuel => match best_pair l with Some (i, _) => greedy_steps fuel (merge_at i l) | None => l end
  end.
(** a merge makes the list shorter, so the length is enough *)
Definition greedy (l : list (list Z)) : list (list Z) := greedy_steps (length l) l.

Lemma best_pair_cons a b t : best_pair (a :: b :: t) = match cand a b, best_pair (b :: t) with
  | Some k, Some (i, k') => if better k' k then Some (S i, k') else Some (O, k)
  | Some k, None => Some (O, k)
  | None, Some (i, k') => Some (S i, k')
  | None, None => None
  end.
Proof. reflexivity. Qed.
Lemma best_pair_bound l i k : best_pair l = Some (i, k) -> (S i < length l)%nat.
Proof.
  revert i k. induction l as [| a [| b t] IH]; intros i k; [done | done |]. rewrite best_pair_cons.
  destruct (best_pair (b :: t)) as [[j k'] |]; [specialize (IH j k' eq_refl) |]; destruct (cand a b); try destruct (better _ _); intros; simplify_eq; simpl in *; lia.
Qed.
Lemma merge_at_length i l : (S i < length l)%nat -> length (merge_at i l) = pred (length l).
Proof.
  revert i. induction l as [| a l IH]; intros [| i] H; simpl in *; [lia | lia | destruct l; simpl in *; lia | rewrite IH by lia; lia].
Qed.
Lemma merge_at_concat i l : concat (merge_at i l) = concat l.
Proof.
  revert i. induction l as [| a l IH]; intros [| i]; simpl; try done; [destruct l; simpl; by rewrite ?app_assoc | by rewrite IH].
Qed.
Lemma greedy_steps_more n l : (length l <= n)%nat -> greedy_steps n l = greedy l.
Proof.
  unfold greedy. remember (length l) as m eqn:Em. intros H. assert (Hm : (length l <= m)%nat) by lia. clear Em. revert n l Hm H.
  induction m as [| m IH]; intros n l Hm H.
  - destruct l; simpl in Hm; [| lia]. by destruct n.
  - destruct n as [| n]; [lia |]. cbn [greedy_steps]. destruct (best_pair l) as [[i k] |] eqn:E; [| done].
    apply best_pair_bound in E. apply IH; [rewrite merge_at_length by done |]; lia.
Qed.
Lemma greedy_step l i k : best_pair l = Some (i, k) -> greedy l = greedy (merge_at i l).
Proof.
  intros E. pose proof (best_pair_bound _ _ _ E) as Hb. unfold greedy at 1. destruct (length l) as [| n] eqn:El; [lia |]. cbn [greedy_steps]. rewrite E.
  apply greedy_steps_more. rewrite merge_at_length by lia. lia.
Qed.
Lemma greedy_done l : best_pair l = None -> greedy l = l.
Proof. intros E. unfold greedy. destruct (length l); [done |]. cbn [greedy_steps]. by rewrite E. Qed.
Lemma greedy_concat l : concat (greedy l) = concat l.
Proof.
  unfold greedy. generalize (length l) as n. intros n. revert l. induction n as [| n IH]; intros l; [done |]. cbn [greedy_steps].
  case_match; [| done]. case_match. by rewrite IH, merge_at_concat.
Qed.

(** the key of the pair at a position *)
Definition pair_key (l : list (list Z)) (i : nat) : option K :=
  match l !! i, l !! S i with Some a, Some b => cand a b | _, _ => None end.
Lemma best_pair_none l : (forall i, pair_key l i = None) -> best_pair l = None.
Proof.
  induction l as [| a [| b t] IH]; intros H; [done | done |]. rewrite best_pair_cons. pose proof (H O) as H0. unfold pair_key in H0. simpl in H0. rewrite H0.
  rewrite IH; [done |]. intros i. apply (H (S i)).
Qed.
Lemma best_pair_key l i k : best_pair l = Some (i, k) -> pair_key l i = Some k.
Proof.
  revert i k. induction l as [| a [| b t] IH]; intros i k; [done | done |]. rewrite best_pair_cons.
  destruct (best_pair (b :: t)) as [[j k'] |]; [specialize (IH j k' eq_refl) |]; destruct (cand a b) eqn:Ec; try destruct (better _ _); intros; simplify_eq; try done.
Qed.
(** a position that is better than those before and not worse than those after is the best *)
Lemma best_pair_at l i k : pair_key l i = Some k ->
  (forall j k', (j < i)%nat -> pair_key l j = Some k' -> better k k' = true) ->
  (forall j k', (i < j)%nat -> pair_key l j = Some k' -> better k' k = false) -> best_pair l = Some (i, k).
Proof.
  revert i. induction l as [| a t IH]; intros i Hk Hb Ha; [by destruct i |].
  destruct t as [| b t]; [unfold pair_key in Hk; destruct i; simpl in Hk; [done | by destruct i] |]. rewrite best_pair_cons.
  destruct i as [| i].
  - unfold pair_key in Hk. simpl in Hk. rewrite Hk. destruct (best_pair (b :: t)) as [[j k'] |] eqn:E; [| done].
    apply best_pair_key in E as Hj.
    by rewrite (Ha (S j) k' ltac:(lia) Hj).
  - rewrite (IH i); [| done | intros j k' Hj; apply (Hb (S j)); lia | intros j k' Hj; apply (Ha (S j)); lia].
    destruct (cand a b) as [k0 |] eqn:Ec; [| done]. by rewrite (Hb O k0 ltac:(lia)) by (unfold pair_key; simpl; done).
Qed.
End Reference.

(** ** A list as a priority queue, for a comparison that is a strict weak order *)
Section ListQueue.
Context {E : Type} (below : E -> E -> bool).
Context (below_asym : forall x y, below x y = true -> below y x = false).
Context (below_split : forall x y z, below x z = true -> below x y = true \/ below y z = true).
Lemma take_top_ok q e q' : take_top below q = Some (e, q') -> q ≡ₚ e :: q' /\ Forall (fun x => below e x = false) q'.
Proof.
  revert e q'. induction q as [| x q IH]; intros e q' H; simpl in H; [done |]. destruct (take_top below q) as [[t r] |] eqn:Et.
  - destruct (IH t r eq_refl) as [Hp Hf]. destruct (below x t) eqn:Ex; injection H as <- <-.
    + split; [rewrite Hp; apply Permutation_swap |]. constructor; [by apply below_asym | done].
    + split; [done |]. rewrite Hp. constructor; [done |]. eapply Forall_impl; [exact Hf |]. intros z Hz. simpl in *. destruct (below x z) eqn:Ez; [| done].
      destruct (below_split x t z Ez); congruence.
  - injection H as <- <-. destruct q as [| y q]; [by split |]. simpl in Et. by destruct (take_top below q) as [[] |]; [destruct (below _ _) |].
Qed.
Lemma take_top_none q : take_top below q = None -> q = [].
Proof. destruct q as [| x q]; [done |]. simpl. by destruct (take_top below q) as [[] |]; [destruct (below _ _) |]. Qed.
Definition list_queue : PQueue below (list E) := {|
  q_empty := []; q_push := cons; q_pop := take_top below; contents := fun q => q;
  contents_empty := eq_refl; contents_push := fun e q => reflexivity (e :: q); pop_empty := take_top_none; pop_top := fun e q q' => take_top_ok q e q' |}.
End ListQueue.

(** * Chains of symbols *)

(** the index of a symbol before or after, -1 at the ends *)
Definition hd_or (d : Z) (l : list Z) : Z := match l with i :: _ => i | [] => d end.
Fixpoint last_or (d : Z) (l : list Z) : Z := match l with i :: l => last_or i l | [] => d end.
Lemma last_or_app d l k : last_or d (l ++ k) = last_or (last_or d l) k.
Proof. revert d. induction l as [| i l IH]; intros d; simpl; [done | apply IH]. Qed.

(** the symbols [ix], linked from [p] to [nx], cover the text from [s] to [s'] *)
Fixpoint seg (syms : list llm_symbol) (p : Z) (ix : list Z) (nx : Z) (s s' : list Z) : Prop :=
  match ix with
  | [] => s = s'
  | i :: ix => exists sy, vlookup syms i = Some sy /\ s_prev sy = p /\ s_next sy = hd_or nx ix /\ s_text sy = s /\ 0 < s_n sy <= Zlen s /\
      seg syms i ix nx (drop (Z.to_nat (s_n sy)) s) s'
  end.
(** their strings *)
Definition pieces (syms : list llm_symbol) (ix : list Z) : list (list Z) := (fun i => default [] (str <$> vlookup syms i)) <$> ix.

Lemma run_app syms p ix1 ix2 nx s s' : seg syms p (ix1 ++ ix2) nx s s' <-> exists m, seg syms p ix1 (hd_or nx ix2) s m /\ seg syms (last_or p ix1) ix2 nx m s'.
Proof.
  revert p s. induction ix1 as [| i ix1 IH]; intros p s; simpl.
  - split; [intros H; by exists s | intros (m & -> & H); done].
  - assert (E : hd_or nx (ix1 ++ ix2) = hd_or (hd_or nx ix2) ix1) by (by destruct ix1). rewrite E. split.
    + intros (sy & H1 & H2 & H3 & H4 & H5 & H). apply IH in H as (m & Ha & Hb). exists m. split; [by exists sy | done].
    + intros (m & (sy & H1 & H2 & H3 & H4 & H5 & Ha) & Hb). exists sy. repeat split; try done; try lia. apply IH. by exists m.
Qed.
Lemma run_frame syms syms' p ix nx s s' : (forall i, i ∈ ix -> vlookup syms' i = vlookup syms i) -> seg syms p ix nx s s' -> seg syms' p ix nx s s'.
Proof.
  revert p s. induction ix as [| i ix IH]; intros p s He H; simpl in *; [done |]. destruct H as (sy & H1 & H2 & H3 & H4 & H5 & H).
  exists sy. rewrite He by set_solver. repeat split; try done; try lia. apply IH; [| done]. intros j Hj. apply He. set_solver.
Qed.
Lemma seg_length syms p ix nx s s' : seg syms p ix nx s s' -> Zlen s' <= Zlen s.
Proof.
  revert p s. induction ix as [| i ix IH]; intros p s H; simpl in *; [by subst |]. destruct H as (sy & _ & _ & _ & _ & Hn & H). apply IH in H.
  unfold Zlen in *. rewrite length_drop in H. lia.
Qed.
Lemma seg_pieces syms p ix nx s s' : seg syms p ix nx s s' -> s = concat (pieces syms ix) ++ s'.
Proof.
  revert p s. induction ix as [| i ix IH]; intros p s H; [done |]. destruct H as (sy & H1 & _ & _ & H4 & Hn & H). apply IH in H.
  change (pieces syms (i :: ix)) with (default [] (str <$> vlookup syms i) :: pieces syms ix). cbn [concat]. rewrite H1. simpl. unfold str.
  by rewrite H4, <- app_assoc, <- H, take_drop.
Qed.
(** an alive symbol of the chain is told by the length of its text *)
Lemma seg_text syms p ix nx s s' i sy : seg syms p ix nx s s' -> i ∈ ix -> vlookup syms i = Some sy ->
  0 < s_n sy <= Zlen (s_text sy) /\ exists ix1 ix2 m, ix = ix1 ++ i :: ix2 /\ s_text sy = m /\ seg syms p ix1 i s m /\
    s_prev sy = last_or p ix1 /\ s_next sy = hd_or nx ix2 /\ seg syms i ix2 nx (drop (Z.to_nat (s_n sy)) m) s'.
Proof.
  intros H Hi Hl. apply list_elem_of_split in Hi as (ix1 & ix2 & ->). apply run_app in H as (m & H1 & H2). simpl in H2.
  destruct H2 as (sy' & E1 & E2 & E3 & E4 & E5 & H2). rewrite E1 in Hl. injection Hl as ->. split; [by subst m |]. exists ix1, ix2, m. simpl in H1. done.
Qed.
Lemma seg_text_lt syms p ix nx s s' i sy : seg syms p ix nx s s' -> i ∈ ix -> vlookup syms i = Some sy -> Zlen s' < Zlen (s_text sy) <= Zlen s.
Proof.
  intros H Hi Hl. destruct (seg_text _ _ _ _ _ _ _ _ H Hi Hl) as (Hn & ix1 & ix2 & m & -> & Hm & H1 & _ & _ & H2).
  apply seg_length in H1, H2. subst m. unfold Zlen in *. rewrite length_drop in H2. lia.
Qed.
Lemma seg_text_inj syms p ix nx s s' i j a b : seg syms p ix nx s s' -> i ∈ ix -> j ∈ ix -> vlookup syms i = Some a -> vlookup syms j = Some b ->
  s_text a = s_text b -> i = j.
Proof.
  revert p s. induction ix as [| k ix IH]; intros p s H Hi Hj Ha Hb E; [set_solver |]. simpl in H. destruct H as (sy & H1 & _ & _ & H4 & Hn & H).
  assert (G : forall x c, x ∈ ix -> vlookup syms x = Some c -> Zlen (s_text c) < Zlen s).
  { intros x c Hx Hc. pose proof (seg_text_lt _ _ _ _ _ _ _ _ H Hx Hc) as [_ Hl]. unfold Zlen in *. rewrite length_drop in Hl. lia. }
  apply elem_of_cons in Hi as [-> | Hi], Hj as [-> | Hj]; [done | | | by eapply IH].
  - pose proof (G j b Hj Hb). rewrite H1 in Ha. simplify_eq. rewrite E in *. lia.
  - pose proof (G i a Hi Ha). rewrite H1 in Hb. simplify_eq. rewrite <- E in *. lia.
Qed.

(** ** Merging two neighbours *)
(** [P] holds of the bytes of the text *)
Definition adjacent (P : Z -> Prop) (l r : llm_symbol) : Prop :=
  s_text r = drop (Z.to_nat (s_n l)) (s_text l) /\ 0 < s_n l /\ 0 < s_n r /\ s_n l + s_n r <= Zlen (s_text l) /\ Forall P (s_text l).
Lemma adjacent_str P l r : adjacent P l r -> take (Z.to_nat (s_n l + s_n r)) (s_text l) = str l ++ str r.
Proof.
  intros (E & Hl & Hr & Hb & _). unfold str. rewrite E, Z2Nat.inj_add by lia. set (i := Z.to_nat (s_n l)). set (j := Z.to_nat (s_n r)).
  generalize (s_text l) as t. clearbody i j. clear. induction i as [| i IH]; intros t; [by rewrite drop_0 |]. destruct t as [| x t]; [by destruct j |]. simpl. by rewrite IH.
Qed.
Lemma vget_lookup {A} (l : list A) i x : vlookup l i = Some x -> vget l i = Ok x.
Proof. apply vget_Ok. Qed.
Lemma vset_lookup {A} (l : list A) i x y : vlookup l i = Some x -> vset l i y = Ok (vinsert i y l).
Proof. intros H. apply vset_Ok. by eapply vlookup_Some_range. Qed.
Lemma vlookup_insert_same {A} (l : list A) i x y : vlookup l i = Some x -> vlookup (vinsert i y l) i = Some y.
Proof. intros H. apply vlookup_vinsert_eq. by eapply vlookup_Some_range. Qed.

(** what merge_symbols does, seen through lookups *)
Lemma merge_symbols_ok i j syms l r : vlookup syms i = Some l -> vlookup syms j = Some r -> i <> j ->
  (s_next r < 0 \/ (s_next r <> i /\ s_next r <> j /\ is_Some (vlookup syms (s_next r)))) ->
  exists syms', merge_symbols i j syms = Ok syms' /\ Zlen syms' = Zlen syms /\
    vlookup syms' i = Some (relink_next (s_next r) (set_n (s_n l + s_n r) l)) /\ vlookup syms' j = Some (set_n 0 r) /\
    (forall k, k <> i -> k <> j -> vlookup syms' k = if (0 <=? s_next r) && (k =? s_next r) then relink_prev i <$> vlookup syms k else vlookup syms k).
Proof.
  intros Hi Hj Hne Hk. unfold merge_symbols. rewrite (vget_lookup _ _ _ Hi), (vget_lookup _ _ _ Hj). cbn [rbind].
  rewrite (vset_lookup _ _ _ _ Hi). cbn [rbind]. assert (Hj1 : vlookup (vinsert i (set_n (s_n l + s_n r) l) syms) j = Some r) by (by rewrite vlookup_vinsert_ne).
  rewrite (vget_lookup _ _ _ Hj1). cbn [rbind]. rewrite (vset_lookup _ _ _ _ Hj1). cbn [rbind]. set (l1 := set_n (s_n l + s_n r) l) in *.
  set (s2 := vinsert j (set_n 0 r) (vinsert i l1 syms)).
  assert (Hi2 : vlookup s2 i = Some l1) by (subst s2; rewrite vlookup_vinsert_ne by done; by eapply vlookup_insert_same).
  assert (Hj2 : vlookup s2 j = Some (set_n 0 r)) by (subst s2; by eapply vlookup_insert_same).
  rewrite (vget_lookup _ _ _ Hi2), (vget_lookup _ _ _ Hj2). cbn [rbind]. rewrite (vset_lookup _ _ _ _ Hi2). cbn [rbind]. change (s_next (set_n 0 r)) with (s_next r).
  set (s3 := vinsert i (relink_next (s_next r) l1) s2).
  assert (L3 : forall k, k <> i -> k <> j -> vlookup s3 k = vlookup syms k) by (intros k H1 H2; subst s3 s2; by rewrite !vlookup_vinsert_ne by done).
  assert (Hi3 : vlookup s3 i = Some (relink_next (s_next r) l1)) by (by eapply vlookup_insert_same).
  assert (Hj3 : vlookup s3 j = Some (set_n 0 r)) by (subst s3; by rewrite vlookup_vinsert_ne).
  assert (Z3 : Zlen s3 = Zlen syms) by (subst s3 s2; by rewrite !Zlen_vinsert).
  destruct Hk as [Hk | (Hki & Hkj & [k Hk])].
  - rewrite (proj2 (Z.leb_gt 0 _) Hk). exists s3. by repeat split.
  - pose proof (vlookup_Some_range _ _ _ Hk). rewrite (proj2 (Z.leb_le 0 (s_next r))) by lia. rewrite <- L3 in Hk by done.
    rewrite (vget_lookup _ _ _ Hk). cbn [rbind]. rewrite (vset_lookup _ _ _ _ Hk). eexists. split; [done |]. rewrite Zlen_vinsert. split; [done |].
    rewrite !vlookup_vinsert_ne by done. do 2 (split; [done |]). intros x Hx1 Hx2. simpl. destruct (Z.eqb_spec x (s_next r)) as [-> | Hx].
    + rewrite (vlookup_insert_same _ _ _ _ Hk). rewrite <- L3 by done. by rewrite Hk.
    + rewrite vlookup_vinsert_ne by done. by apply L3.
Qed.

(** * The invariant of the merging sessions *)


(** what the theorems need of the two kinds of entries: the key of a pair depends on the two
    strings only (and is found for texts whose bytes have a property [P]), the comparison is by key and then by position, and an entry is recognised as
    current exactly when its symbols have not grown *)
Class BigramLaws {B X K : Type} (ops : bigram_ops B X) (key : B -> K) (better : K -> K -> bool) (cand : list Z -> list Z -> option K) (P : Z -> Prop) := {
  below_spec x y : b_below ops x y = better (key y) (key x) || (negb (better (key x) (key y)) && (b_left ops y <? b_left ops x));
  make_none l r i j : adjacent P l r -> cand (str l) (str r) = None -> b_make ops l r i j = Ok None;
  make_some l r i j k : adjacent P l r -> cand (str l) (str r) = Some k ->
    exists b, b_make ops l r i j = Ok (Some b) /\ key b = k /\ b_left ops b = i /\ b_right ops b = j;
  make_ext l r l' r' i j : s_text l = s_text l' -> s_n l = s_n l' -> s_text r = s_text r' -> s_n r = s_n r' -> b_make ops l r i j = b_make ops l' r' i j;
  current_spec l r l' r' i j b : adjacent P l r -> b_make ops l r i j = Ok (Some b) -> adjacent P l' r' -> s_text l' = s_text l -> s_text r' = s_text r ->
    b_current ops b l' r' = (s_n r' =? s_n r) }.

Section Invariant.
Context {B X Q K : Type} (ops : bigram_ops B X) `{PQ : !PQueue (b_below ops) Q}.
Context (key : B -> K) (better : K -> K -> bool) (cand : list Z -> list Z -> option K) (P : Z -> Prop) `{BL : !BigramLaws ops key better cand P}.
Notation session := (@session X Q).
Notation adjacent := (adjacent P).
Implicit Types (st : session) (syms : list llm_symbol) (ix : list Z).

(** ** Definitions *)
Definition neighbours ix (i j : Z) : Prop := exists ix1 ix2, ix = ix1 ++ i :: j :: ix2.
(** an entry was made for two neighbours; while both are alive the left one is unchanged and the
    right one has at most grown *)
Definition entry_ok syms (b : B) : Prop := exists l r ol or,
  vlookup syms (b_left ops b) = Some l /\ vlookup syms (b_right ops b) = Some r /\
  b_make ops ol or (b_left ops b) (b_right ops b) = Ok (Some b) /\ adjacent ol or /\ s_text l = s_text ol /\ s_text r = s_text or /\
  (0 < s_n l -> 0 < s_n r -> s_n l = s_n ol /\ s_n or <= s_n r).
Definition complete (except : Z -> Z -> Prop) ix syms (q : list B) : Prop := forall i j l r b, neighbours ix i j -> ~ except i j ->
  vlookup syms i = Some l -> vlookup syms j = Some r -> b_make ops l r i j = Ok (Some b) -> b ∈ q.
Record chain_ok (w : list Z) ix syms : Prop := mkChain {
  c_good : Forall P w;
  c_seg : seg syms (-1) ix (-1) w [];
  c_sorted : StronglySorted Z.lt ix;
  c_pos : Forall (fun i => 0 <= i) ix;
  c_dead : forall i sy, vlookup syms i = Some sy -> i ∉ ix -> s_n sy = 0 }.
Record inv (except : Z -> Z -> Prop) (w : list Z) ix st : Prop := mkInv {
  i_chain : chain_ok w ix (symbols st);
  i_entries : forall b, b ∈ contents (work_queue st) -> entry_ok (symbols st) b;
  i_complete : complete except ix (symbols st) (contents (work_queue st)) }.

(** ** Neighbours *)
Lemma adjacent_texts l r : adjacent l r -> s_text l <> s_text r.
Proof. intros (E & ? & ? & ? & ?) Ht. rewrite <- Ht in E. apply (f_equal Zlen) in E. unfold Zlen in *. rewrite length_drop in E. lia. Qed.
Lemma neighbours_adjacent w ix syms i j l r : chain_ok w ix syms -> neighbours ix i j -> vlookup syms i = Some l -> vlookup syms j = Some r ->
  adjacent l r /\ s_next l = j /\ s_prev r = i.
Proof.
  intros [Hg Hs _ _ _] (ix1 & ix2 & ->) Hi Hj. apply run_app in Hs as (m & Hm & Hs). simpl in Hs. destruct Hs as (l' & E1 & _ & Hn & Ht & Hl & r' & E2 & Hp & _ & Ht' & Hr & _).
  rewrite E1 in Hi. rewrite E2 in Hj. injection Hi as ->. injection Hj as ->. split; [| done]. unfold adjacent. rewrite Ht', Ht. repeat split; try lia.
  - unfold Zlen in *. rewrite length_drop in Hr. lia.
  - rewrite (seg_pieces _ _ _ _ _ _ Hm) in Hg. by apply Forall_app in Hg as [_ Hg].
Qed.
Lemma alive_in w ix syms i sy : chain_ok w ix syms -> vlookup syms i = Some sy -> 0 < s_n sy -> i ∈ ix.
Proof. intros [_ _ _ _ Hd] Hl Hn. destruct (decide (i ∈ ix)) as [| Hi]; [done |]. specialize (Hd i sy Hl Hi). lia. Qed.
(** two alive symbols, the text of one after the string of the other, are neighbours *)
Lemma texts_neighbours w ix syms i j l r : chain_ok w ix syms -> i ∈ ix -> j ∈ ix -> vlookup syms i = Some l -> vlookup syms j = Some r ->
  s_text r = drop (Z.to_nat (s_n l)) (s_text l) -> neighbours ix i j.
Proof.
  intros Hc Hi Hj Hl Hr Ht. pose proof (c_seg _ _ _ Hc) as Hs. destruct (seg_text _ _ _ _ _ _ _ _ Hs Hi Hl) as (Hn & ix1 & ix2 & m & E & Hm & _ & _ & _ & H2).
  destruct ix2 as [| k ix2]; simpl in H2.
  - pose proof (seg_text_lt _ _ _ _ _ _ _ _ Hs Hj Hr) as H3. rewrite Ht, Hm, H2 in H3. lia.
  - destruct H2 as (sk & Hk & _ & _ & Hkt & _). assert (k = j) as ->; [| by exists ix1, ix2].
    eapply (seg_text_inj _ _ _ _ _ _ k j sk r Hs); try done; [rewrite E; set_solver |]. by rewrite Hkt, Ht, Hm.
Qed.
Lemma neighbours_in ix i j : neighbours ix i j -> i ∈ ix /\ j ∈ ix.
Proof. intros (ix1 & ix2 & ->). set_solver. Qed.
Lemma sorted_app_lt ix1 ix2 i j : StronglySorted Z.lt (ix1 ++ ix2) -> i ∈ ix1 -> j ∈ ix2 -> i < j.
Proof.
  induction ix1 as [| k ix1 IH]; simpl; intros Hs Hi Hj; [set_solver |]. apply StronglySorted_inv in Hs as [Hs Hf]. apply elem_of_cons in Hi as [-> | Hi]; [| auto].
  rewrite Forall_forall in Hf. apply Hf. set_solver.
Qed.
Lemma sorted_app ix1 ix2 : StronglySorted Z.lt (ix1 ++ ix2) -> StronglySorted Z.lt ix1 /\ StronglySorted Z.lt ix2.
Proof.
  induction ix1 as [| k ix1 IH]; simpl; intros Hs; [split; [constructor | done] |]. apply StronglySorted_inv in Hs as [Hs Hf]. destruct (IH Hs) as [H1 H2].
  split; [| done]. constructor; [done |]. by apply Forall_app in Hf as [? _].
Qed.
Lemma sorted_remove ix1 j ix2 : StronglySorted Z.lt (ix1 ++ j :: ix2) -> StronglySorted Z.lt (ix1 ++ ix2).
Proof.
  induction ix1 as [| k ix1 IH]; simpl; intros Hs; apply StronglySorted_inv in Hs as [Hs Hf]; [done |]. constructor; [by apply IH |].
  apply Forall_app in Hf as [? Hf]. apply Forall_cons in Hf as [_ Hf]. by apply Forall_app.
Qed.
Lemma sorted_not_in ix1 j ix2 : StronglySorted Z.lt (ix1 ++ j :: ix2) -> j ∉ ix1 /\ j ∉ ix2.
Proof.
  intros Hs. split; intros Hin.
  - pose proof (sorted_app_lt _ _ j j Hs Hin ltac:(set_solver)). lia.
  - apply sorted_app in Hs as [_ Hs]. apply StronglySorted_inv in Hs as [_ Hf]. rewrite Forall_forall in Hf. specialize (Hf j Hin). lia.
Qed.

(** ** Merging two neighbours keeps the chain *)
Lemma merge_neighbours ix1 ix2 i j a b : neighbours (ix1 ++ i :: ix2) a b -> a <> i -> b <> i -> neighbours (ix1 ++ i :: j :: ix2) a b.
Proof.
  intros (p & q & E) Ha Hb. revert p E. induction ix1 as [| x ix IH]; intros p E; simpl in *.
  - destruct p as [| y p]; simpl in E; injection E as -> E; [done |]. exists (y :: j :: p), q. simpl. by rewrite E.
  - destruct p as [| y p]; simpl in E.
    + injection E as -> E. destruct ix as [| z ix]; simpl in E; [by injection E as -> _ |]. injection E as -> E. by exists [], (ix ++ i :: j :: ix2).
    + injection E as -> E. destruct (IH p E) as (p' & q' & ->). by exists (y :: p'), q'.
Qed.
Lemma merge_distinct w ix1 ix2 i j syms : chain_ok w (ix1 ++ i :: j :: ix2) syms -> i <> j /\ i ∉ ix1 /\ j ∉ ix1 /\ i ∉ ix2 /\ j ∉ ix2.
Proof.
  intros Hc. pose proof (c_sorted _ _ _ Hc) as Hs. clear Hc. destruct (sorted_not_in ix1 i (j :: ix2) Hs) as [H1 H2].
  change (ix1 ++ i :: j :: ix2) with (ix1 ++ [i] ++ j :: ix2) in Hs. rewrite app_assoc in Hs. destruct (sorted_not_in (ix1 ++ [i]) j ix2 Hs) as [H3 H4]. set_solver.
Qed.
Section MergeChain.
Context (w : list Z) (ix1 ix2 : list Z) (i j : Z) (syms syms' : list llm_symbol) (l r : llm_symbol).
Context (Hc : chain_ok w (ix1 ++ i :: j :: ix2) syms) (Hl : vlookup syms i = Some l) (Hr : vlookup syms j = Some r).
Context (Hi' : vlookup syms' i = Some (relink_next (s_next r) (set_n (s_n l + s_n r) l))) (Hj' : vlookup syms' j = Some (set_n 0 r)).
Context (Hk' : forall x, x <> i -> x <> j -> vlookup syms' x = if (0 <=? s_next r) && (x =? s_next r) then relink_prev i <$> vlookup syms x else vlookup syms x).

Lemma merge_next : s_next r = hd_or (-1) ix2 /\ s_prev l = last_or (-1) ix1.
Proof.
  pose proof (c_seg _ _ _ Hc) as Hs. apply run_app in Hs as (m & _ & Hs). simpl in Hs. destruct Hs as (l' & E1 & Hp & _ & _ & _ & r' & E2 & _ & Hn & _). split; congruence.
Qed.
Lemma merge_next_distinct x : x ∈ ix1 -> x <> s_next r.
Proof.
  destruct merge_next as [-> _]. pose proof (c_sorted _ _ _ Hc) as Hs. pose proof (c_pos _ _ _ Hc) as Hp. intros Hx. destruct ix2 as [| k ix3]; simpl.
  - rewrite Forall_forall in Hp. specialize (Hp x ltac:(set_solver)). lia.
  - pose proof (sorted_app_lt _ _ x k Hs Hx ltac:(set_solver)). lia.
Qed.
Lemma merge_chain_ok : chain_ok w (ix1 ++ i :: ix2) syms'.
Proof.
  destruct (merge_distinct _ _ _ _ _ _ Hc) as (Hij & Hi1 & Hj1 & Hi2 & Hj2). destruct merge_next as [Hn _]. split; [apply (c_good _ _ _ Hc) | | | |].
  - pose proof (c_seg _ _ _ Hc) as Hs. apply run_app in Hs as (m & H1 & H2). apply run_app. exists m. split.
    + apply (run_frame syms); [| done]. intros x Hx. rewrite Hk' by set_solver. destruct (Z.eqb_spec x (s_next r)) as [E |]; [by apply merge_next_distinct in Hx | by rewrite andb_false_r].
    + simpl in H2 |- *. destruct H2 as (l' & E1 & Hp & _ & Ht & Hln & r' & E2 & _ & _ & Htr & Hrn & H2). rewrite Hl in E1. rewrite Hr in E2. injection E1 as <-. injection E2 as <-.
      eexists. split; [exact Hi' |]. simpl. repeat split; try done; try lia.
      { unfold Zlen in *. rewrite length_drop in Hrn. lia. }
      rewrite Z2Nat.inj_add by lia. rewrite <- drop_drop. pose proof (c_pos _ _ _ Hc) as Hpos. pose proof (c_sorted _ _ _ Hc) as Hsort.
      destruct ix2 as [| k ix3]; simpl in H2 |- *; [done |]. destruct H2 as (sk & Ek & Hkp & Hkn & Hkt & Hkl & H2). simpl in Hn.
      assert (0 <= k) by (rewrite Forall_forall in Hpos; apply Hpos; set_solver).
      exists (relink_prev i sk). rewrite Hk' by set_solver. rewrite Hn, Z.eqb_refl, (proj2 (Z.leb_le 0 k)), Ek by lia. simpl. repeat split; try done; try lia.
      apply (run_frame syms); [| done]. intros x Hx. rewrite Hk' by set_solver. rewrite Hn. destruct (Z.eqb_spec x k) as [-> |]; [| by rewrite andb_false_r].
      exfalso. apply sorted_app in Hsort as [_ Hsort]. do 2 apply StronglySorted_inv in Hsort as [Hsort _]. apply StronglySorted_inv in Hsort as [_ Hf]. rewrite Forall_forall in Hf.
      specialize (Hf k Hx). lia.
  - pose proof (c_sorted _ _ _ Hc) as Hs. change (ix1 ++ i :: j :: ix2) with (ix1 ++ [i] ++ j :: ix2) in Hs. rewrite app_assoc in Hs. apply sorted_remove in Hs. by rewrite <- app_assoc in Hs.
  - pose proof (c_pos _ _ _ Hc) as Hp. rewrite Forall_forall in *. intros x Hx. apply Hp. set_solver.
  - intros x sy Hx Hnx. destruct (decide (x = j)) as [-> |]; [rewrite Hj' in Hx; by injection Hx as <- |].
    destruct (decide (x = i)) as [-> |]; [set_solver |]. rewrite Hk' in Hx by done.
    destruct (vlookup syms x) as [sx |] eqn:Ex; [| by destruct (_ && _)]. pose proof (c_dead _ _ _ Hc x sx Ex ltac:(set_solver)).
    destruct (_ && _); simpl in Hx; injection Hx as <-; done.
Qed.
(** the symbols that stay keep their text, and all but the left one their length *)
Lemma merge_keeps x sx : x <> i -> x <> j -> vlookup syms x = Some sx -> exists sx', vlookup syms' x = Some sx' /\ s_text sx' = s_text sx /\ s_n sx' = s_n sx.
Proof. intros H1 H2 Hx. rewrite Hk', Hx by done. destruct (_ && _); simpl; by eexists. Qed.
Lemma merge_keeps_back x sx' : x <> i -> x <> j -> vlookup syms' x = Some sx' -> exists sx, vlookup syms x = Some sx /\ s_text sx' = s_text sx /\ s_n sx' = s_n sx.
Proof.
  intros H1 H2 Hx. rewrite Hk' in Hx by done. destruct (vlookup syms x) as [sx |]; [| by destruct (_ && _)]. exists sx. destruct (_ && _); simpl in Hx; by injection Hx as <-.
Qed.
Lemma merge_pieces : pieces syms' (ix1 ++ i :: ix2) = pieces syms ix1 ++ (str l ++ str r) :: pieces syms ix2.
Proof.
  destruct (merge_distinct _ _ _ _ _ _ Hc) as (Hij & Hi1 & Hj1 & Hi2 & Hj2). unfold pieces. rewrite fmap_app, fmap_cons.
  assert (G : forall ix, i ∉ ix -> j ∉ ix -> (fun x => default [] (str <$> vlookup syms' x)) <$> ix = (fun x => default [] (str <$> vlookup syms x)) <$> ix).
  { intros ix H1 H2. apply list_fmap_ext. intros n x Hx%list_elem_of_lookup_2. rewrite Hk' by set_solver. destruct (_ && _); [| done]. by destruct (vlookup syms x). }
  rewrite !G by done. f_equal. f_equal. rewrite Hi'. simpl. unfold str at 1. simpl.
  destruct (neighbours_adjacent w (ix1 ++ i :: j :: ix2) syms i j l r Hc) as (Ha & _); [by exists ix1, ix2 | done | done |]. by apply (adjacent_str P).
Qed.

(** ** ... and the entries *)
Lemma merge_entry_ok b : entry_ok syms b -> entry_ok syms' b.
Proof.
  intros (lb & rb & ol & or & El & Er & Hm & Ha & Htl & Htr & Hal). destruct (merge_distinct _ _ _ _ _ _ Hc) as (Hij & _). unfold entry_ok.
  assert (G : forall x sx, vlookup syms x = Some sx -> exists sx', vlookup syms' x = Some sx' /\ s_text sx' = s_text sx /\
    (x = i -> s_n sx' = s_n l + s_n r) /\ (x = j -> s_n sx' = 0) /\ (x <> i -> x <> j -> s_n sx' = s_n sx)).
  { intros x sx Hx. destruct (decide (x = i)) as [-> |]; [rewrite Hl in Hx; injection Hx as <-; eexists; split; [exact Hi' | repeat split; intros; done] |].
    destruct (decide (x = j)) as [-> |]; [rewrite Hr in Hx; injection Hx as <-; eexists; split; [exact Hj' | repeat split; intros; done] |].
    destruct (merge_keeps x sx) as (sx' & E & ? & ?); try done. exists sx'. repeat split; intros; done. }
  destruct (G _ _ El) as (lb' & El' & Etl & Gl1 & Gl2 & Gl3). destruct (G _ _ Er) as (rb' & Er' & Etr & Gr1 & Gr2 & Gr3).
  exists lb', rb', ol, or. rewrite Etl, Etr. repeat split; try done; try apply Ha.
  all: assert (Hadj : adjacent l r) by (destruct (neighbours_adjacent w (ix1 ++ i :: j :: ix2) syms i j l r Hc) as (? & _); [by exists ix1, ix2 | done | done | done]);
    destruct Hadj as (Hat & Hln & Hrn & _ & _).
  all: destruct (decide (b_left ops b = j)) as [Ej |]; [rewrite Gl2 in * by done; lia |]; destruct (decide (b_right ops b = j)) as [Ej | Nrj]; [rewrite Gr2 in * by done; lia |].
  - destruct (decide (b_left ops b = i)) as [Ei |]; [| rewrite Gl3 by done; apply Hal; rewrite <- ?Gl3 by done; [done |] ].
    2: { destruct (decide (b_right ops b = i)) as [Ei |]; [rewrite Ei, Hl in Er; by injection Er as <- |]. by rewrite <- Gr3. }
    exfalso. (* the left symbol was alive, so the right one was its neighbour j *)
    rewrite Ei, Hl in El. injection El as <-. destruct (decide (b_right ops b = i)) as [Er2 |].
    { rewrite Er2, Hl in Er. injection Er as <-. apply (adjacent_texts _ _ Ha). congruence. }
    rewrite Gr3 in * by done. destruct Hal as [Hal _]; [lia | lia |]. apply Nrj. apply (seg_text_inj syms (-1) (ix1 ++ i :: j :: ix2) (-1) w [] _ j rb r); try done.
    + apply (c_seg _ _ _ Hc).
    + eapply alive_in; [exact Hc | done | lia].
    + set_solver.
    + rewrite Hat, Htr. destruct Ha as [-> _]. by rewrite Htl, Hal.
  - destruct (decide (b_right ops b = i)) as [Ei |].
    + rewrite Gr1 by done. rewrite Ei, Hl in Er. injection Er as <-. destruct (decide (b_left ops b = i)) as [Ei2 |].
      { exfalso. rewrite Ei2, Hl in El. injection El as <-. apply (adjacent_texts _ _ Ha). congruence. }
      rewrite Gl3 in * by done. destruct Hal; lia.
    + rewrite Gr3 in * by done. destruct (decide (b_left ops b = i)) as [Ei2 |]; [| rewrite Gl3 in * by done; by apply Hal].
      rewrite Ei2, Hl in El. injection El as <-. by apply Hal.
Qed.

(** the pairs that are new: those of the merged symbol *)
Definition touches (i : Z) (a b : Z) : Prop := a = i \/ b = i.
Lemma merge_complete q : complete (fun x _ => x = i) (ix1 ++ i :: j :: ix2) syms q -> complete (touches i) (ix1 ++ i :: ix2) syms' q.
Proof.
  intros Hq a b sa sb e Hnb Hex Ea Eb Hm. unfold touches in Hex. assert (Hn : neighbours (ix1 ++ i :: j :: ix2) a b) by (apply merge_neighbours; tauto).
  assert (Hj2 : a <> j /\ b <> j).
  { destruct (merge_distinct _ _ _ _ _ _ Hc) as (Hij & _ & H1 & _ & H2). apply neighbours_in in Hnb. set_solver. }
  destruct (merge_keeps_back a sa) as (sa0 & Ea0 & Ta & Na); [tauto | tauto | done |]. destruct (merge_keeps_back b sb) as (sb0 & Eb0 & Tb & Nb); [tauto | tauto | done |].
  eapply (Hq a b sa0 sb0); try done; [tauto |]. by rewrite (make_ext sa0 sb0 sa sb).
Qed.
End MergeChain.

(** ** Adding entries *)
Lemma alive_lookup w ix syms i : chain_ok w ix syms -> i ∈ ix -> exists sy, vlookup syms i = Some sy /\ 0 < s_n sy.
Proof.
  intros Hc Hi. pose proof (c_seg _ _ _ Hc) as Hs. apply list_elem_of_split in Hi as (ix1 & ix2 & ->). apply run_app in Hs as (m & _ & Hs). simpl in Hs.
  destruct Hs as (sy & E & _ & _ & _ & Hn & _). exists sy. split; [done | lia].
Qed.
Lemma chain_range w ix syms i sy : chain_ok w ix syms -> vlookup syms i = Some sy -> 0 <= s_n sy /\ (0 < s_n sy -> s_n sy <= Zlen (s_text sy)).
Proof.
  intros Hc Hl. destruct (decide (i ∈ ix)) as [Hi | Hi]; [| rewrite (c_dead _ _ _ Hc i sy Hl Hi); lia].
  destruct (seg_text _ _ _ _ _ _ _ _ (c_seg _ _ _ Hc) Hi Hl) as (Hn & _). lia.
Qed.
Lemma make_total l r i j : adjacent l r -> exists o, b_make ops l r i j = Ok o.
Proof.
  intros Ha. destruct (cand (str l) (str r)) as [k |] eqn:Ek; [destruct (make_some l r i j k Ha Ek) as (b & -> & _) | rewrite (make_none l r i j Ha Ek)]; by eexists.
Qed.
Lemma make_ends l r i j b : adjacent l r -> b_make ops l r i j = Ok (Some b) -> b_left ops b = i /\ b_right ops b = j.
Proof.
  intros Ha Hm. destruct (cand (str l) (str r)) as [k |] eqn:Ek; [| by rewrite (make_none l r i j Ha Ek) in Hm].
  destruct (make_some l r i j k Ha Ek) as (b' & Hm' & _ & E1 & E2). rewrite Hm in Hm'. by injection Hm' as <-.
Qed.
Lemma add_bigram_ok except w ix st a b : inv except w ix st -> (a = -1 \/ b = -1 \/ neighbours ix a b) ->
  exists st', add_bigram ops a b st = Ok st' /\ symbols st' = symbols st /\ (length (contents (work_queue st')) <= S (length (contents (work_queue st))))%nat /\
    inv (fun x y => except x y /\ ~ (x = a /\ y = b)) w ix st'.
Proof.
  intros Hi Hab. unfold add_bigram. destruct (Z.eqb_spec a (-1)) as [-> | Ha]; [| destruct (Z.eqb_spec b (-1)) as [-> | Hb] ]; simpl.
  1,2: exists st; split; [done |]; split; [done |]; split; [lia |]; destruct Hi as [Hc He Hq]; split; [done | done |];
    intros x y l r e Hn Hex; apply Hq; [done |]; intros Hex'; apply Hex; split; [done |]; intros [-> ->];
    apply neighbours_in in Hn as [H1 H2]; pose proof (c_pos _ _ _ Hc) as Hp; rewrite Forall_forall in Hp; specialize (Hp (-1)); set_solver by lia.
  destruct Hab as [| [| Hn] ]; [done | done |]. destruct Hi as [Hc He Hq].
  destruct (neighbours_in _ _ _ Hn) as [Hina Hinb]. destruct (alive_lookup _ _ _ a Hc Hina) as (l & El & _), (alive_lookup _ _ _ b Hc Hinb) as (r & Er & _).
  rewrite (vget_lookup _ _ _ El), (vget_lookup _ _ _ Er). cbn [rbind]. destruct (neighbours_adjacent _ _ _ _ _ _ _ Hc Hn El Er) as (Hadj & _).
  destruct (make_total l r a b Hadj) as [ [e |] Em]; rewrite Em; cbn [rbind].
  - eexists. split; [done |]. simpl. split; [done |]. split; [by rewrite contents_push |]. split; simpl; [done | |].
    + intros x Hx. rewrite contents_push in Hx. apply elem_of_cons in Hx as [-> | Hx]; [| by apply He].
      destruct (make_ends l r a b e Hadj Em) as [E1 E2]. exists l, r, l, r. rewrite E1, E2. repeat split; try done; try apply Hadj.
    + intros x y lx ry e' Hnx Hex Ex Ey Hm. rewrite contents_push. destruct (decide (x = a /\ y = b)) as [[-> ->] | Hne]; [| apply elem_of_cons; right; eapply Hq; try done; tauto].
      simplify_eq. rewrite Em in Hm. injection Hm as <-. apply list_elem_of_here.
  - exists st. split; [done |]. split; [done |]. split; [lia |]. split; [done | done |]. intros x y lx ry e' Hnx Hex Ex Ey Hm.
    destruct (decide (x = a /\ y = b)) as [[-> ->] | Hne]; [congruence |]. eapply Hq; try done. tauto.
Qed.

(** the neighbours of a symbol are those before and after it *)
Lemma next_neighbour w ix1 i ix2 syms y : chain_ok w (ix1 ++ i :: ix2) syms -> neighbours (ix1 ++ i :: ix2) i y -> y = hd_or (-1) ix2.
Proof.
  intros Hc (p & q & E). pose proof (c_sorted _ _ _ Hc) as Hs. pose proof (sorted_not_in _ _ _ Hs) as [H1 H2]. pose proof Hs as Hs2. rewrite E in Hs2.
  pose proof (sorted_not_in _ _ _ Hs2) as [H3 H4]. clear Hc Hs Hs2. revert p E H3. induction ix1 as [| x ix1 IH]; intros p E H3; simpl in E.
  - destruct p as [| z p]; simpl in E; [by injection E as -> | injection E as <- _; set_solver].
  - destruct p as [| z p]; simpl in E; [injection E as -> _; set_solver | injection E as -> E]. apply (IH ltac:(set_solver) p E). set_solver.
Qed.
Lemma prev_neighbour w ix1 i ix2 syms x : chain_ok w (ix1 ++ i :: ix2) syms -> neighbours (ix1 ++ i :: ix2) x i -> x = last_or (-1) ix1.
Proof.
  intros Hc (p & q & E). pose proof (c_sorted _ _ _ Hc) as Hs. pose proof (sorted_not_in _ _ _ Hs) as [H1 H2].
  assert (E2 : ix1 = p ++ [x]).
  { pose proof Hs as Hs2. rewrite E in Hs2. change (p ++ x :: i :: q) with (p ++ [x] ++ i :: q) in Hs2, E. rewrite app_assoc in Hs2, E. pose proof (sorted_not_in _ _ _ Hs2) as [H3 _].
    clear Hc Hs Hs2. revert E H3. generalize (p ++ [x]) as p'. clear p. induction ix1 as [| y ix1 IH]; intros p' E H3.
    - destruct p' as [| z p']; [done |]. simpl in E. injection E as <- _. set_solver.
    - destruct p' as [| z p']; simpl in E; [injection E as -> _; set_solver | injection E as -> E]. f_equal. apply (IH ltac:(set_solver) p' E). set_solver. }
  rewrite E2, last_or_app. done.
Qed.

(** ** One popped entry *)
Definition done_pairs : Z -> Z -> Prop := fun _ _ => False.
Lemma inv_weaken (E E' : Z -> Z -> Prop) w ix st : (forall a b, neighbours ix a b -> E a b -> E' a b) -> inv E w ix st -> inv E' w ix st.
Proof. intros HE [Hc He Hq]. split; [done | done |]. intros a b l r e Hn Hex. apply Hq; [done |]. intros H. by apply Hex, HE. Qed.
(** an entry that passes the check is the entry of two neighbours as they are *)
Lemma current_entry w ix syms b l r : chain_ok w ix syms -> entry_ok syms b -> vlookup syms (b_left ops b) = Some l -> vlookup syms (b_right ops b) = Some r ->
  (s_n l =? 0) || (s_n r =? 0) || negb (b_current ops b l r) = false -> neighbours ix (b_left ops b) (b_right ops b) /\ b_make ops l r (b_left ops b) (b_right ops b) = Ok (Some b).
Proof.
  intros Hc (l' & r' & ol & or & El & Er & Hm & Ha & Htl & Htr & Hal) Hl Hr Hck. rewrite Hl in El. rewrite Hr in Er. injection El as <-. injection Er as <-.
  rewrite !orb_false_iff, negb_false_iff, !Z.eqb_neq in Hck. destruct Hck as [[Hln Hrn] Hcur].
  destruct (chain_range _ _ _ _ _ Hc Hl) as [Hl0 Hlt]. destruct (chain_range _ _ _ _ _ Hc Hr) as [Hr0 Hrt]. destruct Hal as [En Hle]; [lia | lia |].
  assert (Hin : b_left ops b ∈ ix) by (eapply alive_in; [exact Hc | done | lia]). assert (Hin2 : b_right ops b ∈ ix) by (eapply alive_in; [exact Hc | done | lia]).
  assert (Hnb : neighbours ix (b_left ops b) (b_right ops b)).
  { eapply texts_neighbours; try done. rewrite Htr, Htl, En. apply Ha. }
  split; [done |]. destruct (neighbours_adjacent _ _ _ _ _ _ _ Hc Hnb Hl Hr) as (Hadj & _).
  rewrite (current_spec ol or l r _ _ b Ha Hm Hadj Htl Htr), Z.eqb_eq in Hcur. by rewrite (make_ext l r ol or).
Qed.
(** ... and the entry of two neighbours as they are passes the check *)
Lemma entry_current w ix syms b i j l r : chain_ok w ix syms -> neighbours ix i j -> vlookup syms i = Some l -> vlookup syms j = Some r -> b_make ops l r i j = Ok (Some b) ->
  b_left ops b = i /\ b_right ops b = j /\ (s_n l =? 0) || (s_n r =? 0) || negb (b_current ops b l r) = false.
Proof.
  intros Hc Hn Hl Hr Hm. destruct (neighbours_adjacent _ _ _ _ _ _ _ Hc Hn Hl Hr) as (Hadj & _). destruct (make_ends l r i j b Hadj Hm) as [E1 E2].
  split; [done |]. split; [done |]. rewrite (current_spec l r l r i j b Hadj Hm Hadj eq_refl eq_refl), Z.eqb_refl. destruct Hadj as (_ & ? & ? & _).
  by rewrite !(proj2 (Z.eqb_neq _ _)) by lia.
Qed.

(** ** The best entry is the best pair *)
Lemma pieces_lookup syms ix m : pieces syms ix !! m = (fun i => default [] (str <$> vlookup syms i)) <$> ix !! m.
Proof. apply list_lookup_fmap. Qed.
Lemma pair_of_entry w ix st m k : inv done_pairs w ix st -> pair_key cand (pieces (symbols st) ix) m = Some k ->
  exists i x, ix !! m = Some i /\ x ∈ contents (work_queue st) /\ key x = k /\ b_left ops x = i.
Proof.
  intros [Hc He Hq] Hk. unfold pair_key in Hk. rewrite !pieces_lookup in Hk. destruct (ix !! m) as [i |] eqn:Ei; [| done]. destruct (ix !! S m) as [j |] eqn:Ej; [| done].
  simpl in Hk. assert (Hn : neighbours ix i j).
  { exists (take m ix), (drop (S (S m)) ix). rewrite <- (take_drop m ix) at 1. f_equal. by rewrite (drop_S _ _ _ Ei), (drop_S _ _ _ Ej). }
  destruct (neighbours_in _ _ _ Hn) as [H1 H2]. destruct (alive_lookup _ _ _ i Hc H1) as (l & El & _), (alive_lookup _ _ _ j Hc H2) as (r & Er & _).
  rewrite El, Er in Hk. simpl in Hk. destruct (neighbours_adjacent _ _ _ _ _ _ _ Hc Hn El Er) as (Ha & _).
  destruct (make_some l r i j k Ha Hk) as (x & Hm & Ek & E1 & _). exists i, x. repeat split; try done. eapply Hq; try done. intros [].
Qed.
Lemma sorted_lookup_lt ix m n i j : StronglySorted Z.lt ix -> ix !! m = Some i -> ix !! n = Some j -> (m < n)%nat -> i < j.
Proof.
  revert m n. induction ix as [| x ix IH]; intros m n Hs Hm Hn Hlt; [done |]. apply StronglySorted_inv in Hs as [Hs Hf]. destruct n as [| n]; [lia |].
  destruct m as [| m]; simpl in *; [| apply (IH m n); auto; lia]. injection Hm as ->. rewrite Forall_forall in Hf. apply Hf. by eapply list_elem_of_lookup_2.
Qed.
Lemma best_entry w ix1 i j ix2 st b q l r : inv done_pairs w (ix1 ++ i :: j :: ix2) st -> contents (work_queue st) ≡ₚ b :: q -> Forall (fun x => b_below ops b x = false) q ->
  vlookup (symbols st) i = Some l -> vlookup (symbols st) j = Some r -> b_make ops l r i j = Ok (Some b) ->
  best_pair better cand (pieces (symbols st) (ix1 ++ i :: j :: ix2)) = Some (length ix1, key b).
Proof.
  intros Hi Hp Hf Hl Hr Hm. pose proof (i_chain _ _ _ _ Hi) as Hc. set (ix := ix1 ++ i :: j :: ix2) in *.
  assert (Hn : neighbours ix i j) by (by exists ix1, ix2). destruct (neighbours_adjacent _ _ _ _ _ _ _ Hc Hn Hl Hr) as (Ha & _).
  destruct (make_ends _ _ _ _ _ Ha Hm) as [Eleft _]. assert (Ei : ix !! length ix1 = Some i) by (by apply list_lookup_middle).
  assert (G : forall m k, m <> length ix1 -> pair_key cand (pieces (symbols st) ix) m = Some k -> exists x i', x ∈ q /\ key x = k /\ b_left ops x = i' /\ ix !! m = Some i' /\ b_below ops b x = false).
  { intros m k Hne Hk. destruct (pair_of_entry _ _ _ _ _ Hi Hk) as (i' & x & Ei' & Hx & Ek & El'). rewrite Hp in Hx. apply elem_of_cons in Hx as [-> | Hx].
    - exfalso. pose proof (c_sorted _ _ _ Hc) as Hs. rewrite Eleft in El'. subst i'. destruct (Nat.lt_total m (length ix1)) as [Hlt | [? | Hlt] ]; [| done |].
      + pose proof (sorted_lookup_lt _ _ _ _ _ Hs Ei' Ei Hlt). lia.
      + pose proof (sorted_lookup_lt _ _ _ _ _ Hs Ei Ei' Hlt). lia.
    - exists x, i'. rewrite Forall_forall in Hf. repeat split; try done. by apply Hf. }
  apply best_pair_at.
  - unfold pair_key. rewrite !pieces_lookup, Ei. assert (Ej : ix !! S (length ix1) = Some j).
    { unfold ix. rewrite lookup_app_r by lia. by replace (S (length ix1) - length ix1)%nat with 1%nat by lia. }
    rewrite Ej. simpl. rewrite Hl, Hr. simpl. destruct (cand (str l) (str r)) as [k |] eqn:Ek; [| by rewrite (make_none _ _ i j Ha Ek) in Hm].
    destruct (make_some l r i j k Ha Ek) as (b' & Hm' & <- & _). congruence.
  - intros m k Hlt Hk. destruct (G m k ltac:(lia) Hk) as (x & i' & Hx & <- & El' & Ei' & Hb). rewrite below_spec in Hb. apply orb_false_iff in Hb as [_ Hb].
    pose proof (sorted_lookup_lt _ _ _ _ _ (c_sorted _ _ _ Hc) Ei' Ei Hlt). rewrite Eleft, El', (proj2 (Z.ltb_lt i' i)), andb_true_r in Hb by done. by apply negb_false_iff in Hb.
  - intros m k Hlt Hk. destruct (G m k ltac:(lia) Hk) as (x & i' & Hx & <- & _ & _ & Hb). rewrite below_spec in Hb. by apply orb_false_iff in Hb as [Hb _].
Qed.

(** ** A step *)
Lemma pieces_app syms ix1 ix2 : pieces syms (ix1 ++ ix2) = pieces syms ix1 ++ pieces syms ix2.
Proof. apply fmap_app. Qed.
Lemma merge_at_app (l k : list (list Z)) a b : merge_at (length l) (l ++ a :: b :: k) = l ++ (a ++ b) :: k.
Proof. induction l as [| x l IH]; simpl; [done | by rewrite IH]. Qed.
Lemma skipped_entry w ix st b q x : inv done_pairs w ix st -> contents (work_queue st) ≡ₚ b :: contents q ->
  (forall i j l r, neighbours ix i j -> vlookup (symbols st) i = Some l -> vlookup (symbols st) j = Some r -> b_make ops l r i j <> Ok (Some b)) ->
  inv done_pairs w ix (mkSession (symbols st) q x).
Proof.
  intros [Hc He Hq] Hp Hne. split; simpl; [done | |].
  - intros e Hin. apply He. rewrite Hp. by apply elem_of_cons; right.
  - intros i j l r e Hn Hex Hl Hr Hm. pose proof (Hq i j l r e Hn Hex Hl Hr Hm) as Hin. rewrite Hp in Hin. apply elem_of_cons in Hin as [-> |]; [| done].
    by destruct (Hne i j l r Hn Hl Hr).
Qed.
(** the outcome of a popped entry: nothing changes, or the best pair is merged *)
Definition stepped (w : list Z) ix st (n : nat) st' : Prop :=
  (inv done_pairs w ix st' /\ symbols st' = symbols st /\ length (contents (work_queue st')) = n) \/
  (exists ix' k kk, inv done_pairs w ix' st' /\ length ix = S (length ix') /\ hd_or (-1) ix' = hd_or (-1) ix /\ (length (contents (work_queue st')) <= n + 2)%nat /\
    best_pair better cand (pieces (symbols st) ix) = Some (k, kk) /\ pieces (symbols st') ix' = merge_at k (pieces (symbols st) ix)).
Lemma merge_step_ok w ix st b q : inv done_pairs w ix st -> contents (work_queue st) ≡ₚ b :: contents q -> Forall (fun x => b_below ops b x = false) (contents q) ->
  exists st', merge_step ops b (mkSession (symbols st) q (noted st)) = Ok st' /\ stepped w ix st (length (contents q)) st'.
Proof.
  intros Hi Hp Hf. pose proof (i_chain _ _ _ _ Hi) as Hc. pose proof (i_entries _ _ _ _ Hi b) as Hb. specialize (Hb ltac:(rewrite Hp; apply list_elem_of_here)).
  unfold merge_step. simpl. pose proof Hb as (l & r & _ & _ & El & Er & _). rewrite (vget_lookup _ _ _ El), (vget_lookup _ _ _ Er). cbn [rbind].
  destruct (_ || _) eqn:Hck.
  { eexists. split; [done |]. left. split; [| done]. eapply skipped_entry; try done. intros i j l' r' Hn Hl' Hr' Hm.
    destruct (entry_current _ _ _ _ _ _ _ _ Hc Hn Hl' Hr' Hm) as (E1 & E2 & Hck'). rewrite E1 in El. rewrite E2 in Er. congruence. }
  destruct (current_entry _ _ _ _ _ _ Hc Hb El Er Hck) as [(ix1 & ix2 & Eix) Hm]. set (i := b_left ops b) in *. set (j := b_right ops b) in *. clearbody i j. subst ix.
  pose proof (merge_distinct _ _ _ _ _ _ Hc) as (Hij & Hi1 & _ & Hi2 & _). pose proof (merge_next _ _ _ _ _ _ _ _ Hc El Er) as [Hnext Hprev].
  destruct (merge_symbols_ok i j (symbols st) l r El Er Hij) as (syms' & -> & _ & Hi' & Hj' & Hk').
  { rewrite Hnext. destruct ix2 as [| k ix3]; simpl; [by left |]. right. destruct (alive_lookup _ _ _ k Hc ltac:(set_solver)) as (sk & Ek & _).
    pose proof (merge_distinct _ _ _ _ _ _ Hc) as (_ & _ & _ & ? & ?). repeat split; [set_solver | set_solver | by exists sk]. }
  cbn [rbind]. rewrite (vget_lookup _ _ _ Hi'). cbn [rbind]. simpl s_prev. simpl s_next.
  pose proof (merge_chain_ok _ _ _ _ _ _ _ _ _ Hc El Er Hi' Hj' Hk') as Hc'.
  assert (Hinv : inv (touches i) w (ix1 ++ i :: ix2) (mkSession syms' q (noted st))).
  { split; simpl; [done | |].
    - intros e He. eapply (merge_entry_ok _ _ _ _ _ (symbols st)); try done. apply (i_entries _ _ _ _ Hi). rewrite Hp. by apply elem_of_cons; right.
    - eapply (merge_complete _ _ _ _ _ (symbols st)); try done. intros x y lx ry e Hn Hex Hx Hy Hme. pose proof (i_complete _ _ _ _ Hi x y lx ry e Hn (fun H => H) Hx Hy Hme) as Hin.
      rewrite Hp in Hin. apply elem_of_cons in Hin as [-> |]; [| done]. exfalso. apply Hex.
      destruct (entry_current _ _ _ _ _ _ _ _ Hc Hn Hx Hy Hme) as [<- _]. apply (make_ends l r i j); [| done].
      destruct (neighbours_adjacent _ _ _ i j _ _ Hc ltac:(by exists ix1, ix2) El Er) as [? _]. done. }
  destruct (add_bigram_ok _ _ _ _ (s_prev l) i Hinv) as (st1 & -> & Es1 & Hl1 & Hinv1).
  { rewrite Hprev. destruct ix1 as [| x ix1' _] using rev_ind; [by left |]. right. right. rewrite last_or_app. simpl. exists ix1', ix2. by rewrite <- app_assoc. }
  cbn [rbind]. destruct (add_bigram_ok _ _ _ _ i (s_next r) Hinv1) as (st2 & -> & Es2 & Hl2 & Hinv2).
  { rewrite Hnext. destruct ix2 as [| k ix3]; [by right; left |]. right. right. by exists ix1, ix3. }
  exists st2. split; [done |]. right. exists (ix1 ++ i :: ix2), (length ix1), (key b). simpl in Es1, Hl1. split; [| split; [| split; [by destruct ix1 | split; [| split] ] ] ].
  - eapply inv_weaken; [| exact Hinv2]. simpl. intros x y Hn [[Ht Hx1] Hx2]. (* the pairs of the merged symbol are those two *)
    destruct Ht as [-> | ->]; [apply Hx2 | apply Hx1]; split; try done.
    + rewrite Hnext. eapply (next_neighbour w); try done.
    + rewrite Hprev. eapply (prev_neighbour w); try done.
  - rewrite !length_app. simpl. lia.
  - lia.
  - by eapply best_entry.
  - rewrite Es2, Es1. rewrite (merge_pieces w ix1 ix2 i j (symbols st) syms' l r); try done. rewrite pieces_app. change (pieces (symbols st) (i :: j :: ix2)) with
      (default [] (str <$> vlookup (symbols st) i) :: default [] (str <$> vlookup (symbols st) j) :: pieces (symbols st) ix2).
    rewrite El, Er. simpl. assert (E : length ix1 = length (pieces (symbols st) ix1)) by (unfold pieces; by rewrite length_fmap). rewrite E. by rewrite merge_at_app.
Qed.

(** ** The loop: the queue runs empty and the symbols are those of the reference *)
Lemma merge_loop_ok fuel w ix st : inv done_pairs w ix st -> (2 * length ix + length (contents (work_queue st)) <= fuel)%nat ->
  exists st' ix', merge_loop ops fuel st = Ok st' /\ chain_ok w ix' (symbols st') /\ hd_or (-1) ix' = hd_or (-1) ix /\
    pieces (symbols st') ix' = greedy better cand (pieces (symbols st) ix).
Proof.
  revert ix st. induction fuel as [| fuel IH]; intros ix st Hi Hf; cbn [merge_loop]; destruct (q_pop (work_queue st)) as [[b q] |] eqn:Eq.
  - apply pop_top in Eq as [Hp _]. rewrite Hp in Hf. simpl in Hf. lia.
  - exists st, ix. split; [done |]. split; [apply Hi |]. split; [done |]. rewrite greedy_done; [done |]. apply best_pair_none. intros m.
    destruct (pair_key _ _ m) eqn:Ek; [| done]. destruct (pair_of_entry _ _ _ _ _ Hi Ek) as (i & x & _ & Hx & _). apply pop_empty in Eq. rewrite Eq in Hx. set_solver.
  - apply pop_top in Eq as [Hp Hb]. destruct (merge_step_ok w ix st b q Hi Hp Hb) as (st1 & -> & [ (Hi1 & Es & El) | (ix1 & k & kk & Hi1 & El & Eh & Ec & Eb & Epc) ]); cbn [rbind].
    + rewrite Hp in Hf. simpl in Hf. destruct (IH ix st1 Hi1 ltac:(lia)) as (st2 & ix2 & -> & Hc2 & Hh2 & Hp2). exists st2, ix2. by rewrite Es in Hp2.
    + rewrite Hp in Hf. simpl in Hf. destruct (IH ix1 st1 Hi1 ltac:(lia)) as (st2 & ix2 & -> & Hc2 & Hh2 & Hp2). exists st2, ix2. rewrite Hh2, Hp2, Epc.
      repeat split; try done; try apply Hc2. symmetry. by eapply greedy_step.
  - exists st, ix. split; [done |]. split; [apply Hi |]. split; [done |]. rewrite greedy_done; [done |]. apply best_pair_none. intros m.
    destruct (pair_key _ _ m) eqn:Ek; [| done]. destruct (pair_of_entry _ _ _ _ _ Hi Ek) as (i & x & _ & Hx & _). apply pop_empty in Eq. rewrite Eq in Hx. set_solver.
Qed.

(** ** The start *)
Definition numbers (i n : nat) : list Z := Z.of_nat <$> seq i n.
Lemma numbers_lookup i n k : (k < n)%nat -> numbers i n !! k = Some (Z.of_nat (i + k)).
Proof. intros. unfold numbers. rewrite list_lookup_fmap, lookup_seq_lt by done. done. Qed.
Lemma numbers_sorted i n : StronglySorted Z.lt (numbers i n).
Proof.
  revert i. induction n as [| n IH]; intros i; [constructor |]. unfold numbers in *. simpl. constructor; [apply IH |]. apply Forall_fmap, Forall_forall. intros x Hx.
  apply elem_of_seq in Hx. simpl. lia.
Qed.
Lemma numbers_elem i n x : x ∈ numbers i n <-> Z.of_nat i <= x < Z.of_nat (i + n).
Proof.
  unfold numbers. rewrite list_elem_of_fmap. split; [intros (y & -> & Hy); apply elem_of_seq in Hy; lia |]. intros H. exists (Z.to_nat x). split; [lia |]. apply elem_of_seq. lia.
Qed.
Lemma numbers_neighbours n a b : neighbours (numbers 0 n) a b -> b = a + 1 /\ 0 <= a /\ b < Z.of_nat n.
Proof.
  intros (p & q & E). pose proof (f_equal length E) as Hl. rewrite length_app in Hl. unfold numbers in Hl at 1. rewrite length_fmap, length_seq in Hl. simpl in Hl.
  assert (Ha : numbers 0 n !! length p = Some a) by (rewrite E; by apply list_lookup_middle).
  assert (Hb : numbers 0 n !! S (length p) = Some b) by (rewrite E, lookup_app_r by lia; by replace (S (length p) - length p)%nat with 1%nat by lia).
  rewrite numbers_lookup in Ha, Hb by lia. simplify_eq. lia.
Qed.
Lemma neighbours_numbers n a : 0 <= a -> a + 1 < Z.of_nat n -> neighbours (numbers 0 n) a (a + 1).
Proof.
  intros H0 Hn. exists (take (Z.to_nat a) (numbers 0 n)), (drop (S (S (Z.to_nat a))) (numbers 0 n)). rewrite <- (take_drop (Z.to_nat a) (numbers 0 n)) at 1. f_equal.
  rewrite (drop_S _ a), (drop_S _ (a + 1)); [done | rewrite numbers_lookup by lia; f_equal; lia | rewrite numbers_lookup by lia; f_equal; lia].
Qed.
Lemma seed_queue_ok w n i todo st : (i + todo = n)%nat -> (0 < i)%nat -> inv (fun a b => Z.of_nat i <= b) w (numbers 0 n) st ->
  exists st', seed_queue ops todo (Z.of_nat i) st = Ok st' /\ symbols st' = symbols st /\ inv done_pairs w (numbers 0 n) st' /\
    (length (contents (work_queue st')) <= todo + length (contents (work_queue st)))%nat.
Proof.
  revert i st. induction todo as [| todo IH]; intros i st Hn Hi Hinv; cbn [seed_queue].
  - exists st. split; [done |]. split; [done |]. split; [| lia]. eapply inv_weaken; [| exact Hinv]. intros a b Hnb Hb. apply numbers_neighbours in Hnb. cbv beta in Hb. exfalso. lia.
  - destruct (add_bigram_ok _ w _ st (Z.of_nat i - 1) (Z.of_nat i) Hinv) as (st1 & -> & Es & El & Hinv1).
    { right. right. replace (Z.of_nat i) with (Z.of_nat i - 1 + 1) at 2 by lia. apply neighbours_numbers; lia. }
    cbn [rbind]. destruct (IH (S i) st1) as (st2 & E2 & Es2 & Hi2 & El2); [lia | lia | |].
    { eapply inv_weaken; [| exact Hinv1]. simpl. intros a b Hnb [Hb Hne]. apply numbers_neighbours in Hnb. destruct (Z.eq_dec b (Z.of_nat i)); [| lia]. exfalso. apply Hne. lia. }
    exists st2. replace (Z.of_nat (S i)) with (Z.of_nat i + 1) in E2 by lia. rewrite Es2, Es. repeat split; try done; try apply Hi2. lia.
Qed.
End Invariant.

(** the characters of a text are linked one after the other *)
Lemma len_utf8_pos c : 0 <= c < 256 -> 1 <= unicode_len_utf8 c <= 4.
Proof.
  intros Hc. set (P := fun c => (1 <=? unicode_len_utf8 c) && (unicode_len_utf8 c <=? 4)).
  assert (H : forallb P (Z.of_nat <$> seq 0 256) = true) by (vm_compute; reflexivity). rewrite forallb_forall in H. specialize (H c). unfold P in H.
  rewrite andb_true_iff, !Z.leb_le in H. apply H, list_elem_of_In, list_elem_of_fmap. exists (Z.to_nat c). split; [lia |]. apply elem_of_seq. lia.
Qed.
Lemma split_chars_ok fuel (pre : list llm_symbol) s : Forall (fun c => 0 <= c < 256) s -> (length s <= fuel)%nat ->
  exists syms, split_chars fuel (Zlen pre) s = Ok syms /\ (s <> [] -> syms <> []) /\
    seg (pre ++ syms) (Zlen pre - 1) (numbers (length pre) (length syms)) (-1) s [] /\ Forall (fun sy => 0 < s_n sy) syms.
Proof.
  revert pre s. induction fuel as [| fuel IH]; intros pre [| c s] Hb Hf; simpl in Hf; try lia; try (exists []; split; [done |]; split; [done |]; split; [done | constructor]).
  cbn [split_chars]. apply Forall_cons in Hb as [Hc Hb]. pose proof (len_utf8_pos c Hc). set (n := Z.min (unicode_len_utf8 c) (Zlen (c :: s))).
  assert (Hn : 1 <= n <= Zlen (c :: s)) by (subst n; rewrite Zlen_cons; pose proof (Zlen_nonneg s); lia). set (s' := drop (Z.to_nat n) (c :: s)).
  set (sy := mkSym (Zlen pre - 1) (if bool_decide (s' = []) then -1 else Zlen pre + 1) (c :: s) n).
  destruct (IH (pre ++ [sy]) s') as (syms & E & Hne & Hs & Hall); [by apply Forall_drop; constructor | subst s'; rewrite length_drop; unfold Zlen in Hn; simpl in *; lia |].
  rewrite Zlen_app in E. change (Zlen [sy]) with 1 in E. rewrite E. cbn [rbind]. exists (sy :: syms). split; [done |]. split; [done |]. split; [| constructor; [simpl; lia | done] ].
  rewrite <- app_assoc in Hs. simpl app in Hs. rewrite length_app in Hs. simpl length in Hs. rewrite Nat.add_1_r, Zlen_app in Hs. change (Zlen [sy]) with 1 in Hs.
  simpl length. change (numbers (length pre) (S (length syms))) with (Z.of_nat (length pre) :: numbers (S (length pre)) (length syms)). simpl seg. exists sy.
  split; [rewrite vlookup_app_r by (unfold Zlen; lia); unfold Zlen; by rewrite Z.sub_diag |]. split; [done |]. split; [| split; [done |]; split; [simpl; lia |] ].
  - simpl. destruct (bool_decide_reflect (s' = [])) as [Es | Es].
    + assert (syms = []) as ->; [| done]. rewrite Es in E. destruct fuel; simpl in E; by injection E as <-.
    + destruct syms as [| x syms]; [by destruct (Hne Es) |]. simpl. unfold Zlen. lia.
  - simpl. fold s'. replace (Z.of_nat (length pre)) with (Zlen pre + 1 - 1) by (unfold Zlen; lia). done.
Qed.
Lemma pieces_numbers (syms : list llm_symbol) : pieces syms (numbers 0 (length syms)) = str <$> syms.
Proof.
  apply list_eq. intros k. rewrite pieces_lookup, list_lookup_fmap. destruct (decide (k < length syms)%nat) as [Hk | Hk].
  - rewrite numbers_lookup by done. simpl. unfold vlookup. rewrite (proj2 (Z.leb_le 0 _)) by lia. rewrite Nat2Z.id. by destruct (lookup_lt_is_Some_2 syms k Hk) as [s ->].
  - rewrite (lookup_ge_None_2 syms) by lia. rewrite lookup_ge_None_2; [done |]. unfold numbers. rewrite length_fmap, length_seq. lia.
Qed.
(** the characters of a text as a list of strings *)
Fixpoint chars (fuel : nat) (s : list Z) : list (list Z) :=
  match s, fuel with
  | c :: _, S fuel => let n := Z.to_nat (Z.min (unicode_len_utf8 c) (Zlen s)) in take n s :: chars fuel (drop n s)
  | _, _ => []
  end.
Definition chars_of (s : list Z) : list (list Z) := chars (length s) s.
Lemma split_chars_strs fuel i s syms : split_chars fuel i s = Ok syms -> str <$> syms = chars fuel s.
Proof.
  revert i s syms. induction fuel as [| fuel IH]; intros i [| c s] syms; cbn [split_chars chars]; try (by intros [= <-]).
  intros H. apply bind_Ok in H as (rest & E & [= <-]). simpl. f_equal. by eapply IH.
Qed.

Section MergeAll.
Context {B X Q K : Type} (ops : bigram_ops B X) `{PQ : !PQueue (b_below ops) Q}.
Context (key : B -> K) (better : K -> K -> bool) (cand : list Z -> list Z -> option K) (P : Z -> Prop) `{BL : !BigramLaws ops key better cand P}.

(** merging the characters of a text always ends, and gives the strings of the reference *)
Lemma merge_all_ok w x : Forall (fun c => 0 <= c < 256) w -> Forall P w -> exists syms st ix, split_chars (length w) 0 w = Ok syms /\ (w <> [] -> syms <> []) /\
  merge_all ops syms x = Ok st /\ chain_ok P w ix (symbols st) /\ (w <> [] -> hd_or (-1) ix = 0) /\
  pieces (symbols st) ix = greedy better cand (chars_of w).
Proof.
  intros Hb HP. destruct (split_chars_ok (length w) [] w Hb ltac:(done)) as (syms & E & Hne & Hs & Hpos). exists syms.
  change (Zlen []) with 0 in E, Hs. simpl length in Hs. rewrite app_nil_l in Hs. change (0 - 1) with (-1) in Hs. unfold merge_all.
  assert (Hc : chain_ok P w (numbers 0 (length syms)) syms).
  { split; [done | done | apply numbers_sorted | apply Forall_forall; intros i Hi; apply numbers_elem in Hi; lia |]. intros i sy Hl Hi. exfalso. apply Hi, numbers_elem.
    apply vlookup_Some_range in Hl. unfold Zlen in Hl. lia. }
  assert (Hinv : inv ops P (fun a b => 1 <= b) w (numbers 0 (length syms)) (mkSession syms q_empty x)).
  { split; simpl; [done | rewrite contents_empty; set_solver |]. intros a b l r e Hn Hex. apply numbers_neighbours in Hn. exfalso. apply Hex. lia. }
  destruct syms as [| s0 syms0].
  - assert (w = []) as -> by (destruct w; [done |]; exfalso; by apply Hne). cbn [length Nat.sub seed_queue rbind].
    destruct (merge_loop_ok ops key better cand P (3 * 0) [] [] (mkSession [] q_empty x)) as (st & ix & -> & Hc' & _ & Hp).
    + eapply inv_weaken; [| exact Hinv]. intros a b Hn. apply (numbers_neighbours 0) in Hn. lia.
    + simpl. by rewrite contents_empty.
    + by exists st, ix.
  - set (syms := s0 :: syms0) in *. assert (Hl : (1 <= length syms)%nat) by (simpl; lia). clearbody syms.
    destruct (seed_queue_ok ops key better cand P w (length syms) 1 (length syms - 1) (mkSession syms q_empty x)) as (st1 & E1 & Es1 & Hi1 & Hl1); [lia | lia | done |].
    change (Z.of_nat 1) with 1 in E1. rewrite E1. cbn [rbind]. simpl in Es1, Hl1. rewrite contents_empty in Hl1. simpl in Hl1.
    destruct (merge_loop_ok ops key better cand P (3 * length syms) w (numbers 0 (length syms)) st1 Hi1) as (st & ix & E2 & Hc2 & Hh & Hp).
    { unfold numbers. rewrite length_fmap, length_seq. lia. }
    exists st, ix. repeat split; try done; try apply Hc2.
    + intros _. rewrite Hh. destruct (length syms); [lia | done].
    + rewrite Hp, Es1, pieces_numbers. f_equal. by eapply split_chars_strs.
Qed.
End MergeAll.
