(* ===== verification/Vocab.v ===== *)
(** * The token tables (Vocab and Vocab::impl, src/iian/tokenizer/vocab.h and vocab.cpp)

    Token texts, scores and attributes as a model file gives them, the two directions of the table
    and the ranks of the merges.  The type of scores is an argument.  The parts of [load] that set
    special tokens and attributes by the names of models are not modelled, and neither are the asserts
    that the type is not NONE (a vocabulary of type NONE has no sessions); the vocabulary is a
    record of what [load] leaves behind. *)

From S2P Require Import Prelude Text Unicode.

Definition TOKEN_NULL : Z := -1.

(** ** Attributes *)
Definition TOKEN_ATTR_UNDEFINED := 0.
Definition TOKEN_ATTR_UNKNOWN := 1.
Definition TOKEN_ATTR_UNUSED := 2.
Definition TOKEN_ATTR_NORMAL := 4.
Definition TOKEN_ATTR_CONTROL := 8.
Definition TOKEN_ATTR_USER_DEFINED := 16.
Definition TOKEN_ATTR_BYTE := 32.
Definition TOKEN_ATTR_LSTRIP := 128.
Definition TOKEN_ATTR_RSTRIP := 256.
Definition has_attr (attr mask : Z) : bool := negb (Z.land attr mask =? 0).

Inductive VocabType := VT_NONE | VT_SPM | VT_BPE | VT_WPM | VT_UGM | VT_RWKV | VT_PLAMO2.
#[global] Instance VocabType_eq_dec : EqDecision VocabType.
Proof. solve_decision. Defined.

Record token_data (F : Type) := mkToken { t_text : list Z; t_score : F; t_attr : Z }.
Arguments mkToken {F}. Arguments t_text {F}. Arguments t_score {F}. Arguments t_attr {F}.

Record Vocab (F : Type) := mkVocab {
  v_type : VocabType;
  (** VOCAB_PRE_TYPE_GEMMA4, the only pre-tokenizer the sessions ask for *)
  pre_gemma4 : bool;
  ignore_merges : bool;
  add_space_prefix : bool;
  add_bos : bool;
  add_eos : bool;
  escape_whitespaces : bool;
  clean_spaces : bool;
  remove_extra_whitespaces : bool;
  treat_whitespace_as_suffix : bool;
  (** normalizer_options *)
  lowercase : bool;
  strip_accents : bool;
  special_bos_id : Z;
  special_eos_id : Z;
  special_unk_id : Z;
  special_sep_id : Z;
  max_token_len : Z;
  token_to_id : gmap (list Z) Z;
  id_to_token : list (token_data F);
  bpe_ranks : gmap (list Z * list Z) Z;
  cache_special_tokens : list Z;
  precompiled_charsmap : list Z }.
Arguments mkVocab {F}. Arguments v_type {F}. Arguments pre_gemma4 {F}. Arguments ignore_merges {F}. Arguments add_space_prefix {F}.
Arguments add_bos {F}. Arguments add_eos {F}. Arguments escape_whitespaces {F}. Arguments clean_spaces {F}. Arguments special_bos_id {F}. Arguments special_eos_id {F}.
Arguments special_unk_id {F}. Arguments token_to_id {F}. Arguments id_to_token {F}. Arguments bpe_ranks {F}. Arguments cache_special_tokens {F}.
Arguments remove_extra_whitespaces {F}. Arguments treat_whitespace_as_suffix {F}. Arguments lowercase {F}. Arguments strip_accents {F}. Arguments special_sep_id {F}. Arguments max_token_len {F}.
Arguments precompiled_charsmap {F}.

(** a vocabulary with every option off and no special token *)
Definition plain_vocab {F : Type} (ty : VocabType) (ids : gmap (list Z) Z) (toks : list (token_data F)) (ranks : gmap (list Z * list Z) Z) : Vocab F :=
  mkVocab ty false false false false false false false false false false false (-1) (-1) (-1) (-1) 64 ids toks ranks [] [].

(** ** Loading the tables *)
(** the types of tokens in a model file; without them every token is an ordinary one *)
Definition type_attr (toktype : option Z) : Z :=
  match toktype with
  | None => TOKEN_ATTR_NORMAL
  | Some t => if t =? 2 then TOKEN_ATTR_UNKNOWN else if t =? 5 then TOKEN_ATTR_UNUSED else if t =? 1 then TOKEN_ATTR_NORMAL
              else if t =? 3 then TOKEN_ATTR_CONTROL else if t =? 4 then TOKEN_ATTR_USER_DEFINED else if t =? 6 then TOKEN_ATTR_BYTE
              else TOKEN_ATTR_UNDEFINED
  end.
(** the words of a model file in order, with their scores (0 where the file has none) and types; an
    empty word gets a name *)
Definition word_name (i : Z) (word : list Z) : list Z :=
  match word with [] => bytes "[EMPTY_" ++ to_string i ++ bytes "]" | _ => word end.
Fixpoint load_words {F} (words : list (list Z * F * option Z)) (i : Z) (ids : gmap (list Z) Z) (toks : list (token_data F))
  : gmap (list Z) Z * list (token_data F) :=
  match words with
  | [] => (ids, toks)
  | (word, score, toktype) :: words =>
      let word := word_name i word in
      load_words words (i + 1) (<[word := i]> ids) (toks ++ [mkToken word score (type_attr toktype)])
  end.
(** GGML_ASSERT(id_to_token.size() == token_to_id.size()) *)
Definition load_tables {F} (words : list (list Z * F * option Z)) : res (gmap (list Z) Z * list (token_data F)) :=
  let '(ids, toks) := load_words words 0 ∅ [] in
  if Zlen toks =? Z.of_nat (size ids) then Ok (ids, toks) else throw! "GGML_ASSERT".

(** a merge is two strings with a space between them; the first one of a pair counts *)
Definition split_merge (word : list Z) : list Z * list Z :=
  match find_str word [ch " "] 1 with
  | Some pos => (take pos word, drop (pos + 1) word)
  | None => ([], [])
  end.
Fixpoint load_merges (words : list (list Z)) (i : Z) (ranks : gmap (list Z * list Z) Z) : gmap (list Z * list Z) Z :=
  match words with
  | [] => ranks
  | word :: words =>
      let p := split_merge word in
      load_merges words (i + 1) (match ranks !! p with Some _ => ranks | None => <[p := i]> ranks end)
  end.

(** ** Lookups *)
Section Lookups.
Context {F : Type} (vocab : Vocab F).

Definition vocab_n_tokens : Z := Zlen (id_to_token vocab).
Definition text_to_token (text : list Z) : Z := default TOKEN_NULL (token_to_id vocab !! text).
(** id_to_token.at(id) throws std::out_of_range *)
Definition get_token_data (id : Z) : res (token_data F) :=
  match vlookup (id_to_token vocab) id with Some d => Ok d | None => throw! "out_of_range" end.

Definition contains_space (s : list Z) : bool := existsb (fun c => c =? ch " ") s.
Definition find_bpe_rank (token_left token_right : list Z) : res Z :=
  if contains_space token_left || contains_space token_right then throw! "GGML_ASSERT"
  else Ok (default (-1) (bpe_ranks vocab !! (token_left, token_right))).

(** <0xXX> *)
Definition hex_char (d : Z) : Z := if d <? 10 then 48 + d else 55 + d.
Definition byte_name (c : Z) : list Z := bytes "<0x" ++ [hex_char (Z.shiftr c 4); hex_char (Z.land c 15)] ++ bytes ">".
(** the C string of one byte: empty for the byte 0 *)
Definition one_byte (c : Z) : list Z := if c =? 0 then [] else [c].
Definition byte_to_token (c : Z) : res Z :=
  match v_type vocab with
  | VT_SPM | VT_UGM =>
      match token_to_id vocab !! byte_name c with
      | Some token => Ok token
      | None => at_key (one_byte c) (token_to_id vocab)
      end
  | VT_WPM | VT_BPE => let! u := unicode_byte_to_utf8 c in at_key u (token_to_id vocab)
  | VT_PLAMO2 => at_key (byte_name c) (token_to_id vocab)
  | _ => throw! "fatal error"
  end.
End Lookups.

(** * The two directions of the token table (Vocab::impl::load, src/iian/tokenizer/vocab.cpp) *)

(** what the loop of [load] keeps true: the ids are indices of the words they are found under, and
    every word has an id *)
Definition tables_inv {F : Type} (ids : gmap (list Z) Z) (toks : list (token_data F)) : Prop :=
  (forall s i, ids !! s = Some i -> exists d, vlookup toks i = Some d /\ t_text d = s) /\ dom ids = list_to_set (t_text <$> toks) /\ Forall (fun d => t_text d <> []) toks.
Lemma load_words_inv {F : Type} (words : list (list Z * F * option Z)) (i : Z) (ids : gmap (list Z) Z) (toks : list (token_data F)) : tables_inv ids toks -> i = Zlen toks ->
  tables_inv (load_words words i ids toks).1 (load_words words i ids toks).2.
Proof.
  revert i ids toks. induction words as [| [ [word score] ty] words IH]; intros i ids toks H ->; [exact H |]. cbn [load_words]. apply IH; [| by rewrite Zlen_app].
  destruct H as (H1 & H2 & H3). set (w := word_name (Zlen toks) word). split; [| split].
  - intros s j Hs. apply lookup_insert_Some in Hs as [ [<- <-] | [_ Hs] ].
    + exists (mkToken w score (type_attr ty)). split; [| done]. rewrite vlookup_app_r by done. by rewrite Z.sub_diag.
    + destruct (H1 s j Hs) as (d & Hd & Et). exists d. split; [| done]. apply vlookup_Some_range in Hd as Hr. rewrite vlookup_app_l; [done | lia].
  - rewrite dom_insert_L, fmap_app, list_to_set_app_L, H2. simpl. by rewrite (right_id_L ∅ (∪)), (comm_L (∪)).
  - apply Forall_app. split; [done |]. repeat constructor. simpl. subst w. by destruct word.
Qed.
Lemma size_set_list {A} `{Countable A} (l : list A) : (size (list_to_set l : gset A) <= length l)%nat.
Proof.
  induction l as [| x l IH]; [done |]. simpl. rewrite size_union_alt, size_singleton. pose proof (subseteq_size (list_to_set l ∖ {[x]}) (list_to_set l : gset A)). set_solver by lia.
Qed.
Lemma list_to_set_NoDup {A} `{Countable A} (l : list A) : size (list_to_set l : gset A) = length l -> NoDup l.
Proof.
  induction l as [| x l IH]; simpl; [intros _; constructor |]. intros E. destruct (decide (x ∈ l)) as [Hx | Hx].
  - exfalso. replace ({[x]} ∪ list_to_set l : gset A) with (list_to_set l : gset A) in E by set_solver. pose proof (size_set_list l). lia.
  - constructor; [done |]. apply IH. rewrite size_union, size_singleton in E by set_solver. lia.
Qed.

(** the tokens are those of the file *)
Lemma load_words_toks {F : Type} (words : list (list Z * F * option Z)) (i : Z) (ids : gmap (list Z) Z) (toks : list (token_data F)) : i = Zlen toks ->
  Zlen (load_words words i ids toks).2 = i + Zlen words /\
  forall k, vlookup (load_words words i ids toks).2 k = if k <? i then vlookup toks k else (fun '(w, sc, ty) => mkToken (word_name k w) sc (type_attr ty)) <$> vlookup words (k - i).
Proof.
  revert i ids toks. induction words as [| [ [word score] ty] words IH]; intros i ids toks ->; cbn [load_words].
  - split; [rewrite Zlen_nil; simpl; lia |]. intros k. simpl. destruct (Z.ltb_spec k (Zlen toks)); [done |]. by rewrite !vlookup_ge_None by (rewrite ?Zlen_nil; lia).
  - set (w := word_name (Zlen toks) word). set (t := mkToken w score (type_attr ty)). destruct (IH (Zlen toks + 1) (<[w := Zlen toks]> ids) (toks ++ [t])) as [E1 E2]; [by rewrite Zlen_app |].
    split; [rewrite E1, Zlen_cons; lia |]. intros k. rewrite E2. destruct (Z.ltb_spec k (Zlen toks + 1)), (Z.ltb_spec k (Zlen toks)); try lia.
    + by rewrite vlookup_app_l.
    + replace k with (Zlen toks) by lia. rewrite vlookup_app_r by done. by rewrite Z.sub_diag.
    + change ((word, score, ty) :: words) with ([(word, score, ty)] ++ words). rewrite vlookup_app_r by (change (Zlen [(word, score, ty)]) with 1; lia). do 2 f_equal. change (Zlen [(word, score, ty)]) with 1. lia.
Qed.

(** When loading a vocabulary does not stop at its assertion, the tokens are the words of the
    file in their order (an empty word named after its index), and text_to_token and get_token_data
    are inverse to each other: the text of every token is found under its own id, and every id that
    is found belongs to a token with this text. *)
Theorem tables_inverse {F : Type} (vocab : Vocab F) (words : list (list Z * F * option Z)) :
  load_tables words = Ok (token_to_id vocab, id_to_token vocab) ->
  (forall i w sc ty, vlookup words i = Some (w, sc, ty) -> get_token_data vocab i = Ok (mkToken (word_name i w) sc (type_attr ty))) /\
  (forall i d, get_token_data vocab i = Ok d -> text_to_token vocab (t_text d) = i /\ t_text d <> [] /\ i < Zlen words) /\
  (forall s, text_to_token vocab s <> TOKEN_NULL -> exists d, get_token_data vocab (text_to_token vocab s) = Ok d /\ t_text d = s).
Proof.
  unfold load_tables. pose proof (load_words_inv words 0 ∅ []) as I. pose proof (load_words_toks words 0 ∅ [] eq_refl) as [L T].
  destruct (load_words words 0 ∅ []) as [ids toks] eqn:E. simpl in *. destruct (Z.eqb_spec (Zlen toks) (Z.of_nat (size ids))) as [Es |]; [| done]. intros [= -> ->].
  destruct I as (I1 & I2 & I3); [split; [by intros ? ? ?%lookup_empty_Some |]; split; [by rewrite dom_empty_L | constructor] | done |].
  assert (N : NoDup (t_text <$> id_to_token vocab)) by (apply list_to_set_NoDup; rewrite <- I2, size_dom, length_fmap; unfold Zlen in Es; lia).
  unfold get_token_data, text_to_token. split; [| split].
  - intros i w sc ty Hi. rewrite T. pose proof (vlookup_Some_range _ _ _ Hi). rewrite (proj2 (Z.ltb_ge _ _)), Z.sub_0_r by lia. by rewrite Hi.
  - intros i d Hd. destruct (vlookup (id_to_token vocab) i) as [d' |] eqn:Ed; [| done]. injection Hd as ->. pose proof (vlookup_Some_range _ _ _ Ed) as Hi.
    split; [| split; [by apply (proj1 (Forall_forall _ _) I3), (vlookup_elem_of _ i) | lia] ].
    assert (Hin : t_text d ∈ dom (token_to_id vocab)) by (rewrite I2; apply elem_of_list_to_set, list_elem_of_fmap_2, (vlookup_elem_of _ i); done).
    apply elem_of_dom in Hin as [j Hj]. rewrite Hj. simpl. destruct (I1 _ _ Hj) as (d2 & Hd2 & Et). apply vlookup_Some_range in Hd2 as Hj2. unfold vlookup in Ed, Hd2.
    rewrite (proj2 (Z.leb_le 0 i)) in Ed by lia. rewrite (proj2 (Z.leb_le 0 j)) in Hd2 by lia. assert (Z.to_nat j = Z.to_nat i); [| lia]. apply (NoDup_lookup _ _ _ (t_text d) N); rewrite list_lookup_fmap, ?Ed, ?Hd2; simpl; by rewrite ?Et.
  - intros s Hs. destruct (token_to_id vocab !! s) as [i |] eqn:Ei; [| done]. simpl. destruct (I1 _ _ Ei) as (d & Hd & Et). exists d. by rewrite Hd.
Qed.
Definition three_words : list (list Z * Z * option Z) := [(bytes "a", 5, Some 1); ([], 0, Some 3); (bytes "ab", 7, None)].
Lemma tables_inverse_witness :
  exists vocab : Vocab Z, load_tables three_words = Ok (token_to_id vocab, id_to_token vocab) /\ text_to_token vocab (bytes "[EMPTY_1]") = 1.
Proof.
  destruct (load_tables three_words) as [ [ids toks] | e] eqn:E; [| by vm_compute in E].
  exists (plain_vocab VT_SPM ids toks ∅). split; [done |].
  destruct (tables_inverse (plain_vocab VT_SPM ids toks ∅) three_words E) as (H1 & H2 & _).
  apply (H2 1 (mkToken (word_name 1 []) 0 (type_attr (Some 3)))), H1. reflexivity.
Defined.
