(* ===== verification/Bpe.v ===== *)
(** * The BPE session (llm_tokenizer_bpe_session, src/iian/tokenizer/vocab.cpp)

    A text is split into words, each word into characters, and the characters are merged by the
    ranks of the vocabulary; the symbols of all words are then linked into one chain and turned
    into tokens.  The expressions of the pre-tokenizer and whether it uses the byte alphabet are
    arguments, as are std::regex and the tables of unicode-data.cpp. *)

From S2P Require Import Prelude Text Utf8 Unicode UnicodeSplit UnicodeFacts SplitRegex UnicodeProps Merge MergeInv Vocab.
From Stdlib Require Import Sorting.Sorted.

(** ** Entries of the queue *)
Record llm_bigram_bpe := mkBpe { bpe_left : Z; bpe_right : Z; bpe_text : list Z; bpe_rank : Z; bpe_size : Z }.
(** the comparator: by rank, then by position *)
Definition bpe_below (l r : llm_bigram_bpe) : bool :=
  (bpe_rank r <? bpe_rank l) || ((bpe_rank l =? bpe_rank r) && (bpe_left r <? bpe_left l)).

Section Bpe.
Context {F : Type} (vocab : Vocab F).

(** add_new_bigram, for two symbols *)
Definition bpe_make (l r : llm_symbol) (left right : Z) : res (option llm_bigram_bpe) :=
  let left_token := str l in
  let right_token := str r in
  let! rank_found := find_bpe_rank vocab left_token right_token in
  if rank_found <? 0 then Ok None
  else Ok (Some (mkBpe left right (left_token ++ right_token) rank_found (Zlen left_token + Zlen right_token))).
Definition bpe_current (b : llm_bigram_bpe) (l r : llm_symbol) : bool := bool_decide (str l ++ str r = bpe_text b).
Definition bpe_ops : bigram_ops llm_bigram_bpe unit :=
  mkOps _ _ bpe_left bpe_right bpe_make bpe_current bpe_below (fun _ _ _ _ x => x).

Context {Q : Type} `{PQ : !PQueue (b_below bpe_ops) Q}.
Context (D : unicode_data) (regex_matches : bool -> list Z -> list Z -> option (list (Z * Z))).
Context (regex_exprs : list (list Z)) (byte_encode : bool).

(** the symbols of a word before merging *)
Definition whole_word (word : list Z) : list llm_symbol := [mkSym (-1) (-1) word (Zlen word)].
Definition word_symbols (word : list Z) : res (list llm_symbol) :=
  let known := negb (text_to_token vocab word =? TOKEN_NULL) in
  if ignore_merges vocab && known then Ok (whole_word word)
  else if pre_gemma4 vocab && forallb (fun c => c =? newline) word && known then Ok (whole_word word)
  else split_chars (length word) 0 word.

(** the finished symbols of a word join the chain; the second component is its last index *)
Fixpoint append_final (syms : list llm_symbol) (final : list llm_symbol) (final_prev_index : Z) : res (list llm_symbol * Z) :=
  match syms with
  | [] => Ok (final, final_prev_index)
  | sym :: syms =>
      if 0 <? s_n sym then
        let sym := relink_next (-1) (relink_prev final_prev_index sym) in
        let! final := (if final_prev_index =? -1 then Ok final
                       else let! p := vget final final_prev_index in vset final final_prev_index (relink_next (Zlen final) p)) in
        append_final syms (final ++ [sym]) (Zlen final)
      else append_final syms final final_prev_index
  end.
Fixpoint words_loop (words : list (list Z)) (final : list llm_symbol) (final_prev_index : Z) : res (list llm_symbol) :=
  match words with
  | [] => Ok final
  | word :: words =>
      let! syms := word_symbols word in
      let! st := merge_all bpe_ops syms tt in
      let! (final, final_prev_index) := append_final (symbols st) final final_prev_index in
      words_loop words final final_prev_index
  end.

(** the tokens of a symbol: its own, or one for every byte that has one *)
Definition byte_token (c : Z) : Z := text_to_token vocab (if byte_encode then [c] else byte_name c).
Definition symbol_tokens (s : list Z) : list Z :=
  let token := text_to_token vocab s in
  if token =? TOKEN_NULL then filter (fun t => t <> TOKEN_NULL) (byte_token <$> s) else [token].
(** [for (int i = 0; i != -1; i = symbols[i].next)] *)
Fixpoint chain_tokens (fuel : nat) (syms : list llm_symbol) (i : Z) (output : list Z) : res (list Z) :=
  if i =? -1 then Ok output else
  match fuel with
  | O => Err Fuel
  | S fuel =>
      let! symbol := vget syms i in
      let output := if s_n symbol =? 0 then output else output ++ symbol_tokens (str symbol) in
      chain_tokens fuel syms (s_next symbol) output
  end.
Definition bpe_tokenize (text : list Z) (output : list Z) : res (list Z) :=
  let! words := unicode_regex_split D regex_matches text regex_exprs byte_encode in
  let! final := words_loop words [] (-1) in
  match final with
  | [] => Ok output
  | _ => chain_tokens (length final) final 0 output
  end.

(** append_bos, append_eos *)
Definition append_bos (output : list Z) : res (list Z) :=
  if add_bos vocab then
    if special_bos_id vocab =? TOKEN_NULL then throw! "GGML_ASSERT" else Ok (output ++ [special_bos_id vocab])
  else Ok output.
Definition append_eos (output : list Z) : res (list Z) :=
  if add_eos vocab then
    if special_eos_id vocab =? TOKEN_NULL then throw! "GGML_ASSERT" else Ok (output ++ [special_eos_id vocab])
  else Ok output.
End Bpe.

(** * The BPE session computes the reference tokenization *)


(** ** The entries satisfy the laws *)
Lemma bpe_below_asym x y : bpe_below x y = true -> bpe_below y x = false.
Proof.
  unfold bpe_below. rewrite orb_true_iff, andb_true_iff, orb_false_iff, andb_false_iff, !Z.ltb_lt, Z.ltb_ge, Z.eqb_eq, Z.eqb_neq, Z.ltb_ge. lia.
Qed.
Lemma bpe_below_split x y z : bpe_below x z = true -> bpe_below x y = true \/ bpe_below y z = true.
Proof.
  unfold bpe_below. rewrite !orb_true_iff, !andb_true_iff, !Z.ltb_lt, !Z.eqb_eq. lia.
Qed.
Definition bpe_queue {F} (vocab : Vocab F) : PQueue (b_below (bpe_ops vocab)) (list llm_bigram_bpe) := list_queue bpe_below bpe_below_asym bpe_below_split.

Definition not_space (c : Z) : Prop := c <> ch " ".
Section Laws.
Context {F : Type} (vocab : Vocab F).
(** the rank of two neighbours *)
Definition bpe_cand (l r : list Z) : option Z := k ← bpe_ranks vocab !! (l, r); if k <? 0 then None else Some k.

Lemma no_space s : Forall not_space s -> contains_space s = false.
Proof. induction 1 as [| c s Hc _ IH]; [done |]. simpl. rewrite IH, orb_false_r. by apply Z.eqb_neq. Qed.
Lemma adjacent_no_space l r : adjacent not_space l r -> contains_space (str l) = false /\ contains_space (str r) = false.
Proof. intros (E & _ & _ & _ & Hg). unfold str. rewrite E. split; apply no_space, Forall_take; [done | by apply Forall_drop]. Qed.
Lemma adjacent_left_n P l r l' r' : adjacent P l r -> adjacent P l' r' -> s_text l' = s_text l -> s_text r' = s_text r -> s_n l' = s_n l.
Proof.
  intros (E & ? & ? & Hb & _) (E' & ? & ? & Hb' & _) Ht Hr. rewrite E, E', Ht in Hr. apply (f_equal length) in Hr. rewrite !length_drop in Hr. rewrite Ht in Hb'. unfold Zlen in *. lia.
Qed.
Lemma str_length s : 0 <= s_n s <= Zlen (s_text s) -> Zlen (str s) = s_n s.
Proof. intros. unfold str, Zlen in *. rewrite length_take. lia. Qed.
Lemma adjacent_right P l r : adjacent P l r -> 0 < s_n r <= Zlen (s_text r).
Proof. intros (E & ? & ? & ? & _). rewrite E. unfold Zlen in *. rewrite length_drop. lia. Qed.

#[global] Instance bpe_laws : BigramLaws (bpe_ops vocab) bpe_rank Z.ltb bpe_cand not_space.
Proof.
  split; simpl.
  - intros x y. unfold bpe_below. destruct (Z.ltb_spec (bpe_rank y) (bpe_rank x)), (Z.ltb_spec (bpe_rank x) (bpe_rank y)), (Z.eqb_spec (bpe_rank x) (bpe_rank y)); simpl; try done; lia.
  - intros l r i j Ha Hc. destruct (adjacent_no_space l r Ha) as [E1 E2]. unfold bpe_make, find_bpe_rank. rewrite E1, E2. simpl. unfold bpe_cand in Hc.
    destruct (bpe_ranks vocab !! (str l, str r)) as [k |]; simpl in *; [| done]. by destruct (k <? 0).
  - intros l r i j k Ha Hc. destruct (adjacent_no_space l r Ha) as [E1 E2]. unfold bpe_make, find_bpe_rank. rewrite E1, E2. simpl. unfold bpe_cand in Hc.
    destruct (bpe_ranks vocab !! (str l, str r)) as [k' |]; simpl in *; [| done]. destruct (k' <? 0); [done |]. injection Hc as ->. by eexists.
  - intros l r l' r' i j E1 E2 E3 E4. unfold bpe_make, str. by rewrite E1, E2, E3, E4.
  - intros l r l' r' i j b Ha Hm Ha' Ht Hr. pose proof (adjacent_left_n _ _ _ _ _ Ha Ha' Ht Hr) as En. unfold bpe_make in Hm. apply bind_Ok in Hm as (k & _ & Hm).
    destruct (k <? 0); [done |]. injection Hm as <-. unfold bpe_current. simpl. assert (El : str l' = str l) by (unfold str; by rewrite Ht, En). rewrite El.
    pose proof (adjacent_right _ _ _ Ha). pose proof (adjacent_right _ _ _ Ha'). destruct (Z.eqb_spec (s_n r') (s_n r)) as [E | E].
    + apply bool_decide_eq_true. f_equal. unfold str. by rewrite Hr, E.
    + apply bool_decide_eq_false. intros Hs. apply app_inv_head, (f_equal Zlen) in Hs. rewrite !str_length in Hs by lia. done.
Qed.
End Laws.

(** ** The symbols that are alive, in the order of the vector, are those of the chain *)
Definition alive (syms : list llm_symbol) : list llm_symbol := filter (fun s => 0 < s_n s) syms.
Lemma sorted_same (l k : list Z) : StronglySorted Z.lt l -> StronglySorted Z.lt k -> (forall x, x ∈ l <-> x ∈ k) -> l = k.
Proof.
  revert k. induction l as [| x l IH]; intros k Hl Hk H.
  - destruct k as [| y k]; [done |]. exfalso. assert (y ∈ []) by (apply H; set_solver). set_solver.
  - destruct k as [| y k]; [exfalso; assert (x ∈ []) by (apply H; set_solver); set_solver |].
    apply StronglySorted_inv in Hl as [Hl Hx]. apply StronglySorted_inv in Hk as [Hk Hy]. rewrite Forall_forall in Hx, Hy.
    assert (x = y) as ->.
    { assert (Hxy : x ∈ y :: k) by (apply H; set_solver). assert (Hyx : y ∈ x :: l) by (apply H; set_solver).
      apply elem_of_cons in Hxy as [-> | Hxy]; [done |]. apply elem_of_cons in Hyx as [-> | Hyx]; [done |]. specialize (Hx y Hyx). specialize (Hy x Hxy). lia. }
    f_equal. apply IH; [done | done |]. intros z. split; intros Hz.
    + assert (Hz' : z ∈ y :: k) by (apply H; set_solver). apply elem_of_cons in Hz' as [-> |]; [| done]. specialize (Hx y Hz). lia.
    + assert (Hz' : z ∈ y :: l) by (apply H; set_solver). apply elem_of_cons in Hz' as [-> |]; [| done]. specialize (Hy y Hz). lia.
Qed.
(** the indices of the symbols that are alive, from [i] on *)
Fixpoint alive_ix (i : Z) (syms : list llm_symbol) : list Z :=
  match syms with [] => [] | s :: syms => if bool_decide (0 < s_n s) then i :: alive_ix (i + 1) syms else alive_ix (i + 1) syms end.
Lemma alive_ix_elem i syms x : x ∈ alive_ix i syms <-> exists s, 0 <= x - i /\ vlookup syms (x - i) = Some s /\ 0 < s_n s.
Proof.
  revert i. induction syms as [| s syms IH]; intros i; simpl.
  - split; [set_solver |]. intros (s & _ & H & _). unfold vlookup in H. by destruct (0 <=? _).
  - assert (G : (exists s0, 0 <= x - i /\ vlookup (s :: syms) (x - i) = Some s0 /\ 0 < s_n s0) <-> (x = i /\ 0 < s_n s) \/ x ∈ alive_ix (i + 1) syms).
    { rewrite IH. split.
      - intros (s0 & H0 & Hl & Hn). destruct (Z.eq_dec x i) as [-> |]; [left; rewrite Z.sub_diag in Hl; by injection Hl as -> |]. right. exists s0. split; [lia |]. split; [| done].
        change (s :: syms) with ([s] ++ syms) in Hl. rewrite vlookup_app_r in Hl by (unfold Zlen; simpl; lia). by replace (x - i - Zlen [s]) with (x - (i + 1)) in Hl by (unfold Zlen; simpl; lia).
      - intros [[-> Hn] | (s0 & H0 & Hl & Hn)]; [exists s; by rewrite Z.sub_diag |]. exists s0. split; [lia |]. split; [| done]. change (s :: syms) with ([s] ++ syms).
        rewrite vlookup_app_r by (unfold Zlen; simpl; lia). by replace (x - i - Zlen [s]) with (x - (i + 1)) by (unfold Zlen; simpl; lia). }
    rewrite G. case_bool_decide; set_solver.
Qed.
Lemma alive_ix_sorted i syms : StronglySorted Z.lt (alive_ix i syms).
Proof.
  revert i. induction syms as [| s syms IH]; intros i; simpl; [constructor |]. case_bool_decide; [| apply IH]. constructor; [apply IH |].
  apply Forall_forall. intros x Hx. apply alive_ix_elem in Hx as (? & ? & _). lia.
Qed.
Lemma pieces_alive pre syms : pieces (pre ++ syms) (alive_ix (Zlen pre) syms) = str <$> alive syms.
Proof.
  revert pre. induction syms as [| s syms IH]; intros pre; [done |]. unfold alive. rewrite filter_cons. simpl alive_ix. specialize (IH (pre ++ [s])).
  rewrite <- app_assoc, Zlen_app in IH. change (Zlen [s]) with 1 in IH. simpl app in IH. destruct (decide (0 < s_n s)) as [Hs | Hs].
  - rewrite bool_decide_true by done. simpl. change (pieces (pre ++ s :: syms) (Zlen pre :: alive_ix (Zlen pre + 1) syms)) with
      (default [] (str <$> vlookup (pre ++ s :: syms) (Zlen pre)) :: pieces (pre ++ s :: syms) (alive_ix (Zlen pre + 1) syms)).
    rewrite IH, vlookup_app_r, Z.sub_diag by lia. done.
  - by rewrite bool_decide_false, IH by done.
Qed.
Lemma chain_alive P w ix syms : chain_ok P w ix syms -> str <$> alive syms = pieces syms ix.
Proof.
  intros Hc. rewrite <- (pieces_alive [] syms). simpl. f_equal. apply sorted_same; [apply alive_ix_sorted | apply (c_sorted _ _ _ _ Hc) |].
  intros x. rewrite alive_ix_elem. change (Zlen []) with 0. rewrite Z.sub_0_r. split.
  - intros (s & _ & Hl & Hn). by eapply alive_in.
  - intros Hx. destruct (alive_lookup _ _ _ _ _ Hc Hx) as (s & Hl & Hn). exists s. apply vlookup_Some_range in Hl as Hr. split; [lia |]. done.
Qed.

(** ** The final chain *)
Definition linked (l : list llm_symbol) : Prop := forall k s, l !! k = Some s -> s_next s = (if (S k =? length l)%nat then -1 else Z.of_nat (S k)) /\ 0 < s_n s.
Lemma linked_snoc l p s : linked (l ++ [p]) -> 0 < s_n s -> s_next s = -1 -> linked (l ++ [relink_next (Zlen l + 1) p; s]).
Proof.
  intros H Hn Hx k x Hk. assert (L1 : length (l ++ [p]) = S (length l)) by (rewrite length_app; cbn [length]; lia).
  assert (L2 : length (l ++ [relink_next (Zlen l + 1) p; s]) = S (S (length l))) by (rewrite length_app; cbn [length]; lia). rewrite L2.
  destruct (decide (k < length l)%nat) as [Hlt | Hge].
  - rewrite lookup_app_l in Hk by done. destruct (H k x) as [E1 E2]; [by rewrite lookup_app_l |]. rewrite E1, L1. split; [| done].
    by rewrite !(proj2 (Nat.eqb_neq _ _)) by lia.
  - rewrite lookup_app_r in Hk by lia. destruct (k - length l)%nat as [| [| m] ] eqn:Ek; [| | done]; injection Hk as <-.
    + assert (k = length l) as -> by lia. destruct (H (length l) p) as [_ E2]; [by apply list_lookup_middle |]. split; [| done].
      rewrite (proj2 (Nat.eqb_neq _ _)) by lia. change (s_next (relink_next (Zlen l + 1) p)) with (Zlen l + 1). unfold Zlen. lia.
    + assert (k = S (length l)) as -> by lia. split; [| done]. by rewrite Nat.eqb_refl.
Qed.
Lemma linked_one s : 0 < s_n s -> s_next s = -1 -> linked [s].
Proof. intros Hn Hx [| k] x Hk; [by injection Hk as <- | done]. Qed.
Lemma append_final_ok syms final : linked final ->
  exists final', append_final syms final (Zlen final - 1) = Ok (final', Zlen final' - 1) /\ linked final' /\ str <$> final' = (str <$> final) ++ (str <$> alive syms).
Proof.
  revert final. induction syms as [| s syms IH]; intros final Hl; cbn [append_final]; unfold alive; [exists final; by rewrite app_nil_r |].
  rewrite filter_cons. fold (alive syms). destruct (Z.ltb_spec 0 (s_n s)) as [Hs | Hs]; [rewrite decide_True by done | rewrite decide_False by lia; by apply IH].
  set (s' := relink_next (-1) (relink_prev (Zlen final - 1) s)). assert (Es : str s' = str s) by done.
  destruct final as [| p0 final0 _] using rev_ind.
  - cbn [rbind]. change (Zlen [] - 1 =? -1) with true. cbv iota. cbn [rbind]. destruct (IH [s']) as (final' & E & Hl' & Ef); [by apply linked_one |].
    change (Zlen [s'] - 1) with 0 in E. change ([] ++ [s']) with [s']. change (Zlen []) with 0. rewrite E. exists final'. split; [done |]. split; [done |]. rewrite Ef. done.
  - rewrite (proj2 (Z.eqb_neq _ _)) by (rewrite Zlen_app; change (Zlen [p0]) with 1; pose proof (Zlen_nonneg final0); lia).
    rewrite Zlen_app in *. change (Zlen [p0]) with 1 in *. replace (Zlen final0 + 1 - 1) with (Zlen final0) in * by lia.
    assert (El : vlookup (final0 ++ [p0]) (Zlen final0) = Some p0) by (rewrite vlookup_app_r, Z.sub_diag by lia; done).
    rewrite (vget_lookup _ _ _ El). cbn [rbind]. rewrite (vset_lookup _ _ _ _ El). cbn [rbind].
    assert (Ei : vinsert (Zlen final0) (relink_next (Zlen final0 + 1) p0) (final0 ++ [p0]) = final0 ++ [relink_next (Zlen final0 + 1) p0]).
    { unfold vinsert, Zlen. rewrite (proj2 (Z.leb_le 0 _)) by lia. rewrite Nat2Z.id. rewrite insert_app_r_alt by lia. by rewrite Nat.sub_diag. }
    rewrite Ei. rewrite <- app_assoc. simpl app. destruct (IH (final0 ++ [relink_next (Zlen final0 + 1) p0; s'])) as (final' & E & Hl' & Ef); [by apply linked_snoc |].
    rewrite !Zlen_app in *. change (Zlen [relink_next (Zlen final0 + 1) p0; s']) with 2 in E. change (Zlen [relink_next (Zlen final0 + 1) p0]) with 1.
    replace (Zlen final0 + 2 - 1) with (Zlen final0 + 1) in E by lia. rewrite E. exists final'. split; [done |]. split; [done |]. rewrite Ef, !fmap_app. simpl. by rewrite <- !app_assoc.
Qed.

(** ** A text *)
Section Tokenize.
Context {F : Type} (vocab : Vocab F) {Q : Type} `{PQ : !PQueue (b_below (bpe_ops vocab)) Q}.

(** a word that is taken as it is *)
Definition kept_whole (word : list Z) : bool :=
  negb (text_to_token vocab word =? TOKEN_NULL) && (ignore_merges vocab || (pre_gemma4 vocab && forallb (fun c => c =? newline) word)).
(** the reference: the word, or its characters merged pair by pair, the lowest rank first *)
Definition bpe_word (word : list Z) : list (list Z) :=
  match word with
  | [] => []
  | _ => if kept_whole word then [word] else greedy Z.ltb (bpe_cand vocab) (chars_of word)
  end.

Lemma merge_whole word : exists st, merge_all (bpe_ops vocab) (whole_word word) tt = Ok st /\ symbols st = whole_word word.
Proof.
  unfold merge_all. change (length (whole_word word)) with 1%nat. cbn [Nat.sub seed_queue rbind Nat.mul Nat.add merge_loop work_queue].
  destruct (q_pop q_empty) as [[b q] |] eqn:E; [| eexists; by split]. apply pop_top in E as [E _]. rewrite contents_empty in E. by apply Permutation_nil_cons in E.
Qed.
Lemma word_ok word : Forall is_byte word -> Forall not_space word ->
  exists syms st, word_symbols vocab word = Ok syms /\ merge_all (bpe_ops vocab) syms tt = Ok st /\ str <$> alive (symbols st) = bpe_word word.
Proof.
  intros Hb Hs. unfold word_symbols. assert (G : word = [] \/ bpe_word word = if kept_whole word then [word] else greedy Z.ltb (bpe_cand vocab) (chars_of word)) by (destruct word; [by left | by right]).
  assert (W : kept_whole word = true -> exists st, merge_all (bpe_ops vocab) (whole_word word) tt = Ok st /\ str <$> alive (symbols st) = bpe_word word).
  { intros Hk. destruct (merge_whole word) as (st & E & Es). exists st. split; [done |]. rewrite Es. unfold alive, whole_word. rewrite filter_cons, filter_nil. simpl.
    destruct word as [| c word]; [done |]. cbn [bpe_word]. rewrite Hk, decide_True by (rewrite Zlen_cons; pose proof (Zlen_nonneg word); lia).
    cbn [fmap list_fmap]. unfold str. cbn [s_n s_text]. unfold Zlen. by rewrite Nat2Z.id, firstn_all. }
  unfold kept_whole in *. set (known := negb _) in *. destruct (ignore_merges vocab && known) eqn:E1.
  { apply andb_true_iff in E1 as [E1 E2]. destruct W as (st & ? & ?); [by rewrite E1, E2 |]. by exists (whole_word word), st. }
  destruct (pre_gemma4 vocab && forallb (fun c => c =? newline) word && known) eqn:E3.
  { rewrite !andb_true_iff in E3. destruct E3 as [[E3 E4] E5]. destruct W as (st & ? & ?); [by rewrite E3, E4, E5, orb_true_r |]. by exists (whole_word word), st. }
  destruct (merge_all_ok (bpe_ops vocab) bpe_rank Z.ltb (bpe_cand vocab) not_space word tt) as (syms & st & ix & Es & _ & Em & Hc & _ & Hp); [exact Hb | done |].
  exists syms, st. split; [done |]. split; [done |]. rewrite (chain_alive _ _ _ _ Hc), Hp. destruct G as [-> | ->]; [done |].
  assert (E : known && (ignore_merges vocab || pre_gemma4 vocab && forallb (fun c => c =? newline) word) = false) by (destruct known, (ignore_merges vocab), (pre_gemma4 vocab), (forallb _ word); done).
  by rewrite E.
Qed.
Lemma words_loop_ok words final : Forall (Forall is_byte) words -> Forall (Forall not_space) words -> linked final ->
  exists final', words_loop vocab words final (Zlen final - 1) = Ok final' /\ linked final' /\ str <$> final' = (str <$> final) ++ concat (bpe_word <$> words).
Proof.
  intros Hb Hs. revert final. induction Hb as [| word words Hb _ IH]; intros final Hl; cbn [words_loop]; [exists final; by rewrite app_nil_r |].
  apply Forall_cons in Hs as [Hs Hss]. destruct (word_ok word Hb Hs) as (syms & st & -> & Em & Ea). cbn [rbind]. rewrite Em. cbn [rbind].
  destruct (append_final_ok (symbols st) final Hl) as (f1 & -> & Hl1 & E1). cbn [rbind]. destruct (IH Hss f1 Hl1) as (f2 & -> & Hl2 & E2). exists f2. split; [done |]. split; [done |].
  rewrite E2, E1, Ea. rewrite fmap_cons. cbn [concat]. by rewrite <- app_assoc.
Qed.
Lemma chain_tokens_ok byte_encode syms k output : linked syms -> (k < length syms)%nat ->
  chain_tokens vocab byte_encode (length syms - k) syms (Z.of_nat k) output = Ok (output ++ concat (symbol_tokens vocab byte_encode <$> (str <$> drop k syms))).
Proof.
  intros Hl. remember (length syms - k)%nat as n eqn:En. revert k output En. induction n as [| n IH]; intros k output En Hk; [lia |]. cbn [chain_tokens].
  rewrite (proj2 (Z.eqb_neq _ _)) by lia. destruct (lookup_lt_is_Some_2 syms k Hk) as [s Es].
  assert (Ev : vlookup syms (Z.of_nat k) = Some s) by (unfold vlookup; rewrite (proj2 (Z.leb_le 0 _)) by lia; by rewrite Nat2Z.id). rewrite (vget_lookup _ _ _ Ev). cbn [rbind].
  destruct (Hl k s Es) as [Hn Hs]. rewrite (proj2 (Z.eqb_neq _ _)) by lia. rewrite (drop_S _ _ _ Es), !fmap_cons. cbn [concat]. rewrite Hn.
  destruct (Nat.eqb_spec (S k) (length syms)) as [E | E].
  - rewrite (drop_ge syms (S k)) by lia. assert (n = O) as -> by lia. cbn [chain_tokens fmap list_fmap concat]. by rewrite app_nil_r.
  - rewrite IH by lia. by rewrite <- app_assoc.
Qed.
End Tokenize.

Lemma bpe_tokenize_words {F Q : Type} (vocab : Vocab F) `{PQ : !PQueue (b_below (bpe_ops vocab)) Q} D regex_matches exprs byte_encode text words output :
  unicode_regex_split D regex_matches text exprs byte_encode = Ok words -> Forall (Forall is_byte) words -> Forall (Forall not_space) words ->
  bpe_tokenize vocab D regex_matches exprs byte_encode text output =
    Ok (output ++ concat (symbol_tokens vocab byte_encode <$> concat (bpe_word vocab <$> words))).
Proof.
  intros E Hb Hs. unfold bpe_tokenize. rewrite E. cbn [rbind]. destruct (words_loop_ok vocab words [] Hb Hs) as (final & E2 & Hl & Ef); [intros k s Hk; done |].
  change (Zlen [] - 1) with (-1) in E2. rewrite E2. cbn [rbind]. simpl in Ef. rewrite <- Ef. destruct final as [| f final]; [simpl; by rewrite app_nil_r |].
  pose proof (chain_tokens_ok vocab byte_encode (f :: final) 0 output Hl) as G. rewrite Nat.sub_0_r in G. apply G. simpl. lia.
Qed.

(** C31: tokenizing with BPE gives, for every word of the text in turn, the tokens of the pieces that
    the plain algorithm leaves (merge the neighbouring pair of lowest rank, the leftmost among
    equals, until none can be merged), whatever implementation of std::priority_queue is used and
    although the session never removes an outdated entry.  The words contain no space, as
    find_bpe_rank requires. *)
Theorem bpe_tokenize_exact {F Q : Type} (vocab : Vocab F) `{PQ : !PQueue (b_below (bpe_ops vocab)) Q} (D : unicode_data) regex_matches
    (exprs : list (list Z)) (byte_encode : bool) (text : list Z) (words : list (list Z)) (output : list Z) :
  unicode_regex_split D regex_matches text exprs byte_encode = Ok words -> Forall (Forall is_byte) words -> Forall (Forall not_space) words ->
  bpe_tokenize vocab D regex_matches exprs byte_encode text output =
    Ok (output ++ concat (symbol_tokens vocab byte_encode <$> concat (bpe_word vocab <$> words))).
Proof.
  apply bpe_tokenize_words.
Qed.

(** the tables of a list of words that all score 0 *)
Definition tables_of (words : list (list Z)) : gmap (list Z) Z * list (token_data Z) :=
  match load_tables ((fun w => (w, 0, None)) <$> words) with Ok r => r | Err _ => (∅, []) end.
(** a vocabulary for a few letters: two merges make "low", one makes "er" *)
Definition low_vocab : Vocab Z :=
  let texts := [bytes "l"; bytes "o"; bytes "w"; bytes "e"; bytes "r"; [0xC4; 0xA0]; bytes "lo"; bytes "low"; bytes "er"; [0xC4; 0xA0] ++ bytes "low"] in
  plain_vocab VT_BPE
    (tables_of texts).1 (tables_of texts).2
    (load_merges [bytes "l o"; bytes "lo w"; bytes "e r"; [0xC4; 0xA0] ++ bytes " low"] 0 ∅).
Lemma bpe_tokenize_exact_witness :
  let PQ := bpe_queue low_vocab in
  bpe_tokenize low_vocab ascii_data (fun _ _ _ => None) [gpt2_expr] true (bytes "lower low") [] = Ok [7; 8; 9] /\
  bpe_tokenize low_vocab ascii_data (fun _ _ _ => None) [gpt2_expr] true (bytes "lower low") [] =
    Ok ([] ++ concat (symbol_tokens low_vocab true <$> concat (bpe_word low_vocab <$> [bytes "lower"; [0xC4; 0xA0] ++ bytes "low"]))).
Proof.
  split; [vm_compute; reflexivity |]. apply (bpe_tokenize_exact low_vocab).
  - vm_compute. reflexivity.
  - repeat constructor; by vm_compute.
  - repeat constructor; by vm_compute.
Defined.
