(* ===== verification/Pieces.v ===== *)
(** * The text of a token (Vocab::impl::token_to_piece and its helpers, src/iian/tokenizer/vocab.cpp)

    A piece is written into a buffer: the model returns the number the function returns (negative
    when the buffer is too small) and the bytes it wrote. *)

From S2P Require Import Prelude Text Unicode Vocab.

(** ** replace_all *)
Fixpoint replace_loop (fuel : nat) (s search replace : list Z) (last_pos : nat) (builder : list Z) : res (list Z) :=
  match find_str s search last_pos with
  | None => Ok (builder ++ drop last_pos s)
  | Some pos =>
      match fuel with
      | O => Err Fuel
      | S fuel => replace_loop fuel s search replace (pos + length search) (builder ++ substr s last_pos (pos - last_pos) ++ replace)
      end
  end.
Definition replace_all (s search replace : list Z) : res (list Z) :=
  match search with [] => Ok s | _ => replace_loop (length s) s search replace 0 [] end.

(** U+2581 in UTF-8 *)
Definition lower_block : list Z := [0xE2; 0x96; 0x81].
Definition escape_whitespace (text : list Z) : res (list Z) := replace_all text [ch " "] lower_block.
Definition unescape_whitespace (word : list Z) : res (list Z) := replace_all word lower_block [ch " "].

(** ** iian_decode_text: out of the byte alphabet *)
Definition hex_lower (d : Z) : Z := if d <? 10 then 48 + d else 87 + d.
Definition hex2 (c : Z) : list Z := [hex_lower (Z.shiftr c 4); hex_lower (Z.land c 15)].
Fixpoint decode_cpts (cpts text decoded_text : list Z) : res (list Z) :=
  match cpts with
  | [] => Ok decoded_text
  | cpt :: cpts =>
      let! utf8 := unicode_cpt_to_utf8 cpt in
      match unicode_utf8_to_byte utf8 with
      | Ok b => decode_cpts cpts text (decoded_text ++ [b])
      | Err (Throw _) => decode_cpts cpts text (decoded_text ++ bytes "[UNK_BYTE_0x" ++ concat (hex2 <$> utf8) ++ text ++ bytes "]")
      | Err e => Err e
      end
  end.
Definition decode_text (text : list Z) : res (list Z) :=
  let! cpts := unicode_cpts_from_utf8 text in decode_cpts cpts text [].

(** a byte read as a [char] *)
Definition signed_char (c : Z) : Z := if c <? 128 then c else c - 256.
(** ** iian_unescape_rwkv_token: the parser's state is whether an escape is open, the digits still to
    read and the value so far *)
Fixpoint unescape_loop (s : list Z) (escaping : bool) (hex_remaining hex_acc : Z) (output : list Z) : list Z :=
  match s with
  | [] => output
  | c :: s =>
      if negb (hex_remaining =? 0) then
        let value := Z.land (if ch "a" <=? signed_char c then signed_char c - ch "a" + 10 else signed_char c - 48) 0xFF in
        let hex_acc := Z.land (Z.shiftl hex_acc 4 + value) 0xFF in
        if hex_remaining - 1 =? 0 then unescape_loop s escaping 0 0 (output ++ [hex_acc])
        else unescape_loop s escaping (hex_remaining - 1) hex_acc output
      else if escaping then
        if c =? ch "t" then unescape_loop s false 0 hex_acc (output ++ [tab])
        else if c =? ch "n" then unescape_loop s false 0 hex_acc (output ++ [newline])
        else if c =? ch "r" then unescape_loop s false 0 hex_acc (output ++ [creturn])
        else if c =? ch "x" then unescape_loop s false 2 hex_acc output
        else unescape_loop s false 0 hex_acc (output ++ [c])
      else if c =? ch "\" then unescape_loop s true 0 hex_acc output
      else unescape_loop s false 0 hex_acc (output ++ [c])
  end.
Definition unescape_rwkv_token (escaped : list Z) : list Z := unescape_loop escaped false 0 0 [].

(** ** The clean-up of spaces
    Three passes over the buffer, each writing what it keeps over what it has read: [total] bytes are
    kept, [i] is the next one to read.  What differs is the decision taken at a byte: is the space
    before it removed, and is the one behind it (then overwritten by 0)? *)
Fixpoint clean_loop (fuel : nat) (cut : list Z -> Z -> Z -> res (bool * bool)) (n : Z) (text : list Z) (i total : Z) : res (list Z * Z) :=
  if n <=? i then Ok (text, total) else
  match fuel with
  | O => Err Fuel
  | S fuel =>
      let! x := vget text i in
      let! (before, behind) := cut text i n in
      let total := if before : bool then total - 1 else total in
      let! (text, i) := (if behind : bool then let! text := vset text (i + 1) 0 in Ok (text, i + 1) else Ok (text, i)) in
      let! text := vset text total x in
      clean_loop fuel cut n text (i + 1) (total + 1)
  end.
Definition clean_pass (cut : list Z -> Z -> Z -> res (bool * bool)) (text : list Z) (total : Z) : res (list Z * Z) :=
  clean_loop (Z.to_nat total) cut total text 1 (if total =? 0 then 0 else 1).

(** a space before one of ?!., *)
Definition cut_punctuation (text : list Z) (i _ : Z) : res (bool * bool) :=
  let! x := vget text i in
  let! p := vget text (i - 1) in
  Ok ((p =? ch " ") && ((x =? ch "?") || (x =? ch "!") || (x =? ch ".") || (x =? ch ",")), false).
(** an apostrophe between spaces *)
Definition cut_apostrophe (text : list Z) (i n : Z) : res (bool * bool) :=
  let! x := vget text i in
  if (x =? ch "'") && (i + 1 <? n) then
    let! p := vget text (i - 1) in
    let! q := vget text (i + 1) in
    let b := (p =? ch " ") && (q =? ch " ") in Ok (b, b)
  else Ok (false, false).
(** a space before 's 'm 're 've *)
Definition cut_contraction (text : list Z) (i n : Z) : res (bool * bool) :=
  let! x := vget text i in
  let! p := vget text (i - 1) in
  if (p =? ch " ") && (x =? ch "'") && (i + 1 <? n) then
    let! x1 := vget text (i + 1) in
    if (x1 =? ch "t") || (x1 =? ch "d") then Ok (false, false)
    else if (x1 =? ch "s") || (x1 =? ch "m") then Ok (true, false)
    else if i + 2 <? n then
      let! x2 := vget text (i + 2) in
      if (x1 =? ch "l") && (x2 =? ch "l") then Ok (false, false)
      else Ok (((x1 =? ch "r") && (x2 =? ch "e")) || ((x1 =? ch "v") && (x2 =? ch "e")), false)
    else Ok (false, false)
  else Ok (false, false).
(** the text the caller sees is what [total] says *)
Definition clean_up (text : list Z) (total : Z) : res (list Z * Z) :=
  let! (text, total) := clean_pass cut_punctuation text total in
  let! (text, total) := clean_pass cut_apostrophe text total in
  let! (text, total) := clean_pass cut_contraction text total in
  Ok (take (Z.to_nat total) text, total).

(** ** Tokens to text *)
Section Pieces.
Context {F : Type} (vocab : Vocab F).

Definition hex_value (c : Z) : option Z :=
  if (48 <=? c) && (c <=? 57) then Some (c - 48)
  else if (97 <=? c) && (c <=? 102) then Some (c - 87)
  else if (65 <=? c) && (c <=? 70) then Some (c - 55)
  else None.
(** strtol base 16 of at most two characters: a blank or a sign, then digits up to the first that is none *)
Definition isspace (c : Z) : bool := (c =? ch " ") || ((9 <=? c) && (c <=? 13)).
Definition hex_or_0 (s : list Z) : Z := match s with c :: _ => default 0 (hex_value c) | [] => 0 end.
Definition strtol16 (s : list Z) : Z :=
  match s with
  | [] => 0
  | a :: s => match hex_value a with
              | Some x => match s with b :: _ => match hex_value b with Some y => 16 * x + y | None => x end | [] => x end
              | None => if isspace a || (a =? ch "+") then hex_or_0 s else if a =? ch "-" then - hex_or_0 s else 0
              end
  end.
Definition token_to_byte (id : Z) : res Z :=
  let! d := get_token_data vocab id in
  if has_attr (t_attr d) TOKEN_ATTR_BYTE then
    match v_type vocab with
    | VT_SPM | VT_UGM | VT_BPE =>
        if 3 <=? Zlen (t_text d) then Ok (Z.land (strtol16 (substr (t_text d) 3 2)) 0xFF) else throw! "out_of_range"
    | _ => throw! "fatal error"
    end
  else throw! "GGML_ASSERT".

Definition attr_special : Z := Z.lor TOKEN_ATTR_UNKNOWN TOKEN_ATTR_CONTROL.

(** the bytes of a token before they are copied; [None]: nothing is copied *)
Definition piece_text (token : Z) : res (option (list Z)) :=
  match vlookup (id_to_token vocab) token with
  | None => Ok None
  | Some d =>
      let token_text := t_text d in
      let attr := t_attr d in
      let copied (m : res (list Z)) := let! s := m in Ok (Some s) in
      match v_type vocab with
      | VT_WPM | VT_SPM | VT_UGM =>
          if has_attr attr (Z.lor attr_special TOKEN_ATTR_USER_DEFINED) then Ok (Some token_text)
          else if has_attr attr TOKEN_ATTR_NORMAL then copied (unescape_whitespace token_text)
          else if has_attr attr TOKEN_ATTR_BYTE then copied (let! b := token_to_byte token in Ok [b])
          else Ok None
      | VT_BPE =>
          if has_attr attr (Z.lor attr_special TOKEN_ATTR_USER_DEFINED) then Ok (Some token_text)
          else if has_attr attr TOKEN_ATTR_NORMAL then
            copied (if escape_whitespaces vocab then unescape_whitespace token_text else decode_text token_text)
          else if has_attr attr TOKEN_ATTR_BYTE then copied (let! b := token_to_byte token in Ok [b])
          else Ok None
      | VT_RWKV => Ok (Some (unescape_rwkv_token token_text))
      | VT_PLAMO2 =>
          if has_attr attr TOKEN_ATTR_BYTE && (Zlen token_text =? 6) && starts_with (bytes "<0x") token_text && (peek_at 5 token_text =? ch ">") then
            match hex_value (peek_at 3 token_text), hex_value (peek_at 4 token_text) with
            | Some x, Some y => Ok (Some [16 * x + y])
            | _, _ => Ok (Some token_text)
            end
          else Ok (Some token_text)
      | VT_NONE => throw! "fatal error"
      end
  end.

(** _try_copy: skip leading spaces, then copy if the buffer is large enough *)
Fixpoint drop_spaces (lstrip : nat) (s : list Z) : list Z :=
  match lstrip, s with S k, c :: s' => if c =? ch " " then drop_spaces k s' else s | _, _ => s end.
Definition try_copy (length lstrip : Z) (s : list Z) : res (Z * list Z) :=
  if 2 ^ 31 - 1 <=? Zlen s then throw! "invalid token size" else
  let s := drop_spaces (Z.to_nat lstrip) s in
  if length <? Zlen s then Ok (- Zlen s, []) else Ok (Zlen s, s).

(** the buffers of one byte and of RWKV tokens are filled without looking at [lstrip] *)
Definition plain_copy (token : Z) : bool :=
  match vlookup (id_to_token vocab) token with
  | Some d => match v_type vocab with
              | VT_RWKV => true
              | VT_PLAMO2 => has_attr (t_attr d) TOKEN_ATTR_BYTE && (Zlen (t_text d) =? 6) && starts_with (bytes "<0x") (t_text d) && (peek_at 5 (t_text d) =? ch ">") &&
                             bool_decide (is_Some (hex_value (peek_at 3 (t_text d)))) && bool_decide (is_Some (hex_value (peek_at 4 (t_text d))))
              | _ => false
              end
  | None => false
  end.
Definition token_to_piece (cache : list (list Z)) (token length lstrip : Z) (special : bool) : res (Z * list Z) :=
  let! d := get_token_data vocab token in
  if negb special && has_attr (t_attr d) attr_special then Ok (0, [])
  else
    match cache with
    | _ :: _ => match vlookup cache token with Some s => try_copy length lstrip s | None => throw! "out_of_range" end
    | [] =>
        let! p := piece_text token in
        match p with
        | None => Ok (0, [])
        | Some s =>
            if plain_copy token then if length <? Zlen s then Ok (- Zlen s, []) else Ok (Zlen s, s)
            else try_copy length lstrip s
        end
    end.

(** ** The cache of pieces that load builds

    [capacity] is that of an empty std::string, which the first attempt fills. *)
Definition token_to_piece_for_cache (capacity token : Z) (special : bool) : res (list Z) :=
  let! (n_chars, written) := token_to_piece [] token capacity 0 special in
  if n_chars <? 0 then
    let! (check, written) := token_to_piece [] token (- n_chars) 0 special in
    if check =? - n_chars then Ok written else throw! "GGML_ASSERT(check == -n_chars)"
  else Ok written.
Fixpoint piece_cache_loop (capacity id : Z) (n_tokens : nat) : res (list (list Z)) :=
  match n_tokens with
  | O => Ok []
  | S n => let! piece := token_to_piece_for_cache capacity id true in let! rest := piece_cache_loop capacity (id + 1) n in Ok (piece :: rest)
  end.
Definition build_piece_cache (capacity : Z) : res (list (list Z)) := piece_cache_loop capacity 0 (length (id_to_token vocab)).

(** ** detokenize *)
Fixpoint detok_loop (cache : list (list Z)) (tokens : list Z) (avail total : Z) (remove_space unparse_special : bool) (text : list Z) : res (Z * list Z) :=
  match tokens with
  | [] => Ok (total, text)
  | token :: tokens =>
      let! (n_chars, written) := token_to_piece cache token avail (Z.b2z remove_space) unparse_special in
      if n_chars <? 0 then detok_loop cache tokens 0 (total - n_chars) false unparse_special text
      else if 0 <? n_chars then detok_loop cache tokens (avail - n_chars) (total + n_chars) false unparse_special (text ++ written)
      else detok_loop cache tokens avail total false unparse_special text
  end.
Definition strip_bos (tokens : list Z) (remove_special : bool) : list Z * bool :=
  match tokens with
  | t :: rest => if remove_special && add_bos vocab && (t =? special_bos_id vocab) then (rest, false) else (tokens, add_space_prefix vocab)
  | [] => ([], add_space_prefix vocab)
  end.
Definition strip_eos (tokens : list Z) (remove_special : bool) : list Z :=
  match last tokens with
  | Some t => if remove_special && add_eos vocab && (t =? special_eos_id vocab) then take (length tokens - 1) tokens else tokens
  | None => tokens
  end.
(** the number of bytes (negative when they do not fit) and the text *)
Definition detokenize (cache : list (list Z)) (tokens : list Z) (text_len_max : Z) (remove_special unparse_special : bool) : res (Z * list Z) :=
  match v_type vocab with
  | VT_NONE => Ok (0, [])
  | _ =>
      let '(tokens, remove_space) := strip_bos tokens remove_special in
      let tokens := strip_eos tokens remove_special in
      let! (total, text) := detok_loop cache tokens text_len_max 0 remove_space unparse_special [] in
      if text_len_max <? total then Ok (- total, text)
      else
        let! (text, total) := (if clean_spaces vocab then clean_up text total else Ok (text, total)) in
        Ok (if total <=? text_len_max then total else - total, text)
  end.

(** ** The cached pieces are those computed without a cache *)
Lemma piece_cache_lookup capacity n : forall id cache k, piece_cache_loop capacity id n = Ok cache -> (k < n)%nat -> exists piece, cache !! k = Some piece /\ token_to_piece_for_cache capacity (id + Z.of_nat k) true = Ok piece.
Proof.
  induction n as [| n IH]; intros id cache k E Hk; [lia |]. cbn [piece_cache_loop] in E. destruct (token_to_piece_for_cache capacity id true) as [piece |] eqn:Ep; [cbn [rbind] in E | done]. destruct (piece_cache_loop capacity (id + 1) n) as [rest |] eqn:Er; [cbn [rbind] in E | done]. injection E as <-.
  destruct k as [| k]; [exists piece; by rewrite Z.add_0_r |]. destruct (IH (id + 1) rest k Er ltac:(lia)) as (q & H1 & H2). exists q. split; [done |]. rewrite <- H2. f_equal. lia.
Qed.
Lemma cached_piece capacity cache token length lstrip special : v_type vocab = VT_BPE -> 0 <= capacity -> build_piece_cache capacity = Ok cache ->
  token_to_piece cache token length lstrip special = token_to_piece [] token length lstrip special.
Proof.
  intros Ht Hcap Hc. unfold token_to_piece at 1 2. destruct (get_token_data vocab token) as [d |] eqn:Ed; [cbn [rbind] | done]. destruct (negb special && has_attr (t_attr d) attr_special); [done |].
  assert (El : vlookup (id_to_token vocab) token = Some d) by (unfold get_token_data in Ed; destruct (vlookup _ _); [congruence | done]). pose proof (vlookup_Some_range _ _ _ El) as Hr. unfold Zlen in Hr.
  destruct (piece_cache_lookup capacity _ 0 cache (Z.to_nat token) Hc ltac:(lia)) as (piece & Hp & Ep). rewrite Z.add_0_l, Z2Nat.id in Ep by lia.
  assert (Ev : vlookup cache token = Some piece) by (unfold vlookup; by rewrite (proj2 (Z.leb_le 0 token)) by lia). destruct cache as [| c0 cache]; [done |]. rewrite Ev.
  assert (Epc : plain_copy token = false) by (unfold plain_copy; by rewrite El, Ht). unfold token_to_piece_for_cache, token_to_piece in Ep. rewrite Ed, Epc in Ep. cbn [rbind negb andb] in Ep. rewrite Epc.
  destruct (piece_text token) as [ [w |] |]; cbn [rbind] in *; [| injection Ep as <-; unfold try_copy; assert (E0 : drop_spaces (Z.to_nat lstrip) [] = []) by (by destruct (Z.to_nat lstrip)); rewrite E0; change (Zlen []) with 0; cbn; by destruct (length <? 0) | done].
  unfold try_copy in Ep at 1. destruct (2 ^ 31 - 1 <=? Zlen w) eqn:Es; [done |]. change (drop_spaces (Z.to_nat 0) w) with w in Ep. pose proof (Zlen_nonneg w). destruct (Z.ltb_spec capacity (Zlen w)) as [Hl | Hl]; cbn [rbind] in Ep.
  - rewrite (proj2 (Z.ltb_lt (- Zlen w) 0)) in Ep by lia. unfold try_copy in Ep. rewrite Es, Z.opp_involutive in Ep. change (drop_spaces (Z.to_nat 0) w) with w in Ep. rewrite (proj2 (Z.ltb_ge _ _)) in Ep by lia. cbn [rbind] in Ep. rewrite Z.eqb_refl in Ep. by injection Ep as <-.
  - rewrite (proj2 (Z.ltb_ge _ _)) in Ep by lia. by injection Ep as <-.
Qed.
Lemma detok_loop_cached capacity cache special tokens : v_type vocab = VT_BPE -> 0 <= capacity -> build_piece_cache capacity = Ok cache ->
  forall avail total remove_space text, detok_loop cache tokens avail total remove_space special text = detok_loop [] tokens avail total remove_space special text.
Proof.
  intros Ht Hcap Hc. induction tokens as [| t tokens IH]; intros avail total rs text; [done |]. cbn [detok_loop]. rewrite (cached_piece capacity cache) by done. destruct (token_to_piece [] t avail (Z.b2z rs) special) as [ [n w] |]; [cbn [rbind] | done]. by rewrite !IH.
Qed.
Lemma detokenize_cached capacity cache tokens len remove_special special : v_type vocab = VT_BPE -> 0 <= capacity -> build_piece_cache capacity = Ok cache ->
  detokenize cache tokens len remove_special special = detokenize [] tokens len remove_special special.
Proof. intros Ht Hcap Hc. unfold detokenize. rewrite Ht. destruct (strip_bos tokens remove_special) as [ts rs]. by rewrite (detok_loop_cached capacity cache). Qed.
End Pieces.

(** * The clean-up of spaces in a detokenized text (Vocab::impl::detokenize, src/iian/tokenizer/vocab.cpp)

    The three passes that rewrite the buffer in place compute plain functions on strings. *)

Lemma vget_nat {A} (l : list A) i x : l !! i = Some x -> vget l (Z.of_nat i) = Ok x.
Proof. intros H. apply vget_Ok. unfold vlookup. rewrite (proj2 (Z.leb_le 0 _)) by lia. by rewrite Nat2Z.id. Qed.
Lemma vset_nat {A} (l : list A) i x : (i < length l)%nat -> vset l (Z.of_nat i) x = Ok (<[i := x]> l).
Proof. intros H. rewrite vset_Ok by (unfold Zlen; lia). unfold vinsert. rewrite (proj2 (Z.leb_le 0 _)) by lia. by rewrite Nat2Z.id. Qed.

(** ** A pass in general *)
Section Pass.
Context (cut : list Z -> Z -> Z -> res (bool * bool)).
(** the decision as a function of the byte before and of the bytes from the current one on *)
Context (dec : Z -> list Z -> bool * bool).
Hypothesis cut_dec : forall text i n p x rest, (1 <= i)%nat -> (i < n)%nat -> (n <= length text)%nat ->
  text !! (i - 1)%nat = Some p -> take (n - i) (drop i text) = x :: rest -> cut text (Z.of_nat i) (Z.of_nat n) = Ok (dec p (x :: rest)).
Hypothesis dec_space : forall p l, p <> ch " " -> dec p l = (false, false).
Hypothesis dec_behind : forall p x rest b, dec p (x :: rest) = (b, true) -> rest <> [] /\ x <> ch " ".

(** the text from the last byte kept on *)
Fixpoint settle (q : Z) (rest : list Z) : list Z :=
  match rest with
  | [] => [q]
  | x :: r =>
      let '(before, behind) := dec q rest in
      (if before then [] else [q]) ++ match r with y :: r' => if behind then settle x r' else settle x r | [] => settle x r end
  end.

(** [total] bytes are kept, the last of them is [q]; the byte before [i] is it, or neither is a space *)
Definition kept (text : list Z) (n i total : nat) (q : Z) : Prop :=
  (1 <= total <= i)%nat /\ (i <= n <= length text)%nat /\ text !! (total - 1)%nat = Some q /\
  exists p, text !! (i - 1)%nat = Some p /\ (p = q \/ (p <> ch " " /\ q <> ch " ")).

Lemma kept_take (text : list Z) total q : (1 <= total)%nat -> text !! (total - 1)%nat = Some q -> take total text = take (total - 1) text ++ [q].
Proof. intros H E. rewrite <- (take_S_r _ _ _ E). f_equal. lia. Qed.
Lemma rest_at_cons (text : list Z) n i x : (i < n)%nat -> text !! i = Some x -> take (n - i) (drop i text) = x :: take (n - S i) (drop (S i) text).
Proof. intros H E. rewrite (drop_S _ _ _ E). replace (n - i)%nat with (S (n - S i)) by lia. done. Qed.
(** one byte is written, at or before the place where it was read *)
Lemma kept_step text n i w x : (w <= i)%nat -> (i < n <= length text)%nat -> text !! i = Some x ->
  kept (<[w := x]> text) n (i + 1) (w + 1) x /\ take (w + 1 - 1) (<[w := x]> text) = take w text /\ drop (i + 1) (<[w := x]> text) = drop (S i) text.
Proof.
  intros Hw Hn E. replace (w + 1 - 1)%nat with w by lia. replace (i + 1)%nat with (S i) by lia. split; [| split; [by apply take_insert_ge | apply drop_insert_lt; lia] ].
  split; [lia |]. rewrite length_insert. split; [lia |]. replace (w + 1 - 1)%nat with w by lia. split; [apply list_lookup_insert_eq; lia |]. exists x. split; [| by left].
  replace (S i - 1)%nat with i by lia. destruct (decide (w = i)) as [-> | Hne]; [apply list_lookup_insert_eq; lia | by rewrite list_lookup_insert_ne].
Qed.
Lemma kept_skip text n i w x : (w <= i)%nat -> (S i < n <= length text)%nat -> x <> ch " " ->
  kept (<[w := x]> (<[S i := 0]> text)) n (i + 2) (w + 1) x /\ take (w + 1 - 1) (<[w := x]> (<[S i := 0]> text)) = take w text /\ drop (i + 2) (<[w := x]> (<[S i := 0]> text)) = drop (S (S i)) text.
Proof.
  intros Hw Hn Hx. replace (w + 1 - 1)%nat with w by lia. replace (i + 2)%nat with (S (S i)) by lia. split; [| split; [by rewrite !take_insert_ge by lia | by rewrite !drop_insert_lt by lia] ].
  split; [lia |]. rewrite !length_insert. split; [lia |]. replace (w + 1 - 1)%nat with w by lia. split; [apply list_lookup_insert_eq; rewrite length_insert; lia |]. exists 0. split; [| by right].
  replace (S (S i) - 1)%nat with (S i) by lia. rewrite list_lookup_insert_ne by lia. apply list_lookup_insert_eq. lia.
Qed.

Lemma clean_loop_ok fuel text n i total q : (n - i <= fuel)%nat -> kept text n i total q -> exists text' total',
  clean_loop fuel cut (Z.of_nat n) text (Z.of_nat i) (Z.of_nat total) = Ok (text', Z.of_nat total') /\ (total' <= length text')%nat /\
  take total' text' = take (total - 1) text ++ settle q (take (n - i) (drop i text)).
Proof.
  revert text i total q. induction fuel as [| fuel IH]; intros text i total q Hf (Ht & Hn & Hq & p & Hp & Hpq); cbn [clean_loop];
    (destruct (Z.leb_spec (Z.of_nat n) (Z.of_nat i)); [exists text, total; split; [done |]; split; [lia |]; replace (n - i)%nat with 0%nat by lia; simpl; apply kept_take; [lia | done] |]); [lia |].
  destruct (lookup_lt_is_Some_2 text i ltac:(lia)) as [x Hx]. rewrite (vget_nat _ _ _ Hx). cbn [rbind]. pose proof (rest_at_cons text n i x ltac:(lia) Hx) as Er.
  rewrite (cut_dec text i n p x _ ltac:(lia) ltac:(lia) ltac:(lia) Hp Er). cbn [rbind]. rewrite Er. set (rest := take (n - S i) (drop (S i) text)) in *.
  assert (Ed : dec p (x :: rest) = dec q (x :: rest)) by (destruct Hpq as [-> | [H1 H2] ]; [done | by rewrite !dec_space]). rewrite Ed. destruct (dec q (x :: rest)) as [before behind] eqn:E.
  set (w := if before then (total - 1)%nat else total). replace (if before then Z.of_nat total - 1 else Z.of_nat total) with (Z.of_nat w) by (subst w; destruct before; lia).
  assert (Hw : (w <= i)%nat) by (subst w; destruct before; lia). cbn [settle]. rewrite E.
  assert (Ew : take w text = take (total - 1) text ++ (if before then [] else [q])) by (subst w; destruct before; [by rewrite app_nil_r | apply kept_take; [lia | done] ]).
  rewrite app_assoc, <- Ew. clear Ew. destruct behind; cbn [rbind].
  - destruct (dec_behind _ _ _ _ E) as [Hr Hsp]. assert (Hs : (S i < n)%nat) by (destruct (decide (S i < n)%nat); [done |]; subst rest; replace (n - S i)%nat with 0%nat in Hr by lia; done).
    replace (Z.of_nat i + 1) with (Z.of_nat (S i)) by lia. rewrite vset_nat by lia. cbn [rbind]. rewrite vset_nat by (rewrite length_insert; lia). cbn [rbind].
    destruct (kept_skip text n i w x Hw ltac:(lia) Hsp) as (K & E1 & E2). replace (Z.of_nat (S i) + 1) with (Z.of_nat (i + 2)) by lia. replace (Z.of_nat w + 1) with (Z.of_nat (w + 1)) by lia.
    destruct (fun H => IH _ _ _ _ H K) as (text' & total' & Eq & Hl & Et); [lia |]. exists text', total'. rewrite Eq, Et, E1, E2. do 2 (split; [done |]). f_equal.
    destruct (lookup_lt_is_Some_2 text (S i) ltac:(lia)) as [y Hy]. subst rest. rewrite (rest_at_cons text n (S i) y) by done. f_equal. by replace (n - (i + 2))%nat with (n - S (S i))%nat by lia.
  - rewrite vset_nat by lia. cbn [rbind]. destruct (kept_step text n i w x Hw ltac:(lia) Hx) as (K & E1 & E2). replace (Z.of_nat i + 1) with (Z.of_nat (i + 1)) by lia. replace (Z.of_nat w + 1) with (Z.of_nat (w + 1)) by lia.
    destruct (fun H => IH _ _ _ _ H K) as (text' & total' & Eq & Hl & Et); [lia |]. exists text', total'. rewrite Eq, Et, E1, E2. do 2 (split; [done |]). f_equal.
    replace (n - (i + 1))%nat with (n - S i)%nat by lia. fold rest. by destruct rest.
Qed.

(** a pass over the first [total] bytes *)
Definition settled (text : list Z) : list Z := match text with [] => [] | q :: rest => settle q rest end.
Lemma clean_pass_ok text (total : nat) : (total <= length text)%nat -> exists text' total',
  clean_pass cut text (Z.of_nat total) = Ok (text', Z.of_nat total') /\ (total' <= length text')%nat /\ take total' text' = settled (take total text).
Proof.
  intros H. unfold clean_pass. destruct total as [| n]; [by exists text, 0%nat |]. destruct text as [| q text]; [simpl in H; lia |].
  rewrite (proj2 (Z.eqb_neq _ _)) by lia. rewrite Nat2Z.id. simpl in H.
  destruct (clean_loop_ok (S n) (q :: text) (S n) 1 1 q ltac:(lia)) as (text' & total' & E & Hl & Et).
  { split; [lia |]. split; [simpl; lia |]. split; [done |]. exists q. split; [done | by left]. }
  exists text', total'. split; [exact E |]. split; [done |]. rewrite Et. simpl. by rewrite Nat.sub_0_r, drop_0.
Qed.
End Pass.

(** ** The three passes *)
Definition dec_punctuation (p : Z) (l : list Z) : bool * bool :=
  match l with x :: _ => ((p =? ch " ") && ((x =? ch "?") || (x =? ch "!") || (x =? ch ".") || (x =? ch ",")), false) | [] => (false, false) end.
Definition dec_apostrophe (p : Z) (l : list Z) : bool * bool :=
  match l with x :: y :: _ => let b := (x =? ch "'") && (p =? ch " ") && (y =? ch " ") in (b, b) | _ => (false, false) end.
(** 's 'm 're 've *)
Definition joins (l : list Z) : bool :=
  match l with
  | x :: y :: r => (x =? ch "'") && ((y =? ch "s") || (y =? ch "m") || (((y =? ch "r") || (y =? ch "v")) && match r with z :: _ => z =? ch "e" | [] => false end))
  | _ => false
  end.
Definition dec_contraction (p : Z) (l : list Z) : bool * bool := ((p =? ch " ") && joins l, false).

(** the bytes a decision looks at *)
Lemma ahead (text : list Z) i n (k : nat) x rest : (n <= length text)%nat -> take (n - i) (drop i text) = x :: rest -> (i + k < n)%nat ->
  exists y, text !! (i + k)%nat = Some y /\ (x :: rest) !! k = Some y.
Proof.
  intros Hn E Hk. destruct (lookup_lt_is_Some_2 text (i + k) ltac:(lia)) as [y Hy]. exists y. split; [done |]. rewrite <- E.
  rewrite lookup_take_lt by lia. by rewrite lookup_drop.
Qed.
Lemma ahead_length (text : list Z) i n x rest : (n <= length text)%nat -> (i < n)%nat -> take (n - i) (drop i text) = x :: rest -> (n - i = S (length rest))%nat.
Proof. intros Hn Hi E. apply (f_equal length) in E. rewrite length_take, length_drop in E. simpl in E. lia. Qed.

Lemma cut_punctuation_dec text i n p x rest : (1 <= i)%nat -> (i < n)%nat -> (n <= length text)%nat -> text !! (i - 1)%nat = Some p -> take (n - i) (drop i text) = x :: rest ->
  cut_punctuation text (Z.of_nat i) (Z.of_nat n) = Ok (dec_punctuation p (x :: rest)).
Proof.
  intros H1 H2 H3 Hp E. destruct (ahead text i n 0 x rest H3 E ltac:(lia)) as (y & Hy & [= <-]). rewrite Nat.add_0_r in Hy.
  unfold cut_punctuation. rewrite (vget_nat _ _ _ Hy). cbn [rbind]. replace (Z.of_nat i - 1) with (Z.of_nat (i - 1)) by lia. by rewrite (vget_nat _ _ _ Hp).
Qed.
Lemma cut_apostrophe_dec text i n p x rest : (1 <= i)%nat -> (i < n)%nat -> (n <= length text)%nat -> text !! (i - 1)%nat = Some p -> take (n - i) (drop i text) = x :: rest ->
  cut_apostrophe text (Z.of_nat i) (Z.of_nat n) = Ok (dec_apostrophe p (x :: rest)).
Proof.
  intros H1 H2 H3 Hp E. destruct (ahead text i n 0 x rest H3 E ltac:(lia)) as (y & Hy & [= <-]). rewrite Nat.add_0_r in Hy.
  unfold cut_apostrophe. rewrite (vget_nat _ _ _ Hy). cbn [rbind]. pose proof (ahead_length _ _ _ _ _ H3 H2 E) as Hl.
  destruct rest as [| y rest]; [rewrite (proj2 (Z.ltb_ge _ _)) by (simpl in Hl; lia); by rewrite andb_false_r |]. simpl in Hl.
  rewrite (proj2 (Z.ltb_lt _ _)) by lia. rewrite andb_true_r. simpl. destruct (Z.eqb_spec x (ch "'")); [| done]. simpl. replace (Z.of_nat i - 1) with (Z.of_nat (i - 1)) by lia. rewrite (vget_nat _ _ _ Hp). cbn [rbind].
  destruct (ahead text i n 1 x _ H3 E ltac:(lia)) as (y' & Hy' & [= <-]). replace (Z.of_nat i + 1) with (Z.of_nat (i + 1)) by lia. by rewrite (vget_nat _ _ _ Hy').
Qed.
Lemma cut_contraction_dec text i n p x rest : (1 <= i)%nat -> (i < n)%nat -> (n <= length text)%nat -> text !! (i - 1)%nat = Some p -> take (n - i) (drop i text) = x :: rest ->
  cut_contraction text (Z.of_nat i) (Z.of_nat n) = Ok (dec_contraction p (x :: rest)).
Proof.
  intros H1 H2 H3 Hp E. destruct (ahead text i n 0 x rest H3 E ltac:(lia)) as (y & Hy & [= <-]). rewrite Nat.add_0_r in Hy.
  unfold cut_contraction, dec_contraction. rewrite (vget_nat _ _ _ Hy). cbn [rbind]. replace (Z.of_nat i - 1) with (Z.of_nat (i - 1)) by lia. rewrite (vget_nat _ _ _ Hp). cbn [rbind].
  pose proof (ahead_length _ _ _ _ _ H3 H2 E) as Hl. destruct (Z.eqb_spec p (ch " ")); [| done]. simpl andb.
  destruct rest as [| y rest]; simpl in Hl. { rewrite (proj2 (Z.ltb_ge _ _)) by lia. by rewrite andb_false_r. }
  rewrite (proj2 (Z.ltb_lt _ _)), andb_true_r by lia. simpl joins. destruct (x =? ch "'"); [| done]. simpl andb. cbv iota.
  destruct (ahead text i n 1 x _ H3 E ltac:(lia)) as (y' & Hy' & [= <-]). replace (Z.of_nat i + 1) with (Z.of_nat (i + 1)) by lia. rewrite (vget_nat _ _ _ Hy'). cbn [rbind].
  destruct (Z.eqb_spec y (ch "t")) as [-> |]; [done |]. destruct (Z.eqb_spec y (ch "d")) as [-> |]; [done |]. simpl orb. destruct ((y =? ch "s") || (y =? ch "m")); [done |]. simpl orb.
  destruct rest as [| z rest]; simpl in Hl. { rewrite (proj2 (Z.ltb_ge _ _)) by lia. by rewrite andb_false_r. }
  rewrite (proj2 (Z.ltb_lt _ _)) by lia. destruct (ahead text i n 2 x _ H3 E ltac:(lia)) as (z' & Hz & [= <-]). replace (Z.of_nat i + 2) with (Z.of_nat (i + 2)) by lia. rewrite (vget_nat _ _ _ Hz). cbn [rbind].
  destruct (Z.eqb_spec y (ch "l")) as [-> |]; [by destruct (z =? ch "l") |]. simpl. by rewrite <- andb_orb_distrib_l.
Qed.

(** ** The reference: what the passes mean *)
Definition mark (c : Z) : bool := (c =? ch "?") || (c =? ch "!") || (c =? ch ".") || (c =? ch ",").
(** no space before one of ?!., *)
Fixpoint join_marks (s : list Z) : list Z :=
  match s with
  | c :: l => (if (c =? ch " ") && match l with x :: _ => mark x | [] => false end then [] else [c]) ++ join_marks l
  | [] => []
  end.
(** no spaces around a single apostrophe *)
Fixpoint join_apostrophes (s : list Z) : list Z :=
  match s with
  | c :: ((x :: y :: r) as l) => if (c =? ch " ") && (x =? ch "'") && (y =? ch " ") then x :: join_apostrophes r else c :: join_apostrophes l
  | c :: l => c :: join_apostrophes l
  | [] => []
  end.
(** no space before 's 'm 're 've *)
Fixpoint join_contractions (s : list Z) : list Z :=
  match s with c :: l => (if (c =? ch " ") && joins l then [] else [c]) ++ join_contractions l | [] => [] end.

Lemma settled_marks s : settled dec_punctuation s = join_marks s.
Proof.
  destruct s as [| q s]; [done |]. simpl settled. revert q. induction s as [| x s IH]; intros q; [simpl; by rewrite andb_false_r |].
  cbn [settle dec_punctuation]. rewrite (IH x). change (join_marks (q :: x :: s)) with ((if (q =? ch " ") && mark x then [] else [q]) ++ join_marks (x :: s)). by destruct s.
Qed.
Lemma settled_contractions s : settled dec_contraction s = join_contractions s.
Proof.
  destruct s as [| q s]; [done |]. simpl settled. revert q. induction s as [| x s IH]; intros q; [simpl; by rewrite andb_false_r |].
  cbn [settle]. unfold dec_contraction at 1. rewrite (IH x). change (join_contractions (q :: x :: s)) with ((if (q =? ch " ") && joins (x :: s) then [] else [q]) ++ join_contractions (x :: s)). by destruct s.
Qed.
Lemma settled_apostrophes s : settled dec_apostrophe s = join_apostrophes s.
Proof.
  destruct s as [| q s]; [done |]. simpl settled. remember (length s) as n eqn:Hn. assert (H : (length s <= n)%nat) by lia. clear Hn. revert q s H.
  induction n as [| n IH]; intros q s H; (destruct s as [| x s]; [done |]); simpl in H; [lia |]. cbn [settle dec_apostrophe]. destruct s as [| y s].
  - simpl. done.
  - simpl in H. rewrite (IH x (y :: s)) by (simpl; lia). rewrite (IH x s) by lia.
    change (join_apostrophes (q :: x :: y :: s)) with (if (q =? ch " ") && (x =? ch "'") && (y =? ch " ") then x :: join_apostrophes s else q :: join_apostrophes (x :: y :: s)).
    rewrite (andb_comm (x =? ch "'")). destruct ((q =? ch " ") && (x =? ch "'") && (y =? ch " ")) eqn:E; [| done].
    apply andb_true_iff in E as [E _]. apply andb_true_iff in E as [_ E]. apply Z.eqb_eq in E. subst x. by destruct s as [| ? [| ? ?] ].
Qed.

(** The clean-up after detokenizing never reads or writes outside the text, and its three
    passes, which rewrite the text in place while they read it, give exactly the text without the
    spaces before ?!., then without the spaces around single apostrophes, then without the space
    before 's, 'm, 're and 've. *)
Theorem clean_up_exact (text : list Z) :
  clean_up text (Zlen text) = Ok (let s := join_contractions (join_apostrophes (join_marks text)) in (s, Zlen s)).
Proof.
  unfold clean_up. destruct (clean_pass_ok cut_punctuation dec_punctuation cut_punctuation_dec) with (text := text) (total := length text) as (t1 & n1 & E1 & H1 & T1);
    [by intros p [| ? ?] ?%Z.eqb_neq; simpl; rewrite ?H | done | lia |].
  destruct (clean_pass_ok cut_apostrophe dec_apostrophe cut_apostrophe_dec) with (text := t1) (total := n1) as (t2 & n2 & E2 & H2 & T2);
    [intros p [| x [| y l] ] H%Z.eqb_neq; simpl; rewrite ?H, ?andb_false_r; done | | lia |].
  { intros p x [| y r] b [= Hb H]. split; [done |]. apply andb_true_iff in H as [H _]. apply andb_true_iff in H as [H _]. apply Z.eqb_eq in H. by subst x. }
  destruct (clean_pass_ok cut_contraction dec_contraction cut_contraction_dec) with (text := t2) (total := n2) as (t3 & n3 & E3 & H3 & T3);
    [intros p l H%Z.eqb_neq; unfold dec_contraction; by rewrite H | done | lia |].
  unfold Zlen at 1. rewrite E1. cbn [rbind]. rewrite E2. cbn [rbind]. rewrite E3. cbn [rbind]. rewrite Nat2Z.id, T3, T2, T1, take_ge by lia.
  rewrite settled_marks, settled_apostrophes, settled_contractions. cbv zeta. do 2 f_equal. rewrite <- settled_marks, <- settled_apostrophes, <- settled_contractions.
  replace text with (take (length text) text) at 1 by (by rewrite take_ge). rewrite <- T1, <- T2, <- T3. unfold Zlen. rewrite length_take. lia.
Qed.
