(* ===== verification/BpeRoundTrip.v ===== *)
(** * Byte-level BPE loses nothing: tokenizing and writing the pieces out gives the text back *)

From S2P Require Import Prelude Text Utf8 Unicode UnicodeSplit UnicodeFacts SplitRegex UnicodeProps Merge MergeInv Vocab Bpe Pieces.

(** ** The byte alphabet is made of characters without spaces *)
Definition enc (b : Z) : list Z := utf8_encode (byte_cpt b).
Lemma enc_facts b : is_byte b -> exists c s, enc b = c :: s /\ unicode_len_utf8 c = Zlen (enc b) /\ Forall is_byte (enc b) /\ Forall not_space (enc b).
Proof.
  intros Hb. set (P := fun b => match enc b with
    | c :: s => (unicode_len_utf8 c =? Zlen (enc b)) && forallb (fun x => (0 <=? x) && (x <? 256) && negb (x =? ch " ")) (enc b) | [] => false end).
  assert (H : forallb P (Z.of_nat <$> seq 0 256) = true) by (vm_compute; reflexivity). pose proof (small_cases P 256 H b Hb) as E. unfold P in E.
  destruct (enc b) as [| c s] eqn:Ee; [done |]. exists c, s. apply andb_true_iff in E as [E1 E2]. apply Z.eqb_eq in E1. rewrite forallb_forall in E2.
  split; [done |]. split; [done |]. split; apply Forall_forall; intros x Hx%list_elem_of_In%E2; unfold is_byte, not_space; lia.
Qed.
Lemma enc_size b : is_byte b -> (1 <= length (enc b))%nat.
Proof. intros Hb. destruct (enc_facts b Hb) as (c & s & -> & _). simpl. lia. Qed.
Lemma byte_encoded_app v w : byte_encoded (v ++ w) = byte_encoded v ++ byte_encoded w.
Proof. unfold byte_encoded. by rewrite fmap_app, concat_app. Qed.
Lemma byte_encoded_cons b w : byte_encoded (b :: w) = enc b ++ byte_encoded w.
Proof. done. Qed.
Lemma byte_encoded_ok w : Forall is_byte w -> Forall is_byte (byte_encoded w) /\ Forall not_space (byte_encoded w).
Proof.
  induction 1 as [| b w Hb _ [IH1 IH2]]; [split; constructor |]. destruct (enc_facts b Hb) as (c & s & _ & _ & H1 & H2). rewrite byte_encoded_cons. split; by apply Forall_app.
Qed.
Lemma chars_encoded fuel w : Forall is_byte w -> (length (byte_encoded w) <= fuel)%nat -> chars fuel (byte_encoded w) = enc <$> w.
Proof.
  intros H. revert fuel. induction H as [| b w Hb _ IH]; intros fuel Hf; [by destruct fuel |]. destruct (enc_facts b Hb) as (c & s & Ee & El & _ & _).
  rewrite byte_encoded_cons in *. rewrite fmap_cons. pose proof (enc_size b Hb). rewrite length_app in Hf. destruct fuel as [| fuel]; [lia |].
  assert (E : chars (S fuel) (enc b ++ byte_encoded w) = take (length (enc b)) (enc b ++ byte_encoded w) :: chars fuel (drop (length (enc b)) (enc b ++ byte_encoded w))).
  { assert (En : Z.to_nat (Z.min (unicode_len_utf8 c) (Zlen (enc b ++ byte_encoded w))) = length (enc b)) by (rewrite El, Zlen_app; unfold Zlen; lia).
    rewrite Ee in *. simpl app in *. cbn [chars]. by rewrite En. }
  rewrite E, take_app_length, drop_app_length. f_equal. apply IH. lia.
Qed.
Lemma decode_encoded w : Forall is_byte w -> decode_text (byte_encoded w) = Ok w.
Proof.
  intros H. unfold decode_text. assert (E : byte_encoded w = encode_all (byte_cpt <$> w)) by (unfold encode_all, byte_encoded; by rewrite <- list_fmap_compose).
  assert (Hc : Forall codepoint (byte_cpt <$> w)) by (apply Forall_fmap; eapply Forall_impl; [exact H | apply byte_cpt_range]).
  rewrite E at 1. unfold encode_all. rewrite cpts_from_utf8_encode by done. cbn [rbind]. clear E Hc. generalize (byte_encoded w) as t. change w with ([] ++ w) at 2.
  generalize (@nil Z) as out. induction H as [| b w Hb _ IH]; intros out t; [by rewrite app_nil_r |]. rewrite fmap_cons. cbn [decode_cpts].
  rewrite to_utf8_encode by (by apply byte_cpt_range). cbn [rbind]. rewrite utf8_to_byte_cpt by done. rewrite IH. by rewrite <- app_assoc.
Qed.

(** ** Merging keeps what the characters have *)
Lemma merge_at_forall {K} (cand : list Z -> list Z -> option K) (R : list Z -> Prop) l i k :
  (forall a b k, R a -> R b -> cand a b = Some k -> R (a ++ b)) -> pair_key cand l i = Some k -> Forall R l -> Forall R (merge_at i l).
Proof.
  intros HR. revert i. induction l as [| a l IH]; intros i Hk H; [by destruct i |]. apply Forall_cons in H as [Ha H]. destruct i as [| i]; simpl.
  - destruct l as [| b l]; [by constructor |]. apply Forall_cons in H as [Hb H]. constructor; [| done]. unfold pair_key in Hk. simpl in Hk. by eapply HR.
  - constructor; [done |]. by apply IH.
Qed.
Lemma greedy_forall {K} (better : K -> K -> bool) (cand : list Z -> list Z -> option K) (R : list Z -> Prop) l :
  (forall a b k, R a -> R b -> cand a b = Some k -> R (a ++ b)) -> Forall R l -> Forall R (greedy better cand l).
Proof.
  intros HR. unfold greedy. generalize (length l) as n. intros n. revert l. induction n as [| n IH]; intros l H; [done |]. cbn [greedy_steps].
  destruct (best_pair better cand l) as [[i k] |] eqn:E; [| done]. apply IH. eapply merge_at_forall; [exact HR | by eapply best_pair_key | done].
Qed.

(** ** A byte-level vocabulary *)
Section ByteLevel.
Context {F : Type} (vocab : Vocab F).

(** a string is an ordinary token of the vocabulary *)
Definition normal_token (s : list Z) : Prop := exists i d, token_to_id vocab !! s = Some i /\ i <> TOKEN_NULL /\ vlookup (id_to_token vocab) i = Some d /\ t_text d = s /\
  has_attr (t_attr d) TOKEN_ATTR_NORMAL = true /\ has_attr (t_attr d) (Z.lor attr_special TOKEN_ATTR_USER_DEFINED) = false /\ has_attr (t_attr d) attr_special = false.
(** every byte is a token, every merge makes a token, and a word that is kept whole is one *)
Record byte_level : Prop := mkByteLevel {
  bl_type : v_type vocab = VT_BPE;
  bl_escape : escape_whitespaces vocab = false;
  bl_prefix : add_space_prefix vocab = false;
  bl_clean : clean_spaces vocab = false;
  bl_bytes : forall b, is_byte b -> normal_token (enc b);
  bl_merges : forall l r k, bpe_ranks vocab !! (l, r) = Some k -> 0 <= k -> normal_token (l ++ r);
  bl_whole : forall w, kept_whole vocab w = true -> normal_token w }.

(** a piece that is a token and stands for a string of bytes *)
Definition good_piece (p : list Z) : Prop := normal_token p /\ exists w, Forall is_byte w /\ p = byte_encoded w.
Lemma good_pieces word : byte_level -> Forall is_byte word -> word <> [] -> Forall good_piece (bpe_word vocab (byte_encoded word)) /\ concat (bpe_word vocab (byte_encoded word)) = byte_encoded word.
Proof.
  intros HB Hb Hne. assert (Hn : byte_encoded word <> []).
  { destruct word as [| b word]; [done |]. rewrite byte_encoded_cons. apply Forall_cons in Hb as [Hb _]. destruct (enc_facts b Hb) as (c & s & -> & _). done. }
  assert (E : bpe_word vocab (byte_encoded word) = if kept_whole vocab (byte_encoded word) then [byte_encoded word] else greedy Z.ltb (bpe_cand vocab) (enc <$> word)).
  { rewrite <- (chars_encoded (length (byte_encoded word)) word Hb) by done. unfold bpe_word, chars_of. by destruct (byte_encoded word). }
  rewrite E. destruct (kept_whole vocab (byte_encoded word)) eqn:Ek.
  - split; [| simpl; by rewrite app_nil_r]. repeat constructor; [by apply bl_whole |]. by exists word.
  - split; [| by rewrite greedy_concat]. apply greedy_forall.
    + intros x y k [_ (v & Hv & ->)] [_ (w & Hw & ->)] Hc. split; [| exists (v ++ w); split; [by apply Forall_app | by rewrite byte_encoded_app] ].
      unfold bpe_cand in Hc. destruct (bpe_ranks vocab !! (byte_encoded v, byte_encoded w)) as [k' |] eqn:Er; simpl in Hc; [| done]. destruct (Z.ltb_spec k' 0); [done |].
      by eapply bl_merges.
    + apply Forall_fmap. eapply Forall_impl; [exact Hb |]. intros b Hx. split; [by apply bl_bytes |]. exists [b]. split; [by constructor |]. unfold byte_encoded. simpl. by rewrite app_nil_r.
Qed.
(** detokenizing the tokens gives the text, whatever comes before and after *)
Definition spells (sp : bool) (tokens text : list Z) : Prop := forall rest avail tot out, Zlen text <= avail ->
  detok_loop vocab [] (tokens ++ rest) avail tot false sp out = detok_loop vocab [] rest (avail - Zlen text) (tot + Zlen text) false sp (out ++ text).
Lemma spells_nil sp : spells sp [] [].
Proof. intros rest avail tot out _. by rewrite Zlen_nil, Z.sub_0_r, Z.add_0_r, app_nil_r. Qed.
Lemma spells_app sp ts1 t1 ts2 t2 : spells sp ts1 t1 -> spells sp ts2 t2 -> spells sp (ts1 ++ ts2) (t1 ++ t2).
Proof.
  intros H1 H2 rest avail tot out Ha. rewrite Zlen_app in Ha. pose proof (Zlen_nonneg t2). rewrite <- app_assoc, H1, H2 by lia. rewrite Zlen_app, <- app_assoc. f_equal; lia.
Qed.
Lemma spells_one sp id w : (forall len, Zlen w <= len -> token_to_piece vocab [] id len 0 sp = Ok (Zlen w, w)) -> spells sp [id] w.
Proof.
  intros Ht rest avail tot out Ha. simpl app. cbn [detok_loop]. change (Z.b2z false) with 0. rewrite Ht by done. cbn [rbind]. pose proof (Zlen_nonneg w). rewrite (proj2 (Z.ltb_ge _ _)) by lia.
  destruct (Z.ltb_spec 0 (Zlen w)); [done |]. assert (w = []) as -> by (apply Zlen_0; lia). by rewrite Zlen_nil, Z.sub_0_r, Z.add_0_r, app_nil_r.
Qed.
Lemma spells_all sp tokens text len : spells sp tokens text -> Zlen text <= len -> detok_loop vocab [] tokens len 0 false sp [] = Ok (Zlen text, text).
Proof. intros H Hl. rewrite <- (app_nil_r tokens), H by done. done. Qed.
Lemma good_piece_spells sp p : byte_level -> good_piece p -> Zlen p < 2 ^ 31 - 1 -> exists w, p = byte_encoded w /\ Forall is_byte w /\ spells sp (symbol_tokens vocab true p) w.
Proof.
  intros HB [(i & d & Ei & Hi & Ed & Et & Hn & Hu & Hs) (w & Hw & Ep)] Hlen. exists w. split; [done |]. split; [done |]. unfold symbol_tokens, text_to_token. rewrite Ei. simpl default. rewrite (proj2 (Z.eqb_neq _ _) Hi).
  assert (Hle : Zlen w <= Zlen p).
  { rewrite Ep. clear -Hw. induction Hw as [| b w Hb _ IH]; [done |]. rewrite byte_encoded_cons, Zlen_app, Zlen_cons. pose proof (enc_size b Hb). unfold Zlen in *. lia. }
  apply spells_one. intros len Hl. unfold token_to_piece, get_token_data, piece_text, plain_copy. rewrite Ed. cbn [rbind]. rewrite Hs, andb_false_r. rewrite (bl_type HB), (bl_escape HB). cbv zeta iota. rewrite Hu, Hn, Et, Ep.
  rewrite decode_encoded by done. cbn [rbind]. unfold try_copy. rewrite (proj2 (Z.leb_gt _ _)) by lia. change (drop_spaces (Z.to_nat 0) w) with w. by rewrite (proj2 (Z.ltb_ge _ _)) by lia.
Qed.
Lemma good_pieces_spell sp ps : byte_level -> Forall good_piece ps -> Zlen (concat ps) < 2 ^ 31 - 1 ->
  exists w, concat ps = byte_encoded w /\ Forall is_byte w /\ spells sp (concat (symbol_tokens vocab true <$> ps)) w.
Proof.
  intros HB H. induction H as [| p ps Hp _ IH]; intros Hl; [exists []; repeat split; [constructor | apply spells_nil] |].
  cbn [concat] in Hl. rewrite Zlen_app in Hl. pose proof (Zlen_nonneg (concat ps)). pose proof (Zlen_nonneg p). destruct (good_piece_spells sp p HB Hp ltac:(lia)) as (w & Ep & Hw & Hs).
  destruct (IH ltac:(lia)) as (v & Ec & Hv & Hd). exists (w ++ v). rewrite fmap_cons. cbn [concat]. split; [by rewrite Ep, Ec, byte_encoded_app |]. split; [by apply Forall_app | by apply spells_app].
Qed.
End ByteLevel.

Lemma byte_encoded_inj v w : Forall is_byte v -> Forall is_byte w -> byte_encoded v = byte_encoded w -> v = w.
Proof. intros Hv Hw E. apply decode_encoded in Hv, Hw. rewrite E, Hw in Hv. by injection Hv. Qed.
Lemma byte_encoded_bound w : Forall is_byte w -> Zlen (byte_encoded w) <= 2 * Zlen w.
Proof.
  induction 1 as [| b w Hb _ IH]; [done |]. rewrite byte_encoded_cons, Zlen_app, Zlen_cons. assert (H : Zlen (enc b) <= 2); [| lia].
  set (P := fun b => Zlen (enc b) <=? 2). assert (H : forallb P (Z.of_nat <$> seq 0 256) = true) by (vm_compute; reflexivity). pose proof (small_cases P 256 H b Hb) as E. by apply Z.leb_le.
Qed.
Lemma words_pieces {F} (vocab : Vocab F) ws : byte_level vocab -> Forall (Forall is_byte) ws -> Forall (fun w => w <> []) ws ->
  Forall (good_piece vocab) (concat (bpe_word vocab <$> (byte_encoded <$> ws))) /\ concat (concat (bpe_word vocab <$> (byte_encoded <$> ws))) = byte_encoded (concat ws).
Proof.
  intros HB H. induction H as [| w ws Hw _ IH]; intros Hn; [split; constructor |]. apply Forall_cons in Hn as [Hn Hns]. destruct (IH Hns) as [IH1 IH2].
  destruct (good_pieces vocab w HB Hw Hn) as [G1 G2]. rewrite !fmap_cons. cbn [concat]. rewrite concat_app, IH2, G2, byte_encoded_app. split; [by apply Forall_app | done].
Qed.

(** the tokens of a text spell it *)
Lemma bpe_spells {F Q : Type} (vocab : Vocab F) `{PQ : !PQueue (b_below (bpe_ops vocab)) Q} (D : unicode_data) regex_matches
    (exprs : list (list Z)) (text cps : list Z) sp :
  byte_level vocab -> forallb hand_written exprs = true -> Forall codepoint cps -> text = encode_all cps -> text <> [] -> Zlen text < 2 ^ 30 - 1 ->
  exists tokens, (forall output, bpe_tokenize vocab D regex_matches exprs true text output = Ok (output ++ tokens)) /\ spells vocab sp tokens text.
Proof.
  intros HB He Hc Et Hne Hl. assert (Hb : Forall is_byte text) by (rewrite Et; by apply encode_all_bytes).
  destruct (split_hand_written D regex_matches text cps exprs true Hc Et He Hne) as (ws & Ews & Hn & Es).
  assert (Hws : Forall (Forall is_byte) ws) by (by rewrite <- Forall_concat, Ews).
  destruct (words_pieces vocab ws HB Hws Hn) as [Hg Ecat]. rewrite Ews in Ecat. pose proof (byte_encoded_bound text Hb).
  destruct (good_pieces_spell vocab sp (concat (bpe_word vocab <$> (byte_encoded <$> ws))) HB Hg) as (w & Ew & Hw & Hd); [rewrite Ecat; lia |].
  assert (w = text) as -> by (rewrite Ecat in Ew; symmetry; by apply byte_encoded_inj).
  eexists. split; [| exact Hd]. intros output. apply (bpe_tokenize_words vocab); [exact Es | |]; apply Forall_fmap; (eapply Forall_impl; [exact Hws |]); intros x Hx; by apply byte_encoded_ok in Hx as [? ?].
Qed.
(** detokenizing without removing special tokens is the loop alone *)
Lemma detokenize_spelled {F : Type} (vocab : Vocab F) sp tokens text len : byte_level vocab -> spells vocab sp tokens text -> Zlen text <= len ->
  detokenize vocab [] tokens len false sp = Ok (Zlen text, text).
Proof.
  intros HB Hs Hl. unfold detokenize. rewrite (bl_type vocab HB). assert (Estrip : forall ts, strip_bos vocab ts false = (ts, false)) by (intros [| x ts]; simpl; by rewrite (bl_prefix vocab HB)).
  rewrite Estrip. assert (Ee : forall ts, strip_eos vocab ts false = ts) by (intros ts; unfold strip_eos; by destruct (last ts)). rewrite Ee, (spells_all vocab sp tokens text len Hs Hl). cbn [rbind].
  rewrite (proj2 (Z.ltb_ge _ _)), (bl_clean vocab HB) by lia. cbn [rbind]. by rewrite (proj2 (Z.leb_le _ _)) by lia.
Qed.

(** all bytes, a merge, and a control token *)
Definition byte_vocab : Vocab Z :=
  let words := (fun k => (enc (Z.of_nat k), 0, Some 1)) <$> seq 0 256 in
  let t := load_words (words ++ [(bytes "he", 0, Some 1); (bytes "<|end|>", 0, Some 3)]) 0 ∅ [] in
  mkVocab VT_BPE false false false false false false false false false false false (-1) (-1) (-1) (-1) 64 t.1 t.2 (load_merges [bytes "h e"] 0 ∅) [257] [].
Definition normal_tokenb (s : list Z) : bool :=
  match token_to_id byte_vocab !! s with
  | Some i => negb (i =? TOKEN_NULL) && match vlookup (id_to_token byte_vocab) i with Some d => bool_decide (t_text d = s) && (t_attr d =? TOKEN_ATTR_NORMAL) | None => false end
  | None => false
  end.
Lemma normal_tokenb_ok s : normal_tokenb s = true -> normal_token byte_vocab s.
Proof.
  unfold normal_tokenb, normal_token. destruct (token_to_id byte_vocab !! s) as [i |]; [| done]. intros H. apply andb_true_iff in H as [H1 H2].
  destruct (vlookup (id_to_token byte_vocab) i) as [d |] eqn:Ed; [| done]. apply andb_true_iff in H2 as [H2 H3]. exists i, d. apply bool_decide_eq_true in H2. apply Z.eqb_eq in H3. rewrite H3, Ed.
  apply negb_true_iff, Z.eqb_neq in H1. do 5 (split; [done |]). done.
Qed.
Lemma byte_vocab_level : byte_level byte_vocab.
Proof.
  split; [done | done | done | done | | |].
  - intros b Hb. apply normal_tokenb_ok. set (P := fun b => normal_tokenb (enc b)).
    assert (H : forallb P (Z.of_nat <$> seq 0 256) = true) by (vm_compute; reflexivity). apply (small_cases P 256 H b Hb).
  - intros l r k Hk _. assert (E : bpe_ranks byte_vocab = {[ (bytes "h", bytes "e") := 0 ]}) by (vm_compute; reflexivity). rewrite E in Hk. apply lookup_singleton_Some in Hk as [Hk _].
    injection Hk as <- <-. apply normal_tokenb_ok. vm_compute. reflexivity.
  - intros w Hw. exfalso. revert Hw. unfold kept_whole. assert (E : ignore_merges byte_vocab = false) by (cbv delta [byte_vocab]; lazy zeta; reflexivity). assert (G : pre_gemma4 byte_vocab = false) by (cbv delta [byte_vocab]; lazy zeta; reflexivity).
    rewrite E, G, andb_false_l, orb_false_l, andb_false_r. apply diff_false_true.
Qed.
