(* ===== verification/Spm.v ===== *)
(** * The SPM session (llm_tokenizer_spm_session, src/iian/tokenizer/vocab.cpp)

    The characters of a text are merged as long as two neighbours make a token of the vocabulary,
    the token of highest score first; what is left is looked up, and spelled out in bytes when it is
    no token.  The scores are floats: [flt] and [feq] are < and == on them. *)

From S2P Require Import Prelude Text Unicode UnicodeFacts Merge MergeInv Vocab Bpe.

Section Spm.
Context {F : Type} (flt feq : F -> F -> bool) (vocab : Vocab F).

(** ** Entries of the queue *)
Record llm_bigram_spm := mkSpm { spm_left : Z; spm_right : Z; spm_score : F; spm_size : Z }.
Definition spm_below (l r : llm_bigram_spm) : bool :=
  flt (spm_score l) (spm_score r) || (feq (spm_score l) (spm_score r) && (spm_left r <? spm_left l)).

(** try_add_bigram, for two symbols *)
Definition spm_text (l r : llm_symbol) : list Z := take (Z.to_nat (s_n l + s_n r)) (s_text l).
Definition spm_make (l r : llm_symbol) (left right : Z) : res (option llm_bigram_spm) :=
  let text := spm_text l r in
  let token := text_to_token vocab text in
  if token =? TOKEN_NULL then Ok None
  else if vocab_n_tokens vocab <=? u32 token then Ok None
  else
    let! tok_data := get_token_data vocab token in
    Ok (Some (mkSpm left right (t_score tok_data) (Zlen text))).
Definition spm_current (b : llm_bigram_spm) (l r : llm_symbol) : bool := s_n l + s_n r =? spm_size b.
Definition rev_merge_t : Type := gmap (list Z) (Z * Z).
Definition spm_ops : bigram_ops llm_bigram_spm rev_merge_t :=
  mkOps _ _ spm_left spm_right spm_make spm_current spm_below (fun l r left right rev_merge => <[spm_text l r := (left, right)]> rev_merge).

Context {Q : Type} `{PQ : !PQueue (b_below spm_ops) Q}.

(** ** The tokens of the symbols that are left *)
Fixpoint bytes_to_tokens (s : list Z) (output : list Z) : res (list Z) :=
  match s with
  | [] => Ok output
  | c :: s => let! id := byte_to_token vocab c in bytes_to_tokens s (output ++ [id])
  end.
Fixpoint resegment (fuel : nat) (syms : list llm_symbol) (rev_merge : rev_merge_t) (symbol : llm_symbol) (output : list Z) : res (list Z) :=
  match fuel with
  | O => Err Fuel
  | S fuel =>
      let text := str symbol in
      let token := text_to_token vocab text in
      if negb (token =? TOKEN_NULL) then Ok (output ++ [token])
      else
        match rev_merge !! text with
        | None => bytes_to_tokens text output
        | Some (l, r) =>
            let! a := vget syms l in
            let! output := resegment fuel syms rev_merge a output in
            let! b := vget syms r in
            resegment fuel syms rev_merge b output
        end
  end.
(** [for (int i = 0; i != -1; i = symbols[i].next)] *)
Fixpoint resegment_chain (fuel : nat) (st : @session rev_merge_t Q) (i : Z) (output : list Z) : res (list Z) :=
  if i =? -1 then Ok output else
  match fuel with
  | O => Err Fuel
  | S fuel =>
      let! symbol := vget (symbols st) i in
      let! output := resegment (S (length (symbols st))) (symbols st) (noted st) symbol output in
      resegment_chain fuel st (s_next symbol) output
  end.
Definition spm_tokenize (text : list Z) (output : list Z) : res (list Z) :=
  let! syms := split_chars (length text) 0 text in
  let! st := merge_all spm_ops syms ∅ in
  resegment_chain (length text) st 0 output.
End Spm.

(** * The SPM session computes the reference tokenization *)

(** ** What is noted with the entries *)
Section Noted.
Context {B X Q : Type} (ops : bigram_ops B X) `{PQ : !PQueue (b_below ops) Q} (R : X -> Prop).
Hypothesis note_ok : forall l r i j b x, b_make ops l r i j = Ok (Some b) -> R x -> R (b_note ops l r i j x).
Implicit Types st : @session X Q.
Lemma add_bigram_noted i j st st' : add_bigram ops i j st = Ok st' -> R (noted st) -> R (noted st').
Proof.
  unfold add_bigram. intros H HR. destruct (_ || _); [by injection H as -> |]. apply bind_Ok in H as (l & _ & H). apply bind_Ok in H as (r & _ & H). apply bind_Ok in H as (b & Hb & H).
  destruct b as [b |]; injection H as <-; [| done]. simpl. by eapply note_ok.
Qed.
Lemma seed_queue_noted todo i st st' : seed_queue ops todo i st = Ok st' -> R (noted st) -> R (noted st').
Proof.
  revert i st. induction todo as [| todo IH]; intros i st H HR; cbn [seed_queue] in H; [by injection H as <- |]. apply bind_Ok in H as (st1 & H1 & H).
  eapply IH; [exact H |]. by eapply add_bigram_noted.
Qed.
Lemma merge_step_noted b st st' : merge_step ops b st = Ok st' -> R (noted st) -> R (noted st').
Proof.
  unfold merge_step. intros H HR. apply bind_Ok in H as (l & _ & H). apply bind_Ok in H as (r & _ & H). destruct (_ || _ || _); [by injection H as <- |].
  apply bind_Ok in H as (syms & _ & H). apply bind_Ok in H as (l' & _ & H). apply bind_Ok in H as (st1 & H1 & H).
  eapply add_bigram_noted; [exact H |]. by eapply add_bigram_noted.
Qed.
Lemma merge_loop_noted fuel st st' : merge_loop ops fuel st = Ok st' -> R (noted st) -> R (noted st').
Proof.
  revert st. induction fuel as [| fuel IH]; intros st H HR; cbn [merge_loop] in H; (destruct (q_pop (work_queue st)) as [ [b q] |]; [| by injection H as <-]); [done |].
  apply bind_Ok in H as (st1 & H1 & H). eapply IH; [exact H |]. by eapply merge_step_noted.
Qed.
Lemma merge_all_noted syms x st : merge_all ops syms x = Ok st -> R x -> R (noted st).
Proof. intros H HR. apply bind_Ok in H as (st1 & H1 & H). eapply merge_loop_noted; [exact H |]. by eapply seed_queue_noted. Qed.
End Noted.

Section Spm.
Context {F : Type} (flt feq : F -> F -> bool) (vocab : Vocab F) {Q : Type} `{PQ : !PQueue (b_below (spm_ops flt feq vocab)) Q}.
(** floats that are not NaN: two are equal when neither is less *)
Hypothesis feq_spec : forall a b, feq a b = negb (flt a b) && negb (flt b a).
(** an id of the table is that of a token *)
Definition ids_in_range : Prop := Zlen (id_to_token vocab) < 2 ^ 31 /\ forall s i, token_to_id vocab !! s = Some i -> 0 <= i < Zlen (id_to_token vocab).
Hypothesis ids_ok : ids_in_range.

(** the score of the token two neighbours make *)
Definition token_score (s : list Z) : option F := i ← token_to_id vocab !! s; t_score <$> vlookup (id_to_token vocab) i.
Definition spm_cand (l r : list Z) : option F := token_score (l ++ r).
Definition higher (a b : F) : bool := flt b a.

Lemma spm_make_score P l r i j : adjacent P l r ->
  spm_make vocab l r i j = Ok ((fun sc => mkSpm i j sc (s_n l + s_n r)) <$> spm_cand (str l) (str r)).
Proof.
  intros Ha. destruct Ha as (E & Hl & Hr & Hb & HP) eqn:Ea. clear Ea. unfold spm_make, spm_cand, token_score.
  assert (Et : spm_text l r = str l ++ str r) by (by apply (adjacent_str P)). assert (En : Zlen (spm_text l r) = s_n l + s_n r) by (unfold spm_text, Zlen in *; rewrite length_take; lia).
  rewrite En, Et. unfold text_to_token. destruct (token_to_id vocab !! (str l ++ str r)) as [k |] eqn:Ek; [| done]. simpl. destruct ids_ok as [Hn Hi]. specialize (Hi _ _ Ek).
  rewrite (proj2 (Z.eqb_neq k TOKEN_NULL)) by (unfold TOKEN_NULL; lia). unfold u32. rewrite Z.mod_small by lia. unfold vocab_n_tokens. rewrite (proj2 (Z.leb_gt _ _)) by lia.
  unfold get_token_data. destruct (vlookup_lt_is_Some _ _ Hi) as [d ->]. done.
Qed.
#[local] Instance spm_laws : BigramLaws (spm_ops flt feq vocab) spm_score higher spm_cand (fun _ => True).
Proof.
  split; simpl.
  - intros x y. unfold spm_below, higher. rewrite feq_spec. by destruct (flt (spm_score x) (spm_score y)).
  - intros l r i j Ha Hc. by rewrite (spm_make_score _ _ _ _ _ Ha), Hc.
  - intros l r i j k Ha Hc. rewrite (spm_make_score _ _ _ _ _ Ha), Hc. by eexists.
  - intros l r l' r' i j E1 E2 E3 E4. unfold spm_make, spm_text. by rewrite E1, E2, E4.
  - intros l r l' r' i j b Ha Hm Ha' Ht Hr. pose proof (adjacent_left_n _ _ _ _ _ Ha Ha' Ht Hr) as En. rewrite (spm_make_score _ _ _ _ _ Ha) in Hm.
    destruct (spm_cand (str l) (str r)); [| done]. injection Hm as <-. unfold spm_current. simpl. rewrite En. destruct (Z.eqb_spec (s_n r') (s_n r)), (Z.eqb_spec (s_n l + s_n r') (s_n l + s_n r)); done || lia.
Qed.

(** ** The reference: the pieces that are left, then their tokens *)
Definition piece_tokens (p : list Z) : res (list Z) :=
  let token := text_to_token vocab p in if token =? TOKEN_NULL then bytes_to_tokens vocab p [] else Ok [token].
Fixpoint spm_tokens (ps : list (list Z)) : res (list Z) :=
  match ps with
  | [] => Ok []
  | p :: ps => let! a := piece_tokens p in let! b := spm_tokens ps in Ok (a ++ b)
  end.
Definition spm_pieces (text : list Z) : list (list Z) := greedy higher spm_cand (chars_of text).

Lemma bytes_to_tokens_app s output : bytes_to_tokens vocab s output = let! ts := bytes_to_tokens vocab s [] in Ok (output ++ ts).
Proof.
  revert output. induction s as [| c s IH]; intros output; cbn [bytes_to_tokens rbind]; [by rewrite app_nil_r |]. destruct (byte_to_token vocab c); cbn [rbind]; [| done].
  rewrite IH, (IH ([] ++ _)). destruct (bytes_to_tokens vocab s []); cbn [rbind]; [| done]. by rewrite <- app_assoc.
Qed.
(** a text that has been noted is a token, so nothing is taken apart again *)
Definition known_texts (rev_merge : rev_merge_t) : Prop := forall s p, rev_merge !! s = Some p -> text_to_token vocab s <> TOKEN_NULL.
Lemma resegment_ok fuel syms rev_merge symbol output : known_texts rev_merge ->
  resegment vocab (S fuel) syms rev_merge symbol output = let! ts := piece_tokens (str symbol) in Ok (output ++ ts).
Proof.
  intros HR. cbn [resegment]. unfold piece_tokens. destruct (Z.eqb_spec (text_to_token vocab (str symbol)) TOKEN_NULL) as [E | E]; [| done]. simpl negb. cbv iota.
  destruct (rev_merge !! str symbol) as [p |] eqn:Ep; [by apply HR in Ep |]. apply bytes_to_tokens_app.
Qed.
Lemma resegment_chain_ok fuel st p ix s s' output : known_texts (noted st) -> seg (symbols st) p ix (-1) s s' -> (length ix <= fuel)%nat ->
  resegment_chain vocab (Q := Q) fuel st (hd_or (-1) ix) output = let! ts := spm_tokens (pieces (symbols st) ix) in Ok (output ++ ts).
Proof.
  intros HR. revert p s fuel output. induction ix as [| i ix IH]; intros p s fuel output Hs Hf; simpl in Hf.
  { destruct fuel; simpl; by rewrite app_nil_r. }
  destruct fuel as [| fuel]; [lia |]. destruct Hs as (sy & Ei & _ & Hn & _ & _ & Hs). apply vlookup_Some_range in Ei as Hi. cbn [hd_or resegment_chain]. rewrite (proj2 (Z.eqb_neq _ _)) by lia.
  rewrite (vget_lookup _ _ _ Ei). cbn [rbind]. rewrite resegment_ok by done. unfold pieces. rewrite fmap_cons. cbn [spm_tokens]. rewrite Ei. change (default [] (str <$> Some sy)) with (str sy).
  destruct (piece_tokens (str sy)) as [a | e]; cbn [rbind]; [| done]. rewrite Hn, (IH i _ fuel _ Hs) by lia. fold (pieces (symbols st) ix).
  destruct (spm_tokens (pieces (symbols st) ix)); cbn [rbind]; [| done]. by rewrite <- app_assoc.
Qed.
Lemma seg_short syms p ix nx s s' : seg syms p ix nx s s' -> (length ix <= length s)%nat.
Proof.
  revert p s. induction ix as [| i ix IH]; intros p s Hs; simpl; [lia |]. destruct Hs as (sy & _ & _ & _ & _ & Hn & Hs). apply IH in Hs. rewrite length_drop in Hs. unfold Zlen in Hn. lia.
Qed.
Lemma spm_tokenize_pieces text output : Forall is_byte text -> text <> [] ->
  spm_tokenize flt feq vocab text output = let! ts := spm_tokens (spm_pieces text) in Ok (output ++ ts).
Proof.
  intros Hb Hne. unfold spm_tokenize, spm_pieces.
  destruct (merge_all_ok (spm_ops flt feq vocab) spm_score higher spm_cand (fun _ => True) text ∅ Hb) as (syms & st & ix & -> & _ & Em & Hc & Hh & <-); [by apply Forall_true |].
  cbn [rbind]. rewrite Em. cbn [rbind]. rewrite <- (Hh Hne). pose proof (c_seg _ _ _ _ Hc) as Hs. eapply resegment_chain_ok; [| exact Hs | by eapply seg_short].
  eapply (merge_all_noted (spm_ops flt feq vocab) known_texts); [| exact Em | by intros s p ?%lookup_empty_Some].
  intros l r i j b x Hm Hx s p Hp. simpl in Hm, Hp. apply lookup_insert_Some in Hp as [ [<- _] | [_ Hp] ]; [| by eapply Hx]. unfold spm_make in Hm.
  by destruct (Z.eqb_spec (text_to_token vocab (spm_text l r)) TOKEN_NULL).
Qed.
End Spm.

(** C32: tokenizing with SPM gives the tokens of the pieces that the plain algorithm leaves (join the
    two neighbours that make the token of highest score, the leftmost among equals, until no two
    make a token), byte tokens standing for a piece that is no token itself; it fails exactly when
    such a byte has no token.  Scores are floats without NaN and every id of the table is that of a
    token.  In particular the pieces are never taken apart again. *)
Theorem spm_tokenize_exact {F Q : Type} (flt feq : F -> F -> bool) (vocab : Vocab F) `{PQ : !PQueue (b_below (spm_ops flt feq vocab)) Q} (text output : list Z) :
  (forall a b, feq a b = negb (flt a b) && negb (flt b a)) -> ids_in_range vocab -> Forall is_byte text -> text <> [] ->
  spm_tokenize flt feq vocab text output = let! ts := spm_tokens vocab (spm_pieces flt vocab text) in Ok (output ++ ts).
Proof. intros. by apply spm_tokenize_pieces. Qed.

(** integers as scores *)
Lemma Z_feq a b : (a =? b) = negb (a <? b) && negb (b <? a).
Proof. destruct (Z.eqb_spec a b), (Z.ltb_spec a b), (Z.ltb_spec b a); simpl; done || lia. Qed.
Lemma spm_below_asym x y : spm_below Z.ltb Z.eqb x y = true -> spm_below Z.ltb Z.eqb y x = false.
Proof. unfold spm_below. rewrite orb_true_iff, andb_true_iff, orb_false_iff, andb_false_iff, !Z.ltb_lt, Z.ltb_ge, Z.eqb_eq, Z.eqb_neq, Z.ltb_ge. lia. Qed.
Lemma spm_below_split x y z : spm_below Z.ltb Z.eqb x z = true -> spm_below Z.ltb Z.eqb x y = true \/ spm_below Z.ltb Z.eqb y z = true.
Proof. unfold spm_below. rewrite !orb_true_iff, !andb_true_iff, !Z.ltb_lt, !Z.eqb_eq. lia. Qed.
Definition spm_queue (vocab : Vocab Z) : PQueue (b_below (spm_ops Z.ltb Z.eqb vocab)) (list (@llm_bigram_spm Z)) := list_queue (spm_below Z.ltb Z.eqb) spm_below_asym spm_below_split.
(** "ab" and "bc" compete; "x" is spelled out *)
Definition abc_vocab : Vocab Z :=
  let t := match load_tables [(bytes "a", -5, Some 1); (bytes "b", -5, Some 1); (bytes "c", -5, Some 1); (bytes "ab", -2, Some 1); (bytes "bc", -1, Some 1); (bytes "<0x78>", 0, Some 6)] with
           | Ok t => t | Err _ => (∅, []) end in
  plain_vocab VT_SPM t.1 t.2 ∅.
Lemma abc_ids : ids_in_range abc_vocab.
Proof.
  split; [by vm_compute |]. intros s i Hi. assert (H : map_Forall (fun _ i => 0 <= i < 6) (token_to_id abc_vocab)) by (apply (bool_decide_unpack _); by vm_compute).
  exact (H s i Hi).
Qed.
Lemma spm_tokenize_exact_witness :
  let PQ := spm_queue abc_vocab in spm_tokenize Z.ltb Z.eqb abc_vocab (bytes "abcx") [] = Ok [0; 4; 5].
Proof.
  intros PQ. rewrite (spm_tokenize_exact Z.ltb Z.eqb abc_vocab (bytes "abcx") []).
  - vm_compute. reflexivity.
  - apply Z_feq.
  - apply abc_ids.
  - apply (bool_decide_unpack _). vm_compute. exact I.
  - done.
Defined.
