(* ===== verification/Rwkv.v ===== *)
(** * The RWKV session (llm_tokenizer_rwkv and llm_tokenizer_rwkv_session, src/iian/tokenizer/vocab.cpp)

    The longest token at a position is searched with a trie of all tokens.  Positions are below
    2^32. *)

From S2P Require Import Prelude Text Vocab Pieces.

(** ** The trie of token texts (naive_trie)

    std::map<char, naive_trie> is an association list with one entry for every key. *)

Inductive naive_trie := Trie (children : list (Z * naive_trie)) (has_value : bool) (value : Z).
Definition children (t : naive_trie) := let 'Trie c _ _ := t in c.
Definition node_has_value (t : naive_trie) := let 'Trie _ h _ := t in h.
Definition node_value (t : naive_trie) := let 'Trie _ _ v := t in v.
Definition empty_trie : naive_trie := Trie [] false 0.

Fixpoint find_child (c : Z) (l : list (Z * naive_trie)) : option naive_trie :=
  match l with [] => None | (d, t) :: l => if d =? c then Some t else find_child c l end.
Fixpoint set_child (c : Z) (t : naive_trie) (l : list (Z * naive_trie)) : list (Z * naive_trie) :=
  match l with [] => [(c, t)] | (d, u) :: l => if d =? c then (d, t) :: l else (d, u) :: set_child c t l end.

Definition traverse (c : Z) (t : naive_trie) : option naive_trie := find_child c (children t).
Fixpoint trie_insert (key : list Z) (v : Z) (t : naive_trie) : naive_trie :=
  match key with
  | [] => Trie (children t) true v
  | c :: key =>
      match traverse c t with
      | Some res => Trie (set_child c (trie_insert key v res) (children t)) (node_has_value t) (node_value t)
      | None => Trie (set_child c (trie_insert key v empty_trie) (children t)) (node_has_value t) (node_value t)
      end
  end.
(** the number of bytes of [key] that can be followed, from [offset] on *)
Fixpoint get_longest_prefix (key : list Z) (t : naive_trie) (offset : Z) : Z :=
  match key with
  | [] => offset
  | c :: key => match traverse c t with Some res => get_longest_prefix key res (offset + 1) | None => offset end
  end.

(** ** What a trie holds *)
Fixpoint node_at (t : naive_trie) (s : list Z) : option naive_trie :=
  match s with [] => Some t | c :: s => match traverse c t with Some u => node_at u s | None => None end end.
Definition value_at (t : naive_trie) (s : list Z) : option Z :=
  match node_at t s with Some u => if node_has_value u then Some (node_value u) else None | None => None end.

Lemma find_set_child c d t l : find_child d (set_child c t l) = if c =? d then Some t else find_child d l.
Proof.
  induction l as [| [e u] l IH]; simpl; [done |]. destruct (Z.eqb_spec e c) as [-> | Hec]; simpl; [by destruct (c =? d) |].
  rewrite IH. destruct (Z.eqb_spec e d) as [-> |], (Z.eqb_spec c d) as [-> |]; done.
Qed.
Lemma traverse_insert c key v t d : traverse d (trie_insert (c :: key) v t) =
  if c =? d then Some (trie_insert key v (default empty_trie (traverse c t))) else traverse d t.
Proof. cbn [trie_insert]. destruct (traverse c t) as [u |] eqn:E; unfold traverse at 1; cbn [children]; by rewrite find_set_child. Qed.
Lemma value_at_cons t c s : value_at t (c :: s) = match traverse c t with Some u => value_at u s | None => None end.
Proof. unfold value_at. simpl. by destruct (traverse c t). Qed.
Lemma value_at_empty s : value_at empty_trie s = None.
Proof. by destruct s. Qed.
(** insert, then look up *)
Lemma value_at_insert key v t s : value_at (trie_insert key v t) s = if bool_decide (s = key) then Some v else value_at t s.
Proof.
  revert t s. induction key as [| c key IH]; intros t s.
  - destruct s as [| d s]; [done |]. by rewrite bool_decide_false.
  - destruct s as [| d s].
    + rewrite bool_decide_false by done. unfold value_at. simpl. by destruct (traverse c t).
    + rewrite !value_at_cons, traverse_insert. destruct (Z.eqb_spec c d) as [-> | Hne].
      * rewrite IH. case_bool_decide as E; [by rewrite bool_decide_true by congruence |]. rewrite bool_decide_false by congruence.
        destruct (traverse d t); [done |]. simpl. apply value_at_empty.
      * rewrite bool_decide_false by congruence. done.
Qed.
(** a path is followed exactly when it starts a key *)
Lemma node_at_insert key v t s : is_Some (node_at (trie_insert key v t) s) <-> is_Some (node_at t s) \/ s `prefix_of` key.
Proof.
  revert t s. induction key as [| c key IH]; intros t s.
  - destruct s as [| d s]; simpl; [split; [by left | by eexists] |]. unfold traverse. simpl. fold (traverse d t). split; [by left |]. intros [H | H]; [done | by apply prefix_nil_not in H].
  - destruct s as [| d s]; [split; [intros _; right; apply prefix_nil | by eexists] |]. cbn [node_at]. rewrite traverse_insert. destruct (Z.eqb_spec c d) as [-> | Hne].
    + rewrite IH. destruct (traverse d t) as [u |]; simpl.
      * split; (intros [H | H]; [by left | right]); [by apply prefix_cons | by apply prefix_cons_inv_2 in H].
      * split; [intros [H | H]; [destruct s; [| by destruct H] | by right; apply prefix_cons] |].
        { right. apply prefix_cons, prefix_nil. }
        intros [H | H]; [by destruct H | right; by apply prefix_cons_inv_2 in H].
    + split; [by left |]. intros [H | H]; [done |]. by apply prefix_cons_inv_1 in H.
Qed.
Lemma node_at_app t s s' : node_at t (s ++ s') = match node_at t s with Some u => node_at u s' | None => None end.
Proof. revert t. induction s as [| c s IH]; intros t; simpl; [done |]. by destruct (traverse c t). Qed.

(** ** The session *)
(** ** Building the trie *)
Fixpoint insert_tokens {F} (toks : list (token_data F)) (id : Z) (t : naive_trie) : naive_trie :=
  match toks with
  | [] => t
  | d :: toks => insert_tokens toks (id + 1) (trie_insert (unescape_rwkv_token (t_text d)) id t)
  end.
Definition rwkv_matcher {F} (vocab : Vocab F) : naive_trie := insert_tokens (id_to_token vocab) 0 empty_trie.

(** ** Tokenizing *)
(** from a node down, as long as the text goes on: the last token seen and the position behind it *)
Fixpoint rwkv_match (fuel : nat) (text : list Z) (node : naive_trie) (position token_id token_length : Z) : res (Z * Z) :=
  match fuel with
  | O => Err Fuel
  | S fuel =>
      let '(token_id, token_length) := if node_has_value node then (node_value node, u32 (position + 1)) else (token_id, token_length) in
      if Zlen text <=? u32 (position + 1) then Ok (token_id, token_length)
      else
        let! c := vget text (u32 (position + 1)) in
        match traverse c node with
        | Some node => rwkv_match fuel text node (u32 (position + 1)) token_id token_length
        | None => Ok (token_id, token_length)
        end
  end.
Fixpoint rwkv_loop (fuel : nat) (token_matcher : naive_trie) (token_unk : Z) (text : list Z) (position : Z) (output : list Z) : res (list Z) :=
  if Zlen text <=? position then Ok output else
  match fuel with
  | O => Err Fuel
  | S fuel =>
      let! c := vget text position in
      match traverse c token_matcher with
      | None => rwkv_loop fuel token_matcher token_unk text (u32 (position + 1)) (output ++ [token_unk])
      | Some node =>
          let! (token_id, token_length) := rwkv_match (length text) text node position 0 0 in
          rwkv_loop fuel token_matcher token_unk text token_length (output ++ [token_id])
      end
  end.
(** every round of the loop but the faulty ones moves forward *)
Definition rwkv_tokenize {F} (vocab : Vocab F) (text output : list Z) : res (list Z) :=
  rwkv_loop (length text) (rwkv_matcher vocab) (special_unk_id vocab) text 0 output.

(** * The RWKV session takes the longest token at every position *)

(** ** The reference *)
Section Reference.
Context (tok : list Z -> option Z) (unk : Z).
(** the token of the longest start of [s] of at most [n] bytes, and its length *)
Fixpoint longest_from (tok : list Z -> option Z) (s : list Z) (n : nat) : option (Z * nat) :=
  match tok (take n s) with
  | Some v => Some (v, n)
  | None => match n with O => None | S n => longest_from tok s n end
  end.
(** a byte and what follows it *)
Fixpoint rwkv_tokens (fuel : nat) (s : list Z) : list Z :=
  match fuel, s with
  | S fuel, c :: s =>
      match longest_from (fun x => tok (c :: x)) s (length s) with
      | Some (v, k) => v :: rwkv_tokens fuel (drop k s)
      | None => unk :: rwkv_tokens fuel s
      end
  | _, _ => []
  end.
End Reference.
(** the id of the last token with a text *)
Fixpoint last_id {F} (toks : list (token_data F)) (id : Z) (s : list Z) : option Z :=
  match toks with
  | [] => None
  | d :: toks => match last_id toks (id + 1) s with Some i => Some i | None => if bool_decide (s = unescape_rwkv_token (t_text d)) then Some id else None end
  end.

Lemma longest_cons tok c s n : longest_from tok (c :: s) (S n) =
  match longest_from (fun x => tok (c :: x)) s n with Some (v, k) => Some (v, S k) | None => match tok [] with Some v => Some (v, O) | None => None end end.
Proof.
  induction n as [| n IH]; [simpl; rewrite !take_0; destruct (tok [c]); [done |]; by destruct (tok []) |]. change (longest_from tok (c :: s) (S (S n))) with (match tok (c :: take (S n) s) with Some v => Some (v, S (S n)) | None => longest_from tok (c :: s) (S n) end).
  cbn [longest_from]. destruct (tok (c :: take (S n) s)); [done |]. exact IH.
Qed.
Lemma longest_ext tok tok' s n : (forall x, tok x = tok' x) -> longest_from tok s n = longest_from tok' s n.
Proof. intros H. induction n as [| n IH]; simpl; rewrite H; [done |]. by rewrite IH. Qed.
Lemma longest_none tok s n : (forall x, tok x = None) -> longest_from tok s n = None.
Proof. intros H. induction n as [| n IH]; simpl; by rewrite H. Qed.
Lemma longest_some tok s n k : (k <= n)%nat -> is_Some (tok (take k s)) -> is_Some (longest_from tok s n).
Proof.
  induction n as [| n IH]; intros Hk H; simpl.
  - replace k with O in H by lia. destruct H as [v H]. rewrite take_0 in *. by rewrite H.
  - destruct (tok (take (S n) s)) eqn:E; [done |]. apply IH; [| done]. destruct (decide (k = S n)) as [-> |]; [| lia]. rewrite E in H. by destruct H.
Qed.
Lemma longest_length tok s n v k : longest_from tok s n = Some (v, k) -> (k <= n)%nat.
Proof. induction n as [| n IH]; simpl; (destruct (tok _); [intros [= <- <-]; lia |]); [done |]. intros H%IH. lia. Qed.

(** ** The search in the trie *)
Fixpoint deepest (t : naive_trie) (s : list Z) : option (Z * nat) :=
  let here := if node_has_value t then Some (node_value t, O) else None in
  match s with
  | [] => here
  | c :: s => match traverse c t with
              | Some u => match deepest u s with Some (v, k) => Some (v, S k) | None => here end
              | None => here
              end
  end.
Lemma deepest_longest t s : deepest t s = longest_from (value_at t) s (length s).
Proof.
  revert t. induction s as [| c s IH]; intros t; [unfold value_at; simpl; by destruct (node_has_value t) |].
  simpl length. rewrite longest_cons. cbn [deepest]. assert (E : value_at t [] = if node_has_value t then Some (node_value t) else None) by done.
  destruct (traverse c t) as [u |] eqn:Et.
  - rewrite IH, (longest_ext (fun x => value_at t (c :: x)) (value_at u)); [| intros x; by rewrite value_at_cons, Et]. rewrite E. destruct (longest_from (value_at u) s (length s)) as [ [v k] |]; [done |].
    by destruct (node_has_value t).
  - rewrite longest_none by (intros x; by rewrite value_at_cons, Et). rewrite E. by destruct (node_has_value t).
Qed.
Lemma rwkv_match_ok fuel pre c s node id len : Zlen (pre ++ c :: s) < 2 ^ 32 -> (length s < fuel)%nat ->
  rwkv_match fuel (pre ++ c :: s) node (Zlen pre) id len = Ok (match deepest node s with Some (v, k) => (v, Zlen pre + 1 + Z.of_nat k) | None => (id, len) end).
Proof.
  revert pre c s node id len. induction fuel as [| fuel IH]; intros pre c s node id len H32 Hf; [lia |]. cbn [rwkv_match].
  pose proof H32 as Hb. rewrite Zlen_app, Zlen_cons in Hb |- *. pose proof (Zlen_nonneg pre). rewrite (u32_small (Zlen pre + 1)) by (pose proof (Zlen_nonneg s); lia). destruct s as [| d s].
  - rewrite Zlen_nil, Z.add_0_r, (proj2 (Z.leb_le _ _)) by lia. cbn [deepest]. destruct (node_has_value node); do 2 f_equal; lia.
  - rewrite Zlen_cons. pose proof (Zlen_nonneg s). rewrite (proj2 (Z.leb_gt _ _)) by lia. simpl in Hf.
    assert (Ev : vget (pre ++ c :: d :: s) (Zlen pre + 1) = Ok d).
    { apply vget_Ok. rewrite vlookup_app_r by lia. by replace (Zlen pre + 1 - Zlen pre) with 1 by lia. }
    assert (E : pre ++ c :: d :: s = (pre ++ [c]) ++ d :: s) by (by rewrite <- app_assoc). assert (El : Zlen (pre ++ [c]) = Zlen pre + 1) by (rewrite Zlen_app; done).
    destruct (node_has_value node) eqn:Eh; rewrite Ev; cbn [rbind]; cbn [deepest]; rewrite Eh; (destruct (traverse d node) as [u |];
      [rewrite E, <- El, IH, El by (lia || by rewrite <- E); destruct (deepest u s) as [ [v k] |]; do 2 f_equal; lia | do 2 f_equal; lia]).
Qed.

(** ** The trie holds the tokens *)
Lemma insert_tokens_value {F : Type} (toks : list (token_data F)) id t s :
  value_at (insert_tokens toks id t) s = match last_id toks id s with Some i => Some i | None => value_at t s end.
Proof.
  revert id t. induction toks as [| d toks IH]; intros id t; [done |]. cbn [insert_tokens last_id]. rewrite IH. destruct (last_id toks (id + 1) s); [done |].
  rewrite value_at_insert. by case_bool_decide.
Qed.
Lemma insert_tokens_node {F : Type} (toks : list (token_data F)) id t s :
  is_Some (node_at (insert_tokens toks id t) s) <-> is_Some (node_at t s) \/ exists d, d ∈ toks /\ s `prefix_of` unescape_rwkv_token (t_text d).
Proof.
  revert id t. induction toks as [| d toks IH]; intros id t; cbn [insert_tokens]; [set_solver |]. rewrite IH, node_at_insert. set_solver.
Qed.
Lemma last_id_known {F : Type} (toks : list (token_data F)) id s : (exists d, d ∈ toks /\ unescape_rwkv_token (t_text d) = s) -> is_Some (last_id toks id s).
Proof.
  revert id. induction toks as [| d toks IH]; intros id (e & He & Es); [set_solver |]. cbn [last_id]. destruct (last_id toks (id + 1) s) eqn:E; [done |].
  apply elem_of_cons in He as [-> | He]; [rewrite bool_decide_true by done; by eexists |]. destruct (IH (id + 1)) as [i Hi]; [by exists e | congruence].
Qed.

(** the first byte of every token is itself a token *)
Definition starts_known {F} (vocab : Vocab F) : Prop :=
  forall d c s, d ∈ id_to_token vocab -> unescape_rwkv_token (t_text d) = c :: s -> exists e, e ∈ id_to_token vocab /\ unescape_rwkv_token (t_text e) = [c].
Lemma rwkv_loop_ok {F : Type} (vocab : Vocab F) fuel pre s output : starts_known vocab -> Zlen (pre ++ s) < 2 ^ 32 -> (length s <= fuel)%nat ->
  rwkv_loop fuel (rwkv_matcher vocab) (special_unk_id vocab) (pre ++ s) (Zlen pre) output =
    Ok (output ++ rwkv_tokens (last_id (id_to_token vocab) 0) (special_unk_id vocab) fuel s).
Proof.
  intros HS. revert pre s output. induction fuel as [| fuel IH]; intros pre s output H32 Hf; cbn [rwkv_loop]; pose proof H32 as Hb; rewrite Zlen_app in Hb |- *.
  { destruct s; simpl in Hf; [| lia]. rewrite Zlen_nil, (proj2 (Z.leb_le _ _)) by lia. by rewrite app_nil_r. }
  destruct s as [| c s]; [rewrite Zlen_nil, (proj2 (Z.leb_le _ _)) by lia; by rewrite app_nil_r |]. rewrite Zlen_cons in Hb |- *. pose proof (Zlen_nonneg s). pose proof (Zlen_nonneg pre). rewrite (proj2 (Z.leb_gt _ _)) by lia. rewrite (u32_small (Zlen pre + 1)) by lia. simpl in Hf.
  assert (Ev : vget (pre ++ c :: s) (Zlen pre) = Ok c) by (apply vget_Ok; rewrite vlookup_app_r by lia; by rewrite Z.sub_diag). rewrite Ev. cbn [rbind rwkv_tokens].
  assert (V : forall x, value_at (rwkv_matcher vocab) x = last_id (id_to_token vocab) 0 x).
  { intros x. unfold rwkv_matcher. rewrite insert_tokens_value, value_at_empty. by destruct (last_id _ _ _). }
  destruct (traverse c (rwkv_matcher vocab)) as [node |] eqn:Et.
  - rewrite rwkv_match_ok by (done || rewrite length_app; simpl; lia). cbn [rbind]. rewrite deepest_longest.
    assert (N : forall x, value_at node x = last_id (id_to_token vocab) 0 (c :: x)) by (intros x; by rewrite <- V, value_at_cons, Et). rewrite (longest_ext _ _ s (length s) N).
    destruct (longest_from (fun x => last_id (id_to_token vocab) 0 (c :: x)) s (length s)) as [ [v k] |] eqn:El.
    + apply longest_length in El. replace (Zlen pre + 1 + Z.of_nat k) with (Zlen (pre ++ c :: take k s)) by (rewrite Zlen_app, Zlen_cons; unfold Zlen; rewrite length_take; lia).
      assert (Ep : pre ++ c :: s = (pre ++ c :: take k s) ++ drop k s) by (rewrite <- app_assoc; simpl; by rewrite take_drop). rewrite Ep in H32 |- *.
      rewrite IH by (done || rewrite length_drop; lia). by rewrite <- app_assoc.
    + exfalso. assert (Hn : is_Some (node_at (rwkv_matcher vocab) [c])) by (simpl; rewrite Et; by eexists). apply insert_tokens_node in Hn as [ [u Hu] | (d & Hd & r & Er) ]; [done |].
      destruct (HS d c r Hd Er) as (e & He & Ee). apply (eq_None_not_Some (longest_from (fun x => last_id (id_to_token vocab) 0 (c :: x)) s (length s))); [exact El |].
      apply (longest_some _ _ _ 0); [lia |]. rewrite take_0. apply last_id_known. by exists e.
  - rewrite longest_none by (intros x; by rewrite <- V, value_at_cons, Et). replace (Zlen pre + 1) with (Zlen (pre ++ [c])) by (rewrite Zlen_app; done).
    assert (Ep : pre ++ c :: s = (pre ++ [c]) ++ s) by (by rewrite <- app_assoc). rewrite Ep in H32 |- *. rewrite IH by (done || lia). by rewrite <- app_assoc.
Qed.

(** C35: the RWKV session always ends and gives at every position the longest token that the text
    continues with (the last id among tokens of equal text), and the unknown token for a byte that
    starts none, provided that the first byte of every token is a token itself and the text is shorter than the
    2^32 bytes that its positions can count. *)
Theorem rwkv_longest {F : Type} (vocab : Vocab F) (text output : list Z) : starts_known vocab -> Zlen text < 2 ^ 32 ->
  rwkv_tokenize vocab text output = Ok (output ++ rwkv_tokens (last_id (id_to_token vocab) 0) (special_unk_id vocab) (length text) text).
Proof. intros HS Hl. by apply (rwkv_loop_ok vocab (length text) [] text output HS). Qed.

Definition rwkv_vocab (texts : list (list Z)) : Vocab Z :=
  plain_vocab VT_RWKV ∅ ((fun t => mkToken t 0 TOKEN_ATTR_NORMAL) <$> texts) ∅.
Lemma rwkv_longest_witness :
  rwkv_tokenize (rwkv_vocab [bytes "a"; bytes "b"; bytes "ab"; bytes "abb"; bytes "\x62\n"]) ([98; 10] ++ bytes "abbc") [] = Ok [4; 3; -1].
Proof.
  rewrite rwkv_longest; [vm_compute; reflexivity | | vm_compute; reflexivity]. intros d c s Hd Es. apply list_elem_of_In in Hd. simpl in Hd.
  destruct Hd as [<- | [<- | [<- | [<- | [<- | [] ] ] ] ] ]; vm_compute in Es; injection Es as <- _.
  1, 3, 4: exists (mkToken (bytes "a") 0 TOKEN_ATTR_NORMAL). 4, 5: exists (mkToken (bytes "b") 0 TOKEN_ATTR_NORMAL).
  all: split; [apply list_elem_of_In; simpl; tauto | reflexivity].
Defined.

(** without that the position is set back to the start of the text, and the loop never ends:
    a vocabulary with "ab" but not "a", and the text "ac" *)
Lemma rwkv_never_ends fuel output :
  rwkv_loop fuel (rwkv_matcher (rwkv_vocab [bytes "<unk>"; bytes "ab"; bytes "c"])) 0 (bytes "ac") 0 output = Err Fuel.
Proof.
  set (m := rwkv_matcher _). vm_compute in m. revert output. induction fuel as [| fuel IH]; intros output; [done |]. cbn [rwkv_loop]. subst m. simpl. apply IH.
Qed.
