(* ===== verification/Ugm.v ===== *)
(** * The UGM session (llm_tokenizer_ugm and llm_tokenizer_ugm_session, src/iian/tokenizer/vocab.cpp)

    The text is normalized, then the tokenization of highest total score is found by a Viterbi
    search over a trie of the tokens.  Scores are floats and sums of scores doubles: their
    operations are a record.  The replacement table of the model file is a XOR-compressed double
    array followed by zero-terminated strings. *)

From S2P Require Import Prelude Text Unicode Vocab Pieces Rwkv.

Record float_ops (F D : Type) := mkFloats {
  (** floats: <, FLT_MAX, minus 10 *)
  flt : F -> F -> bool;
  flt_max : F;
  penalized : F -> F;
  (** doubles: from a float, 0, +, <, -DBL_MAX *)
  dbl : F -> D;
  dzero : D;
  dadd : D -> D -> D;
  dlt : D -> D -> bool;
  dlowest : D }.
Arguments flt {F D}. Arguments flt_max {F D}. Arguments penalized {F D}. Arguments dbl {F D}. Arguments dzero {F D}. Arguments dadd {F D}. Arguments dlt {F D}. Arguments dlowest {F D}.

Section Ugm.
Context {F D : Type} (fo : float_ops F D) (vocab : Vocab F).

(** ** The tokenizer *)
Record llm_tokenizer_ugm := mkUgm {
  xcda_array : list Z;
  prefix_replacements : list Z;
  token_matcher : naive_trie;
  user_defined_token_matcher : naive_trie;
  unknown_token_score : F }.

(** little-endian words *)
Fixpoint words32 (n : nat) (s : list Z) : list Z :=
  match n, s with
  | S n, a :: b :: c :: d :: s => (a + Z.shiftl b 8 + Z.shiftl c 16 + Z.shiftl d 24) :: words32 n s
  | _, _ => []
  end.
(** the array and the strings of the table; reading outside of it is undefined *)
Definition load_charsmap (charsmap : list Z) : res (list Z * list Z) :=
  match charsmap with
  | [] => Ok ([], [])
  | _ =>
      match words32 1 charsmap with
      | [xcda_blob_size] =>
          let charsmap_offset := 4 + xcda_blob_size in
          if charsmap_offset <=? Zlen charsmap then
            Ok (words32 (Z.to_nat (xcda_blob_size / 4)) (drop 4 charsmap), drop (Z.to_nat charsmap_offset) charsmap)
          else Err (UB "vector index out of range")
      | _ => Err (UB "vector index out of range")
      end
  end.
(** what load requires of the table *)
Definition check_charsmap (charsmap : list Z) : res unit :=
  match words32 1 charsmap with
  | [xcda_blob_size] =>
      if Zlen charsmap <=? xcda_blob_size + 4 then throw! "Index out of array bounds in precompiled charsmap!" else Ok tt
  | _ => throw! "precompiled_charsmap too small for xcda_blob_size header!"
  end.
(** the loop over the tokens: least score of the ordinary ones, and the two tries *)
Fixpoint add_tokens (toks : list (token_data F)) (id : Z) (min_score : F) (matcher user : naive_trie) : F * naive_trie * naive_trie :=
  match toks with
  | [] => (min_score, matcher, user)
  | d :: toks =>
      let normal := has_attr (t_attr d) TOKEN_ATTR_NORMAL in
      let user_defined := has_attr (t_attr d) TOKEN_ATTR_USER_DEFINED in
      let unused := has_attr (t_attr d) TOKEN_ATTR_UNUSED in
      add_tokens toks (id + 1)
        (if normal && flt fo (t_score d) min_score then t_score d else min_score)
        (if normal || user_defined || unused then trie_insert (t_text d) id matcher else matcher)
        (if user_defined then trie_insert (t_text d) 0 user else user)
  end.
Definition new_ugm : res llm_tokenizer_ugm :=
  let! (xcda, repl) := load_charsmap (precompiled_charsmap vocab) in
  let '(min_score, matcher, user) := add_tokens (id_to_token vocab) 0 (flt_max fo) empty_trie empty_trie in
  Ok (mkUgm xcda repl matcher user (penalized fo min_score)).

Context (tokenizer : llm_tokenizer_ugm).

(** ** The double array *)
Definition get_node (index : Z) : res Z :=
  match vlookup (xcda_array tokenizer) index with Some w => Ok w | None => throw! "Index out of array bounds in XCDA array!" end.
Definition get_base (index : Z) : res Z :=
  let! packed_node := get_node index in Ok (u32 (Z.shiftl (Z.shiftr packed_node 10) (Z.shiftr (Z.land packed_node (Z.shiftl 1 9)) 6))).
Definition get_lcheck (index : Z) : res Z :=
  let! packed_node := get_node index in Ok (Z.land packed_node (Z.lor (Z.shiftl 1 31) 0xff)).
Definition get_leaf (index : Z) : res bool :=
  let! packed_node := get_node index in Ok (Z.land (Z.shiftr packed_node 8) 1 =? 1).
Definition get_value (index : Z) : res Z :=
  let! packed_node := get_node index in Ok (Z.land packed_node (Z.shiftl 1 31 - 1)).
(** along the input; the length of the longest prefix with a replacement, and where that is *)
Fixpoint xcda_walk (s : list Z) (node_index consumed longest_length longest_offset : Z) : res (Z * Z) :=
  match s with
  | [] => Ok (longest_length, longest_offset)
  | c :: s =>
      if c =? 0 then Ok (longest_length, longest_offset) else
      let node_index := Z.lxor node_index c in
      let! lcheck := get_lcheck node_index in
      if negb (lcheck =? c) then Ok (longest_length, longest_offset) else
      let! is_leaf := get_leaf node_index in
      let! base := get_base node_index in
      let node_index := Z.lxor node_index base in
      let consumed := consumed + 1 in
      if is_leaf : bool then let! v := get_value node_index in xcda_walk s node_index consumed consumed v
      else xcda_walk s node_index consumed longest_length longest_offset
  end.
(** the bytes up to a zero *)
Fixpoint c_string (s : list Z) : res (list Z) :=
  match s with
  | [] => throw! "Unterminated string in precompiled charsmap!"
  | c :: s => if c =? 0 then Ok [] else let! r := c_string s in Ok (c :: r)
  end.

(** ** Normalization *)
(** what the start of the rest of the input becomes, and how many bytes it takes *)
Definition normalize_prefix (rest : list Z) : res (list Z * Z) :=
  match rest with
  | [] => Ok ([], 0)
  | _ =>
      let user := get_longest_prefix rest (user_defined_token_matcher tokenizer) 0 in
      if 0 <? user then Ok (take (Z.to_nat user) rest, user)
      else
        let! (longest_prefix_length, longest_prefix_offset) :=
          (match xcda_array tokenizer with
           | [] => Ok (0, 0)
           | _ => let! root := get_base 0 in xcda_walk rest root 0 0 0
           end) in
        if 0 <? longest_prefix_length then
          if Zlen (prefix_replacements tokenizer) <=? longest_prefix_offset then throw! "Index out of array bounds in precompiled charsmap!"
          else let! r := c_string (drop (Z.to_nat longest_prefix_offset) (prefix_replacements tokenizer)) in Ok (r, longest_prefix_length)
        else
          match unicode_cpt_from_utf8 rest with
          | Ok (_, n) => Ok (take (Z.to_nat n) rest, n)
          | Err (Throw _) => Ok ([0xEF; 0xBF; 0xBD], 1)
          | Err e => Err e
          end
  end.
Definition ws_space : list Z := if escape_whitespaces vocab then lower_block else [ch " "].
(** one byte; the state is the text so far, whether the leading space is there and whether a word is read *)
Definition norm_state : Type := list Z * bool * bool.
Definition norm_byte (st : norm_state) (c : Z) : norm_state :=
  let '(normalized, is_space_prepended, processing_non_ws) := st in
  let shall_prepend_space := negb (treat_whitespace_as_suffix vocab) && add_space_prefix vocab in
  let shall_merge_spaces := remove_extra_whitespaces vocab in
  if negb (c =? ch " ") then
    if negb processing_non_ws && ((shall_prepend_space && negb is_space_prepended) || shall_merge_spaces) then (normalized ++ ws_space ++ [c], true, true)
    else (normalized ++ [c], is_space_prepended, true)
  else ((if shall_merge_spaces then normalized else normalized ++ ws_space), is_space_prepended, false).
Fixpoint normalize_loop (fuel : nat) (rest : list Z) (st : norm_state) : res norm_state :=
  match rest with
  | [] => Ok st
  | _ =>
      match fuel with
      | O => Err Fuel
      | S fuel => let! (r, consumed) := normalize_prefix rest in normalize_loop fuel (drop (Z.to_nat consumed) rest) (foldl norm_byte st r)
      end
  end.
Definition normalize_text (input : list Z) : res (list Z) :=
  let! (normalized, _, _) := normalize_loop (length input) input ([], false, false) in
  Ok (if treat_whitespace_as_suffix vocab && add_space_prefix vocab then normalized ++ ws_space else normalized).

(** ** The search *)
Record best_tokenization := mkBest { bt_token_id : Z; bt_input_offset : Z; bt_score_sum : D }.
(** the better one stays *)
Definition challenge (results : list best_tokenization) (at_ : Z) (challenger : best_tokenization) : res (list best_tokenization) :=
  let! current_champ := vget results at_ in
  if dlt fo (bt_score_sum current_champ) (bt_score_sum challenger) then vset results at_ challenger else Ok results.
(** user-defined tokens score 0 *)
Definition ugm_score (d : token_data F) : D := if has_attr (t_attr d) TOKEN_ATTR_USER_DEFINED then dzero fo else dbl fo (t_score d).
(** the tokens that start at [input_offset]; was one of them exactly the character there? *)
Fixpoint ugm_match (fuel : nat) (normalized : list Z) (input_offset n_utf8 : Z) (best_score : D) (node : option naive_trie) (prefix_offset : Z)
    (found : bool) (results : list best_tokenization) : res (bool * list best_tokenization) :=
  match node with
  | None => Ok (found, results)
  | Some node =>
      if Zlen normalized <? prefix_offset then Ok (found, results) else
      match fuel with
      | O => Err Fuel
      | S fuel =>
          let! (found, results) :=
            (if node_has_value node then
               let token_id := node_value node in
               let! d := get_token_data vocab token_id in
               let! results := challenge results prefix_offset (mkBest token_id input_offset (dadd fo best_score (ugm_score d))) in
               Ok (found || (prefix_offset - input_offset =? n_utf8), results)
             else Ok (found, results)) in
          let c := default 0 (vlookup normalized prefix_offset) in
          ugm_match fuel normalized input_offset n_utf8 best_score (traverse c node) (prefix_offset + 1) found results
      end
  end.
Fixpoint ugm_loop (fuel : nat) (normalized : list Z) (input_offset : Z) (results : list best_tokenization) : res (list best_tokenization) :=
  if Zlen normalized <=? input_offset then Ok results else
  match fuel with
  | O => Err Fuel
  | S fuel =>
      let! c := vget normalized input_offset in
      let n_utf8 := Z.min (unicode_len_utf8 c) (Zlen normalized - input_offset) in
      let! current_best := vget results input_offset in
      let best_score := bt_score_sum current_best in
      let! (found, results) :=
        ugm_match (S (length normalized)) normalized input_offset n_utf8 best_score (traverse c (token_matcher tokenizer)) (input_offset + 1) false results in
      let! results :=
        (if found : bool then Ok results
         else challenge results (input_offset + n_utf8) (mkBest (special_unk_id vocab) input_offset (dadd fo best_score (dbl fo (unknown_token_score tokenizer))))) in
      ugm_loop fuel normalized (input_offset + n_utf8) results
  end.
(** back from the end: [tokenization] is a reference to the last entry of the results, which the
    loop assigns *)
Fixpoint backtrack (fuel : nat) (results : list best_tokenization) (input_len : Z) (is_prev_unknown : bool) (output : list Z) : res (list Z) :=
  match fuel with
  | O => Err Fuel
  | S fuel =>
      let! tokenization := vget results input_len in
      let is_unknown := bt_token_id tokenization =? special_unk_id vocab in
      let output := if is_prev_unknown && is_unknown then output else output ++ [bt_token_id tokenization] in
      if bt_input_offset tokenization =? 0 then Ok output
      else
        let! t := vget results (bt_input_offset tokenization) in
        let! results := vset results input_len t in
        backtrack fuel results input_len is_unknown output
  end.
Definition ugm_tokenize (text output : list Z) : res (list Z) :=
  let! normalized := normalize_text text in
  match normalized with
  | [] => Ok output
  | _ =>
      let unk := special_unk_id vocab in
      let results := mkBest unk 0 (dzero fo) :: replicate (length normalized) (mkBest unk 0 (dlowest fo)) in
      let! results := ugm_loop (length normalized) normalized 0 results in
      let! tokens := backtrack (length normalized) results (Zlen normalized) false [] in
      Ok (output ++ rev tokens)
  end.
End Ugm.
