(* ===== verification/UgmProps.v ===== *)
(** * The Viterbi search of the UGM session

    The tokenizations of a text are paths from its start to its end; an edge is a token, or the
    unknown token where no token is exactly the next character.  The table of the search holds at
    every offset that has been reached the last edge of a best path to it. *)

From S2P Require Import Prelude Text Unicode UnicodeFacts UnicodeProps MergeInv Vocab Pieces Rwkv Ugm.

(** what is needed of doubles that are not NaN: < is a strict weak order and adding a double on the
    right does not turn it round *)
Class DoubleLaws {F D : Type} (fo : float_ops F D) := {
  dlt_asym a b : dlt fo a b = true -> dlt fo b a = false;
  dlt_neg_trans a b c : dlt fo a b = false -> dlt fo b c = false -> dlt fo a c = false;
  dadd_mono a b w : dlt fo a b = false -> dlt fo (dadd fo a w) (dadd fo b w) = false }.
Lemma dlt_irrefl {F D : Type} (fo : float_ops F D) `{!DoubleLaws fo} a : dlt fo a a = false.
Proof. destruct (dlt fo a a) eqn:E; [| done]. apply dlt_asym in E as E'. congruence. Qed.

Section Search.
Context {F D : Type} (fo : float_ops F D) `{DL : !DoubleLaws fo} (vocab : Vocab F) (tokenizer : @llm_tokenizer_ugm F).
Context (normalized : list Z) (Hbytes : Forall is_byte normalized).
Notation len := (Zlen normalized).
Notation unk := (special_unk_id vocab).
Notation best := (@best_tokenization D).
Implicit Types (results : list best).

(** ** Paths *)
Definition char_len (i : Z) : Z := match vlookup normalized i with Some c => Z.min (unicode_len_utf8 c) (len - i) | None => 0 end.
Definition token_at (i j : Z) : option Z := value_at (token_matcher tokenizer) (vslice normalized i (j - i)).
(** the starts of characters *)
Inductive boundary : Z -> Prop :=
  | boundary_start : boundary 0
  | boundary_next i : boundary i -> i < len -> boundary (i + char_len i).
(** an edge with its token and score *)
Inductive edge (i j id : Z) (w : D) : Prop :=
  | edge_token d : i < j <= len -> token_at i j = Some id -> vlookup (id_to_token vocab) id = Some d -> w = ugm_score fo d -> edge i j id w
  | edge_unknown : j = i + char_len i -> token_at i j = None -> id = unk -> w = dbl fo (unknown_token_score tokenizer) -> edge i j id w.
Inductive tokenization : Z -> list Z -> D -> Prop :=
  | tokenization_start : tokenization 0 [] (dzero fo)
  | tokenization_edge i j ts s id w : tokenization i ts s -> boundary i -> i < len -> edge i j id w -> tokenization j (ts ++ [id]) (dadd fo s w).

Lemma char_len_pos i : 0 <= i < len -> 1 <= char_len i <= len - i.
Proof.
  intros Hi. unfold char_len. destruct (vlookup_lt_is_Some normalized i Hi) as [c E]. rewrite E. assert (is_byte c) by (eapply Forall_forall; [exact Hbytes | by eapply vlookup_elem_of]).
  pose proof (len_utf8_pos c ltac:(done)). lia.
Qed.
Lemma boundary_range i : boundary i -> 0 <= i <= len.
Proof. induction 1 as [| i _ IH Hi]; [pose proof (Zlen_nonneg normalized); lia |]. pose proof (char_len_pos i ltac:(lia)). lia. Qed.
(** no boundary lies inside a character *)
Lemma boundary_between i k : boundary i -> boundary k -> i < k -> i + char_len i <= k.
Proof.
  intros Hi Hk. revert i Hi. induction Hk as [| k Hk IH Hkl]; intros i Hi Hlt; [apply boundary_range in Hi; lia |]. pose proof (boundary_range k Hk) as Rk. pose proof (char_len_pos k ltac:(lia)).
  destruct (Z.lt_trichotomy i k) as [H1 | [-> | H1] ]; [specialize (IH i Hi H1); lia | lia |]. exfalso. revert H1 Hlt. induction Hi as [| i Hi IHi Hil]; intros H1 Hlt; [lia |].
  pose proof (char_len_pos i ltac:(apply boundary_range in Hi; lia)). destruct (Z.lt_trichotomy i k) as [H2 | [-> | H2] ]; [specialize (IH i Hi H2); lia | lia | apply IHi; lia].
Qed.
Lemma edge_forward i j id w : boundary i -> i < len -> edge i j id w -> i < j <= len.
Proof. intros Hb Hi [d H | ->]; [done |]. apply boundary_range in Hb. pose proof (char_len_pos i ltac:(lia)). lia. Qed.
Lemma tokenization_range j ts s : tokenization j ts s -> 0 <= j <= len /\ Z.of_nat (length ts) <= j.
Proof.
  induction 1 as [| i j ts s id w _ [IH1 IH2] Hb Hi He]; [pose proof (Zlen_nonneg normalized); simpl; lia |]. apply edge_forward in He; [| done | done]. rewrite length_app. simpl. lia.
Qed.

(** ** One round of the search *)
(** the challengers [E], all from [i], have been let into the table *)
Definition updated (i : Z) (b : D) (E : Z -> Z -> D -> Prop) results results' : Prop :=
  Zlen results' = Zlen results /\
  forall j r, vlookup results j = Some r -> exists r', vlookup results' j = Some r' /\ dlt fo (bt_score_sum r') (bt_score_sum r) = false /\
    (r' = r \/ exists id w, E j id w /\ r' = mkBest id i (dadd fo b w)) /\ (forall id w, E j id w -> dlt fo (bt_score_sum r') (dadd fo b w) = false).
Lemma updated_none i b results : updated i b (fun _ _ _ => False) results results.
Proof. split; [done |]. intros j r Hr. exists r. split; [done |]. split; [by apply dlt_irrefl |]. by split; [left |]. Qed.
Lemma updated_trans i b E1 E2 results r1 r2 : updated i b E1 results r1 -> updated i b E2 r1 r2 -> updated i b (fun j id w => E1 j id w \/ E2 j id w) results r2.
Proof.
  intros [L1 H1] [L2 H2]. split; [congruence |]. intros j r Hr. destruct (H1 j r Hr) as (r' & Hr' & Hs & Ho & He). destruct (H2 j r' Hr') as (r'' & Hr'' & Hs' & Ho' & He').
  exists r''. split; [done |]. split; [by eapply dlt_neg_trans |]. split.
  - destruct Ho' as [-> | (id & w & Hi & ->)]; [| right; exists id, w; by split; [right |] ]. destruct Ho as [-> | (id & w & Hi & ->)]; [by left | right; exists id, w; by split; [left |] ].
  - intros id w [Hi | Hi]; [by eapply dlt_neg_trans; [exact Hs' | apply (He id)] | by apply (He' id)].
Qed.
Lemma updated_ext i b (E1 E2 : Z -> Z -> D -> Prop) results r1 : (forall j id w, E1 j id w <-> E2 j id w) -> updated i b E1 results r1 -> updated i b E2 results r1.
Proof.
  intros H [L1 H1]. split; [done |]. intros j r Hr. destruct (H1 j r Hr) as (r' & Hr' & Hs & Ho & He). exists r'. do 2 (split; [done |]). split.
  - destruct Ho as [-> | (id & w & Hi & ->)]; [by left | right; exists id, w; by split; [apply H |] ].
  - intros id w Hi. apply (He id), H, Hi.
Qed.
Lemma challenge_ok i b results j id w : 0 <= j < Zlen results -> exists results', challenge fo results j (mkBest id i (dadd fo b w)) = Ok results' /\
  updated i b (fun j' id' w' => j' = j /\ id' = id /\ w' = w) results results'.
Proof.
  intros Hj. unfold challenge. destruct (vlookup_lt_is_Some results j Hj) as [champ Ec]. rewrite (proj2 (vget_Ok _ _ _) Ec). cbn [rbind bt_score_sum].
  destruct (dlt fo (bt_score_sum champ) (dadd fo b w)) eqn:El.
  - rewrite vset_Ok by done. eexists. split; [done |]. split; [apply Zlen_vinsert |]. intros k r Hr. destruct (Z.eq_dec k j) as [-> | Hne].
    + rewrite Ec in Hr. injection Hr as ->. eexists. split; [by apply vlookup_vinsert_eq |]. simpl. split; [by apply dlt_asym |]. split; [right; by exists id, w |].
      intros id' w' (_ & _ & ->). by apply dlt_irrefl.
    + exists r. rewrite vlookup_vinsert_ne by done. split; [done |]. split; [by apply dlt_irrefl |]. split; [by left |]. by intros id' w' (-> & _).
  - exists results. split; [done |]. split; [done |]. intros k r Hr. exists r. split; [done |]. split; [by apply dlt_irrefl |]. split; [by left |].
    intros id' w' (-> & -> & ->). rewrite Ec in Hr. by injection Hr as ->.
Qed.

(** ** The tokens that start at an offset *)
Hypothesis ids_known : forall s id, value_at (token_matcher tokenizer) s = Some id -> is_Some (vlookup (id_to_token vocab) id).
Definition token_edge (i p j id : Z) (w : D) : Prop := p <= j <= len /\ token_at i j = Some id /\ exists d, vlookup (id_to_token vocab) id = Some d /\ w = ugm_score fo d.
Lemma slice_app (i p j : Z) : 0 <= i <= p -> p <= j -> vslice normalized i (j - i) = vslice normalized i (p - i) ++ vslice normalized p (j - p).
Proof.
  intros H1 H2.
  replace (j - i) with (p - i + (j - p)) by lia. rewrite <- vslice_split by lia. by replace (i + (p - i)) with p by lia.
Qed.
Lemma slice_one (p c : Z) : vlookup normalized p = Some c -> vslice normalized p (p + 1 - p) = [c].
Proof.
  intros H. apply vlookup_Some_range in H as Hr. unfold vlookup in H. rewrite (proj2 (Z.leb_le 0 p)) in H by lia. unfold vslice. replace (p + 1 - p) with 1 by lia. by rewrite (drop_S _ _ _ H).
Qed.
Lemma ugm_match_ok fuel i n b node p found results : 0 <= i < p -> Zlen results = len + 1 -> (Z.to_nat (len + 1 - p) <= fuel)%nat ->
  (p <= len -> node = node_at (token_matcher tokenizer) (vslice normalized i (p - i))) ->
  exists found' results', ugm_match fo vocab fuel normalized i n b node p found results = Ok (found', results') /\ updated i b (token_edge i p) results results' /\
    found' = found || bool_decide (p <= i + n <= len /\ is_Some (token_at i (i + n))).
Proof.
  revert node p found results. induction fuel as [| fuel IH]; intros node p found results Hp Hl Hf Hn.
  all: assert (none : len < p \/ node = None -> exists found' results', Ok (found, results) = Ok (found', results') /\ updated i b (token_edge i p) results results' /\
    found' = found || bool_decide (p <= i + n <= len /\ is_Some (token_at i (i + n)))).
  1, 3: intros Hno; assert (G : forall j, p <= j <= len -> token_at i j = None) by
    (intros j Hj; destruct Hno as [| Hno]; [lia |]; unfold token_at, value_at; rewrite (slice_app i p j) by lia; rewrite node_at_app, <- Hn by lia; by rewrite Hno).
  1, 2: exists found, results; split; [done |]; split; [eapply updated_ext; [| apply updated_none]; intros j id w; split; [done |]; intros (Hj & Ht & _); by rewrite G in Ht |];
    rewrite bool_decide_false; [by rewrite orb_false_r |]; intros [Hj [x Hx] ]; by rewrite G in Hx.
  - cbn [ugm_match]. destruct node as [node |]; [| apply none; by right]. destruct (Z.ltb_spec len p); [apply none; by left | lia].
  - cbn [ugm_match]. destruct node as [node |]; [| apply none; by right]. destruct (Z.ltb_spec len p) as [| Hpl]; [apply none; by left |]. clear none. specialize (Hn Hpl).
    assert (Et : token_at i p = if node_has_value node then Some (node_value node) else None) by (unfold token_at, value_at; by rewrite <- Hn).
    assert (Hn' : p + 1 <= len -> traverse (default 0 (vlookup normalized p)) node = node_at (token_matcher tokenizer) (vslice normalized i (p + 1 - i))).
    { intros Hp1. destruct (vlookup_lt_is_Some normalized p ltac:(lia)) as [c Ec]. rewrite (slice_app i p (p + 1)), (slice_one p c Ec), node_at_app, <- Hn, Ec by lia. simpl. by destruct (traverse c node). }
    destruct (node_has_value node) eqn:Eh.
    + destruct (ids_known _ _ Et) as [d Ed]. unfold get_token_data. rewrite Ed. cbn [rbind]. destruct (challenge_ok i b results p (node_value node) (ugm_score fo d) ltac:(lia)) as (r1 & -> & U1). cbn [rbind].
      destruct (IH (traverse (default 0 (vlookup normalized p)) node) (p + 1) (found || (p - i =? n)) r1) as (found' & r2 & E2 & U2 & Ef); [lia | destruct U1; lia | lia | exact Hn' |].
      exists found', r2. split; [exact E2 |]. split.
      * eapply updated_ext; [| exact (updated_trans _ _ _ _ _ _ _ U1 U2)]. intros j id w. unfold token_edge. split.
        { intros [(-> & -> & ->) | (? & ? & ?)]; [| split; [lia | done] ]. split; [lia |]. split; [done | by exists d]. }
        intros (Hj & Ht & d' & Hd & ->). destruct (Z.eq_dec j p) as [-> |]; [left | right; split; [lia | split; [done | by exists d'] ] ].
        rewrite Et in Ht. injection Ht as <-. rewrite Ed in Hd. by injection Hd as <-.
      * rewrite Ef, <- orb_assoc. f_equal. destruct (Z.eqb_spec (p - i) n) as [Hpn | Hpn]; simpl.
        { symmetry. apply bool_decide_eq_true. replace (i + n) with p by lia. split; [lia |]. rewrite Et. by eexists. }
        apply bool_decide_ext. split; intros [Hr Hs]; (split; [lia | done]).
    + cbn [rbind]. destruct (IH (traverse (default 0 (vlookup normalized p)) node) (p + 1) found results) as (found' & r2 & E2 & U2 & Ef); [lia | done | lia | exact Hn' |].
      exists found', r2. split; [exact E2 |]. assert (G : forall j, j <> p \/ token_at i j = None) by (intros j; destruct (Z.eq_dec j p) as [-> |]; [by right | by left]). split.
      * eapply updated_ext; [| exact U2]. intros j id w. unfold token_edge. split; (intros (Hj & Ht & Hd); split; [| split; [done | done] ]); [lia |]. destruct (G j) as [|]; [lia | congruence].
      * rewrite Ef. f_equal. apply bool_decide_ext. split; (intros [Hr [x Hs] ]; split; [| by exists x]); [lia |]. destruct (G (i + n)); [lia | congruence].
Qed.

(** ** The table *)
Definition untouched : best := mkBest unk 0 (dlowest fo).
(** the path that the table holds at an offset *)
Inductive recorded results : Z -> list Z -> D -> Prop :=
  | recorded_start : vlookup results 0 = Some (mkBest unk 0 (dzero fo)) -> recorded results 0 [] (dzero fo)
  | recorded_edge k j ts s id w : recorded results k ts s -> boundary k -> k < len -> edge k j id w -> vlookup results j = Some (mkBest id k (dadd fo s w)) ->
      recorded results j (ts ++ [id]) (dadd fo s w).
Lemma recorded_tokenization results j ts s : recorded results j ts s -> tokenization j ts s.
Proof. induction 1; by econstructor. Qed.
Lemma recorded_score results j ts s : recorded results j ts s -> exists r, vlookup results j = Some r /\ bt_score_sum r = s.
Proof. intros [H | k j' ts' s' id w _ _ _ _ H]; by eexists. Qed.
Lemma recorded_keep results results' j ts s : (forall m, m <= j -> vlookup results' m = vlookup results m) -> recorded results j ts s -> recorded results' j ts s.
Proof.
  intros H R. induction R as [H0 | k j ts s id w R IH Hb Hk He Hl]; [constructor; by rewrite H |]. apply edge_forward in He as Hf; [| done | done].
  eapply recorded_edge; [apply IH; intros m Hm; apply H; lia | done | done | done | by rewrite H].
Qed.
(** the rounds before [i] are done *)
Record searched (i : Z) results : Prop := mkSearched {
  sr_len : Zlen results = len + 1;
  sr_start : vlookup results 0 = Some (mkBest unk 0 (dzero fo));
  sr_boundary : boundary i;
  sr_reached : forall j, boundary j -> j <= i -> exists ts s, recorded results j ts s;
  sr_entry : forall j r, 0 < j -> vlookup results j = Some r -> r = untouched \/
    exists k ts s id w, k < i /\ recorded results k ts s /\ boundary k /\ edge k j id w /\ r = mkBest id k (dadd fo s w);
  sr_best : forall k j id w rk rj, boundary k -> k < i -> edge k j id w -> vlookup results k = Some rk -> vlookup results j = Some rj ->
    dlt fo (bt_score_sum rj) (dadd fo (bt_score_sum rk) w) = false }.

(** sums of scores stay above the least double *)
Hypothesis above_lowest : forall j ts s, tokenization j ts s -> dlt fo (dlowest fo) s = true.

Lemma updated_low i b results results' m : boundary i -> i < len -> updated i b (edge i) results results' -> m <= i -> vlookup results' m = vlookup results m.
Proof.
  intros Hb Hi [L U] Hm. destruct (vlookup results m) as [r |] eqn:E.
  - destruct (U m r E) as (r' & -> & _ & [-> | (id & w & He & _)] & _); [done |]. apply edge_forward in He; [lia | done | done].
  - destruct (vlookup results' m) eqn:E'; [| done]. apply vlookup_Some_range in E'. rewrite L in E'. apply vlookup_lt_is_Some in E' as [? ?]. congruence.
Qed.
Lemma some_edge i : boundary i -> i < len -> exists id w, edge i (i + char_len i) id w.
Proof.
  intros Hb Hi. apply boundary_range in Hb. pose proof (char_len_pos i ltac:(lia)). destruct (token_at i (i + char_len i)) as [id |] eqn:E.
  - destruct (ids_known _ _ E) as [d Ed]. exists id, (ugm_score fo d). eapply edge_token; [lia | done | done | done].
  - do 2 eexists. by apply edge_unknown.
Qed.
Section Round.
Context (i : Z) (results results' : list best) (ts : list Z) (b : D).
Context (Hs : searched i results) (Hi : i < len) (Hr : recorded results i ts b) (HU : updated i b (edge i) results results').
Lemma round_entry j r : 0 < j -> vlookup results' j = Some r -> r = untouched \/
  exists k ts s id w, k < i + char_len i /\ recorded results' k ts s /\ boundary k /\ edge k j id w /\ r = mkBest id k (dadd fo s w).
Proof.
  intros Hj Hl. pose proof (sr_boundary _ _ Hs) as Hb. pose proof (boundary_range i Hb). pose proof (char_len_pos i ltac:(lia)). apply vlookup_Some_range in Hl as Hrange. rewrite (proj1 HU) in Hrange.
  destruct (vlookup_lt_is_Some results j Hrange) as [r0 E0]. destruct (proj2 HU j r0 E0) as (r' & E' & _ & Ho & _). rewrite Hl in E'. injection E' as <-.
  assert (K : forall k ts s, k <= i -> recorded results k ts s -> recorded results' k ts s) by (intros k ts' s' Hk; apply recorded_keep; intros m Hm; eapply updated_low; [done | done | exact HU | lia]).
  destruct Ho as [-> | (id & w & He & ->)].
  - destruct (sr_entry _ _ Hs j r0 Hj E0) as [-> | (k & ts' & s & id & w & Hk & R & Hbk & He & ->)]; [by left | right]. exists k, ts', s, id, w. split; [lia |]. split; [apply K; [lia | done] |]. done.
  - right. exists i, ts, b, id, w. split; [lia |]. split; [by apply K |]. done.
Qed.
Lemma round_searched : searched (i + char_len i) results'.
Proof.
  pose proof (sr_boundary _ _ Hs) as Hb. pose proof (boundary_range i Hb). pose proof (char_len_pos i ltac:(lia)).
  assert (low : forall m, m <= i -> vlookup results' m = vlookup results m) by (intros m Hm; by eapply updated_low).
  split.
  - rewrite (proj1 HU). apply (sr_len _ _ Hs).
  - rewrite low by lia. apply (sr_start _ _ Hs).
  - by constructor.
  - intros j Hbj Hj. destruct (Z.le_gt_cases j i) as [Hji | Hji].
    + destruct (sr_reached _ _ Hs j Hbj Hji) as (ts' & s & R). exists ts', s. eapply recorded_keep; [| exact R]. intros m Hm. apply low. lia.
    + assert (j = i + char_len i) as -> by (pose proof (boundary_between i j Hb Hbj Hji); lia). destruct (some_edge i Hb Hi) as (id & w & He).
      destruct (vlookup_lt_is_Some results (i + char_len i)) as [r0 E0]; [rewrite (sr_len _ _ Hs); lia |]. destruct (proj2 HU _ r0 E0) as (r & E & _ & _ & Hbest). specialize (Hbest id w He).
      destruct (round_entry (i + char_len i) r ltac:(lia) E) as [-> | (k & ts' & s & id' & w' & Hk & R & Hbk & He' & ->)].
      * exfalso. simpl in Hbest. rewrite (above_lowest (i + char_len i) (ts ++ [id])) in Hbest; [done |]. eapply tokenization_edge; [by eapply recorded_tokenization | done | done | done].
      * exists (ts' ++ [id']), (dadd fo s w'). eapply recorded_edge; [exact R | done | lia | exact He' | done].
  - apply round_entry.
  - intros k j id w rk rj Hbk Hk He Hrk Hrj. apply edge_forward in He as Hf; [| done | lia]. assert (Hki : k <= i).
    { destruct (Z.le_gt_cases k i); [done |]. pose proof (boundary_between i k Hb Hbk ltac:(lia)). lia. }
    rewrite low in Hrk by done. destruct (vlookup_lt_is_Some results j) as [r0 E0]; [apply vlookup_Some_range in Hrj; by rewrite <- (proj1 HU) |].
    destruct (proj2 HU j r0 E0) as (r & E & Hge & _ & Hbest). rewrite Hrj in E. injection E as <-. destruct (Z.eq_dec k i) as [-> | Hne].
    + destruct (recorded_score _ _ _ _ Hr) as (ri & Eri & Es). rewrite Hrk in Eri. injection Eri as <-. rewrite Es. by apply (Hbest id).
    + eapply dlt_neg_trans; [exact Hge |]. eapply (sr_best _ _ Hs k j); [done | lia | done | done | done].
Qed.
End Round.

Lemma ugm_loop_ok fuel i results : searched i results -> (Z.to_nat (len - i) <= fuel)%nat -> exists results', ugm_loop fo vocab tokenizer fuel normalized i results = Ok results' /\ searched len results'.
Proof.
  revert i results. induction fuel as [| fuel IH]; intros i results Hs Hf; pose proof (sr_boundary _ _ Hs) as Hb; pose proof (boundary_range i Hb) as Hi; cbn [ugm_loop].
  { rewrite (proj2 (Z.leb_le _ _)) by lia. exists results. split; [done |]. by replace len with i by lia. }
  destruct (Z.leb_spec len i); [exists results; split; [done |]; by replace len with i by lia |].
  destruct (vlookup_lt_is_Some normalized i ltac:(lia)) as [c Ec]. rewrite (proj2 (vget_Ok _ _ _) Ec). cbn [rbind]. destruct (sr_reached _ _ Hs i Hb ltac:(lia)) as (ts & b & R).
  destruct (recorded_score _ _ _ _ R) as (ri & Eri & Es). rewrite (proj2 (vget_Ok _ _ _) Eri). cbn [rbind]. rewrite Es.
  assert (En : Z.min (unicode_len_utf8 c) (len - i) = char_len i) by (unfold char_len; by rewrite Ec). rewrite En. pose proof (char_len_pos i ltac:(lia)) as Hn. pose proof (sr_len _ _ Hs) as Hl.
  destruct (ugm_match_ok (S (length normalized)) i (char_len i) b (traverse c (token_matcher tokenizer)) (i + 1) false results) as (found & r1 & -> & U1 & Ef); [lia | done | unfold Zlen; lia | |].
  { intros _. rewrite (slice_one i c Ec). simpl. by destruct (traverse c (token_matcher tokenizer)). }
  cbn [rbind]. simpl in Ef. assert (G : exists r2, (if found then Ok r1 else challenge fo r1 (i + char_len i) (mkBest unk i (dadd fo b (dbl fo (unknown_token_score tokenizer))))) = Ok r2 /\ updated i b (edge i) results r2).
  { destruct found.
    - symmetry in Ef. apply bool_decide_eq_true in Ef as [_ [x Hx] ]. exists r1. split; [done |]. eapply updated_ext; [| exact U1]. intros j id w. split.
      + intros (Hj & Ht & d & Hd & ->). eapply edge_token; [lia | done | done | done].
      + intros [d Hj Ht Hd -> | -> Hno _ _]; [| congruence]. split; [lia |]. split; [done | by exists d].
    - symmetry in Ef. apply bool_decide_eq_false in Ef. destruct (challenge_ok i b r1 (i + char_len i) unk (dbl fo (unknown_token_score tokenizer))) as (r2 & E2 & U2); [rewrite (proj1 U1); lia |].
      exists r2. split; [exact E2 |]. eapply updated_ext; [| exact (updated_trans _ _ _ _ _ _ _ U1 U2)]. intros j id w. split.
      + intros [(Hj & Ht & d & Hd & ->) | (-> & -> & ->)]; [eapply edge_token; [lia | done | done | done] |]. apply edge_unknown; try done.
        destruct (token_at i (i + char_len i)) eqn:E; [| done]. exfalso. apply Ef. split; [lia | by eexists].
      + intros [d Hj Ht Hd -> | -> Hno -> ->]; [left; split; [lia |]; split; [done | by exists d] | by right]. }
  destruct G as (r2 & -> & U). cbn [rbind]. apply IH; [| lia]. by eapply round_searched.
Qed.
Lemma searched_start : searched 0 (mkBest unk 0 (dzero fo) :: replicate (length normalized) untouched).
Proof.
  split.
  - unfold Zlen. simpl. rewrite length_replicate. lia.
  - done.
  - constructor.
  - intros j Hb Hj. apply boundary_range in Hb. replace j with 0 by lia. do 2 eexists. by constructor.
  - intros j r Hj Hr. left. change (mkBest unk 0 (dzero fo) :: replicate (length normalized) untouched) with ([mkBest unk 0 (dzero fo)] ++ replicate (length normalized) untouched) in Hr.
    rewrite vlookup_app_r in Hr by (change (Zlen [mkBest unk 0 (dzero fo)]) with 1; lia). apply vlookup_elem_of, elem_of_replicate in Hr as [-> _]. done.
  - intros k j id w rk rj Hb Hk. apply boundary_range in Hb. lia.
Qed.
Lemma searched_best results j ts s r : searched len results -> tokenization j ts s -> vlookup results j = Some r -> dlt fo (bt_score_sum r) s = false.
Proof.
  intros Hs Ht. revert r. induction Ht as [| i j ts s id w Ht IH Hb Hi He]; intros r Hr.
  - rewrite (sr_start _ _ Hs) in Hr. injection Hr as <-. by apply dlt_irrefl.
  - destruct (vlookup_lt_is_Some results i) as [ri Eri]; [apply boundary_range in Hb; rewrite (sr_len _ _ Hs); lia |].
    eapply dlt_neg_trans; [by eapply (sr_best _ _ Hs i j) |]. by apply dadd_mono, IH.
Qed.

(** ** Reading the path back *)
Fixpoint unknown_once (prev : bool) (ts : list Z) : list Z :=
  match ts with [] => [] | t :: ts => (if prev && (t =? unk) then [] else [t]) ++ unknown_once (t =? unk) ts end.
Lemma backtrack_ok fuel results results' k ts s prev output : recorded results k ts s -> 0 < k <= len -> (length ts <= fuel)%nat -> Zlen results' = len + 1 ->
  (forall m, m < len -> vlookup results' m = vlookup results m) -> vlookup results' len = vlookup results k ->
  backtrack vocab fuel results' len prev output = Ok (output ++ unknown_once prev (rev ts)).
Proof.
  intros R. revert fuel results' prev output. induction R as [H0 | k j ts s id w R IH Hb Hk He Hl]; intros fuel results' prev output Hj Hf Hlen Hlow Htop; [lia |].
  rewrite length_app in Hf. simpl in Hf. destruct fuel as [| fuel]; [lia |]. cbn [backtrack]. rewrite Hl in Htop. rewrite (proj2 (vget_Ok _ _ _) Htop). cbn [rbind bt_token_id bt_input_offset].
  rewrite rev_app_distr. cbn [rev app unknown_once]. apply edge_forward in He as Hf'; [| done | done].
  assert (Eo : forall o, (if prev && (id =? unk) then output else output ++ [id]) ++ o = output ++ (if prev && (id =? unk) then [] else [id]) ++ o).
  { intros o. destruct (prev && (id =? unk)); [done |]. by rewrite <- app_assoc. }
  destruct (Z.eqb_spec k 0) as [-> | Hk0].
  - assert (ts = []) as ->. { destruct ts as [| t ts]; [done |]. exfalso. apply recorded_tokenization, tokenization_range in R as [_ R]. simpl in R. lia. }
    simpl. rewrite <- Eo. by rewrite !app_nil_r.
  - pose proof (boundary_range k Hb). destruct (recorded_score _ _ _ _ R) as (rk & Erk & _). rewrite (proj2 (vget_Ok results' k rk)) by (rewrite Hlow by lia; done). cbn [rbind]. rewrite vset_Ok by lia. cbn [rbind].
    rewrite (IH fuel (vinsert len rk results')); [by rewrite Eo | lia | lia | by rewrite Zlen_vinsert | |].
    + intros m Hm. rewrite vlookup_vinsert_ne by lia. by apply Hlow.
    + rewrite vlookup_vinsert_eq by lia. done.
Qed.
End Search.

(** * The UGM session finds a best tokenization *)

(** a run of unknown tokens is the same from both ends *)
Lemma unknown_once_snoc {F : Type} (vocab : Vocab F) prev ts t :
  unknown_once vocab prev (ts ++ [t]) = unknown_once vocab prev ts ++ (if default prev ((fun x => x =? special_unk_id vocab) <$> last ts) && (t =? special_unk_id vocab) then [] else [t]).
Proof.
  revert prev. induction ts as [| x ts IH]; intros prev; [simpl; by rewrite app_nil_r |]. cbn [app unknown_once]. rewrite IH, <- app_assoc.
  assert (E : default prev ((fun x => x =? special_unk_id vocab) <$> last (x :: ts)) = default (x =? special_unk_id vocab) ((fun x => x =? special_unk_id vocab) <$> last ts)); [| by rewrite E].
  destruct ts as [| y ts]; [done |]. rewrite last_cons_cons. destruct (last (y :: ts)) eqn:E; [done |]. by apply last_None in E.
Qed.
Lemma unknown_once_rev {F : Type} (vocab : Vocab F) ts : rev (unknown_once vocab false (rev ts)) = unknown_once vocab false ts.
Proof.
  induction ts as [| t ts IH]; [done |]. simpl rev. rewrite unknown_once_snoc, rev_app_distr, IH. destruct ts as [| u ts]; [done |].
  simpl rev. rewrite last_snoc. simpl. destruct (Z.eqb_spec u (special_unk_id vocab)) as [-> | Hu], (Z.eqb_spec t (special_unk_id vocab)) as [-> | Ht]; done.
Qed.

(** ** The trie holds tokens of the vocabulary *)
Lemma add_tokens_value {F D : Type} (fo : float_ops F D) (toks : list (token_data F)) id ms m u s i :
  value_at (add_tokens fo toks id ms m u).1.2 s = Some i -> value_at m s = Some i \/ exists d, vlookup toks (i - id) = Some d /\ t_text d = s.
Proof.
  revert id ms m u. induction toks as [| d toks IH]; intros id ms m u H; [by left |]. cbn [add_tokens] in H. apply IH in H as [H | (e & He & Et)].
  - destruct (_ || _ || _); [| by left]. rewrite value_at_insert in H. case_bool_decide as E; [| by left]. injection H as <-. right. exists d. by rewrite Z.sub_diag.
  - right. exists e. split; [| done]. apply vlookup_Some_range in He as Hr. change (d :: toks) with ([d] ++ toks). rewrite vlookup_app_r by (change (Zlen [d]) with 1; lia).
    change (Zlen [d]) with 1. by replace (i - id - 1) with (i - (id + 1)) by lia.
Qed.
Lemma matcher_ids {F D : Type} (fo : float_ops F D) (vocab : Vocab F) tokenizer s id : new_ugm fo vocab = Ok tokenizer -> value_at (token_matcher tokenizer) s = Some id -> is_Some (vlookup (id_to_token vocab) id).
Proof.
  intros H Hv. apply bind_Ok in H as ([x r] & _ & H). destruct (add_tokens fo (id_to_token vocab) 0 (flt_max fo) empty_trie empty_trie) as [ [ms m] u] eqn:E. injection H as <-. simpl in Hv.
  pose proof (add_tokens_value fo (id_to_token vocab) 0 (flt_max fo) empty_trie empty_trie s id) as G. rewrite E in G. destruct (G Hv) as [H | (d & Hd & _)]; [by rewrite value_at_empty in H |].
  rewrite Z.sub_0_r in Hd. by exists d.
Qed.

(** ** Normalizing keeps bytes *)
Section Bytes.
Context {F D : Type} (fo : float_ops F D) (vocab : Vocab F) (tokenizer : @llm_tokenizer_ugm F).
Lemma c_string_bytes s r : c_string s = Ok r -> Forall is_byte s -> Forall is_byte r.
Proof.
  revert r. induction s as [| c s IH]; intros r H Hb; [done |]. cbn [c_string] in H. apply Forall_cons in Hb as [Hc Hb]. destruct (c =? 0); [injection H as <-; constructor |].
  apply bind_Ok in H as (r' & H' & [= <-]). constructor; [done | by apply IH].
Qed.
Lemma normalize_prefix_bytes rest r n : Forall is_byte (prefix_replacements tokenizer) -> Forall is_byte rest -> normalize_prefix tokenizer rest = Ok (r, n) -> Forall is_byte r.
Proof.
  intros Hp Hb H. unfold normalize_prefix in H. destruct rest as [| c rest']; [injection H as <- _; constructor |]. set (rest := c :: rest') in *. clearbody rest.
  destruct (0 <? get_longest_prefix rest (user_defined_token_matcher tokenizer) 0); [injection H as <- _; by apply Forall_take |]. apply bind_Ok in H as ([l o] & _ & H).
  destruct (0 <? l).
  - destruct (_ <=? _); [done |]. apply bind_Ok in H as (r' & H & [= <- _]). by eapply c_string_bytes, Forall_drop.
  - destruct (unicode_cpt_from_utf8 rest) as [ [x k] | [] ]; try done; injection H as <- _; [by apply Forall_take | apply (bool_decide_unpack _); by vm_compute].
Qed.
Lemma ws_space_bytes : Forall is_byte (ws_space vocab).
Proof. unfold ws_space. destruct (escape_whitespaces vocab); apply (bool_decide_unpack _); by vm_compute. Qed.
Lemma norm_byte_bytes c st : is_byte c -> Forall is_byte st.1.1 -> Forall is_byte (norm_byte vocab st c).1.1.
Proof.
  intros Hc. destruct st as [ [n b1] b2]. intros Hn. simpl in Hn. pose proof ws_space_bytes as Hs. unfold norm_byte.
  assert (H1 : Forall is_byte [c]) by (by apply Forall_singleton). assert (H2 : Forall is_byte (n ++ [c])) by (by apply Forall_app). assert (H3 : Forall is_byte (n ++ ws_space vocab ++ [c])) by (rewrite !Forall_app; done).
  assert (H4 : Forall is_byte (n ++ ws_space vocab)) by (by apply Forall_app).
  destruct (negb (c =? ch " ")); [destruct (negb b2 && ((negb (treat_whitespace_as_suffix vocab) && add_space_prefix vocab && negb b1) || remove_extra_whitespaces vocab)) |]; try done. by destruct (remove_extra_whitespaces vocab).
Qed.
Lemma norm_bytes r st : Forall is_byte r -> Forall is_byte st.1.1 -> Forall is_byte (foldl (norm_byte vocab) st r).1.1.
Proof. intros Hr. revert st. induction Hr as [| c r Hc _ IH]; intros st Hn; [done |]. apply IH. by apply norm_byte_bytes. Qed.
Lemma normalize_bytes text normalized : Forall is_byte (prefix_replacements tokenizer) -> Forall is_byte text -> normalize_text vocab tokenizer text = Ok normalized -> Forall is_byte normalized.
Proof.
  intros Hp Ht H. unfold normalize_text in H. apply bind_Ok in H as ([ [n b1] b2] & H & [= <-]). assert (Hn : Forall is_byte n).
  { change n with ((n, b1, b2).1.1). assert (Ha : Forall is_byte (([], false, false) : norm_state).1.1) by constructor. revert H Ha Ht. generalize (([], false, false) : norm_state) as st. generalize (length text) as fuel.
    intros fuel. revert text. induction fuel as [| fuel IH]; intros text st H Ha Ht; destruct text as [| c text']; try (by injection H as <-); [done |]. cbn [normalize_loop] in H.
    apply bind_Ok in H as ([r k] & Hr & H). eapply IH; [exact H | | by apply Forall_drop]. apply norm_bytes; [by eapply normalize_prefix_bytes | done]. }
  destruct (_ && _); [| done]. apply Forall_app. split; [done | apply ws_space_bytes].
Qed.
End Bytes.
Lemma new_ugm_bytes {F D : Type} (fo : float_ops F D) (vocab : Vocab F) tokenizer : Forall is_byte (precompiled_charsmap vocab) -> new_ugm fo vocab = Ok tokenizer -> Forall is_byte (prefix_replacements tokenizer).
Proof.
  intros Hb H. apply bind_Ok in H as ([x r] & Hl & H). destruct (add_tokens _ _ _ _ _ _) as [ [ms m] u]. injection H as <-. simpl. unfold load_charsmap in Hl.
  destruct (precompiled_charsmap vocab) as [| c l] eqn:E; [injection Hl as <- <-; constructor |]. destruct (words32 1 (c :: l)) as [| w [| ? ?] ]; try done. destruct (_ <=? _); [| done]. injection Hl as _ <-. by apply Forall_drop.
Qed.

(** ** Normalizing ends *)
Section Ends.
Context {F D : Type} (fo : float_ops F D) (vocab : Vocab F) (tokenizer : @llm_tokenizer_ugm F).
Lemma get_node_safe i : safe (fun _ => True) (get_node tokenizer i).
Proof. unfold get_node. by destruct (vlookup _ _). Qed.
Lemma xcda_walk_safe s n c l o : safe (fun _ => True) (xcda_walk tokenizer s n c l o).
Proof.
  revert n c l o. induction s as [| x s IH]; intros n c l o; cbn [xcda_walk]; [done |]. destruct (x =? 0); [done |]. unfold get_lcheck, get_leaf, get_base, get_value.
  pose proof (get_node_safe (Z.lxor n x)) as G. destruct (get_node tokenizer (Z.lxor n x)) as [w |]; [cbn [rbind] | done]. destruct (negb _); [done |]. destruct (Z.land _ 1 =? 1); [| apply IH].
  match goal with |- context [get_node tokenizer ?k] => pose proof (get_node_safe k) as G'; destruct (get_node tokenizer k) as [w' |]; [cbn [rbind] | done] end. apply IH.
Qed.
Lemma c_string_safe s : safe (fun _ => True) (c_string s).
Proof. induction s as [| c s IH]; cbn [c_string]; [done |]. destruct (c =? 0); [done |]. by destruct (c_string s). Qed.
Lemma cpt_size s c n : unicode_cpt_from_utf8 s = Ok (c, n) -> 1 <= n.
Proof.
  unfold unicode_cpt_from_utf8, invalid. intros H. apply bind_Ok in H as (b & _ & H).
  repeat (match type of H with context [if ?x then _ else _] => destruct x end); first [discriminate H | injection H as _ <-; lia].
Qed.
Lemma cpt_safe c s : safe (fun _ => True) (unicode_cpt_from_utf8 (c :: s)).
Proof. unfold unicode_cpt_from_utf8, invalid. change (vget (c :: s) 0) with (Ok c : res Z). cbn [rbind]. repeat case_match; done. Qed.
Lemma normalize_prefix_safe c s : safe (fun p => 1 <= p.2) (normalize_prefix tokenizer (c :: s)).
Proof.
  unfold normalize_prefix. destruct (Z.ltb_spec 0 (get_longest_prefix (c :: s) (user_defined_token_matcher tokenizer) 0)) as [Hu | Hu]; [unfold safe, snd; lia |].
  eapply safe_bind with (P := fun _ => True).
  - destruct (xcda_array tokenizer) eqn:E; [done |]. eapply safe_bind with (P := fun _ => True); [| intros; apply xcda_walk_safe].
    unfold get_base. pose proof (get_node_safe 0). by destruct (get_node tokenizer 0).
  - intros [l o] _. destruct (Z.ltb_spec 0 l).
    + destruct (_ <=? _); [done |]. eapply safe_bind; [apply c_string_safe |]. intros r _. simpl. lia.
    + pose proof (cpt_safe c s) as G. destruct (unicode_cpt_from_utf8 (c :: s)) as [ [x n] | [] ] eqn:E; try done. simpl. by eapply cpt_size.
Qed.
Lemma normalize_safe text : safe (fun _ => True) (normalize_text vocab tokenizer text).
Proof.
  unfold normalize_text. eapply safe_bind with (P := fun _ => True); [| by intros [ [? ?] ?] ].
  generalize (([], false, false) : norm_state) as st. assert (H : (length text <= length text)%nat) by lia. revert H. generalize (length text) at 2 3 as fuel.
  intros fuel. revert text. induction fuel as [| fuel IH]; intros text Hf st; (destruct text as [| c text]; [done |]); simpl in Hf; [lia |]. cbn [normalize_loop].
  eapply safe_bind; [apply normalize_prefix_safe |]. intros [r n] Hn. simpl in Hn. apply IH. rewrite length_drop. simpl. lia.
Qed.
End Ends.

(** C33: the UGM session normalizes a text without ever reading out of range or looping, and then
    finds a tokenization of the normalized text whose sum of scores no other tokenization exceeds
    (the characters that are not tokens themselves may become unknown tokens); the tokens it gives
    are those, with every run of unknown tokens written once.  This needs nothing of double
    arithmetic but that < orders the sums, that adding the same double to both keeps the order, and
    that no sum reaches -DBL_MAX. *)
Theorem ugm_finds_best {F D : Type} (fo : float_ops F D) `{!DoubleLaws fo} (vocab : Vocab F) tokenizer (text : list Z) :
  new_ugm fo vocab = Ok tokenizer -> Forall is_byte text -> Forall is_byte (precompiled_charsmap vocab) ->
  safe (fun normalized => normalized <> [] ->
      (forall j ts s, tokenization fo vocab tokenizer normalized j ts s -> dlt fo (dlowest fo) s = true) -> forall output,
      exists ts s, tokenization fo vocab tokenizer normalized (Zlen normalized) ts s /\
        (forall ts' s', tokenization fo vocab tokenizer normalized (Zlen normalized) ts' s' -> dlt fo s s' = false) /\
        ugm_tokenize fo vocab tokenizer text output = Ok (output ++ unknown_once vocab false ts))
    (normalize_text vocab tokenizer text).
Proof.
  intros Ht Hb Hc. pose proof (normalize_safe vocab tokenizer text) as Hsafe. destruct (normalize_text vocab tokenizer text) as [normalized | e] eqn:En; [| by destruct e]. intros Hne Habove output.
  assert (Hbytes : Forall is_byte normalized) by (exact (normalize_bytes vocab tokenizer text normalized (new_ugm_bytes fo vocab tokenizer Hc Ht) Hb En)).
  assert (Hids : forall s id, value_at (token_matcher tokenizer) s = Some id -> is_Some (vlookup (id_to_token vocab) id)) by (intros s id; by eapply matcher_ids).
  pose proof (searched_start fo vocab tokenizer normalized Hbytes) as S0. destruct (ugm_loop_ok fo vocab tokenizer normalized Hbytes Hids Habove (length normalized) 0 _ S0) as (results & El & Hs); [unfold Zlen; lia |].
  destruct (sr_reached _ _ _ _ _ _ Hs (Zlen normalized) (sr_boundary _ _ _ _ _ _ Hs) ltac:(lia)) as (ts & s & R). exists ts, s. split; [by eapply recorded_tokenization |]. split.
  - intros ts' s' Ht'. destruct (recorded_score _ _ _ _ _ _ _ _ R) as (r & Er & <-). by eapply searched_best.
  - unfold ugm_tokenize. rewrite En. cbn [rbind]. destruct normalized as [| c n0] eqn:Ec; [done |]. rewrite <- Ec in *. cbv zeta. unfold untouched in El. rewrite El. cbn [rbind].
    pose proof (tokenization_range fo vocab tokenizer normalized Hbytes _ _ _ (recorded_tokenization _ _ _ _ _ _ _ _ R)) as [_ Hl].
    rewrite (backtrack_ok fo vocab tokenizer normalized Hbytes (length normalized) results results (Zlen normalized) ts s false [] R); [| | unfold Zlen in Hl; lia | apply (sr_len _ _ _ _ _ _ Hs) | done | done].
    + cbn [rbind]. simpl app. by rewrite unknown_once_rev.
    + assert (0 < Zlen normalized) by (rewrite Ec, Zlen_cons; pose proof (Zlen_nonneg n0); lia). lia.
Qed.

(** integers as scores *)
Definition Z_floats : float_ops Z Z := mkFloats _ _ Z.ltb 1000 (fun x => x - 10) (fun x => x) 0 Z.add Z.ltb (- 10 ^ 6).
#[local] Instance Z_double_laws : DoubleLaws Z_floats.
Proof. split; simpl; intros a b; [| intros c | intros w]; rewrite ?Z.ltb_lt, ?Z.ltb_ge; lia. Qed.
Definition ugm_vocab (words : list (list Z * Z * option Z)) : Vocab Z :=
  let t := match load_tables words with Ok t => t | Err _ => (∅, []) end in plain_vocab VT_UGM t.1 t.2 ∅.
Definition ab_vocab : Vocab Z := ugm_vocab [(bytes "a", -2, Some 1); (bytes "b", -3, Some 1); (bytes "ab", -4, Some 1)].
Definition ugm_of (vocab : Vocab Z) : @llm_tokenizer_ugm Z :=
  match new_ugm Z_floats vocab with Ok t => t | Err _ => mkUgm [] [] empty_trie empty_trie 0 end.
Lemma ab_sums text j ts s : Forall is_byte text -> tokenization Z_floats ab_vocab (ugm_of ab_vocab) text j ts s -> - 20 * Z.of_nat (length ts) <= s.
Proof.
  intros Hb. induction 1 as [| i j ts s id w H IH Hbi Hi He]; [done |]. rewrite length_app. change (dadd Z_floats s w) with (s + w). simpl. enough (-20 <= w) by lia.
  destruct He as [d _ _ Hd -> | _ _ _ ->]; [| by vm_compute]. apply vlookup_elem_of in Hd. assert (G : Forall (fun d => -20 <= ugm_score Z_floats d) (id_to_token ab_vocab)) by (apply (bool_decide_unpack _); by vm_compute).
  by apply (proj1 (Forall_forall _ _) G).
Qed.
Lemma ugm_finds_best_witness : exists ts s,
  tokenization Z_floats ab_vocab (ugm_of ab_vocab) (bytes "abcc") 4 ts s /\
  (forall ts' s', tokenization Z_floats ab_vocab (ugm_of ab_vocab) (bytes "abcc") 4 ts' s' -> (s <? s') = false) /\
  ugm_tokenize Z_floats ab_vocab (ugm_of ab_vocab) (bytes "abcc") [] = Ok ([] ++ unknown_once ab_vocab false ts).
Proof.
  assert (Hb : Forall is_byte (bytes "abcc")) by (apply (bool_decide_unpack _); by vm_compute).
  assert (Ht : new_ugm Z_floats ab_vocab = Ok (ugm_of ab_vocab)) by (vm_compute; reflexivity).
  pose proof (ugm_finds_best Z_floats ab_vocab (ugm_of ab_vocab) (bytes "abcc") Ht Hb ltac:(constructor)) as H.
  assert (En : normalize_text ab_vocab (ugm_of ab_vocab) (bytes "abcc") = Ok (bytes "abcc")) by (vm_compute; reflexivity). rewrite En in H. apply H; [done |].
  intros j ts s Hs. pose proof (ab_sums _ _ _ _ Hb Hs). destruct (tokenization_range _ _ _ _ Hb _ _ _ Hs) as [Hj Hl]. change (Zlen (bytes "abcc")) with 4 in Hj. simpl. apply Z.ltb_lt. lia.
Defined.

(** A text that only starts like a user-defined token is taken as if it was one: with the
    user-defined token é (C3 A9) the character è (C3 A8) loses its first byte to that token, its
    second byte is replaced by U+FFFD, and the result is not UTF-8 any more. *)
Theorem user_defined_prefix_breaks_characters :
  let vocab := ugm_vocab [(bytes "a", -2, Some 1); ([0xC3; 0xA9], 0, Some 4)] in
  new_ugm Z_floats vocab = Ok (ugm_of vocab) /\ unicode_cpts_from_utf8 [0xC3; 0xA8] = Ok [0xE8] /\
  normalize_text vocab (ugm_of vocab) [0xC3; 0xA8] = Ok [0xC3; 0xEF; 0xBF; 0xBD] /\ unicode_cpt_from_utf8 [0xC3; 0xEF; 0xBF; 0xBD] = invalid.
Proof. vm_compute. repeat split. Qed.
