(* ===== verification/Wpm.v ===== *)
(** * The WPM session (llm_tokenizer_wpm_session, src/iian/tokenizer/vocab.cpp)

    The text is normalized and divided into words; every word, with a mark before it, is covered by
    the longest tokens from left to right, or becomes the unknown token. *)

From S2P Require Import Prelude Text Unicode UnicodeFacts SplitRegex UnicodeProps Vocab Pieces Rwkv.

(** ** preprocess *)
Section Preprocess.
Context (D : unicode_data) (lower strip : bool).

Definition is_chinese_char (cpt : Z) : bool :=
  within 0x04E00 0x09FFF cpt || within 0x03400 0x04DBF cpt || within 0x20000 0x2A6DF cpt || within 0x2A700 0x2B73F cpt ||
  within 0x2B740 0x2B81F cpt || within 0x2B920 0x2CEAF cpt || within 0x0F900 0x0FAFF cpt || within 0x2F800 0x2FA1F cpt.

(** [words] is kept as the words before the last one and the last one *)
Definition words_state : Type := list (list Z) * list Z.
(** finish the previous word if any *)
Definition finish_word (st : words_state) : words_state :=
  let '(words, back) := st in match back with [] => st | _ => (words ++ [back], []) end.
Definition preprocess_cpt (cpt : Z) (st : words_state) : res words_state :=
  let flags := unicode_cpt_flags_from_cpt D cpt in
  if is_whitespace flags then Ok (finish_word st)
  else if is_separator flags then Err (UB "assertion failed")
  else if (cpt =? 0) || (cpt =? 0xFFFD) || is_control flags then Ok st
  else if strip && is_accent_mark flags then Ok st
  else
    let! s := unicode_cpt_to_utf8 (if lower then unicode_tolower D cpt else cpt) in
    if is_punctuation flags || ((cpt <? 0x7F) && is_symbol flags) || is_chinese_char cpt then
      let '(words, _) := finish_word st in Ok (words ++ [s], [])
    else let '(words, back) := st in Ok (words, back ++ s).
Fixpoint preprocess_loop (cpts : list Z) (st : words_state) : res words_state :=
  match cpts with
  | [] => Ok st
  | cpt :: cpts => let! st := preprocess_cpt cpt st in preprocess_loop cpts st
  end.
Definition preprocess (text : list Z) : res (list (list Z)) :=
  let! cpts := unicode_cpts_from_utf8 text in
  let! cpts := (if strip then unicode_cpts_normalize_nfd D cpts else Ok cpts) in
  let! (words, back) := preprocess_loop cpts ([], []) in
  Ok (match back with [] => words | _ => words ++ [back] end).
End Preprocess.

(** ** tokenize *)
Section Wpm.
Context {F : Type} (vocab : Vocab F) (D : unicode_data).

(** the lengths from [j] down to [i + 1] *)
Fixpoint wpm_match (fuel : nat) (word1 : list Z) (i j : Z) : option (Z * Z) :=
  match fuel with
  | O => None
  | S fuel =>
      if j <=? i then None
      else
        let id := text_to_token vocab (vslice word1 i (j - i)) in
        if negb (id =? TOKEN_NULL) then Some (id, j) else wpm_match fuel word1 i (j - 1)
  end.
(** [None]: some position has no match *)
Fixpoint wpm_word (fuel : nat) (word1 : list Z) (i : Z) (output : list Z) : res (option (list Z)) :=
  if Zlen word1 <=? i then Ok (Some output) else
  match fuel with
  | O => Err Fuel
  | S fuel =>
      match wpm_match (length word1) word1 i (Z.min (Zlen word1) (i + max_token_len vocab + 1)) with
      | Some (id, j) => wpm_word fuel word1 j (output ++ [id])
      | None => Ok None
      end
  end.
Fixpoint wpm_words (words : list (list Z)) (output : list Z) : res (list Z) :=
  match words with
  | [] => Ok output
  | word :: words =>
      match word with
      | [] => wpm_words words output
      | _ =>
          let word1 := lower_block ++ word in
          let! r := wpm_word (length word1) word1 0 output in
          let out := default output r in
          wpm_words words (if Zlen output =? Zlen out then out ++ [special_unk_id vocab] else out)
      end
  end.
Definition wpm_tokenize (text output : list Z) : res (list Z) :=
  let! words := preprocess D (lowercase vocab) (strip_accents vocab) text in wpm_words words output.
End Wpm.

(** * The WPM session covers words with the longest tokens *)

(** ** The reference *)
Section Reference.
Context {F : Type} (vocab : Vocab F).
Definition wpm_tok (s : list Z) : option Z := let id := text_to_token vocab s in if id =? TOKEN_NULL then None else Some id.
(** the longest tokens one after the other, if they cover everything *)
Fixpoint cover (fuel : nat) (s : list Z) : option (list Z) :=
  match s, fuel with
  | [], _ => Some []
  | c :: s, S fuel =>
      match longest_from (fun x => wpm_tok (c :: x)) s (length s) with
      | Some (id, k) => cons id <$> cover fuel (drop k s)
      | None => None
      end
  | _, O => None
  end.
Definition word_tokens (word : list Z) : list Z := let s := lower_block ++ word in default [special_unk_id vocab] (cover (length s) s).

Lemma cover_more n s : (length s <= n)%nat -> cover n s = cover (length s) s.
Proof.
  remember (length s) as m eqn:Em. intros H. assert (Hm : (length s <= m)%nat) by lia. clear Em. revert n s Hm H. induction m as [| m IH]; intros n s Hm H.
  - destruct s; simpl in Hm; [| lia]. by destruct n.
  - destruct s as [| c s]; [by destruct n |]. destruct n as [| n]; [lia |]. cbn [cover]. destruct (longest_from _ s (length s)) as [ [id k] |]; [| done]. f_equal. simpl in Hm.
    apply IH; [rewrite length_drop; lia | lia].
Qed.

(** ** One word *)
Lemma wpm_match_ok fuel pre c s n : (n < fuel)%nat -> (n <= length s)%nat ->
  wpm_match vocab fuel (pre ++ c :: s) (Zlen pre) (Zlen pre + 1 + Z.of_nat n) =
    (fun '(id, k) => (id, Zlen pre + 1 + Z.of_nat k)) <$> longest_from (fun x => wpm_tok (c :: x)) s n.
Proof.
  revert fuel. induction n as [| n IH]; intros fuel Hf Hn; (destruct fuel as [| fuel]; [lia |]); cbn [wpm_match]; rewrite (proj2 (Z.leb_gt _ _)) by lia.
  all: assert (Es : forall k, vslice (pre ++ c :: s) (Zlen pre) (Zlen pre + 1 + Z.of_nat k - Zlen pre) = c :: take k s)
    by (intros k; unfold vslice, Zlen; rewrite Nat2Z.id, drop_app_length; by replace (Z.to_nat (Z.of_nat (length pre) + 1 + Z.of_nat k - Z.of_nat (length pre))) with (S k) by lia).
  all: rewrite Es; cbn [longest_from]; unfold wpm_tok at 1; cbv zeta; match goal with |- context [?x =? TOKEN_NULL] => destruct (Z.eqb_spec x TOKEN_NULL) as [E | E] end; [| done]; simpl negb; cbv iota.
  - destruct fuel as [| fuel]; [done |]. cbn [wpm_match]. by rewrite (proj2 (Z.leb_le _ _)) by lia.
  - replace (Zlen pre + 1 + Z.of_nat (S n) - 1) with (Zlen pre + 1 + Z.of_nat n) by lia. apply IH; lia.
Qed.
Lemma longest_skip tok s n m : (m <= n)%nat -> (forall k, (m < k <= n)%nat -> tok (take k s) = None) -> longest_from tok s n = longest_from tok s m.
Proof.
  intros Hm. induction n as [| n IH]; intros H; [by replace m with O by lia |]. destruct (decide (m = S n)) as [-> |]; [done |]. cbn [longest_from]. rewrite H by lia. apply IH; [lia |]. intros k Hk. apply H. lia.
Qed.

(** no token is longer than max_token_len *)
Definition lengths_known : Prop := 0 <= max_token_len vocab /\ forall s, text_to_token vocab s <> TOKEN_NULL -> Zlen s <= max_token_len vocab.
Lemma wpm_word_ok fuel pre s output : lengths_known -> (length s <= fuel)%nat ->
  wpm_word vocab fuel (pre ++ s) (Zlen pre) output = Ok (app output <$> cover fuel s).
Proof.
  intros [H0 HL]. revert pre s output. induction fuel as [| fuel IH]; intros pre s output Hf; cbn [wpm_word]; rewrite Zlen_app.
  { destruct s; simpl in Hf; [| lia]. rewrite Zlen_nil, (proj2 (Z.leb_le _ _)) by lia. simpl. by rewrite app_nil_r. }
  destruct s as [| c s]; [rewrite Zlen_nil, (proj2 (Z.leb_le _ _)) by lia; simpl; by rewrite app_nil_r |]. rewrite Zlen_cons. pose proof (Zlen_nonneg s). rewrite (proj2 (Z.leb_gt _ _)) by lia. simpl in Hf.
  set (n := Nat.min (length s) (Z.to_nat (max_token_len vocab))). replace (Z.min (Zlen pre + (1 + Zlen s)) (Zlen pre + max_token_len vocab + 1)) with (Zlen pre + 1 + Z.of_nat n) by (subst n; unfold Zlen; lia).
  rewrite wpm_match_ok by (subst n; rewrite ?length_app; simpl; lia). cbn [cover]. rewrite (longest_skip _ s (length s) n); [| lia |].
  2: { intros k Hk. unfold wpm_tok. destruct (Z.eqb_spec (text_to_token vocab (c :: take k s)) TOKEN_NULL) as [| E]; [done |]. apply HL in E. rewrite Zlen_cons in E. unfold Zlen in E. rewrite length_take in E. lia. }
  destruct (longest_from (fun x => wpm_tok (c :: x)) s n) as [ [id k] |] eqn:El; [| done]. apply longest_length in El.
  change ((fun '(id, k) => (id, Zlen pre + 1 + Z.of_nat k)) <$> Some (id, k)) with (Some (id, Zlen pre + 1 + Z.of_nat k)). cbv iota beta zeta.
  replace (Zlen pre + 1 + Z.of_nat k) with (Zlen (pre ++ c :: take k s)) by (rewrite Zlen_app, Zlen_cons; unfold Zlen; rewrite length_take; lia).
  replace (pre ++ c :: s) with ((pre ++ c :: take k s) ++ drop k s) by (rewrite <- app_assoc; simpl; by rewrite take_drop).
  rewrite IH by (rewrite length_drop; lia). destruct (cover fuel (drop k s)); simpl; [by rewrite <- app_assoc | done].
Qed.
Lemma cover_nonempty fuel c s ts : cover fuel (c :: s) = Some ts -> ts <> [].
Proof. destruct fuel; [done |]. cbn [cover]. destruct (longest_from _ _ _) as [ [id k] |]; [| done]. destruct (cover fuel (drop k s)); [| done]. simpl. by intros [= <-]. Qed.
Lemma wpm_words_ok words output : lengths_known -> Forall (fun w => w <> []) words ->
  wpm_words vocab words output = Ok (output ++ concat (word_tokens <$> words)).
Proof.
  intros HL Hw. revert output. induction Hw as [| word words Hne _ IH]; intros output; [simpl; by rewrite app_nil_r |]. destruct word as [| c word]; [done |].
  cbn [wpm_words]. pose proof (wpm_word_ok (length (lower_block ++ c :: word)) [] (lower_block ++ c :: word) output HL ltac:(done)) as E. rewrite Zlen_nil, app_nil_l in E. rewrite E. cbn [rbind].
  rewrite fmap_cons. cbn [concat]. unfold word_tokens at 1. cbv zeta. destruct (cover (length (lower_block ++ c :: word)) (lower_block ++ c :: word)) as [ts |] eqn:Ec.
  - simpl default. apply cover_nonempty in Ec. rewrite Zlen_app. rewrite (proj2 (Z.eqb_neq _ _)) by (destruct ts; [done | rewrite Zlen_cons; pose proof (Zlen_nonneg ts); lia]). rewrite IH. by rewrite <- app_assoc.
  - simpl default. rewrite Z.eqb_refl, IH. by rewrite <- app_assoc.
Qed.
End Reference.

(** ** The words are not empty *)
Lemma cpt_to_utf8_nonempty c s : unicode_cpt_to_utf8 c = Ok s -> s <> [].
Proof. unfold unicode_cpt_to_utf8. intros H. repeat (match type of H with context [if ?x then _ else _] => destruct x end); first [discriminate H | by injection H as <-]. Qed.
Lemma preprocess_nonempty D lower strip text words : preprocess D lower strip text = Ok words -> Forall (fun w => w <> []) words.
Proof.
  unfold preprocess. intros H. apply bind_Ok in H as (cpts & _ & H). apply bind_Ok in H as (cpts' & _ & H). apply bind_Ok in H as ([ws back] & H & [= <-]).
  assert (G : Forall (fun w => w <> []) ws).
  { assert (G0 : Forall (fun w : list Z => w <> []) (([], []) : words_state).1) by constructor. revert H G0. change ws with ((ws, back).1) at 2. generalize (([], []) : words_state) as st. generalize (ws, back) as st'.
    induction cpts' as [| c cs IH]; intros st' st H G; cbn [preprocess_loop] in H; [by injection H as <- |]. apply bind_Ok in H as (st1 & H1 & H). eapply IH; [exact H |]. clear IH H.
    assert (Gf : Forall (fun w => w <> []) (finish_word st).1) by (destruct st as [w [| x b] ]; simpl in *; [done |]; by apply Forall_app; split; [| apply Forall_singleton]).
    unfold preprocess_cpt in H1. destruct (is_whitespace _); [by injection H1 as <- |]. destruct (is_separator _); [done |]. destruct (_ || _ || _); [by injection H1 as <- |]. destruct (strip && _); [by injection H1 as <- |].
    apply bind_Ok in H1 as (s & Hs & H1). apply cpt_to_utf8_nonempty in Hs. destruct (_ || _ || _).
    - destruct (finish_word st) as [w b]. injection H1 as <-. simpl in *. apply Forall_app. by split; [| apply Forall_singleton].
    - destruct st as [w b]. by injection H1 as <-. }
  destruct back; [done |]. apply Forall_app. by split; [| apply Forall_singleton].
Qed.

(** C34: the WPM session gives for every word of the text the tokens that cover the mark and the
    word, each the longest one that fits (the limit max_token_len cuts off none), and the unknown
    token alone for a word that they do not cover; it fails only where dividing the text into words
    does. *)
Theorem wpm_longest_match {F : Type} (vocab : Vocab F) (D : unicode_data) (text output : list Z) : lengths_known vocab ->
  wpm_tokenize vocab D text output =
    let! words := preprocess D (lowercase vocab) (strip_accents vocab) text in Ok (output ++ concat (word_tokens vocab <$> words)).
Proof.
  intros HL. unfold wpm_tokenize. destruct (preprocess D (lowercase vocab) (strip_accents vocab) text) as [words |] eqn:E; cbn [rbind]; [| done].
  apply wpm_words_ok; [done |]. by eapply preprocess_nonempty.
Qed.
Lemma token_known {F : Type} (vocab : Vocab F) s : text_to_token vocab s <> TOKEN_NULL -> exists i, token_to_id vocab !! s = Some i.
Proof. unfold text_to_token. destruct (token_to_id vocab !! s) as [i |]; [by exists i | done]. Qed.
Definition wpm_vocab : Vocab Z :=
  let t := match load_tables [(lower_block ++ bytes "un", 0, None); (bytes "able", 0, None); (bytes "a", 0, None); (lower_block ++ bytes "u", 0, None); (lower_block ++ bytes "!", 0, None)] with Ok t => t | Err _ => (∅, []) end in
  plain_vocab VT_WPM t.1 t.2 ∅.
Lemma wpm_longest_match_witness : wpm_tokenize wpm_vocab ascii_data (bytes "unable uno") [] = Ok [0; 1; -1].
Proof.
  rewrite wpm_longest_match; [vm_compute; reflexivity |]. split; [by vm_compute |]. intros s [i E]%token_known.
  assert (G : map_Forall (fun s (_ : Z) => Zlen s <= 64) (token_to_id wpm_vocab)) by (apply (bool_decide_unpack _); vm_compute; exact I).
  apply (G s i). exact E.
Defined.
