(* ===== verification/Partition.v ===== *)
(** * Special tokens in a text (Vocab::impl::tokenizer_st_partition and tokenize,
    src/iian/tokenizer/vocab.cpp)

    The text is a list of fragments, at first one.  Every special token in turn is searched in every
    fragment of text; a fragment it occurs in is replaced by the text before it, the token and the
    text behind it.  The std::forward_list and the iterator into it are a list and an index. *)

From S2P Require Import Prelude Text ToolCalls GenerationProps UnicodeProps Vocab Pieces.

(** ** Fragments *)
Inductive fragment := Raw (offset length : Z) | Tok (token : Z).
(** the constructor of a fragment of text asserts that it is inside the text *)
Definition raw_fragment (raw_text : list Z) (offset length : Z) : res fragment :=
  if (0 <=? offset) && (1 <=? length) && (offset + length <=? Zlen raw_text) then Ok (Raw offset length) else throw! "GGML_ASSERT".
(** [buffer.emplace_after(it, x); it++] *)
Definition emplace_after (buffer : list fragment) (it : nat) (x : fragment) : list fragment * nat :=
  (take (S it) buffer ++ x :: drop (S it) buffer, S it).
(** the node before the iterator is erased *)
Definition erase_node (buffer : list fragment) (source : nat) : list fragment := take source buffer ++ drop (S source) buffer.

Section Partition.
Context {F : Type} (vocab : Vocab F) (raw_text : list Z).

(** white space at the end and at the start of a range *)
Fixpoint lstrip_length (fuel : nat) (offset length : Z) : res Z :=
  if length <=? 0 then Ok length else
  match fuel with
  | O => Err Fuel
  | S fuel => let! c := vget raw_text (offset + length - 1) in if isspace c then lstrip_length fuel offset (length - 1) else Ok length
  end.
Fixpoint rstrip_range (fuel : nat) (offset length : Z) : res (Z * Z) :=
  if length <=? 0 then Ok (offset, length) else
  match fuel with
  | O => Err Fuel
  | S fuel => let! c := vget raw_text offset in if isspace c then rstrip_range fuel (offset + 1) (length - 1) else Ok (offset, length)
  end.
Definition emplace_raw (buffer : list fragment) (it : nat) (offset length : Z) : res (list fragment * nat) :=
  if 0 <? length then let! f := raw_fragment raw_text offset length in Ok (emplace_after buffer it f) else Ok (buffer, it).

(** one special token in one fragment, from the base offset on *)
Fixpoint split_fragment (fuel : nat) (special_id : Z) (data : token_data F) (buffer : list fragment) (it : nat) (base_offset base_length : Z)
  : res (list fragment * nat) :=
  let text := t_text data in
  match find_str (take (Z.to_nat (base_offset + base_length)) raw_text) text (Z.to_nat base_offset) with
  | None => Ok (buffer, it)
  | Some m =>
      match fuel with
      | O => Err Fuel
      | S fuel =>
          let mtch := Z.of_nat m in
          let source := it in
          let! (buffer, it) :=
            (if base_offset <? mtch then
               let! left_length := (if has_attr (t_attr data) TOKEN_ATTR_LSTRIP then lstrip_length (length raw_text) base_offset (mtch - base_offset)
                                    else Ok (mtch - base_offset)) in
               emplace_raw buffer it base_offset left_length
             else Ok (buffer, it)) in
          let '(buffer, it) := emplace_after buffer it (Tok special_id) in
          if mtch + Zlen text <? base_offset + base_length then
            let! (right_offset, right_length) :=
              (if has_attr (t_attr data) TOKEN_ATTR_RSTRIP then rstrip_range (length raw_text) (mtch + Zlen text) (base_length - ((mtch - base_offset) + Zlen text))
               else Ok (mtch + Zlen text, base_length - ((mtch - base_offset) + Zlen text))) in
            let! (buffer, it) := emplace_raw buffer it right_offset right_length in
            split_fragment fuel special_id data (erase_node buffer source) (it - 1) right_offset right_length
          else Ok (erase_node buffer source, (it - 1)%nat)
      end
  end.
(** all fragments *)
Fixpoint fragments_loop (fuel : nat) (special_id : Z) (data : token_data F) (buffer : list fragment) (it : nat) : res (list fragment) :=
  match buffer !! it with
  | None => Ok buffer
  | Some f =>
      match fuel with
      | O => Err Fuel
      | S fuel =>
          let! (buffer, it) :=
            (match f with
             | Raw offset len => split_fragment (length raw_text) special_id data buffer it offset len
             | Tok _ => Ok (buffer, it)
             end) in
          fragments_loop fuel special_id data buffer (S it)
      end
  end.
Definition skipped (parse_special : bool) (data : token_data F) : bool := negb parse_special && has_attr (t_attr data) (Z.lor TOKEN_ATTR_CONTROL TOKEN_ATTR_UNKNOWN).
Fixpoint specials_loop (parse_special : bool) (ids : list Z) (buffer : list fragment) : res (list fragment) :=
  match ids with
  | [] => Ok buffer
  | special_id :: ids =>
      let! data := get_token_data vocab special_id in
      if skipped parse_special data then specials_loop parse_special ids buffer
      else let! buffer := fragments_loop (length buffer) special_id data buffer 0 in specials_loop parse_special ids buffer
  end.
Definition tokenizer_st_partition (parse_special : bool) (buffer : list fragment) : res (list fragment) :=
  specials_loop parse_special (cache_special_tokens vocab) buffer.
(** the fragments of a text *)
Definition fragment_buffer (parse_special : bool) : res (list fragment) :=
  match raw_text with
  | [] => Ok []
  | _ => let! f := raw_fragment raw_text 0 (Zlen raw_text) in tokenizer_st_partition parse_special [f]
  end.
End Partition.

(** * Special tokens are found, and nothing else is changed *)

(** ** Occurrences *)
Definition occurs (pat s : list Z) : Prop := exists a b, s = a ++ pat ++ b.
Lemma no_occurrence pat s : (forall j, (j <= length s)%nat -> starts_with pat (drop j s) = false) -> ~ occurs pat s.
Proof.
  intros H (a & b & E). assert (Hs : starts_with pat (drop (length a) s) = true) by (apply starts_with_spec; exists b; by rewrite E, drop_app_length).
  rewrite H in Hs; [done |]. rewrite E, length_app. lia.
Qed.

Section Partition.
Context {F : Type} (vocab : Vocab F) (raw_text : list Z).
Notation slice o l := (vslice raw_text o l).

Lemma occurs_sub pat o l bo bl : 0 <= bo -> bo <= o -> 0 <= l -> o + l <= bo + bl -> occurs pat (slice o l) -> occurs pat (slice bo bl).
Proof.
  intros H1 H2 H3 H4 (a & b & E). assert (Es : slice bo bl = slice bo (o - bo) ++ slice o l ++ slice (o + l) (bo + bl - (o + l))).
  { rewrite (vslice_split raw_text o l) by lia. replace o with (bo + (o - bo)) at 2 by lia. rewrite vslice_split by lia. f_equal. lia. }
  exists (slice bo (o - bo) ++ a), (b ++ slice (o + l) (bo + bl - (o + l))). rewrite Es, E. by rewrite <- !app_assoc.
Qed.
Lemma search_range bo bl : 0 <= bo -> 0 <= bl -> drop (Z.to_nat bo) (take (Z.to_nat (bo + bl)) raw_text) = slice bo bl.
Proof. intros. unfold vslice. rewrite Z2Nat.inj_add by done. rewrite <- firstn_skipn_comm. done. Qed.
(** the search of split_fragment *)
Lemma search_none pat bo bl : 0 <= bo -> 0 <= bl -> bo + bl <= Zlen raw_text -> find_str (take (Z.to_nat (bo + bl)) raw_text) pat (Z.to_nat bo) = None -> ~ occurs pat (slice bo bl).
Proof.
  intros H1 H2 H3 H. unfold find_str in H. unfold Zlen in H3. rewrite (proj2 (Nat.leb_le _ _)) in H by (rewrite length_take; lia). rewrite search_range in H by done.
  apply no_occurrence. pose proof (find_first_spec pat (slice bo bl)) as G. by destruct (find_first_of pat (slice bo bl)).
Qed.
Lemma search_some pat bo bl m : 0 <= bo -> 0 <= bl -> bo + bl <= Zlen raw_text -> pat <> [] -> find_str (take (Z.to_nat (bo + bl)) raw_text) pat (Z.to_nat bo) = Some m ->
  bo <= Z.of_nat m /\ Z.of_nat m + Zlen pat <= bo + bl /\ slice (Z.of_nat m) (Zlen pat) = pat /\ ~ occurs pat (slice bo (Z.of_nat m - bo)).
Proof.
  intros H1 H2 H3 Hp H. apply find_str_length in H as Hl; [| done]. rewrite length_take in Hl. unfold Zlen in H3 |- *. unfold find_str in H.
  rewrite (proj2 (Nat.leb_le _ _)) in H by (rewrite length_take; lia). rewrite search_range in H by done. pose proof (find_first_spec pat (slice bo bl)) as G.
  destruct (find_first_of pat (slice bo bl)) as [k |]; [| done]. injection H as <-. destruct G as (Gl & Gs & Gb). split; [lia |]. split; [lia |]. split.
  - apply starts_with_spec in Gs as [r Er]. unfold vslice in Er |- *. rewrite Nat2Z.id. rewrite skipn_firstn_comm, drop_drop in Er. rewrite Nat2Z.id.
    assert (Et : pat = take (length pat) (take (Z.to_nat bl - k) (drop (Z.to_nat bo + k) raw_text))) by (by rewrite Er, take_app_length).
    rewrite take_take in Et. rewrite Et at 2. f_equal. apply (f_equal length) in Er. rewrite length_take, length_drop, length_app in Er. lia.
  - intros (a & b & E). assert (Ha : (length a < k)%nat).
    { apply (f_equal length) in E. unfold vslice in E. rewrite !length_app, length_take, length_drop in E. destruct pat; [done |]. simpl in E. lia. }
    specialize (Gb (length a) Ha). assert (Gt : starts_with pat (drop (length a) (slice bo bl)) = true); [| congruence]. apply starts_with_spec.
    replace bl with ((Z.of_nat (Z.to_nat bo + k) - bo) + (bl - (Z.of_nat (Z.to_nat bo + k) - bo))) by lia. rewrite <- vslice_split by lia. rewrite E. rewrite <- !app_assoc, drop_app_length. by eexists.
Qed.

(** ** Fragments *)
Definition frag_text (f : fragment) : list Z := match f with Raw o l => slice o l | Tok t => match vlookup (id_to_token vocab) t with Some d => t_text d | None => [] end end.
Definition good (f : fragment) : Prop := match f with Raw o l => 0 <= o /\ 1 <= l /\ o + l <= Zlen raw_text | Tok _ => True end.
(** inside a range *)
Definition within_range (bo bl : Z) (f : fragment) : Prop := match f with Raw o l => bo <= o /\ o + l <= bo + bl | Tok _ => True end.
Definition clean (pat : list Z) (f : fragment) : Prop := match f with Raw o l => ~ occurs pat (slice o l) | Tok _ => True end.
Lemma clean_sub pat bo bl f : 0 <= bo -> good f -> within_range bo bl f -> clean pat (Raw bo bl) -> clean pat f.
Proof. destruct f as [o l |]; [| done]. simpl. intros H0 (G1 & G2 & G3) (G4 & G5) Hc Ho. apply Hc. eapply occurs_sub; [| | | | exact Ho]; lia. Qed.

Lemma emplace_ok A x B y : emplace_after (A ++ x :: B) (length A) y = (A ++ x :: y :: B, length (A ++ [x])).
Proof.
  unfold emplace_after. f_equal; [| rewrite length_app; simpl; lia]. replace (A ++ x :: B) with ((A ++ [x]) ++ B) by (by rewrite <- app_assoc). replace (S (length A)) with (length (A ++ [x])) by (rewrite length_app; simpl; lia).
  rewrite take_app_length, drop_app_length. by rewrite <- app_assoc.
Qed.
Lemma erase_node_ok A x B : erase_node (A ++ x :: B) (length A) = A ++ B.
Proof. unfold erase_node. rewrite take_app_length. f_equal. replace (A ++ x :: B) with ((A ++ [x]) ++ B) by (by rewrite <- app_assoc). replace (S (length A)) with (length (A ++ [x])) by (rewrite length_app; simpl; lia). by rewrite drop_app_length. Qed.
(** a fragment of text, if there is any *)
Definition raw_of (o l : Z) : list fragment := if 0 <? l then [Raw o l] else [].
Lemma emplace_raw_ok A x B o l : 0 <= o -> 0 <= l -> o + l <= Zlen raw_text ->
  emplace_raw raw_text (A ++ x :: B) (length A) o l = Ok (A ++ x :: raw_of o l ++ B, (length A + length (raw_of o l))%nat).
Proof.
  intros H1 H2 H3. unfold emplace_raw, raw_of. destruct (Z.ltb_spec 0 l); [| simpl; by rewrite Nat.add_0_r]. unfold raw_fragment.
  rewrite (proj2 (Z.leb_le 0 o)), (proj2 (Z.leb_le 1 l)), (proj2 (Z.leb_le _ _)) by lia. simpl rbind. rewrite emplace_ok, length_app. done.
Qed.
Lemma lstrip_ok fuel o l : 0 <= o -> 0 <= l -> o + l <= Zlen raw_text -> (Z.to_nat l <= fuel)%nat -> exists l', lstrip_length raw_text fuel o l = Ok l' /\ 0 <= l' <= l.
Proof.
  revert l. induction fuel as [| fuel IH]; intros l H1 H2 H3 Hf; cbn [lstrip_length]; (destruct (Z.leb_spec l 0); [exists l; split; [done | lia] |]); [lia |].
  destruct (vlookup_lt_is_Some raw_text (o + l - 1)) as [c Ec]; [lia |]. rewrite (proj2 (vget_Ok _ _ _) Ec). cbn [rbind]. destruct (isspace c); [| exists l; split; [done | lia] ].
  destruct (IH (l - 1)) as (l' & E & ?); [lia | lia | lia | lia |]. exists l'. split; [done | lia].
Qed.
Lemma rstrip_ok fuel o l : 0 <= o -> 0 <= l -> o + l <= Zlen raw_text -> (Z.to_nat l <= fuel)%nat -> exists o' l', rstrip_range raw_text fuel o l = Ok (o', l') /\ o <= o' /\ 0 <= l' /\ o' + l' = o + l.
Proof.
  revert o l. induction fuel as [| fuel IH]; intros o l H1 H2 H3 Hf; cbn [rstrip_range]; (destruct (Z.leb_spec l 0); [exists o, l; split; [done | lia] |]); [lia |].
  destruct (vlookup_lt_is_Some raw_text o) as [c Ec]; [lia |]. rewrite (proj2 (vget_Ok _ _ _) Ec). cbn [rbind]. destruct (isspace c); [| exists o, l; split; [done | lia] ].
  destruct (IH (o + 1) (l - 1)) as (o' & l' & E & ? & ? & ?); [lia | lia | lia | lia |]. exists o', l'. split; [done | lia].
Qed.

(** a property of texts that is passed on to both sides of a special token *)
Definition splits_at (U : list Z -> Prop) (pat : list Z) : Prop := forall a b, U (a ++ pat ++ b) -> U a /\ U b.
Definition raw_has (U : list Z -> Prop) (f : fragment) : Prop := match f with Raw o l => U (slice o l) | Tok _ => True end.

(** ** One special token in one fragment *)
Section OneToken.
Context (id : Z) (data : token_data F) (Hd : vlookup (id_to_token vocab) id = Some data) (Ht : t_text data <> []).
Definition strips : bool := has_attr (t_attr data) (Z.lor TOKEN_ATTR_LSTRIP TOKEN_ATTR_RSTRIP).
(** what a fragment becomes *)
Record parts_of (bo bl : Z) (new : list fragment) : Prop := mkParts {
  p_good : Forall good new;
  p_range : Forall (within_range bo bl) new;
  p_clean : Forall (clean (t_text data)) new;
  p_toks : forall t, Tok t ∈ new -> t = id;
  p_text : strips = false -> concat (frag_text <$> new) = slice bo bl;
  p_splits : forall U, splits_at U (t_text data) -> strips = false -> U (slice bo bl) -> Forall (raw_has U) new }.
Lemma strips_false : strips = false -> has_attr (t_attr data) TOKEN_ATTR_LSTRIP = false /\ has_attr (t_attr data) TOKEN_ATTR_RSTRIP = false.
Proof.
  unfold strips, has_attr. rewrite Z.land_lor_distr_r. rewrite !negb_false_iff, !Z.eqb_eq. intros H. by apply Z.lor_eq_0_iff in H.
Qed.
(** the text before the token *)
Lemma left_part A cur B bo m : 0 <= bo <= m -> m <= Zlen raw_text -> exists ll,
  (if bo <? m then let! left_length := (if has_attr (t_attr data) TOKEN_ATTR_LSTRIP then lstrip_length raw_text (length raw_text) bo (m - bo) else Ok (m - bo)) in
     emplace_raw raw_text (A ++ cur :: B) (length A) bo left_length
   else Ok (A ++ cur :: B, length A)) = Ok (A ++ cur :: raw_of bo ll ++ B, (length A + length (raw_of bo ll))%nat) /\ 0 <= ll <= m - bo /\ (strips = false -> ll = m - bo).
Proof.
  intros H1 H2. destruct (Z.ltb_spec bo m).
  - destruct (has_attr (t_attr data) TOKEN_ATTR_LSTRIP) eqn:E.
    + destruct (lstrip_ok (length raw_text) bo (m - bo)) as (ll & -> & ?); [lia | lia | lia | unfold Zlen in *; lia |]. cbn [rbind]. rewrite emplace_raw_ok by lia. exists ll. split; [done |]. split; [lia |]. intros Hs%strips_false. destruct Hs; congruence.
    + cbn [rbind]. rewrite emplace_raw_ok by lia. exists (m - bo). split; [done |]. lia.
  - exists 0. split; [simpl; by rewrite Nat.add_0_r |]. lia.
Qed.
Lemma right_part ro rl : 0 <= ro -> 0 <= rl -> ro + rl <= Zlen raw_text -> exists ro' rl',
  (if has_attr (t_attr data) TOKEN_ATTR_RSTRIP then rstrip_range raw_text (length raw_text) ro rl else Ok (ro, rl)) = Ok (ro', rl') /\ ro <= ro' /\ 0 <= rl' /\ ro' + rl' = ro + rl /\
  (strips = false -> ro' = ro).
Proof.
  intros H1 H2 H3. destruct (has_attr (t_attr data) TOKEN_ATTR_RSTRIP) eqn:E; [| exists ro, rl; split; [done | lia] ].
  destruct (rstrip_ok (length raw_text) ro rl) as (o' & l' & -> & ? & ? & ?); [lia | lia | lia | unfold Zlen in *; lia |]. exists o', l'. do 4 (split; [done |]). intros Hs%strips_false. destruct Hs; congruence.
Qed.
Lemma cut_at bo bl m rl : 0 <= bo <= m -> 0 <= rl -> m + Zlen (t_text data) + rl = bo + bl -> bo + bl <= Zlen raw_text -> slice m (Zlen (t_text data)) = t_text data ->
  slice bo bl = slice bo (m - bo) ++ t_text data ++ slice (m + Zlen (t_text data)) rl.
Proof.
  intros H1 H2 H3 H4 Hpat. pose proof (Zlen_nonneg (t_text data)). rewrite <- Hpat at 1. rewrite (vslice_split raw_text m (Zlen (t_text data)) rl) by lia.
  replace m with (bo + (m - bo)) at 2 by lia. rewrite vslice_split by lia. f_equal. lia.
Qed.
(** left, token, and what the right side becomes *)
Lemma parts_join bo bl m ll ro rl new : 0 <= bo <= m -> 0 <= ll <= m - bo -> (strips = false -> ll = m - bo) -> m + Zlen (t_text data) <= ro -> 0 <= rl -> ro + rl = bo + bl -> bo + bl <= Zlen raw_text ->
  (strips = false -> ro = m + Zlen (t_text data)) -> slice m (Zlen (t_text data)) = t_text data -> ~ occurs (t_text data) (slice bo (m - bo)) ->
  (rl = 0 -> new = []) -> (1 <= rl -> parts_of ro rl new) -> parts_of bo bl (raw_of bo ll ++ Tok id :: new).
Proof.
  intros Hm Hll Hs1 Hro Hrl Hsum Hb Hs2 Hpat Hocc Hn0 Hn1. pose proof (Zlen_nonneg (t_text data)). assert (P : rl = 0 /\ new = [] \/ 1 <= rl /\ parts_of ro rl new) by (destruct (Z.eq_dec rl 0); [left; auto | right; split; [lia | apply Hn1; lia] ]).
  assert (L : Forall good (raw_of bo ll) /\ Forall (within_range bo bl) (raw_of bo ll) /\ Forall (clean (t_text data)) (raw_of bo ll) /\ concat (frag_text <$> raw_of bo ll) = slice bo ll).
  { unfold raw_of. destruct (Z.ltb_spec 0 ll); [| replace ll with 0 by lia; repeat split; constructor]. rewrite !Forall_singleton. simpl. rewrite app_nil_r. repeat split; try lia. intros Ho. apply Hocc.
    eapply occurs_sub; [| | | | exact Ho]; lia. }
  destruct L as (L1 & L2 & L3 & L4). split.
  - apply Forall_app. split; [done |]. constructor; [done |]. destruct P as [ [_ ->] | [_ P] ]; [constructor | apply (p_good _ _ _ P)].
  - apply Forall_app. split; [done |]. constructor; [done |]. destruct P as [ [_ ->] | [_ P] ]; [constructor |]. eapply Forall_impl; [apply (p_range _ _ _ P) |]. intros [o l |]; simpl; [lia | done].
  - apply Forall_app. split; [done |]. constructor; [done |]. destruct P as [ [_ ->] | [_ P] ]; [constructor | apply (p_clean _ _ _ P)].
  - intros t Hin. apply elem_of_app in Hin as [Hin | Hin]; [unfold raw_of in Hin; destruct (0 <? ll); set_solver |]. apply elem_of_cons in Hin as [ [= ->] | Hin]; [done |].
    destruct P as [ [_ ->] | [_ P] ]; [set_solver | by apply (p_toks _ _ _ P)].
  - intros Hs. rewrite fmap_app, concat_app, fmap_cons, L4. cbn [concat frag_text]. rewrite Hd. specialize (Hs1 Hs). specialize (Hs2 Hs). subst ll ro.
    assert (Er : concat (frag_text <$> new) = slice (m + Zlen (t_text data)) rl) by (destruct P as [ [-> ->] | [_ P] ]; [done | by apply (p_text _ _ _ P)]). rewrite Er.
    symmetry. apply cut_at; [lia | lia | lia | lia | done].
  - intros U HU Hs HB. specialize (Hs1 Hs). specialize (Hs2 Hs). subst ll ro. rewrite (cut_at bo bl m rl) in HB by (done || lia). destruct (HU _ _ HB) as [Ha Hb'].
    apply Forall_app. split; [unfold raw_of; destruct (0 <? m - bo); [by apply Forall_singleton | constructor] |]. constructor; [done |]. destruct P as [ [_ ->] | [_ P] ]; [constructor |]. by apply (p_splits _ _ _ P).
Qed.
Lemma split_fragment_ok fuel A cur B bo bl : 0 <= bo -> 0 <= bl -> bo + bl <= Zlen raw_text -> (Z.to_nat bl <= fuel)%nat -> (1 <= bl -> cur = Raw bo bl) ->
  exists new, split_fragment raw_text fuel id data (A ++ cur :: B) (length A) bo bl = Ok (A ++ new ++ B, (length A + length new - 1)%nat) /\ new <> [] /\ (bl = 0 -> new = [cur]) /\ (1 <= bl -> parts_of bo bl new).
Proof.
  revert A cur bo bl. induction fuel as [| fuel IH]; intros A cur bo bl H1 H2 H3 Hf Hc; cbn [split_fragment];
    (destruct (find_str (take (Z.to_nat (bo + bl)) raw_text) (t_text data) (Z.to_nat bo)) as [m |] eqn:E;
     [apply search_some in E as (M1 & M2 & M3 & M4); [| done | done | done | done] |
      apply search_none in E; [| done | done | done]; exists [cur]; split; [simpl; by rewrite Nat.add_sub |]; split; [done |]; split; [done |]; intros Hbl; rewrite (Hc Hbl);
      split; [by apply Forall_singleton | apply Forall_singleton; simpl; lia | by apply Forall_singleton | set_solver | intros _; simpl; by rewrite app_nil_r | intros U _ _ HU; by apply Forall_singleton] ]).
  { exfalso. assert (Zlen (t_text data) = 0) as Hz%Zlen_0 by (pose proof (Zlen_nonneg (t_text data)); lia). done. }
  assert (Hz : 1 <= Zlen (t_text data)) by (destruct (t_text data); [done | rewrite Zlen_cons; pose proof (Zlen_nonneg l); lia]).
  destruct (left_part A cur B bo (Z.of_nat m)) as (ll & -> & Hll & Hs1); [lia | lia |]. cbn [rbind].
  replace (A ++ cur :: raw_of bo ll ++ B) with (A ++ (cur :: raw_of bo ll) ++ B) by done.
  assert (Ee : emplace_after (A ++ (cur :: raw_of bo ll) ++ B) (length A + length (raw_of bo ll)) (Tok id) = ((A ++ cur :: raw_of bo ll) ++ Tok id :: B, (length A + length (raw_of bo ll) + 1)%nat)).
  { unfold raw_of. destruct (0 <? ll); simpl.
    - replace (A ++ cur :: Raw bo ll :: B) with ((A ++ [cur]) ++ Raw bo ll :: B) by (by rewrite <- app_assoc). replace (length A + 1)%nat with (length (A ++ [cur])) by (rewrite length_app; done). rewrite emplace_ok.
      f_equal; [by rewrite <- !app_assoc | rewrite !length_app; simpl; lia].
    - rewrite Nat.add_0_r, emplace_ok. f_equal; [by rewrite <- app_assoc | rewrite length_app; done]. }
  rewrite Ee. cbv iota beta zeta. destruct (Z.ltb_spec (Z.of_nat m + Zlen (t_text data)) (bo + bl)) as [Hr | Hr].
  - destruct (right_part (Z.of_nat m + Zlen (t_text data)) (bl - (Z.of_nat m - bo + Zlen (t_text data)))) as (ro & rl & -> & Hro & Hrl & Hsum & Hs2); [lia | lia | lia |]. cbn [rbind].
    replace (length A + length (raw_of bo ll) + 1)%nat with (length (A ++ cur :: raw_of bo ll)) by (rewrite length_app; simpl; lia). rewrite emplace_raw_ok by lia. cbn [rbind].
    replace ((A ++ cur :: raw_of bo ll) ++ Tok id :: raw_of ro rl ++ B) with (A ++ cur :: raw_of bo ll ++ Tok id :: raw_of ro rl ++ B) by (by rewrite <- app_assoc). rewrite erase_node_ok.
    destruct (Z.ltb_spec 0 rl) as [Hpos | Hpos].
    + assert (Er : raw_of ro rl = [Raw ro rl]) by (unfold raw_of; by rewrite (proj2 (Z.ltb_lt 0 rl)) by lia). rewrite Er. set (A1 := A ++ raw_of bo ll ++ [Tok id]).
      replace (A ++ raw_of bo ll ++ Tok id :: [Raw ro rl] ++ B) with (A1 ++ Raw ro rl :: B) by (subst A1; by rewrite <- !app_assoc).
      replace (length (A ++ cur :: raw_of bo ll) + length [Raw ro rl] - 1)%nat with (length A1) by (subst A1; rewrite !length_app; simpl; lia).
      destruct (IH A1 (Raw ro rl) ro rl) as (new & -> & Hne & _ & Hp); [lia | lia | lia | lia | done |]. exists (raw_of bo ll ++ Tok id :: new). split; [| split; [by destruct (raw_of bo ll) | split; [lia |] ] ].
      * f_equal. f_equal; [subst A1; by rewrite <- !app_assoc |]. destruct new; [done |]. subst A1. repeat first [rewrite length_app | cbn [length] ]. lia.
      * intros _. eapply (parts_join bo bl (Z.of_nat m) ll ro rl new); try done; lia.
    + assert (rl = 0) as -> by lia. change (raw_of ro 0) with (@nil fragment). set (A1 := A ++ raw_of bo ll). replace (A ++ raw_of bo ll ++ Tok id :: [] ++ B) with (A1 ++ Tok id :: B) by (subst A1; by rewrite <- !app_assoc).
      replace (length (A ++ cur :: raw_of bo ll) + length [] - 1)%nat with (length A1) by (subst A1; rewrite !length_app; simpl; lia).
      destruct (IH A1 (Tok id) ro 0) as (new & -> & _ & Hn & _); [lia | lia | lia | lia | lia |]. rewrite (Hn eq_refl). exists (raw_of bo ll ++ [Tok id]). split; [| split; [by destruct (raw_of bo ll) | split; [lia |] ] ].
      * f_equal. f_equal; [subst A1; by rewrite <- !app_assoc |]. subst A1. repeat first [rewrite length_app | cbn [length] ]. lia.
      * intros _. eapply (parts_join bo bl (Z.of_nat m) ll ro 0 []); try done; lia.
  - exists (raw_of bo ll ++ [Tok id]). replace ((A ++ cur :: raw_of bo ll) ++ Tok id :: B) with (A ++ cur :: raw_of bo ll ++ Tok id :: B) by (by rewrite <- app_assoc). rewrite erase_node_ok.
    split; [f_equal; f_equal; [by rewrite <- app_assoc | rewrite length_app; simpl; lia] |]. split; [by destruct (raw_of bo ll) |]. split; [lia |]. intros _.
    eapply (parts_join bo bl (Z.of_nat m) ll (bo + bl) 0 []); try done; lia.
Qed.

(** ** All fragments, all special tokens *)
Record refined (pats : list (list Z)) (toks : list Z) (keep : bool) (old new : list fragment) : Prop := mkRefined {
  rf_good : Forall good new;
  rf_clean : forall pat, pat ∈ pats \/ Forall (clean pat) old -> Forall (clean pat) new;
  rf_toks : forall t, Tok t ∈ new -> t ∈ toks \/ Tok t ∈ old;
  rf_text : keep = true -> concat (frag_text <$> new) = concat (frag_text <$> old);
  rf_splits : forall U, Forall (splits_at U) pats -> keep = true -> Forall (raw_has U) old -> Forall (raw_has U) new }.
Lemma fragments_loop_ok fuel done rest : (length rest <= fuel)%nat -> Forall good rest ->
  exists rest', fragments_loop raw_text fuel id data (done ++ rest) (length done) = Ok (done ++ rest') /\ refined [t_text data] [id] (negb strips) rest rest'.
Proof.
  revert done rest. induction fuel as [| fuel IH]; intros done rest Hf Hg.
  { destruct rest; simpl in Hf; [| lia]. exists []. cbn [fragments_loop]. rewrite lookup_ge_None_2 by (rewrite app_nil_r; lia). split; [done |]. split; [constructor | constructor | set_solver | done | done]. }
  destruct rest as [| f rest]. { exists []. cbn [fragments_loop]. rewrite lookup_ge_None_2 by (rewrite app_nil_r; lia). split; [done |]. split; [constructor | constructor | set_solver | done | done]. }
  cbn [fragments_loop]. rewrite list_lookup_middle by done. apply Forall_cons in Hg as [Hf1 Hg]. simpl in Hf.
  assert (G : exists new, match f with Raw o l => split_fragment raw_text (length raw_text) id data (done ++ f :: rest) (length done) o l | Tok _ => Ok (done ++ f :: rest, length done) end = Ok (done ++ new ++ rest, (length done + length new - 1)%nat) /\
    new <> [] /\ refined [t_text data] [id] (negb strips) [f] new).
  { destruct f as [o l | t].
    - destruct Hf1 as (G1 & G2 & G3). destruct (split_fragment_ok (length raw_text) done (Raw o l) rest o l) as (new & E & Hne & _ & Hp); [lia | lia | lia | unfold Zlen in G3; lia | done |]. specialize (Hp G2). exists new. split; [exact E |]. split; [done |]. split.
      + apply (p_good _ _ _ Hp).
      + intros pat [Hpat | Hpat]; [apply list_elem_of_singleton in Hpat as ->; apply (p_clean _ _ _ Hp) |]. rewrite Forall_singleton in Hpat. pose proof (p_good _ _ _ Hp) as Hgood. pose proof (p_range _ _ _ Hp) as Hrange.
        rewrite Forall_forall in Hgood, Hrange. apply Forall_forall. intros x Hx. exact (clean_sub pat o l x G1 (Hgood x Hx) (Hrange x Hx) Hpat).
      + intros t Ht'. left. apply list_elem_of_singleton. by apply (p_toks _ _ _ Hp).
      + intros Hs%negb_true_iff. rewrite (p_text _ _ _ Hp Hs). simpl. by rewrite app_nil_r.
      + intros U HU Hs%negb_true_iff HB. rewrite Forall_singleton in HU. rewrite Forall_singleton in HB. by apply (p_splits _ _ _ Hp).
    - exists [Tok t]. split; [simpl; by rewrite Nat.add_sub |]. split; [done |]. split; [by apply Forall_singleton | intros; by apply Forall_singleton | by right | done | intros; by apply Forall_singleton]. }
  destruct G as (new & -> & Hne & R1). cbn [rbind]. replace (S (length done + length new - 1)) with (length (done ++ new)) by (rewrite length_app; destruct new; [done | simpl; lia]).
  rewrite (app_assoc done). destruct (IH (done ++ new) rest ltac:(lia) Hg) as (rest' & -> & R2). exists (new ++ rest'). split; [by rewrite <- app_assoc |]. destruct R1 as [A1 A2 A3 A4 A5], R2 as [B1 B2 B3 B4 B5]. split.
  - by apply Forall_app.
  - intros pat Hpat. apply Forall_app. rewrite Forall_cons in Hpat. split; [apply A2 | apply B2]; rewrite ?Forall_singleton; tauto.
  - intros t Hin. apply elem_of_app in Hin as [Hin | Hin]; [apply A3 in Hin | apply B3 in Hin]; set_solver.
  - intros Hk. rewrite fmap_app, concat_app, A4, B4 by done. rewrite fmap_cons. simpl. by rewrite app_nil_r.
  - intros U HU Hk HB. apply Forall_cons in HB as [HB1 HB2]. apply Forall_app. split; [apply A5; [done | done | by apply Forall_singleton] | by apply B5].
Qed.
End OneToken.

(** the special tokens that are searched *)
Definition searched_specials (parse_special : bool) : list (Z * token_data F) :=
  omap (fun id => d ← vlookup (id_to_token vocab) id; if skipped parse_special d then None else Some (id, d)) (cache_special_tokens vocab).
Lemma specials_loop_ok parse_special ids buffer : Forall good buffer -> (forall id, id ∈ ids -> exists d, vlookup (id_to_token vocab) id = Some d /\ t_text d <> []) ->
  let found := omap (fun id => d ← vlookup (id_to_token vocab) id; if skipped parse_special d then None else Some (id, d)) ids in
  exists new, specials_loop vocab raw_text parse_special ids buffer = Ok new /\ refined ((fun x => t_text x.2) <$> found) (fst <$> found) (forallb (fun x => negb (strips x.2)) found) buffer new.
Proof.
  revert buffer. induction ids as [| id ids IH]; intros buffer Hg Hk; cbn [specials_loop omap list_omap].
  { exists buffer. split; [done |]. split; [done | intros pat [H | H]; [set_solver | done] | by right | done | done]. }
  destruct (Hk id ltac:(set_solver)) as (d & Ed & Ht). unfold get_token_data. rewrite Ed. cbn [rbind]. simpl. destruct (skipped parse_special d).
  { apply IH; [done |]. intros i Hi. apply Hk. set_solver. }
  destruct (fragments_loop_ok id d Ed Ht (length buffer) [] buffer ltac:(done) Hg) as (b1 & E1 & R1). rewrite !app_nil_l in E1. simpl length in E1 at 2. rewrite E1. cbn [rbind].
  destruct R1 as [A1 A2 A3 A4 A5]. destruct (IH b1 A1) as (b2 & E2 & [B1 B2 B3 B4 B5]); [intros i Hi; apply Hk; set_solver |]. exists b2. split; [done |]. split.
  - done.
  - intros pat Hpat. apply B2. rewrite fmap_cons in Hpat. simpl in Hpat. destruct Hpat as [Hpat | Hpat]; [| right; apply A2; by right]. apply elem_of_cons in Hpat as [-> | Hpat]; [right; apply A2; left; set_solver | by left].
  - intros t Hin. rewrite fmap_cons. simpl. apply B3 in Hin as [Hin | Hin]; [set_solver |]. apply A3 in Hin. set_solver.
  - simpl. intros [Hs Hs']%andb_true_iff. by rewrite B4, A4.
  - intros U HU Hs HB. rewrite fmap_cons in HU. apply Forall_cons in HU as [HU1 HU2]. simpl in Hs, HU1. apply andb_true_iff in Hs as [Hs Hs']. apply B5; [done | done |]. apply A5; [by apply Forall_singleton | done | done].
Qed.
End Partition.

(** the fragments of a text *)
Lemma fragment_buffer_ok {F : Type} (vocab : Vocab F) (raw_text : list Z) (parse_special : bool) : raw_text <> [] ->
  (forall id, id ∈ cache_special_tokens vocab -> exists d, get_token_data vocab id = Ok d /\ t_text d <> []) ->
  exists fragments, fragment_buffer vocab raw_text parse_special = Ok fragments /\
    refined vocab raw_text ((fun x => t_text x.2) <$> searched_specials vocab parse_special) (fst <$> searched_specials vocab parse_special)
      (forallb (fun x => negb (strips x.2)) (searched_specials vocab parse_special)) [Raw 0 (Zlen raw_text)] fragments.
Proof.
  intros Hne Hk. assert (Hl : 1 <= Zlen raw_text) by (destruct raw_text as [| c l]; [done | rewrite Zlen_cons; pose proof (Zlen_nonneg l); lia]).
  destruct (specials_loop_ok vocab raw_text parse_special (cache_special_tokens vocab) [Raw 0 (Zlen raw_text)]) as (new & E & R).
  { apply Forall_singleton. simpl. lia. }
  { intros id Hi. destruct (Hk id Hi) as (d & Ed & Ht). exists d. split; [| done]. unfold get_token_data in Ed. destruct (vlookup (id_to_token vocab) id); congruence. }
  exists new. split; [| exact R]. unfold fragment_buffer, raw_fragment. destruct raw_text as [| c r] eqn:Er; [done |]. rewrite <- Er in *. rewrite (proj2 (Z.leb_le 1 _)), (proj2 (Z.leb_le (0 + _) _)) by lia. exact E.
Qed.

(** C36: dividing a text at the special tokens always succeeds and ends.  Every fragment of text that
    is left is a non-empty part of the text in which none of the special tokens that are searched
    occurs (control and unknown tokens are only searched when asked for), every other fragment is
    one of these tokens, and unless some of them strip white space the fragments put together are the
    text. *)
Theorem partition_exact {F : Type} (vocab : Vocab F) (raw_text : list Z) (parse_special : bool) : raw_text <> [] ->
  (forall id, id ∈ cache_special_tokens vocab -> exists d, get_token_data vocab id = Ok d /\ t_text d <> []) ->
  exists fragments, fragment_buffer vocab raw_text parse_special = Ok fragments /\
    (forall o l, Raw o l ∈ fragments -> 0 <= o /\ 1 <= l /\ o + l <= Zlen raw_text /\
       forall id d, (id, d) ∈ searched_specials vocab parse_special -> ~ occurs (t_text d) (vslice raw_text o l)) /\
    (forall t, Tok t ∈ fragments -> exists d, (t, d) ∈ searched_specials vocab parse_special) /\
    (forallb (fun x => negb (strips x.2)) (searched_specials vocab parse_special) = true -> concat (frag_text vocab raw_text <$> fragments) = raw_text).
Proof.
  intros Hne Hk. destruct (fragment_buffer_ok vocab raw_text parse_special Hne Hk) as (new & E & [R1 R2 R3 R4 _]). exists new. split; [exact E |]. split; [| split].
  - intros o l Hin. assert (Hg : good raw_text (Raw o l)) by (by apply (proj1 (Forall_forall _ _) R1)). destruct Hg as (? & ? & ?). do 3 (split; [done |]). intros id d Hd.
    assert (Hc : Forall (clean raw_text (t_text d)) new) by (apply R2; left; apply list_elem_of_fmap; by exists (id, d)). exact (proj1 (Forall_forall _ _) Hc _ Hin).
  - intros t Hin. destruct (R3 t Hin) as [Ht | Ht]; [| set_solver]. apply list_elem_of_fmap in Ht as ([t' d] & -> & Hd). by exists d.
  - intros Hs. rewrite (R4 Hs). simpl. by rewrite app_nil_r, vslice_all.
Qed.

Definition two_specials : Vocab Z :=
  let t := match load_tables [(bytes "<s>", 0, Some 3); (bytes "<tool>", 0, Some 4); (bytes "a", 0, Some 1)] with Ok t => t | Err _ => (∅, []) end in
  mkVocab VT_BPE false false false false false false false false false false false (-1) (-1) (-1) (-1) 64 t.1 t.2 ∅ [1; 0] [].
Lemma partition_exact_witness :
  fragment_buffer two_specials (bytes "<s>a<tool>b<s>") true = Ok [Tok 0; Raw 3 1; Tok 1; Raw 10 1; Tok 0] /\
  exists fragments, fragment_buffer two_specials (bytes "<s>a<tool>b<s>") true = Ok fragments /\ concat (frag_text two_specials (bytes "<s>a<tool>b<s>") <$> fragments) = bytes "<s>a<tool>b<s>".
Proof.
  split; [vm_compute; reflexivity |]. destruct (partition_exact two_specials (bytes "<s>a<tool>b<s>") true) as (fragments & E & _ & _ & H).
  - done.
  - intros id Hid. change (cache_special_tokens two_specials) with [1; 0] in Hid. apply list_elem_of_In in Hid as [<- | [<- | [] ] ].
    + exists (mkToken (bytes "<tool>") 0 TOKEN_ATTR_USER_DEFINED). split; [vm_compute; reflexivity | done].
    + exists (mkToken (bytes "<s>") 0 TOKEN_ATTR_CONTROL). split; [vm_compute; reflexivity | done].
  - exists fragments. split; [exact E |]. apply H. vm_compute. reflexivity.
Defined.
