(* ===== verification/Tokenize.v ===== *)
(** * Text to tokens (Vocab::impl::tokenize, src/iian/tokenizer/vocab.cpp)

    The fragments of a text are tokenized one after the other by the session of the vocabulary's
    type.  The sessions are a record; [vocab_sessions] is the one the code builds, with the sessions
    that are not modelled (PLaMo-2, and BPE for the models hybriddna and whitespace) as arguments. *)

From S2P Require Import Prelude Text Utf8 Unicode UnicodeSplit UnicodeFacts SplitRegex UnicodeProps Merge MergeInv Vocab Bpe Pieces BpeRoundTrip Spm Rwkv Ugm Wpm Partition.

(** a session appends the tokens of a text to the output *)
Definition session_fn : Type := list Z -> list Z -> res (list Z).
Record sessions := mkSessions { spm_session : session_fn; bpe_session : session_fn; wpm_session : session_fn; ugm_session : session_fn; rwkv_session : session_fn; plamo2_session : session_fn }.

Section Tokenize.
Context {F : Type} (vocab : Vocab F) (ss : sessions) (raw_text : list Z).

(** [prepare] turns the text of a fragment into the text for the session *)
Fixpoint fragments_tokens (session : session_fn) (prepare : list Z -> res (list Z)) (fragments : list fragment) (output : list Z) : res (list Z) :=
  match fragments with
  | [] => Ok output
  | Raw offset length :: fragments =>
      let! text := prepare (vslice raw_text offset length) in
      let! output := session text output in
      fragments_tokens session prepare fragments output
  | Tok token :: fragments => fragments_tokens session prepare fragments (output ++ [token])
  end.
(** SPM: a space goes before a fragment that follows a special token or starts the text *)
Fixpoint spm_fragments (fragments : list fragment) (is_prev_special : bool) (output : list Z) : res (list Z) :=
  match fragments with
  | [] => Ok output
  | Raw offset length :: fragments =>
      let text := (if add_space_prefix vocab && is_prev_special then [ch " "] else []) ++ vslice raw_text offset length in
      let! text := escape_whitespace text in
      let! output := spm_session ss text output in
      spm_fragments fragments false output
  | Tok token :: fragments => spm_fragments fragments true (output ++ [token])
  end.
(** a special token that must exist when it is asked for *)
Definition append_special (wanted : bool) (id : Z) (output : list Z) : res (list Z) :=
  if wanted then if id =? TOKEN_NULL then throw! "GGML_ASSERT" else Ok (output ++ [id]) else Ok output.
Definition escape_if (b : bool) (text : list Z) : res (list Z) := if b then escape_whitespace text else Ok text.

Definition tokenize (add_special parse_special : bool) : res (list Z) :=
  let! fragments := fragment_buffer vocab raw_text parse_special in
  match v_type vocab with
  | VT_SPM =>
      let! output := append_special (add_special && add_bos vocab) (special_bos_id vocab) [] in
      let! output := spm_fragments fragments true output in
      append_special (add_special && add_eos vocab) (special_eos_id vocab) output
  | VT_BPE =>
      let! output := (if add_special then append_bos vocab [] else Ok []) in
      let! output := fragments_tokens (bpe_session ss) (escape_if (escape_whitespaces vocab)) fragments output in
      if add_special then append_eos vocab output else Ok output
  | VT_WPM =>
      let! output := append_special add_special (special_bos_id vocab) [] in
      let! output := fragments_tokens (wpm_session ss) (fun t => Ok t) fragments output in
      append_special add_special (special_sep_id vocab) output
  | VT_UGM =>
      let! output := append_special (add_special && add_bos vocab) (special_bos_id vocab) [] in
      let! output := fragments_tokens (ugm_session ss) (fun t => Ok t) fragments output in
      append_special (add_special && add_eos vocab) (special_eos_id vocab) output
  | VT_RWKV => fragments_tokens (rwkv_session ss) (fun t => Ok t) fragments []
  | VT_PLAMO2 => fragments_tokens (plamo2_session ss) (fun t => Ok t) fragments []
  | VT_NONE => throw! "fatal error"
  end.
End Tokenize.

(** the sessions of a vocabulary; [bpe_special] is the session of the models hybriddna and whitespace *)
Section Sessions.
Context {F DD Q1 Q2 : Type} (fo : float_ops F DD) (feq : F -> F -> bool) (vocab : Vocab F).
Context `{!PQueue (b_below (spm_ops (flt fo) feq vocab)) Q1} `{!PQueue (b_below (bpe_ops vocab)) Q2}.
Context (D : unicode_data) (regex_matches : bool -> list Z -> list Z -> option (list (Z * Z))) (regex_exprs : list (list Z)) (byte_encode : bool).
Context (ugm : @llm_tokenizer_ugm F) (bpe_special : option session_fn) (plamo2 : session_fn).
Definition vocab_sessions : sessions :=
  mkSessions (spm_tokenize (flt fo) feq vocab) (default (bpe_tokenize vocab D regex_matches regex_exprs byte_encode) bpe_special)
    (wpm_tokenize vocab D) (ugm_tokenize fo vocab ugm) (rwkv_tokenize vocab) plamo2.
End Sessions.

(** * Tokenizing a text with special tokens and detokenizing it gives the text back *)

(** ** UTF-8 synchronises itself *)
Definition valid_utf8 (s : list Z) : Prop := exists cps, Forall codepoint cps /\ s = encode_all cps.
Definition continuation (b : Z) : Prop := 0x80 <= b < 0xC0.
Lemma encoded_char c : codepoint c -> exists b t, utf8_encode c = b :: t /\ ~ continuation b /\ Forall continuation t.
Proof.
  intros [H0 H1]. unfold utf8_encode, continuation. assert (M : forall x, 0x80 <= 0x80 + x mod 64 < 0xC0) by (intros x; pose proof (Z.mod_pos_bound x 64); lia).
  destruct (Z.ltb_spec c 0x80); [| destruct (Z.ltb_spec c 0x800); [| destruct (Z.ltb_spec c 0x10000) ] ]; (do 2 eexists; split; [done |]; split; [| repeat constructor; apply M]).
  - lia.
  - pose proof (div_range c 64 32). lia.
  - pose proof (div_range c 4096 16). lia.
  - pose proof (div_range c 262144 8). lia.
Qed.
Lemma first_char c d s t : codepoint c -> codepoint d -> utf8_encode c ++ s = utf8_encode d ++ t -> c = d /\ s = t.
Proof.
  intros Hc Hd E. pose proof (from_utf8_encode c s Hc) as E1. pose proof (from_utf8_encode d t Hd) as E2. rewrite E in E1. assert (c = d) as -> by congruence.
  split; [done |]. by apply app_inv_head in E.
Qed.
Lemma encode_all_cons c cps : encode_all (c :: cps) = utf8_encode c ++ encode_all cps.
Proof. done. Qed.
Lemma valid_behind ds b : Forall codepoint ds -> valid_utf8 (encode_all ds ++ b) -> valid_utf8 b.
Proof.
  intros H. induction H as [| d ds Hd _ IH]; intros (cps & Hc & E); [by exists cps |]. rewrite encode_all_cons, <- app_assoc in E. destruct cps as [| c cps].
  - destruct (encoded_char d Hd) as (x & t & Ex & _). rewrite Ex in E. done.
  - apply Forall_cons in Hc as [Hc Hcs]. rewrite encode_all_cons in E. apply first_char in E as [-> E]; [| done | done]. apply IH. by exists cps.
Qed.
Lemma valid_sides ds : ds <> [] -> Forall codepoint ds -> splits_at valid_utf8 (encode_all ds).
Proof.
  intros Hne Hds a b (cps & Hc & E). revert a E. induction Hc as [| c cps Hc Hcs IH]; intros a E.
  { destruct ds as [| d ds]; [done |]. apply Forall_cons in Hds as [Hd _]. destruct (encoded_char d Hd) as (x & t & Ex & _). rewrite encode_all_cons, Ex in E. by destruct a. }
  destruct a as [| y a].
  { split; [exists []; split; [constructor | done] |]. apply (valid_behind ds); [done |]. exists (c :: cps). split; [by constructor | done]. }
  rewrite encode_all_cons in E. apply app_eq_app in E as (k & [ [Ea Er] | [Ec Er] ]).
  - destruct (IH k) as [ (ca & Hca & Ek) Hb]; [by rewrite Er |]. split; [| done]. exists (c :: ca). split; [by constructor |]. by rewrite Ea, Ek.
  - destruct k as [| z k].
    + rewrite app_nil_r in Ec. simpl in Er. destruct (IH []) as [_ Hb]; [by rewrite <- Er |]. split; [| done]. exists [c]. split; [by constructor |]. rewrite <- Ec. unfold encode_all. simpl. by rewrite app_nil_r.
    + exfalso. destruct ds as [| d ds]; [done |]. apply Forall_cons in Hds as [Hd _]. destruct (encoded_char d Hd) as (x & t & Ex & Hx & _). rewrite encode_all_cons, Ex in Er. injection Er as -> _.
      destruct (encoded_char c Hc) as (x' & t' & Ex' & _ & Ht'). rewrite Ex' in Ec. simpl in Ec. injection Ec as _ Et. rewrite Et in Ht'. apply Forall_app in Ht' as [_ Ht']. by apply Forall_cons in Ht' as [Ht' _].
Qed.

(** ** The fragments, one after the other *)
Section RoundTrip.
Context {F : Type} (vocab : Vocab F) (HB : byte_level vocab).

(** a special token is written as it is, and is found in a text without touching what is around it *)
Definition plain_special (id : Z) : Prop := exists d ds, get_token_data vocab id = Ok d /\ ds <> [] /\ Forall codepoint ds /\ t_text d = encode_all ds /\
  has_attr (t_attr d) (Z.lor attr_special TOKEN_ATTR_USER_DEFINED) = true /\ strips d = false.
Lemma get_token_lookup id d : get_token_data vocab id = Ok d <-> vlookup (id_to_token vocab) id = Some d.
Proof. unfold get_token_data. destruct (vlookup _ _); split; congruence. Qed.
Lemma special_spells id d : vlookup (id_to_token vocab) id = Some d -> has_attr (t_attr d) (Z.lor attr_special TOKEN_ATTR_USER_DEFINED) = true -> Zlen (t_text d) < 2 ^ 31 - 1 ->
  spells vocab true [id] (t_text d).
Proof.
  intros Ed Ha Hl. apply spells_one. intros len Hlen. unfold token_to_piece, get_token_data, piece_text, plain_copy. rewrite Ed. cbn [rbind negb andb]. rewrite (bl_type vocab HB), Ha. cbv zeta iota. cbn [rbind].
  unfold try_copy. rewrite (proj2 (Z.leb_gt _ _)) by lia. change (drop_spaces (Z.to_nat 0) (t_text d)) with (t_text d). by rewrite (proj2 (Z.ltb_ge _ _)) by lia.
Qed.
Lemma fragments_spell (session : session_fn) raw_text fragments :
  (forall text, valid_utf8 text -> text <> [] -> Zlen text < 2 ^ 30 - 1 -> exists tokens, (forall output, session text output = Ok (output ++ tokens)) /\ spells vocab true tokens text) ->
  Forall (good raw_text) fragments -> Forall (raw_has raw_text valid_utf8) fragments -> (forall t, Tok t ∈ fragments -> plain_special t) -> Zlen (concat (frag_text vocab raw_text <$> fragments)) < 2 ^ 30 - 1 ->
  exists tokens, (forall output, fragments_tokens raw_text session (escape_if false) fragments output = Ok (output ++ tokens)) /\ spells vocab true tokens (concat (frag_text vocab raw_text <$> fragments)).
Proof.
  intros HS Hg. induction Hg as [| f fragments Hf _ IH]; intros HU Ht Hl; [exists []; split; [intros; simpl; by rewrite app_nil_r | apply spells_nil] |].
  apply Forall_cons in HU as [HU HUs]. rewrite fmap_cons in *. cbn [concat] in *. rewrite Zlen_app in Hl. pose proof (Zlen_nonneg (frag_text vocab raw_text f)). pose proof (Zlen_nonneg (concat (frag_text vocab raw_text <$> fragments))).
  destruct IH as (ts & E & Hs); [done | intros t Hin; apply Ht; set_solver | lia |].
  assert (G : exists tf, (forall output, fragments_tokens raw_text session (escape_if false) (f :: fragments) output = fragments_tokens raw_text session (escape_if false) fragments (output ++ tf)) /\ spells vocab true tf (frag_text vocab raw_text f)).
  { destruct f as [o l | t].
    - destruct Hf as (G1 & G2 & G3). assert (Hn : vslice raw_text o l <> []) by (intros E0; apply (f_equal Zlen) in E0; rewrite Zlen_nil in E0; rewrite vslice_length in E0; lia).
      destruct (HS (vslice raw_text o l)) as (tf & Ef & Hsf); [done | done | simpl in *; lia |]. exists tf. split; [| done]. intros output. cbn [fragments_tokens escape_if rbind]. by rewrite Ef.
    - exists [t]. split; [done |]. destruct (Ht t ltac:(set_solver)) as (d & ds & Ed%get_token_lookup & _ & _ & _ & Ha & _). simpl. rewrite Ed. apply special_spells; [done | done |]. simpl in *. rewrite Ed in *. lia. }
  destruct G as (tf & Ef & Hsf). exists (tf ++ ts). split; [| by apply spells_app]. intros output. by rewrite Ef, E, app_assoc.
Qed.
End RoundTrip.


Definition bpe_only (f : session_fn) : sessions := let none : session_fn := fun _ _ => throw! "no session" in mkSessions none f none none none none.
